(* ===== verification/_CoqProject ===== *)
-Q . S2P
Prelude.v
Bitfield.v
IntMath.v
Flags.v
EventQueue.v
EventQueueSpec.v
EventQueueProps.v
AddrRange.v
AddrRangeProps.v
SatCounter.v
Clocked.v
ReplPolicies.v
ReplPoliciesProps.v
TreePLRU.v
Dueling.v
Indexing.v
Packet.v
PacketProps.v
CacheBlk.v
SetAssoc.v
SetAssocProps.v
SnoopFilter.v
SnoopFilterProps.v
AddrRangeMap.v
AddrRangeMapProps.v
XBarLayer.v
XBarLayerProps.v
XBar.v
XBarProps.v
PacketQueue.v
PacketQueueProps.v
Bridge.v
BridgeProps.v
RAS.v
BPred.v
BPredProps.v
CondPred.v
LocalBP.v
BiModeBP.v
TournamentBP.v
CondPredProps.v
Indirect.v
IndirectProps.v
TageBase.v
Tage.v
TageHistory.v
TageTables.v
TageProps.v
RenameMap.v
Rename.v
RenameLemmas.v
RenameProps.v
RenameFlow.v
RenameExample.v
MSHR.v
MSHRQueue.v
CacheQueues.v
MSHRCore.v
MSHROps.v
MSHRMachine.v
MSHRMoves.v
MSHRFile.v
CacheSystem.v
CacheInv.v
CacheSteps.v
CacheRuns.v
MSHRProps.v
CacheExample.v
CacheProps.v
AbstractMem.v
SimpleMem.v
AbstractMemProps.v
SimpleMemProps.v
CoherentXBar.v
CoherentFilter.v
CoherentInv.v
CoherentSteps.v
CoherentRuns.v
CoherentProps.v
CoherentExample.v
