(* ===== verification/Prelude.v ===== *)
(** * gem5: a verification library for the simulator's core

    gem5 is a full-system computer simulator in C++.  A simulation is a set of objects
    (CPUs, caches, crossbars, memories, devices) that exchange [Packet]s through ports and
    schedule [Event]s on a queue, which is the only source of simulated time.  This library
    models the parts every simulation runs on and proves what makes them correct.

    ** The parts and the files that model them

    - Integers.  [Bitfield] (src/base/bitfield.hh, bitfield.cc), [IntMath]
      (src/base/intmath.hh), [Flags] (src/base/flags.hh) and [SatCounter]
      (src/base/sat_counter.hh).  A [w]-bit unsigned variable is a [Z] in [[0, 2^w)];
      every store wraps ([wrap], [swrap] below).  The other parts call these definitions
      where the code calls the functions.
    - Time.  [EventQueue] (src/sim/eventq.hh, eventq.cc) keeps the pointer structure: a heap
      of events, the links [nextBin] and [nextInBin], the head and the current tick.
      [EventQueueSpec] gives the abstract queue, bins in increasing (time, priority), each a
      stack, and shows that the pointer code implements it; [EventQueueProps] has the
      invariant of a queue and the theorems about its operations.  [Clocked]
      (src/sim/clocked_object.hh, clock_domain.cc) is the lazily updated clock of an object
      and the tree of clock domains.
    - Addresses.  [AddrRange] and [AddrRangeProps] (src/base/addr_range.hh): ranges
      interleaved by the parity of masked address bits.  [Indexing]
      (src/mem/cache/tags/indexing_policies): the set of a block in each way, and its address
      back from tag and position.
    - Replacement.  [ReplPolicies] and [ReplPoliciesProps] (lru, mru, bip, weighted_lru, lfu,
      fifo, second_chance, random, brrip, ship in src/mem/cache/replacement_policies),
      [TreePLRU] (tree_plru_rp) and [Dueling] (dueling_rp and src/mem/cache/tags/dueling).
      The class [ReplPoliciesProps.Policy] is the virtual interface [Base] and
      [PolicyLaws] what it promises; the policies are instances and [Dueling] a client that
      owns two of them.
    - Messages.  [Packet] and [PacketProps] (src/mem/packet.hh, packet.cc): the table of
      commands and its attributes, and the life of a packet.  [SnoopFilter] and
      [SnoopFilterProps] (src/mem/snoop_filter.hh, snoop_filter.cc): which ports may hold a
      line, over the same packets.
    - Routing.  [AddrRangeMap] and [AddrRangeMapProps] (src/base/addr_range_map.hh): a map of
      disjoint ranges with a cache of iterators.  [XBarLayer] and [XBarLayerProps]
      (src/mem/xbar.hh, xbar.cc): the arbitration of one destination of a crossbar.  [XBar]
      and [XBarProps] (src/mem/xbar.cc, noncoherent_xbar.cc): the crossbar that is made of
      them, over [AddrRange], [Clocked] and [Packet].
    - Queues and bridges.  [PacketQueue] and [PacketQueueProps] (src/mem/packet_queue.hh,
      packet_queue.cc): the queue behind a port, with its send event and retries.  [Bridge]
      and [BridgeProps] (src/mem/bridge.hh, bridge.cc): two ports with limited room.
    - Branch prediction.  [BPred] and [BPredProps] (src/cpu/pred/bpred_unit.cc): the unit
      with its histories of branches in flight, over two interfaces: [PredictorLaws] states
      what a conditional predictor promises, [IndirectLaws] what an indirect one does.
      [RAS] (ras.cc), [CondPred], [LocalBP], [BiModeBP], [TournamentBP] with [CondPredProps]
      (2bit_local.cc, bi_mode.cc, tournament.cc) and [Indirect] with [IndirectProps]
      (simple_indirect.cc) are its parts and discharge the interfaces.  [TageBase] and [Tage]
      (tage_base.cc, tage.cc) are the TAGE predictor, with its specification [TageSpec] in the
      file of [Tage]; [TageHistory] (folding and the circular buffer, with the Modules
      [TageThread] and [TagePath] on the operations on histories), [TageTables] (with
      [TageIndex]) and [TageProps] are the refinement.
    - Register renaming.  [RenameMap] (src/cpu/reg_class.hh, src/cpu/o3/free_list.hh,
      rename_map.cc, regfile.cc, scoreboard.hh): maps, free lists, the register file and the
      scoreboard.  [Rename] (src/cpu/o3/rename.cc, and what dyn_inst.cc, inst_queue.cc,
      iew.cc, commit.cc and cpu.cc do with the same structures): renaming, squash, release,
      write-back and commit.  [RenameLemmas], [RenameProps] and [RenameFlow] prove, for
      every machine of the class [RenameProps.Config], what they do together;
      [RenameExample] runs a small one.
    - The queues of a cache.  [MSHR] (src/mem/cache/mshr.hh, mshr.cc): miss status holding
      registers with their lists of targets.  The heap has the packets and the MSHRs of all
      the caches, since a packet points to the MSHRs it came through and an MSHR clears the
      marks of those above it.  [MSHRQueue] (queue.hh, queue_entry.hh, mshr_queue.cc,
      write_queue.cc, write_queue_entry.cc): the template of queues over the class
      [QueueEntry], with its two instances.  [CacheQueues] (base.cc, base.hh, cache.cc): what
      a cache does with them.  Tags, the state of blocks, the write allocator and the
      prefetcher answer questions of these operations, and their answers are arguments
      ([Environment], [Outcome], [readable], [writable]).
      [MSHRLemmas], [MSHRCore], [MSHROps] say what each operation does to the view of an
      MSHR ([Core]); [MSHRMachine] is the abstract machine ([move], [birth], [death]) with its
      invariant [Waits]; [MSHRMoves] and [MSHRFile] show that the operations are its moves,
      [MSHRQueueLemmas] that they keep the lists of a queue.  [CacheSystem] is the step
      relation of a cache, [CacheInv], [CacheSteps], [CacheEvents] and [CacheRuns] prove its
      invariant, [MSHRProps] and [CacheProps] have the theorems, [CacheExample] runs a small
      cache.  ([MSHRLemmas], [MSHRQueueLemmas] and [CacheEvents] are Modules in the files of
      [MSHRCore], [MSHRMoves] and [CacheRuns].)
    - Cache tags.  [CacheBlk] (src/mem/cache/cache_blk.hh, tags/tagged_entry.hh): a block with
      its tag, coherence bits and load-locked ranges; its Module [Partition]
      (tags/partitioning_policies) has the policies that limit who may allocate.  [SetAssoc]
      (tags/base.cc, base_set_assoc.cc, and allocation and eviction of cache/base.cc and
      cache.cc): tags over the classes [TagIndexing] and [ReplacementPolicy], which the
      policies of [Indexing] and [ReplPolicies] implement; [TagsSpec] in the same file is the
      map that tags are meant to be.  [SetAssocProps] has the laws of the two classes and the
      refinement.
    - Memory.  [AbstractMem] (src/mem/abstract_mem.hh, abstract_mem.cc): the bytes of a
      memory, its load-locked addresses and the pointers to it that others hold; timing,
      functional and atomic accesses are functions on it.  [SimpleMem]
      (src/mem/simple_mem.cc): its port, with a busy time per request, a queue of responses
      and retries.  The time of a request, which the code computes with floating point, is a
      parameter, the latency that may be random an argument.
    - The coherent crossbar.  [CoherentXBar] (src/mem/coherent_xbar.hh, coherent_xbar.cc) has
      the state of [XBar.BaseXBar], the snoop filter, a layer of snoop responses per
      memory-side port, the outstanding snoops and the clean requests that wait for their
      writes; its parts of recvTimingReq are definitions of their own.  What the neighbours do
      is an argument.  [CoherentFilter] says which bits of the filter its operations set;
      [CoherentInv] has what layers and clocks leave alone ([CoherentLemmas]), the abstract
      table of what is owed and its representation, [CoherentSteps] and [CoherentRuns] that each
      operation keeps it, under the interface [CoherentSteps.Neighbours]; [CoherentProps] and
      [CoherentExample] have the theorems and a run of two caches.
    ** Conventions

    A function of the source is a definition of the same name; an overload gets a suffix.
    Code that can fail is in the [result] monad of this file: [AssertFailed] is an [assert],
    [Panic] a [panic] or an exception, [Fatal] a [fatal], [Undefined] what C++ leaves undefined
    (a null or dangling pointer, a shift by the width or more), [OutOfFuel] a loop of the model
    that was cut short.  An [assert] is modelled as it behaves in a debug build.
    Objects that the code shares through pointers (events, replacement data, trees) are in a
    store indexed by the pointer, and a method changes them in place.  The result of a loop
    whose length is not structural takes fuel, and a theorem says which fuel suffices: the
    number of queued events for the loops of the event queue ([schedule], [deschedule],
    [serviceEvents]), one round over the candidates and one step for SecondChance.  The
    depth of a tree of TreePLRU is bounded in the same way.  No theorem has the absence of
    [OutOfFuel] as a hypothesis.

    ** What the theorems show

    - [EventQueueProps]: [schedule], [deschedule] and [reschedule] refine insertion, removal
      and move of the abstract queue and keep its invariant; [serviceOne] runs the earliest
      event with the clock at its time; [serviceEvents] terminates having serviced the events
      that were due; [debugVerify] accepts every such queue that starts at tick 0 or later
      with a non-negative priority at tick 0, and not the others; what a checkpoint keeps.
    - [AddrRangeProps], [Indexing]: removing and adding the interleaving bits, and splitting
      an address into tag and set, are inverse; interleaved ranges partition an interval;
      [exclude] is set difference; merging is exact.
    - [ReplPoliciesProps], [TreePLRU], [Dueling]: what each policy evicts, that a search
      ends, that a policy returns one of the candidates, and which policy a duel follows.
    - [PacketProps], [SnoopFilterProps]: responses match requests; a functional read assembles
      the memory's bytes and claims no other; the ports to snoop are exactly those that hold
      the line; a retried request leaves no trace; no line is tracked for nobody.
    - [Clocked], [SatCounter], [Bitfield], [IntMath]: lazy update is unobservable, a change of
      period loses no time; arithmetic saturates; portable code equals the builtins and the
      multiplication of words is exact.
    - [AddrRangeMapProps], [XBarLayerProps], [XBarProps]: a lookup finds the entry whatever the
      cache holds; a layer loses no wake-up, keeps the order of the ports and makes none wait
      forever; requests are routed by their addresses, what is announced is what is routed,
      and a response returns to the port its request came from.
    - [PacketQueueProps], [BridgeProps]: packets leave in the order of their times, none is
      lost or doubled, no queue and no refused source waits for a wake-up that does not come.
    - [RAS], [BPredProps], [CondPredProps], [IndirectProps]: the return address stack is a
      bounded stack, wrong paths included; the speculative histories are those of the
      branches of the current path; counters and registers keep their widths.
    - [TageProps]: with its circular buffer, its folded histories and what branches restore of
      them TAGE predicts and trains as a predictor that hashes the list of the outcomes of its
      path ([TageSpec]), and fails nowhere.  Assumed: the buffer has room for the outcomes
      recorded after a branch in flight, the lengths of the histories are between 1 and the
      longest, and no bank has a number above the logarithm of its size.
    - [RenameProps], [RenameFlow]: every physical register is in exactly one place, squash
      restores the map, no operation fails; and instructions that execute out of order,
      with wrong paths and several threads, compute what the committed instructions
      compute one after the other.
    - [CacheProps], [MSHRProps]: each step of a cache refines the machine of each of its MSHRs;
      what an MSHR accepted is what it answered followed by what waits in it; a request that
      came after an invalidation does not get the old block; an MSHR asks for what its
      targets need; the processor is blocked exactly while a queue is full or a request that
      joined an MSHR has left it without room for targets; what is pending
      will be sent, in the order of accesses to its block.
      The step relation assumes of the surroundings that a response answers an MSHR in
      service, that the processor ends the locked sequences that it began and no others, that
      snoops have the commands that snoops have ([snoop_packet]) and that others change the
      packets of targets as an upgrade that is replaced does; times are below [MaxTick].
      Operations that fail an assertion are not steps.  The recursion that clears the marks
      of MSHRs has the number of MSHRs as fuel, which is proved to be enough.
    - [AbstractMemProps], [SimpleMemProps]: a load reads what the last stores to its bytes
      wrote, a store conditional succeeds exactly when no store that starts in its block came between,
      no pointer to the memory is held while an address is locked; every request is answered
      once, those to one address in order, and nothing waits for a wake-up that does not come.
    - [CoherentProps], [CoherentExample]: the tables of a coherent crossbar represent one table
      of responses that are owed, every response that was due left once or is owed, to the port
      it is due to; the snoop filter marks exactly the ports that wait; a request snoops
      exactly the other ports that may have its line, but for those that ask nobody (a
      WriteClean, and an eviction when there is a filter).  Assumed of the surroundings: a request is not
      sent again while it is outstanding, memory and caches answer what they owe, caches
      promise no answers to clean requests or to those that need none, cacheable requests of
      caches have commands of caches, and the caches are not bypassed.
    - [SetAssocProps]: set-associative tags are a map from block addresses and security
      domains to places and states, for every policy that keeps the laws; no partition has
      more blocks than its capacity, or than one when that is zero or not configured.  Assumed
      of the cache: it fills only what it does not find, and a request in flight for a block
      of the cache asks for more than it has.
    ** What is not modelled

    Debug output, statistics other than those named in a record, latencies that do not feed
    back into state, and thread synchronisation (the mutexes of the event queue: its methods
    are the steps of one thread, [asyncInsert] and [handleAsyncInsertions] are the two
    halves of the exchange between threads).  Virtual functions of objects outside a
    part, [Event::process] and the handlers of a clock domain, are parameters, with what is
    assumed of them in the theorem.  Random draws are arguments.  The C++ standard
    library and the compiler builtins are modelled by their specification.  The processor
    models beyond branch prediction and register renaming, instruction sets, devices, Ruby,
    the memory controllers and the Python configuration are out of scope.  Of renaming, the
    flow control of the stage (status, skid buffers, stalls, serialising instructions) is
    left out: the theorems are about every order of its operations that the pipeline allows.
    Of the caches, the data of blocks, the handling of hits and the responses to the processor
    are left out, and of the tags the sector, compressed and fully associative ones.

    ** What is left

    The data of the blocks of caches and the coherence of several caches, the queues of the
    memory controllers, the perceptron and loop predictors, the flow control of the pipeline
    and its reorder buffer.  They are of the same kind as the
    parts that are here and would be next.  Instruction sets, devices, the GPU, Ruby and the
    emulation of operating systems are each larger than all of this. *)

From Stdlib Require Import ZArith Lia Btauto.
From stdpp Require Import base numbers option list gmap.

#[global] Open Scope Z_scope.
#[global] Set Default Goal Selector "!".

(** ** Machine integers

    A [w]-bit unsigned integer is a [Z]; [wrap w] is the value a store to such a
    variable keeps.  [swrap w] is the two's complement reading of the same bits. *)

Declare Scope gem5_scope.
Delimit Scope gem5_scope with gem5.
#[global] Open Scope gem5_scope.

Definition wrap (w z : Z) : Z := z mod 2 ^ w.

Definition swrap (w z : Z) : Z := (z + 2 ^ (w - 1)) mod 2 ^ w - 2 ^ (w - 1).

(** Bitwise complement at width [w] (C++ [~] on an unsigned operand). *)
Definition unot (w z : Z) : Z := wrap w (Z.lnot z).

Abbreviation u8 := (wrap 8).
Abbreviation u16 := (wrap 16).
Abbreviation u32 := (wrap 32).
Abbreviation u64 := (wrap 64).
Abbreviation s32 := (swrap 32).
Abbreviation s64 := (swrap 64).

Notation "x '.&' y" := (Z.land x y) (at level 40, left associativity) : gem5_scope.
Notation "x '.|' y" := (Z.lor x y) (at level 50, left associativity) : gem5_scope.
Notation "x '.^' y" := (Z.lxor x y) (at level 45, left associativity) : gem5_scope.
Notation "x '.<<' y" := (Z.shiftl x y) (at level 34, left associativity) : gem5_scope.
Notation "x '.>>' y" := (Z.shiftr x y) (at level 34, left associativity) : gem5_scope.

(** [fits w z]: [z] is a value a [w]-bit unsigned variable can hold. *)
Definition fits (w z : Z) : Prop := 0 <= z < 2 ^ w.

(** ** Failures

    gem5 stops the simulation through [assert], [panic] and [fatal]; an
    operation C++ leaves undefined (a null dereference, an out-of-range index)
    is [Undefined].  [OutOfFuel] is the model's own: a loop that was given too
    little fuel.  Theorems of termination state that it is never returned. *)

Inductive failure :=
  | AssertFailed
  | Panic
  | Fatal
  | Undefined
  | OutOfFuel.

Inductive result (A : Type) :=
  | Ok (a : A)
  | Err (e : failure).
Arguments Ok {A} a.
Arguments Err {A} e.

#[global] Instance failure_eq_dec : EqDecision failure.
Proof. solve_decision. Defined.

#[global] Instance result_ret : MRet result := @Ok.
#[global] Instance result_bind : MBind result := λ A B k r,
  match r with Ok a => k a | Err e => Err e end.
#[global] Instance result_fmap : FMap result := λ A B f r,
  match r with Ok a => Ok (f a) | Err e => Err e end.

(** [assert(c)] and the dereference of a pointer-like lookup. *)
Definition assert_ok (c : bool) : result unit := if c then Ok tt else Err AssertFailed.
Definition fatal_if (c : bool) : result unit := if c then Err Fatal else Ok tt.
Definition panic_if (c : bool) : result unit := if c then Err Panic else Ok tt.
Definition deref {A} (o : option A) : result A :=
  match o with Some a => Ok a | None => Err Undefined end.

(** Reading and assigning an element of a vector. *)
Definition store_at {A} (l : list A) (i : Z) (a : A) : result (list A) :=
  if (0 <=? i) && (i <? Z.of_nat (length l)) then Ok (<[Z.to_nat i := a]> l) else Err Undefined.
Definition load_at {A} (l : list A) (i : Z) : result A :=
  if i <? 0 then Err Undefined else deref (l !! Z.to_nat i).

Lemma bind_Ok {A B} (r : result A) (k : A → result B) b :
  (r ≫= k) = Ok b ↔ ∃ a, r = Ok a ∧ k a = Ok b.
Proof.
  destruct r as [a|e]; simpl; split; [by exists a|by intros (? & [= ->] & ?)|done|].
  by intros (? & ? & ?).
Qed.

Lemma assert_ok_true (c : bool) : assert_ok c = Ok tt ↔ c = true.
Proof. by destruct c. Qed.

Lemma deref_Ok {A} (o : option A) a : deref o = Ok a ↔ o = Some a.
Proof. destruct o; naive_solver. Qed.

(** [res_inv H] takes a monadic computation that returned apart. *)
Ltac res_inv :=
  repeat match goal with
  | H : (_ ≫= _) = Ok _ |- _ =>
      apply bind_Ok in H;
      let a := fresh "a" in let E := fresh "E" in destruct H as (a & E & H)
  | H : Ok _ = Ok _ |- _ => injection H as H; subst
  | H : mret _ = Ok _ |- _ => injection H as H; subst
  | H : Err _ = Ok _ |- _ => discriminate H
  | H : assert_ok _ = Ok _ |- _ => apply assert_ok_true in H
  | H : deref _ = Ok _ |- _ => apply deref_Ok in H
  | H : (if ?c then Err _ else _) = Ok _ |- _ => destruct c eqn:?; [discriminate H|]
  end.

(** Boolean tests of the code as propositions. *)
Ltac bool_prop :=
  repeat match goal with
  | H : negb _ = true |- _ => apply negb_true_iff in H
  | H : negb _ = false |- _ => apply negb_false_iff in H
  | H : _ && _ = true |- _ => apply andb_true_iff in H; destruct H
  | H : _ || _ = false |- _ => apply orb_false_iff in H; destruct H
  | H : (_ =? _) = true |- _ => apply Z.eqb_eq in H
  | H : (_ =? _) = false |- _ => apply Z.eqb_neq in H
  | H : (_ <? _) = true |- _ => apply Z.ltb_lt in H
  | H : (_ <? _) = false |- _ => apply Z.ltb_ge in H
  | H : (_ <=? _) = true |- _ => apply Z.leb_le in H
  | H : (_ <=? _) = false |- _ => apply Z.leb_gt in H
  end.

(** ** Bits *)

Create Rewrite HintDb testbit.
Create HintDb gem5 discriminated.

Lemma pow2_pos n : 0 <= n → 0 < 2 ^ n.
Proof. intros. by apply Z.pow_pos_nonneg. Qed.
#[export] Hint Resolve pow2_pos : gem5.

Lemma testbit_wrap w z i : 0 <= w → 0 <= i →
  Z.testbit (wrap w z) i = (i <? w) && Z.testbit z i.
Proof.
  intros Hw Hi. unfold wrap. destruct (Z.ltb_spec i w).
  - by rewrite Z.mod_pow2_bits_low.
  - by rewrite Z.mod_pow2_bits_high by lia.
Qed.

Lemma testbit_ones n i : 0 <= n → 0 <= i → Z.testbit (Z.ones n) i = (i <? n).
Proof. intros. by apply Z.testbit_ones_nonneg. Qed.

Lemma testbit_unot w z i : 0 <= w → 0 <= i →
  Z.testbit (unot w z) i = (i <? w) && negb (Z.testbit z i).
Proof. intros. unfold unot. by rewrite testbit_wrap, Z.lnot_spec. Qed.

Lemma testbit_pow2 n i : 0 <= n → Z.testbit (2 ^ n) i = (i =? n).
Proof.
  intros. destruct (Z.eqb_spec i n) as [->|].
  - by apply Z.pow2_bits_true.
  - by apply Z.pow2_bits_false.
Qed.

Lemma testbit_fits w z i : fits w z → w <= i → Z.testbit z i = false.
Proof.
  intros [Hz1 Hz2] Hi. destruct (decide (w < 0)).
  { rewrite Z.pow_neg_r in Hz2 by lia. lia. }
  rewrite <-(Z.mod_small z (2 ^ w)) by lia. apply Z.mod_pow2_bits_high. lia.
Qed.

Lemma fits_testbit w z : 0 <= w → 0 <= z →
  (∀ i, w <= i → Z.testbit z i = false) → fits w z.
Proof.
  intros Hw Hz H. split; [done|].
  destruct (Z.lt_ge_cases z (2 ^ w)) as [|Hge]; [done|exfalso].
  assert (0 < z) by (pose proof (pow2_pos w Hw); lia).
  assert (w <= Z.log2 z) by (by apply Z.log2_le_pow2).
  specialize (H (Z.log2 z) ltac:(lia)). by rewrite Z.bit_log2 in H.
Qed.

Lemma wrap_fits w z : 0 <= w → fits w (wrap w z).
Proof. intros. unfold fits, wrap. apply Z.mod_pos_bound. by apply pow2_pos. Qed.
#[export] Hint Resolve wrap_fits : gem5.

Lemma wrap_small w z : fits w z → wrap w z = z.
Proof. intros []. by apply Z.mod_small. Qed.

Lemma wrap_nonneg w z : 0 <= w → 0 <= wrap w z.
Proof. intros. by apply wrap_fits. Qed.

Lemma wrap_lt w z : 0 <= w → wrap w z < 2 ^ w.
Proof. intros. by apply wrap_fits. Qed.

Lemma wrap_idemp w z : 0 <= w → wrap w (wrap w z) = wrap w z.
Proof. intros. apply wrap_small. auto with gem5. Qed.

#[export] Hint Rewrite Z.land_spec Z.lor_spec Z.lxor_spec Z.ldiff_spec Z.testbit_0_l
  : testbit.
#[export] Hint Rewrite testbit_wrap testbit_unot testbit_ones testbit_pow2
  Z.lnot_spec Z.shiftr_spec Z.shiftl_spec Z.testbit_neg_r using lia : testbit.

(** Splits on the index comparisons the [testbit] rewrites leave behind. *)
Ltac split_cmp :=
  repeat match goal with
  | |- context [?a <? ?b] => destruct (Z.ltb_spec a b); try lia
  | |- context [?a <=? ?b] => destruct (Z.leb_spec a b); try lia
  | |- context [?a =? ?b] => destruct (Z.eqb_spec a b); subst; try lia
  end.

(** Equality of two integers bit by bit. *)
Ltac bitwise :=
  apply Z.bits_inj'; let i := fresh "i" in let Hi := fresh "Hi" in
  intros i Hi; autorewrite with testbit; split_cmp;
  autorewrite with testbit; simpl; try done; try btauto.

Lemma wrap_land_ones w z : 0 <= w → wrap w z = z .& Z.ones w.
Proof. intros. unfold wrap. by rewrite Z.land_ones. Qed.

Lemma fits_land w a b : 0 <= w → fits w a → 0 <= b → fits w (a .& b).
Proof.
  intros Hw Ha Hb. apply fits_testbit; [done|apply Z.land_nonneg; left; apply Ha|].
  intros i Hi. by rewrite Z.land_spec, (testbit_fits w a).
Qed.

Lemma fits_lor w a b : 0 <= w → fits w a → fits w b → fits w (a .| b).
Proof.
  intros Hw Ha Hb. apply fits_testbit; [done| |].
  - apply Z.lor_nonneg. split; [apply Ha|apply Hb].
  - intros i Hi. by rewrite Z.lor_spec, (testbit_fits w a), (testbit_fits w b).
Qed.

Lemma fits_lxor w a b : 0 <= w → fits w a → fits w b → fits w (a .^ b).
Proof.
  intros Hw Ha Hb. apply fits_testbit; [done| |].
  - apply Z.lxor_nonneg. split; intros _; [apply Hb|apply Ha].
  - intros i Hi. by rewrite Z.lxor_spec, (testbit_fits w a), (testbit_fits w b).
Qed.

Lemma fits_shiftr w a n : 0 <= w → 0 <= n → fits w a → fits w (a .>> n).
Proof.
  intros Hw Hn [Ha1 Ha2]. split; [by apply Z.shiftr_nonneg|].
  rewrite Z.shiftr_div_pow2 by done.
  eapply Z.le_lt_trans; [|exact Ha2].
  apply Z.div_le_upper_bound; [by apply pow2_pos|].
  pose proof (pow2_pos n Hn). nia.
Qed.

#[export] Hint Resolve fits_land fits_lor fits_lxor fits_shiftr : gem5.

(** A masked index. *)
Lemma index_range x m : 0 <= m → 0 <= x .& m <= m.
Proof. intros Hm. apply Z.ldiff_le; [done|]. bitwise. Qed.

(** ** Vectors *)

Lemma store_at_spec {A} (l : list A) i a : 0 <= i < Z.of_nat (length l) →
  store_at l i a = Ok (<[Z.to_nat i := a]> l).
Proof.
  intros Hi. unfold store_at. replace (0 <=? i) with true by lia.
  by replace (i <? Z.of_nat (length l)) with true by lia.
Qed.

Lemma load_at_spec {A} (l : list A) i : 0 <= i < Z.of_nat (length l) →
  ∃ a, load_at l i = Ok a ∧ l !! Z.to_nat i = Some a.
Proof.
  intros Hi. unfold load_at. replace (i <? 0) with false by lia.
  destruct (lookup_lt_is_Some_2 l (Z.to_nat i)) as [a Ha]; [lia|]. exists a. by rewrite Ha.
Qed.
