(* ===== verification/Bitfield.v ===== *)
(** * base/bitfield.hh, base/bitfield.cc: bit-field helpers

    One definition per function of the header.  A C++ template over an unsigned
    type [T] is a definition over its width [w].  A helper that
    asserts something of its arguments ([bits], [insertBits], [reverseBits]) fails when
    the assertion does; what it returns otherwise is a definition of its own
    ([bit_field], [insert_field], [reverse_bits]), which a caller whose arguments are
    in order whatever its state uses directly.  The compiler builtins
    ([__builtin_ctz], [__builtin_clz], [__builtin_popcountl]) are modelled by what
    they count. *)

From Stdlib Require Import ZArith Lia Btauto.
From stdpp Require Import base numbers option list.
From S2P Require Import Prelude.

Module Bitfield.

(** mask(nbits): the low [nbits] bits set. *)
Definition mask (nbits : Z) : Z :=
  if 64 <=? nbits then u64 (-1) else u64 (u64 (1 .<< nbits) - 1).

(** What bits(val, first, last) returns; [nbits] is an unsigned computation stored in
    an int. *)
Definition bit_field (w val first last : Z) : Z :=
  let nbits := u32 (first - last + 1) in
  wrap w ((val .>> last) .& mask nbits).

Definition bits (w val first last : Z) : result Z :=
  _ ← assert_ok (last <=? first); Ok (bit_field w val first last).

(** bits(val, bit): the assertion of the call it makes holds. *)
Definition bits1 (w val bit : Z) : Z := bit_field w val bit bit.

Definition mbits (w val first last : Z) : Z :=
  wrap w (val .& (mask (u32 (first + 1)) .& unot 64 (mask last))).

(** mask(first, last) *)
Definition mask2 (first last : Z) : Z := mbits 64 (u64 (-1)) first last.

(** sext<N>(val) and sext(val, N) have the same body. *)
Definition sext (N val : Z) : Z :=
  let sign_bit := negb (bits1 64 val (u32 (N - 1)) =? 0) in
  if sign_bit then val .| unot 64 (mask N) else val.

Definition szext (N val : Z) : Z :=
  let sign_bit := negb (bits1 64 val (u32 (N - 1)) =? 0) in
  if sign_bit then val .| unot 64 (mask N) else val .& mask N.

(** What insertBits(val, first, last, bit_val) returns. *)
Definition insert_field (w val first last bit_val : Z) : Z :=
  let bmask := wrap w (mask2 first last) in
  let val := val .& unot w bmask in
  val .| wrap w ((wrap w bit_val .<< last) .& bmask).

Definition insertBits (w val first last bit_val : Z) : result Z :=
  _ ← assert_ok (last <=? first); Ok (insert_field w val first last bit_val).

Definition insertBits1 (w val bit bit_val : Z) : Z := insert_field w val bit bit bit_val.

(** reverseBitsLookUpTable of bitfield.cc. *)
Definition reverseBitsLookUpTable : list Z :=
  [0x00; 0x80; 0x40; 0xC0; 0x20; 0xA0; 0x60; 0xE0; 0x10; 0x90; 0x50; 0xD0;
   0x30; 0xB0; 0x70; 0xF0; 0x08; 0x88; 0x48; 0xC8; 0x28; 0xA8; 0x68; 0xE8;
   0x18; 0x98; 0x58; 0xD8; 0x38; 0xB8; 0x78; 0xF8; 0x04; 0x84; 0x44; 0xC4;
   0x24; 0xA4; 0x64; 0xE4; 0x14; 0x94; 0x54; 0xD4; 0x34; 0xB4; 0x74; 0xF4;
   0x0C; 0x8C; 0x4C; 0xCC; 0x2C; 0xAC; 0x6C; 0xEC; 0x1C; 0x9C; 0x5C; 0xDC;
   0x3C; 0xBC; 0x7C; 0xFC; 0x02; 0x82; 0x42; 0xC2; 0x22; 0xA2; 0x62; 0xE2;
   0x12; 0x92; 0x52; 0xD2; 0x32; 0xB2; 0x72; 0xF2; 0x0A; 0x8A; 0x4A; 0xCA;
   0x2A; 0xAA; 0x6A; 0xEA; 0x1A; 0x9A; 0x5A; 0xDA; 0x3A; 0xBA; 0x7A; 0xFA;
   0x06; 0x86; 0x46; 0xC6; 0x26; 0xA6; 0x66; 0xE6; 0x16; 0x96; 0x56; 0xD6;
   0x36; 0xB6; 0x76; 0xF6; 0x0E; 0x8E; 0x4E; 0xCE; 0x2E; 0xAE; 0x6E; 0xEE;
   0x1E; 0x9E; 0x5E; 0xDE; 0x3E; 0xBE; 0x7E; 0xFE; 0x01; 0x81; 0x41; 0xC1;
   0x21; 0xA1; 0x61; 0xE1; 0x11; 0x91; 0x51; 0xD1; 0x31; 0xB1; 0x71; 0xF1;
   0x09; 0x89; 0x49; 0xC9; 0x29; 0xA9; 0x69; 0xE9; 0x19; 0x99; 0x59; 0xD9;
   0x39; 0xB9; 0x79; 0xF9; 0x05; 0x85; 0x45; 0xC5; 0x25; 0xA5; 0x65; 0xE5;
   0x15; 0x95; 0x55; 0xD5; 0x35; 0xB5; 0x75; 0xF5; 0x0D; 0x8D; 0x4D; 0xCD;
   0x2D; 0xAD; 0x6D; 0xED; 0x1D; 0x9D; 0x5D; 0xDD; 0x3D; 0xBD; 0x7D; 0xFD;
   0x03; 0x83; 0x43; 0xC3; 0x23; 0xA3; 0x63; 0xE3; 0x13; 0x93; 0x53; 0xD3;
   0x33; 0xB3; 0x73; 0xF3; 0x0B; 0x8B; 0x4B; 0xCB; 0x2B; 0xAB; 0x6B; 0xEB;
   0x1B; 0x9B; 0x5B; 0xDB; 0x3B; 0xBB; 0x7B; 0xFB; 0x07; 0x87; 0x47; 0xC7;
   0x27; 0xA7; 0x67; 0xE7; 0x17; 0x97; 0x57; 0xD7; 0x37; 0xB7; 0x77; 0xF7;
   0x0F; 0x8F; 0x4F; 0xCF; 0x2F; 0xAF; 0x6F; 0xEF; 0x1F; 0x9F; 0x5F; 0xDF;
   0x3F; 0xBF; 0x7F; 0xFF].

Definition reverse_byte (b : Z) : Z := reverseBitsLookUpTable !!! Z.to_nat b.

(** The byte loop of reverseBits: [n] bytes are still to be moved from the low
    end of [val] to the low end of [output]. *)
Fixpoint reverse_loop (w : Z) (n : nat) (val output : Z) : Z :=
  match n with
  | O => output
  | S n => reverse_loop w n (val .>> 8)
             (wrap w (output .<< 8) .| reverse_byte (val .& mask 8))
  end.

(** What reverseBits(val, size) returns, for an unsigned [T] of [w] bits,
    [w = 8 * sizeof(T)]. *)
Definition reverse_bits (w val : Z) (size : nat) : Z :=
  if w =? 8 then reverse_byte val else reverse_loop w size val 0.

Definition reverseBits (w val : Z) (size : nat) : result Z :=
  _ ← assert_ok (8 * Z.of_nat size <=? w); Ok (reverse_bits w val size).

(** One step of the binary searches: when the tested field is non-zero, count
    [k] and shift it down. *)
Definition msb_step (first last k : Z) (st : Z * Z) : Z * Z :=
  let '(msb, val) := st in
  if negb (bit_field 64 val first last =? 0) then (msb + k, val .>> k) else (msb, val).

Definition findMsbSet (val : Z) : Z :=
  if val =? 0 then 0 else
  let st := msb_step 63 32 32 (0, val) in
  let st := msb_step 31 16 16 st in
  let st := msb_step 15 8 8 st in
  let st := msb_step 7 4 4 st in
  let st := msb_step 3 2 2 st in
  let '(msb, val) := st in
  if negb (bit_field 64 val 1 1 =? 0) then msb + 1 else msb.

Definition lsb_step (first k : Z) (st : Z * Z) : Z * Z :=
  let '(lsb, val) := st in
  if bit_field 64 val first 0 =? 0 then (lsb + k, val .>> k) else (lsb, val).

Definition findLsbSetFallback (val : Z) : Z :=
  if val =? 0 then 64 else
  let st := lsb_step 31 32 (0, val) in
  let st := lsb_step 15 16 st in
  let st := lsb_step 7 8 st in
  let st := lsb_step 3 4 st in
  let st := lsb_step 1 2 st in
  let '(lsb, val) := st in
  if bit_field 64 val 0 0 =? 0 then lsb + 1 else lsb.

(** The builtins.  [count_trailing] walks up from bit [i]. *)
Fixpoint count_trailing (n : nat) (val i : Z) : Z :=
  match n with
  | O => i
  | S n => if Z.testbit val i then i else count_trailing n val (i + 1)
  end.

Definition ctz32 (value : Z) : Z := if value =? 0 then 32 else count_trailing 32 value 0.
Definition ctz64 (value : Z) : Z := if value =? 0 then 64 else count_trailing 64 value 0.
Definition clz32 (value : Z) : Z := if value =? 0 then 32 else 31 - Z.log2 value.
Definition clz64 (value : Z) : Z := if value =? 0 then 64 else 63 - Z.log2 value.

Definition findLsbSet (val : Z) : Z := if val =? 0 then 64 else count_trailing 64 val 0.

(** popCount: the builtin counts the set bits of a 64-bit value. *)
Definition popCount (val : Z) : Z :=
  foldr (λ i n, (if Z.testbit val (Z.of_nat i) then 1 else 0) + n) 0 (seq 0 64).

(** popCount where the compiler has no builtin. *)
Definition popCountManual (val : Z) : Z :=
  let m1 := 0x5555555555555555 in
  let m2 := 0x3333333333333333 in
  let m4 := 0x0f0f0f0f0f0f0f0f in
  let sum := 0x0101010101010101 in
  let val := u64 (val - ((val .>> 1) .& m1)) in
  let val := u64 ((val .& m2) + ((val .>> 2) .& m2)) in
  let val := u64 (val + (val .>> 4)) .& m4 in
  u64 (val * sum) .>> 56.

Definition alignToPowerOfTwo (val : Z) : Z :=
  let val := u64 (val - 1) in
  let val := val .| (val .>> 1) in
  let val := val .| (val .>> 2) in
  let val := val .| (val .>> 4) in
  let val := val .| (val .>> 8) in
  let val := val .| (val .>> 16) in
  let val := val .| (val .>> 32) in
  u64 (val + 1).

(** The assertions hold where the positions are in order and the bytes are there. *)
Lemma bits_in_order w val first last : last <= first →
  bits w val first last = Ok (bit_field w val first last).
Proof. intros H. unfold bits. by rewrite (proj2 (Z.leb_le _ _) H). Qed.

Lemma insertBits_in_order w val first last b : last <= first →
  insertBits w val first last b = Ok (insert_field w val first last b).
Proof. intros H. unfold insertBits. by rewrite (proj2 (Z.leb_le _ _) H). Qed.

(** ** Masks and fields *)

Lemma mask_ones n : 0 <= n → mask n = Z.ones (Z.min n 64).
Proof.
  intros Hn. unfold mask. destruct (Z.leb_spec 64 n).
  - rewrite Z.min_r by lia. done.
  - rewrite Z.min_l, Z.shiftl_1_l, Z.ones_equiv by lia.
    pose proof (Z.pow_lt_mono_r 2 n 64 ltac:(lia) ltac:(lia) ltac:(lia)).
    pose proof (pow2_pos n Hn).
    rewrite (wrap_small 64 (2 ^ n)), wrap_small by (unfold fits; lia). lia.
Qed.

Lemma testbit_mask n i : 0 <= n → 0 <= i →
  Z.testbit (mask n) i = (i <? n) && (i <? 64).
Proof. intros. rewrite mask_ones, testbit_ones by lia. split_cmp; done. Qed.

Lemma mask_fits n : 0 <= n → fits 64 (mask n).
Proof.
  intros. rewrite mask_ones by done. apply fits_testbit; [done| |].
  - rewrite Z.ones_equiv. pose proof (pow2_pos (Z.min n 64) ltac:(lia)). lia.
  - intros. rewrite testbit_ones by lia. split_cmp; done.
Qed.

Lemma testbit_mask2 first last i : 0 <= first < 2 ^ 32 - 1 → 0 <= last → 0 <= i →
  Z.testbit (mask2 first last) i = (last <=? i) && (i <=? first) && (i <? 64).
Proof.
  intros Hf Hl Hi. unfold mask2, mbits.
  rewrite (wrap_small 32 (first + 1)) by (unfold fits; lia).
  autorewrite with testbit. rewrite !testbit_mask, Z.bits_m1 by lia.
  split_cmp; done.
Qed.

Lemma testbit_bits w val first last i :
  0 <= w → 0 <= last <= first → first < 2 ^ 32 - 1 → first - last < 64 → 0 <= i →
  Z.testbit (bit_field w val first last) i
  = (i <? w) && (i <=? first - last) && Z.testbit val (i + last).
Proof.
  intros Hw Hl Hf H64 Hi. unfold bit_field.
  rewrite (wrap_small 32) by (unfold fits; lia).
  autorewrite with testbit. rewrite testbit_mask by lia.
  split_cmp; simpl; by rewrite ?andb_true_r, ?andb_false_r.
Qed.

(** A field is the quotient and remainder by powers of two. *)
Lemma bits_div_mod val first last :
  0 <= val → 0 <= last <= first → first < 64 →
  bit_field 64 val first last = (val / 2 ^ last) mod 2 ^ (first - last + 1).
Proof.
  intros Hv Hl Hf. rewrite <-Z.shiftr_div_pow2 by lia.
  apply Z.bits_inj'; intros i Hi. rewrite testbit_bits by lia.
  change ((val .>> last) mod 2 ^ (first - last + 1))
    with (wrap (first - last + 1) (val .>> last)).
  autorewrite with testbit. split_cmp; simpl; try done.
Qed.

Lemma bits1_testbit w val bit : 0 < w → 0 <= bit < 64 →
  bits1 w val bit = Z.b2z (Z.testbit val bit).
Proof.
  intros Hw Hb. apply Z.bits_inj'; intros i Hi. unfold bits1.
  rewrite testbit_bits by lia. rewrite Z.sub_diag.
  destruct (decide (i = 0)) as [->|].
  - rewrite Z.b2z_bit0. split_cmp. done.
  - assert (Z.testbit (Z.b2z (Z.testbit val bit)) i = false) as ->.
    { apply (testbit_fits 1); [|lia]. unfold fits. destruct (Z.testbit val bit); simpl; lia. }
    split_cmp; simpl; by rewrite ?andb_false_r.
Qed.

Lemma testbit_insertBits w val first last b i :
  0 <= w <= 64 → 0 <= last → 0 <= first < 2 ^ 32 - 1 → 0 <= i → fits w val →
  Z.testbit (insert_field w val first last b) i
  = if (last <=? i) && (i <=? first) && (i <? w)
    then Z.testbit b (i - last) else Z.testbit val i.
Proof.
  intros Hw Hl Hf Hi Hval. unfold insert_field. cbv zeta.
  rewrite Z.lor_spec, Z.land_spec, testbit_unot by lia.
  rewrite (testbit_wrap w (_ .& _)), Z.land_spec, Z.shiftl_spec by lia.
  rewrite (testbit_wrap w (mask2 _ _)), testbit_mask2 by lia.
  destruct (Z.leb_spec last i).
  - rewrite testbit_wrap by lia. destruct (Z.ltb_spec i w).
    + split_cmp; simpl; btauto.
    + rewrite (testbit_fits w val) by (done || lia). split_cmp; simpl; btauto.
  - rewrite (Z.testbit_neg_r _ (i - last)) by lia.
    destruct (Z.ltb_spec i w); [|rewrite (testbit_fits w val) by (done || lia)];
      split_cmp; simpl; btauto.
Qed.

Lemma insertBits_fits w val first last b :
  0 <= w → fits w val → fits w (insert_field w val first last b).
Proof.
  intros Hw Hv. unfold insert_field. apply fits_lor; [done| |by apply wrap_fits].
  apply fits_land; [done..|]. apply wrap_nonneg. done.
Qed.

(** ** Binary searches *)

Lemma msb_step_log2 k m v m' v' :
  0 < k <= 32 → 0 < v < 2 ^ (2 * k) → msb_step (2 * k - 1) k k (m, v) = (m', v') →
  0 < v' < 2 ^ k ∧ m' + Z.log2 v' = m + Z.log2 v.
Proof.
  intros Hk Hv. unfold msb_step. rewrite bits_div_mod by lia.
  replace (2 * k - 1 - k + 1) with k by lia.
  replace (2 * k) with (k + k) in Hv by lia. rewrite Z.pow_add_r in Hv by lia.
  pose proof (pow2_pos k ltac:(lia)) as Hp.
  rewrite Z.mod_small by (split; [apply Z.div_pos; lia|apply Z.div_lt_upper_bound; lia]).
  destruct (Z.eqb_spec (v / 2 ^ k) 0) as [Hz|Hz]; simpl; intros [= <- <-].
  - apply Z.div_small_iff in Hz; [|lia]. lia.
  - assert (2 ^ k <= v) as Hge.
    { destruct (Z.lt_ge_cases v (2 ^ k)); [|done]. by rewrite Z.div_small in Hz by lia. }
    rewrite Z.log2_shiftr by lia.
    assert (k <= Z.log2 v) by (apply Z.log2_le_pow2; lia).
    rewrite Z.shiftr_div_pow2 by lia. split; [|lia].
    split; [apply Z.div_str_pos; lia|apply Z.div_lt_upper_bound; lia].
Qed.

(** findMsbSet is the index of the most significant set bit. *)
Lemma findMsbSet_log2 val : 0 < val < 2 ^ 64 → findMsbSet val = Z.log2 val.
Proof.
  intros Hv. unfold findMsbSet. destruct (Z.eqb_spec val 0); [lia|].
  destruct (msb_step 63 32 32 (0, val)) as [m1 v1] eqn:E1.
  apply (msb_step_log2 32) in E1 as [? ?]; [|lia..].
  destruct (msb_step 31 16 16 (m1, v1)) as [m2 v2] eqn:E2.
  apply (msb_step_log2 16) in E2 as [? ?]; [|lia..].
  destruct (msb_step 15 8 8 (m2, v2)) as [m3 v3] eqn:E3.
  apply (msb_step_log2 8) in E3 as [? ?]; [|lia..].
  destruct (msb_step 7 4 4 (m3, v3)) as [m4 v4] eqn:E4.
  apply (msb_step_log2 4) in E4 as [? ?]; [|lia..].
  destruct (msb_step 3 2 2 (m4, v4)) as [m5 v5] eqn:E5.
  apply (msb_step_log2 2) in E5 as [? ?]; [|lia..].
  assert (msb_step 1 1 1 (m5, v5) = if negb (bit_field 64 v5 1 1 =? 0)
          then (m5 + 1, v5 .>> 1) else (m5, v5)) as E6 by done.
  destruct (negb (bit_field 64 v5 1 1 =? 0)).
  all: apply (msb_step_log2 1) in E6 as [? Hlog]; [|lia|change (2 ^ (2 * 1)) with 4; lia].
  all: change (2 ^ 1) with 2 in *.
  all: match type of Hlog with _ + Z.log2 ?v = _ =>
         assert (Z.log2 v = 0) by (replace v with 1 by lia; done); lia end.
Qed.

(** [r] is the position of the least significant set bit of [val]. *)
Definition lowest_bit (val r : Z) : Prop :=
  0 <= r ∧ Z.testbit val r = true ∧ ∀ j, 0 <= j < r → Z.testbit val j = false.

Lemma lowest_bit_unique val r1 r2 : lowest_bit val r1 → lowest_bit val r2 → r1 = r2.
Proof.
  intros (? & H1 & L1) (? & H2 & L2).
  destruct (Z.lt_trichotomy r1 r2) as [|[|]]; [|done|].
  - by rewrite L2 in H1 by lia.
  - by rewrite L1 in H2 by lia.
Qed.

Lemma count_trailing_lowest n val i :
  0 <= i → (∀ j, 0 <= j < i → Z.testbit val j = false) →
  (∃ j, i <= j < i + Z.of_nat n ∧ Z.testbit val j = true) →
  lowest_bit val (count_trailing n val i).
Proof.
  revert i. induction n as [|n IH]; intros i Hi Hlow (j & Hj & Hb); [lia|]. simpl.
  destruct (Z.testbit val i) eqn:Ei; [done|].
  apply IH; [lia| |].
  - intros k Hk. destruct (decide (k = i)) as [->|]; [done|]. apply Hlow. lia.
  - exists j. split; [|done]. destruct (decide (j = i)) as [->|]; [congruence|lia].
Qed.

Lemma has_bit w val : 0 <= w → 0 < val < 2 ^ w → ∃ j, 0 <= j < w ∧ Z.testbit val j = true.
Proof.
  intros Hw Hv. exists (Z.log2 val). rewrite Z.bit_log2 by lia.
  pose proof (Z.log2_nonneg val). split; [|done]. split; [done|].
  apply Z.log2_lt_pow2; lia.
Qed.

Lemma ctz64_lowest val : 0 < val < 2 ^ 64 → lowest_bit val (ctz64 val).
Proof.
  intros Hv. unfold ctz64. destruct (Z.eqb_spec val 0); [lia|].
  apply count_trailing_lowest; [lia..|]. by apply has_bit.
Qed.

Lemma ctz32_lowest val : 0 < val < 2 ^ 32 → lowest_bit val (ctz32 val).
Proof.
  intros Hv. unfold ctz32. destruct (Z.eqb_spec val 0); [lia|].
  apply count_trailing_lowest; [lia..|]. by apply has_bit.
Qed.

Lemma lsb_step_lowest val0 k l v l' v' :
  0 < k <= 32 → 0 <= l → 0 <= v →
  (∃ j, 0 <= j < 2 * k ∧ Z.testbit v j = true) →
  (∀ r, lowest_bit v r → lowest_bit val0 (l + r)) →
  lsb_step (k - 1) k (l, v) = (l', v') →
  0 <= l' ∧ 0 <= v' ∧ (∃ j, 0 <= j < k ∧ Z.testbit v' j = true) ∧
  (∀ r, lowest_bit v' r → lowest_bit val0 (l' + r)).
Proof.
  intros Hk Hl Hv (j & Hj & Hb) Hlow. unfold lsb_step.
  assert (∀ i, 0 <= i → Z.testbit (bit_field 64 v (k - 1) 0) i = (i <? k) && Z.testbit v i) as Hbits.
  { intros i Hi. rewrite testbit_bits by lia. rewrite Z.add_0_r. split_cmp; done. }
  destruct (Z.eqb_spec (bit_field 64 v (k - 1) 0) 0) as [Hz|Hz]; intros [= <- <-].
  - rewrite Hz in Hbits. setoid_rewrite Z.testbit_0_l in Hbits.
    assert (∀ i, 0 <= i < k → Z.testbit v i = false) as Hlo.
    { intros i Hi. specialize (Hbits i ltac:(lia)).
      destruct (Z.ltb_spec i k); [|lia]. done. }
    assert (k <= j) by (destruct (Z.lt_ge_cases j k); [|lia]; rewrite Hlo in Hb by lia; done).
    split; [lia|]. split; [by apply Z.shiftr_nonneg|]. split.
    + exists (j - k). rewrite Z.shiftr_spec by lia.
      replace (j - k + k) with j by lia. split; [lia|done].
    + intros r (Hr & Hbr & Hlr). rewrite <-Z.add_assoc. apply Hlow.
      rewrite Z.shiftr_spec in Hbr by lia. split; [lia|]. split; [by rewrite Z.add_comm|].
      intros i Hi. destruct (Z.lt_ge_cases i k); [apply Hlo; lia|].
      specialize (Hlr (i - k) ltac:(lia)). rewrite Z.shiftr_spec in Hlr by lia.
      by replace (i - k + k) with i in Hlr by lia.
  - split; [done|]. split; [done|]. split; [|done].
    assert (0 < bit_field 64 v (k - 1) 0 < 2 ^ k) as Hpos.
    { assert (fits k (bit_field 64 v (k - 1) 0)) as Hf; [|unfold fits in Hf; lia].
      apply fits_testbit; [lia|apply wrap_nonneg; lia|]. intros i Hi.
      rewrite Hbits by lia. split_cmp; done. }
    destruct (has_bit k _ ltac:(lia) Hpos) as (i & Hi & Hbi).
    rewrite Hbits in Hbi by lia. exists i. split; [done|].
    by apply andb_true_iff in Hbi as [_ ?].
Qed.

Lemma findLsbSetFallback_lowest val : 0 < val < 2 ^ 64 →
  lowest_bit val (findLsbSetFallback val).
Proof.
  intros Hv. unfold findLsbSetFallback. destruct (Z.eqb_spec val 0); [lia|].
  destruct (has_bit 64 val ltac:(lia) Hv) as (j & Hj & Hb).
  destruct (lsb_step 31 32 (0, val)) as [l1 v1] eqn:E1.
  apply (lsb_step_lowest val 32) in E1 as (? & ? & ? & ?);
    [|lia|lia|lia|by exists j|intros r Hr; by rewrite Z.add_0_l].
  destruct (lsb_step 15 16 (l1, v1)) as [l2 v2] eqn:E2.
  apply (lsb_step_lowest val 16) in E2 as (? & ? & ? & ?); [|done || lia..].
  destruct (lsb_step 7 8 (l2, v2)) as [l3 v3] eqn:E3.
  apply (lsb_step_lowest val 8) in E3 as (? & ? & ? & ?); [|done || lia..].
  destruct (lsb_step 3 4 (l3, v3)) as [l4 v4] eqn:E4.
  apply (lsb_step_lowest val 4) in E4 as (? & ? & ? & ?); [|done || lia..].
  destruct (lsb_step 1 2 (l4, v4)) as [l5 v5] eqn:E5.
  apply (lsb_step_lowest val 2) in E5 as (? & ? & ? & ?); [|done || lia..].
  assert (lsb_step 0 1 (l5, v5) = if bit_field 64 v5 0 0 =? 0
          then (l5 + 1, v5 .>> 1) else (l5, v5)) as E6 by done.
  destruct (bit_field 64 v5 0 0 =? 0).
  all: apply (lsb_step_lowest val 1) in E6 as (? & ? & (i & Hi & Hbi) & Hlow); [|done || lia..].
  all: replace i with 0 in Hbi by lia.
  all: specialize (Hlow 0); rewrite Z.add_0_r in Hlow; apply Hlow.
  all: split; [done|]; split; [done|lia].
Qed.

(** The portable findLsbSet agrees with the builtin one. *)
Lemma findLsbSet_fallback val : 0 <= val < 2 ^ 64 →
  findLsbSetFallback val = findLsbSet val.
Proof.
  intros Hv. destruct (decide (val = 0)) as [->|]; [done|].
  apply (lowest_bit_unique val).
  - apply findLsbSetFallback_lowest. lia.
  - unfold findLsbSet. destruct (Z.eqb_spec val 0); [lia|].
    apply count_trailing_lowest; [lia..|]. apply has_bit; lia.
Qed.

(** ** Population count

    A value is split into its little-endian bytes; every step of the portable
    routine acts on the bytes independently. *)

Fixpoint of_bytes (l : list Z) : Z :=
  match l with [] => 0 | d :: l => d + 256 * of_bytes l end.

Fixpoint to_bytes (n : nat) (val : Z) : list Z :=
  match n with O => [] | S n => val mod 256 :: to_bytes n (val / 256) end.

Definition rep_byte (b : Z) (n : nat) : Z := of_bytes (replicate n b).

Definition byte_list : list Z := Z.of_nat <$> seq 0 256.

Lemma byte_list_elem b : 0 <= b < 256 → b ∈ byte_list.
Proof.
  intros Hb. apply list_elem_of_fmap. exists (Z.to_nat b).
  rewrite elem_of_seq. lia.
Qed.

(** A decidable property of bytes is checked on all of them. *)
Lemma forall_bytes (P : Z → bool) : forallb P byte_list = true → ∀ b, 0 <= b < 256 → P b = true.
Proof.
  intros H b Hb. rewrite forallb_forall in H. apply H, list_elem_of_In, byte_list_elem, Hb.
Qed.

Lemma to_of_bytes n val : fits (8 * Z.of_nat n) val → of_bytes (to_bytes n val) = val.
Proof.
  revert val. induction n as [|n IH]; intros val [Hv1 Hv2]; simpl.
  { change (2 ^ (8 * Z.of_nat 0)) with 1 in Hv2. lia. }
  rewrite IH; [pose proof (Z.div_mod val 256); lia|].
  split; [apply Z.div_pos; lia|]. apply Z.div_lt_upper_bound; [lia|].
  replace (8 * Z.of_nat (S n)) with (8 + 8 * Z.of_nat n) in Hv2 by lia.
  by rewrite Z.pow_add_r in Hv2 by lia.
Qed.

Lemma to_bytes_range n val : Forall (λ d, 0 <= d < 256) (to_bytes n val).
Proof.
  revert val. induction n as [|n IH]; intros val; simpl; constructor; [|done].
  apply Z.mod_pos_bound. lia.
Qed.

Lemma of_bytes_nonneg l : Forall (λ d, 0 <= d < 256) l → 0 <= of_bytes l.
Proof. induction 1; simpl; lia. Qed.

Lemma testbit_digit a r i : 0 <= a < 256 → 0 <= i →
  Z.testbit (a + 256 * r) i = if i <? 8 then Z.testbit a i else Z.testbit r (i - 8).
Proof.
  intros Ha Hi. replace (256 * r) with (r .<< 8) by (rewrite Z.shiftl_mul_pow2; lia).
  assert (∀ j, 8 <= j → Z.testbit a j = false) as Hhi.
  { intros j Hj. apply (testbit_fits 8); [unfold fits; lia|done]. }
  rewrite Z.add_nocarry_lor.
  - rewrite Z.lor_spec, Z.shiftl_spec by done. destruct (Z.ltb_spec i 8).
    + rewrite (Z.testbit_neg_r _ (i - 8)) by lia. by rewrite orb_false_r.
    + by rewrite Hhi.
  - apply Z.bits_inj'; intros j Hj.
    rewrite Z.land_spec, Z.shiftl_spec, Z.testbit_0_l by done.
    destruct (Z.lt_ge_cases j 8).
    + rewrite (Z.testbit_neg_r _ (j - 8)) by lia. by rewrite andb_false_r.
    + by rewrite Hhi.
Qed.

Lemma land_digit a r b m : 0 <= a < 256 → 0 <= b < 256 →
  (a + 256 * r) .& (b + 256 * m) = (a .& b) + 256 * (r .& m).
Proof.
  intros Ha Hb. apply Z.bits_inj'; intros i Hi.
  assert (0 <= a .& b < 256) by (apply (fits_land 8 a b); unfold fits; lia).
  rewrite Z.land_spec, !testbit_digit by lia.
  destruct (i <? 8); by rewrite Z.land_spec.
Qed.

Lemma shift_land_digit s a r b m :
  0 <= s <= 8 → 0 <= a < 256 → 0 <= b < 2 ^ (8 - s) → 0 <= b < 256 →
  ((a + 256 * r) .>> s) .& (b + 256 * m) = ((a .>> s) .& b) + 256 * ((r .>> s) .& m).
Proof.
  intros Hs Ha Hb Hb'. apply Z.bits_inj'; intros i Hi.
  assert (0 <= (a .>> s) .& b < 256).
  { apply (fits_land 8 (a .>> s) b); [lia|apply fits_shiftr; unfold fits; lia|lia]. }
  rewrite Z.land_spec, Z.shiftr_spec, !testbit_digit by lia.
  destruct (Z.ltb_spec i 8), (Z.ltb_spec (i + s) 8);
    rewrite ?Z.land_spec, ?Z.shiftr_spec by lia; try done.
  - rewrite (testbit_fits (8 - s) b) by (unfold fits; lia). by rewrite !andb_false_r.
  - lia.
  - by replace (i - 8 + s) with (i + s - 8) by lia.
Qed.

Definition count_bits (val : Z) (l : list nat) : Z :=
  foldr (λ i n, (if Z.testbit val (Z.of_nat i) then 1 else 0) + n) 0 l.

Lemma count_bits_app val l1 l2 :
  count_bits val (l1 ++ l2) = count_bits val l1 + count_bits val l2.
Proof. induction l1 as [|i l1 IH]; simpl; [done|]. rewrite IH. lia. Qed.

Lemma count_bits_ext v1 v2 (f : nat → nat) l :
  (∀ i, i ∈ l → Z.testbit v1 (Z.of_nat (f i)) = Z.testbit v2 (Z.of_nat i)) →
  count_bits v1 (f <$> l) = count_bits v2 l.
Proof.
  induction l as [|i l IH]; intros H; [done|]. cbn. f_equal.
  - by rewrite H by left.
  - apply IH. intros. apply H. by right.
Qed.

Lemma count_bits_digit d r n : 0 <= d < 256 →
  count_bits (d + 256 * r) (seq 0 (8 + n)) = count_bits d (seq 0 8) + count_bits r (seq 0 n).
Proof.
  intros Hd. rewrite seq_app, count_bits_app. f_equal.
  - rewrite <-(list_fmap_id (seq 0 8)) at 1. apply count_bits_ext. intros i Hi.
    apply elem_of_seq in Hi. unfold id. rewrite testbit_digit by lia. by split_cmp.
  - change (0 + 8)%nat with (8 + 0)%nat. rewrite <-fmap_add_seq. apply count_bits_ext.
    intros i Hi. rewrite testbit_digit by lia. split_cmp. f_equal. lia.
Qed.

Definition pop_byte1 (d : Z) : Z := d - ((d .>> 1) .& 0x55).
Definition pop_byte2 (d : Z) : Z := (d .& 0x33) + ((d .>> 2) .& 0x33).
Definition pop_byte3 (d : Z) : Z := (d + (d .>> 4)) .& 0x0f.

Definition pop_byte_ok (d : Z) : bool :=
  let d1 := pop_byte1 d in let d2 := pop_byte2 d1 in
  (0 <=? d1) && (d1 <? 256) && (0 <=? d2) && (d2 <=? 0x44) && (d2 mod 16 <=? 4)
  && (0 <=? pop_byte3 d2) && (pop_byte3 d2 =? count_bits d (seq 0 8)) && (pop_byte3 d2 <=? 8).

Lemma pop_byte_checked d : 0 <= d < 256 → pop_byte_ok d = true.
Proof. apply forall_bytes. vm_compute. reflexivity. Qed.

Lemma pop_step1 l : Forall (λ d, 0 <= d < 256) l →
  of_bytes l - ((of_bytes l .>> 1) .& rep_byte 0x55 (length l)) = of_bytes (pop_byte1 <$> l).
Proof.
  unfold rep_byte. induction 1 as [|d l Hd Hl IH]; [done|].
  cbn [of_bytes fmap list_fmap length replicate].
  rewrite shift_land_digit by lia. unfold pop_byte1 in IH |- *. lia.
Qed.

Lemma pop_step2 l : Forall (λ d, 0 <= d < 256) l →
  (of_bytes l .& rep_byte 0x33 (length l)) + ((of_bytes l .>> 2) .& rep_byte 0x33 (length l))
  = of_bytes (pop_byte2 <$> l).
Proof.
  unfold rep_byte. induction 1 as [|d l Hd Hl IH]; [done|].
  cbn [of_bytes fmap list_fmap length replicate].
  rewrite land_digit, shift_land_digit by lia. unfold pop_byte2 in IH |- *. lia.
Qed.

Definition small_nibbles (d : Z) : Prop := 0 <= d <= 0x44 ∧ d mod 16 <= 4.

Lemma pop_step3 l : Forall small_nibbles l →
  (of_bytes l + (of_bytes l .>> 4)) .& rep_byte 0x0f (length l) = of_bytes (pop_byte3 <$> l).
Proof.
  unfold rep_byte. induction 1 as [|d l [Hd Hn] Hl IH]; [done|].
  cbn [of_bytes fmap list_fmap length replicate].
  set (R := of_bytes l) in *.
  assert (0 <= R mod 16 <= 4) as Hr.
  { split; [apply Z.mod_pos_bound; lia|]. subst R. destruct Hl as [|e l [? ?] _]; simpl; [done|].
    replace (e + 256 * of_bytes l) with (e + (16 * of_bytes l) * 16) by lia.
    by rewrite Z.mod_add by lia. }
  assert (0 <= d .>> 4 <= 4) by (rewrite Z.shiftr_div_pow2 by lia; Z.to_euclidean_division_equations; lia).
  replace (d + 256 * R + ((d + 256 * R) .>> 4))
    with ((d + (d .>> 4) + 16 * (R mod 16)) + 256 * (R + (R .>> 4))).
  2: { rewrite !Z.shiftr_div_pow2 by lia. change (2 ^ 4) with 16.
       replace (d + 256 * R) with (d + (16 * R) * 16) by lia.
       rewrite Z.div_add by lia. pose proof (Z.div_mod R 16). lia. }
  rewrite land_digit, IH by lia. f_equal. unfold pop_byte3.
  change 15 with (Z.ones 4). rewrite !Z.land_ones by lia. change (2 ^ 4) with 16.
  replace (d + (d .>> 4) + 16 * (R mod 16)) with (d + (d .>> 4) + (R mod 16) * 16) by lia.
  by rewrite Z.mod_add by lia.
Qed.

Lemma of_bytes_fits (n : nat) l : length l = n → Forall (λ d, 0 <= d < 256) l →
  fits (8 * Z.of_nat n) (of_bytes l).
Proof.
  intros <-. unfold fits. induction 1 as [|d l Hd Hl IH]; simpl length; simpl of_bytes.
  { by split. }
  replace (8 * Z.of_nat (S (length l))) with (8 + 8 * Z.of_nat (length l)) by lia.
  rewrite Z.pow_add_r by lia. lia.
Qed.

(** What the byte check gives for the three steps together. *)
Lemma pop_byte_spec d : 0 <= d < 256 →
  (0 <= pop_byte1 d < 256) ∧ small_nibbles (pop_byte2 (pop_byte1 d)) ∧
  0 <= pop_byte3 (pop_byte2 (pop_byte1 d)) <= 8 ∧
  pop_byte3 (pop_byte2 (pop_byte1 d)) = count_bits d (seq 0 8).
Proof.
  intros Hd. pose proof (pop_byte_checked d Hd) as Hc. unfold pop_byte_ok in Hc.
  cbv zeta in Hc. bool_prop. unfold small_nibbles. lia.
Qed.

Lemma small_nibbles_byte l : Forall small_nibbles l → Forall (λ d, 0 <= d < 256) l.
Proof. intros Hl. eapply Forall_impl; [exact Hl|]. intros d [? ?]. lia. Qed.

Lemma pop_step3_bound l : length l = 8%nat → Forall small_nibbles l →
  fits 64 (of_bytes l + (of_bytes l .>> 4)).
Proof.
  intros Hlen Hl. destruct l as [|b0 [|b1 [|b2 [|b3 [|b4 [|b5 [|b6 [|b7 [|]]]]]]]]]; try done.
  repeat match goal with H : Forall _ (_ :: _) |- _ => apply Forall_cons in H as [[] H] end.
  cbn [of_bytes]. rewrite Z.shiftr_div_pow2 by lia. unfold fits.
  match goal with |- context [?v / _] => assert (0 <= v <= 0x4444444444444444) by lia end.
  Z.to_euclidean_division_equations; lia.
Qed.

(** The final multiplication adds the bytes up in the top byte. *)
Lemma pop_sum l : length l = 8%nat → Forall (λ d, 0 <= d <= 8) l →
  u64 (of_bytes l * 0x0101010101010101) .>> 56 = foldr Z.add 0 l.
Proof.
  intros Hlen Hl. destruct l as [|b0 [|b1 [|b2 [|b3 [|b4 [|b5 [|b6 [|b7 [|]]]]]]]]]; try done.
  repeat match goal with H : Forall _ (_ :: _) |- _ => apply Forall_cons in H as [? H] end.
  cbn [of_bytes foldr]. rewrite Z.shiftr_div_pow2 by lia. unfold wrap.
  set (lo := b0 + 256 * (b0 + b1) + 65536 * (b0 + b1 + b2) + 2 ^ 24 * (b0 + b1 + b2 + b3)
             + 2 ^ 32 * (b0 + b1 + b2 + b3 + b4) + 2 ^ 40 * (b0 + b1 + b2 + b3 + b4 + b5)
             + 2 ^ 48 * (b0 + b1 + b2 + b3 + b4 + b5 + b6)).
  set (hi := (b1 + b2 + b3 + b4 + b5 + b6 + b7) + 2 ^ 8 * (b2 + b3 + b4 + b5 + b6 + b7)
             + 2 ^ 16 * (b3 + b4 + b5 + b6 + b7) + 2 ^ 24 * (b4 + b5 + b6 + b7)
             + 2 ^ 32 * (b5 + b6 + b7) + 2 ^ 40 * (b6 + b7) + 2 ^ 48 * b7).
  match goal with |- (?v mod _) / _ = ?s =>
    replace v with (lo + 2 ^ 56 * s + hi * 2 ^ 64) by (subst lo hi; lia) end.
  rewrite Z.mod_add, Z.mod_small by (subst lo; lia).
  rewrite (Z.add_comm lo), Z.mul_comm, Z.div_add_l, Z.div_small by (subst lo; lia). lia.
Qed.

Lemma count_bits_bytes l : Forall (λ d, 0 <= d < 256) l →
  count_bits (of_bytes l) (seq 0 (8 * length l))
  = foldr Z.add 0 (pop_byte3 ∘ pop_byte2 ∘ pop_byte1 <$> l).
Proof.
  induction 1 as [|d l Hd Hl IH]; [done|]. cbn [length of_bytes].
  replace (8 * S (length l))%nat with (8 + 8 * length l)%nat by lia.
  rewrite count_bits_digit, IH by done. cbn. f_equal. symmetry. by apply pop_byte_spec.
Qed.

(** The portable population count is the builtin one on every 64-bit value. *)
Lemma popCountManual_popCount val : 0 <= val < 2 ^ 64 → popCountManual val = popCount val.
Proof.
  intros Hv. remember (to_bytes 8 val) as l eqn:El.
  assert (length l = 8%nat) as Hlen by (by subst l).
  assert (Forall (λ d, 0 <= d < 256) l) as Hl by (subst l; apply to_bytes_range).
  assert (of_bytes l = val) as <- by (subst l; by apply to_of_bytes).
  clear El Hv.
  assert (Forall (λ d, 0 <= d < 256) (pop_byte1 <$> l)) as Hl1.
  { apply Forall_fmap. eapply Forall_impl; [exact Hl|]. apply pop_byte_spec. }
  assert (Forall small_nibbles (pop_byte2 <$> (pop_byte1 <$> l))) as Hl2.
  { rewrite !Forall_fmap. eapply Forall_impl; [exact Hl|]. apply pop_byte_spec. }
  unfold popCountManual. cbv zeta.
  change 0x5555555555555555 with (rep_byte 0x55 8).
  change 0x3333333333333333 with (rep_byte 0x33 8).
  change 0x0f0f0f0f0f0f0f0f with (rep_byte 0x0f 8).
  pose proof (pop_step1 l Hl) as E1. rewrite Hlen in E1. rewrite E1.
  rewrite (wrap_small 64 (of_bytes _)) by (apply (of_bytes_fits 8); [by rewrite length_fmap|done]).
  pose proof (pop_step2 _ Hl1) as E2. rewrite length_fmap, Hlen in E2. rewrite E2.
  rewrite (wrap_small 64 (of_bytes _))
    by (apply (of_bytes_fits 8); [by rewrite !length_fmap|by apply small_nibbles_byte]).
  rewrite (wrap_small 64 (of_bytes _ + _)) by (apply pop_step3_bound; [by rewrite !length_fmap|done]).
  pose proof (pop_step3 _ Hl2) as E3. rewrite !length_fmap, Hlen in E3. rewrite E3.
  rewrite pop_sum.
  - rewrite <-!list_fmap_compose. unfold popCount.
    pose proof (count_bits_bytes l Hl) as E4. rewrite Hlen in E4. symmetry. exact E4.
  - by rewrite !length_fmap.
  - rewrite !Forall_fmap. eapply Forall_impl; [exact Hl|]. apply pop_byte_spec.
Qed.

(** ** Alignment to a power of two *)

(** The top [n] bits up to the leading one of [x] are set in [v], none above. *)
Definition smeared (x n v : Z) : Prop :=
  0 <= v ∧ (∀ i, 0 <= i → Z.log2 x - n < i <= Z.log2 x → Z.testbit v i = true) ∧
  (∀ i, Z.log2 x < i → Z.testbit v i = false).

Lemma smear_step x n m v : 0 <= n → m = n + n →
  smeared x n v → smeared x m (v .| (v .>> n)).
Proof.
  intros Hn -> (Hv & Hhi & Hno). split; [|split].
  - apply Z.lor_nonneg. split; [done|by apply Z.shiftr_nonneg].
  - intros i Hi Hr. rewrite Z.lor_spec, Z.shiftr_spec by done.
    destruct (Z.lt_ge_cases (Z.log2 x - n) i).
    + by rewrite Hhi by lia.
    + rewrite (Hhi (i + n)) by lia. by rewrite orb_true_r.
  - intros i Hi. pose proof (Z.log2_nonneg x).
    rewrite Z.lor_spec, Z.shiftr_spec by lia. by rewrite !Hno by lia.
Qed.

Lemma smeared_ones x n v : Z.log2 x < n → smeared x n v → v = Z.ones (Z.log2 x + 1).
Proof.
  intros Hn (Hv & Hhi & Hno). pose proof (Z.log2_nonneg x).
  apply Z.bits_inj'; intros i Hi. rewrite testbit_ones by lia.
  destruct (Z.ltb_spec i (Z.log2 x + 1)); [apply Hhi; lia|apply Hno; lia].
Qed.

(** The result is the least power of two not below the argument. *)
Lemma alignToPowerOfTwo_log2_up val : 0 < val <= 2 ^ 63 →
  alignToPowerOfTwo val = 2 ^ Z.log2_up val.
Proof.
  intros Hv. unfold alignToPowerOfTwo. rewrite (wrap_small 64 (val - 1)) by (unfold fits; lia).
  destruct (decide (val = 1)) as [->|Hne]; [done|].
  assert (smeared (val - 1) 1 (val - 1)) as Hs.
  { split; [lia|]. split.
    - intros i ? ?. replace i with (Z.log2 (val - 1)) by lia. apply Z.bit_log2. lia.
    - intros i Hi. apply Z.bits_above_log2; lia. }
  apply (smear_step _ 1 2) in Hs; [|lia..]. apply (smear_step _ 2 4) in Hs; [|lia..].
  apply (smear_step _ 4 8) in Hs; [|lia..]. apply (smear_step _ 8 16) in Hs; [|lia..].
  apply (smear_step _ 16 32) in Hs; [|lia..]. apply (smear_step _ 32 64) in Hs; [|lia..].
  assert (Z.log2 (val - 1) < 63) by (apply Z.log2_lt_pow2; lia).
  apply smeared_ones in Hs; [|lia]. cbv zeta. rewrite Hs.
  unfold Z.log2_up. destruct (Z.compare_spec 1 val); [lia| |lia].
  rewrite Z.ones_equiv, <-!Z.sub_1_r. clear Hs. pose proof (Z.log2_nonneg (val - 1)).
  replace (Z.succ (Z.log2 (val - 1))) with (Z.log2 (val - 1) + 1) by lia.
  assert (2 ^ (Z.log2 (val - 1) + 1) <= 2 ^ 63) by (apply Z.pow_le_mono_r; lia).
  pose proof (pow2_pos (Z.log2 (val - 1) + 1) ltac:(lia)).
  rewrite wrap_small by (unfold fits; lia). lia.
Qed.

(** ** Bit reversal *)

Lemma reverse_byte_bits b i : 0 <= b < 256 → 0 <= i < 8 →
  Z.testbit (reverse_byte b) i = Z.testbit b (7 - i).
Proof.
  intros Hb Hi.
  pose (ok b := (0 <=? reverse_byte b) && (reverse_byte b <? 256) && forallb (λ i,
    eqb (Z.testbit (reverse_byte b) (Z.of_nat i)) (Z.testbit b (7 - Z.of_nat i))) (seq 0 8)).
  assert (ok b = true) as Hok by (apply (forall_bytes ok); [vm_compute; reflexivity|done]).
  unfold ok in Hok. apply andb_true_iff in Hok as [_ Hok]. rewrite forallb_forall in Hok.
  specialize (Hok (Z.to_nat i)). rewrite Z2Nat.id in Hok by lia.
  apply eqb_prop, Hok, in_seq. lia.
Qed.

Lemma reverse_byte_range b : 0 <= b < 256 → 0 <= reverse_byte b < 256.
Proof.
  intros Hb. pose (ok b := (0 <=? reverse_byte b) && (reverse_byte b <? 256)).
  assert (ok b = true) as Hok by (apply (forall_bytes ok); [vm_compute; reflexivity|done]).
  unfold ok in Hok. bool_prop. lia.
Qed.

Lemma reverse_loop_bits w n val out i :
  0 <= w → 0 <= val → 0 <= out → 0 <= i < w → 8 * Z.of_nat n <= w →
  Z.testbit (reverse_loop w n val out) i
  = if i <? 8 * Z.of_nat n then Z.testbit val (8 * Z.of_nat n - 1 - i)
    else Z.testbit out (i - 8 * Z.of_nat n).
Proof.
  revert val out. induction n as [|n IH]; intros val out Hw Hval Hout Hi Hn; cbn [reverse_loop].
  { rewrite Z.mul_0_r, Z.sub_0_r. split_cmp. done. }
  assert (0 <= val .& mask 8 < 256) as Hb.
  { rewrite mask_ones by lia. change (Z.min 8 64) with 8. rewrite Z.land_ones by lia.
    apply Z.mod_pos_bound. lia. }
  pose proof (reverse_byte_range _ Hb).
  rewrite IH; [|done|by apply Z.shiftr_nonneg| |done|lia].
  2: { apply Z.lor_nonneg. split; [by apply wrap_nonneg|lia]. }
  rewrite Nat2Z.inj_succ in Hn |- *.
  destruct (Z.ltb_spec i (8 * Z.of_nat n)).
  { destruct (Z.ltb_spec i (8 * Z.succ (Z.of_nat n))); [|lia].
    rewrite Z.shiftr_spec by lia. f_equal. lia. }
  rewrite Z.lor_spec, testbit_wrap, Z.shiftl_spec by lia.
  destruct (Z.ltb_spec i (8 * Z.succ (Z.of_nat n))).
  - rewrite (Z.testbit_neg_r out) by lia. rewrite reverse_byte_bits by lia.
    rewrite Z.land_spec, testbit_mask by lia. split_cmp; simpl.
    all: rewrite ?andb_true_r, ?andb_false_r; simpl; f_equal; lia.
  - rewrite (testbit_fits 8 (reverse_byte _)) by (unfold fits; lia).
    rewrite orb_false_r. split_cmp; simpl. f_equal. lia.
Qed.

(** Reversing all the bytes of a value moves bit [i] to bit [w - 1 - i]. *)
Lemma reverseBits_bits n val i :
  (0 < n)%nat → fits (8 * Z.of_nat n) val → 0 <= i < 8 * Z.of_nat n →
  Z.testbit (reverse_bits (8 * Z.of_nat n) val n) i = Z.testbit val (8 * Z.of_nat n - 1 - i).
Proof.
  intros Hn Hv Hi. unfold reverse_bits. destruct (Z.eqb_spec (8 * Z.of_nat n) 8) as [E|E].
  - rewrite E in *. rewrite reverse_byte_bits by (unfold fits in Hv; lia). done.
  - rewrite reverse_loop_bits by (unfold fits in Hv; lia). by split_cmp.
Qed.

Lemma reverse_loop_fits w n val out : 0 <= w → (0 < n)%nat → 8 * Z.of_nat n <= w →
  fits w out → fits w (reverse_loop w n val out).
Proof.
  intros Hw Hn Hle Hout. clear Hn. revert val out Hout.
  induction n as [|n IH]; intros val out Hout; cbn [reverse_loop]; [done|].
  apply IH; [lia|]. apply fits_lor; [done|by apply wrap_fits|].
  assert (0 <= val .& mask 8 < 256) as Hb.
  { rewrite mask_ones by lia. change (Z.min 8 64) with 8. rewrite Z.land_ones by lia.
    apply Z.mod_pos_bound. lia. }
  pose proof (reverse_byte_range _ Hb).
  assert (2 ^ 8 <= 2 ^ w) by (apply Z.pow_le_mono_r; lia). unfold fits. lia.
Qed.

Lemma reverseBits_fits n val : (0 < n)%nat → fits (8 * Z.of_nat n) val →
  fits (8 * Z.of_nat n) (reverse_bits (8 * Z.of_nat n) val n).
Proof.
  intros Hn Hv. unfold reverse_bits. destruct (Z.eqb_spec (8 * Z.of_nat n) 8) as [E|E].
  - rewrite E in *. by apply reverse_byte_range.
  - apply reverse_loop_fits; [lia..|]. pose proof (pow2_pos (8 * Z.of_nat n)). unfold fits. lia.
Qed.

Lemma reverseBits_involutive n val : (0 < n)%nat → fits (8 * Z.of_nat n) val →
  reverse_bits (8 * Z.of_nat n) (reverse_bits (8 * Z.of_nat n) val n) n = val.
Proof.
  intros Hn Hv. pose proof (reverseBits_fits n val Hn Hv) as Hr.
  pose proof (reverseBits_fits n _ Hn Hr) as Hrr.
  apply Z.bits_inj'; intros i Hi. destruct (Z.lt_ge_cases i (8 * Z.of_nat n)).
  - rewrite !reverseBits_bits by (done || lia). f_equal. lia.
  - rewrite (testbit_fits _ val) by (done || lia). by rewrite (testbit_fits _ _ i Hrr).
Qed.

(** ** Sign extension *)

Lemma swrap_testbit w z : 0 < w →
  swrap w z = wrap w z - (if Z.testbit z (w - 1) then 2 ^ w else 0).
Proof.
  intros Hw. unfold swrap, wrap.
  assert (2 ^ w = 2 * 2 ^ (w - 1)) as Hp by (rewrite <-Z.pow_succ_r by lia; f_equal; lia).
  pose proof (pow2_pos (w - 1) ltac:(lia)).
  rewrite Z.testbit_odd, Z.shiftr_div_pow2 by lia.
  pose proof (Z.div_mod z (2 ^ w) ltac:(lia)) as Hdm.
  pose proof (Z.mod_pos_bound z (2 ^ w) ltac:(lia)) as Hr.
  set (q := z / 2 ^ w) in *. set (r := z mod 2 ^ w) in *.
  assert (z / 2 ^ (w - 1) = 2 * q + r / 2 ^ (w - 1)) as ->.
  { rewrite Hdm, Hp. replace (2 * 2 ^ (w - 1) * q + r) with (r + (2 * q) * 2 ^ (w - 1)) by lia.
    rewrite Z.div_add by lia. lia. }
  rewrite Z.odd_add, Z.odd_mul. simpl.
  destruct (Z.lt_ge_cases r (2 ^ (w - 1))).
  - rewrite Z.div_small by lia. simpl. rewrite Hdm.
    replace (2 ^ w * q + r + 2 ^ (w - 1)) with (r + 2 ^ (w - 1) + q * 2 ^ w) by lia.
    rewrite Z.mod_add, Z.mod_small by lia. lia.
  - replace (r / 2 ^ (w - 1)) with 1; [|apply (Z.div_unique _ _ _ (r - 2 ^ (w - 1))); lia].
    simpl. rewrite Hdm.
    replace (2 ^ w * q + r + 2 ^ (w - 1)) with (r - 2 ^ (w - 1) + (q + 1) * 2 ^ w) by lia.
    rewrite Z.mod_add, Z.mod_small by lia. lia.
Qed.

(** szext<N> is the two's complement reading of the low N bits. *)
Lemma szext_swrap N val : 0 < N <= 64 → fits 64 val → szext N val = u64 (swrap N val).
Proof.
  intros HN Hv. rewrite swrap_testbit by lia. unfold szext.
  rewrite (wrap_small 32) by (unfold fits; lia). rewrite bits1_testbit by lia.
  assert (0 <= wrap N val) by (apply wrap_nonneg; lia).
  destruct (Z.testbit val (N - 1)) eqn:Es; simpl.
  - replace (wrap N val - 2 ^ N) with (wrap N val .| Z.lnot (Z.ones N)).
    + apply Z.bits_inj'; intros i Hi.
      rewrite Z.lor_spec, testbit_unot, testbit_mask, testbit_wrap, Z.lor_spec by lia.
      rewrite testbit_wrap, Z.lnot_spec, testbit_ones by lia.
      destruct (Z.lt_ge_cases i 64); [split_cmp; simpl; btauto|].
      rewrite (testbit_fits 64 val) by (done || lia). split_cmp; simpl; btauto.
    + rewrite <-Z.add_nocarry_lor; [unfold Z.lnot; rewrite Z.ones_equiv; lia|].
      apply Z.bits_inj'; intros i Hi.
      rewrite Z.land_spec, testbit_wrap, Z.lnot_spec, testbit_ones, Z.testbit_0_l by lia.
      split_cmp; simpl; btauto.
  - rewrite Z.sub_0_r. apply Z.bits_inj'; intros i Hi.
    rewrite Z.land_spec, testbit_mask, !testbit_wrap by lia. split_cmp; simpl; btauto.
Qed.

Lemma sext_swrap N val : 0 < N <= 64 → fits N val → sext N val = u64 (swrap N val).
Proof.
  intros HN Hv. rewrite <-szext_swrap; [|done|].
  - unfold sext, szext. destruct (negb _); [done|]. apply Z.bits_inj'; intros i Hi.
    rewrite Z.land_spec, testbit_mask by lia. destruct (Z.lt_ge_cases i N).
    + split_cmp; simpl; btauto.
    + by rewrite (testbit_fits N val).
  - unfold fits in *. pose proof (Z.pow_le_mono_r 2 N 64 ltac:(lia) ltac:(lia)). lia.
Qed.

(** The code for compilers without builtins agrees with the builtins on every 64-bit
    value: the SWAR population count counts the set bits, and the binary search for the
    least significant set bit finds the same position, 64 for zero. *)
Theorem fallbacks_agree val : 0 <= val < 2 ^ 64 →
  popCountManual val = popCount val ∧ findLsbSetFallback val = findLsbSet val.
Proof. intros Hv. split; [by apply popCountManual_popCount|by apply findLsbSet_fallback]. Qed.

Lemma fallbacks_agree_witness :
  popCountManual 0xf0f00000000000b8 = popCount 0xf0f00000000000b8 ∧
  findLsbSetFallback 0xf0f00000000000b8 = findLsbSet 0xf0f00000000000b8.
Proof. apply (fallbacks_agree 0xf0f00000000000b8). lia. Defined.

End Bitfield.
