(* ===== verification/IntMath.v ===== *)
(** * base/intmath.hh: integer helpers

    Logarithms, rounding, and the multiplications that return the full product of
    two machine words.  A template over an unsigned type is a definition over its
    width [w]; [floorLog2] keeps the size in bytes its cascade is guarded by.  What the
    code compiles with or without the compiler's 128-bit integers takes [int128], whether
    it has them. *)

From Stdlib Require Import ZArith Lia.
From stdpp Require Import base numbers list.
From S2P Require Import Prelude Bitfield.

Module IntMath.
Import Bitfield.

(** One test of the floorLog2 cascade, enabled when the type is large enough. *)
Definition log2_step (enabled : bool) (m k : Z) (st : Z * Z) : Z * Z :=
  let '(y, ux) := st in
  if enabled && negb (ux .& m =? 0) then (y + k, ux .>> k) else (y, ux).

(** The last three tests of the cascade, which every type runs. *)
Definition log2_byte (st : Z * Z) : Z :=
  let st := log2_step true 0x00000000000000f0 4 st in
  let st := log2_step true 0x000000000000000c 2 st in
  let '(y, ux) := st in
  if negb (ux .& 0x0000000000000002 =? 0) then y + 1 else y.

(** The cascade of floorLog2. *)
Definition log2_of (ts x : Z) : Z :=
  let st := log2_step (8 <=? ts) 0xffffffff00000000 32 (0, x) in
  let st := log2_step (4 <=? ts) 0x00000000ffff0000 16 st in
  let st := log2_step (2 <=? ts) 0x000000000000ff00 8 st in
  log2_byte st.

Definition floorLog2 (ts x : Z) : result Z := _ ← assert_ok (0 <? x); Ok (log2_of ts x).

Definition ceilLog2 (ts n : Z) : result Z :=
  _ ← assert_ok (0 <? n);
  if n =? 1 then Ok 0 else l ← floorLog2 ts (n - 1); Ok (l + 1).

Definition isPowerOf2 (n : Z) : bool :=
  negb (n =? 0) && (n .& (n - 1) =? 0).

Definition divCeil (w a b : Z) : Z := wrap w (wrap w (a + b) - 1) / b.

(** mulUnsigned for types of at most 32 bits: (high, low). *)
Definition mulUnsignedSmall (w val_a val_b : Z) : Z * Z :=
  let product := u64 (val_a * val_b) in
  let low := wrap w product in
  let high := wrap w (product .>> w) in
  (high, low).

(** mulSigned for types of at most 32 bits: the product is kept in an unsigned word. *)
Definition mulSignedSmall (w val_a val_b : Z) : Z * Z :=
  let product := u64 (val_a * val_b) in
  let low := swrap w product in
  let high := swrap w (product .>> w) in
  (high, low).

(** mulUnsigned for 64-bit types without a 128-bit type (the carries are 64-bit words). *)
Definition mulUnsignedManual (val_a val_b : Z) : Z * Z :=
  let low := u64 (val_a * val_b) in
  let A := u32 (val_a .>> 32) in
  let a := u32 val_a in
  let B := u32 (val_b .>> 32) in
  let b := u32 val_b in
  let ab := u64 (a * b) in
  let Ab := u64 (A * b) in
  let aB := u64 (a * B) in
  let AB := u64 (A * B) in
  let c1 := u32 (ab .>> 32) in
  let c2 := u64 (u64 ((c1 .>> 1) + (Ab .>> 1)) + (aB .>> 1)) in
  let c2 := u64 (c2 + (u64 (u64 ((c1 .& 1) + (Ab .& 1)) + (aB .& 1)) .>> 1)) in
  let c2 := c2 .>> 31 in
  let high := u64 (AB + c2) in
  (high, low).

(** The product of 128 bits, where the compiler has them. *)
Definition mulUnsigned128 (val_a val_b : Z) : Z * Z :=
  let val := wrap 128 (val_a * val_b) in
  let low := u64 val in
  let high := u64 (val .>> 64) in
  (high, low).

Definition mulUnsigned (int128 : bool) (val_a val_b : Z) : Z * Z :=
  if int128 then mulUnsigned128 val_a val_b else mulUnsignedManual val_a val_b.

Definition mulSignedManual (int128 : bool) (val_a val_b : Z) : Z * Z :=
  let '(u_high, u_low) := mulUnsigned int128 (u64 val_a) (u64 val_b) in
  let u_high := if val_a <? 0 then u64 (u_high - val_b) else u_high in
  let u_high := if val_b <? 0 then u64 (u_high - val_a) else u_high in
  (s64 u_high, s64 u_low).

Definition mulSigned128 (val_a val_b : Z) : Z * Z :=
  let val := swrap 128 (val_a * val_b) in
  let low := s64 val in
  let high := s64 (val .>> 64) in
  (high, low).

Definition mulSigned (int128 : bool) (val_a val_b : Z) : Z * Z :=
  if int128 then mulSigned128 val_a val_b else mulSignedManual int128 val_a val_b.

Definition roundUp (w val align : Z) : result Z :=
  _ ← assert_ok (isPowerOf2 align);
  let mask := wrap w (align - 1) in
  Ok (wrap w (val + mask) .& unot w mask).

Definition roundDown (w val align : Z) : result Z :=
  _ ← assert_ok (isPowerOf2 align);
  let mask := wrap w (align - 1) in
  Ok (val .& unot w mask).

Definition log2i (value : Z) : result Z :=
  _ ← assert_ok (isPowerOf2 value && (0 <? value)); Ok (ctz32 value).

(** ** Logarithms *)

Lemma field_nonzero k ux : 0 < k → 0 <= ux < 2 ^ (2 * k) →
  (ux .& (2 ^ (2 * k) - 2 ^ k) =? 0) = (ux <? 2 ^ k).
Proof.
  intros Hk Hux. replace (2 * k) with (k + k) in * by lia.
  rewrite Z.pow_add_r in * by lia. pose proof (pow2_pos k ltac:(lia)).
  assert (ux .& (2 ^ k * 2 ^ k - 2 ^ k) = (ux .>> k) .<< k) as ->.
  { replace (2 ^ k * 2 ^ k - 2 ^ k) with (Z.ones k .<< k)
      by (rewrite Z.shiftl_mul_pow2, Z.ones_equiv by lia; lia).
    apply Z.bits_inj'; intros i Hi. rewrite Z.land_spec, !Z.shiftl_spec by lia.
    destruct (Z.lt_ge_cases i k).
    { rewrite (Z.testbit_neg_r (Z.ones k)), (Z.testbit_neg_r (ux .>> k)) by lia.
      apply andb_false_r. }
    rewrite testbit_ones, Z.shiftr_spec by lia. replace (i - k + k) with i by lia.
    destruct (Z.ltb_spec (i - k) k); [apply andb_true_r|].
    rewrite (testbit_fits (k + k) ux); [done| |lia].
    unfold fits. rewrite Z.pow_add_r by lia. lia. }
  rewrite Z.shiftl_mul_pow2, Z.shiftr_div_pow2 by lia.
  destruct (Z.ltb_spec ux (2 ^ k)).
  - by rewrite Z.div_small by lia.
  - assert (0 < ux / 2 ^ k) by (apply Z.div_str_pos; lia).
    apply Z.eqb_neq. nia.
Qed.

Lemma log2_step_log2 k m y ux y' ux' :
  0 < k → m = 2 ^ (2 * k) - 2 ^ k → 0 < ux < 2 ^ (2 * k) →
  log2_step true m k (y, ux) = (y', ux') →
  0 < ux' < 2 ^ k ∧ y' + Z.log2 ux' = y + Z.log2 ux.
Proof.
  intros Hk -> Hux. unfold log2_step. rewrite field_nonzero by lia.
  pose proof (pow2_pos k ltac:(lia)).
  destruct (Z.ltb_spec ux (2 ^ k)); simpl; intros [= <- <-]; [lia|].
  assert (k <= Z.log2 ux) by (apply Z.log2_le_pow2; lia).
  rewrite Z.log2_shiftr by lia. rewrite Z.shiftr_div_pow2 by lia.
  replace (2 * k) with (k + k) in Hux by lia. rewrite Z.pow_add_r in Hux by lia.
  split; [|lia]. split; [apply Z.div_str_pos; lia|apply Z.div_lt_upper_bound; lia].
Qed.

Lemma log2_step_off m k st : log2_step false m k st = st.
Proof. by destruct st. Qed.

Lemma log2_byte_log2 y ux : 0 < ux < 2 ^ 8 → log2_byte (y, ux) = y + Z.log2 ux.
Proof.
  intros Hux. unfold log2_byte.
  destruct (log2_step true 0xf0 4 (y, ux)) as [y1 u1] eqn:E1.
  apply (log2_step_log2 4) in E1 as [? ?]; [|lia..].
  destruct (log2_step true 0xc 2 (y1, u1)) as [y2 u2] eqn:E2.
  apply (log2_step_log2 2) in E2 as [? ?]; [|lia..].
  assert (Z.log2 1 = 0 ∧ Z.log2 2 = 1 ∧ Z.log2 3 = 1) as (? & ? & ?) by done.
  assert (u2 = 1 ∨ u2 = 2 ∨ u2 = 3) as [-> | [-> | ->]] by lia.
  - change (1 .& 2 =? 0) with true. simpl. lia.
  - change (2 .& 2 =? 0) with false. simpl. lia.
  - change (3 .& 2 =? 0) with false. simpl. lia.
Qed.

(** floorLog2 is the integer logarithm for every integral type. *)
Lemma log2_of_log2 ts x : ts ∈ [1; 2; 4; 8] → 0 < x < 2 ^ (8 * ts) →
  log2_of ts x = Z.log2 x.
Proof.
  intros Hts Hx. rewrite !elem_of_cons in Hts.
  destruct Hts as [->|[->|[->|[->|[]%not_elem_of_nil]]]]; unfold log2_of;
    cbn [Z.leb Z.compare Pos.compare Pos.compare_cont]; rewrite ?log2_step_off.
  - rewrite log2_byte_log2 by lia. lia.
  - destruct (log2_step true 0xff00 8 _) as [y1 u1] eqn:E1.
    apply (log2_step_log2 8) in E1 as [? ?]; [|lia..].
    rewrite log2_byte_log2 by lia. lia.
  - destruct (log2_step true 0xffff0000 16 _) as [y1 u1] eqn:E1.
    apply (log2_step_log2 16) in E1 as [? ?]; [|lia..].
    destruct (log2_step true 0xff00 8 _) as [y2 u2] eqn:E2.
    apply (log2_step_log2 8) in E2 as [? ?]; [|lia..].
    rewrite log2_byte_log2 by lia. lia.
  - destruct (log2_step true 0xffffffff00000000 32 _) as [y1 u1] eqn:E1.
    apply (log2_step_log2 32) in E1 as [? ?]; [|lia..].
    destruct (log2_step true 0xffff0000 16 _) as [y2 u2] eqn:E2.
    apply (log2_step_log2 16) in E2 as [? ?]; [|lia..].
    destruct (log2_step true 0xff00 8 _) as [y3 u3] eqn:E3.
    apply (log2_step_log2 8) in E3 as [? ?]; [|lia..].
    rewrite log2_byte_log2 by lia. lia.
Qed.

Lemma floorLog2_log2 ts x : ts ∈ [1; 2; 4; 8] → 0 < x < 2 ^ (8 * ts) →
  floorLog2 ts x = Ok (Z.log2 x).
Proof.
  intros Hts Hx. unfold floorLog2. rewrite (proj2 (Z.ltb_lt _ _)) by lia.
  cbn [assert_ok mbind result_bind]. by rewrite log2_of_log2.
Qed.

Lemma ceilLog2_log2_up ts n : ts ∈ [1; 2; 4; 8] → 0 < n < 2 ^ (8 * ts) →
  ceilLog2 ts n = Ok (Z.log2_up n).
Proof.
  intros Hts Hn. unfold ceilLog2. rewrite (proj2 (Z.ltb_lt _ _)) by lia.
  cbn [assert_ok mbind result_bind]. destruct (Z.eqb_spec n 1) as [->|]; [done|].
  rewrite floorLog2_log2 by (done || lia). cbn [mbind result_bind]. unfold Z.log2_up.
  destruct (Z.compare_spec 1 n); [lia| |lia]. rewrite Z.sub_1_r. done.
Qed.

Lemma isPowerOf2_pow2 n : 0 <= n → isPowerOf2 n = true ↔ ∃ k, 0 <= k ∧ n = 2 ^ k.
Proof.
  intros Hn. unfold isPowerOf2. split.
  - intros H. bool_prop. exists (Z.log2 n). split; [apply Z.log2_nonneg|].
    pose proof (Z.log2_spec n ltac:(lia)) as Hl. pose proof (Z.log2_nonneg n).
    destruct (Z.eq_dec n (2 ^ Z.log2 n)) as [|Hne]; [done|exfalso].
    assert (Z.testbit (n .& (n - 1)) (Z.log2 n) = true) as Hb.
    { rewrite Z.land_spec, Z.bit_log2 by lia. simpl.
      assert (Z.log2 (n - 1) = Z.log2 n) as <- by (apply Z.log2_unique; lia).
      apply Z.bit_log2. lia. }
    rewrite H0 in Hb. by rewrite Z.testbit_0_l in Hb.
  - intros (k & Hk & ->). pose proof (pow2_pos k Hk). apply andb_true_iff. split.
    + apply negb_true_iff, Z.eqb_neq. lia.
    + apply Z.eqb_eq. rewrite Z.sub_1_r, <-Z.ones_equiv, Z.land_ones by done.
      apply Z.mod_same. lia.
Qed.

Lemma isPowerOf2_true k : 0 <= k → isPowerOf2 (2 ^ k) = true.
Proof. intros Hk. pose proof (pow2_pos k Hk). apply isPowerOf2_pow2; [lia|by exists k]. Qed.

(** divCeil rounds the quotient up as long as [a + b] does not wrap. *)
Lemma divCeil_up w a b : 0 <= a → 0 < b → a + b < 2 ^ w → 0 <= w →
  divCeil w a b = (a + b - 1) / b ∧
  (divCeil w a b - 1) * b < a <= divCeil w a b * b.
Proof.
  intros Ha Hb Hw Hw0. unfold divCeil.
  rewrite !wrap_small by (rewrite ?wrap_small; unfold fits; lia). split; [done|].
  pose proof (Z.div_mod (a + b - 1) b). pose proof (Z.mod_pos_bound (a + b - 1) b). nia.
Qed.

(** ** Rounding *)

Lemma roundDown_floor w k val : 0 <= k < w → fits w val →
  roundDown w val (2 ^ k) = Ok (val - val mod 2 ^ k).
Proof.
  intros Hk Hv. unfold roundDown. rewrite isPowerOf2_true by lia.
  cbn [assert_ok mbind result_bind]. f_equal. pose proof (pow2_pos k ltac:(lia)).
  assert (2 ^ k < 2 ^ w) by (apply Z.pow_lt_mono_r; lia).
  rewrite (wrap_small w) by (unfold fits; lia).
  replace (val - val mod 2 ^ k) with ((val .>> k) .<< k).
  2: { rewrite Z.shiftl_mul_pow2, Z.shiftr_div_pow2 by lia. pose proof (Z.div_mod val (2 ^ k)). lia. }
  rewrite Z.sub_1_r, <-Z.ones_equiv. apply Z.bits_inj'; intros i Hi.
  rewrite Z.land_spec, testbit_unot, testbit_ones, Z.shiftl_spec by lia.
  destruct (Z.ltb_spec i w).
  - destruct (Z.ltb_spec i k); simpl.
    + rewrite (Z.testbit_neg_r (val .>> k)) by lia. apply andb_false_r.
    + rewrite Z.shiftr_spec by lia. rewrite andb_true_r. f_equal. lia.
  - rewrite (testbit_fits w val), Z.shiftr_spec, (testbit_fits w val) by (done || lia). done.
Qed.

Lemma roundUp_ceil w k val : 0 <= k < w → 0 <= val → val + 2 ^ k - 1 < 2 ^ w →
  roundUp w val (2 ^ k) = Ok ((val + 2 ^ k - 1) / 2 ^ k * 2 ^ k).
Proof.
  intros Hk Hv Hw. pose proof (pow2_pos k ltac:(lia)).
  assert (2 ^ k < 2 ^ w) by (apply Z.pow_lt_mono_r; lia).
  change (roundUp w val (2 ^ k)) with (roundDown w (wrap w (val + wrap w (2 ^ k - 1))) (2 ^ k)).
  rewrite (wrap_small w (2 ^ k - 1)), Z.add_sub_assoc by (unfold fits; lia).
  rewrite (wrap_small w) by (unfold fits; lia).
  rewrite roundDown_floor by (unfold fits; lia). f_equal.
  pose proof (Z.div_mod (val + 2 ^ k - 1) (2 ^ k)). lia.
Qed.

(** ** Wide multiplication *)

Lemma land_1 x : x .& 1 = x mod 2.
Proof. change 1 with (Z.ones 1) at 1. by rewrite Z.land_ones. Qed.

(** The carry computed on halves is the carry of the sum. *)
Lemma half_sum x y z :
  x / 2 + y / 2 + z / 2 + (x mod 2 + y mod 2 + z mod 2) / 2 = (x + y + z) / 2.
Proof. Z.to_euclidean_division_equations. lia. Qed.

(** The high word of the sum of the partial products. *)
Lemma high_word AB Ab aB ab : 0 <= ab →
  (AB * 2 ^ 64 + (Ab + aB) * 2 ^ 32 + ab) / 2 ^ 64 = AB + (ab / 2 ^ 32 + Ab + aB) / 2 ^ 32.
Proof. intros. Z.to_euclidean_division_equations. lia. Qed.

(** The carry computation on partial products of 32-bit halves. *)
Lemma carry_word c1 Ab aB :
  0 <= c1 < 2 ^ 32 → 0 <= Ab <= (2 ^ 32 - 1) * (2 ^ 32 - 1) → 0 <= aB <= (2 ^ 32 - 1) * (2 ^ 32 - 1) →
  u64 (u64 (u64 (c1 / 2 + Ab / 2) + aB / 2) + u64 (u64 (c1 mod 2 + Ab mod 2) + aB mod 2) / 2) / 2 ^ 31
  = (c1 + Ab + aB) / 2 ^ 32.
Proof.
  intros H1 H2 H3.
  pose proof (Z.mod_pos_bound c1 2 ltac:(lia)). pose proof (Z.mod_pos_bound Ab 2 ltac:(lia)).
  pose proof (Z.mod_pos_bound aB 2 ltac:(lia)).
  assert (0 <= c1 / 2 < 2 ^ 31) by (Z.to_euclidean_division_equations; lia).
  assert (0 <= Ab / 2 <= 2 ^ 63 - 2 ^ 32) by (Z.to_euclidean_division_equations; lia).
  assert (0 <= aB / 2 <= 2 ^ 63 - 2 ^ 32) by (Z.to_euclidean_division_equations; lia).
  rewrite (wrap_small 64 (c1 / 2 + _)) by (unfold fits; lia).
  rewrite (wrap_small 64 (c1 mod 2 + _)) by (unfold fits; lia).
  rewrite (wrap_small 64 (c1 mod 2 + _ + _)) by (unfold fits; lia).
  rewrite (wrap_small 64 (c1 / 2 + _ + _)) by (unfold fits; lia).
  rewrite half_sum. rewrite wrap_small by (unfold fits; Z.to_euclidean_division_equations; lia).
  rewrite Z.div_div by lia. done.
Qed.

Lemma half_product x y : 0 <= x < 2 ^ 32 → 0 <= y < 2 ^ 32 →
  0 <= x * y <= (2 ^ 32 - 1) * (2 ^ 32 - 1).
Proof. nia. Qed.

(** A 64-bit word is its two 32-bit halves. *)
Lemma halves v : fits 64 v →
  v = v / 2 ^ 32 * 2 ^ 32 + v mod 2 ^ 32 ∧ 0 <= v / 2 ^ 32 < 2 ^ 32 ∧ 0 <= v mod 2 ^ 32 < 2 ^ 32.
Proof. unfold fits. intros Hv. Z.to_euclidean_division_equations. lia. Qed.

(** Without a 128-bit type the high word is still the exact one. *)
Lemma mulUnsignedManual_div val_a val_b : fits 64 val_a → fits 64 val_b →
  mulUnsignedManual val_a val_b = (val_a * val_b / 2 ^ 64, val_a * val_b mod 2 ^ 64).
Proof.
  intros Ha Hb. unfold mulUnsignedManual.
  destruct (halves val_a Ha) as (Da & HA & Hal). destruct (halves val_b Hb) as (Db & HB & Hbl).
  rewrite !Z.shiftr_div_pow2, !land_1 by lia. change (2 ^ 1) with 2.
  rewrite (wrap_small 32 (val_a / _)), (wrap_small 32 (val_b / _)) by (unfold fits; lia).
  change (u32 val_a) with (val_a mod 2 ^ 32). change (u32 val_b) with (val_b mod 2 ^ 32).
  set (A := val_a / 2 ^ 32) in *. set (a := val_a mod 2 ^ 32) in *.
  set (B := val_b / 2 ^ 32) in *. set (b := val_b mod 2 ^ 32) in *.
  pose proof (half_product a b Hal Hbl). pose proof (half_product A b HA Hbl).
  pose proof (half_product a B Hal HB). pose proof (half_product A B HA HB).
  assert (val_a * val_b = A * B * 2 ^ 64 + (A * b + a * B) * 2 ^ 32 + a * b) as Hprod.
  { rewrite Da, Db at 1. lia. }
  rewrite (wrap_small 64 (a * b)), (wrap_small 64 (A * b)), (wrap_small 64 (a * B)),
    (wrap_small 64 (A * B)) by (unfold fits; lia).
  assert (0 <= a * b / 2 ^ 32 < 2 ^ 32) by (Z.to_euclidean_division_equations; lia).
  rewrite (wrap_small 32) by (unfold fits; lia).
  rewrite carry_word by lia. rewrite Hprod, high_word by lia. f_equal.
  apply wrap_small. rewrite <-high_word, <-Hprod by lia.
  unfold fits in *. split; [apply Z.div_pos; nia|apply Z.div_lt_upper_bound; nia].
Qed.

Lemma mulUnsigned128_div val_a val_b : fits 64 val_a → fits 64 val_b →
  mulUnsigned128 val_a val_b = (val_a * val_b / 2 ^ 64, val_a * val_b mod 2 ^ 64).
Proof.
  unfold fits. intros Ha Hb. unfold mulUnsigned128.
  assert (0 <= val_a * val_b < 2 ^ 64 * 2 ^ 64) by nia.
  rewrite (wrap_small 128) by (unfold fits; lia). rewrite Z.shiftr_div_pow2 by lia.
  rewrite (wrap_small 64 (_ / _)); [done|].
  split; [apply Z.div_pos; lia|apply Z.div_lt_upper_bound; lia].
Qed.

(** On either build the high and the low word are those of the product. *)
Lemma mulUnsigned_div int128 val_a val_b : fits 64 val_a → fits 64 val_b →
  mulUnsigned int128 val_a val_b = (val_a * val_b / 2 ^ 64, val_a * val_b mod 2 ^ 64).
Proof. destruct int128; [apply mulUnsigned128_div|apply mulUnsignedManual_div]. Qed.

Lemma u64_signed v : - 2 ^ 63 <= v < 2 ^ 63 → u64 v = if v <? 0 then v + 2 ^ 64 else v.
Proof.
  intros Hv. unfold wrap. destruct (Z.ltb_spec v 0).
  - rewrite <-(Z.mod_add v 1) by lia. apply Z.mod_small. lia.
  - apply Z.mod_small. lia.
Qed.

Lemma wrap_congr w x : 0 <= w → ∃ k, wrap w x = x + k * 2 ^ w.
Proof.
  intros Hw. exists (- (x / 2 ^ w)). unfold wrap. pose proof (pow2_pos w Hw).
  rewrite Z.mod_eq by lia. lia.
Qed.

Lemma s64_congr v k : - 2 ^ 63 <= v < 2 ^ 63 → s64 (v + k * 2 ^ 64) = v.
Proof.
  intros Hv. unfold swrap. change (64 - 1) with 63.
  replace (v + k * 2 ^ 64 + 2 ^ 63) with (v + 2 ^ 63 + k * 2 ^ 64) by lia.
  rewrite Z.mod_add, Z.mod_small by lia. lia.
Qed.

Lemma s64_small v : - 2 ^ 63 <= v < 2 ^ 63 → s64 v = v.
Proof. intros Hv. rewrite <-(s64_congr v 0) at 2 by done. f_equal. lia. Qed.

Lemma s64_range x : - 2 ^ 63 <= s64 x < 2 ^ 63.
Proof.
  unfold swrap. change (64 - 1) with 63.
  pose proof (Z.mod_pos_bound (x + 2 ^ 63) (2 ^ 64) ltac:(lia)). lia.
Qed.

Lemma u64_s64 x : u64 (s64 x) = u64 x.
Proof.
  unfold swrap, wrap. change (64 - 1) with 63. rewrite Zminus_mod_idemp_l. f_equal. lia.
Qed.

Lemma swrap_small128 x : - 2 ^ 126 <= x <= 2 ^ 126 → swrap 128 x = x.
Proof.
  intros Hx. unfold swrap. change (128 - 1) with 127. rewrite Z.mod_small by lia. lia.
Qed.

Lemma s64_mod x : s64 (x mod 2 ^ 64) = s64 x.
Proof. unfold swrap. by rewrite Zplus_mod_idemp_l. Qed.

(** The high word after both sign corrections. *)
Lemma signed_high val_a val_b :
  - 2 ^ 63 <= val_a < 2 ^ 63 → - 2 ^ 63 <= val_b < 2 ^ 63 →
  let P := u64 val_a * u64 val_b in
  let h := P / 2 ^ 64 in
  let h := if val_a <? 0 then u64 (h - val_b) else h in
  let h := if val_b <? 0 then u64 (h - val_a) else h in
  (∃ k, h = val_a * val_b / 2 ^ 64 + k * 2 ^ 64) ∧ P mod 2 ^ 64 = (val_a * val_b) mod 2 ^ 64.
Proof.
  intros Ha Hb P. set (α := if val_a <? 0 then 1 else 0). set (β := if val_b <? 0 then 1 else 0).
  assert (P = val_a * val_b + (α * val_b + β * val_a + α * β * 2 ^ 64) * 2 ^ 64) as HP.
  { subst P α β. rewrite !u64_signed by done. destruct (val_a <? 0), (val_b <? 0); lia. }
  cbv zeta. rewrite HP, Z.div_add, Z.mod_add by lia. split; [|done].
  set (q := val_a * val_b / 2 ^ 64). subst α β.
  destruct (val_a <? 0), (val_b <? 0).
  - match goal with |- context [u64 (u64 ?x - _)] => destruct (wrap_congr 64 x ltac:(done)) as [k1 ->] end.
    match goal with |- context [u64 ?x] => destruct (wrap_congr 64 x ltac:(done)) as [k2 ->] end.
    exists (1 + k1 + k2). lia.
  - match goal with |- context [u64 ?x] => destruct (wrap_congr 64 x ltac:(done)) as [k2 ->] end.
    exists k2. lia.
  - match goal with |- context [u64 ?x] => destruct (wrap_congr 64 x ltac:(done)) as [k2 ->] end.
    exists k2. lia.
  - exists 0. lia.
Qed.

(** C40: the signed 64x64 multiplication written without signed 128-bit integers is
    exact, on a compiler with unsigned ones ([int128]) as on one that has none and
    computes the carries itself (mulUnsignedManual): the high and the low word it
    returns are signed 64-bit values whose combination is the mathematical product, for
    all pairs of signed operands; and mulSigned returns the same words on both. *)
Theorem mulSignedManual_exact int128 val_a val_b high low :
  - 2 ^ 63 <= val_a < 2 ^ 63 → - 2 ^ 63 <= val_b < 2 ^ 63 →
  mulSignedManual int128 val_a val_b = (high, low) →
  high * 2 ^ 64 + u64 low = val_a * val_b ∧ - 2 ^ 63 <= high < 2 ^ 63 ∧ - 2 ^ 63 <= low < 2 ^ 63 ∧
  ∀ build, mulSigned build val_a val_b = (high, low).
Proof.
  intros Ha Hb. unfold mulSignedManual. rewrite mulUnsigned_div by (by apply wrap_fits).
  destruct (signed_high val_a val_b Ha Hb) as [(k & Hk) Hlow]. cbv zeta in Hk.
  rewrite Hk, Hlow. intros [= <- <-]. rewrite u64_s64.
  assert (- 2 ^ 126 <= val_a * val_b <= 2 ^ 126) by nia.
  assert (- 2 ^ 63 <= val_a * val_b / 2 ^ 64 < 2 ^ 63) by (Z.to_euclidean_division_equations; lia).
  rewrite s64_congr by done. split; [|split; [done|split; [apply s64_range|]]].
  - unfold wrap. rewrite Z.mod_mod by lia. pose proof (Z.div_mod (val_a * val_b) (2 ^ 64)). lia.
  - intros [].
    + unfold mulSigned, mulSigned128. rewrite swrap_small128, Z.shiftr_div_pow2 by lia.
      rewrite s64_small by done. by rewrite s64_mod.
    + unfold mulSigned, mulSignedManual. rewrite mulUnsigned_div by (by apply wrap_fits).
      cbv zeta. rewrite Hk, Hlow. by rewrite s64_congr.
Qed.

Lemma mulSignedManual_exact_witness :
  -1 * 2 ^ 64 + u64 (- 2 ^ 62 * 3 + 2 ^ 64) = - 2 ^ 62 * 3 ∧
  - 2 ^ 63 <= -1 < 2 ^ 63 ∧ - 2 ^ 63 <= s64 (- 2 ^ 62 * 3) < 2 ^ 63 ∧
  ∀ build, mulSigned build (- 2 ^ 62) 3 = (-1, s64 (- 2 ^ 62 * 3)).
Proof.
  destruct (mulSignedManual_exact false (- 2 ^ 62) 3 (-1) (s64 (- 2 ^ 62 * 3))) as (H & H1 & H2 & H3);
    [lia|lia|reflexivity|].
  split; [exact H|]. split; [exact H1|]. split; [exact H2|exact H3].
Defined.

End IntMath.
