(* ===== verification/Flags.v ===== *)
(** * base/flags.hh: sets of flags in an unsigned word

    [Flags<T>] keeps one word of [w] bits; every method is a definition on that
    word. *)

From Stdlib Require Import ZArith Lia Btauto.
From stdpp Require Import base numbers.
From S2P Require Import Prelude.

Module Flags.

Definition isSet (flags mask : Z) : bool := negb (flags .& mask =? 0).
Definition allSet (flags mask : Z) : bool := flags .& mask =? mask.
Definition noneSet (flags mask : Z) : bool := flags .& mask =? 0.
Definition clear_all (flags : Z) : Z := 0.
Definition clear (w flags mask : Z) : Z := flags .& unot w mask.
Definition set (flags mask : Z) : Z := flags .| mask.
Definition set_cond (w flags mask : Z) (condition : bool) : Z :=
  if condition then set flags mask else clear w flags mask.
Definition replace (w flags new mask : Z) : Z :=
  (flags .& unot w mask) .| (new .& mask).

(** A flag is a single bit. *)
Lemma isSet_bit flags n : 0 <= n → isSet flags (2 ^ n) = Z.testbit flags n.
Proof.
  intros Hn. unfold isSet. destruct (Z.testbit flags n) eqn:E.
  - apply negb_true_iff, Z.eqb_neq. intros H.
    assert (Z.testbit (flags .& 2 ^ n) n = true) as Hb
      by (rewrite Z.land_spec, E, testbit_pow2, Z.eqb_refl; done).
    by rewrite H, Z.testbit_0_l in Hb.
  - apply negb_false_iff, Z.eqb_eq. apply Z.bits_inj'; intros i Hi.
    rewrite Z.land_spec, testbit_pow2, Z.testbit_0_l by done.
    destruct (Z.eqb_spec i n) as [->|]; [by rewrite E|apply andb_false_r].
Qed.

Lemma isSet_set_bit flags m n : 0 <= m → 0 <= n →
  isSet (set flags (2 ^ m)) (2 ^ n) = (n =? m) || isSet flags (2 ^ n).
Proof.
  intros Hm Hn. rewrite !isSet_bit by done. unfold set.
  rewrite Z.lor_spec, testbit_pow2 by done. apply orb_comm.
Qed.

Lemma isSet_clear_bit w flags m n : 0 <= m → 0 <= n < w →
  isSet (clear w flags (2 ^ m)) (2 ^ n) = negb (n =? m) && isSet flags (2 ^ n).
Proof.
  intros Hm Hn. rewrite !isSet_bit by lia. unfold clear.
  rewrite Z.land_spec, testbit_unot, testbit_pow2 by lia.
  split_cmp; simpl; btauto.
Qed.

End Flags.
