(* ===== verification/EventQueue.v ===== *)
(** * sim/eventq.hh, sim/eventq.cc: the event queue

    The simulator's clock: a linked list of bins (events with the same time and
    priority), each bin a stack.  The model keeps the pointers of the code: a heap
    of [Event] records, a queue record with its [head], [nextBin] and [nextInBin]
    links that may be stale inside a bin.  Each method of the C++ classes is a
    definition; the file [EventQueueSpec] relates them to an abstract priority
    queue. *)

From Stdlib Require Import ZArith Lia.
From stdpp Require Import base numbers option list gmap.
From S2P Require Import Prelude Flags.

Module EventQ.

Abbreviation ptr := positive.

(** ** EventBase *)

Definition PublicRead : Z := 0x003f.
Definition PublicWrite : Z := 0x001d.
Definition Squashed : Z := 0x0001.
Definition Scheduled : Z := 0x0002.
Definition Managed : Z := 0x0004.
Definition AutoDelete : Z := Managed.
Definition Reserved0 : Z := 0x0008.
Definition IsExitEvent : Z := 0x0010.
Definition IsMainQueue : Z := 0x0020.
Definition Initialized : Z := 0x7a40.
Definition InitMask : Z := 0xffc0.

Definition Minimum_Pri : Z := -128.
Definition Debug_Enable_Pri : Z := -101.
Definition Debug_Break_Pri : Z := -100.
Definition CPU_Switch_Pri : Z := -31.
Definition Delayed_Writeback_Pri : Z := -1.
Definition Default_Pri : Z := 0.
Definition DVFS_Update_Pri : Z := 31.
Definition Serialize_Pri : Z := 32.
Definition CPU_Tick_Pri : Z := 50.
Definition CPU_Exit_Pri : Z := 64.
Definition Stat_Event_Pri : Z := 90.
Definition Progress_Event_Pri : Z := 95.
Definition Sim_Exit_Pri : Z := 100.
Definition Maximum_Pri : Z := 127.

(** ** Event *)

Record Event := mkEvent {
  nextBin : option ptr;
  nextInBin : option ptr;
  _when : Z;
  _priority : Z;
  flags : Z;
  queue : option Z    (* the queue the event belongs to, by its identity *)
}.

Definition set_nextBin (v : option ptr) (e : Event) : Event :=
  mkEvent v (nextInBin e) (_when e) (_priority e) (flags e) (queue e).
Definition set_nextInBin (v : option ptr) (e : Event) : Event :=
  mkEvent (nextBin e) v (_when e) (_priority e) (flags e) (queue e).
Definition set_flags (v : Z) (e : Event) : Event :=
  mkEvent (nextBin e) (nextInBin e) (_when e) (_priority e) v (queue e).

(** Event::setWhen *)
Definition setWhen (when : Z) (q : Z) (e : Event) : Event :=
  mkEvent (nextBin e) (nextInBin e) when (_priority e) (flags e) (Some q).

(** Event::Event(p, f), the flags given checked against PublicWrite. *)
Definition Event_new (p f : Z) : result Event :=
  _ ← assert_ok (Flags.noneSet f (unot 16 PublicWrite));
  Ok (mkEvent None None 0 p (Initialized .| f) None).

Definition initialized (e : Event) : bool := flags e .& InitMask =? Initialized.
Definition getFlags (e : Event) : Z := flags e .& PublicRead.
Definition isFlagSet (e : Event) (f : Z) : result bool :=
  _ ← assert_ok (Flags.noneSet f (unot 16 PublicRead));
  Ok (Flags.isSet (flags e) f).
Definition setFlags (e : Event) (f : Z) : result Event :=
  _ ← assert_ok (Flags.noneSet f (unot 16 PublicWrite));
  Ok (set_flags (Flags.set (flags e) f) e).
Definition clearFlags (e : Event) (f : Z) : result Event :=
  _ ← assert_ok (Flags.noneSet f (unot 16 PublicWrite));
  Ok (set_flags (Flags.clear 16 (flags e) f) e).

Definition scheduled (e : Event) : bool := Flags.isSet (flags e) Scheduled.
Definition squash (e : Event) : Event := set_flags (Flags.set (flags e) Squashed) e.
Definition squashed (e : Event) : bool := Flags.isSet (flags e) Squashed.
Definition isExitEvent (e : Event) : bool := Flags.isSet (flags e) IsExitEvent.
Definition isManaged (e : Event) : bool := Flags.isSet (flags e) Managed.

(** The comparison operators of events: time first, then priority. *)
Definition event_lt (l r : Event) : bool :=
  (_when l <? _when r) || ((_when l =? _when r) && (_priority l <? _priority r)).
Definition event_gt (l r : Event) : bool :=
  (_when r <? _when l) || ((_when l =? _when r) && (_priority r <? _priority l)).
Definition event_le (l r : Event) : bool :=
  (_when l <? _when r) || ((_when l =? _when r) && (_priority l <=? _priority r)).
Definition event_ge (l r : Event) : bool :=
  (_when r <? _when l) || ((_when l =? _when r) && (_priority r <=? _priority l)).
Definition event_eq (l r : Event) : bool :=
  (_when l =? _when r) && (_priority l =? _priority r).
Definition event_ne (l r : Event) : bool :=
  negb (_when l =? _when r) || negb (_priority l =? _priority r).

(** ** The heap *)

Abbreviation heap := (gmap ptr Event).

Definition load (h : heap) (p : ptr) : result Event := deref (h !! p).
Definition load_opt (h : heap) (p : option ptr) : result Event :=
  p ← deref p; load h p.
Definition store (f : Event → Event) (p : ptr) (h : heap) : heap := alter f p h.

(** Event::insertBefore(event, curr): the new top of the bin list. *)
Definition insertBefore (h : heap) (event : ptr) (curr : option ptr)
    : result (heap * option ptr) :=
  e ← load h event;
  match curr with
  | None =>
      let h := store (set_nextBin None) event h in
      Ok (store (set_nextInBin None) event h, Some event)
  | Some c =>
      ec ← load h c;
      if event_lt e ec then
        let h := store (set_nextBin curr) event h in
        Ok (store (set_nextInBin None) event h, Some event)
      else
        let h := store (set_nextBin (nextBin ec)) event h in
        Ok (store (set_nextInBin curr) event h, Some event)
  end.

(** The loop of Event::removeItem: from [curr] and [next = curr->nextInBin], unlink
    [event]. *)
Fixpoint removeItem_loop (fuel : nat) (h : heap) (event curr : ptr) (next : option ptr)
    : result heap :=
  match fuel with
  | O => Err OutOfFuel
  | S fuel =>
      if decide (next = Some event) then
        en ← load_opt h next;
        Ok (store (set_nextInBin (nextInBin en)) curr h)
      else
        match next with
        | None => Err Panic
        | Some n => en ← load h n; removeItem_loop fuel h event n (nextInBin en)
        end
  end.

(** Event::removeItem(event, top) *)
Definition removeItem (fuel : nat) (h : heap) (event top : ptr)
    : result (heap * option ptr) :=
  et ← load h top;
  let next := nextInBin et in
  if decide (event = top) then
    match next with
    | None => Ok (h, nextBin et)
    | Some n => _ ← load h n; Ok (store (set_nextBin (nextBin et)) n h, next)
    end
  else
    h ← removeItem_loop fuel h event top next;
    Ok (h, Some top).

(** ** EventQueue *)

Record EventQueue := mkQueue {
  this : Z;                  (* the identity of the queue *)
  head : option ptr;
  _curTick : Z;
  async_queue : list ptr
}.

Definition set_head (v : option ptr) (q : EventQueue) : EventQueue :=
  mkQueue (this q) v (_curTick q) (async_queue q).
Definition setCurTick (v : Z) (q : EventQueue) : EventQueue :=
  mkQueue (this q) (head q) v (async_queue q).
Definition set_async (v : list ptr) (q : EventQueue) : EventQueue :=
  mkQueue (this q) (head q) (_curTick q) v.

(** EventQueue::EventQueue *)
Definition EventQueue_new (id : Z) : EventQueue := mkQueue id None 0 [].

Definition empty (q : EventQueue) : bool := bool_decide (head q = None).
Definition getCurTick (q : EventQueue) : Z := _curTick q.
Definition getHead (q : EventQueue) : option ptr := head q.
Definition nextTick (h : heap) (q : EventQueue) : result Z :=
  e ← load_opt h (head q); Ok (_when e).

(** The search loop shared by insert and remove: the first bin that is not before
    [event], with the bin before it. *)
Fixpoint find_bin (fuel : nat) (h : heap) (event prev : ptr) (curr : option ptr)
    : result (ptr * option ptr) :=
  match fuel with
  | O => Err OutOfFuel
  | S fuel =>
      match curr with
      | None => Ok (prev, None)
      | Some c =>
          ec ← load h c;
          e ← load h event;
          if event_lt ec e then find_bin fuel h event c (nextBin ec)
          else Ok (prev, curr)
      end
  end.

(** EventQueue::insert *)
Definition insert (fuel : nat) (h : heap) (q : EventQueue) (event : ptr)
    : result (heap * EventQueue) :=
  e ← load h event;
  match head q with
  | None =>
      '(h, hd) ← insertBefore h event None;
      Ok (h, set_head hd q)
  | Some hd =>
      eh ← load h hd;
      if event_le e eh then
        '(h, hd) ← insertBefore h event (head q);
        Ok (h, set_head hd q)
      else
        '(prev, curr) ← find_bin fuel h event hd (nextBin eh);
        '(h, r) ← insertBefore h event curr;
        Ok (store (set_nextBin r) prev h, q)
  end.

(** EventQueue::remove *)
Definition remove (fuel : nat) (h : heap) (q : EventQueue) (event : ptr)
    : result (heap * EventQueue) :=
  match head q with
  | None => Err Panic
  | Some hd =>
      e ← load h event;
      _ ← assert_ok (bool_decide (queue e = Some (this q)));
      eh ← load h hd;
      if event_eq eh e then
        '(h, hd) ← removeItem fuel h event hd;
        Ok (h, set_head hd q)
      else
        '(prev, curr) ← find_bin fuel h event hd (nextBin eh);
        match curr with
        | None => Err Panic
        | Some c =>
            ec ← load h c;
            if event_ne ec e then Err Panic
            else
              '(h, r) ← removeItem fuel h event c;
              Ok (store (set_nextBin r) prev h, q)
        end
  end.

(** Event::release with the default releaseImpl: a managed event that is not
    scheduled is deleted, which runs the destructor's assertion. *)
Definition release (h : heap) (event : ptr) : result heap :=
  e ← load h event;
  if isManaged e then
    if negb (scheduled e) then
      _ ← assert_ok (negb (scheduled e)); Ok (delete event h)
    else Ok h
  else Ok h.

(** Event::acquire with the default acquireImpl does nothing. *)
Definition acquire (h : heap) (event : ptr) : result heap :=
  _ ← load h event; Ok h.

Definition asyncInsert (q : EventQueue) (event : ptr) : EventQueue :=
  set_async (async_queue q ++ [event]) q.

Fixpoint async_loop (fuel : nat) (l : list ptr) (h : heap) (q : EventQueue)
    : result (heap * EventQueue) :=
  match l with
  | [] => Ok (h, q)
  | event :: l => '(h, q) ← insert fuel h q event; async_loop fuel l h (set_async l q)
  end.

(** EventQueue::handleAsyncInsertions *)
Definition handleAsyncInsertions (fuel : nat) (cur : Z) (h : heap) (q : EventQueue)
    : result (heap * EventQueue) :=
  _ ← assert_ok (this q =? cur);
  async_loop fuel (async_queue q) h q.

(** The globals schedule and deschedule consult: whether the simulation runs its
    queues in parallel, and the queue of the running thread. *)
Record globals := mkGlobals { inParallelMode : bool; curEventQueue : Z }.

(** EventQueue::schedule *)
Definition schedule (fuel : nat) (g : globals) (h : heap) (q : EventQueue)
    (event : ptr) (when : Z) (global : bool) : result (heap * EventQueue) :=
  _ ← assert_ok (getCurTick q <=? when);
  e ← load h event;
  _ ← assert_ok (negb (scheduled e));
  _ ← assert_ok (initialized e);
  let h := store (setWhen when (this q)) event h in
  '(h, q) ← (if inParallelMode g && (negb (this q =? curEventQueue g) || global)
             then Ok (h, asyncInsert q event)
             else insert fuel h q event);
  let h := store (λ e, set_flags (Flags.set (flags e) Scheduled) e) event h in
  h ← acquire h event;
  Ok (h, q).

(** EventQueue::deschedule *)
Definition deschedule (fuel : nat) (g : globals) (h : heap) (q : EventQueue)
    (event : ptr) : result (heap * EventQueue) :=
  e ← load h event;
  _ ← assert_ok (scheduled e);
  _ ← assert_ok (initialized e);
  _ ← assert_ok (negb (inParallelMode g) || (this q =? curEventQueue g));
  '(h, q) ← remove fuel h q event;
  let h := store (λ e, set_flags (Flags.clear 16 (flags e) Squashed) e) event h in
  let h := store (λ e, set_flags (Flags.clear 16 (flags e) Scheduled) e) event h in
  h ← release h event;
  Ok (h, q).

(** EventQueue::reschedule *)
Definition reschedule (fuel : nat) (g : globals) (h : heap) (q : EventQueue)
    (event : ptr) (when : Z) (always : bool) : result (heap * EventQueue) :=
  _ ← assert_ok (getCurTick q <=? when);
  e ← load h event;
  _ ← assert_ok (always || scheduled e);
  _ ← assert_ok (initialized e);
  _ ← assert_ok (negb (inParallelMode g) || (this q =? curEventQueue g));
  '(h, q) ← (if scheduled e then remove fuel h q event
             else h ← acquire h event; Ok (h, q));
  let h := store (setWhen when (this q)) event h in
  '(h, q) ← insert fuel h q event;
  let h := store (λ e, set_flags (Flags.clear 16 (flags e) Squashed) e) event h in
  let h := store (λ e, set_flags (Flags.set (flags e) Scheduled) e) event h in
  Ok (h, q).

(** EventQueue::checkpointReschedule *)
Definition checkpointReschedule (fuel : nat) (h : heap) (q : EventQueue) (event : ptr)
    : result (heap * EventQueue) :=
  e ← load h event;
  if Flags.isSet (flags e) Scheduled then insert fuel h q event else Ok (h, q).

(** EventQueue::replaceHead: the old head is returned. *)
Definition replaceHead (q : EventQueue) (s : option ptr) : EventQueue * option ptr :=
  (set_head s q, head q).

(** What Event::serialize writes: time, priority and flags. *)
Definition Event_serialize (e : Event) : Z * Z * Z := (_when e, _priority e, swrap 16 (flags e)).

(** Event::unserialize *)
Definition Event_unserialize (e : Event) (cp : Z * Z * Z) : result Event :=
  _ ← assert_ok (negb (scheduled e));
  let '(when, prio, _flags) := cp in
  _ ← assert_ok (initialized e);
  let f := Flags.set (u16 _flags) Initialized in
  let f := if Flags.isSet f Scheduled && negb (Flags.isSet f Squashed)
           then Flags.clear 16 f (Squashed .| Scheduled) else f in
  Ok (mkEvent (nextBin e) (nextInBin e) when prio f (queue e)).

(** ** Servicing events

    [process] is the virtual method of the event classes, code of the client: it
    may change the heap, the queue and the client's own state [W]. *)
Section service.
Context {W : Type}.
Context (process : ptr → heap → EventQueue → W → result (heap * EventQueue * W)).

(** EventQueue::serviceOne: the exit event, if the event serviced is one. *)
Definition serviceOne (h : heap) (q : EventQueue) (w : W)
    : result (heap * EventQueue * W * option ptr) :=
  event ← deref (head q);
  e ← load h event;
  let h := store (λ e, set_flags (Flags.clear 16 (flags e) Scheduled) e) event h in
  '(h, q) ← match nextInBin e with
            | Some n =>
                _ ← load h n;
                Ok (store (set_nextBin (nextBin e)) n h, set_head (Some n) q)
            | None => Ok (h, set_head (nextBin e) q)
            end;
  if negb (squashed e) then
    '(h, q, w) ← process event h (setCurTick (_when e) q) w;
    e ← load h event;
    if isExitEvent e then
      _ ← assert_ok (negb (Flags.isSet (flags e) Managed) ||
                     negb (Flags.isSet (flags e) IsMainQueue));
      Ok (h, q, w, Some event)
    else h ← release h event; Ok (h, q, w, None)
  else
    let h := store (λ e, set_flags (Flags.clear 16 (flags e) Squashed) e) event h in
    h ← release h event; Ok (h, q, w, None).

(** EventQueue::serviceEvents(when) *)
Fixpoint serviceEvents_loop (fuel : nat) (when : Z) (h : heap) (q : EventQueue) (w : W)
    : result (heap * EventQueue * W) :=
  match fuel with
  | O => Err OutOfFuel
  | S fuel =>
      if empty q then Ok (h, q, w)
      else
        t ← nextTick h q;
        if when <? t then Ok (h, q, w)
        else '(h, q, w, _) ← serviceOne h q w; serviceEvents_loop fuel when h q w
  end.

Definition serviceEvents (fuel : nat) (when : Z) (h : heap) (q : EventQueue) (w : W)
    : result (heap * EventQueue * W) :=
  '(h, q, w) ← serviceEvents_loop fuel when h q w;
  Ok (h, setCurTick when q, w).
End service.

(** The destructor of the queue: every event left is descheduled. *)
Fixpoint EventQueue_destroy (fuel : nat) (g : globals) (h : heap) (q : EventQueue)
    : result (heap * EventQueue) :=
  match fuel with
  | O => Err OutOfFuel
  | S n =>
      match head q with
      | None => Ok (h, q)
      | Some hd => '(h, q) ← deschedule fuel g h q hd; EventQueue_destroy n g h q
      end
  end.

(** ** EventQueue::debugVerify

    The inner loop walks a bin, the outer one the bins; [seen] is the map of nodes
    met so far, [time] and [priority] those of the last one. *)
Fixpoint verify_bin (fuel : nat) (h : heap) (p : option ptr) (seen : gset ptr)
    (time priority : Z) : result (option (gset ptr * Z * Z)) :=
  match fuel with
  | O => Err OutOfFuel
  | S fuel =>
      match p with
      | None => Ok (Some (seen, time, priority))
      | Some x =>
          e ← load h x;
          if _when e <? time then Ok None
          else if (_when e =? time) && (_priority e <? priority) then Ok None
          else if bool_decide (x ∈ seen) then Ok None
          else verify_bin fuel h (nextInBin e) ({[x]} ∪ seen) (_when e) (_priority e)
      end
  end.

Fixpoint verify_bins (fuel0 fuel : nat) (h : heap) (p : option ptr) (seen : gset ptr)
    (time priority : Z) : result bool :=
  match fuel with
  | O => Err OutOfFuel
  | S fuel =>
      match p with
      | None => Ok true
      | Some x =>
          r ← verify_bin fuel0 h (Some x) seen time priority;
          match r with
          | None => Ok false
          | Some (seen, time, priority) =>
              e ← load h x; verify_bins fuel0 fuel h (nextBin e) seen time priority
          end
      end
  end.

Definition debugVerify (fuel : nat) (h : heap) (q : EventQueue) : result bool :=
  verify_bins fuel fuel h (head q) ∅ 0 0.

End EventQ.
