(* ===== verification/EventQueueSpec.v ===== *)
(** * The event queue as an abstract priority queue

    [aq] is what the pointer structure of [EventQueue] stands for: bins in strictly
    increasing order of (time, priority), each a stack of events.  [repr] relates a
    heap and a head pointer to an [aq]; the lemmas show that insert, removeItem,
    remove and serviceOne of the code implement the operations on [aq], that they
    return (the loops never run out of the fuel the number of events gives), and
    that they change nothing but the links. *)

From Stdlib Require Import ZArith Lia.
From stdpp Require Import base numbers option list gmap sorting.
From S2P Require Import Prelude Flags EventQueue.

Module EventQSpec.
Import EventQ.

(** ** Keys *)

Definition key (e : Event) : Z * Z := (_when e, _priority e).

Definition key_lt (a b : Z * Z) : bool :=
  (a.1 <? b.1) || ((a.1 =? b.1) && (a.2 <? b.2)).

Lemma key_lt_spec a b : key_lt a b = true ↔ a.1 < b.1 ∨ (a.1 = b.1 ∧ a.2 < b.2).
Proof. unfold key_lt. lia. Qed.

Lemma key_lt_false a b : key_lt a b = false ↔ key_lt b a = true ∨ a = b.
Proof.
  destruct a as [a1 a2], b as [b1 b2]. rewrite key_lt_spec. unfold key_lt. simpl. split.
  - intros H. destruct (decide (a1 = b1)), (decide (a2 = b2)); subst; auto; left; lia.
  - intros [H|[= -> ->]]; lia.
Qed.

Lemma key_lt_irrefl a : key_lt a a = false.
Proof. apply key_lt_false. by right. Qed.

Lemma key_lt_trans a b c : key_lt a b = true → key_lt b c = true → key_lt a c = true.
Proof. rewrite !key_lt_spec. lia. Qed.

Lemma event_lt_key l r : event_lt l r = key_lt (key l) (key r).
Proof. done. Qed.

Lemma event_le_key l r : event_le l r = negb (key_lt (key r) (key l)).
Proof. unfold event_le, key_lt, key. simpl. lia. Qed.

Lemma event_eq_key l r : event_eq l r = bool_decide (key l = key r).
Proof.
  unfold event_eq, key. case_bool_decide as H.
  - injection H as -> ->. by rewrite !Z.eqb_refl.
  - apply andb_false_iff. destruct (Z.eqb_spec (_when l) (_when r)); [right|by left].
    apply Z.eqb_neq. congruence.
Qed.

Lemma event_ne_key l r : event_ne l r = bool_decide (key l ≠ key r).
Proof.
  unfold event_ne. rewrite <-negb_andb. fold (event_eq l r). rewrite event_eq_key.
  case_bool_decide; case_bool_decide; done.
Qed.

(** ** The abstract queue *)

Abbreviation aq := (list ((Z * Z) * list ptr)).

Definition events (a : aq) : list ptr := concat (a.*2).

Fixpoint aq_insert (k : Z * Z) (p : ptr) (a : aq) : aq :=
  match a with
  | [] => [(k, [p])]
  | (k', b) :: a' =>
      if key_lt k k' then (k, [p]) :: a
      else if key_lt k' k then (k', b) :: aq_insert k p a'
      else (k', p :: b) :: a'
  end.

Definition drop_empty (k : Z * Z) (b : list ptr) (a : aq) : aq :=
  match b with [] => a | _ => (k, b) :: a end.

Fixpoint aq_remove (k : Z * Z) (p : ptr) (a : aq) : aq :=
  match a with
  | [] => []
  | (k', b) :: a' =>
      if bool_decide (k = k') then drop_empty k' (filter (.≠ p) b) a'
      else (k', b) :: aq_remove k p a'
  end.

(** Bins in strictly increasing order, none empty, no event twice. *)
Record aq_wf (a : aq) : Prop := {
  aq_sorted : StronglySorted (λ x y, key_lt x.1 y.1 = true) a;
  aq_nonempty : Forall (λ kb, kb.2 ≠ []) a;
  aq_nodup : NoDup (events a)
}.

(** ** Links *)

Definition nb (h : heap) (x : ptr) : option (option ptr) := nextBin <$> h !! x.
Definition ib (h : heap) (x : ptr) : option (option ptr) := nextInBin <$> h !! x.
Definition key_at (h : heap) (x : ptr) : option (Z * Z) := key <$> h !! x.

Definition top_or (r : option ptr) (a : aq) : option ptr :=
  match a with [] => r | (_, b) :: _ => List.hd_error b end.

Fixpoint inbin (h : heap) (l : list ptr) : Prop :=
  match l with
  | [] => True
  | x :: l' => ib h x = Some (List.hd_error l') ∧ inbin h l'
  end.

Definition bin_ok (h : heap) (kb : (Z * Z) * list ptr) : Prop :=
  kb.2 ≠ [] ∧ inbin h kb.2 ∧ Forall (λ x, key_at h x = Some kb.1) kb.2.

(** The top of each bin points to the top of the next; the last one to [r]. *)
Fixpoint chain (h : heap) (a : aq) (r : option ptr) : Prop :=
  match a with
  | [] => True
  | (_, b) :: a' =>
      match b with
      | [] => False
      | x :: _ => nb h x = Some (top_or r a')
      end ∧ chain h a' r
  end.

Definition repr (h : heap) (hd : option ptr) (a : aq) : Prop :=
  hd = top_or None a ∧ Forall (bin_ok h) a ∧ chain h a None.

(** What insertion and removal leave alone: everything but the links. *)
Definition data (e : Event) : Z * Z * Z * option Z :=
  (_when e, _priority e, flags e, queue e).
Definition same_data (h h' : heap) : Prop := ∀ x, data <$> h' !! x = data <$> h !! x.

#[global] Instance same_data_preorder : PreOrder same_data.
Proof. split; [by intros h x|]. intros h1 h2 h3 H1 H2 x. by rewrite H2, H1. Qed.

Lemma same_data_key h h' x : same_data h h' → key_at h' x = key_at h x.
Proof.
  intros H. unfold key_at. specialize (H x).
  destruct (h' !! x) as [[]|], (h !! x) as [[]|]; simplify_eq/=; done.
Qed.

Lemma same_data_lookup h h' x e : same_data h h' → h !! x = Some e →
  ∃ e', h' !! x = Some e' ∧ data e' = data e.
Proof.
  intros H Hx. specialize (H x). rewrite Hx in H.
  destruct (h' !! x) as [e'|]; [|done]. exists e'. split; [done|].
  by apply (inj Some).
Qed.

(** Lookups after a store to a link. *)
Lemma nb_store_nb v p h x : nb (store (set_nextBin v) p h) x =
  if decide (p = x) then (λ _, v) <$> h !! x else nb h x.
Proof.
  unfold nb, store. rewrite lookup_alter. case_decide; [|done].
  subst. by destruct (h !! x).
Qed.
Lemma ib_store_nb v p h x : ib (store (set_nextBin v) p h) x = ib h x.
Proof. unfold ib, store. rewrite lookup_alter. case_decide; [subst|done]. by destruct (h !! x). Qed.
Lemma nb_store_ib v p h x : nb (store (set_nextInBin v) p h) x = nb h x.
Proof. unfold nb, store. rewrite lookup_alter. case_decide; [subst|done]. by destruct (h !! x). Qed.
Lemma ib_store_ib v p h x : ib (store (set_nextInBin v) p h) x =
  if decide (p = x) then (λ _, v) <$> h !! x else ib h x.
Proof.
  unfold ib, store. rewrite lookup_alter. case_decide; [|done].
  subst. by destruct (h !! x).
Qed.

Lemma same_data_store_nb v p h : same_data h (store (set_nextBin v) p h).
Proof. intros x. unfold store. rewrite lookup_alter. case_decide; [subst|done]. by destruct (h !! x). Qed.
Lemma same_data_store_ib v p h : same_data h (store (set_nextInBin v) p h).
Proof. intros x. unfold store. rewrite lookup_alter. case_decide; [subst|done]. by destruct (h !! x). Qed.

Create Rewrite HintDb links.
#[local] Hint Resolve same_data_store_nb same_data_store_ib : gem5.
#[local] Hint Rewrite nb_store_nb ib_store_nb nb_store_ib ib_store_ib : links.

(** ** Frames *)

Lemma inbin_frame h h' l : (∀ x, x ∈ l → ib h' x = ib h x) → inbin h l → inbin h' l.
Proof.
  induction l as [|x l IH]; intros Hf; [done|]. intros [Hx Hl]. split.
  - rewrite Hf by left. done.
  - apply IH; [|done]. intros y Hy. apply Hf. by right.
Qed.

Lemma keys_frame h h' k l : (∀ x, x ∈ l → key_at h' x = key_at h x) →
  Forall (λ x, key_at h x = Some k) l → Forall (λ x, key_at h' x = Some k) l.
Proof.
  intros Hf Hl. rewrite Forall_forall in Hl |- *. intros x Hx. rewrite Hf; auto.
Qed.

Lemma events_cons k b a : events ((k, b) :: a) = b ++ events a.
Proof. done. Qed.
Lemma events_one k b : events [(k, b)] = b.
Proof. unfold events. simpl. apply app_nil_r. Qed.
Lemma events_app a1 a2 : events (a1 ++ a2) = events a1 ++ events a2.
Proof. unfold events. by rewrite fmap_app, concat_app. Qed.

Lemma bins_frame h h' a :
  (∀ x, x ∈ events a → ib h' x = ib h x ∧ key_at h' x = key_at h x) →
  Forall (bin_ok h) a → Forall (bin_ok h') a.
Proof.
  induction a as [|[k b] a IH]; intros Hf; [constructor|].
  rewrite !Forall_cons. intros [(Hne & Hin & Hk) Ha]. split.
  - split; [done|]. split.
    + eapply inbin_frame; [|done]. intros x Hx. apply Hf. rewrite events_cons. set_solver.
    + eapply keys_frame; [|done]. intros x Hx. apply Hf. rewrite events_cons. set_solver.
  - apply IH; [|done]. intros x Hx. apply Hf. rewrite events_cons. set_solver.
Qed.

Lemma chain_frame h h' a r :
  (∀ x, x ∈ events a → nb h' x = nb h x) → chain h a r → chain h' a r.
Proof.
  induction a as [|[k b] a IH]; intros Hf; [done|]. intros [Hx Ha]. split.
  - destruct b as [|x b]; [done|]. rewrite Hf; [done|]. rewrite events_cons. set_solver.
  - apply IH; [|done]. intros x Hy. apply Hf. rewrite events_cons. set_solver.
Qed.

Lemma top_or_app r a1 a2 : top_or r (a1 ++ a2) = top_or (top_or r a2) a1.
Proof. by destruct a1. Qed.

Lemma chain_app h a1 a2 r : chain h (a1 ++ a2) r ↔ chain h a1 (top_or r a2) ∧ chain h a2 r.
Proof.
  induction a1 as [|[k b] a1 IH]; simpl; [tauto|]. rewrite top_or_app. tauto.
Qed.

Lemma repr_lookup h hd a x : repr h hd a → x ∈ events a → is_Some (h !! x).
Proof.
  intros (_ & Ha & _) Hx. induction Ha as [|[k b] a [_ [_ Hk]] Ha IH]; [by inversion Hx|].
  rewrite events_cons, elem_of_app in Hx. destruct Hx as [Hx|Hx]; [|by apply IH].
  rewrite Forall_forall in Hk. specialize (Hk x Hx). unfold key_at in Hk.
  destruct (h !! x); [by eexists|done].
Qed.

(** Only the heap on the events of the queue matters. *)
Lemma repr_frame h h' hd a :
  (∀ x, x ∈ events a → nb h' x = nb h x ∧ ib h' x = ib h x ∧ key_at h' x = key_at h x) →
  repr h hd a → repr h' hd a.
Proof.
  intros Hf (Hhd & Hb & Hc). split; [done|]. split.
  - eapply bins_frame; [|done]. intros x Hx. by apply Hf.
  - eapply chain_frame; [|done]. intros x Hx. by apply Hf.
Qed.

(** ** Insertion *)

(** A new bin in front of a queue. *)
Lemma repr_new_bin h p k a :
  nb h p = Some (top_or None a) → ib h p = Some None → key_at h p = Some k →
  repr h (top_or None a) a → repr h (Some p) ((k, [p]) :: a).
Proof.
  intros Hn Hi Hk (_ & Hb & Hc). split; [done|]. split; [|by split].
  constructor; [|done]. split; [done|]. split; [by split|by constructor].
Qed.

(** An event pushed on the first bin. *)
Lemma repr_push h p k b a :
  nb h p = Some (top_or None a) → ib h p = Some (List.hd_error b) → key_at h p = Some k →
  repr h (List.hd_error b) ((k, b) :: a) → repr h (Some p) ((k, p :: b) :: a).
Proof.
  intros Hn Hi Hk (_ & Hb & Hc). apply Forall_cons in Hb as [(Hne & Hin & Hkeys) Hb].
  split; [done|]. split; [|split; [done|apply Hc]].
  constructor; [|done]. split; [done|]. split; [by split|by constructor].
Qed.

(** The first event of a queue, with its key and link. *)
Lemma repr_top h hd k c b a : repr h hd ((k, c :: b) :: a) →
  ∃ e, h !! c = Some e ∧ key e = k ∧ nextBin e = top_or None a ∧ nextInBin e = List.hd_error b.
Proof.
  intros (_ & Hb & [Hn _]). apply Forall_cons in Hb as [(_ & [Hi _] & Hkeys) _].
  apply Forall_cons in Hkeys as [Hk _]. simpl in *.
  unfold nb, ib, key_at in *. destruct (h !! c) as [e|]; [|done]. simpl in *.
  exists e. by simplify_eq.
Qed.

Lemma repr_tail h hd kb a : repr h hd (kb :: a) → repr h (top_or None a) a.
Proof. destruct kb. intros (_ & Hb & [_ Hc]). apply Forall_cons in Hb as [_ Hb]. done. Qed.

Lemma repr_nonempty h hd k b a : repr h hd ((k, b) :: a) → b ≠ [].
Proof. intros (_ & Hb & _). apply Forall_cons in Hb as [(? & _) _]. done. Qed.

(** Both stores of insertBefore, as one change of the event's links. *)
Lemma relink p e n i h :
  h !! p = Some e →
  let h' := store (set_nextInBin i) p (store (set_nextBin n) p h) in
  nb h' p = Some n ∧ ib h' p = Some i ∧ key_at h' p = Some (key e) ∧
  (∀ x, x ≠ p → h' !! x = h !! x) ∧ same_data h h'.
Proof.
  intros Hp h'. subst h'. unfold store. split; [|split; [|split; [|split]]].
  - unfold nb. by rewrite !lookup_alter_eq, Hp.
  - unfold ib. by rewrite !lookup_alter_eq, Hp.
  - unfold key_at. by rewrite !lookup_alter_eq, Hp.
  - intros x Hx. by rewrite !lookup_alter_ne.
  - etrans; [apply same_data_store_nb|apply same_data_store_ib].
Qed.

Lemma repr_frame_lookup h h' hd a :
  (∀ x, x ∈ events a → h' !! x = h !! x) → repr h hd a → repr h' hd a.
Proof.
  intros Hf. apply repr_frame. intros x Hx. unfold nb, ib, key_at. by rewrite Hf.
Qed.

(** insertBefore puts the event on top of the queue it is given. *)
Lemma insertBefore_repr h p e curr a :
  h !! p = Some e → p ∉ events a → repr h curr a →
  match a with [] => True | (k', _) :: _ => key_lt k' (key e) = false end →
  ∃ h', insertBefore h p curr = Ok (h', Some p) ∧ repr h' (Some p) (aq_insert (key e) p a) ∧
    (∀ x, x ≠ p → h' !! x = h !! x) ∧ same_data h h'.
Proof.
  intros Hp Hnin Hr Hk. unfold insertBefore, load. rewrite Hp. simpl.
  pose proof Hr as [-> _].
  assert (∀ h', (∀ x, x ≠ p → h' !! x = h !! x) → repr h' (top_or None a) a) as Hfr.
  { intros h' Hne. eapply repr_frame_lookup; [|done]. intros x Hx. apply Hne. by intros ->. }
  destruct a as [|[k' b] a]; simpl in *.
  - destruct (relink p e None None h Hp) as (? & ? & ? & ? & ?).
    eexists. split; [done|]. split; [|done]. by apply repr_new_bin.
  - destruct b as [|c b]; [by apply repr_nonempty in Hr|].
    destruct (repr_top _ _ _ _ _ _ Hr) as (ec & Ec & Ekc & Enb & Eib). simpl. rewrite Ec. simpl.
    rewrite event_lt_key, Ekc, Hk. destruct (key_lt (key e) k') eqn:Elt.
    + destruct (relink p e (Some c) None h Hp) as (? & ? & ? & ? & ?).
      eexists. split; [done|]. split; [|done]. apply repr_new_bin; auto.
    + destruct (relink p e (nextBin ec) (Some c) h Hp) as (Hn & ? & Hkp & ? & ?).
      eexists. split; [done|]. split; [|done].
      apply key_lt_false in Hk as [Hk| ->]; [congruence|].
      apply repr_push; [by rewrite Hn, Enb|done|done|]. by apply Hfr.
Qed.

(** The search stops at the bin after which the event belongs. *)
Lemma find_bin_repr h p e hd k0 x0 b0 rest :
  h !! p = Some e → key_lt k0 (key e) = true → repr h hd ((k0, x0 :: b0) :: rest) →
  ∀ fuel, (length rest < fuel)%nat →
  ∃ pre k1 x1 b1 post, (k0, x0 :: b0) :: rest = pre ++ (k1, x1 :: b1) :: post ∧
    find_bin fuel h p x0 (top_or None rest) = Ok (x1, top_or None post) ∧
    Forall (λ kb, key_lt kb.1 (key e) = true) (pre ++ [(k1, x1 :: b1)]) ∧
    match post with [] => True | (k', _) :: _ => key_lt k' (key e) = false end.
Proof.
  intros Hp Hk0 Hr fuel. revert hd k0 x0 b0 rest Hk0 Hr.
  induction fuel as [|fuel IH]; intros hd k0 x0 b0 rest Hk0 Hr Hlen; [lia|].
  destruct rest as [|[k' b'] rest]; simpl.
  { exists [], k0, x0, b0, []. split; [done|]. split; [done|]. by repeat constructor. }
  pose proof (repr_tail _ _ _ _ Hr) as Hr'.
  destruct b' as [|c b']; [by apply repr_nonempty in Hr'|]. simpl.
  destruct (repr_top _ _ _ _ _ _ Hr') as (ec & Ec & Ekc & Enb & _).
  unfold load. rewrite Ec, Hp. simpl. rewrite event_lt_key, Ekc.
  destruct (key_lt k' (key e)) eqn:Elt.
  - destruct (IH _ k' c b' rest Elt Hr' ltac:(simpl in Hlen; lia))
      as (pre & k1 & x1 & b1 & post & Heq & Hf & Hpre & Hpost).
    exists ((k0, x0 :: b0) :: pre), k1, x1, b1, post. rewrite Heq, Enb.
    split; [done|]. split; [done|]. by split; [constructor|].
  - exists [], k0, x0, b0, ((k', c :: b') :: rest). by repeat constructor.
Qed.

(** Redirecting the link of the last bin. *)
Lemma chain_redirect h pre k x b r0 r :
  NoDup (events (pre ++ [(k, x :: b)])) →
  chain h (pre ++ [(k, x :: b)]) r0 →
  chain (store (set_nextBin r) x h) (pre ++ [(k, x :: b)]) r.
Proof.
  rewrite events_app, events_one, !chain_app. intros Hnd [Hpre [Hx _]]. simpl in Hpre, Hx.
  apply NoDup_app in Hnd as (_ & Hdisj & _).
  split; [|split; [|done]].
  - eapply chain_frame; [|exact Hpre]. intros y Hy. rewrite nb_store_nb.
    rewrite decide_False; [done|]. intros ->. apply (Hdisj y Hy). left.
  - rewrite nb_store_nb, decide_True by done. unfold nb in Hx. by destruct (h !! x).
Qed.

(** Replacing what follows a bin, by a store to its top. *)
Lemma repr_splice h h' hd pre k1 x1 b1 post post' r :
  repr h hd (pre ++ (k1, x1 :: b1) :: post) →
  NoDup (events (pre ++ [(k1, x1 :: b1)])) →
  repr h' r post' →
  (∀ x, x ∈ events (pre ++ [(k1, x1 :: b1)]) → h' !! x = h !! x ∧ x ∉ events post') →
  repr (store (set_nextBin r) x1 h') hd (pre ++ (k1, x1 :: b1) :: post').
Proof.
  rewrite (cons_middle _ pre post), (cons_middle _ pre post'), !app_assoc.
  assert (x1 ∈ events (pre ++ [(k1, x1 :: b1)])) as Hx1.
  { rewrite events_app. apply elem_of_app. right. left. }
  intros (-> & Hb & Hc) Hnd (-> & Hb' & Hc') Hfr.
  split; [by rewrite !top_or_app|].
  apply Forall_app in Hb as [Hpre _]. apply chain_app in Hc as [Hcpre _].
  set (P := pre ++ [(k1, x1 :: b1)]) in *. split.
  - apply Forall_app. split.
    + eapply bins_frame; [|exact Hpre]. intros x Hx. destruct (Hfr x Hx) as [Heq _].
      rewrite ib_store_nb, (same_data_key h') by apply same_data_store_nb.
      unfold ib, key_at. by rewrite Heq.
    + eapply bins_frame; [|exact Hb']. intros x Hx.
      rewrite ib_store_nb, (same_data_key h') by apply same_data_store_nb. done.
  - apply chain_app. split.
    + eapply chain_redirect; [done|]. eapply chain_frame; [|exact Hcpre].
      intros x Hx. unfold nb. by rewrite (proj1 (Hfr x Hx)).
    + eapply chain_frame; [|exact Hc']. intros x Hx. rewrite nb_store_nb.
      rewrite decide_False; [done|]. intros ->. by apply (Hfr x).
Qed.

Lemma aq_insert_app k p pre post :
  Forall (λ kb, key_lt kb.1 k = true) pre → aq_insert k p (pre ++ post) = pre ++ aq_insert k p post.
Proof.
  induction 1 as [|[k' b] pre Hk Hpre IH]; [done|]. simpl in *.
  assert (key_lt k k' = false) as ->; [|by rewrite Hk, IH].
  apply key_lt_false. by left.
Qed.

Lemma events_aq_insert k p a : events (aq_insert k p a) ≡ₚ p :: events a.
Proof.
  induction a as [|[k' b] a IH]; simpl; [done|].
  destruct (key_lt k k'); [done|]. destruct (key_lt k' k).
  - rewrite !events_cons, IH. by rewrite Permutation_middle.
  - by rewrite !events_cons.
Qed.

(** The number of bins bounds the search. *)
Lemma length_bins a : Forall (λ kb, kb.2 ≠ []) a → (length a <= length (events a))%nat.
Proof.
  induction 1 as [|[k b] a Hb Ha IH]; simpl; [done|]. rewrite events_cons, length_app.
  destruct b; simpl in *; [done|lia].
Qed.

Lemma repr_bins_nonempty h hd a : repr h hd a → Forall (λ kb, kb.2 ≠ []) a.
Proof. intros (_ & Hb & _). eapply Forall_impl; [exact Hb|]. by intros kb (? & _). Qed.

#[local] Arguments aq_insert : simpl never.
#[local] Arguments events : simpl never.

(** EventQueue::insert implements the abstract insertion: it returns, it only
    changes links, and it leaves events that are not queued alone. *)
Lemma insert_repr fuel h q p e a :
  h !! p = Some e → p ∉ events a → NoDup (events a) → repr h (head q) a →
  (length (events a) < fuel)%nat →
  ∃ h' hd', insert fuel h q p = Ok (h', set_head hd' q) ∧
    repr h' hd' (aq_insert (key e) p a) ∧ same_data h h' ∧
    (∀ x, x ≠ p → x ∉ events a → h' !! x = h !! x).
Proof.
  intros Hp Hnin Hnd Hr Hfuel. unfold insert, load. rewrite Hp. simpl.
  pose proof (length_bins _ (repr_bins_nonempty _ _ _ Hr)) as Hlen.
  destruct a as [|[k0 b0] rest].
  { destruct Hr as [Hhd Hr]. simpl in Hhd. rewrite Hhd.
    destruct (insertBefore_repr h p e None [] Hp Hnin) as (h' & -> & Hr' & Hne & Hsd); [done..|].
    exists h', (Some p). simpl. split; [done|]. split; [done|]. split; [done|]. auto. }
  destruct b0 as [|x0 b0]; [by apply repr_nonempty in Hr|].
  destruct (repr_top _ _ _ _ _ _ Hr) as (e0 & E0 & Ek0 & Enb0 & _).
  pose proof Hr as [Hhd _]. simpl in Hhd. rewrite Hhd. unfold load. rewrite E0. simpl.
  rewrite event_le_key, Ek0. destruct (key_lt k0 (key e)) eqn:Elt; simpl.
  - destruct (find_bin_repr h p e (head q) k0 x0 b0 rest Hp Elt Hr fuel)
      as (pre & k1 & x1 & b1 & post & Heq & Hf & Hpre & Hpost); [cbn [length] in Hlen; lia|].
    rewrite Enb0, Hf. simpl. rewrite Heq in *.
    rewrite (cons_middle _ pre post), app_assoc in Hnin, Hnd.
    rewrite events_app in Hnin, Hnd. apply not_elem_of_app in Hnin as [Hn1 Hn2].
    apply NoDup_app in Hnd as (Hnd1 & Hdisj & Hnd2).
    assert (repr h (top_or None post) post) as Hrp.
    { destruct Hr as (_ & Hb & Hc). rewrite (cons_middle _ pre post), app_assoc in Hb, Hc.
      apply Forall_app in Hb as [_ Hb]. apply chain_app in Hc as [_ Hc]. done. }
    destruct (insertBefore_repr h p e _ post Hp Hn2 Hrp Hpost) as (h' & -> & Hr' & Hne & Hsd).
    simpl. eexists _, (head q). split; [by destruct q|]. split; [|split].
    + rewrite (cons_middle _ pre post), app_assoc, aq_insert_app, <-app_assoc by done.
      eapply repr_splice; [exact Hr|done|done|]. intros x Hx. split.
      * apply Hne. by intros ->.
      * rewrite events_aq_insert, elem_of_cons. intros [->|Hx']; [done|].
        by apply (Hdisj x).
    + etrans; [exact Hsd|apply same_data_store_nb].
    + intros x Hxp Hx. unfold store. rewrite lookup_alter_ne; [by apply Hne|].
      intros <-. apply Hx. rewrite events_app, elem_of_app. right. left.
  - destruct (insertBefore_repr h p e (Some x0) _ Hp Hnin) as (h' & Hi & Hr' & Hne & Hsd);
      [by rewrite <-Hhd|done|].
    simpl in Hi |- *. rewrite Hi. simpl. exists h', (Some p).
    split; [done|]. split; [done|]. split; [done|]. auto.
Qed.

(** ** Removal *)

Lemma filter_ne_notin (p : ptr) (l : list ptr) : p ∉ l → filter (.≠ p) l = l.
Proof.
  induction l as [|x l IH]; [done|]. rewrite not_elem_of_cons. intros [Hx Hl].
  rewrite filter_cons_True, IH by auto. done.
Qed.

(** removeItem_loop unlinks the event from the rest of its bin. *)
Lemma removeItem_loop_inbin h p c l :
  inbin h (c :: l) → p ∈ l → NoDup (c :: l) → ∀ fuel, (length l <= fuel)%nat →
  ∃ h', removeItem_loop fuel h p c (List.hd_error l) = Ok h' ∧
    inbin h' (c :: filter (.≠ p) l) ∧ same_data h h' ∧ (∀ x, nb h' x = nb h x) ∧
    (∀ x, x ∉ c :: l → h' !! x = h !! x).
Proof.
  revert c. induction l as [|n l IH]; intros c [Hc Hl] Hp Hnd fuel Hfuel; [by apply not_elem_of_nil in Hp|].
  destruct fuel as [|fuel]; [simpl in Hfuel; lia|]. simpl.
  apply NoDup_cons in Hnd as [Hcn Hnd]. pose proof Hnd as [Hnl Hnd']%NoDup_cons.
  pose proof Hl as [Hn Hl']. unfold ib in Hn. destruct (h !! n) as [en|] eqn:En; [|done].
  simpl in Hn. injection Hn as Hn.
  destruct (decide (p = n)) as [->|Hpn].
  - rewrite decide_True by done. unfold load_opt, load. simpl. rewrite En. simpl.
    eexists. split; [done|].
    rewrite filter_cons_False, filter_ne_notin by (auto || by intros []).
    split; [|split; [apply same_data_store_ib|split]].
    + split.
      * rewrite ib_store_ib, decide_True, Hn by done. unfold ib in Hc. by destruct (h !! c).
      * eapply inbin_frame; [|exact Hl']. intros x Hx. rewrite ib_store_ib, decide_False; [done|].
        intros ->. apply Hcn. by right.
    + intros x. apply nb_store_ib.
    + intros x Hx. unfold store. apply lookup_alter_ne. intros ->. apply Hx. left.
  - rewrite decide_False by congruence. unfold load. rewrite En. simpl. rewrite Hn.
    apply elem_of_cons in Hp as [->|Hp]; [done|].
    destruct (IH n Hl Hp Hnd fuel ltac:(simpl in Hfuel; lia)) as (h' & -> & Hin & Hsd & Hnb & Hfr).
    exists h'. split; [done|]. rewrite filter_cons_True by done.
    split; [|split; [done|split; [done|]]].
    + split; [|done]. unfold ib in *. by rewrite Hfr.
    + intros x Hx. apply Hfr. set_solver.
Qed.

(** removeItem takes an event out of the first bin. *)
Lemma removeItem_repr h p t k b post fuel :
  repr h (Some t) ((k, t :: b) :: post) → NoDup (events ((k, t :: b) :: post)) → p ∈ t :: b →
  (length b <= fuel)%nat →
  ∃ h' r, removeItem fuel h p t = Ok (h', r) ∧
    repr h' r (drop_empty k (filter (.≠ p) (t :: b)) post) ∧ same_data h h' ∧
    (∀ x, x ∉ t :: b → h' !! x = h !! x).
Proof.
  intros Hr Hnd Hp Hfuel. destruct (repr_top _ _ _ _ _ _ Hr) as (et & Et & Ekt & Enb & Eib).
  unfold removeItem, load. rewrite Et. simpl. rewrite Eib.
  rewrite events_cons in Hnd. apply NoDup_app in Hnd as (Hndb & Hdisj & Hndp).
  pose proof Hndb as [Htb Hndb']%NoDup_cons.
  destruct (decide (p = t)) as [->|Hpt].
  - rewrite filter_cons_False, filter_ne_notin by (auto || by intros []).
    destruct b as [|n b]; simpl.
    + exists h, (nextBin et). split; [done|]. rewrite Enb. split; [by eapply repr_tail|]. done.
    + destruct Hr as (_ & Hb & [Hnbt Hc]). pose proof Hb as [(_ & [_ Hin] & Hk) Hb']%Forall_cons.
      simpl in Hin, Hk. apply Forall_cons in Hk as [_ Hk].
      pose proof Hk as [Hkn _]%Forall_cons. unfold key_at in Hkn.
      destruct (h !! n) as [en|] eqn:En; [|done]. simpl.
      eexists _, (Some n). split; [done|]. split; [|split; [apply same_data_store_nb|]].
      * split; [done|]. split.
        { constructor; [split; [done|split]|].
          - eapply inbin_frame; [|exact Hin]. intros. apply ib_store_nb.
          - eapply keys_frame; [|exact Hk]. intros. apply same_data_key, same_data_store_nb.
          - eapply bins_frame; [|exact Hb']. intros. rewrite ib_store_nb. split; [done|].
            apply same_data_key, same_data_store_nb. }
        { split.
          - rewrite nb_store_nb, decide_True, En, Enb by done. done.
          - eapply chain_frame; [|exact Hc]. intros x Hx. rewrite nb_store_nb, decide_False; [done|].
            intros ->. apply (Hdisj x); [right; left|done]. }
      * intros x Hx. unfold store. apply lookup_alter_ne. intros ->. apply Hx. right; left.
  - apply elem_of_cons in Hp as [->|Hp]; [done|].
    destruct Hr as (_ & Hb & Hc). apply Forall_cons in Hb as [(_ & Hin & Hk) Hb].
    destruct (removeItem_loop_inbin h p t b Hin Hp Hndb fuel Hfuel) as (h' & -> & Hin' & Hsd & Hnb & Hfr).
    simpl. exists h', (Some t). split; [done|]. rewrite filter_cons_True by done. simpl.
    split; [|done]. split; [done|]. split.
    + constructor; [split; [done|split; [done|]]|].
      * eapply keys_frame; [intros; by apply same_data_key|].
        apply Forall_cons in Hk as [Hkt Hk]. constructor; [done|].
        rewrite Forall_forall in Hk |- *. intros x [_ Hx]%list_elem_of_filter. by apply Hk.
      * eapply bins_frame; [|exact Hb]. intros x Hx. split; [|by apply same_data_key].
        unfold ib. rewrite Hfr; [done|]. intros Hx'. by apply (Hdisj x).
    + change (chain h' ((k, t :: filter (.≠ p) b) :: post) None).
      split; [by rewrite Hnb; apply Hc|]. eapply chain_frame; [|apply Hc]. intros x _. apply Hnb.
Qed.

Lemma elem_of_events x a : x ∈ events a ↔ ∃ k b, (k, b) ∈ a ∧ x ∈ b.
Proof.
  induction a as [|[k b] a IH].
  { split; [by intros ?%not_elem_of_nil|by intros (? & ? & ?%not_elem_of_nil & _)]. }
  rewrite events_cons, elem_of_app, IH. split.
  - intros [Hx|(k' & b' & Hkb & Hx)]; [exists k, b|exists k', b']; (split; [|done]); [left|by right].
  - intros (k' & b' & [[= -> ->]|Hkb]%elem_of_cons & Hx); [by left|right; by exists k', b'].
Qed.

(** A queued event is in the bin of its own key. *)
Lemma repr_key h hd a p e k b : repr h hd a → (k, b) ∈ a → p ∈ b → h !! p = Some e → k = key e.
Proof.
  intros (_ & Hb & _) Hkb Hp He. rewrite Forall_forall in Hb. destruct (Hb _ Hkb) as (_ & _ & Hk).
  rewrite Forall_forall in Hk. specialize (Hk p Hp). unfold key_at in Hk. rewrite He in Hk.
  by injection Hk.
Qed.

Lemma aq_remove_app k p pre post :
  Forall (λ kb, key_lt kb.1 k = true) pre → aq_remove k p (pre ++ post) = pre ++ aq_remove k p post.
Proof.
  induction 1 as [|[k' b] pre Hk Hpre IH]; [done|]. simpl in *.
  rewrite bool_decide_eq_false_2, IH; [done|]. intros ->. by rewrite key_lt_irrefl in Hk.
Qed.

Lemma sorted_app_r (a1 a2 : aq) :
  StronglySorted (λ x y, key_lt x.1 y.1 = true) (a1 ++ a2) →
  StronglySorted (λ x y, key_lt x.1 y.1 = true) a2.
Proof. induction a1 as [|x a1 IH]; [done|]. simpl. intros H. apply IH. by inversion H. Qed.

(** In a sorted queue the first bin that is not before [k] is the bin of [k]. *)
Lemma sorted_first_bin (k' : Z * Z) b' k b (post : aq) :
  StronglySorted (λ x y, key_lt x.1 y.1 = true) ((k', b') :: post) →
  key_lt k' k = false → (k, b) ∈ (k', b') :: post → k = k' ∧ b = b'.
Proof.
  intros Hs Hk Hin. apply elem_of_cons in Hin as [[= -> ->]|Hin]; [done|].
  inversion Hs as [|? ? _ Hall]; subst. rewrite Forall_forall in Hall.
  specialize (Hall _ Hin). simpl in Hall. congruence.
Qed.

Lemma events_drop_empty k b (a : aq) : events (drop_empty k b a) = b ++ events a.
Proof. by destruct b. Qed.

(** The suffix of a represented queue is represented. *)
Lemma repr_suffix h hd pre post : repr h hd (pre ++ post) → repr h (top_or None post) post.
Proof.
  intros (_ & Hb & Hc). apply Forall_app in Hb as [_ Hb]. apply chain_app in Hc as [_ Hc]. done.
Qed.

(** Removal from a bin that follows another. *)
Lemma removeItem_splice fuel h hd p pre k1 x1 b1 k c b post :
  repr h hd (pre ++ (k1, x1 :: b1) :: (k, c :: b) :: post) →
  NoDup (events (pre ++ (k1, x1 :: b1) :: (k, c :: b) :: post)) →
  p ∈ c :: b → (length b <= fuel)%nat →
  ∃ h' r, removeItem fuel h p c = Ok (h', r) ∧
    repr (store (set_nextBin r) x1 h') hd
      (pre ++ (k1, x1 :: b1) :: drop_empty k (filter (.≠ p) (c :: b)) post) ∧
    same_data h (store (set_nextBin r) x1 h') ∧
    (∀ x, x ∉ x1 :: c :: b → store (set_nextBin r) x1 h' !! x = h !! x).
Proof.
  intros Hr Hnd Hp Hfuel.
  assert (repr h (Some c) ((k, c :: b) :: post)) as Hrs.
  { rewrite (cons_middle _ pre _), app_assoc in Hr. by apply repr_suffix in Hr. }
  rewrite (cons_middle _ pre _), app_assoc, events_app in Hnd.
  apply NoDup_app in Hnd as (Hnd1 & Hdisj & Hnd2).
  destruct (removeItem_repr h p c k b post fuel Hrs Hnd2 Hp Hfuel) as (h' & r & Hi & Hr' & Hsd & Hfr).
  exists h', r. split; [done|]. split; [|split].
  - eapply repr_splice; [exact Hr|done|done|]. intros x Hx. specialize (Hdisj x Hx).
    rewrite events_cons, not_elem_of_app in Hdisj. destruct Hdisj as [Hxb Hxp].
    split; [by apply Hfr|]. rewrite events_drop_empty, not_elem_of_app. split; [|done].
    rewrite list_elem_of_filter. by intros [_ ?].
  - etrans; [exact Hsd|apply same_data_store_nb].
  - intros x Hx. apply not_elem_of_cons in Hx as [Hx1 Hx]. unfold store.
    rewrite lookup_alter_ne by done. by apply Hfr.
Qed.

Lemma aq_remove_same k p b (a : aq) :
  aq_remove k p ((k, b) :: a) = drop_empty k (filter (.≠ p) b) a.
Proof. simpl. by rewrite bool_decide_eq_true_2. Qed.

#[local] Arguments aq_remove : simpl never.

(** EventQueue::remove implements the abstract removal of a queued event. *)
Lemma remove_repr fuel h q p e a :
  h !! p = Some e → p ∈ events a → aq_wf a → repr h (head q) a → queue e = Some (this q) →
  (length (events a) < fuel)%nat →
  ∃ h' hd', remove fuel h q p = Ok (h', set_head hd' q) ∧
    repr h' hd' (aq_remove (key e) p a) ∧ same_data h h' ∧
    (∀ x, x ∉ events a → h' !! x = h !! x).
Proof.
  intros Hp Hin [Hsort Hne Hnd] Hr Hq Hfuel.
  pose proof (length_bins _ Hne) as Hlen.
  apply elem_of_events in Hin as (k & b & Hkb & Hpb).
  pose proof (repr_key _ _ _ _ _ _ _ Hr Hkb Hpb Hp) as ->.
  destruct a as [|[k0 [|x0 b0]] rest];
    [by apply not_elem_of_nil in Hkb|by apply repr_nonempty in Hr|].
  destruct (repr_top _ _ _ _ _ _ Hr) as (e0 & E0 & Ek0 & Enb0 & _).
  pose proof Hr as [Hhd _]. simpl in Hhd. unfold remove, load. rewrite Hhd, Hp. simpl.
  rewrite bool_decide_eq_true_2 by done. simpl. rewrite E0. simpl. rewrite event_eq_key, Ek0.
  destruct (decide (k0 = key e)) as [Hk0|Hk0].
  - rewrite bool_decide_eq_true_2 by done. subst k0. rewrite Hk0 in *.
    destruct (sorted_first_bin _ _ _ _ _ Hsort (key_lt_irrefl _) Hkb) as [_ ->].
    rewrite events_cons, length_app in Hfuel. simpl in Hfuel. rewrite Hhd in Hr.
    destruct (removeItem_repr h p x0 _ b0 rest fuel Hr Hnd Hpb ltac:(lia)) as (h' & r & -> & Hr' & Hsd & Hfr).
    simpl. exists h', r. split; [done|]. rewrite aq_remove_same.
    split; [done|]. split; [done|]. intros x Hx. apply Hfr. rewrite events_cons in Hx.
    by apply not_elem_of_app in Hx as [? _].
  - rewrite bool_decide_eq_false_2 by done.
    assert (key_lt k0 (key e) = true) as Elt.
    { apply elem_of_cons in Hkb as [[= <- _]|Hkb]; [done|]. inversion Hsort as [|? ? _ Hall]; subst.
      rewrite Forall_forall in Hall. apply (Hall _ Hkb). }
    destruct (find_bin_repr h p e (head q) k0 x0 b0 rest Hp Elt Hr fuel)
      as (pre & k1 & x1 & b1 & post & Heq & Hf & Hpre & Hpost); [cbn [length] in Hlen; lia|].
    rewrite Enb0, Hf. simpl. rewrite Heq in *.
    assert ((key e, b) ∈ post) as Hkp.
    { rewrite (cons_middle _ pre post), app_assoc, elem_of_app in Hkb.
      destruct Hkb as [Hkb|]; [|done]. rewrite Forall_forall in Hpre.
      specialize (Hpre _ Hkb). simpl in Hpre. by rewrite key_lt_irrefl in Hpre. }
    destruct post as [|[k' b'] post]; [by apply not_elem_of_nil in Hkp|].
    rewrite (cons_middle _ pre _), app_assoc in Hsort. apply sorted_app_r in Hsort.
    destruct (sorted_first_bin _ _ _ _ _ Hsort Hpost Hkp) as [<- <-].
    destruct b as [|c b]; [by apply not_elem_of_nil in Hpb|]. simpl.
    assert (length b <= fuel)%nat.
    { rewrite events_app, !events_cons, !length_app in Hfuel. simpl in Hfuel. lia. }
    destruct (removeItem_splice fuel h (head q) p pre k1 x1 b1 _ c b post Hr Hnd Hpb)
      as (h' & r & Hi & Hr' & Hsd & Hfr); [done|].
    assert (∃ ec, h !! c = Some ec ∧ key ec = key e) as (ec & Ec & Ekc).
    { rewrite (cons_middle _ pre _), app_assoc in Hr. apply repr_suffix in Hr.
      destruct (repr_top _ _ _ _ _ _ Hr) as (ec & ? & ? & _). by exists ec. }
    rewrite Ec. simpl. rewrite event_ne_key, Ekc, bool_decide_eq_false_2 by tauto.
    rewrite Hi. simpl. eexists _, (head q). split; [by destruct q|].
    split; [|split; [done|]].
    + rewrite (cons_middle _ pre _), app_assoc, aq_remove_app, <-app_assoc by done.
      by rewrite aq_remove_same.
    + intros x Hx. apply Hfr. rewrite events_app, !events_cons in Hx. set_solver.
Qed.

(** ** The abstract operations keep the queue well formed *)

Lemma sorted_aq_insert k p a :
  StronglySorted (λ x y, key_lt x.1 y.1 = true) a →
  StronglySorted (λ x y, key_lt x.1 y.1 = true) (aq_insert k p a).
Proof.
  induction 1 as [|[k' b] a Hs IH Hall]; unfold aq_insert; fold aq_insert; [by repeat constructor|].
  destruct (key_lt k k') eqn:E1; [|destruct (key_lt k' k) eqn:E2].
  - constructor; [by constructor|]. constructor; [done|].
    eapply Forall_impl; [exact Hall|]. intros kb Hkb. simpl in *. by eapply key_lt_trans.
  - constructor; [done|]. clear -Hall E2. induction Hall as [|[k2 b2] a H2 Hall IH].
    + by repeat constructor.
    + unfold aq_insert; fold aq_insert. repeat case_match; repeat constructor; done.
  - by constructor.
Qed.

Lemma aq_insert_wf k p a : aq_wf a → p ∉ events a → aq_wf (aq_insert k p a).
Proof.
  intros [Hs Hne Hnd] Hp. split; [by apply sorted_aq_insert| |].
  - clear -Hne. induction Hne as [|[k' b] a Hb Hne IH]; unfold aq_insert; fold aq_insert;
      repeat case_match; by repeat constructor.
  - rewrite events_aq_insert. by constructor.
Qed.

Lemma aq_remove_subset k p a x : x ∈ aq_remove k p a → ∃ b, (x.1, b) ∈ a.
Proof.
  induction a as [|[k' b] a IH]; unfold aq_remove; fold aq_remove; [by intros ?%not_elem_of_nil|].
  case_bool_decide as Hk; subst.
  - destruct (filter _ b); simpl; intros Hx.
    + exists x.2. destruct x. by right.
    + apply elem_of_cons in Hx as [->|Hx]; [exists b; left|exists x.2; destruct x; by right].
  - intros [->|Hx]%elem_of_cons; [exists b; left|]. destruct (IH Hx) as [b' ?]. exists b'. by right.
Qed.

(** Removing a queued event takes exactly it out of the service order. *)
Lemma events_aq_remove k p b a : NoDup (events a) → (k, b) ∈ a → p ∈ b →
  NoDup (a.*1) → events (aq_remove k p a) = filter (.≠ p) (events a).
Proof.
  intros Hnd Hkb Hp Hk. induction a as [|[k' b'] a IH]; [by apply not_elem_of_nil in Hkb|].
  rewrite events_cons in Hnd |- *. apply NoDup_app in Hnd as (Hnd1 & Hdisj & Hnd2).
  rewrite fmap_cons in Hk. apply NoDup_cons in Hk as [Hk' Hk]. simpl in Hk'. rewrite filter_app.
  unfold aq_remove; fold aq_remove. apply elem_of_cons in Hkb as [[= -> ->]|Hkb].
  - rewrite bool_decide_eq_true_2 by done. rewrite events_drop_empty. f_equal.
    symmetry. apply filter_ne_notin. by apply Hdisj.
  - rewrite bool_decide_eq_false_2.
    + rewrite events_cons, IH by done. f_equal. symmetry. apply filter_ne_notin. intros Hp'.
      apply (Hdisj p Hp'). apply elem_of_events. by exists k, b.
    + intros ->. apply Hk'. apply list_elem_of_fmap. by exists (k', b).
Qed.

Lemma sorted_keys_nodup (a : aq) :
  StronglySorted (λ x y, key_lt x.1 y.1 = true) a → NoDup (a.*1).
Proof.
  induction 1 as [|[k b] a Hs IH Hall]; [constructor|]. rewrite fmap_cons. constructor; [|done].
  intros ([k' b'] & Hk & Hin)%list_elem_of_fmap. simpl in Hk. subst k'. rewrite Forall_forall in Hall.
  specialize (Hall _ Hin). simpl in Hall. by rewrite key_lt_irrefl in Hall.
Qed.

Lemma sorted_drop_empty k b (a : aq) :
  StronglySorted (λ x y, key_lt x.1 y.1 = true) ((k, b) :: a) →
  ∀ b', StronglySorted (λ x y, key_lt x.1 y.1 = true) (drop_empty k b' a).
Proof. intros H b'. inversion H; subst. destruct b'; [done|by constructor]. Qed.

Lemma aq_remove_wf k p a : aq_wf a → (∃ b, (k, b) ∈ a ∧ p ∈ b) → aq_wf (aq_remove k p a).
Proof.
  intros [Hs Hne Hnd] (b & Hkb & Hp). split.
  - clear Hne Hnd Hkb Hp. induction Hs as [|[k' b'] a Hs IH Hall]; [constructor|].
    unfold aq_remove; fold aq_remove. case_bool_decide.
    + apply (sorted_drop_empty k' b'). by constructor.
    + constructor; [done|]. rewrite Forall_forall in Hall |- *. intros x Hx.
      apply aq_remove_subset in Hx as [b2 Hb2]. apply (Hall _ Hb2).
  - clear -Hne. induction Hne as [|[k' b'] a Hb Hne IH]; [constructor|].
    unfold aq_remove; fold aq_remove. case_bool_decide; [|by constructor].
    destruct (filter _ b'); [done|by constructor].
  - rewrite (events_aq_remove k p b) by (done || by apply sorted_keys_nodup).
    by apply NoDup_filter.
Qed.

(** Removing what was just inserted restores the queue. *)
Lemma aq_remove_insert k p a : aq_wf a → p ∉ events a → aq_remove k p (aq_insert k p a) = a.
Proof.
  intros [Hs Hne _]. induction Hs as [|[k' b] a Hs IH Hall]; intros Hp;
    unfold aq_insert; fold aq_insert.
  - rewrite aq_remove_same, filter_cons_False by (by intros []). done.
  - apply Forall_cons in Hne as [Hb Hne]. rewrite events_cons, not_elem_of_app in Hp.
    destruct Hp as [Hpb Hpa].
    destruct (key_lt k k') eqn:E1; [|destruct (key_lt k' k) eqn:E2].
    + rewrite aq_remove_same, filter_cons_False by (by intros []). done.
    + unfold aq_remove; fold aq_remove. rewrite bool_decide_eq_false_2, IH; [done..|].
      intros ->. congruence.
    + apply key_lt_false in E1 as [E1| ->]; [congruence|].
      rewrite aq_remove_same, filter_cons_False, filter_ne_notin by (done || by intros []).
      by destruct b.
Qed.

End EventQSpec.
