(* ===== verification/EventQueueProps.v ===== *)
(** * Properties of the event queue

    The invariant of a queue at rest, its preservation by schedule, deschedule,
    reschedule and serviceOne, the order in which events are serviced, and what
    debugVerify and the checkpoint code do on it. *)

From Stdlib Require Import ZArith Lia.
From stdpp Require Import base numbers option list gmap sorting.
From S2P Require Import Prelude Flags EventQueue EventQueueSpec.

Module EventQProps.
Import EventQ EventQSpec.

#[local] Arguments aq_insert : simpl never.
#[local] Arguments aq_remove : simpl never.
#[local] Arguments events : simpl never.

(** A queued event is marked scheduled, belongs to the queue, and is not in the past. *)
Definition queued_ok (q : EventQueue) (e : Event) : Prop :=
  scheduled e = true ∧ initialized e = true ∧ queue e = Some (this q) ∧ _curTick q <= _when e.

Record queue_inv (h : heap) (q : EventQueue) (a : aq) : Prop := {
  inv_wf : aq_wf a;
  inv_repr : repr h (head q) a;
  inv_events : ∀ x, x ∈ events a → ∃ e, h !! x = Some e ∧ queued_ok q e
}.

(** ** Flags of an event *)

Lemma scheduled_set v e : scheduled (set_flags (Flags.set v Scheduled) e) = true.
Proof.
  unfold scheduled, set_flags. simpl. change Scheduled with (2 ^ 1).
  by rewrite Flags.isSet_set_bit.
Qed.

Lemma scheduled_clear v e : scheduled (set_flags (Flags.clear 16 v Scheduled) e) = false.
Proof.
  unfold scheduled, set_flags. simpl. change Scheduled with (2 ^ 1).
  by rewrite Flags.isSet_clear_bit.
Qed.

Lemma init_set v : Flags.set v Scheduled .& InitMask = v .& InitMask.
Proof.
  unfold Flags.set. rewrite Z.land_lor_distr_l.
  change (Scheduled .& InitMask) with 0. by rewrite Z.lor_0_r.
Qed.

Lemma init_clear v m : unot 16 m .& InitMask = InitMask →
  Flags.clear 16 v m .& InitMask = v .& InitMask.
Proof. intros Hm. unfold Flags.clear. by rewrite <-Z.land_assoc, Hm. Qed.

(** ** Stores that keep the representation *)

Lemma lookup_store f p h x : store f p h !! x = if decide (p = x) then f <$> h !! x else h !! x.
Proof. unfold store. rewrite lookup_alter. case_decide; by subst. Qed.

Lemma repr_store_flags f p h hd a :
  repr h hd a → repr (store (λ e, set_flags (f e) e) p h) hd a.
Proof.
  apply repr_frame. intros x _. unfold nb, ib, key_at. rewrite lookup_store.
  case_decide; [|done]. by destruct (h !! x).
Qed.

Lemma repr_store_other f p h hd a : p ∉ events a → repr h hd a → repr (store f p h) hd a.
Proof.
  intros Hp. apply repr_frame_lookup. intros x Hx. rewrite lookup_store, decide_False; [done|].
  by intros ->.
Qed.

Lemma queued_ok_data q e e' : data e' = data e → queued_ok q e → queued_ok q e'.
Proof. destruct e, e'. unfold data. simpl. by intros [= -> -> -> ->]. Qed.

(** An event that is not marked scheduled is not queued. *)
Lemma unscheduled_not_queued h q a p e :
  queue_inv h q a → h !! p = Some e → scheduled e = false → p ∉ events a.
Proof.
  intros Hinv Hp Hs Hin. destruct (inv_events _ _ _ Hinv p Hin) as (e' & He' & Hok & _). congruence.
Qed.

(** What schedule and reschedule do to the flags once the event is linked in. *)
Definition marks_scheduled (f : Z → Z) : Prop :=
  ∀ v, Flags.isSet (f v) Scheduled = true ∧ f v .& InitMask = v .& InitMask.

Lemma insert_inv (f : Z → Z) fuel h q a p e :
  marks_scheduled f → queue_inv h q a → p ∉ events a → h !! p = Some e →
  initialized e = true → queue e = Some (this q) → _curTick q <= _when e →
  (length (events a) < fuel)%nat →
  ∃ h' hd, insert fuel h q p = Ok (h', set_head hd q) ∧ same_data h h' ∧
    queue_inv (store (λ e, set_flags (f (flags e)) e) p h') (set_head hd q)
      (aq_insert (key e) p a).
Proof.
  intros Hf [Hwf Hr Hev] Hp He Hinit Hq Hwhen Hfuel.
  destruct (insert_repr fuel h q p e a He Hp (aq_nodup _ Hwf) Hr Hfuel) as (h' & hd & Hi & Hr' & Hsd & _).
  exists h', hd. split; [done|]. split; [done|]. split.
  - by apply aq_insert_wf.
  - by apply repr_store_flags.
  - intros x Hx. rewrite events_aq_insert in Hx. rewrite lookup_store. case_decide as Hpx.
    + subst x. destruct (same_data_lookup _ _ _ _ Hsd He) as (e' & -> & Hd). simpl.
      eexists. split; [done|]. unfold queued_ok, scheduled, initialized in *. simpl.
      destruct (Hf (flags e')) as [-> ->].
      destruct e, e'. unfold data in *. by simplify_eq/=.
    + apply elem_of_cons in Hx as [->|Hx]; [done|].
      destruct (Hev x Hx) as (ex & Hex & Hok).
      destruct (same_data_lookup _ _ _ _ Hsd Hex) as (e' & -> & Hd). exists e'.
      split; [done|]. destruct q. by apply (queued_ok_data _ ex).
Qed.

Lemma marks_set : marks_scheduled (λ v, Flags.set v Scheduled).
Proof.
  intros v. split; [|apply init_set]. change Scheduled with (2 ^ 1).
  by rewrite Flags.isSet_set_bit.
Qed.

Lemma marks_clear_set : marks_scheduled (λ v, Flags.set (Flags.clear 16 v Squashed) Scheduled).
Proof.
  intros v. split; [apply marks_set|]. by rewrite init_set, init_clear.
Qed.

(** schedule links the event at its place in time, on its own queue. *)
Lemma schedule_inv fuel g h q a p e when :
  queue_inv h q a → h !! p = Some e → scheduled e = false → initialized e = true →
  _curTick q <= when → inParallelMode g = false ∨ this q = curEventQueue g →
  (length (events a) < fuel)%nat →
  ∃ h' hd, schedule fuel g h q p when false = Ok (h', set_head hd q) ∧
    queue_inv h' (set_head hd q) (aq_insert (when, _priority e) p a).
Proof.
  intros Hinv He Hs Hinit Hwhen Hg Hfuel. unfold schedule, getCurTick, load.
  rewrite (proj2 (Z.leb_le _ _)) by done. rewrite He. simpl. rewrite Hs, Hinit. simpl.
  assert (inParallelMode g && (negb (this q =? curEventQueue g) || false) = false) as ->.
  { destruct Hg as [->| ->]; [done|]. rewrite Z.eqb_refl. apply andb_false_r. }
  pose proof (unscheduled_not_queued _ _ _ _ _ Hinv He Hs) as Hp.
  destruct (insert_inv _ fuel (store (setWhen when (this q)) p h) q a p (setWhen when (this q) e)
    marks_set) as (h' & hd & Hi & Hsd & Hinv'); try done.
  - destruct Hinv as [Hwf Hr Hev]. split; [done|by apply repr_store_other|].
    intros x Hx. rewrite lookup_store, decide_False; [by apply Hev|]. by intros ->.
  - by rewrite lookup_store, decide_True, He.
  - rewrite Hi. simpl. exists (store (λ e, set_flags (Flags.set (flags e) Scheduled) e) p h'), hd.
    split; [|done]. unfold acquire, load. rewrite lookup_store, decide_True by done.
    assert (is_Some (h' !! p)) as [e' ->]; [|done].
    destruct (same_data_lookup _ _ p (setWhen when (this q) e) Hsd) as (e' & ? & _); [|by eexists].
    by rewrite lookup_store, decide_True, He.
Qed.

Lemma length_aq_remove k p a : (length (events (aq_remove k p a)) <= length (events a))%nat.
Proof.
  induction a as [|[k' b] a IH]; unfold aq_remove; fold aq_remove; [done|].
  case_bool_decide.
  - rewrite events_drop_empty, events_cons, !length_app.
    pose proof (length_filter (.≠ p) b). lia.
  - rewrite !events_cons, !length_app. lia.
Qed.

(** remove, then clearing the flags: the rest of the queue is as before. *)
Lemma remove_inv fuel h q a p e :
  queue_inv h q a → p ∈ events a → h !! p = Some e → (length (events a) < fuel)%nat →
  ∃ h' hd e', remove fuel h q p = Ok (h', set_head hd q) ∧ same_data h h' ∧
    h' !! p = Some e' ∧ data e' = data e ∧ p ∉ events (aq_remove (key e) p a) ∧
    queue_inv h' (set_head hd q) (aq_remove (key e) p a).
Proof.
  intros Hinv Hp He Hfuel. pose proof Hinv as [Hwf Hr Hev].
  destruct (Hev p Hp) as (e0 & He0 & Hs & Hi & Hq & Hw). rewrite He in He0. injection He0 as <-.
  destruct (remove_repr fuel h q p e a He Hp Hwf Hr Hq Hfuel) as (h' & hd & Hrm & Hr' & Hsd & _).
  destruct (same_data_lookup _ _ _ _ Hsd He) as (e' & He' & Hd).
  assert (∃ b, (key e, b) ∈ a ∧ p ∈ b) as Hb.
  { pose proof Hp as (k & b & Hkb & Hpb)%elem_of_events.
    pose proof (repr_key _ _ _ _ _ _ _ Hr Hkb Hpb He) as ->. by exists b. }
  pose proof Hb as (b & Hkb & Hpb).
  pose proof (events_aq_remove (key e) p b a (aq_nodup _ Hwf) Hkb Hpb
    (sorted_keys_nodup _ (aq_sorted _ Hwf))) as Hevs.
  exists h', hd, e'. split; [done|]. split; [done|]. split; [done|]. split; [done|]. split.
  { rewrite Hevs, list_elem_of_filter. by intros [? _]. }
  split; [by apply aq_remove_wf|done|]. intros x Hx.
  rewrite Hevs, list_elem_of_filter in Hx. destruct Hx as [_ Hx].
  destruct (Hev x Hx) as (ex & Hex & Hok).
  destruct (same_data_lookup _ _ _ _ Hsd Hex) as (ex' & ? & ?). exists ex'. split; [done|].
  destruct q. by apply (queued_ok_data _ ex).
Qed.

(** Changes to an event that is not queued do not disturb the queue. *)
Lemma queue_inv_other h h' q a :
  queue_inv h q a → (∀ x, x ∈ events a → h' !! x = h !! x) → queue_inv h' q a.
Proof.
  intros [Hwf Hr Hev] Hf. split; [done|by eapply repr_frame_lookup|].
  intros x Hx. rewrite Hf by done. by apply Hev.
Qed.

(** deschedule of a queued event takes exactly it out; an event of the default
    memory management is deleted when it is managed, and kept unscheduled when not. *)
Lemma deschedule_inv fuel g h q a p e :
  queue_inv h q a → p ∈ events a → h !! p = Some e →
  inParallelMode g = false ∨ this q = curEventQueue g → (length (events a) < fuel)%nat →
  ∃ h' hd, deschedule fuel g h q p = Ok (h', set_head hd q) ∧
    queue_inv h' (set_head hd q) (aq_remove (key e) p a) ∧
    (if isManaged e then h' !! p = None
     else ∃ e', h' !! p = Some e' ∧ scheduled e' = false ∧ squashed e' = false).
Proof.
  intros Hinv Hp He Hg Hfuel.
  destruct (remove_inv fuel h q a p e Hinv Hp He Hfuel) as (h' & hd & e' & Hrm & Hsd & He' & Hd & Hnp & Hinv').
  destruct (inv_events _ _ _ Hinv p Hp) as (e0 & He0 & Hs & Hi & _).
  rewrite He in He0. injection He0 as <-.
  unfold deschedule, load. rewrite He. simpl. rewrite Hs, Hi. simpl.
  assert (negb (inParallelMode g) || (this q =? curEventQueue g) = true) as ->.
  { destruct Hg as [->| ->]; [done|]. rewrite Z.eqb_refl. apply orb_true_r. }
  simpl. rewrite Hrm. simpl. unfold release, load.
  rewrite !lookup_store, !decide_True, He' by done. simpl.
  assert (isManaged (set_flags (Flags.clear 16 (Flags.clear 16 (flags e') Squashed) Scheduled)
    (set_flags (Flags.clear 16 (flags e') Squashed) e')) = isManaged e) as ->.
  { unfold isManaged, set_flags. simpl. change Managed with (2 ^ 2).
    change Scheduled with (2 ^ 1). change Squashed with (2 ^ 0).
    rewrite !Flags.isSet_clear_bit by lia. simpl. f_equal.
    unfold data in Hd. by injection Hd. }
  assert (∀ h2, (∀ x, x ≠ p → h2 !! x = h' !! x) →
    queue_inv h2 (set_head hd q) (aq_remove (key e) p a)) as Hfr.
  { intros h2 H2. eapply queue_inv_other; [done|]. intros x Hx. apply H2. by intros ->. }
  destruct (isManaged e) eqn:Em; simpl.
  - rewrite scheduled_clear. simpl. eexists _, hd. split; [done|]. split; [|apply lookup_delete_eq].
    apply Hfr. intros x Hx. by rewrite lookup_delete_ne, !lookup_store, !decide_False by done.
  - eexists _, hd. split; [done|]. split.
    + apply Hfr. intros x Hx. by rewrite !lookup_store, !decide_False by done.
    + eexists. rewrite !lookup_store, !decide_True, He' by done. split; [done|].
      split; [apply scheduled_clear|]. unfold squashed, set_flags. simpl.
      change Scheduled with (2 ^ 1). change Squashed with (2 ^ 0).
      by rewrite !Flags.isSet_clear_bit by lia.
Qed.

(** reschedule moves a queued event to its new place. *)
Lemma reschedule_inv fuel g h q a p e when :
  queue_inv h q a → p ∈ events a → h !! p = Some e → _curTick q <= when →
  inParallelMode g = false ∨ this q = curEventQueue g → (length (events a) < fuel)%nat →
  ∃ h' hd, reschedule fuel g h q p when false = Ok (h', set_head hd q) ∧
    queue_inv h' (set_head hd q) (aq_insert (when, _priority e) p (aq_remove (key e) p a)).
Proof.
  intros Hinv Hp He Hwhen Hg Hfuel.
  destruct (remove_inv fuel h q a p e Hinv Hp He Hfuel) as (h' & hd & e' & Hrm & Hsd & He' & Hd & Hnp & Hinv').
  destruct (inv_events _ _ _ Hinv p Hp) as (e0 & He0 & Hs & Hi & _).
  rewrite He in He0. injection He0 as <-.
  unfold reschedule, load, getCurTick. rewrite (proj2 (Z.leb_le _ _)) by done.
  rewrite He. simpl. rewrite Hs, Hi. simpl.
  assert (negb (inParallelMode g) || (this q =? curEventQueue g) = true) as ->.
  { destruct Hg as [->| ->]; [done|]. rewrite Z.eqb_refl. apply orb_true_r. }
  simpl. rewrite Hrm. simpl.
  assert (initialized e' = true ∧ _priority e' = _priority e) as [Hi' Hpr].
  { destruct e, e'. unfold data, initialized in *. by simplify_eq/=. }
  destruct (insert_inv _ fuel (store (setWhen when (this q)) p h') (set_head hd q)
    (aq_remove (key e) p a) p (setWhen when (this q) e') marks_clear_set)
    as (h2 & hd2 & Hins & Hsd2 & Hinv2); try done.
  - eapply queue_inv_other; [done|]. intros x Hx. rewrite lookup_store, decide_False; [done|].
    by intros ->.
  - by rewrite lookup_store, decide_True, He'.
  - eapply Nat.le_lt_trans; [|exact Hfuel]. by apply length_aq_remove.
  - rewrite Hins. simpl. eexists _, hd2. split; [done|].
    unfold key in Hinv2. simpl in Hinv2. rewrite Hpr in Hinv2.
    unfold store in *. rewrite alter_alter_eq. exact Hinv2.
Qed.

(** ** Servicing *)

(** The head of the queue comes before every other event. *)
Lemma head_minimal h q a p e x ex :
  queue_inv h q a → head q = Some p → h !! p = Some e → x ∈ events a → h !! x = Some ex →
  key_lt (key ex) (key e) = false.
Proof.
  intros [Hwf Hr _] Hhd He Hx Hex. pose proof Hr as [Htop _]. rewrite Hhd in Htop.
  destruct a as [|[k [|p' b]] a]; [done|by apply repr_nonempty in Hr|].
  simpl in Htop. injection Htop as <-.
  destruct (repr_top _ _ _ _ _ _ Hr) as (e' & He' & <- & _). rewrite He in He'. injection He' as <-.
  apply elem_of_events in Hx as (k & b' & Hkb & Hxb).
  pose proof (repr_key _ _ _ _ _ _ _ Hr Hkb Hxb Hex) as ->.
  apply elem_of_cons in Hkb as [Heq|Hkb].
  { replace (key ex) with (key e) by congruence. apply key_lt_irrefl. }
  destruct Hwf as [Hs _ _]. inversion Hs as [|? ? _ Hall]; subst. rewrite Forall_forall in Hall.
  specialize (Hall _ Hkb). simpl in Hall. apply key_lt_false. by left.
Qed.

(** What serviceOne does once the event has been processed. *)
Definition finish {W} (p : ptr) (s : heap * EventQueue * W)
    : result (heap * EventQueue * W * option ptr) :=
  let '(h, q, w) := s in
  e ← load h p;
  if isExitEvent e then
    _ ← assert_ok (negb (Flags.isSet (flags e) Managed) ||
                   negb (Flags.isSet (flags e) IsMainQueue));
    Ok (h, q, w, Some p)
  else h ← release h p; Ok (h, q, w, None).

(** What it does instead for a squashed event. *)
Definition drop_squashed {W} (p : ptr) (h : heap) (q : EventQueue) (w : W)
    : result (heap * EventQueue * W * option ptr) :=
  let h := store (λ e, set_flags (Flags.clear 16 (flags e) Squashed) e) p h in
  h ← release h p; Ok (h, q, w, None).

(** serviceOne unlinks the first event, moves the clock to its time, and hands it to
    its process() with the rest of the queue in order. *)
Lemma serviceOne_pops {W} process h q (w : W) a p e :
  queue_inv h q a → head q = Some p → h !! p = Some e →
  ∃ h1 hd1 a1 e1,
    serviceOne process h q w =
      (if squashed e then drop_squashed p h1 (set_head hd1 q) w
       else process p h1 (setCurTick (_when e) (set_head hd1 q)) w ≫= finish p) ∧
    events a = p :: events a1 ∧
    queue_inv h1 (setCurTick (_when e) (set_head hd1 q)) a1 ∧
    h1 !! p = Some e1 ∧ flags e1 = Flags.clear 16 (flags e) Scheduled ∧
    (∀ x, x ≠ p → data <$> h1 !! x = data <$> h !! x).
Proof.
  intros Hinv Hhd He. pose proof Hinv as [Hwf Hr Hev]. pose proof Hr as [Htop _]. rewrite Hhd in Htop.
  destruct a as [|[k [|p' b]] rest]; [done|by apply repr_nonempty in Hr|].
  simpl in Htop. injection Htop as <-.
  destruct (repr_top _ _ _ _ _ _ Hr) as (e' & He' & <- & Enb & Eib).
  rewrite He in He'. injection He' as <-.
  set (h0 := store (λ e, set_flags (Flags.clear 16 (flags e) Scheduled) e) p h).
  assert (h0 !! p = Some (set_flags (Flags.clear 16 (flags e) Scheduled) e)) as He0
    by (unfold h0; by rewrite lookup_store, decide_True, He).
  destruct Hwf as [Hs Hne Hnd].
  pose proof Hnd as Hnd'. rewrite events_cons in Hnd'. apply NoDup_cons in Hnd' as [Hpn _].
  destruct (removeItem_repr h0 p p (key e) b rest (length b)) as (h1 & r & Hi & Hr1 & Hsd & _);
    [by apply repr_store_flags; rewrite <-Hhd|done|left|done|].
  rewrite filter_cons_False, filter_ne_notin in Hr1 by (set_solver || by intros []).
  unfold removeItem, load in Hi. rewrite He0 in Hi. simpl in Hi. rewrite decide_True in Hi by done.
  assert (∀ x, x ≠ p → data <$> h1 !! x = data <$> h !! x) as Hdata.
  { intros x Hx. rewrite Hsd. unfold h0. by rewrite lookup_store, decide_False. }
  destruct (same_data_lookup _ _ _ _ Hsd He0) as (e1 & He1 & Hd1).
  exists h1, r, (drop_empty (key e) b rest), e1. split; [|split; [|split; [|split; [done|split; [|done]]]]].
  - unfold serviceOne, load. rewrite Hhd. simpl. rewrite He. simpl. fold h0.
    destruct (nextInBin e) as [n|].
    + destruct (h0 !! n); [|done]. simpl in Hi |- *. injection Hi as <- <-. by destruct (squashed e).
    + injection Hi as <- <-. simpl. by destruct (squashed e).
  - by rewrite events_drop_empty.
  - split; [|done|].
    + split; [by eapply sorted_drop_empty| |].
      * apply Forall_cons in Hne as [_ Hne]. destruct b; [done|by constructor].
      * rewrite events_drop_empty. by apply NoDup_cons in Hnd as [_ ?].
    + intros x Hx. rewrite events_drop_empty in Hx.
      assert (x ≠ p) as Hxp by (intros ->; by apply Hpn).
      destruct (Hev x) as (ex & Hex & Hok); [rewrite events_cons; by right|].
      specialize (Hdata x Hxp). rewrite Hex in Hdata.
      destruct (h1 !! x) as [ex'|] eqn:Ex'; [|done]. exists ex'. split; [done|].
      assert (data ex' = data ex) as Hdx by (by apply (inj Some)).
      pose proof (head_minimal h q _ p e x ex Hinv Hhd He) as Hmin.
      rewrite events_cons in Hmin. specialize (Hmin ltac:(by right) Hex).
      apply key_lt_false in Hmin. rewrite key_lt_spec in Hmin.
      destruct Hok as (? & ? & ? & ?). apply (queued_ok_data _ ex); [done|].
      split; [done|]. split; [done|]. split; [done|]. simpl.
      destruct Hmin as [Hmin|Hmin]; [simpl in Hmin; lia|]. injection Hmin. lia.
  - unfold data in Hd1. by injection Hd1.
Qed.

(** ** Draining the queue

    With handlers that do not touch the queue, serviceEvents(T) services exactly the
    events due by T, in the order of the queue. *)

Definition plain (e : Event) : Prop :=
  squashed e = false ∧ isExitEvent e = false ∧ isManaged e = false.

(** The events of [l] satisfy [P] in [h]. *)
Definition all_events (h : heap) (l : list ptr) (P : Event → Prop) : Prop :=
  ∀ x, x ∈ l → ∃ e, h !! x = Some e ∧ P e.

Lemma all_events_data h h' l (P : Event → Prop) :
  (∀ e e', data e' = data e → P e → P e') →
  (∀ x, x ∈ l → data <$> h' !! x = data <$> h !! x) → all_events h l P → all_events h' l P.
Proof.
  intros HP Hd Hall x Hx. destruct (Hall x Hx) as (e & He & Hp). specialize (Hd x Hx).
  rewrite He in Hd. destruct (h' !! x) as [e'|]; [|done]. exists e'. split; [done|].
  apply (HP e); [by apply (inj Some)|done].
Qed.

Lemma plain_data e e' : data e' = data e → plain e → plain e'.
Proof.
  destruct e, e'. unfold plain, squashed, isExitEvent, isManaged, data. simpl.
  by intros [= -> -> -> ->].
Qed.

Lemma when_data (P : Z → Prop) e e' : data e' = data e → P (_when e) → P (_when e').
Proof. destruct e, e'. unfold data. simpl. by intros [= -> -> -> ->]. Qed.

Section drain.
Context (process : ptr → heap → EventQueue → list ptr → result (heap * EventQueue * list ptr)).
Hypothesis process_passive : ∀ p h q w, process p h q w = Ok (h, q, w ++ [p]).

(** One event serviced, under a passive handler. *)
Lemma serviceOne_passive h q w a p e :
  queue_inv h q a → head q = Some p → h !! p = Some e → plain e →
  ∃ h1 hd1 a1,
    serviceOne process h q w = Ok (h1, setCurTick (_when e) (set_head hd1 q), w ++ [p], None) ∧
    events a = p :: events a1 ∧
    queue_inv h1 (setCurTick (_when e) (set_head hd1 q)) a1 ∧
    (∀ x, x ≠ p → data <$> h1 !! x = data <$> h !! x).
Proof.
  intros Hinv Hhd He (Hsq & Hex & Hm).
  destruct (serviceOne_pops process h q w a p e Hinv Hhd He)
    as (h1 & hd1 & a1 & e1 & Hs & Hev & Hinv1 & He1 & Hf1 & Hdata).
  exists h1, hd1, a1. split; [|done]. rewrite Hs, Hsq, process_passive. simpl.
  unfold load. rewrite He1. simpl. unfold isExitEvent, isManaged in *. rewrite Hf1.
  change IsExitEvent with (2 ^ 4) in *. change Managed with (2 ^ 2) in *.
  change Scheduled with (2 ^ 1). rewrite !Flags.isSet_clear_bit by lia. rewrite Hex. simpl.
  unfold release, load, isManaged. rewrite He1. simpl. rewrite Hf1.
  change Managed with (2 ^ 2). change Scheduled with (2 ^ 1).
  rewrite !Flags.isSet_clear_bit by lia. by rewrite Hm.
Qed.

Lemma serviceEvents_loop_drains T fuel : ∀ h q w a,
  queue_inv h q a → all_events h (events a) plain → (length (events a) < fuel)%nat →
  ∃ h' hd' t due a',
    serviceEvents_loop process fuel T h q w
      = Ok (h', setCurTick t (set_head hd' q), w ++ due) ∧
    events a = due ++ events a' ∧ all_events h due (λ e, _when e <= T) ∧
    all_events h' (events a') (λ e, T < _when e) ∧
    queue_inv h' (setCurTick t (set_head hd' q)) a'.
Proof.
  induction fuel as [|fuel IH]; intros h q w a Hinv Hplain Hfuel; [lia|].
  assert (q = setCurTick (_curTick q) (set_head (head q) q)) as Hq by (by destruct q).
  simpl. unfold empty. destruct (head q) as [p|] eqn:Hhd.
  - rewrite bool_decide_eq_false_2 by done.
    assert (p ∈ events a) as Hpa.
    { pose proof (inv_repr _ _ _ Hinv) as Hr. pose proof Hr as [Htop _]. rewrite Hhd in Htop.
      destruct a as [|[k [|p' b]] a]; [done|by apply repr_nonempty in Hr|].
      injection Htop as <-. left. }
    destruct (Hplain p Hpa) as (e & He & Hpe).
    unfold nextTick, load_opt, load. rewrite Hhd. simpl. rewrite He. simpl.
    destruct (Z.ltb_spec T (_when e)) as [Ht|Ht].
    + exists h, (Some p), (_curTick q), [], a. rewrite app_nil_r, <-Hq.
      split; [done|]. split; [done|]. split; [by intros x ?%not_elem_of_nil|]. split; [|done].
      intros x Hx. destruct (inv_events _ _ _ Hinv x Hx) as (ex & Hex & _). exists ex.
      split; [done|]. pose proof (head_minimal _ _ _ _ _ _ _ Hinv Hhd He Hx Hex) as Hk.
      apply key_lt_false in Hk. rewrite key_lt_spec in Hk.
      destruct Hk as [Hk|Hk]; [simpl in Hk; lia|]. injection Hk. lia.
    + destruct (serviceOne_passive h q w a p e Hinv Hhd He Hpe) as (h1 & hd1 & a1 & Hs & Hev & Hinv1 & Hd).
      rewrite Hs. simpl. pose proof (aq_nodup _ (inv_wf _ _ _ Hinv)) as Hnd. rewrite Hev in Hnd.
      apply NoDup_cons in Hnd as [Hpn _].
      assert (∀ x, x ∈ events a1 → data <$> h1 !! x = data <$> h !! x) as Hd'.
      { intros x Hx. apply Hd. by intros ->. }
      destruct (IH h1 (setCurTick (_when e) (set_head hd1 q)) (w ++ [p]) a1 Hinv1)
        as (h' & hd' & t & due & a' & Hloop & Hev' & Hdue & Hrest & Hinv').
      * eapply all_events_data; [apply plain_data|exact Hd'|].
        intros x Hx. apply Hplain. rewrite Hev. by right.
      * rewrite Hev in Hfuel. simpl in Hfuel. lia.
      * rewrite Hloop. exists h', hd', t, (p :: due), a'.
        split; [by rewrite <-app_assoc|]. split; [by rewrite Hev, Hev'|]. split; [|done].
        intros x [->|Hx]%elem_of_cons; [by exists e|].
        assert (x ∈ events a1) as Hxa by (rewrite Hev'; set_solver).
        eapply (all_events_data h1 h due); [apply (when_data (λ t, t <= T))| |exact Hdue|done].
        intros y Hy. rewrite Hd'; [done|]. rewrite Hev'. set_solver.
  - rewrite bool_decide_eq_true_2 by done.
    pose proof (inv_repr _ _ _ Hinv) as Hr. pose proof Hr as [Htop _]. rewrite Hhd in Htop.
    destruct a as [|[k [|p' b]] a]; [|by apply repr_nonempty in Hr|done].
    exists h, None, (_curTick q), [], []. rewrite app_nil_r, <-Hq.
    split; [done|]. split; [done|]. split; [by intros x ?%not_elem_of_nil|].
    split; [by intros x ?%not_elem_of_nil|done].
Qed.
End drain.

(** ** debugVerify *)

Lemma verify_bin_ok h k l : inbin h l → Forall (λ x, key_at h x = Some k) l → NoDup l →
  ∀ fuel seen time prio, (length l < fuel)%nat → (∀ x, x ∈ l → x ∉ seen) →
  key_lt k (time, prio) = false →
  ∃ seen', verify_bin fuel h (List.hd_error l) seen time prio
      = Ok (Some (seen', if l is [] then time else k.1, if l is [] then prio else k.2)) ∧
    (∀ x, x ∈ seen' ↔ x ∈ l ∨ x ∈ seen).
Proof.
  induction l as [|x l IH]; intros Hin Hk Hnd fuel seen time prio Hfuel Hseen Hle;
    (destruct fuel as [|fuel]; [simpl in Hfuel; lia|]).
  { exists seen. split; [done|]. set_solver. }
  destruct Hin as [Hx Hin]. apply Forall_cons in Hk as [Hkx Hk]. apply NoDup_cons in Hnd as [Hxl Hnd].
  unfold ib, key_at in Hx, Hkx. cbn [List.hd_error verify_bin]. unfold load.
  destruct (h !! x) as [e|]; [|done]. simpl in Hx, Hkx. injection Hx as Hx. injection Hkx as <-.
  simpl. unfold key_lt, key in Hle. simpl in Hle. apply orb_false_iff in Hle as [-> ->].
  rewrite bool_decide_eq_false_2 by (apply Hseen; left). rewrite Hx.
  destruct (IH Hin Hk Hnd fuel ({[x]} ∪ seen) (_when e) (_priority e)) as (seen' & -> & Hs).
  - simpl in Hfuel. lia.
  - intros y Hy. rewrite elem_of_union, elem_of_singleton. intros [->|Hy']; [done|].
    eapply Hseen; [by right|done].
  - apply key_lt_irrefl.
  - exists seen'. split; [by destruct l|]. intros y. rewrite Hs. set_solver.
Qed.

Lemma verify_bins_ok h fuel0 a : Forall (bin_ok h) a → chain h a None → NoDup (events a) →
  StronglySorted (λ x y, key_lt x.1 y.1 = true) a → (length (events a) < fuel0)%nat →
  ∀ fuel seen time prio, (length a < fuel)%nat → (∀ x, x ∈ events a → x ∉ seen) →
  match a with [] => True | (k, _) :: _ => key_lt k (time, prio) = false end →
  verify_bins fuel0 fuel h (top_or None a) seen time prio = Ok true.
Proof.
  induction a as [|[k b] a IH]; intros Hb Hc Hnd Hs Hf0 fuel seen time prio Hfuel Hseen Hle;
    (destruct fuel as [|fuel]; [simpl in Hfuel; lia|]); [done|].
  apply Forall_cons in Hb as [(Hne & Hin & Hk) Hb]. destruct Hc as [Hnb Hc].
  destruct b as [|x b]; [done|]. cbn [top_or List.hd_error verify_bins].
  rewrite events_cons in Hnd, Hf0, Hseen. rewrite length_app in Hf0.
  apply NoDup_app in Hnd as (Hnd1 & Hdisj & Hnd2).
  destruct (verify_bin_ok h k (x :: b) Hin Hk Hnd1 fuel0 seen time prio) as (seen' & Hv & Hs').
  { lia. } { intros y Hy. apply Hseen. set_solver. } { done. }
  cbn [List.hd_error] in Hv. rewrite Hv. simpl.
  unfold nb in Hnb. destruct (h !! x) as [e|] eqn:Ee; [|done]. simpl in Hnb. injection Hnb as Hnb.
  unfold load. rewrite Ee. simpl. rewrite Hnb. inversion Hs as [|? ? Hs2 Hall]; subst.
  apply IH; [done..|lia|simpl in Hfuel; lia| |].
  - intros y Hy. rewrite Hs'. intros [Hy'|Hy']; [by apply (Hdisj y)|].
    eapply Hseen; [|exact Hy']. set_solver.
  - destruct a as [|[k2 b2] a]; [done|]. apply Forall_cons in Hall as [Hall _]. simpl in Hall.
    apply key_lt_false. left. by destruct k.
Qed.

(** ** Checkpoints *)

Lemma isSet_low f n : 0 <= n < 6 → Z.testbit Initialized n = false →
  Flags.isSet (Flags.set (u16 (swrap 16 f)) Initialized) (2 ^ n) = Flags.isSet f (2 ^ n).
Proof.
  intros Hn Hi. rewrite !Flags.isSet_bit by lia. unfold Flags.set.
  rewrite Z.lor_spec, Hi, orb_false_r, testbit_wrap by lia.
  replace (n <? 16) with true by lia. simpl. unfold swrap. change (16 - 1) with 15.
  assert (∃ k, (f + 2 ^ 15) mod 2 ^ 16 - 2 ^ 15 = f + k * 2 ^ 16) as [k ->].
  { exists (- ((f + 2 ^ 15) / 2 ^ 16)). rewrite Z.mod_eq by lia. lia. }
  rewrite <-(Z.mod_pow2_bits_low (f + k * 2 ^ 16) 16) by lia.
  rewrite Z.mod_add, Z.mod_pow2_bits_low by lia. done.
Qed.

(** ** A queue at rest, for the witnesses

    Events 1 and 2 are due at tick 5 (priorities 0 and 50), event 3 at tick 9; event 4
    is not scheduled. *)

Definition ex_event (nb ib : option ptr) (when prio f : Z) (q : option Z) : Event :=
  mkEvent nb ib when prio (Initialized .| f) q.

Definition ex_heap : heap :=
  {[ 1%positive := ex_event (Some 2%positive) None 5 0 Scheduled (Some 7);
     2%positive := ex_event (Some 3%positive) None 5 50 Scheduled (Some 7);
     3%positive := ex_event None None 9 0 Scheduled (Some 7);
     4%positive := ex_event None None 0 0 0 None ]}.

Definition ex_queue : EventQueue := mkQueue 7 (Some 1%positive) 3 [].

Definition ex_aq : aq :=
  [((5, 0), [1%positive]); ((5, 50), [2%positive]); ((9, 0), [3%positive])].

Definition ex_globals : globals := mkGlobals false 7.

Lemma ex_inv : queue_inv ex_heap ex_queue ex_aq.
Proof.
  split.
  - split; [by repeat constructor|by repeat constructor|].
    unfold events. simpl. apply (bool_decide_eq_true_1 (NoDup _)). reflexivity.
  - split; [done|]. split; [|done]. repeat constructor; done.
  - intros x Hx. unfold events in Hx. simpl in Hx.
    repeat (apply elem_of_cons in Hx as [->|Hx]; [eexists; split; [reflexivity|];
      repeat split; done|]).
    by apply not_elem_of_nil in Hx.
Qed.

(** ** Claims *)

(** Where an insertion lands in the service order. *)
Lemma events_aq_insert_split h hd k p a : repr h hd a →
  StronglySorted (λ x y, key_lt x.1 y.1 = true) a →
  ∃ l1 l2, events a = l1 ++ l2 ∧ events (aq_insert k p a) = l1 ++ p :: l2 ∧
    all_events h l1 (λ e, key_lt (key e) k = true) ∧
    all_events h l2 (λ e, key_lt (key e) k = false).
Proof.
  intros Hr Hs. induction Hs as [|[k' b] a Hs IH Hall] in hd, Hr |- *.
  { exists [], []. repeat split; try done; by intros x ?%not_elem_of_nil. }
  assert (all_events h b (λ e, key e = k')) as Hb.
  { intros x Hx. destruct Hr as (_ & Hb & _). apply Forall_cons in Hb as [(_ & _ & Hk) _].
    rewrite Forall_forall in Hk. specialize (Hk x Hx). unfold key_at in Hk.
    destruct (h !! x) as [e|]; [|done]. exists e. by injection Hk. }
  assert (key_lt k' k = false → all_events h (events ((k', b) :: a)) (λ e, key_lt (key e) k = false)) as Hge.
  { intros Hk x Hx. pose proof Hx as (k2 & b2 & Hkb & Hxb)%elem_of_events.
    destruct (repr_lookup _ _ _ x Hr Hx) as [e He]. exists e. split; [done|].
    pose proof (repr_key _ _ _ _ _ _ _ Hr Hkb Hxb He) as ->.
    apply elem_of_cons in Hkb as [Heq|Hkb]; [congruence|]. rewrite Forall_forall in Hall.
    specialize (Hall _ Hkb). simpl in Hall. apply key_lt_false. left.
    apply key_lt_false in Hk as [Hk| ->]; [by eapply key_lt_trans|done]. }
  unfold aq_insert; fold aq_insert. destruct (key_lt k k') eqn:E1; [|destruct (key_lt k' k) eqn:E2].
  - exists [], (events ((k', b) :: a)). repeat split; [by intros x ?%not_elem_of_nil|].
    apply Hge, key_lt_false. by left.
  - destruct (IH _ (repr_tail _ _ _ _ Hr)) as (l1 & l2 & He1 & He2 & Hl1 & Hl2).
    exists (b ++ l1), l2. rewrite !events_cons, He1, He2, <-!app_assoc. repeat split; [|done].
    intros x [Hx|Hx]%elem_of_app; [|by apply Hl1]. destruct (Hb x Hx) as (e & ? & <-). by exists e.
  - exists [], (events ((k', b) :: a)). repeat split; [by intros x ?%not_elem_of_nil|by apply Hge].
Qed.

(** The bin an inserted event is found in is the bin of its key. *)
Lemma aq_insert_key k p a k' b :
  p ∉ events a → (k', b) ∈ aq_insert k p a → p ∈ b → k' = k.
Proof.
  induction a as [|[k2 b2] a IH]; unfold aq_insert; fold aq_insert; intros Hp Hin Hpb.
  { by apply list_elem_of_singleton in Hin as [= -> ->]. }
  rewrite events_cons, not_elem_of_app in Hp. destruct Hp as [Hp2 Hpa].
  assert (∀ k3 b3, (k3, b3) ∈ a → p ∉ b3) as Ha.
  { intros k3 b3 H3 Hp3. apply Hpa, elem_of_events. by exists k3, b3. }
  destruct (key_lt k k2) eqn:E1; [|destruct (key_lt k2 k) eqn:E2];
    apply elem_of_cons in Hin as [Heq|Hin].
  - congruence.
  - apply elem_of_cons in Hin as [Heq|Hin]; [by simplify_eq|by apply Ha in Hin].
  - by simplify_eq.
  - by apply IH.
  - apply key_lt_false in E1 as [E1| ->]; congruence.
  - by apply Ha in Hin.
Qed.

(** C10: scheduling an event on the queue of the running thread succeeds, keeps the
    queue's invariant, and puts the event in the service order after every event
    that is strictly earlier in (time, priority) and before every other: events of
    equal time and priority are serviced last-in first-out. *)
Theorem schedule_service_order fuel g h q a p e when :
  queue_inv h q a → h !! p = Some e → scheduled e = false → initialized e = true →
  _curTick q <= when → inParallelMode g = false ∨ this q = curEventQueue g →
  (length (events a) < fuel)%nat →
  ∃ h' hd a' l1 l2,
    schedule fuel g h q p when false = Ok (h', set_head hd q) ∧
    queue_inv h' (set_head hd q) a' ∧
    events a = l1 ++ l2 ∧ events a' = l1 ++ p :: l2 ∧
    all_events h l1 (λ e', key_lt (key e') (when, _priority e) = true) ∧
    all_events h l2 (λ e', key_lt (key e') (when, _priority e) = false).
Proof.
  intros Hinv He Hs Hi Hw Hg Hf.
  destruct (schedule_inv fuel g h q a p e when) as (h' & hd & Hsch & Hinv'); [done..|].
  destruct (events_aq_insert_split h (head q) (when, _priority e) p a (inv_repr _ _ _ Hinv)
    (aq_sorted _ (inv_wf _ _ _ Hinv))) as (l1 & l2 & ? & ? & ? & ?).
  by exists h', hd, (aq_insert (when, _priority e) p a), l1, l2.
Qed.

Lemma schedule_service_order_witness :
  ∃ h' hd a' l1 l2,
    schedule 10 ex_globals ex_heap ex_queue 4 5 false = Ok (h', set_head hd ex_queue) ∧
    queue_inv h' (set_head hd ex_queue) a' ∧
    events ex_aq = l1 ++ l2 ∧ events a' = l1 ++ 4%positive :: l2 ∧
    all_events ex_heap l1 (λ e', key_lt (key e') (5, 0) = true) ∧
    all_events ex_heap l2 (λ e', key_lt (key e') (5, 0) = false).
Proof.
  apply (schedule_service_order 10 ex_globals ex_heap ex_queue ex_aq 4
    (ex_event None None 0 0 0 None) 5); try reflexivity; [apply ex_inv|simpl; lia|by left|].
  vm_compute. lia.
Defined.

(** C28: descheduling a queued event succeeds, takes exactly that event out of the
    service order, and leaves the event unscheduled and unsquashed; a managed event
    is deleted. *)
Theorem deschedule_removes_event fuel g h q a p e :
  queue_inv h q a → p ∈ events a → h !! p = Some e →
  inParallelMode g = false ∨ this q = curEventQueue g → (length (events a) < fuel)%nat →
  ∃ h' hd a', deschedule fuel g h q p = Ok (h', set_head hd q) ∧
    queue_inv h' (set_head hd q) a' ∧ events a' = filter (.≠ p) (events a) ∧
    (if isManaged e then h' !! p = None
     else ∃ e', h' !! p = Some e' ∧ scheduled e' = false ∧ squashed e' = false).
Proof.
  intros Hinv Hp He Hg Hf.
  destruct (deschedule_inv fuel g h q a p e) as (h' & hd & Hd & Hinv' & Hm); [done..|].
  exists h', hd, (aq_remove (key e) p a). split; [done|]. split; [done|]. split; [|done].
  pose proof Hp as (k & b & Hkb & Hpb)%elem_of_events.
  pose proof (repr_key _ _ _ _ _ _ _ (inv_repr _ _ _ Hinv) Hkb Hpb He) as ->.
  destruct (inv_wf _ _ _ Hinv) as [Hs _ Hnd].
  apply (events_aq_remove _ _ b); [done..|]. by apply sorted_keys_nodup.
Qed.

Lemma deschedule_removes_event_witness :
  ∃ h' hd a', deschedule 10 ex_globals ex_heap ex_queue 2 = Ok (h', set_head hd ex_queue) ∧
    queue_inv h' (set_head hd ex_queue) a' ∧ events a' = filter (.≠ 2%positive) (events ex_aq) ∧
    (if isManaged (ex_event (Some 3%positive) None 5 50 Scheduled (Some 7)) then h' !! 2%positive = None
     else ∃ e', h' !! 2%positive = Some e' ∧ scheduled e' = false ∧ squashed e' = false).
Proof.
  apply (deschedule_removes_event 10 ex_globals ex_heap ex_queue ex_aq 2
    (ex_event (Some 3%positive) None 5 50 Scheduled (Some 7)));
    [apply ex_inv| |reflexivity|by left|vm_compute; lia].
  unfold events. simpl. right. left.
Defined.

(** Scheduling an event and descheduling it again restores the queue: the same
    bins, in the same order, with the same events. *)
Theorem schedule_deschedule_roundtrip fuel g h q a p e when :
  queue_inv h q a → h !! p = Some e → scheduled e = false → initialized e = true →
  _curTick q <= when → inParallelMode g = false ∨ this q = curEventQueue g →
  (S (length (events a)) < fuel)%nat →
  ∃ h' hd, ('(h, q) ← schedule fuel g h q p when false; deschedule fuel g h q p)
             = Ok (h', set_head hd q) ∧
    queue_inv h' (set_head hd q) a.
Proof.
  intros Hinv He Hs Hi Hw Hg Hf.
  destruct (schedule_inv fuel g h q a p e when) as (h1 & hd1 & Hsch & Hinv1); [done..|lia|].
  rewrite Hsch. simpl.
  pose proof (unscheduled_not_queued _ _ _ _ _ Hinv He Hs) as Hp.
  assert (p ∈ events (aq_insert (when, _priority e) p a)) as Hp1
    by (rewrite events_aq_insert; left).
  destruct (inv_events _ _ _ Hinv1 p Hp1) as (e1 & He1 & _).
  destruct (deschedule_inv fuel g h1 (set_head hd1 q) (aq_insert (when, _priority e) p a) p e1)
    as (h2 & hd2 & Hd & Hinv2 & _); [done..| |].
  { rewrite events_aq_insert. simpl. lia. }
  exists h2, hd2. split; [by rewrite Hd|].
  assert (key e1 = (when, _priority e)) as Hk.
  { apply elem_of_events in Hp1 as (k & b & Hkb & Hpb).
    pose proof (repr_key _ _ _ _ _ _ _ (inv_repr _ _ _ Hinv1) Hkb Hpb He1) as <-.
    by eapply aq_insert_key. }
  rewrite Hk, aq_remove_insert in Hinv2 by (done || apply Hinv). done.
Qed.

Lemma schedule_deschedule_roundtrip_witness :
  ∃ h' hd, ('(h, q) ← schedule 10 ex_globals ex_heap ex_queue 4 9 false;
            deschedule 10 ex_globals h q 4) = Ok (h', set_head hd ex_queue) ∧
    queue_inv h' (set_head hd ex_queue) ex_aq.
Proof.
  apply (schedule_deschedule_roundtrip 10 ex_globals ex_heap ex_queue ex_aq 4
    (ex_event None None 0 0 0 None) 9); try reflexivity; [apply ex_inv|simpl; lia|by left|].
  vm_compute. lia.
Defined.

(** Rescheduling a queued event succeeds and moves it: it leaves its place in the
    service order and is put in again as schedule would with the new time. *)
Theorem reschedule_moves_event fuel g h q a p e when :
  queue_inv h q a → p ∈ events a → h !! p = Some e → _curTick q <= when →
  inParallelMode g = false ∨ this q = curEventQueue g → (length (events a) < fuel)%nat →
  ∃ h' hd a' l1 l2,
    reschedule fuel g h q p when false = Ok (h', set_head hd q) ∧
    queue_inv h' (set_head hd q) a' ∧
    filter (.≠ p) (events a) = l1 ++ l2 ∧ events a' = l1 ++ p :: l2 ∧
    all_events h l1 (λ e', key_lt (key e') (when, _priority e) = true) ∧
    all_events h l2 (λ e', key_lt (key e') (when, _priority e) = false).
Proof.
  intros Hinv Hp He Hw Hg Hf.
  destruct (reschedule_inv fuel g h q a p e when) as (h' & hd & Hsch & Hinv'); [done..|].
  destruct (remove_inv fuel h q a p e) as (h1 & hd1 & _ & _ & Hsd & _ & _ & _ & Hinv1); [done..|].
  destruct (events_aq_insert_split h1 hd1 (when, _priority e) p (aq_remove (key e) p a)
    (inv_repr _ _ _ Hinv1) (aq_sorted _ (inv_wf _ _ _ Hinv1))) as (l1 & l2 & Hev & Hev' & H1 & H2).
  exists h', hd, (aq_insert (when, _priority e) p (aq_remove (key e) p a)), l1, l2.
  split; [done|]. split; [done|]. split.
  - pose proof Hp as (k & b & Hkb & Hpb)%elem_of_events.
    pose proof (repr_key _ _ _ _ _ _ _ (inv_repr _ _ _ Hinv) Hkb Hpb He) as ->.
    destruct (inv_wf _ _ _ Hinv) as [Hs _ Hnd]. rewrite <-Hev. symmetry.
    apply (events_aq_remove _ _ b); [done..|]. by apply sorted_keys_nodup.
  - split; [done|].
    assert (∀ (c : bool) e1 e2, data e2 = data e1 → key_lt (key e1) (when, _priority e) = c →
      key_lt (key e2) (when, _priority e) = c) as Hkd.
    { intros c [] [] Hd. unfold data in Hd. by simplify_eq/=. }
    split; (eapply all_events_data; [apply Hkd|intros x _; symmetry; apply Hsd|done]).
Qed.

Lemma reschedule_moves_event_witness :
  ∃ h' hd a' l1 l2,
    reschedule 10 ex_globals ex_heap ex_queue 1 9 false = Ok (h', set_head hd ex_queue) ∧
    queue_inv h' (set_head hd ex_queue) a' ∧
    filter (.≠ 1%positive) (events ex_aq) = l1 ++ l2 ∧ events a' = l1 ++ 1%positive :: l2 ∧
    all_events ex_heap l1 (λ e', key_lt (key e') (9, 0) = true) ∧
    all_events ex_heap l2 (λ e', key_lt (key e') (9, 0) = false).
Proof.
  apply (reschedule_moves_event 10 ex_globals ex_heap ex_queue ex_aq 1
    (ex_event (Some 2%positive) None 5 0 Scheduled (Some 7)) 9);
    [apply ex_inv| |reflexivity|simpl; lia|by left|vm_compute; lia].
  unfold events. simpl. left.
Defined.

(** C1: serviceOne takes the first event of the service order, which no queued event
    precedes in (time, priority), and which is not squashed (of a squashed one process() is
    not run), never moves the clock backwards, and calls process() with the clock at the
    event's time, the event unscheduled, and a queue that satisfies the invariant at that
    time and holds the remaining events in order. *)
Theorem serviceOne_earliest_first {W} process h q (w : W) a p e :
  queue_inv h q a → head q = Some p → h !! p = Some e → squashed e = false →
  ∃ h1 hd1 a1 e1,
    serviceOne process h q w =
      (process p h1 (setCurTick (_when e) (set_head hd1 q)) w ≫= finish p) ∧
    events a = p :: events a1 ∧ _curTick q <= _when e ∧
    queue_inv h1 (setCurTick (_when e) (set_head hd1 q)) a1 ∧
    h1 !! p = Some e1 ∧ scheduled e1 = false ∧
    all_events h (events a) (λ e', key_lt (key e') (key e) = false).
Proof.
  intros Hinv Hhd He Hsq.
  destruct (serviceOne_pops process h q w a p e Hinv Hhd He)
    as (h1 & hd1 & a1 & e1 & Hs & Hev & Hinv1 & He1 & Hf1 & _).
  rewrite Hsq in Hs. exists h1, hd1, a1, e1. repeat (split; [done|]).
  assert (p ∈ events a) as Hpa by (rewrite Hev; left).
  split; [|split; [done|split; [done|split]]].
  - destruct (inv_events _ _ _ Hinv p Hpa) as (e' & He' & _ & _ & _ & Hw). congruence.
  - unfold scheduled. rewrite Hf1. change Scheduled with (2 ^ 1). by rewrite Flags.isSet_clear_bit.
  - intros x Hx. destruct (inv_events _ _ _ Hinv x Hx) as (ex & Hex & _). exists ex.
    split; [done|]. exact (head_minimal _ _ _ _ _ _ _ Hinv Hhd He Hx Hex).
Qed.

(** A handler that reschedules its event four ticks later, for the witness. *)
Definition ex_process (p : ptr) (h : heap) (q : EventQueue) (w : unit)
    : result (heap * EventQueue * unit) :=
  '(h, q) ← schedule 10 ex_globals h q p (_curTick q + 4) false; Ok (h, q, w).

Lemma serviceOne_earliest_first_witness :
  ∃ h1 hd1 a1 e1,
    serviceOne ex_process ex_heap ex_queue tt =
      (ex_process 1 h1 (setCurTick 5 (set_head hd1 ex_queue)) tt ≫= finish 1%positive) ∧
    events ex_aq = 1%positive :: events a1 ∧ _curTick ex_queue <= 5 ∧
    queue_inv h1 (setCurTick 5 (set_head hd1 ex_queue)) a1 ∧
    h1 !! 1%positive = Some e1 ∧ scheduled e1 = false ∧
    all_events ex_heap (events ex_aq) (λ e', key_lt (key e') (5, 0) = false).
Proof.
  apply (serviceOne_earliest_first ex_process ex_heap ex_queue tt ex_aq 1
    (ex_event (Some 2%positive) None 5 0 Scheduled (Some 7)));
    [apply ex_inv|reflexivity|reflexivity|reflexivity].
Defined.

(** C29: with handlers that leave the queue alone, serviceEvents(T) terminates, services
    exactly the events due by T in the order of the queue, and leaves the clock at T
    with every remaining event after it. *)
Theorem serviceEvents_drains process T fuel h q w a :
  (∀ p h q w, process p h q w = Ok (h, q, w ++ [p])) →
  queue_inv h q a → all_events h (events a) plain → (length (events a) < fuel)%nat →
  ∃ h' hd' due a',
    serviceEvents process fuel T h q w = Ok (h', setCurTick T (set_head hd' q), w ++ due) ∧
    events a = due ++ events a' ∧ all_events h due (λ e, _when e <= T) ∧
    all_events h' (events a') (λ e, T < _when e) ∧
    queue_inv h' (setCurTick T (set_head hd' q)) a'.
Proof.
  intros Hproc Hinv Hplain Hfuel.
  destruct (serviceEvents_loop_drains process Hproc T fuel h q w a Hinv Hplain Hfuel)
    as (h' & hd' & t & due & a' & Hl & Hev & Hdue & Hrest & [Hwf Hr Hev']).
  exists h', hd', due, a'. unfold serviceEvents. rewrite Hl. simpl. repeat (split; [done|]).
  split; [done|done|]. intros x Hx. destruct (Hev' x Hx) as (e & He & Hs & Hi & Hq & _).
  destruct (Hrest x Hx) as (e' & He' & Ht). rewrite He in He'. injection He' as <-.
  exists e. split; [done|]. repeat (split; [done|]). simpl. lia.
Qed.

Definition ex_trace (p : ptr) (h : heap) (q : EventQueue) (w : list ptr)
    : result (heap * EventQueue * list ptr) := Ok (h, q, w ++ [p]).

Lemma serviceEvents_drains_witness :
  ∃ h' hd' due a',
    serviceEvents ex_trace 10 7 ex_heap ex_queue [] = Ok (h', setCurTick 7 (set_head hd' ex_queue), [] ++ due) ∧
    events ex_aq = due ++ events a' ∧ all_events ex_heap due (λ e, _when e <= 7) ∧
    all_events h' (events a') (λ e, 7 < _when e) ∧
    queue_inv h' (setCurTick 7 (set_head hd' ex_queue)) a'.
Proof.
  apply (serviceEvents_drains ex_trace 7 10 ex_heap ex_queue [] ex_aq);
    [reflexivity|apply ex_inv| |vm_compute; lia].
  intros x Hx. unfold events in Hx. simpl in Hx.
  repeat (apply elem_of_cons in Hx as [->|Hx]; [eexists; split; [reflexivity|];
    repeat split; done|]).
  by apply not_elem_of_nil in Hx.
Defined.

(** DebugVerify accepts every queue that satisfies the invariant and whose first
    event is not before (tick 0, priority 0). *)
Theorem debugVerify_accepts fuel h q a :
  queue_inv h q a → all_events h (events a) (λ e, key_lt (key e) (0, 0) = false) →
  (length (events a) < fuel)%nat → debugVerify fuel h q = Ok true.
Proof.
  intros [[Hs Hne Hnd] (Hhd & Hb & Hc) _] Hall Hf. unfold debugVerify. rewrite Hhd.
  pose proof (length_bins _ Hne).
  apply verify_bins_ok; [done..|lia|intros x _; apply not_elem_of_empty|].
  destruct a as [|[k [|x b]] a]; [done|by destruct Hc|].
  apply Forall_cons in Hb as [(_ & _ & Hk) _]. apply Forall_cons in Hk as [Hk _].
  destruct (Hall x) as (e & He & Hle); [left|]. unfold key_at in Hk. rewrite He in Hk.
  by injection Hk as <-.
Qed.

Lemma debugVerify_accepts_witness : debugVerify 10 ex_heap ex_queue = Ok true.
Proof.
  apply (debugVerify_accepts 10 ex_heap ex_queue ex_aq); [apply ex_inv| |vm_compute; lia].
  intros x Hx. unfold events in Hx. simpl in Hx.
  repeat (apply elem_of_cons in Hx as [->|Hx]; [eexists; split; reflexivity|]).
  by apply not_elem_of_nil in Hx.
Defined.

(** A queue with one event of negative priority at tick 0, as scheduled by a component
    that switches CPUs in the first tick. *)
Definition ex_zero_heap : heap :=
  {[ 1%positive := ex_event None None 0 CPU_Switch_Pri Scheduled (Some 7) ]}.
Definition ex_zero_queue : EventQueue := mkQueue 7 (Some 1%positive) 0 [].

(** DebugVerify rejects a queue that satisfies the invariant when its first event
    is at tick 0 with a negative priority: the comparison starts from priority 0. *)
Theorem debugVerify_rejects_tick_zero :
  queue_inv ex_zero_heap ex_zero_queue [((0, CPU_Switch_Pri), [1%positive])] ∧
  debugVerify 10 ex_zero_heap ex_zero_queue = Ok false.
Proof.
  split; [|reflexivity]. split.
  - split; [by repeat constructor|by repeat constructor|].
    unfold events. simpl. apply NoDup_singleton.
  - split; [done|]. split; [|done]. repeat constructor; done.
  - intros x Hx. unfold events in Hx. simpl in Hx. apply list_elem_of_singleton in Hx as ->.
    eexists. split; [reflexivity|]. repeat split; done.
Qed.

(** Restoring a checkpoint taken while an event was scheduled does not put the
    event back: unserialize clears the Scheduled flag that checkpointReschedule tests,
    so heap and queue are unchanged. *)
Theorem checkpoint_drops_scheduled fuel h q p old e e' :
  scheduled old = true → squashed old = false →
  scheduled e = false → initialized e = true →
  Event_unserialize e (Event_serialize old) = Ok e' →
  (_when e', _priority e') = (_when old, _priority old) ∧ scheduled e' = false ∧
  checkpointReschedule fuel (<[p:=e']> h) q p = Ok (<[p:=e']> h, q).
Proof.
  intros Hso Hsq Hs Hi. unfold Event_unserialize, Event_serialize. rewrite Hs, Hi. simpl.
  unfold scheduled, squashed in Hso, Hsq. change Scheduled with (2 ^ 1) in *.
  change Squashed with (2 ^ 0) in *. rewrite !isSet_low, Hso, Hsq by done. simpl. intros [= <-].
  simpl. split; [done|].
  set (f := Flags.clear 16 _ _).
  assert (Flags.isSet f (2 ^ 1) = false) as Hf.
  { subst f. rewrite Flags.isSet_bit by lia. unfold Flags.clear.
    rewrite Z.land_spec. change (Z.testbit (unot 16 _) 1) with false. apply andb_false_r. }
  split; [done|]. unfold checkpointReschedule, load. rewrite lookup_insert_eq. simpl.
  change Scheduled with (2 ^ 1). by rewrite Hf.
Qed.

Lemma checkpoint_drops_scheduled_witness :
  ∃ e', (_when e', _priority e') = (5, 0) ∧ scheduled e' = false ∧
  checkpointReschedule 10 (<[9%positive:=e']> ex_heap) ex_queue 9 = Ok (<[9%positive:=e']> ex_heap, ex_queue).
Proof.
  eexists. apply (checkpoint_drops_scheduled 10 ex_heap ex_queue 9
    (ex_event (Some 2%positive) None 5 0 Scheduled (Some 7)) (ex_event None None 0 0 0 None));
    reflexivity.
Defined.

End EventQProps.
