(* ===== verification/AddrRange.v ===== *)
(** * base/addr_range.hh: address ranges and their interleaving

    An [AddrRange] is a half-open interval of 64-bit addresses, narrowed by masks:
    the parity of the address under mask [i] is bit [i] of a selector that must equal
    [intlvMatch].  [panic] and [fatal] are errors of the result type; a shift C++
    leaves undefined is [Undefined]. *)

From Stdlib Require Import ZArith Lia Btauto.
From stdpp Require Import base numbers option list sorting.
From S2P Require Import Prelude Bitfield.

Module AddrRange.
Import Bitfield.

Definition MaxAddr : Z := 2 ^ 64 - 1.

Record AddrRange := mkRange {
  _start : Z;
  _end : Z;
  masks : list Z;
  intlvMatch : Z
}.

#[global] Instance AddrRange_eq_dec : EqDecision AddrRange.
Proof. solve_decision. Defined.

(** AddrRange() *)
Definition range_empty : AddrRange := mkRange 1 0 [] 0.

(** AddrRange(start, end) *)
Definition range (s e : Z) : AddrRange := mkRange s e [] 0.

(** AddrRange(start, end, masks, intlv_match); the shift of the check is by the number
    of masks. *)
Definition range_masks (s e : Z) (ms : list Z) (m : Z) : result AddrRange :=
  if (64 <=? length ms)%nat then Err Undefined else
  _ ← fatal_if (negb (bool_decide (ms = [])) && (u64 (1 .<< Z.of_nat (length ms)) <=? m));
  Ok (mkRange s e ms m).

(** The masks of the constructor that takes bit positions: entry
    [_intlv_bits - i - 1] is set in iteration [i]. *)
Definition intlv_mask (intlv_high_bit xor_high_bit i : Z) : Z :=
  let bit1 := u8 (intlv_high_bit - i) in
  let mask := u64 (1 .<< bit1) in
  if negb (xor_high_bit =? 0) then
    let bit2 := u8 (xor_high_bit - i) in
    mask .| u64 (1 .<< bit2)
  else mask.

Definition intlv_masks (intlv_high_bit xor_high_bit : Z) (intlv_bits : nat) : list Z :=
  reverse ((λ i, intlv_mask intlv_high_bit xor_high_bit (Z.of_nat i)) <$> seq 0 intlv_bits).

(** The bit positions of the masks, of eight bits, are those of a 64-bit word. *)
Definition intlv_shifts (intlv_high_bit xor_high_bit : Z) (intlv_bits : nat) : bool :=
  forallb (λ i, (u8 (intlv_high_bit - Z.of_nat i) <? 64) &&
                ((xor_high_bit =? 0) || (u8 (xor_high_bit - Z.of_nat i) <? 64))) (seq 0 intlv_bits).

(** AddrRange(start, end, intlv_high_bit, xor_high_bit, intlv_bits, intlv_match) *)
Definition range_intlv (s e intlv_high_bit xor_high_bit intlv_bits m : Z) : result AddrRange :=
  if 64 <=? intlv_bits then Err Undefined else
  _ ← fatal_if (negb (intlv_bits =? 0) && (u64 (1 .<< intlv_bits) <=? m));
  _ ← fatal_if (negb (intlv_bits =? 0) && negb (xor_high_bit =? 0) &&
        (if xor_high_bit =? intlv_high_bit then true
         else if intlv_high_bit <? xor_high_bit
              then xor_high_bit - intlv_high_bit <? intlv_bits
              else intlv_high_bit - xor_high_bit <? intlv_bits));
  if negb (intlv_shifts intlv_high_bit xor_high_bit (Z.to_nat intlv_bits)) then Err Undefined else
  Ok (mkRange s e (intlv_masks intlv_high_bit xor_high_bit (Z.to_nat intlv_bits)) m).

Definition interleaved (r : AddrRange) : bool := (0 <? length (masks r))%nat.

Definition start (r : AddrRange) : Z := _start r.
Definition end_ (r : AddrRange) : Z := _end r.
Definition valid (r : AddrRange) : bool := _start r <=? _end r.

Definition size (r : AddrRange) : Z :=
  u64 (_end r - _start r) .>> Z.of_nat (length (masks r)).

Definition stripes (r : AddrRange) : Z := u32 (u64 (1 .<< Z.of_nat (length (masks r)))).

(** granularity(): the accumulator is an int, whatever the width of the masks; a
    shift by 64 is undefined. *)
Definition combined_mask (r : AddrRange) : Z :=
  foldl (λ acc mask, s32 (acc .| mask)) 0 (masks r).

Definition granularity (r : AddrRange) : result Z :=
  if interleaved r then
    let lowest_bit := u8 (ctz64 (u64 (combined_mask r))) in
    if lowest_bit <? 64 then Ok (u64 (1 .<< lowest_bit)) else Err Undefined
  else Ok (size r).

Definition mergesWith (t r : AddrRange) : bool :=
  (_start r =? _start t) && (_end r =? _end t) && bool_decide (masks r = masks t).

(** The selector of an address: the parities under the masks, collected in an int (the
    theorems are about ranges of at most eight masks, as many as a match value has bits). *)
Definition sel (ms : list Z) (a : Z) : Z :=
  foldl (λ s im, s .| ((popCount (a .& im.2) mod 2) .<< Z.of_nat im.1)) 0 (imap pair ms).

Definition contains (r : AddrRange) (a : Z) : bool :=
  if (_start r <=? a) && (a <? _end r) then sel (masks r) a =? intlvMatch r else false.

Definition intersects (t r : AddrRange) : result bool :=
  if (_end r <=? _start t) || (_end t <=? _start r) then Ok false
  else if negb (interleaved t) && negb (interleaved r) then Ok true
  else if size r =? 1 then Ok (contains t (start r))
  else if mergesWith t r then Ok (intlvMatch t =? intlvMatch r)
  else Err Panic.

Definition isSubset (t r : AddrRange) : result bool :=
  if interleaved t then Err Panic
  else if interleaved r then
    if contains r (_start t) && contains r (u64 (_end t - 1))
    then g ← granularity r; Ok (size t <=? g)
    else Ok false
  else if _end t <=? _start t then Ok ((_start r <=? _start t) && (_end r =? 0))
  else if _end r <=? _start r then Ok (_start r <=? _start t)
  else Ok ((_start r <=? _start t) && (_end t <=? _end r)).

(** The sorted positions of the lowest set bits of the masks. *)
Definition masks_lsb (r : AddrRange) : list Z := merge_sort Z.le (ctz64 <$> masks r).

(** The loop of removeIntlvBits, at iteration [i]. *)
Fixpoint remove_loop (i : Z) (lsbs : list Z) (a : Z) : Z :=
  match lsbs with
  | [] => a
  | intlv_bit :: lsbs =>
      let a := if 0 <? intlv_bit
               then insert_field 64 (a .>> 1) (u32 (intlv_bit - i - 1)) 0 a
               else a .>> 1 in
      remove_loop (i + 1) lsbs a
  end.

Definition removeIntlvBits (r : AddrRange) (a : Z) : Z :=
  if negb (interleaved r) then a else remove_loop 0 (masks_lsb r) a.

(** The first loop of addIntlvBits: make room at each interleaving bit. *)
Definition make_room (a intlv_bit : Z) : Z :=
  if 0 <? intlv_bit then insert_field 64 (u64 (a .<< 1)) (u32 (intlv_bit - 1)) 0 a
  else u64 (a .<< 1).

(** The second loop, mask [i]: the literal 1 is an int, so [~(1 << lsb)] is computed
    at 32 bits and sign-extended. *)
Definition not_lsb (lsb : Z) : result Z :=
  if lsb <? 32 then Ok (u64 (s32 (Z.lnot (s32 (1 .<< lsb))))) else Err Undefined.

Fixpoint fill_bits (m : Z) (i : Z) (ms : list Z) (a : Z) : result Z :=
  match ms with
  | [] => Ok a
  | mask :: ms =>
      let lsb := ctz64 mask in
      let intlv_bit := bits1 8 m i in
      n ← not_lsb lsb;
      let masked := a .& mask .& n in
      fill_bits m (i + 1) ms (insertBits1 64 a lsb (intlv_bit .^ popCount masked))
  end.

Definition addIntlvBits (r : AddrRange) (a : Z) : result Z :=
  if negb (interleaved r) then Ok a
  else fill_bits (intlvMatch r) 0 (masks r) (foldl make_room a (masks_lsb r)).

Definition getOffset (r : AddrRange) (a : Z) : Z :=
  let in_range := (_start r <=? a) && (a <? _end r) in
  if negb in_range then MaxAddr
  else if interleaved r then u64 (removeIntlvBits r a - removeIntlvBits r (_start r))
  else u64 (a - _start r).

Definition range_lt (t r : AddrRange) : bool :=
  if negb (_start t =? _start r) then _start t <? _start r
  else if interleaved t && interleaved r then intlvMatch t <? intlvMatch r
  else interleaved t.

Definition range_eq (t r : AddrRange) : bool :=
  if negb (_start t =? _start r) then false
  else if negb (_end t =? _end r) then false
  else if negb (bool_decide (masks t = masks r)) then false
  else if negb (intlvMatch t =? intlvMatch r) then false
  else true.

Definition range_ne (t r : AddrRange) : bool := negb (range_eq t r).

(** operator& *)
Definition range_and (t r : AddrRange) : result AddrRange :=
  _ ← panic_if (interleaved t || interleaved r);
  let s := Z.max (_start t) (_start r) in
  let e := Z.min (_end t) (_end r) in
  if e <=? s then Ok (range 0 0) else Ok (range s e).

(** list::sort with operator< *)
Definition range_le (x y : AddrRange) : Prop := range_lt y x = false.
#[global] Instance range_le_dec : RelDecision range_le.
Proof. intros x y. unfold range_le. apply _. Defined.

Definition sort_ranges (l : list AddrRange) : list AddrRange := merge_sort range_le l.

(** The loop of exclude: [next_start] and the ranges pushed so far. *)
Fixpoint exclude_loop (t : AddrRange) (sorted : list AddrRange) (next_start : Z)
    (ranges : list AddrRange) : result (list AddrRange) :=
  match sorted with
  | [] => Ok (if next_start <? end_ t then ranges ++ [range next_start (end_ t)] else ranges)
  | e :: sorted =>
      _ ← assert_ok (negb (interleaved e));
      i ← intersects t e;
      if negb i then exclude_loop t sorted next_start ranges
      else if start e <=? next_start then
        if end_ e <? end_ t then
          exclude_loop t sorted (if next_start <? end_ e then end_ e else next_start) ranges
        else Ok ranges
      else
        let ranges := ranges ++ [range next_start (start e)] in
        if end_ e <? end_ t then exclude_loop t sorted (end_ e) ranges
        else Ok ranges
  end.

(** exclude(AddrRangeList) *)
Definition exclude (t : AddrRange) (excl : list AddrRange) : result (list AddrRange) :=
  _ ← assert_ok (negb (interleaved t));
  exclude_loop t (sort_ranges excl) (start t) [].

(** The free function exclude(base, to_exclude): the lists are spliced together. *)
Fixpoint exclude_each (base : list AddrRange) (sorted : list AddrRange) : result (list AddrRange) :=
  match base with
  | [] => Ok []
  | r :: base => l ← exclude r sorted; l' ← exclude_each base sorted; Ok (l ++ l')
  end.

Definition exclude_list (base excl : list AddrRange) : result (list AddrRange) :=
  exclude_each base (sort_ranges excl).

Definition RangeEx (s e : Z) : AddrRange := range s e.
Definition RangeIn (s e : Z) : AddrRange := range s (u64 (e + 1)).
Definition RangeSize (s sz : Z) : AddrRange := range s (u64 (s + sz)).

(** The constructor that merges a list of ranges, with the checks in its loop. *)
Fixpoint merge_check (t : AddrRange) (l : list AddrRange) (m : Z) : result unit :=
  match l with
  | [] => Ok tt
  | r :: l =>
      _ ← fatal_if (negb (mergesWith t r));
      _ ← fatal_if (negb (intlvMatch r =? m));
      merge_check t l (u8 (m + 1))
  end.

Definition range_merge (l : list AddrRange) : result AddrRange :=
  let t := match l with [] => range_empty | r :: _ => r end in
  let count := Z.of_nat (length l) in
  if 1 <? count then
    _ ← fatal_if (negb (count =? u64 (1 .<< Z.of_nat (length (masks t)))));
    _ ← merge_check t l 0;
    Ok (mkRange (_start t) (_end t) [] 0)
  else Ok t.

End AddrRange.
