(* ===== verification/AddrRangeProps.v ===== *)
(** * base/addr_range.hh: interleaving and exclusion are correct

    The bit positions a loop of [removeIntlvBits] or [addIntlvBits] reads from are
    index maps ([up] and [down]); the two maps are inverse off the interleaving
    positions, and the second loop of [addIntlvBits] restores those by parity.
    [exclude] is compared with set difference. *)

From Stdlib Require Import ZArith Lia Btauto.
From stdpp Require Import base numbers option list sorting sets.
From S2P Require Import Prelude Bitfield AddrRange.

Module AddrRangeProps.
Import Bitfield AddrRange.

(** ** Index maps *)

(** Where the bits of the result come from when bit [p] is removed, or room is made
    at bit [p]. *)
Definition s_idx (p j : Z) : Z := if j <? p then j else j + 1.
Definition d_idx (p j : Z) : Z := if j <? p then j else j - 1.

Fixpoint up (i : Z) (ps : list Z) (j : Z) : Z :=
  match ps with
  | [] => j
  | p :: ps => s_idx (p - i) (up (i + 1) ps j)
  end.

Fixpoint down (ps : list Z) (j : Z) : Z :=
  match ps with
  | [] => j
  | p :: ps => d_idx p (down ps j)
  end.

(** How many of the positions are below [j]. *)
Fixpoint below (ps : list Z) (j : Z) : Z :=
  match ps with
  | [] => 0
  | p :: ps => (if p <? j then 1 else 0) + below ps j
  end.

(** Strictly increasing positions, the first of which is at least [i]. *)
Fixpoint ascending (i : Z) (ps : list Z) : Prop :=
  match ps with
  | [] => True
  | p :: ps => i <= p < 64 ∧ ascending (p + 1) ps
  end.

Lemma ascending_weaken i i' ps : i' <= i → ascending i ps → ascending i' ps.
Proof. destruct ps; simpl; [done|]. intros ? []. split; [lia|done]. Qed.

Lemma below_zero i ps j : ascending i ps → j <= i → below ps j = 0.
Proof.
  revert i. induction ps as [|p ps IH]; intros i; simpl; [done|].
  intros [? Ha] ?. rewrite (IH (p + 1)) by (done || lia).
  destruct (Z.ltb_spec p j); lia.
Qed.

Lemma below_bound i ps j : ascending i ps → i <= j → 0 <= below ps j <= j - i.
Proof.
  revert i. induction ps as [|p ps IH]; intros i; simpl; [lia|].
  intros [Hp Ha] Hj. destruct (Z.ltb_spec p j).
  - specialize (IH (p + 1) Ha). lia.
  - rewrite (below_zero (p + 1)) by (done || lia). lia.
Qed.

Lemma ascending_not_elem i ps j : ascending i ps → j < i → j ∉ ps.
Proof.
  revert i. induction ps as [|p ps IH]; intros i; simpl; [by set_solver|].
  intros [? Ha] ?. apply not_elem_of_cons. split; [lia|]. apply (IH (p + 1)); [done|lia].
Qed.

Lemma down_below i ps j : ascending i ps → j ∉ ps → down ps j = j - below ps j.
Proof.
  revert i. induction ps as [|p ps IH]; intros i; simpl; [lia|].
  intros [Hp Ha] Hj. apply not_elem_of_cons in Hj as [Hne Hj].
  rewrite (IH (p + 1)) by done. unfold d_idx. destruct (Z.ltb_spec p j).
  - pose proof (below_bound (p + 1) ps j Ha ltac:(lia)).
    destruct (Z.ltb_spec (j - below ps j) p); lia.
  - rewrite (below_zero (p + 1)) by (done || lia). destruct (Z.ltb_spec (j - 0) p); lia.
Qed.

Lemma up_below i i' ps j : i <= i' → ascending i' ps → j ∉ ps →
  up i ps (j - i - below ps j) = j - i.
Proof.
  revert i i' j. induction ps as [|p ps IH]; intros i i' j Hi; simpl; [lia|].
  intros [Hp Ha] Hj. apply not_elem_of_cons in Hj as [Hne Hj].
  unfold s_idx. destruct (Z.ltb_spec p j).
  - replace (j - i - (1 + below ps j)) with (j - (i + 1) - below ps j) by lia.
    rewrite (IH (i + 1) (p + 1)) by (done || lia). destruct (Z.ltb_spec (j - (i + 1)) (p - i)); lia.
  - rewrite (below_zero (p + 1)) by (done || lia).
    pose proof (IH (i + 1) (p + 1) (j + 1) ltac:(lia) Ha) as IH1.
    rewrite (below_zero (p + 1)) in IH1 by (done || lia).
    replace (j - i - (0 + 0)) with (j + 1 - (i + 1) - 0) by lia.
    rewrite IH1; [destruct (Z.ltb_spec (j + 1 - (i + 1)) (p - i)); lia|].
    eapply ascending_not_elem; [done|lia].
Qed.

(** Removing the positions undoes making room at them. *)
Lemma up_down ps j : ascending 0 ps → j ∉ ps → up 0 ps (down ps j) = j.
Proof.
  intros Ha Hj. rewrite (down_below 0) by done.
  pose proof (up_below 0 0 ps j ltac:(lia) Ha Hj) as H. by rewrite !Z.sub_0_r in H.
Qed.

(** ** The loops *)

Lemma insertBits_none w val last b : 0 <= w <= 64 → fits w val → last = 0 →
  insert_field w val (2 ^ 32 - 1) last b = val.
Proof.
  intros Hw Hv ->. unfold insert_field. cbv zeta.
  assert (mask2 (2 ^ 32 - 1) 0 = 0) as -> by done.
  rewrite (wrap_small w 0) by (unfold fits; pose proof (pow2_pos w); lia).
  rewrite Z.land_0_r. assert (wrap w 0 = 0) as -> by (unfold wrap; apply Z.mod_0_l; lia).
  rewrite Z.lor_0_r. unfold unot. rewrite Z.lnot_0. apply Z.bits_inj'. intros i Hi.
  rewrite Z.land_spec, testbit_wrap, Z.bits_m1 by lia.
  destruct (Z.ltb_spec i w); [btauto|]. by rewrite (testbit_fits w val) by (done || lia).
Qed.

Definition remove_step (i p a : Z) : Z :=
  if 0 <? p then insert_field 64 (a .>> 1) (u32 (p - i - 1)) 0 a else a .>> 1.

Lemma remove_step_bit i p a j : 0 <= i <= p → p < 64 → fits 64 a → 0 <= j →
  Z.testbit (remove_step i p a) j = Z.testbit a (s_idx (p - i) j).
Proof.
  intros Hi Hp Ha Hj. unfold remove_step, s_idx.
  assert (fits 64 (a .>> 1)) as Hs by (apply fits_shiftr; done || lia).
  destruct (decide (p = i)) as [->|].
  - replace (i - i - 1) with (-1) by lia.
    assert ((if 0 <? i then insert_field 64 (a .>> 1) (u32 (-1)) 0 a else a .>> 1) = a .>> 1) as ->.
    { destruct (0 <? i); [|done]. by apply insertBits_none. }
    rewrite Z.shiftr_spec by lia. split_cmp; done.
  - destruct (Z.ltb_spec 0 p); [|lia].
    rewrite (wrap_small 32) by (unfold fits; lia).
    rewrite testbit_insertBits, Z.shiftr_spec by (done || lia). rewrite Z.sub_0_r.
    split_cmp; simpl; try done.
Qed.

Lemma remove_step_fits i p a : fits 64 a → fits 64 (remove_step i p a).
Proof.
  intros Ha. unfold remove_step.
  destruct (0 <? p); [apply insertBits_fits; [done|]|]; apply fits_shiftr; done || lia.
Qed.

Lemma up_nonneg i ps j : 0 <= j → 0 <= up i ps j.
Proof.
  revert i. induction ps as [|p ps IH]; intros i Hj; simpl; [done|].
  unfold s_idx. specialize (IH (i + 1) Hj). destruct (_ <? _); lia.
Qed.

Lemma remove_loop_bit i i' ps a j : 0 <= i <= i' → ascending i' ps → fits 64 a → 0 <= j →
  Z.testbit (remove_loop i ps a) j = Z.testbit a (up i ps j).
Proof.
  revert i i' a. induction ps as [|p ps IH]; intros i i' a Hi; simpl; [done|].
  intros [Hp Ha] Hf Hj. fold (remove_step i p a).
  rewrite (IH (i + 1) (p + 1)) by (lia || auto using remove_step_fits).
  apply remove_step_bit; [lia|lia|done|]. by apply up_nonneg.
Qed.

Lemma remove_loop_fits i ps a : fits 64 a → fits 64 (remove_loop i ps a).
Proof.
  revert i a. induction ps as [|p ps IH]; intros i a Ha; simpl; [done|].
  apply IH. by apply remove_step_fits.
Qed.

Lemma make_room_fits a p : fits 64 (make_room a p).
Proof.
  unfold make_room. destruct (0 <? p); [apply insertBits_fits; [done|]|]; by apply wrap_fits.
Qed.

Lemma make_room_bit a p j : 0 <= p < 64 → 0 <= j < 64 → j ≠ p →
  Z.testbit (make_room a p) j = Z.testbit a (d_idx p j).
Proof.
  intros Hp Hj Hne. unfold make_room, d_idx. destruct (Z.ltb_spec 0 p).
  - rewrite (wrap_small 32) by (unfold fits; lia).
    rewrite testbit_insertBits by (lia || by apply wrap_fits).
    rewrite (testbit_wrap 64 (_ .<< _)), Z.shiftl_spec, Z.sub_0_r by lia.
    split_cmp; simpl; try done.
  - rewrite (testbit_wrap 64 (_ .<< _)), Z.shiftl_spec by lia. split_cmp; done.
Qed.

Lemma foldl_make_room_bit i ps a j : 0 <= i → ascending i ps → 0 <= j < 64 → j ∉ ps →
  Z.testbit (foldl make_room a ps) j = Z.testbit a (down ps j).
Proof.
  revert i a. induction ps as [|p ps IH]; intros i a Hi; simpl; [done|].
  intros [Hp Ha] Hj Hn. apply not_elem_of_cons in Hn as [Hne Hn].
  rewrite (IH (p + 1)) by (done || lia).
  rewrite (down_below (p + 1)) by done.
  pose proof (below_bound (p + 1) ps j Ha) as Hb1.
  pose proof (below_zero (p + 1) ps j Ha) as Hb0.
  apply make_room_bit; lia.
Qed.

(** ** Well-formed interleavings

    Each mask is non-zero with a lowest bit an [int] shift can reach, and no mask uses
    the lowest bit of another one. *)
Definition mask_ok (m : Z) : Prop := 0 < m < 2 ^ 64 ∧ ctz64 m < 31.

Definition masks_ok (ms : list Z) : Prop :=
  (length ms <= 8)%nat ∧ Forall mask_ok ms ∧
  ∀ i j mi mj, ms !! i = Some mi → ms !! j = Some mj → i ≠ j → Z.testbit mi (ctz64 mj) = false.

Lemma masks_ok_NoDup ms : masks_ok ms → NoDup (ctz64 <$> ms).
Proof.
  intros (_ & Hf & Hd). apply NoDup_alt. intros i j p Hi Hj.
  apply list_lookup_fmap_Some in Hi as (mi & -> & Hi).
  apply list_lookup_fmap_Some in Hj as (mj & Heq & Hj).
  destruct (decide (i = j)) as [|Hne]; [done|exfalso].
  pose proof (Hd i j mi mj Hi Hj Hne) as Hb. rewrite <-Heq in Hb.
  rewrite Forall_lookup in Hf. destruct (Hf i mi Hi) as [Hm _].
  destruct (ctz64_lowest mi Hm) as (_ & Ht & _). congruence.
Qed.

Lemma sorted_ascending i ps : 0 <= i → StronglySorted Z.le ps → NoDup ps →
  Forall (λ p, i <= p < 64) ps → ascending i ps.
Proof.
  revert i. induction ps as [|p ps IH]; intros i Hi Hs Hn Hf; [done|].
  apply StronglySorted_cons in Hs as [Hp Hs]. apply NoDup_cons in Hn as [Hn1 Hn].
  apply Forall_cons in Hf as [Hp0 Hf]. split; [done|].
  apply IH; [lia|done..|]. rewrite Forall_forall in *. intros q Hq.
  assert (q ≠ p) by (by intros ->). specialize (Hp q Hq). specialize (Hf q Hq). simpl in *. lia.
Qed.

Lemma masks_lsb_elem r p : p ∈ masks_lsb r ↔ ∃ m, m ∈ masks r ∧ p = ctz64 m.
Proof.
  unfold masks_lsb. rewrite merge_sort_Permutation, list_elem_of_fmap. naive_solver.
Qed.

Lemma masks_lsb_ascending r : masks_ok (masks r) → ascending 0 (masks_lsb r).
Proof.
  intros Hok. apply sorted_ascending; [done| | |].
  - apply StronglySorted_merge_sort; apply _.
  - unfold masks_lsb. rewrite merge_sort_Permutation. by apply masks_ok_NoDup.
  - apply Forall_forall. intros p (m & Hm & ->)%masks_lsb_elem.
    destruct Hok as (_ & Hf & _). rewrite Forall_forall in Hf.
    destruct (Hf m Hm) as [Hr ?]. destruct (ctz64_lowest m Hr). lia.
Qed.

(** ** Parities *)

Lemma count_bits_without val v l n : Z.testbit v (Z.of_nat l) = false →
  (∀ i, i ≠ Z.of_nat l → 0 <= i → Z.testbit v i = Z.testbit val i) →
  ∀ k, count_bits val (seq k n) =
    count_bits v (seq k n) +
    (if decide (k <= l < k + n)%nat then Z.b2z (Z.testbit val (Z.of_nat l)) else 0).
Proof.
  intros Hl Hv. induction n as [|n IH]; intros k; cbn [seq count_bits foldr].
  { rewrite decide_False by lia. done. }
  fold (count_bits val (seq (S k) n)). fold (count_bits v (seq (S k) n)). rewrite IH.
  destruct (decide (k = l)) as [->|Hne].
  - rewrite Hl, decide_False, decide_True by lia. destruct (Z.testbit val _); simpl; lia.
  - rewrite (Hv (Z.of_nat k)) by lia.
    destruct (decide (S k <= l < S k + n)%nat), (decide (k <= l < k + S n)%nat); lia.
Qed.

Lemma popCount_without val v l : 0 <= l < 64 → Z.testbit v l = false →
  (∀ i, i ≠ l → 0 <= i → Z.testbit v i = Z.testbit val i) →
  popCount val = popCount v + Z.b2z (Z.testbit val l).
Proof.
  intros Hl H0 Hv. rewrite <-(Z2Nat.id l) in * by lia.
  pose proof (count_bits_without val v (Z.to_nat l) 64 H0 Hv 0) as H.
  rewrite decide_True in H by lia. exact H.
Qed.

Lemma not_lsb_bits l : 0 <= l < 31 →
  ∃ n, not_lsb l = Ok n ∧ ∀ i, 0 <= i → Z.testbit n i = (i <? 64) && negb (i =? l).
Proof.
  intros Hl. unfold not_lsb. destruct (Z.ltb_spec l 32); [|lia]. eexists; split; [done|].
  assert (0 < 2 ^ l <= 2 ^ 30) as Hp.
  { split; [apply pow2_pos; lia|apply Z.pow_le_mono_r; lia]. }
  assert (∀ z, - 2 ^ 31 <= z < 2 ^ 31 → s32 z = z) as Hs.
  { intros z Hz. unfold swrap. rewrite Z.mod_small; lia. }
  rewrite Z.shiftl_1_l, (Hs (2 ^ l)), Hs by (unfold Z.lnot; lia).
  intros i Hi. rewrite testbit_wrap, Z.lnot_spec, testbit_pow2 by lia. done.
Qed.

(** ** The selector *)

Lemma foldl_sel_bit (ms : list Z) a k s i : 0 <= i → 0 <= k →
  Z.testbit (foldl (λ s im, s .| ((popCount (a .& im.2) mod 2) .<< Z.of_nat im.1)) s
    (imap (λ n, pair (n + Z.to_nat k)%nat) ms)) i =
  Z.testbit s i || match (if k <=? i then ms !! Z.to_nat (i - k) else None) with
    | Some m => Z.odd (popCount (a .& m)) | None => false end.
Proof.
  intros Hi. revert k s. induction ms as [|m ms IH]; intros k s Hk.
  { simpl. rewrite orb_comm. by destruct (k <=? i). }
  cbn [imap foldl]. rewrite (imap_ext _ (λ n, pair (n + Z.to_nat (k + 1))%nat)).
  2:{ intros. simpl. f_equal. lia. }
  rewrite IH by lia. cbn [fst snd]. rewrite Nat.add_0_l, Z2Nat.id by lia.
  rewrite Z.lor_spec, Z.shiftl_spec, <-orb_assoc by lia. f_equal.
  destruct (Z.leb_spec k i); [destruct (decide (i = k)) as [->|]|].
  - rewrite Z.sub_diag. destruct (Z.leb_spec (k + 1) k); [lia|]. rewrite orb_false_r.
    change (popCount (a .& m) mod 2) with (wrap 1 (popCount (a .& m))).
    rewrite testbit_wrap by lia. apply Z.bit0_odd.
  - destruct (Z.leb_spec (k + 1) i); [|lia].
    replace (Z.to_nat (i - k)) with (S (Z.to_nat (i - (k + 1)))) by lia.
    change (popCount (a .& m) mod 2) with (wrap 1 (popCount (a .& m))).
    rewrite testbit_wrap by lia. destruct (Z.ltb_spec (i - k) 1); [lia|done].
  - rewrite Z.testbit_neg_r by lia. destruct (Z.leb_spec (k + 1) i); [lia|done].
Qed.

(** Bit [i] of the selector is the parity of the address under mask [i]. *)
Lemma sel_bit ms a i : 0 <= i → Z.testbit (sel ms a) i =
  match ms !! Z.to_nat i with Some m => Z.odd (popCount (a .& m)) | None => false end.
Proof.
  intros Hi. pose proof (foldl_sel_bit ms a 0 0 i Hi ltac:(lia)) as H.
  rewrite Z.sub_0_r, Z.testbit_0_l in H.
  destruct (Z.leb_spec 0 i); [|lia]. rewrite orb_false_l in H. rewrite <-H. unfold sel.
  f_equal. f_equal. apply imap_ext. intros. simpl. f_equal. lia.
Qed.

Lemma sel_fits ms a : fits (Z.of_nat (length ms)) (sel ms a).
Proof.
  apply fits_testbit; [lia| |].
  - unfold sel. assert (∀ (l : list (nat * Z)) s, 0 <= s → 0 <= foldl
      (λ s im, s .| ((popCount (a .& im.2) mod 2) .<< Z.of_nat im.1)) s l) as H; [|by apply H].
    induction l as [|x l IH]; intros s Hs; simpl; [done|]. apply IH.
    apply Z.lor_nonneg. split; [done|]. apply Z.shiftl_nonneg.
    apply Z.mod_pos_bound. lia.
  - intros i Hi. rewrite sel_bit, lookup_ge_None_2 by lia. done.
Qed.

(** ** Filling in the interleaving bits *)

(** [a] and [b] have the same bits outside the positions [ps]. *)
Definition agree_off (ps : list Z) (a b : Z) : Prop :=
  ∀ j, 0 <= j → j ∉ ps → Z.testbit b j = Z.testbit a j.

Lemma agree_off_nil a b : agree_off [] a b → b = a.
Proof. intros H. apply Z.bits_inj'. intros j Hj. apply H; [done|]. apply not_elem_of_nil. Qed.

(** The parity of the address without the mask's lowest bit. *)
Lemma masked_parity ps a b m l n : 0 <= l < 64 → Z.testbit m l = true →
  fits 64 a → (∀ j, j ≠ l → j ∈ ps → Z.testbit m j = false) →
  agree_off (l :: ps) a b →
  (∀ i, 0 <= i → Z.testbit n i = (i <? 64) && negb (i =? l)) →
  popCount (a .& m) = popCount (b .& m .& n) + Z.b2z (Z.testbit a l).
Proof.
  intros Hl Hml Ha Hd Hag Hn.
  rewrite (popCount_without (a .& m) (b .& m .& n) l Hl).
  - by rewrite (Z.land_spec a m l), Hml, andb_true_r.
  - rewrite !Z.land_spec, Hn by lia. rewrite Z.eqb_refl. btauto.
  - intros i Hne Hi. rewrite !Z.land_spec, Hn by lia.
    destruct (Z.eqb_spec i l); [done|]. destruct (Z.ltb_spec i 64).
    + destruct (decide (i ∈ ps)) as [Hin|Hin]; [rewrite (Hd i) by done; btauto|].
      rewrite (Hag i); [btauto|done|]. by apply not_elem_of_cons.
    + rewrite (testbit_fits 64 a) by done. btauto.
Qed.

(** One round of the second loop of addIntlvBits. *)
Lemma fill_step ps a b m l n M i : 0 <= l < 64 → 0 <= i < 64 → fits 64 b → l ∉ ps →
  agree_off (l :: ps) a b →
  popCount (a .& m) = popCount (b .& m .& n) + Z.b2z (Z.testbit a l) →
  Z.testbit M i = Z.odd (popCount (a .& m)) →
  agree_off ps a (insertBits1 64 b l (bits1 8 M i .^ popCount (b .& m .& n))).
Proof.
  intros Hl Hi Hb Hlp Hag Hpar HM j Hj Hjp.
  unfold insertBits1. rewrite testbit_insertBits by (done || lia).
  destruct (decide (j = l)) as [->|Hne].
  - rewrite Z.leb_refl, Z.sub_diag. destruct (Z.ltb_spec l 64); [cbn [andb]|lia].
    rewrite Z.lxor_spec, bits1_testbit, Z.b2z_bit0, HM, Hpar by lia.
    rewrite Z.bit0_odd, Z.odd_add, <-(Z.bit0_odd (Z.b2z _)), Z.b2z_bit0. btauto.
  - destruct (Z.leb_spec l j), (Z.leb_spec j l); try lia; simpl.
    all: apply Hag; [done|]; by apply not_elem_of_cons.
Qed.

Lemma fill_bits_restores M a ms : ∀ pre b,
  masks_ok (pre ++ ms) → fits 64 a → fits 64 b → sel (pre ++ ms) a = M →
  agree_off (ctz64 <$> ms) a b →
  fill_bits M (Z.of_nat (length pre)) ms b = Ok a.
Proof.
  induction ms as [|m ms IH]; intros pre b Hok Ha Hb HM Hag.
  { simpl. by rewrite (agree_off_nil a b Hag). }
  assert ((pre ++ m :: ms) !! length pre = Some m) as Hlk by by apply list_lookup_middle.
  pose proof Hok as (Hlen & Hf & Hd). rewrite Forall_lookup in Hf.
  destruct (Hf _ _ Hlk) as [Hm Hl31]. destruct (ctz64_lowest m Hm) as (Hl0 & Hml & _).
  destruct (not_lsb_bits (ctz64 m) ltac:(lia)) as (n & Hn & Hnb).
  pose proof (masks_ok_NoDup _ Hok) as Hnd.
  rewrite fmap_app, fmap_cons in Hnd. apply NoDup_app in Hnd as (_ & _ & [Hnd _]%NoDup_cons).
  rewrite fmap_cons in Hag. rewrite length_app in Hlen. simpl in Hlen.
  cbn [fill_bits]. rewrite Hn. cbn [mbind result_bind].
  replace (Z.of_nat (length pre) + 1) with (Z.of_nat (length (pre ++ [m])))
    by (rewrite length_app; simpl; lia).
  assert (pre ++ m :: ms = (pre ++ [m]) ++ ms) as Happ by by rewrite <-app_assoc.
  apply IH; [by rewrite <-Happ|done| |by rewrite <-Happ|].
  { by apply insertBits_fits. }
  apply fill_step; [lia|lia|done|done|done| |].
  - eapply masked_parity; [lia|done|done| |done|done].
    intros j Hne (m' & -> & (k & Hk)%list_elem_of_lookup)%list_elem_of_fmap.
    assert ((pre ++ m :: ms) !! (length pre + S k)%nat = Some m') as Hk'.
    { rewrite lookup_app_r by lia.
      by replace (length pre + S k - length pre)%nat with (S k) by lia. }
    apply (Hd _ _ m m' Hlk Hk'). lia.
  - rewrite <-HM, sel_bit, Nat2Z.id, Hlk by lia. done.
Qed.

(** ** Removing and adding the interleaving bits *)

(** The range is well-formed: its masks are, and the match value is one a selector
    can take. *)
Definition range_ok (r : AddrRange) : Prop :=
  masks_ok (masks r) ∧ fits 64 (_start r) ∧ fits 64 (_end r) ∧
  fits (Z.of_nat (length (masks r))) (intlvMatch r).

Lemma contains_spec r a : contains r a = true ↔
  _start r <= a < _end r ∧ sel (masks r) a = intlvMatch r.
Proof.
  unfold contains. rewrite <-Z.eqb_eq.
  destruct (Z.leb_spec (_start r) a), (Z.ltb_spec a (_end r)); simpl; naive_solver lia.
Qed.

Lemma contains_fits r a : range_ok r → contains r a = true → fits 64 a.
Proof. intros (_ & Hs & He & _) [H _]%contains_spec. unfold fits in *. lia. Qed.

Lemma interleaved_false r : interleaved r = false → masks r = [].
Proof. unfold interleaved. destruct (masks r); [done|]. simpl. discriminate. Qed.

Lemma foldl_make_room_fits ps a : fits 64 a → fits 64 (foldl make_room a ps).
Proof.
  revert a. induction ps as [|p ps IH]; intros a Ha; simpl; [done|].
  apply IH, make_room_fits.
Qed.

Lemma add_remove_agree r a : masks_ok (masks r) → fits 64 a → agree_off (ctz64 <$> masks r) a
  (foldl make_room (remove_loop 0 (masks_lsb r) a) (masks_lsb r)).
Proof.
  intros Hok Ha j Hj Hn. pose proof (masks_lsb_ascending r Hok) as Hasc.
  assert (j ∉ masks_lsb r) as Hn'.
  { unfold masks_lsb. by rewrite merge_sort_Permutation. }
  destruct (decide (j < 64)).
  - rewrite (foldl_make_room_bit 0) by (done || lia).
    pose proof (down_below 0 _ j Hasc Hn') as Hdb.
    pose proof (below_bound 0 _ j Hasc ltac:(lia)).
    rewrite (remove_loop_bit 0 0) by (done || lia). by rewrite up_down.
  - rewrite (testbit_fits 64 a) by (done || lia). apply (testbit_fits 64); [|lia].
    by apply foldl_make_room_fits, remove_loop_fits.
Qed.

(** C35: addIntlvBits undoes removeIntlvBits on every address the range contains: the
    bits removed are the lowest bits of the masks, and the selector determines them. *)
Theorem addIntlvBits_removeIntlvBits r a :
  range_ok r → contains r a = true →
  addIntlvBits r (removeIntlvBits r a) = Ok a.
Proof.
  intros Hr Hc. pose proof (contains_fits r a Hr Hc) as Ha.
  apply contains_spec in Hc as [_ Hsel]. destruct Hr as (Hok & _ & _ & _).
  unfold addIntlvBits, removeIntlvBits. destruct (interleaved r); simpl; [|done].
  apply (fill_bits_restores _ a (masks r) []); [done|done| |done|].
  - by apply foldl_make_room_fits, remove_loop_fits.
  - by apply add_remove_agree.
Qed.

(** The bits of a removed address are those of the address off the lowest bits. *)
Lemma removeIntlvBits_inj r a b : range_ok r →
  contains r a = true → contains r b = true →
  removeIntlvBits r a = removeIntlvBits r b → a = b.
Proof.
  intros Hr Ha Hb Heq. pose proof (contains_fits r a Hr Ha) as Hfa.
  pose proof (contains_fits r b Hr Hb) as Hfb.
  apply contains_spec in Ha as [_ Ha]. apply contains_spec in Hb as [_ Hb].
  destruct Hr as (Hok & _). unfold removeIntlvBits in Heq.
  destruct (interleaved r); [|done]. simpl in Heq.
  pose proof (add_remove_agree r a Hok Hfa) as Hga.
  pose proof (add_remove_agree r b Hok Hfb) as Hgb. rewrite <-Heq in Hgb.
  pose proof (remove_loop_fits 0 (masks_lsb r) a Hfa) as Hf.
  apply (foldl_make_room_fits (masks_lsb r)) in Hf.
  pose proof (fill_bits_restores (intlvMatch r) a (masks r) [] _ Hok Hfa Hf Ha Hga) as H1.
  pose proof (fill_bits_restores (intlvMatch r) b (masks r) [] _ Hok Hfb Hf Hb Hgb) as H2.
  congruence.
Qed.

(** GetOffset is injective on the addresses of a range: two addresses a memory owns
    never share a flat offset. *)
Theorem getOffset_injective r a b :
  range_ok r → contains r a = true → contains r b = true →
  getOffset r a = getOffset r b → a = b.
Proof.
  intros Hr Ha Hb Heq. pose proof (contains_fits r a Hr Ha) as Hfa.
  pose proof (contains_fits r b Hr Hb) as Hfb.
  pose proof Ha as [[Ha1 Ha2] _]%contains_spec. pose proof Hb as [[Hb1 Hb2] _]%contains_spec.
  unfold getOffset in Heq.
  destruct (Z.leb_spec (_start r) a), (Z.ltb_spec a (_end r)); try lia.
  destruct (Z.leb_spec (_start r) b), (Z.ltb_spec b (_end r)); try lia. simpl in Heq.
  destruct Hr as (Hok & Hs & He & Hm).
  assert (∀ x y z, fits 64 x → fits 64 y → u64 (x - z) = u64 (y - z) → x = y) as Hsub.
  { intros x y z Hx Hy Hxy. unfold wrap in Hxy. unfold fits in *.
    rewrite <-(Z.mod_small x (2 ^ 64)), <-(Z.mod_small y (2 ^ 64)) by done.
    rewrite <-(Z.sub_add z x), <-(Z.sub_add z y).
    by rewrite Z.add_mod, Hxy, <-Z.add_mod by lia. }
  destruct (interleaved r) eqn:Hi.
  - apply Hsub in Heq; [by apply (removeIntlvBits_inj r)|..];
      unfold removeIntlvBits; rewrite Hi; by apply remove_loop_fits.
  - by apply Hsub in Heq.
Qed.

(** The ranges of an interleaved memory, one per match value, partition the
    addresses: each address of the interval is in exactly the range that its selector
    names, and the selector is one of the [stripes] match values. *)
Theorem interleaving_partitions s e ms a : s <= a < e →
  0 <= sel ms a < 2 ^ Z.of_nat (length ms) ∧
  ∀ m, contains (mkRange s e ms m) a = true ↔ m = sel ms a.
Proof.
  intros Ha. split; [apply sel_fits|]. intros m. rewrite contains_spec. simpl. naive_solver.
Qed.

(** ** The constructor that takes bit positions *)

Lemma intlv_mask_bit h x i j : 0 <= i <= h → h < 64 → x = 0 ∨ i <= x < 64 → 0 <= j →
  Z.testbit (intlv_mask h x i) j = (j =? h - i) || (negb (x =? 0) && (j =? x - i)).
Proof.
  intros Hi Hh Hx Hj. unfold intlv_mask.
  rewrite (wrap_small 8 (h - i)) by (unfold fits; lia).
  destruct (Z.eqb_spec x 0); cbn [negb].
  - rewrite testbit_wrap, Z.shiftl_1_l, testbit_pow2 by lia. split_cmp; done.
  - rewrite (wrap_small 8 (x - i)) by (unfold fits; lia).
    rewrite Z.lor_spec, !testbit_wrap, !Z.shiftl_1_l, !testbit_pow2 by lia.
    split_cmp; done.
Qed.

Lemma intlv_mask_range h x i : 0 <= i <= h → h < 64 → x = 0 ∨ i <= x < 64 →
  0 < intlv_mask h x i < 2 ^ 64.
Proof.
  intros Hi Hh Hx. assert (0 <= intlv_mask h x i) as H0.
  { unfold intlv_mask. destruct (negb _); [apply Z.lor_nonneg; split|]; by apply wrap_nonneg. }
  assert (intlv_mask h x i ≠ 0).
  { intros Heq. pose proof (intlv_mask_bit h x i (h - i) Hi Hh Hx ltac:(lia)) as Hb.
    rewrite Heq, Z.testbit_0_l, Z.eqb_refl in Hb. done. }
  split; [lia|]. apply fits_testbit; [done..|]. intros j Hj.
  rewrite intlv_mask_bit by lia. split_cmp; done.
Qed.

Lemma intlv_mask_lsb h x i : 0 <= i <= h → h < 64 → x = 0 ∨ i <= x < 64 →
  ctz64 (intlv_mask h x i) = (if x =? 0 then h else Z.min h x) - i.
Proof.
  intros Hi Hh Hx. eapply lowest_bit_unique; [by apply ctz64_lowest, intlv_mask_range|].
  assert (0 <= (if x =? 0 then h else Z.min h x) - i) by (destruct (Z.eqb_spec x 0); lia).
  split; [done|split].
  - rewrite intlv_mask_bit by done. destruct (Z.eqb_spec x 0); cbn; [by rewrite Z.eqb_refl|].
    by split_cmp.
  - intros j Hj. rewrite intlv_mask_bit by lia. destruct (Z.eqb_spec x 0); cbn; by split_cmp.
Qed.

Lemma intlv_masks_lookup h x n k m : intlv_masks h x n !! k = Some m →
  (k < n)%nat ∧ m = intlv_mask h x (Z.of_nat (n - 1 - k)).
Proof.
  intros Hk. unfold intlv_masks in Hk. pose proof (lookup_lt_Some _ _ _ Hk) as Hlt.
  rewrite length_reverse, length_fmap, length_seq in Hlt. split; [done|].
  rewrite reverse_lookup in Hk by by rewrite length_fmap, length_seq.
  rewrite length_fmap, length_seq in Hk.
  apply list_lookup_fmap_Some in Hk as (i & -> & [-> _]%lookup_seq). do 2 f_equal. lia.
Qed.

Lemma intlv_masks_ok h x n : (n <= 8)%nat → Z.of_nat n - 1 <= h → h < 31 →
  x = 0 ∨ (Z.of_nat n - 1 <= x < 64 ∧ (h + Z.of_nat n <= x ∨ x + Z.of_nat n <= h)) →
  masks_ok (intlv_masks h x n).
Proof.
  intros Hn Hh Hh31 Hx. split; [|split].
  - unfold intlv_masks. by rewrite length_reverse, length_fmap, length_seq.
  - apply Forall_lookup. intros k m (Hk & ->)%intlv_masks_lookup. split.
    + apply intlv_mask_range; lia.
    + rewrite intlv_mask_lsb by lia. destruct (Z.eqb_spec x 0); lia.
  - intros i j mi mj (Hi & ->)%intlv_masks_lookup (Hj & ->)%intlv_masks_lookup Hne.
    rewrite intlv_mask_lsb by lia.
    rewrite intlv_mask_bit by (destruct (Z.eqb_spec x 0); lia).
    destruct (Z.eqb_spec x 0); cbn; by split_cmp.
Qed.



(** ** Exclusion *)

#[export] Instance range_le_total : Total range_le.
Proof.
  intros x y. unfold range_le, range_lt.
  destruct (Z.eqb_spec (_start x) (_start y)), (Z.eqb_spec (_start y) (_start x));
    try lia; cbn [negb].
  - destruct (interleaved x), (interleaved y); cbn [andb]; auto. rewrite !Z.ltb_ge. lia.
  - rewrite !Z.ltb_ge. lia.
Qed.

#[export] Instance range_le_trans : Transitive range_le.
Proof.
  intros x y z. unfold range_le, range_lt.
  destruct (Z.eqb_spec (_start y) (_start x)), (Z.eqb_spec (_start z) (_start y)),
    (Z.eqb_spec (_start z) (_start x)); try lia; cbn [negb]; rewrite ?Z.ltb_ge; try lia.
  destruct (interleaved x), (interleaved y), (interleaved z); cbn [andb];
    rewrite ?Z.ltb_ge; try done; lia.
Qed.

(** A contiguous range, as [exclude] requires, with [start <= end]. *)
Definition plain (r : AddrRange) : Prop :=
  masks r = [] ∧ intlvMatch r = 0 ∧ _start r <= _end r.

Lemma plain_contains r x : plain r → contains r x = true ↔ _start r <= x < _end r.
Proof.
  intros (Hm & Hi & _). rewrite contains_spec, Hm, Hi. naive_solver.
Qed.

Lemma plain_interleaved r : plain r → interleaved r = false.
Proof. intros (Hm & _). unfold interleaved. by rewrite Hm. Qed.

Lemma range_contains a b x : contains (range a b) x = true ↔ a <= x < b.
Proof. rewrite contains_spec. simpl. naive_solver. Qed.

Lemma plain_range_le x y : plain x → plain y → range_le x y → _start x <= _start y.
Proof.
  intros Hx Hy. unfold range_le, range_lt. rewrite (plain_interleaved y) by done.
  destruct (Z.eqb_spec (_start y) (_start x)); [lia|]. cbn [negb]. rewrite Z.ltb_ge. lia.
Qed.

Lemma plain_intersects t e : plain t → plain e →
  intersects t e = Ok ((_start t <? _end e) && (_start e <? _end t)).
Proof.
  intros Ht He. unfold intersects. rewrite (plain_interleaved t), (plain_interleaved e) by done.
  rewrite !Z.leb_antisym. by destruct (_ <? _), (_ <? _).
Qed.

(** The ranges are non-empty, in address order from [n] on, and do not overlap. *)
Fixpoint chain (n : Z) (l : list AddrRange) : Prop :=
  match l with
  | [] => True
  | r :: l => n <= _start r < _end r ∧ chain (_end r) l
  end.

Lemma chain_weaken n n' l : n' <= n → chain n l → chain n' l.
Proof. destruct l; simpl; [done|]. intros ? []. split; [lia|done]. Qed.

(** What the loop of exclude leaves of [n, end). *)
Definition covers (l : list AddrRange) (P : Z → Prop) : Prop :=
  ∀ x, (∃ r, r ∈ l ∧ contains r x = true) ↔ P x.

Definition left_over (es : list AddrRange) (n e x : Z) : Prop :=
  n <= x < e ∧ Forall (λ r, contains r x = false) es.

Lemma contains_false r x : plain r → contains r x = false ↔ ¬ (_start r <= x < _end r).
Proof. intros Hr. rewrite <-(plain_contains r x Hr). by rewrite not_true_iff_false. Qed.

Lemma covers_nil (P : Z → Prop) : (∀ x, ¬ P x) → covers [] P.
Proof. intros HP x. split; [by intros (r & Hr & _); apply elem_of_nil in Hr|by intros ?%HP]. Qed.

Lemma covers_cons a b l (P Q : Z → Prop) :
  covers l P → (∀ x, Q x ↔ a <= x < b ∨ P x) → covers (range a b :: l) Q.
Proof.
  intros Hl HQ x. rewrite HQ, <-range_contains, <-(Hl x). split.
  - intros (r & Hr & Hc). apply elem_of_cons in Hr as [-> |Hr]; [by left|right; eauto].
  - intros [Hc|(r & Hr & Hc)]; eexists; (split; [|done]); [left|by right].
Qed.

Lemma covers_ext l (P Q : Z → Prop) : covers l P → (∀ x, P x ↔ Q x) → covers l Q.
Proof. intros Hl HPQ x. by rewrite <-HPQ. Qed.

Lemma left_over_cons e es n b x : plain e →
  left_over (e :: es) n b x ↔ ¬ (_start e <= x < _end e) ∧ left_over es n b x.
Proof. intros He. unfold left_over. rewrite Forall_cons, contains_false by done. tauto. Qed.

(** Addresses before a range are before every later one of the sorted list. *)
Lemma sorted_before e es x : plain e → Forall plain es → Forall (range_le e) es →
  x < _start e → Forall (λ r, contains r x = false) es.
Proof.
  intros He Hes Hle Hx. rewrite Forall_forall in *. intros r Hr.
  specialize (Hes r Hr). apply contains_false; [done|].
  pose proof (plain_range_le e r He Hes (Hle r Hr)). lia.
Qed.

(** The outcome of the loop: an answer appended to the ranges pushed so far. *)
Definition excl_ok (res : result (list AddrRange)) (acc : list AddrRange) (n : Z)
    (P : Z → Prop) : Prop :=
  ∃ l, res = Ok (acc ++ l) ∧ chain n l ∧ Forall plain l ∧ covers l P.

Lemma excl_ok_nil acc n (P : Z → Prop) : (∀ x, ¬ P x) → excl_ok (Ok acc) acc n P.
Proof. intros HP. exists []. rewrite app_nil_r. split; [done|split; [done|split; [done|by apply covers_nil]]]. Qed.

Lemma excl_ok_push res acc n a b m (P Q : Z → Prop) : n <= a < b → b <= m →
  excl_ok res (acc ++ [range a b]) m P → (∀ x, Q x ↔ a <= x < b ∨ P x) → excl_ok res acc n Q.
Proof.
  intros Ha Hb (l & -> & Hc & Hp & Hl) HQ. exists (range a b :: l).
  rewrite <-app_assoc. split; [done|]. split; [|split].
  - split; [done|]. by apply (chain_weaken m).
  - constructor; [|done]. split; [done|split; [done|simpl; lia]].
  - by eapply covers_cons.
Qed.

Lemma excl_ok_ext res acc n m (P Q : Z → Prop) : n <= m → (∀ x, P x ↔ Q x) →
  excl_ok res acc m P → excl_ok res acc n Q.
Proof.
  intros Hn HPQ (l & -> & Hc & Hp & Hl). exists l.
  split; [done|split; [by apply (chain_weaken m)|split; [done|by eapply covers_ext]]].
Qed.

Lemma exclude_loop_spec t es : plain t → Forall plain es → StronglySorted range_le es →
  ∀ n acc, _start t <= n →
  excl_ok (exclude_loop t es n acc) acc n (left_over es n (_end t)).
Proof.
  intros Ht. induction es as [|e es IH]; intros Hes Hs n acc Hn; simpl; unfold start, end_.
  { destruct (Z.ltb_spec n (_end t)); [|by apply excl_ok_nil; intros x [? _]; lia].
    eapply (excl_ok_push _ _ n n (_end t) (_end t) (λ _, False)); [lia|lia| |].
    - by apply excl_ok_nil; intros ? [].
    - intros x. unfold left_over. rewrite Forall_nil. tauto. }
  apply Forall_cons in Hes as [He Hes]. apply StronglySorted_cons in Hs as [Hle Hs].
  rewrite (plain_interleaved e) by done. cbn [negb assert_ok mbind result_bind].
  rewrite plain_intersects by done. cbn [mbind result_bind].
  pose proof He as (_ & _ & Hev).
  destruct ((_start t <? _end e) && (_start e <? _end t)) eqn:Hint; cbn [negb]; bool_prop.
  2:{ eapply excl_ok_ext; [reflexivity| |by apply IH]. intros x. rewrite left_over_cons by done.
      apply andb_false_iff in Hint. rewrite !Z.ltb_ge in Hint. unfold left_over. intuition lia. }
  destruct (Z.leb_spec (_start e) n), (Z.ltb_spec (_end e) (_end t)).
  - assert ((if n <? _end e then _end e else n) = Z.max n (_end e)) as ->
      by (destruct (Z.ltb_spec n (_end e)); lia).
    eapply excl_ok_ext; [|intros x|apply IH; [done..|lia]]; [lia|].
    rewrite left_over_cons by done. unfold left_over. intuition lia.
  - apply excl_ok_nil. intros x. rewrite left_over_cons by done. unfold left_over. lia.
  - eapply (excl_ok_push _ _ n n (_start e) (_end e)); [lia|done|apply IH; [done..|lia]|].
    intros x. rewrite left_over_cons by done. unfold left_over.
    pose proof (sorted_before e es x He Hes Hle). destruct (decide (x < _start e)); intuition lia.
  - eapply (excl_ok_push _ _ n n (_start e) (_start e) (λ _, False)); [lia|lia|by apply excl_ok_nil; intros ? []|].
    intros x. rewrite left_over_cons by done. unfold left_over.
    pose proof (sorted_before e es x He Hes Hle). destruct (decide (x < _start e)); intuition lia.
Qed.

(** C36: exclude computes the set difference: on contiguous ranges it returns non-empty
    disjoint ranges in address order, and an address is in one of them exactly when it
    is in the range and in none of the excluded ones. *)
Theorem exclude_difference t excl : plain t → Forall plain excl →
  ∃ l, exclude t excl = Ok l ∧ chain (start t) l ∧
    ∀ x, (∃ r, r ∈ l ∧ contains r x = true) ↔
         contains t x = true ∧ Forall (λ e, contains e x = false) excl.
Proof.
  intros Ht He. unfold exclude. rewrite (plain_interleaved t) by done.
  cbn [negb assert_ok mbind result_bind]. unfold sort_ranges.
  destruct (exclude_loop_spec t (merge_sort range_le excl) Ht) with (n := start t) (acc := @nil AddrRange)
    as (l & Hl & Hc & _ & Hcov).
  - by rewrite merge_sort_Permutation.
  - apply StronglySorted_merge_sort; apply _.
  - unfold start. lia.
  - exists l. split; [done|split; [done|]]. intros x. rewrite (Hcov x). unfold left_over, start.
    by rewrite merge_sort_Permutation, plain_contains.
Qed.

(** ** Merging *)

Lemma merge_check_match t l : ∀ m, 0 <= m → m + Z.of_nat (length l) <= 256 →
  merge_check t l m = Ok tt →
  ∀ k r, l !! k = Some r → mergesWith t r = true ∧ intlvMatch r = m + Z.of_nat k.
Proof.
  induction l as [|r0 l IH]; intros m Hm Hlen H k r Hk; [done|]. cbn [length] in Hlen.
  cbn [merge_check] in H.
  destruct (mergesWith t r0) eqn:Hmw; [|done]. cbn [negb fatal_if mbind result_bind] in H.
  destruct (Z.eqb_spec (intlvMatch r0) m) as [Hr0|]; [|done].
  cbn [negb fatal_if mbind result_bind] in H.
  destruct k as [|k]; simpl in Hk.
  - injection Hk as <-. split; [done|]. lia.
  - destruct (decide (l = [])) as [-> |Hne]; [done|].
    assert (0 < Z.of_nat (length l)) by (destruct l; [done|simpl; lia]).
    rewrite (wrap_small 8) in H by (unfold fits; lia).
    destruct (IH (m + 1) ltac:(lia) ltac:(lia) H k r Hk). split; [done|]. lia.
Qed.

Lemma mergesWith_eq t r : mergesWith t r = true →
  r = mkRange (_start t) (_end t) (masks t) (intlvMatch r).
Proof.
  unfold mergesWith. intros H. apply andb_true_iff in H as [[H1 H2]%andb_true_iff H3].
  apply Z.eqb_eq in H1, H2. apply bool_decide_eq_true in H3. by destruct r; simpl in *; subst.
Qed.

(** Merging a list of interleaved ranges is all or nothing: when the constructor accepts
    the ranges, the range it builds contains an address exactly when one of them does,
    and so loses and adds none. *)
Lemma range_merge_spec l r : l ≠ [] →
  Forall (λ q, (length (masks q) <= 8)%nat) l →
  range_merge l = Ok r →
  ∀ x, contains r x = true ↔ ∃ q, q ∈ l ∧ contains q x = true.
Proof.
  intros Hne H8 H x. unfold range_merge in H. cbv zeta in H.
  destruct l as [|t l']; [done|]. apply Forall_cons in H8 as [Ht _].
  destruct (Z.ltb_spec 1 (Z.of_nat (length (t :: l')))).
  2:{ assert (l' = []) as -> by (by destruct l'; [|simpl in *; lia]). injection H as <-.
      split; [intros ?; exists t; by split; [left|]|by intros (q & ->%list_elem_of_singleton & ?)]. }
  rewrite Z.shiftl_1_l, (wrap_small 64) in H.
  2:{ split; [apply Z.pow_nonneg; lia|apply Z.pow_lt_mono_r; lia]. }
  destruct (Z.eqb_spec (Z.of_nat (length (t :: l'))) (2 ^ Z.of_nat (length (masks t)))) as [Hc|];
    [|done]. cbn [negb fatal_if mbind result_bind] in H.
  assert (2 ^ Z.of_nat (length (masks t)) <= 2 ^ 8) by (apply Z.pow_le_mono_r; lia).
  destruct (merge_check t (t :: l') 0) as [[]|] eqn:Hm; [|done].
  injection H as <-. pose proof (merge_check_match t (t :: l') 0 ltac:(lia) ltac:(lia) Hm) as Hk.
  rewrite contains_spec. cbn [_start _end masks intlvMatch sel imap foldl]. split.
  - intros [Hx _]. pose proof (sel_fits (masks t) x) as Hs.
    destruct (lookup_lt_is_Some_2 (t :: l') (Z.to_nat (sel (masks t) x))) as [q Hq].
    { unfold fits in Hs. lia. }
    destruct (Hk _ _ Hq) as [Hq1%mergesWith_eq Hq2].
    exists q. split; [by eapply list_elem_of_lookup_2|].
    apply contains_spec. rewrite Hq1. simpl. unfold fits in Hs. lia.
  - intros (q & [k Hq]%list_elem_of_lookup & [Hx _]%contains_spec).
    destruct (Hk _ _ Hq) as [Hq1%mergesWith_eq _]. rewrite Hq1 in Hx. simpl in Hx. done.
Qed.

Lemma merge_check_outcome t l : ∀ m, merge_check t l m = Ok tt ∨ merge_check t l m = Err Fatal.
Proof.
  induction l as [|r l IH]; intros m; simpl; [by left|].
  destruct (mergesWith t r), (intlvMatch r =? m); simpl; auto.
Qed.

Lemma range_merge_outcome l : (∃ r, range_merge l = Ok r) ∨ range_merge l = Err Fatal.
Proof.
  unfold range_merge. cbv zeta. destruct (1 <? _); [|left; by eexists].
  destruct (_ =? _); simpl; [|by right].
  edestruct merge_check_outcome as [-> | ->]; simpl; [left; by eexists|by right].
Qed.

(** Granularity collects the masks in a 32-bit int: interleaving on bit 32 alone,
    which the constructor accepts, leaves no bit in it, and the shift that follows is
    undefined instead of giving 2^32. *)
Theorem granularity_high_bit :
  ∃ r, range_intlv 0 (2 ^ 40) 32 0 1 0 = Ok r ∧ granularity r = Err Undefined.
Proof. eexists. split; reflexivity. Qed.

(** AddIntlvBits clears the lowest mask bit with an int literal: with an
    interleaving bit 31 hashed with bit 35, the mask loses its upper bit too, and an
    address the range contains does not come back. *)
Theorem addIntlvBits_bit31 :
  ∃ r a, range_intlv 0 (2 ^ 40) 31 35 1 0 = Ok r ∧ contains r a = true ∧
    addIntlvBits r (removeIntlvBits r a) ≠ Ok a.
Proof.
  eexists _, (2 ^ 31 + 2 ^ 35). split; [reflexivity|]. split; [reflexivity|].
  vm_compute. discriminate.
Qed.

(** ** Witnesses

    Four stripes of 64 bytes, interleaved on bits 6 and 7 hashed with bits 12 and 13. *)
Definition ex_range : AddrRange := mkRange 0 0x10000 (intlv_masks 7 13 2) 2.

Lemma ex_range_ok : range_ok ex_range.
Proof.
  split; [apply intlv_masks_ok; simpl; lia|]. unfold fits; simpl; lia.
Qed.

Lemma addIntlvBits_removeIntlvBits_witness :
  contains ex_range 0x10a0 = false ∧ contains ex_range 0x2060 = false ∧
  contains ex_range 0x30e5 = false ∧ contains ex_range 0x10c3 = true ∧
  removeIntlvBits ex_range 0x10c3 = 0x403 ∧
  addIntlvBits ex_range (removeIntlvBits ex_range 0x10c3) = Ok 0x10c3.
Proof.
  do 5 (split; [reflexivity|]).
  apply (addIntlvBits_removeIntlvBits ex_range 0x10c3 ex_range_ok). reflexivity.
Defined.

Lemma getOffset_injective_witness :
  contains ex_range 0x10c3 = true ∧ contains ex_range 0x2003 = true ∧
  getOffset ex_range 0x10c3 ≠ getOffset ex_range 0x2003.
Proof.
  do 2 (split; [reflexivity|]). intros Heq.
  pose proof (getOffset_injective ex_range 0x10c3 0x2003 ex_range_ok eq_refl eq_refl Heq).
  discriminate.
Defined.

Lemma interleaving_partitions_witness :
  0 <= 0x10c3 < 0x10000 ∧ contains (mkRange 0 0x10000 (intlv_masks 7 13 2) 2) 0x10c3 = true.
Proof.
  split; [lia|].
  apply (interleaving_partitions 0 0x10000 (intlv_masks 7 13 2) 0x10c3 ltac:(lia)).
  reflexivity.
Defined.


Lemma exclude_difference_witness :
  exclude (range 0 100) [range 50 60; range 10 20] = Ok [range 0 10; range 20 50; range 60 100] ∧
  ∃ l, exclude (range 0 100) [range 50 60; range 10 20] = Ok l ∧ chain (start (range 0 100)) l ∧
    ∀ x, (∃ r, r ∈ l ∧ contains r x = true) ↔ contains (range 0 100) x = true ∧
      Forall (λ e, contains e x = false) [range 50 60; range 10 20].
Proof.
  split; [reflexivity|].
  apply (exclude_difference (range 0 100) [range 50 60; range 10 20]).
  - split; [done|split; [done|simpl; lia]].
  - repeat constructor; simpl; lia.
Defined.

End AddrRangeProps.
