(* ===== verification/SatCounter.v ===== *)
(** * base/sat_counter.hh: saturating counters

    [GenericSatCounter<T>] for an unsigned [T] of [w] bits.  Assignments to the
    counter keep [w] bits; narrower types are promoted to a 32-bit [int] before a
    shift, so a shift by the promoted width or more is undefined. *)

From Stdlib Require Import ZArith Lia.
From stdpp Require Import base numbers option list.
From S2P Require Import Prelude.

Module SatCounter.

Record SatCounter := mkSat {
  initialVal : Z;
  maxVal : Z;
  counter : Z
}.

#[global] Instance SatCounter_eq_dec : EqDecision SatCounter.
Proof. solve_decision. Defined.

Definition with_counter (c : SatCounter) (v : Z) : SatCounter :=
  mkSat (initialVal c) (maxVal c) v.

(** GenericSatCounter(bits, initial_val): [1ULL << bits] is evaluated before the
    checks of the body. *)
Definition SatCounter_new (w bits initial_val : Z) : result SatCounter :=
  if 64 <=? bits then Err Undefined
  else
    let maxv := wrap w (u64 (1 .<< bits) - 1) in
    _ ← fatal_if (w <? bits);
    _ ← fatal_if (maxv <? initial_val);
    Ok (mkSat initial_val maxv initial_val).

(** The counter a moved-from object is left with: GenericSatCounter(0). *)
Definition moved_from : SatCounter := mkSat 0 0 0.

(** Copy construction and assignment; the move leaves [moved_from] behind. *)
Definition copy (other : SatCounter) : SatCounter :=
  mkSat (initialVal other) (maxVal other) (counter other).
Definition swap (this other : SatCounter) : SatCounter * SatCounter := (other, this).
Definition assign (this other : SatCounter) : SatCounter :=
  let temp := copy other in (swap this temp).1.
Definition move (other : SatCounter) : SatCounter * SatCounter :=
  let this := copy other in
  let temp := moved_from in
  (this, (swap other temp).1).

(** operator++ and operator-- (prefix); the postfix forms also return the old value. *)
Definition inc (c : SatCounter) : SatCounter :=
  if counter c <? maxVal c then with_counter c (counter c + 1) else c.
Definition post_inc (c : SatCounter) : SatCounter * SatCounter := (c, inc c).
Definition dec (c : SatCounter) : SatCounter :=
  if 0 <? counter c then with_counter c (counter c - 1) else c.
Definition post_dec (c : SatCounter) : SatCounter * SatCounter := (c, dec c).

(** The width an operand of [w] bits is shifted at. *)
Definition promoted (w : Z) : Z := Z.max w 32.

(** operator>>= and operator<<= *)
Definition shr (w : Z) (c : SatCounter) (shift : Z) : result SatCounter :=
  _ ← assert_ok (0 <=? shift);
  if promoted w <=? shift then Err Undefined
  else Ok (with_counter c (counter c .>> shift)).

Definition shl (w : Z) (c : SatCounter) (shift : Z) : result SatCounter :=
  _ ← assert_ok (0 <=? shift);
  if promoted w <=? shift then Err Undefined
  else
    let c := with_counter c (wrap w (counter c .<< shift)) in
    Ok (if maxVal c <? counter c then with_counter c (maxVal c) else c).

(** operator+= and operator-=: each hands a negative value to the other. *)
Definition add_pos (w : Z) (c : SatCounter) (value : Z) : SatCounter :=
  if value <=? maxVal c - counter c then with_counter c (wrap w (counter c + value))
  else with_counter c (maxVal c).

Definition sub_pos (w : Z) (c : SatCounter) (value : Z) : SatCounter :=
  if value <? counter c then with_counter c (wrap w (counter c - value))
  else with_counter c 0.

(** The negation of the least long long overflows. *)
Definition neg_ll (value : Z) : result Z :=
  if value =? - 2 ^ 63 then Err Undefined else Ok (- value).

Definition add (w : Z) (c : SatCounter) (value : Z) : result SatCounter :=
  if 0 <=? value then Ok (add_pos w c value)
  else v ← neg_ll value; Ok (sub_pos w c v).

Definition sub (w : Z) (c : SatCounter) (value : Z) : result SatCounter :=
  if 0 <=? value then Ok (sub_pos w c value)
  else v ← neg_ll value; Ok (add_pos w c v).

Definition value (c : SatCounter) : Z := counter c.
Definition reset (c : SatCounter) : SatCounter := with_counter c (initialVal c).
Definition isSaturated (c : SatCounter) : bool := counter c =? maxVal c.

(** saturate() returns how far the counter was from its maximum. *)
Definition saturate (w : Z) (c : SatCounter) : Z * SatCounter :=
  (wrap w (maxVal c - counter c), with_counter c (maxVal c)).

(** ** The invariant *)

Definition sat_ok (w : Z) (c : SatCounter) : Prop :=
  0 <= initialVal c <= maxVal c ∧ 0 <= counter c <= maxVal c ∧ maxVal c < 2 ^ w.

Lemma sat_with_counter w c v : sat_ok w c → 0 <= v <= maxVal c → sat_ok w (with_counter c v).
Proof. unfold sat_ok. simpl. lia. Qed.

Lemma SatCounter_new_ok w bits v c : 0 < w <= 64 → 0 <= bits → 0 <= v →
  SatCounter_new w bits v = Ok c →
  sat_ok w c ∧ maxVal c = 2 ^ bits - 1 ∧ counter c = v ∧ initialVal c = v.
Proof.
  intros Hw Hb Hv H. unfold SatCounter_new in H.
  destruct (Z.leb_spec 64 bits); [done|].
  destruct (Z.ltb_spec w bits); [done|]. cbn [fatal_if mbind result_bind] in H.
  assert (0 < 2 ^ bits <= 2 ^ w) as Hp.
  { split; [by apply pow2_pos|apply Z.pow_le_mono_r; lia]. }
  assert (2 ^ w <= 2 ^ 64) by (apply Z.pow_le_mono_r; lia).
  assert (2 ^ bits < 2 ^ 64) by (apply Z.pow_lt_mono_r; lia).
  rewrite Z.shiftl_1_l, (wrap_small 64 (2 ^ bits)), (wrap_small w) in H by (unfold fits; lia).
  destruct (Z.ltb_spec (2 ^ bits - 1) v); [done|]. cbn in H. injection H as <-.
  unfold sat_ok. simpl. lia.
Qed.

Lemma inc_ok w c : sat_ok w c → sat_ok w (inc c).
Proof.
  intros Hc. unfold inc. destruct (Z.ltb_spec (counter c) (maxVal c)); [|done].
  apply sat_with_counter; [done|]. unfold sat_ok in Hc. lia.
Qed.

Lemma dec_ok w c : sat_ok w c → sat_ok w (dec c).
Proof.
  intros Hc. unfold dec. destruct (Z.ltb_spec 0 (counter c)); [|done].
  apply sat_with_counter; [done|]. unfold sat_ok in Hc. lia.
Qed.

Lemma inc_maxVal c : maxVal (inc c) = maxVal c.
Proof. unfold inc. by destruct (_ <? _). Qed.
Lemma dec_maxVal c : maxVal (dec c) = maxVal c.
Proof. unfold dec. by destruct (_ <? _). Qed.

Lemma inc_counter w c : sat_ok w c → counter (inc c) = Z.min (maxVal c) (counter c + 1).
Proof.
  unfold sat_ok, inc. intros Hc. destruct (Z.ltb_spec (counter c) (maxVal c)); simpl; lia.
Qed.

Lemma dec_counter w c : sat_ok w c → counter (dec c) = Z.max 0 (counter c - 1).
Proof.
  unfold sat_ok, dec. intros Hc. destruct (Z.ltb_spec 0 (counter c)); simpl; lia.
Qed.

#[export] Hint Resolve inc_ok dec_ok : gem5.

Lemma add_pos_clamp w c v : 0 <= w → sat_ok w c → 0 <= v →
  add_pos w c v = with_counter c (Z.min (maxVal c) (counter c + v)).
Proof.
  unfold sat_ok, add_pos. intros Hw Hc Hv. destruct (Z.leb_spec v (maxVal c - counter c)).
  - f_equal. rewrite wrap_small by (unfold fits; lia). lia.
  - f_equal. lia.
Qed.

Lemma sub_pos_clamp w c v : 0 <= w → sat_ok w c → 0 <= v →
  sub_pos w c v = with_counter c (Z.max 0 (counter c - v)).
Proof.
  unfold sat_ok, sub_pos. intros Hw Hc Hv. destruct (Z.ltb_spec v (counter c)).
  - f_equal. rewrite wrap_small by (unfold fits; lia). lia.
  - f_equal. lia.
Qed.

(** += and -= are clamped addition: for every long long but the least one, += v moves
    the counter to counter + v cut to [0, maxVal], -= v is += of -v, and both keep the
    invariant; the least long long is undefined for both. *)
Theorem add_sub_clamped w c v : 0 < w → sat_ok w c → - 2 ^ 63 <= v < 2 ^ 63 →
  let clamped := with_counter c (Z.max 0 (Z.min (maxVal c) (counter c + v))) in
  (v ≠ - 2 ^ 63 → add w c v = Ok clamped ∧ sub w c (- v) = Ok clamped ∧ sat_ok w clamped) ∧
  (v = - 2 ^ 63 → add w c v = Err Undefined ∧ sub w c v = Err Undefined).
Proof.
  intros Hw Hc Hv clamped. unfold add, sub, neg_ll. split; intros Hne.
  - rewrite Z.opp_involutive. pose proof Hc as Hc'. unfold sat_ok in Hc'.
    assert (sat_ok w clamped) by (apply sat_with_counter; [done|lia]).
    destruct (Z.leb_spec 0 v), (Z.leb_spec 0 (- v)); try lia.
    + assert (v = 0) as -> by lia. simpl. rewrite add_pos_clamp, sub_pos_clamp by (done || lia).
      split; [|split]; [..|done]; unfold clamped; do 2 f_equal; lia.
    + destruct (Z.eqb_spec (- v) (- 2 ^ 63)); [lia|]. simpl.
      rewrite add_pos_clamp by (done || lia).
      split; [|split]; [..|done]; unfold clamped; do 2 f_equal; lia.
    + destruct (Z.eqb_spec v (- 2 ^ 63)); [lia|]. simpl.
      rewrite !sub_pos_clamp by (done || lia).
      split; [|split]; [..|done]; unfold clamped; do 2 f_equal; lia.
  - subst v. done.
Qed.

Lemma add_sub_clamped_witness :
  add 8 (mkSat 0 63 60) 10 = Ok (mkSat 0 63 63) ∧ sub 8 (mkSat 0 63 60) (- 10) = Ok (mkSat 0 63 63) ∧
  add 8 (mkSat 0 63 60) (- 61) = Ok (mkSat 0 63 0).
Proof.
  assert (sat_ok 8 (mkSat 0 63 60)) as Hok by (unfold sat_ok; simpl; lia).
  destruct (add_sub_clamped 8 (mkSat 0 63 60) 10 ltac:(lia) Hok ltac:(lia)) as [H1 _].
  destruct (H1 ltac:(lia)) as (Ha & Hb & _). split; [exact Ha|split; [exact Hb|reflexivity]].
Defined.

(** The shift that saturates is exact while the product fits the counter's type. *)
Lemma shl_clamp w c shift : 0 < w → sat_ok w c → 0 <= shift < promoted w →
  counter c * 2 ^ shift < 2 ^ w →
  shl w c shift = Ok (with_counter c (Z.min (maxVal c) (counter c * 2 ^ shift))).
Proof.
  intros Hw Hc Hs Hlt. unfold shl. destruct (Z.leb_spec 0 shift); [|lia].
  cbn [assert_ok mbind result_bind]. destruct (Z.leb_spec (promoted w) shift); [lia|].
  rewrite Z.shiftl_mul_pow2 by lia. unfold sat_ok in Hc.
  assert (0 < 2 ^ shift) by (apply pow2_pos; lia).
  rewrite wrap_small by (unfold fits; nia). cbv zeta. simpl. f_equal.
  destruct (Z.ltb_spec (maxVal c) (counter c * 2 ^ shift)); unfold with_counter; simpl; f_equal; lia.
Qed.

(** <<= cuts the shifted value to the counter's type before it compares it with the
    maximum, so a shift that overflows the type does not saturate: a 6-bit counter in a
    byte at 33, shifted by 3, becomes 8 and not 63. *)
Theorem shl_does_not_saturate :
  ∃ c, SatCounter_new 8 6 33 = Ok c ∧ shl 8 c 3 = Ok (with_counter c 8) ∧ maxVal c = 63.
Proof. eexists. split; [reflexivity|]. split; reflexivity. Qed.

End SatCounter.
