(* ===== verification/Clocked.v ===== *)
(** * sim/clocked_object.hh, sim/clock_domain.cc: clocks

    A [Clocked] object keeps the tick and the number of its last computed clock edge and
    brings them up to date when it is asked; a clock domain sets the period of its
    members after it has brought them up to date at the old one. *)

From Stdlib Require Import ZArith Lia.
From stdpp Require Import base numbers option list.
From S2P Require Import Prelude IntMath.

Module Clocked.
Import IntMath.

Record Clocked := mkClocked {
  tick : Z;
  cycle : Z
}.

Definition Clocked_new : Clocked := mkClocked 0 0.

(** Clocked::update, with [period] the clock period and [now] the current tick. *)
Definition update (period now : Z) (c : Clocked) : Clocked :=
  if now <=? tick c then c
  else
    let c := mkClocked (u64 (tick c + period)) (u64 (cycle c + 1)) in
    if now <=? tick c then c
    else
      let elapsedCycles := divCeil 64 (u64 (now - tick c)) period in
      mkClocked (u64 (tick c + u64 (elapsedCycles * period))) (u64 (cycle c + elapsedCycles)).

Definition resetClock (period now : Z) (c : Clocked) : Clocked :=
  let elapsedCycles := divCeil 64 now period in
  mkClocked (u64 (elapsedCycles * period)) elapsedCycles.

(** clockEdge, curCycle and nextCycle update the object and read it. *)
Definition clockEdge (period now cycles : Z) (c : Clocked) : Z * Clocked :=
  let c := update period now c in (u64 (tick c + u64 (period * cycles)), c).

Definition curCycle (period now : Z) (c : Clocked) : Z * Clocked :=
  let c := update period now c in (cycle c, c).

Definition nextCycle (period now : Z) (c : Clocked) : Z * Clocked := clockEdge period now 1 c.

Definition ticksToCycles (period t : Z) : Z := divCeil 64 t period.
Definition cyclesToTicks (period c : Z) : Z := u64 (period * c).

(** ** Clock domains

    A domain has a period and members; the derived domains of a source form a tree, each
    with the divider it applies to its parent's period. *)

Inductive DerivedClockDomain :=
  | Derived (period clockDivider : Z) (members : list Clocked) (children : list DerivedClockDomain).

Record SrcClockDomain := mkSrc {
  src_period : Z;
  freqOpPoints : list Z;
  perfLevel_ : Z;
  members : list Clocked;
  children : list DerivedClockDomain
}.

(** The period and the dividing constructor's check. *)
Definition Derived_new (parent_period divider : Z) : result DerivedClockDomain :=
  if divider <? 1 then Err Fatal else Ok (Derived (u64 (parent_period * divider)) divider [] []).

(** DerivedClockDomain::updateClockPeriod *)
Fixpoint derived_updateClockPeriod (now parent_period : Z) (d : DerivedClockDomain)
    : DerivedClockDomain :=
  match d with
  | Derived p div ms ch =>
      let ms := update p now <$> ms in
      let p := u64 (parent_period * div) in
      Derived p div ms (List.map (derived_updateClockPeriod now p) ch)
  end.

(** SrcClockDomain::clockPeriod(clock_period) *)
Definition clockPeriod_set (now clock_period : Z) (d : SrcClockDomain) : result SrcClockDomain :=
  if clock_period =? 0 then Err Fatal
  else
    let ms := update (src_period d) now <$> members d in
    Ok (mkSrc clock_period (freqOpPoints d) (perfLevel_ d) ms
         (List.map (derived_updateClockPeriod now clock_period) (children d))).

Definition validPerfLevel (d : SrcClockDomain) (l : Z) : bool :=
  l <? Z.of_nat (length (freqOpPoints d)).

(** signalPerfLevelUpdate; the voltage domain's sanitiseVoltages does not touch the
    clock domain. *)
Definition signalPerfLevelUpdate (now : Z) (d : SrcClockDomain) : result SrcClockDomain :=
  p ← deref (freqOpPoints d !! Z.to_nat (perfLevel_ d));
  clockPeriod_set now p d.

(** perfLevel(perf_level) *)
Definition perfLevel_set (now perf_level : Z) (d : SrcClockDomain) : result SrcClockDomain :=
  _ ← assert_ok (validPerfLevel d perf_level);
  if perf_level =? perfLevel_ d then Ok d
  else signalPerfLevelUpdate now
         (mkSrc (src_period d) (freqOpPoints d) perf_level (members d) (children d)).

(** ** The next clock edge *)

(** [c'] is the first edge of [c]'s clock at or after [now]. *)
Definition next_edge (period now : Z) (c c' : Clocked) : Prop :=
  ∃ k, 0 <= k ∧ tick c' = tick c + k * period ∧ cycle c' = cycle c + k ∧
    now <= tick c' ∧ (0 < k → tick c' - period < now).

(** Far enough from the end of time for the sums not to wrap. *)
Definition no_wrap (period now : Z) (c : Clocked) : Prop :=
  0 < period ∧ 0 <= tick c ∧ 0 <= cycle c ∧ 0 <= now ∧
  Z.max now (tick c) + 2 * period < 2 ^ 64 ∧ cycle c + Z.max 0 (now - tick c) < 2 ^ 64.

Lemma update_next_edge period now c : no_wrap period now c →
  next_edge period now c (update period now c).
Proof.
  intros (Hp & Ht & Hc & Hn & Hmax & Hcy). unfold update. cbv zeta. cbn [tick cycle].
  destruct (Z.leb_spec now (tick c)).
  { exists 0. lia. }
  rewrite (wrap_small 64 (tick c + period)), (wrap_small 64 (cycle c + 1)) by (unfold fits; lia).
  destruct (Z.leb_spec now (tick c + period)).
  { exists 1. cbn [tick cycle]. lia. }
  rewrite (wrap_small 64 (now - _)) by (unfold fits; lia).
  destruct (divCeil_up 64 (now - (tick c + period)) period) as [_ Hd]; [lia..|].
  set (e := divCeil 64 _ _) in *.
  assert (0 < e) by nia. assert (e <= now - (tick c + period)) by nia.
  rewrite (wrap_small 64 (e * period)), !wrap_small by (unfold fits; nia).
  exists (e + 1). cbn [tick cycle]. nia.
Qed.

Lemma next_edge_unique period now c c1 c2 : 0 < period →
  next_edge period now c c1 → next_edge period now c c2 → c1 = c2.
Proof.
  intros Hp (k1 & Hk1 & Ht1 & Hc1 & Hn1 & Hm1) (k2 & Hk2 & Ht2 & Hc2 & Hn2 & Hm2).
  assert (k1 = k2) as ->.
  { destruct (Z.lt_trichotomy k1 k2) as [|[|]]; [|done|]; nia. }
  destruct c1, c2; simpl in *. by subst.
Qed.

(** Asking for the time at intermediate ticks does not change the answer: updating at
    [t1] and later at [t2] gives the same edge and cycle count as updating at [t2] only,
    and that edge is the first one at or after [t2]. *)
Theorem update_lazy period t1 t2 c : t1 <= t2 → no_wrap period t1 c → no_wrap period t2 c →
  update period t2 (update period t1 c) = update period t2 c ∧
  next_edge period t2 c (update period t2 c).
Proof.
  intros Ht H1 H2. pose proof (update_next_edge period t2 c H2) as He2.
  split; [|done].
  destruct (update_next_edge period t1 c H1) as (k1 & Hk1 & Ht1 & Hc1 & Hn1 & Hm1).
  set (c1 := update period t1 c) in *.
  assert (no_wrap period t2 c1 ∨ t2 <= tick c1) as [H3|H3].
  { destruct (Z.le_gt_cases t2 (tick c1)); [by right|left].
    destruct H2 as (Hp & Hc & Hcy & Hn2 & Hmax & Hcc). unfold no_wrap. nia. }
  - destruct (update_next_edge period t2 c1 H3) as (k & Hk & Ht' & Hc' & Hn' & Hm').
    eapply (next_edge_unique period t2 c); [apply H2| |done].
    destruct (decide (k = 0)) as [->|].
    + exists k1. destruct H2 as (Hp & _). nia.
    + exists (k1 + k). nia.
  - assert (update period t2 c1 = c1) as ->.
    { unfold update. destruct (Z.leb_spec t2 (tick c1)); [done|lia]. }
    eapply (next_edge_unique period t2 c); [apply H2| |done].
    exists k1. lia.
Qed.

Lemma update_lazy_witness :
  update 500 4999 (update 500 1234 Clocked_new) = mkClocked 5000 10 ∧
  next_edge 500 4999 Clocked_new (update 500 4999 Clocked_new).
Proof.
  assert (no_wrap 500 1234 Clocked_new ∧ no_wrap 500 4999 Clocked_new) as [H1 H2]
    by (unfold no_wrap; simpl; lia).
  destruct (update_lazy 500 1234 4999 Clocked_new ltac:(lia) H1 H2) as [He Hn].
  split; [exact He|exact Hn].
Defined.

(** ** Changing the period *)

(** A derived domain retimed to a parent period: its members moved to their next edge at
    its old period, its period the product, and its children retimed to that. *)
Inductive retimed (now : Z) : Z → DerivedClockDomain → DerivedClockDomain → Prop :=
  | Retimed pp p div ms ms' ch ch' :
      Forall2 (next_edge p now) ms ms' →
      Forall2 (retimed now (u64 (pp * div))) ch ch' →
      retimed now pp (Derived p div ms ch) (Derived (u64 (pp * div)) div ms' ch').

Inductive domain_ok (now : Z) : DerivedClockDomain → Prop :=
  | Domain_ok p div ms ch :
      Forall (no_wrap p now) ms → Forall (domain_ok now) ch → domain_ok now (Derived p div ms ch).

Lemma update_members p now ms : Forall (no_wrap p now) ms →
  Forall2 (next_edge p now) ms (update p now <$> ms).
Proof.
  intros Hm. apply Forall2_fmap_r, Forall_Forall2_diag. eapply Forall_impl; [exact Hm|].
  intros c Hc. by apply update_next_edge.
Qed.

Lemma derived_update_retimed now : ∀ d pp, domain_ok now d →
  retimed now pp d (derived_updateClockPeriod now pp d).
Proof.
  fix IH 1. intros [p div ms ch] pp Hd. inversion_clear Hd as [? ? ? ? Hms Hch]. simpl.
  constructor; [by apply update_members|].
  induction ch as [|c ch IHch]; simpl; [constructor|].
  inversion_clear Hch. constructor; [by apply IH|by apply IHch].
Qed.

(** A change of the clock period loses no time: a zero period is fatal; otherwise every
    member of the domain and of the domains derived from it is brought to its next edge
    at the old period before the new one takes effect, and each derived period is the
    parent's new period times the divider. *)
Theorem clockPeriod_set_retimes now p d :
  Forall (no_wrap (src_period d) now) (members d) → Forall (domain_ok now) (children d) →
  match clockPeriod_set now p d with
  | Err f => f = Fatal ∧ p = 0
  | Ok d' =>
      p ≠ 0 ∧ src_period d' = p ∧
      Forall2 (next_edge (src_period d) now) (members d) (members d') ∧
      Forall2 (retimed now p) (children d) (children d')
  end.
Proof.
  intros Hm Hc. unfold clockPeriod_set. destruct (Z.eqb_spec p 0); [done|].
  split; [done|]. split; [done|]. cbn. split; [by apply update_members|].
  apply Forall2_fmap_r, Forall_Forall2_diag. eapply Forall_impl; [exact Hc|].
  intros c. apply derived_update_retimed.
Qed.

Lemma clockPeriod_set_retimes_witness :
  let d := mkSrc 500 [250; 500] 1 [Clocked_new] [Derived 1000 2 [mkClocked 1000 1] []] in
  match clockPeriod_set 1234 250 d with
  | Err f => f = Fatal ∧ 250 = 0
  | Ok d' =>
      250 ≠ 0 ∧ src_period d' = 250 ∧
      Forall2 (next_edge (src_period d) 1234) (members d) (members d') ∧
      Forall2 (retimed 1234 250) (children d) (children d')
  end.
Proof.
  apply (clockPeriod_set_retimes 1234 250
    (mkSrc 500 [250; 500] 1 [Clocked_new] [Derived 1000 2 [mkClocked 1000 1] []]));
    repeat constructor; simpl; lia.
Defined.

End Clocked.
