(* ===== verification/ReplPolicies.v ===== *)
(** * mem/cache/replacement_policies: replacement policies

    A [ReplaceableEntry*] is a natural number; the replacement data its
    [replacementData] pointer leads to is looked up in a heap, so that a policy changes
    the data of an entry in place.  [now] is [curTick()]; a random draw is an argument.
    The interface [Policy] is what a policy promises to the tags: of a non-empty list of
    candidates whose data it knows it returns one. *)

From Stdlib Require Import ZArith Lia.
From stdpp Require Import base numbers option list gmap.
From S2P Require Import Prelude SatCounter.

Module ReplPolicies.
Import SatCounter.

Abbreviation heap := (gmap nat).

(** [upd h e f] rewrites the replacement data of entry [e]. *)
Definition upd {D} (h : heap D) (e : nat) (f : D → D) : result (heap D) :=
  d ← deref (h !! e); Ok (<[e := f d]> h).

(** The loop of the policies that compare each candidate with the victim so far. *)
Fixpoint scan {D} (better : D → D → bool) (h : heap D) (victim : nat) (cands : list nat)
    : result nat :=
  match cands with
  | [] => Ok victim
  | c :: cands =>
      dc ← deref (h !! c);
      dv ← deref (h !! victim);
      scan better h (if better dc dv then c else victim) cands
  end.

Definition getVictim_by {D} (better : D → D → bool) (h : heap D) (cands : list nat) : result nat :=
  match cands with
  | [] => Err AssertFailed
  | victim :: _ => scan better h victim cands
  end.

(** ** LRU, BIP and WeightedLRU *)

Record LRUReplData := mkLRU { lastTouchTick : Z }.

Definition lru_instantiateEntry : LRUReplData := mkLRU 0.
Definition lru_invalidate (h : heap LRUReplData) (e : nat) := upd h e (λ _, mkLRU 0).
Definition lru_touch (now : Z) (h : heap LRUReplData) (e : nat) := upd h e (λ _, mkLRU now).
Definition lru_reset (now : Z) (h : heap LRUReplData) (e : nat) := upd h e (λ _, mkLRU now).
Definition lru_better (c v : LRUReplData) : bool := lastTouchTick c <? lastTouchTick v.
Definition lru_getVictim (h : heap LRUReplData) (cands : list nat) := getVictim_by lru_better h cands.

(** BIP::reset, with [draw] the result of random(1, 100) and [btp] the throttle. *)
Definition bip_reset (now btp draw : Z) (h : heap LRUReplData) (e : nat) :=
  upd h e (λ _, if draw <=? btp then mkLRU now else mkLRU 1).

Record WeightedLRUReplData := mkWLRU { wl_lastTouchTick : Z; last_occ_ptr : Z }.

Definition wlru_instantiateEntry : WeightedLRUReplData := mkWLRU 0 0.
Definition wlru_touch (now occupancy : Z) (h : heap WeightedLRUReplData) (e : nat) :=
  upd h e (λ _, mkWLRU now occupancy).
Definition wlru_better (c v : WeightedLRUReplData) : bool :=
  if last_occ_ptr c <? last_occ_ptr v then true
  else if last_occ_ptr c =? last_occ_ptr v then wl_lastTouchTick c <? wl_lastTouchTick v
  else false.
Definition wlru_getVictim (h : heap WeightedLRUReplData) (cands : list nat) :=
  getVictim_by wlru_better h cands.

(** ** MRU: the first invalid candidate, or the latest touched *)

Definition mru_invalidate (h : heap LRUReplData) (e : nat) := upd h e (λ _, mkLRU 0).
Definition mru_touch (now : Z) (h : heap LRUReplData) (e : nat) := upd h e (λ _, mkLRU now).
Definition mru_reset (now : Z) (h : heap LRUReplData) (e : nat) := upd h e (λ _, mkLRU now).

Fixpoint mru_scan (h : heap LRUReplData) (victim : nat) (cands : list nat) : result nat :=
  match cands with
  | [] => Ok victim
  | c :: cands =>
      dc ← deref (h !! c);
      if lastTouchTick dc =? 0 then Ok c
      else
        dv ← deref (h !! victim);
        mru_scan h (if lastTouchTick dv <? lastTouchTick dc then c else victim) cands
  end.

Definition mru_getVictim (h : heap LRUReplData) (cands : list nat) : result nat :=
  match cands with
  | [] => Err AssertFailed
  | victim :: _ => mru_scan h victim cands
  end.

(** ** LFU: the reference count is an unsigned int *)

Record LFUReplData := mkLFU { refCount : Z }.

Definition lfu_instantiateEntry : LFUReplData := mkLFU 0.
Definition lfu_invalidate (h : heap LFUReplData) (e : nat) := upd h e (λ _, mkLFU 0).
Definition lfu_touch (h : heap LFUReplData) (e : nat) := upd h e (λ d, mkLFU (u32 (refCount d + 1))).
Definition lfu_reset (h : heap LFUReplData) (e : nat) := upd h e (λ _, mkLFU 1).
Definition lfu_better (c v : LFUReplData) : bool := refCount c <? refCount v.
Definition lfu_getVictim (h : heap LFUReplData) (cands : list nat) := getVictim_by lfu_better h cands.

(** ** Random *)

Record RandomReplData := mkRandom { rd_valid : bool }.

Definition random_instantiateEntry : RandomReplData := mkRandom false.
Definition random_invalidate (h : heap RandomReplData) (e : nat) := upd h e (λ _, mkRandom false).
Definition random_reset (h : heap RandomReplData) (e : nat) := upd h e (λ _, mkRandom true).

Fixpoint first_invalid (h : heap RandomReplData) (victim : nat) (cands : list nat) : result nat :=
  match cands with
  | [] => Ok victim
  | c :: cands => dc ← deref (h !! c); if negb (rd_valid dc) then Ok c else first_invalid h victim cands
  end.

(** [draw] is the result of random(0, candidates.size() - 1). *)
Definition random_getVictim (draw : Z) (h : heap RandomReplData) (cands : list nat) : result nat :=
  _ ← assert_ok (negb (bool_decide (cands = [])));
  victim ← deref (cands !! Z.to_nat draw);
  first_invalid h victim cands.

(** ** FIFO and SecondChance: the policy counts its insertions *)

Record FIFOState := mkFIFO { timeTicks : Z; fifo_heap : heap Z }.

Definition fifo_instantiateEntry : Z := 0.

(** tickInserted = ++timeTicks *)
Definition fifo_stamp (s : FIFOState) (e : nat) : result FIFOState :=
  let t := u64 (timeTicks s + 1) in
  h ← upd (fifo_heap s) e (λ _, t);
  Ok (mkFIFO t h).

Definition fifo_invalidate (s : FIFOState) (e : nat) : result FIFOState := fifo_stamp s e.
Definition fifo_touch (s : FIFOState) (e : nat) : result FIFOState := Ok s.
Definition fifo_reset (s : FIFOState) (e : nat) : result FIFOState := fifo_stamp s e.
Definition fifo_getVictim (s : FIFOState) (cands : list nat) : result nat :=
  getVictim_by Z.ltb (fifo_heap s) cands.

Record SecondChanceReplData := mkSC { tickInserted : Z; hasSecondChance : bool }.
Record SCState := mkSCState { sc_timeTicks : Z; sc_heap : heap SecondChanceReplData }.

Definition sc_instantiateEntry : SecondChanceReplData := mkSC 0 false.

(** FIFO::reset on the base data, then the second chance bit. *)
Definition sc_stamp (s : SCState) (e : nat) : result SCState :=
  let t := u64 (sc_timeTicks s + 1) in
  h ← upd (sc_heap s) e (λ _, mkSC t false);
  Ok (mkSCState t h).

Definition useSecondChance (s : SCState) (e : nat) : result SCState := sc_stamp s e.
Definition sc_invalidate (s : SCState) (e : nat) : result SCState := sc_stamp s e.
Definition sc_reset (s : SCState) (e : nat) : result SCState := sc_stamp s e.
Definition sc_touch (s : SCState) (e : nat) : result SCState :=
  h ← upd (sc_heap s) e (λ d, mkSC (tickInserted d) true);
  Ok (mkSCState (sc_timeTicks s) h).

Definition sc_better (c v : SecondChanceReplData) : bool := tickInserted c <? tickInserted v.

(** The first candidate that was never inserted and has no second chance. *)
Fixpoint sc_invalid (h : heap SecondChanceReplData) (cands : list nat) : result (option nat) :=
  match cands with
  | [] => Ok None
  | c :: cands =>
      dc ← deref (h !! c);
      if (tickInserted dc =? 0) && negb (hasSecondChance dc) then Ok (Some c) else sc_invalid h cands
  end.

(** The while loop: each round takes the second chance of the oldest candidate away. *)
Fixpoint sc_loop (fuel : nat) (s : SCState) (cands : list nat) : result (nat * SCState) :=
  match fuel with
  | O => Err OutOfFuel
  | S fuel =>
      victim ← getVictim_by sc_better (sc_heap s) cands;
      d ← deref (sc_heap s !! victim);
      if hasSecondChance d then
        s ← useSecondChance s victim;
        sc_loop fuel s cands
      else Ok (victim, s)
  end.

Definition sc_getVictim (s : SCState) (cands : list nat) : result (nat * SCState) :=
  _ ← assert_ok (negb (bool_decide (cands = [])));
  o ← sc_invalid (sc_heap s) cands;
  match o with
  | Some c => Ok (c, s)
  | None => sc_loop (S (length cands)) s cands
  end.

(** ** BRRIP and SHiP: re-reference predictions in saturating counters *)

Record BRRIPReplData := mkBRRIP { rrpv : SatCounter; br_valid : bool }.

Definition brrip_instantiateEntry (numRRPVBits : Z) : result BRRIPReplData :=
  c ← SatCounter_new 8 numRRPVBits 0; Ok (mkBRRIP c false).

Definition brrip_invalidate_data (d : BRRIPReplData) : BRRIPReplData := mkBRRIP (rrpv d) false.

Definition brrip_touch_data (hitPriority : bool) (d : BRRIPReplData) : BRRIPReplData :=
  if hitPriority then mkBRRIP (reset (rrpv d)) (br_valid d) else mkBRRIP (dec (rrpv d)) (br_valid d).

(** reset: distant, or long with the probability [btp] draws for. *)
Definition brrip_reset_data (btp draw : Z) (d : BRRIPReplData) : BRRIPReplData :=
  let c := (saturate 8 (rrpv d)).2 in
  mkBRRIP (if draw <=? btp then dec c else c) true.

Definition brrip_invalidate (h : heap BRRIPReplData) (e : nat) := upd h e brrip_invalidate_data.
Definition brrip_touch (hp : bool) (h : heap BRRIPReplData) (e : nat) := upd h e (brrip_touch_data hp).
Definition brrip_reset (btp draw : Z) (h : heap BRRIPReplData) (e : nat) :=
  upd h e (brrip_reset_data btp draw).

(** The search: an invalid candidate at once ([inl]), or the largest RRPV. *)
Fixpoint brrip_scan (h : heap BRRIPReplData) (victim : nat) (victim_RRPV : Z) (cands : list nat)
    : result (nat + nat) :=
  match cands with
  | [] => Ok (inr victim)
  | c :: cands =>
      dc ← deref (h !! c);
      if negb (br_valid dc) then Ok (inl c)
      else
        let candidate_RRPV := counter (rrpv dc) in
        if victim_RRPV <? candidate_RRPV then brrip_scan h c candidate_RRPV cands
        else brrip_scan h victim victim_RRPV cands
  end.

(** rrpv += diff on every candidate. *)
Fixpoint brrip_age (diff : Z) (h : heap BRRIPReplData) (cands : list nat)
    : result (heap BRRIPReplData) :=
  match cands with
  | [] => Ok h
  | c :: cands =>
      dc ← deref (h !! c);
      r ← add 8 (rrpv dc) diff;
      brrip_age diff (<[c := mkBRRIP r (br_valid dc)]> h) cands
  end.

(** The victim's prediction is saturated and the others age as much. *)
Definition brrip_evict (h : heap BRRIPReplData) (cands : list nat) (v : nat)
    : result (nat * heap BRRIPReplData) :=
  dv ← deref (h !! v);
  let '(diff, c) := saturate 8 (rrpv dv) in
  let h := <[v := mkBRRIP c (br_valid dv)]> h in
  h ← (if 0 <? diff then brrip_age diff h cands else Ok h);
  Ok (v, h).

Definition brrip_getVictim (h : heap BRRIPReplData) (cands : list nat)
    : result (nat * heap BRRIPReplData) :=
  match cands with
  | [] => Err AssertFailed
  | victim :: _ =>
      dv ← deref (h !! victim);
      o ← brrip_scan h victim (counter (rrpv dv)) cands;
      match o with
      | inl c => Ok (c, h)
      | inr v => brrip_evict h cands v
      end
  end.

Record SHiPReplData := mkSHiP { ship_base : BRRIPReplData; signature : Z; outcome : bool }.
Record SHiPState := mkSHiPState { SHCT : list SatCounter; ship_heap : heap SHiPReplData }.

Definition setSignature (d : SHiPReplData) (s : Z) : SHiPReplData := mkSHiP (ship_base d) s false.
Definition setReReferenced (d : SHiPReplData) : SHiPReplData := mkSHiP (ship_base d) (signature d) true.

(** SHCT[s]++ or SHCT[s]--; an index past the table is undefined. *)
Definition shct_update (t : list SatCounter) (s : Z) (f : SatCounter → SatCounter)
    : result (list SatCounter) :=
  c ← deref (t !! Z.to_nat s); Ok (<[Z.to_nat s := f c]> t).

Definition ship_invalidate (s : SHiPState) (e : nat) : result SHiPState :=
  d ← deref (ship_heap s !! e);
  t ← (if outcome d then shct_update (SHCT s) (signature d) dec else Ok (SHCT s));
  let d := mkSHiP (brrip_invalidate_data (ship_base d)) (signature d) (outcome d) in
  Ok (mkSHiPState t (<[e := d]> (ship_heap s))).

(** touch with a packet, whose signature is [sig]. *)
Definition ship_touch (hp : bool) (sig : Z) (s : SHiPState) (e : nat) : result SHiPState :=
  d ← deref (ship_heap s !! e);
  t ← shct_update (SHCT s) sig inc;
  let d := setReReferenced d in
  let d := mkSHiP (brrip_touch_data hp (ship_base d)) (signature d) (outcome d) in
  Ok (mkSHiPState t (<[e := d]> (ship_heap s))).

(** calcSaturation() >= threshold: the quotient of two 8-bit values against a number of
    hundredths.  Both sides are correctly rounded quotients of small integers, so the
    order of the doubles is that of the fractions. *)
Definition saturation_ge (c : SatCounter) (hundredths : Z) : bool :=
  hundredths * maxVal c <=? 100 * counter c.

Definition ship_reset (btp draw threshold sig : Z) (s : SHiPState) (e : nat) : result SHiPState :=
  d ← deref (ship_heap s !! e);
  let d := setSignature d sig in
  let b := brrip_reset_data btp draw (ship_base d) in
  c ← deref (SHCT s !! Z.to_nat sig);
  let b := if saturation_ge c threshold then mkBRRIP (dec (rrpv b)) (br_valid b) else b in
  Ok (mkSHiPState (SHCT s) (<[e := mkSHiP b (signature d) (outcome d)]> (ship_heap s))).

(** The overloads without access information. *)
Definition ship_touch_nopkt (s : SHiPState) (e : nat) : result SHiPState := Err Panic.
Definition ship_reset_nopkt (s : SHiPState) (e : nat) : result SHiPState := Err Panic.

(** SHiPMem and SHiPPC *)
Definition NO_PC_SIGNATURE : Z := 0.
Definition ship_mem_signature (addr shct_size : Z) : Z := addr mod shct_size.
Definition ship_pc_signature (pc : option Z) (shct_size : Z) : Z :=
  match pc with Some p => p | None => NO_PC_SIGNATURE end mod shct_size.

End ReplPolicies.
