(* ===== verification/ReplPoliciesProps.v ===== *)
(** * mem/cache/replacement_policies: what the policies promise

    The interface a cache relies on, its instances, and what each policy chooses: the
    minimum of its order for the policies that scan, the head of a queue for FIFO, a
    terminating search for SecondChance, and the largest prediction for BRRIP. *)

From Stdlib Require Import ZArith Lia.
From stdpp Require Import base numbers option list gmap sorting.
From S2P Require Import Prelude SatCounter ReplPolicies.

Module ReplPoliciesProps.
Import SatCounter ReplPolicies.

(** ** The interface *)

Class Policy (S : Type) := {
  getVictim : S → list nat → result (nat * S);
  knows : S → nat → Prop
}.

(** A victim is found, it is a candidate, and no entry is forgotten. *)
Class PolicyLaws (S : Type) `{!Policy S} : Prop :=
  getVictim_candidate s cands : cands ≠ [] → Forall (knows s) cands →
    ∃ v s', getVictim s cands = Ok (v, s') ∧ v ∈ cands ∧ ∀ e, knows s e → knows s' e.

(** ** Scanning for a minimum *)

(** [better] is a strict weak order. *)
Class StrictWeak {D} (better : D → D → bool) : Prop := {
  better_asym x y : better x y = true → better y x = false;
  worse_trans x y z : better x y = false → better y z = false → better x z = false
}.

#[export] Instance ltb_weak : StrictWeak Z.ltb.
Proof. split; intros *; rewrite ?Z.ltb_lt, ?Z.ltb_ge; lia. Qed.
#[export] Instance lru_weak : StrictWeak lru_better.
Proof. unfold lru_better. split; intros *; rewrite ?Z.ltb_lt, ?Z.ltb_ge; lia. Qed.
#[export] Instance lfu_weak : StrictWeak lfu_better.
Proof. unfold lfu_better. split; intros *; rewrite ?Z.ltb_lt, ?Z.ltb_ge; lia. Qed.
#[export] Instance sc_weak : StrictWeak sc_better.
Proof. unfold sc_better. split; intros *; rewrite ?Z.ltb_lt, ?Z.ltb_ge; lia. Qed.

Lemma wlru_better_spec c v : wlru_better c v = true ↔
  last_occ_ptr c < last_occ_ptr v ∨
  last_occ_ptr c = last_occ_ptr v ∧ wl_lastTouchTick c < wl_lastTouchTick v.
Proof.
  unfold wlru_better. destruct (Z.ltb_spec (last_occ_ptr c) (last_occ_ptr v)); [naive_solver|].
  destruct (Z.eqb_spec (last_occ_ptr c) (last_occ_ptr v)); rewrite ?Z.ltb_lt; split; lia || done.
Qed.

#[export] Instance wlru_weak : StrictWeak wlru_better.
Proof.
  split; intros *; rewrite <-?not_true_iff_false, ?wlru_better_spec; lia.
Qed.

Definition known {D} (h : heap D) (e : nat) : Prop := is_Some (h !! e).

(** [v] is a candidate no other candidate is better than. *)
Definition best {D} (better : D → D → bool) (h : heap D) (cands : list nat) (v : nat) : Prop :=
  v ∈ cands ∧ ∀ c dc dv, c ∈ cands → h !! c = Some dc → h !! v = Some dv → better dc dv = false.

Lemma better_irrefl {D} (better : D → D → bool) `{!StrictWeak better} x : better x x = false.
Proof. destruct (better x x) eqn:E; [|done]. by rewrite <-(better_asym x x E). Qed.

Lemma scan_best {D} (better : D → D → bool) `{!StrictWeak better} h cands : ∀ seen victim,
  known h victim → Forall (known h) cands → best better h seen victim →
  ∃ v, scan better h victim cands = Ok v ∧ best better h (seen ++ cands) v.
Proof.
  induction cands as [|c cands IH]; intros seen victim Hv Hc Hb.
  { exists victim. by rewrite app_nil_r. }
  apply Forall_cons in Hc as [[dc Hc] Hcs]. destruct Hv as [dv Hv].
  simpl. rewrite Hc, Hv. cbn [deref mbind result_bind].
  replace (seen ++ c :: cands) with ((seen ++ [c]) ++ cands) by by rewrite <-app_assoc.
  destruct Hb as [Hin Hb]. apply IH; [destruct (better dc dv); by eexists|done|].
  destruct (better dc dv) eqn:Hbt; (split; [set_solver|]).
  - intros x dx dc' [Hx| ->%list_elem_of_singleton]%elem_of_app Hdx Hdc; simplify_eq.
    + apply (worse_trans dx dv dc); [by apply (Hb x)|by apply better_asym].
    + by apply better_irrefl.
  - intros x dx dv' [Hx| ->%list_elem_of_singleton]%elem_of_app Hdx Hdv; simplify_eq; [|done].
    by apply (Hb x).
Qed.

Lemma getVictim_by_best {D} (better : D → D → bool) `{!StrictWeak better} h cands :
  cands ≠ [] → Forall (known h) cands →
  ∃ v, getVictim_by better h cands = Ok v ∧ best better h cands v.
Proof.
  intros Hne Hk. destruct cands as [|c cands]; [done|]. pose proof Hk as [Hc Hcs]%Forall_cons.
  unfold getVictim_by.
  destruct (scan_best better h (c :: cands) [c] c Hc Hk) as (v & Hv & Hin & Hb).
  - split; [set_solver|]. intros x dc dv ->%list_elem_of_singleton ? ?. simplify_eq.
    by apply better_irrefl.
  - exists v. split; [done|]. split; [set_solver|]. intros x dx dv Hx. apply Hb. set_solver.
Qed.

Lemma upd_known {D} (h : heap D) e (f : D → D) : known h e →
  ∃ d, h !! e = Some d ∧ upd h e f = Ok (<[e := f d]> h).
Proof. intros [d Hd]. exists d. split; [done|]. unfold upd. by rewrite Hd. Qed.

(** ** LRU *)

(** After a touch LRU does not evict the entry while another candidate was last
    touched earlier; after an invalidation the victim is an entry of tick 0, as the
    invalidated one is.  In every state the victim is the candidate whose last touch is
    the earliest. *)
Theorem lru_victim_least_recent now h cands e : (e ∈ cands) → Forall (known h) cands →
  (∀ c d, c ∈ cands → h !! c = Some d → 0 <= lastTouchTick d) →
  (∃ v, lru_getVictim h cands = Ok v ∧ best lru_better h cands v) ∧
  (∃ h' v, lru_touch now h e = Ok h' ∧ lru_getVictim h' cands = Ok v ∧
     ((∃ c d, c ∈ cands ∧ c ≠ e ∧ h !! c = Some d ∧ lastTouchTick d < now) → v ≠ e)) ∧
  (∃ h' v d, lru_invalidate h e = Ok h' ∧ lru_getVictim h' cands = Ok v ∧
     h' !! v = Some d ∧ lastTouchTick d = 0).
Proof.
  intros He Hk H0. assert (cands ≠ []) as Hne by (by intros ->; apply not_elem_of_nil in He).
  assert (known h e) as Hke by by eapply Forall_forall.
  assert (∀ d, Forall (known (<[e := d]> h)) cands) as Hk'.
  { intros d. eapply Forall_impl; [exact Hk|]. intros c Hc. unfold known.
    destruct (decide (c = e)) as [->|]; [by rewrite lookup_insert_eq|].
    by rewrite lookup_insert_ne. }
  split; [|split].
  - by apply (getVictim_by_best lru_better).
  - unfold lru_touch. destruct (upd_known h e (λ _, mkLRU now) Hke) as (d & Hd & ->).
    destruct (getVictim_by_best lru_better _ cands Hne (Hk' (mkLRU now))) as (v & Hv & Hin & Hb).
    exists (<[e := mkLRU now]> h), v. split; [done|split; [done|]].
    intros (c & dc & Hc & Hce & Hdc & Hlt) ->.
    specialize (Hb c dc (mkLRU now) Hc).
    rewrite lookup_insert_ne, lookup_insert_eq in Hb by done.
    specialize (Hb Hdc eq_refl). unfold lru_better in Hb. bool_prop. simpl in *. lia.
  - unfold lru_invalidate. destruct (upd_known h e (λ _, mkLRU 0) Hke) as (d & Hd & ->).
    destruct (getVictim_by_best lru_better _ cands Hne (Hk' (mkLRU 0))) as (v & Hv & Hin & Hb).
    assert (known (<[e := mkLRU 0]> h) v) as [dv Hdv].
    { pose proof (Hk' (mkLRU 0)) as Hf. rewrite Forall_forall in Hf. by apply Hf. }
    exists (<[e := mkLRU 0]> h), v, dv. split; [done|split; [done|split; [done|]]].
    specialize (Hb e (mkLRU 0) dv He). rewrite lookup_insert_eq in Hb.
    specialize (Hb eq_refl Hdv). unfold lru_better in Hb. bool_prop. simpl in Hb.
    destruct (decide (v = e)) as [->|Hve].
    + rewrite lookup_insert_eq in Hdv. by simplify_eq.
    + rewrite lookup_insert_ne in Hdv by done. specialize (H0 v dv Hin Hdv). lia.
Qed.

Lemma known_insert {D} (h : heap D) e d c : known h c → known (<[e := d]> h) c.
Proof.
  intros [x Hx]. unfold known. destruct (decide (c = e)) as [->|].
  - rewrite lookup_insert_eq. by eexists.
  - rewrite lookup_insert_ne by done. by eexists.
Qed.

(** ** MRU *)

(** An invalid candidate if there is one, and the latest touched otherwise. *)
Lemma mru_scan_spec h cands : ∀ seen victim,
  known h victim → Forall (known h) cands →
  best (λ c v, lastTouchTick v <? lastTouchTick c) h seen victim →
  ∃ v, mru_scan h victim cands = Ok v ∧ v ∈ seen ++ cands ∧
    ((∃ d, h !! v = Some d ∧ lastTouchTick d = 0) ∨
     best (λ c v, lastTouchTick v <? lastTouchTick c) h (seen ++ cands) v).
Proof.
  induction cands as [|c cands IH]; intros seen victim Hv Hc Hb.
  { exists victim. rewrite app_nil_r. split; [done|]. split; [apply Hb|by right]. }
  apply Forall_cons in Hc as [[dc Hc] Hcs]. pose proof Hv as [dv Hdv].
  simpl. rewrite Hc. cbn [deref mbind result_bind].
  destruct (Z.eqb_spec (lastTouchTick dc) 0) as [Hz|].
  { exists c. split; [done|]. split; [set_solver|]. left. eauto. }
  rewrite Hdv. cbn [deref mbind result_bind].
  replace (seen ++ c :: cands) with ((seen ++ [c]) ++ cands) by by rewrite <-app_assoc.
  destruct Hb as [Hin Hb]. apply IH; [destruct (_ <? _); by eexists|done|].
  destruct (Z.ltb_spec (lastTouchTick dv) (lastTouchTick dc)); (split; [set_solver|]).
  - intros x dx dc' [Hx| ->%list_elem_of_singleton]%elem_of_app Hdx Hdc; simplify_eq.
    + specialize (Hb x dx dv Hx Hdx Hdv). simpl in Hb. bool_prop. apply Z.ltb_ge. lia.
    + apply Z.ltb_irrefl.
  - intros x dx dv' [Hx| ->%list_elem_of_singleton]%elem_of_app Hdx Hdv'; simplify_eq.
    + by apply (Hb x).
    + by apply Z.ltb_ge.
Qed.

(** ** FIFO *)

Lemma StronglySorted_filter {A} (R : A → A → Prop) (P : A → Prop) `{!∀ x, Decision (P x)} l :
  StronglySorted R l → StronglySorted R (filter P l).
Proof.
  induction 1 as [|x l Hl IH Hx]; [constructor|]. rewrite filter_cons.
  destruct (decide (P x)); [|done]. constructor; [done|].
  apply Forall_forall. intros y [_ Hy]%list_elem_of_filter. rewrite Forall_forall in Hx. auto.
Qed.

Definition older (h : heap Z) (a b : nat) : Prop :=
  ∃ ta tb, h !! a = Some ta ∧ h !! b = Some tb ∧ ta < tb.

(** The entries in order of insertion, each stamped no later than the counter. *)
Definition fifo_repr (s : FIFOState) (q : list nat) : Prop :=
  StronglySorted (older (fifo_heap s)) q ∧
  Forall (λ e, ∃ t, fifo_heap s !! e = Some t ∧ t <= timeTicks s) q.

(** Moving an entry to the back of the queue. *)
Definition to_back (e : nat) (q : list nat) : list nat := filter (λ x, x ≠ e) q ++ [e].

Lemma fifo_stamp_repr s q e : 0 <= timeTicks s → timeTicks s + 1 < 2 ^ 64 →
  known (fifo_heap s) e → fifo_repr s q →
  ∃ s', fifo_stamp s e = Ok s' ∧ fifo_repr s' (to_back e q) ∧ timeTicks s' = timeTicks s + 1.
Proof.
  intros Ht0 Ht He [Hs Hq]. unfold fifo_stamp. rewrite wrap_small by (unfold fits; lia).
  destruct (upd_known (fifo_heap s) e (λ _, timeTicks s + 1) He) as (d & Hd & ->).
  cbn [mbind result_bind]. eexists. split; [done|]. split; [|done]. split; cbn [fifo_heap timeTicks].
  - apply StronglySorted_app. split; [|split; [|repeat constructor]].
    + intros x y [Hx Hxq]%list_elem_of_filter ->%list_elem_of_singleton.
      rewrite Forall_forall in Hq. destruct (Hq x Hxq) as (t & Htx & Hle).
      exists t, (timeTicks s + 1). rewrite lookup_insert_ne, lookup_insert_eq by done.
      split; [done|split; [done|lia]].
    + apply (StronglySorted_filter _ (λ x, x ≠ e)) in Hs.
      assert (Forall (λ x, x ≠ e) (filter (λ x, x ≠ e) q)) as Hf
        by (apply Forall_forall; by intros x [? _]%list_elem_of_filter).
      induction Hs as [|x l Hl IH Hx]; [constructor|]. apply Forall_cons in Hf as [Hxe Hf].
      constructor; [by apply IH|]. apply Forall_forall. intros y Hy.
      rewrite Forall_forall in Hx, Hf. destruct (Hx y Hy) as (tx & ty & Hx1 & Hy1 & Hlt).
      exists tx, ty. rewrite !lookup_insert_ne; [done|by apply not_eq_sym, Hf|done].
  - apply Forall_app. split.
    + apply Forall_forall. intros x [Hx Hxq]%list_elem_of_filter.
      rewrite Forall_forall in Hq. destruct (Hq x Hxq) as (t & Htx & Hle).
      exists t. rewrite lookup_insert_ne by done. split; [done|lia].
    + constructor; [|constructor]. exists (timeTicks s + 1). by rewrite lookup_insert_eq.
Qed.

Lemma fifo_victim_head s q cands : cands ≠ [] → Forall (λ c, c ∈ q) cands → fifo_repr s q →
  ∃ v, fifo_getVictim s cands = Ok v ∧ head (filter (λ x, x ∈ cands) q) = Some v.
Proof.
  intros Hne Hc [Hs Hq]. unfold fifo_getVictim. rewrite Forall_forall in Hq, Hc.
  destruct (getVictim_by_best Z.ltb (fifo_heap s) cands Hne) as (v & Hv & Hin & Hb).
  { apply Forall_forall. intros c Hcc. destruct (Hq c (Hc c Hcc)) as (t & Ht & _). by exists t. }
  exists v. split; [done|].
  apply (StronglySorted_filter _ (λ x, x ∈ cands)) in Hs.
  assert (v ∈ filter (λ x, x ∈ cands) q) as Hvf by (apply list_elem_of_filter; auto).
  destruct (filter (λ x, x ∈ cands) q) as [|w l] eqn:Hf; [by apply not_elem_of_nil in Hvf|].
  apply elem_of_cons in Hvf as [->|Hvl]; [done|exfalso].
  apply StronglySorted_cons in Hs as [Hw _]. rewrite Forall_forall in Hw.
  destruct (Hw v Hvl) as (tw & tv & Htw & Htv & Hlt).
  assert (w ∈ filter (λ x, x ∈ cands) q) as [Hwc _]%list_elem_of_filter by (rewrite Hf; left).
  specialize (Hb w tw tv Hwc Htw Htv). apply Z.ltb_ge in Hb. lia.
Qed.

(** FIFO implements a queue: an insertion moves the entry to the back, a touch changes
    nothing, and the victim is the candidate nearest to the front. *)
Theorem fifo_refines_queue s q e cands : 0 <= timeTicks s → timeTicks s + 1 < 2 ^ 64 →
  fifo_repr s q → e ∈ q → e ∈ cands → Forall (λ c, c ∈ q) cands →
  (∃ v, fifo_getVictim s cands = Ok v ∧ head (filter (λ x, x ∈ cands) q) = Some v) ∧
  fifo_touch s e = Ok s ∧
  (∃ s', fifo_reset s e = Ok s' ∧ fifo_repr s' (to_back e q)).
Proof.
  intros Ht0 Ht Hr He Hec Hc. split; [|split; [done|]].
  - apply fifo_victim_head; [by intros ->; apply not_elem_of_nil in Hec|done..].
  - destruct (fifo_stamp_repr s q e) as (s' & Hs' & Hr' & _); [done..| |done|by eauto].
    destruct Hr as [_ Hq]. rewrite Forall_forall in Hq. destruct (Hq e He) as (t & Hte & _).
    by exists t.
Qed.

(** FIFO's invalidate sends the entry to the back of the queue like an insertion, so
    an invalidated entry is the last one to be evicted: with two candidates the victim
    is the other one. *)
Theorem fifo_invalidate_last s q a b : 0 <= timeTicks s → timeTicks s + 1 < 2 ^ 64 →
  fifo_repr s q → a ∈ q → b ∈ q → a ≠ b →
  ∃ s', fifo_invalidate s a = Ok s' ∧ fifo_getVictim s' [a; b] = Ok b.
Proof.
  intros Ht0 Ht Hr Ha Hb Hab. pose proof Hr as [_ Hq]. rewrite Forall_forall in Hq.
  destruct (Hq a Ha) as (t & Hta & _).
  destruct (fifo_stamp_repr s q a) as (s' & Hs' & Hr' & _); [done..|by exists t|done|].
  exists s'. split; [done|].
  destruct (fifo_victim_head s' (to_back a q) [a; b]) as (v & Hv & Hh); [done| |done|].
  { unfold to_back. repeat constructor; apply elem_of_app; [right; by left|left].
    by apply list_elem_of_filter. }
  rewrite Hv. f_equal. unfold to_back in Hh. rewrite filter_app in Hh.
  assert (b ∈ filter (λ x, x ∈ [a; b]) (filter (λ x, x ≠ a) q)) as Hbf.
  { apply list_elem_of_filter. split; [right; by left|]. by apply list_elem_of_filter. }
  destruct (filter (λ x, x ∈ [a; b]) (filter (λ x, x ≠ a) q)) as [|w l] eqn:Hf;
    [by apply not_elem_of_nil in Hbf|]. simpl in Hh. injection Hh as <-.
  assert (w ∈ filter (λ x, x ∈ [a; b]) (filter (λ x, x ≠ a) q)) as Hw by (rewrite Hf; left).
  apply list_elem_of_filter in Hw as [Hw1 [Hw2 _]%list_elem_of_filter].
  apply elem_of_cons in Hw1 as [?|Hw1%list_elem_of_singleton]; done.
Qed.

(** ** SecondChance *)

(** The candidates that still have their second chance. *)
Definition chance (h : heap SecondChanceReplData) (c : nat) : Prop :=
  ∃ d, h !! c = Some d ∧ hasSecondChance d = true.

#[export] Instance chance_dec h c : Decision (chance h c).
Proof.
  unfold chance. destruct (h !! c) as [d|] eqn:E.
  - destruct (hasSecondChance d) eqn:Eb; [left; eauto|right]. intros (d' & ? & ?). congruence.
  - right. by intros (d' & ? & ?).
Defined.

Definition chances (h : heap SecondChanceReplData) (cands : list nat) : nat :=
  length (filter (chance h) cands).

Lemma chances_insert h e d cands : hasSecondChance d = false →
  (chances (<[e := d]> h) cands <= chances h cands)%nat ∧
  (e ∈ cands → chance h e → chances (<[e := d]> h) cands < chances h cands)%nat.
Proof.
  intros Hd. assert (¬ chance (<[e := d]> h) e) as Hn.
  { intros (d' & Hd' & Ht). rewrite lookup_insert_eq in Hd'. congruence. }
  assert (∀ c, c ≠ e → chance (<[e := d]> h) c ↔ chance h c) as Hiff.
  { intros c Hc. unfold chance. by rewrite lookup_insert_ne. }
  unfold chances. induction cands as [|c cands [IH1 IH2]].
  { split; [done|]. by intros ?%not_elem_of_nil. }
  destruct (decide (c = e)) as [->|Hc].
  - rewrite (filter_cons_False (chance (<[e:=d]> h))) by done.
    destruct (decide (chance h e)) as [Hce|Hce].
    + rewrite (filter_cons_True (chance h)) by done. simpl. split; [lia|]. intros; lia.
    + rewrite (filter_cons_False (chance h)) by done. split; [done|]. done.
  - destruct (decide (chance h c)) as [Hcc|Hcc].
    + rewrite !filter_cons_True by (done || by apply Hiff). simpl. split; [lia|].
      intros [?|?]%elem_of_cons ?; [done|]. specialize (IH2 ltac:(done) ltac:(done)). lia.
    + rewrite !filter_cons_False by (done || by rewrite Hiff). split; [done|].
      intros [?|?]%elem_of_cons ?; [done|]. by apply IH2.
Qed.

(** What the search keeps: entries without a second chance are as they were, and those
    that lost it are stamped later than [T0]. *)
Definition sc_kept (T0 : Z) (h h' : heap SecondChanceReplData) : Prop :=
  ∀ e d, h !! e = Some d → ∃ d', h' !! e = Some d' ∧
    (d' = d ∨ hasSecondChance d = true ∧ hasSecondChance d' = false ∧ T0 < tickInserted d').

Lemma sc_kept_known T0 h h' e : sc_kept T0 h h' → known h e → known h' e.
Proof. intros Hk [d Hd]. destruct (Hk e d Hd) as (d' & ? & _). by exists d'. Qed.

Lemma sc_loop_spec T0 h0 cands fuel : ∀ s,
  cands ≠ [] → Forall (known h0) cands → 0 <= T0 <= sc_timeTicks s →
  sc_kept T0 h0 (sc_heap s) → (chances (sc_heap s) cands < fuel)%nat →
  sc_timeTicks s + Z.of_nat fuel < 2 ^ 64 →
  ∃ v s', sc_loop fuel s cands = Ok (v, s') ∧ sc_kept T0 h0 (sc_heap s') ∧
    best sc_better (sc_heap s') cands v ∧ ¬ chance (sc_heap s') v.
Proof.
  induction fuel as [|fuel IH]; intros s Hne Hk HT Hkept Hf Hw; [lia|]. simpl.
  assert (Forall (known (sc_heap s)) cands) as Hks.
  { eapply Forall_impl; [exact Hk|]. intros c. by apply sc_kept_known with T0. }
  destruct (getVictim_by_best sc_better (sc_heap s) cands Hne Hks) as (v & -> & Hb).
  cbn [mbind result_bind]. pose proof Hks as Hks'. rewrite Forall_forall in Hks'.
  destruct (Hks' v (proj1 Hb)) as [d Hd]. rewrite Hd. cbn [deref mbind result_bind].
  destruct (hasSecondChance d) eqn:Hsc.
  - unfold useSecondChance, sc_stamp. rewrite wrap_small by (unfold fits; lia).
    destruct (upd_known (sc_heap s) v (λ _, mkSC (sc_timeTicks s + 1) false)) as (d0 & Hd0 & ->);
      [by exists d|]. cbn [mbind result_bind].
    apply IH; [done|done|simpl; lia| | |simpl; lia]; cbn [sc_heap sc_timeTicks].
    + intros e de He. destruct (Hkept e de He) as (d' & Hd' & Hor).
      destruct (decide (e = v)) as [->|]; [|rewrite lookup_insert_ne by done; eauto].
      exists (mkSC (sc_timeTicks s + 1) false). rewrite lookup_insert_eq. split; [done|right].
      simplify_eq. split; [|split; [done|simpl; lia]]. destruct Hor as [->|(? & ? & _)]; congruence.
    + pose proof (chances_insert (sc_heap s) v (mkSC (sc_timeTicks s + 1) false) cands eq_refl)
        as [_ Hlt]. specialize (Hlt (proj1 Hb) ltac:(by exists d)). lia.
  - exists v, s. split; [done|]. split; [done|]. split; [done|].
    intros (d' & Hd' & ?). simplify_eq. congruence.
Qed.

Lemma sc_invalid_spec h cands : Forall (known h) cands →
  sc_invalid h cands = Ok None ∨
  ∃ c d, sc_invalid h cands = Ok (Some c) ∧ c ∈ cands ∧ h !! c = Some d ∧ hasSecondChance d = false.
Proof.
  induction 1 as [|c cands [d Hd] Hc IH]; [by left|]. simpl. rewrite Hd. cbn [deref mbind result_bind].
  destruct ((tickInserted d =? 0) && negb (hasSecondChance d)) eqn:E.
  - right. exists c, d. bool_prop. repeat split; [left|done|done].
  - destruct IH as [->|(c' & d' & -> & Hin & ? & ?)]; [by left|right]. exists c', d'.
    repeat split; [by right|done|done].
Qed.

(** The search of SecondChance ends, within one round per candidate, on a candidate
    without a second chance; entries that had none are left as they were, and when some
    candidate had none, the victim had none to begin with. *)
Theorem sc_getVictim_terminates s cands : cands ≠ [] → Forall (known (sc_heap s)) cands →
  0 <= sc_timeTicks s → sc_timeTicks s + Z.of_nat (length cands) + 1 < 2 ^ 64 →
  Forall (λ c, ∀ d, sc_heap s !! c = Some d → tickInserted d <= sc_timeTicks s) cands →
  ∃ v s', sc_getVictim s cands = Ok (v, s') ∧ v ∈ cands ∧ ¬ chance (sc_heap s') v ∧
    (∀ e d, sc_heap s !! e = Some d → hasSecondChance d = false → sc_heap s' !! e = Some d) ∧
    ((∃ c, c ∈ cands ∧ ¬ chance (sc_heap s) c) → ¬ chance (sc_heap s) v).
Proof.
  intros Hne Hk HT Hw Hle. unfold sc_getVictim. rewrite bool_decide_eq_false_2 by done.
  cbn [negb assert_ok mbind result_bind].
  destruct (sc_invalid_spec _ _ Hk) as [->|(c & d & -> & Hin & Hd & Hsc)]; cbn [mbind result_bind].
  2:{ assert (¬ chance (sc_heap s) c) by (intros (d' & ? & ?); congruence).
      exists c, s. auto. }
  destruct (sc_loop_spec (sc_timeTicks s) (sc_heap s) cands (S (length cands)) s)
    as (v & s' & -> & Hkept & [Hin Hb] & Hn); [done|done|lia| | |lia|].
  { intros e d Hd. exists d. auto. }
  { unfold chances. pose proof (length_filter (chance (sc_heap s)) cands). lia. }
  exists v, s'. split; [done|]. split; [done|]. split; [done|].
  assert (∀ e d, sc_heap s !! e = Some d → hasSecondChance d = false →
    sc_heap s' !! e = Some d) as Hsame.
  { intros e d Hd Hf. destruct (Hkept e d Hd) as (d' & Hd' & [->|(? & _)]); [done|congruence]. }
  split; [done|]. intros (c & Hc & Hnc) (dv & Hdv & Hsv).
  rewrite !Forall_forall in Hle. rewrite Forall_forall in Hk. destruct (Hk c Hc) as [dc Hdc].
  assert (hasSecondChance dc = false) as Hfc.
  { destruct (hasSecondChance dc) eqn:E; [|done]. destruct Hnc. by exists dc. }
  destruct (Hkept v dv Hdv) as (dv' & Hdv' & [->|(_ & _ & Hlt)]); [destruct Hn; by exists dv|].
  specialize (Hb c dc dv' Hc (Hsame c dc Hdc Hfc) Hdv'). unfold sc_better in Hb. bool_prop.
  specialize (Hle c Hc dc Hdc). lia.
Qed.

(** ** BRRIP *)

(** Every candidate is valid and has a well-formed counter with maximum [M]. *)
Definition brrip_ok (M : Z) (h : heap BRRIPReplData) (c : nat) : Prop :=
  ∃ d, h !! c = Some d ∧ br_valid d = true ∧ sat_ok 8 (rrpv d) ∧ maxVal (rrpv d) = M.

Definition rrpv_better (c v : BRRIPReplData) : bool := counter (rrpv v) <? counter (rrpv c).

#[export] Instance rrpv_weak : StrictWeak rrpv_better.
Proof. unfold rrpv_better. split; intros *; rewrite ?Z.ltb_lt, ?Z.ltb_ge; lia. Qed.

(** On valid candidates the search is the scan for the largest prediction. *)
Lemma brrip_scan_scan M h cands : Forall (brrip_ok M h) cands → ∀ victim dv,
  h !! victim = Some dv →
  brrip_scan h victim (counter (rrpv dv)) cands =
  match scan rrpv_better h victim cands with Ok v => Ok (inr v) | Err e => Err e end.
Proof.
  induction 1 as [|c cands (d & Hd & Hval & _) Hc IH]; intros victim dv Hv; [done|].
  simpl. rewrite Hd, Hv. cbn [deref mbind result_bind]. rewrite Hval. cbn [negb].
  change (counter (rrpv dv) <? counter (rrpv d)) with (rrpv_better d dv).
  destruct (rrpv_better d dv); by apply IH.
Qed.

Definition aged (diff : Z) (d : BRRIPReplData) : BRRIPReplData :=
  mkBRRIP (with_counter (rrpv d) (Z.min (maxVal (rrpv d)) (counter (rrpv d) + diff))) (br_valid d).

Lemma brrip_age_spec M diff cands : 0 <= diff → NoDup cands → ∀ h, Forall (brrip_ok M h) cands →
  ∃ h', brrip_age diff h cands = Ok h' ∧
    (∀ c d, c ∈ cands → h !! c = Some d → h' !! c = Some (aged diff d)) ∧
    (∀ e, e ∉ cands → h' !! e = h !! e).
Proof.
  intros Hdiff. induction 1 as [|c cands Hn Hnd IH]; intros h Hok.
  { exists h. split; [done|]. split; [by intros c d ?%not_elem_of_nil|done]. }
  apply Forall_cons in Hok as [(d & Hd & Hval & Hsat & HM) Hok]. simpl.
  rewrite Hd. cbn [deref mbind result_bind]. unfold add at 1.
  destruct (Z.leb_spec 0 diff); [|lia]. cbn [mbind result_bind].
  rewrite add_pos_clamp by (done || lia). fold (aged diff d).
  destruct (IH (<[c := aged diff d]> h)) as (h' & -> & H1 & H2).
  - rewrite Forall_forall in *. intros x Hx. destruct (Hok x Hx) as (dx & Hdx & Hr).
    exists dx. rewrite lookup_insert_ne; [done|]. by intros ->.
  - exists h'. split; [done|]. split.
    + intros x dx [->|Hx]%elem_of_cons Hdx.
      * rewrite H2 by done. rewrite lookup_insert_eq. by simplify_eq.
      * apply H1; [done|]. rewrite lookup_insert_ne; [done|]. by intros ->.
    + intros e [Hne He]%not_elem_of_cons. rewrite H2 by done. by rewrite lookup_insert_ne.
Qed.

Lemma brrip_getVictim_best M h cands : cands ≠ [] → Forall (brrip_ok M h) cands →
  ∃ v, brrip_getVictim h cands = brrip_evict h cands v ∧ best rrpv_better h cands v.
Proof.
  intros Hne Hok. assert (Forall (known h) cands) as Hk.
  { eapply Forall_impl; [exact Hok|]. intros c (d & Hd & _). by exists d. }
  destruct (getVictim_by_best rrpv_better h cands Hne Hk) as (v & Hv & Hb).
  exists v. split; [|done]. destruct cands as [|c0 cands]; [done|].
  pose proof Hok as [(d0 & Hd0 & _) _]%Forall_cons. unfold brrip_getVictim.
  rewrite Hd0. cbn [deref mbind result_bind].
  rewrite (brrip_scan_scan M) by done. unfold getVictim_by in Hv. by rewrite Hv.
Qed.

Definition aged_to (M : Z) (dv d : BRRIPReplData) : BRRIPReplData :=
  mkBRRIP (with_counter (rrpv d) (counter (rrpv d) + (M - counter (rrpv dv)))) true.

Lemma brrip_evict_ages M h cands v dv : NoDup cands → Forall (brrip_ok M h) cands →
  best rrpv_better h cands v → h !! v = Some dv →
  ∃ h', brrip_evict h cands v = Ok (v, h') ∧
    ∀ c d, c ∈ cands → h !! c = Some d → h' !! c = Some (aged_to M dv d).
Proof.
  intros Hnd Hok [Hin Hb] Hdv. rewrite Forall_forall in Hok.
  assert (∀ c d, c ∈ cands → h !! c = Some d → sat_ok 8 (rrpv d) ∧ maxVal (rrpv d) = M ∧
    br_valid d = true ∧ counter (rrpv d) <= counter (rrpv dv)) as Hall.
  { intros c d Hcc Hd. destruct (Hok c Hcc) as (d' & Hd' & Hv' & Hs' & HM'). simplify_eq.
    specialize (Hb c d dv Hcc Hd Hdv). unfold rrpv_better in Hb. bool_prop. done. }
  destruct (Hall v dv Hin Hdv) as (Hsat & HM & Hval & _). unfold brrip_evict. rewrite Hdv.
  cbn [deref mbind result_bind saturate]. pose proof Hsat as (Hi & Hc & Hmax). rewrite HM in *.
  rewrite wrap_small by (unfold fits; lia).
  set (dv1 := mkBRRIP (with_counter (rrpv dv) M) (br_valid dv)).
  assert (aged_to M dv dv = dv1) as Hv1.
  { unfold aged_to, dv1. rewrite Hval. do 2 f_equal. lia. }
  destruct (Z.ltb_spec 0 (M - counter (rrpv dv))).
  - destruct (brrip_age_spec M (M - counter (rrpv dv)) cands ltac:(lia) Hnd (<[v := dv1]> h))
      as (h' & -> & H1 & _).
    { apply Forall_forall. intros c Hcc. destruct (decide (c = v)) as [->|Hcv].
      - exists dv1. rewrite lookup_insert_eq. split; [done|]. split; [done|].
        split; [|done]. apply sat_with_counter; [done|]. rewrite HM. lia.
      - destruct (Hok c Hcc) as (d & Hd & Hr). exists d. by rewrite lookup_insert_ne. }
    exists h'. split; [done|]. intros c d Hcc Hd.
    destruct (Hall c d Hcc Hd) as (Hsd & HMd & Hvd & Hle). destruct (decide (c = v)) as [->|Hcv].
    + rewrite (H1 v _ Hcc (lookup_insert_eq _ _ _)). assert (d = dv) as -> by congruence. rewrite Hv1.
      unfold aged, dv1, with_counter. simpl. repeat f_equal. lia.
    + rewrite (H1 c d Hcc) by by rewrite lookup_insert_ne. unfold aged, aged_to, with_counter.
      rewrite Hvd. repeat f_equal. unfold sat_ok in Hsd. lia.
  - exists (<[v := dv1]> h). split; [done|]. intros c d Hcc Hd.
    destruct (Hall c d Hcc Hd) as (Hsd & HMd & Hvd & Hle). destruct (decide (c = v)) as [->|Hcv].
    + rewrite lookup_insert_eq. assert (d = dv) as -> by congruence. by rewrite Hv1.
    + rewrite lookup_insert_ne by done. rewrite Hd. unfold aged_to, with_counter.
      destruct d as [[i m ct] vd]. simpl in *. subst vd. repeat f_equal. lia.
Qed.

(** Among valid candidates BRRIP evicts one with the largest re-reference prediction
    and ages all of them by what that one lacks to the maximum, so that the victim is at
    the maximum and the differences between the candidates are kept. *)
Theorem brrip_victim_ages_all M h cands : cands ≠ [] → NoDup cands → Forall (brrip_ok M h) cands →
  ∃ v dv h', brrip_getVictim h cands = Ok (v, h') ∧ best rrpv_better h cands v ∧
    h !! v = Some dv ∧
    ∀ c d, c ∈ cands → h !! c = Some d → h' !! c = Some (aged_to M dv d).
Proof.
  intros Hne Hnd Hok. destruct (brrip_getVictim_best M h cands Hne Hok) as (v & -> & Hb).
  pose proof Hok as Hok'. rewrite Forall_forall in Hok'.
  destruct (Hok' v (proj1 Hb)) as (dv & Hdv & _).
  destruct (brrip_evict_ages M h cands v dv Hnd Hok Hb Hdv) as (h' & -> & Ha).
  by exists v, dv, h'.
Qed.

(** ** SHiP *)

(** SHiP's invalidate detrains the signature's counter exactly for an entry that was
    re-referenced since its insertion, and leaves the table alone for one that was not. *)
Theorem ship_invalidate_detrains s e d c : ship_heap s !! e = Some d →
  SHCT s !! Z.to_nat (signature d) = Some c →
  ∃ s', ship_invalidate s e = Ok s' ∧
    SHCT s' = (if outcome d then <[Z.to_nat (signature d) := dec c]> (SHCT s) else SHCT s) ∧
    ∃ d', ship_heap s' !! e = Some d' ∧ br_valid (ship_base d') = false.
Proof.
  intros Hd Hc. unfold ship_invalidate. rewrite Hd. cbn [deref mbind result_bind].
  unfold shct_update. rewrite Hc. destruct (outcome d); cbn [deref mbind result_bind].
  all: eexists; split; [done|]; split; [done|]; cbn.
  all: rewrite lookup_insert_eq; by eexists.
Qed.

(** ** The policies implement the interface *)

#[export] Instance lru_policy : Policy (heap LRUReplData) := {|
  getVictim h cands := v ← lru_getVictim h cands; Ok (v, h);
  knows := known
|}.
#[export] Instance fifo_policy : Policy FIFOState := {|
  getVictim s cands := v ← fifo_getVictim s cands; Ok (v, s);
  knows s := known (fifo_heap s)
|}.
#[export] Instance lfu_policy : Policy (heap LFUReplData) := {|
  getVictim h cands := v ← lfu_getVictim h cands; Ok (v, h);
  knows := known
|}.
#[export] Instance wlru_policy : Policy (heap WeightedLRUReplData) := {|
  getVictim h cands := v ← wlru_getVictim h cands; Ok (v, h);
  knows := known
|}.

(** MRU has the replacement data of LRU and is a policy of its own. *)
Record MRUState := mkMRU { mru_heap : heap LRUReplData }.
#[export] Instance mru_policy : Policy MRUState := {|
  getVictim s cands := v ← mru_getVictim (mru_heap s) cands; Ok (v, s);
  knows s := known (mru_heap s)
|}.

(** A scanning policy leaves its state alone. *)
Lemma scanning_laws {S D} (better : D → D → bool) `{!StrictWeak better} (hp : S → heap D) (s : S) cands :
  cands ≠ [] → Forall (known (hp s)) cands →
  ∃ v s', (v ← getVictim_by better (hp s) cands; Ok (v, s)) = Ok (v, s') ∧ v ∈ cands ∧
    ∀ e, known (hp s) e → known (hp s') e.
Proof.
  intros Hne Hk. destruct (getVictim_by_best better (hp s) cands Hne Hk) as (v & -> & Hin & _).
  by exists v, s.
Qed.

#[export] Instance lru_laws : PolicyLaws (heap LRUReplData).
Proof. intros h cands. apply (scanning_laws lru_better id). Qed.
#[export] Instance fifo_laws : PolicyLaws FIFOState.
Proof. intros h cands. apply (scanning_laws Z.ltb fifo_heap). Qed.
#[export] Instance lfu_laws : PolicyLaws (heap LFUReplData).
Proof. intros h cands. apply (scanning_laws lfu_better id). Qed.
#[export] Instance wlru_laws : PolicyLaws (heap WeightedLRUReplData).
Proof. intros h cands. apply (scanning_laws wlru_better id). Qed.
#[export] Instance mru_laws : PolicyLaws MRUState.
Proof.
  intros s cands Hne Hk. destruct cands as [|c cands]; [done|].
  pose proof Hk as [Hc _]%Forall_cons. cbn.
  destruct (mru_scan_spec (mru_heap s) (c :: cands) [c] c Hc Hk) as (v & Hv & Hin & _).
  { split; [set_solver|]. intros x dx dv ->%list_elem_of_singleton ? ?. simplify_eq.
    apply Z.ltb_irrefl. }
  cbn in Hv. rewrite Hv. exists v, s. split; [done|]. split; [set_solver|done].
Qed.

(** ** Witnesses *)

Definition ex_lru : heap LRUReplData := list_to_map [(0%nat, mkLRU 30); (1%nat, mkLRU 10); (2%nat, mkLRU 20)].

Lemma lru_victim_least_recent_witness :
  lru_getVictim ex_lru [0; 1; 2]%nat = Ok 1%nat ∧
  ∃ h' v, lru_touch 40 ex_lru 1 = Ok h' ∧ lru_getVictim h' [0; 1; 2]%nat = Ok v ∧
    ((∃ c d, c ∈ [0; 1; 2]%nat ∧ c ≠ 1%nat ∧ ex_lru !! c = Some d ∧ lastTouchTick d < 40) → v ≠ 1%nat).
Proof.
  split; [reflexivity|].
  apply (lru_victim_least_recent 40 ex_lru [0; 1; 2]%nat 1%nat).
  - set_solver.
  - repeat constructor; by eexists.
  - intros c d Hc Hd. apply elem_of_cons in Hc as [->|[->|[->|[]%elem_of_nil]%elem_of_cons]%elem_of_cons];
      vm_compute in Hd; injection Hd as <-; simpl; lia.
Defined.

Definition ex_fifo : FIFOState := mkFIFO 3 (list_to_map [(0%nat, 2); (1%nat, 3); (2%nat, 1)]).

Lemma ex_fifo_repr : fifo_repr ex_fifo [2; 0; 1]%nat.
Proof.
  split.
  - repeat first [apply SSorted_nil|apply SSorted_cons|apply Forall_nil_2|apply Forall_cons_2].
    all: eexists _, _; split; [vm_compute; reflexivity|split; [vm_compute; reflexivity|lia]].
  - repeat first [apply Forall_nil_2|apply Forall_cons_2].
    all: eexists; split; [vm_compute; reflexivity|simpl; lia].
Qed.

Lemma fifo_refines_queue_witness :
  fifo_getVictim ex_fifo [0; 1; 2]%nat = Ok 2%nat ∧
  ∃ s', fifo_reset ex_fifo 2 = Ok s' ∧ fifo_repr s' [0; 1; 2]%nat.
Proof.
  split; [reflexivity|].
  apply (fifo_refines_queue ex_fifo [2; 0; 1]%nat 2%nat [0; 1; 2]%nat);
    [simpl; lia|simpl; lia|exact ex_fifo_repr|set_solver|set_solver|].
  repeat constructor; set_solver.
Defined.

Lemma fifo_invalidate_last_witness :
  fifo_getVictim ex_fifo [2; 1]%nat = Ok 2%nat ∧
  ∃ s', fifo_invalidate ex_fifo 2 = Ok s' ∧ fifo_getVictim s' [2; 1]%nat = Ok 1%nat.
Proof.
  split; [reflexivity|].
  apply (fifo_invalidate_last ex_fifo [2; 0; 1]%nat 2%nat 1%nat);
    [simpl; lia|simpl; lia|exact ex_fifo_repr|set_solver|set_solver|done].
Defined.

Definition ex_sc : SCState :=
  mkSCState 5 (list_to_map [(0%nat, mkSC 1 true); (1%nat, mkSC 2 true); (2%nat, mkSC 3 false)]).

Lemma sc_getVictim_terminates_witness :
  (∃ s', sc_getVictim ex_sc [0; 1; 2]%nat = Ok (2%nat, s')) ∧
  ∃ v s', sc_getVictim ex_sc [0; 1; 2]%nat = Ok (v, s') ∧ v ∈ [0; 1; 2]%nat ∧
    ¬ chance (sc_heap s') v ∧
    (∀ e d, sc_heap ex_sc !! e = Some d → hasSecondChance d = false → sc_heap s' !! e = Some d) ∧
    ((∃ c, c ∈ [0; 1; 2]%nat ∧ ¬ chance (sc_heap ex_sc) c) → ¬ chance (sc_heap ex_sc) v).
Proof.
  split; [eexists; vm_compute; reflexivity|].
  apply (sc_getVictim_terminates ex_sc [0; 1; 2]%nat); [done| |simpl; lia|simpl; lia|].
  - repeat constructor; by eexists.
  - repeat constructor; intros d Hd; vm_compute in Hd; injection Hd as <-; simpl; lia.
Defined.

Definition ex_brrip : heap BRRIPReplData :=
  list_to_map [(0%nat, mkBRRIP (mkSat 0 3 1) true); (1%nat, mkBRRIP (mkSat 0 3 2) true)].

Lemma brrip_victim_ages_all_witness :
  (∃ h', brrip_getVictim ex_brrip [0; 1]%nat = Ok (1%nat, h') ∧
         h' !! 0%nat = Some (mkBRRIP (mkSat 0 3 2) true)) ∧
  ∃ v dv h', brrip_getVictim ex_brrip [0; 1]%nat = Ok (v, h') ∧
    best rrpv_better ex_brrip [0; 1]%nat v ∧ ex_brrip !! v = Some dv ∧
    ∀ c d, c ∈ [0; 1]%nat → ex_brrip !! c = Some d → h' !! c = Some (aged_to 3 dv d).
Proof.
  split; [eexists; split; vm_compute; reflexivity|].
  apply (brrip_victim_ages_all 3 ex_brrip [0; 1]%nat); [done| |].
  - repeat constructor; set_solver.
  - repeat first [apply Forall_nil_2|apply Forall_cons_2].
    all: eexists; split; [vm_compute; reflexivity|]; unfold sat_ok; simpl; split; [done|lia].
Defined.

Definition ex_ship : SHiPState := mkSHiPState [mkSat 0 3 2; mkSat 0 3 1]
  (list_to_map [(0%nat, mkSHiP (mkBRRIP (mkSat 0 3 1) true) 1 true)]).

Lemma ship_invalidate_detrains_witness :
  ∃ s', ship_invalidate ex_ship 0 = Ok s' ∧ SHCT s' = [mkSat 0 3 2; mkSat 0 3 0] ∧
    ∃ d', ship_heap s' !! 0%nat = Some d' ∧ br_valid (ship_base d') = false.
Proof.
  apply (ship_invalidate_detrains ex_ship 0 (mkSHiP (mkBRRIP (mkSat 0 3 1) true) 1 true)
    (mkSat 0 3 1)); reflexivity.
Defined.
End ReplPoliciesProps.
