(* ===== verification/TreePLRU.v ===== *)
(** * mem/cache/replacement_policies/tree_plru_rp: tree pseudo-LRU

    The leaves of a binary tree are the entries of a set; the inner nodes are bits in a
    vector, each pointing to the half to evict from.  The trees are in a store, since the
    entries of a set share one.  [std::vector::at] throws out of range ([Panic]). *)

From Stdlib Require Import ZArith Lia.
From stdpp Require Import base numbers option list gmap.
From S2P Require Import Prelude ReplPolicies ReplPoliciesProps.

Module TreePLRU.
Import ReplPolicies ReplPoliciesProps.

(** The quotient goes through a double, which is exact for the indices of a tree. *)
Definition parentIndex (index : Z) : Z := u64 (index - 1) / 2.
Definition leftSubtreeIndex (index : Z) : Z := u64 (2 * index + 1).
Definition rightSubtreeIndex (index : Z) : Z := u64 (2 * index + 2).
Definition isRightSubtree (index : Z) : bool := index mod 2 =? 0.

Record TreePLRUReplData := mkPLRU { index : Z; tree : nat }.

Record TreePLRUState := mkTreeState {
  numLeaves : Z;
  count : Z;
  trees : list (list bool);
  data : heap TreePLRUReplData
}.

Definition TreePLRU_new (num_leaves : Z) : result TreePLRUState :=
  _ ← fatal_if (num_leaves <? 1); Ok (mkTreeState num_leaves 0 [] ∅).

(** tree->at(i) and tree->at(i) = b *)
Definition at_ (t : list bool) (i : Z) : result bool :=
  match t !! Z.to_nat i with Some b => Ok b | None => Err Panic end.
Definition set_at (t : list bool) (i : Z) (b : bool) : result (list bool) :=
  _ ← at_ t i; Ok (<[Z.to_nat i := b]> t).

(** The do-while loop of touch and invalidate: [f right] is written at each ancestor. *)
Fixpoint mark_path (f : bool → bool) (fuel : nat) (tree_index : Z) (t : list bool)
    : result (list bool) :=
  match fuel with
  | O => Err OutOfFuel
  | S fuel =>
      let right := isRightSubtree tree_index in
      let tree_index := parentIndex tree_index in
      t ← set_at t tree_index (f right);
      if negb (tree_index =? 0) then mark_path f fuel tree_index t else Ok t
  end.

Definition mark (f : bool → bool) (s : TreePLRUState) (e : nat) : result TreePLRUState :=
  d ← deref (data s !! e);
  t ← deref (trees s !! tree d);
  t ← mark_path f (S (length t)) (index d) t;
  Ok (mkTreeState (numLeaves s) (count s) (<[tree d := t]> (trees s)) (data s)).

Definition plru_invalidate (s : TreePLRUState) (e : nat) := mark (λ right, right) s e.
Definition plru_touch (s : TreePLRUState) (e : nat) := mark negb s e.
Definition plru_reset (s : TreePLRUState) (e : nat) := plru_touch s e.

(** The while loop of getVictim. *)
Fixpoint descend (fuel : nat) (t : list bool) (tree_index : Z) : result Z :=
  match fuel with
  | O => Err OutOfFuel
  | S fuel =>
      if tree_index <? Z.of_nat (length t) then
        b ← at_ t tree_index;
        descend fuel t (if (b : bool) then rightSubtreeIndex tree_index else leftSubtreeIndex tree_index)
      else Ok tree_index
  end.

Definition plru_getVictim (s : TreePLRUState) (cands : list nat) : result nat :=
  match cands with
  | [] => Err AssertFailed
  | c :: _ =>
      d ← deref (data s !! c);
      t ← deref (trees s !! tree d);
      i ← descend (S (length t)) t 0;
      match cands !! Z.to_nat (u64 (i - (numLeaves s - 1))) with
      | Some v => Ok v
      | None => Err Panic
      end
  end.

(** instantiateEntry for entry [e]: a new tree for every numLeaves entries. *)
Definition plru_instantiateEntry (s : TreePLRUState) (e : nat) : TreePLRUState :=
  let ts := if count s mod numLeaves s =? 0
            then trees s ++ [replicate (Z.to_nat (numLeaves s - 1)) false] else trees s in
  let d := mkPLRU (count s mod numLeaves s + numLeaves s - 1) (length ts - 1) in
  mkTreeState (numLeaves s) (u64 (count s + 1)) ts (<[e := d]> (data s)).

(** ** Paths *)

(** [anc c j]: [c] is on the path from the root to [j]. *)
Inductive anc : Z → Z → Prop :=
  | anc_refl j : anc j j
  | anc_up c j : 0 < j → anc c (parentIndex j) → anc c j.

Lemma parentIndex_small j : 0 < j < 2 ^ 63 → parentIndex j = (j - 1) / 2 ∧ 0 <= parentIndex j < j.
Proof.
  intros Hj. unfold parentIndex. rewrite wrap_small by (unfold fits; lia).
  split; [done|]. split; [apply Z.div_pos; lia|]. apply Z.div_lt_upper_bound; lia.
Qed.

(** A node is the child of its parent that its parity names. *)
Lemma child_of_parent j : 0 < j < 2 ^ 63 →
  j = if isRightSubtree j then 2 * parentIndex j + 2 else 2 * parentIndex j + 1.
Proof.
  intros Hj. destruct (parentIndex_small j Hj) as [-> _]. unfold isRightSubtree.
  pose proof (Z.div_mod (j - 1) 2). pose proof (Z.mod_pos_bound (j - 1) 2).
  pose proof (Z.div_mod j 2). pose proof (Z.mod_pos_bound j 2).
  destruct (Z.eqb_spec (j mod 2) 0); lia.
Qed.

(** The bit at [parentIndex j] points to [j]. *)
Definition points_to (t : list bool) (j : Z) : Prop :=
  t !! Z.to_nat (parentIndex j) = Some (isRightSubtree j).

Lemma anc_bound c j : 0 <= j < 2 ^ 63 → anc c j → 0 <= c <= j.
Proof.
  intros Hj Ha. induction Ha as [|c j Hpos Ha IH]; [lia|].
  destruct (parentIndex_small j ltac:(lia)). lia.
Qed.

(** The path continues below any proper ancestor. *)
Lemma anc_child c j : 0 <= j < 2 ^ 63 → anc c j → c ≠ j →
  ∃ k, anc k j ∧ 0 < k ∧ parentIndex k = c.
Proof.
  intros Hj Ha. induction Ha as [|c j Hpos Ha IH]; [done|]. intros Hne.
  destruct (parentIndex_small j ltac:(lia)) as [_ Hp].
  destruct (decide (c = parentIndex j)) as [->|Hc].
  - exists j. split; [constructor|]. done.
  - destruct (IH ltac:(lia) Hc) as (k & Hk & ? & ?). exists k. split; [|done]. by constructor.
Qed.

Lemma anc_root j : 0 <= j < 2 ^ 63 → anc 0 j.
Proof.
  intros [Hj0 Hj]. revert Hj. pattern j. apply Zlt_0_ind; [|done]. clear j Hj0.
  intros j IH Hj0 Hj. destruct (decide (j = 0)) as [->|]; [constructor|].
  destruct (parentIndex_small j ltac:(lia)) as [_ Hp].
  constructor; [lia|]. apply IH; lia.
Qed.

Lemma at_lt t i : 0 <= i < Z.of_nat (length t) → ∃ b, at_ t i = Ok b ∧ t !! Z.to_nat i = Some b.
Proof.
  intros Hi. destruct (lookup_lt_is_Some_2 t (Z.to_nat i)) as [b Hb]; [lia|].
  exists b. unfold at_. by rewrite Hb.
Qed.

(** The loop writes [f right] at every ancestor and nowhere else. *)
Lemma mark_path_spec f fuel : ∀ j t, 0 < j < 2 ^ 63 → parentIndex j < Z.of_nat (length t) →
  parentIndex j < Z.of_nat fuel →
  ∃ t', mark_path f fuel j t = Ok t' ∧ length t' = length t ∧
    (∀ c, anc c j → 0 < c → t' !! Z.to_nat (parentIndex c) = Some (f (isRightSubtree c))) ∧
    (∀ k, j <= k → t' !! Z.to_nat k = t !! Z.to_nat k).
Proof.
  induction fuel as [|fuel IH]; intros j t Hj Hlt Hf.
  { destruct (parentIndex_small j Hj). lia. }
  destruct (parentIndex_small j Hj) as [_ Hp]. cbn [mark_path]. unfold set_at.
  destruct (at_lt t (parentIndex j) ltac:(lia)) as (b & -> & Hb). cbn [mbind result_bind].
  set (t1 := <[Z.to_nat (parentIndex j) := f (isRightSubtree j)]> t).
  assert (t1 !! Z.to_nat (parentIndex j) = Some (f (isRightSubtree j))) as Ht1
    by (apply list_lookup_insert_eq; lia).
  assert (∀ k, j <= k → t1 !! Z.to_nat k = t !! Z.to_nat k) as Hk1
    by (intros k Hk; apply list_lookup_insert_ne; lia).
  destruct (Z.eqb_spec (parentIndex j) 0) as [H0|H0]; cbn [negb].
  - exists t1. split; [done|]. split; [apply length_insert|]. split; [|done].
    intros c Ha Hc. inversion Ha as [|? ? ? Ha']; subst; [done|].
    rewrite H0 in Ha'. apply anc_bound in Ha'; lia.
  - destruct (parentIndex_small (parentIndex j)) as [_ Hpp]; [lia|].
    destruct (IH (parentIndex j) t1) as (t' & -> & Hlen & Hpath & Hrest);
      [lia|unfold t1; rewrite length_insert; lia|lia|].
    exists t'. split; [done|]. split; [by rewrite Hlen; apply length_insert|]. split.
    + intros c Ha Hc. inversion Ha as [|? ? ? Ha']; subst; [|by apply Hpath].
      by rewrite Hrest.
    + intros k Hk. rewrite Hrest by lia. by apply Hk1.
Qed.

(** The search ends at a leaf its last step points to. *)
Lemma descend_leaf t fuel : ∀ i, 0 <= i → i <= 2 * Z.of_nat (length t) → 2 * Z.of_nat (length t) + 2 < 2 ^ 63 →
  (0 < fuel)%nat → (length t < Z.to_nat i + fuel)%nat → i = 0 ∨ points_to t i →
  ∃ j, descend fuel t i = Ok j ∧ Z.of_nat (length t) <= j <= 2 * Z.of_nat (length t) ∧
    (j = 0 ∨ points_to t j) ∧ (i < Z.of_nat (length t) → 0 < j).
Proof.
  induction fuel as [|fuel IH]; intros i Hi0 Hi Hlen Hf0 Hf Hp.
  { lia. }
  cbn [descend]. destruct (Z.ltb_spec i (Z.of_nat (length t))).
  2:{ exists i. repeat split; [lia..|done|lia]. }
  destruct (at_lt t i ltac:(lia)) as (b & -> & Hb). cbn [mbind result_bind].
  unfold rightSubtreeIndex, leftSubtreeIndex. rewrite !wrap_small by (unfold fits; lia).
  assert (points_to t (if b then 2 * i + 2 else 2 * i + 1)) as Hpt.
  { unfold points_to. destruct (parentIndex_small (if b then 2 * i + 2 else 2 * i + 1)) as [-> _];
      [destruct b; lia|].
    replace (((if b then 2 * i + 2 else 2 * i + 1) - 1) / 2) with i.
    - rewrite Hb. f_equal. unfold isRightSubtree. destruct b.
      + symmetry. apply Z.eqb_eq. replace (2 * i + 2) with ((i + 1) * 2) by lia. apply Z.mod_mul. lia.
      + symmetry. apply Z.eqb_neq. rewrite Z.add_comm, Z.mul_comm, Z.mod_add by lia. done.
    - destruct b; [apply Z.div_unique with 1; lia|apply Z.div_unique with 0; lia]. }
  destruct (IH (if b then 2 * i + 2 else 2 * i + 1)) as (j & Hj & Hr & Hpj & _);
    [destruct b; lia|destruct b; lia|done|lia|destruct b; lia|by right|].
  exists j. repeat split; [done|lia..|done|lia].
Qed.

(** A path whose bits all point along it is the one the search takes. *)
Lemma descend_path t j fuel : Z.of_nat (length t) <= j <= 2 * Z.of_nat (length t) →
  2 * Z.of_nat (length t) + 2 < 2 ^ 63 → (∀ c, anc c j → 0 < c → points_to t c) →
  ∀ i, 0 <= i → anc i j → (0 < fuel)%nat → (length t < Z.to_nat i + fuel)%nat →
  descend fuel t i = Ok j.
Proof.
  intros Hj Hlen Hpath. induction fuel as [|fuel IH]; intros i Hi Ha Hf0 Hf; [lia|].
  pose proof (anc_bound i j ltac:(lia) Ha). cbn [descend].
  destruct (decide (i = j)) as [->|Hne].
  { destruct (Z.ltb_spec j (Z.of_nat (length t))); [lia|done]. }
  destruct (anc_child i j ltac:(lia) Ha Hne) as (k & Hk & Hk0 & Hki).
  pose proof (anc_bound k j ltac:(lia) Hk). pose proof (child_of_parent k ltac:(lia)) as Hck.
  pose proof (Hpath k Hk Hk0) as Hpt. unfold points_to in Hpt. rewrite Hki in Hck, Hpt.
  destruct (Z.ltb_spec i (Z.of_nat (length t))).
  2:{ destruct (isRightSubtree k); lia. }
  unfold at_. rewrite Hpt. cbn [mbind result_bind].
  unfold rightSubtreeIndex, leftSubtreeIndex. rewrite !wrap_small by (unfold fits; lia).
  rewrite <-Hck. apply IH; [lia|done|lia|]. destruct (isRightSubtree k); lia.
Qed.

(** ** A set of entries *)

(** The candidates are the leaves of tree [tid], in order. *)
Definition plru_set (s : TreePLRUState) (tid : nat) (cands : list nat) : Prop :=
  2 <= numLeaves s < 2 ^ 61 ∧ Z.of_nat (length cands) = numLeaves s ∧
  (∃ t, trees s !! tid = Some t ∧ Z.of_nat (length t) = numLeaves s - 1) ∧
  ∀ k e, cands !! k = Some e → data s !! e = Some (mkPLRU (Z.of_nat k + numLeaves s - 1) tid).

Lemma plru_mark_set f s tid cands k e : plru_set s tid cands → cands !! k = Some e →
  ∃ s' t', mark f s e = Ok s' ∧ plru_set s' tid cands ∧ trees s' !! tid = Some t' ∧
    Z.of_nat (length t') = numLeaves s - 1 ∧ numLeaves s' = numLeaves s ∧
    ∀ c, anc c (Z.of_nat k + numLeaves s - 1) → 0 < c →
      t' !! Z.to_nat (parentIndex c) = Some (f (isRightSubtree c)).
Proof.
  intros (Hn & Hlc & (t & Ht & Hlt) & Hd) Hk. pose proof (lookup_lt_Some _ _ _ Hk) as Hkl.
  unfold mark. rewrite (Hd k e Hk). cbn [deref mbind result_bind tree index]. rewrite Ht.
  cbn [deref mbind result_bind].
  destruct (parentIndex_small (Z.of_nat k + numLeaves s - 1)) as [Hpi Hpr]; [lia|].
  assert (parentIndex (Z.of_nat k + numLeaves s - 1) < Z.of_nat (length t)).
  { rewrite Hpi. apply Z.div_lt_upper_bound; lia. }
  destruct (mark_path_spec f (S (length t)) (Z.of_nat k + numLeaves s - 1) t)
    as (t' & -> & Hlen & Hpath & _); [lia|lia|lia|].
  cbn [mbind result_bind]. eexists _, t'. split; [done|]. cbn [trees numLeaves].
  assert (<[tid := t']> (trees s) !! tid = Some t') as Htid.
  { apply list_lookup_insert_eq. by apply lookup_lt_Some in Ht. }
  split; [|split; [done|split; [lia|split; [done|done]]]].
  split; [done|]. split; [done|]. split; [exists t'; cbn; split; [done|lia]|done].
Qed.

(** On a set the search ends at one of its leaves, which the last bit points to. *)
Lemma plru_getVictim_leaf s tid cands t : plru_set s tid cands → trees s !! tid = Some t →
  ∃ k v, plru_getVictim s cands = Ok v ∧ cands !! k = Some v ∧
    points_to t (Z.of_nat k + numLeaves s - 1) ∧
    descend (S (length t)) t 0 = Ok (Z.of_nat k + numLeaves s - 1).
Proof.
  intros (Hn & Hlc & (t0 & Ht0 & Hlt) & Hd) Ht. assert (t0 = t) as -> by congruence.
  destruct cands as [|c cands0]; [simpl in *; lia|]. cbn [plru_getVictim].
  rewrite (Hd 0%nat c) by done. set (cands := c :: cands0) in *.
  cbn [deref mbind result_bind tree]. rewrite Ht. cbn [deref mbind result_bind].
  destruct (descend_leaf t (S (length t)) 0) as (j & Hj & Hr & Hp & Hpos);
    [lia|lia|lia|lia|lia|by left|].
  rewrite Hj. cbn [mbind result_bind]. rewrite wrap_small by (unfold fits; lia).
  destruct (lookup_lt_is_Some_2 cands (Z.to_nat (j - (numLeaves s - 1)))) as [v Hv]; [lia|].
  rewrite Hv. exists (Z.to_nat (j - (numLeaves s - 1))), v.
  replace (Z.of_nat (Z.to_nat (j - (numLeaves s - 1))) + numLeaves s - 1) with j by lia.
  repeat split; try done. destruct Hp as [->|Hp]; [lia|done].
Qed.

Lemma plru_set_inj s tid cands k l e : plru_set s tid cands →
  cands !! k = Some e → cands !! l = Some e → k = l.
Proof.
  intros (_ & _ & _ & Hd) Hk Hl. pose proof (Hd k e Hk). pose proof (Hd l e Hl). simplify_eq. lia.
Qed.

(** For any number of leaves, powers of two or not, a touch of an entry keeps the
    set's tree well-formed and the next victim is another entry of the set; an
    invalidation makes the entry the next victim. *)
Theorem plru_touch_invalidate s tid cands e : plru_set s tid cands → e ∈ cands →
  (∃ s' v, plru_touch s e = Ok s' ∧ plru_set s' tid cands ∧
     plru_getVictim s' cands = Ok v ∧ v ∈ cands ∧ v ≠ e) ∧
  (∃ s', plru_invalidate s e = Ok s' ∧ plru_set s' tid cands ∧ plru_getVictim s' cands = Ok e).
Proof.
  intros Hs [k Hk]%list_elem_of_lookup. pose proof Hs as (Hn & Hlc & _).
  pose proof (lookup_lt_Some _ _ _ Hk) as Hkl. split.
  - destruct (plru_mark_set negb s tid cands k e Hs Hk) as (s' & t' & Hm & Hs' & Ht' & Hl & HN & Hpath).
    destruct (plru_getVictim_leaf s' tid cands t' Hs' Ht') as (l & v & Hv & Hl' & Hp & _).
    exists s', v. split; [done|]. split; [done|]. split; [done|].
    split; [by eapply list_elem_of_lookup_2|]. intros ->.
    assert (l = k) as -> by by eapply plru_set_inj.
    rewrite HN in Hp. unfold points_to in Hp. rewrite Hpath in Hp; [|constructor|lia].
    injection Hp. by destruct (isRightSubtree _).
  - destruct (plru_mark_set (λ r, r) s tid cands k e Hs Hk)
      as (s' & t' & Hm & Hs' & Ht' & Hl & HN & Hpath).
    destruct (plru_getVictim_leaf s' tid cands t' Hs' Ht') as (l & v & Hv & Hl' & _ & Hdesc).
    exists s'. split; [done|]. split; [done|]. rewrite Hv. f_equal.
    rewrite (descend_path t' (Z.of_nat k + numLeaves s - 1)) in Hdesc.
    + injection Hdesc as Hdesc. assert (l = k) as -> by lia. congruence.
    + lia.
    + lia.
    + exact Hpath.
    + done.
    + apply anc_root. lia.
    + lia.
    + lia.
Qed.

(** Six entries, the leaves of one tree of five bits. *)
Definition ex_plru : TreePLRUState :=
  foldl plru_instantiateEntry (mkTreeState 6 0 [] ∅) [10; 11; 12; 13; 14; 15]%nat.

Lemma ex_plru_set : plru_set ex_plru 0 [10; 11; 12; 13; 14; 15]%nat.
Proof.
  split; [vm_compute; intuition congruence|]. split; [reflexivity|]. split.
  { eexists. split; reflexivity. }
  intros k e Hk. do 6 (destruct k as [|k]; [injection Hk as <-; reflexivity|]). done.
Qed.

Lemma plru_touch_invalidate_witness :
  plru_getVictim ex_plru [10; 11; 12; 13; 14; 15]%nat = Ok 12%nat ∧
  ∃ s', plru_invalidate ex_plru 14 = Ok s' ∧ plru_set s' 0 [10; 11; 12; 13; 14; 15]%nat ∧
    plru_getVictim s' [10; 11; 12; 13; 14; 15]%nat = Ok 14%nat.
Proof.
  split; [reflexivity|].
  apply (plru_touch_invalidate ex_plru 0 [10; 11; 12; 13; 14; 15]%nat 14%nat ex_plru_set).
  set_solver.
Defined.
End TreePLRU.
