(* ===== verification/Dueling.v ===== *)
(** * mem/cache/tags/dueling, mem/cache/replacement_policies/dueling_rp: set dueling

    A monitor marks a few entries of each constituency as samples of two teams and keeps
    a saturating selector of how they fare; the Dueling replacement policy owns two
    policies and lets the winning one choose.  The two policies are known through the
    interface [Policy] only. *)

From Stdlib Require Import ZArith Lia.
From stdpp Require Import base numbers option list gmap.
From S2P Require Import Prelude Bitfield SatCounter ReplPolicies ReplPoliciesProps.

Module Dueling.
Import Bitfield SatCounter ReplPolicies ReplPoliciesProps.

(** ** Dueler *)

Record Dueler := mkDueler { _isSample : Z; _team : Z }.

Definition Dueler_new : Dueler := mkDueler 0 0.

Definition setSample (d : Dueler) (id : Z) (team : bool) : result Dueler :=
  _ ← panic_if (negb (popCount id =? 1));
  _ ← panic_if (negb (_isSample d .& id =? 0));
  Ok (mkDueler (_isSample d .| id) (if team then _team d .| id else _team d)).

(** isSample(id, team): whether it is a sample, and the team. *)
Definition isSample (d : Dueler) (id : Z) : bool * bool :=
  (negb (_isSample d .& id =? 0), negb (_team d .& id =? 0)).

(** ** DuelingMonitor *)

(** A threshold is a fraction; the saturation is compared with it exactly, and a
    counter of no bits (0/0) compares false both ways. *)
Record threshold := mkThr { num : Z; den : Z }.

Record DuelingMonitor := mkMonitor {
  id : Z;
  constituencySize : Z;
  teamSize : Z;
  lowThreshold : threshold;
  highThreshold : threshold;
  selector : SatCounter;
  regionCounter : Z;
  winner : bool
}.

Definition NUM_DUELERS : Z := 2.

Definition sat_ge (c : SatCounter) (t : threshold) : bool :=
  (0 <? maxVal c) && (num t * maxVal c <=? counter c * den t).
Definition sat_lt (c : SatCounter) (t : threshold) : bool :=
  (0 <? maxVal c) && (counter c * den t <? num t * maxVal c).

Definition with_selector (m : DuelingMonitor) (c : SatCounter) (w : bool) : DuelingMonitor :=
  mkMonitor (id m) (constituencySize m) (teamSize m) (lowThreshold m) (highThreshold m) c
    (regionCounter m) w.
Definition with_region (m : DuelingMonitor) (r : Z) : DuelingMonitor :=
  mkMonitor (id m) (constituencySize m) (teamSize m) (lowThreshold m) (highThreshold m)
    (selector m) r (winner m).

(** The constructor, with the number of monitors made so far; it returns the new number.
    [1 << numInstances] is an int. *)
Definition DuelingMonitor_new (numInstances constituency_size team_size num_bits : Z)
    (low high : threshold) : result (DuelingMonitor * Z) :=
  if 32 <=? numInstances then Err Undefined else
  let id := u64 (s32 (1 .<< numInstances)) in
  sel ← SatCounter_new 32 num_bits 0;
  _ ← fatal_if (constituency_size <? NUM_DUELERS * team_size);
  _ ← fatal_if (63 <? numInstances);
  _ ← fatal_if ((num low <=? 0) || (den high <=? num high));
  _ ← fatal_if ((num high <=? 0) || (den high <=? num high));
  _ ← fatal_if (num high * den low <? num low * den high);
  let sel := (saturate 32 sel).2 in
  sel ← shr 32 sel 1;
  Ok (mkMonitor id constituency_size team_size low high sel 0 (negb (sat_lt sel low)),
      numInstances + 1).

Definition sample (m : DuelingMonitor) (d : Dueler) : DuelingMonitor :=
  let '(is_sample, team) := isSample d (id m) in
  if is_sample then
    if team then
      let sel := inc (selector m) in
      with_selector m sel (if sat_ge sel (highThreshold m) then true else winner m)
    else
      let sel := dec (selector m) in
      with_selector m sel (if sat_lt sel (lowThreshold m) then false else winner m)
  else m.

Definition getWinner (m : DuelingMonitor) : bool := winner m.

(** initEntry: the first and last [teamSize] entries of a constituency are samples.
    [constituencySize - teamSize] is a size_t. *)
Definition initEntry (m : DuelingMonitor) (d : Dueler) : result (DuelingMonitor * Dueler) :=
  d ← (if regionCounter m <? teamSize m then setSample d (id m) false
       else if u64 (constituencySize m - teamSize m) <=? regionCounter m
       then setSample d (id m) true else Ok d);
  let r := regionCounter m + 1 in
  Ok (with_region m (if constituencySize m <=? r then 0 else r), d).

(** ** The selector decides the winner *)

(** The winner follows the thresholds: true at or above the high one, false below the
    low one, and unchanged in between. *)
Definition winner_ok (m : DuelingMonitor) : Prop :=
  (sat_ge (selector m) (highThreshold m) = true → winner m = true) ∧
  (sat_lt (selector m) (lowThreshold m) = true → winner m = false).

Definition thresholds_ok (m : DuelingMonitor) : Prop :=
  sat_ok 32 (selector m) ∧ 0 < den (lowThreshold m) ∧ 0 < den (highThreshold m) ∧
  0 < num (lowThreshold m) ∧
  num (lowThreshold m) * den (highThreshold m) <= num (highThreshold m) * den (lowThreshold m).

Lemma low_not_high c tl th : 0 <= counter c → 0 < den tl → 0 < den th →
  num tl * den th <= num th * den tl → sat_lt c tl = true → sat_ge c th = false.
Proof.
  intros Hc Hl Hh Hle. unfold sat_lt, sat_ge. destruct (Z.ltb_spec 0 (maxVal c)); [|done].
  cbn [andb]. rewrite Z.ltb_lt, Z.leb_gt. intros Hlt. nia.
Qed.

Lemma sat_lt_mono c c' t : maxVal c' = maxVal c → counter c <= counter c' → 0 < den t →
  sat_lt c' t = true → sat_lt c t = true.
Proof.
  intros Hm Hc Hd. unfold sat_lt. rewrite Hm, !andb_true_iff, !Z.ltb_lt. nia.
Qed.

Lemma sat_ge_mono c c' t : maxVal c' = maxVal c → counter c' <= counter c → 0 < den t →
  sat_ge c' t = true → sat_ge c t = true.
Proof.
  intros Hm Hc Hd. unfold sat_ge. rewrite Hm, !andb_true_iff, !Z.ltb_lt, !Z.leb_le. nia.
Qed.

Lemma sample_ok m d : thresholds_ok m → winner_ok m →
  thresholds_ok (sample m d) ∧ winner_ok (sample m d).
Proof.
  intros Ht [Hhi Hlo]. pose proof Ht as (Hs & Hdl & Hdh & Hnl & Hle).
  unfold sample. destruct (isSample d (id m)) as [[] []]; [..|done|done].
  - split; [split; cbn; [by apply inc_ok|done]|]. split; cbn; [by intros ->|]. intros Hlt.
    rewrite (low_not_high _ _ _) with (2 := Hdl) (3 := Hdh) (4 := Hle) (5 := Hlt).
    + apply Hlo. eapply sat_lt_mono; [|..|exact Hlt]; [apply inc_maxVal| |done].
      erewrite inc_counter by done. unfold sat_ok in Hs. lia.
    + apply (inc_ok 32 _ Hs).
  - split; [split; cbn; [by apply dec_ok|done]|]. split; cbn; [|by intros ->]. intros Hge.
    destruct (sat_lt (dec (selector m)) (lowThreshold m)) eqn:Hlt.
    + rewrite (low_not_high _ _ (highThreshold m)) with (2 := Hdl) (5 := Hlt) in Hge; [done|..].
      * apply (dec_ok 32 _ Hs).
      * done.
      * done.
    + apply Hhi. eapply sat_ge_mono; [|..|exact Hge]; [apply dec_maxVal| |done].
      erewrite dec_counter by done. unfold sat_ok in Hs. lia.
Qed.

Lemma DuelingMonitor_new_ok n cs ts bits low high m n' :
  0 <= bits < 32 → 0 < den low → 0 < den high →
  DuelingMonitor_new n cs ts bits low high = Ok (m, n') → thresholds_ok m ∧ winner_ok m.
Proof.
  intros Hb Hdl Hdh H. unfold DuelingMonitor_new in H. cbv zeta in H.
  destruct (32 <=? n); [done|].
  destruct (SatCounter_new 32 bits 0) as [sel|] eqn:Hs; [|done].
  apply SatCounter_new_ok in Hs as (Hok & Hmax & _ & _); [|lia..].
  cbn [mbind result_bind] in H. unfold fatal_if in H.
  repeat match type of H with
  | ((if ?c then Err Fatal else _) ≫= _) = _ => destruct c eqn:?; [done|]; cbn [mbind result_bind] in H
  end.
  unfold shr in H. cbn in H. injection H as <- <-. bool_prop.
  assert (0 <= maxVal sel .>> 1 <= maxVal sel) as Hsh.
  { unfold sat_ok in Hok. rewrite Z.shiftr_div_pow2 by lia.
    split; [apply Z.div_pos; lia|apply Z.div_le_upper_bound; lia]. }
  assert (thresholds_ok (mkMonitor (u64 (s32 (1 .<< n))) cs ts low high
    (with_counter (with_counter sel (maxVal sel)) (maxVal sel .>> 1)) 0 true)) as Ht.
  { split; [|cbn; lia]. apply sat_with_counter; [|done].
    apply sat_with_counter; [done|]. unfold sat_ok in Hok. lia. }
  split; [exact Ht|]. split; cbn; [|by intros ->]. intros Hge.
  match goal with |- negb ?b = true => destruct b eqn:Hlt; [|done] end.
  rewrite (low_not_high _ _ high) with (2 := Hdl) (5 := Hlt) in Hge; [done|apply Hsh|done|lia].
Qed.

(** From the monitor's construction on, whatever the samples, the winner agrees with
    the selector: true when it is at or above the high threshold, false when it is below
    the low one, and the selector stays within its bits. *)
Theorem monitor_winner_tracks n cs ts bits low high m n' ds :
  0 <= bits < 32 → 0 < den low → 0 < den high →
  DuelingMonitor_new n cs ts bits low high = Ok (m, n') →
  let m' := foldl sample m ds in sat_ok 32 (selector m') ∧ winner_ok m'.
Proof.
  intros Hb Hdl Hdh H. destruct (DuelingMonitor_new_ok _ _ _ _ _ _ _ _ Hb Hdl Hdh H) as [Ht Hw].
  clear H. cbv zeta. revert m Ht Hw. induction ds as [|d ds IH]; intros m Ht Hw; cbn [foldl].
  - split; [apply Ht|done].
  - destruct (sample_ok m d Ht Hw). by apply IH.
Qed.

(** ** Sampling a constituency *)

Lemma popCount_land_self i : popCount i = 1 → i .& i ≠ 0.
Proof. intros Hp H0. rewrite Z.land_diag in H0. by rewrite H0 in Hp. Qed.

(** What initEntry makes of the entry at position [r] of its constituency. *)
Definition sampled (m : DuelingMonitor) (r : Z) : bool * bool :=
  if r <? teamSize m then (true, false)
  else if constituencySize m - teamSize m <=? r then (true, true) else (false, false).

Lemma initEntry_fresh m : popCount (id m) = 1 → 0 <= regionCounter m < constituencySize m →
  0 <= teamSize m → 2 * teamSize m <= constituencySize m < 2 ^ 31 →
  ∃ d, initEntry m Dueler_new =
         Ok (with_region m ((regionCounter m + 1) mod constituencySize m), d) ∧
       isSample d (id m) = sampled m (regionCounter m).
Proof.
  intros Hid Hr Ht Hc. unfold initEntry, sampled, setSample, Dueler_new, panic_if.
  rewrite Hid. cbn [negb _isSample _team Z.eqb Pos.eqb]. rewrite Z.land_0_l.
  rewrite (wrap_small 64) by (unfold fits; lia).
  assert ((if constituencySize m <=? regionCounter m + 1 then 0 else regionCounter m + 1) =
    (regionCounter m + 1) mod constituencySize m) as ->.
  { destruct (Z.leb_spec (constituencySize m) (regionCounter m + 1)).
    - replace (regionCounter m + 1) with (constituencySize m) by lia. by rewrite Z.mod_same by lia.
    - by rewrite Z.mod_small by lia. }
  pose proof (popCount_land_self (id m) Hid) as Hself.
  destruct (Z.ltb_spec (regionCounter m) (teamSize m)); cbn.
  - eexists. split; [done|]. unfold isSample. cbn. rewrite Z.land_0_l. f_equal.
    by apply negb_true_iff, Z.eqb_neq.
  - destruct (Z.leb_spec (constituencySize m - teamSize m) (regionCounter m)); cbn.
    + eexists. split; [done|]. unfold isSample. cbn. f_equal; by apply negb_true_iff, Z.eqb_neq.
    + eexists. split; [done|]. unfold isSample. cbn. by rewrite Z.land_0_l.
Qed.

(** The duelers of [n] new entries, in order. *)
Fixpoint init_entries (m : DuelingMonitor) (n : nat) : result (DuelingMonitor * list Dueler) :=
  match n with
  | O => Ok (m, [])
  | S n =>
      '(m, d) ← initEntry m Dueler_new;
      '(m, ds) ← init_entries m n;
      Ok (m, d :: ds)
  end.

(** The entries of each constituency are divided evenly: of any number of entries
    initialised in order, the one at position k is a sample of the first team when k
    modulo the constituency size is less than the team size, of the second team when it
    is within the team size of the end, and no sample otherwise. *)
Theorem init_entries_samples m n : popCount (id m) = 1 →
  0 <= regionCounter m < constituencySize m →
  0 <= teamSize m → 2 * teamSize m <= constituencySize m < 2 ^ 31 →
  ∃ m' ds, init_entries m n = Ok (m', ds) ∧ length ds = n ∧
    regionCounter m' = (regionCounter m + Z.of_nat n) mod constituencySize m ∧
    ∀ k d, ds !! k = Some d → isSample d (id m) =
      sampled m ((regionCounter m + Z.of_nat k) mod constituencySize m).
Proof.
  revert m. induction n as [|n IH]; intros m Hid Hr Ht Hc.
  { exists m, []. cbn. rewrite Z.add_0_r, Z.mod_small by lia. by repeat split. }
  destruct (initEntry_fresh m Hid Hr Ht Hc) as (d & Hd & Hs). cbn [init_entries]. rewrite Hd.
  cbn [mbind result_bind]. set (m1 := with_region m _).
  destruct (IH m1) as (m' & ds & -> & Hlen & Hreg & Hk); [done| |done|done|].
  { cbn. apply Z.mod_pos_bound. lia. }
  cbn [mbind result_bind]. exists m', (d :: ds). split; [done|]. split; [cbn; lia|].
  change (constituencySize m1) with (constituencySize m) in *. change (id m1) with (id m) in *.
  change (regionCounter m1) with ((regionCounter m + 1) mod constituencySize m) in *. split.
  - rewrite Hreg, Z.add_mod_idemp_l by lia. f_equal. lia.
  - intros [|k] d' Hd'.
    + cbn in Hd'. injection Hd' as <-. by rewrite Z.add_0_r, Z.mod_small by lia.
    + cbn in Hd'. rewrite (Hk k d' Hd'), Z.add_mod_idemp_l by lia.
      change (sampled m1) with (sampled m). do 2 f_equal. lia.
Qed.

(** ** The Dueling replacement policy *)

Section Policy.
Context {SA SB : Type} `{!Policy SA, !Policy SB}.
Context (invalidateA touchA resetA : SA → nat → result SA).
Context (invalidateB touchB resetB : SB → nat → result SB).

(** The entries' replacement data: the dueler here, the data of the two policies in
    their own states under the same entry.  Re-routing the candidates' data to a policy
    for the time of its search is the search in that policy's state. *)
Record DuelingState := mkDueling {
  polA : SA;
  polB : SB;
  duelers : gmap nat Dueler;
  monitor : DuelingMonitor;
  selectedA : Z;
  selectedB : Z
}.

Definition with_policies (s : DuelingState) (a : SA) (b : SB) (m : DuelingMonitor) : DuelingState :=
  mkDueling a b (duelers s) m (selectedA s) (selectedB s).

Definition dueling_invalidate (s : DuelingState) (e : nat) : result DuelingState :=
  a ← invalidateA (polA s) e;
  b ← invalidateB (polB s) e;
  Ok (with_policies s a b (monitor s)).

Definition dueling_touch (s : DuelingState) (e : nat) : result DuelingState :=
  a ← touchA (polA s) e;
  b ← touchB (polB s) e;
  Ok (with_policies s a b (monitor s)).

(** A reset is an insertion: the miss is charged to the entry's team. *)
Definition dueling_reset (s : DuelingState) (e : nat) : result DuelingState :=
  a ← resetA (polA s) e;
  b ← resetB (polB s) e;
  d ← deref (duelers s !! e);
  Ok (with_policies s a b (sample (monitor s) d)).

(** Every sampled candidate must be of the first candidate's team. *)
Fixpoint same_team (m : DuelingMonitor) (ds : gmap nat Dueler) (team : bool) (cands : list nat)
    : result unit :=
  match cands with
  | [] => Ok tt
  | c :: cands =>
      d ← deref (ds !! c);
      let '(is_sample, candidate_team) := isSample d (id m) in
      _ ← panic_if (is_sample && negb (eqb team candidate_team));
      same_team m ds team cands
  end.

Definition dueling_getVictim (team_size : Z) (s : DuelingState) (cands : list nat)
    : result (nat * DuelingState) :=
  _ ← panic_if (negb (Z.of_nat (length cands) =? team_size));
  let winner := negb (getWinner (monitor s)) in
  c0 ← deref (head cands);
  d0 ← deref (duelers s !! c0);
  let '(is_sample, team) := isSample d0 (id (monitor s)) in
  _ ← same_team (monitor s) (duelers s) team cands;
  if (is_sample && negb team) || (negb is_sample && negb winner) then
    '(v, a) ← getVictim (polA s) cands;
    Ok (v, mkDueling a (polB s) (duelers s) (monitor s) (selectedA s + 1) (selectedB s))
  else
    '(v, b) ← getVictim (polB s) cands;
    Ok (v, mkDueling (polA s) b (duelers s) (monitor s) (selectedA s) (selectedB s + 1)).

Context `{!PolicyLaws SA, !PolicyLaws SB}.

Definition entry_ok (s : DuelingState) (e : nat) : Prop :=
  knows (polA s) e ∧ knows (polB s) e ∧ is_Some (duelers s !! e).

(** The candidates' samples, if any, are all of one team. *)
Definition uniform (s : DuelingState) (team : bool) (cands : list nat) : Prop :=
  Forall (λ c, ∀ d, duelers s !! c = Some d →
    (isSample d (id (monitor s))).1 = true → (isSample d (id (monitor s))).2 = team) cands.

Lemma same_team_ok s team cands : Forall (entry_ok s) cands → uniform s team cands →
  same_team (monitor s) (duelers s) team cands = Ok tt.
Proof.
  intros Hok Hu. induction Hok as [|c cands (_ & _ & [d Hd]) Hc IH]; [done|].
  apply Forall_cons in Hu as [Hu1 Hu]. cbn [same_team]. rewrite Hd. cbn [deref mbind result_bind].
  specialize (Hu1 d Hd).
  destruct (isSample d (id (monitor s))) as [[] t]; cbn [fst snd andb panic_if mbind result_bind] in *.
  - rewrite Hu1 by done. rewrite eqb_reflx. by apply IH.
  - by apply IH.
Qed.

(** Dueling returns a candidate and keeps every entry, whatever the two policies are:
    samples of the first team are always handled by the first policy and samples of the
    second by the second, other sets by the policy whose samples missed less, and the
    policy that is not asked is left alone. *)
Theorem dueling_getVictim_team s team_size cands c0 d0 is_sample team :
  Z.of_nat (length cands) = team_size → head cands = Some c0 →
  Forall (entry_ok s) cands → duelers s !! c0 = Some d0 →
  isSample d0 (id (monitor s)) = (is_sample, team) → uniform s team cands →
  ∃ v s', dueling_getVictim team_size s cands = Ok (v, s') ∧ v ∈ cands ∧
    (∀ e, entry_ok s e → entry_ok s' e) ∧
    if (if is_sample then negb team else winner (monitor s))
    then polB s' = polB s ∧ selectedA s' = selectedA s + 1
    else polA s' = polA s ∧ selectedB s' = selectedB s + 1.
Proof.
  intros Hlen Hh Hok Hd0 Hs Hu. unfold dueling_getVictim.
  rewrite Hlen, Z.eqb_refl, Hh. cbn [negb panic_if deref mbind result_bind].
  rewrite Hd0. cbn [deref mbind result_bind]. rewrite Hs, same_team_ok by done.
  cbn [mbind result_bind]. unfold getWinner.
  assert ((is_sample && negb team) || (negb is_sample && negb (negb (winner (monitor s)))) =
    (if is_sample then negb team else winner (monitor s))) as ->.
  { destruct is_sample, team, (winner (monitor s)); done. }
  assert (cands ≠ []) as Hne by by destruct cands.
  destruct (if is_sample then negb team else winner (monitor s)).
  - destruct (getVictim_candidate (polA s) cands Hne) as (v & a & -> & Hin & Hk).
    { eapply Forall_impl; [exact Hok|]. by intros e (? & _). }
    cbn [mbind result_bind]. eexists _, _. split; [done|]. split; [done|]. split; [|done].
    intros e (? & ? & ?). repeat split; [by apply Hk|done|done].
  - destruct (getVictim_candidate (polB s) cands Hne) as (v & b & -> & Hin & Hk).
    { eapply Forall_impl; [exact Hok|]. by intros e (_ & ? & _). }
    cbn [mbind result_bind]. eexists _, _. split; [done|]. split; [done|]. split; [|done].
    intros e (? & ? & ?). repeat split; [done|by apply Hk|done].
Qed.
End Policy.

(** ** Witnesses *)

Definition half : threshold := mkThr 1 2.

Lemma monitor_winner_tracks_witness :
  ∃ m, DuelingMonitor_new 0 8 2 4 half half = Ok (m, 1) ∧ winner m = false ∧
    let m' := foldl sample m [mkDueler 1 1; mkDueler 1 0; mkDueler 0 0] in
    sat_ok 32 (selector m') ∧ winner_ok m'.
Proof.
  eexists. split; [reflexivity|]. split; [reflexivity|].
  eapply (monitor_winner_tracks 0 8 2 4 half half); [lia|cbn; lia|cbn; lia|reflexivity].
Defined.

Definition ex_monitor : DuelingMonitor := mkMonitor 1 8 2 half half (mkSat 0 15 7) 0 false.

Lemma init_entries_samples_witness :
  ∃ m' ds, init_entries ex_monitor 9 = Ok (m', ds) ∧ length ds = 9%nat ∧
    regionCounter m' = (0 + 9) mod 8 ∧
    ∀ k d, ds !! k = Some d → isSample d 1 = sampled ex_monitor ((0 + Z.of_nat k) mod 8).
Proof.
  apply (init_entries_samples ex_monitor 9); [reflexivity|cbn; lia..].
Defined.

Definition ex_dueling : DuelingState :=
  mkDueling ex_lru ex_fifo
    (list_to_map [(0%nat, mkDueler 1 0); (1%nat, mkDueler 1 0); (2%nat, mkDueler 1 0)])
    ex_monitor 0 0.

Lemma dueling_getVictim_team_witness :
  (∃ s', dueling_getVictim 3 ex_dueling [0; 1; 2]%nat = Ok (1%nat, s')) ∧
  ∃ v s', dueling_getVictim 3 ex_dueling [0; 1; 2]%nat = Ok (v, s') ∧ v ∈ [0; 1; 2]%nat ∧
    (∀ e, entry_ok ex_dueling e → entry_ok s' e) ∧
    polB s' = polB ex_dueling ∧ selectedA s' = selectedA ex_dueling + 1.
Proof.
  split; [eexists; reflexivity|].
  apply (dueling_getVictim_team ex_dueling 3 [0; 1; 2]%nat 0%nat (mkDueler 1 0) true false);
    [reflexivity|reflexivity| |reflexivity|reflexivity|].
  - repeat apply Forall_cons_2; [..|apply Forall_nil_2];
      (split; [by eexists|split; [by eexists|by eexists]]).
  - repeat apply Forall_cons_2; [..|apply Forall_nil_2];
      (intros d Hd _; vm_compute in Hd; injection Hd as <-; reflexivity).
Defined.
End Dueling.
