(* ===== verification/Indexing.v ===== *)
(** * mem/cache/tags/indexing_policies: from addresses to sets and back

    A set-associative policy takes the set from the address bits above the block
    offset; a skewed one mixes them with the tag, differently in each way.  The entries
    are numbers in [sets], each with the position it was given.  [regenerateAddr]
    recovers the address of a block from its tag and its position. *)

From Stdlib Require Import ZArith Lia Btauto.
From stdpp Require Import base numbers option list gmap.
From S2P Require Import Prelude Bitfield IntMath.

Module Indexing.
Import Bitfield IntMath.

(** ** The policy's constants and its sets *)

Record IndexingPolicy := mkIndexing {
  assoc : Z;
  numSets : Z;
  setShift : Z;
  setMask : Z;
  tagShift : Z;
  sets : list (list (option nat));
  positions : gmap nat (Z * Z)
}.

(** IndexingPolicyTemplate(p, num_entries, set_shift); the quotient by an
    associativity of zero is undefined. *)
Definition IndexingPolicy_new (p_assoc num_entries set_shift : Z) : result IndexingPolicy :=
  if p_assoc =? 0 then Err Undefined else
  let numSets := u32 (num_entries / p_assoc) in
  l ← floorLog2 4 numSets;
  _ ← fatal_if (negb (isPowerOf2 numSets));
  _ ← fatal_if (p_assoc <=? 0);
  Ok (mkIndexing p_assoc numSets set_shift (u32 (numSets - 1)) (set_shift + l)
        (replicate (Z.to_nat numSets) (replicate (Z.to_nat p_assoc) None)) ∅).

Definition setEntry (ip : IndexingPolicy) (entry : nat) (index : Z) : result IndexingPolicy :=
  let set := u32 (index / assoc ip) in
  let way := u32 (index mod assoc ip) in
  _ ← assert_ok (set <? numSets ip);
  row ← deref (sets ip !! Z.to_nat set);
  let row := <[Z.to_nat way := Some entry]> row in
  Ok (mkIndexing (assoc ip) (numSets ip) (setShift ip) (setMask ip) (tagShift ip)
        (<[Z.to_nat set := row]> (sets ip)) (<[entry := (set, way)]> (positions ip))).

Definition getEntry (ip : IndexingPolicy) (set way : Z) : result (option nat) :=
  row ← deref (sets ip !! Z.to_nat set);
  deref (row !! Z.to_nat way).

Definition extractTag (ip : IndexingPolicy) (addr : Z) : Z := addr .>> tagShift ip.

(** ** Set-associative *)

Definition sa_extractSet (ip : IndexingPolicy) (addr : Z) : Z :=
  u32 ((addr .>> setShift ip) .& setMask ip).

(** getSet() is a uint32_t, and so is its shift. *)
Definition sa_regenerateAddr (ip : IndexingPolicy) (tag set : Z) : Z :=
  u64 (tag .<< tagShift ip) .| u32 (set .<< setShift ip).

Definition sa_getPossibleEntries (ip : IndexingPolicy) (addr : Z) : result (list (option nat)) :=
  deref (sets ip !! Z.to_nat (sa_extractSet ip addr)).

(** ** Skewed associative *)

Definition NUM_SKEWING_FUNCTIONS : Z := 8.

(** The constructor of the base class has taken the same logarithm. *)
Definition msbShift (ip : IndexingPolicy) : Z := log2_of 4 (numSets ip) - 1.

Definition Skewed_new (p_assoc num_entries set_shift : Z) : result IndexingPolicy :=
  ip ← IndexingPolicy_new p_assoc num_entries set_shift;
  _ ← panic_if (64 <? setShift ip + 2 * (msbShift ip + 1));
  _ ← fatal_if (numSets ip <=? 2);
  Ok ip.

Definition hash (m addr : Z) : Z :=
  let lsb := bits1 64 addr 0 in
  let msb := bits1 64 addr m in
  let xor_bit := msb .^ lsb in
  insertBits1 64 (addr .>> 1) m xor_bit.

Definition dehash (m addr : Z) : Z :=
  let msb := bits1 64 addr (m - 1) in
  let xor_bit := bits1 64 addr m in
  let lsb := msb .^ xor_bit in
  let addr_no_msb := mbits 64 addr (m - 1) 0 in
  insertBits1 64 (u64 (addr_no_msb .<< 1)) 0 lsb.

(** for (i = 0; i < n; i++) addr = f(addr) *)
Fixpoint iter (n : nat) (f : Z → Z) (addr : Z) : Z :=
  match n with
  | O => addr
  | S n => iter n f (f addr)
  end.

Definition skew (m addr way : Z) : Z :=
  let addr1 := bit_field 64 addr m 0 in
  let addr2 := bit_field 64 addr (2 * (m + 1) - 1) (m + 1) in
  let H := hash m in
  let D := dehash m in
  let addr1 :=
    match way mod NUM_SKEWING_FUNCTIONS with
    | 0 => H addr1 .^ H addr2 .^ addr2
    | 1 => H addr1 .^ H addr2 .^ addr1
    | 2 => H addr1 .^ D addr2 .^ addr2
    | 3 => H addr1 .^ D addr2 .^ addr1
    | 4 => D addr1 .^ H addr2 .^ addr2
    | 5 => D addr1 .^ H addr2 .^ addr1
    | 6 => D addr1 .^ D addr2 .^ addr2
    | _ => D addr1 .^ D addr2 .^ addr1
    end in
  iter (Z.to_nat (way / NUM_SKEWING_FUNCTIONS)) H addr1.

Definition deskew (m addr way : Z) : Z :=
  let addr1 := bit_field 64 addr m 0 in
  let addr2 := bit_field 64 addr (2 * (m + 1) - 1) (m + 1) in
  let H := hash m in
  let D := dehash m in
  let addr1 := if NUM_SKEWING_FUNCTIONS <=? way
               then iter (Z.to_nat (way / NUM_SKEWING_FUNCTIONS)) D addr1 else addr1 in
  match way mod 8 with
  | 0 => D (addr1 .^ H addr2 .^ addr2)
  | 1 => iter (Z.to_nat m) H (addr1 .^ H addr2)
  | 2 => D (addr1 .^ D addr2 .^ addr2)
  | 3 => iter (Z.to_nat m) H (addr1 .^ D addr2)
  | 4 => H (addr1 .^ H addr2 .^ addr2)
  | 5 => iter (Z.to_nat (m + 1)) H (addr1 .^ H addr2)
  | 6 => H (addr1 .^ D addr2 .^ addr2)
  | _ => iter (Z.to_nat (m + 1)) H (addr1 .^ D addr2)
  end.

Definition sk_extractSet (ip : IndexingPolicy) (addr way : Z) : Z :=
  u32 (skew (msbShift ip) (addr .>> setShift ip) way .& setMask ip).

Definition sk_regenerateAddr (ip : IndexingPolicy) (tag set way : Z) : Z :=
  let addr_set := u64 (tag .<< (msbShift ip + 1)) .| set in
  u64 (tag .<< tagShift ip) .|
  u64 ((deskew (msbShift ip) addr_set way .& setMask ip) .<< setShift ip).

(** One candidate per way. *)
Fixpoint sk_entries (ip : IndexingPolicy) (addr way : Z) (n : nat) : result (list (option nat)) :=
  match n with
  | O => Ok []
  | S n =>
      e ← getEntry ip (sk_extractSet ip addr way) way;
      l ← sk_entries ip addr (way + 1) n;
      Ok (e :: l)
  end.

Definition sk_getPossibleEntries (ip : IndexingPolicy) (addr : Z) : result (list (option nat)) :=
  sk_entries ip addr 0 (Z.to_nat (assoc ip)).

(** ** The skewing functions are linear and invertible

    [hash m] is a step of a linear feedback shift register of [m + 1] bits. *)

Section Skew.
Context (m : Z) (Hm : 0 < m < 63).

Lemma hash_bit x i : fits (m + 1) x → 0 <= i → Z.testbit (hash m x) i =
  if i =? m then xorb (Z.testbit x m) (Z.testbit x 0) else Z.testbit x (i + 1).
Proof.
  intros Hx Hi. unfold hash, insertBits1. cbv zeta.
  assert (fits 64 x) as Hx64.
  { destruct Hx. split; [done|]. assert (2 ^ (m + 1) < 2 ^ 64) by (apply Z.pow_lt_mono_r; lia). lia. }
  rewrite testbit_insertBits by (lia || (apply fits_shiftr; done || lia)).
  rewrite Z.shiftr_spec by lia. destruct (Z.eqb_spec i m) as [->|].
  - rewrite Z.leb_refl, Z.sub_diag. destruct (Z.ltb_spec m 64); [cbn [andb]|lia].
    rewrite Z.lxor_spec, !bits1_testbit, !Z.b2z_bit0 by lia. done.
  - destruct (Z.leb_spec m i), (Z.leb_spec i m); try lia; done.
Qed.

Lemma hash_fits x : fits (m + 1) x → fits (m + 1) (hash m x).
Proof.
  intros Hx. apply fits_testbit; [lia| |].
  - unfold hash, insertBits1, insert_field. cbv zeta. apply Z.lor_nonneg.
    split; [apply Z.land_nonneg; right|]; by apply wrap_nonneg.
  - intros i Hi. rewrite hash_bit by (done || lia). destruct (Z.eqb_spec i m); [lia|].
    apply (testbit_fits (m + 1)); [done|lia].
Qed.

Lemma dehash_bit x i : fits (m + 1) x → 0 <= i → Z.testbit (dehash m x) i =
  if i =? 0 then xorb (Z.testbit x (m - 1)) (Z.testbit x m)
  else (i <=? m) && Z.testbit x (i - 1).
Proof.
  intros Hx Hi. unfold dehash, insertBits1. cbv zeta.
  rewrite testbit_insertBits by (lia || by apply wrap_fits).
  destruct (Z.eqb_spec i 0) as [->|].
  - cbn [Z.leb Z.ltb Z.compare andb]. rewrite Z.sub_0_r, Z.lxor_spec, !bits1_testbit, !Z.b2z_bit0 by lia.
    done.
  - destruct (Z.leb_spec 0 i), (Z.leb_spec i 0); try lia. cbn [andb].
    rewrite testbit_wrap, Z.shiftl_spec by lia. unfold mbits.
    rewrite (wrap_small 32 (m - 1 + 1)) by (unfold fits; lia).
    autorewrite with testbit. rewrite !testbit_mask by lia.
    destruct (Z.leb_spec i m).
    + destruct (Z.ltb_spec i 64), (Z.ltb_spec (i - 1) 64), (Z.ltb_spec (i - 1) (m - 1 + 1)),
        (Z.ltb_spec (i - 1) 0); try lia; cbn; btauto.
    + destruct (Z.ltb_spec (i - 1) (m - 1 + 1)); [lia|]. cbn. btauto.
Qed.

Lemma dehash_fits x : fits (m + 1) x → fits (m + 1) (dehash m x).
Proof.
  intros Hx. apply fits_testbit; [lia| |].
  - unfold dehash, insertBits1, insert_field. cbv zeta. apply Z.lor_nonneg.
    split; [apply Z.land_nonneg; right|]; by apply wrap_nonneg.
  - intros i Hi. rewrite dehash_bit by (done || lia). destruct (Z.eqb_spec i 0); [lia|].
    destruct (Z.leb_spec i m); [lia|done].
Qed.

Lemma dehash_hash x : fits (m + 1) x → dehash m (hash m x) = x.
Proof.
  intros Hx. apply Z.bits_inj'. intros i Hi. rewrite dehash_bit by (done || by apply hash_fits).
  destruct (Z.eqb_spec i 0) as [->|].
  - rewrite !hash_bit by (done || lia). rewrite Z.eqb_refl.
    destruct (Z.eqb_spec (m - 1) m); [lia|]. replace (m - 1 + 1) with m by lia. btauto.
  - rewrite hash_bit by (done || lia). replace (i - 1 + 1) with i by lia.
    destruct (Z.eqb_spec (i - 1) m), (Z.leb_spec i m); try lia; cbn [andb]; try done.
    all: by rewrite (testbit_fits (m + 1) x) by (done || lia).
Qed.

Lemma hash_dehash x : fits (m + 1) x → hash m (dehash m x) = x.
Proof.
  intros Hx. apply Z.bits_inj'. intros i Hi. rewrite hash_bit by (done || by apply dehash_fits).
  destruct (Z.eqb_spec i m) as [->|].
  - rewrite !dehash_bit by (done || lia). rewrite Z.eqb_refl, Z.leb_refl.
    destruct (Z.eqb_spec m 0); [lia|]. btauto.
  - rewrite dehash_bit by (done || lia). replace (i + 1 - 1) with i by lia.
    destruct (Z.eqb_spec (i + 1) 0), (Z.leb_spec (i + 1) m); try lia; [done|].
    by rewrite (testbit_fits (m + 1) x) by (done || lia).
Qed.

Lemma hash_lxor x y : fits (m + 1) x → fits (m + 1) y →
  hash m (x .^ y) = hash m x .^ hash m y.
Proof.
  intros Hx Hy. apply Z.bits_inj'. intros i Hi.
  rewrite Z.lxor_spec, !hash_bit, !Z.lxor_spec by (done || apply fits_lxor; done || lia).
  destruct (Z.eqb_spec i m); [btauto|done].
Qed.

Lemma iter_fits n f x : (∀ y, fits (m + 1) y → fits (m + 1) (f y)) →
  fits (m + 1) x → fits (m + 1) (iter n f x).
Proof. intros Hf. revert x. induction n as [|n IH]; intros x Hx; [done|]. cbn. auto. Qed.

Lemma iter_S n f x : iter (S n) f x = f (iter n f x).
Proof. revert x. induction n as [|n IH]; intros x; [done|]. cbn in *. by rewrite IH. Qed.

Lemma iter_hash_lxor n x y : fits (m + 1) x → fits (m + 1) y →
  iter n (hash m) (x .^ y) = iter n (hash m) x .^ iter n (hash m) y.
Proof.
  revert x y. induction n as [|n IH]; intros x y Hx Hy; [done|]. cbn.
  by rewrite hash_lxor, IH by (done || by apply hash_fits).
Qed.

Lemma iter_inverse n f g x : (∀ y, fits (m + 1) y → fits (m + 1) (f y)) →
  (∀ y, fits (m + 1) y → g (f y) = y) → fits (m + 1) x → iter n g (iter n f x) = x.
Proof.
  intros Hf Hg. revert x. induction n as [|n IH]; intros x Hx; [done|].
  rewrite (iter_S n f). cbn. rewrite Hg by by apply iter_fits. by apply IH.
Qed.

(** Bit [i] of the register reaches bit 0 after [i] steps. *)
Lemma iter_hash_bit0 (i : nat) x : Z.of_nat i <= m → fits (m + 1) x →
  Z.testbit (iter i (hash m) x) 0 = Z.testbit x (Z.of_nat i).
Proof.
  revert x. induction i as [|i IH]; intros x Hi Hx; [done|]. cbn [iter].
  rewrite IH by (lia || by apply hash_fits). rewrite hash_bit by (done || lia).
  destruct (Z.eqb_spec (Z.of_nat i) m); [lia|]. f_equal. lia.
Qed.

Lemma iter_iter a b f (x : Z) : iter a f (iter b f x) = iter (b + a) f x.
Proof. revert x. induction b as [|b IH]; intros x; [done|]. cbn. apply IH. Qed.

(** The characteristic polynomial of the register: H^(m+1) = H^m + 1. *)
Lemma hash_feedback x : fits (m + 1) x →
  iter (Z.to_nat (m + 1)) (hash m) x = iter (Z.to_nat m) (hash m) x .^ x.
Proof.
  intros Hx. assert (∀ n, fits (m + 1) (iter n (hash m) x)) as Hf
    by (intros n; apply iter_fits; [apply hash_fits|done]).
  apply Z.bits_inj'. intros i Hi. rewrite Z.lxor_spec.
  destruct (decide (i <= m)) as [Him|Him].
  2:{ rewrite !(testbit_fits (m + 1)) by (done || lia). done. }
  rewrite <-(Z2Nat.id i) by lia. set (k := Z.to_nat i) in *.
  rewrite <-!(iter_hash_bit0 k) by (done || lia). rewrite !iter_iter.
  replace (Z.to_nat (m + 1) + k)%nat with (k + S (Z.to_nat m))%nat by lia.
  replace (Z.to_nat m + k)%nat with (k + Z.to_nat m)%nat by lia.
  rewrite <-!(iter_iter _ k). set (z := iter k (hash m) x).
  assert (fits (m + 1) z) as Hz by apply Hf.
  cbn [iter]. rewrite (iter_hash_bit0 (Z.to_nat m) (hash m z)), (iter_hash_bit0 (Z.to_nat m) z)
    by (lia || done || by apply hash_fits).
  rewrite Z2Nat.id, hash_bit, Z.eqb_refl by (done || lia). done.
Qed.

(** The odd functions are inverted by turning the register on. *)
Lemma undo_hash_xor x : fits (m + 1) x → iter (Z.to_nat m) (hash m) (hash m x .^ x) = x.
Proof.
  intros Hx. rewrite iter_hash_lxor by (done || by apply hash_fits).
  change (iter (Z.to_nat m) (hash m) (hash m x)) with (iter (S (Z.to_nat m)) (hash m) x).
  replace (S (Z.to_nat m)) with (Z.to_nat (m + 1)) by lia.
  rewrite hash_feedback by done. rewrite (Z.lxor_comm _ x), Z.lxor_assoc, Z.lxor_nilpotent.
  apply Z.lxor_0_r.
Qed.

Lemma undo_dehash_xor x : fits (m + 1) x →
  iter (Z.to_nat (m + 1)) (hash m) (dehash m x .^ x) = x.
Proof.
  intros Hx. replace (Z.to_nat (m + 1)) with (S (Z.to_nat m)) by lia. cbn [iter].
  rewrite hash_lxor, hash_dehash by (done || by apply dehash_fits).
  rewrite Z.lxor_comm. by apply undo_hash_xor.
Qed.

Lemma bits_fits_width addr last : 0 <= last → last + m < 64 → fits (m + 1) (bit_field 64 addr (last + m) last).
Proof.
  intros Hl Hlm. apply fits_testbit; [lia|by apply wrap_nonneg|].
  intros i Hi. rewrite testbit_bits by lia. destruct (Z.leb_spec i (last + m - last)); [lia|].
  by rewrite andb_false_r.
Qed.

Definition skew_case (way x a2 : Z) : Z :=
  match way mod 8 with
  | 0 => hash m x .^ hash m a2 .^ a2
  | 1 => hash m x .^ hash m a2 .^ x
  | 2 => hash m x .^ dehash m a2 .^ a2
  | 3 => hash m x .^ dehash m a2 .^ x
  | 4 => dehash m x .^ hash m a2 .^ a2
  | 5 => dehash m x .^ hash m a2 .^ x
  | 6 => dehash m x .^ dehash m a2 .^ a2
  | _ => dehash m x .^ dehash m a2 .^ x
  end.

Definition deskew_case (way y a2 : Z) : Z :=
  match way mod 8 with
  | 0 => dehash m (y .^ hash m a2 .^ a2)
  | 1 => iter (Z.to_nat m) (hash m) (y .^ hash m a2)
  | 2 => dehash m (y .^ dehash m a2 .^ a2)
  | 3 => iter (Z.to_nat m) (hash m) (y .^ dehash m a2)
  | 4 => hash m (y .^ hash m a2 .^ a2)
  | 5 => iter (Z.to_nat (m + 1)) (hash m) (y .^ hash m a2)
  | 6 => hash m (y .^ dehash m a2 .^ a2)
  | _ => iter (Z.to_nat (m + 1)) (hash m) (y .^ dehash m a2)
  end.

Lemma mod8_cases way : way mod 8 = 0 ∨ way mod 8 = 1 ∨ way mod 8 = 2 ∨ way mod 8 = 3 ∨
  way mod 8 = 4 ∨ way mod 8 = 5 ∨ way mod 8 = 6 ∨ way mod 8 = 7.
Proof. pose proof (Z.mod_pos_bound way 8). lia. Qed.

Lemma lxor_cancel2 a b c : a .^ b .^ c .^ b .^ c = a.
Proof. bitwise. Qed.
Lemma lxor_cancel1 a b c : a .^ b .^ c .^ b = a .^ c.
Proof. bitwise. Qed.

Lemma deskew_skew_case way x a2 : fits (m + 1) x → fits (m + 1) a2 →
  deskew_case way (skew_case way x a2) a2 = x.
Proof.
  intros Hx Ha. unfold deskew_case, skew_case.
  destruct (mod8_cases way) as [->|[->|[->|[->|[->|[->|[->| ->]]]]]]].
  all: rewrite ?lxor_cancel2, ?lxor_cancel1.
  all: first [by apply dehash_hash|by apply hash_dehash|by apply undo_hash_xor|by apply undo_dehash_xor].
Qed.

Lemma skew_case_fits way x a2 : fits (m + 1) x → fits (m + 1) a2 → fits (m + 1) (skew_case way x a2).
Proof.
  intros Hx Ha. unfold skew_case.
  destruct (mod8_cases way) as [->|[->|[->|[->|[->|[->|[->| ->]]]]]]].
  all: repeat (apply fits_lxor; [lia| |]); first [done|by apply hash_fits|by apply dehash_fits].
Qed.

Lemma skew_fits addr way : 2 * (m + 1) <= 64 → fits (m + 1) (skew m addr way).
Proof.
  intros H64. unfold skew. cbv zeta. apply iter_fits; [apply hash_fits|].
  apply skew_case_fits; [apply (bits_fits_width addr 0); lia|].
  replace (2 * (m + 1) - 1) with (m + 1 + m) by lia. apply bits_fits_width; lia.
Qed.

(** deskew recovers the low bits from a skewed set and the same upper bits. *)
Lemma deskew_skew addr addr' way : 0 <= way → 2 * (m + 1) <= 64 →
  bit_field 64 addr' m 0 = skew m addr way →
  bit_field 64 addr' (2 * (m + 1) - 1) (m + 1) = bit_field 64 addr (2 * (m + 1) - 1) (m + 1) →
  deskew m addr' way = bit_field 64 addr m 0.
Proof.
  intros Hw H64 H1 H2. unfold deskew. cbv zeta. rewrite H1, H2.
  assert (fits (m + 1) (bit_field 64 addr m 0)) as Hx by (apply (bits_fits_width addr 0); lia).
  assert (fits (m + 1) (bit_field 64 addr (2 * (m + 1) - 1) (m + 1))) as Ha.
  { replace (2 * (m + 1) - 1) with (m + 1 + m) by lia. apply bits_fits_width; lia. }
  unfold skew. cbv zeta. set (x := bit_field 64 addr m 0) in *. set (a2 := bit_field 64 addr _ (m + 1)) in *.
  change (deskew_case way (if NUM_SKEWING_FUNCTIONS <=? way then
     iter (Z.to_nat (way / 8)) (dehash m) (iter (Z.to_nat (way / 8)) (hash m) (skew_case way x a2))
     else iter (Z.to_nat (way / 8)) (hash m) (skew_case way x a2)) a2 = x).
  pose proof (skew_case_fits way x a2 Hx Ha) as Hf.
  destruct (Z.leb_spec NUM_SKEWING_FUNCTIONS way).
  - rewrite iter_inverse by (done || apply hash_fits || apply dehash_hash). by apply deskew_skew_case.
  - unfold NUM_SKEWING_FUNCTIONS in *. rewrite Z.div_small by lia. by apply deskew_skew_case.
Qed.
End Skew.

(** ** Addresses from tags and positions *)

(** The constants fit together: 2^n sets, and the tag starts above the set bits. *)
Definition indexing_ok (ip : IndexingPolicy) (n : Z) : Prop :=
  0 < n < 32 ∧ numSets ip = 2 ^ n ∧ setMask ip = Z.ones n ∧
  0 <= setShift ip ∧ tagShift ip = setShift ip + n ∧ tagShift ip <= 64.

Lemma log2_numSets n : 0 <= n < 32 → log2_of 4 (2 ^ n) = n.
Proof.
  intros Hn. rewrite log2_of_log2; [apply Z.log2_pow2; lia|set_solver|].
  split; [apply pow2_pos; lia|]. apply Z.pow_lt_mono_r; lia.
Qed.

(** What the constructor accepts has consistent constants. *)
Lemma IndexingPolicy_new_ok a num sh ip : 0 < a → 0 <= num → 0 <= sh →
  IndexingPolicy_new a num sh = Ok ip → sh + Z.log2 (numSets ip) <= 64 → 1 < numSets ip →
  indexing_ok ip (Z.log2 (numSets ip)) ∧ assoc ip = a ∧ setShift ip = sh.
Proof.
  intros Ha Hnum Hsh H H64 H1. unfold IndexingPolicy_new in H.
  destruct (Z.eqb_spec a 0); [lia|]. cbv zeta in H.
  pose proof (wrap_fits 32 (num / a) ltac:(lia)) as Hf.
  unfold floorLog2 in H.
  destruct (0 <? u32 (num / a)) eqn:H0; [|done]. cbn [assert_ok mbind result_bind] in H.
  destruct (isPowerOf2 (u32 (num / a))) eqn:Hp; [|done]. cbn [negb fatal_if mbind result_bind] in H.
  destruct (Z.leb_spec a 0); [lia|]. cbn [fatal_if mbind result_bind] in H.
  injection H as <-. cbn [numSets setMask setShift tagShift assoc] in *.
  apply isPowerOf2_pow2 in Hp as (k & Hk & Heq); [|apply Hf]. rewrite Heq in *.
  assert (k < 32) by (apply (Z.pow_lt_mono_r_iff 2); unfold fits in Hf; lia).
  assert (0 < k) by (destruct (decide (k = 0)) as [->|]; [done|lia]).
  rewrite Z.log2_pow2 in * by lia. split; [|done].
  repeat split; cbn [numSets setMask setShift tagShift]; try lia.
  - rewrite Z.ones_equiv. rewrite wrap_small; [lia|]. unfold fits in *.
    pose proof (pow2_pos k Hk). lia.
  - rewrite log2_numSets by lia. done.
  - rewrite log2_numSets by lia. lia.
Qed.

Lemma extractTag_bit ip n a j : indexing_ok ip n → 0 <= j →
  Z.testbit (extractTag ip a) j = Z.testbit a (j + tagShift ip).
Proof.
  intros (Hn & _ & _ & Hs & Ht & _) Hj. unfold extractTag. by rewrite Z.shiftr_spec by lia.
Qed.

(** The address with its block offset cleared. *)
Definition block_addr (ip : IndexingPolicy) (a : Z) : Z := a .>> setShift ip .<< setShift ip.

Lemma block_addr_bit ip a j : 0 <= setShift ip → 0 <= j →
  Z.testbit (block_addr ip a) j = (setShift ip <=? j) && Z.testbit a j.
Proof.
  intros Hs Hj. unfold block_addr. rewrite Z.shiftl_spec by lia.
  destruct (Z.leb_spec (setShift ip) j).
  - rewrite Z.shiftr_spec by lia. cbn. f_equal. lia.
  - by rewrite Z.testbit_neg_r by lia.
Qed.

(** Tag and set bits put together again. *)
Lemma regenerate_bits ip n a set : indexing_ok ip n → fits 64 a →
  (∀ j, 0 <= j → Z.testbit set j = (j <? n) && Z.testbit a (j + setShift ip)) →
  u64 (extractTag ip a .<< tagShift ip) .| u64 (set .<< setShift ip) = block_addr ip a.
Proof.
  intros Hok Ha Hset. pose proof Hok as (Hn & _ & _ & Hs & Ht & H64).
  apply Z.bits_inj'. intros j Hj. rewrite block_addr_bit by lia.
  rewrite Z.lor_spec, !testbit_wrap, !Z.shiftl_spec by lia.
  destruct (Z.ltb_spec j 64); [cbn [andb]|].
  2:{ rewrite (testbit_fits 64 a) by done. by rewrite andb_false_r. }
  destruct (Z.leb_spec (setShift ip) j); cbn [andb].
  2:{ by rewrite !Z.testbit_neg_r by lia. }
  rewrite Hset by lia. replace (j - setShift ip + setShift ip) with j by lia.
  destruct (Z.ltb_spec (j - setShift ip) n); cbn [andb].
  - by rewrite Z.testbit_neg_r by lia.
  - rewrite (extractTag_bit ip n) by (done || lia).
    replace (j - tagShift ip + tagShift ip) with j by lia. by rewrite orb_false_r.
Qed.

(** A set-associative cache recovers the address of a block from its tag and set, up
    to the block offset, as long as the way it is in spans at most 2^32 bytes. *)
Theorem sa_regenerateAddr_extract ip n a : indexing_ok ip n → tagShift ip <= 32 → fits 64 a →
  sa_regenerateAddr ip (extractTag ip a) (sa_extractSet ip a) = block_addr ip a.
Proof.
  intros Hok H32 Ha. pose proof Hok as (Hn & _ & Hmask & Hs & Ht & H64).
  unfold sa_regenerateAddr. rewrite <-(regenerate_bits ip n a (sa_extractSet ip a)); [|done|done|].
  - f_equal. apply Z.bits_inj'. intros j Hj. unfold sa_extractSet. rewrite Hmask.
    rewrite !testbit_wrap, !Z.shiftl_spec by lia.
    destruct (Z.ltb_spec j 32), (Z.ltb_spec j 64); try lia; cbn [andb]; try done.
    destruct (Z.leb_spec (setShift ip) j); [|by rewrite Z.testbit_neg_r by lia].
    rewrite testbit_wrap, Z.land_spec, testbit_ones by lia.
    destruct (Z.ltb_spec (j - setShift ip) n); [lia|]. by rewrite !andb_false_r.
  - intros j Hj. unfold sa_extractSet. rewrite Hmask, testbit_wrap by lia.
    rewrite Z.land_spec, Z.shiftr_spec, testbit_ones by lia.
    destruct (Z.ltb_spec j 32), (Z.ltb_spec j n); try lia; cbn; btauto.
Qed.

(** The set's shift is a 32-bit one: with 2^27 sets of 64-byte blocks the upper bit of the
    set is lost. *)
Theorem sa_regenerateAddr_truncates :
  ∃ ip a, indexing_ok ip 27 ∧ fits 64 a ∧
    sa_regenerateAddr ip (extractTag ip a) (sa_extractSet ip a) ≠ block_addr ip a.
Proof.
  exists (mkIndexing 1 (2 ^ 27) 6 (2 ^ 27 - 1) 33 [] ∅), (2 ^ 32).
  split; [|split]; [|unfold fits; lia|vm_compute; discriminate].
  unfold indexing_ok. cbn. rewrite Z.ones_equiv. lia.
Qed.

(** A skewed-associative cache recovers the address of a block, up to the block
    offset, from its tag, its way and the set the way's skewing function chose, for every
    way: the deskewing functions, the shift registers of the odd ways included, invert
    the skewing ones. *)
Theorem sk_regenerateAddr_extract ip n a way : indexing_ok ip n → 1 < n →
  setShift ip + 2 * n <= 64 → 0 <= way → fits 64 a →
  sk_regenerateAddr ip (extractTag ip a) (sk_extractSet ip a way) way = block_addr ip a.
Proof.
  intros Hok Hn1 H64 Hw Ha. pose proof Hok as (Hn & HN & Hmask & Hs & Ht & _).
  assert (msbShift ip = n - 1) as Hm by (unfold msbShift; rewrite HN, log2_numSets; lia).
  unfold sk_regenerateAddr. rewrite Hm. set (b := a .>> setShift ip).
  assert (fits n (skew (n - 1) b way)) as Hsk.
  { pose proof (skew_fits (n - 1) ltac:(lia) b way ltac:(lia)) as Hf.
    by replace (n - 1 + 1) with n in Hf by lia. }
  assert (sk_extractSet ip a way = skew (n - 1) b way) as ->.
  { unfold sk_extractSet. rewrite Hm, Hmask. fold b.
    rewrite Z.land_ones, Z.mod_small by (lia || apply Hsk). apply wrap_small.
    unfold fits in *. assert (2 ^ n < 2 ^ 32) by (apply Z.pow_lt_mono_r; lia). lia. }
  replace (n - 1 + 1) with n by lia.
  rewrite (deskew_skew (n - 1) ltac:(lia) b); [|done|lia| |].
  - apply (regenerate_bits ip n); [done|done|]. intros j Hj. rewrite Hmask.
    rewrite Z.land_spec, testbit_ones, testbit_bits by lia. unfold b.
    rewrite Z.shiftr_spec, Z.add_0_r by lia.
    destruct (Z.ltb_spec j n); cbn; [|btauto].
    destruct (Z.ltb_spec j 64), (Z.leb_spec j (n - 1 - 0)); try lia. cbn. btauto.
  - apply Z.bits_inj'. intros i Hi. rewrite testbit_bits by lia.
    rewrite Z.lor_spec, testbit_wrap, Z.shiftl_spec, Z.add_0_r by lia.
    destruct (Z.leb_spec i (n - 1 - 0)), (Z.ltb_spec i 64); try lia; cbn.
    + by rewrite Z.testbit_neg_r by lia.
    + by rewrite (testbit_fits n) by (done || lia).
    + by rewrite (testbit_fits n) by (done || lia).
  - apply Z.bits_inj'. intros i Hi. rewrite !testbit_bits by lia.
    destruct (Z.ltb_spec i 64), (Z.leb_spec i (2 * (n - 1 + 1) - 1 - (n - 1 + 1))); cbn; try done.
    rewrite Z.lor_spec, testbit_wrap, Z.shiftl_spec by lia.
    rewrite (testbit_fits n (skew _ _ _)) by (done || lia). rewrite orb_false_r.
    destruct (Z.ltb_spec (i + (n - 1 + 1)) 64); [cbn|lia].
    rewrite (extractTag_bit ip n) by (done || lia). unfold b. rewrite Z.shiftr_spec by lia.
    f_equal. lia.
Qed.

(** ** Witnesses: 64-byte blocks *)

Definition ex_sa : IndexingPolicy := mkIndexing 4 256 6 255 14 [] ∅.

Lemma ex_sa_ok : indexing_ok ex_sa 8.
Proof. split; [lia|]. split; [reflexivity|]. split; [reflexivity|]. cbn. lia. Qed.

Lemma sa_regenerateAddr_extract_witness :
  sa_extractSet ex_sa 0xdeadbeef = 0xfb ∧ extractTag ex_sa 0xdeadbeef = 0x37ab6 ∧
  sa_regenerateAddr ex_sa (extractTag ex_sa 0xdeadbeef) (sa_extractSet ex_sa 0xdeadbeef) = 0xdeadbec0.
Proof.
  split; [reflexivity|]. split; [reflexivity|].
  apply (sa_regenerateAddr_extract ex_sa 8 0xdeadbeef ex_sa_ok); [cbn; lia|unfold fits; lia].
Defined.

Lemma sk_regenerateAddr_extract_witness :
  sk_extractSet ex_sa 0xdeadbeef 5 ≠ sk_extractSet ex_sa 0xdeadbeef 13 ∧
  sk_regenerateAddr ex_sa (extractTag ex_sa 0xdeadbeef) (sk_extractSet ex_sa 0xdeadbeef 13) 13 = 0xdeadbec0.
Proof.
  split; [vm_compute; discriminate|].
  apply (sk_regenerateAddr_extract ex_sa 8 0xdeadbeef 13 ex_sa_ok);
    [lia|cbn; lia|lia|unfold fits; lia].
Defined.
End Indexing.
