(* ===== verification/Packet.v ===== *)
(** * mem/packet.hh, mem/packet.cc: commands and packets

    [Command] is the enumeration of memory commands and [commandInfo] its table of
    attributes, read by index as in the code.  A packet is a record of the fields the
    methods use; [req] holds what they read of the request.  Data is a list of bytes. *)

From Stdlib Require Import ZArith Lia Btauto String.
From stdpp Require Import base numbers option list strings.
From S2P Require Import Prelude Bitfield Flags.

Module Packet.
Import Flags.
Open Scope Z_scope.

(** ** MemCmd *)

Inductive Command :=
  | InvalidCmd | ReadReq | ReadResp | ReadRespWithInvalidate | WriteReq | WriteResp
  | WriteCompleteResp | WritebackDirty | WritebackClean | WriteClean | CleanEvict
  | SoftPFReq | SoftPFExReq | HardPFReq | SoftPFResp | HardPFResp | WriteLineReq
  | UpgradeReq | SCUpgradeReq | UpgradeResp | SCUpgradeFailReq | UpgradeFailResp
  | ReadExReq | ReadExResp | ReadCleanReq | ReadSharedReq | LoadLockedReq | StoreCondReq
  | StoreCondFailReq | StoreCondResp | LockedRMWReadReq | LockedRMWReadResp
  | LockedRMWWriteReq | LockedRMWWriteResp | SwapReq | SwapResp | MemFenceReq | MemSyncReq
  | MemSyncResp | MemFenceResp | CleanSharedReq | CleanSharedResp | CleanInvalidReq
  | CleanInvalidResp | InvalidDestError | BadAddressError | ReadError | WriteError
  | FunctionalReadError | FunctionalWriteError | PrintReq | FlushReq | InvalidateReq
  | InvalidateResp | HTMReq | HTMReqResp | HTMAbort | TlbiExtSync.

#[global] Instance Command_eq_dec : EqDecision Command.
Proof. solve_decision. Defined.

(** All the commands, in the order of the enumeration. *)
Definition commands : list Command :=
  [InvalidCmd; ReadReq; ReadResp; ReadRespWithInvalidate; WriteReq; WriteResp;
    WriteCompleteResp; WritebackDirty; WritebackClean; WriteClean; CleanEvict; SoftPFReq;
    SoftPFExReq; HardPFReq; SoftPFResp; HardPFResp; WriteLineReq; UpgradeReq; SCUpgradeReq;
    UpgradeResp; SCUpgradeFailReq; UpgradeFailResp; ReadExReq; ReadExResp; ReadCleanReq;
    ReadSharedReq; LoadLockedReq; StoreCondReq; StoreCondFailReq; StoreCondResp;
    LockedRMWReadReq; LockedRMWReadResp; LockedRMWWriteReq; LockedRMWWriteResp; SwapReq;
    SwapResp; MemFenceReq; MemSyncReq; MemSyncResp; MemFenceResp; CleanSharedReq;
    CleanSharedResp; CleanInvalidReq; CleanInvalidResp; InvalidDestError; BadAddressError;
    ReadError; WriteError; FunctionalReadError; FunctionalWriteError; PrintReq; FlushReq;
    InvalidateReq; InvalidateResp; HTMReq; HTMReqResp; HTMAbort; TlbiExtSync].

(** The value of an enumerator: two values after SwapResp are skipped. *)
Definition toInt (c : Command) : nat :=
  match list_find (c =.) commands with
  | Some (i, _) => if (i <=? 35)%nat then i else (i + 2)%nat
  | None => 0
  end.

Inductive Attribute :=
  | IsRead | IsWrite | IsUpgrade | IsInvalidate | IsClean | NeedsWritable | IsRequest
  | IsResponse | NeedsResponse | IsEviction | IsSWPrefetch | IsHWPrefetch | IsLlsc
  | IsLockedRMW | HasData | IsError | IsPrint | IsFlush | FromCache.

#[global] Instance Attribute_eq_dec : EqDecision Attribute.
Proof. solve_decision. Defined.

Definition attr_bit (a : Attribute) : Z :=
  match a with
  | IsRead => 0
  | IsWrite => 1
  | IsUpgrade => 2
  | IsInvalidate => 3
  | IsClean => 4
  | NeedsWritable => 5
  | IsRequest => 6
  | IsResponse => 7
  | NeedsResponse => 8
  | IsEviction => 9
  | IsSWPrefetch => 10
  | IsHWPrefetch => 11
  | IsLlsc => 12
  | IsLockedRMW => 13
  | HasData => 14
  | IsError => 15
  | IsPrint => 16
  | IsFlush => 17
  | FromCache => 18
  end.

Definition buildAttributes (attrs : list Attribute) : Z :=
  foldl (λ ret attr, ret .| u64 (1 .<< attr_bit attr)) 0 attrs.

Record CommandInfo := mkInfo {
  attrs : list Attribute;
  response : Command;
  str : string
}.

Definition attributes (i : CommandInfo) : Z := buildAttributes (attrs i).

Definition commandInfo : list CommandInfo := [
  mkInfo [] InvalidCmd "InvalidCmd";
  mkInfo [IsRead; IsRequest; NeedsResponse] ReadResp "ReadReq";
  mkInfo [IsRead; IsResponse; HasData] InvalidCmd "ReadResp";
  mkInfo [IsRead; IsResponse; HasData; IsInvalidate] InvalidCmd "ReadRespWithInvalidate";
  mkInfo [IsWrite; NeedsWritable; IsRequest; NeedsResponse; HasData] WriteResp "WriteReq";
  mkInfo [IsWrite; IsResponse] InvalidCmd "WriteResp";
  mkInfo [IsWrite; IsResponse] InvalidCmd "WriteCompleteResp";
  mkInfo [IsWrite; IsRequest; IsEviction; HasData; FromCache] InvalidCmd "WritebackDirty";
  mkInfo [IsWrite; IsRequest; IsEviction; HasData; FromCache] InvalidCmd "WritebackClean";
  mkInfo [IsWrite; IsRequest; HasData; FromCache] InvalidCmd "WriteClean";
  mkInfo [IsRequest; IsEviction; FromCache] InvalidCmd "CleanEvict";
  mkInfo [IsRead; IsRequest; IsSWPrefetch; NeedsResponse] SoftPFResp "SoftPFReq";
  mkInfo [IsRead; NeedsWritable; IsInvalidate; IsRequest; IsSWPrefetch; NeedsResponse] SoftPFResp "SoftPFExReq";
  mkInfo [IsRead; IsRequest; IsHWPrefetch; NeedsResponse; FromCache] HardPFResp "HardPFReq";
  mkInfo [IsRead; IsResponse; IsSWPrefetch; HasData] InvalidCmd "SoftPFResp";
  mkInfo [IsRead; IsResponse; IsHWPrefetch; HasData] InvalidCmd "HardPFResp";
  mkInfo [IsWrite; NeedsWritable; IsRequest; NeedsResponse; HasData] WriteResp "WriteLineReq";
  mkInfo [IsInvalidate; NeedsWritable; IsUpgrade; IsRequest; NeedsResponse; FromCache] UpgradeResp "UpgradeReq";
  mkInfo [IsInvalidate; NeedsWritable; IsUpgrade; IsLlsc; IsRequest; NeedsResponse; FromCache] UpgradeResp "SCUpgradeReq";
  mkInfo [IsUpgrade; IsResponse] InvalidCmd "UpgradeResp";
  mkInfo [IsRead; NeedsWritable; IsInvalidate; IsLlsc; IsRequest; NeedsResponse; FromCache] UpgradeFailResp "SCUpgradeFailReq";
  mkInfo [IsRead; IsResponse; HasData] InvalidCmd "UpgradeFailResp";
  mkInfo [IsRead; NeedsWritable; IsInvalidate; IsRequest; NeedsResponse; FromCache] ReadExResp "ReadExReq";
  mkInfo [IsRead; IsResponse; HasData] InvalidCmd "ReadExResp";
  mkInfo [IsRead; IsRequest; NeedsResponse; FromCache] ReadResp "ReadCleanReq";
  mkInfo [IsRead; IsRequest; NeedsResponse; FromCache] ReadResp "ReadSharedReq";
  mkInfo [IsRead; IsLlsc; IsRequest; NeedsResponse] ReadResp "LoadLockedReq";
  mkInfo [IsWrite; NeedsWritable; IsLlsc; IsRequest; NeedsResponse; HasData] StoreCondResp "StoreCondReq";
  mkInfo [IsWrite; NeedsWritable; IsLlsc; IsRequest; NeedsResponse; HasData] StoreCondResp "StoreCondFailReq";
  mkInfo [IsWrite; IsLlsc; IsResponse] InvalidCmd "StoreCondResp";
  mkInfo [IsRead; IsLockedRMW; NeedsWritable; IsRequest; NeedsResponse] LockedRMWReadResp "LockedRMWReadReq";
  mkInfo [IsRead; IsLockedRMW; NeedsWritable; IsResponse; HasData] InvalidCmd "LockedRMWReadResp";
  mkInfo [IsWrite; IsLockedRMW; NeedsWritable; IsRequest; NeedsResponse; HasData] LockedRMWWriteResp "LockedRMWWriteReq";
  mkInfo [IsWrite; IsLockedRMW; NeedsWritable; IsResponse] InvalidCmd "LockedRMWWriteResp";
  mkInfo [IsRead; IsWrite; NeedsWritable; IsRequest; HasData; NeedsResponse] SwapResp "SwapReq";
  mkInfo [IsRead; IsWrite; IsResponse; HasData] InvalidCmd "SwapResp";
  mkInfo [] InvalidCmd "Deprecated_MessageReq";
  mkInfo [] InvalidCmd "Deprecated_MessageResp";
  mkInfo [IsRequest; NeedsResponse] MemFenceResp "MemFenceReq";
  mkInfo [IsRequest; NeedsResponse] MemSyncResp "MemSyncReq";
  mkInfo [IsResponse] InvalidCmd "MemSyncResp";
  mkInfo [IsResponse] InvalidCmd "MemFenceResp";
  mkInfo [IsRequest; IsClean; NeedsResponse; FromCache] CleanSharedResp "CleanSharedReq";
  mkInfo [IsResponse; IsClean] InvalidCmd "CleanSharedResp";
  mkInfo [IsRequest; IsInvalidate; IsClean; NeedsResponse; FromCache] CleanInvalidResp "CleanInvalidReq";
  mkInfo [IsResponse; IsInvalidate; IsClean] InvalidCmd "CleanInvalidResp";
  mkInfo [IsResponse; IsError] InvalidCmd "InvalidDestError";
  mkInfo [IsResponse; IsError] InvalidCmd "BadAddressError";
  mkInfo [IsRead; IsResponse; IsError] InvalidCmd "ReadError";
  mkInfo [IsWrite; IsResponse; IsError] InvalidCmd "WriteError";
  mkInfo [IsRead; IsResponse; IsError] InvalidCmd "FunctionalReadError";
  mkInfo [IsWrite; IsResponse; IsError] InvalidCmd "FunctionalWriteError";
  mkInfo [IsRequest; IsPrint] InvalidCmd "PrintReq";
  mkInfo [IsRequest; IsFlush; NeedsWritable] InvalidCmd "FlushReq";
  mkInfo [IsInvalidate; IsRequest; NeedsWritable; NeedsResponse; FromCache] InvalidateResp "InvalidateReq";
  mkInfo [IsInvalidate; IsResponse] InvalidCmd "InvalidateResp";
  mkInfo [IsRead; IsRequest; NeedsResponse] HTMReqResp "HTMReq";
  mkInfo [IsRead; IsResponse] InvalidCmd "HTMReqResp";
  mkInfo [IsRead; IsRequest] InvalidCmd "HTMAbort";
  mkInfo [IsRequest] InvalidCmd "TlbiExtSync"
].

Definition info (cmd : Command) : CommandInfo :=
  default (mkInfo [] InvalidCmd EmptyString) (commandInfo !! toInt cmd).

Definition testCmdAttrib (cmd : Command) (attrib : Attribute) : bool :=
  Z.testbit (attributes (info cmd)) (attr_bit attrib).

Definition isRead (c : Command) : bool := testCmdAttrib c IsRead.
Definition isWrite (c : Command) : bool := testCmdAttrib c IsWrite.
Definition isUpgrade (c : Command) : bool := testCmdAttrib c IsUpgrade.
Definition isRequest (c : Command) : bool := testCmdAttrib c IsRequest.
Definition isResponse (c : Command) : bool := testCmdAttrib c IsResponse.
Definition cmd_needsWritable (c : Command) : bool := testCmdAttrib c NeedsWritable.
Definition needsResponse (c : Command) : bool := testCmdAttrib c NeedsResponse.
Definition isInvalidate (c : Command) : bool := testCmdAttrib c IsInvalidate.
Definition isEviction (c : Command) : bool := testCmdAttrib c IsEviction.
Definition isClean (c : Command) : bool := testCmdAttrib c IsClean.
Definition fromCache (c : Command) : bool := testCmdAttrib c FromCache.
Definition hasData (c : Command) : bool := testCmdAttrib c HasData.
Definition isLLSC (c : Command) : bool := testCmdAttrib c IsLlsc.
Definition isLockedRMW (c : Command) : bool := testCmdAttrib c IsLockedRMW.
Definition isSWPrefetch (c : Command) : bool := testCmdAttrib c IsSWPrefetch.
Definition isHWPrefetch (c : Command) : bool := testCmdAttrib c IsHWPrefetch.
Definition isError (c : Command) : bool := testCmdAttrib c IsError.
Definition isPrint (c : Command) : bool := testCmdAttrib c IsPrint.
Definition isFlush (c : Command) : bool := testCmdAttrib c IsFlush.
Definition isWriteback (c : Command) : bool := testCmdAttrib c IsEviction && testCmdAttrib c HasData.
Definition isPrefetch (c : Command) : bool := testCmdAttrib c IsSWPrefetch || testCmdAttrib c IsHWPrefetch.
Definition isDemand (c : Command) : bool :=
  bool_decide (c ∈ [ReadReq; WriteReq; WriteLineReq; ReadExReq; ReadCleanReq; ReadSharedReq]).
Definition responseCommand (c : Command) : Command := response (info c).
Definition toString (c : Command) : string := str (info c).

(** ** Requests and packets *)

(** What the packet's methods ask of its request, and [no_merge]: whether a flag is set that
    keeps MSHRs from merging a write. *)
Record Request := mkRequest {
  paddr : option Z;
  req_size : option Z;
  req_isSecure : bool;
  isUncacheable : bool;
  isCacheMaintenance : bool;
  isHTMCmd : bool;
  isHTMAbort : bool;
  req_isLLSC : bool;
  isPrefetchEx : bool;
  req_isPrefetch : bool;
  req_isLockedRMW : bool;
  isSwap : bool;
  isAtomic : bool;
  isCacheInvalidate : bool;
  isCacheClean : bool;
  byteEnable : list bool;
  no_merge : bool
}.

Definition isMasked (r : Request) : bool := negb (bool_decide (byteEnable r = [])).

Definition COPY_FLAGS : Z := 0x000000FF.
Definition RESPONDER_FLAGS : Z := 0x00000009.
Definition HAS_SHARERS : Z := 0x00000001.
Definition EXPRESS_SNOOP : Z := 0x00000002.
Definition RESPONDER_HAD_WRITABLE : Z := 0x00000004.
Definition CACHE_RESPONDING : Z := 0x00000008.
Definition WRITE_THROUGH : Z := 0x00000010.
Definition SATISFIED : Z := 0x00000020.
Definition FAILS_TRANSACTION : Z := 0x00000040.
Definition FROM_TRANSACTION : Z := 0x00000080.
Definition VALID_ADDR : Z := 0x00000100.
Definition VALID_SIZE : Z := 0x00000200.
Definition STATIC_DATA : Z := 0x00001000.
Definition DYNAMIC_DATA : Z := 0x00002000.
Definition SUPPRESS_FUNC_ERROR : Z := 0x00008000.
Definition BLOCK_CACHED : Z := 0x00010000.

Record Packet := mkPacket {
  cmd : Command;
  flags : Z;
  req : Request;
  data : list Z;
  addr : Z;
  _isSecure : bool;
  size : Z;
  bytesValid : list bool;
  htmReturnReason : Z;
  htmTransactionUid : Z;
  senderState : list nat
}.

Definition with_cmd (p : Packet) (c : Command) : Packet :=
  mkPacket c (flags p) (req p) (data p) (addr p) (_isSecure p) (size p) (bytesValid p)
    (htmReturnReason p) (htmTransactionUid p) (senderState p).
Definition with_flags (p : Packet) (f : Z) : Packet :=
  mkPacket (cmd p) f (req p) (data p) (addr p) (_isSecure p) (size p) (bytesValid p)
    (htmReturnReason p) (htmTransactionUid p) (senderState p).
Definition with_data (p : Packet) (d : list Z) (v : list bool) : Packet :=
  mkPacket (cmd p) (flags p) (req p) d (addr p) (_isSecure p) (size p) v
    (htmReturnReason p) (htmTransactionUid p) (senderState p).
Definition with_senderState (p : Packet) (s : list nat) : Packet :=
  mkPacket (cmd p) (flags p) (req p) (data p) (addr p) (_isSecure p) (size p) (bytesValid p)
    (htmReturnReason p) (htmTransactionUid p) s.

(** Packet(req, cmd) *)
Definition Packet_new (r : Request) (c : Command) : result Packet :=
  let f := 0 in
  let '(a, sec, f) := match paddr r with
    | Some a => (a, req_isSecure r, set f VALID_ADDR) | None => (0, false, f) end in
  _ ← assert_ok (negb (isHTMCmd r) || (a =? 0));
  let f := if isHTMCmd r then set f VALID_ADDR else f in
  let '(sz, f) := match req_size r with
    | Some s => (s, set f VALID_SIZE) | None => (0, f) end in
  Ok (mkPacket c f r [] a sec sz [] 0 0 []).

Definition makeReadCmd (r : Request) : Command :=
  if isHTMCmd r then (if isHTMAbort r then HTMAbort else HTMReq)
  else if req_isLLSC r then LoadLockedReq
  else if isPrefetchEx r then SoftPFExReq
  else if req_isPrefetch r then SoftPFReq
  else if req_isLockedRMW r then LockedRMWReadReq
  else ReadReq.

Definition makeWriteCmd (r : Request) : Command :=
  if req_isLLSC r then StoreCondReq
  else if isSwap r || isAtomic r then SwapReq
  else if isCacheInvalidate r then (if isCacheClean r then CleanInvalidReq else InvalidateReq)
  else if isCacheClean r then CleanSharedReq
  else if req_isLockedRMW r then LockedRMWWriteReq
  else WriteReq.

Definition createRead (r : Request) : result Packet := Packet_new r (makeReadCmd r).
Definition createWrite (r : Request) : result Packet := Packet_new r (makeWriteCmd r).

(** *** Accessors: an address or size read before it is set fails an assertion *)

Definition getAddr (p : Packet) : result Z :=
  _ ← assert_ok (isSet (flags p) VALID_ADDR); Ok (addr p).
Definition getSize (p : Packet) : result Z :=
  _ ← assert_ok (isSet (flags p) VALID_SIZE); Ok (size p).
Definition isSecure (p : Packet) : result bool :=
  _ ← assert_ok (isSet (flags p) VALID_ADDR); Ok (_isSecure p).
Definition setAddr (p : Packet) (a : Z) : result Packet :=
  _ ← assert_ok (isSet (flags p) VALID_ADDR);
  Ok (mkPacket (cmd p) (flags p) (req p) (data p) a (_isSecure p) (size p) (bytesValid p)
        (htmReturnReason p) (htmTransactionUid p) (senderState p)).
Definition setSize (p : Packet) (s : Z) : result Packet :=
  _ ← assert_ok (negb (isSet (flags p) VALID_SIZE));
  Ok (mkPacket (cmd p) (set (flags p) VALID_SIZE) (req p) (data p) (addr p) (_isSecure p) s
        (bytesValid p) (htmReturnReason p) (htmTransactionUid p) (senderState p)).

Definition getOffset (p : Packet) (blk_size : Z) : result Z :=
  a ← getAddr p; Ok (a .& u32 (blk_size - 1)).
Definition getBlockAddr (p : Packet) (blk_size : Z) : result Z :=
  a ← getAddr p; Ok (a .& unot 64 (u32 (blk_size - 1))).

Definition needsWritable (p : Packet) : result bool :=
  _ ← assert_ok (isRequest (cmd p)); Ok (cmd_needsWritable (cmd p)).
Definition hasRespData (p : Packet) : bool := hasData (responseCommand (cmd p)).
Definition isMaskedWrite (p : Packet) : bool := bool_decide (cmd p = WriteReq) && isMasked (req p).
Definition isWholeLineWrite (p : Packet) (blk_size : Z) : result bool :=
  if bool_decide (cmd p = WriteReq) || bool_decide (cmd p = WriteLineReq) then
    o ← getOffset p blk_size;
    if o =? 0 then s ← getSize p; Ok ((s =? blk_size) && negb (isMaskedWrite p)) else Ok false
  else Ok false.
Definition mustCheckAbove (p : Packet) : bool := bool_decide (cmd p = HardPFReq) || isEviction (cmd p).
Definition isCleanEviction (p : Packet) : bool :=
  bool_decide (cmd p = CleanEvict) || bool_decide (cmd p = WritebackClean).
Definition isCleanInvalidateRequest (p : Packet) : bool := bool_decide (cmd p = CleanInvalidReq).
Definition matchAddr (p : Packet) (a : Z) (is_secure : bool) : result bool :=
  a' ← getAddr p; if a' =? a then s ← isSecure p; Ok (eqb s is_secure) else Ok false.
Definition matchBlockAddr (p : Packet) (a : Z) (is_secure : bool) (blk_size : Z) : result bool :=
  a' ← getBlockAddr p blk_size; if a' =? a then s ← isSecure p; Ok (eqb s is_secure) else Ok false.

(** *** Flags *)

Definition hasSharers (p : Packet) : bool := isSet (flags p) HAS_SHARERS.
Definition isExpressSnoop (p : Packet) : bool := isSet (flags p) EXPRESS_SNOOP.
Definition cacheResponding (p : Packet) : bool := isSet (flags p) CACHE_RESPONDING.
Definition responderHadWritable (p : Packet) : bool := isSet (flags p) RESPONDER_HAD_WRITABLE.
Definition writeThrough (p : Packet) : bool := isSet (flags p) WRITE_THROUGH.
Definition satisfied (p : Packet) : bool := isSet (flags p) SATISFIED.
Definition suppressFuncError (p : Packet) : bool := isSet (flags p) SUPPRESS_FUNC_ERROR.
Definition isBlockCached (p : Packet) : bool := isSet (flags p) BLOCK_CACHED.

Definition set_flag (p : Packet) (m : Z) : Packet := with_flags p (set (flags p) m).
Definition clear_flag (p : Packet) (m : Z) : Packet := with_flags p (clear 32 (flags p) m).

Definition setCacheResponding (p : Packet) : result Packet :=
  _ ← assert_ok (isRequest (cmd p));
  _ ← assert_ok (negb (isSet (flags p) CACHE_RESPONDING));
  Ok (set_flag p CACHE_RESPONDING).
Definition setHasSharers (p : Packet) : Packet := set_flag p HAS_SHARERS.
Definition setExpressSnoop (p : Packet) : Packet := set_flag p EXPRESS_SNOOP.
Definition setResponderHadWritable (p : Packet) : result Packet :=
  _ ← assert_ok (cacheResponding p);
  _ ← assert_ok (negb (responderHadWritable p));
  Ok (set_flag p RESPONDER_HAD_WRITABLE).
Definition copyResponderFlags (p pkt : Packet) : result Packet :=
  _ ← assert_ok (isRequest (cmd p));
  _ ← assert_ok (negb (cacheResponding pkt) || negb (cacheResponding p));
  Ok (set_flag p (flags pkt .& RESPONDER_FLAGS)).
Definition setWriteThrough (p : Packet) : result Packet :=
  _ ← assert_ok (isWrite (cmd p) && (isEviction (cmd p) || bool_decide (cmd p = WriteClean)));
  Ok (set_flag p WRITE_THROUGH).
Definition clearWriteThrough (p : Packet) : Packet := clear_flag p WRITE_THROUGH.
Definition setSatisfied (p : Packet) : result Packet :=
  _ ← assert_ok (isClean (cmd p));
  _ ← assert_ok (negb (isSet (flags p) SATISFIED));
  Ok (set_flag p SATISFIED).
Definition setSuppressFuncError (p : Packet) : Packet := set_flag p SUPPRESS_FUNC_ERROR.
Definition setBlockCached (p : Packet) : Packet := set_flag p BLOCK_CACHED.
Definition clearBlockCached (p : Packet) : Packet := clear_flag p BLOCK_CACHED.

(** *** Turning a request into a response *)

Definition makeResponse (p : Packet) : result Packet :=
  _ ← assert_ok (needsResponse (cmd p));
  _ ← assert_ok (isRequest (cmd p));
  Ok (clear_flag (with_cmd p (responseCommand (cmd p))) EXPRESS_SNOOP).
Definition makeAtomicResponse (p : Packet) : result Packet := makeResponse p.
Definition makeTimingResponse (p : Packet) : result Packet := makeResponse p.

Definition setFunctionalResponseStatus (p : Packet) (success : bool) : Packet :=
  if success then p
  else with_cmd p (if isWrite (cmd p) then FunctionalWriteError else FunctionalReadError).
Definition setBadAddress (p : Packet) : result Packet :=
  _ ← assert_ok (isResponse (cmd p)); Ok (with_cmd p BadAddressError).
Definition setBadCommand (p : Packet) : result Packet :=
  _ ← assert_ok (isResponse (cmd p));
  Ok (with_cmd p (if isWrite (cmd p) then WriteError else ReadError)).
Definition copyError (p pkt : Packet) : result Packet :=
  _ ← assert_ok (isError (cmd pkt)); Ok (with_cmd p (cmd pkt)).
Definition convertScToWrite (p : Packet) : result Packet :=
  _ ← assert_ok (isLLSC (cmd p)); _ ← assert_ok (isWrite (cmd p)); Ok (with_cmd p WriteReq).
Definition convertLlToRead (p : Packet) : result Packet :=
  _ ← assert_ok (isLLSC (cmd p)); _ ← assert_ok (isRead (cmd p)); Ok (with_cmd p ReadReq).

(** *** The stack of sender states *)

Definition pushSenderState (p : Packet) (sender_state : option nat) : result Packet :=
  match sender_state with
  | None => Err AssertFailed
  | Some s => Ok (with_senderState p (s :: senderState p))
  end.
Definition popSenderState (p : Packet) : result (nat * Packet) :=
  match senderState p with
  | [] => Err AssertFailed
  | s :: l => Ok (s, with_senderState p l)
  end.

(** *** Data *)

Definition hasPtr (p : Packet) : bool := isSet (flags p) (STATIC_DATA .| DYNAMIC_DATA).

Definition allocate (p : Packet) : result Packet :=
  if hasData (cmd p) || hasRespData p then
    _ ← assert_ok (noneSet (flags p) (STATIC_DATA .| DYNAMIC_DATA));
    s ← getSize p;
    Ok (with_data (set_flag p DYNAMIC_DATA) (replicate (Z.to_nat s) 0) (bytesValid p))
  else Ok p.
Definition dataStatic (p : Packet) (d : list Z) : result Packet :=
  _ ← assert_ok (noneSet (flags p) (STATIC_DATA .| DYNAMIC_DATA));
  Ok (with_data (set_flag p STATIC_DATA) d (bytesValid p)).
Definition deleteData (p : Packet) : Packet :=
  with_data (clear_flag p (STATIC_DATA .| DYNAMIC_DATA)) [] (bytesValid p).

(** Packet(pkt, clear_flags, alloc_data): static data is shared with the original, whose
    bytes are then the copy's. *)
Definition NO_FAIL : Z := 0.

Definition setHtmTransactional (p : Packet) (uid : Z) : Packet :=
  mkPacket (cmd p) (set (flags p) FROM_TRANSACTION) (req p) (data p) (addr p) (_isSecure p)
    (size p) (bytesValid p) (htmReturnReason p) uid (senderState p).
Definition setHtmTransactionFailedInCache (p : Packet) (rc : Z) : Packet :=
  mkPacket (cmd p) (if rc =? NO_FAIL then flags p else set (flags p) FAILS_TRANSACTION) (req p)
    (data p) (addr p) (_isSecure p) (size p) (bytesValid p) rc (htmTransactionUid p) (senderState p).

Definition Packet_copy (pkt : Packet) (clear_flags alloc_data : bool) : result Packet :=
  let f := if clear_flags then 0 else set 0 (flags pkt .& COPY_FLAGS) in
  let f := set f (flags pkt .& (VALID_ADDR .| VALID_SIZE)) in
  let p := mkPacket (cmd pkt) f (req pkt) [] (addr pkt) (_isSecure pkt) (size pkt)
             (bytesValid pkt) NO_FAIL 0 (senderState pkt) in
  let p := if isSet (flags pkt) FROM_TRANSACTION
           then setHtmTransactional p (htmTransactionUid pkt) else p in
  let p := if isSet (flags pkt) FAILS_TRANSACTION
           then setHtmTransactionFailedInCache p (htmReturnReason pkt) else p in
  if alloc_data then
    if isSet (flags pkt) STATIC_DATA
    then Ok (with_data (set_flag p STATIC_DATA) (data pkt) (bytesValid p))
    else allocate p
  else Ok p.

Definition makeHtmTransactionalReqResponse (p : Packet) (rc : Z) : result Packet :=
  _ ← assert_ok (needsResponse (cmd p));
  _ ← assert_ok (isRequest (cmd p));
  let p := with_cmd p (responseCommand (cmd p)) in
  let p := setHtmTransactionFailedInCache p rc in
  Ok (clear_flag p EXPRESS_SNOOP).

(** memcpy(dst + off, src + soff, n); an access past the end of a buffer is undefined. *)
Definition memcpy (dst : list Z) (off : Z) (src : list Z) (soff n : Z) : result (list Z) :=
  if (Z.of_nat (length dst) <? off + n) || (Z.of_nat (length src) <? soff + n) then Err Undefined
  else Ok (take (Z.to_nat off) dst ++ take (Z.to_nat n) (drop (Z.to_nat soff) src)
           ++ drop (Z.to_nat (off + n)) dst).

Definition setData (p : Packet) (d : list Z) : result Packet :=
  _ ← assert_ok (hasPtr p);
  _ ← assert_ok (negb (isMaskedWrite p));
  s ← getSize p;
  d ← memcpy (data p) 0 d 0 s;
  Ok (with_data p d (bytesValid p)).
Definition setDataFromBlock (p : Packet) (blk_data : list Z) (blkSize : Z) : result Packet :=
  o ← getOffset p blkSize; setData p (drop (Z.to_nat o) blk_data).

(** The bytes of [base] at the enabled positions, those of [q] at the others. *)
Fixpoint masked_write (enable : list bool) (base q : list Z) : list Z :=
  match enable, base, q with
  | e :: enable, b :: base, x :: q => (if e : bool then b else x) :: masked_write enable base q
  | _, _, _ => q
  end.

Definition writeData (p : Packet) (q : list Z) : result (list Z) :=
  _ ← assert_ok (hasPtr p);
  s ← getSize p;
  if negb (isMaskedWrite p) then memcpy q 0 (data p) 0 s
  else
    _ ← assert_ok (Z.of_nat (length (byteEnable (req p))) =? s);
    if (Z.of_nat (length q) <? s) || (Z.of_nat (length (data p)) <? s) then Err Undefined
    else Ok (masked_write (byteEnable (req p)) (data p) q).

(** *** Functional accesses *)

(** bytesValid[i] = true for i in [off, off + n). *)
Definition mark_valid (v : list bool) (off n : Z) : list bool :=
  take (Z.to_nat off) v ++ replicate (Z.to_nat n) true ++ drop (Z.to_nat (off + n)) v.

(** The conjunction of bytesValid over [from, to), as the loops compute it. *)
Definition valid_in (v : list bool) (from to : Z) : bool :=
  forallb id (take (Z.to_nat (to - from)) (drop (Z.to_nat from) v)).

(** trySatisfyFunctional(obj, addr, is_secure, size, data): the answer, the packet and
    the buffer [_data] afterwards.  Printing has no effect on either. *)
Definition trySatisfyFunctional (p : Packet) (a : Z) (is_secure : bool) (sz : Z)
    (_data : option (list Z)) : result (bool * Packet * option (list Z)) :=
  func_start ← getAddr p;
  func_size ← getSize p;
  let func_end := u64 (func_start + func_size - 1) in
  let val_start := a in
  let val_end := u64 (val_start + sz - 1) in
  if negb (eqb is_secure (_isSecure p)) || (val_end <? func_start) || (func_end <? val_start)
  then Ok (false, p, _data)
  else if isPrint (cmd p) then
    _ ← assert_ok (match _data with None => true | Some _ => false end);
    Ok (false, p, _data)
  else match _data with
  | None => Ok (false, p, None)
  | Some buf =>
      let val_offset := if val_start <? func_start then func_start - val_start else 0 in
      let func_offset := if func_start <? val_start then val_start - func_start else 0 in
      let overlap_size := u64 (Z.min val_end func_end + 1 - Z.max val_start func_start) in
      if isRead (cmd p) then
        _ ← assert_ok (hasPtr p && negb (isMaskedWrite p));
        d ← memcpy (data p) func_offset buf val_offset overlap_size;
        let v := if bool_decide (bytesValid p = []) then replicate (Z.to_nat func_size) false
                 else bytesValid p in
        let before := valid_in v 0 func_offset in
        let v := mark_valid v func_offset overlap_size in
        let all_bytes_valid := before && valid_in v (func_offset + overlap_size) func_size in
        Ok (all_bytes_valid, with_data p d v, Some buf)
      else if isWrite (cmd p) then
        _ ← assert_ok (hasPtr p);
        b ← memcpy buf val_offset (data p) func_offset overlap_size;
        Ok (false, p, Some b)
      else Err Panic
  end.

End Packet.
