(* ===== verification/PacketProps.v ===== *)
(** * mem/packet.hh, mem/packet.cc: commands pair up and functional reads assemble memory *)

From Stdlib Require Import ZArith Lia Btauto String.
From stdpp Require Import base numbers option list strings.
From S2P Require Import Prelude Bitfield Flags Packet.

Module PacketProps.
Import Flags Packet.
Open Scope Z_scope.

(** ** The table of commands *)

Lemma elem_of_commands c : c ∈ commands.
Proof. destruct c; vm_compute; repeat (left || right). Qed.

(** A property of every command is checked on the list of them. *)
Lemma forall_commands (P : Command → bool) : forallb P commands = true → ∀ c, P c = true.
Proof. intros H c. rewrite forallb_forall in H. apply H, list_elem_of_In, elem_of_commands. Qed.

(** What a command and its response have to do with each other. *)
Definition pairing_ok (c : Command) : bool :=
  let r := responseCommand c in
  negb (isRequest c && isResponse c) &&
  implb (needsResponse c) (isRequest c && isResponse r && negb (isRequest r) &&
    negb (needsResponse r) && eqb (isRead r) (isRead c) && eqb (isWrite r) (isWrite c) &&
    eqb (hasData r) (isRead c && negb (bool_decide (c = HTMReq))) && negb (isError r)) &&
  implb (negb (needsResponse c)) (bool_decide (r = InvalidCmd)).

Lemma pairing_checked c : pairing_ok c = true.
Proof. revert c. apply forall_commands. vm_compute. reflexivity. Qed.

(** The express-snoop flag is the one makeResponse clears. *)
Lemma clear_express_snoop p m k : 0 <= k < 32 → m = 2 ^ k →
  isSet (flags (clear_flag p EXPRESS_SNOOP)) m = negb (k =? 1) && isSet (flags p) m.
Proof. intros Hk ->. unfold clear_flag. cbn. apply (isSet_clear_bit 32 (flags p) 1 k); lia. Qed.

(** MakeResponse turns every request that needs a response into its response: a
    command that is a response and no request, needs none itself, is a read or a write
    exactly as the request was and carries data exactly for reads (HTM requests apart),
    with the other fields and flags kept and the express-snoop flag cleared; on any
    other packet it fails an assertion. *)
Theorem makeResponse_pairs p :
  match makeResponse p with
  | Ok p' =>
      needsResponse (cmd p) = true ∧ isResponse (cmd p') = true ∧ isRequest (cmd p') = false ∧
      needsResponse (cmd p') = false ∧ isRead (cmd p') = isRead (cmd p) ∧
      isWrite (cmd p') = isWrite (cmd p) ∧
      hasData (cmd p') = isRead (cmd p) && negb (bool_decide (cmd p = HTMReq)) ∧
      p' = with_flags (with_cmd p (responseCommand (cmd p))) (flags p') ∧
      ∀ k, 0 <= k < 32 → isSet (flags p') (2 ^ k) = negb (k =? 1) && isSet (flags p) (2 ^ k)
  | Err e => e = AssertFailed ∧ needsResponse (cmd p) = false
  end.
Proof.
  pose proof (pairing_checked (cmd p)) as H. unfold pairing_ok in H. cbv zeta in H.
  unfold makeResponse. destruct (needsResponse (cmd p)) eqn:Hn; [|done].
  cbn [assert_ok mbind result_bind implb negb] in *.
  rewrite !andb_true_iff, !negb_true_iff, !eqb_true_iff in H.
  destruct H as [[_ (((((((Hrq & Hrs) & Hnr) & Hnn) & Hrd) & Hwr) & Hd) & _)] _].
  rewrite Hrq. cbn [assert_ok mbind result_bind]. cbn [clear_flag with_cmd with_flags cmd].
  repeat (split; [done|]). intros k Hk. by rewrite (clear_express_snoop _ _ k).
Qed.

(** The table of commands lines up with the enumeration: the entry a command selects
    is the one written for it, although the enumeration skips two values. *)
Theorem commandInfo_aligned :
  length commandInfo = S (toInt TlbiExtSync) ∧
  (toString <$> commands) = str <$> filter (λ i, String.prefix "Deprecated" (str i) = false) commandInfo ∧
  ∀ c, is_Some (commandInfo !! toInt c).
Proof. split; [reflexivity|]. split; [reflexivity|]. intros []; by eexists. Qed.

(** ** Functional reads *)

Lemma memcpy_lookup dst off src soff n : 0 <= off → 0 <= soff → 0 <= n →
  off + n <= Z.of_nat (length dst) → soff + n <= Z.of_nat (length src) →
  ∃ d, memcpy dst off src soff n = Ok d ∧ length d = length dst ∧
    ∀ i, 0 <= i → d !! Z.to_nat i =
      if (off <=? i) && (i <? off + n) then src !! Z.to_nat (i - off + soff) else dst !! Z.to_nat i.
Proof.
  intros Ho Hs Hn Hd Hr. unfold memcpy.
  destruct (Z.ltb_spec (Z.of_nat (length dst)) (off + n)); [lia|].
  destruct (Z.ltb_spec (Z.of_nat (length src)) (soff + n)); [lia|]. cbn [orb].
  eexists. split; [done|]. split.
  { rewrite !length_app, !length_take, !length_drop. lia. }
  intros i Hi. destruct (Z.leb_spec off i); cbn [andb].
  2:{ rewrite lookup_app_l by (rewrite length_take; lia). by rewrite lookup_take_lt by lia. }
  rewrite lookup_app_r by (rewrite length_take; lia). rewrite length_take.
  destruct (Z.ltb_spec i (off + n)).
  - rewrite lookup_app_l by (rewrite length_take, length_drop; lia).
    rewrite lookup_take_lt, lookup_drop by lia. f_equal. lia.
  - rewrite lookup_app_r by (rewrite length_take, length_drop; lia).
    rewrite length_take, length_drop, lookup_drop. f_equal. lia.
Qed.

Lemma mark_valid_lookup v off n i : 0 <= off → 0 <= n → off + n <= Z.of_nat (length v) → 0 <= i →
  mark_valid v off n !! Z.to_nat i =
    if (off <=? i) && (i <? off + n) then Some true else v !! Z.to_nat i.
Proof.
  intros Ho Hn Hv Hi. unfold mark_valid. destruct (Z.leb_spec off i); cbn [andb].
  2:{ rewrite lookup_app_l by (rewrite length_take; lia). by rewrite lookup_take_lt by lia. }
  rewrite lookup_app_r by (rewrite length_take; lia). rewrite length_take.
  destruct (Z.ltb_spec i (off + n)).
  - rewrite lookup_app_l by (rewrite length_replicate; lia). apply lookup_replicate_2. lia.
  - rewrite lookup_app_r by (rewrite length_replicate; lia).
    rewrite length_replicate, lookup_drop. f_equal. lia.
Qed.

Lemma mark_valid_length v off n : 0 <= off → 0 <= n → off + n <= Z.of_nat (length v) →
  length (mark_valid v off n) = length v.
Proof.
  intros. unfold mark_valid. rewrite !length_app, length_take, length_replicate, length_drop. lia.
Qed.

Lemma valid_in_spec v from to : 0 <= from → to <= Z.of_nat (length v) →
  valid_in v from to = true ↔ ∀ i, from <= i < to → v !! Z.to_nat i = Some true.
Proof.
  intros Hf Ht. unfold valid_in. rewrite forallb_forall. split.
  - intros H i Hi. destruct (lookup_lt_is_Some_2 v (Z.to_nat i)) as [b Hb]; [lia|].
    rewrite Hb. f_equal. apply (H b), list_elem_of_In, list_elem_of_lookup.
    exists (Z.to_nat (i - from)). rewrite lookup_take_lt, lookup_drop by lia.
    rewrite <-Hb. f_equal. lia.
  - intros H b (k & Hk)%list_elem_of_In%list_elem_of_lookup.
    pose proof (lookup_lt_Some _ _ _ Hk) as Hl. rewrite length_take in Hl.
    rewrite lookup_take_lt, lookup_drop in Hk by lia.
    specialize (H (Z.of_nat k + from) ltac:(lia)).
    replace (Z.to_nat (Z.of_nat k + from)) with (Z.to_nat from + k)%nat in H by lia.
    unfold id. congruence.
Qed.

(** A functional read of memory [M]: the size is the buffer's, and every byte marked
    valid is the one of [M]. *)
Definition valid_byte (p : Packet) (i : Z) : Prop := bytesValid p !! Z.to_nat i = Some true.

Definition assembled (M : Z → Z) (p : Packet) : Prop :=
  isRead (cmd p) = true ∧ isPrint (cmd p) = false ∧ isMaskedWrite p = false ∧
  isSet (flags p) VALID_ADDR = true ∧ isSet (flags p) VALID_SIZE = true ∧ hasPtr p = true ∧
  0 <= addr p ∧ 0 < size p < 2 ^ 32 ∧ addr p + size p <= 2 ^ 64 ∧ Z.of_nat (length (data p)) = size p ∧
  (bytesValid p = [] ∨ Z.of_nat (length (bytesValid p)) = size p) ∧
  ∀ i, 0 <= i < size p → valid_byte p i → data p !! Z.to_nat i = Some (M (addr p + i)).

(** A buffer that holds the bytes of [M] from [a] on. *)
Definition holds (M : Z → Z) (a : Z) (buf : list Z) : Prop :=
  0 <= a ∧ 0 < Z.of_nat (length buf) ∧ a + Z.of_nat (length buf) <= 2 ^ 64 ∧
  ∀ i, 0 <= i < Z.of_nat (length buf) → buf !! Z.to_nat i = Some (M (a + i)).

(** The part of the packet's bytes that lies in [a, a + n). *)
Definition overlaps (p : Packet) (a n i : Z) : Prop := a <= addr p + i < a + n.

(** The arithmetic of the overlap: [fo] and [vo] are where it starts in the packet and in
    the buffer, [ov] is how long it is. *)
Lemma overlap_arith s n a l : 0 <= s → 0 < n < 2 ^ 32 → s + n <= 2 ^ 64 → 0 <= a → 0 < l → a + l <= 2 ^ 64 →
  s <= a + l - 1 → a <= s + n - 1 →
  let fo := if s <? a then a - s else 0 in
  let vo := if a <? s then s - a else 0 in
  let ov := u64 (Z.min (u64 (a + l - 1)) (u64 (s + n - 1)) + 1 - Z.max a s) in
  0 <= fo ∧ 0 <= vo ∧ 0 < ov ∧ fo + ov <= n ∧ vo + ov <= l ∧
  (∀ i, fo <= i < fo + ov ↔ 0 <= i < n ∧ a <= s + i < a + l) ∧
  (∀ i, i - fo + vo = s + i - a).
Proof.
  intros Hs Hn Hsn Ha Hl Hal H1 H2. cbv zeta. rewrite (wrap_small 64 (a + l - 1)) by (unfold fits; lia).
  rewrite (wrap_small 64 (s + n - 1)), wrap_small by (unfold fits; lia).
  destruct (Z.ltb_spec s a), (Z.ltb_spec a s); try lia; split_and!; try lia; intros i; lia.
Qed.

Lemma valid_bytes_init p : (bytesValid p = [] ∨ Z.of_nat (length (bytesValid p)) = size p) →
  0 < size p < 2 ^ 32 → ∃ v, (if bool_decide (bytesValid p = []) then replicate (Z.to_nat (size p)) false
                     else bytesValid p) = v ∧ Z.of_nat (length v) = size p ∧
    ∀ i, v !! i = Some true ↔ bytesValid p !! i = Some true.
Proof.
  intros Hv Hs. eexists. split; [done|]. case_bool_decide as Hb.
  - rewrite length_replicate, Hb. split; [lia|]. intros i. rewrite lookup_nil, lookup_replicate.
    split; [by intros [? _]|done].
  - destruct Hv; [done|]. done.
Qed.

(** The case of an overlap: the bytes are copied and marked. *)
Lemma trySatisfy_overlap M p a buf : assembled M p → holds M a buf →
  addr p <= a + Z.of_nat (length buf) - 1 → a <= addr p + size p - 1 →
  ∃ b p', trySatisfyFunctional p a (_isSecure p) (Z.of_nat (length buf)) (Some buf) =
      Ok (b, p', Some buf) ∧
    assembled M p' ∧ addr p' = addr p ∧ size p' = size p ∧
    (∀ i, 0 <= i < size p →
       valid_byte p' i ↔ valid_byte p i ∨ overlaps p a (Z.of_nat (length buf)) i) ∧
    (b = true ↔ ∀ i, 0 <= i < size p → valid_byte p' i).
Proof.
  intros (Hrd & Hpr & Hmw & Hva & Hvs & Hptr & Hs & Hn & Hsn & Hlen & Hbv & Hdata)
    (Ha & Hl & Hal & Hbuf) H1 H2.
  destruct (overlap_arith (addr p) (size p) a (Z.of_nat (length buf))) as
    (Hfo & Hvo & Hov & Hfn & Hvl & Hin & Hidx); [lia..|].
  unfold trySatisfyFunctional, getAddr, getSize. rewrite Hva, Hvs.
  cbn [assert_ok mbind result_bind]. cbv zeta. rewrite eqb_reflx, Hpr, Hrd, Hptr, Hmw.
  rewrite (wrap_small 64 (a + Z.of_nat (length buf) - 1)), (wrap_small 64 (addr p + size p - 1)) in *
    by (unfold fits; lia).
  destruct (Z.ltb_spec (a + Z.of_nat (length buf) - 1) (addr p)); [lia|].
  destruct (Z.ltb_spec (addr p + size p - 1) a); [lia|]. cbn [negb orb andb assert_ok mbind result_bind].
  set (fo := if addr p <? a then a - addr p else 0) in *.
  set (vo := if a <? addr p then addr p - a else 0) in *.
  set (ov := u64 _) in *.
  destruct (memcpy_lookup (data p) fo buf vo ov) as (d & -> & Hdl & Hd); [lia..|].
  cbn [mbind result_bind].
  destruct (valid_bytes_init p Hbv Hn) as (v & -> & Hvl' & Hvv).
  set (v' := mark_valid v fo ov).
  assert (∀ i, 0 <= i → v' !! Z.to_nat i = Some true ↔
    (fo <= i < fo + ov) ∨ bytesValid p !! Z.to_nat i = Some true) as Hv'.
  { intros i Hi. unfold v'. rewrite mark_valid_lookup by lia.
    destruct (Z.leb_spec fo i), (Z.ltb_spec i (fo + ov)); cbn [andb]; rewrite ?Hvv; naive_solver lia. }
  assert (Z.of_nat (length v') = size p) as Hlv by (unfold v'; rewrite mark_valid_length; lia).
  eexists _, (with_data p d v'). split; [done|]. split; [|split; [done|split; [done|split]]].
  - unfold assembled, valid_byte. cbn. repeat (split; [done || lia|]).
    intros i Hi. rewrite Hv', Hd by lia.
    destruct (Z.leb_spec fo i), (Z.ltb_spec i (fo + ov)); cbn [andb].
    + intros _. rewrite Hidx, Hbuf by (specialize (Hin i); lia). do 2 f_equal. lia.
    + intros [?|?]; [lia|by apply Hdata].
    + intros [?|?]; [lia|by apply Hdata].
    + intros [?|?]; [lia|by apply Hdata].
  - intros i Hi. unfold valid_byte, overlaps. cbn. rewrite Hv' by lia. specialize (Hin i). naive_solver lia.
  - unfold valid_byte. cbn. rewrite andb_true_iff, !valid_in_spec by lia. split.
    + intros [Hb Ha'] i Hi. destruct (decide (fo + ov <= i)); [by apply Ha'; lia|].
      apply Hv'; [lia|]. destruct (decide (fo <= i)); [left; lia|right].
      apply Hvv, Hb. lia.
    + intros Hall. split; intros i Hi; [|by apply Hall; lia].
      apply Hvv. destruct (Hv' i ltac:(lia)) as [Hv1 _]. destruct (Hv1 (Hall i ltac:(lia))); [lia|done].
Qed.

(** A functional read assembles memory piece by piece: offered a buffer of the same
    security domain that holds the bytes of a memory M, the packet takes over exactly the
    bytes it overlaps, keeps the ones it has, leaves the buffer alone, and answers true
    only when it overlaps and every one of its bytes is valid, and then all of its data
    is M's. *)
Theorem trySatisfyFunctional_reads M p a buf :
  assembled M p → holds M a buf →
  ∃ b p', trySatisfyFunctional p a (_isSecure p) (Z.of_nat (length buf)) (Some buf) =
      Ok (b, p', Some buf) ∧
    assembled M p' ∧ addr p' = addr p ∧ size p' = size p ∧
    (∀ i, 0 <= i < size p →
       valid_byte p' i ↔ valid_byte p i ∨ overlaps p a (Z.of_nat (length buf)) i) ∧
    (b = true ↔ (∃ i, 0 <= i < size p ∧ overlaps p a (Z.of_nat (length buf)) i) ∧
                ∀ i, 0 <= i < size p → valid_byte p' i) ∧
    (b = true → ∀ i, 0 <= i < size p → data p' !! Z.to_nat i = Some (M (addr p + i))).
Proof.
  intros Hp Hb. pose proof Hp as (_ & _ & _ & Hva & Hvs & _ & Hs & Hn & Hsn & _).
  pose proof Hb as (Ha & Hl & Hal & _).
  destruct (decide (addr p <= a + Z.of_nat (length buf) - 1 ∧ a <= addr p + size p - 1)) as [[H1 H2]|Hno].
  - destruct (trySatisfy_overlap M p a buf Hp Hb H1 H2)
      as (b & p' & He & Hp' & Had & Hsz & Hval & Hbt).
    exists b, p'. repeat (split; [done|]). split.
    + rewrite Hbt. split; [|by intros [_ ?]]. intros Hall. split; [|done].
      exists (Z.max (addr p) a - addr p). unfold overlaps. lia.
    + intros Ht i Hi. destruct Hp' as (_ & _ & _ & _ & _ & _ & _ & _ & _ & _ & _ & Hd).
      rewrite Had, Hsz in Hd. apply Hd; [done|]. by apply Hbt.
  - exists false, p. split; [|repeat (split; [done|])].
    { unfold trySatisfyFunctional, getAddr, getSize. rewrite Hva, Hvs.
      cbn [assert_ok mbind result_bind]. rewrite !wrap_small by (unfold fits; lia).
      destruct (Z.ltb_spec (a + Z.of_nat (length buf) - 1) (addr p)), (Z.ltb_spec (addr p + size p - 1) a);
        try lia; by rewrite orb_true_r || rewrite orb_comm. }
    split; [|split; [|done]].
    + intros i Hi. unfold overlaps. split; [by left|]. intros [?|?]; [done|lia].
    + split; [done|]. intros [(i & Hi & Hov) _]. unfold overlaps in Hov. lia.
Qed.

Lemma trySatisfyFunctional_reads_witness :
  let r := mkRequest (Some 100) (Some 4) false false false false false false false false false
             false false false false [] false in
  let p := mkPacket ReadReq (VALID_ADDR .| VALID_SIZE .| DYNAMIC_DATA) r [0; 0; 0; 0] 100 false 4
             [false; false; true; true] 0 0 [] in
  let M := λ a, if a <? 102 then a mod 256 else 0 in
  (∃ p', trySatisfyFunctional p 96 false 6 (Some [96; 97; 98; 99; 100; 101]) =
         Ok (true, p', Some [96; 97; 98; 99; 100; 101]) ∧ data p' = [100; 101; 0; 0]) ∧
  ∃ b p', trySatisfyFunctional p 96 (_isSecure p) 6 (Some [96; 97; 98; 99; 100; 101]) =
      Ok (b, p', Some [96; 97; 98; 99; 100; 101]) ∧ assembled M p'.
Proof.
  cbv zeta. split; [eexists; split; vm_compute; reflexivity|].
  edestruct (trySatisfyFunctional_reads (λ a, if a <? 102 then a mod 256 else 0)
    (mkPacket ReadReq (VALID_ADDR .| VALID_SIZE .| DYNAMIC_DATA)
      (mkRequest (Some 100) (Some 4) false false false false false false false false false
             false false false false [] false) [0; 0; 0; 0] 100 false 4
             [false; false; true; true] 0 0 []) 96 [96; 97; 98; 99; 100; 101])
    as (b & p' & He & Hp' & _).
  - unfold assembled. cbn. repeat (split; [reflexivity || lia|]).
    intros i Hi. assert (i = 0 ∨ i = 1 ∨ i = 2 ∨ i = 3) as [->|[->|[->| ->]]] by lia; done.
  - unfold holds. cbn. repeat (split; [lia|]). intros i Hi.
    assert (i = 0 ∨ i = 1 ∨ i = 2 ∨ i = 3 ∨ i = 4 ∨ i = 5) as [->|[->|[->|[->|[->| ->]]]]] by lia; done.
  - exists b, p'. split; [exact He|exact Hp'].
Defined.
End PacketProps.
