(* ===== verification/CacheBlk.v ===== *)
(** * mem/cache/cache_blk: a block of a cache

    A tagged entry (tags/tagged_entry.hh) with the coherence bits, the bookkeeping and the
    load-locked ranges of a block.  [TagExtractor] is the function object that the tags
    register; calling one that was never registered throws.  The position of an entry is
    with the indexing policy, its replacement data with the replacement policy. *)

From Stdlib Require Import ZArith Lia.
From stdpp Require Import base numbers option list gmap.
From S2P Require Import Prelude.

Module CacheBlk.

Definition MaxAddr : Z := 2 ^ 64 - 1.
Definition MaxTick : Z := 2 ^ 64 - 1.
Definition MaxPartitionID : Z := 2 ^ 64 - 1.
Definition invldRequestorId : Z := 2 ^ 16 - 1.
Definition task_Unknown : Z := 1024.

Definition WritableBit : Z := 0x02.
Definition ReadableBit : Z := 0x04.
Definition DirtyBit : Z := 0x08.
Definition AllBits : Z := 0x0E.

Record KeyType := mkKey { address : Z; secure : bool }.

(** What the operations on locks read of a packet and its request. *)
Record Access := mkAccess {
  isWrite : bool;
  isLLSC : bool;
  req_paddr : Z;
  req_size : Z;
  req_contextId : option Z
}.

(** contextId() asserts that there is one. *)
Definition contextId_of (a : Access) : result Z :=
  match req_contextId a with Some c => Ok c | None => Err AssertFailed end.

Record Lock := mkLock { contextId : Z; lowAddr : Z; highAddr : Z }.

Record CacheBlk := mkBlk {
  _valid : bool;
  _secure : bool;
  _tag : Z;
  extractTag_ : option (Z → Z);
  coherence : Z;
  _prefetched : bool;
  whenReady : Z;
  _taskId : Z;
  _srcRequestorId : Z;
  _partitionId : Z;
  _refCount : Z;
  _tickInserted : Z;
  lockList : list Lock
}.

Definition set_valid (b : bool) (k : CacheBlk) : CacheBlk :=
  mkBlk b (_secure k) (_tag k) (extractTag_ k) (coherence k) (_prefetched k) (whenReady k) (_taskId k)
    (_srcRequestorId k) (_partitionId k) (_refCount k) (_tickInserted k) (lockList k).
Definition set_secure (b : bool) (k : CacheBlk) : CacheBlk :=
  mkBlk (_valid k) b (_tag k) (extractTag_ k) (coherence k) (_prefetched k) (whenReady k) (_taskId k)
    (_srcRequestorId k) (_partitionId k) (_refCount k) (_tickInserted k) (lockList k).
Definition setTag (t : Z) (k : CacheBlk) : CacheBlk :=
  mkBlk (_valid k) (_secure k) t (extractTag_ k) (coherence k) (_prefetched k) (whenReady k) (_taskId k)
    (_srcRequestorId k) (_partitionId k) (_refCount k) (_tickInserted k) (lockList k).
Definition registerTagExtractor (f : Z → Z) (k : CacheBlk) : CacheBlk :=
  mkBlk (_valid k) (_secure k) (_tag k) (Some f) (coherence k) (_prefetched k) (whenReady k) (_taskId k)
    (_srcRequestorId k) (_partitionId k) (_refCount k) (_tickInserted k) (lockList k).
Definition set_coherence (c : Z) (k : CacheBlk) : CacheBlk :=
  mkBlk (_valid k) (_secure k) (_tag k) (extractTag_ k) c (_prefetched k) (whenReady k) (_taskId k)
    (_srcRequestorId k) (_partitionId k) (_refCount k) (_tickInserted k) (lockList k).
Definition set_prefetched (b : bool) (k : CacheBlk) : CacheBlk :=
  mkBlk (_valid k) (_secure k) (_tag k) (extractTag_ k) (coherence k) b (whenReady k) (_taskId k)
    (_srcRequestorId k) (_partitionId k) (_refCount k) (_tickInserted k) (lockList k).
Definition set_whenReady (t : Z) (k : CacheBlk) : CacheBlk :=
  mkBlk (_valid k) (_secure k) (_tag k) (extractTag_ k) (coherence k) (_prefetched k) t (_taskId k)
    (_srcRequestorId k) (_partitionId k) (_refCount k) (_tickInserted k) (lockList k).
(** setTaskId, setSrcRequestorId, setPartitionId *)
Definition set_ids (task requestor partition : Z) (k : CacheBlk) : CacheBlk :=
  mkBlk (_valid k) (_secure k) (_tag k) (extractTag_ k) (coherence k) (_prefetched k) (whenReady k) task
    requestor partition (_refCount k) (_tickInserted k) (lockList k).
Definition setRefCount (n : Z) (k : CacheBlk) : CacheBlk :=
  mkBlk (_valid k) (_secure k) (_tag k) (extractTag_ k) (coherence k) (_prefetched k) (whenReady k) (_taskId k)
    (_srcRequestorId k) (_partitionId k) n (_tickInserted k) (lockList k).
Definition setTickInserted (t : Z) (k : CacheBlk) : CacheBlk :=
  mkBlk (_valid k) (_secure k) (_tag k) (extractTag_ k) (coherence k) (_prefetched k) (whenReady k) (_taskId k)
    (_srcRequestorId k) (_partitionId k) (_refCount k) t (lockList k).
Definition set_lockList (l : list Lock) (k : CacheBlk) : CacheBlk :=
  mkBlk (_valid k) (_secure k) (_tag k) (extractTag_ k) (coherence k) (_prefetched k) (whenReady k) (_taskId k)
    (_srcRequestorId k) (_partitionId k) (_refCount k) (_tickInserted k) l.

(** ** Tagged entries *)

Definition extractTag (k : CacheBlk) (addr : Z) : result Z :=
  match extractTag_ k with Some f => Ok (f addr) | None => Err Undefined end.

(** The tag is extracted only for a valid entry. *)
Definition match_ (key : KeyType) (k : CacheBlk) : result bool :=
  if _valid k then
    t ← extractTag k (address key);
    Ok ((_tag k =? t) && eqb (_secure k) (secure key))
  else Ok false.

Definition setValid (k : CacheBlk) : result CacheBlk :=
  _ ← assert_ok (negb (_valid k)); Ok (set_valid true k).

(** TaggedEntry::insert *)
Definition insert_key (key : KeyType) (k : CacheBlk) : result CacheBlk :=
  k ← setValid k;
  t ← extractTag k (address key);
  let k := setTag t k in
  Ok (if secure key then set_secure true k else k).

(** TaggedEntry::invalidate *)
Definition invalidate_entry (k : CacheBlk) : CacheBlk := set_secure false (setTag MaxAddr (set_valid false k)).

(** ** Blocks *)

Definition setCoherenceBits (bits : Z) (k : CacheBlk) : result CacheBlk :=
  _ ← assert_ok (_valid k); Ok (set_coherence (coherence k .| bits) k).
Definition clearCoherenceBits (bits : Z) (k : CacheBlk) : CacheBlk :=
  set_coherence (coherence k .& unot 32 bits) k.
Definition isSet (bits : Z) (k : CacheBlk) : bool := _valid k && negb (coherence k .& bits =? 0).

Definition setWhenReady (tick : Z) (k : CacheBlk) : result CacheBlk :=
  _ ← assert_ok (_tickInserted k <=? tick); Ok (set_whenReady tick k).
Definition getWhenReady (k : CacheBlk) : result Z :=
  _ ← assert_ok (negb (whenReady k =? MaxTick)); Ok (whenReady k).
Definition increaseRefCount (k : CacheBlk) : CacheBlk := setRefCount (u32 (_refCount k + 1)) k.
Definition getAge (now : Z) (k : CacheBlk) : result Z :=
  _ ← assert_ok (_tickInserted k <=? now); Ok (now - _tickInserted k).

Definition invalidate (k : CacheBlk) : result CacheBlk :=
  let k := clearCoherenceBits AllBits (set_prefetched false (invalidate_entry k)) in
  let k := set_ids task_Unknown (_srcRequestorId k) MaxPartitionID k in
  k ← setWhenReady MaxTick k;
  Ok (set_lockList [] (set_ids (_taskId k) invldRequestorId (_partitionId k) (setRefCount 0 k))).

(** The constructor *)
Definition CacheBlk_new : result CacheBlk :=
  invalidate (mkBlk false false MaxAddr None 0 false 0 0 0 0 0 0 []).

Definition insert (now : Z) (key : KeyType) (src_requestor_ID task_ID partition_id : Z) (k : CacheBlk)
    : result CacheBlk :=
  _ ← assert_ok (negb (_valid k));
  k ← insert_key key k;
  Ok (increaseRefCount (setTickInserted now (set_ids task_ID src_requestor_ID partition_id k))).

(** The move assignment: the new destination and source. *)
Definition move (now : Z) (src dest : CacheBlk) : result (CacheBlk * CacheBlk) :=
  _ ← assert_ok (negb (_valid dest));
  _ ← assert_ok (_valid src);
  dest ← insert_key (mkKey (_tag src) (_secure src)) dest;
  let dest := if _prefetched src then set_prefetched true dest else dest in
  dest ← setCoherenceBits (coherence src) dest;
  let dest := set_ids (_taskId src) (_srcRequestorId dest) (_partitionId src) dest in
  dest ← setWhenReady now dest;
  let dest := setRefCount (_refCount src) dest in
  let dest := set_ids (_taskId dest) (_srcRequestorId src) (_partitionId dest) dest in
  let dest' := set_lockList (lockList src) dest in
  src ← invalidate (set_lockList (lockList dest) src);
  Ok (dest', src).

(** ** Load-locked and store-conditional *)

Definition access_high (a : Access) : Z := u64 (req_paddr a + req_size a - 1).

Definition matches (l : Lock) (a : Access) : result bool :=
  c ← contextId_of a;
  Ok ((contextId l =? c) && (lowAddr l <=? req_paddr a) && (access_high a <=? highAddr l)).

Definition intersects (l : Lock) (a : Access) : bool :=
  (req_paddr a <=? highAddr l) && (lowAddr l <=? access_high a).

Definition Lock_new (a : Access) : result Lock :=
  c ← contextId_of a; Ok (mkLock c (req_paddr a) (access_high a)).

Definition trackLoadLocked (a : Access) (k : CacheBlk) : result CacheBlk :=
  _ ← assert_ok (isLLSC a);
  l ← Lock_new a;
  Ok (set_lockList (l :: filter (λ x, intersects x a = false) (lockList k)) k).

(** The loop of clearLoadLocks; the context is read only for a lock that intersects. *)
Fixpoint clear_locks (a : Access) (l : list Lock) : result (list Lock) :=
  match l with
  | [] => Ok []
  | x :: l =>
      if intersects x a then
        c ← contextId_of a;
        l ← clear_locks a l;
        Ok (if negb (contextId x =? c) then l else x :: l)
      else l ← clear_locks a l; Ok (x :: l)
  end.

Definition clearLoadLocks (a : Access) (k : CacheBlk) : result CacheBlk :=
  l ← clear_locks a (lockList k); Ok (set_lockList l k).

(** The loop of a store conditional: whether a lock matches, and the list without it. *)
Fixpoint take_lock (a : Access) (l : list Lock) : result (bool * list Lock) :=
  match l with
  | [] => Ok (false, [])
  | x :: l =>
      m ← matches x a;
      if m : bool then Ok (true, l)
      else '(b, l) ← take_lock a l; Ok (b, x :: l)
  end.

(** Whether the write proceeds; for a store conditional that is also the extra data. *)
Definition checkWrite (a : Access) (k : CacheBlk) : result (bool * CacheBlk) :=
  _ ← assert_ok (isWrite a);
  if negb (isLLSC a) && bool_decide (lockList k = []) then Ok (true, k)
  else if isLLSC a then
    '(success, l) ← take_lock a (lockList k);
    k ← clearLoadLocks a (set_lockList l k);
    Ok (success, k)
  else k ← clearLoadLocks a k; Ok (true, k).

End CacheBlk.

(** * mem/cache/tags/partitioning_policies: who may allocate where

    A partition manager filters the candidates for a victim through its policies and tells
    them what is acquired and released.  A maximum capacity is a number of blocks (the
    product of a fraction and the size of the cache, a [double], is an argument).
    [operator[]] of a map inserts a zero where there is no entry. *)

Module Partition.

Record MaxCapacity := mkMaxCapacity {
  partitionIdMaxCapacity : gmap Z Z;
  partitionIdCurCapacity : gmap Z Z
}.

Inductive PartitioningPolicy :=
  | MaxCapacityPolicy (m : MaxCapacity)
  | WayPolicy (partitionIdWays : gmap Z (gset Z)).

(** What [operator[]] reads, and the map after it. *)
Definition index_map (m : gmap Z Z) (id : Z) : Z * gmap Z Z :=
  match m !! id with Some x => (x, m) | None => (0, <[id := 0]> m) end.

(** ** Maximum capacities *)

(** configurePartition: [emplace] leaves an entry that is there. *)
Definition configurePartition (id blocks : Z) (m : MaxCapacity) : MaxCapacity :=
  match partitionIdMaxCapacity m !! id with
  | Some _ => m
  | None => mkMaxCapacity (<[id := blocks]> (partitionIdMaxCapacity m)) (partitionIdCurCapacity m)
  end.

Definition MaxCapacity_new (partitionIDs blocks : list Z) : result MaxCapacity :=
  _ ← fatal_if (negb (length partitionIDs =? length blocks)%nat);
  Ok (foldl (λ m '(id, b), configurePartition id b m) (mkMaxCapacity ∅ ∅) (zip partitionIDs blocks)).

(** Below its limit a partition may take any entry, at its limit only its own. *)
Definition at_limit (m : MaxCapacity) (id : Z) : bool :=
  match partitionIdMaxCapacity m !! id, partitionIdCurCapacity m !! id with
  | Some limit, Some cur => negb (cur <? limit)
  | _, _ => false
  end.

Definition acquire (id : Z) (m : MaxCapacity) : result MaxCapacity :=
  let '(cur, curs) := index_map (partitionIdCurCapacity m) id in
  let '(limit, limits) := index_map (partitionIdMaxCapacity m) id in
  _ ← assert_ok (cur <=? limit);
  Ok (mkMaxCapacity limits (<[id := u64 (cur + 1)]> curs)).

Definition release (id : Z) (m : MaxCapacity) : result MaxCapacity :=
  let '(cur, curs) := index_map (partitionIdCurCapacity m) id in
  _ ← assert_ok (0 <? cur);
  Ok (mkMaxCapacity (partitionIdMaxCapacity m) (<[id := cur - 1]> curs)).

(** ** Ways *)

(** The ways of the allocations, each of a partition. *)
Fixpoint Way_new (cache_assoc : Z) (allocations : list (Z * list Z)) (m : gmap Z (gset Z))
    : result (gmap Z (gset Z)) :=
  match allocations with
  | [] => Ok m
  | (id, ways) :: l =>
      _ ← fatal_if (existsb (λ w, cache_assoc <=? w) ways);
      let old := default ∅ (m !! id) in
      Way_new cache_assoc l (if bool_decide (ways = []) then m else <[id := old ∪ list_to_set ways]> m)
  end.
Definition WayPartitioningPolicy_new (cache_assoc : Z) (allocations : list (Z * list Z))
    : result PartitioningPolicy :=
  _ ← assert_ok (0 <? cache_assoc);
  m ← Way_new cache_assoc allocations ∅;
  Ok (WayPolicy m).

(** ** The interface and the manager *)

(** [partition_of] and [way_of] read an entry. *)
Definition policy_filter (partition_of way_of : nat → Z) (id : Z) (p : PartitioningPolicy)
    (entries : list nat) : list nat :=
  match p with
  | MaxCapacityPolicy m =>
      if at_limit m id then filter (λ e, partition_of e = id) entries else entries
  | WayPolicy ways =>
      match ways !! id with
      | Some s => filter (λ e, way_of e ∈ s) entries
      | None => entries
      end
  end.

Definition policy_acquire (id : Z) (p : PartitioningPolicy) : result PartitioningPolicy :=
  match p with MaxCapacityPolicy m => m ← acquire id m; Ok (MaxCapacityPolicy m) | WayPolicy _ => Ok p end.
Definition policy_release (id : Z) (p : PartitioningPolicy) : result PartitioningPolicy :=
  match p with MaxCapacityPolicy m => m ← release id m; Ok (MaxCapacityPolicy m) | WayPolicy _ => Ok p end.

Definition filterByPartition (partition_of way_of : nat → Z) (id : Z) (ps : list PartitioningPolicy)
    (entries : list nat) : list nat :=
  foldl (λ es p, policy_filter partition_of way_of id p es) entries ps.

Fixpoint on_policies (f : PartitioningPolicy → result PartitioningPolicy) (ps : list PartitioningPolicy)
    : result (list PartitioningPolicy) :=
  match ps with
  | [] => Ok []
  | p :: ps => p ← f p; ps ← on_policies f ps; Ok (p :: ps)
  end.
Definition notifyAcquire (id : Z) (ps : list PartitioningPolicy) : result (list PartitioningPolicy) :=
  on_policies (policy_acquire id) ps.
Definition notifyRelease (id : Z) (ps : list PartitioningPolicy) : result (list PartitioningPolicy) :=
  on_policies (policy_release id) ps.

End Partition.
