(* ===== verification/SetAssoc.v ===== *)
(** * mem/cache/tags: set-associative tags, and how a cache allocates and evicts

    The tags of base.cc and base_set_assoc.cc over any indexing policy ([TagIndexing]), any
    replacement policy ([ReplacementPolicy]) and the partitioning policies, with the
    operations of cache/base.cc and cache/cache.cc that change which blocks there are.  A
    [CacheBlk*] is the index of the block. *)

From Stdlib Require Import ZArith Lia.
From stdpp Require Import base numbers option list gmap.
From S2P Require Import Prelude Packet Indexing ReplPolicies ReplPoliciesProps CacheBlk.

Module SetAssoc.
Import Indexing CacheBlk Partition.

(** ** The policies that tags use *)

Class TagIndexing := {
  getPossibleEntries : IndexingPolicy → Z → result (list (option nat));
  (** of a tag, a set and a way *)
  regenerateAddr : IndexingPolicy → Z → Z → Z → Z
}.

Definition set_associative : TagIndexing := {|
  getPossibleEntries := sa_getPossibleEntries;
  regenerateAddr ip tag set way := sa_regenerateAddr ip tag set
|}.
Definition skewed_associative : TagIndexing := {|
  getPossibleEntries := sk_getPossibleEntries;
  regenerateAddr := sk_regenerateAddr
|}.

(** The rest of the interface of a replacement policy, at the time [now]. *)
Class ReplacementPolicy (P : Type) `{!ReplPoliciesProps.Policy P} := {
  rp_instantiateEntry : nat → P → P;
  rp_touch : Z → nat → P → result P;
  rp_reset : Z → nat → P → result P;
  rp_invalidate : Z → nat → P → result P
}.

(** ** Tags *)

Record Tags (P : Type) := mkTags {
  blks : list CacheBlk;
  indexingPolicy : IndexingPolicy;
  replacementPolicy : P;
  partitionManager : option (list PartitioningPolicy)
}.
Arguments mkTags {P}. Arguments blks {P}. Arguments indexingPolicy {P}. Arguments replacementPolicy {P}.
Arguments partitionManager {P}.

(** What an insertion reads of a packet and its request. *)
Record FillPacket := mkFill {
  pkt_addr : Z;
  pkt_secure : bool;
  requestorId : Z;
  taskId : Z;
  partitionID : Z
}.

(** What an eviction sends down. *)
Record Writeback := mkWriteback {
  wb_cmd : Packet.Command;
  wb_addr : Z;
  wb_secure : bool;
  wb_taskId : Z;
  wb_hasSharers : bool
}.

(** What an MSHR that matches an address is asked. *)
Record Pending := mkPending { needsWritable : bool; isCleaning : bool }.

Section Tags_.
Context {P : Type} `{!ReplPoliciesProps.Policy P} `{!ReplacementPolicy P} `{!TagIndexing}.
Implicit Types (t : Tags P).

Definition set_blk (e : nat) (k : CacheBlk) t : Tags P :=
  mkTags (<[e := k]> (blks t)) (indexingPolicy t) (replacementPolicy t) (partitionManager t).
Definition set_policy (p : P) t : Tags P := mkTags (blks t) (indexingPolicy t) p (partitionManager t).
Definition set_partitions (m : option (list PartitioningPolicy)) t : Tags P :=
  mkTags (blks t) (indexingPolicy t) (replacementPolicy t) m.

(** The constructor: blocks that are linked to nothing. *)
Definition BaseSetAssoc_new (blkSize size : Z) (ip : IndexingPolicy) (p : P)
    (m : option (list PartitioningPolicy)) : result (Tags P) :=
  if blkSize =? 0 then Err Undefined else
  _ ← fatal_if ((blkSize <? 4) || negb (IntMath.IntMath.isPowerOf2 blkSize));
  k ← CacheBlk_new;
  Ok (mkTags (replicate (Z.to_nat (size / blkSize)) k) ip p m).

(** The loop of tagsInit over [n] blocks from [blk_index] on. *)
Fixpoint tagsInit_loop (n blk_index : nat) t : result (Tags P) :=
  match n with
  | O => Ok t
  | S n =>
      k ← deref (blks t !! blk_index);
      ip ← setEntry (indexingPolicy t) blk_index (Z.of_nat blk_index);
      let k := registerTagExtractor (Indexing.extractTag ip) k in
      tagsInit_loop n (S blk_index)
        (mkTags (<[blk_index := k]> (blks t)) ip (rp_instantiateEntry blk_index (replacementPolicy t))
           (partitionManager t))
  end.
Definition tagsInit t : result (Tags P) := tagsInit_loop (length (blks t)) 0 t.

(** *** Looking for blocks *)

Fixpoint find_match (key : KeyType) (entries : list (option nat)) t : result (option nat) :=
  match entries with
  | [] => Ok None
  | o :: l =>
      e ← deref o;
      k ← deref (blks t !! e);
      m ← match_ key k;
      if m : bool then Ok (Some e) else find_match key l t
  end.

Definition findBlock (key : KeyType) t : result (option nat) :=
  entries ← getPossibleEntries (indexingPolicy t) (address key);
  find_match key entries t.

Definition accessBlock (now : Z) (key : KeyType) t : result (option nat * Tags P) :=
  o ← findBlock key t;
  match o with
  | None => Ok (None, t)
  | Some e =>
      k ← deref (blks t !! e);
      let t := set_blk e (increaseRefCount k) t in
      p ← rp_touch now e (replacementPolicy t);
      Ok (Some e, set_policy p t)
  end.

Fixpoint entries_of (l : list (option nat)) : result (list nat) :=
  match l with [] => Ok [] | o :: l => e ← deref o; l ← entries_of l; Ok (e :: l) end.

(** What the partitioning policies read of an entry. *)
Definition partition_of t (e : nat) : Z := from_option _partitionId 0 (blks t !! e).
Definition way_of t (e : nat) : Z := from_option snd 0 (positions (indexingPolicy t) !! e).

(** The victim, if any; the replacement policy may change. *)
Definition findVictim (key : KeyType) (partition_id : Z) t : result (option nat * Tags P) :=
  entries ← getPossibleEntries (indexingPolicy t) (address key);
  entries ← entries_of entries;
  let entries := match partitionManager t with
                 | Some ps => filterByPartition (partition_of t) (way_of t) partition_id ps entries
                 | None => entries
                 end in
  if bool_decide (entries = []) then Ok (None, t)
  else '(v, p) ← ReplPoliciesProps.getVictim (replacementPolicy t) entries;
       Ok (Some v, set_policy p t).

Definition regenerateBlkAddr (e : nat) t : result Z :=
  k ← deref (blks t !! e);
  '(set, way) ← deref (positions (indexingPolicy t) !! e);
  Ok (regenerateAddr (indexingPolicy t) (_tag k) set way).

(** *** Changing blocks *)

(** readPacketPartitionID of the manager, or 0 *)
Definition partition_id_of (pkt : FillPacket) t : Z :=
  match partitionManager t with Some _ => partitionID pkt | None => 0 end.

Definition insertBlock (now maxRequestors : Z) (pkt : FillPacket) (e : nat) t : result (Tags P) :=
  k ← deref (blks t !! e);
  _ ← assert_ok (negb (_valid k));
  _ ← assert_ok (requestorId pkt <? maxRequestors);
  k ← insert now (mkKey (pkt_addr pkt) (pkt_secure pkt)) (requestorId pkt) (taskId pkt)
        (partition_id_of pkt t) k;
  let t := set_blk e k t in
  m ← match partitionManager t with
      | Some ps => ps ← notifyAcquire (partitionID pkt) ps; Ok (Some ps)
      | None => Ok None
      end;
  p ← rp_reset now e (replacementPolicy t);
  Ok (set_policy p (set_partitions m t)).

Definition tags_invalidate (now : Z) (e : nat) t : result (Tags P) :=
  k ← deref (blks t !! e);
  m ← match partitionManager t with
      | Some ps => ps ← notifyRelease (_partitionId k) ps; Ok (Some ps)
      | None => Ok None
      end;
  _ ← assert_ok (_valid k);
  k ← invalidate k;
  let t := set_partitions m (set_blk e k t) in
  p ← rp_invalidate now e (replacementPolicy t);
  Ok (set_policy p t).

Definition moveBlock (now : Z) (src dest : nat) t : result (Tags P) :=
  d ← deref (blks t !! dest);
  s ← deref (blks t !! src);
  _ ← assert_ok (negb (_valid d));
  _ ← assert_ok (_valid s);
  '(d, s) ← move now s d;
  _ ← assert_ok (_valid d);
  _ ← assert_ok (negb (_valid s));
  let t := set_blk src s (set_blk dest d t) in
  p ← rp_invalidate now src (replacementPolicy t);
  p ← rp_reset now dest p;
  Ok (set_policy p t).

(** ** The cache *)

Section Cache.
(** The parameters of the cache, and what its MSHR queue finds for an address. *)
Context (isReadOnly writebackClean : bool) (maxRequestors : Z) (findMatch : Z → bool → option Pending).

(** The packet, and the block without the bits that it gives away. *)
Definition writebackBlk (e : nat) t : result (Writeback * Tags P) :=
  _ ← assert_ok (negb isReadOnly || writebackClean);
  k ← deref (blks t !! e);
  _ ← assert_ok (_valid k && (isSet DirtyBit k || writebackClean));
  a ← regenerateBlkAddr e t;
  let wb := mkWriteback (if isSet DirtyBit k then Packet.WritebackDirty else Packet.WritebackClean) a
              (_secure k) (_taskId k) (negb (isSet WritableBit k)) in
  let k := if isSet WritableBit k then clearCoherenceBits WritableBit k else k in
  Ok (wb, set_blk e (clearCoherenceBits DirtyBit k) t).

Definition cleanEvictBlk (e : nat) t : result Writeback :=
  _ ← assert_ok (negb writebackClean);
  k ← deref (blks t !! e);
  _ ← assert_ok (_valid k && negb (isSet DirtyBit k));
  a ← regenerateBlkAddr e t;
  Ok (mkWriteback Packet.CleanEvict a (_secure k) (_taskId k) false).

Definition evictBlock (now : Z) (e : nat) t : result (Writeback * Tags P) :=
  k ← deref (blks t !! e);
  '(wb, t) ← (if isSet DirtyBit k || writebackClean then writebackBlk e t
              else wb ← cleanEvictBlk e t; Ok (wb, t));
  t ← tags_invalidate now e t;
  Ok (wb, t).

(** The first loop: no block has a request in flight. *)
Fixpoint may_evict (evict_blks : list nat) t : result bool :=
  match evict_blks with
  | [] => Ok true
  | e :: l =>
      k ← deref (blks t !! e);
      if _valid k then
        a ← regenerateBlkAddr e t;
        match findMatch a (_secure k) with
        | Some m =>
            _ ← assert_ok ((negb (isSet WritableBit k) && needsWritable m) || isCleaning m);
            Ok false
        | None => may_evict l t
        end
      else may_evict l t
  end.

Fixpoint evict_all (now : Z) (evict_blks : list nat) t : result (list Writeback * Tags P) :=
  match evict_blks with
  | [] => Ok ([], t)
  | e :: l =>
      k ← deref (blks t !! e);
      if _valid k then
        '(wb, t) ← evictBlock now e t;
        '(wbs, t) ← evict_all now l t;
        Ok (wb :: wbs, t)
      else evict_all now l t
  end.

(** Without a valid block the second loop does nothing. *)
Definition handleEvictions (now : Z) (evict_blks : list nat) t : result (bool * list Writeback * Tags P) :=
  b ← may_evict evict_blks t;
  if b : bool then '(wbs, t) ← evict_all now evict_blks t; Ok (true, wbs, t) else Ok (false, [], t).

Definition allocateBlock (now : Z) (pkt : FillPacket) t : result (option nat * list Writeback * Tags P) :=
  '(victim, t) ← findVictim (mkKey (pkt_addr pkt) (pkt_secure pkt)) (partition_id_of pkt t) t;
  match victim with
  | None => Ok (None, [], t)
  | Some e =>
      '(b, wbs, t) ← handleEvictions now [e] t;
      if b : bool then t ← insertBlock now maxRequestors pkt e t; Ok (Some e, wbs, t)
      else Ok (None, [], t)
  end.

End Cache.
End Tags_.

(** ** The replacement policies of the library *)

Import ReplPolicies ReplPoliciesProps.

#[export] Instance lru_tags : ReplacementPolicy (ReplPolicies.heap LRUReplData) := {|
  rp_instantiateEntry e h := <[e := lru_instantiateEntry]> h;
  rp_touch now e h := lru_touch now h e;
  rp_reset now e h := lru_reset now h e;
  rp_invalidate now e h := lru_invalidate h e
|}.
#[export] Instance fifo_tags : ReplacementPolicy FIFOState := {|
  rp_instantiateEntry e s := mkFIFO (timeTicks s) (<[e := fifo_instantiateEntry]> (fifo_heap s));
  rp_touch now e s := fifo_touch s e;
  rp_reset now e s := fifo_reset s e;
  rp_invalidate now e s := fifo_invalidate s e
|}.
#[export] Instance lfu_tags : ReplacementPolicy (ReplPolicies.heap LFUReplData) := {|
  rp_instantiateEntry e h := <[e := lfu_instantiateEntry]> h;
  rp_touch now e h := lfu_touch h e;
  rp_reset now e h := lfu_reset h e;
  rp_invalidate now e h := lfu_invalidate h e
|}.

End SetAssoc.

(** * What tags are meant to be: a map

    A line is where the map has a block and its coherence bits.  An event of the cache looks
    an address up, fills, invalidates or changes the state of a block; [map_step] is what it
    does to the map and what it answers, whatever the policies are. *)

Module TagsSpec.
Import Indexing CacheBlk Partition SetAssoc.

Record Line := mkLine { place : nat; line_bits : Z }.

(** The lines by block address and security domain. *)
Abbreviation Lines := (gmap (Z * bool) Line).

Inductive Event :=
  | EvAccess (now : Z) (key : KeyType)
  | EvFill (now : Z) (pkt : FillPacket) (findMatch : Z → bool → option Pending)
  | EvInvalidate (now : Z) (e : nat)
  | EvSetBits (e : nat) (bits : Z)
  | EvClearBits (e : nat) (bits : Z).

Inductive Answer :=
  | Found (e : option nat)
  | Filled (e : option nat) (wbs : list Writeback)
  | Done.

(** The lines that are not in the block [e]. *)
Definition without (e : nat) (m : Lines) : Lines := filter (λ '(_, l), place l ≠ e) m.

(** What is sent down when a line leaves. *)
Definition writeback_cmd (writebackClean : bool) (bits : Z) : Packet.Command :=
  if negb (bits .& DirtyBit =? 0) then Packet.WritebackDirty
  else if writebackClean then Packet.WritebackClean else Packet.CleanEvict.

Definition is_writeback_of (writebackClean : bool) (wb : Writeback) (key : Z * bool) (l : Line) : Prop :=
  wb_cmd wb = writeback_cmd writebackClean (line_bits l) ∧ wb_addr wb = key.1 ∧ wb_secure wb = key.2 ∧
  (wb_cmd wb ≠ Packet.CleanEvict → wb_hasSharers wb = (line_bits l .& WritableBit =? 0)).

(** [key_of] takes an address to its block's. *)
Inductive map_step (writebackClean : bool) (key_of : KeyType → Z * bool) : Lines → Event → Answer → Lines → Prop :=
  | map_access m now key :
      map_step writebackClean key_of m (EvAccess now key) (Found (place <$> m !! key_of key)) m
  | map_no_fill m now pkt fm :
      map_step writebackClean key_of m (EvFill now pkt fm) (Filled None []) m
  | map_fill m now pkt fm e wbs :
      m !! key_of (mkKey (pkt_addr pkt) (pkt_secure pkt)) = None →
      (wbs = [] ∧ (∀ key l, m !! key = Some l → place l ≠ e) ∨
       ∃ wb key l, wbs = [wb] ∧ m !! key = Some l ∧ place l = e ∧ is_writeback_of writebackClean wb key l) →
      map_step writebackClean key_of m (EvFill now pkt fm) (Filled (Some e) wbs)
        (<[key_of (mkKey (pkt_addr pkt) (pkt_secure pkt)) := mkLine e 0]> (without e m))
  | map_invalidate m now e :
      map_step writebackClean key_of m (EvInvalidate now e) Done (without e m)
  | map_set m e bits key c :
      m !! key = Some (mkLine e c) →
      map_step writebackClean key_of m (EvSetBits e bits) Done (<[key := mkLine e (c .| bits)]> m)
  | map_clear m e bits key c :
      m !! key = Some (mkLine e c) →
      map_step writebackClean key_of m (EvClearBits e bits) Done (<[key := mkLine e (c .& unot 32 bits)]> m).

Inductive map_run (writebackClean : bool) (key_of : KeyType → Z * bool) : Lines → list Event → list Answer → Lines → Prop :=
  | map_nil m : map_run writebackClean key_of m [] [] m
  | map_cons m ev evs a ans m1 m2 :
      map_step writebackClean key_of m ev a m1 → map_run writebackClean key_of m1 evs ans m2 →
      map_run writebackClean key_of m (ev :: evs) (a :: ans) m2.

(** ** The events on tags *)

Section Events.
Context {P : Type} `{!ReplPoliciesProps.Policy P} `{!ReplacementPolicy P} `{!TagIndexing}.
Context (isReadOnly writebackClean : bool) (maxRequestors : Z).
Implicit Types (t : Tags P).

Definition on_block (f : CacheBlk → result CacheBlk) (e : nat) t : result (Tags P) :=
  k ← deref (blks t !! e); k ← f k; Ok (set_blk e k t).

Definition tags_step (ev : Event) t : result (Answer * Tags P) :=
  match ev with
  | EvAccess now key => '(o, t) ← accessBlock now key t; Ok (Found o, t)
  | EvFill now pkt fm =>
      '(o, wbs, t) ← allocateBlock isReadOnly writebackClean maxRequestors fm now pkt t; Ok (Filled o wbs, t)
  | EvInvalidate now e => t ← tags_invalidate now e t; Ok (Done, t)
  | EvSetBits e bits => t ← on_block (setCoherenceBits bits) e t; Ok (Done, t)
  | EvClearBits e bits => t ← on_block (λ k, Ok (clearCoherenceBits bits k)) e t; Ok (Done, t)
  end.

Definition valid_at t (e : nat) : Prop := ∃ k, blks t !! e = Some k ∧ _valid k = true.

(** A request in flight for a block that the cache has asks for more than the cache has, or
    cleans it. *)
Definition in_flight_ok (fm : Z → bool → option Pending) t : Prop :=
  ∀ e k a m, blks t !! e = Some k → _valid k = true → regenerateBlkAddr e t = Ok a → fm a (_secure k) = Some m →
    (isSet WritableBit k = false ∧ needsWritable m = true) ∨ isCleaning m = true.

(** How a cache uses its tags: it fills what it has not found.  [MaxPartitionID] is the
    partition of a block without a line, and of no packet. *)
Definition legal t (ev : Event) : Prop :=
  match ev with
  | EvAccess now key => fits 64 (address key)
  | EvFill now pkt fm =>
      fits 64 (pkt_addr pkt) ∧ now <= MaxTick ∧ requestorId pkt < maxRequestors ∧
      findBlock (mkKey (pkt_addr pkt) (pkt_secure pkt)) t = Ok None ∧ partitionID pkt ≠ MaxPartitionID ∧ in_flight_ok fm t
  | EvInvalidate now e => valid_at t e
  | EvSetBits e bits => valid_at t e ∧ bits .& AllBits = bits ∧ (isReadOnly = true → bits .& DirtyBit = 0)
  | EvClearBits e bits => valid_at t e ∧ bits .& AllBits = bits
  end.

Fixpoint run_tags (evs : list Event) t : result (list Answer * Tags P) :=
  match evs with
  | [] => Ok ([], t)
  | ev :: evs => '(a, t) ← tags_step ev t; '(ans, t) ← run_tags evs t; Ok (a :: ans, t)
  end.

Fixpoint legal_run (evs : list Event) t : Prop :=
  match evs with
  | [] => True
  | ev :: evs => legal t ev ∧ match tags_step ev t with Ok (_, t) => legal_run evs t | Err _ => True end
  end.

End Events.
End TagsSpec.
