(* ===== verification/SetAssocProps.v ===== *)
(** * mem/cache/tags: tags are a map

    [SetAssocLemmas] has the interfaces: [IndexingLaws] and [ReplacementLaws] are what tags
    need of their policies, with the policies that keep them.  [SetAssocProps] shows that
    tags refine [TagsSpec.map_step], that capacities of partitions are kept, and runs a small
    cache. *)

From Stdlib Require Import ZArith Lia.
From stdpp Require Import base numbers option list gmap sets.
From S2P Require Import Prelude ReplPolicies ReplPoliciesProps Indexing Packet CacheBlk SetAssoc.

Module SetAssocLemmas.
Import Indexing CacheBlk Partition SetAssoc.

(** ** Indexing *)

(** All entries are linked: each position has one of the [n] entries. *)
Definition linked (ip : IndexingPolicy) (n : nat) : Prop :=
  0 < assoc ip ∧
  ∀ set, 0 <= set < numSets ip → ∃ row, sets ip !! Z.to_nat set = Some row ∧
    Z.of_nat (length row) = assoc ip ∧
    ∀ way, 0 <= way < assoc ip → ∃ e, row !! Z.to_nat way = Some (Some e) ∧ (e < n)%nat ∧
      positions ip !! e = Some (set, way).

Definition same_constants (ip ip' : IndexingPolicy) : Prop :=
  assoc ip' = assoc ip ∧ numSets ip' = numSets ip ∧ setShift ip' = setShift ip ∧ setMask ip' = setMask ip ∧
  tagShift ip' = tagShift ip.

Class IndexingLaws `{!TagIndexing} := {
  (** of the constants *)
  index_cond : IndexingPolicy → Prop;
  index_cond_same ip ip' : same_constants ip ip' → index_cond ip → index_cond ip';
  possible_law ip n a : index_cond ip → linked ip n → fits 64 a →
    ∃ es, getPossibleEntries ip a = Ok (map Some es) ∧ es ≠ [] ∧
      ∀ e, e ∈ es → (e < n)%nat ∧ ∃ set way, positions ip !! e = Some (set, way) ∧
        regenerateAddr ip (Indexing.extractTag ip a) set way = block_addr ip a;
  possible_block ip a b : index_cond ip → fits 64 a → fits 64 b → block_addr ip a = block_addr ip b →
    getPossibleEntries ip a = getPossibleEntries ip b ∧ Indexing.extractTag ip a = Indexing.extractTag ip b
}.

(** What has the same block address has the same bits above the offset. *)
Lemma block_addr_shift ip a b i : 0 <= setShift ip → block_addr ip a = block_addr ip b → setShift ip <= i → a .>> i = b .>> i.
Proof.
  intros Hs H Hi. apply Z.bits_inj'. intros j Hj. rewrite !Z.shiftr_spec by lia.
  pose proof (f_equal (λ z, Z.testbit z (j + i)) H) as Hb. simpl in Hb. rewrite !block_addr_bit in Hb by lia.
  by replace (setShift ip <=? j + i) with true in Hb by lia.
Qed.

Lemma row_entries (row : list (option nat)) (Q : nat → Prop) : (∀ i o, row !! i = Some o → ∃ e, o = Some e ∧ Q e) →
  ∃ es, row = map Some es ∧ ∀ e, e ∈ es → Q e.
Proof.
  induction row as [|o row IH]; intros H; [exists []; split; [done|set_solver]|].
  destruct (H 0%nat o eq_refl) as (e & -> & He). destruct IH as (es & -> & Hes).
  { intros i o Hi. by apply (H (S i)). }
  exists (e :: es). split; [done|]. set_solver.
Qed.

(** The set of an address exists. *)
Lemma extractSet_range ip n a : indexing_ok ip n → 0 <= sa_extractSet ip a < numSets ip.
Proof.
  intros (Hn & HN & Hm & _). unfold sa_extractSet. rewrite HN, Hm. pose proof (pow2_pos n ltac:(lia)).
  rewrite Z.land_ones by lia. pose proof (Z.mod_pos_bound (a .>> setShift ip) (2 ^ n) ltac:(lia)).
  rewrite wrap_small; [done|]. assert (2 ^ n < 2 ^ 32) by (apply Z.pow_lt_mono_r; lia). unfold fits. lia.
Qed.

Lemma indexing_ok_same ip ip' n : same_constants ip ip' → indexing_ok ip n → indexing_ok ip' n.
Proof. unfold indexing_ok. by intros (_ & -> & -> & -> & ->). Qed.

Definition sa_cond (ip : IndexingPolicy) : Prop := (∃ n, indexing_ok ip n) ∧ tagShift ip <= 32.

#[export, program] Instance sa_laws : @IndexingLaws set_associative := {| index_cond := sa_cond |}.
Next Obligation.
  intros ip ip' Hs ((n & Hn) & Ht). split; [exists n; by eapply indexing_ok_same|]. by destruct Hs as (_ & _ & _ & _ & ->).
Qed.
Next Obligation.
  intros ip n a ((m & Hm) & Ht) (Ha & Hl) Hf. simpl. unfold sa_getPossibleEntries.
  pose proof (extractSet_range ip m a Hm) as Hr. destruct (Hl _ Hr) as (row & -> & Hlen & Hrow). simpl.
  destruct (row_entries row (λ e, (e < n)%nat ∧ ∃ way, positions ip !! e = Some (sa_extractSet ip a, way))) as (es & -> & Hes).
  { intros i o Hi. pose proof (lookup_lt_Some _ _ _ Hi). destruct (Hrow (Z.of_nat i)) as (e & He & Hlt & Hp); [lia|].
    rewrite Nat2Z.id, Hi in He. injection He as ->. exists e. split; [done|]. split; [done|]. by eexists. }
  exists es. split; [done|]. split; [intros ->; simpl in Hlen; lia|].
  intros e He. destruct (Hes e He) as (Hlt & way & Hp). split; [done|]. exists (sa_extractSet ip a), way.
  split; [done|]. by eapply sa_regenerateAddr_extract.
Qed.
Next Obligation.
  intros ip a b ((m & Hm) & Ht) Ha Hb H. pose proof Hm as (Hn0 & _ & _ & Hs & Hts & _). simpl.
  unfold sa_getPossibleEntries, sa_extractSet, Indexing.extractTag.
  rewrite (block_addr_shift ip a b (setShift ip)), (block_addr_shift ip a b (tagShift ip)) by (done || lia). done.
Qed.

Definition sk_cond (ip : IndexingPolicy) : Prop :=
  ∃ n, indexing_ok ip n ∧ 1 < n ∧ setShift ip + 2 * n <= 64.

Lemma sk_entries_spec ip n a k : sk_cond ip → linked ip n → fits 64 a → ∀ m way, 0 <= way → way + Z.of_nat m <= assoc ip →
  k = m → ∃ es, sk_entries ip a way k = Ok (map Some es) ∧ length es = m ∧
    ∀ e, e ∈ es → (e < n)%nat ∧ ∃ way', 0 <= way' ∧ positions ip !! e = Some (sk_extractSet ip a way', way').
Proof.
  intros Hc Hl Ha m way Hw Hm ->. revert way Hw Hm. induction m as [|m IH]; intros way Hw Hm; simpl.
  { exists []. split; [done|]. split; [done|]. set_solver. }
  destruct Hl as (Hassoc & Hl). destruct Hc as (i & (Hi & HN & Hmask & Hs & _) & _).
  assert (0 <= sk_extractSet ip a way < numSets ip) as Hr.
  { unfold sk_extractSet. rewrite HN, Hmask. pose proof (pow2_pos i ltac:(lia)). rewrite Z.land_ones by lia.
    pose proof (Z.mod_pos_bound (skew (msbShift ip) (a .>> setShift ip) way) (2 ^ i) ltac:(lia)).
    rewrite wrap_small; [done|]. assert (2 ^ i < 2 ^ 32) by (apply Z.pow_lt_mono_r; lia). unfold fits. lia. }
  destruct (Hl _ Hr) as (row & Hrow & Hlen & He). destruct (He way) as (e & Hlk & Hlt & Hp); [lia|].
  unfold getEntry. rewrite Hrow. simpl. rewrite Hlk. simpl.
  destruct (IH (way + 1)) as (es & -> & Hles & Hes); [lia|lia|]. simpl. exists (e :: es). split; [done|].
  split; [by rewrite <-Hles|]. intros x Hx. apply list.elem_of_cons in Hx as [->|Hx]; [|by apply Hes]. split; [done|]. by exists way.
Qed.

#[export, program] Instance sk_laws : @IndexingLaws skewed_associative := {| index_cond := sk_cond |}.
Next Obligation.
  intros ip ip' Hs (n & Hn & H1 & H2). exists n. split; [by eapply indexing_ok_same|]. split; [done|].
  by destruct Hs as (_ & _ & -> & _ & _).
Qed.
Next Obligation.
  intros ip n a Hc Hl Ha. simpl. pose proof Hl as [Hassoc _].
  destruct (sk_entries_spec ip n a (Z.to_nat (assoc ip)) Hc Hl Ha (Z.to_nat (assoc ip)) 0) as (es & H & Hlen & Hes); [lia|lia|done|].
  exists es. split; [exact H|]. split; [intros ->; simpl in Hlen; lia|]. intros e He. destruct (Hes e He) as (Hlt & way & Hw & Hp).
  split; [done|]. exists (sk_extractSet ip a way), way. split; [done|]. destruct Hc as (i & Hi & H1 & H2).
  by eapply sk_regenerateAddr_extract.
Qed.
Next Obligation.
  intros ip a b (m & Hm & H1 & H2) Ha Hb H. pose proof Hm as (Hn0 & _ & _ & Hs & Hts & _). simpl.
  assert (∀ way k, sk_entries ip a way k = sk_entries ip b way k) as He.
  { intros way k. revert way. induction k as [|k IH]; intros way; [done|]. simpl. rewrite IH. unfold sk_extractSet.
    by rewrite (block_addr_shift ip a b (setShift ip)) by (done || lia). }
  unfold sk_getPossibleEntries, Indexing.extractTag. rewrite He.
  by rewrite (block_addr_shift ip a b (tagShift ip)) by (done || lia).
Qed.

(** ** Replacement *)

Import ReplPolicies ReplPoliciesProps.

(** The entries that [s] knows, [s'] knows. *)
Definition remembers {P} `{!Policy P} (s s' : P) : Prop := ∀ e, knows s e → knows s' e.

#[export] Instance remembers_preorder {P} `{!Policy P} : PreOrder remembers.
Proof. split; [by intros s e|]. intros s1 s2 s3 H1 H2 e He. by apply H2, H1. Qed.

Class ReplacementLaws (P : Type) `{!Policy P} `{!PolicyLaws P} `{!ReplacementPolicy P} := {
  instantiate_law e (s : P) : knows (rp_instantiateEntry e s) e ∧ remembers s (rp_instantiateEntry e s);
  touch_law now e (s : P) : knows s e → ∃ s', rp_touch now e s = Ok s' ∧ remembers s s';
  reset_law now e (s : P) : knows s e → ∃ s', rp_reset now e s = Ok s' ∧ remembers s s';
  invalidate_law now e (s : P) : knows s e → ∃ s', rp_invalidate now e s = Ok s' ∧ remembers s s'
}.

Lemma known_upd {D} (h : heap D) e (f : D → D) : known h e → ∃ h', upd h e f = Ok h' ∧ ∀ x, known h x → known h' x.
Proof.
  intros [d Hd]. unfold upd. rewrite Hd. simpl. eexists. split; [done|]. intros x [dx Hx]. unfold known.
  destruct (decide (x = e)) as [->|]; [rewrite lookup_insert_eq; by eexists|]. rewrite lookup_insert_ne by done. by eexists.
Qed.

Lemma known_set {D} (h : heap D) e d : known (<[e:=d]> h) e ∧ ∀ x, known h x → known (<[e:=d]> h) x.
Proof.
  unfold known. split; [rewrite lookup_insert_eq; by eexists|]. intros x Hx.
  destruct (decide (x = e)) as [->|]; [rewrite lookup_insert_eq; by eexists|]. by rewrite lookup_insert_ne.
Qed.

#[export] Instance lru_tags_laws : ReplacementLaws (heap LRUReplData).
Proof. split; intros; [apply known_set|by apply known_upd..]. Qed.
#[export] Instance lfu_tags_laws : ReplacementLaws (heap LFUReplData).
Proof. split; intros; [apply known_set|by apply known_upd..]. Qed.

Lemma fifo_stamp_known s e : known (fifo_heap s) e →
  ∃ s', fifo_stamp s e = Ok s' ∧ ∀ x, known (fifo_heap s) x → known (fifo_heap s') x.
Proof.
  intros He. unfold fifo_stamp. destruct (known_upd _ _ (λ _, u64 (timeTicks s + 1)) He) as (h & -> & Hh).
  simpl. by eexists.
Qed.
#[export] Instance fifo_tags_laws : ReplacementLaws FIFOState.
Proof.
  split; intros; [apply known_set|by eexists|by apply fifo_stamp_known..].
Qed.

(** ** Partitions only remove candidates *)

Lemma policy_filter_subset po wo id p es e : e ∈ policy_filter po wo id p es → e ∈ es.
Proof.
  unfold policy_filter. destruct p as [m|w].
  - destruct (at_limit m id); [|done]. by intros [_ ?]%list_elem_of_filter.
  - destruct (w !! id); [|done]. by intros [_ ?]%list_elem_of_filter.
Qed.

Lemma filterByPartition_subset po wo id ps es e : e ∈ filterByPartition po wo id ps es → e ∈ es.
Proof.
  unfold filterByPartition. revert es. induction ps as [|p ps IH]; intros es; simpl; [done|].
  intros H. apply IH in H. by eapply policy_filter_subset.
Qed.

End SetAssocLemmas.

(** * mem/cache/tags: tags are a map

    [tags_ok] is the invariant of tags and [represents] says which lines they have.  Each
    operation that a cache makes of its tags succeeds, keeps the invariant and does to the
    lines what [map_step] says, whatever the indexing, replacement and partitioning
    policies are. *)

Module SetAssocProps.
Import Indexing CacheBlk Partition ReplPoliciesProps SetAssoc TagsSpec SetAssocLemmas.

Section Props.
Context {P : Type} `{!Policy P} `{!PolicyLaws P} `{!ReplacementPolicy P} `{!ReplacementLaws P}.
Context `{!TagIndexing} `{!IndexingLaws}.
Context (isReadOnly writebackClean : bool) (maxRequestors : Z).
Implicit Types (t : Tags P) (k : CacheBlk) (m : Lines).

(** ** The invariant *)

Definition key_of (ip : IndexingPolicy) (key : KeyType) : Z * bool := (block_addr ip (address key), secure key).

(** The block [k] at [e] has the line of a block address. *)
Definition has_key (ip : IndexingPolicy) (e : nat) (k : CacheBlk) (key : Z * bool) : Prop :=
  _valid k = true ∧ _secure k = key.2 ∧
  ∃ a es, fits 64 a ∧ block_addr ip a = key.1 ∧ getPossibleEntries ip a = Ok (map Some es) ∧ e ∈ es ∧
    _tag k = Indexing.extractTag ip a.

Definition holds t (key : Z * bool) (l : Line) : Prop :=
  ∃ k, blks t !! place l = Some k ∧ line_bits l = coherence k ∧ has_key (indexingPolicy t) (place l) k key.

(** The map has exactly the lines of the valid blocks. *)
Definition represents t m : Prop :=
  (∀ key l, m !! key = Some l ↔ holds t key l) ∧
  ∀ e k, blks t !! e = Some k → _valid k = true → ∃ key, has_key (indexingPolicy t) e k key.

Record blk_ok (ip : IndexingPolicy) (k : CacheBlk) : Prop := {
  blk_extract : extractTag_ k = Some (Indexing.extractTag ip);
  blk_tick : _tickInserted k <= MaxTick;
  blk_bits : coherence k .& AllBits = coherence k;
  blk_clean : isReadOnly = true → coherence k .& DirtyBit = 0;
  blk_partition : _valid k = true → _partitionId k ≠ MaxPartitionID;
  blk_invalid : _valid k = false → _secure k = false ∧ coherence k = 0 ∧ _partitionId k = MaxPartitionID
}.

Definition in_partition (id : Z) (k : CacheBlk) : Prop := _valid k = true ∧ _partitionId k = id.
#[export] Instance in_partition_dec id k : Decision (in_partition id k).
Proof. unfold in_partition. apply _. Defined.

(** How many blocks a partition has. *)
Definition occupancy (id : Z) (l : list CacheBlk) : Z := Z.of_nat (length (filter (in_partition id) l)).

(** The capacity of a partition; one that is not configured has none. *)
Definition capacity (x : MaxCapacity) (id : Z) : Z := default 0 (partitionIdMaxCapacity x !! id).

(** The policy of capacities counts the blocks of each partition, and no partition has more
    than its share, or than one. *)
Definition counts (l : list CacheBlk) (x : MaxCapacity) : Prop :=
  ∀ id, default 0 (partitionIdCurCapacity x !! id) = occupancy id l ∧ 0 <= capacity x id ∧ occupancy id l <= Z.max 1 (capacity x id) ∧
    (0 < occupancy id l → is_Some (partitionIdMaxCapacity x !! id)).

Definition policy_counts (l : list CacheBlk) (p : PartitioningPolicy) : Prop :=
  match p with MaxCapacityPolicy x => counts l x | WayPolicy _ => True end.

Record tags_ok t : Prop := {
  ok_cond : index_cond (indexingPolicy t);
  ok_linked : linked (indexingPolicy t) (length (blks t));
  ok_knows : ∀ e, (e < length (blks t))%nat → knows (replacementPolicy t) e;
  ok_blks : Forall (blk_ok (indexingPolicy t)) (blks t);
  ok_size : Z.of_nat (length (blks t)) < 2 ^ 64;
  ok_counts : ∀ ps, partitionManager t = Some ps → Forall (policy_counts (blks t)) ps
}.

(** ** Counting blocks *)

Lemma occupancy_insert id (l : list CacheBlk) e k k' : l !! e = Some k →
  occupancy id (<[e := k']> l) + (if decide (in_partition id k) then 1 else 0) =
  occupancy id l + (if decide (in_partition id k') then 1 else 0).
Proof.
  intros He. unfold occupancy. rewrite <-(take_drop_middle l e k He) at 2.
  rewrite insert_take_drop by by eapply lookup_lt_Some.
  rewrite !filter_app, !filter_cons, !length_app. repeat case_decide; simpl length; lia.
Qed.

Lemma occupancy_lt id (l : list CacheBlk) e k : l !! e = Some k → ¬ in_partition id k → occupancy id l < Z.of_nat (length l).
Proof.
  intros He Hk. unfold occupancy. rewrite <-(take_drop_middle l e k He).
  rewrite filter_app, filter_cons, !length_app. rewrite decide_False by done.
  pose proof (length_filter (in_partition id) (take e l)). pose proof (length_filter (in_partition id) (drop (S e) l)).
  simpl length. lia.
Qed.

Lemma occupancy_pos id (l : list CacheBlk) e k : l !! e = Some k → in_partition id k → 0 < occupancy id l.
Proof.
  intros He Hk. unfold occupancy. rewrite <-(take_drop_middle l e k He).
  rewrite filter_app, filter_cons, !length_app. rewrite decide_True by done. simpl length. lia.
Qed.

(** ** The indexing policy of tags never changes *)

Lemma has_key_addr t e k key : tags_ok t → has_key (indexingPolicy t) e k key →
  (e < length (blks t))%nat ∧ ∃ set way, positions (indexingPolicy t) !! e = Some (set, way) ∧
    regenerateAddr (indexingPolicy t) (_tag k) set way = key.1.
Proof.
  intros Ht (_ & _ & a & es & Ha & <- & Hes & Hin & ->).
  destruct (possible_law _ _ a (ok_cond _ Ht) (ok_linked _ Ht) Ha) as (es' & Hes' & _ & Hpos).
  rewrite Hes in Hes'. injection Hes' as Hm. apply (inj (fmap Some)) in Hm. subst es'.
  by apply Hpos.
Qed.

Lemma has_key_inj t e k key1 key2 : tags_ok t → has_key (indexingPolicy t) e k key1 → has_key (indexingPolicy t) e k key2 → key1 = key2.
Proof.
  intros Ht H1 H2. destruct (has_key_addr _ _ _ _ Ht H1) as (_ & s1 & w1 & Hp1 & Hr1).
  destruct (has_key_addr _ _ _ _ Ht H2) as (_ & s2 & w2 & Hp2 & Hr2).
  rewrite Hp1 in Hp2. injection Hp2 as <- <-. destruct H1 as (_ & Hs1 & _), H2 as (_ & Hs2 & _).
  destruct key1, key2; simpl in *; congruence.
Qed.

Lemma regenerate_key t e k key : tags_ok t → blks t !! e = Some k → has_key (indexingPolicy t) e k key →
  regenerateBlkAddr e t = Ok key.1.
Proof.
  intros Ht He Hk. destruct (has_key_addr _ _ _ _ Ht Hk) as (_ & s & w & Hp & Hr).
  unfold regenerateBlkAddr. rewrite He. simpl. rewrite Hp. simpl. by rewrite Hr.
Qed.

(** *** Looking for blocks *)

(** The candidates of an address, and what the blocks among them have. *)
Lemma candidates t a : tags_ok t → fits 64 a →
  ∃ es, getPossibleEntries (indexingPolicy t) a = Ok (map Some es) ∧ es ≠ [] ∧ ∀ e, e ∈ es → is_Some (blks t !! e).
Proof.
  intros Ht Ha. destruct (possible_law _ _ a (ok_cond _ Ht) (ok_linked _ Ht) Ha) as (es & Hes & Hne & Hpos).
  exists es. split; [done|]. split; [done|]. intros e He. apply lookup_lt_is_Some. by apply Hpos.
Qed.

Lemma blk_at t e k : tags_ok t → blks t !! e = Some k → blk_ok (indexingPolicy t) k.
Proof. intros Ht He. pose proof (ok_blks _ Ht) as Hf. rewrite Forall_lookup in Hf. by eapply Hf. Qed.

Lemma match_spec ip k key : blk_ok ip k →
  match_ key k = Ok (_valid k && ((_tag k =? Indexing.extractTag ip (address key)) && eqb (_secure k) (secure key))).
Proof.
  intros Hk. unfold match_, CacheBlk.extractTag. rewrite (blk_extract _ _ Hk). by destruct (_valid k).
Qed.

Lemma matching t e k key es : fits 64 (address key) → getPossibleEntries (indexingPolicy t) (address key) = Ok (map Some es) → e ∈ es →
  blk_ok (indexingPolicy t) k → match_ key k = Ok true → has_key (indexingPolicy t) e k (key_of (indexingPolicy t) key).
Proof.
  intros Ha Hes He Hk H1. rewrite (match_spec _ _ _ Hk) in H1. injection H1 as (Hv & (Htag & Hs)%andb_true_iff)%andb_true_iff.
  apply Z.eqb_eq in Htag. apply eqb_prop in Hs. split; [done|]. split; [done|]. by exists (address key), es.
Qed.

Lemma has_key_matches t e k key : tags_ok t → fits 64 (address key) → blk_ok (indexingPolicy t) k →
  has_key (indexingPolicy t) e k (key_of (indexingPolicy t) key) →
  match_ key k = Ok true ∧ ∃ es, getPossibleEntries (indexingPolicy t) (address key) = Ok (map Some es) ∧ e ∈ es.
Proof.
  intros Ht Ha Hk (Hv & Hs & a & es & Hfa & Hb & Hes & He & Htag).
  destruct (possible_block (indexingPolicy t) a (address key) (ok_cond _ Ht) Hfa Ha Hb) as [Hp Hx].
  rewrite (match_spec _ _ _ Hk), Hv, Hs, Htag, Hx, Z.eqb_refl, eqb_reflx. split; [done|]. exists es. by rewrite <-Hp.
Qed.

Lemma find_match_spec t key es : tags_ok t → (∀ e, e ∈ es → is_Some (blks t !! e)) →
  ∃ o, find_match key (map Some es) t = Ok o ∧
    match o with
    | Some e => e ∈ es ∧ ∃ k, blks t !! e = Some k ∧ match_ key k = Ok true
    | None => ∀ e k, e ∈ es → blks t !! e = Some k → match_ key k ≠ Ok true
    end.
Proof.
  intros Ht. induction es as [|e es IH]; intros Hes; simpl; [exists None; split; [done|]; set_solver|].
  destruct (Hes e ltac:(set_solver)) as [k Hk]. rewrite Hk. simpl.
  pose proof (match_spec _ k key (blk_at _ _ _ Ht Hk)) as Hm. rewrite Hm. simpl. case_match eqn:Hb.
  - exists (Some e). split; [done|]. split; [set_solver|]. exists k. split; [done|]. by rewrite Hm.
  - destruct IH as (o & -> & Ho); [set_solver|]. exists o. split; [done|]. destruct o as [x|].
    + destruct Ho as [Hx Hkx]. split; [set_solver|done].
    + intros x k' Hx. apply list.elem_of_cons in Hx as [->|Hx]; [|by apply Ho].
      rewrite Hk. intros [= <-]. rewrite Hm, ?Hb. by intros [=].
Qed.

Lemma findBlock_spec t m key : tags_ok t → represents t m → fits 64 (address key) →
  findBlock key t = Ok (place <$> m !! key_of (indexingPolicy t) key).
Proof.
  intros Ht [Hm _] Ha. destruct (candidates t _ Ht Ha) as (es & Hes & _ & Hin).
  unfold findBlock. rewrite Hes. simpl. destruct (find_match_spec t key es Ht Hin) as (o & -> & Ho). f_equal.
  destruct o as [e|].
  - destruct Ho as (He & k & Hk & H1). assert (holds t (key_of (indexingPolicy t) key) (mkLine e (coherence k))) as Hh.
    { exists k. split; [done|]. split; [done|]. eapply matching; eauto using blk_at. }
    apply Hm in Hh. by rewrite Hh.
  - destruct (m !! key_of (indexingPolicy t) key) as [l|] eqn:Hl; [|done]. exfalso.
    apply Hm in Hl as (k & Hk & _ & Hkey).
    destruct (has_key_matches _ _ _ _ Ht Ha (blk_at _ _ _ Ht Hk) Hkey) as (H1 & es' & Hes' & He).
    rewrite Hes in Hes'. injection Hes' as Heq. apply (inj (fmap Some)) in Heq. subst es'. by apply (Ho _ _ He Hk).
Qed.

(** *** Changing one block *)

(** [t'] is [t] with another block at [e]. *)
Definition changed t t' (e : nat) (k' : CacheBlk) : Prop :=
  indexingPolicy t' = indexingPolicy t ∧ blks t' = <[e := k']> (blks t).

Lemma tags_ok_changed t t' e k' : tags_ok t → changed t t' e k' → blk_ok (indexingPolicy t) k' →
  remembers (replacementPolicy t) (replacementPolicy t') →
  (∀ ps, partitionManager t' = Some ps → Forall (policy_counts (blks t')) ps) → tags_ok t'.
Proof.
  intros [] [Hi Hb] Hk Hr Hc. split; rewrite ?Hi, ?Hb, ?length_insert; auto.
  - by apply Forall_insert.
  - by rewrite <-Hb.
Qed.

Lemma represents_without t t' m e k' : represents t m → changed t t' e k' → _valid k' = false → represents t' (without e m).
Proof.
  intros [Hm Hv] [Hi Hb] Hk. unfold represents, holds, without. rewrite Hi, Hb. split.
  - intros key l. rewrite map_lookup_filter_Some, Hm. unfold holds. split.
    + intros [(k & Hl & ? & ?) Hne]. exists k. by rewrite list_lookup_insert_ne by done.
    + intros (k & [(<- & <- & _)|[Hne Hl]]%list_lookup_insert_Some & Hbits & Hkey).
      * by destruct Hkey as (? & _); congruence.
      * split; [by exists k|]. by intros <-.
  - intros x k [(-> & -> & _)|[Hne Hl]]%list_lookup_insert_Some Hval; [congruence|]. by apply (Hv x).
Qed.

Lemma represents_set t t' m e k k' key : tags_ok t → represents t m → changed t t' e k' → blks t !! e = Some k →
  has_key (indexingPolicy t) e k' key → (∀ l, m !! key = Some l → place l = e) →
  (_valid k = true → has_key (indexingPolicy t) e k key) → represents t' (<[key := mkLine e (coherence k')]> m).
Proof.
  intros Ht [Hm Hv] [Hi Hb] He Hk' Hplace Hk. unfold represents, holds. rewrite Hi, Hb.
  pose proof (lookup_lt_Some _ _ _ He) as Hlt. split.
  - intros key' l. rewrite lookup_insert_Some. split.
    + intros [[<- <-]|[Hne Hl]]; [exists k'; by rewrite list_lookup_insert_eq|].
      apply Hm in Hl as (kl & Hl & Hbits & Hkey). exists kl.
      destruct (decide (place l = e)) as [<-|]; [|by rewrite list_lookup_insert_ne].
      destruct Hne. rewrite He in Hl. injection Hl as <-. eapply has_key_inj; [done|apply Hk, Hkey|done].
    + intros (kl & [(Hp & <- & _)|[Hne Hl]]%list_lookup_insert_Some & Hbits & Hkey).
      * left. destruct l as [p b]; simpl in *. subst. split; [by eapply has_key_inj|done].
      * right. assert (m !! key' = Some l) as Hl' by (apply Hm; by exists kl). split; [|done].
        intros <-. by destruct Hne; rewrite (Hplace _ Hl').
  - intros x kx [(<- & <- & _)|[Hne Hl]]%list_lookup_insert_Some Hval; [by exists key|]. by apply (Hv x).
Qed.

(** What the lines depend on. *)
Definition same_line (k k' : CacheBlk) : Prop :=
  _valid k' = _valid k ∧ _secure k' = _secure k ∧ _tag k' = _tag k ∧ coherence k' = coherence k.

Lemma has_key_same ip e k k' key : same_line k k' → has_key ip e k key → has_key ip e k' key.
Proof. intros (H1 & H2 & H3 & _). unfold has_key. by rewrite H1, H2, H3. Qed.

Lemma same_line_sym k k' : same_line k k' → same_line k' k.
Proof. by intros (H1 & H2 & H3 & H4). Qed.

Lemma represents_same t t' m e k k' : represents t m → changed t t' e k' → blks t !! e = Some k → same_line k k' → represents t' m.
Proof.
  intros [Hm Hv] [Hi Hb] He Hk. unfold represents, holds. rewrite Hi, Hb. pose proof (lookup_lt_Some _ _ _ He) as Hlt. split.
  - intros key l. rewrite Hm. unfold holds. pose proof Hk as (_ & _ & _ & Hbits). split.
    + intros (kl & Hl & ? & Hkey). destruct (decide (place l = e)) as [<-|]; [|exists kl; by rewrite list_lookup_insert_ne].
      rewrite He in Hl. injection Hl as <-. exists k'. rewrite list_lookup_insert_eq by done. split; [done|].
      split; [congruence|]. by eapply has_key_same.
    + intros (kl & [(<- & <- & _)|[Hne Hl]]%list_lookup_insert_Some & ? & Hkey); [|by exists kl].
      exists k. split; [done|]. split; [congruence|]. eapply has_key_same; [by apply same_line_sym|done].
  - intros x kx [(<- & <- & _)|[Hne Hl]]%list_lookup_insert_Some Hval; [|by apply (Hv x)].
    destruct (Hv e k He) as [key Hkey]; [by destruct Hk as (<- & _)|]. exists key. by eapply has_key_same.
Qed.

Lemma counts_same (l : list CacheBlk) e k k' p : l !! e = Some k → _valid k' = _valid k → _partitionId k' = _partitionId k →
  policy_counts l p → policy_counts (<[e := k']> l) p.
Proof.
  intros He Hv Hp. destruct p as [x|]; [|done]. simpl. unfold counts. intros Hc id.
  pose proof (occupancy_insert id l e k k' He) as Ho.
  assert (in_partition id k ↔ in_partition id k') as Heq by (unfold in_partition; by rewrite Hv, Hp).
  rewrite (decide_ext _ _ _ _ Heq) in Ho. replace (occupancy id (<[e:=k']> l)) with (occupancy id l) by lia. apply Hc.
Qed.

(** Replacing a block by one with the same line and partition, and the replacement state. *)
Lemma change_same t t' m e k k' : tags_ok t → represents t m → changed t t' e k' → blks t !! e = Some k → same_line k k' →
  blk_ok (indexingPolicy t) k' → _partitionId k' = _partitionId k → partitionManager t' = partitionManager t →
  remembers (replacementPolicy t) (replacementPolicy t') → tags_ok t' ∧ represents t' m.
Proof.
  intros Ht Hm Hc He Hk Hok Hp Hpm Hr. split; [|by eapply represents_same].
  eapply tags_ok_changed; [done..|]. intros ps Hps. rewrite Hpm in Hps. pose proof Hc as [_ ->].
  eapply Forall_impl; [by eapply ok_counts|]. intros p. eapply counts_same; [done|by destruct Hk|done].
Qed.

(** ** Blocks *)

Lemma blk_ok_invalidate ip k : blk_ok ip k → ∃ k', invalidate k = Ok k' ∧ blk_ok ip k' ∧ _valid k' = false.
Proof.
  intros [Hx Ht Hb Hc Hp Hi]. unfold invalidate, setWhenReady. simpl.
  replace (_tickInserted k <=? MaxTick) with true by (symmetry; by apply Z.leb_le). simpl. eexists. split; [done|]. split; [|done].
  assert (coherence k .& unot 32 AllBits = 0) as Hzero.
  { rewrite <-Hb, <-Z.land_assoc. change (AllBits .& unot 32 AllBits) with 0. apply Z.land_0_r. }
  split; simpl; rewrite ?Hzero; done.
Qed.

Lemma blk_ok_insert ip k now key requestor task pid : blk_ok ip k → _valid k = false → now <= MaxTick → pid ≠ MaxPartitionID →
  ∃ k', CacheBlk.insert now key requestor task pid k = Ok k' ∧ blk_ok ip k' ∧ _valid k' = true ∧ _secure k' = secure key ∧
    _tag k' = Indexing.extractTag ip (address key) ∧ coherence k' = 0 ∧ _partitionId k' = pid.
Proof.
  intros [Hx Ht Hb Hc Hp Hi] Hv Hnow Hpid. destruct (Hi Hv) as (Hs & Hzero & _).
  unfold CacheBlk.insert, insert_key, setValid, CacheBlk.extractTag. rewrite Hv. simpl. rewrite Hx. simpl.
  eexists. split; [done|]. destruct (secure key); (split; [split; simpl; done|]); simpl; by rewrite ?Hs.
Qed.

Lemma blk_ok_bits ip k c : blk_ok ip k → _valid k = true → c .& AllBits = c → (isReadOnly = true → c .& DirtyBit = 0) →
  blk_ok ip (set_coherence c k).
Proof. intros [] Hv Hc Hd. split; simpl; try done. by rewrite Hv. Qed.

Lemma clear_bits_within c b : c .& AllBits = c → (c .& unot 32 b) .& AllBits = c .& unot 32 b.
Proof. intros Hc. rewrite <-Z.land_assoc, (Z.land_comm _ AllBits), Z.land_assoc. by rewrite Hc. Qed.

Lemma clear_bits_clean c b : c .& DirtyBit = 0 → (c .& unot 32 b) .& DirtyBit = 0.
Proof. intros Hc. by rewrite <-Z.land_assoc, (Z.land_comm _ DirtyBit), Z.land_assoc, Hc, Z.land_0_l. Qed.

Lemma blk_ok_clear ip k b : blk_ok ip k → _valid k = true → blk_ok ip (clearCoherenceBits b k).
Proof.
  intros Hk Hv. apply blk_ok_bits; [done..|by apply clear_bits_within; destruct Hk|].
  intros Hr. apply clear_bits_clean. by destruct Hk; auto.
Qed.

(** ** Partitions *)

Definition same_limits (p p' : PartitioningPolicy) : Prop :=
  match p, p' with
  | MaxCapacityPolicy x, MaxCapacityPolicy x' => ∀ id, capacity x' id = capacity x id
  | WayPolicy w, WayPolicy w' => w' = w
  | _, _ => False
  end.

Lemma on_policies_ok f (Q : PartitioningPolicy → PartitioningPolicy → Prop) ps :
  (∀ p, p ∈ ps → ∃ p', f p = Ok p' ∧ Q p p') → ∃ ps', on_policies f ps = Ok ps' ∧ Forall2 Q ps ps'.
Proof.
  induction ps as [|p ps IH]; intros Hf; simpl; [by exists []|].
  destruct (Hf p ltac:(set_solver)) as (p' & -> & Hp). destruct IH as (ps' & -> & Hps); [set_solver|].
  simpl. eexists. split; [done|]. by constructor.
Qed.

Lemma index_map_fst (m : gmap Z Z) id : (index_map m id).1 = default 0 (m !! id).
Proof. unfold index_map. by destruct (m !! id). Qed.

Lemma lookup_index_map (m : gmap Z Z) id i : default 0 ((index_map m id).2 !! i) = default 0 (m !! i).
Proof.
  unfold index_map. destruct (m !! id) eqn:Hm; [done|]. simpl.
  destruct (decide (i = id)) as [->|]; [by rewrite lookup_insert_eq, Hm|]. by rewrite lookup_insert_ne.
Qed.

Lemma index_map_mem (m : gmap Z Z) id i : is_Some (m !! i) ∨ i = id → is_Some ((index_map m id).2 !! i).
Proof.
  unfold index_map. destruct (m !! id) eqn:Hm; simpl; [intros [?| ->]; [done|by rewrite Hm]|].
  destruct (decide (i = id)) as [->|]; [by rewrite lookup_insert_eq|]. rewrite lookup_insert_ne by done. by intros [?|?].
Qed.

Lemma occupancy_leave (l : list CacheBlk) e k k' id : l !! e = Some k → _valid k' = false →
  occupancy id (<[e := k']> l) = occupancy id l - (if decide (in_partition id k) then 1 else 0).
Proof.
  intros He Hk. pose proof (occupancy_insert id l e k k' He) as Ho.
  rewrite (decide_False (P := in_partition id k')) in Ho by (unfold in_partition; rewrite Hk; naive_solver). lia.
Qed.

Lemma occupancy_join (l : list CacheBlk) e k k' id : l !! e = Some k → _valid k = false →
  occupancy id (<[e := k']> l) = occupancy id l + (if decide (in_partition id k') then 1 else 0).
Proof.
  intros He Hk. pose proof (occupancy_insert id l e k k' He) as Ho.
  rewrite (decide_False (P := in_partition id k)) in Ho by (unfold in_partition; rewrite Hk; naive_solver). lia.
Qed.

Lemma release_ok (l : list CacheBlk) e k k' p : l !! e = Some k → _valid k = true → _valid k' = false → policy_counts l p →
  ∃ p', policy_release (_partitionId k) p = Ok p' ∧ policy_counts (<[e := k']> l) p' ∧ same_limits p p'.
Proof.
  intros He Hv Hk' Hp. destruct p as [x|w]; [|by exists (WayPolicy w)]. simpl in *. unfold release.
  assert (in_partition (_partitionId k) k) as Hin by done.
  destruct (Hp (_partitionId k)) as [Hcur _]. pose proof (occupancy_pos _ _ _ _ He Hin) as Hpos.
  pose proof (index_map_fst (partitionIdCurCapacity x) (_partitionId k)) as Hfst.
  pose proof (lookup_index_map (partitionIdCurCapacity x) (_partitionId k)) as Hlk.
  destruct (index_map _ _) as [cur curs]. simpl in *. rewrite Hcur in Hfst. subst cur.
  replace (0 <? occupancy (_partitionId k) l) with true by (symmetry; by apply Z.ltb_lt). simpl. eexists. split; [done|]. split; [|done].
  intros id. simpl. destruct (Hp id) as (Hid & Hnn & Hlim & Hin'). rewrite (occupancy_leave l e k k' id He Hk'). split; [|split; [done|split]].
  - destruct (decide (id = _partitionId k)) as [->|Hne].
    + rewrite lookup_insert_eq. by rewrite decide_True by done.
    + rewrite lookup_insert_ne by done. rewrite decide_False by (intros [_ ?]; congruence). rewrite Hlk, Hid. lia.
  - case_decide; unfold capacity in *; simpl; lia.
  - intros Hgt. apply Hin'. case_decide; lia.
Qed.

Lemma acquire_ok (l : list CacheBlk) e k k' p : Z.of_nat (length l) < 2 ^ 64 → l !! e = Some k → _valid k = false → _valid k' = true →
  (∀ x, p = MaxCapacityPolicy x → occupancy (_partitionId k') l < Z.max 1 (capacity x (_partitionId k'))) →
  policy_counts l p →
  ∃ p', policy_acquire (_partitionId k') p = Ok p' ∧ policy_counts (<[e := k']> l) p' ∧ same_limits p p'.
Proof.
  intros Hsz He Hv Hk' Hroom Hp. destruct p as [x|w]; [|by exists (WayPolicy w)]. simpl in *. unfold acquire.
  pose proof (Hroom x eq_refl) as Hlt. destruct (Hp (_partitionId k')) as (Hcur & Hnn & _).
  pose proof (occupancy_lt (_partitionId k') _ _ _ He ltac:(unfold in_partition; rewrite Hv; naive_solver)) as Hocc.
  pose proof (index_map_fst (partitionIdMaxCapacity x) (_partitionId k')) as Hlfst. pose proof (lookup_index_map (partitionIdMaxCapacity x) (_partitionId k')) as Hllk.
  pose proof (index_map_mem (partitionIdMaxCapacity x) (_partitionId k')) as Hmem.
  destruct (index_map (partitionIdMaxCapacity x) _) as [limit limits]. change (default 0 (partitionIdMaxCapacity x !! _partitionId k')) with (capacity x (_partitionId k')) in Hlfst.
  cbn [fst snd] in Hlfst, Hllk, Hmem. subst limit.
  pose proof (index_map_fst (partitionIdCurCapacity x) (_partitionId k')) as Hfst.
  pose proof (lookup_index_map (partitionIdCurCapacity x) (_partitionId k')) as Hlk.
  destruct (index_map _ _) as [cur curs]. simpl in *. rewrite Hcur in Hfst. subst cur.
  replace (occupancy (_partitionId k') l <=? capacity x (_partitionId k')) with true by (symmetry; apply Z.leb_le; lia). simpl. eexists. split; [done|].
  split; [|exact Hllk]. intros id. destruct (Hp id) as (Hid & Hnn' & Hl & Hin). unfold capacity in *. cbn [partitionIdMaxCapacity partitionIdCurCapacity]. rewrite (occupancy_join l e k k' id He Hv), Hllk.
  destruct (decide (id = _partitionId k')) as [->|Hne].
  - rewrite lookup_insert_eq. rewrite decide_True by done. simpl. rewrite wrap_small by (unfold fits, occupancy in *; lia).
    split; [done|]. split; [done|]. split; [lia|]. intros _. apply Hmem. by right.
  - rewrite lookup_insert_ne by done. rewrite decide_False by (intros [_ ?]; congruence). rewrite Z.add_0_r, Hlk.
    split; [done|]. split; [done|]. split; [done|]. intros Hgt. apply Hmem. left. by apply Hin.
Qed.

(** ** The operations *)

(** What an operation leaves alone: the indexing policy and the limits of partitions. *)
Definition frame t t' : Prop := indexingPolicy t' = indexingPolicy t ∧
  option_Forall2 (Forall2 same_limits) (partitionManager t) (partitionManager t').

#[export] Instance same_limits_preorder : PreOrder same_limits.
Proof. split; [by intros [x|w]|]. intros [x|w] [y|v] [z|u]; simpl; try done; congruence. Qed.

#[export] Instance frame_preorder : PreOrder frame.
Proof.
  split; [by intros t; split|]. intros t1 t2 t3 [H1 L1] [H2 L2]. split; [congruence|].
  destruct L1 as [ps1 ps2 L1|]; inversion L2 as [? ps3 L2'|]; subst; constructor. by etrans.
Qed.

Lemma frame_same t t' : indexingPolicy t' = indexingPolicy t → partitionManager t' = partitionManager t → frame t t'.
Proof. intros Hi Hp. split; [done|]. by rewrite Hp. Qed.

Lemma frame_policy t t' ps' x' : frame t t' → partitionManager t' = Some ps' → MaxCapacityPolicy x' ∈ ps' →
  ∃ ps x, partitionManager t = Some ps ∧ MaxCapacityPolicy x ∈ ps ∧ ∀ id, capacity x' id = capacity x id.
Proof.
  intros [_ Hf] Hps (i & Hi)%list_elem_of_lookup. rewrite Hps in Hf. inversion Hf as [ps ? Hf'|]; subst.
  destruct (Forall2_lookup_r _ _ _ _ _ Hf' Hi) as (p & Hp & Hs). destruct p as [x|]; [|done].
  exists ps, x. split; [done|]. split; [by eapply list_elem_of_lookup_2|done].
Qed.

Lemma frame_partition_id t t' pkt : frame t t' → partition_id_of pkt t' = partition_id_of pkt t.
Proof. intros [_ Hf]. unfold partition_id_of. by inversion Hf. Qed.

(** Telling the policies that the block at [e] becomes [k']. *)
Lemma notify_ok f t e k' :
  (∀ ps p, partitionManager t = Some ps → p ∈ ps →
    ∃ p', f p = Ok p' ∧ policy_counts (<[e := k']> (blks t)) p' ∧ same_limits p p') →
  ∃ o, match partitionManager t with Some ps => ps ← on_policies f ps; Ok (Some ps) | None => Ok None end = Ok o ∧
    (∀ ps, o = Some ps → Forall (policy_counts (<[e := k']> (blks t))) ps) ∧
    option_Forall2 (Forall2 same_limits) (partitionManager t) o.
Proof.
  intros Hf. destruct (partitionManager t) as [ps|]; [|by exists None].
  destruct (on_policies_ok f (λ p p', policy_counts (<[e := k']> (blks t)) p' ∧ same_limits p p') ps) as (ps' & -> & HF).
  { intros p Hp. by eapply Hf. }
  simpl. exists (Some ps'). split; [done|]. split.
  - intros ? [= <-]. apply Forall_lookup. intros i p' Hi. by destruct (Forall2_lookup_r _ _ _ _ _ HF Hi) as (p & _ & ? & _).
  - constructor. eapply Forall2_impl; [exact HF|]. by intros p p' [_ ?].
Qed.

Lemma accessBlock_spec now t m key : tags_ok t → represents t m → fits 64 (address key) →
  ∃ t', accessBlock now key t = Ok (place <$> m !! key_of (indexingPolicy t) key, t') ∧
    tags_ok t' ∧ represents t' m ∧ frame t t'.
Proof.
  intros Ht Hm Ha. unfold accessBlock. rewrite (findBlock_spec t m) by done. simpl.
  destruct (m !! key_of (indexingPolicy t) key) as [l|] eqn:Hl; simpl; [|by exists t].
  pose proof Hl as (k & Hk & _)%Hm. rewrite Hk. simpl.
  destruct (touch_law now (place l) (replacementPolicy t)) as (p & -> & Hp).
  { apply (ok_knows _ Ht). by eapply lookup_lt_Some. }
  simpl. eexists. split; [done|].
  destruct (change_same t (set_policy p (set_blk (place l) (increaseRefCount k) t)) m (place l) k (increaseRefCount k)) as [H1 H2]; try done.
  - by destruct (blk_at _ _ _ Ht Hk).
Qed.

Lemma tags_invalidate_spec now t m e k : tags_ok t → represents t m → blks t !! e = Some k → _valid k = true →
  ∃ t' k', tags_invalidate now e t = Ok t' ∧ tags_ok t' ∧ represents t' (without e m) ∧ changed t t' e k' ∧ _valid k' = false ∧ frame t t'.
Proof.
  intros Ht Hm He Hv. unfold tags_invalidate. rewrite He. simpl.
  destruct (blk_ok_invalidate _ _ (blk_at _ _ _ Ht He)) as (k' & Hinv & Hk' & Hv'). pose proof (lookup_lt_Some _ _ _ He) as Hlt.
  destruct (invalidate_law now e (replacementPolicy t) (ok_knows _ Ht _ Hlt)) as (p & Hp & Hr).
  destruct (notify_ok (policy_release (_partitionId k)) t e k') as (o & Ho & Hc & Hl).
  { intros ps q Hps Hq. apply release_ok; try done. pose proof (ok_counts _ Ht _ Hps) as HF. rewrite Forall_forall in HF. by apply HF. }
  unfold notifyRelease.
  rewrite Ho. simpl. rewrite Hv, Hinv. simpl. rewrite Hp. simpl. eexists _, k'. split; [done|].
  assert (changed t (set_policy p (set_partitions o (set_blk e k' t))) e k') as Hch by done.
  split; [by eapply tags_ok_changed|]. split; [by eapply represents_without|]. done.
Qed.

(** A block may be given to the partition. *)
Definition room t (id : Z) : Prop := id ≠ MaxPartitionID ∧ ∀ ps x, partitionManager t = Some ps → MaxCapacityPolicy x ∈ ps →
  occupancy id (blks t) < Z.max 1 (capacity x id).

Lemma insertBlock_spec now pkt t m e k es : tags_ok t → represents t m → blks t !! e = Some k → _valid k = false →
  fits 64 (pkt_addr pkt) → now <= MaxTick → requestorId pkt < maxRequestors → room t (partition_id_of pkt t) →
  getPossibleEntries (indexingPolicy t) (pkt_addr pkt) = Ok (map Some es) → e ∈ es →
  let key := key_of (indexingPolicy t) (mkKey (pkt_addr pkt) (pkt_secure pkt)) in
  m !! key = None →
  ∃ t', insertBlock now maxRequestors pkt e t = Ok t' ∧ tags_ok t' ∧ represents t' (<[key := TagsSpec.mkLine e 0]> m) ∧
    frame t t'.
Proof.
  intros Ht Hm He Hv Ha Hnow Hreq [Hid Hroom] Hes Hin key Hnone. unfold insertBlock. rewrite He. simpl. rewrite Hv. simpl.
  replace (requestorId pkt <? maxRequestors) with true by (symmetry; by apply Z.ltb_lt). simpl.
  destruct (blk_ok_insert _ k now (mkKey (pkt_addr pkt) (pkt_secure pkt)) (requestorId pkt) (taskId pkt) _ (blk_at _ _ _ Ht He) Hv Hnow Hid)
    as (k' & -> & Hk' & Hv' & Hs & Htag & Hzero & Hpid). simpl. pose proof (lookup_lt_Some _ _ _ He) as Hlt.
  destruct (reset_law now e (replacementPolicy t) (ok_knows _ Ht _ Hlt)) as (p & Hp & Hr).
  destruct (notify_ok (policy_acquire (partitionID pkt)) t e k') as (o & Ho & Hc & Hl).
  { intros ps q Hps Hq. unfold partition_id_of in Hpid, Hroom. rewrite Hps in Hpid, Hroom. rewrite <-Hpid in *.
    eapply acquire_ok; try done; [apply (ok_size _ Ht)| |].
    - intros x ->. by eapply Hroom.
    - pose proof (ok_counts _ Ht _ Hps) as HF. rewrite Forall_forall in HF. by apply HF. }
  unfold notifyAcquire. rewrite Ho.
  simpl. rewrite Hp. simpl. eexists. split; [done|].
  assert (changed t (set_policy p (set_partitions o (set_blk e k' t))) e k') as Hch by done.
  split; [by eapply tags_ok_changed|]. split; [|done]. rewrite <-Hzero.
  eapply represents_set; [done..| | |].
  - split; [done|]. split; [done|]. by exists (pkt_addr pkt), es.
  - intros l. by rewrite Hnone.
  - by rewrite Hv.
Qed.

(** *** Eviction *)

Lemma without_insert e key c m : (∀ l, m !! key = Some l → place l = e) → without e (<[key := TagsSpec.mkLine e c]> m) = without e m.
Proof.
  intros Hm. apply map_eq. intros key'. apply option_eq. intros l. unfold without.
  rewrite !map_lookup_filter_Some, lookup_insert_Some. split.
  - by intros [[[<- <-]|[Hne Hl]] Hp].
  - intros [Hl Hp]. split; [right|done]. split; [|done]. intros <-. by apply Hp, Hm.
Qed.

Lemma without_none e m : (∀ key l, m !! key = Some l → place l ≠ e) → without e m = m.
Proof. intros Hm. apply map_filter_id. intros key l. apply Hm. Qed.

Lemma held t m e k key : represents t m → blks t !! e = Some k → has_key (indexingPolicy t) e k key →
  m !! key = Some (TagsSpec.mkLine e (coherence k)).
Proof. intros [Hm _] He Hk. apply Hm. by exists k. Qed.

(** The bits of a valid block change. *)
Lemma change_bits t t' m e k k' key : tags_ok t → represents t m → changed t t' e k' → blks t !! e = Some k →
  has_key (indexingPolicy t) e k key → k' = set_coherence (coherence k') k → blk_ok (indexingPolicy t) k' →
  replacementPolicy t' = replacementPolicy t → partitionManager t' = partitionManager t →
  tags_ok t' ∧ represents t' (<[key := TagsSpec.mkLine e (coherence k')]> m).
Proof.
  intros Ht Hm Hch He Hkey Heq Hk' Hr Hpm. pose proof (held _ _ _ _ _ Hm He Hkey) as Hl. split.
  - eapply tags_ok_changed; [done..|by rewrite Hr|]. intros ps Hps. rewrite Hpm in Hps. pose proof Hch as [_ ->].
    eapply Forall_impl; [by eapply ok_counts|]. intros p. eapply counts_same; [done|by rewrite Heq..].
  - eapply represents_set; [done..| | |done].
    + rewrite Heq. destruct Hkey as (? & ? & ?). by split.
    + intros l Hl'. rewrite Hl in Hl'. by injection Hl' as <-.
Qed.

Lemma evictBlock_spec now t m e k key : tags_ok t → represents t m → blks t !! e = Some k → has_key (indexingPolicy t) e k key →
  ∃ wb t' k', evictBlock isReadOnly writebackClean now e t = Ok (wb, t') ∧
    is_writeback_of writebackClean wb key (TagsSpec.mkLine e (coherence k)) ∧
    tags_ok t' ∧ represents t' (without e m) ∧ changed t t' e k' ∧ _valid k' = false ∧ frame t t'.
Proof.
  intros Ht Hm He Hkey. pose proof (blk_at _ _ _ Ht He) as Hk. pose proof (proj1 Hkey) as Hv. pose proof (proj1 (proj2 Hkey)) as Hs.
  pose proof (regenerate_key _ _ _ _ Ht He Hkey) as Hreg. pose proof (lookup_lt_Some _ _ _ He) as Hlt.
  assert (∀ b, isSet b k = negb (coherence k .& b =? 0)) as Hset by (intros b; unfold isSet; by rewrite Hv).
  unfold evictBlock. rewrite He. simpl. rewrite Hset. unfold is_writeback_of, writeback_cmd. simpl.
  destruct (negb (coherence k .& DirtyBit =? 0) || writebackClean) eqn:Hd.
  - unfold writebackBlk. replace (negb isReadOnly || writebackClean) with true.
    2:{ destruct isReadOnly eqn:Hro; [|done]. by rewrite (blk_clean _ _ Hk Hro) in Hd. }
    simpl. rewrite He. simpl. rewrite !Hset, Hv, Hd. simpl. rewrite Hreg. simpl.
    set (k1 := clearCoherenceBits DirtyBit _). set (t1 := set_blk e k1 t).
    assert (k1 = set_coherence (coherence k1) k ∧ blk_ok (indexingPolicy t) k1) as [Hk1 Hok1].
    { unfold k1. case_match; (split; [done|]); repeat (apply blk_ok_clear; [|done]); done. }
    destruct (change_bits t t1 m e k k1 key) as [Ht1 Hm1]; try done.
    destruct (tags_invalidate_spec now t1 _ e k1 Ht1 Hm1) as (t' & k' & Hinv & Ht' & Hm' & Hch & Hv' & Hl).
    { unfold t1. simpl. by rewrite list_lookup_insert_eq. }
    { by rewrite Hk1. }
    rewrite Hinv. simpl. eexists _, t', k'. split; [done|]. split; [|split; [done|split; [|split; [|done]]]].
    + simpl. split; [|split; [done|split; [done|]]].
      * destruct (negb _) eqn:Hdb; [done|]. simpl in Hd. by rewrite Hd.
      * intros _. by rewrite negb_involutive.
    + rewrite without_insert in Hm'; [done|]. intros l. rewrite (held _ _ _ _ _ Hm He Hkey). by intros [= <-].
    + destruct Hch as [Hi Hb]. split; [by rewrite Hi|]. by rewrite Hb; simpl; rewrite list_insert_insert_eq.
  - apply orb_false_iff in Hd as [Hd Hwc]. unfold cleanEvictBlk. rewrite Hwc, He. simpl. rewrite Hv, Hset, Hd. simpl. rewrite Hreg. simpl.
    destruct (tags_invalidate_spec now t m e k Ht Hm He Hv) as (t' & k' & Hinv & Ht' & Hm' & Hch & Hv' & Hl).
    rewrite Hinv. simpl. eexists _, t', k'. split; [done|]. split; [|done]. simpl. done.
Qed.

(** *** Victims *)

Lemma entries_of_map es : entries_of (map Some es) = Ok es.
Proof. induction es as [|e es IH]; simpl; [done|]. by rewrite IH. Qed.

Lemma filterByPartition_limit po wo id ps es v x : v ∈ filterByPartition po wo id ps es → MaxCapacityPolicy x ∈ ps →
  at_limit x id = true → po v = id.
Proof.
  unfold filterByPartition. revert es. induction ps as [|p ps IH]; intros es; simpl; [set_solver|].
  intros Hv Hx Hl. apply list.elem_of_cons in Hx as [<-|Hx]; [|by eapply IH].
  apply (filterByPartition_subset po wo id ps) in Hv. simpl in Hv. rewrite Hl in Hv. by apply list_elem_of_filter in Hv as [? _].
Qed.

(** A victim for the partition [pid]. *)
Definition victim_for t (pid : Z) (v : nat) : Prop := ∀ ps x, partitionManager t = Some ps → MaxCapacityPolicy x ∈ ps →
  at_limit x pid = true → partition_of t v = pid.

Lemma findVictim_spec t m key pid : tags_ok t → represents t m → fits 64 (address key) →
  ∃ o p, findVictim key pid t = Ok (o, set_policy p t) ∧ tags_ok (set_policy p t) ∧ represents (set_policy p t) m ∧
    ∀ v, o = Some v → victim_for t pid v ∧ is_Some (blks t !! v) ∧
      ∃ es, getPossibleEntries (indexingPolicy t) (address key) = Ok (map Some es) ∧ v ∈ es.
Proof.
  intros Ht Hm Ha. destruct (candidates t _ Ht Ha) as (es & Hes & _ & Hin). unfold findVictim. rewrite Hes. simpl.
  rewrite entries_of_map. simpl. set (es' := match partitionManager t with Some _ => _ | None => _ end).
  assert (∀ v, v ∈ es' → v ∈ es ∧ victim_for t pid v) as Hes'.
  { intros v Hv. unfold es' in Hv. unfold victim_for. destruct (partitionManager t) as [ps|]; [|done]. split.
    - by eapply filterByPartition_subset.
    - intros ? x [= <-]. by eapply filterByPartition_limit. }
  assert (∀ p, remembers (replacementPolicy t) p → tags_ok (set_policy p t) ∧ represents (set_policy p t) m) as Hpol.
  { intros p Hp. split; [|by destruct Hm; split]. destruct Ht. split; try done. simpl. intros e He. by apply Hp; auto. }
  case_bool_decide as He.
  - exists None, (replacementPolicy t). destruct (Hpol (replacementPolicy t)) as [H1 H2]; [done|].
    replace (set_policy (replacementPolicy t) t) with t in * by (by destruct t). done.
  - destruct (getVictim_candidate (replacementPolicy t) es' He) as (v & p & -> & Hv & Hp).
    { apply Forall_forall. intros v Hv. apply (ok_knows _ Ht). apply lookup_lt_is_Some. by apply Hin, Hes'. }
    simpl. exists (Some v), p. split; [done|]. destruct (Hpol p Hp) as [H1 H2]. split; [done|]. split; [done|].
    intros ? [= <-]. destruct (Hes' v Hv) as [Hve Hvf]. split; [done|]. split; [by apply Hin|]. by exists es.
Qed.

(** There is room for one more block in the place of the victim. *)
Lemma victim_room t pid v k ps x : tags_ok t → blks t !! v = Some k → victim_for t pid v → pid ≠ MaxPartitionID →
  partitionManager t = Some ps → MaxCapacityPolicy x ∈ ps →
  occupancy pid (blks t) - (if decide (in_partition pid k) then 1 else 0) < Z.max 1 (capacity x pid).
Proof.
  intros Ht He Hv Hpid Hps Hx.
  pose proof (ok_counts _ Ht _ Hps) as HF. rewrite Forall_forall in HF. destruct (HF _ Hx pid) as (Hcur & Hnn & Hle & Hmem). simpl in *.
  pose proof (Hv ps x Hps Hx) as Hat. unfold at_limit, capacity in *.
  destruct (partitionIdMaxCapacity x !! pid) as [limit|] eqn:Hlim; simpl in *.
  2:{ assert (¬ 0 < occupancy pid (blks t)) by (intros [? ?]%Hmem; done). case_decide; lia. }
  destruct (partitionIdCurCapacity x !! pid) as [cur|] eqn:Hc; simpl in Hcur; [|case_decide; lia]. subst cur.
  destruct (Z.ltb_spec (occupancy pid (blks t)) limit); [case_decide; lia|]. simpl in Hat. specialize (Hat eq_refl).
  unfold partition_of in Hat. rewrite He in Hat. simpl in Hat.
  assert (in_partition pid k) as Hin.
  { split; [|done]. destruct (_valid k) eqn:Hval; [done|]. destruct (blk_invalid _ _ (blk_at _ _ _ Ht He) Hval) as (_ & _ & Hm). congruence. }
  rewrite decide_True by done. lia.
Qed.

(** *** Filling *)

#[local] Abbreviation allocate := (allocateBlock isReadOnly writebackClean maxRequestors).

(** A victim without a line. *)
Lemma fill_invalid fm now t m e k : tags_ok t → represents t m → blks t !! e = Some k → _valid k = false →
  handleEvictions isReadOnly writebackClean fm now [e] t = Ok (true, [], t) ∧ without e m = m ∧
  ∀ key l, m !! key = Some l → place l ≠ e.
Proof.
  intros Ht [Hm _] He Hv. unfold handleEvictions. simpl. rewrite He. simpl. rewrite Hv. simpl.
  assert (∀ key l, m !! key = Some l → place l ≠ e) as Hne.
  { intros key l (k' & Hk' & _ & Hval & _)%Hm <-. congruence. }
  split; [done|]. split; [by apply without_none|done].
Qed.

(** A victim with one: a request in flight keeps it, otherwise it leaves. *)
Lemma fill_valid (fm : Z → bool → option Pending) now t m e k key : tags_ok t → represents t m → blks t !! e = Some k → has_key (indexingPolicy t) e k key →
  in_flight_ok fm t →
  handleEvictions isReadOnly writebackClean fm now [e] t = Ok (false, [], t) ∨
  ∃ wb t' k', handleEvictions isReadOnly writebackClean fm now [e] t = Ok (true, [wb], t') ∧
    is_writeback_of writebackClean wb key (TagsSpec.mkLine e (coherence k)) ∧
    tags_ok t' ∧ represents t' (without e m) ∧ changed t t' e k' ∧ _valid k' = false ∧ frame t t'.
Proof.
  intros Ht Hm He Hkey Hfl. pose proof (proj1 Hkey) as Hv. pose proof (regenerate_key _ _ _ _ Ht He Hkey) as Hreg.
  unfold handleEvictions. simpl. rewrite He. simpl. rewrite Hv, Hreg. simpl.
  destruct (fm key.1 (_secure k)) as [pd|] eqn:Hfm.
  - left. pose proof (Hfl e k _ pd He Hv Hreg Hfm) as Hp.
    replace ((negb (isSet WritableBit k) && needsWritable pd) || isCleaning pd) with true; [done|].
    destruct Hp as [[-> ->]| ->]; simpl; [done|]. by rewrite orb_true_r.
  - right. simpl.
    destruct (evictBlock_spec now t m e k key Ht Hm He Hkey) as (wb & t' & k' & -> & Hrest). simpl. by exists wb, t', k'.
Qed.

(** Putting the block into the place that the victim left. *)
Lemma fill_in now pkt fm t t2 m e k2 es wbs : tags_ok t2 → represents t2 (without e m) → changed t t2 e k2 → _valid k2 = false →
  is_Some (blks t !! e) → room t2 (partition_id_of pkt t2) → frame t t2 → fits 64 (pkt_addr pkt) → now <= MaxTick →
  requestorId pkt < maxRequestors → getPossibleEntries (indexingPolicy t) (pkt_addr pkt) = Ok (map Some es) → e ∈ es →
  m !! key_of (indexingPolicy t) (mkKey (pkt_addr pkt) (pkt_secure pkt)) = None →
  (wbs = [] ∧ (∀ key l, m !! key = Some l → place l ≠ e) ∨
     ∃ wb key l, wbs = [wb] ∧ m !! key = Some l ∧ place l = e ∧ is_writeback_of writebackClean wb key l) →
  ∃ t' m', insertBlock now maxRequestors pkt e t2 = Ok t' ∧
    map_step writebackClean (key_of (indexingPolicy t)) m (EvFill now pkt fm) (Filled (Some e) wbs) m' ∧
    tags_ok t' ∧ represents t' m' ∧ frame t t'.
Proof.
  intros Ht2 Hm2 [Hi Hb] Hv2 Hlt%lookup_lt_is_Some Hr Hfr Ha Hnow Hreq Hes Hin Hmiss Hwbs. rewrite <-Hi in Hes, Hmiss.
  destruct (insertBlock_spec now pkt t2 (without e m) e k2 es) as (t' & Heq & Ht' & Hm' & Hfr'); try done.
  { by rewrite Hb, list_lookup_insert_eq. }
  { unfold without. apply map_lookup_filter_None. by left. }
  exists t'. eexists. split; [exact Heq|]. rewrite Hi in *. split; [by apply map_fill|]. split; [done|]. split; [done|]. by etrans.
Qed.

Lemma allocateBlock_spec fm now pkt t m : tags_ok t → represents t m →
  legal isReadOnly maxRequestors t (EvFill now pkt fm) →
  ∃ o wbs t' m', allocate fm now pkt t = Ok (o, wbs, t') ∧
    map_step writebackClean (key_of (indexingPolicy t)) m (EvFill now pkt fm) (Filled o wbs) m' ∧
    tags_ok t' ∧ represents t' m' ∧ frame t t'.
Proof.
  intros Ht Hm (Ha & Hnow & Hreq & Hmiss & Hid & Hfl). unfold allocateBlock.
  set (key := mkKey (pkt_addr pkt) (pkt_secure pkt)) in *. rewrite (findBlock_spec t m key Ht Hm Ha) in Hmiss. injection Hmiss as Hmiss.
  apply fmap_None in Hmiss. set (pid := partition_id_of pkt t).
  assert (pid ≠ MaxPartitionID) as Hpid by (unfold pid, partition_id_of; by case_match).
  destruct (findVictim_spec t m key pid Ht Hm Ha) as (o & p & -> & Ht1 & Hm1 & Ho). simpl.
  destruct o as [e|]; [|exists None, [], (set_policy p t), m; split; [done|]; split; [constructor|done]].
  destruct (Ho e eq_refl) as (Hvict & [k He] & es & Hes & Hin). clear Ho.
  assert (∀ ps x, partitionManager t = Some ps → MaxCapacityPolicy x ∈ ps →
    occupancy pid (blks t) - (if decide (in_partition pid k) then 1 else 0) < Z.max 1 (capacity x pid)) as Hroom.
  { intros ps x Hps Hx. by eapply victim_room. }
  destruct (_valid k) eqn:Hv.
  - destruct (proj2 Hm e k He Hv) as [key0 Hkey0].
    destruct (fill_valid fm now (set_policy p t) m e k key0 Ht1 Hm1 He Hkey0 Hfl) as [->|(wb & t2 & k2 & -> & Hwb & Ht2 & Hm2 & Hch & Hv2 & Hl)].
    { simpl. exists None, [], (set_policy p t), m. split; [done|]. split; [constructor|done]. }
    destruct (fill_in now pkt fm t t2 m e k2 es [wb]) as (t' & m' & Heq & Hrest); try done.
    + rewrite (frame_partition_id _ _ pkt Hl). split; [done|].
      intros ps' x' Hps' Hx'. destruct (frame_policy _ _ ps' x' Hl Hps' Hx') as (ps & x & Hps & Hx & Hmax).
      rewrite Hmax. destruct Hch as [_ Hb]. simpl in Hb. rewrite Hb, (occupancy_leave _ e k k2 _ He Hv2). by eapply Hroom.
    + right. exists wb, key0, (TagsSpec.mkLine e (coherence k)). split; [done|]. split; [by eapply held|done].
    + simpl. rewrite Heq. simpl. by exists (Some e), [wb], t', m'.
  - destruct (fill_invalid fm now (set_policy p t) m e k Ht1 Hm1 He Hv) as (-> & Hwo & Hnone).
    destruct (fill_in now pkt fm t (set_policy p t) m e k es []) as (t' & m' & Heq & Hrest); try done.
    + by rewrite Hwo.
    + split; [done|]. simpl. by rewrite list_insert_id.
    + split; [done|]. intros ps x Hps Hx. pose proof (Hroom ps x Hps Hx) as Hlt.
      rewrite decide_False in Hlt by (intros [? _]; congruence). rewrite Z.sub_0_r in Hlt. exact Hlt.
    + by left.
    + simpl. rewrite Heq. simpl. by exists (Some e), [], t', m'.
Qed.

(** ** Events *)

Lemma on_block_spec f t m e (c : CacheBlk → Z) : tags_ok t → represents t m → valid_at t e →
  (∀ k, blk_ok (indexingPolicy t) k → _valid k = true → f k = Ok (set_coherence (c k) k) ∧ blk_ok (indexingPolicy t) (set_coherence (c k) k)) →
  ∃ t' k key, on_block f e t = Ok t' ∧ m !! key = Some (TagsSpec.mkLine e (coherence k)) ∧ tags_ok t' ∧
    represents t' (<[key := TagsSpec.mkLine e (c k)]> m) ∧ frame t t'.
Proof.
  intros Ht Hm (k & He & Hv) Hf. destruct (Hf k (blk_at _ _ _ Ht He) Hv) as [Hfk Hok]. destruct (proj2 Hm e k He Hv) as [key Hkey].
  unfold on_block. rewrite He. simpl. rewrite Hfk. simpl. eexists _, k, key. split; [done|]. split; [by eapply held|].
  destruct (change_bits t (set_blk e (set_coherence (c k) k) t) m e k (set_coherence (c k) k) key) as [H1 H2]; done.
Qed.

Lemma tags_step_spec t m ev : tags_ok t → represents t m → legal isReadOnly maxRequestors t ev →
  ∃ a t' m', tags_step isReadOnly writebackClean maxRequestors ev t = Ok (a, t') ∧
    map_step writebackClean (key_of (indexingPolicy t)) m ev a m' ∧ tags_ok t' ∧ represents t' m' ∧ frame t t'.
Proof.
  intros Ht Hm Hl. destruct ev as [now key|now pkt fm|now e|e b|e b]; simpl.
  - destruct (accessBlock_spec now t m key Ht Hm Hl) as (t' & -> & Ht' & Hm' & Hi). simpl. eexists _, t', m. split; [done|].
    split; [constructor|done].
  - destruct (allocateBlock_spec fm now pkt t m Ht Hm Hl) as (o & wbs & t' & m' & -> & Hs & Hrest). simpl. by eexists _, t', m'.
  - destruct Hl as (k & He & Hv). destruct (tags_invalidate_spec now t m e k Ht Hm He Hv) as (t' & k' & -> & Ht' & Hm' & _ & _ & Hfr).
    simpl. exists Done, t', (without e m). split; [done|]. split; [constructor|done].
  - destruct Hl as (Hv & Hb & Hro). destruct (on_block_spec (setCoherenceBits b) t m e (λ k, coherence k .| b) Ht Hm Hv) as (t' & k & key & -> & Hk & Hrest).
    { intros k Hk Hval. unfold setCoherenceBits. rewrite Hval. simpl. split; [done|]. destruct (Hk). apply blk_ok_bits; [done..| |].
      - rewrite Z.land_lor_distr_l. congruence.
      - intros Hr. by rewrite Z.land_lor_distr_l, Hro, blk_clean0. }
    simpl. eexists _, t', _. split; [done|]. split; [by constructor|done].
  - destruct Hl as (Hv & Hb). destruct (on_block_spec (λ k, Ok (clearCoherenceBits b k)) t m e (λ k, coherence k .& unot 32 b) Ht Hm Hv) as (t' & k & key & -> & Hk & Hrest).
    { intros k Hk Hval. split; [done|]. by apply (blk_ok_clear _ k b). }
    simpl. eexists _, t', _. split; [done|]. split; [by constructor|done].
Qed.

Lemma run_tags_spec evs t m : tags_ok t → represents t m → legal_run isReadOnly writebackClean maxRequestors evs t →
  ∃ ans t' m', run_tags isReadOnly writebackClean maxRequestors evs t = Ok (ans, t') ∧
    map_run writebackClean (key_of (indexingPolicy t)) m evs ans m' ∧ tags_ok t' ∧ represents t' m' ∧ frame t t'.
Proof.
  revert t m. induction evs as [|ev evs IH]; intros t m Ht Hm; simpl.
  - intros _. exists [], t, m. split; [done|]. split; [constructor|]. done.
  - intros [Hl Hrun]. destruct (tags_step_spec t m ev Ht Hm Hl) as (a & t1 & m1 & Hs & Hms & Ht1 & Hm1 & Hi1).
    rewrite Hs in *. simpl. destruct (IH t1 m1 Ht1 Hm1 Hrun) as (ans & t' & m' & -> & Hr & Ht' & Hm' & Hi'). simpl.
    eexists _, t', m'. split; [done|]. rewrite (proj1 Hi1) in Hr. split; [by econstructor|]. split; [done|]. split; [done|]. by etrans.
Qed.

(** ** Construction *)

Definition fresh : CacheBlk := mkBlk false false MaxAddr None 0 false MaxTick task_Unknown invldRequestorId MaxPartitionID 0 0 [].

Lemma CacheBlk_new_fresh : CacheBlk_new = Ok fresh.
Proof. vm_compute. reflexivity. Qed.

(** The position that the entry [e] gets. *)
Definition position_of (ip : IndexingPolicy) (e : nat) : Z * Z := (Z.of_nat e / assoc ip, Z.of_nat e mod assoc ip).

(** Tags whose first [i] entries are linked. *)
Record linking (ip : IndexingPolicy) (i : nat) t : Prop := {
  li_same : same_constants ip (indexingPolicy t);
  li_shape : ∀ set, 0 <= set < numSets ip → ∃ row, sets (indexingPolicy t) !! Z.to_nat set = Some row ∧ Z.of_nat (length row) = assoc ip;
  li_linked : ∀ e, (e < i)%nat → positions (indexingPolicy t) !! e = Some (position_of ip e) ∧
    ∃ row, sets (indexingPolicy t) !! Z.to_nat (position_of ip e).1 = Some row ∧ row !! Z.to_nat (position_of ip e).2 = Some (Some e);
  li_known : ∀ e, (e < i)%nat → knows (replacementPolicy t) e;
  li_blks : ∀ e k, blks t !! e = Some k → k = if (e <? i)%nat then registerTagExtractor (Indexing.extractTag ip) fresh else fresh;
  li_size : Z.of_nat (length (blks t)) = numSets ip * assoc ip
}.

Lemma position_range ip n e : 0 < assoc ip < 2 ^ 32 → 0 <= n → Z.of_nat e < n * assoc ip →
  0 <= (position_of ip e).1 < n ∧ 0 <= (position_of ip e).2 < assoc ip.
Proof.
  intros Ha Hn He. unfold position_of. simpl. split; [|apply Z.mod_pos_bound; lia].
  split; [apply Z.div_pos; lia|]. apply Z.div_lt_upper_bound; lia.
Qed.

Lemma position_inj ip e e' : 0 < assoc ip → position_of ip e = position_of ip e' → e = e'.
Proof.
  intros Ha [= Hd Hm]. apply Nat2Z.inj. rewrite (Z.div_mod (Z.of_nat e) (assoc ip)), (Z.div_mod (Z.of_nat e') (assoc ip)) by lia.
  by rewrite Hd, Hm.
Qed.

Lemma setEntry_linking ip i t : 0 < assoc ip < 2 ^ 32 → fits 32 (numSets ip) → linking ip i t → (i < length (blks t))%nat →
  ∃ ip' row, setEntry (indexingPolicy t) i (Z.of_nat i) = Ok ip' ∧ same_constants ip ip' ∧
    sets (indexingPolicy t) !! Z.to_nat (position_of ip i).1 = Some row ∧ Z.of_nat (length row) = assoc ip ∧
    sets ip' = <[Z.to_nat (position_of ip i).1 := <[Z.to_nat (position_of ip i).2 := Some i]> row]> (sets (indexingPolicy t)) ∧
    positions ip' = <[i := position_of ip i]> (positions (indexingPolicy t)).
Proof.
  intros Ha Hf Hl Hi. pose proof (li_size _ _ _ Hl) as Hsz.
  destruct (position_range ip (numSets ip) i Ha ltac:(unfold fits in Hf; lia) ltac:(lia)) as [Hp1 Hp2].
  destruct (li_same _ _ _ Hl) as (Hassoc & Hnum & Hss & Hsm & Hts).
  destruct (li_shape _ _ _ Hl _ Hp1) as (row & Hrow & Hlen). unfold position_of in *. simpl in *.
  unfold setEntry. rewrite Hassoc, Hnum, !wrap_small by (unfold fits in *; lia).
  replace (_ <? numSets ip) with true by (symmetry; apply Z.ltb_lt; lia). simpl. rewrite Hrow. simpl.
  eexists _, row. split; [done|]. split; [done|]. done.
Qed.

Lemma tagsInit_step ip i t : 0 < assoc ip < 2 ^ 32 → fits 32 (numSets ip) → linking ip i t → (i < length (blks t))%nat →
  ∃ t', (∀ n, tagsInit_loop (S n) i t = tagsInit_loop n (S i) t') ∧ linking ip (S i) t' ∧ length (blks t') = length (blks t) ∧
    partitionManager t' = partitionManager t.
Proof.
  intros Ha Hf Hl Hi. destruct (setEntry_linking ip i t Ha Hf Hl Hi) as (ip' & row & Hset & Hsame & Hrow & Hlen & Hsets & Hpos).
  destruct (lookup_lt_is_Some_2 _ _ Hi) as [k Hk]. pose proof (li_size _ _ _ Hl) as Hsz.
  assert (∀ e, (e < length (blks t))%nat → 0 <= (position_of ip e).1 < numSets ip ∧ 0 <= (position_of ip e).2 < assoc ip) as Hr.
  { intros e He. apply position_range; [done|unfold fits in Hf; lia|lia]. }
  destruct (Hr i Hi) as [Hp1 Hp2]. eexists. split; [intros n; simpl; rewrite Hk; simpl; rewrite Hset; simpl; reflexivity|].
  split; [|split; [by simpl; rewrite length_insert|done]]. destruct (instantiate_law i (replacementPolicy t)) as [Hi1 Hi2].
  pose proof (lookup_lt_Some _ _ _ Hrow) as Hlt.
  split; cbn [blks indexingPolicy replacementPolicy].
  - done.
  - intros set Hr'. destruct (li_shape _ _ _ Hl set Hr') as (row' & Hrow' & Hlen'). rewrite Hsets.
    destruct (decide (Z.to_nat (position_of ip i).1 = Z.to_nat set)) as [<-|].
    + rewrite list_lookup_insert_eq by done. eexists. split; [done|]. by rewrite length_insert.
    + rewrite list_lookup_insert_ne by done. by exists row'.
  - intros e He. rewrite Hpos, Hsets. destruct (decide (e = i)) as [->|Hne].
    + rewrite lookup_insert_eq, list_lookup_insert_eq by done. split; [done|]. eexists. split; [done|].
      rewrite list_lookup_insert_eq; [done|lia].
    + destruct (li_linked _ _ _ Hl e ltac:(lia)) as (Hpe & rowe & Hrowe & Hwe). rewrite lookup_insert_ne by done. split; [done|].
      destruct (decide (Z.to_nat (position_of ip i).1 = Z.to_nat (position_of ip e).1)) as [Heq|Hd].
      * rewrite <-Heq, list_lookup_insert_eq by done. eexists. split; [done|]. rewrite <-Heq, Hrow in Hrowe. injection Hrowe as <-.
        rewrite list_lookup_insert_ne; [done|]. intros Hw. destruct Hne. apply (position_inj ip); [lia|]. destruct (Hr e ltac:(lia)).
        destruct (position_of ip i), (position_of ip e); simpl in *; f_equal; lia.
      * rewrite list_lookup_insert_ne by done. by exists rowe.
  - intros e He. destruct (decide (e = i)) as [->|Hne]; [done|]. apply Hi2, (li_known _ _ _ Hl). lia.
  - intros e k' [(<- & <- & _)|[Hne He]]%list_lookup_insert_Some.
    + replace (i <? S i)%nat with true by (symmetry; apply Nat.ltb_lt; lia). pose proof (li_blks _ _ _ Hl _ _ Hk) as ->.
      rewrite Nat.ltb_irrefl. f_equal. unfold Indexing.extractTag. by destruct Hsame as (_ & _ & _ & _ & ->).
    + rewrite (li_blks _ _ _ Hl _ _ He). destruct (Nat.ltb_spec e i), (Nat.ltb_spec e (S i)); try done; lia.
  - by rewrite length_insert.
Qed.

Lemma tagsInit_linking ip n i t : 0 < assoc ip < 2 ^ 32 → fits 32 (numSets ip) → linking ip i t → (i + n = length (blks t))%nat →
  ∃ t', tagsInit_loop n i t = Ok t' ∧ linking ip (length (blks t')) t' ∧ partitionManager t' = partitionManager t.
Proof.
  intros Ha Hf. revert i t. induction n as [|n IH]; intros i t Hl Hn.
  - exists t. split; [done|]. split; [|done]. by replace (length (blks t)) with i by lia.
  - destruct (tagsInit_step ip i t Ha Hf Hl) as (t1 & Heq & Hl1 & Hlen & Hpm); [lia|]. rewrite Heq.
    destruct (IH (S i) t1 Hl1) as (t' & Ht' & Hl' & Hpm'); [lia|]. exists t'. split; [done|]. split; [done|congruence].
Qed.

(** The blocks are counted from zero, and capacities are unsigned. *)
Definition new_partitions (o : option (list PartitioningPolicy)) : Prop := ∀ ps x, o = Some ps → MaxCapacityPolicy x ∈ ps →
  partitionIdCurCapacity x = ∅ ∧ ∀ id, 0 <= capacity x id.

Lemma occupancy_none id (l : list CacheBlk) : (∀ e k, l !! e = Some k → _valid k = false) → occupancy id l = 0.
Proof.
  intros Hl. unfold occupancy. replace (filter (in_partition id) l) with (@nil CacheBlk); [done|]. symmetry.
  induction l as [|k l IH]; [done|]. rewrite filter_cons, decide_False.
  - apply IH. intros e. apply (Hl (S e)).
  - intros [Hv _]. by rewrite (Hl 0%nat k eq_refl) in Hv.
Qed.

Lemma linking_done ip t : 0 < assoc ip < 2 ^ 32 → numSets ip * assoc ip < 2 ^ 64 → index_cond ip → new_partitions (partitionManager t) →
  linking ip (length (blks t)) t → tags_ok t ∧ represents t ∅ ∧ same_constants ip (indexingPolicy t).
Proof.
  intros Ha Hsz Hc Hnew [Hsame Hshape Hlink Hkn Hblk Hlen].
  assert (∀ e k, blks t !! e = Some k → k = registerTagExtractor (Indexing.extractTag ip) fresh) as Hk.
  { intros e k He. rewrite (Hblk e k He). replace (e <? _)%nat with true; [done|]. symmetry. apply Nat.ltb_lt. by eapply lookup_lt_Some. }
  split; [|split; [split|done]].
  - split.
    + by eapply index_cond_same.
    + pose proof Hsame as (Hassoc & Hnum & _). unfold linked. rewrite Hassoc, Hnum. split; [lia|]. intros set Hset.
      destruct (Hshape set Hset) as (row & Hrow & Hl). exists row. split; [done|]. split; [done|]. intros way Hway.
      set (e := Z.to_nat (set * assoc ip + way)).
      assert (Z.of_nat e = set * assoc ip + way) as He by (unfold e; lia).
      assert (position_of ip e = (set, way)) as Hpos.
      { unfold position_of. rewrite He, (Z.add_comm _ way), Z.div_add, Z.mod_add by lia. by rewrite Z.div_small, Z.mod_small by lia. }
      destruct (Hlink e) as (Hp & row' & Hrow' & Hw); [nia|]. rewrite Hpos in *. simpl in *. rewrite Hrow in Hrow'. injection Hrow' as <-.
      exists e. split; [done|]. split; [nia|done].
    + done.
    + apply Forall_lookup. intros e k He. rewrite (Hk e k He). destruct Hsame as (_ & _ & _ & _ & Hts).
      split; simpl; try done. unfold Indexing.extractTag. by rewrite Hts.
    + lia.
    + intros ps Hps. apply Forall_forall. intros [x|w] Hx; [|done]. intros id. destruct (Hnew ps x Hps Hx) as [-> Hnn]. rewrite lookup_empty.
      specialize (Hnn id). rewrite occupancy_none; [by repeat split; lia|]. intros e k He. by rewrite (Hk e k He).
  - intros key l. rewrite lookup_empty. split; [done|]. intros (k & He & _ & Hv & _). by rewrite (Hk _ k He) in Hv.
  - intros e k He Hv. by rewrite (Hk e k He) in Hv.
Qed.

(** A configuration: the tags have as many blocks as the policy has positions.  Skewed_new
    returns what IndexingPolicy_new returns. *)
Record configured (blkSize size a sh : Z) (ip : IndexingPolicy) (p : P) (o : option (list PartitioningPolicy)) t : Prop := {
  cf_assoc : 0 < a < 2 ^ 32;
  cf_index : IndexingPolicy_new a (size / blkSize) sh = Ok ip;
  cf_cond : index_cond ip;
  cf_blocks : size / blkSize = numSets ip * a ∧ numSets ip * a < 2 ^ 64;
  cf_parts : new_partitions o;
  cf_new : BaseSetAssoc_new blkSize size ip p o = Ok t
}.

Lemma IndexingPolicy_new_shape a n sh ip : IndexingPolicy_new a n sh = Ok ip →
  assoc ip = a ∧ fits 32 (numSets ip) ∧ sets ip = replicate (Z.to_nat (numSets ip)) (replicate (Z.to_nat a) None).
Proof.
  unfold IndexingPolicy_new. case_match; [done|]. intros Hn. res_inv. simpl. split; [done|]. split; [|done]. by apply wrap_fits.
Qed.

Lemma tagsInit_spec blkSize size a sh ip p o t : configured blkSize size a sh ip p o t →
  ∃ t', tagsInit t = Ok t' ∧ tags_ok t' ∧ represents t' ∅ ∧ same_constants ip (indexingPolicy t') ∧ partitionManager t' = o.
Proof.
  intros [Ha Hip Hc [Hn Hsz] Hnew Ht]. destruct (IndexingPolicy_new_shape _ _ _ _ Hip) as (Hassoc & Hf & Hsets).
  assert (linking ip 0 t ∧ partitionManager t = o) as [Hl Hpm].
  { unfold BaseSetAssoc_new in Ht. case_match; [done|]. rewrite CacheBlk_new_fresh in Ht. res_inv. simpl in *. split; [|done].
    split; simpl; try (intros; lia).
    - done.
    - intros set Hset. exists (replicate (Z.to_nat (assoc ip)) None). rewrite Hsets, length_replicate. split; [|lia].
      apply lookup_replicate. split; [done|lia].
    - intros e k He. simplify_eq. by apply lookup_replicate in He as [-> _].
    - simplify_eq. rewrite length_replicate. unfold fits in Hf. nia. }
  destruct (tagsInit_linking ip (length (blks t)) 0 t) as (t' & Ht' & Hl' & Hpm'); [lia|done|done|done|].
  exists t'. split; [done|]. rewrite Hpm in Hpm'. rewrite <-Hpm' in Hnew.
  destruct (linking_done ip t') as (H1 & H2 & H3); by rewrite ?Hassoc.
Qed.

Lemma key_of_same ip ip' : same_constants ip ip' → key_of ip' = key_of ip.
Proof. intros (_ & _ & Hs & _). unfold key_of, block_addr. by rewrite Hs. Qed.

(** What a run of the events from the construction on comes to. *)
Lemma runs_from_start blkSize size a sh ip p o t : configured blkSize size a sh ip p o t →
  ∃ t0, tagsInit t = Ok t0 ∧ partitionManager t0 = o ∧
    ∀ evs, legal_run isReadOnly writebackClean maxRequestors evs t0 →
      ∃ ans t' m, run_tags isReadOnly writebackClean maxRequestors evs t0 = Ok (ans, t') ∧
        map_run writebackClean (key_of ip) ∅ evs ans m ∧ tags_ok t' ∧ represents t' m ∧ frame t0 t' ∧
        key_of (indexingPolicy t') = key_of ip.
Proof.
  intros Hc. destruct (tagsInit_spec _ _ _ _ _ _ _ _ Hc) as (t0 & Hi & Ht & Hm & Hs & Hpm). exists t0. split; [done|]. split; [done|].
  intros evs Hl. destruct (run_tags_spec evs t0 ∅ Ht Hm Hl) as (ans & t' & m & Hr & Hmr & Ht' & Hm' & Hf).
  exists ans, t', m. rewrite (key_of_same _ _ Hs) in Hmr. split; [done|]. split; [done|]. split; [done|]. split; [done|]. split; [done|].
  by rewrite (proj1 Hf), (key_of_same _ _ Hs).
Qed.

(** C7: tags are a map from blocks of memory to places.  From their construction on, and as
    long as a cache fills only what it does not find, every sequence of look-ups, fills for
    any partition, configured or not, invalidations and changes of state succeeds and does
    what it would do to a map: an address is found, in the place that it was given, exactly
    from its fill to its eviction or invalidation, with the state that was set; a fill evicts
    at most one line, and what it sends down has that line's address, its security and, if it
    was written to, its data; and a block's address is recovered from its tag and position.
    This holds for any indexing and replacement policy that keeps the laws of its interface,
    and for any list of partitioning policies. *)
Theorem tags_refine_map blkSize size a sh ip p o t : configured blkSize size a sh ip p o t →
  ∃ t0, tagsInit t = Ok t0 ∧ ∀ evs, legal_run isReadOnly writebackClean maxRequestors evs t0 →
    ∃ ans t' m, run_tags isReadOnly writebackClean maxRequestors evs t0 = Ok (ans, t') ∧
      map_run writebackClean (key_of ip) ∅ evs ans m ∧
      (∀ key, fits 64 (address key) → findBlock key t' = Ok (place <$> m !! key_of ip key)) ∧
      ∀ key l, m !! key = Some l → regenerateBlkAddr (place l) t' = Ok key.1 ∧
        ∃ k, blks t' !! place l = Some k ∧ _valid k = true ∧ _secure k = key.2 ∧ coherence k = line_bits l.
Proof.
  intros Hc. destruct (runs_from_start _ _ _ _ _ _ _ _ Hc) as (t0 & Hi & _ & Hrun). exists t0. split; [done|]. intros evs Hl.
  destruct (Hrun evs Hl) as (ans & t' & m & Hr & Hmr & Ht' & Hm' & _ & Hkey). exists ans, t', m. split; [done|]. split; [done|]. split.
  - intros key Ha. rewrite <-Hkey. by apply findBlock_spec.
  - intros key l (k & He & Hb & Hk)%(proj1 Hm'). split; [by eapply regenerate_key|]. exists k. destruct Hk as (Hv & Hs & _). done.
Qed.

(** C19: whatever is accessed, filled for whatever partition, and invalidated, no partition has
    more blocks than the capacity it was configured with, but for one block that a partition
    may have whose capacity is zero or was never configured; the counters of the policy are
    the numbers of blocks, and no capacity changes.  (The assertions of the code are compiled
    in: it is theirs that limits a partition that was not configured.) *)
Theorem partition_capacity_kept blkSize size a sh ip p ps t : configured blkSize size a sh ip p (Some ps) t →
  ∃ t0, tagsInit t = Ok t0 ∧ ∀ evs, legal_run isReadOnly writebackClean maxRequestors evs t0 →
    ∃ ans t' ps', run_tags isReadOnly writebackClean maxRequestors evs t0 = Ok (ans, t') ∧ partitionManager t' = Some ps' ∧
      Forall2 same_limits ps ps' ∧
      ∀ i x, ps !! i = Some (MaxCapacityPolicy x) → ∃ x', ps' !! i = Some (MaxCapacityPolicy x') ∧
        ∀ id, default 0 (partitionIdCurCapacity x' !! id) = occupancy id (blks t') ∧
          occupancy id (blks t') <= Z.max 1 (capacity x id).
Proof.
  intros Hc. destruct (runs_from_start _ _ _ _ _ _ _ _ Hc) as (t0 & Hi & Hpm & Hrun). exists t0. split; [done|]. intros evs Hl.
  destruct (Hrun evs Hl) as (ans & t' & m & Hr & _ & Ht' & _ & [_ Hf] & _). rewrite Hpm in Hf. inversion Hf as [? ps' Hf' Hx Hps'|]; subst.
  exists ans, t', ps'. split; [done|]. split; [done|]. split; [done|]. intros i x Hx.
  destruct (Forall2_lookup_l _ _ _ _ _ Hf' Hx) as ([x'|] & Hx' & Hs); [|done]. exists x'. split; [done|]. intros id.
  pose proof (ok_counts _ Ht' ps' (eq_sym Hps')) as HF. rewrite Forall_forall in HF.
  destruct (HF _ (list_elem_of_lookup_2 _ _ _ Hx') id) as (Hcur & _ & Hle & _). by rewrite <-Hs.
Qed.

End Props.


(** ** A small cache: two sets of two ways, LRU, and two partitions of one and three blocks *)

Definition ex_index : IndexingPolicy :=
  mkIndexing 2 2 6 1 7 [[None; None]; [None; None]] ∅.
Definition ex_capacities : MaxCapacity := mkMaxCapacity {[7 := 1; 8 := 3]} ∅.
Definition ex_partitions : list PartitioningPolicy := [MaxCapacityPolicy ex_capacities].
Definition ex_new : Tags (ReplPolicies.heap ReplPolicies.LRUReplData) :=
  mkTags (replicate 4 fresh) ex_index ∅ (Some ex_partitions).

#[local] Existing Instance set_associative.

Lemma ex_configured : configured 64 256 2 6 ex_index ∅ (Some ex_partitions) ex_new.
Proof.
  split; [lia|vm_compute; reflexivity| |split; [vm_compute; reflexivity|simpl; lia]| |vm_compute; reflexivity].
  - split; [|simpl; lia]. exists 1. repeat split; by vm_compute.
  - intros ps x [= <-] Hx. unfold ex_partitions in Hx. apply list_elem_of_singleton in Hx. injection Hx as ->. split; [done|].
    intros id. unfold capacity. simpl. rewrite lookup_insert, lookup_singleton. repeat case_decide; simpl; lia.
Qed.

Definition no_request (a : Z) (s : bool) : option Pending := None.
Definition ex_fill (now addr partition : Z) : Event := EvFill now (mkFill addr false 0 0 partition) no_request.

(** The block of partition 7 and a block of partition 8 share a set; a second block of
    partition 7 takes the place of the first, although the other was used longer ago; when
    the written block of partition 8 leaves, its data is sent down. *)
Definition ex_events : list Event :=
  [ex_fill 1 0x1000 8; EvSetBits 0 (WritableBit .| DirtyBit); ex_fill 2 0x1080 7; ex_fill 3 0x1100 7;
   EvAccess 4 (mkKey 0x1020 false); EvAccess 5 (mkKey 0x1080 false); EvAccess 6 (mkKey 0x1100 false);
   ex_fill 7 0x1180 8; EvInvalidate 8 1; EvAccess 9 (mkKey 0x1110 false); EvAccess 10 (mkKey 0x11bf false)].

Definition ex_answers : list Answer :=
  [Filled (Some 0%nat) []; Done; Filled (Some 1%nat) []; Filled (Some 1%nat) [mkWriteback Packet.CleanEvict 0x1080 false 0 false];
   Found (Some 0%nat); Found None; Found (Some 1%nat);
   Filled (Some 0%nat) [mkWriteback Packet.WritebackDirty 0x1000 false 0 false]; Done; Found None; Found (Some 0%nat)].

(** The events without requests in flight whose legality can be evaluated. *)
Definition fits_b (a : Z) : bool := (0 <=? a) && (a <? 2 ^ 64).
Definition valid_b {P} (t : Tags P) (e : nat) : bool := match blks t !! e with Some k => _valid k | None => false end.

Section Legal.
Context {P : Type} `{!Policy P} `{!ReplacementPolicy P} `{!TagIndexing}.

Definition legal_b (maxRequestors : Z) (t : Tags P) (ev : Event) : bool :=
  match ev with
  | EvAccess now key => fits_b (address key)
  | EvFill now pkt fm =>
      fits_b (pkt_addr pkt) && (now <=? MaxTick) && (requestorId pkt <? maxRequestors) && negb (partitionID pkt =? MaxPartitionID) &&
      match findBlock (mkKey (pkt_addr pkt) (pkt_secure pkt)) t with Ok None => true | _ => false end
  | EvInvalidate now e => valid_b t e
  | EvSetBits e bits | EvClearBits e bits => valid_b t e && (bits .& AllBits =? bits)
  end.

Definition quiet (ev : Event) : Prop := match ev with EvFill _ _ fm => fm = no_request | _ => True end.

Lemma legal_b_ok maxRequestors (t : Tags P) ev : legal_b maxRequestors t ev = true → quiet ev → legal false maxRequestors t ev.
Proof.
  assert (∀ e, valid_b t e = true → valid_at t e) as Hv.
  { intros e. unfold valid_b, valid_at. destruct (blks t !! e) as [k|]; [by exists k|done]. }
  destruct ev as [now key|now pkt fm|now e|e b|e b]; simpl; unfold fits_b, fits; intros Hl Hq; bool_prop.
  - lia.
  - case_match eqn:Hf; [|done]. case_match; [done|]. subst. split; [lia|]. split; [done|]. split; [done|]. split; [done|].
    split; [done|]. by intros ????????.
  - by apply Hv.
  - split; [by apply Hv|done].
  - split; [by apply Hv|done].
Qed.

Fixpoint legal_run_b (maxRequestors : Z) (evs : list Event) (t : Tags P) : bool :=
  match evs with
  | [] => true
  | ev :: evs => legal_b maxRequestors t ev &&
      match tags_step false false maxRequestors ev t with Ok (_, t) => legal_run_b maxRequestors evs t | Err _ => true end
  end.

Lemma legal_run_b_ok maxRequestors evs (t : Tags P) : legal_run_b maxRequestors evs t = true → Forall quiet evs →
  legal_run false false maxRequestors evs t.
Proof.
  revert t. induction evs as [|ev evs IH]; intros t; simpl; [done|]. intros [Hl Hr]%andb_true_iff [Hq Hqs]%Forall_cons.
  split; [by apply legal_b_ok|]. case_match; [|done]. case_match. by apply IH.
Qed.
End Legal.

Definition ex_start := Eval vm_compute in tagsInit ex_new.
Definition ex_end := Eval vm_compute in t0 ← ex_start; run_tags false false 4 ex_events t0.

(** Partition 9 is not configured: its second block takes the place of its first, although
    the other place of the set is free; partition 7 has one block, and partition 8 one more. *)
Definition ex_partition_events : list Event :=
  [ex_fill 1 0x1000 9; ex_fill 2 0x1080 9; ex_fill 3 0x1100 7; ex_fill 4 0x1140 8; ex_fill 5 0x11c0 8].
Definition ex_partition_answers : list Answer :=
  [Filled (Some 0%nat) []; Filled (Some 0%nat) [mkWriteback Packet.CleanEvict 0x1000 false 0 false]; Filled (Some 1%nat) [];
   Filled (Some 2%nat) []; Filled (Some 3%nat) []].
Definition ex_middle := Eval vm_compute in t0 ← ex_start; run_tags false false 4 ex_partition_events t0.

Lemma ex_legal t0 : tagsInit ex_new = Ok t0 → legal_run false false 4 ex_events t0.
Proof.
  intros Hi. apply legal_run_b_ok; [|by repeat constructor].
  revert Hi. replace (tagsInit ex_new) with ex_start by (vm_compute; reflexivity). intros [= <-]. vm_compute. reflexivity.
Qed.
Lemma ex_legal_partitions t0 : tagsInit ex_new = Ok t0 → legal_run false false 4 ex_partition_events t0.
Proof.
  intros Hi. apply legal_run_b_ok; [|by repeat constructor].
  revert Hi. replace (tagsInit ex_new) with ex_start by (vm_compute; reflexivity). intros [= <-]. vm_compute. reflexivity.
Qed.

Lemma tags_refine_map_witness :
  ∃ t' m, (t0 ← tagsInit ex_new; run_tags false false 4 ex_events t0) = Ok (ex_answers, t') ∧
    map_run false (key_of ex_index) ∅ ex_events ex_answers m ∧ findBlock (mkKey 0x1190 false) t' = Ok (Some 0%nat).
Proof.
  destruct (tags_refine_map false false 4 64 256 2 6 ex_index ∅ _ ex_new ex_configured) as (t0 & Hi & Hrun).
  destruct (Hrun ex_events (ex_legal t0 Hi)) as (ans & t' & m & Hr & Hm & _).
  assert ((t0 ← tagsInit ex_new; run_tags false false 4 ex_events t0) = Ok (ans, t')) as He by (rewrite Hi; exact Hr).
  exists t', m. rewrite He. 
  assert (ans = ex_answers ∧ findBlock (mkKey 0x1190 false) t' = Ok (Some 0%nat)) as [-> Hf].
  { clear -He. revert He. replace (t0 ← tagsInit ex_new; run_tags false false 4 ex_events t0) with ex_end by (vm_compute; reflexivity).
    unfold ex_end. intros [= <- <-]. split; vm_compute; reflexivity. }
  exact (conj eq_refl (conj Hm Hf)).
Defined.

Lemma partition_capacity_kept_witness :
  ∃ t' x', (t0 ← tagsInit ex_new; run_tags false false 4 ex_partition_events t0) = Ok (ex_partition_answers, t') ∧
    partitionManager t' = Some [MaxCapacityPolicy x'] ∧ occupancy 7 (blks t') = 1 ∧ occupancy 8 (blks t') = 2 ∧ occupancy 9 (blks t') = 1 ∧
    ∀ id, default 0 (partitionIdCurCapacity x' !! id) = occupancy id (blks t') ∧ occupancy id (blks t') <= Z.max 1 (capacity ex_capacities id).
Proof.
  destruct (partition_capacity_kept false false 4 64 256 2 6 ex_index ∅ ex_partitions ex_new ex_configured) as (t0 & Hi & Hrun).
  destruct (Hrun _ (ex_legal_partitions t0 Hi)) as (ans & t' & ps' & Hr & Hps & Hs & Hcap).
  destruct (Hcap 0%nat ex_capacities eq_refl) as (x' & Hx' & Hall).
  assert ((t0 ← tagsInit ex_new; run_tags false false 4 ex_partition_events t0) = Ok (ans, t')) as He by (rewrite Hi; exact Hr).
  exists t', x'. rewrite He.
  assert (ans = ex_partition_answers ∧ length ps' = 1%nat ∧ occupancy 7 (blks t') = 1 ∧ occupancy 8 (blks t') = 2 ∧ occupancy 9 (blks t') = 1) as (-> & H1 & H7 & H8 & H9).
  { clear -He Hps. revert He. replace (t0 ← tagsInit ex_new; run_tags false false 4 ex_partition_events t0) with ex_middle by (vm_compute; reflexivity).
    unfold ex_middle. intros [= <- <-]. simpl in Hps. injection Hps as <-. repeat split; vm_compute; reflexivity. }
  assert (ps' = [MaxCapacityPolicy x']) as Hp by (destruct ps' as [|q [|]]; try discriminate H1; injection Hx' as ->; reflexivity).
  rewrite Hp in Hps. exact (conj eq_refl (conj Hps (conj H7 (conj H8 (conj H9 Hall))))).
Defined.

(** ** What the code does that it does not mean to do *)

(** A block that is moved extracts its tag from the tag: its new place is not found. *)
Lemma moved_block_lost : let key := mkKey 0x1000 false in let k := registerTagExtractor (Indexing.extractTag ex_index) fresh in
  (s ← CacheBlk.insert 1 key 0 0 0 k;
   found ← match_ key s;
   '(d, s) ← move 2 s k;
   found' ← match_ key d;
   Ok (found, _valid d, found')) = Ok (true, true, false).
Proof. vm_compute. reflexivity. Qed.

(** Tags that do not register an extractor cannot insert a block. *)
Lemma extractor_unregistered now key requestor task partition :
  CacheBlk.insert now key requestor task partition fresh = Err Undefined.
Proof. done. Qed.

(** A partition without a configured capacity is at no limit, until the assertion of its first
    block makes its capacity zero: from then on it has to take its own places. *)
Lemma unconfigured_partition_limited x id : partitionIdMaxCapacity x !! id = None → partitionIdCurCapacity x !! id = None →
  at_limit x id = false ∧ ∃ x', acquire id x = Ok x' ∧ partitionIdMaxCapacity x' !! id = Some 0 ∧ at_limit x' id = true.
Proof.
  intros Hm Hc. unfold acquire, index_map, at_limit. rewrite Hm, Hc. simpl. split; [done|]. eexists. split; [done|]. simpl.
  by rewrite !lookup_insert_eq.
Qed.

(** A partition whose capacity is no block at all still gets its first. *)
Lemma zero_capacity_gets_one x id : partitionIdMaxCapacity x !! id = Some 0 → partitionIdCurCapacity x !! id = None →
  at_limit x id = false ∧ ∃ x', acquire id x = Ok x' ∧ partitionIdCurCapacity x' !! id = Some 1.
Proof.
  intros Hm Hc. unfold acquire, index_map, at_limit. rewrite Hm, Hc. simpl. split; [done|]. eexists. split; [done|]. simpl.
  by rewrite lookup_insert_eq.
Qed.


End SetAssocProps.
