(* ===== verification/SnoopFilter.v ===== *)
(** * mem/snoop_filter: who may hold a line

    The filter keeps, per line, the ports that hold it and the ports with a request for
    it outstanding, and answers a request or snoop with the ports to ask.  The iterator a
    lookup leaves for finishRequest is the key it points to; masks of 256 bits are
    integers.  Latencies and debug output do not affect the state. *)

From Stdlib Require Import ZArith Lia Btauto.
From stdpp Require Import base numbers option list gmap.
From S2P Require Import Prelude Bitfield Packet.

Module SnoopFilter.
Import Packet.

Record Port := mkPort { getId : Z; isSnooping : bool }.

#[global] Instance Port_eq_dec : EqDecision Port.
Proof. solve_decision. Defined.

Definition InvalidPortID : Z := -1.
Definition SNOOP_MASK_SIZE : Z := 256.
Definition LineSecure : Z := 1.

Record SnoopItem := mkItem { requested : Z; holder : Z }.

Record SnoopFilterStats := mkStats {
  totRequests : Z;
  hitSingleRequests : Z;
  hitMultiRequests : Z;
  totSnoops : Z;
  hitSingleSnoops : Z;
  hitMultiSnoops : Z
}.

Record SnoopFilter := mkSF {
  cachedLocations : gmap Z SnoopItem;
  it : option Z;
  retryItem : SnoopItem;
  cpuSidePorts : list Port;
  localResponsePortIds : list Z;
  linesize : Z;
  maxEntryCount : Z;
  stats : SnoopFilterStats
}.

Definition with_locations (sf : SnoopFilter) (l : gmap Z SnoopItem) : SnoopFilter :=
  mkSF l (it sf) (retryItem sf) (cpuSidePorts sf) (localResponsePortIds sf) (linesize sf)
    (maxEntryCount sf) (stats sf).
Definition with_lookup (sf : SnoopFilter) (i : option Z) (r : SnoopItem) : SnoopFilter :=
  mkSF (cachedLocations sf) i r (cpuSidePorts sf) (localResponsePortIds sf) (linesize sf)
    (maxEntryCount sf) (stats sf).
Definition with_stats (sf : SnoopFilter) (s : SnoopFilterStats) : SnoopFilter :=
  mkSF (cachedLocations sf) (it sf) (retryItem sf) (cpuSidePorts sf) (localResponsePortIds sf)
    (linesize sf) (maxEntryCount sf) s.

Definition SnoopFilter_new (cacheLineSize max_capacity : Z) : SnoopFilter :=
  mkSF ∅ None (mkItem 0 0) [] [] cacheLineSize (max_capacity / cacheLineSize) (mkStats 0 0 0 0 0 0).

(** The loop of setCPUSidePorts: snooping ports get consecutive local ids. *)
Fixpoint number_ports (ports : list Port) (local : list Z) (id : Z) : list Z * Z :=
  match ports with
  | [] => (local, id)
  | p :: ports =>
      if isSnooping p then number_ports ports (<[Z.to_nat (getId p) := id]> local) (id + 1)
      else number_ports ports local id
  end.

Definition setCPUSidePorts (sf : SnoopFilter) (ports : list Port) : result SnoopFilter :=
  let '(local, id) := number_ports ports (replicate (length ports) InvalidPortID) 0 in
  _ ← fatal_if (SNOOP_MASK_SIZE <? id);
  Ok (mkSF (cachedLocations sf) (it sf) (retryItem sf)
        (cpuSidePorts sf ++ filter (λ p, isSnooping p = true) ports) local (linesize sf)
        (maxEntryCount sf) (stats sf)).

(** ((SnoopMask)1) << localResponsePortIds[id] *)
Definition portToMask (sf : SnoopFilter) (port : Port) : result Z :=
  _ ← assert_ok (negb (getId port =? InvalidPortID));
  if negb (isSnooping port) then Ok 0
  else i ← deref (localResponsePortIds sf !! Z.to_nat (getId port)); Ok (wrap 256 (1 .<< i)).

Fixpoint ports_in (sf : SnoopFilter) (port_mask : Z) (ports : list Port) : result (list Port) :=
  match ports with
  | [] => Ok []
  | p :: ports =>
      m ← portToMask sf p;
      l ← ports_in sf port_mask ports;
      Ok (if negb (port_mask .& m =? 0) then p :: l else l)
  end.

Definition maskToPortList (sf : SnoopFilter) (port_mask : Z) : result (list Port) :=
  ports_in sf port_mask (cpuSidePorts sf).

(** ~mask on a bitset of 256 bits, and its count. *)
Definition mask_not (m : Z) : Z := unot 256 m.
Definition count (m : Z) : Z :=
  foldr (λ i n, (if Z.testbit m (Z.of_nat i) then 1 else 0) + n) 0 (seq 0 256).

Definition is_null (i : SnoopItem) : bool := requested i .| holder i =? 0.

Definition eraseIfNullEntry (sf : SnoopFilter) (k : Z) : result SnoopFilter :=
  i ← deref (cachedLocations sf !! k);
  Ok (if is_null i then with_locations sf (delete k (cachedLocations sf)) else sf).

Definition line_addr (sf : SnoopFilter) (cpkt : Packet) : result Z :=
  a ← getBlockAddr cpkt (linesize sf);
  s ← isSecure cpkt;
  Ok (if s : bool then a .| LineSecure else a).

Definition count_request (s : SnoopFilterStats) (is_hit : bool) (interested : Z) : SnoopFilterStats :=
  let single := is_hit && (count interested =? 1) in
  let multi := is_hit && negb (count interested =? 1) in
  mkStats (totRequests s + 1) (hitSingleRequests s + Z.b2z single) (hitMultiRequests s + Z.b2z multi)
    (totSnoops s) (hitSingleSnoops s) (hitMultiSnoops s).

(** What lookupRequest makes of the line's item. *)
Definition request_item (cpkt : Packet) (req_port : Z) (i : SnoopItem) : result SnoopItem :=
  if needsResponse (cmd cpkt) then
    if negb (cacheResponding cpkt) then
      _ ← panic_if (negb (requested i .& req_port =? 0));
      Ok (mkItem (requested i .| req_port) (holder i))
    else
      _ ← panic_if (holder i .& req_port =? 0);
      Ok i
  else
    _ ← assert_ok (isEviction (cmd cpkt));
    _ ← panic_if (holder i .& req_port =? 0);
    Ok (if negb (isBlockCached cpkt) then mkItem (requested i) (holder i .& mask_not req_port) else i).

Definition lookupRequest (sf : SnoopFilter) (cpkt : Packet) (cpu_side_port : Port)
    : result (list Port * SnoopFilter) :=
  let allocate := negb (isUncacheable (req cpkt)) && isSnooping cpu_side_port && fromCache (cmd cpkt) in
  line ← line_addr sf cpkt;
  req_port ← portToMask sf cpu_side_port;
  let found := cachedLocations sf !! line in
  let is_hit := bool_decide (is_Some found) in
  if negb is_hit && negb allocate then Ok ([], with_lookup sf None (retryItem sf))
  else
    let sf_item := default (mkItem 0 0) found in
    let interested := holder sf_item .| requested sf_item in
    let sf := with_locations sf (<[line := sf_item]> (cachedLocations sf)) in
    let sf := with_lookup sf (Some line) sf_item in
    let sf := with_stats sf (count_request (stats sf) is_hit interested) in
    if negb allocate then
      l ← maskToPortList sf (interested .& mask_not req_port);
      Ok (l, sf)
    else
      sf_item ← request_item cpkt req_port sf_item;
      let sf := with_locations sf (<[line := sf_item]> (cachedLocations sf)) in
      l ← maskToPortList sf (interested .& mask_not req_port);
      Ok (l, sf).

Definition finishRequest (sf : SnoopFilter) (will_retry : bool) (addr : Z) (is_secure : bool)
    : result SnoopFilter :=
  match it sf with
  | None => Ok sf
  | Some k =>
      let a := addr .& unot 64 (u64 (linesize sf - 1)) in
      _ ← assert_ok (k =? (if is_secure then a .| LineSecure else a));
      _ ← deref (cachedLocations sf !! k);
      let sf := if will_retry then with_locations sf (<[k := retryItem sf]> (cachedLocations sf)) else sf in
      eraseIfNullEntry sf k
  end.

Definition count_snoop (s : SnoopFilterStats) (interested : Z) : SnoopFilterStats :=
  let single := count interested =? 1 in
  mkStats (totRequests s) (hitSingleRequests s) (hitMultiRequests s)
    (totSnoops s + 1) (hitSingleSnoops s + Z.b2z single) (hitMultiSnoops s + Z.b2z (negb single)).

Definition lookupSnoop (sf : SnoopFilter) (cpkt : Packet) : result (list Port * SnoopFilter) :=
  _ ← assert_ok (isRequest (cmd cpkt));
  line ← line_addr sf cpkt;
  match cachedLocations sf !! line with
  | None =>
      _ ← panic_if (maxEntryCount sf <=? Z.of_nat (map_size (cachedLocations sf)));
      Ok ([], sf)
  | Some sf_item =>
      let interested := holder sf_item .| requested sf_item in
      let sf := with_stats sf (count_snoop (stats sf) interested) in
      nw ← (if isWriteback (cmd cpkt) || isUncacheable (req cpkt) then Ok true
            else w ← needsWritable cpkt;
                 Ok (eqb (isInvalidate (cmd cpkt)) w || isCacheMaintenance (req cpkt)));
      _ ← assert_ok nw;
      sf ← (if isInvalidate (cmd cpkt) && (requested sf_item =? 0) then
              eraseIfNullEntry
                (with_locations sf (<[line := mkItem (requested sf_item) 0]> (cachedLocations sf))) line
            else Ok sf);
      l ← maskToPortList sf interested;
      Ok (l, sf)
  end.

Definition updateSnoopResponse (sf : SnoopFilter) (cpkt : Packet) (rsp_port req_port : Port)
    : result SnoopFilter :=
  _ ← assert_ok (isResponse (cmd cpkt));
  _ ← assert_ok (cacheResponding cpkt);
  if isUncacheable (req cpkt) || negb (isSnooping req_port) then Ok sf
  else
    line ← line_addr sf cpkt;
    rsp_mask ← portToMask sf rsp_port;
    req_mask ← portToMask sf req_port;
    let sf_item := default (mkItem 0 0) (cachedLocations sf !! line) in
    _ ← panic_if (holder sf_item .& rsp_mask =? 0);
    _ ← panic_if (requested sf_item .& req_mask =? 0);
    let h := if negb (hasSharers cpkt) then 0 else holder sf_item in
    _ ← assert_ok (negb (isWriteback (cmd cpkt)));
    let sf_item := mkItem (requested sf_item .& mask_not req_mask) (h .| req_mask) in
    _ ← assert_ok (negb (is_null sf_item));
    Ok (with_locations sf (<[line := sf_item]> (cachedLocations sf))).

Definition updateSnoopForward (sf : SnoopFilter) (cpkt : Packet) (rsp_port req_port : Port)
    : result SnoopFilter :=
  _ ← assert_ok (isResponse (cmd cpkt));
  _ ← assert_ok (cacheResponding cpkt);
  line ← line_addr sf cpkt;
  match cachedLocations sf !! line with
  | None => Ok sf
  | Some sf_item =>
      if negb (hasSharers cpkt) then
        eraseIfNullEntry
          (with_locations sf (<[line := mkItem (requested sf_item) 0]> (cachedLocations sf))) line
      else Ok sf
  end.

Definition updateResponse (sf : SnoopFilter) (cpkt : Packet) (cpu_side_port : Port)
    : result SnoopFilter :=
  _ ← assert_ok (isResponse (cmd cpkt));
  if isUncacheable (req cpkt) || negb (isSnooping cpu_side_port) then Ok sf
  else
    line ← line_addr sf cpkt;
    match cachedLocations sf !! line with
    | None => Ok sf
    | Some sf_item =>
        response_mask ← portToMask sf cpu_side_port;
        _ ← panic_if (requested sf_item .& response_mask =? 0);
        let r := requested sf_item .& mask_not response_mask in
        if isCacheMaintenance (req cpkt) then
          let h := if isInvalidate (cmd cpkt) then holder sf_item .& mask_not response_mask
                   else holder sf_item in
          eraseIfNullEntry (with_locations sf (<[line := mkItem r h]> (cachedLocations sf))) line
        else
          let sf_item := mkItem r (holder sf_item .| response_mask) in
          _ ← assert_ok (negb (is_null sf_item));
          Ok (with_locations sf (<[line := sf_item]> (cachedLocations sf)))
    end.

End SnoopFilter.
