(* ===== verification/SnoopFilterProps.v ===== *)
(** * mem/snoop_filter: the answers are exact and a retried request leaves no trace *)

From Stdlib Require Import ZArith Lia Btauto.
From stdpp Require Import base numbers option list gmap.
From S2P Require Import Prelude Bitfield Flags Packet SnoopFilter.

Module SnoopFilterProps.
Import Packet SnoopFilter.

(** ** Ports and their bits *)

(** Local id [i] belongs to port [p]. *)
Definition has_id (sf : SnoopFilter) (p : Port) (i : Z) : Prop :=
  isSnooping p = true ∧ getId p ≠ InvalidPortID ∧
  localResponsePortIds sf !! Z.to_nat (getId p) = Some i ∧ 0 <= i < 256.

(** The snooping ports have ids of their own. *)
Definition config_ok (sf : SnoopFilter) : Prop :=
  (∀ p, p ∈ cpuSidePorts sf → ∃ i, has_id sf p i) ∧
  (∀ p q i, p ∈ cpuSidePorts sf → q ∈ cpuSidePorts sf → has_id sf p i → has_id sf q i → p = q) ∧
  1 <= linesize sf < 2 ^ 32.

Definition same_config (sf sf' : SnoopFilter) : Prop :=
  cpuSidePorts sf' = cpuSidePorts sf ∧ localResponsePortIds sf' = localResponsePortIds sf ∧
  linesize sf' = linesize sf.

Lemma same_config_ok sf sf' : same_config sf sf' → config_ok sf → config_ok sf'.
Proof. unfold same_config, config_ok, has_id. by intros (-> & -> & ->). Qed.

Lemma portToMask_id sf p i : has_id sf p i → portToMask sf p = Ok (2 ^ i).
Proof.
  intros (Hs & Hid & Hl & Hi). unfold portToMask. rewrite Hs, Hl.
  destruct (Z.eqb_spec (getId p) InvalidPortID); [done|]. cbn.
  rewrite Z.shiftl_1_l, wrap_small; [done|].
  split; [apply Z.pow_nonneg; lia|apply Z.pow_lt_mono_r; lia].
Qed.

Lemma land_pow2_zero m i : 0 <= i → (m .& 2 ^ i =? 0) = negb (Z.testbit m i).
Proof.
  intros Hi. pose proof (Flags.isSet_bit m i Hi) as H. unfold Flags.isSet in H.
  rewrite <-H. by rewrite negb_involutive.
Qed.

Lemma ports_in_spec sf m ports : (∀ p, p ∈ ports → ∃ i, has_id sf p i) →
  ∃ l, ports_in sf m ports = Ok l ∧
    ∀ p, p ∈ l ↔ p ∈ ports ∧ ∃ i, has_id sf p i ∧ Z.testbit m i = true.
Proof.
  induction ports as [|p ports IH]; intros Hp.
  { exists []. split; [done|]. set_solver. }
  destruct (Hp p) as [i Hi]; [left|]. destruct IH as (l & Hl & Hin); [by intros q ?; apply Hp; right|].
  cbn [ports_in]. rewrite (portToMask_id sf p i Hi), Hl. cbn [mbind result_bind].
  rewrite land_pow2_zero, negb_involutive by apply Hi. eexists. split; [done|]. intros q.
  destruct (Z.testbit m i) eqn:Hb; rewrite !elem_of_cons, ?Hin.
  - split; [intros [->|[? ?]]|]; [|by eauto|naive_solver]. split; [by left|]. eauto.
  - split; [naive_solver|]. intros [[->|Hq] Hex]; [|done].
    destruct Hex as (j & Hj & Hjb). destruct Hi as (_ & _ & Hi & _), Hj as (_ & _ & Hj & _).
    congruence.
Qed.

(** The ports of a line's item that are interested in it. *)
Definition interested_in (sf : SnoopFilter) (line : Z) (p : Port) : Prop :=
  ∃ item i, cachedLocations sf !! line = Some item ∧ has_id sf p i ∧
    Z.testbit (holder item .| requested item) i = true.

Lemma selected_ports sf sf' m port j : config_ok sf → same_config sf sf' →
  port ∈ cpuSidePorts sf → has_id sf port j →
  ∃ l, maskToPortList sf' (m .& mask_not (2 ^ j)) = Ok l ∧
    ∀ p, p ∈ l ↔ p ∈ cpuSidePorts sf ∧ p ≠ port ∧ ∃ i, has_id sf p i ∧ Z.testbit m i = true.
Proof.
  intros (Hids & Hinj & _) (Hc1 & Hc2 & _) Hport Hj. unfold maskToPortList. rewrite Hc1.
  assert (∀ p i, has_id sf' p i ↔ has_id sf p i) as Hid by (unfold has_id; by rewrite Hc2).
  destruct (ports_in_spec sf' (m .& mask_not (2 ^ j)) (cpuSidePorts sf)) as (l & Hl & Hin).
  { intros p Hp. destruct (Hids p Hp) as [i Hi]. exists i. by apply Hid. }
  exists l. split; [done|]. intros p. rewrite Hin.
  assert (∀ i, has_id sf p i → Z.testbit (m .& mask_not (2 ^ j)) i = true ↔
    Z.testbit m i = true ∧ i ≠ j) as Hbit.
  { intros i (_ & _ & _ & Hi). destruct Hj as (_ & _ & _ & Hj). unfold mask_not.
    rewrite Z.land_spec, testbit_unot, testbit_pow2 by lia.
    destruct (Z.ltb_spec i 256); [|lia]. cbn. rewrite andb_true_iff, negb_true_iff, Z.eqb_neq. done. }
  split.
  - intros (Hp & i & Hi%Hid & Hb). apply (Hbit i Hi) in Hb as [Hb Hne].
    split; [done|]. split; [|eauto]. intros ->.
    destruct Hi as (_ & _ & Hi & _), Hj as (_ & _ & Hj & _). congruence.
  - intros (Hp & Hne & i & Hi & Hb). split; [done|]. exists i. split; [by apply Hid|].
    apply (Hbit i Hi). split; [done|]. intros ->. by apply Hne, (Hinj p port j).
Qed.

(** ** Looking up a request *)

(** What a successful lookup returns and changes. *)
Definition lookup_result (sf : SnoopFilter) (line : Z) (port : Port) (l : list Port)
    (sf' : SnoopFilter) : Prop :=
  same_config sf sf' ∧
  (∀ p, p ∈ l ↔ p ∈ cpuSidePorts sf ∧ p ≠ port ∧ interested_in sf line p) ∧
  ((it sf' = None ∧ cachedLocations sf' = cachedLocations sf) ∨
   (∃ item, it sf' = Some line ∧ retryItem sf' = default (mkItem 0 0) (cachedLocations sf !! line) ∧
      cachedLocations sf' = <[line := item]> (cachedLocations sf))).

Lemma default_testbit (o : option SnoopItem) i :
  Z.testbit (holder (default (mkItem 0 0) o) .| requested (default (mkItem 0 0) o)) i = true ↔
  ∃ item, o = Some item ∧ Z.testbit (holder item .| requested item) i = true.
Proof.
  destruct o as [item|]; cbn [default from_option].
  - naive_solver.
  - cbn. rewrite Z.testbit_0_l. naive_solver.
Qed.

Lemma lookupRequest_result sf cpkt port line l sf' : config_ok sf → port ∈ cpuSidePorts sf →
  line_addr sf cpkt = Ok line → lookupRequest sf cpkt port = Ok (l, sf') →
  lookup_result sf line port l sf'.
Proof.
  intros Hok Hport Hline H. pose proof Hok as (Hids & _). destruct (Hids port Hport) as [j Hj].
  unfold lookupRequest in H. cbv zeta in H.
  rewrite Hline, (portToMask_id sf port j Hj) in H. cbn [mbind result_bind] in H.
  set (sf1 := with_stats _ _) in H.
  assert (same_config sf sf1) as Hc1 by done.
  assert (∀ p, (∃ i, has_id sf p i ∧ Z.testbit (holder (default (mkItem 0 0) (cachedLocations sf !! line))
     .| requested (default (mkItem 0 0) (cachedLocations sf !! line))) i = true) ↔
     interested_in sf line p) as Hint.
  { intros p. unfold interested_in. setoid_rewrite default_testbit. naive_solver. }
  case_match eqn:Hcase.
  { injection H as <- <-. split; [done|]. split; [|by left]. intros p. split; [by intros ?%elem_of_nil|].
    intros (_ & _ & item & i & Hi & _). rewrite Hi in Hcase.
    rewrite bool_decide_eq_true_2 in Hcase by by eexists. done. }
  case_match.
  - destruct (selected_ports sf sf1 (holder (default (mkItem 0 0) (cachedLocations sf !! line))
      .| requested (default (mkItem 0 0) (cachedLocations sf !! line))) port j Hok Hc1 Hport Hj)
      as (l0 & Hl0 & Hin).
    rewrite Hl0 in H. cbn [mbind result_bind] in H. injection H as <- <-.
    split; [done|]. split; [|right; by eexists]. intros p. by rewrite Hin, Hint.
  - destruct (request_item _ _ _) as [item|]; [|done]. cbn [mbind result_bind] in H.
    assert (same_config sf (with_locations sf1 (<[line := item]> (cachedLocations sf1)))) as Hc2 by done.
    destruct (selected_ports sf _ (holder (default (mkItem 0 0) (cachedLocations sf !! line))
      .| requested (default (mkItem 0 0) (cachedLocations sf !! line))) port j Hok Hc2 Hport Hj)
      as (l0 & Hl0 & Hin).
    rewrite Hl0 in H. cbn [mbind result_bind] in H. injection H as <- <-.
    split; [done|]. split; [intros p; by rewrite Hin, Hint|right]. exists item.
    split; [done|]. split; [done|]. cbn. by rewrite insert_insert_eq.
Qed.

(** The ports a request is forwarded to are exactly the other ports that hold the line
    or have a request for it outstanding: no such port is left out, the requesting port
    is never snooped, and a line the filter does not know is not snooped at all. *)
Theorem lookupRequest_exact sf cpkt port line l sf' : config_ok sf → port ∈ cpuSidePorts sf →
  line_addr sf cpkt = Ok line → lookupRequest sf cpkt port = Ok (l, sf') →
  ∀ p, p ∈ l ↔ p ∈ cpuSidePorts sf ∧ p ≠ port ∧ interested_in sf line p.
Proof. intros Hok Hp Hl H. by apply (lookupRequest_result sf cpkt port line l sf'). Qed.

(** ** Finishing a request *)

(** No line is kept that no port is interested in. *)
Definition no_null (sf : SnoopFilter) : Prop :=
  ∀ k item, cachedLocations sf !! k = Some item → is_null item = false.

Lemma line_addr_finish sf cpkt line : config_ok sf → line_addr sf cpkt = Ok line →
  line = (if _isSecure cpkt then (addr cpkt .& unot 64 (u64 (linesize sf - 1))) .| LineSecure
          else addr cpkt .& unot 64 (u64 (linesize sf - 1))).
Proof.
  intros (_ & _ & Hls) H. unfold line_addr, getBlockAddr, getAddr, isSecure in H.
  destruct (Flags.isSet (flags cpkt) VALID_ADDR); [|done]. cbn [assert_ok mbind result_bind] in H.
  rewrite (wrap_small 32) in H by (unfold fits; lia).
  rewrite (wrap_small 64) by (unfold fits; lia). injection H as <-. done.
Qed.

Lemma erase_result sf k sf' : eraseIfNullEntry sf k = Ok sf' →
  ∃ item, cachedLocations sf !! k = Some item ∧ same_config sf sf' ∧
    cachedLocations sf' = if is_null item then delete k (cachedLocations sf) else cachedLocations sf.
Proof.
  unfold eraseIfNullEntry. destruct (cachedLocations sf !! k) as [item|]; [|done].
  cbn [deref mbind result_bind]. intros [= <-]. exists item. by destruct (is_null item).
Qed.

Lemma erase_no_null sf k sf' :
  (∀ k' i, k' ≠ k → cachedLocations sf !! k' = Some i → is_null i = false) →
  eraseIfNullEntry sf k = Ok sf' → no_null sf'.
Proof.
  intros Hnn (item' & Hk & _ & Hl)%erase_result k' i Hi. rewrite Hl in Hi.
  destruct (is_null item') eqn:Hn.
  - apply lookup_delete_Some in Hi as [Hne Hi]. by apply (Hnn k' i).
  - destruct (decide (k' = k)) as [->|]; [congruence|]. by apply (Hnn k' i).
Qed.

(** What finishing leaves of a lookup. *)
Lemma finishRequest_locations sf sf1 line port l retry cpkt : config_ok sf → no_null sf →
  line_addr sf cpkt = Ok line → lookup_result sf line port l sf1 →
  ∃ sf2, finishRequest sf1 retry (addr cpkt) (_isSecure cpkt) = Ok sf2 ∧ no_null sf2 ∧
    same_config sf sf2 ∧ (retry = true → cachedLocations sf2 = cachedLocations sf).
Proof.
  intros Hok Hnn Hline (Hc & _ & Hit). unfold finishRequest.
  destruct Hit as [[-> Hloc]|(item & Hit & Hretry & Hloc)].
  { exists sf1. split; [done|]. split; [by unfold no_null; rewrite Hloc|]. split; [done|]. by intros _. }
  rewrite Hit. cbv zeta. destruct Hc as (Hc1 & Hc2 & Hc3). rewrite Hc3.
  rewrite <-(line_addr_finish sf cpkt line Hok Hline), Z.eqb_refl, Hloc, lookup_insert_eq.
  cbn [assert_ok deref mbind result_bind].
  set (item0 := default (mkItem 0 0) (cachedLocations sf !! line)) in *.
  assert (∀ i', ∃ sf2, eraseIfNullEntry (with_locations sf1 (<[line := i']> (cachedLocations sf))) line
     = Ok sf2 ∧ no_null sf2 ∧ same_config sf sf2 ∧
     cachedLocations sf2 = if is_null i' then delete line (cachedLocations sf)
                           else <[line := i']> (cachedLocations sf)) as Herase.
  { intros i'. eexists. split.
    { unfold eraseIfNullEntry. cbn. rewrite lookup_insert_eq. reflexivity. }
    destruct (is_null i') eqn:Hn; cbn; rewrite ?delete_insert_eq.
    - split; [|done]. intros k i Hi. cbn in Hi. apply lookup_delete_Some in Hi as [_ Hi].
      by apply (Hnn k).
    - split; [|done]. intros k i Hi. cbn in Hi.
      apply lookup_insert_Some in Hi as [[<- <-]|[_ Hi]]; [done|by apply (Hnn k)]. }
  destruct retry.
  - destruct (Herase item0) as (sf2 & He & Hn2 & Hc' & Hl2). exists sf2.
    rewrite Hretry, insert_insert_eq. split; [exact He|]. split; [done|]. split; [done|].
    intros _. rewrite Hl2. unfold item0.
    destruct (cachedLocations sf !! line) as [i|] eqn:Hi; cbn [default from_option id].
    + rewrite (Hnn line i Hi). by rewrite insert_id.
    + cbn. by apply delete_id.
  - destruct (Herase item) as (sf2 & He & Hn2 & Hc' & _). exists sf2.
    assert (with_locations sf1 (<[line := item]> (cachedLocations sf)) = sf1) as Heq
      by (rewrite <-Hloc; by destruct sf1).
    rewrite Heq in He. by split; [exact He|].
Qed.

(** A request that has to be retried leaves no trace: after the lookup, finishing with
    will_retry restores the filter's lines exactly, the entry a miss allocated and the
    request or eviction it recorded included. *)
Theorem retried_request_rolls_back sf cpkt port line l sf1 : config_ok sf → no_null sf →
  port ∈ cpuSidePorts sf → line_addr sf cpkt = Ok line → lookupRequest sf cpkt port = Ok (l, sf1) →
  ∃ sf2, finishRequest sf1 true (addr cpkt) (_isSecure cpkt) = Ok sf2 ∧
    cachedLocations sf2 = cachedLocations sf.
Proof.
  intros Hok Hnn Hp Hl H. pose proof (lookupRequest_result sf cpkt port line l sf1 Hok Hp Hl H) as Hr.
  destruct (finishRequest_locations sf sf1 line port l true cpkt Hok Hnn Hl Hr)
    as (sf2 & Hf & _ & _ & Hloc). exists sf2. split; [done|]. by apply Hloc.
Qed.

(** ** The filter's steps *)

(** A crossbar's use of the filter: a request is looked up and finished at once, the
    other operations are steps of their own. *)
Inductive sf_step (sf : SnoopFilter) : SnoopFilter → Prop :=
  | step_request cpkt port line l sf1 retry sf2 :
      port ∈ cpuSidePorts sf → line_addr sf cpkt = Ok line →
      lookupRequest sf cpkt port = Ok (l, sf1) →
      finishRequest sf1 retry (addr cpkt) (_isSecure cpkt) = Ok sf2 → sf_step sf sf2
  | step_snoop cpkt l sf2 : lookupSnoop sf cpkt = Ok (l, sf2) → sf_step sf sf2
  | step_snoop_response cpkt rsp req sf2 :
      updateSnoopResponse sf cpkt rsp req = Ok sf2 → sf_step sf sf2
  | step_snoop_forward cpkt rsp req sf2 :
      updateSnoopForward sf cpkt rsp req = Ok sf2 → sf_step sf sf2
  | step_response cpkt port sf2 : updateResponse sf cpkt port = Ok sf2 → sf_step sf sf2.

Lemma insert_no_null sf k item : no_null sf → is_null item = false →
  no_null (with_locations sf (<[k := item]> (cachedLocations sf))).
Proof.
  intros Hnn Hi k' i H. cbn in H. apply lookup_insert_Some in H as [[<- <-]|[_ H]]; [done|].
  by apply (Hnn k').
Qed.

Lemma erase_insert_no_null sf k item sf' : no_null sf →
  eraseIfNullEntry (with_locations sf (<[k := item]> (cachedLocations sf))) k = Ok sf' →
  no_null sf' ∧ same_config sf sf'.
Proof.
  intros Hnn He. split; [|by apply erase_result in He as (i & _ & Hc & _)].
  eapply (erase_no_null _ k); [|exact He]. intros k' i Hne Hi. cbn in Hi.
  rewrite lookup_insert_ne in Hi by done. by apply (Hnn k').
Qed.

Ltac step_inv :=
  repeat match goal with
  | H : Ok _ = Ok _ |- _ => injection H as H; subst
  | H : Err _ = Ok _ |- _ => discriminate H
  | H : (match ?r with Ok _ => _ | Err _ => _ end) = Ok _ |- _ => destruct r eqn:?; try discriminate H
  | H : (if ?c then _ else _) = Ok _ |- _ => destruct c eqn:?; try discriminate H
  end.

Lemma lookupSnoop_inv sf cpkt l sf2 : no_null sf → lookupSnoop sf cpkt = Ok (l, sf2) →
  no_null sf2 ∧ same_config sf sf2.
Proof.
  intros Hnn H. unfold lookupSnoop, mbind, result_bind in H.
  destruct (assert_ok _); [|done]. destruct (line_addr sf cpkt) as [line|]; [|done].
  destruct (cachedLocations sf !! line) as [item|] eqn:Hl; [|destruct (panic_if _); [|done]; by step_inv].
  cbv zeta in H. set (sf1 := with_stats _ _) in H.
  destruct (if isWriteback (cmd cpkt) || isUncacheable (req cpkt) then _ else _); [|done].
  destruct (assert_ok _); [|done].
  destruct (isInvalidate (cmd cpkt) && (requested item =? 0)).
  - destruct (eraseIfNullEntry _ _) as [sf3|] eqn:He; [|done].
    destruct (maskToPortList sf3 _); [|done]. step_inv.
    by apply (erase_insert_no_null sf1) in He.
  - destruct (maskToPortList sf1 _); [|done]. by step_inv.
Qed.

Lemma updateSnoopResponse_inv sf cpkt rsp rq sf2 : no_null sf →
  updateSnoopResponse sf cpkt rsp rq = Ok sf2 → no_null sf2 ∧ same_config sf sf2.
Proof.
  intros Hnn H. unfold updateSnoopResponse, mbind, result_bind in H. cbv zeta in H.
  destruct (assert_ok _); [|done]. destruct (assert_ok _); [|done].
  destruct (isUncacheable _ || _); [by step_inv|].
  destruct (line_addr sf cpkt); [|done]. destruct (portToMask sf rsp); [|done].
  destruct (portToMask sf rq); [|done]. do 2 (destruct (panic_if _); [|done]).
  destruct (assert_ok _); [|done].
  match type of H with context [is_null ?i] => destruct (is_null i) eqn:Hi; [done|] end.
  cbn in H. injection H as <-. split; [by apply insert_no_null|done].
Qed.

Lemma updateSnoopForward_inv sf cpkt rsp rq sf2 : no_null sf →
  updateSnoopForward sf cpkt rsp rq = Ok sf2 → no_null sf2 ∧ same_config sf sf2.
Proof.
  intros Hnn H. unfold updateSnoopForward, mbind, result_bind in H.
  destruct (assert_ok _); [|done]. destruct (assert_ok _); [|done].
  destruct (line_addr sf cpkt) as [line|]; [|done].
  destruct (cachedLocations sf !! line); [|by step_inv].
  destruct (negb _); [|by step_inv]. by apply erase_insert_no_null in H.
Qed.

Lemma updateResponse_inv sf cpkt port sf2 : no_null sf →
  updateResponse sf cpkt port = Ok sf2 → no_null sf2 ∧ same_config sf sf2.
Proof.
  intros Hnn H. unfold updateResponse, mbind, result_bind in H. cbv zeta in H.
  destruct (assert_ok _); [|done]. destruct (isUncacheable _ || _); [by step_inv|].
  destruct (line_addr sf cpkt) as [line|]; [|done].
  destruct (cachedLocations sf !! line); [|by step_inv].
  destruct (portToMask sf port); [|done]. destruct (panic_if _); [|done].
  destruct (isCacheMaintenance _); [by apply erase_insert_no_null in H|].
  match type of H with context [is_null ?i] => destruct (is_null i) eqn:Hi; [done|] end.
  cbn in H. injection H as <-. split; [by apply insert_no_null|done].
Qed.

(** Every line the filter tracks is of interest to some port, in every state its
    operations reach from an empty filter, retried requests included; and the ports'
    numbering does not change. *)
Theorem snoop_filter_no_null sf0 sf : config_ok sf0 → cachedLocations sf0 = ∅ →
  rtc sf_step sf0 sf →
  no_null sf ∧ config_ok sf.
Proof.
  intros Hok0 H0 Hsteps. assert (no_null sf0) as Hnn0 by (intros k i; by rewrite H0, lookup_empty).
  clear H0. revert Hok0 Hnn0.
  induction Hsteps as [sf|sf sf1 sf2 Hstep _ IH]; intros Hok Hnn; [done|].
  assert (no_null sf1 ∧ same_config sf sf1) as [Hnn1 Hc1].
  { inversion Hstep as [cpkt port line l sfa retry sfb Hp Hl Hlk Hf|cpkt l sfb H|cpkt rsp rq sfb H|
      cpkt rsp rq sfb H|cpkt port sfb H]; subst.
    - pose proof (lookupRequest_result sf cpkt port line l sfa Hok Hp Hl Hlk) as Hr.
      destruct (finishRequest_locations sf sfa line port l retry cpkt Hok Hnn Hl Hr)
        as (sf2' & Hf' & ? & ? & _). rewrite Hf in Hf'. by injection Hf' as <-.
    - by eapply lookupSnoop_inv.
    - by eapply updateSnoopResponse_inv.
    - by eapply updateSnoopForward_inv.
    - by eapply updateResponse_inv. }
  apply IH; [by eapply same_config_ok|done].
Qed.

(** ** Witnesses: two snooping ports, the second of which holds line 64 *)

Definition port0 : Port := mkPort 0 true.
Definition port1 : Port := mkPort 1 true.

Definition ex_sf : SnoopFilter :=
  mkSF (<[64 := mkItem 0 2]> ∅) None (mkItem 0 0) [port0; port1] [0; 1] 64 1024 (mkStats 0 0 0 0 0 0).

Definition ex_req : Request :=
  mkRequest (Some 70) (Some 4) false false false false false false false false false
    false false false false [] false.
Definition ex_pkt : Packet := mkPacket ReadSharedReq (VALID_ADDR .| VALID_SIZE) ex_req [] 70 false 4 [] 0 0 [].

Lemma ports_config_ok l i r st : config_ok (mkSF l i r [port0; port1] [0; 1] 64 1024 st).
Proof.
  assert (∀ p k, p ∈ [port0; port1] → has_id (mkSF l i r [port0; port1] [0; 1] 64 1024 st) p k →
    p = port0 ∧ k = 0 ∨ p = port1 ∧ k = 1) as Hid.
  { intros p k Hp (_ & _ & Hk & _). cbn in Hk.
    apply elem_of_cons in Hp as [->|[->|[]%elem_of_nil]%elem_of_cons]; cbn in Hk; naive_solver. }
  split; [|split; [|cbn; lia]].
  - intros p Hp. cbn in Hp. apply elem_of_cons in Hp as [->|[->|[]%elem_of_nil]%elem_of_cons].
    + exists 0. repeat split; done || lia.
    + exists 1. repeat split; done || lia.
  - intros p q k Hp Hq H1%Hid H2%Hid; [|done..]. naive_solver lia.
Qed.

Lemma ex_sf_no_null : no_null ex_sf.
Proof.
  intros k i H. cbn in H. apply lookup_insert_Some in H as [[_ <-]|[_ H]]; [done|].
  by rewrite lookup_empty in H.
Qed.

Lemma lookupRequest_exact_witness :
  ∃ sf', lookupRequest ex_sf ex_pkt port0 = Ok ([port1], sf') ∧
    cachedLocations sf' !! 64 = Some (mkItem 1 2) ∧
    ∀ p, p ∈ [port1] ↔ p ∈ [port0; port1] ∧ p ≠ port0 ∧ interested_in ex_sf 64 p.
Proof.
  eexists. split; [vm_compute; reflexivity|]. split; [vm_compute; reflexivity|].
  eapply (lookupRequest_exact ex_sf ex_pkt port0 64);
    [apply ports_config_ok|left|reflexivity|vm_compute; reflexivity].
Defined.

Lemma retried_request_rolls_back_witness :
  ∃ sf1, lookupRequest ex_sf ex_pkt port0 = Ok ([port1], sf1) ∧
    ∃ sf2, finishRequest sf1 true 70 false = Ok sf2 ∧ cachedLocations sf2 = cachedLocations ex_sf.
Proof.
  eexists. split; [vm_compute; reflexivity|].
  eapply (retried_request_rolls_back ex_sf ex_pkt port0 64);
    [apply ports_config_ok|apply ex_sf_no_null|left|reflexivity|vm_compute; reflexivity].
Defined.

Lemma snoop_filter_no_null_witness :
  let sf0 := with_locations ex_sf ∅ in
  ∃ sf, rtc sf_step sf0 sf ∧ cachedLocations sf !! 64 = Some (mkItem 1 0) ∧
    no_null sf ∧ config_ok sf.
Proof.
  cbv zeta.
  assert (∃ sf, rtc sf_step (with_locations ex_sf ∅) sf ∧ cachedLocations sf !! 64 = Some (mkItem 1 0))
    as (sf & Hr & Hl).
  { eexists. split.
    - eapply rtc_once. eapply (step_request (with_locations ex_sf ∅) ex_pkt port0 64 []) with (retry := false);
        [left|reflexivity|vm_compute; reflexivity|vm_compute; reflexivity].
    - vm_compute. reflexivity. }
  exists sf. split; [exact Hr|]. split; [exact Hl|].
  apply (snoop_filter_no_null (with_locations ex_sf ∅) sf); [apply ports_config_ok|reflexivity|exact Hr].
Defined.
End SnoopFilterProps.
