(* ===== verification/AddrRangeMap.v ===== *)
(** * base/addr_range_map.hh: a map from address ranges to values

    An ordered map whose keys are disjoint ranges, searched by inclusion of or
    intersection with a range, and a small most-recently-used cache of iterators.  An
    iterator is the key it points to, [None] for [end()]; the key determines the node,
    since [operator<] of ranges separates the keys. *)

From Stdlib Require Import ZArith Lia.
From stdpp Require Import base numbers option list sorting.
From S2P Require Import Prelude Bitfield AddrRange AddrRangeProps.

Module AddrRangeMap.
Import AddrRange.

Section Map.
Context {V : Type} (max_cache_size : Z).

Record AddrRangeMap := mkMap {
  tree : list (AddrRange * V);
  cache : list AddrRange
}.

Definition iterator : Type := option AddrRange.

(** The element an iterator points to. *)
Fixpoint at_ (l : list (AddrRange * V)) (k : AddrRange) : option V :=
  match l with
  | [] => None
  | (k', v) :: l => if bool_decide (k' = k) then Some v else at_ l k
  end.

Definition begin_ (m : AddrRangeMap) : iterator := fst <$> head (tree m).
Definition size_ (m : AddrRangeMap) : nat := length (tree m).
Definition empty (m : AddrRangeMap) : bool := (length (tree m) =? 0)%nat.
Definition clear (m : AddrRangeMap) : AddrRangeMap := mkMap [] [].

(** std::map::upper_bound: the elements before it, last first, and from it on. *)
Fixpoint upper_bound (r : AddrRange) (before after : list (AddrRange * V))
    : list (AddrRange * V) * list (AddrRange * V) :=
  match after with
  | [] => (before, [])
  | x :: after' => if range_lt r x.1 then (before, after) else upper_bound r (x :: before) after'
  end.

Definition addNewEntryToCache (it : AddrRange) (c : list AddrRange) : list AddrRange :=
  if negb (max_cache_size =? 0) then
    if max_cache_size <=? Z.of_nat (length c) then
      if 1 <? max_cache_size then it :: removelast c else removelast c ++ [it]
    else it :: c
  else c.

(** The cache: a hit is moved to the front. *)
Fixpoint find_cache (cond : AddrRange → result bool) (pre c : list AddrRange)
    : result (option (AddrRange * list AddrRange)) :=
  match c with
  | [] => Ok None
  | it :: c =>
      b ← cond it;
      if (b : bool) then Ok (Some (it, it :: reverse pre ++ c)) else find_cache cond (it :: pre) c
  end.

(** The do-while loop: back from the greatest element not above the range, through the
    elements that merge with their successor. *)
Fixpoint find_back (cond : AddrRange → result bool) (i : AddrRange)
    (before : list (AddrRange * V)) : result iterator :=
  b ← cond i;
  if (b : bool) then Ok (Some i)
  else match before with
  | [] => Ok None
  | next :: before => if mergesWith next.1 i then find_back cond next.1 before else Ok None
  end.

Definition find (r : AddrRange) (cond : AddrRange → result bool) (m : AddrRangeMap)
    : result (iterator * AddrRangeMap) :=
  o ← find_cache cond [] (cache m);
  match o with
  | Some (it, c) => Ok (Some it, mkMap (tree m) c)
  | None =>
      let '(before, after) := upper_bound r [] (tree m) in
      b ← match after with [] => Ok false | next :: _ => cond next.1 end;
      match after, (b : bool) with
      | next :: _, true => Ok (Some next.1, mkMap (tree m) (addNewEntryToCache next.1 (cache m)))
      | _, _ =>
          match before with
          | [] => Ok (None, m)
          | next :: before =>
              i ← find_back cond next.1 before;
              match i with
              | Some i => Ok (Some i, mkMap (tree m) (addNewEntryToCache i (cache m)))
              | None => Ok (None, m)
              end
          end
      end
  end.

Definition contains_range (r : AddrRange) (m : AddrRangeMap) : result (iterator * AddrRangeMap) :=
  find r (λ r1, isSubset r r1) m.

Definition contains_addr (a : Z) (m : AddrRangeMap) : result (iterator * AddrRangeMap) :=
  contains_range (RangeSize a 1) m.

Definition intersects_range (r : AddrRange) (m : AddrRangeMap) : result (iterator * AddrRangeMap) :=
  find r (λ r1, intersects r r1) m.

(** std::map::insert keeps an element with an equivalent key. *)
Fixpoint tree_insert (r : AddrRange) (d : V) (l : list (AddrRange * V))
    : AddrRange * list (AddrRange * V) :=
  match l with
  | [] => (r, [(r, d)])
  | x :: l' =>
      if range_lt r x.1 then (r, (r, d) :: l)
      else if range_lt x.1 r then let '(k, l'') := tree_insert r d l' in (k, x :: l'')
      else (x.1, l)
  end.

Definition insert (r : AddrRange) (d : V) (m : AddrRangeMap) : result (iterator * AddrRangeMap) :=
  '(it, m) ← intersects_range r m;
  match it with
  | Some _ => Ok (None, m)
  | None =>
      let '(k, l) := tree_insert r d (tree m) in
      Ok (Some k, mkMap l (cache m))
  end.

(** list::remove and map::erase. *)
Definition erase (p : AddrRange) (m : AddrRangeMap) : AddrRangeMap :=
  mkMap (filter (λ x, x.1 ≠ p) (tree m)) (filter (λ k, k ≠ p) (cache m)).

(** erase(p, q): the loop over the range removes [p] from the cache in each of its
    iterations, and none of the others; the range must be one of the tree. *)
Definition erase_range (p q : iterator) (m : AddrRangeMap) : result AddrRangeMap :=
  match p with
  | None => match q with None => Ok m | Some _ => Err Undefined end
  | Some k =>
      match list_find (λ x, x.1 = k) (tree m) with
      | None => Err Undefined
      | Some (i, _) =>
          if bool_decide (q = Some k) then Ok m
          else
            let before := take i (tree m) in
            let c := filter (λ k', k' ≠ k) (cache m) in
            match q with
            | None => Ok (mkMap before c)
            | Some k' =>
                match list_find (λ x, x.1 = k') (drop i (tree m)) with
                | None => Err Undefined
                | Some (n, _) => Ok (mkMap (before ++ drop (i + n) (tree m)) c)
                end
            end
      end
  end.

End Map.
Arguments AddrRangeMap : clear implicits.

End AddrRangeMap.
