(* ===== verification/AddrRangeMapProps.v ===== *)
(** * base/addr_range_map.hh: a lookup finds the entry, whatever the cache holds

    The keys of a map are pairwise disjoint, or members of one interleaving with
    different match values.  On such a map the search from the upper bound back through
    the merging neighbours misses nothing, and the cache cannot be observed. *)

From Stdlib Require Import ZArith Lia Btauto.
From stdpp Require Import base numbers option list sets sorting.
From S2P Require Import Prelude Bitfield AddrRange AddrRangeProps AddrRangeMap.

Module AddrRangeMapProps.
Import Bitfield AddrRange AddrRangeProps AddrRangeMap.

(** ** The order of ranges *)

Lemma range_lt_start x y : range_lt x y = true → _start x <= _start y.
Proof. unfold range_lt. destruct (Z.eqb_spec (_start x) (_start y)); simpl; lia. Qed.

Lemma range_nlt_start x y : range_lt x y = false → _start y <= _start x.
Proof. unfold range_lt. destruct (Z.eqb_spec (_start x) (_start y)); simpl; lia. Qed.

Lemma range_lt_irrefl x : range_lt x x = false.
Proof. unfold range_lt. rewrite Z.eqb_refl. simpl. destruct (interleaved x); simpl; lia. Qed.

Lemma range_lt_trans x y z : range_lt x y = true → range_lt y z = true → range_lt x z = true.
Proof.
  unfold range_lt. destruct (Z.eqb_spec (_start x) (_start y)), (Z.eqb_spec (_start y) (_start z)),
    (Z.eqb_spec (_start x) (_start z)); simpl; try lia.
  destruct (interleaved x), (interleaved y), (interleaved z); simpl; lia.
Qed.

(** ** Keys *)

Definition key_ok (r : AddrRange) : Prop :=
  range_ok r ∧ _start r < _end r ∧ (interleaved r = true → size r ≠ 1).

Definition separate (x y : AddrRange) : Prop :=
  _end x <= _start y ∨ _end y <= _start x ∨
  (mergesWith x y = true ∧ interleaved x = true ∧ intlvMatch x ≠ intlvMatch y).

Lemma mergesWith_spec t r : mergesWith t r = true ↔
  _start r = _start t ∧ _end r = _end t ∧ masks r = masks t.
Proof.
  unfold mergesWith. rewrite !andb_true_iff, !Z.eqb_eq, bool_decide_eq_true. naive_solver.
Qed.

Lemma mergesWith_sym t r : mergesWith t r = mergesWith r t.
Proof. apply eq_true_iff_eq. rewrite !mergesWith_spec. naive_solver. Qed.

Lemma mergesWith_interleaved t r : mergesWith t r = true → interleaved r = interleaved t.
Proof. rewrite mergesWith_spec. unfold interleaved. by intros (_ & _ & ->). Qed.

Lemma separate_sym x y : separate x y → separate y x.
Proof.
  intros [H|[H|(Hm & Hi & Hne)]]; [by right; left|by left|right; right].
  rewrite mergesWith_sym, (mergesWith_interleaved _ _ Hm). naive_solver.
Qed.

(** ** A point is a subset of the ranges that contain it *)

Lemma swrap_testbit_low w z i : 0 <= i < w → Z.testbit (swrap w z) i = Z.testbit z i.
Proof.
  intros Hi. rewrite swrap_testbit by lia.
  transitivity (Z.testbit (wrap w (swrap w z)) i).
  { rewrite testbit_wrap by lia. replace (i <? w) with true by lia. cbn [andb].
    by rewrite swrap_testbit by lia. }
  replace (wrap w (swrap w z)) with (wrap w z).
  { rewrite testbit_wrap by lia. by replace (i <? w) with true by lia. }
  rewrite swrap_testbit by lia. unfold wrap. destruct (Z.testbit z (w - 1)).
  - rewrite <-(Z_mod_plus_full (z mod 2 ^ w - 2 ^ w) 1). 
    replace (z mod 2 ^ w - 2 ^ w + 1 * 2 ^ w) with (z mod 2 ^ w) by lia. by rewrite Zmod_mod.
  - by rewrite Z.sub_0_r, Zmod_mod.
Qed.

Lemma combined_bit i ms : ∀ acc, 0 <= i < 32 → 
  Z.testbit acc i = true ∨ Exists (λ m, Z.testbit m i = true) ms →
  Z.testbit (foldl (λ acc mask, s32 (acc .| mask)) acc ms) i = true.
Proof.
  induction ms as [|m ms IH]; intros acc Hi [H|H]; simpl; [done|by inversion H| |].
  all: apply IH; [done|]; rewrite swrap_testbit_low, Z.lor_spec by done.
  - left. by rewrite H.
  - apply Exists_cons in H as [-> |H]; [left; apply orb_true_r|by right].
Qed.

Lemma granularity_bit r : range_ok r → interleaved r = true → ∃ p, 0 <= p < 31 ∧
  granularity r = Ok (2 ^ p) ∧ ∀ i, 0 <= i < p → Z.testbit (combined_mask r) i = false.
Proof.
  intros ((_ & Hm & _) & _) Hi. unfold granularity. rewrite Hi.
  destruct (masks r) as [|m ms] eqn:Hms; [by unfold interleaved in Hi; rewrite Hms in Hi|].
  apply Forall_cons in Hm as [[Hm Hc] _].
  destruct (ctz64_lowest m Hm) as (Hp & Hb & _).
  assert (Z.testbit (combined_mask r) (ctz64 m) = true) as Hcb.
  { unfold combined_mask. rewrite Hms. apply combined_bit; [lia|]. right. by left. }
  set (c := u64 (combined_mask r)).
  assert (∀ i, 0 <= i < 64 → Z.testbit c i = Z.testbit (combined_mask r) i) as Hcw.
  { intros i Hii. unfold c. rewrite testbit_wrap by lia. by replace (i <? 64) with true by lia. }
  assert (0 <= c < 2 ^ 64) as Hcf by (by apply wrap_fits).
  rewrite <-(Hcw (ctz64 m)) in Hcb by lia.
  assert (c ≠ 0) as Hc0 by (intros H0; rewrite H0, Z.testbit_0_l in Hcb; done).
  destruct (ctz64_lowest c ltac:(lia)) as (Hp' & Hb' & Hlow).
  assert (ctz64 c <= ctz64 m).
  { destruct (Z.le_gt_cases (ctz64 c) (ctz64 m)); [done|]. by rewrite Hlow in Hcb by lia. }
  exists (ctz64 c). split; [lia|]. rewrite (wrap_small 8) by (unfold fits; lia).
  replace (ctz64 c <? 64) with true by lia. split.
  - rewrite Z.shiftl_1_l, wrap_small; [done|]. split; [apply Z.pow_nonneg; lia|].
    apply Z.pow_lt_mono_r; lia.
  - intros i Hii. rewrite <-Hcw by lia. by apply Hlow.
Qed.

Lemma granularity_pos r : range_ok r → interleaved r = true → ∃ g, granularity r = Ok g ∧ 1 <= g.
Proof.
  intros Hr Hi. destruct (granularity_bit r Hr Hi) as (p & Hp & Hg & _).
  exists (2 ^ p). split; [done|]. pose proof (pow2_pos p). lia.
Qed.

Lemma key_plain r : key_ok r → interleaved r = false → plain r.
Proof.
  intros [(_ & _ & _ & Hm) [Hlt _]] Hi. pose proof (interleaved_false r Hi) as Hn.
  rewrite Hn in Hm. unfold fits in Hm. simpl in Hm. split; [done|]. lia.
Qed.

Lemma range_key_ok s e : 0 <= s < e → e < 2 ^ 64 → key_ok (range s e).
Proof.
  intros Hs He. split; [|by simpl; split; [lia|]]. unfold range_ok, range, fits. simpl.
  split; [|by change (Z.of_nat 0) with 0; lia].
  split; [simpl; lia|]. split; [constructor|]. by intros i j mi mj [=].
Qed.

Lemma isSubset_point a k : key_ok k → 0 <= a < MaxAddr →
  isSubset (RangeSize a 1) k = Ok (contains k a).
Proof.
  intros Hk Ha. unfold isSubset, RangeSize, range.
  change (interleaved (mkRange _ _ [] _)) with false. cbn [_start _end].
  unfold MaxAddr in Ha. rewrite (wrap_small 64 (a + 1)) by (unfold fits; lia).
  replace (a + 1 - 1) with a by lia. rewrite (wrap_small 64 a) by (unfold fits; lia).
  destruct (interleaved k) eqn:Hi.
  - rewrite andb_diag. destruct (contains k a) eqn:Hc; [|done].
    destruct (granularity_pos k (proj1 Hk) Hi) as (g & -> & Hg). simpl. f_equal.
    unfold size. cbn [_start _end masks length]. rewrite (wrap_small 64) by (unfold fits; lia).
    rewrite Z.shiftr_0_r. lia.
  - pose proof (key_plain k Hk Hi) as Hp. destruct Hk as (_ & Hlt & _).
    replace (a + 1 <=? a) with false by lia. replace (_end k <=? _start k) with false by lia.
    f_equal. apply eq_true_iff_eq. rewrite (plain_contains k a Hp), andb_true_iff. lia.
Qed.

(** ** Inclusion *)

Lemma separate_disjoint x y a : separate x y → contains x a = true → contains y a = true → False.
Proof.
  rewrite !contains_spec. intros [?|[?|(Hm & _ & Hne)]] [??] [??]; [lia..|].
  apply mergesWith_spec in Hm as (_ & _ & Hm). rewrite Hm in *. congruence.
Qed.

(** Addresses of one granule are told apart by no mask. *)
Lemma sel_granule ms p a b : 0 <= p → Forall (λ m, ∀ i, 0 <= i < p → Z.testbit m i = false) ms →
  a .>> p = b .>> p → sel ms a = sel ms b.
Proof.
  intros Hp Hm Heq. apply Z.bits_inj'. intros i Hi. rewrite !sel_bit by done.
  destruct (ms !! Z.to_nat i) as [m|] eqn:Hl; [|done]. do 2 f_equal.
  rewrite Forall_forall in Hm. pose proof (Hm m ltac:(by eapply list_elem_of_lookup_2)) as Hb.
  apply Z.bits_inj'. intros j Hj. rewrite !Z.land_spec.
  destruct (Z.lt_ge_cases j p); [by rewrite Hb, !andb_false_r by done|]. f_equal.
  pose proof (f_equal (λ z, Z.testbit z (j - p)) Heq) as Hbit. cbv beta in Hbit.
  rewrite !Z.shiftr_spec in Hbit by lia. by replace (j - p + p) with j in Hbit by lia.
Qed.

Lemma granularity_spec r : range_ok r → interleaved r = true → ∃ p, 0 <= p ∧
  granularity r = Ok (2 ^ p) ∧ Forall (λ m, ∀ i, 0 <= i < p → Z.testbit m i = false) (masks r).
Proof.
  intros Hr Hi. destruct (granularity_bit r Hr Hi) as (p & Hp & Hg & Hlow). exists p.
  split; [lia|]. split; [done|]. apply Forall_forall. intros m Hm i Hip.
  apply not_true_iff_false. intros Hb.
  pose proof (combined_bit i (masks r) 0 ltac:(lia)) as Hc.
  unfold combined_mask in Hlow. rewrite Hlow in Hc by done.
  discriminate Hc. right. apply Exists_exists. by exists m.
Qed.

Lemma isSubset_defined r k : key_ok k → interleaved r = false → ∃ b, isSubset r k = Ok b.
Proof.
  intros Hk Hr. unfold isSubset. rewrite Hr. destruct (interleaved k) eqn:Hi.
  - destruct (granularity_spec k (proj1 Hk) Hi) as (p & _ & -> & _). case_match; by eexists.
  - repeat case_match; by eexists.
Qed.

Lemma isSubset_sound r k a : plain r → key_ok k → 0 <= _start r → _start r < _end r < 2 ^ 64 →
  isSubset r k = Ok true → contains r a = true → contains k a = true.
Proof.
  intros Hr Hk H0 Hlt. unfold isSubset. rewrite (plain_interleaved r Hr), (plain_contains r a Hr).
  replace (_end r <=? _start r) with false by lia. intros Hs Ha.
  destruct (interleaved k) eqn:Hi.
  - destruct (granularity_spec k (proj1 Hk) Hi) as (p & Hp & Hg & Hlow). rewrite Hg in Hs.
    rewrite (wrap_small 64) in Hs by (unfold fits; lia).
    destruct (contains k (_start r)) eqn:H1, (contains k (_end r - 1)) eqn:H2; simpl in Hs; try done.
    destruct Hr as (Hrm & _). unfold size in Hs. rewrite Hrm in Hs. simpl in Hs.
    rewrite (wrap_small 64), Z.shiftr_0_r in Hs by (unfold fits; lia).
    injection Hs as Hs. apply Z.leb_le in Hs. apply contains_spec in H1 as [? H1], H2 as [? H2].
    apply contains_spec. split; [lia|]. pose proof (pow2_pos p Hp).
    assert (a .>> p = _start r .>> p ∨ a .>> p = (_end r - 1) .>> p) as [Heq|Heq].
    { rewrite !Z.shiftr_div_pow2 by done.
      pose proof (Z.div_le_mono (_start r) a (2 ^ p)). pose proof (Z.div_le_mono a (_end r - 1) (2 ^ p)).
      pose proof (Z.div_le_mono (_end r - 1) (_start r + 1 * 2 ^ p) (2 ^ p)) as Hd.
      rewrite Z.div_add in Hd by lia. lia. }
    + by rewrite (sel_granule _ p a _ Hp Hlow Heq).
    + by rewrite (sel_granule _ p a _ Hp Hlow Heq).
  - pose proof (key_plain k Hk Hi) as Hpk. rewrite (plain_contains k a Hpk).
    destruct Hk as (_ & ? & _). replace (_end k <=? _start k) with false in Hs by lia.
    injection Hs as Hs. apply andb_true_iff in Hs. lia.
Qed.

(** ** Searching the map *)

Section Search.
Context {V : Type} (max : Z).
Implicit Types (m : AddrRangeMap V) (l : list (AddrRange * V)).

Definition keys (m : AddrRangeMap V) : list AddrRange := (tree m).*1.

Definition ordered (x y : AddrRange) : Prop := range_lt x y = true.

Record map_inv (m : AddrRangeMap V) : Prop := {
  mi_ok : Forall key_ok (keys m);
  mi_sorted : StronglySorted ordered (keys m);
  mi_separate : ∀ x y, x ∈ keys m → y ∈ keys m → x ≠ y → separate x y;
  mi_cache : ∀ k, k ∈ cache m → k ∈ keys m
}.

(** What a search over a condition that is [P] on the keys returns. *)
Definition found (P : AddrRange → bool) (ks : list AddrRange) (it : iterator) : Prop :=
  match it with
  | Some k => k ∈ ks ∧ P k = true
  | None => ∀ k, k ∈ ks → P k = false
  end.

Lemma find_cache_spec cond (P : AddrRange → bool) c : ∀ pre,
  (∀ k, k ∈ c → cond k = Ok (P k)) →
  find_cache cond pre c = Ok None ∨
  ∃ it c', find_cache cond pre c = Ok (Some (it, c')) ∧ it ∈ c ∧ P it = true ∧ c' ≡ₚ pre ++ c.
Proof.
  induction c as [|it c IH]; intros pre Hc; simpl; [by left|].
  rewrite Hc by left. simpl. destruct (P it) eqn:HP.
  - right. eexists _, _. split; [reflexivity|]. split; [left|]. split; [done|].
    rewrite reverse_Permutation. by rewrite Permutation_middle.
  - destruct (IH (it :: pre)) as [H|(k & c' & H & Hk & HPk & Hp)]; [by intros; apply Hc; right|by left|].
    right. exists k, c'. split; [done|]. split; [by right|]. split; [done|].
    rewrite Hp. simpl. by rewrite Permutation_middle.
Qed.

(** Going back, a neighbour that does not merge ends before the start that is searched. *)
Lemma before_break i n k : key_ok i → key_ok n → key_ok k →
  range_lt n i = true → (k = n ∨ range_lt k n = true) → k ≠ i → mergesWith n i = false →
  (n ≠ i → separate n i) → separate k i → _end k <= _start i.
Proof.
  intros Hi Hn Hk Hni Hkn Hne Hm Hsn [H|[H|(Hmk & _)]]; [done| |].
  - destruct Hi as (_ & ? & _), Hk as (_ & ? & _), Hn as (_ & ? & _).
    pose proof (range_lt_start n i Hni). destruct Hkn as [-> |Hkn]; [lia|].
    pose proof (range_lt_start k n Hkn). lia.
  - exfalso. assert (_start n = _start i) as Hs.
    { apply range_lt_start in Hni. apply mergesWith_spec in Hmk as (Hki & _).
      destruct Hkn as [-> |Hkn]; [lia|]. apply range_lt_start in Hkn. lia. }
    destruct Hi as (_ & ? & _), Hn as (_ & ? & _).
    destruct Hsn as [?|[?|(Hm' & _)]]; [intros ->; by rewrite range_lt_irrefl in Hni|lia|lia|].
    by rewrite Hm' in Hm.
Qed.

Lemma find_back_spec cond (P : AddrRange → bool) L l : ∀ i,
  (∀ k, k ∈ i :: l.*1 → key_ok k ∧ cond k = Ok (P k) ∧ (P k = true → L < _end k)) →
  (∀ x y, x ∈ i :: l.*1 → y ∈ i :: l.*1 → x ≠ y → separate x y) →
  StronglySorted (flip ordered) (i :: l.*1) → _start i <= L →
  ∃ it, find_back cond i l = Ok it ∧ found P (i :: l.*1) it.
Proof.
  induction l as [|n l IH]; intros i Hk Hsep Hs HL; cbn [find_back];
    destruct (Hk i ltac:(left)) as (Hi & -> & _); simpl; destruct (P i) eqn:HP;
    try (by eexists; split; [reflexivity|]; split; [left|]).
  - eexists. split; [reflexivity|]. intros k Hin. simpl in Hin. by apply list_elem_of_singleton in Hin as ->.
  - apply StronglySorted_cons in Hs as [Hlt Hs]. cbn [fmap list_fmap] in *.
    rewrite Forall_forall in Hlt. pose proof (Hlt n.1 ltac:(left)) as Hni. unfold ordered in Hni. simpl in Hni.
    destruct (mergesWith n.1 i) eqn:Hm.
    + destruct (IH n.1) as (it & -> & Hf); [intros; by apply Hk; right|
        intros x y ??; by apply Hsep; right|done|by apply range_lt_start in Hni; lia|].
      eexists. split; [reflexivity|]. destruct it as [k|]; simpl in *.
      * destruct Hf. split; [by right|done].
      * intros k [-> |Hin]%elem_of_cons; [done|by apply Hf].
    + eexists. split; [reflexivity|]. intros k [-> |Hin]%elem_of_cons; [done|].
      destruct (Hk k ltac:(by right)) as (Hkk & _ & HkP).
      destruct (P k); [|done]. specialize (HkP eq_refl).
      assert (range_lt k i = true) as Hki by (by apply Hlt).
      assert (k ≠ i) as Hne by (intros ->; by rewrite range_lt_irrefl in Hki).
      apply StronglySorted_cons in Hs as [Hln _]. rewrite Forall_forall in Hln.
      enough (_end k <= _start i) by lia. eapply (before_break i n.1 k); try done.
      * apply Hk. right. left.
      * apply elem_of_cons in Hin as [-> |Hin]; [by left|right; by apply Hln].
      * intros. apply Hsep; [right; left|left|done].
      * apply Hsep; [by right|left|done].
Qed.

Lemma upper_bound_spec r l : ∀ b before after, upper_bound r b l = (before, after) →
  reverse b ++ l = reverse before ++ after ∧
  (Forall (λ x, range_lt r x.1 = false) b → Forall (λ x, range_lt r x.1 = false) before) ∧
  match after with [] => True | n :: _ => range_lt r n.1 = true end.
Proof.
  induction l as [|x l IH]; intros b before after H; simpl in H; [by simplify_eq|].
  destruct (range_lt r x.1) eqn:Hlt; [by simplify_eq|].
  destruct (IH _ _ _ H) as (Heq & Hb & Ha). split; [|split; [|done]].
  - rewrite <-Heq, reverse_cons, <-app_assoc. done.
  - intros Hf. apply Hb. by constructor.
Qed.

Lemma StronglySorted_reverse {A} (R : relation A) (l : list A) : StronglySorted R l →
  StronglySorted (flip R) (reverse l).
Proof.
  induction 1 as [|x l Hs IH Hf]; [constructor|]. rewrite reverse_cons.
  apply StronglySorted_app_2; [|done|repeat constructor]. intros y z Hy Hz.
  apply list_elem_of_singleton in Hz as ->. rewrite elem_of_reverse in Hy.
  rewrite Forall_forall in Hf. by apply Hf.
Qed.

Lemma addNewEntryToCache_elem it c k : k ∈ addNewEntryToCache max it c → k = it ∨ k ∈ c.
Proof.
  assert (∀ x, x ∈ removelast c → x ∈ c) as Hr.
  { clear. induction c as [|y [|z c] IH]; intros x Hx; [done|by apply elem_of_nil in Hx|].
    change (x ∈ y :: removelast (z :: c)) in Hx. apply elem_of_cons in Hx as [-> |Hx]; [left|].
    right. by apply IH. }
  unfold addNewEntryToCache. repeat case_match; intros Hk; try by right.
  - apply elem_of_cons in Hk as [?|?]; auto.
  - apply elem_of_app in Hk as [?|?%list_elem_of_singleton]; auto.
  - apply elem_of_cons in Hk as [?|?]; auto.
Qed.

Lemma map_inv_add m k : map_inv m → k ∈ keys m →
  map_inv (mkMap (tree m) (addNewEntryToCache max k (cache m))).
Proof.
  intros [Hok Hso Hsep Hca] Hk. split; [done..|]. simpl.
  intros k' [-> |?]%addNewEntryToCache_elem; [done|by apply Hca].
Qed.

(** From the upper bound on it is enough to test the first element. *)
Lemma after_spec cond (P : AddrRange → bool) after :
  (∀ k, k ∈ after.*1 → cond k = Ok (P k)) → StronglySorted ordered after.*1 →
  (∀ n k, head after = Some n → k ∈ after.*1 → range_lt n.1 k = true → P k = true → P n.1 = true) →
  (∃ n l, after = n :: l ∧ P n.1 = true) ∨
  (match after with [] => Ok false | next :: _ => cond next.1 end = Ok false ∧
   ∀ k, k ∈ after.*1 → P k = false).
Proof.
  intros Hc Hs HB. destruct after as [|n l]; [right; split; [done|by intros ? ?%elem_of_nil]|].
  destruct (P n.1) eqn:HPn; [left; eauto|right]. simpl in *. split.
  { rewrite Hc by left. by rewrite HPn. }
  intros k [-> |Hk]%elem_of_cons; [done|]. apply not_true_iff_false. intros HPk.
  apply StronglySorted_cons in Hs as [Hf _]. rewrite Forall_forall in Hf.
  rewrite (HB n k) in HPn; [done|done|by right|by apply Hf|done].
Qed.

Lemma find_spec r cond (P : AddrRange → bool) m : map_inv m →
  (∀ k, k ∈ keys m → cond k = Ok (P k)) →
  (∀ k, k ∈ keys m → P k = true → _start r < _end k) →
  (∀ n k, n ∈ keys m → k ∈ keys m → range_lt r n = true → range_lt n k = true →
     P k = true → P n = true) →
  ∃ it m', find max r cond m = Ok (it, m') ∧ tree m' = tree m ∧ map_inv m' ∧ found P (keys m) it.
Proof.
  intros Hm Hcond HA HB. destruct Hm as [Hok Hso Hsep Hca] eqn:Hm'. clear Hm'. unfold find.
  destruct (find_cache_spec cond P (cache m) []) as [->|(it & c' & -> & Hit & HP & Hp)].
  { intros k Hk. apply Hcond. by apply Hca. }
  2: { simpl. eexists _, _. split; [reflexivity|]. split; [done|]. split.
    - split; [done..|]. simpl. intros k Hk. rewrite Hp in Hk. by apply Hca.
    - split; [by apply Hca|done]. }
  simpl. destruct (upper_bound r [] (tree m)) as [before after] eqn:Hu.
  destruct (upper_bound_spec _ _ _ _ _ Hu) as (Heq & Hb & Ha). simpl in Heq.
  specialize (Hb (Forall_nil_2 _)).
  assert (keys m = reverse before.*1 ++ after.*1) as Hkeys.
  { unfold keys. by rewrite Heq, fmap_app, fmap_reverse. }
  assert (∀ k, k ∈ keys m ↔ k ∈ before.*1 ∨ k ∈ after.*1) as Hin.
  { intros k. by rewrite Hkeys, elem_of_app, elem_of_reverse. }
  rewrite Hkeys in Hso. pose proof (StronglySorted_app_1_r _ _ _ Hso) as Hs2.
  pose proof (StronglySorted_reverse _ _ (StronglySorted_app_1_l _ _ _ Hso)) as Hs1.
  rewrite reverse_involutive in Hs1.
  destruct (after_spec cond P after) as [(n & l & -> & HPn)|[-> Hnone]].
  { intros k Hk. apply Hcond, Hin. by right. }
  { done. }
  { intros n k Hn Hk. destruct after as [|n' l]; [done|]. simplify_eq/=.
    apply HB; [apply Hin; right; left|apply Hin; by right|done]. }
  { assert (n.1 ∈ keys m) by (apply Hin; right; left). rewrite Hcond, HPn by done. simpl.
    eexists _, _. split; [reflexivity|]. split; [done|]. split; [by apply map_inv_add|done]. }
  simpl. destruct before as [|i l].
  { assert (found P (keys m) None) by (intros k [[]%elem_of_nil|?]%Hin; by apply Hnone).
    destruct after; by eexists _, _. }
  destruct (find_back_spec cond P (_start r) l i.1) as (it & -> & Hf).
  - intros k Hk. assert (k ∈ keys m) by (apply Hin; by left). rewrite Forall_forall in Hok. auto.
  - intros x y Hx Hy. apply Hsep; apply Hin; by left.
  - done.
  - apply Forall_cons in Hb as [Hb _]. by apply range_nlt_start.
  - assert (found P (keys m) it ∧ ∀ k, it = Some k → k ∈ keys m) as [Hfo Hk].
    { destruct it as [k|]; simpl in *.
      - destruct Hf. split; [split; [apply Hin; by left|done]|]. intros ? [= <-]. apply Hin. by left.
      - split; [|done]. intros k [?|?]%Hin; [by apply Hf|by apply Hnone]. }
    simpl. destruct it as [k|], after; eexists _, _; (split; [reflexivity|]); (split; [done|]);
      (split; [|done]); try done; apply map_inv_add; auto.
Qed.

(** On a map whose keys are disjoint ranges or stripes of one interleaving, looking
    up a range succeeds, leaves the map's entries and invariant alone, and returns the
    one entry the range is a subset of, [end()] when there is none, whatever iterators
    the cache holds; every address of the range is then in that entry's range and in no
    other; and a single address is found exactly in the entry that contains it. *)
Lemma contains_range_spec r m :
  map_inv m → plain r → 0 <= _start r → _start r < _end r < 2 ^ 64 →
  ∃ it m', contains_range max r m = Ok (it, m') ∧ tree m' = tree m ∧ map_inv m' ∧
    (∀ k, it = Some k ↔ k ∈ keys m ∧ isSubset r k = Ok true) ∧
    (∀ k a, it = Some k → contains r a = true →
       contains k a = true ∧ ∀ k', k' ∈ keys m → contains k' a = true → k' = k) ∧
    (_end r = _start r + 1 →
       ∀ k, it = Some k ↔ k ∈ keys m ∧ contains k (_start r) = true).
Proof.
  intros Hm Hr H0 Hlt. set (P k := match isSubset r k with Ok b => b | Err _ => false end).
  pose proof (mi_ok m Hm) as Hok. rewrite Forall_forall in Hok.
  assert (∀ k, k ∈ keys m → isSubset r k = Ok (P k)) as HP.
  { intros k Hk. unfold P. destruct (isSubset_defined r k) as (b & ->); auto using plain_interleaved. }
  assert (∀ k a, k ∈ keys m → P k = true → contains r a = true → contains k a = true) as Hsound.
  { intros k a Hk HPk. apply isSubset_sound; auto. by rewrite HP, HPk. }
  assert (contains r (_start r) = true) as Hst by (apply plain_contains; [done|lia]).
  assert (∀ k, k ∈ keys m → P k = true → _start k <= _start r < _end k) as Hbnd.
  { intros k Hk HPk. by apply Hsound with (a := _start r), contains_spec in HPk as [? _]. }
  assert (∀ x y, x ∈ keys m → y ∈ keys m → ∀ a, contains x a = true → contains y a = true → x = y) as Huniq.
  { intros x y Hx Hy a Hxa Hya. destruct (decide (x = y)); [done|exfalso].
    eapply separate_disjoint; [by apply (mi_separate m Hm x y)|done..]. }
  destruct (find_spec r (isSubset r) P m Hm HP) as (it & m' & Hf & Ht & Hm' & Hfo).
  { intros k Hk HPk. pose proof (Hbnd k Hk HPk). lia. }
  { intros n k Hn Hk Hrn Hnk HPk. pose proof (Hbnd k Hk HPk). apply range_lt_start in Hnk.
    unfold range_lt in Hrn. rewrite (plain_interleaved r Hr) in Hrn.
    destruct (Z.eqb_spec (_start r) (_start n)); simpl in Hrn; [done|lia]. }
  assert (∀ k, it = Some k ↔ k ∈ keys m ∧ P k = true) as Hiff.
  { intros k. split; [by intros ->|]. intros [Hk HPk]. destruct it as [k'|].
    - destruct Hfo as [Hk' HPk']. f_equal. apply (Huniq k' k Hk' Hk (_start r)); by apply Hsound.
    - by rewrite (Hfo k Hk) in HPk. }
  exists it, m'. split; [done|]. split; [done|]. split; [done|]. split; [|split].
  - intros k. rewrite Hiff. split; intros [Hk HPk]; (split; [done|]).
    + by rewrite HP, HPk.
    + rewrite (HP k Hk) in HPk. by injection HPk.
  - intros k a [Hk HPk]%Hiff Ha. split; [by apply Hsound|]. intros k' Hk' Ha'.
    apply (Huniq k' k Hk' Hk a); [done|by apply Hsound].
  - intros He k. rewrite Hiff.
    enough (k ∈ keys m → P k = contains k (_start r)) as HPc
      by (split; intros [Hk ?]; (split; [done|]); [by rewrite <-HPc|by rewrite HPc]).
    intros Hk.
    enough (isSubset r k = Ok (contains k (_start r))) as Heq.
    { rewrite HP in Heq by done. by injection Heq. }
    replace r with (RangeSize (_start r) 1) at 1; [apply isSubset_point; [auto|unfold MaxAddr; lia]|].
    unfold RangeSize, range. rewrite <-He, wrap_small by (unfold fits; lia).
    destruct Hr as (? & ? & _), r; simpl in *; congruence.
Qed.

(** ** Insertion and removal *)

(** The intersection of two keys is defined: they are apart, or both contiguous, or
    stripes of one interleaving. *)
Definition compatible (r k : AddrRange) : Prop :=
  _end k <= _start r ∨ _end r <= _start k ∨
  (interleaved r = false ∧ interleaved k = false) ∨
  (mergesWith r k = true ∧ interleaved r = true).

Definition overlap (r k : AddrRange) : bool :=
  (_start k <? _end r) && (_start r <? _end k) &&
  (negb (interleaved r) || (intlvMatch r =? intlvMatch k)).

Lemma intersects_compatible r k : key_ok k → compatible r k → intersects r k = Ok (overlap r k).
Proof.
  intros (_ & _ & Hsz) Hc. unfold intersects, overlap.
  destruct (Z.leb_spec (_end k) (_start r)), (Z.leb_spec (_end r) (_start k));
    try (f_equal; simpl; symmetry; apply not_true_iff_false; rewrite !andb_true_iff; lia).
  destruct Hc as [?|[?|[[-> ->]|[Hm Hi]]]]; [lia|lia|simpl; f_equal; lia|].
  rewrite Hm, Hi, (mergesWith_interleaved r k Hm), Hi. simpl.
  pose proof Hm as (Hs & He & _)%mergesWith_spec.
  rewrite (proj2 (Z.eqb_neq _ _)) by (apply Hsz; by rewrite (mergesWith_interleaved r k Hm)).
  f_equal. rewrite Hs, He in *. replace (_start r <? _end r) with true by lia. done.
Qed.

Lemma no_overlap_separate r k : compatible r k → overlap r k = false → separate r k.
Proof.
  unfold overlap, separate. intros [?|[?|[[Hr Hk]|[Hm Hi]]]]; [by right; left|by left| |].
  - rewrite Hr. simpl. rewrite andb_true_r, andb_false_iff. lia.
  - rewrite Hi, Hm. simpl. rewrite !andb_false_iff. intros H. destruct H as [[?|?]|?]; [lia..|].
    right; right. split; [done|]. split; [done|lia].
Qed.

Lemma separate_ordered r k : _start r < _end r → _start k < _end k → separate r k →
  range_lt r k = false → range_lt k r = true.
Proof.
  intros Hr Hk Hs. unfold range_lt. rewrite (Z.eqb_sym (_start k)).
  destruct (Z.eqb_spec (_start r) (_start k)); simpl; [|lia].
  destruct Hs as [?|[?|(Hm & Hi & ?)]]; [lia..|].
  rewrite Hi, (mergesWith_interleaved _ _ Hm), Hi. simpl. lia.
Qed.

Lemma tree_insert_spec r d (l : list (AddrRange * V)) : StronglySorted ordered l.*1 →
  (∀ k, k ∈ l.*1 → range_lt r k = true ∨ range_lt k r = true) →
  ∃ l', tree_insert r d l = (r, l') ∧ l' ≡ₚ (r, d) :: l ∧ StronglySorted ordered l'.*1.
Proof.
  induction l as [|x l IH]; intros Hs Hr; simpl.
  { eexists. split; [reflexivity|]. split; [done|]. repeat constructor. }
  apply StronglySorted_cons in Hs as [Hx Hs]. simpl in Hr.
  destruct (range_lt r x.1) eqn:Hrx.
  { eexists. split; [reflexivity|]. split; [done|]. simpl. apply SSorted_cons; [by apply SSorted_cons|].
    constructor; [done|]. eapply Forall_impl; [exact Hx|]. intros k Hk. by eapply range_lt_trans. }
  destruct (Hr x.1 ltac:(left)) as [Hrx'|Hxr]; [by rewrite Hrx in Hrx'|]. rewrite Hxr.
  destruct IH as (l' & -> & Hp & Hs'); [done|intros; apply Hr; by right|].
  eexists. split; [reflexivity|]. split.
  - rewrite Hp. by constructor.
  - simpl. apply SSorted_cons; [done|]. rewrite Hp. simpl. by constructor.
Qed.

Lemma separate_no_overlap r k : separate r k → overlap r k = false.
Proof.
  unfold overlap. intros [?|[?|(Hm & Hi & Hne)]].
  - replace (_start k <? _end r) with false by lia. done.
  - replace (_start r <? _end k) with false by lia. by rewrite andb_false_r.
  - rewrite Hi. rewrite (proj2 (Z.eqb_neq _ _) Hne). by rewrite andb_false_r.
Qed.

Lemma intersects_range_spec r m : map_inv m → (∀ k, k ∈ keys m → compatible r k) →
  ∃ it m', intersects_range max r m = Ok (it, m') ∧ tree m' = tree m ∧ map_inv m' ∧
    found (overlap r) (keys m) it.
Proof.
  intros Hm Hc. pose proof (mi_ok m Hm) as Hok. rewrite Forall_forall in Hok.
  apply find_spec; [done|intros; apply intersects_compatible; auto|..].
  { intros k _. unfold overlap. rewrite !andb_true_iff. lia. }
  intros n k Hn Hk Hrn Hnk. unfold overlap. rewrite !andb_true_iff.
  pose proof (range_lt_start _ _ Hrn). pose proof (range_lt_start _ _ Hnk).
  pose proof (Hok n Hn) as (_ & ? & _). pose proof (Hok k Hk) as (_ & ? & _).
  intros [[? ?] Hi]. split; [lia|]. destruct (interleaved r) eqn:Hir; simpl in *; [|done].
  destruct (Hc n Hn) as [?|[?|[[Hi' _]|[Hmn _]]]]; [lia..|by rewrite Hir in Hi'|].
  destruct (Hc k Hk) as [?|[?|[[Hi' _]|[Hmk _]]]]; [lia..|by rewrite Hir in Hi'|].
  pose proof (mergesWith_interleaved _ _ Hmn) as Hin. pose proof (mergesWith_interleaved _ _ Hmk) as Hik.
  apply mergesWith_spec in Hmn as (Hsn & _), Hmk as (Hsk & _). unfold range_lt in Hrn, Hnk.
  rewrite Hsn, Hsk, Z.eqb_refl, Hin, Hik, Hir in *. simpl in *. lia.
Qed.

(** Inserting a range into a map whose keys it is apart from, or merges with, or that
    are contiguous like it, fails exactly when it overlaps a key; the map is then
    unchanged, and otherwise it has the new entry besides the old ones; in both cases
    its keys stay disjoint, ordered and well-formed. *)
Lemma insert_spec r d m : map_inv m → key_ok r → (∀ k, k ∈ keys m → compatible r k) →
  ∃ it m', insert max r d m = Ok (it, m') ∧ map_inv m' ∧
    ((it = None ∧ tree m' = tree m ∧ ∃ k, k ∈ keys m ∧ overlap r k = true) ∨
     (it = Some r ∧ tree m' ≡ₚ (r, d) :: tree m ∧ ∀ k, k ∈ keys m → separate r k)).
Proof.
  intros Hm Hr Hc. pose proof (mi_ok m Hm) as Hok. rewrite Forall_forall in Hok.
  destruct (intersects_range_spec r m Hm Hc) as (it & m1 & Hf & Ht & Hm1 & Hfo).
  unfold insert. rewrite Hf. simpl. destruct it as [k|].
  { exists None, m1. split; [done|]. split; [done|]. left. split; [done|]. split; [done|]. by exists k. }
  simpl in Hfo. assert (∀ k, k ∈ keys m → separate r k) as Hsep
    by (intros; apply no_overlap_separate; auto).
  destruct (tree_insert_spec r d (tree m1)) as (l' & -> & Hp & Hs'); [by apply mi_sorted| |].
  { rewrite Ht. intros k Hk. pose proof (Hok k Hk) as (_ & ? & _). destruct Hr as (_ & ? & _).
    destruct (range_lt r k) eqn:Hrk; [by left|right]. apply separate_ordered; auto. }
  rewrite Ht in Hp. assert (l'.*1 ≡ₚ r :: keys m) as Hpk by (by rewrite Hp).
  eexists _, _. split; [reflexivity|]. split.
  - split; simpl; unfold keys; simpl; [| |..].
    + rewrite Hpk. constructor; [done|]. by apply mi_ok.
    + done.
    + intros x y. rewrite Hpk. intros [-> |Hx]%elem_of_cons [-> |Hy]%elem_of_cons Hne; [done|..].
      * by apply Hsep.
      * by apply separate_sym, Hsep.
      * by apply (mi_separate m Hm).
    + intros k Hk. rewrite Hpk. right. pose proof (mi_cache m1 Hm1 k Hk) as Hk'.
      unfold keys in *. by rewrite <-Ht.
  - by right.
Qed.

Lemma erase_inv p m : map_inv m →
  map_inv (erase p m) ∧ ∀ k, k ∈ keys (erase p m) ↔ k ∈ keys m ∧ k ≠ p.
Proof.
  intros [Hok Hso Hsep Hca].
  assert (keys (erase p m) = filter (λ k, k ≠ p) (keys m)) as Hk.
  { unfold keys, erase. simpl. clear. induction (tree m) as [|x l IH]; [done|].
    rewrite fmap_cons, !filter_cons. repeat case_decide; rewrite ?fmap_cons; by rewrite IH || done. }
  assert (∀ k, k ∈ keys (erase p m) ↔ k ∈ keys m ∧ k ≠ p) as Hin.
  { intros k. rewrite Hk, list_elem_of_filter. tauto. }
  split; [|done]. split.
  - rewrite Forall_forall in *. intros k [? _]%Hin. auto.
  - rewrite Hk. clear -Hso. induction Hso as [|x l Hs IH Hf]; [constructor|].
    rewrite filter_cons. case_decide; [|done]. apply SSorted_cons; [done|].
    rewrite Forall_forall in *. intros y [_ ?]%list_elem_of_filter. auto.
  - intros x y [Hx _]%Hin [Hy _]%Hin. by apply Hsep.
  - intros k Hc. apply Hin. simpl in Hc. apply list_elem_of_filter in Hc as [? ?]. auto.
Qed.

Lemma empty_inv c : map_inv (clear c).
Proof.
  split; unfold keys; simpl; [by constructor|by constructor|..].
  - by intros ? ? ?%elem_of_nil.
  - by intros ? ?%elem_of_nil.
Qed.

End Search.

(** ** An example: two stripes and a contiguous range *)

Definition ex_stripe (m : Z) : AddrRange := mkRange 0 0x10000 [0x2080] m.
Definition ex_plain : AddrRange := range 0x10000 0x20000.
Definition ex_map : AddrRangeMap Z :=
  mkMap [(ex_stripe 0, 10); (ex_stripe 1, 11); (ex_plain, 12)] [ex_plain; ex_stripe 0].

Lemma ex_key_ok : Forall key_ok (keys ex_map ++ [range 0x30000 0x40000]).
Proof.
  assert (∀ m, fits 1 m → key_ok (ex_stripe m)) as Hst.
  { intros m Hm. split; [|split; [by simpl; lia|by vm_compute]].
    split; [|by unfold fits in *; simpl in *; lia].
    change (masks (ex_stripe m)) with (intlv_masks 7 13 1). apply intlv_masks_ok; lia. }
  change (Forall key_ok [ex_stripe 0; ex_stripe 1; ex_plain; range 0x30000 0x40000]).
  repeat first [apply Forall_cons_2 | apply Forall_nil_2];
    solve [apply Hst; by unfold fits; simpl; lia | apply range_key_ok; lia].
Qed.

Lemma ex_map_inv : map_inv ex_map.
Proof.
  pose proof ex_key_ok as [Hk _]%Forall_app. split; [done| | |].
  - repeat constructor.
  - intros x y Hx Hy. unfold keys, ex_map in Hx, Hy. cbn [fmap list_fmap tree fst] in Hx, Hy.
    set_unfold. unfold separate.
    destruct Hx as [-> |[-> |[-> |[]]]], Hy as [-> |[-> |[-> |[]]]]; intros Hne; try done;
      try (right; right; split; [reflexivity|split; [reflexivity|done]]); simpl; lia.
  - intros k Hin. unfold keys, ex_map. simpl in *. set_solver.
Qed.

Example ex_map_contains : contains_range 3 (range 0x2000 0x2040) ex_map =
  Ok (Some (ex_stripe 1), mkMap (tree ex_map) [ex_stripe 1; ex_plain; ex_stripe 0]).
Proof. vm_compute. reflexivity. Qed.

(** Erasing a range of elements leaves all but its first one in the lookup cache: the
    iterator of an element that is gone stays there, and a search starts with it. *)
Lemma erase_range_leaves_stale : ∃ m, erase_range (Some (ex_stripe 0)) None ex_map = Ok m ∧
  tree m = [] ∧ cache m = [ex_plain].
Proof. eexists. split; [vm_compute; reflexivity|done]. Qed.

End AddrRangeMapProps.
