(* ===== verification/XBarLayer.v ===== *)
(** * mem/xbar.hh, mem/xbar.cc: a layer of a crossbar

    A layer arbitrates for one destination port.  It is busy while a packet crosses it,
    remembers the ports it has turned away, in order, and the port whose packet the
    destination refused.  [sendRetry] calls out to the retried port, which may call back
    into the layer before it returns: it is a function on the layer.  The state of
    [Drainable] (sim/drain.hh) that a layer keeps is part of its record. *)

From Stdlib Require Import ZArith Lia.
From stdpp Require Import base numbers option list.
From S2P Require Import Prelude.

Module Drain.

Inductive DrainState := Running | Draining | Drained | Resuming.

#[global] Instance DrainState_eq_dec : EqDecision DrainState.
Proof. solve_decision. Defined.

(** Drainable::signalDrainDone *)
Definition signalDrainDone (d : DrainState) : DrainState :=
  match d with Draining => Drained | _ => d end.

End Drain.

Module XBarLayer.
Import Drain.

Inductive State := IDLE | BUSY | RETRY.

#[global] Instance State_eq_dec : EqDecision State.
Proof. solve_decision. Defined.

Section Layer.
Context {SrcType : Type} `{!EqDecision SrcType}.

(** [releaseEvent] is the time the event is scheduled for, if it is. *)
Record Layer := mkLayer {
  state : State;
  waitingForLayer : list SrcType;
  waitingForPeer : option SrcType;
  releaseEvent : option Z;
  occupancy : Z;
  drainState : DrainState
}.

Definition Layer_new : Layer := mkLayer IDLE [] None None 0 Running.

Definition set_state (s : State) (l : Layer) : Layer :=
  mkLayer s (waitingForLayer l) (waitingForPeer l) (releaseEvent l) (occupancy l) (drainState l).
Definition set_waiting (ws : list SrcType) (l : Layer) : Layer :=
  mkLayer (state l) ws (waitingForPeer l) (releaseEvent l) (occupancy l) (drainState l).
Definition set_peer (p : option SrcType) (l : Layer) : Layer :=
  mkLayer (state l) (waitingForLayer l) p (releaseEvent l) (occupancy l) (drainState l).
Definition set_release (t : option Z) (l : Layer) : Layer :=
  mkLayer (state l) (waitingForLayer l) (waitingForPeer l) t (occupancy l) (drainState l).
Definition set_occupancy (o : Z) (l : Layer) : Layer :=
  mkLayer (state l) (waitingForLayer l) (waitingForPeer l) (releaseEvent l) o (drainState l).
Definition set_drain (d : DrainState) (l : Layer) : Layer :=
  mkLayer (state l) (waitingForLayer l) (waitingForPeer l) (releaseEvent l) (occupancy l) d.

Definition in_state (s : State) (l : Layer) : bool := bool_decide (state l = s).
Definition no_peer (l : Layer) : bool := bool_decide (waitingForPeer l = None).

(** EventManager::schedule on the release event: the two assertions of
    [EventQueue.schedule]. *)
Definition schedule_release (now until : Z) (l : Layer) : result Layer :=
  _ ← assert_ok (now <=? until);
  _ ← assert_ok (bool_decide (releaseEvent l = None));
  Ok (set_release (Some until) l).

Definition occupyLayer (now until : Z) (l : Layer) : result Layer :=
  _ ← assert_ok (in_state BUSY l);
  _ ← assert_ok (negb (until =? 0));
  l ← schedule_release now until l;
  Ok (set_occupancy (occupancy l + (until - now)) l).

Definition tryTiming (src_port : SrcType) (l : Layer) : result (bool * Layer) :=
  if in_state BUSY l || negb (no_peer l) then
    _ ← assert_ok (bool_decide (src_port ∉ waitingForLayer l));
    Ok (false, set_waiting (waitingForLayer l ++ [src_port]) l)
  else Ok (true, set_state BUSY l).

Definition succeededTiming (now busy_time : Z) (l : Layer) : result Layer :=
  _ ← assert_ok (in_state BUSY l);
  occupyLayer now busy_time l.

Definition failedTiming (now : Z) (src_port : SrcType) (busy_time : Z) (l : Layer) : result Layer :=
  _ ← assert_ok (no_peer l);
  let l := set_peer (Some src_port) l in
  _ ← assert_ok (in_state BUSY l);
  occupyLayer now busy_time l.

(** [edge] is [xbar.clockEdge()]. *)
Definition retryWaiting (now edge : Z) (sendRetry : SrcType → Layer → result Layer) (l : Layer)
    : result Layer :=
  _ ← assert_ok (negb (bool_decide (waitingForLayer l = [])));
  _ ← assert_ok (in_state IDLE l);
  let l := set_state RETRY l in
  retryingPort ← deref (head (waitingForLayer l));
  let l := set_waiting (tail (waitingForLayer l)) l in
  l ← sendRetry retryingPort l;
  if in_state RETRY l then occupyLayer now edge (set_state BUSY l) else Ok l.

Definition releaseLayer (now edge : Z) (sendRetry : SrcType → Layer → result Layer) (l : Layer)
    : result Layer :=
  _ ← assert_ok (in_state BUSY l);
  _ ← assert_ok (bool_decide (releaseEvent l = None));
  let l := set_state IDLE l in
  if negb (bool_decide (waitingForLayer l = [])) then
    if no_peer l then retryWaiting now edge sendRetry l else Ok l
  else if no_peer l && bool_decide (drainState l = Draining) then
    Ok (set_drain (signalDrainDone (drainState l)) l)
  else Ok l.

Definition recvRetry (now edge : Z) (sendRetry : SrcType → Layer → result Layer) (l : Layer)
    : result Layer :=
  match waitingForPeer l with
  | None => Err AssertFailed
  | Some p =>
      let l := set_waiting (p :: waitingForLayer l) l in
      let l := set_peer None l in
      if in_state IDLE l then retryWaiting now edge sendRetry l
      else _ ← assert_ok (in_state BUSY l); Ok l
  end.

Definition drain (l : Layer) : DrainState := if negb (in_state IDLE l) then Draining else Drained.

(** Drainable::dmDrain *)
Definition dmDrain (l : Layer) : Layer :=
  let l := set_drain Draining l in set_drain (drain l) l.

(** The event queue services the release event: it is no longer scheduled when
    [releaseLayer] runs. *)
Definition service_release (now edge : Z) (sendRetry : SrcType → Layer → result Layer) (l : Layer)
    : result Layer :=
  releaseLayer now edge sendRetry (set_release None l).

(** What recvTimingReq and recvTimingResp of the crossbars do with a layer: the
    destination accepts the packet, or refuses it, and the layer is busy until
    [busy_time]. *)
Record delivery := mkDelivery { accepted : bool; busy_time : Z }.

Definition request (now : Z) (src_port : SrcType) (d : delivery) (l : Layer)
    : result (bool * Layer) :=
  '(ok, l) ← tryTiming src_port l;
  if (ok : bool) then
    if accepted d then l ← succeededTiming now (busy_time d) l; Ok (true, l)
    else l ← failedTiming now src_port (busy_time d) l; Ok (false, l)
  else Ok (false, l).

End Layer.
Arguments Layer : clear implicits.

End XBarLayer.
