(* ===== verification/XBarLayerProps.v ===== *)
(** * mem/xbar: a layer serves its ports in order and loses no wake-up

    The steps of a layer are the requests of ports that are not already waiting, the
    release of the layer, the retry of the destination, and the passing of time, each
    with whatever requests the retried port makes before [sendRetry] returns. *)

From Stdlib Require Import ZArith Lia.
From stdpp Require Import base numbers option list relations.
From S2P Require Import Prelude XBarLayer.

Module XBarLayerProps.
Import Drain XBarLayer.

Section Props.
Context {SrcType : Type} `{!EqDecision SrcType}.
Implicit Types (l : Layer SrcType) (p : SrcType) (ws : list SrcType).

(** The port has been turned away and not retried since. *)
Definition waiting p l : Prop := p ∈ waitingForLayer l ∨ waitingForPeer l = Some p.

Definition queue l : list SrcType := option_list (waitingForPeer l) ++ waitingForLayer l.

(** What the source ports do while a retry is sent: any requests, by ports that are
    not waiting, that occupy the layer beyond the present. *)
Inductive reacts (now : Z) : Layer SrcType → Layer SrcType → Prop :=
  | reacts_nothing l : reacts now l l
  | reacts_request l p d b l' l'' : ¬ waiting p l → now < busy_time d →
      request now p d l = Ok (b, l') → reacts now l' l'' → reacts now l l''.

(** The invariant, in each state of the layer. *)
Definition layer_inv (now : Z) l : Prop :=
  NoDup (queue l) ∧
  match state l with
  | IDLE => releaseEvent l = None ∧ (waitingForLayer l ≠ [] → is_Some (waitingForPeer l)) ∧
      (is_Some (waitingForPeer l) → 0 < now)
  | BUSY => ∃ t, releaseEvent l = Some t ∧ now <= t ∧ 0 < t
  | RETRY => releaseEvent l = None ∧ waitingForPeer l = None
  end.

(** A peer that can be retried: called by a layer for a port that is not waiting, it
    returns, having made requests. *)
Definition reacting (now : Z) (sendRetry : SrcType → Layer SrcType → result (Layer SrcType)) : Prop :=
  ∀ p l, layer_inv now l → ¬ waiting p l → ∃ l', sendRetry p l = Ok l' ∧ reacts now l l'.

(** ** Requests *)

Lemma waiting_queue p l : waiting p l ↔ p ∈ queue l.
Proof.
  unfold waiting, queue. destruct (waitingForPeer l) as [q|]; simpl; [rewrite elem_of_cons|]; naive_solver.
Qed.

Lemma in_state_true s l : in_state s l = true ↔ state l = s.
Proof. apply bool_decide_eq_true. Qed.

Lemma occupyLayer_spec now until l : state l = BUSY → releaseEvent l = None → 0 <= now < until →
  ∃ o, occupyLayer now until l = Ok (set_occupancy o (set_release (Some until) l)).
Proof.
  intros Hs Hr Hu. unfold occupyLayer, schedule_release.
  rewrite (proj2 (in_state_true BUSY l) Hs), Hr. replace (until =? 0) with false by lia.
  replace (now <=? until) with true by lia. by eexists.
Qed.

Lemma tryTiming_free p l : state l ≠ BUSY → waitingForPeer l = None →
  tryTiming p l = Ok (true, set_state BUSY l).
Proof.
  intros Hs Hp. unfold tryTiming.
  assert (in_state BUSY l = false) as -> by (apply not_true_iff_false; by rewrite in_state_true).
  assert (no_peer l = true) as -> by (by apply bool_decide_eq_true). done.
Qed.

Lemma tryTiming_queued p l : state l = BUSY ∨ waitingForPeer l ≠ None → ¬ waiting p l →
  tryTiming p l = Ok (false, set_waiting (waitingForLayer l ++ [p]) l).
Proof.
  intros Hs Hw. unfold tryTiming.
  assert (in_state BUSY l || negb (no_peer l) = true) as ->.
  { apply orb_true_iff. destruct Hs as [Hs|Hs]; [left; by apply in_state_true|right].
    apply negb_true_iff. by apply bool_decide_eq_false. }
  rewrite bool_decide_eq_true_2; [done|]. intros ?. apply Hw. by left.
Qed.

(** A request is taken when the layer is free for the port, and queued otherwise. *)
Lemma request_free now p d l : state l ≠ BUSY → waitingForPeer l = None → releaseEvent l = None →
  0 <= now < busy_time d →
  ∃ o, request now p d l = Ok (accepted d,
    mkLayer BUSY (waitingForLayer l) (if accepted d then None else Some p) (Some (busy_time d)) o (drainState l)).
Proof.
  intros Hs Hp Hr Hb. unfold request. rewrite tryTiming_free by done. simpl.
  unfold succeededTiming, failedTiming. change (no_peer (set_state BUSY l)) with (no_peer l).
  assert (no_peer l = true) as -> by (by apply bool_decide_eq_true).
  destruct (accepted d); edestruct occupyLayer_spec as (o & ->); try done; simpl;
    exists o; unfold set_occupancy, set_release, set_peer; simpl; by rewrite ?Hp.
Qed.

Lemma request_queued now p d l : state l = BUSY ∨ waitingForPeer l ≠ None → ¬ waiting p l →
  request now p d l = Ok (false, set_waiting (waitingForLayer l ++ [p]) l).
Proof.
  intros Hs Hw. unfold request. by rewrite tryTiming_queued.
Qed.

Lemma request_inv now p d l : layer_inv now l → ¬ waiting p l → 0 <= now < busy_time d →
  ∃ b l', request now p d l = Ok (b, l') ∧ layer_inv now l' ∧ state l' ≠ RETRY ∧
    (state l ≠ IDLE → state l' ≠ IDLE) ∧ (b = false → waiting p l') ∧
    waitingForLayer l `prefix_of` waitingForLayer l'.
Proof.
  intros [Hnd Hst] Hw Hb.
  assert ((state l ≠ BUSY ∧ waitingForPeer l = None ∧ releaseEvent l = None) ∨
    (state l ≠ RETRY ∧ (state l = BUSY ∨ waitingForPeer l ≠ None))) as [(H1 & H2 & H3)|[Hnr Hq]].
  { destruct (state l) eqn:Hs; [|right; split; [done|by left]|left; naive_solver].
    destruct (waitingForPeer l) eqn:Hp; [right; split; [done|by right]|left; naive_solver]. }
  - destruct (request_free now p d l H1 H2 H3 Hb) as (o & ->). eexists _, _. split; [reflexivity|].
    split; [split|].
    + unfold queue in *. simpl. rewrite H2 in Hnd. destruct (accepted d); simpl; [done|].
      constructor; [|done]. intros ?. apply Hw. by left.
    + simpl. eexists. split; [reflexivity|lia].
    + simpl. do 2 (split; [done|]). split; [intros Ha; right; by rewrite Ha|]. reflexivity.
  - rewrite request_queued by done. eexists _, _. split; [reflexivity|]. split; [split|].
    + unfold queue in *. simpl. rewrite app_assoc. apply NoDup_app. split; [done|]. split.
      * intros x Hx ->%list_elem_of_singleton. apply Hw. rewrite waiting_queue. exact Hx.
      * apply NoDup_singleton.
    + simpl. destruct (state l); [|done|done]. destruct Hst as (? & _ & ?).
      split; [done|]. split; [|done]. intros _. destruct Hq; [done|]. by apply not_eq_None_Some.
    + simpl. split; [done|]. split; [done|]. split; [|by eexists].
      intros _. left. apply elem_of_app. right. by left.
Qed.

Lemma reacts_inv now l l' : reacts now l l' → 0 <= now → layer_inv now l → state l ≠ IDLE →
  layer_inv now l' ∧ state l' ≠ IDLE ∧ waitingForLayer l `prefix_of` waitingForLayer l'.
Proof.
  induction 1 as [|l p d b l' l'' Hw Hb Hr Hrs IH]; intros Hn Hi Hs; [done|].
  destruct (request_inv now p d l Hi Hw) as (b' & l1 & Hr' & Hi1 & _ & Hs1 & _ & Hp1); [lia|].
  rewrite Hr in Hr'. simplify_eq. destruct IH as (? & ? & ?); [done|done|auto|].
  split; [done|]. split; [done|]. by etrans.
Qed.

(** ** Retries *)

(** retryWaiting retries the first port of the queue and keeps the order of the rest. *)
Lemma retryWaiting_inv now edge f l p ws : NoDup (queue l) → reacting now f → 0 < now <= edge →
  state l = IDLE → releaseEvent l = None → waitingForPeer l = None → waitingForLayer l = p :: ws →
  ∃ l1 l2 l', f p l1 = Ok l2 ∧ waitingForLayer l1 = ws ∧ state l1 = RETRY ∧
    retryWaiting now edge f l = Ok l' ∧
    layer_inv now l' ∧ state l' = BUSY ∧ ws `prefix_of` waitingForLayer l'.
Proof.
  intros Hnd Hf He Hs Hr Hp Hw. unfold queue in Hnd. rewrite Hp, Hw in Hnd. simpl in Hnd.
  apply NoDup_cons in Hnd as [Hpw Hnd].
  set (l1 := set_waiting ws (set_state RETRY l)).
  assert (layer_inv now l1) as Hi1.
  { split; [unfold queue; simpl; by rewrite Hp|done]. }
  destruct (Hf p l1 Hi1) as (l2 & Hf2 & Hre).
  { intros [?|H]; [done|]. unfold l1 in H. simpl in H. by rewrite Hp in H. }
  destruct (reacts_inv _ _ _ Hre) as ([Hnd2 Hst2] & Hs2 & Hp2); [lia|done|done|].
  assert (retryWaiting now edge f l =
    (if in_state RETRY l2 then occupyLayer now edge (set_state BUSY l2) else Ok l2)) as Heq.
  { unfold retryWaiting. rewrite (proj2 (in_state_true IDLE l) Hs).
    change (waitingForLayer (set_state RETRY l)) with (waitingForLayer l). rewrite Hw. cbn -[l1].
    change (set_waiting ws _) with l1. by rewrite Hf2. }
  exists l1, l2. destruct (in_state RETRY l2) eqn:Hr2.
  - apply in_state_true in Hr2. rewrite Hr2 in Hst2. destruct Hst2 as [Hrel2 Hpeer2].
    (* the retried port did not call the layer *)
    assert (now < edge ∨ now = edge) as Hcase by lia.
    unfold occupyLayer in Heq. simpl in Heq. replace (edge =? 0) with false in Heq by lia.
    unfold schedule_release in Heq. simpl in Heq. rewrite Hrel2 in Heq.
    replace (now <=? edge) with true in Heq by lia. simpl in Heq.
    eexists. split; [done|]. split; [done|]. split; [done|]. split; [exact Heq|].
    split; [split; [done|]|by split]. simpl. eexists. split; [reflexivity|lia].
  - exists l2. assert (state l2 = BUSY) as Hb2.
    { destruct (state l2) eqn:H2; [done|done|]. by rewrite (proj2 (in_state_true RETRY l2) H2) in Hr2. }
    do 4 (split; [done|]). split; [|by split]. by split.
Qed.

(** The layer between two calls from outside. *)
Definition settled (now : Z) l : Prop := layer_inv now l ∧ state l ≠ RETRY.

Lemma release_inv now edge f l : settled now l → reacting now f → now <= edge →
  releaseEvent l = Some now → ∃ l', service_release now edge f l = Ok l' ∧ settled now l'.
Proof.
  intros [[Hnd Hst] Hs] Hf He Hr. destruct (state l) eqn:Hsl; [by destruct Hst; congruence| |done].
  destruct Hst as (t & Hr' & Ht & Ht0). rewrite Hr in Hr'. injection Hr' as <-.
  set (l0 := set_state IDLE (set_release None l)).
  assert (service_release now edge f l =
    if negb (bool_decide (waitingForLayer l = [])) then
      if no_peer l then retryWaiting now edge f l0 else Ok l0
    else if no_peer l && bool_decide (drainState l = Draining) then
      Ok (set_drain (signalDrainDone (drainState l)) l0)
    else Ok l0) as ->.
  { unfold service_release, releaseLayer.
    by rewrite (proj2 (in_state_true BUSY (set_release None l)) Hsl). }
  assert (waitingForPeer l ≠ None ∨ waitingForLayer l = [] →
    ∀ d, settled now (set_drain d l0)) as Hidle.
  { intros Hw d. split; [|done]. split; [done|]. simpl. split; [done|]. split; [|done].
    intros ?. apply not_eq_None_Some. by destruct Hw. }
  destruct (waitingForLayer l) as [|p ws] eqn:Hw; simpl.
  { case_match; eexists; (split; [reflexivity|]); [by apply Hidle; right|].
    apply (Hidle (or_intror eq_refl) (drainState l)). }
  unfold no_peer. case_bool_decide as Hp.
  - destruct (retryWaiting_inv now edge f l0 p ws) as (l1 & l2 & l' & _ & _ & _ & Heq & Hi & Hb & _);
      try done.
    eexists. split; [exact Heq|]. split; [done|congruence].
  - eexists. split; [reflexivity|]. apply (Hidle (or_introl Hp) (drainState l)).
Qed.

Lemma recvRetry_inv now edge f l : settled now l → reacting now f → now <= edge →
  is_Some (waitingForPeer l) → ∃ l', recvRetry now edge f l = Ok l' ∧ settled now l'.
Proof.
  intros [[Hnd Hst] Hs] Hf He [p Hp]. unfold recvRetry. rewrite Hp.
  set (l0 := set_peer None (set_waiting (p :: waitingForLayer l) l)).
  assert (NoDup (queue l0)) as Hnd0 by (unfold queue in *; simpl; by rewrite Hp in Hnd).
  change (in_state ?s l0) with (in_state s l). destruct (state l) eqn:Hsl; [| |done].
  - rewrite (proj2 (in_state_true IDLE l) Hsl). destruct Hst as (Hr & _ & H0).
    destruct (retryWaiting_inv now edge f l0 p (waitingForLayer l))
      as (_ & _ & l' & _ & _ & _ & Heq & Hi & Hb & _); try done.
    { split; [apply H0; by eexists|done]. }
    eexists. split; [exact Heq|]. split; [done|congruence].
  - assert (in_state IDLE l = false) as -> by (apply not_true_iff_false; rewrite in_state_true; congruence).
    rewrite (proj2 (in_state_true BUSY l) Hsl). simpl. eexists. split; [reflexivity|].
    split; [|simpl; congruence]. split; [done|]. simpl. by rewrite Hsl.
Qed.

(** ** The layer as a transition system *)

Inductive layer_step : Z * Layer SrcType → Z * Layer SrcType → Prop :=
  | step_time now now' l : now <= now' → (∀ t, releaseEvent l = Some t → now' <= t) →
      layer_step (now, l) (now', l)
  | step_request now p d b l l' : ¬ waiting p l → now < busy_time d →
      request now p d l = Ok (b, l') → layer_step (now, l) (now, l')
  | step_release now edge f l l' : reacting now f → now <= edge → releaseEvent l = Some now →
      service_release now edge f l = Ok l' → layer_step (now, l) (now, l')
  | step_retry now edge f l l' : reacting now f → now <= edge → is_Some (waitingForPeer l) →
      recvRetry now edge f l = Ok l' → layer_step (now, l) (now, l')
  | step_drain now l : layer_step (now, l) (now, dmDrain l).

Lemma layer_step_inv s s' : layer_step s s' → 0 <= s.1 → settled s.1 s.2 →
  0 <= s'.1 ∧ settled s'.1 s'.2.
Proof.
  intros Hstep Hn Hi. destruct Hstep as [now now' l Hle Ht|now p d b l l' Hw Hb Hr|
    now edge f l l' Hf He Hrel Hr|now edge f l l' Hf He Hp Hr|now l]; simpl in *.
  - split; [lia|]. destruct Hi as [[Hnd Hst] Hs]. split; [|done]. split; [done|].
    destruct (state l); [|destruct Hst as (t & Hr & ? & ?); exists t; naive_solver|done].
    destruct Hst as (? & ? & H0). split; [done|]. split; [done|]. intros Hp. specialize (H0 Hp). lia.
  - split; [done|]. destruct (request_inv now p d l (proj1 Hi) Hw) as (b' & l1 & Hr' & ? & ? & _); [done|].
    rewrite Hr in Hr'. by simplify_eq.
  - split; [done|]. destruct (release_inv now edge f l) as (l1 & Hr' & ?); try done.
    rewrite Hr in Hr'. by simplify_eq.
  - split; [done|]. destruct (recvRetry_inv now edge f l) as (l1 & Hr' & ?); try done.
    rewrite Hr in Hr'. by simplify_eq.
  - done.
Qed.

Lemma reachable_settled now l : rtc layer_step (0, Layer_new) (now, l) → 0 <= now ∧ settled now l.
Proof.
  intros Hr. change (0 <= (now, l).1 ∧ settled (now, l).1 (now, l).2).
  revert Hr. generalize (now, l). apply rtc_ind_r; [|intros y z _ Hyz [??]; by apply (layer_step_inv y z)].
  split; [done|]. split; [|done]. split; [constructor|]. simpl. split; [done|]. split; [done|].
  by intros [? ?].
Qed.

(** In every state a layer can reach, no port waits in vain and no assertion
    fails: a waiting port has a wake-up pending, the release event at a time not yet
    past, or the retry of the destination; a request by a port that is not waiting
    returns, and a port that is refused is then waiting; and the release event and the
    destination's retry are processed, whatever the retried ports do. *)
Theorem layer_never_stuck now l : rtc layer_step (0, Layer_new) (now, l) →
  (∀ p, waiting p l →
     (∃ t, releaseEvent l = Some t ∧ now <= t) ∨ is_Some (waitingForPeer l)) ∧
  (∀ p d, ¬ waiting p l → now < busy_time d →
     ∃ b l', request now p d l = Ok (b, l') ∧ (b = false → waiting p l')) ∧
  (∀ f edge, reacting now f → now <= edge →
     (releaseEvent l = Some now → ∃ l', service_release now edge f l = Ok l') ∧
     (is_Some (waitingForPeer l) → ∃ l', recvRetry now edge f l = Ok l')).
Proof.
  intros [Hn [Hi Hs]]%reachable_settled. split; [|split].
  - intros p Hw. destruct Hi as [_ Hst]. destruct (state l); [right|left; naive_solver|done].
    destruct Hw as [Hw|Hw]; [|by eexists]. apply Hst. intros H. rewrite H in Hw. by apply elem_of_nil in Hw.
  - intros p d Hw Hd. destruct (request_inv now p d l Hi Hw) as (b & l' & Hr & _ & _ & _ & Hb & _); eauto.
  - intros f edge Hf He. split; intros Hr.
    + destruct (release_inv now edge f l) as (l' & ? & _); eauto. by split.
    + destruct (recvRetry_inv now edge f l) as (l' & ? & _); eauto. by split.
Qed.

(** The outcome of a retry of [p] ahead of the ports [ws]. *)
Definition retried (now : Z) (f : SrcType → Layer SrcType → result (Layer SrcType)) p ws
    (r : result (Layer SrcType)) : Prop :=
  ∃ l1 l2 l' t, f p l1 = Ok l2 ∧ waitingForLayer l1 = ws ∧ state l1 = RETRY ∧ r = Ok l' ∧
    ws `prefix_of` waitingForLayer l' ∧ state l' = BUSY ∧ releaseEvent l' = Some t ∧ now <= t.

(** Ports are served in the order they were turned away, the one the destination
    refused first: a release, or the destination's retry of an idle layer, calls the
    first waiting port with the layer reserved for it, the other ports keep their places
    ahead of any that come, and the layer ends busy with its release scheduled. *)
Theorem layer_retries_in_order now edge f l p ws :
  settled now l → reacting now f → 0 < now <= edge →
  (releaseEvent l = Some now → waitingForPeer l = None → waitingForLayer l = p :: ws →
     retried now f p ws (service_release now edge f l)) ∧
  (state l = IDLE → waitingForPeer l = Some p → waitingForLayer l = ws →
     retried now f p ws (recvRetry now edge f l)).
Proof.
  intros [[Hnd Hst] Hs] Hf He. split; [intros Hr Hp Hw|intros Hsl Hp Hw].
  - assert (state l = BUSY) as Hsl by (destruct (state l); naive_solver).
    destruct (retryWaiting_inv now edge f (set_state IDLE (set_release None l)) p ws)
      as (l1 & l2 & l' & Hf1 & Hw1 & Hs1 & Heq & [_ Hi] & Hb & Hpre); try done.
    rewrite Hb in Hi. destruct Hi as (t & Ht & ? & _). exists l1, l2, l', t.
    do 3 (split; [done|]). split; [|done]. rewrite <-Heq. unfold service_release, releaseLayer.
    rewrite (proj2 (in_state_true BUSY (set_release None l)) Hsl). simpl. rewrite Hw.
    change (no_peer _) with (no_peer l). unfold no_peer. by rewrite Hp.
  - rewrite Hsl in Hst. destruct Hst as (Hr & _ & _).
    destruct (retryWaiting_inv now edge f (set_peer None (set_waiting (p :: waitingForLayer l) l)) p ws)
      as (l1 & l2 & l' & Hf1 & Hw1 & Hs1 & Heq & [_ Hi] & Hb & Hpre); try done.
    { unfold queue in *. simpl. by rewrite Hp in Hnd. }
    { simpl. by rewrite Hw. }
    rewrite Hb in Hi. destruct Hi as (t & Ht & ? & _). exists l1, l2, l', t.
    do 3 (split; [done|]). split; [|done]. rewrite <-Heq. unfold recvRetry. rewrite Hp.
    change (in_state IDLE _) with (in_state IDLE l). by rewrite (proj2 (in_state_true IDLE l) Hsl).
Qed.

(** ** No port waits forever *)

(** Steps that retry nobody. *)
Inductive quiet_step : Z * Layer SrcType → Z * Layer SrcType → Prop :=
  | quiet_time now now' l : now <= now' → (∀ t, releaseEvent l = Some t → now' <= t) →
      quiet_step (now, l) (now', l)
  | quiet_request now p d b l l' : ¬ waiting p l → now < busy_time d →
      request now p d l = Ok (b, l') → quiet_step (now, l) (now, l')
  | quiet_drain now l : quiet_step (now, l) (now, dmDrain l).

(** A wake-up, with the port it retries: the release of the layer retries the first
    waiting port unless the destination owes a retry, and the retry of the destination
    retries the refused port if the layer is idle.  The destination does not refuse the
    retried port. *)
Inductive wake_up : Z * Layer SrcType → option SrcType → Z * Layer SrcType → Prop :=
  | wake_release now edge f l l' : reacting now f → now <= edge → releaseEvent l = Some now →
      service_release now edge f l = Ok l' →
      let q := if no_peer l then head (waitingForLayer l) else None in
      (is_Some q → waitingForPeer l' = None) → wake_up (now, l) q (now, l')
  | wake_retry now edge f l l' : reacting now f → now <= edge → is_Some (waitingForPeer l) →
      recvRetry now edge f l = Ok l' →
      let q := if in_state IDLE l then waitingForPeer l else None in
      (is_Some q → waitingForPeer l' = None) → wake_up (now, l) q (now, l').

(** A run with [n] wake-ups, none of which retries [p]. *)
Inductive starved p : nat → Z * Layer SrcType → Prop :=
  | starved_stop s : starved p 0 s
  | starved_quiet n s s' : quiet_step s s' → starved p n s' → starved p n s
  | starved_wake n s q s' : wake_up s q s' → q ≠ Some p → starved p n s' → starved p (S n) s.

(** Two wake-ups per port ahead: one releases the layer, one is the destination's. *)
Definition patience l (ahead : list SrcType) : nat :=
  (2 * length ahead + if in_state BUSY l && negb (no_peer l) then 1 else 0)%nat.

Lemma quiet_step_queue now l s' p : quiet_step (now, l) s' → 0 <= now → settled now l →
  waiting p l → 0 <= s'.1 ∧ settled s'.1 s'.2 ∧ queue l `prefix_of` queue s'.2 ∧
  ∀ ahead, patience s'.2 ahead = patience l ahead.
Proof.
  intros Hq Hn Hs Hw.
  assert (0 <= s'.1 ∧ settled s'.1 s'.2) as [? ?].
  { apply (layer_step_inv (now, l)); [|done..]. inversion_clear Hq; by econstructor. }
  split; [done|]. split; [done|]. inversion_clear Hq as [? ? ? ? ?|? q d b ? l' Hnw Hd Hr|]; [done| |done].
  destruct Hs as [[_ Hst] Hs]. rewrite request_queued in Hr; [| |done].
  - simplify_eq. simpl. split; [|done]. unfold queue. simpl. rewrite app_assoc. by eexists.
  - destruct (state l) eqn:Hsl; [right|by left|done]. apply not_eq_None_Some.
    destruct Hw as [Hw|Hw]; [|by eexists]. apply Hst. intros He. rewrite He in Hw. by apply elem_of_nil in Hw.
Qed.

Lemma retried_patience now edge f l p ahead post l' : NoDup (queue l) → reacting now f →
  0 < now <= edge → state l = IDLE → releaseEvent l = None → waitingForPeer l = None →
  waitingForLayer l = ahead ++ p :: post → retryWaiting now edge f l = Ok l' →
  waitingForPeer l' = None → head (waitingForLayer l) ≠ Some p →
  ∃ ahead' post', queue l' = ahead' ++ p :: post' ∧ settled now l' ∧
    S (patience l' ahead') = (2 * length ahead - 1)%nat ∧ (0 < length ahead)%nat.
Proof.
  intros Hnd Hf He Hs Hr Hp Hw Heq Hp' Hne. destruct ahead as [|q ahead]; [by rewrite Hw in Hne|].
  destruct (retryWaiting_inv now edge f l q (ahead ++ p :: post) Hnd Hf He Hs Hr Hp Hw)
    as (_ & _ & l1 & _ & _ & _ & Heq' & Hi & Hb & [k Hk]).
  rewrite Heq in Heq'. injection Heq' as <-. exists ahead, (post ++ k).
  split; [unfold queue; rewrite Hp', Hk; simpl; by rewrite <-app_assoc|].
  split; [split; [done|congruence]|]. unfold patience, no_peer. rewrite Hp'.
  rewrite bool_decide_eq_true_2, andb_false_r by done. simpl. lia.
Qed.

Lemma wake_up_patience now l q s' p ahead post : wake_up (now, l) q s' → 0 <= now → settled now l →
  queue l = ahead ++ p :: post → q ≠ Some p →
  ∃ ahead' post', queue s'.2 = ahead' ++ p :: post' ∧ 0 <= s'.1 ∧ settled s'.1 s'.2 ∧
    (S (patience s'.2 ahead') <= patience l ahead)%nat.
Proof.
  intros Hwake Hn Hset Hq Hne. pose proof Hset as [[Hnd Hst] Hs].
  inversion Hwake as [? edge f ? l' Hf He Hrel Heq q' Hacc|? edge f ? l' Hf He [r Hpeer] Heq q' Hacc];
    subst; simpl.
  - assert (state l = BUSY) as Hsl by (destruct (state l); naive_solver).
    rewrite Hsl in Hst. destruct Hst as (t & Ht & _ & Ht0). rewrite Hrel in Ht. injection Ht as <-.
    destruct (release_inv now edge f l Hset Hf He Hrel) as (l1 & Heq' & Hset').
    rewrite Heq in Heq'. injection Heq' as <-.
    unfold service_release, releaseLayer in Heq.
    rewrite (proj2 (in_state_true BUSY (set_release None l)) Hsl) in Heq. simpl in Heq.
    change (no_peer _) with (no_peer l) in Heq. subst q'.
    destruct (no_peer l) eqn:Hnp.
    + assert (waitingForPeer l = None) as Hp by (by apply bool_decide_eq_true in Hnp).
      assert (waitingForLayer l = ahead ++ p :: post) as Hw by (unfold queue in Hq; by rewrite Hp in Hq).
      rewrite bool_decide_eq_false_2 in Heq by (rewrite Hw; by destruct ahead). simpl in Heq.
      destruct (retried_patience now edge f (set_state IDLE (set_release None l)) p ahead post l')
        as (a' & p' & Hq' & _ & Hpat & Hlen); try done.
      { apply Hacc. rewrite Hw. by destruct ahead; eexists. }
      exists a', p'. split; [done|]. split; [done|]. split; [done|]. unfold patience at 2. lia.
    + exists ahead, post.
      assert (l' = set_state IDLE (set_release None l)) as ->.
      { destruct (negb _); simpl in Heq; congruence. }
      split; [done|]. split; [done|]. split; [done|]. unfold patience. simpl.
      rewrite (proj2 (in_state_true BUSY l) Hsl), Hnp. simpl. lia.
  - destruct (recvRetry_inv now edge f l Hset Hf He ltac:(by eexists)) as (l1 & Heq' & Hset').
    rewrite Heq in Heq'. injection Heq' as <-. unfold recvRetry in Heq. rewrite Hpeer in Heq.
    subst q'. set (l0 := set_peer None (set_waiting (r :: waitingForLayer l) l)) in *.
    assert (waitingForLayer l0 = ahead ++ p :: post) as Hw
      by (unfold queue in Hq; by rewrite Hpeer in Hq).
    change (in_state ?s l0) with (in_state s l) in Heq.
    destruct (in_state IDLE l) eqn:Hil.
    + apply in_state_true in Hil. rewrite Hil in Hst. destruct Hst as (Hr & _ & H0).
      destruct (retried_patience now edge f l0 p ahead post l')
        as (a' & p' & Hq' & _ & Hpat & Hlen); try done.
      { unfold queue in Hnd |- *. simpl. by rewrite Hpeer in Hnd. }
      { split; [apply H0; by eexists|done]. }
      { apply Hacc. by eexists. }
      { rewrite Hw. unfold queue in Hq. rewrite Hpeer in Hq. simpl in Hq. rewrite <-Hq. simpl.
        by rewrite <-Hpeer. }
      exists a', p'. split; [done|]. split; [done|]. split; [done|]. unfold patience at 2. lia.
    + destruct (in_state BUSY l) eqn:Hbl; [|done]. simpl in Heq. injection Heq as <-.
      exists ahead, post. split; [unfold queue; by rewrite Hw|]. split; [done|]. split; [done|].
      unfold patience. change (in_state BUSY l0) with (in_state BUSY l). rewrite Hbl.
      change (no_peer l0) with true. unfold no_peer. rewrite bool_decide_eq_false_2 by congruence.
      simpl. lia.
Qed.

(** C22: no port waits forever.  While a destination does not refuse the ports it retries,
    a port with [n] ports ahead of it is retried within [2 n + 2] wake-ups, whatever
    requests come in and however the retried ports react; and as long as it waits a
    wake-up is due. *)
Theorem layer_serves_everyone now l p ahead post n :
  0 <= now → settled now l → queue l = ahead ++ p :: post → starved p n (now, l) →
  (n <= 2 * length ahead + 1)%nat ∧
  ((∃ t, releaseEvent l = Some t ∧ now <= t) ∨ is_Some (waitingForPeer l)).
Proof.
  intros Hn Hs Hq Hst. split.
  - enough (n <= patience l ahead)%nat by (unfold patience in *; destruct (_ && _); lia).
    remember (now, l) as s eqn:Hsl. revert now l ahead post Hsl Hn Hs Hq.
    induction Hst as [s|n s s' Hqs _ IH|n s q s' Hw Hne _ IH]; intros now l ahead post -> Hn Hs Hq; [lia| |].
    + destruct (quiet_step_queue now l s' p Hqs Hn Hs) as (Hn' & Hs' & [k Hk] & Hp).
      { apply waiting_queue. rewrite Hq. apply elem_of_app. right. by left. }
      rewrite <-Hp. apply (IH s'.1 s'.2 ahead (post ++ k)); [by destruct s'|done|done|].
      by rewrite Hk, Hq, <-app_assoc.
    + destruct (wake_up_patience now l q s' p ahead post Hw Hn Hs Hq Hne) as (a' & p' & Hq' & Hn' & Hs' & Hp).
      specialize (IH s'.1 s'.2 a' p' ltac:(by destruct s') Hn' Hs' Hq'). lia.
  - destruct Hs as [[_ Hst'] Hs]. destruct (state l); [right|left; naive_solver|done].
    unfold queue in Hq. destruct (waitingForPeer l); [by eexists|]. apply Hst'.
    simpl in Hq. rewrite Hq. by destruct ahead.
Qed.

End Props.

(** ** Witnesses *)

Lemma reacting_silent {P} `{!EqDecision P} now : reacting now (λ (p : P) l, Ok l).
Proof. intros p l _ _. eexists. split; [reflexivity|]. by constructor. Qed.

(** Port 2 is turned away while the packet of port 1 crosses the layer. *)
Definition ex_layer : Layer nat := mkLayer BUSY [2%nat] None (Some 10) 10 Running.

Lemma ex_layer_reachable : rtc layer_step (0, Layer_new) (10, ex_layer).
Proof.
  eapply rtc_l. { apply (step_request 0 1%nat (mkDelivery true 10) true); [by intros [?%elem_of_nil|?]|done|reflexivity]. }
  eapply rtc_l. { apply (step_request 0 2%nat (mkDelivery true 10) false); [by intros [?%elem_of_nil|?]|done|reflexivity]. }
  eapply rtc_l; [|apply rtc_refl]. apply step_time; [done|]. intros t [= <-]. done.
Qed.

Lemma layer_never_stuck_witness :
  waiting 2%nat ex_layer ∧
  ((∃ t, releaseEvent ex_layer = Some t ∧ 10 <= t) ∨ is_Some (waitingForPeer ex_layer)) ∧
  (∃ l', service_release 10 12 (λ p l, Ok l) ex_layer = Ok l').
Proof.
  destruct (layer_never_stuck 10 ex_layer ex_layer_reachable) as (Hw & _ & Hf).
  assert (waiting 2%nat ex_layer) as H2 by (left; left). split; [done|]. split; [by apply (Hw 2%nat)|].
  apply (Hf (λ p l, Ok l) 12); [apply reacting_silent|lia|reflexivity].
Defined.

Lemma layer_retries_in_order_witness :
  retried 10 (λ p l, Ok l) 2%nat [] (service_release 10 12 (λ p l, Ok l) ex_layer).
Proof.
  apply (layer_retries_in_order 10 12 (λ p l, Ok l) ex_layer 2%nat []); try reflexivity.
  - by apply (reachable_settled 10 ex_layer ex_layer_reachable).
  - apply reacting_silent.
  - lia.
Defined.

(** Port 3 is behind port 2, which is retried first and does not answer. *)
Definition ex_queue : Layer nat := mkLayer BUSY [2%nat; 3%nat] None (Some 10) 10 Running.

Lemma layer_serves_everyone_witness :
  starved 3%nat 1 (10, ex_queue) ∧ (1 <= 2 * length [2%nat] + 1)%nat ∧
  ((∃ t, releaseEvent ex_queue = Some t ∧ 10 <= t) ∨ is_Some (waitingForPeer ex_queue)).
Proof.
  assert (starved 3%nat 1 (10, ex_queue)) as Hst.
  { eapply (starved_wake _ 0 _ (Some 2%nat)); [|done|apply starved_stop].
    apply (wake_release 10 12 (λ p l, Ok l) ex_queue (mkLayer BUSY [3%nat] None (Some 12) 12 Running));
      [apply reacting_silent|lia|reflexivity|reflexivity|done]. }
  split; [exact Hst|]. apply (layer_serves_everyone 10 ex_queue 3%nat [2%nat] [] 1); try done.
  split; [|done]. split; [unfold queue; simpl; by repeat constructor; set_solver|].
  simpl. exists 10. split; [done|lia].
Defined.

(** The comment in [drain] says that nobody may be waiting; the code only asks whether
    the layer is idle, so a layer whose packet the destination refused is drained. *)
Theorem drain_with_waiting : ∃ l : Layer nat, rtc layer_step (0, Layer_new) (10, l) ∧
  waiting 1%nat l ∧ drainState l = Drained.
Proof.
  exists (mkLayer IDLE [2%nat] (Some 1%nat) None 10 Drained). split; [|split; [by right|done]].
  eapply rtc_l. { apply (step_request 0 1%nat (mkDelivery false 10) false); [by intros [?%elem_of_nil|?]|done|reflexivity]. }
  eapply rtc_l. { apply (step_request 0 2%nat (mkDelivery true 10) false); [by intros [?%elem_of_nil|?]|done|reflexivity]. }
  eapply rtc_l. { apply (step_time 0 10); [done|]. intros t [= <-]. done. }
  eapply rtc_l. { apply (step_release 10 12 (λ p l, Ok l)); [apply reacting_silent|lia|reflexivity|reflexivity]. }
  eapply rtc_l; [|apply rtc_refl]. apply (step_drain 10 (mkLayer IDLE [2%nat] (Some 1%nat) None 10 Running)).
Qed.

End XBarLayerProps.
