(* ===== verification/XBar.v ===== *)
(** * mem/xbar.hh, mem/xbar.cc, mem/noncoherent_xbar.cc: the crossbar

    A crossbar routes requests by address to its memory-side ports and responses back to
    the CPU-side port that sent the request; each destination has a layer.  Its ports are
    numbered.  What a neighbour does when it is called is an argument: the answer of
    [sendTimingReq], the ranges a neighbour reports, what happens to the world [W].
    [us] is [sim_clock::as_int::us]. *)

From Stdlib Require Import ZArith Lia.
From stdpp Require Import base numbers option list gmap.
From S2P Require Import Prelude IntMath AddrRange AddrRangeMap Clocked Packet XBarLayer.

Module XBar.
Import IntMath AddrRange AddrRangeMap Clocked Packet XBarLayer.

Definition InvalidPortID : Z := -1.

(** A packet with what the crossbar reads and writes of it besides the fields of
    [Packet.Packet]: the pointer to its request and its two delays, 32-bit integers. *)
Record XBarPacket := mkXPkt {
  pkt : Packet;
  reqPtr : positive;
  headerDelay : Z;
  payloadDelay : Z
}.

Definition set_headerDelay (d : Z) (p : XBarPacket) : XBarPacket :=
  mkXPkt (pkt p) (reqPtr p) d (payloadDelay p).
Definition set_payloadDelay (d : Z) (p : XBarPacket) : XBarPacket :=
  mkXPkt (pkt p) (reqPtr p) (headerDelay p) d.
Definition set_pkt (q : Packet) (p : XBarPacket) : XBarPacket :=
  mkXPkt q (reqPtr p) (headerDelay p) (payloadDelay p).

(** The constant parameters of a crossbar. *)
Record XBarParams := mkParams {
  us : Z;
  clockPeriod : Z;
  frontendLatency : Z;
  forwardLatency : Z;
  responseLatency : Z;
  width : Z;
  defaultPortID : Z;
  useDefaultRange : bool
}.

Record BaseXBar := mkXBar {
  clk : Clocked;
  portMap : AddrRangeMap Z;
  routeTo : gmap positive Z;
  xbarRanges : list AddrRange;
  defaultRange : AddrRange;
  gotAddrRanges : list bool;
  gotAllAddrRanges : bool;
  reqLayers : list (Layer Z);
  respLayers : list (Layer Z)
}.

Definition set_clk (c : Clocked) (x : BaseXBar) : BaseXBar :=
  mkXBar c (portMap x) (routeTo x) (xbarRanges x) (defaultRange x) (gotAddrRanges x)
    (gotAllAddrRanges x) (reqLayers x) (respLayers x).
Definition set_portMap (m : AddrRangeMap Z) (x : BaseXBar) : BaseXBar :=
  mkXBar (clk x) m (routeTo x) (xbarRanges x) (defaultRange x) (gotAddrRanges x)
    (gotAllAddrRanges x) (reqLayers x) (respLayers x).
Definition set_routeTo (r : gmap positive Z) (x : BaseXBar) : BaseXBar :=
  mkXBar (clk x) (portMap x) r (xbarRanges x) (defaultRange x) (gotAddrRanges x)
    (gotAllAddrRanges x) (reqLayers x) (respLayers x).
Definition set_xbarRanges (l : list AddrRange) (x : BaseXBar) : BaseXBar :=
  mkXBar (clk x) (portMap x) (routeTo x) l (defaultRange x) (gotAddrRanges x)
    (gotAllAddrRanges x) (reqLayers x) (respLayers x).
Definition set_defaultRange (r : AddrRange) (x : BaseXBar) : BaseXBar :=
  mkXBar (clk x) (portMap x) (routeTo x) (xbarRanges x) r (gotAddrRanges x)
    (gotAllAddrRanges x) (reqLayers x) (respLayers x).
Definition set_gotAddrRanges (g : list bool) (a : bool) (x : BaseXBar) : BaseXBar :=
  mkXBar (clk x) (portMap x) (routeTo x) (xbarRanges x) (defaultRange x) g a
    (reqLayers x) (respLayers x).
Definition set_reqLayer (i : Z) (l : Layer Z) (x : BaseXBar) : BaseXBar :=
  mkXBar (clk x) (portMap x) (routeTo x) (xbarRanges x) (defaultRange x) (gotAddrRanges x)
    (gotAllAddrRanges x) (<[Z.to_nat i := l]> (reqLayers x)) (respLayers x).
Definition set_respLayer (i : Z) (l : Layer Z) (x : BaseXBar) : BaseXBar :=
  mkXBar (clk x) (portMap x) (routeTo x) (xbarRanges x) (defaultRange x) (gotAddrRanges x)
    (gotAllAddrRanges x) (reqLayers x) (<[Z.to_nat i := l]> (respLayers x)).

(** Indexing a vector by a port. *)
Definition at_port {A} (l : list A) (i : Z) : result A :=
  if i <? 0 then Err Undefined else deref (l !! Z.to_nat i).

(** NoncoherentXBar::NoncoherentXBar: [n] memory-side ports, one more for the default if
    it is connected, [c] CPU-side ports. *)
Definition default_id (n : nat) (has_default : bool) : Z :=
  if has_default then Z.of_nat n else InvalidPortID.
Definition NoncoherentXBar_new (n c : nat) (has_default : bool) : BaseXBar :=
  let mem := (n + if has_default then 1 else 0)%nat in
  mkXBar Clocked_new (mkMap [] []) ∅ [] range_empty (replicate mem false) false
    (replicate mem Layer_new) (replicate c Layer_new).

(** ** Routing *)

Definition findPort (pr : XBarParams) (addr_range : AddrRange) (x : BaseXBar)
    : result (Z * BaseXBar) :=
  _ ← assert_ok (gotAllAddrRanges x);
  '(i, m) ← contains_range 3 addr_range (portMap x);
  let x := set_portMap m x in
  match i with
  | Some k => v ← deref (at_ (tree m) k); Ok (v, x)
  | None =>
      if useDefaultRange pr then
        b ← isSubset addr_range (defaultRange x);
        if (b : bool) then Ok (defaultPortID pr, x) else Err Fatal
      else if negb (defaultPortID pr =? InvalidPortID) then Ok (defaultPortID pr, x)
      else Err Fatal
  end.

(** Packet::getAddrRange *)
Definition getAddrRange (p : Packet) : result AddrRange :=
  a ← getAddr p; s ← getSize p; Ok (RangeSize a s).

Definition findPort_pkt (pr : XBarParams) (p : XBarPacket) (x : BaseXBar) : result (Z * BaseXBar) :=
  r ← getAddrRange (pkt p); findPort pr r x.

(** ** Address ranges *)

Definition erase_port (id : Z) (m : AddrRangeMap Z) : AddrRangeMap Z :=
  foldl (λ m kv, if kv.2 =? id then erase kv.1 m else m) m (tree m).

Fixpoint insert_ranges (id : Z) (ranges : list AddrRange) (m : AddrRangeMap Z)
    : result (AddrRangeMap Z) :=
  match ranges with
  | [] => Ok m
  | r :: ranges =>
      '(i, m) ← insert 3 r id m;
      match i with
      | None => '(c, _) ← intersects_range 3 r m; _ ← deref c; Err Fatal
      | Some _ => insert_ranges id ranges m
      end
  end.

(** A range is announced unless the default range covers it. *)
Definition push_range (pr : XBarParams) (dflt r : AddrRange) (out : list AddrRange)
    : result (list AddrRange) :=
  if useDefaultRange pr then
    b ← isSubset r dflt; Ok (if (b : bool) then out else out ++ [r])
  else Ok (out ++ [r]).

(** The loop over the port map: interleaved ranges are collected until one does not
    merge with the last. *)
Fixpoint merge_loop (pr : XBarParams) (dflt : AddrRange) (ks intlv_ranges out : list AddrRange)
    : result (list AddrRange) :=
  match ks with
  | [] =>
      if negb (bool_decide (intlv_ranges = [])) then
        merged_range ← range_merge intlv_ranges; push_range pr dflt merged_range out
      else Ok out
  | r :: ks =>
      if interleaved r then
        match last intlv_ranges with
        | Some b =>
            if negb (mergesWith b r) then
              merged_range ← range_merge intlv_ranges;
              out ← push_range pr dflt merged_range out;
              merge_loop pr dflt ks [r] out
            else merge_loop pr dflt ks (intlv_ranges ++ [r]) out
        | None => merge_loop pr dflt ks [r] out
        end
      else
        out ← push_range pr dflt r out;
        merge_loop pr dflt ks intlv_ranges out
  end.

Fixpoint check_default (dflt : AddrRange) (rs : list AddrRange) : result unit :=
  match rs with
  | [] => Ok tt
  | r :: rs =>
      i ← intersects r dflt;
      _ ← (if (i : bool) then s ← isSubset r dflt; fatal_if (negb s) else Ok tt);
      check_default dflt rs
  end.

(** [getAddrRanges id] is what the neighbour of the memory-side port [id] reports. *)
Definition recvRangeChange (pr : XBarParams) (getAddrRanges : Z → list AddrRange)
    (id : Z) (x : BaseXBar) : result BaseXBar :=
  _ ← at_port (gotAddrRanges x) id;
  let got := <[Z.to_nat id := true]> (gotAddrRanges x) in
  let x := set_gotAddrRanges got (gotAllAddrRanges x || forallb Datatypes.id got) x in
  x ← (if id =? defaultPortID pr then
         if useDefaultRange pr then
           match getAddrRanges id with
           | [r] => Ok (set_defaultRange r x)
           | _ => Err Fatal
           end
         else Ok x
       else
         m ← insert_ranges id (getAddrRanges id) (erase_port id (portMap x));
         Ok (set_portMap m x));
  if gotAllAddrRanges x then
    out ← (if useDefaultRange pr then
             g ← at_port (gotAddrRanges x) (defaultPortID pr);
             _ ← fatal_if (negb g);
             Ok [defaultRange x]
           else Ok []);
    out ← merge_loop pr (defaultRange x) (tree (portMap x)).*1 [] out;
    _ ← (if useDefaultRange pr then check_default (defaultRange x) out else Ok tt);
    Ok (set_xbarRanges out x)
  else Ok x.

Definition getAddrRanges (x : BaseXBar) : result (list AddrRange) :=
  _ ← assert_ok (gotAllAddrRanges x); Ok (xbarRanges x).

(** ** Timing *)

Definition calcPacketTiming (pr : XBarParams) (now header_delay : Z) (p : XBarPacket)
    (x : BaseXBar) : result (XBarPacket * BaseXBar) :=
  let '(edge, c) := clockEdge (clockPeriod pr) now 0 (clk x) in
  let offset := u64 (edge - now) in
  let p := set_headerDelay (u32 (headerDelay p + u64 (offset + header_delay))) p in
  _ ← panic_if (us pr <? headerDelay p);
  p ← (if hasData (cmd (pkt p)) then
         s ← getSize (pkt p);
         Ok (set_payloadDelay (u32 (Z.max (payloadDelay p)
               (u64 (divCeil 32 s (width pr) * clockPeriod pr)))) p)
       else Ok p);
  Ok (p, set_clk c x).

Section Neighbours.
Context {W : Type}.
(** RequestPort::sendTimingReq and QueuedResponsePort::schedTimingResp of a port's
    neighbour; the former may change the packet. *)
Variable sendTimingReq : Z → XBarPacket → W → bool * XBarPacket * W.
Variable schedTimingResp : Z → XBarPacket → Z → W → W.

Definition recvTimingReq (pr : XBarParams) (now : Z) (p : XBarPacket) (cpu_side_port_id : Z)
    (x : BaseXBar) (w : W) : result (bool * XBarPacket * BaseXBar * W) :=
  _ ← assert_ok (negb (isExpressSnoop (pkt p)));
  '(mem_side_port_id, x) ← findPort_pkt pr p x;
  layer ← at_port (reqLayers x) mem_side_port_id;
  '(ok, layer) ← tryTiming cpu_side_port_id layer;
  if negb ok then Ok (false, p, set_reqLayer mem_side_port_id layer x, w)
  else
    let old_header_delay := headerDelay p in
    let xbar_delay := u64 (u64 (frontendLatency pr + forwardLatency pr) * clockPeriod pr) in
    '(p, x) ← calcPacketTiming pr now xbar_delay p x;
    let '(edge, c) := clockEdge (clockPeriod pr) now 1 (clk x) in
    let x := set_clk c x in
    let packetFinishTime := u64 (edge + payloadDelay p) in
    let expect_response := needsResponse (cmd (pkt p)) && negb (cacheResponding (pkt p)) in
    let '(success, p, w) := sendTimingReq mem_side_port_id p w in
    if negb success then
      let p := set_headerDelay old_header_delay p in
      layer ← failedTiming now cpu_side_port_id edge layer;
      Ok (false, p, set_reqLayer mem_side_port_id layer x, w)
    else
      x ← (if expect_response then
             _ ← assert_ok (bool_decide (routeTo x !! reqPtr p = None));
             Ok (set_routeTo (<[reqPtr p := cpu_side_port_id]> (routeTo x)) x)
           else Ok x);
      layer ← succeededTiming now packetFinishTime layer;
      Ok (true, p, set_reqLayer mem_side_port_id layer x, w).

Definition recvTimingResp (pr : XBarParams) (now : Z) (p : XBarPacket) (mem_side_port_id : Z)
    (x : BaseXBar) (w : W) : result (bool * XBarPacket * BaseXBar * W) :=
  match routeTo x !! reqPtr p with
  | None => Err AssertFailed
  | Some cpu_side_port_id =>
      _ ← assert_ok (negb (cpu_side_port_id =? InvalidPortID));
      _ ← assert_ok (cpu_side_port_id <? Z.of_nat (length (respLayers x)));
      layer ← at_port (respLayers x) cpu_side_port_id;
      '(ok, layer) ← tryTiming mem_side_port_id layer;
      if negb ok then Ok (false, p, set_respLayer cpu_side_port_id layer x, w)
      else
        let xbar_delay := u64 (responseLatency pr * clockPeriod pr) in
        '(p, x) ← calcPacketTiming pr now xbar_delay p x;
        let '(edge, c) := clockEdge (clockPeriod pr) now 1 (clk x) in
        let x := set_clk c x in
        let packetFinishTime := u64 (edge + payloadDelay p) in
        let latency := headerDelay p in
        let p := set_headerDelay 0 p in
        let w := schedTimingResp cpu_side_port_id p (u64 (now + latency)) w in
        let x := set_routeTo (base.delete (reqPtr p) (routeTo x)) x in
        layer ← succeededTiming now packetFinishTime layer;
        Ok (true, p, set_respLayer cpu_side_port_id layer x, w)
  end.

(** [sendRetry] is what the retried port does with the layer. *)
Definition recvReqRetry (pr : XBarParams) (now : Z) (sendRetry : Z → Layer Z → result (Layer Z))
    (mem_side_port_id : Z) (x : BaseXBar) : result BaseXBar :=
  layer ← at_port (reqLayers x) mem_side_port_id;
  let '(edge, c) := clockEdge (clockPeriod pr) now 0 (clk x) in
  layer ← recvRetry now edge sendRetry layer;
  Ok (set_reqLayer mem_side_port_id layer (set_clk c x)).

(** The release events of the layers. *)
Definition releaseReqLayer (pr : XBarParams) (now : Z) (sendRetry : Z → Layer Z → result (Layer Z))
    (i : Z) (x : BaseXBar) : result BaseXBar :=
  layer ← at_port (reqLayers x) i;
  let '(edge, c) := clockEdge (clockPeriod pr) now 0 (clk x) in
  layer ← service_release now edge sendRetry layer;
  Ok (set_reqLayer i layer (set_clk c x)).

Definition releaseRespLayer (pr : XBarParams) (now : Z) (sendRetry : Z → Layer Z → result (Layer Z))
    (i : Z) (x : BaseXBar) : result BaseXBar :=
  layer ← at_port (respLayers x) i;
  let '(edge, c) := clockEdge (clockPeriod pr) now 0 (clk x) in
  layer ← service_release now edge sendRetry layer;
  Ok (set_respLayer i layer (set_clk c x)).

(** ** Atomic and functional accesses *)

Variable sendAtomic : Z → XBarPacket → W → Z * XBarPacket * W.

Definition recvAtomicBackdoor (pr : XBarParams) (p : XBarPacket) (x : BaseXBar) (w : W)
    : result (Z * XBarPacket * BaseXBar * W) :=
  '(mem_side_port_id, x) ← findPort_pkt pr p x;
  _ ← at_port (reqLayers x) mem_side_port_id;
  let '(response_latency, p, w) := sendAtomic mem_side_port_id p w in
  Ok (response_latency, set_payloadDelay (u32 response_latency) p, x, w).

Variable sendMemBackdoorReq : Z → AddrRange → W → W.

Definition recvMemBackdoorReq (pr : XBarParams) (range : AddrRange) (x : BaseXBar) (w : W)
    : result (BaseXBar * W) :=
  '(dest_id, x) ← findPort pr range x;
  _ ← at_port (reqLayers x) dest_id;
  Ok (x, sendMemBackdoorReq dest_id range w).

(** The packets queued at a CPU-side port may satisfy a functional request; [queued]
    answers for each of the ports in order. *)
Variable trySatisfyQueued : Z → Packet → W → bool * Packet.
Variable sendFunctional : Z → Packet → W → Packet * W.

Fixpoint satisfied_by (ports : list Z) (p : Packet) (w : W) : bool * Packet :=
  match ports with
  | [] => (false, p)
  | i :: ports =>
      let '(b, p) := trySatisfyQueued i p w in
      if b then (true, p) else satisfied_by ports p w
  end.

Definition recvFunctional (pr : XBarParams) (p : XBarPacket) (x : BaseXBar) (w : W)
    : result (XBarPacket * BaseXBar * W) :=
  let '(found, q) := satisfied_by (Z.of_nat <$> seq 0 (length (respLayers x))) (pkt p) w in
  if found then
    q ← (if needsResponse (cmd q) then makeResponse q else Ok q);
    Ok (set_pkt q p, x, w)
  else
    '(dest_id, x) ← findPort_pkt pr (set_pkt q p) x;
    _ ← at_port (reqLayers x) dest_id;
    let '(q, w) := sendFunctional dest_id q w in
    Ok (set_pkt q p, x, w).

End Neighbours.

End XBar.
