(* ===== verification/XBarProps.v ===== *)
(** * mem/xbar, mem/noncoherent_xbar: packets are routed by address, responses go home

    The port map of a crossbar is a map of disjoint ranges; what a crossbar announces is
    what it routes; and the table of routes takes every response back to the port its
    request came from. *)

From Stdlib Require Import ZArith Lia.
From stdpp Require Import base numbers option list sets gmap sorting relations.
From S2P Require Import Prelude IntMath Flags AddrRange AddrRangeProps AddrRangeMap AddrRangeMapProps.
From S2P Require Import Clocked Packet XBarLayer XBarLayerProps XBar.

Module XBarProps.
Import IntMath AddrRange AddrRangeProps AddrRangeMap AddrRangeMapProps Clocked Packet XBarLayer
  XBarLayerProps XBar.

(** ** Routing *)

Lemma at_lookup {V} (l : list (AddrRange * V)) k : k ∈ l.*1 → ∃ v, at_ l k = Some v ∧ (k, v) ∈ l.
Proof.
  induction l as [|[k' v'] l IH]; simpl; [by intros ?%elem_of_nil|].
  case_bool_decide as Hk; [subst; intros _; eexists; split; [reflexivity|left]|].
  intros [->|Hin]%elem_of_cons; [done|]. destruct (IH Hin) as (v & ? & ?).
  exists v. split; [done|by right].
Qed.

(** C34: a request is routed by its addresses: to the port of the entry whose range
    contains all of them, whatever the lookup cache holds; when no entry covers it, to
    the default port if that is configured to take it; and only otherwise is the
    simulation stopped.  Looking up changes nothing but the cache. *)
Theorem findPort_routes pr p x a s :
  gotAllAddrRanges x = true → map_inv (portMap x) →
  (useDefaultRange pr = true → key_ok (defaultRange x)) →
  getAddr (pkt p) = Ok a → getSize (pkt p) = Ok s → 0 <= a → 0 < s → a + s < 2 ^ 64 →
  let uncovered := ∀ k, k ∈ keys (portMap x) → isSubset (range a (a + s)) k = Ok false in
  let default := if useDefaultRange pr
                 then isSubset (range a (a + s)) (defaultRange x) = Ok true
                 else defaultPortID pr ≠ InvalidPortID in
  match findPort_pkt pr p x with
  | Ok (v, x') =>
      x' = set_portMap (portMap x') x ∧ tree (portMap x') = tree (portMap x) ∧
      map_inv (portMap x') ∧
      ((∃ k, (k, v) ∈ tree (portMap x) ∧ ∀ b, a <= b < a + s → contains k b = true) ∨
       (uncovered ∧ default ∧ v = defaultPortID pr))
  | Err e => e = Fatal ∧ uncovered ∧ ¬ default
  end.
Proof.
  intros Hgot Hm Hd Ha Hs Ha0 Hs0 Has. cbv zeta.
  set (r := range a (a + s)). assert (plain r) as Hr by (split; [done|split; [done|simpl; lia]]).
  assert (findPort_pkt pr p x = findPort pr r x) as ->.
  { unfold findPort_pkt, getAddrRange. rewrite Ha, Hs. simpl. unfold RangeSize, r.
    by rewrite wrap_small by (unfold fits; lia). }
  destruct (contains_range_spec 3 r (portMap x) Hm Hr) as (it & m & Hc & Ht & Hm' & Hit & Hcov & _);
    [done|simpl; lia|].
  simpl. unfold findPort. rewrite Hgot. simpl. rewrite Hc. simpl. destruct it as [k|].
  - destruct (proj1 (Hit k) eq_refl) as [Hk _].
    destruct (at_lookup (tree m) k) as (v & -> & Hv); [by rewrite Ht|]. simpl.
    split; [done|]. split; [done|]. split; [done|]. left. exists k. rewrite <-Ht. split; [done|].
    intros b Hb. apply (Hcov k b eq_refl). by apply plain_contains.
  - assert (∀ k, k ∈ keys (portMap x) → isSubset r k = Ok false) as Hunc.
    { intros k Hk. pose proof (mi_ok _ Hm) as Hok. rewrite Forall_forall in Hok.
      destruct (isSubset_defined r k (Hok k Hk) eq_refl) as ([] & Hb); [|done].
      by discriminate (proj2 (Hit k) (conj Hk Hb)). }
    destruct (useDefaultRange pr); simpl.
    + destruct (isSubset_defined r (defaultRange x) (Hd eq_refl) eq_refl) as (b & Hb).
      change (defaultRange (set_portMap m x)) with (defaultRange x). rewrite Hb.
      destruct b; simpl; [|done]. split; [done|]. split; [done|]. split; [done|]. by right.
    + destruct (Z.eqb_spec (defaultPortID pr) InvalidPortID) as [->|]; simpl; [by auto|].
      split; [done|]. split; [done|]. split; [done|]. by right.
Qed.

(** ** Announcing ranges *)

Lemma keys_unique {V} (m : AddrRangeMap V) k v v' : map_inv m →
  (k, v) ∈ tree m → (k, v') ∈ tree m → v = v'.
Proof.
  intros [_ Hs _ _]. unfold keys in Hs. revert Hs.
  induction (tree m) as [|[k0 v0] l IH]; [by intros _ ?%elem_of_nil|].
  simpl. intros [Hf Hs]%StronglySorted_cons Hv Hv'.
  assert (∀ w, (k0, w) ∈ l → False) as Hno.
  { intros w Hw. rewrite Forall_forall in Hf.
    pose proof (Hf k0 ltac:(apply list_elem_of_fmap; by exists (k0, w))) as Ho.
    unfold ordered in Ho. by rewrite range_lt_irrefl in Ho. }
  apply elem_of_cons in Hv as [?|Hv], Hv' as [?|Hv']; simplify_eq; [done|by destruct (Hno v')|
    by destruct (Hno v)|by apply IH].
Qed.

Lemma erase_fold {V} (id : Z) (vz : V → Z) l : ∀ m : AddrRangeMap V, map_inv m →
  let m' := foldl (λ m kv, if vz kv.2 =? id then erase kv.1 m else m) m l in
  map_inv m' ∧ ∀ k v, (k, v) ∈ tree m' ↔ (k, v) ∈ tree m ∧ ∀ kv, kv ∈ l → vz kv.2 = id → kv.1 ≠ k.
Proof.
  induction l as [|kv l IH]; intros m Hm; simpl.
  { split; [done|]. intros k v. split; [|by intros []]. intros ?. split; [done|]. by intros ? ?%elem_of_nil. }
  destruct (Z.eqb_spec (vz kv.2) id) as [He|He].
  - destruct (IH (erase kv.1 m)) as [Hi Hin]; [by apply erase_inv|]. split; [done|]. intros k v.
    rewrite Hin. unfold erase. simpl. rewrite list_elem_of_filter. simpl. split.
    + intros [[? ?] Hl]. split; [done|]. intros ? [-> |?]%elem_of_cons ?; [done|by apply Hl].
    + intros [? Hl]. split; [split; [|done]|].
      { intros Heq. exact (Hl kv ltac:(left) He (eq_sym Heq)). }
      intros kv' ? ?. apply Hl; [by right|done].
  - destruct (IH m Hm) as [Hi Hin]. split; [done|]. intros k v. rewrite Hin. split.
    + intros [? Hl]. split; [done|]. intros ? [-> |?]%elem_of_cons ?; [done|by apply Hl].
    + intros [? Hl]. split; [done|]. intros kv' ? ?. apply Hl; [by right|done].
Qed.

Lemma erase_port_spec id m : map_inv m →
  map_inv (erase_port id m) ∧
  ∀ k v, (k, v) ∈ tree (erase_port id m) ↔ (k, v) ∈ tree m ∧ v ≠ id.
Proof.
  intros Hm. destruct (erase_fold id (λ v, v) (tree m) m Hm) as [Hi Hin]. split; [done|].
  intros k v. unfold erase_port. rewrite Hin. split.
  - intros [Hk Hl]. split; [done|]. intros ->. exact (Hl (k, id) Hk eq_refl eq_refl).
  - intros [Hk Hv]. split; [done|]. intros [k' v'] Hk' Hv' Heq. simpl in *. subst.
    apply Hv. eauto using keys_unique.
Qed.

Lemma elem_of_keys {V} (m : AddrRangeMap V) k : k ∈ keys m ↔ ∃ v, (k, v) ∈ tree m.
Proof.
  unfold keys. rewrite list_elem_of_fmap. split; [intros ([k' v] & -> & ?); by exists v|].
  intros (v & ?). by exists (k, v).
Qed.

(** The ranges a port reports, against each other and the entries of the other ports. *)
Definition all_separate (ranges ks : list AddrRange) : Prop :=
  ForallOrdPairs separate ranges ∧ ∀ r k, r ∈ ranges → k ∈ ks → separate r k.

Definition all_compatible (ranges ks : list AddrRange) : Prop :=
  ∀ r k, r ∈ ranges → k ∈ ranges ++ ks → compatible r k.

Lemma insert_ranges_spec id ranges : ∀ m, map_inv m → Forall key_ok ranges →
  all_compatible ranges (keys m) →
  (∃ m', insert_ranges id ranges m = Ok m' ∧ map_inv m' ∧
     tree m' ≡ₚ ((λ r, (r, id)) <$> ranges) ++ tree m) ∨
  (insert_ranges id ranges m = Err Fatal ∧ ¬ all_separate ranges (keys m)).
Proof.
  induction ranges as [|r ranges IH]; intros m Hm Hok Hc; simpl; [left; by eexists|].
  apply Forall_cons in Hok as [Hr Hok].
  assert (∀ k, k ∈ keys m → compatible r k) as Hcr.
  { intros k Hk. apply Hc; [left|]. apply elem_of_app. by right. }
  destruct (insert_spec 3 r id m Hm Hr Hcr) as (it & m1 & -> & Hm1 & [(-> & Ht & k & Hk & Ho)|(-> & Ht & Hs)]).
  - right. simpl. assert (keys m1 = keys m) as Hkeys by (unfold keys; by rewrite Ht).
    destruct (intersects_range_spec 3 r m1 Hm1) as (it & m2 & -> & _ & _ & Hfo); [by rewrite Hkeys|].
    rewrite Hkeys in Hfo. simpl. destruct it as [k'|]; [|by rewrite Hfo in Ho]. simpl. split; [done|].
    intros [_ Hsep]. by rewrite (separate_no_overlap r k) in Ho by (apply Hsep; [left|done]).
  - simpl. assert (keys m1 ≡ₚ r :: keys m) as Hkeys by (unfold keys; by rewrite Ht).
    destruct (IH m1 Hm1 Hok) as [(m' & -> & Hm' & Ht')|[-> Hns]].
    { intros r' k Hr' Hk. apply Hc; [by right|]. rewrite Hkeys in Hk. set_solver. }
    + left. eexists. split; [reflexivity|]. split; [done|]. rewrite Ht', Ht. simpl.
      by rewrite Permutation_middle.
    + right. split; [done|]. intros [Hp Hsep]. apply Hns. inversion_clear Hp as [|? ? Hf Hp'].
      split; [done|]. intros r' k Hr' Hk. rewrite Hkeys in Hk. apply elem_of_cons in Hk as [-> |Hk].
      * rewrite Forall_forall in Hf. apply separate_sym. by apply Hf.
      * apply Hsep; [by right|done].
Qed.

Definition covered (l : list AddrRange) (a : Z) : Prop := Exists (λ r, contains r a = true) l.

Lemma merge_covered l r a : l ≠ [] → Forall key_ok l → range_merge l = Ok r →
  contains r a = true ↔ covered l a.
Proof.
  intros Hne Hok Hr. unfold covered. rewrite Exists_exists. apply range_merge_spec; [done| |done].
  eapply Forall_impl; [exact Hok|]. intros q ((Hm & _) & _). apply Hm.
Qed.

(** The loop announces what the entries cover; it stops the simulation only when there
    are interleaved entries that do not make up a range. *)
Lemma merge_loop_spec pr dflt ks : useDefaultRange pr = false → ∀ il out,
  Forall key_ok (il ++ ks) → Forall (λ k, interleaved k = true) il →
  (∃ res, merge_loop pr dflt ks il out = Ok res ∧ ∀ a, covered res a ↔ covered (out ++ il ++ ks) a) ∨
  (merge_loop pr dflt ks il out = Err Fatal ∧ Exists (λ k, interleaved k = true) (il ++ ks)).
Proof.
  intros Hd. assert (∀ r out, push_range pr dflt r out = Ok (out ++ [r])) as Hpush
    by (intros; unfold push_range; by rewrite Hd).
  assert (∀ il r out l a, il ≠ [] → Forall key_ok il → range_merge il = Ok r →
    covered ((out ++ [r]) ++ l) a ↔ covered (out ++ il ++ l) a) as Hcov.
  { intros il r out l a Hne Hok Hr. unfold covered. rewrite !Exists_app, Exists_cons, Exists_nil.
    rewrite (merge_covered il r a) by done. unfold covered. tauto. }
  assert (∀ il l, il ≠ [] → Forall (λ k, interleaved k = true) il →
    Exists (λ k, interleaved k = true) (il ++ l)) as Hex.
  { intros [|q il] l ? Hf; [done|]. apply Forall_cons in Hf as [? _]. by left. }
  induction ks as [|k ks IH]; intros il out Hok Hil; simpl.
  - rewrite app_nil_r in *. case_bool_decide as Hne; simpl; [left; subst; rewrite app_nil_r; by eexists|].
    destruct (range_merge_outcome il) as [[r Hr]|Hr]; rewrite Hr; simpl.
    + left. rewrite Hpush. eexists. split; [reflexivity|]. intros a.
      pose proof (Hcov il r out [] a Hne Hok Hr) as H. by rewrite !app_nil_r in H.
    + right. split; [done|]. specialize (Hex il []). rewrite app_nil_r in Hex. by apply Hex.
  - destruct (interleaved k) eqn:Hk.
    + destruct (last il) as [b|] eqn:Hl.
      * assert (il ≠ []) as Hne by (by intros ->).
        destruct (mergesWith b k); simpl.
        { destruct (IH (il ++ [k]) out) as [(res & Hres & Hc)|[Hres He]]; rewrite <-?app_assoc in *; try done.
          - apply Forall_app. split; [done|]. by constructor.
          - left. by exists res.
          - by right. }
        apply Forall_app in Hok as [Hok1 Hok2].
        destruct (range_merge_outcome il) as [[r Hr]|Hr]; rewrite Hr; simpl; [|right; auto].
        rewrite Hpush. simpl. destruct (IH [k] (out ++ [r])) as [(res & Hres & Hc)|[Hres He]];
          [done|by constructor| |].
        -- left. exists res. split; [done|]. intros a. by rewrite Hc, (Hcov il r).
        -- right. split; [done|]. apply Exists_app. by right.
      * apply last_None in Hl as ->. simpl in *. by apply IH; [|constructor].
    + rewrite Hpush. simpl. assert (Forall key_ok (il ++ ks)) as Hok'.
      { apply Forall_app in Hok as [? Hok2]. apply Forall_cons in Hok2 as [_ ?]. by apply Forall_app. }
      destruct (IH il (out ++ [k]) Hok' Hil) as [(res & Hres & Hc)|[Hres He]].
      * left. exists res. split; [done|]. intros a. rewrite Hc. unfold covered.
        rewrite !Exists_app, !Exists_cons, Exists_nil. tauto.
      * right. split; [done|]. rewrite Exists_app in *. rewrite Exists_cons. tauto.
Qed.

(** With no default range, a change of the ranges a port reports replaces the port's
    entries by them and leaves the other ports' alone, keeps the entries disjoint, and,
    when every port has reported, announces ranges that cover exactly the addresses
    that are routed.  It stops the simulation only if the ranges overlap each other or
    another port's, or some entries are stripes that do not make up a whole range. *)
Theorem recvRangeChange_announces pr reported id x :
  useDefaultRange pr = false → id ≠ defaultPortID pr →
  0 <= id < Z.of_nat (length (gotAddrRanges x)) → map_inv (portMap x) →
  let ranges := reported id in
  let others := keys (erase_port id (portMap x)) in
  Forall key_ok ranges → all_compatible ranges others →
  match recvRangeChange pr reported id x with
  | Ok x' =>
      map_inv (portMap x') ∧
      (∀ k v, (k, v) ∈ tree (portMap x') ↔
         (k ∈ ranges ∧ v = id) ∨ ((k, v) ∈ tree (portMap x) ∧ v ≠ id)) ∧
      gotAddrRanges x' = <[Z.to_nat id := true]> (gotAddrRanges x) ∧
      (gotAllAddrRanges x' = true → ∀ a, covered (xbarRanges x') a ↔ covered (keys (portMap x')) a)
  | Err e => e = Fatal ∧
      (¬ all_separate ranges others ∨ Exists (λ k, interleaved k = true) (ranges ++ others))
  end.
Proof.
  intros Hd Hid Hlen Hm. cbv zeta. intros Hok Hc. unfold recvRangeChange, at_port.
  replace (id <? 0) with false by lia.
  destruct (lookup_lt_is_Some_2 (gotAddrRanges x) (Z.to_nat id)) as [g Hg]; [lia|].
  rewrite Hg. simpl. rewrite (proj2 (Z.eqb_neq _ _) Hid), Hd. simpl.
  destruct (erase_port_spec id (portMap x) Hm) as [Hme Hin].
  destruct (insert_ranges_spec id (reported id) _ Hme Hok Hc) as [(m' & -> & Hm' & Ht)|[-> Hns]];
    [|simpl; by split; [|left]].
  simpl. assert (∀ k v, (k, v) ∈ tree m' ↔
    (k ∈ reported id ∧ v = id) ∨ ((k, v) ∈ tree (portMap x) ∧ v ≠ id)) as Hmem.
  { intros k v. rewrite Ht, elem_of_app, list_elem_of_fmap, Hin. naive_solver. }
  assert (keys m' ≡ₚ reported id ++ keys (erase_port id (portMap x))) as Hkeys.
  { unfold keys at 1. rewrite Ht, fmap_app, <-list_fmap_compose. simpl. by rewrite list_fmap_id. }
  destruct (gotAllAddrRanges x || _) eqn:Hall; simpl.
  - destruct (merge_loop_spec pr (defaultRange x) (keys m') Hd [] []) as [(res & Hres & Hcov)|[Hres He]].
    + by apply mi_ok.
    + constructor.
    + unfold keys in Hres. rewrite Hres. done.
    + unfold keys in Hres. rewrite Hres. simpl. split; [done|]. right. simpl in He.
      rewrite Exists_exists in *. destruct He as (k & Hk & ?). exists k. by rewrite <-Hkeys.
  - done.
Qed.

(** ** Responses *)

Section Routes.
Context {W : Type}.
Variable sendTimingReq : Z → XBarPacket → W → bool * XBarPacket * W.
Variable schedTimingResp : Z → XBarPacket → Z → W → W.
Variable sendAtomic : Z → XBarPacket → W → Z * XBarPacket * W.
Variable trySatisfyQueued : Z → Packet → W → bool * Packet.
Variable sendFunctional : Z → Packet → W → Packet * W.

(** Sending a packet does not change which request it belongs to. *)
Hypothesis sendTimingReq_req : ∀ i p w, reqPtr (sendTimingReq i p w).1.2 = reqPtr p.

(** A call of the crossbar, other than the delivery of the response to the request [q]. *)
Inductive xbar_call (pr : XBarParams) (q : positive) : BaseXBar → BaseXBar → Prop :=
  | call_req now p id x w b p' x' w' :
      recvTimingReq sendTimingReq pr now p id x w = Ok (b, p', x', w') → xbar_call pr q x x'
  | call_resp now p id x w b p' x' w' : reqPtr p ≠ q ∨ b = false →
      recvTimingResp schedTimingResp pr now p id x w = Ok (b, p', x', w') → xbar_call pr q x x'
  | call_retry now f id x x' : recvReqRetry pr now f id x = Ok x' → xbar_call pr q x x'
  | call_release_req now f id x x' : releaseReqLayer pr now f id x = Ok x' → xbar_call pr q x x'
  | call_release_resp now f id x x' : releaseRespLayer pr now f id x = Ok x' → xbar_call pr q x x'
  | call_range reported id x x' : recvRangeChange pr reported id x = Ok x' → xbar_call pr q x x'
  | call_atomic p x w l p' x' w' :
      recvAtomicBackdoor sendAtomic pr p x w = Ok (l, p', x', w') → xbar_call pr q x x'
  | call_functional p x w p' x' w' :
      recvFunctional trySatisfyQueued sendFunctional pr p x w = Ok (p', x', w') → xbar_call pr q x x'.

Lemma findPort_route pr r x v x' : findPort pr r x = Ok (v, x') → routeTo x' = routeTo x.
Proof.
  unfold findPort. intros H. res_inv. destruct a0 as [i m], i; res_inv; [done|].
  destruct (useDefaultRange pr); res_inv; [destruct a0|destruct (negb _)]; by simplify_eq.
Qed.

Lemma findPort_pkt_route pr p x v x' : findPort_pkt pr p x = Ok (v, x') → routeTo x' = routeTo x.
Proof. unfold findPort_pkt. intros H. res_inv. by eapply findPort_route. Qed.

Lemma calcPacketTiming_route pr now d p x p' x' : calcPacketTiming pr now d p x = Ok (p', x') →
  routeTo x' = routeTo x ∧ pkt p' = pkt p ∧ reqPtr p' = reqPtr p.
Proof.
  unfold calcPacketTiming. destruct (clockEdge _ _ _ _) as [e c]. intros H. res_inv.
  destruct (hasData _); res_inv; by simplify_eq/=.
Qed.

(** A request adds at most the route of its own response, which was not there. *)
Lemma recvTimingReq_route pr now p id x w b p' x' w' :
  recvTimingReq sendTimingReq pr now p id x w = Ok (b, p', x', w') →
  (b = true ∧ needsResponse (cmd (pkt p)) && negb (cacheResponding (pkt p)) = true ∧
    routeTo x !! reqPtr p = None ∧ routeTo x' = <[reqPtr p := id]> (routeTo x)) ∨
  (b && needsResponse (cmd (pkt p)) && negb (cacheResponding (pkt p)) = false ∧
    routeTo x' = routeTo x).
Proof.
  unfold recvTimingReq. intros H. apply bind_Ok in H as (_ & _ & H).
  apply bind_Ok in H as ([mid x1] & Hf & H). apply bind_Ok in H as (l & _ & H).
  apply bind_Ok in H as ([ok l1] & _ & H). apply findPort_pkt_route in Hf as Hr1.
  destruct ok; simpl in H; [|res_inv; by right].
  apply bind_Ok in H as ([p1 x2] & Hc & H). apply calcPacketTiming_route in Hc as (Hr2 & Hp1 & Hq1).
  pose proof (sendTimingReq_req mid p1 w) as Hq.
  destruct (sendTimingReq mid p1 w) as [[success p2] w2]. simpl in Hq.
  destruct success; simpl in H.
  2:{ res_inv. right. simpl. by rewrite Hr2. }
  apply bind_Ok in H as (x3 & Hx3 & H). apply bind_Ok in H as (l2 & _ & H). res_inv.
  rewrite Hp1, Hq, Hq1 in *. simpl in *.
  destruct (needsResponse _ && negb _) eqn:He.
  - apply bind_Ok in Hx3 as ([] & Hn & Hx3). res_inv. left. split; [done|]. split; [done|].
    simpl. rewrite Hr2, Hr1 in *. by apply bool_decide_eq_true in Hn.
  - res_inv. right. split; [done|]. simpl. by rewrite Hr2.
Qed.

(** A response that is taken is scheduled at the port of its route, which is erased. *)
Lemma recvTimingResp_route pr now p mid x w b p' x' w' :
  recvTimingResp schedTimingResp pr now p mid x w = Ok (b, p', x', w') →
  ∃ id, routeTo x !! reqPtr p = Some id ∧
    if b then routeTo x' = base.delete (reqPtr p) (routeTo x) ∧ headerDelay p' = 0 ∧
           pkt p' = pkt p ∧ reqPtr p' = reqPtr p ∧
           ∃ t, w' = schedTimingResp id p' t w
    else routeTo x' = routeTo x ∧ p' = p ∧ w' = w.
Proof.
  unfold recvTimingResp. destruct (routeTo x !! reqPtr p) as [id|] eqn:Hr; [|done]. intros H.
  apply bind_Ok in H as ([] & _ & H). apply bind_Ok in H as ([] & _ & H).
  apply bind_Ok in H as (l & _ & H). apply bind_Ok in H as ([ok l1] & _ & H).
  exists id. split; [done|]. destruct ok; simpl in H; [|by res_inv].
  apply bind_Ok in H as ([p1 x2] & Hc & H). apply calcPacketTiming_route in Hc as (Hr2 & Hp1 & Hq1).
  apply bind_Ok in H as (l2 & _ & H). res_inv. simpl. rewrite Hr2, Hq1. eauto 10.
Qed.

Lemma xbar_call_route pr q x x' i : xbar_call pr q x x' →
  routeTo x !! q = Some i → routeTo x' !! q = Some i.
Proof.
  intros Hc Hq. destruct Hc as [now p id x w b p' x' w' H|now p id x w b p' x' w' Hne H|now f id x x' H|
    now f id x x' H|now f id x x' H|reported id x x' H|p x w l p' x' w' H|p x w p' x' w' H].
  - apply recvTimingReq_route in H as [(_ & _ & Hn & ->)|[_ ->]]; [|done].
    rewrite lookup_insert_ne; [done|]. intros Heq. congruence.
  - apply recvTimingResp_route in H as (id' & Hid & H). destruct b; destruct H as [-> _]; [|done].
    destruct Hne as [Hne|]; [|done]. by rewrite lookup_delete_ne.
  - unfold recvReqRetry in H. destruct (clockEdge _ _ _ _). by res_inv.
  - unfold releaseReqLayer in H. destruct (clockEdge _ _ _ _). by res_inv.
  - unfold releaseRespLayer in H. destruct (clockEdge _ _ _ _). by res_inv.
  - enough (routeTo x' = routeTo x) as -> by done. unfold recvRangeChange in H.
    apply bind_Ok in H as (? & _ & H). apply bind_Ok in H as (x1 & Hx1 & H).
    assert (routeTo x1 = routeTo x) as Hr1.
    { destruct (id =? defaultPortID pr), (useDefaultRange pr); res_inv; try done.
      by destruct (reported id) as [|? [|]]; res_inv. }
    rewrite <-Hr1. destruct (gotAllAddrRanges x1); by res_inv.
  - unfold recvAtomicBackdoor in H. apply bind_Ok in H as ([mid x1] & Hf & H).
    apply findPort_pkt_route in Hf. apply bind_Ok in H as (? & _ & H).
    destruct (sendAtomic mid p w) as [[? ?] ?]. res_inv. by rewrite Hf.
  - unfold recvFunctional in H. destruct (satisfied_by _ _ _ _) as [[] r]; [by res_inv|].
    apply bind_Ok in H as ([mid x1] & Hf & H). apply findPort_pkt_route in Hf.
    apply bind_Ok in H as (? & _ & H). destruct (sendFunctional mid r w) as [? ?]. res_inv. by rewrite Hf.
Qed.

(** The clock edge a packet is aligned to: the crossbar's next one. *)
Lemma clockEdge_spec period now c : no_wrap period now c →
  let c' := update period now c in
  now <= tick c' <= Z.max now (tick c) + period ∧
  clockEdge period now 0 c = (tick c', c') ∧ clockEdge period now 1 c' = (tick c' + period, c').
Proof.
  intros Hn. cbv zeta. pose proof (update_next_edge period now c Hn) as (k & Hk & Ht & _ & Hge & Hlt).
  destruct Hn as (Hp & Ht0 & _ & Hn0 & Hmax & _). set (c' := update period now c) in *.
  assert (tick c' <= Z.max now (tick c) + period) by (destruct (decide (k = 0)); [subst k|]; lia).
  assert (update period now c' = c') as Hidem.
  { unfold update. by replace (now <=? tick c') with true by lia. }
  split; [lia|]. unfold clockEdge. fold c'. rewrite Hidem, Z.mul_0_r, Z.mul_1_r.
  rewrite !(wrap_small 64) by (rewrite ?(wrap_small 64); unfold fits; lia).
  by rewrite Z.add_0_r.
Qed.

(** The delay a response gets from the crossbar, and the conditions under which no sum
    of ticks wraps around. *)
Definition resp_delay (pr : XBarParams) (now : Z) (p : XBarPacket) (x : BaseXBar) : Z :=
  u32 (headerDelay p + u64 (u64 ((clockEdge (clockPeriod pr) now 0 (clk x)).1 - now) +
       u64 (responseLatency pr * clockPeriod pr))).

Definition timely (pr : XBarParams) (now : Z) (p : XBarPacket) (x : BaseXBar) : Prop :=
  no_wrap (clockPeriod pr) now (clk x) ∧
  Z.max now (tick (clk x)) + 2 * clockPeriod pr + 2 ^ 32 < 2 ^ 64 ∧
  fits 32 (payloadDelay p) ∧ (∃ s, getSize (pkt p) = Ok s) ∧ resp_delay pr now p x <= us pr.

Lemma calcPacketTiming_resp pr now p x : timely pr now p x →
  ∃ d, fits 32 d ∧
    calcPacketTiming pr now (u64 (responseLatency pr * clockPeriod pr)) p x =
      Ok (set_payloadDelay d (set_headerDelay (resp_delay pr now p x) p),
          set_clk (update (clockPeriod pr) now (clk x)) x).
Proof.
  intros (Hn & _ & Hpd & (s & Hs) & Hus). unfold calcPacketTiming. unfold resp_delay in *.
  destruct (clockEdge_spec _ _ _ Hn) as (_ & He & _). rewrite He in *. simpl in Hus |- *.
  replace (us pr <? _) with false by lia. simpl.
  destruct (hasData (cmd (pkt p))); simpl; [rewrite Hs|]; eexists; (split; [|reflexivity || by destruct p]).
  - by apply wrap_fits.
  - done.
Qed.

(** C20: a response goes back to the port its request came from.  Once a request that
    expects a response has been forwarded, then whatever the crossbar does in between, a
    response to it returns without an error: it is scheduled at that very port after the
    crossbar's delay, and its route forgotten, when the layer to the port is free; and
    otherwise it is turned away, nothing is sent, the route stays and the sender waits
    for the layer. *)
Theorem response_returns pr now0 p id x0 w0 p1 x1 w1 x now r mid w l :
  recvTimingReq sendTimingReq pr now0 p id x0 w0 = Ok (true, p1, x1, w1) →
  needsResponse (cmd (pkt p)) = true → cacheResponding (pkt p) = false →
  rtc (xbar_call pr (reqPtr p)) x1 x → reqPtr r = reqPtr p →
  0 <= id → respLayers x !! Z.to_nat id = Some l → settled now l → ¬ waiting mid l →
  timely pr now r x →
  ∃ b r' x' w' l', recvTimingResp schedTimingResp pr now r mid x w = Ok (b, r', x', w') ∧
    respLayers x' !! Z.to_nat id = Some l' ∧ pkt r' = pkt r ∧
    (b = true ↔ state l = IDLE ∧ waitingForPeer l = None) ∧
    if b then w' = schedTimingResp id r' (u64 (now + resp_delay pr now r x)) w ∧
           headerDelay r' = 0 ∧ routeTo x' !! reqPtr p = None ∧ state l' = BUSY
    else w' = w ∧ r' = r ∧ routeTo x' !! reqPtr p = Some id ∧ waiting mid l'.
Proof.
  intros Hreq Hneed Hcache Hcalls Hr Hid Hl [[Hnd Hst] Hs] Hw Ht.
  assert (routeTo x !! reqPtr p = Some id) as Hroute.
  { apply recvTimingReq_route in Hreq as [(_ & _ & _ & Hx1)|[Hf _]];
      [|by rewrite Hneed, Hcache in Hf].
    assert (routeTo x1 !! reqPtr p = Some id) as H1 by (by rewrite Hx1, lookup_insert_eq).
    clear -Hcalls H1 sendTimingReq_req. induction Hcalls as [|x1 x2 x Hc _ IH]; [done|]. apply IH. by eapply xbar_call_route. }
  pose proof (lookup_lt_Some _ _ _ Hl) as Hlen.
  unfold recvTimingResp. rewrite Hr, Hroute. unfold InvalidPortID, at_port.
  rewrite (proj2 (Z.eqb_neq id (-1))) by lia. replace (id <? Z.of_nat _) with true by lia.
  replace (id <? 0) with false by lia. rewrite Hl. simpl.
  destruct (decide (state l = IDLE ∧ waitingForPeer l = None)) as [[Hi Hp]|Hbusy].
  - rewrite tryTiming_free by (congruence || done). simpl.
    destruct (calcPacketTiming_resp pr now r x Ht) as (d & Hd & ->). simpl.
    destruct Ht as (Hn & Hmax & _). destruct (clockEdge_spec _ _ _ Hn) as (Hb & _ & He).
    unfold clockEdge in He. injection He as He He'. rewrite He, He'. unfold succeededTiming.
    assert (0 <= now) as Hnow by (destruct Hn as (_ & _ & _ & ? & _); done).
    assert (0 < clockPeriod pr) as Hper by (by destruct Hn).
    unfold fits in Hd. rewrite Hi in Hst. destruct Hst as (Hrel & _).
    destruct (occupyLayer_spec now (u64 (tick (update (clockPeriod pr) now (clk x)) + clockPeriod pr + d))
      (set_state BUSY l)) as (o & Ho); [done|done| |].
    { rewrite wrap_small by (unfold fits; lia). lia. }
    simpl. rewrite Ho. simpl.
    eexists _, _, _, _, _. split; [reflexivity|]. simpl. rewrite list_lookup_insert_eq by done.
    split; [reflexivity|]. split; [done|]. split; [by split|]. split; [done|]. split; [done|].
    split; [|done]. rewrite Hr. apply lookup_delete_eq.
  - rewrite tryTiming_queued; [|destruct (state l); naive_solver|done]. simpl.
    eexists _, _, _, _, _. split; [reflexivity|]. simpl. rewrite list_lookup_insert_eq by done.
    split; [reflexivity|]. split; [done|]. split; [by split; [|intros ?]|].
    do 3 (split; [done|]). left. apply elem_of_app. right. by left.
Qed.

End Routes.

(** ** Witnesses: two memory-side ports, one CPU-side port *)

Definition ex_params : XBarParams := mkParams 1000000 1000 3 4 2 16 InvalidPortID false.
Definition ex_ranges (id : Z) : list AddrRange :=
  if id =? 0 then [range 0 0x10000] else [range 0x10000 0x20000; range 0x30000 0x40000].

Definition ex_xbar : BaseXBar :=
  set_gotAddrRanges [true; true] true
    (set_portMap (mkMap [(range 0 0x10000, 0); (range 0x10000 0x20000, 1)] [range 0x10000 0x20000])
      (NoncoherentXBar_new 2 1 false)).

Definition ex_request : Request :=
  mkRequest (Some 0x10040) (Some 64) false false false false false false false false false false false
    false false [] false.

(** A read of 64 bytes, as its constructor makes it. *)
Definition ex_packet : Packet :=
  match Packet_new ex_request ReadReq with Ok p => p | Err _ => mkPacket ReadReq 0 ex_request [] 0 false 0 [] 0 0 [] end.
Definition ex_xpkt : XBarPacket := mkXPkt ex_packet 7%positive 0 0.

Lemma ex_portMap_inv : map_inv (portMap ex_xbar).
Proof.
  split; simpl.
  - repeat first [apply Forall_cons_2|apply Forall_nil_2]; apply range_key_ok; lia.
  - repeat constructor.
  - intros x y Hx Hy. unfold keys, separate in *. simpl in *. set_unfold.
    destruct Hx as [-> |[-> |[]]], Hy as [-> |[-> |[]]]; simpl; try done; lia.
  - intros k Hk. unfold keys. simpl in *. set_solver.
Qed.

Lemma findPort_routes_witness :
  ∃ v x', findPort_pkt ex_params ex_xpkt ex_xbar = Ok (v, x') ∧ v = 1 ∧
  x' = set_portMap (portMap x') ex_xbar ∧ tree (portMap x') = tree (portMap ex_xbar) ∧
  map_inv (portMap x').
Proof.
  eexists _, _. split; [vm_compute; reflexivity|]. split; [reflexivity|].
  destruct (findPort_routes ex_params ex_xpkt ex_xbar 0x10040 64 eq_refl ex_portMap_inv
    ltac:(done) eq_refl eq_refl ltac:(lia) ltac:(lia) ltac:(lia)) as (H1 & H2 & H3 & _).
  by split.
Defined.

Lemma recvRangeChange_announces_witness :
  match recvRangeChange ex_params ex_ranges 1 ex_xbar with
  | Ok x' =>
      xbarRanges x' = [range 0 0x10000; range 0x10000 0x20000; range 0x30000 0x40000] ∧
      (gotAllAddrRanges x' = true → ∀ a, covered (xbarRanges x') a ↔ covered (keys (portMap x')) a)
  | Err _ => False
  end.
Proof.
  assert (all_compatible (ex_ranges 1) (keys (erase_port 1 (portMap ex_xbar)))) as Hc.
  { intros r k Hr Hk. simpl in Hr, Hk. right; right; left. set_unfold. naive_solver. }
  assert (Forall key_ok (ex_ranges 1)) as Hok
    by (repeat first [apply Forall_cons_2|apply Forall_nil_2]; apply range_key_ok; lia).
  pose proof (recvRangeChange_announces ex_params ex_ranges 1 ex_xbar eq_refl ltac:(done)
    ltac:(simpl; lia) ex_portMap_inv Hok Hc) as H.
  destruct (recvRangeChange ex_params ex_ranges 1 ex_xbar) as [x'|e] eqn:He;
    [|vm_compute in He; discriminate He].
  destruct H as (_ & _ & _ & H). split; [|exact H].
  vm_compute in He. injection He as <-. reflexivity.
Defined.

(** The neighbour takes the read; its response is scheduled at CPU-side port 0. *)
Definition ex_send (_ : Z) (p : XBarPacket) (w : list (Z * Z)) := (true, p, w).
Definition ex_sched (id : Z) (_ : XBarPacket) (t : Z) (w : list (Z * Z)) := w ++ [(id, t)].

Definition ex_forwarded : BaseXBar :=
  match recvTimingReq ex_send ex_params 500 ex_xpkt 0 ex_xbar [] with
  | Ok (_, _, x, _) => x | Err _ => ex_xbar end.

Lemma response_returns_witness :
  ∃ b r' x' w' l',
    recvTimingResp ex_sched ex_params 9100 ex_xpkt 1 ex_forwarded [] = Ok (b, r', x', w') ∧
    respLayers x' !! Z.to_nat 0 = Some l' ∧ pkt r' = pkt ex_xpkt ∧
    b = true ∧ w' = [(0, 12000)] ∧ headerDelay r' = 0.
Proof.
  assert (recvTimingReq ex_send ex_params 500 ex_xpkt 0 ex_xbar [] =
    Ok (true, set_headerDelay 7500 ex_xpkt, ex_forwarded, [])) as He by (vm_compute; reflexivity).
  destruct (response_returns ex_send ex_sched (λ _ p w, (0, p, w)) (λ _ p _, (false, p)) (λ _ p w, (p, w))
    ltac:(done) ex_params 500 ex_xpkt 0 ex_xbar [] _ _ _ ex_forwarded 9100 ex_xpkt 1 [] Layer_new He)
    as (b & r' & x' & w' & l' & Hr & Hl & Hp & Hb & Hd); try reflexivity.
  - split; [|done]. split; [constructor|]. simpl. split; [done|]. split; [done|]. by intros [? ?].
  - by intros [?%elem_of_nil|?].
  - unfold timely. assert (clk ex_forwarded = mkClocked 1000 1) as -> by (vm_compute; reflexivity).
    split; [unfold no_wrap; simpl; lia|]. split; [simpl; lia|]. split; [unfold fits; simpl; lia|].
    split; [eexists; reflexivity|]. vm_compute. discriminate.
  - assert (b = true) as -> by (by apply Hb). destruct Hd as (-> & Hh & _).
    eexists _, _, _, _, _. split; [exact Hr|]. split; [exact Hl|].
    split; [exact Hp|]. split; [reflexivity|]. split; [vm_compute; reflexivity|exact Hh].
Defined.

End XBarProps.
