(* ===== verification/PacketQueue.v ===== *)
(** * mem/packet_queue.hh, mem/packet_queue.cc: queues of deferred packets

    A port that cannot answer at once keeps its packets, each with the tick it is ready
    at, in a list, and an event that sends the first of them.  [sendTiming] is the
    neighbour: it says whether it takes the packet, and which packets, with their ticks,
    are queued at this same queue before it returns, in calls of [schedSendTiming]. *)

From Stdlib Require Import ZArith Lia.
From stdpp Require Import base numbers option list.
From S2P Require Import Prelude Packet XBarLayer.

Module PacketQueue.
Import Packet Drain.

(** ** The overloads of the packet's methods that take another packet *)

Definition matchAddr_pkt (t p : Packet) : result bool :=
  a ← getAddr p; s ← isSecure p; matchAddr t a s.

Definition matchBlockAddr_pkt (t p : Packet) (blk_size : Z) : result bool :=
  a ← getBlockAddr p blk_size; s ← isSecure p; matchBlockAddr t a s blk_size.

(** A packet that carries data offers it; a functional write changes it in place. *)
Definition trySatisfyFunctional_pkt (t other : Packet) : result (bool * Packet * Packet) :=
  if isMaskedWrite other then
    s ← isSecure other;
    _ ← (if eqb (_isSecure t) s then
           a ← getAddr t; a' ← getAddr other; sz' ← getSize other;
           if a <=? u64 (a' + sz' - 1) then sz ← getSize t; Ok tt else Ok tt
         else Ok tt);
    Ok (false, t, other)
  else
    a ← getAddr other;
    s ← isSecure other;
    sz ← getSize other;
    d ← (if hasData (cmd other) then _ ← assert_ok (hasPtr other); Ok (Some (data other))
         else Ok None);
    '(found, t, d) ← trySatisfyFunctional t a s sz d;
    Ok (found, t, match d with Some d => with_data other d (bytesValid other) | None => other end).

(** ** The queue *)

Definition MaxTick : Z := 2 ^ 64 - 1.

Record DeferredPacket := mkDeferred { tick : Z; dpkt : Packet }.

(** [sendEvent] is the time the event is scheduled for, if it is. *)
Record PacketQueue := mkPQ {
  transmitList : list DeferredPacket;
  sendEvent : option Z;
  waitingOnRetry : bool;
  drainState : DrainState;
  forceOrder : bool;
  disableSanityCheck : bool
}.

Definition PacketQueue_new (force_order disable_sanity_check : bool) : PacketQueue :=
  mkPQ [] None false Running force_order disable_sanity_check.

Definition set_list (l : list DeferredPacket) (q : PacketQueue) : PacketQueue :=
  mkPQ l (sendEvent q) (waitingOnRetry q) (drainState q) (forceOrder q) (disableSanityCheck q).
Definition set_event (t : option Z) (q : PacketQueue) : PacketQueue :=
  mkPQ (transmitList q) t (waitingOnRetry q) (drainState q) (forceOrder q) (disableSanityCheck q).
Definition set_waiting (b : bool) (q : PacketQueue) : PacketQueue :=
  mkPQ (transmitList q) (sendEvent q) b (drainState q) (forceOrder q) (disableSanityCheck q).
Definition set_drain (d : DrainState) (q : PacketQueue) : PacketQueue :=
  mkPQ (transmitList q) (sendEvent q) (waitingOnRetry q) d (forceOrder q) (disableSanityCheck q).

Definition set_disableSanityCheck (q : PacketQueue) : PacketQueue :=
  mkPQ (transmitList q) (sendEvent q) (waitingOnRetry q) (drainState q) (forceOrder q) true.

Definition size (q : PacketQueue) : nat := length (transmitList q).

Definition deferredPacketReady (now : Z) (q : PacketQueue) : bool :=
  match transmitList q with [] => false | dp :: _ => tick dp <=? now end.

Definition deferredPacketReadyTime (q : PacketQueue) : Z :=
  match transmitList q with [] => MaxTick | dp :: _ => tick dp end.

Definition scheduled (q : PacketQueue) : bool :=
  match sendEvent q with Some _ => true | None => false end.

(** EventManager::schedule and reschedule of the send event, with the assertions of the
    event queue. *)
Definition schedule_send (now when : Z) (q : PacketQueue) : result PacketQueue :=
  _ ← assert_ok (now <=? when);
  _ ← assert_ok (negb (scheduled q));
  Ok (set_event (Some when) q).

Definition reschedule_send (now when : Z) (q : PacketQueue) : result PacketQueue :=
  _ ← assert_ok (now <=? when);
  Ok (set_event (Some when) q).

Definition schedSendEvent (now when : Z) (q : PacketQueue) : result PacketQueue :=
  if waitingOnRetry q then
    _ ← assert_ok (negb (scheduled q)); Ok q
  else if negb (when =? MaxTick) then
    let when := Z.max when (u64 (now + 1)) in
    match sendEvent q with
    | None => schedule_send now when q
    | Some t => if when <? t then reschedule_send now when q else Ok q
    end
  else if bool_decide (drainState q = Draining) && bool_decide (transmitList q = [])
          && negb (scheduled q)
  then Ok (set_drain (signalDrainDone (drainState q)) q)
  else Ok q.

(** The search from the end of the list: [before] is what precedes the iterator, last
    first, and [after] what has been passed.  The result is the new list, and whether
    the packet went to its front. *)
Fixpoint emplace (force_order : bool) (when : Z) (p : Packet) (before after : list DeferredPacket)
    : result (list DeferredPacket * bool) :=
  match before with
  | [] => Ok (mkDeferred when p :: after, true)
  | it :: before' =>
      m ← (if force_order then matchAddr_pkt (dpkt it) p else Ok false);
      if (m : bool) || (tick it <=? when)
      then Ok (reverse before ++ mkDeferred when p :: after, false)
      else emplace force_order when p before' (it :: after)
  end.

Definition schedSendTiming (now : Z) (p : Packet) (when : Z) (q : PacketQueue) : result PacketQueue :=
  _ ← assert_ok (now <=? when);
  _ ← assert_ok (negb (isExpressSnoop p));
  _ ← panic_if (negb (disableSanityCheck q) && (1024 <? Z.of_nat (size q)));
  '(l, front) ← emplace (forceOrder q) when p (reverse (transmitList q)) [];
  let q := set_list l q in
  if (front : bool) then schedSendEvent now when q else Ok q.

(** The calls a neighbour makes before [sendTiming] returns. *)
Fixpoint nested (now : Z) (ps : list (Packet * Z)) (q : PacketQueue) : result PacketQueue :=
  match ps with
  | [] => Ok q
  | (p, when) :: ps => q ← schedSendTiming now p when q; nested now ps q
  end.

Section Neighbour.
Variable sendTiming : Packet → bool * list (Packet * Z).

Definition sendDeferredPacket (now : Z) (q : PacketQueue) : result PacketQueue :=
  _ ← assert_ok (negb (waitingOnRetry q));
  _ ← assert_ok (deferredPacketReady now q);
  dp ← deref (head (transmitList q));
  let q := set_list (tail (transmitList q)) q in
  let '(accepted, ps) := sendTiming (dpkt dp) in
  q ← nested now ps q;
  let q := set_waiting (negb accepted) q in
  if negb (waitingOnRetry q) then schedSendEvent now (deferredPacketReadyTime q) q
  else Ok (set_list (dp :: transmitList q) q).

Definition retry (now : Z) (q : PacketQueue) : result PacketQueue :=
  _ ← assert_ok (waitingOnRetry q);
  sendDeferredPacket now (set_waiting false q).

Definition processSendEvent (now : Z) (q : PacketQueue) : result PacketQueue :=
  _ ← assert_ok (negb (waitingOnRetry q));
  sendDeferredPacket now q.

(** The event queue services the send event, which is then no longer scheduled. *)
Definition service_send (now : Z) (q : PacketQueue) : result PacketQueue :=
  processSendEvent now (set_event None q).

End Neighbour.

Fixpoint checkConflict_list (p : Packet) (blk_size : Z) (l : list DeferredPacket) : result bool :=
  match l with
  | [] => Ok false
  | dp :: l => b ← matchBlockAddr_pkt (dpkt dp) p blk_size;
               if (b : bool) then Ok true else checkConflict_list p blk_size l
  end.

Definition checkConflict (p : Packet) (blk_size : Z) (q : PacketQueue) : result bool :=
  checkConflict_list p blk_size (transmitList q).

(** The packets of the queue answer a functional request in order, until one has it
    all; a packet that is written to is changed in place. *)
Fixpoint satisfy_list (p : Packet) (l : list DeferredPacket)
    : result (bool * Packet * list DeferredPacket) :=
  match l with
  | [] => Ok (false, p, [])
  | dp :: l =>
      '(found, p, other) ← trySatisfyFunctional_pkt p (dpkt dp);
      let dp := mkDeferred (tick dp) other in
      if (found : bool) then Ok (true, p, dp :: l)
      else '(found, p, l) ← satisfy_list p l; Ok (found, p, dp :: l)
  end.

Definition satisfyFunctional (p : Packet) (q : PacketQueue) : result (bool * Packet * PacketQueue) :=
  '(found, p, l) ← satisfy_list p (transmitList q);
  Ok (found, p, set_list l q).

Definition drain (q : PacketQueue) : DrainState :=
  if bool_decide (transmitList q = []) then Drained else Draining.

Definition dmDrain (q : PacketQueue) : PacketQueue :=
  let q := set_drain Draining q in set_drain (drain q) q.

End PacketQueue.
