(* ===== verification/PacketQueueProps.v ===== *)
(** * mem/packet_queue: no packet is lost, duplicated, forgotten or overtaken

    The steps of a queue are the calls of its owner, the send event, the neighbour's
    retry, and the passing of time; two logs, of the packets queued and of those the
    neighbour has taken, state what the queue is for. *)

From Stdlib Require Import ZArith Lia.
From stdpp Require Import base numbers option list sorting relations.
From S2P Require Import Prelude Flags Packet XBarLayer PacketQueue.

Module PacketQueueProps.
Import Flags Packet Drain PacketQueue.

(** ** Insertion *)

Definition addressable (p : Packet) : Prop := isSet (flags p) VALID_ADDR = true.

Definition same_addr (t p : Packet) : bool := (addr t =? addr p) && eqb (_isSecure t) (_isSecure p).

Lemma matchAddr_same t p : addressable t → addressable p → matchAddr_pkt t p = Ok (same_addr t p).
Proof.
  unfold addressable, matchAddr_pkt, matchAddr, getAddr, isSecure, same_addr. intros -> ->. simpl.
  by destruct (_ =? _).
Qed.

(** A queued packet has an address and becomes ready before the end of time. *)
Definition entry_ok (d : DeferredPacket) : Prop := addressable (dpkt d) ∧ tick d < MaxTick.

(** The packets [p] may not overtake, resp. that it goes ahead of. *)
Definition stays_behind (force : bool) (when : Z) (p : Packet) (d : DeferredPacket) : Prop :=
  (force = true ∧ same_addr (dpkt d) p = true) ∨ tick d <= when.

Lemma emplace_spec force when p before : ∀ after, addressable p →
  Forall entry_ok before → Forall (λ d, ¬ stays_behind force when p d) after →
  ∃ l1 l2, reverse before ++ after = l1 ++ l2 ∧
    emplace force when p before after = Ok (l1 ++ mkDeferred when p :: l2, bool_decide (l1 = [])) ∧
    Forall (λ d, ¬ stays_behind force when p d) l2 ∧
    (∀ d, last l1 = Some d → stays_behind force when p d).
Proof.
  induction before as [|d before IH]; intros after Hp Hb Ha.
  { exists [], after. split; [done|]. split; [done|]. by split. }
  apply Forall_cons in Hb as [[Hd _] Hb]. cbn [emplace].
  assert ((if force then matchAddr_pkt (dpkt d) p else Ok false) =
    Ok (force && same_addr (dpkt d) p)) as ->.
  { destruct force; [|done]. by rewrite matchAddr_same. }
  simpl. destruct (force && same_addr (dpkt d) p || (tick d <=? when)) eqn:Hs.
  - exists (reverse (d :: before)), after. split; [done|]. split; [|split; [done|]].
    + rewrite bool_decide_eq_false_2; [done|]. rewrite reverse_cons. by destruct (reverse before).
    + intros d'. rewrite reverse_cons, last_snoc. intros [= <-]. unfold stays_behind.
      apply orb_true_iff in Hs as [Hs|Hs]; [left; by apply andb_true_iff in Hs|right; lia].
  - destruct (IH (d :: after)) as (l1 & l2 & Heq & He & Hl2 & Hl1); [done|done| |].
    { constructor; [|done]. apply orb_false_iff in Hs as [Hs1 Hs2]. unfold stays_behind.
      intros [[-> Hs]|?]; [by rewrite Hs in Hs1|lia]. }
    exists l1, l2. split; [|done]. by rewrite <-Heq, reverse_cons, <-app_assoc.
Qed.

(** ** The send event *)

(** The send event is due when the first packet is ready, or on the next tick. *)
Definition due (now : Z) (q : PacketQueue) (t : Z) : Prop :=
  ∃ d l, transmitList q = d :: l ∧ now <= t ∧ tick d <= t <= Z.max (tick d) (now + 1).

(** While the queue is being worked on, the event may still have to be scheduled. *)
Definition working (now : Z) (q : PacketQueue) : Prop :=
  waitingOnRetry q = false ∧ Forall entry_ok (transmitList q) ∧
  ∀ t, sendEvent q = Some t → due now q t.

Definition pq_inv (now : Z) (q : PacketQueue) : Prop :=
  Forall entry_ok (transmitList q) ∧
  if waitingOnRetry q then sendEvent q = None ∧ transmitList q ≠ []
  else match sendEvent q with
       | None => transmitList q = []
       | Some t => due now q t
       end.

(** ** Requests of the owner *)

Definition request_ok (now : Z) (r : Packet * Z) : Prop :=
  now <= r.2 < MaxTick ∧ isExpressSnoop r.1 = false ∧ addressable r.1.

Definition room (n : nat) (q : PacketQueue) : Prop :=
  disableSanityCheck q = true ∨ Z.of_nat (length (transmitList q) + n) <= 1025.

(** Where a packet went. *)
Definition inserted (q : PacketQueue) (p : Packet) (when : Z) (l : list DeferredPacket) : Prop :=
  ∃ l1 l2, transmitList q = l1 ++ l2 ∧ l = l1 ++ mkDeferred when p :: l2 ∧
    Forall (λ d, ¬ stays_behind (forceOrder q) when p d) l2 ∧
    (∀ d, last l1 = Some d → stays_behind (forceOrder q) when p d).

Lemma schedSendTiming_list now p when q : request_ok now (p, when) → room 1 q →
  Forall entry_ok (transmitList q) →
  ∃ l, inserted q p when l ∧
    (schedSendTiming now p when q = Ok (set_list l q) ∧ head l = head (transmitList q) ∧
       transmitList q ≠ [] ∨
     schedSendTiming now p when q = schedSendEvent now when (set_list l q) ∧
       l = mkDeferred when p :: transmitList q ∧
       (∀ d, head (transmitList q) = Some d → when < tick d)).
Proof.
  intros [Hw [Hx Hp]] Hroom Hok. unfold schedSendTiming. simpl in *.
  replace (now <=? when) with true by lia. rewrite Hx. simpl.
  assert (negb (disableSanityCheck q) && (1024 <? Z.of_nat (size q)) = false) as ->.
  { unfold size. destruct Hroom as [->|Hr]; [done|]. apply andb_false_iff. right. lia. }
  simpl. destruct (emplace_spec (forceOrder q) when p (reverse (transmitList q)) [] Hp)
    as (l1 & l2 & Heq & -> & Hl2 & Hl1); [by apply Forall_reverse|done|].
  rewrite reverse_involutive, app_nil_r in Heq. simpl.
  exists (l1 ++ mkDeferred when p :: l2). split; [by exists l1, l2|]. rewrite Heq.
  destruct l1 as [|d l1]; [right|left]; [|done]. split; [done|]. split; [done|].
  simpl. intros d Hd. destruct l2 as [|d2 l2]; [done|]. injection Hd as ->.
  apply Forall_cons in Hl2 as [Hl2 _]. unfold stays_behind in Hl2.
  assert (¬ tick d <= when) by tauto. lia.
Qed.

(** ** One call of [schedSendEvent] *)

(** What no call changes. *)
Definition same_config (q q' : PacketQueue) : Prop :=
  forceOrder q' = forceOrder q ∧ disableSanityCheck q' = disableSanityCheck q.

Definition in_time (now : Z) : Prop := 0 <= now < 2 ^ 64 - 1.

Lemma next_tick now : in_time now → u64 (now + 1) = now + 1.
Proof. intros. apply wrap_small. unfold fits, in_time in *. lia. Qed.

Lemma schedSendEvent_front now d l q : in_time now → waitingOnRetry q = false →
  transmitList q = d :: l → tick d < MaxTick →
  (∀ t, sendEvent q = Some t → now <= t ∧ tick d <= t) →
  ∃ t, schedSendEvent now (tick d) q = Ok (set_event (Some t) q) ∧ due now (set_event (Some t) q) t.
Proof.
  intros Hn Hw Hl Hd Hev. unfold schedSendEvent. rewrite Hw, next_tick by done.
  replace (tick d =? MaxTick) with false by lia. simpl.
  assert (now <= Z.max (tick d) (now + 1)) as Hle by lia. apply Z.leb_le in Hle.
  destruct (sendEvent q) as [t|] eqn:He.
  - specialize (Hev t eq_refl). destruct (Z.ltb_spec (Z.max (tick d) (now + 1)) t).
    + exists (Z.max (tick d) (now + 1)). unfold reschedule_send. rewrite Hle. split; [done|].
      exists d, l. split; [done|]. lia.
    + exists t. destruct q; simpl in *; subst. split; [done|]. exists d, l. split; [done|]. lia.
  - exists (Z.max (tick d) (now + 1)). unfold schedule_send, scheduled. rewrite Hle, He.
    split; [done|]. exists d, l. split; [done|]. lia.
Qed.

(** ** Requests *)

Lemma inserted_ok q p when l : inserted q p when l → entry_ok (mkDeferred when p) →
  Forall entry_ok (transmitList q) → Forall entry_ok l.
Proof. intros (l1 & l2 & -> & -> & _) Hp. rewrite !Forall_app, Forall_cons. tauto. Qed.

Lemma inserted_length q p when l : inserted q p when l → length l = S (length (transmitList q)).
Proof. intros (l1 & l2 & -> & -> & _). rewrite !length_app. simpl. lia. Qed.

(** What a request changes, whether the queue is at rest or being worked on. *)
Lemma schedSendTiming_spec now p when q : in_time now → request_ok now (p, when) → room 1 q →
  Forall entry_ok (transmitList q) →
  (if waitingOnRetry q then sendEvent q = None else ∀ t, sendEvent q = Some t → due now q t) →
  ∃ q', schedSendTiming now p when q = Ok q' ∧ inserted q p when (transmitList q') ∧
    waitingOnRetry q' = waitingOnRetry q ∧ drainState q' = drainState q ∧ same_config q q' ∧
    (if waitingOnRetry q then sendEvent q' = None
     else (∀ t, sendEvent q' = Some t → due now q' t) ∧
          (sendEvent q = None → transmitList q ≠ [] ∨ is_Some (sendEvent q')) ∧
          (is_Some (sendEvent q) → is_Some (sendEvent q'))).
Proof.
  intros Hn Hreq Hroom Hok Hev.
  destruct (schedSendTiming_list _ _ _ _ Hreq Hroom Hok)
    as (l & Hins & [(-> & Hhd & Hne)|(-> & -> & Hlt)]); destruct Hreq as [Hwhen [Hx Hp]].
  - eexists. split; [done|]. simpl. do 3 (split; [done|]). split; [done|].
    destruct (waitingOnRetry q) eqn:Hw; [done|]. split; [|by split; [left|]].
    intros t Ht. destruct (Hev t Ht) as (d & l2 & Hd & Hr). rewrite Hd in Hhd.
    destruct l as [|d' l]; [done|]. injection Hhd as ->. by exists d, l.
  - destruct (waitingOnRetry q) eqn:Hw.
    + eexists. split; [unfold schedSendEvent, scheduled; simpl; by rewrite Hw, Hev|]. done.
    + destruct (schedSendEvent_front now (mkDeferred when p) (transmitList q)
        (set_list (mkDeferred when p :: transmitList q) q))
        as (t & Ht & Hdue); [done|done|done|simpl in *; lia| |].
      { simpl. intros t Ht. destruct (Hev t Ht) as (d & l2 & Hd & ? & ?). split; [done|].
        rewrite Hd in Hlt. specialize (Hlt d eq_refl). lia. }
      eexists. split; [exact Ht|]. simpl. do 4 (split; [done|]).
      split; [by intros ? [= <-]|]. split; [by right|]. done.
Qed.

(** ** Order *)

(** [l] is the log in another order: the packets to one address keep theirs if the queue
    was told so, and otherwise [l] is the stable sort of the log by tick. *)
Definition ordered (force : bool) (log l : list DeferredPacket) : Prop :=
  l ≡ₚ log ∧
  if force then ∀ p, filter (λ d, same_addr (dpkt d) p = true) l
                   = filter (λ d, same_addr (dpkt d) p = true) log
  else StronglySorted (λ d1 d2, tick d1 <= tick d2) l ∧
       ∀ t, filter (λ d, tick d = t) l = filter (λ d, tick d = t) log.

Lemma filter_insert (P : DeferredPacket → Prop) `{!∀ d, Decision (P d)} d l1 l2 log :
  filter P (l1 ++ l2) = filter P log → (P d → Forall (λ d', ¬ P d') l2) →
  filter P (l1 ++ d :: l2) = filter P (log ++ [d]).
Proof.
  rewrite !filter_app. intros <- Hl2. rewrite !filter_cons. destruct (decide (P d)) as [Hd|].
  - assert (filter P l2 = []) as ->; [|by rewrite app_nil_r].
    clear -Hl2 Hd. specialize (Hl2 Hd). induction Hl2; [done|]. rewrite filter_cons. by case_decide.
  - by rewrite filter_nil, app_nil_r.
Qed.

Lemma sorted_insert d (l1 l2 : list DeferredPacket) :
  StronglySorted (λ d1 d2, tick d1 <= tick d2) (l1 ++ l2) →
  (∀ d', last l1 = Some d' → tick d' <= tick d) → Forall (λ d', tick d <= tick d') l2 →
  StronglySorted (λ d1 d2, tick d1 <= tick d2) (l1 ++ d :: l2).
Proof.
  rewrite !StronglySorted_app, StronglySorted_cons. intros (H12 & Hs1 & Hs2) Hl1 Hl2.
  split; [|done]. intros x1 x2 Hx1 Hx2.
  assert (tick x1 <= tick d) as Hx.
  { destruct l1 as [|y l1 _] using rev_ind; [by apply elem_of_nil in Hx1|].
    rewrite last_snoc in Hl1. specialize (Hl1 y eq_refl).
    apply elem_of_app in Hx1 as [Hx1|Hx1]; [|by apply list_elem_of_singleton in Hx1 as ->].
    apply StronglySorted_app in Hs1 as (Hy & _). specialize (Hy x1 y Hx1). rewrite
      list_elem_of_singleton in Hy. specialize (Hy eq_refl). lia. }
  apply elem_of_cons in Hx2 as [->|Hx2]; [done|]. rewrite Forall_forall in Hl2.
  specialize (Hl2 _ Hx2). lia.
Qed.

Lemma same_addr_trans d p p' : same_addr d p' = true → same_addr p p' = true →
  same_addr d p = true.
Proof.
  unfold same_addr. rewrite !andb_true_iff, !Z.eqb_eq, !eqb_true_iff. intros [-> ->] [-> ->]. done.
Qed.

(** An insertion into the list continues the order of what was sent and what waits. *)
Lemma inserted_ordered q p when l log sent now :
  inserted q p when l → Forall (λ d, tick d <= now) sent → now <= when →
  ordered (forceOrder q) log (sent ++ transmitList q) →
  ordered (forceOrder q) (log ++ [mkDeferred when p]) (sent ++ l).
Proof.
  intros (l1 & l2 & Hq & -> & Hl2 & Hl1) Hsent Hnow [Hperm Hord]. rewrite Hq in *.
  rewrite !app_assoc in *. split.
  { rewrite <-Permutation_middle, <-Permutation_cons_append. by constructor. }
  destruct (forceOrder q).
  - intros p'. apply filter_insert; [done|]. simpl. intros Hp.
    eapply Forall_impl; [exact Hl2|]. simpl. intros d Hd Hd'. apply Hd. left. split; [done|].
    by eapply same_addr_trans.
  - destruct Hord as [Hs Hf]. split.
    + apply sorted_insert; simpl; [done| |].
      * intros d Hd. rewrite last_app in Hd. destruct (last l1) as [d'|] eqn:Hl.
        -- injection Hd as ->. by destruct (Hl1 d eq_refl) as [[? _]|].
        -- rewrite last_lookup in Hd. rewrite Forall_lookup in Hsent.
           specialize (Hsent _ _ Hd). simpl in *. lia.
      * eapply Forall_impl; [exact Hl2|]. unfold stays_behind. simpl. intros d Hd.
        destruct (Z.le_gt_cases (tick d) when); [tauto|lia].
    + intros t. apply filter_insert; [done|]. simpl. intros <-.
      eapply Forall_impl; [exact Hl2|]. unfold stays_behind. simpl. intros d Hd Heq.
      apply Hd. right. lia.
Qed.

(** ** Packets queued while one is being sent *)

Definition deferred (r : Packet * Z) : DeferredPacket := mkDeferred r.2 r.1.

Lemma nested_spec now ps : ∀ q, in_time now → Forall (request_ok now) ps →
  room (length ps) q → working now q →
  ∃ q', nested now ps q = Ok q' ∧ working now q' ∧ drainState q' = drainState q ∧
    same_config q q' ∧
    ∀ log sent, Forall (λ d, tick d <= now) sent →
      ordered (forceOrder q) log (sent ++ transmitList q) →
      ordered (forceOrder q) (log ++ map deferred ps) (sent ++ transmitList q').
Proof.
  induction ps as [|[p when] ps IH]; intros q Hn Hps Hroom (Hw & Hok & Hev).
  { exists q. do 4 (split; [done|]). intros. by rewrite app_nil_r. }
  apply Forall_cons in Hps as [Hp Hps].
  destruct (schedSendTiming_spec now p when q) as (q1 & H1 & Hins & Hw1 & Hd1 & [Hf1 Hs1] & Hev1);
    [done|done| |done|by rewrite Hw|].
  { unfold room in *. simpl in Hroom. destruct Hroom; [by left|right; lia]. }
  rewrite Hw in Hev1, Hw1. destruct Hev1 as [Hev1 _].
  destruct (IH q1) as (q' & H2 & Hwk & Hd' & [Hf' Hs'] & Hord); [done|done| | |].
  { unfold room in *. rewrite Hs1. simpl in Hroom. apply inserted_length in Hins. rewrite Hins.
    destruct Hroom; [by left|right; lia]. }
  { split; [done|]. split; [|done]. eapply inserted_ok; [done| |done].
    destruct Hp as [Hp1 Hp2]. simpl in *. unfold entry_ok. simpl. split; [by apply Hp2|lia]. }
  exists q'. simpl. rewrite H1. simpl. split; [done|]. split; [done|].
  split; [congruence|]. split; [split; congruence|].
  intros log sent Hsent Hl. rewrite Hf1 in Hord. rewrite cons_middle, app_assoc.
  apply Hord; [done|]. eapply inserted_ordered; [done|done| |done]. apply Hp.
Qed.

(** ** Sending *)

(** What the queue relies on: the neighbour queues legal packets, not more than the queue
    takes, and none with a packet that it refuses (the refused packet goes back to the
    front, and the queue waits with no event scheduled). *)
Definition neighbour_ok (now : Z) (q : PacketQueue) (answer : bool * list (Packet * Z)) : Prop :=
  Forall (request_ok now) answer.2 ∧ (answer.1 = false → answer.2 = []) ∧
  room (length answer.2) (set_list (tail (transmitList q)) q).

Definition sent_now (q : PacketQueue) (send : Packet → bool * list (Packet * Z)) : bool * list (Packet * Z) :=
  match transmitList q with d :: _ => send (dpkt d) | [] => (false, []) end.

Definition pq_drain (q : PacketQueue) : Prop := drainState q = Draining → transmitList q ≠ [].

Definition taken (q : PacketQueue) (answer : bool * list (Packet * Z)) : list DeferredPacket :=
  if answer.1 then take 1 (transmitList q) else [].

Lemma working_rest now q : in_time now → working now q →
  ∃ q', schedSendEvent now (deferredPacketReadyTime q) q = Ok q' ∧ pq_inv now q' ∧ pq_drain q' ∧
    waitingOnRetry q' = false ∧ transmitList q' = transmitList q ∧ same_config q q'.
Proof.
  intros Hn (Hw & Hok & Hev). unfold deferredPacketReadyTime, pq_inv, pq_drain.
  destruct (transmitList q) as [|d l] eqn:Hl.
  - assert (sendEvent q = None) as He.
    { destruct (sendEvent q) as [t|]; [|done]. destruct (Hev t eq_refl) as (d & l & Hd & _).
      by rewrite Hl in Hd. }
    unfold schedSendEvent, scheduled. rewrite Hw, Z.eqb_refl, He, Hl. simpl.
    rewrite andb_true_r, andb_true_r. case_bool_decide as Hd.
    + rewrite Hd. eexists. split; [done|]. simpl. by rewrite Hl, Hw, He.
    + exists q. by rewrite Hl, Hw, He.
  - destruct (schedSendEvent_front now d l q) as (t & -> & Hdue); [done|done|done| | |].
    { apply Forall_cons in Hok as [[_ Hd] _]. done. }
    { intros t Ht. destruct (Hev t Ht) as (d' & l' & Hd & ? & ?).
      rewrite Hl in Hd. injection Hd as <- <-. lia. }
    eexists. split; [done|]. simpl. by rewrite Hl, Hw.
Qed.

Lemma send_spec now q send d l : in_time now → transmitList q = d :: l →
  Forall entry_ok (transmitList q) → tick d <= now → waitingOnRetry q = false → sendEvent q = None →
  neighbour_ok now q (sent_now q send) →
  ∃ q', sendDeferredPacket send now q = Ok q' ∧ pq_inv now q' ∧ pq_drain q' ∧ same_config q q' ∧
    (waitingOnRetry q' = true → deferredPacketReady now q' = true) ∧
    ∀ log sent, Forall (λ d, tick d <= now) sent →
      ordered (forceOrder q) log (sent ++ transmitList q) →
      ordered (forceOrder q) (log ++ map deferred (sent_now q send).2)
        ((sent ++ taken q (sent_now q send)) ++ transmitList q').
Proof.
  intros Hn Hl Hok Hd Hw He Hnb. unfold sendDeferredPacket, deferredPacketReady, sent_now, taken in *.
  rewrite Hl, Hw in *. simpl in *. replace (tick d <=? now) with true by lia. simpl.
  destruct (send (dpkt d)) as [acc ps]. destruct Hnb as (Hps & Hrefuse & Hroom). simpl in *.
  rewrite Hl in Hroom. simpl in Hroom. apply Forall_cons in Hok as [Hd0 Hok].
  destruct acc; [|rewrite (Hrefuse eq_refl)].
  - destruct (nested_spec now ps (set_list l q)) as (q1 & -> & (Hw1 & Hok1 & Hev1) & Hd1 & [Hf1 Hs1] & Hord);
      [done|done|done|split; [done|split; [done|]]; simpl; by rewrite He|]. simpl in *.
    destruct (working_rest now (set_waiting false q1)) as (q' & Hq' & Hinv & Hdr & Hw' & Hl' & [Hf' Hs']);
      [done|done|].
    exists q'. split; [done|]. split; [done|]. split; [done|]. split; [split; simpl in *; congruence|].
    split; [by rewrite Hw'|]. intros log sent Hsent Hlog. rewrite Hl'. simpl. apply Hord.
    { by rewrite Forall_app, Forall_singleton. }
    by rewrite <-app_assoc.
  - eexists. split; [done|]. unfold pq_inv, pq_drain. simpl. rewrite He.
    split; [by rewrite Forall_cons|]. do 2 (split; [done|]).
    split; [intros _; unfold deferredPacketReady; simpl; lia|]. intros log sent _. by rewrite !app_nil_r.
Qed.

(** ** Runs *)

(** A run keeps the packets that were queued, and those the neighbour took, in order. *)
Record Run := mkRun { now : Z; queue : PacketQueue; queued : list DeferredPacket;
                      taken_log : list DeferredPacket }.

(** The event queue services the send event at its time and does not go past it. *)
Inductive step : Run → Run → Prop :=
  | step_request n q q' p when log sent :
      request_ok n (p, when) → room 1 q → schedSendTiming n p when q = Ok q' →
      step (mkRun n q log sent) (mkRun n q' (log ++ [deferred (p, when)]) sent)
  | step_service n q q' send log sent :
      sendEvent q = Some n → neighbour_ok n q (sent_now q send) → service_send send n q = Ok q' →
      step (mkRun n q log sent)
        (mkRun n q' (log ++ map deferred (sent_now q send).2) (sent ++ taken q (sent_now q send)))
  | step_retry n q q' send log sent :
      waitingOnRetry q = true → neighbour_ok n q (sent_now q send) → retry send n q = Ok q' →
      step (mkRun n q log sent)
        (mkRun n q' (log ++ map deferred (sent_now q send).2) (sent ++ taken q (sent_now q send)))
  | step_drain n q log sent : step (mkRun n q log sent) (mkRun n (dmDrain q) log sent)
  | step_time n n' q log sent : n <= n' → in_time n' → (∀ t, sendEvent q = Some t → n' <= t) →
      step (mkRun n q log sent) (mkRun n' q log sent).

Definition initial (force disable : bool) : Run := mkRun 0 (PacketQueue_new force disable) [] [].

Definition reachable (force disable : bool) : Run → Prop := rtc step (initial force disable).

(** A queue that waits for a retry has sent, or tried to send, its first packet. *)
Definition run_inv (force : bool) (r : Run) : Prop :=
  in_time (now r) ∧ pq_inv (now r) (queue r) ∧ pq_drain (queue r) ∧
  (waitingOnRetry (queue r) = true → deferredPacketReady (now r) (queue r) = true) ∧
  forceOrder (queue r) = force ∧ Forall (λ d, tick d <= now r) (taken_log r) ∧
  ordered force (queued r) (taken_log r ++ transmitList (queue r)).

(** A call that serves the queue, in either state. *)
Lemma send_run force n q log sent send q0 :
  run_inv force (mkRun n q log sent) → transmitList q ≠ [] → deferredPacketReady n q = true →
  neighbour_ok n q (sent_now q send) →
  q0 = set_event None (set_waiting false q) →
  ∃ q', sendDeferredPacket send n q0 = Ok q' ∧
    run_inv force (mkRun n q' (log ++ map deferred (sent_now q send).2) (sent ++ taken q (sent_now q send))).
Proof.
  intros (Hn & [Hok _] & _ & _ & Hf & Hsent & Hord) Hne Hready Hnb ->. simpl in *.
  unfold deferredPacketReady in Hready. destruct (transmitList q) as [|d l] eqn:Hl; [done|].
  destruct (send_spec n (set_event None (set_waiting false q)) send d l)
    as (q' & Hq' & Hinv & Hdr & [Hf' _] & Hrd & Hord');
    [done|done|simpl; by rewrite Hl|lia|done|done|done|].
  exists q'. split; [done|]. simpl in *. do 4 (split; [done|]). split; [simpl; congruence|]. simpl.
  split.
  - rewrite Forall_app. split; [done|]. unfold taken. rewrite Hl. destruct (_.1); [|done].
    simpl. constructor; [lia|done].
  - subst force. apply Hord'; [done|]. by rewrite Hl.
Qed.

Lemma request_run force n q p when log sent :
  run_inv force (mkRun n q log sent) → request_ok n (p, when) → room 1 q →
  ∃ q', schedSendTiming n p when q = Ok q' ∧
    run_inv force (mkRun n q' (log ++ [deferred (p, when)]) sent).
Proof.
  intros (Hn & [Hok Hst] & Hdr & Hrd & Hf & Hsent & Hord) Hreq Hroom. simpl in *.
  destruct (schedSendTiming_spec n p when q) as (q' & -> & Hins & Hw & Hd & [Hf' _] & Hev); [done..| |].
  { destruct (waitingOnRetry q); [by destruct Hst|]. by destruct (sendEvent q); [intros ? [= <-]|]. }
  assert (transmitList q' ≠ []) as Hne by (apply inserted_length in Hins; by destruct (transmitList q')).
  exists q'. split; [done|]. split; [done|]. simpl. split; [split|].
  - eapply inserted_ok; [done| |done]. destruct Hreq as [Hr1 Hr2]. simpl in *.
    split; [by apply Hr2|simpl; lia].
  - rewrite Hw. destruct (waitingOnRetry q); [done|]. destruct Hev as (Hev1 & Hev2 & Hev3).
    destruct (sendEvent q') as [t|]; [by apply Hev1|]. destruct (sendEvent q) as [t|].
    + by destruct (Hev3 (mk_is_Some _ _ eq_refl)).
    + destruct (Hev2 eq_refl) as [|[? ?]]; [done|done].
  - split; [by intros _|]. split; [|split; [congruence|split; [done|]]].
    + rewrite Hw. intros Hw1. specialize (Hrd Hw1). unfold deferredPacketReady in *.
      destruct Hins as (l1 & l2 & Hq & -> & Hl2 & _). rewrite Hq in Hrd.
      destruct l1 as [|d l1]; [|done]. destruct l2 as [|d l2]; [done|]. simpl in *.
      apply Forall_cons in Hl2 as [Hl2 _]. destruct Hreq as [Hr1 _]. simpl in Hr1.
      unfold stays_behind in Hl2. assert (tick d <= when) by lia. tauto.
    + subst force. eapply inserted_ordered; [done|done| |done]. apply Hreq.
Qed.

Lemma service_ready force n q log sent :
  run_inv force (mkRun n q log sent) → sendEvent q = Some n →
  waitingOnRetry q = false ∧ transmitList q ≠ [] ∧ deferredPacketReady n q = true.
Proof.
  intros (_ & [_ Hst] & _) He. simpl in *. unfold deferredPacketReady.
  destruct (waitingOnRetry q); [by destruct Hst as [? _]; congruence|]. rewrite He in Hst.
  destruct Hst as (d & l & -> & ? & ?). split; [done|]. split; [done|]. lia.
Qed.

Lemma service_run force n q log sent send :
  run_inv force (mkRun n q log sent) → sendEvent q = Some n → neighbour_ok n q (sent_now q send) →
  ∃ q', service_send send n q = Ok q' ∧
    run_inv force (mkRun n q' (log ++ map deferred (sent_now q send).2) (sent ++ taken q (sent_now q send))).
Proof.
  intros Hinv He Hnb. destruct (service_ready _ _ _ _ _ Hinv He) as (Hw & Hne & Hrd).
  unfold service_send, processSendEvent. simpl. rewrite Hw. simpl.
  eapply send_run; [done|done|done|done|]. unfold set_event, set_waiting. simpl. by rewrite Hw.
Qed.

Lemma retry_run force n q log sent send :
  run_inv force (mkRun n q log sent) → waitingOnRetry q = true → neighbour_ok n q (sent_now q send) →
  ∃ q', retry send n q = Ok q' ∧
    run_inv force (mkRun n q' (log ++ map deferred (sent_now q send).2) (sent ++ taken q (sent_now q send))).
Proof.
  intros Hinv Hw Hnb. pose proof Hinv as (_ & [_ Hst] & _ & Hrd & _). simpl in *. rewrite Hw in Hst.
  unfold retry. rewrite Hw. simpl. eapply send_run; [done|apply Hst|by apply Hrd|done|].
  unfold set_event, set_waiting. simpl. by rewrite (proj1 Hst).
Qed.

Lemma queue_step_inv force r r' : run_inv force r → step r r' → run_inv force r'.
Proof.
  intros Hinv Hs. destruct Hs as [n q q' p when log sent Hr Hroom Hq|n q q' send log sent He Hnb Hq
    |n q q' send log sent Hw Hnb Hq|n q log sent|n n' q log sent Hle Hn' Hev].
  - destruct (request_run _ _ _ _ _ _ _ Hinv Hr Hroom) as (q1 & ? & ?). congruence.
  - destruct (service_run _ _ _ _ _ _ Hinv He Hnb) as (q1 & ? & ?). congruence.
  - destruct (retry_run _ _ _ _ _ _ Hinv Hw Hnb) as (q1 & ? & ?). congruence.
  - destruct Hinv as (? & ? & Hd & ?). split; [done|]. split; [done|]. split; [|done].
    simpl in *. unfold pq_drain, dmDrain, drain. simpl. by case_bool_decide.
  - destruct Hinv as (? & [? Hst] & ? & Hrd & ? & Hsent & ?). split; [done|]. simpl in *.
    split; [split; [done|]|split; [done|split; [|split; [done|split; [|done]]]]].
    + destruct (waitingOnRetry q); [done|]. destruct (sendEvent q) as [t|]; [|done].
      specialize (Hev t eq_refl). destruct Hst as (d & l & Hd & ? & ?). exists d, l. split; [done|]. lia.
    + intros Hw. specialize (Hrd Hw). unfold deferredPacketReady in *.
      destruct (transmitList q); [done|lia].
    + eapply Forall_impl; [done|]. simpl. lia.
Qed.

Lemma queue_reachable_inv force disable r : reachable force disable r → run_inv force r.
Proof.
  unfold reachable. intros Hr. remember (initial force disable) as r0 eqn:H0.
  assert (run_inv force r0) as Hinv.
  { subst. split; [done|]. do 5 (split; [done|]). split; [done|]. destruct force; [done|].
    split; [constructor|done]. }
  clear H0. induction Hr as [|r0 r1 r2 Hs _ IH]; [done|]. apply IH. by eapply queue_step_inv.
Qed.

(** ** A run *)

Definition ex_packet (a : Z) : Packet :=
  mkPacket WriteReq (VALID_ADDR .| VALID_SIZE)
    (mkRequest (Some a) (Some 4) false false false false false false false false false
       false false false false [] false)
    [] a false 4 [] 0 0 [].

Definition ex_accept (ps : list (Packet * Z)) (_ : Packet) : bool * list (Packet * Z) := (true, ps).
Definition ex_refuse (_ : Packet) : bool * list (Packet * Z) := (false, []).

(** Three requests, of which the second goes to the front and the third may not pass it;
    the neighbour takes the first packet, queues another and then refuses one. *)
Definition ex_run : Run :=
  mkRun 4
    (mkPQ [mkDeferred 2 (ex_packet 128); mkDeferred 5 (ex_packet 64); mkDeferred 4 (ex_packet 64)]
       None true Draining true false)
    [mkDeferred 5 (ex_packet 64); mkDeferred 3 (ex_packet 128); mkDeferred 2 (ex_packet 128);
     mkDeferred 4 (ex_packet 64)]
    [mkDeferred 3 (ex_packet 128)].

Ltac ex_side :=
  lazymatch goal with
  | |- request_ok _ _ => split; [split; vm_compute; done|split; vm_compute; done]
  | |- room _ _ => right; vm_compute; done
  | |- neighbour_ok _ _ _ =>
      split; [repeat constructor; vm_compute; done|split; [done|right; vm_compute; done]]
  | |- in_time _ => split; vm_compute; done
  | |- ∀ _, _ => intros ? [= <-]; lia
  | |- _ <= _ => lia
  | |- _ = Ok _ => vm_compute; reflexivity
  | |- _ => reflexivity
  end.
Tactic Notation "ex_step" uconstr(c) := eapply rtc_l; [eapply c; ex_side|].

Lemma ex_queue_reachable : reachable true false ex_run.
Proof.
  unfold reachable, initial.
  ex_step (step_request 0 _ _ (ex_packet 64) 5).
  ex_step (step_request 0 _ _ (ex_packet 128) 3).
  ex_step (step_request 0 _ _ (ex_packet 128) 2).
  ex_step (step_time 0 3).
  ex_step (step_service 3 _ _ (ex_accept [(ex_packet 64, 4)])).
  ex_step (step_time 3 4).
  ex_step (step_service 4 _ _ ex_refuse).
  ex_step (step_drain 4).
  apply rtc_refl.
Qed.

(** ** The theorems *)

(** C13: in every reachable state the packets the neighbour took, followed by those that
    wait, are the packets that were queued, each once, in an order that is the stable sort
    by tick, or, in a queue that forces the order, keeps the packets to one address in the
    order they came.  No packet is lost, sent twice or overtaken. *)
Theorem queue_delivers_in_order force disable r : reachable force disable r →
  taken_log r ++ transmitList (queue r) ≡ₚ queued r ∧
  (force = true → ∀ p, filter (λ d, same_addr (dpkt d) p = true) (taken_log r ++ transmitList (queue r))
                     = filter (λ d, same_addr (dpkt d) p = true) (queued r)) ∧
  (force = false →
    StronglySorted (λ d1 d2, tick d1 <= tick d2) (taken_log r ++ transmitList (queue r)) ∧
    ∀ t, filter (λ d, tick d = t) (taken_log r ++ transmitList (queue r))
       = filter (λ d, tick d = t) (queued r)).
Proof.
  intros Hr. apply queue_reachable_inv in Hr as (_ & _ & _ & _ & _ & _ & Hperm & Hord).
  split; [done|]. split; by intros ->.
Qed.

(** C23: in every reachable state a queue that holds packets has its send event scheduled,
    for when the first of them is ready or for the next tick, or is waiting for a retry; one
    that holds none has no event and no drain outstanding; and every call the queue has to
    expect (a request of the owner, the send event, a retry) returns. *)
Theorem queue_never_stuck force disable n q log sent :
  reachable force disable (mkRun n q log sent) →
  (transmitList q ≠ [] →
     (waitingOnRetry q = true ∧ sendEvent q = None) ∨
     (waitingOnRetry q = false ∧ ∃ t, sendEvent q = Some t ∧ due n q t)) ∧
  (transmitList q = [] → sendEvent q = None ∧ waitingOnRetry q = false ∧ drainState q ≠ Draining) ∧
  (∀ p when, request_ok n (p, when) → room 1 q → ∃ q', schedSendTiming n p when q = Ok q') ∧
  (∀ send, neighbour_ok n q (sent_now q send) →
     (sendEvent q = Some n → ∃ q', service_send send n q = Ok q') ∧
     (waitingOnRetry q = true → ∃ q', retry send n q = Ok q')).
Proof.
  intros Hr. apply queue_reachable_inv in Hr as Hinv. split; [|split; [|split]].
  - destruct Hinv as (_ & [_ Hst] & _). simpl in Hst. intros Hne.
    destruct (waitingOnRetry q); [left; by split; [|apply Hst]|right; split; [done|]].
    destruct (sendEvent q) as [t|]; [by exists t|done].
  - destruct Hinv as (_ & [_ Hst] & Hd & _). simpl in *. intros He. unfold pq_drain in Hd.
    destruct (waitingOnRetry q); [by destruct Hst|].
    destruct (sendEvent q) as [t|]; [destruct Hst as (d & l & Hl & _); congruence|].
    split; [done|]. split; [done|]. intros Hdr. by apply Hd.
  - intros p when Hp Hroom. destruct (request_run _ _ _ _ _ _ _ Hinv Hp Hroom) as (q' & ? & _). by exists q'.
  - intros send Hnb. split; intros H.
    + destruct (service_run _ _ _ _ _ _ Hinv H Hnb) as (q' & ? & _). by exists q'.
    + destruct (retry_run _ _ _ _ _ _ Hinv H Hnb) as (q' & ? & _). by exists q'.
Qed.

Lemma queue_delivers_in_order_witness :
  taken_log ex_run ++ transmitList (queue ex_run) ≡ₚ queued ex_run ∧
  filter (λ d, same_addr (dpkt d) (ex_packet 128) = true) (taken_log ex_run ++ transmitList (queue ex_run))
    = [mkDeferred 3 (ex_packet 128); mkDeferred 2 (ex_packet 128)].
Proof.
  split; [apply (queue_delivers_in_order true false ex_run ex_queue_reachable)|].
  vm_compute. reflexivity.
Defined.

Lemma queue_never_stuck_witness :
  (waitingOnRetry (queue ex_run) = true ∧ sendEvent (queue ex_run) = None) ∧
  ∃ q', retry (ex_accept []) 4 (queue ex_run) = Ok q' ∧ sendEvent q' = Some 5.
Proof.
  destruct (queue_never_stuck true false 4 (queue ex_run) (queued ex_run) (taken_log ex_run) ex_queue_reachable)
    as (H1 & _ & _ & H4).
  split.
  - destruct H1 as [H|[H _]]; [discriminate|exact H|discriminate H].
  - destruct (H4 (ex_accept [])) as [_ H].
    { split; [constructor|]. split; [done|]. right. by vm_compute. }
    destruct (H eq_refl) as [q' Hq]. exists q'. split; [exact Hq|].
    vm_compute in Hq. injection Hq as <-. reflexivity.
Defined.

End PacketQueueProps.
