(* ===== verification/Bridge.v ===== *)
(** * mem/bridge.hh, mem/bridge.cc: a bridge between two busses

    A bridge takes requests on one port and responses on the other and passes each on after
    a delay.  A request that expects a response is taken only when there is room for the
    response.  The two ports of the bridge share the state of one record.  A neighbour that
    is called may call the bridge again before it returns, so it is a function of the
    bridge and of its own world [W]. *)

From Stdlib Require Import ZArith Lia.
From stdpp Require Import base numbers option list.
From S2P Require Import Prelude Clocked Packet XBar PacketQueue.

Module Bridge.
Import Clocked Packet XBar.

(** Bridge::DeferredPacket *)
Record Deferred := mkDeferred { dtick : Z; dpacket : XBarPacket }.

(** The constants of the bridge and of its two ports. *)
Record BridgeParams := mkBridgeParams {
  bridgeClockPeriod : Z;
  delay : Z;
  respQueueLimit : Z;
  reqQueueLimit : Z
}.

(** [resp...] is the state of the BridgeResponsePort, on the CPU side, and [req...] of the
    BridgeRequestPort, on the memory side. *)
Record Bridge := mkBridge {
  bclk : Clocked;
  respList : list Deferred;
  outstandingResponses : Z;
  retryReq : bool;
  respEvent : option Z;
  reqList : list Deferred;
  reqEvent : option Z
}.

Definition Bridge_params (period p_delay resp_size req_size : Z) : BridgeParams :=
  mkBridgeParams period (ticksToCycles period p_delay) (u32 resp_size) (u32 req_size).
Definition Bridge_new : Bridge := mkBridge Clocked_new [] 0 false None [] None.

Definition set_bclk (c : Clocked) (b : Bridge) : Bridge :=
  mkBridge c (respList b) (outstandingResponses b) (retryReq b) (respEvent b) (reqList b) (reqEvent b).
Definition set_respList (l : list Deferred) (b : Bridge) : Bridge :=
  mkBridge (bclk b) l (outstandingResponses b) (retryReq b) (respEvent b) (reqList b) (reqEvent b).
Definition set_outstanding (n : Z) (b : Bridge) : Bridge :=
  mkBridge (bclk b) (respList b) n (retryReq b) (respEvent b) (reqList b) (reqEvent b).
Definition set_retryReq (r : bool) (b : Bridge) : Bridge :=
  mkBridge (bclk b) (respList b) (outstandingResponses b) r (respEvent b) (reqList b) (reqEvent b).
Definition set_respEvent (e : option Z) (b : Bridge) : Bridge :=
  mkBridge (bclk b) (respList b) (outstandingResponses b) (retryReq b) e (reqList b) (reqEvent b).
Definition set_reqList (l : list Deferred) (b : Bridge) : Bridge :=
  mkBridge (bclk b) (respList b) (outstandingResponses b) (retryReq b) (respEvent b) l (reqEvent b).
Definition set_reqEvent (e : option Z) (b : Bridge) : Bridge :=
  mkBridge (bclk b) (respList b) (outstandingResponses b) (retryReq b) (respEvent b) (reqList b) e.

(** Events of the bridge, as [EventQueue.schedule] takes them. *)
Definition schedule_req (now when : Z) (b : Bridge) : result Bridge :=
  _ ← assert_ok (now <=? when);
  _ ← assert_ok (bool_decide (reqEvent b = None));
  Ok (set_reqEvent (Some when) b).
Definition schedule_resp (now when : Z) (b : Bridge) : result Bridge :=
  _ ← assert_ok (now <=? when);
  _ ← assert_ok (bool_decide (respEvent b = None));
  Ok (set_respEvent (Some when) b).

Definition respQueueFull (pr : BridgeParams) (b : Bridge) : bool :=
  outstandingResponses b =? respQueueLimit pr.
Definition reqQueueFull (pr : BridgeParams) (b : Bridge) : bool :=
  Z.of_nat (length (reqList b)) =? reqQueueLimit pr.

Definition schedTimingReq (pr : BridgeParams) (now : Z) (p : XBarPacket) (when : Z) (b : Bridge)
    : result Bridge :=
  b ← (if bool_decide (reqList b = []) then schedule_req now when b else Ok b);
  _ ← assert_ok (negb (Z.of_nat (length (reqList b)) =? reqQueueLimit pr));
  Ok (set_reqList (reqList b ++ [mkDeferred when p]) b).

Definition schedTimingResp (now : Z) (p : XBarPacket) (when : Z) (b : Bridge) : result Bridge :=
  b ← (if bool_decide (respList b = []) then schedule_resp now when b else Ok b);
  Ok (set_respList (respList b ++ [mkDeferred when p]) b).

(** The delays of the packet are paid for here: [receive_delay] is a sum of two 32-bit
    integers. *)
Definition receive_delay (p : XBarPacket) : Z := u32 (headerDelay p + payloadDelay p).
Definition no_delay (p : XBarPacket) : XBarPacket := set_payloadDelay 0 (set_headerDelay 0 p).

Definition recvTimingResp (pr : BridgeParams) (now : Z) (p : XBarPacket) (b : Bridge)
    : result (bool * Bridge) :=
  let '(edge, c) := clockEdge (bridgeClockPeriod pr) now (delay pr) (bclk b) in
  b ← schedTimingResp now (no_delay p) (u64 (edge + receive_delay p)) (set_bclk c b);
  Ok (true, b).

Definition recvTimingReq (pr : BridgeParams) (now : Z) (p : XBarPacket) (b : Bridge)
    : result (bool * Bridge) :=
  _ ← panic_if (cacheResponding (pkt p));
  if retryReq b then Ok (false, b)
  else
    b ← (if reqQueueFull pr b then Ok (set_retryReq true b)
         else
           b ← (if needsResponse (cmd (pkt p)) then
                  if respQueueFull pr b then Ok (set_retryReq true b)
                  else
                    _ ← assert_ok (negb (outstandingResponses b =? respQueueLimit pr));
                    Ok (set_outstanding (u32 (outstandingResponses b + 1)) b)
                else Ok b);
           if negb (retryReq b) then
             let '(edge, c) := clockEdge (bridgeClockPeriod pr) now (delay pr) (bclk b) in
             schedTimingReq pr now (no_delay p) (u64 (edge + receive_delay p)) (set_bclk c b)
           else Ok b);
    Ok (negb (retryReq b), b).

(** A packet that is sent is the one the list points to. *)
Definition update_front (p : XBarPacket) (l : list Deferred) : list Deferred :=
  match l with [] => [] | d :: l => mkDeferred (dtick d) p :: l end.

Section Neighbours.
Context {W : Type}.
Variable sendTimingReq : XBarPacket → Bridge → W → result (bool * XBarPacket * Bridge * W).
Variable sendTimingResp : XBarPacket → Bridge → W → result (bool * XBarPacket * Bridge * W).
Variable sendRetryReq : Bridge → W → result (Bridge * W).

Definition retryStalledReq (b : Bridge) (w : W) : result (Bridge * W) :=
  if retryReq b then sendRetryReq (set_retryReq false b) w else Ok (b, w).

(** BridgeRequestPort::trySendTiming *)
Definition trySendTiming_req (pr : BridgeParams) (now : Z) (b : Bridge) (w : W) : result (Bridge * W) :=
  _ ← assert_ok (negb (bool_decide (reqList b = [])));
  req ← deref (head (reqList b));
  _ ← assert_ok (dtick req <=? now);
  '(accepted, p, b, w) ← sendTimingReq (dpacket req) b w;
  let b := set_reqList (update_front p (reqList b)) b in
  if (accepted : bool) then
    let b := set_reqList (tail (reqList b)) b in
    b ← match head (reqList b) with
        | None => Ok b
        | Some next_req =>
            let '(edge, c) := clockEdge (bridgeClockPeriod pr) now 0 (bclk b) in
            schedule_req now (Z.max (dtick next_req) edge) (set_bclk c b)
        end;
    retryStalledReq b w
  else Ok (b, w).

(** BridgeResponsePort::trySendTiming *)
Definition trySendTiming_resp (pr : BridgeParams) (now : Z) (b : Bridge) (w : W) : result (Bridge * W) :=
  _ ← assert_ok (negb (bool_decide (respList b = [])));
  resp ← deref (head (respList b));
  _ ← assert_ok (dtick resp <=? now);
  '(accepted, p, b, w) ← sendTimingResp (dpacket resp) b w;
  let b := set_respList (update_front p (respList b)) b in
  if (accepted : bool) then
    let b := set_respList (tail (respList b)) b in
    _ ← assert_ok (negb (outstandingResponses b =? 0));
    let b := set_outstanding (outstandingResponses b - 1) b in
    b ← match head (respList b) with
        | None => Ok b
        | Some next_resp =>
            let '(edge, c) := clockEdge (bridgeClockPeriod pr) now 0 (bclk b) in
            schedule_resp now (Z.max (dtick next_resp) edge) (set_bclk c b)
        end;
    if negb (reqQueueFull pr b) && retryReq b then sendRetryReq (set_retryReq false b) w
    else Ok (b, w)
  else Ok (b, w).

Definition recvReqRetry (pr : BridgeParams) (now : Z) (b : Bridge) (w : W) : result (Bridge * W) :=
  trySendTiming_req pr now b w.
Definition recvRespRetry (pr : BridgeParams) (now : Z) (b : Bridge) (w : W) : result (Bridge * W) :=
  trySendTiming_resp pr now b w.

(** The event queue services an event, which is then no longer scheduled. *)
Definition service_req (pr : BridgeParams) (now : Z) (b : Bridge) (w : W) : result (Bridge * W) :=
  trySendTiming_req pr now (set_reqEvent None b) w.
Definition service_resp (pr : BridgeParams) (now : Z) (b : Bridge) (w : W) : result (Bridge * W) :=
  trySendTiming_resp pr now (set_respEvent None b) w.

End Neighbours.

(** ** Atomic and functional accesses *)

Definition recvAtomic {W} (sendAtomic : Packet → W → Z * W) (pr : BridgeParams) (p : Packet) (w : W)
    : result (Z * W) :=
  _ ← panic_if (cacheResponding p);
  let '(t, w) := sendAtomic p w in
  Ok (u64 (delay pr * bridgeClockPeriod pr + t), w).

(** The loop over a list of deferred packets: the first that answers turns the packet
    into a response. *)
Fixpoint functional_list (p : Packet) (l : list Deferred) : result (bool * Packet * list Deferred) :=
  match l with
  | [] => Ok (false, p, [])
  | d :: l =>
      '(found, p, other) ← PacketQueue.trySatisfyFunctional_pkt p (pkt (dpacket d));
      let d := mkDeferred (dtick d) (set_pkt other (dpacket d)) in
      if (found : bool) then p ← makeResponse p; Ok (true, p, d :: l)
      else '(found, p, l) ← functional_list p l; Ok (found, p, d :: l)
  end.

(** BridgeRequestPort::trySatisfyFunctional *)
Definition trySatisfyFunctional (p : Packet) (b : Bridge) : result (bool * Packet * Bridge) :=
  '(found, p, l) ← functional_list p (reqList b); Ok (found, p, set_reqList l b).

Definition recvFunctional {W} (sendFunctional : Packet → W → Packet * W) (p : Packet) (b : Bridge) (w : W)
    : result (Packet * Bridge * W) :=
  '(found, p, l) ← functional_list p (respList b);
  let b := set_respList l b in
  if (found : bool) then Ok (p, b, w)
  else
    '(found, p, b) ← trySatisfyFunctional p b;
    if (found : bool) then Ok (p, b, w)
    else let '(p, w) := sendFunctional p w in Ok (p, b, w).

End Bridge.
