(* ===== verification/BridgeProps.v ===== *)
(** * mem/bridge: a bridge keeps the order, its limits, and its promises to retry

    The steps of a bridge are the calls of its neighbours, its two events, the retries it is
    owed and the passing of time.  A ghost world records what crossed each port; a neighbour
    that is called may make any legal calls before it returns. *)

From Stdlib Require Import ZArith Lia.
From stdpp Require Import base numbers option list relations.
From S2P Require Import Prelude Flags Clocked Packet XBar Bridge.

Module BridgeProps.
Import Flags Clocked Packet XBar Bridge.

(** What crossed each port, in order, the number of requests passed on whose responses have
    not come back, and whether a neighbour that refused a packet still owes a retry. *)
Record Log := mkLog {
  accepted : list XBarPacket;
  forwarded : list XBarPacket;
  received : list XBarPacket;
  returned : list XBarPacket;
  in_flight : nat;
  owes_req : bool;
  owes_resp : bool
}.

Definition log_accept (p : XBarPacket) (g : Log) : Log :=
  mkLog (accepted g ++ [no_delay p]) (forwarded g) (received g) (returned g) (in_flight g) (owes_req g) (owes_resp g).
Definition log_receive (p : XBarPacket) (g : Log) : Log :=
  mkLog (accepted g) (forwarded g) (received g ++ [no_delay p]) (returned g) (pred (in_flight g)) (owes_req g) (owes_resp g).
Definition wants (p : XBarPacket) : nat := if needsResponse (cmd (pkt p)) then 1 else 0.
Definition log_forward (ok : bool) (p : XBarPacket) (g : Log) : Log :=
  if ok then mkLog (accepted g) (forwarded g ++ [p]) (received g) (returned g) (wants p + in_flight g) false (owes_resp g)
  else mkLog (accepted g) (forwarded g) (received g) (returned g) (in_flight g) true (owes_resp g).
Definition log_return (ok : bool) (p : XBarPacket) (g : Log) : Log :=
  if ok then mkLog (accepted g) (forwarded g) (received g) (returned g ++ [p]) (in_flight g) (owes_req g) false
  else mkLog (accepted g) (forwarded g) (received g) (returned g) (in_flight g) (owes_req g) true.

Inductive Call := call_req (p : XBarPacket) | call_resp (p : XBarPacket).

Section Runs.
Context (pr : BridgeParams) (now : Z).

(** The calls a neighbour makes. *)
Fixpoint run_calls (cs : list Call) (b : Bridge) (g : Log) : result (Bridge * Log) :=
  match cs with
  | [] => Ok (b, g)
  | call_req p :: cs =>
      '(ok, b) ← recvTimingReq pr now p b;
      run_calls cs b (if (ok : bool) then log_accept p g else g)
  | call_resp p :: cs =>
      '(_, b) ← recvTimingResp pr now p b;
      run_calls cs b (log_receive p g)
  end.

(** A neighbour that takes or refuses a packet and makes calls before it returns. *)
Definition answer_req (ok : bool) (cs : list Call) (p : XBarPacket) (b : Bridge) (g : Log)
    : result (bool * XBarPacket * Bridge * Log) :=
  '(b, g) ← run_calls cs b (log_forward ok p g); Ok (ok, p, b, g).
Definition answer_resp (ok : bool) (cs : list Call) (p : XBarPacket) (b : Bridge) (g : Log)
    : result (bool * XBarPacket * Bridge * Log) :=
  '(b, g) ← run_calls cs b (log_return ok p g); Ok (ok, p, b, g).

End Runs.

(** Requests that no cache has answered, and no more responses than are in flight. *)
Fixpoint legal (n : nat) (cs : list Call) : Prop :=
  match cs with
  | [] => True
  | call_req p :: cs => cacheResponding (pkt p) = false ∧ legal n cs
  | call_resp p :: cs => (0 < n)%nat ∧ legal (pred n) cs
  end.

(** Far enough from the end of time. *)
Definition in_time (pr : BridgeParams) (now : Z) : Prop :=
  0 <= now ∧ now + bridgeClockPeriod pr * (delay pr + 3) + 2 ^ 32 < 2 ^ 64.

Definition params_ok (pr : BridgeParams) : Prop :=
  0 < bridgeClockPeriod pr ∧ 0 <= delay pr ∧
  0 < respQueueLimit pr < 2 ^ 32 ∧ 0 < reqQueueLimit pr < 2 ^ 32.

(** ** The clock *)

Definition clock_ok (pr : BridgeParams) (now : Z) (c : Clocked) : Prop :=
  0 <= cycle c <= tick c ∧ tick c <= now + bridgeClockPeriod pr.

Lemma bridge_edge pr now c n : params_ok pr → in_time pr now → clock_ok pr now c →
  0 <= n <= delay pr →
  ∃ e c', clockEdge (bridgeClockPeriod pr) now n c = (e, c') ∧ clock_ok pr now c' ∧
    now <= e <= now + bridgeClockPeriod pr * (1 + n).
Proof.
  intros (Hp & Hd & _) [Hn Hm] (Hc & Ht) Hin.
  assert (bridgeClockPeriod pr * (delay pr + 3) = bridgeClockPeriod pr * delay pr + 3 * bridgeClockPeriod pr)
    as Hmul by lia. rewrite Hmul in Hm.
  assert (0 <= bridgeClockPeriod pr * n <= bridgeClockPeriod pr * delay pr) as Hnd by nia.
  assert (no_wrap (bridgeClockPeriod pr) now c) as Hw.
  { unfold no_wrap. split; [done|]. repeat split; lia. }
  destruct (update_next_edge _ _ _ Hw) as (k & Hk & Htk & Hck & Hge & Hlt).
  unfold clockEdge. set (c' := update _ now c) in *. exists (tick c' + bridgeClockPeriod pr * n), c'.
  assert (tick c' <= now + bridgeClockPeriod pr) by (destruct (decide (k = 0)); [subst k|]; lia).
  rewrite !wrap_small; [|unfold fits; lia|unfold fits; rewrite ?wrap_small by (unfold fits; lia); lia].
  split; [done|]. split; [split; nia|]. nia.
Qed.

#[local] Opaque clockEdge.

Lemma receive_delay_fits p : fits 32 (receive_delay p).
Proof. by apply wrap_fits. Qed.

(** ** The invariant *)

(** The event of a list: none for an empty list or while a packet of it is with the
    neighbour, and else at a time when the first packet is ready. *)
Definition event_ok (now : Z) (busy owed : bool) (l : list Deferred) (ev : option Z) : Prop :=
  match l with
  | [] => busy = false ∧ owed = false ∧ ev = None
  | d :: _ =>
      if busy || owed then ev = None ∧ dtick d <= now
      else ∃ t, ev = Some t ∧ now <= t ∧ dtick d <= t
  end.

Definition wanting (l : list Deferred) : nat := sum_list_with (λ d, wants (dpacket d)) l.

(** [busy_req] and [busy_resp]: a packet is with a neighbour; [n] and [m]: of these, the
    number that were taken but are not yet removed from the list. *)
Record inv (pr : BridgeParams) (now : Z) (busy_req busy_resp : bool) (n m : nat) (b : Bridge) (g : Log) : Prop := {
  inv_time : in_time pr now;
  inv_clock : clock_ok pr now (bclk b);
  inv_reqs : forwarded g ++ map dpacket (drop n (reqList b)) = accepted g;
  inv_resps : returned g ++ map dpacket (drop m (respList b)) = received g;
  inv_count : outstandingResponses b =
    Z.of_nat (wanting (drop n (reqList b)) + in_flight g + length (respList b));
  inv_resp_limit : outstandingResponses b <= respQueueLimit pr;
  inv_req_limit : Z.of_nat (length (reqList b)) <= reqQueueLimit pr;
  inv_req_event : event_ok now busy_req (owes_req g) (reqList b) (reqEvent b);
  inv_resp_event : event_ok now busy_resp (owes_resp g) (respList b) (respEvent b);
  inv_retry : retryReq b = true → reqList b ≠ [] ∨ 0 < outstandingResponses b;
  inv_n : (n <= length (reqList b))%nat;
  inv_m : (m <= length (respList b))%nat
}.

Lemma event_ok_push now busy owed l ev d : event_ok now busy owed l ev → l ≠ [] →
  event_ok now busy owed (l ++ [d]) ev.
Proof. by destruct l. Qed.

Lemma wanting_app l1 l2 : wanting (l1 ++ l2) = (wanting l1 + wanting l2)%nat.
Proof. apply sum_list_with_app. Qed.

(** ** Calls of the neighbours *)

Section Bridge.
Context (pr : BridgeParams) (Hpr : params_ok pr) (now : Z).
Implicit Types (b : Bridge) (g : Log).

(** Calls only add to the lists. *)
Definition extends b b' : Prop :=
  reqList b `prefix_of` reqList b' ∧ respList b `prefix_of` respList b'.

Lemma sched_time b p : in_time pr now → clock_ok pr now (bclk b) →
  ∃ e c', clockEdge (bridgeClockPeriod pr) now (delay pr) (bclk b) = (e, c') ∧ clock_ok pr now c' ∧
    now <= u64 (e + receive_delay p).
Proof.
  intros Hn Hc. pose proof Hpr as (Hp & Hd & _). pose proof (receive_delay_fits p) as [Hr1 Hr2].
  destruct (bridge_edge pr now (bclk b) (delay pr)) as (e & c' & He & Hc' & Hle); [done..|lia|].
  exists e, c'. split; [done|]. split; [done|]. destruct Hn as [Hn Hm].
  rewrite wrap_small; [lia|]. unfold fits. nia.
Qed.

Lemma event_ok_new busy owed l ev d when : event_ok now busy owed l ev → now <= when → dtick d = when →
  event_ok now busy owed (l ++ [d]) (if bool_decide (l = []) then Some when else ev).
Proof.
  intros He Hw Hd. destruct l as [|d' l]; [|done].
  destruct He as (-> & -> & _). simpl. exists when. subst. split; [done|]. lia.
Qed.

Lemma call_resp_inv sr sp n m b g p : inv pr now sr sp n m b g → (0 < in_flight g)%nat →
  ∃ b', recvTimingResp pr now p b = Ok (true, b') ∧ extends b b' ∧
    inv pr now sr sp n m b' (log_receive p g).
Proof.
  intros H Hfl. destruct (sched_time b p) as (e & c & He & Hc & Hw); [apply H..|].
  unfold recvTimingResp. rewrite He. unfold schedTimingResp, schedule_resp.
  apply Z.leb_le in Hw as Hw'. simpl. rewrite Hw'. clear Hw'.
  set (d := mkDeferred (u64 (e + receive_delay p)) (no_delay p)).
  pose proof (inv_resp_event _ _ _ _ _ _ _ _ H) as Hev.
  pose proof (event_ok_new _ _ _ _ d _ Hev Hw eq_refl) as Hev'.
  assert (inv pr now sr sp n m (mkBridge c (respList b ++ [d]) (outstandingResponses b) (retryReq b)
    (if bool_decide (respList b = []) then Some (u64 (e + receive_delay p)) else respEvent b)
    (reqList b) (reqEvent b)) (log_receive p g)) as Hinv.
  { destruct H. constructor; simpl; try done.
    - rewrite drop_app_le, map_app, app_assoc by done. by rewrite inv_resps0.
    - rewrite length_app. simpl. lia.
    - rewrite length_app. lia. }
  destruct b as [? [|d' l] ? ? ev ? ?]; simpl in *.
  - destruct Hev as (_ & _ & ->). eexists. split; [done|]. split; [|done]. by split; [|apply prefix_nil].
  - eexists. split; [done|]. split; [|done]. split; [done|by exists [d]].
Qed.

Lemma call_req_inv sr sp n m b g p : inv pr now sr sp n m b g → cacheResponding (pkt p) = false →
  ∃ ok b', recvTimingReq pr now p b = Ok (ok, b') ∧ extends b b' ∧
    inv pr now sr sp n m b' (if (ok : bool) then log_accept p g else g).
Proof.
  intros H Hcr. pose proof Hpr as (_ & _ & Hrl & Hql). unfold recvTimingReq. rewrite Hcr. simpl.
  destruct (retryReq b) eqn:Hretry; [by exists false, b|].
  destruct (reqQueueFull pr b) eqn:Hfull; simpl.
  { eexists _, _. split; [done|]. split; [done|]. unfold reqQueueFull in Hfull. bool_prop. simpl.
    destruct H. constructor; try done. simpl. intros _. left. intros He. rewrite He in Hfull. simpl in Hfull. lia. }
  destruct (needsResponse (cmd (pkt p)) && respQueueFull pr b) eqn:Hr.
  { apply andb_true_iff in Hr as [-> Hr]. rewrite Hr. simpl. eexists _, _. split; [done|]. split; [done|].
    unfold respQueueFull in Hr. bool_prop. destruct H. constructor; try done. simpl. intros _. right. lia. }
  destruct (sched_time b p) as (e & c & He & Hc & Hw); [apply H..|].
  set (when := u64 (e + receive_delay p)) in *. set (d := mkDeferred when (no_delay p)).
  set (b1 := set_outstanding (outstandingResponses b + Z.of_nat (wants p)) b).
  assert ((if needsResponse (cmd (pkt p)) then if respQueueFull pr b then Ok (set_retryReq true b)
     else _ ← assert_ok (negb (outstandingResponses b =? respQueueLimit pr));
          Ok (set_outstanding (u32 (outstandingResponses b + 1)) b) else Ok b) = Ok b1 ∧
    outstandingResponses b1 <= respQueueLimit pr) as [-> Hlim].
  { subst b1. unfold wants. destruct (needsResponse (cmd (pkt p))) eqn:Hnr; simpl in *.
    - rewrite Hr. unfold respQueueFull in Hr. rewrite Hr. simpl. bool_prop.
      pose proof (inv_count _ _ _ _ _ _ _ _ H). pose proof (inv_resp_limit _ _ _ _ _ _ _ _ H).
      rewrite wrap_small by (unfold fits; lia). split; [done|]. lia.
    - rewrite Z.add_0_r. split; [by destruct b|]. apply H. }
  simpl. change (bclk b1) with (bclk b). change (retryReq b1) with (retryReq b).
  rewrite Hretry. simpl. rewrite He. unfold schedTimingReq, schedule_req.
  apply Z.leb_le in Hw as Hw'. simpl. fold when. rewrite Hw'. clear Hw'.
  pose proof (inv_req_event _ _ _ _ _ _ _ _ H) as Hev.
  pose proof (event_ok_new _ _ _ _ d _ Hev Hw eq_refl) as Hev'.
  unfold reqQueueFull in Hfull.
  assert (inv pr now sr sp n m (mkBridge c (respList b) (outstandingResponses b1) false (respEvent b)
    (reqList b ++ [d]) (if bool_decide (reqList b = []) then Some when else reqEvent b))
    (log_accept p g)) as Hinv.
  { bool_prop. destruct H. constructor; simpl; try done.
    - rewrite drop_app_le, map_app, app_assoc by done. by rewrite inv_reqs0.
    - rewrite drop_app_le, wanting_app by done. subst b1. unfold wanting in *. simpl.
      change (wants (no_delay p)) with (wants p). lia.
    - rewrite length_app. simpl. lia.
    - rewrite length_app. lia. }
  exists true. subst b1. destruct b as [? ? ? ? ? [|d' l] ev]; simpl in *; subst.
  - destruct Hev as (_ & _ & ->). simpl. rewrite Hfull. eexists. split; [done|].
    split; [|done]. by split; [apply prefix_nil|].
  - rewrite Hfull. eexists. split; [done|]. split; [|done]. split; [by exists [d]|done].
Qed.

#[local] Instance extends_preorder : PreOrder extends.
Proof. split; [done|]. intros b1 b2 b3 [] []. split; by etrans. Qed.

Lemma run_calls_inv sr sp n m cs : ∀ b g, inv pr now sr sp n m b g → legal (in_flight g) cs →
  ∃ b' g', run_calls pr now cs b g = Ok (b', g') ∧ extends b b' ∧
    (owes_req g' = owes_req g ∧ owes_resp g' = owes_resp g) ∧ inv pr now sr sp n m b' g'.
Proof.
  induction cs as [|[p|p] cs IH]; intros b g H Hl; simpl in *.
  - by exists b, g.
  - destruct Hl as [Hp Hl]. destruct (call_req_inv _ _ _ _ _ _ _ H Hp) as (ok & b1 & -> & He & H'). simpl.
    destruct (IH b1 (if ok then log_accept p g else g)) as (b' & g' & ? & ? & ? & ?); [done|by destruct ok|].
    exists b', g'. split; [done|]. split; [by etrans|]. by destruct ok.
  - destruct Hl as [Hp Hl]. destruct (call_resp_inv _ _ _ _ _ _ p H Hp) as (b1 & -> & He & H'). simpl.
    destruct (IH b1 (log_receive p g)) as (b' & g' & ? & ? & ? & ?); [done|done|].
    exists b', g'. split; [done|]. split; [by etrans|done].
Qed.

(** ** Sending *)

Lemma legal_any n cs : legal 0 cs → legal n cs.
Proof. induction cs as [|[p|p] cs IH]; simpl; [done|naive_solver|lia]. Qed.

(** A neighbour that refused is told to try again. *)
Lemma retry_inv sr sp b g cs : inv pr now sr sp 0 0 b g → legal 0 cs →
  ∃ b' g', run_calls pr now cs (set_retryReq false b) g = Ok (b', g') ∧ inv pr now sr sp 0 0 b' g'.
Proof.
  intros H Hl. destruct (run_calls_inv sr sp 0 0 cs (set_retryReq false b) g) as (b' & g' & ? & _ & _ & ?).
  - by destruct H; constructor.
  - by apply legal_any.
  - by exists b', g'.
Qed.

(** The send event of the packet that is now first. *)
Lemma resched_req_inv sp b g d l : inv pr now true sp 1 0 b g → reqList b = d :: l → owes_req g = false →
  ∃ b', match head l with
        | None => Ok (set_reqList l b)
        | Some next_req =>
            let '(edge, c) := clockEdge (bridgeClockPeriod pr) now 0 (bclk b) in
            schedule_req now (Z.max (dtick next_req) edge) (set_bclk c (set_reqList l b))
        end = Ok b' ∧ retryReq b' = retryReq b ∧
    ∀ b'', b'' = set_retryReq false b' ∨ (b'' = b' ∧ retryReq b' = false) → inv pr now false sp 0 0 b'' g.
Proof.
  intros H Hl Ho. pose proof H as H0. destruct H. rewrite Hl in *. simpl in *. destruct inv_req_event0 as [Hev _].
  destruct l as [|d' l]; simpl.
  - eexists. split; [done|]. split; [done|].
    assert (inv pr now false sp 0 0 (set_retryReq false (set_reqList [] b)) g) as Hi
      by (constructor; simpl; try done; lia).
    intros b'' [->|[-> Hr]]; [done|]. simpl in *. destruct b. simpl in *. by subst.
  - destruct (bridge_edge pr now (bclk b) 0) as (e & c & -> & Hc & He & _); [done..|pose proof Hpr as (? & ? & _); lia|].
    unfold schedule_req. replace (now <=? Z.max (dtick d') e) with true by lia. simpl. rewrite Hev. simpl.
    eexists. split; [done|]. split; [done|].
    assert (inv pr now false sp 0 0 (set_retryReq false (set_reqEvent (Some (Z.max (dtick d') e))
      (set_bclk c (set_reqList (d' :: l) b)))) g) as Hi.
    { constructor; simpl in *; try done; try lia. rewrite Ho. eexists. split; [done|]. lia. }
    intros b'' [->|[-> Hr]]; [done|]. simpl in *. destruct b. simpl in *. by subst.
Qed.

(** Handing the first packet over. *)
Lemma log_forward_inv sp (ok : bool) b g d l : inv pr now true sp 0 0 b g → reqList b = d :: l →
  inv pr now true sp (if ok then 1 else 0) 0 b (log_forward ok (dpacket d) g).
Proof.
  intros H Hl. destruct H. rewrite Hl in *. simpl in *.
  destruct ok; constructor; rewrite ?Hl; simpl; rewrite ?drop_0; try done; unfold wanting in *; simpl in *; try lia.
  by rewrite <-app_assoc.
Qed.

Definition front_wants b : nat := match reqList b with d :: _ => wants (dpacket d) | [] => 0 end.

Lemma trySendTiming_req_inv sp (ok : bool) cs cs' b g : inv pr now true sp 0 0 b g →
  legal (if ok then front_wants b + in_flight g else in_flight g)%nat cs → legal 0 cs' →
  ∃ b' g', trySendTiming_req (answer_req pr now ok cs) (run_calls pr now cs') pr now b g = Ok (b', g') ∧
    inv pr now false sp 0 0 b' g'.
Proof.
  intros H Hcs Hcs'. pose proof (inv_req_event _ _ _ _ _ _ _ _ H) as Hev. unfold front_wants in Hcs.
  destruct (reqList b) as [|d l] eqn:Hl; [by destruct Hev|]. destruct Hev as [_ Hready].
  unfold trySendTiming_req. rewrite Hl. simpl. replace (dtick d <=? now) with true by lia. simpl.
  unfold answer_req. apply (log_forward_inv sp ok) with (d := d) (l := l) in H; [|done].
  destruct (run_calls_inv _ _ _ _ cs _ _ H) as (b1 & g1 & -> & [Hext _] & [Ho _] & H1).
  { by destruct ok. }
  rewrite Hl in Hext. destruct Hext as [k Hk]. simpl. rewrite Hk. simpl.
  destruct ok; simpl in Ho.
  - destruct (resched_req_inv sp b1 g1 d (l ++ k)) as (b2 & Hb2 & Hr & Hinv); [done..|].
    change (set_reqList _ (set_reqList _ b1)) with (set_reqList (l ++ k) b1).
    rewrite Hb2. simpl.
    unfold retryStalledReq. destruct (retryReq b2) eqn:Hr2.
    + destruct (run_calls_inv false sp 0 0 cs' (set_retryReq false b2) g1) as (b' & g' & ? & _ & _ & ?);
        [by apply Hinv; left|by apply legal_any|]. by exists b', g'.
    + exists b2, g1. split; [done|]. apply Hinv. by right.
  - eexists _, _. split; [done|]. destruct H1. rewrite Hk in *. destruct d as [t p]. simpl in *.
    constructor; simpl; try done. by rewrite Ho.
Qed.

(** The same for the other direction; the room of the response is free again. *)
Lemma log_return_inv sr (ok : bool) b g d l : inv pr now sr true 0 0 b g → respList b = d :: l →
  inv pr now sr true 0 (if ok then 1 else 0) b (log_return ok (dpacket d) g).
Proof.
  intros H Hl. destruct H. rewrite Hl in *. simpl in *.
  destruct ok; constructor; rewrite ?Hl; simpl; rewrite ?drop_0; try done; simpl in *; try lia.
  by rewrite <-app_assoc.
Qed.

Lemma resched_resp_inv sr b g d l : inv pr now sr true 0 1 b g → respList b = d :: l → owes_resp g = false →
  let b0 := set_outstanding (outstandingResponses b - 1) (set_respList l b) in
  ∃ b', match head l with
        | None => Ok b0
        | Some next_resp =>
            let '(edge, c) := clockEdge (bridgeClockPeriod pr) now 0 (bclk b) in
            schedule_resp now (Z.max (dtick next_resp) edge) (set_bclk c b0)
        end = Ok b' ∧ retryReq b' = retryReq b ∧ reqList b' = reqList b ∧
    ∀ b'', b'' = set_retryReq false b' ∨ (b'' = b' ∧ (retryReq b' = true → reqList b' ≠ [])) →
      inv pr now sr false 0 0 b'' g.
Proof.
  intros H Hl Ho. pose proof H as H0. destruct H. rewrite Hl in *. simpl in *. destruct inv_resp_event0 as [Hev _].
  destruct l as [|d' l]; simpl.
  - eexists. do 3 (split; [done|]).
    intros b'' [->|[-> Hr]]; constructor; simpl in *; try done; try lia.
    intros Hr'. left. by apply Hr.
  - destruct (bridge_edge pr now (bclk b) 0) as (e & c & -> & Hc & He & _); [done..|pose proof Hpr as (? & ? & _); lia|].
    unfold schedule_resp. replace (now <=? Z.max (dtick d') e) with true by lia. simpl. rewrite Hev. simpl.
    eexists. do 3 (split; [done|]).
    intros b'' [->|[-> Hr]]; constructor; simpl in *; try done; try lia; rewrite ?Ho; try (eexists; split; [done|]; lia).
Qed.

Lemma trySendTiming_resp_inv sr (ok : bool) cs cs' b g : inv pr now sr true 0 0 b g →
  legal (in_flight g) cs → legal 0 cs' →
  ∃ b' g', trySendTiming_resp (answer_resp pr now ok cs) (run_calls pr now cs') pr now b g = Ok (b', g') ∧
    inv pr now sr false 0 0 b' g'.
Proof.
  intros H Hcs Hcs'. pose proof (inv_resp_event _ _ _ _ _ _ _ _ H) as Hev.
  destruct (respList b) as [|d l] eqn:Hl; [by destruct Hev|]. destruct Hev as [_ Hready].
  unfold trySendTiming_resp. rewrite Hl. simpl. replace (dtick d <=? now) with true by lia. simpl.
  unfold answer_resp. apply (log_return_inv sr ok) with (d := d) (l := l) in H; [|done].
  destruct (run_calls_inv _ _ _ _ cs _ _ H) as (b1 & g1 & -> & [_ Hext] & [_ Ho] & H1).
  { by destruct ok. }
  rewrite Hl in Hext. destruct Hext as [k Hk]. simpl. rewrite Hk. simpl.
  destruct ok; simpl in Ho.
  - assert (negb (outstandingResponses b1 =? 0) = true) as ->.
    { pose proof (inv_count _ _ _ _ _ _ _ _ H1) as Hc. rewrite Hk in Hc. simpl in Hc.
      apply negb_true_iff, Z.eqb_neq. lia. }
    simpl. destruct (resched_resp_inv sr b1 g1 d (l ++ k)) as (b2 & Hb2 & Hr & Hq & Hinv); [done..|].
    change (set_respList _ (set_respList _ b1)) with (set_respList (l ++ k) b1).
    rewrite Hb2. simpl. destruct (negb (reqQueueFull pr b2) && retryReq b2) eqn:Hfull.
    + destruct (run_calls_inv sr false 0 0 cs' (set_retryReq false b2) g1) as (b' & g' & ? & _ & _ & ?);
        [by apply Hinv; left|by apply legal_any|]. by exists b', g'.
    + exists b2, g1. split; [done|]. apply Hinv. right. split; [done|]. intros Hr2. rewrite Hr2 in Hfull.
      rewrite andb_true_r in Hfull. unfold reqQueueFull in Hfull. bool_prop.
      intros He. rewrite He in Hfull. pose proof Hpr as (_ & _ & _ & ?). simpl in Hfull. lia.
  - eexists _, _. split; [done|]. destruct H1. rewrite Hk in *. destruct d as [t p]. simpl in *.
    constructor; simpl; try done. by rewrite Ho.
Qed.

(** A port may be served when its event is due, and when its neighbour keeps its promise. *)
Lemma due_req b g : inv pr now false false 0 0 b g → reqEvent b = Some now ∨ owes_req g = true →
  inv pr now true false 0 0 (set_reqEvent None b) g ∧ (owes_req g = true → set_reqEvent None b = b).
Proof.
  intros H Hd. destruct H. unfold event_ok in inv_req_event0. destruct (reqList b) as [|d l] eqn:Hl.
  { destruct inv_req_event0 as (_ & Ho & He), Hd as [Hd|Hd]; congruence. }
  assert (dtick d <= now ∧ (owes_req g = true → reqEvent b = None)) as [Ht Hn].
  { destruct (owes_req g); simpl in *; [naive_solver|].
    destruct inv_req_event0 as (t & Ht & ? & ?), Hd as [Hd|Hd]; [|done]. split; [|done].
    rewrite Hd in Ht. injection Ht as ->. done. }
  split.
  - constructor; simpl; rewrite ?Hl in *; try done.
  - intros Ho. specialize (Hn Ho). destruct b. simpl in *. by subst.
Qed.

Lemma due_resp b g : inv pr now false false 0 0 b g → respEvent b = Some now ∨ owes_resp g = true →
  inv pr now false true 0 0 (set_respEvent None b) g ∧ (owes_resp g = true → set_respEvent None b = b).
Proof.
  intros H Hd. destruct H. unfold event_ok in inv_resp_event0. destruct (respList b) as [|d l] eqn:Hl.
  { destruct inv_resp_event0 as (_ & Ho & He), Hd as [Hd|Hd]; congruence. }
  assert (dtick d <= now ∧ (owes_resp g = true → respEvent b = None)) as [Ht Hn].
  { destruct (owes_resp g); simpl in *; [naive_solver|].
    destruct inv_resp_event0 as (t & Ht & ? & ?), Hd as [Hd|Hd]; [|done]. split; [|done].
    rewrite Hd in Ht. injection Ht as ->. done. }
  split.
  - constructor; simpl; rewrite ?Hl in *; try done.
  - intros Ho. specialize (Hn Ho). destruct b. simpl in *. by subst.
Qed.

End Bridge.

(** ** Runs *)

(** What the neighbour of a port does with the packet it is sent, and the calls it makes
    when it is told to try again. *)
Record Answer := mkAnswer { takes : bool; calls : list Call; again : list Call }.

Definition answer_legal (n : nat) (a : Answer) : Prop := legal n (calls a) ∧ legal 0 (again a).

Definition in_flight_after (b : Bridge) (g : Log) (a : Answer) : nat :=
  if takes a then (front_wants b + in_flight g)%nat else in_flight g.

Definition send_req (pr : BridgeParams) (now : Z) (a : Answer) (b : Bridge) (g : Log) : result (Bridge * Log) :=
  recvReqRetry (answer_req pr now (takes a) (calls a)) (run_calls pr now (again a)) pr now b g.
Definition send_resp (pr : BridgeParams) (now : Z) (a : Answer) (b : Bridge) (g : Log) : result (Bridge * Log) :=
  recvRespRetry (answer_resp pr now (takes a) (calls a)) (run_calls pr now (again a)) pr now b g.
Definition event_req (pr : BridgeParams) (now : Z) (a : Answer) (b : Bridge) (g : Log) : result (Bridge * Log) :=
  service_req (answer_req pr now (takes a) (calls a)) (run_calls pr now (again a)) pr now b g.
Definition event_resp (pr : BridgeParams) (now : Z) (a : Answer) (b : Bridge) (g : Log) : result (Bridge * Log) :=
  service_resp (answer_resp pr now (takes a) (calls a)) (run_calls pr now (again a)) pr now b g.

Record State := mkState { time : Z; bridge : Bridge; log : Log }.

Inductive step (pr : BridgeParams) : State → State → Prop :=
  | step_call n b g c b' g' : legal (in_flight g) [c] → run_calls pr n [c] b g = Ok (b', g') →
      step pr (mkState n b g) (mkState n b' g')
  | step_req_event n b g a b' g' : reqEvent b = Some n → answer_legal (in_flight_after b g a) a →
      event_req pr n a b g = Ok (b', g') → step pr (mkState n b g) (mkState n b' g')
  | step_req_retry n b g a b' g' : owes_req g = true → answer_legal (in_flight_after b g a) a →
      send_req pr n a b g = Ok (b', g') → step pr (mkState n b g) (mkState n b' g')
  | step_resp_event n b g a b' g' : respEvent b = Some n → answer_legal (in_flight g) a →
      event_resp pr n a b g = Ok (b', g') → step pr (mkState n b g) (mkState n b' g')
  | step_resp_retry n b g a b' g' : owes_resp g = true → answer_legal (in_flight g) a →
      send_resp pr n a b g = Ok (b', g') → step pr (mkState n b g) (mkState n b' g')
  | step_time n n' b g : n <= n' → in_time pr n' →
      (∀ t, reqEvent b = Some t ∨ respEvent b = Some t → n' <= t) →
      step pr (mkState n b g) (mkState n' b g).

Definition initial : State := mkState 0 Bridge_new (mkLog [] [] [] [] 0 false false).

Definition reachable (pr : BridgeParams) : State → Prop := rtc (step pr) initial.

Definition state_inv (pr : BridgeParams) (s : State) : Prop :=
  inv pr (time s) false false 0 0 (bridge s) (log s).

Section Steps.
Context (pr : BridgeParams) (Hpr : params_ok pr).

Lemma req_returns n a b g : state_inv pr (mkState n b g) → answer_legal (in_flight_after b g a) a →
  (reqEvent b = Some n → ∃ b' g', event_req pr n a b g = Ok (b', g') ∧ state_inv pr (mkState n b' g')) ∧
  (owes_req g = true → ∃ b' g', send_req pr n a b g = Ok (b', g') ∧ state_inv pr (mkState n b' g')).
Proof.
  intros H [Hc Ha]. split; intros Hd;
    (destruct (due_req pr n b g H) as [Hi He]; [by (left + right)|]);
    destruct (trySendTiming_req_inv pr Hpr n false (takes a) (calls a) (again a) _ g Hi Hc Ha) as (b' & g' & Hr & ?);
    exists b', g'; (split; [|done]).
  - exact Hr.
  - rewrite (He Hd) in Hr. exact Hr.
Qed.

Lemma resp_returns n a b g : state_inv pr (mkState n b g) → answer_legal (in_flight g) a →
  (respEvent b = Some n → ∃ b' g', event_resp pr n a b g = Ok (b', g') ∧ state_inv pr (mkState n b' g')) ∧
  (owes_resp g = true → ∃ b' g', send_resp pr n a b g = Ok (b', g') ∧ state_inv pr (mkState n b' g')).
Proof.
  intros H [Hc Ha]. split; intros Hd;
    (destruct (due_resp pr n b g H) as [Hi He]; [by (left + right)|]);
    destruct (trySendTiming_resp_inv pr Hpr n false (takes a) (calls a) (again a) _ g Hi Hc Ha) as (b' & g' & Hr & ?);
    exists b', g'; (split; [|done]).
  - exact Hr.
  - rewrite (He Hd) in Hr. exact Hr.
Qed.

Lemma step_inv s s' : state_inv pr s → step pr s s' → state_inv pr s'.
Proof.
  intros H Hs. destruct Hs as [n b g c b' g' Hl Hr|n b g a b' g' Hd Ha Hr|n b g a b' g' Hd Ha Hr
    |n b g a b' g' Hd Ha Hr|n b g a b' g' Hd Ha Hr|n n' b g Hle Ht He].
  - destruct (run_calls_inv pr Hpr n false false 0 0 [c] b g H Hl) as (? & ? & ? & _ & _ & ?).
    unfold state_inv. simpl. congruence.
  - destruct (proj1 (req_returns n a b g H Ha) Hd) as (? & ? & ? & ?). congruence.
  - destruct (proj2 (req_returns n a b g H Ha) Hd) as (? & ? & ? & ?). congruence.
  - destruct (proj1 (resp_returns n a b g H Ha) Hd) as (? & ? & ? & ?). congruence.
  - destruct (proj2 (resp_returns n a b g H Ha) Hd) as (? & ? & ? & ?). congruence.
  - destruct H. unfold state_inv. simpl in *. constructor; try done.
    + destruct inv_clock0. split; [done|]. lia.
    + unfold event_ok in *. destruct (reqList b); [done|]. destruct (owes_req g); simpl in *; [intuition lia|].
      destruct inv_req_event0 as (t & Hev & ? & ?). exists t. split; [done|]. split; [|done]. apply He. by left.
    + unfold event_ok in *. destruct (respList b); [done|]. destruct (owes_resp g); simpl in *; [intuition lia|].
      destruct inv_resp_event0 as (t & Hev & ? & ?). exists t. split; [done|]. split; [|done]. apply He. by right.
Qed.

Lemma reachable_inv s : in_time pr 0 → reachable pr s → state_inv pr s.
Proof.
  intros Ht Hr. unfold reachable in Hr. remember initial as s0 eqn:H0.
  assert (state_inv pr s0) as Hinv.
  { destruct Hpr as (? & ? & ? & ?). subst. constructor; simpl; try done; try lia. unfold clock_ok. simpl. lia. }
  clear H0. induction Hr as [|s0 s1 s2 Hs _ IH]; [done|]. apply IH. by eapply step_inv.
Qed.

End Steps.

(** ** The theorems *)

(** C24: in every reachable state the requests passed on, followed by those that wait, are
    the requests that were taken, in order, each with its delays paid; the same holds of the
    responses; the responses the bridge keeps room for are those of the requests that wait,
    of those in flight, and those that wait themselves; and neither list is longer than
    its limit. *)
Theorem bridge_conserves pr n b g : params_ok pr → in_time pr 0 → reachable pr (mkState n b g) →
  forwarded g ++ map dpacket (reqList b) = accepted g ∧
  returned g ++ map dpacket (respList b) = received g ∧
  outstandingResponses b = Z.of_nat (wanting (reqList b) + in_flight g + length (respList b)) ∧
  outstandingResponses b <= respQueueLimit pr ∧
  Z.of_nat (length (respList b)) <= respQueueLimit pr ∧
  Z.of_nat (length (reqList b)) <= reqQueueLimit pr.
Proof.
  intros Hpr Ht Hr. apply reachable_inv in Hr as []; [|done|done]. simpl in *.
  do 4 (split; [done|]). split; [lia|done].
Qed.

(** C25: in every reachable state each port with packets has its event scheduled, not before
    the first packet is ready, unless the neighbour that refused that packet owes a retry; a
    source that was turned away is owed a retry and there is a packet, or a response in
    flight, that will cause it; every request and every response to a request in flight is
    answered, and an event or a retry that is due is served, without failing an assertion. *)
Theorem bridge_never_stuck pr n b g : params_ok pr → in_time pr 0 → reachable pr (mkState n b g) →
  (reqList b ≠ [] → owes_req g = true ∨ ∃ t, reqEvent b = Some t ∧ n <= t) ∧
  (respList b ≠ [] → owes_resp g = true ∨ ∃ t, respEvent b = Some t ∧ n <= t) ∧
  (retryReq b = true → reqList b ≠ [] ∨ respList b ≠ [] ∨ (0 < in_flight g)%nat) ∧
  (∀ c, legal (in_flight g) [c] → ∃ b' g', run_calls pr n [c] b g = Ok (b', g')) ∧
  (∀ a, answer_legal (in_flight_after b g a) a →
     (reqEvent b = Some n → ∃ b' g', event_req pr n a b g = Ok (b', g')) ∧
     (owes_req g = true → ∃ b' g', send_req pr n a b g = Ok (b', g'))) ∧
  (∀ a, answer_legal (in_flight g) a →
     (respEvent b = Some n → ∃ b' g', event_resp pr n a b g = Ok (b', g')) ∧
     (owes_resp g = true → ∃ b' g', send_resp pr n a b g = Ok (b', g'))).
Proof.
  intros Hpr Ht Hr. apply reachable_inv in Hr; [|done|done]. split; [|split; [|split; [|split; [|split]]]].
  - destruct Hr. simpl in *. unfold event_ok in *. destruct (reqList b); [done|intros _].
    destruct (owes_req g); [by left|right]. destruct inv_req_event0 as (t & ? & ? & _). by exists t.
  - destruct Hr. simpl in *. unfold event_ok in *. destruct (respList b); [done|intros _].
    destruct (owes_resp g); [by left|right]. destruct inv_resp_event0 as (t & ? & ? & _). by exists t.
  - destruct Hr. simpl in *. intros Hretry. destruct (inv_retry0 Hretry) as [?|Ho]; [by left|].
    destruct (reqList b); [right|by left]. destruct (respList b); [right|by left]. simpl in *. lia.
  - intros c Hc. destruct (run_calls_inv pr Hpr n false false 0 0 [c] b g Hr Hc) as (b' & g' & ? & _).
    by exists b', g'.
  - intros a Ha. destruct (req_returns pr Hpr n a b g Hr Ha) as [H1 H2].
    split; intros Hd; [destruct (H1 Hd) as (b' & g' & ? & _)|destruct (H2 Hd) as (b' & g' & ? & _)]; by exists b', g'.
  - intros a Ha. destruct (resp_returns pr Hpr n a b g Hr Ha) as [H1 H2].
    split; intros Hd; [destruct (H1 Hd) as (b' & g' & ? & _)|destruct (H2 Hd) as (b' & g' & ? & _)]; by exists b', g'.
Qed.

(** ** A run: two requests fill the only place for a response, so the second is turned
    away; the memory answers while it takes the first, and refuses nothing; the response
    is refused once, and when it is taken the source is told to try again. *)

Definition ex_request (r : positive) : XBarPacket :=
  mkXPkt (mkPacket ReadReq (VALID_ADDR .| VALID_SIZE)
    (mkRequest (Some 64) (Some 4) false false false false false false false false false
       false false false false [] false) [] 64 false 4 [] 0 0 []) r 100 20.

Definition ex_params : BridgeParams := Bridge_params 500 1000 1 2.

Definition ex_state : State :=
  mkState 2700 (mkBridge (mkClocked 3000 6) [] 1 false None
      [mkDeferred 4120 (no_delay (ex_request 2))] (Some 4120))
    (mkLog [no_delay (ex_request 1); no_delay (ex_request 2)] [no_delay (ex_request 1)]
       [no_delay (ex_request 1)] [no_delay (ex_request 1)] 0 false false).

Ltac ex_side :=
  lazymatch goal with
  | |- _ = Ok _ => vm_compute; reflexivity
  | |- in_time _ _ => split; vm_compute; done
  | |- _ <= _ => lia
  | |- legal _ _ => vm_compute; repeat split; try done; lia
  | |- answer_legal _ _ => vm_compute; repeat split; try done; lia
  | |- ∀ _, _ => intros t [[= <-]|[= <-]]; lia
  | |- _ => reflexivity
  end.
Tactic Notation "ex_step" uconstr(c) := eapply rtc_l; [eapply c; ex_side|].

Lemma ex_reachable : reachable ex_params ex_state.
Proof.
  unfold reachable, initial.
  ex_step (step_call _ 0 _ _ (call_req (ex_request 1))).
  ex_step (step_call _ 0 _ _ (call_req (ex_request 2))).
  ex_step (step_time _ 0 1120).
  ex_step (step_req_event _ 1120 _ _ (mkAnswer true [call_resp (ex_request 1)] [call_req (ex_request 2)])).
  ex_step (step_time _ 1120 2620).
  ex_step (step_resp_event _ 2620 _ _ (mkAnswer false [] [])).
  ex_step (step_time _ 2620 2700).
  ex_step (step_resp_retry _ 2700 _ _ (mkAnswer true [] [call_req (ex_request 2)])).
  apply rtc_refl.
Qed.

Lemma ex_params_ok : params_ok ex_params ∧ in_time ex_params 0.
Proof. vm_compute. repeat split; done. Qed.

Lemma bridge_conserves_witness :
  forwarded (log ex_state) ++ map dpacket (reqList (bridge ex_state)) = [no_delay (ex_request 1); no_delay (ex_request 2)] ∧
  outstandingResponses (bridge ex_state) = 1.
Proof.
  destruct (bridge_conserves ex_params 2700 (bridge ex_state) (log ex_state) (proj1 ex_params_ok)
    (proj2 ex_params_ok) ex_reachable) as (H & _ & Ho & _).
  split; [exact H|]. rewrite Ho. vm_compute. reflexivity.
Defined.

Lemma bridge_never_stuck_witness :
  (∃ t, reqEvent (bridge ex_state) = Some t ∧ 2700 <= t) ∧
  ∃ b' g', run_calls ex_params 2700 [call_req (ex_request 3)] (bridge ex_state) (log ex_state) = Ok (b', g') ∧
    retryReq b' = true.
Proof.
  destruct (bridge_never_stuck ex_params 2700 (bridge ex_state) (log ex_state) (proj1 ex_params_ok)
    (proj2 ex_params_ok) ex_reachable) as (H1 & _ & _ & H4 & _).
  split.
  - destruct H1 as [H|H]; [discriminate|discriminate H|exact H].
  - destruct (H4 (call_req (ex_request 3))) as (b' & g' & H); [split; [reflexivity|exact I]|].
    exists b', g'. split; [exact H|]. vm_compute in H. injection H as <- _. reflexivity.
Defined.

End BridgeProps.
