(* ===== verification/RAS.v ===== *)
(** * cpu/pred/ras.hh, cpu/pred/ras.cc: the return address stack

    A circular stack of return addresses for each thread.  A branch that pushes or pops
    keeps a history, with which the operation is undone when the branch is squashed.  [PC]
    is the state of a program counter ([PCStateBase]); the copies that the code makes of it
    are values here. *)

From Stdlib Require Import ZArith Lia.
From stdpp Require Import base numbers option list.
From S2P Require Import Prelude.

Module RAS.

Inductive BranchType :=
  | NoBranch | Return | CallDirect | CallIndirect
  | DirectCond | DirectUncond | IndirectCond | IndirectUncond.

#[global] Instance BranchType_eq_dec : EqDecision BranchType.
Proof. solve_decision. Defined.

Section Stack.
Context {PC : Type}.

Record AddrStack := mkAddrStack {
  addrStack : list (option PC);
  numEntries : Z;
  usedEntries : Z;
  tos : Z
}.

Definition set_addrStack (l : list (option PC)) (s : AddrStack) : AddrStack :=
  mkAddrStack l (numEntries s) (usedEntries s) (tos s).
Definition set_usedEntries (n : Z) (s : AddrStack) : AddrStack :=
  mkAddrStack (addrStack s) (numEntries s) n (tos s).
Definition set_tos (n : Z) (s : AddrStack) : AddrStack :=
  mkAddrStack (addrStack s) (numEntries s) (usedEntries s) n.

Definition AddrStack_reset (s : AddrStack) : AddrStack := set_tos 0 (set_usedEntries 0 s).
Definition AddrStack_init (n : Z) : AddrStack :=
  AddrStack_reset (mkAddrStack (replicate (Z.to_nat n) None) n 0 0).

Definition top (s : AddrStack) : result (option PC) := load_at (addrStack s) (tos s).
Definition empty (s : AddrStack) : bool := usedEntries s =? 0.
Definition full (s : AddrStack) : bool := numEntries s <=? usedEntries s.

Definition incrTos (s : AddrStack) : AddrStack :=
  let t := u32 (tos s + 1) in set_tos (if t =? numEntries s then 0 else t) s.
Definition decrTos (s : AddrStack) : AddrStack :=
  set_tos (if tos s =? 0 then u32 (numEntries s - 1) else tos s - 1) s.

Definition more_used (s : AddrStack) : AddrStack :=
  if negb (usedEntries s =? numEntries s) then set_usedEntries (u32 (usedEntries s + 1)) s else s.

Definition AddrStack_push (return_addr : PC) (s : AddrStack) : result AddrStack :=
  let s := incrTos s in
  l ← store_at (addrStack s) (tos s) (Some return_addr);
  Ok (more_used (set_addrStack l s)).

Definition AddrStack_pop (s : AddrStack) : AddrStack :=
  decrTos (if 0 <? usedEntries s then set_usedEntries (usedEntries s - 1) s else s).

Definition AddrStack_restore (_tos : Z) (restored : option PC) (s : AddrStack) : result AddrStack :=
  let s := set_tos _tos s in
  l ← store_at (addrStack s) (tos s) restored;
  Ok (more_used (set_addrStack l s)).

(** ** The stacks of all threads *)

(** [wasReturn] and [wasCall] of the code are never used. *)
Record RASHistory := mkRASHistory {
  pushed : bool;
  poped : bool;
  ras_entry : option PC;
  saved_tos : Z
}.

Definition makeRASHistory : RASHistory := mkRASHistory false false None 0.

#[local] Abbreviation ReturnAddrStack := (list AddrStack).

Definition ReturnAddrStack_new (numThreads : nat) (numEntries : Z) : ReturnAddrStack :=
  replicate numThreads (AddrStack_init numEntries).
Definition reset (r : ReturnAddrStack) : ReturnAddrStack := AddrStack_reset <$> r.

(** A null history is [None]. *)
Definition push (tid : nat) (pc : PC) (h : option RASHistory) (r : ReturnAddrStack)
    : result (RASHistory * ReturnAddrStack) :=
  let h := default makeRASHistory h in
  let h := mkRASHistory true (poped h) (ras_entry h) (saved_tos h) in
  s ← deref (r !! tid);
  s ← AddrStack_push pc s;
  Ok (h, <[tid := s]> r).

Definition pop (tid : nat) (h : option RASHistory) (r : ReturnAddrStack)
    : result (option PC * RASHistory * ReturnAddrStack) :=
  let h := default makeRASHistory h in
  s ← deref (r !! tid);
  entry ← top s;
  let h := mkRASHistory (pushed h) true entry (tos s) in
  Ok (entry, h, <[tid := AddrStack_pop s]> r).

Definition squash (tid : nat) (h : option RASHistory) (r : ReturnAddrStack) : result ReturnAddrStack :=
  match h with
  | None => Ok r
  | Some h =>
      s ← deref (r !! tid);
      let s := if pushed h then AddrStack_pop s else s in
      s ← (if poped h then AddrStack_restore (saved_tos h) (ras_entry h) s else Ok s);
      Ok (<[tid := s]> r)
  end.

(** A committed branch only gives its history up. *)
Definition commit (brType : BranchType) (h : option RASHistory) : result unit :=
  if negb (bool_decide (brType = Return) || bool_decide (brType = CallDirect)
           || bool_decide (brType = CallIndirect))
  then assert_ok (match h with None => true | Some _ => false end)
  else Ok tt.

(** ** Wrong paths *)

Inductive Op := op_push (pc : PC) | op_pop.

(** The operations of branches that have no history yet; their histories, last first. *)
Fixpoint speculate (tid : nat) (ops : list Op) (r : ReturnAddrStack)
    : result (list RASHistory * ReturnAddrStack) :=
  match ops with
  | [] => Ok ([], r)
  | op_push pc :: ops => '(h, r) ← push tid pc None r; '(hs, r) ← speculate tid ops r; Ok (hs ++ [h], r)
  | op_pop :: ops => '(_, h, r) ← pop tid None r; '(hs, r) ← speculate tid ops r; Ok (hs ++ [h], r)
  end.

Fixpoint squash_all (tid : nat) (hs : list RASHistory) (r : ReturnAddrStack) : result ReturnAddrStack :=
  match hs with
  | [] => Ok r
  | h :: hs => r ← squash tid (Some h) r; squash_all tid hs r
  end.

(** How far the stack grows above where it started. *)
Fixpoint height (ops : list Op) : nat :=
  match ops with
  | [] => 0
  | op_push _ :: ops => S (height ops)
  | op_pop :: ops => pred (height ops)
  end.

(** The entry [i] below the top. *)
Definition below (s : AddrStack) (i : Z) : option (option PC) :=
  addrStack s !! Z.to_nat ((tos s - i) mod numEntries s).

Definition wf (s : AddrStack) : Prop :=
  Z.of_nat (length (addrStack s)) = numEntries s ∧ 0 < numEntries s < 2 ^ 32 ∧
  0 <= tos s < numEntries s ∧ 0 <= usedEntries s <= numEntries s.

(** [s'] is [s] again, but for [k] of its deepest entries. *)
Definition restored (k : nat) (s s' : AddrStack) : Prop :=
  wf s' ∧ numEntries s' = numEntries s ∧ tos s' = tos s ∧
  ∀ i, 0 <= i < numEntries s - Z.of_nat k → below s' i = below s i.

(** ** The operations on one stack *)

(** The positions of a circular stack. *)
Lemma mod_down t i n : 0 <= t < n → 0 <= i < n → (t - i) mod n = if i <=? t then t - i else t - i + n.
Proof.
  intros Ht Hi. destruct (Z.leb_spec i t); [by rewrite Z.mod_small by lia|].
  rewrite <-(Z.mod_add (t - i) 1) by lia. rewrite Z.mod_small; lia.
Qed.

Definition up (t n : Z) : Z := if t + 1 =? n then 0 else t + 1.
Definition down (t n : Z) : Z := if t =? 0 then n - 1 else t - 1.

Lemma up_range t n : 0 <= t < n → 0 <= up t n < n.
Proof. unfold up. destruct (Z.eqb_spec (t + 1) n); lia. Qed.

Lemma down_range t n : 0 <= t < n → 0 <= down t n < n.
Proof. unfold down. destruct (Z.eqb_spec t 0); lia. Qed.

Lemma more_used_spec s : wf s → wf (more_used s) ∧ tos (more_used s) = tos s ∧
  numEntries (more_used s) = numEntries s ∧ addrStack (more_used s) = addrStack s.
Proof.
  intros (Hl & Hn & Ht & Hu). unfold more_used. destruct (Z.eqb_spec (usedEntries s) (numEntries s)); simpl.
  - done.
  - rewrite wrap_small by (unfold fits; lia). split; [|done]. repeat split; simpl; lia.
Qed.

Lemma set_entry_spec s t (e : option PC) : wf s → 0 <= t < numEntries s →
  ∃ s', AddrStack_restore t e s = Ok s' ∧ wf s' ∧ tos s' = t ∧ numEntries s' = numEntries s ∧
    addrStack s' = <[Z.to_nat t := e]> (addrStack s).
Proof.
  intros (Hl & Hn & Ht & Hu) Htn. unfold AddrStack_restore. simpl. rewrite store_at_spec by lia. simpl.
  eexists. split; [done|]. destruct (more_used_spec (set_addrStack (<[Z.to_nat t := e]> (addrStack s)) (set_tos t s)))
    as (? & ? & ? & ?); [|done].
  repeat split; simpl; rewrite ?length_insert; lia.
Qed.

Lemma push_spec s (pc : PC) : wf s →
  ∃ s', AddrStack_push pc s = Ok s' ∧ wf s' ∧ tos s' = up (tos s) (numEntries s) ∧
    numEntries s' = numEntries s ∧ addrStack s' = <[Z.to_nat (up (tos s) (numEntries s)) := Some pc]> (addrStack s).
Proof.
  intros H. pose proof H as (Hl & Hn & Ht & Hu).
  assert (incrTos s = set_tos (up (tos s) (numEntries s)) s) as Hi.
  { unfold incrTos. rewrite wrap_small by (unfold fits; lia). done. }
  assert (0 <= up (tos s) (numEntries s) < numEntries s) as Hup.
  { by apply up_range. }
  destruct (set_entry_spec s (up (tos s) (numEntries s)) (Some pc) H Hup) as (s' & Hs' & ?).
  exists s'. split; [|done]. unfold AddrStack_push. rewrite Hi. exact Hs'.
Qed.

Lemma pop_spec s : wf s → wf (AddrStack_pop s) ∧ tos (AddrStack_pop s) = down (tos s) (numEntries s) ∧
  numEntries (AddrStack_pop s) = numEntries s ∧ addrStack (AddrStack_pop s) = addrStack s.
Proof.
  intros (Hl & Hn & Ht & Hu). unfold AddrStack_pop, decrTos, down.
  destruct (0 <? usedEntries s) eqn:?; simpl; rewrite wrap_small by (unfold fits; lia);
    (split; [|done]); repeat split; simpl; destruct (Z.eqb_spec (tos s) 0); lia.
Qed.

(** Undoing a push and a pop. *)
Lemma restored_push k s s1 s1' (pc : PC) : wf s → AddrStack_push pc s = Ok s1 → restored k s1 s1' →
  restored (S k) s (AddrStack_pop s1').
Proof.
  intros H Hp (H1' & Hn' & Ht' & Hb). destruct (push_spec s pc H) as (? & Hp' & H1 & Ht1 & Hn1 & Hl1).
  rewrite Hp in Hp'. injection Hp' as <-. destruct (pop_spec s1' H1') as (H2 & Ht2 & Hn2 & Hl2).
  destruct H as (Hl & Hn & Ht & _). split; [done|]. split; [congruence|].
  assert (tos (AddrStack_pop s1') = tos s) as Htos.
  { rewrite Ht2, Ht', Ht1, Hn', Hn1. unfold up, down. destruct (Z.eqb_spec (tos s + 1) (numEntries s)); simpl; [lia|].
    destruct (Z.eqb_spec (tos s + 1) 0); lia. }
  split; [done|]. intros i Hi. specialize (Hb (i + 1) ltac:(lia)). unfold below in *.
  rewrite Hl2, Htos, Hn2, Hn', Hn1. rewrite Ht', Hn', Hn1, Hl1, Ht1 in Hb.
  rewrite !mod_down in Hb by (pose proof (up_range _ _ Ht); lia).
  rewrite mod_down by lia. rewrite list_lookup_insert_ne in Hb;
    unfold up in *; destruct (Z.eqb_spec (tos s + 1) (numEntries s)); repeat case_match; bool_prop; try lia;
    (etrans; [|etrans; [exact Hb|]]; f_equal; lia).
Qed.

Lemma restored_pop k s s1' e : wf s → top s = Ok e → restored k (AddrStack_pop s) s1' →
  ∃ s2, AddrStack_restore (tos s) e s1' = Ok s2 ∧ restored (pred k) s s2.
Proof.
  intros H He (H1' & Hn' & Ht' & Hb). destruct (pop_spec s H) as (H1 & Ht1 & Hn1 & Hl1).
  destruct H as (Hl & Hn & Ht & _). destruct (set_entry_spec s1' (tos s) e) as (s2 & Hs2 & H2 & Ht2 & Hn2 & Hl2);
    [done|lia|]. exists s2. split; [done|]. split; [done|]. split; [lia|]. split; [done|].
  intros i Hi. unfold below in *. rewrite Ht2, Hl2, Hn2, Hn', Hn1, mod_down by lia.
  destruct (decide (i = 0)) as [->|Hi0].
  - replace (0 <=? tos s) with true by lia. rewrite Z.sub_0_r, list_lookup_insert_eq.
    + unfold top, load_at in He. replace (tos s <? 0) with false in He by lia. by apply deref_Ok in He.
    + destruct H1' as (Hl' & _). lia.
  - specialize (Hb (i - 1) ltac:(lia)). rewrite Ht', Ht1, Hn', Hn1, Hl1 in Hb.
    rewrite !mod_down in Hb by (pose proof (down_range _ _ Ht); lia).
    rewrite list_lookup_insert_ne; unfold down in *; destruct (Z.eqb_spec (tos s) 0);
      repeat case_match; bool_prop; try lia; (etrans; [|etrans; [exact Hb|]]; f_equal; lia).
Qed.

Lemma squash_all_app tid (hs1 hs2 : list RASHistory) r :
  squash_all tid (hs1 ++ hs2) r = r ← squash_all tid hs1 r; squash_all tid hs2 r.
Proof.
  revert r. induction hs1 as [|h hs1 IH]; intros r; [done|]. cbn [squash_all app].
  destruct (squash tid (Some h) r); simpl; [apply IH|done].
Qed.

(** Squashing the branches of a wrong path, last first, restores the stack, but for as many
    of its deepest entries as the wrong path had put above its top. *)
Lemma speculate_restored tid ops : ∀ r s, r !! tid = Some s → wf s →
  ∃ hs r' s', speculate tid ops r = Ok (hs, r') ∧ squash_all tid hs r' = Ok (<[tid := s']> r) ∧
    restored (height ops) s s'.
Proof.
  induction ops as [|[pc|] ops IH]; intros r s Hr H.
  - exists [], r, s. simpl. rewrite list_insert_id by done. done.
  - destruct (push_spec s pc H) as (s1 & Hp & H1 & _).
    destruct (IH (<[tid := s1]> r) s1) as (hs & r' & s' & Hs & Hsq & Hres);
      [apply list_lookup_insert_eq; by eapply lookup_lt_Some|done|].
    cbn [speculate]. unfold push at 1. rewrite Hr. simpl. rewrite Hp. simpl. rewrite Hs. simpl.
    eexists _, _, _. split; [done|]. rewrite squash_all_app, Hsq, list_insert_insert_eq. simpl.
    rewrite list_lookup_insert_eq by (by eapply lookup_lt_Some). simpl. rewrite list_insert_insert_eq.
    split; [done|]. by eapply restored_push.
  - destruct (pop_spec s H) as (H1 & _). pose proof H as (Hl & _ & Ht & _).
    destruct (lookup_lt_is_Some_2 (addrStack s) (Z.to_nat (tos s))) as [e He]; [lia|].
    assert (top s = Ok e) as Htop.
    { unfold top, load_at. replace (tos s <? 0) with false by lia. by rewrite He. }
    destruct (IH (<[tid := AddrStack_pop s]> r) (AddrStack_pop s)) as (hs & r' & s' & Hs & Hsq & Hres);
      [apply list_lookup_insert_eq; by eapply lookup_lt_Some|done|].
    destruct (restored_pop _ _ _ _ H Htop Hres) as (s2 & Hs2 & Hres2).
    cbn [speculate]. unfold pop at 1. rewrite Hr. simpl. rewrite Htop. simpl. rewrite Hs. simpl.
    eexists _, _, s2. split; [done|]. rewrite squash_all_app, Hsq, list_insert_insert_eq. simpl.
    rewrite list_lookup_insert_eq by (by eapply lookup_lt_Some). simpl. rewrite Hs2. simpl.
    by rewrite list_insert_insert_eq.
Qed.

(** ** The abstract stack *)

(** What happens to the stack of a thread: calls, returns, and wrong paths that are
    squashed. *)
Inductive Event := call (pc : PC) | return_ | wrong_path (ops : list Op).

Fixpoint run (tid : nat) (es : list Event) (r : ReturnAddrStack)
    : result (list (option PC) * ReturnAddrStack) :=
  match es with
  | [] => Ok ([], r)
  | call pc :: es => '(_, r) ← push tid pc None r; run tid es r
  | return_ :: es => '(a, _, r) ← pop tid None r; '(l, r) ← run tid es r; Ok (a :: l, r)
  | wrong_path ops :: es =>
      '(hs, r) ← speculate tid ops r; r ← squash_all tid hs r; run tid es r
  end.

(** A stack of [n] entries: a call beyond that loses the oldest, and a wrong path loses
    those that it overwrote.  [None] is no promise. *)
Fixpoint spec_run (n : nat) (es : list Event) (l : list PC) : list (option PC) :=
  match es with
  | [] => []
  | call pc :: es => spec_run n es (take n (pc :: l))
  | return_ :: es => head l :: spec_run n es (tail l)
  | wrong_path ops :: es => spec_run n es (take (n - height ops) l)
  end.

Definition shows (s : AddrStack) (l : list PC) : Prop :=
  Z.of_nat (length l) <= numEntries s ∧
  ∀ i a, l !! i = Some a → below s (Z.of_nat i) = Some (Some a).

Lemma shows_push s s' (pc : PC) l : wf s → shows s l → AddrStack_push pc s = Ok s' →
  shows s' (take (Z.to_nat (numEntries s)) (pc :: l)).
Proof.
  intros H [Hlen Hl] Hp. destruct (push_spec s pc H) as (? & Hp' & H1 & Ht1 & Hn1 & Hl1).
  rewrite Hp in Hp'. injection Hp' as <-. destruct H as (Hlen' & Hn & Ht & _).
  split; [rewrite length_take; lia|]. intros i a Hi. apply lookup_take_Some in Hi as [Hi Hin].
  unfold below. rewrite Hl1, Hn1, Ht1.
  rewrite mod_down by (pose proof (up_range _ _ Ht); lia).
  destruct i as [|i]; simpl in Hi.
  - injection Hi as ->. rewrite Z.sub_0_r.
    pose proof (up_range _ _ Ht). change (Z.of_nat 0) with 0.
    replace (0 <=? up (tos s) (numEntries s)) with true by lia.
    rewrite list_lookup_insert_eq; [done|lia].
  - specialize (Hl _ _ Hi). unfold below in Hl. rewrite mod_down in Hl by lia.
    rewrite list_lookup_insert_ne; unfold up in *; destruct (Z.eqb_spec (tos s + 1) (numEntries s));
      repeat case_match; bool_prop; try lia; (etrans; [|exact Hl]; f_equal; lia).
Qed.

Lemma shows_pop s l : wf s → shows s l → shows (AddrStack_pop s) (tail l) ∧
  ∃ e, top s = Ok e ∧ ∀ a, head l = Some a → e = Some a.
Proof.
  intros H [Hlen Hl]. destruct (pop_spec s H) as (H1 & Ht1 & Hn1 & Hl1).
  destruct H as (Hlen' & Hn & Ht & _). split.
  - split; [rewrite Hn1; destruct l; simpl in *; lia|]. intros i a Hi.
    assert (Hi' : l !! S i = Some a) by (destruct l; [done|exact Hi]).
    assert (S i < length l)%nat by (by eapply lookup_lt_Some). specialize (Hl _ _ Hi').
    unfold below in *. rewrite Ht1, Hn1, Hl1. rewrite mod_down in Hl by lia.
    rewrite mod_down by (pose proof (down_range _ _ Ht); lia).
    unfold down in *. destruct (Z.eqb_spec (tos s) 0); repeat case_match; bool_prop; try lia;
      (etrans; [|exact Hl]; f_equal; lia).
  - destruct (lookup_lt_is_Some_2 (addrStack s) (Z.to_nat (tos s))) as [e He]; [lia|].
    exists e. split.
    { unfold top, load_at. replace (tos s <? 0) with false by lia. by rewrite He. }
    intros a Ha. destruct l as [|a' l]; [done|]. injection Ha as ->. specialize (Hl 0%nat a eq_refl).
    unfold below in Hl. rewrite mod_down, Z.sub_0_r in Hl by lia.
    change (Z.of_nat 0) with 0 in Hl.
    replace (0 <=? tos s) with true in Hl by lia. congruence.
Qed.

Lemma shows_restored k s s' l : restored k s s' → shows s l →
  shows s' (take (Z.to_nat (numEntries s) - k) l).
Proof.
  intros (_ & Hn & _ & Hb) [Hlen Hl]. split; [rewrite length_take, Hn; lia|].
  intros i a Hi. apply lookup_take_Some in Hi as [Hi Hin]. rewrite Hb by lia. by apply Hl.
Qed.

Lemma run_refines tid n es : ∀ r s l, r !! tid = Some s → wf s → numEntries s = Z.of_nat n → shows s l →
  ∃ got r', run tid es r = Ok (got, r') ∧
    Forall2 (λ spec got, ∀ a, spec = Some a → got = Some a) (spec_run n es l) got.
Proof.
  induction es as [|[pc| |ops] es IH]; intros r s l Hr H Hn Hl; simpl.
  - by eexists _, _.
  - destruct (push_spec s pc H) as (s' & Hp & H' & _ & Hn' & _). unfold push. rewrite Hr. simpl. rewrite Hp. simpl.
    apply (IH _ s'); [apply list_lookup_insert_eq; by eapply lookup_lt_Some|done|congruence|].
    replace n with (Z.to_nat (numEntries s)) by lia. by eapply shows_push.
  - destruct (pop_spec s H) as (H' & _ & Hn' & _). destruct (shows_pop s l H Hl) as (Hl' & e & He & Ha).
    unfold pop. rewrite Hr. simpl. rewrite He. simpl.
    destruct (IH (<[tid := AddrStack_pop s]> r) (AddrStack_pop s) (tail l)) as (got & r' & -> & Hgot);
      [apply list_lookup_insert_eq; by eapply lookup_lt_Some|done|congruence|done|].
    simpl. eexists _, _. split; [done|]. by constructor.
  - destruct (speculate_restored tid ops r s Hr H) as (hs & r' & s' & -> & Hsq & Hres). simpl. rewrite Hsq. simpl.
    pose proof Hres as (H' & Hn' & _).
    apply (IH _ s'); [apply list_lookup_insert_eq; by eapply lookup_lt_Some|done|congruence|].
    replace n with (Z.to_nat (numEntries s)) by lia. by eapply shows_restored.
Qed.

Lemma init_wf n : 0 < n < 2 ^ 32 → wf (AddrStack_init n) ∧ shows (AddrStack_init n) [].
Proof.
  intros Hn. split; [|split; [simpl; lia|done]]. unfold AddrStack_init. repeat split; simpl; rewrite ?length_replicate; lia.
Qed.

End Stack.

(** C27: for every sequence of calls, returns and squashed wrong paths the return address
    stack of a thread predicts what a bounded stack does: each return is predicted to go
    where the matching call was made, unless more calls than there are entries came in
    between, or a wrong path that was squashed had put so many above the stack that it
    overwrote the entry.  No operation goes out of bounds. *)
Theorem ras_refines_stack {PC} tid numThreads n (es : list (Event (PC := PC))) :
  (tid < numThreads)%nat → 0 < n < 2 ^ 32 →
  ∃ got r', run tid es (ReturnAddrStack_new numThreads n) = Ok (got, r') ∧
    Forall2 (λ spec got, ∀ a, spec = Some a → got = Some a) (spec_run (Z.to_nat n) es []) got.
Proof.
  intros Ht Hn. destruct (init_wf (PC := PC) n Hn) as [Hwf Hs].
  apply (run_refines tid (Z.to_nat n) es _ (AddrStack_init n)); [|done|simpl; lia|done].
  by apply lookup_replicate.
Qed.

Lemma ras_refines_stack_witness :
  spec_run 3 [call 10; call 20; wrong_path [op_pop; op_push 90; op_push 91]; return_; return_] []
    = [Some 20; Some 10] ∧
  ∃ got r', run 0 [call 10; call 20; wrong_path [op_pop; op_push 90; op_push 91]; return_; return_]
      (ReturnAddrStack_new 1 3) = Ok (got, r') ∧
    Forall2 (λ spec got, ∀ a, spec = Some a → got = Some a) [Some 20; Some 10] got.
Proof.
  split; [reflexivity|].
  exact (ras_refines_stack 0 1 3 [call 10; call 20; wrong_path [op_pop; op_push 90; op_push 91]; return_; return_]
    ltac:(lia) ltac:(lia)).
Defined.
Arguments AddrStack : clear implicits.
Arguments RASHistory : clear implicits.
Arguments Op : clear implicits.

End RAS.
