(* ===== verification/BPred.v ===== *)
(** * cpu/pred/bpred_unit.hh, cpu/pred/bpred_unit.cc: the branch prediction unit

    The unit predicts branches with a conditional predictor, a target buffer, a return
    address stack and an indirect predictor, and keeps for each thread the histories of the
    branches in flight, with which it undoes or commits them.  The virtual functions that
    the conditional predictors implement, and the interfaces of the target buffer and of the
    indirect predictor, are classes.  [PC] is the state of a program counter. *)

From Stdlib Require Import ZArith Lia.
From stdpp Require Import base numbers option list.
From S2P Require Import Prelude RAS.

Module BPred.
Import RAS.

Class PCState (PC : Type) := instAddr : PC → Z.

(** What the unit asks a static instruction. *)
Record StaticInst (PC : Type) := mkInst {
  isUncondCtrl : bool;
  isCondCtrl : bool;
  isDirectCtrl : bool;
  isIndirectCtrl : bool;
  isCall : bool;
  isReturn : bool;
  advancePC : PC → PC;
  buildRetPC : PC → PC → PC
}.
Arguments isUncondCtrl {PC}.
Arguments isCondCtrl {PC}.
Arguments isDirectCtrl {PC}.
Arguments isIndirectCtrl {PC}.
Arguments isCall {PC}.
Arguments isReturn {PC}.
Arguments advancePC {PC}.
Arguments buildRetPC {PC}.

Definition getBranchType {PC} (inst : StaticInst PC) : BranchType :=
  if isReturn inst then Return
  else if isCall inst then if isDirectCtrl inst then CallDirect else CallIndirect
  else if isDirectCtrl inst then if isCondCtrl inst then DirectCond else DirectUncond
  else if isIndirectCtrl inst then if isCondCtrl inst then IndirectCond else IndirectUncond
  else NoBranch.

(** ** The interfaces

    [S] is the state of the object and [H] what a [void *] history points to; a null
    history is [None].  The argument [inst] of [update] is used by no predictor here. *)

Class CondPredictor (S H : Type) := {
  lookup (tid : nat) (pc : Z) : S → result (bool * option H * S);
  updateHistories (tid : nat) (pc : Z) (uncond taken : bool) (target : Z) (h : option H) :
    S → result (option H * S);
  squash (tid : nat) (h : option H) : S → result S;
  update (tid : nat) (pc : Z) (taken : bool) (h : option H) (squashed : bool) (target : Z) :
    S → result (option H * S)
}.

Class BranchTargetBuffer (B PC : Type) := {
  btb_lookup (tid : nat) (pc : Z) (type : BranchType) : B → option PC * B;
  btb_update (tid : nat) (pc : Z) (target : PC) (type : BranchType) : B → B
}.

Class IndirectPredictor (I IH PC : Type) := {
  ipred_lookup (tid : nat) (sn : Z) (pc : Z) (h : option IH) : I → result (option PC * option IH * I);
  ipred_update (tid : nat) (sn : Z) (pc : Z) (squash taken : bool) (target : PC) (br_type : BranchType)
    (h : option IH) : I → result (option IH * I);
  ipred_squash (tid : nat) (sn : Z) (h : option IH) : I → result (option IH * I);
  ipred_commit (tid : nat) (sn : Z) (h : option IH) : I → result (option IH * I)
}.

Inductive TargetProvider := NoTarget | ProviderBTB | ProviderRAS | ProviderIndirect.

#[global] Instance TargetProvider_eq_dec : EqDecision TargetProvider.
Proof. solve_decision. Defined.

Section Unit_.
Context {PC S H B I IH : Type} `{!PCState PC} `{!CondPredictor S H}
  `{!BranchTargetBuffer B PC} `{!IndirectPredictor I IH PC}.

(** [resteered] of the code is never read. *)
Record PredictorHistory := mkHist {
  seqNum : Z;
  pc : Z;
  inst : StaticInst PC;
  type : BranchType;
  call_ : bool;
  uncond : bool;
  predTaken : bool;
  actuallyTaken : bool;
  condPred : bool;
  btbHit : bool;
  targetProvider : TargetProvider;
  mispredict : bool;
  target : option PC;
  bpHistory : option H;
  indirectHistory : option IH;
  rasHistory : option (RASHistory PC)
}.

Definition PredictorHistory_new (sn : Z) (pc : Z) (i : StaticInst PC) : PredictorHistory :=
  mkHist sn pc i (getBranchType i) (isCall i) (isUncondCtrl i) false false false false
    NoTarget false None None None None.

Definition set_direction (cond taken : bool) (h : PredictorHistory) : PredictorHistory :=
  mkHist (seqNum h) (pc h) (inst h) (type h) (call_ h) (uncond h) taken (actuallyTaken h) cond
    (btbHit h) (targetProvider h) (mispredict h) (target h) (bpHistory h) (indirectHistory h) (rasHistory h).
Definition set_actuallyTaken (b : bool) (h : PredictorHistory) : PredictorHistory :=
  mkHist (seqNum h) (pc h) (inst h) (type h) (call_ h) (uncond h) (predTaken h) b (condPred h)
    (btbHit h) (targetProvider h) (mispredict h) (target h) (bpHistory h) (indirectHistory h) (rasHistory h).
Definition set_btbHit (b : bool) (h : PredictorHistory) : PredictorHistory :=
  mkHist (seqNum h) (pc h) (inst h) (type h) (call_ h) (uncond h) (predTaken h) (actuallyTaken h) (condPred h)
    b (targetProvider h) (mispredict h) (target h) (bpHistory h) (indirectHistory h) (rasHistory h).
Definition set_target (p : TargetProvider) (t : option PC) (h : PredictorHistory) : PredictorHistory :=
  mkHist (seqNum h) (pc h) (inst h) (type h) (call_ h) (uncond h) (predTaken h) (actuallyTaken h) (condPred h)
    (btbHit h) p (mispredict h) t (bpHistory h) (indirectHistory h) (rasHistory h).
Definition set_mispredict (b : bool) (h : PredictorHistory) : PredictorHistory :=
  mkHist (seqNum h) (pc h) (inst h) (type h) (call_ h) (uncond h) (predTaken h) (actuallyTaken h) (condPred h)
    (btbHit h) (targetProvider h) b (target h) (bpHistory h) (indirectHistory h) (rasHistory h).
Definition set_bpHistory (o : option H) (h : PredictorHistory) : PredictorHistory :=
  mkHist (seqNum h) (pc h) (inst h) (type h) (call_ h) (uncond h) (predTaken h) (actuallyTaken h) (condPred h)
    (btbHit h) (targetProvider h) (mispredict h) (target h) o (indirectHistory h) (rasHistory h).
Definition set_indirectHistory (o : option IH) (h : PredictorHistory) : PredictorHistory :=
  mkHist (seqNum h) (pc h) (inst h) (type h) (call_ h) (uncond h) (predTaken h) (actuallyTaken h) (condPred h)
    (btbHit h) (targetProvider h) (mispredict h) (target h) (bpHistory h) o (rasHistory h).
Definition set_rasHistory (o : option (RASHistory PC)) (h : PredictorHistory) : PredictorHistory :=
  mkHist (seqNum h) (pc h) (inst h) (type h) (call_ h) (uncond h) (predTaken h) (actuallyTaken h) (condPred h)
    (btbHit h) (targetProvider h) (mispredict h) (target h) (bpHistory h) (indirectHistory h) o.

(** The objects of the unit, of which the stack and the indirect predictor may be absent,
    and the histories of each thread, the youngest first. *)
Record BPredUnit := mkUnit {
  cond : S;
  btb : B;
  ras : option (list (AddrStack PC));
  iPred : option I;
  predHist : list (list PredictorHistory)
}.

Definition set_cond (s : S) (u : BPredUnit) : BPredUnit := mkUnit s (btb u) (ras u) (iPred u) (predHist u).
Definition set_btb (b : B) (u : BPredUnit) : BPredUnit := mkUnit (cond u) b (ras u) (iPred u) (predHist u).
Definition set_ras (r : option (list (AddrStack PC))) (u : BPredUnit) : BPredUnit :=
  mkUnit (cond u) (btb u) r (iPred u) (predHist u).
Definition set_iPred (i : option I) (u : BPredUnit) : BPredUnit :=
  mkUnit (cond u) (btb u) (ras u) i (predHist u).
Definition set_predHist (tid : nat) (l : list PredictorHistory) (u : BPredUnit) : BPredUnit :=
  mkUnit (cond u) (btb u) (ras u) (iPred u) (<[tid := l]> (predHist u)).

Definition BPredUnit_new (numThreads : nat) (s : S) (b : B) (r : option (list (AddrStack PC)))
    (i : option I) : BPredUnit := mkUnit s b r i (replicate numThreads []).

Definition drainSanityCheck (u : BPredUnit) : result unit :=
  assert_ok (forallb (λ l, match l with [] => true | _ => false end) (predHist u)).

Context (requiresBTBHit : bool).

(** *** predict, in the order of the code *)

Definition predict_direction (tid : nat) (h : PredictorHistory) (u : BPredUnit)
    : result (PredictorHistory * BPredUnit) :=
  if isUncondCtrl (inst h) then Ok (set_direction true true h, u)
  else
    '(b, bh, s) ← lookup tid (pc h) (cond u);
    Ok (set_direction b b (set_bpHistory bh h), set_cond s u).

Definition predict_btb (tid : nat) (h : PredictorHistory) (u : BPredUnit) : PredictorHistory * BPredUnit :=
  let '(t, b) := btb_lookup tid (pc h) (type h) (btb u) in
  let u := set_btb b u in
  match t with
  | Some t =>
      let h := set_btbHit true h in
      (if predTaken h then set_target ProviderBTB (Some t) h else h, u)
  | None => (h, u)
  end.

Definition branch_detected (h : PredictorHistory) : bool := btbHit h || negb requiresBTBHit.

Definition ras_push (tid : nat) (a : PC) (h : PredictorHistory) (u : BPredUnit)
    : result (PredictorHistory * BPredUnit) :=
  match ras u with
  | None => Ok (h, u)
  | Some r => '(rh, r) ← push tid a (rasHistory h) r; Ok (set_rasHistory (Some rh) h, set_ras (Some r) u)
  end.

Definition ras_pop (tid : nat) (h : PredictorHistory) (u : BPredUnit)
    : result (option PC * PredictorHistory * BPredUnit) :=
  match ras u with
  | None => Ok (None, h, u)
  | Some r => '(a, rh, r) ← pop tid (rasHistory h) r; Ok (a, set_rasHistory (Some rh) h, set_ras (Some r) u)
  end.

Definition predict_ras (tid : nat) (p : PC) (h : PredictorHistory) (u : BPredUnit)
    : result (PredictorHistory * BPredUnit) :=
  if branch_detected h then
    if isCall (inst h) then ras_push tid (buildRetPC (inst h) p p) h u
    else if isReturn (inst h) then
      '(return_addr, h, u) ← ras_pop tid h u;
      Ok (match return_addr with Some a => set_target ProviderRAS (Some a) h | None => h end, u)
    else Ok (h, u)
  else Ok (h, u).

Definition predict_indirect (tid : nat) (h : PredictorHistory) (u : BPredUnit)
    : result (PredictorHistory * BPredUnit) :=
  match iPred u with
  | None => Ok (h, u)
  | Some i =>
      if predTaken h && branch_detected h && isIndirectCtrl (inst h) && negb (isReturn (inst h)) then
        '(itarget, ih, i) ← ipred_lookup tid (seqNum h) (pc h) (indirectHistory h) i;
        let h := set_indirectHistory ih h in
        Ok (match itarget with Some t => set_target ProviderIndirect (Some t) h | None => h end,
            set_iPred (Some i) u)
      else Ok (h, u)
  end.

(** Without a target the branch falls through. *)
Definition predict_fallthrough (p : PC) (h : PredictorHistory) : PredictorHistory :=
  if bool_decide (targetProvider h = NoTarget)
  then set_direction (condPred h) false (set_target NoTarget (Some (advancePC (inst h) p)) h)
  else h.

Definition ipred_updated (tid : nat) (sn : Z) (squashed taken : bool) (t : PC)
    (h : PredictorHistory) (u : BPredUnit) : result (PredictorHistory * BPredUnit) :=
  match iPred u with
  | None => Ok (h, u)
  | Some i =>
      '(ih, i) ← ipred_update tid sn (pc h) squashed taken t (type h) (indirectHistory h) i;
      Ok (set_indirectHistory ih h, set_iPred (Some i) u)
  end.

Definition predict_history (tid : nat) (i : StaticInst PC) (sn : Z) (p : PC) (u : BPredUnit)
    : result (bool * PC * PredictorHistory * BPredUnit) :=
  let h := PredictorHistory_new sn (instAddr p) i in
  '(h, u) ← predict_direction tid h u;
  let '(h, u) := predict_btb tid h u in
  '(h, u) ← predict_ras tid p h u;
  '(h, u) ← predict_indirect tid h u;
  let h := predict_fallthrough p h in
  let h := set_actuallyTaken (predTaken h) h in
  t ← deref (target h);
  '(bh, s) ← updateHistories tid (pc h) (uncond h) (predTaken h) (instAddr t) (bpHistory h) (cond u);
  let h := set_bpHistory bh h in
  '(h, u) ← ipred_updated tid (seqNum h) false (predTaken h) t h (set_cond s u);
  Ok (predTaken h, t, h, u).

Definition predict (tid : nat) (i : StaticInst PC) (sn : Z) (p : PC) (u : BPredUnit)
    : result (bool * PC * BPredUnit) :=
  '(taken, p, h, u) ← predict_history tid i sn p u;
  l ← deref (predHist u !! tid);
  Ok (taken, p, set_predHist tid (h :: l) u).

(** *** Committing and squashing *)

(** [delete] of a history: the destructor asserts that its parts are gone. *)
Definition delete_history (h : PredictorHistory) : result unit :=
  _ ← assert_ok (match bpHistory h with None => true | _ => false end);
  _ ← assert_ok (match indirectHistory h with None => true | _ => false end);
  assert_ok (match rasHistory h with None => true | _ => false end).

Definition commitBranch (tid : nat) (h : PredictorHistory) (u : BPredUnit)
    : result (PredictorHistory * BPredUnit) :=
  t ← deref (target h);
  '(bh, s) ← update tid (pc h) (actuallyTaken h) (bpHistory h) false (instAddr t) (cond u);
  let h := set_bpHistory bh h in
  let u := set_cond s u in
  '(h, u) ← match iPred u with
            | None => Ok (h, u)
            | Some i =>
                '(ih, i) ← ipred_commit tid (seqNum h) (indirectHistory h) i;
                Ok (set_indirectHistory ih h, set_iPred (Some i) u)
            end;
  h ← match ras u with
      | None => Ok h
      | Some _ => _ ← commit (type h) (rasHistory h); Ok (set_rasHistory None h)
      end;
  Ok (h, u).

(** The loop from the oldest history; [l] is the list, the oldest first. *)
Fixpoint update_loop (tid : nat) (done_sn : Z) (l : list PredictorHistory) (u : BPredUnit)
    : result (list PredictorHistory * BPredUnit) :=
  match l with
  | [] => Ok ([], u)
  | h :: l' =>
      if seqNum h <=? done_sn then
        '(h, u) ← commitBranch tid h u;
        _ ← delete_history h;
        update_loop tid done_sn l' u
      else Ok (l, u)
  end.

(** update(done_sn, tid) *)
Definition update_upto (done_sn : Z) (tid : nat) (u : BPredUnit) : result BPredUnit :=
  l ← deref (predHist u !! tid);
  '(l, u) ← update_loop tid done_sn (reverse l) u;
  Ok (set_predHist tid (reverse l) u).

Definition ras_squash (tid : nat) (h : PredictorHistory) (u : BPredUnit)
    : result (PredictorHistory * BPredUnit) :=
  match rasHistory h with
  | None => Ok (h, u)
  | Some rh =>
      match ras u with
      | None => Err AssertFailed
      | Some r => r ← RAS.squash tid (Some rh) r; Ok (set_rasHistory None h, set_ras (Some r) u)
      end
  end.

Definition squashHistory (tid : nat) (h : PredictorHistory) (u : BPredUnit)
    : result (PredictorHistory * BPredUnit) :=
  '(h, u) ← ras_squash tid h u;
  '(h, u) ← match iPred u with
            | None => Ok (h, u)
            | Some i =>
                '(ih, i) ← ipred_squash tid (seqNum h) (indirectHistory h) i;
                Ok (set_indirectHistory ih h, set_iPred (Some i) u)
            end;
  s ← squash tid (bpHistory h) (cond u);
  Ok (set_bpHistory None h, set_cond s u).

Fixpoint squash_loop (tid : nat) (squashed_sn : Z) (l : list PredictorHistory) (u : BPredUnit)
    : result (list PredictorHistory * BPredUnit) :=
  match l with
  | [] => Ok ([], u)
  | h :: l' =>
      if squashed_sn <? seqNum h then
        '(h, u) ← squashHistory tid h u;
        _ ← delete_history h;
        squash_loop tid squashed_sn l' u
      else Ok (l, u)
  end.

(** squash(squashed_sn, tid) *)
Definition squash_younger (squashed_sn : Z) (tid : nat) (u : BPredUnit) : result BPredUnit :=
  l ← deref (predHist u !! tid);
  '(l, u) ← squash_loop tid squashed_sn l u;
  Ok (set_predHist tid l u).

(** The return address stack of a branch that was mispredicted. *)
Definition correct_ras (tid : nat) (corr_target : PC) (actually_taken : bool)
    (h : PredictorHistory) (u : BPredUnit) : result (PredictorHistory * BPredUnit) :=
  match ras u with
  | None => Ok (h, u)
  | Some _ =>
      if actually_taken && match rasHistory h with None => true | _ => false end then
        '(h, u) ← (if bool_decide (type h = Return) then '(_, h, u) ← ras_pop tid h u; Ok (h, u)
                   else Ok (h, u));
        if call_ h then ras_push tid (buildRetPC (inst h) corr_target corr_target) h u else Ok (h, u)
      else if negb actually_taken && match rasHistory h with None => false | _ => true end
      then ras_squash tid h u
      else Ok (h, u)
  end.

Definition correct_btb (tid : nat) (actually_taken : bool) (t : PC) (h : PredictorHistory)
    (u : BPredUnit) : BPredUnit :=
  if actually_taken && (requiresBTBHit || isDirectCtrl (inst h)
       || (match iPred u with None => true | _ => false end && negb (isReturn (inst h))))
  then set_btb (btb_update tid (pc h) t (type h) (btb u)) u
  else u.

(** squash(squashed_sn, corr_target, actually_taken, tid) *)
Definition squash_corrected (squashed_sn : Z) (corr_target : PC) (actually_taken : bool) (tid : nat)
    (u : BPredUnit) : result BPredUnit :=
  u ← squash_younger squashed_sn tid u;
  l ← deref (predHist u !! tid);
  match l with
  | [] => Ok u
  | h :: l =>
      let h := set_mispredict true h in
      let h := set_actuallyTaken actually_taken h in
      let h := set_target (targetProvider h) (Some corr_target) h in
      '(bh, s) ← update tid (pc h) actually_taken (bpHistory h) true (instAddr corr_target) (cond u);
      let h := set_bpHistory bh h in
      '(h, u) ← ipred_updated tid squashed_sn true actually_taken corr_target h (set_cond s u);
      '(h, u) ← correct_ras tid corr_target actually_taken h u;
      Ok (set_predHist tid (h :: l) (correct_btb tid actually_taken corr_target h u))
  end.

End Unit_.
Arguments PredictorHistory : clear implicits.
Arguments BPredUnit : clear implicits.

End BPred.
