(* ===== verification/BPredProps.v ===== *)
(** * cpu/pred/bpred_unit: the predictor always sees the history of the current path

    The class [PredictorLaws] states what the conditional predictors promise to the unit:
    that their histories undo and correct their speculative state.  Against it, for any
    predictor, target buffer and indirect predictor, the unit is shown to keep the outcomes
    of exactly the branches on the current path, whatever it predicts, commits, squashes
    and corrects. *)

From Stdlib Require Import ZArith Lia.
From stdpp Require Import base numbers option list relations.
From S2P Require Import Prelude RAS BPred.

Module BPredProps.
Import RAS BPred.

(** What a branch did, as far as a history of outcomes records it. *)
Record Outcome := mkOutcome { o_pc : Z; o_uncond : bool; o_taken : bool }.

(** [shows s t l]: the speculative history of thread [t] in [s] is that of the outcomes [l],
    the youngest first.  [looked_up h l pc] and [in_flight h l pc u]: [h] is the history of
    a branch that came after [l], before and after it is recorded itself. *)
Class PredictorLaws (S H : Type) `{!CondPredictor S H} := {
  shows : S → nat → list Outcome → Prop;
  looked_up : option H → list Outcome → Z → Prop;
  in_flight : option H → list Outcome → Z → bool → Prop;
  keeps (t : nat) (s s' : S) : Prop := ∀ t' l, t' ≠ t → shows s t' l → shows s' t' l;
  lookup_law s t l pc : shows s t l →
    ∃ b h s', lookup t pc s = Ok (b, h, s') ∧ shows s' t l ∧ keeps t s s' ∧ looked_up h l pc;
  updateHistories_law s t l pc (u : bool) b tgt h : shows s t l →
    (if u then h = None else looked_up h l pc) →
    ∃ h' s', updateHistories t pc u b tgt h s = Ok (h', s') ∧
      shows s' t (mkOutcome pc u b :: l) ∧ keeps t s s' ∧ in_flight h' l pc u;
  squash_law s t o l h : shows s t (o :: l) → in_flight h l (o_pc o) (o_uncond o) →
    ∃ s', squash t h s = Ok s' ∧ shows s' t l ∧ keeps t s s';
  resolve_law s t o l h b tgt : shows s t (o :: l) → in_flight h l (o_pc o) (o_uncond o) →
    ∃ h' s', update t (o_pc o) b h true tgt s = Ok (h', s') ∧
      shows s' t (mkOutcome (o_pc o) (o_uncond o) b :: l) ∧ keeps t s s' ∧
      in_flight h' l (o_pc o) (o_uncond o);
  commit_law s t l l' h pc u b tgt : shows s t l → in_flight h l' pc u →
    ∃ s', update t pc b h false tgt s = Ok (None, s') ∧ shows s' t l ∧ keeps t s s'
}.

#[export] Instance keeps_preorder {S H} `{!CondPredictor S H} `{!PredictorLaws S H} t : PreOrder (keeps t).
Proof. split; [by intros s t' l|]. intros s1 s2 s3 H1 H2 t' l Hne Hl. apply H2, H1; done. Qed.

(** An indirect predictor returns for each of [n] threads and frees its histories. *)
Class IndirectLaws (I IH PC : Type) `{!IndirectPredictor I IH PC} := {
  ipred_ok : nat → I → Prop;
  ipred_lookup_law n i t sn pc : ipred_ok n i → (t < n)%nat →
    ∃ a h i', ipred_lookup t sn pc None i = Ok (a, h, i') ∧ ipred_ok n i';
  ipred_update_law n i t sn pc sq b tgt ty h : ipred_ok n i → (t < n)%nat →
    ∃ h' i', ipred_update t sn pc sq b tgt ty h i = Ok (h', i') ∧ ipred_ok n i';
  ipred_squash_law n i t sn h : ipred_ok n i → (t < n)%nat →
    ∃ i', ipred_squash t sn h i = Ok (None, i') ∧ ipred_ok n i';
  ipred_commit_law n i t sn h : ipred_ok n i → (t < n)%nat →
    ∃ i', ipred_commit t sn h i = Ok (None, i') ∧ ipred_ok n i'
}.

Section Unit_.
Context {PC S H B I IH : Type} `{!PCState PC} `{!CondPredictor S H} `{!PredictorLaws S H}
  `{!BranchTargetBuffer B PC} `{!IndirectPredictor I IH PC} `{!IndirectLaws I IH PC}.
Context (requiresBTBHit : bool).
(** The number of threads and of entries of each return address stack. *)
Context (threads : nat) (entries : Z).
#[local] Abbreviation Hist := (PredictorHistory PC H IH).
#[local] Abbreviation Unit := (BPredUnit PC S H B I IH).
Implicit Types (h : Hist) (u : Unit) (t : nat).

(** ** The state besides the conditional predictor *)

Definition ras_ok (r : list (AddrStack PC)) : Prop :=
  length r = threads ∧ Forall (λ s, wf s ∧ numEntries s = entries) r.

Definition parts_ok u : Prop :=
  (∀ r, ras u = Some r → ras_ok r) ∧ (∀ i, iPred u = Some i → ipred_ok threads i).

(** A history of the stack belongs to a call or a return, and its position exists. *)
Definition ras_history_ok (b : BranchType) (o : option (RASHistory PC)) : Prop :=
  ∀ rh, o = Some rh → (b = Return ∨ b = CallDirect ∨ b = CallIndirect) ∧
    (poped rh = true → 0 <= saved_tos rh < entries).

Definition hist_ok u h : Prop :=
  type h = getBranchType (inst h) ∧ call_ h = isCall (inst h) ∧ uncond h = isUncondCtrl (inst h) ∧
  ras_history_ok (type h) (rasHistory h) ∧
  (ras u = None → rasHistory h = None) ∧ (iPred u = None → indirectHistory h = None).

(** The same parts are there, and the same branches in flight. *)
Definition same_parts u u' : Prop :=
  (ras u' = None ↔ ras u = None) ∧ (iPred u' = None ↔ iPred u = None) ∧ predHist u' = predHist u.

#[local] Instance same_parts_preorder : PreOrder same_parts.
Proof.
  split; [done|]. intros u1 u2 u3 (? & ? & ?) (? & ? & ?). unfold same_parts. split; [tauto|]. split; [tauto|congruence].
Qed.

(** Only the parts that are not the conditional predictor changed. *)
Definition others_only u u' : Prop := cond u' = cond u ∧ same_parts u u'.

(** ** The return address stack *)

Lemma ras_lookup r t : ras_ok r → (t < threads)%nat → ∃ s, r !! t = Some s ∧ wf s ∧ numEntries s = entries.
Proof.
  intros [Hl Hf] Ht. destruct (lookup_lt_is_Some_2 r t) as [s Hs]; [lia|].
  exists s. split; [done|]. by eapply Forall_lookup_1 in Hf.
Qed.

Lemma ras_insert r t s : ras_ok r → wf s → numEntries s = entries → ras_ok (<[t := s]> r).
Proof. intros [Hl Hf] Hs Hn. split; [by rewrite length_insert|by apply Forall_insert]. Qed.

Lemma wf_top (s : AddrStack PC) : wf s → ∃ e, top s = Ok e.
Proof.
  intros (Hl & _ & Ht & _). unfold top, load_at. replace (tos s <? 0) with false by lia.
  destruct (lookup_lt_is_Some_2 (addrStack s) (Z.to_nat (tos s))) as [e ->]; [lia|]. by exists e.
Qed.

Lemma push_ok t (a : PC) b o r : ras_ok r → (t < threads)%nat → ras_history_ok b o →
  b = Return ∨ b = CallDirect ∨ b = CallIndirect →
  ∃ rh r', push t a o r = Ok (rh, r') ∧ ras_ok r' ∧ ras_history_ok b (Some rh).
Proof.
  intros Hr Ht Ho Hb. destruct (ras_lookup r t Hr Ht) as (s & Hs & Hwf & Hn).
  destruct (push_spec s a Hwf) as (s' & Hp & Hwf' & _ & Hn' & _).
  unfold push. rewrite Hs. simpl. rewrite Hp. simpl. eexists _, _. split; [done|].
  split; [apply ras_insert; [done|done|congruence]|].
  intros rh [= <-]. simpl. split; [done|]. destruct o as [rh|]; simpl; [|done]. by apply Ho.
Qed.

Lemma pop_ok t b o r : ras_ok r → (t < threads)%nat → b = Return ∨ b = CallDirect ∨ b = CallIndirect →
  ∃ a rh r', pop t o r = Ok (a, rh, r') ∧ ras_ok r' ∧ ras_history_ok b (Some rh).
Proof.
  intros Hr Ht Hb. destruct (ras_lookup r t Hr Ht) as (s & Hs & Hwf & Hn).
  destruct (pop_spec s Hwf) as (Hwf' & _ & Hn' & _). destruct (wf_top s Hwf) as [e He].
  unfold pop. rewrite Hs. simpl. rewrite He. simpl. eexists _, _, _. split; [done|].
  split; [apply ras_insert; [done|done|congruence]|].
  intros rh [= <-]. simpl. split; [done|]. intros _. destruct Hwf as (_ & _ & ? & _). lia.
Qed.

Lemma rasquash_ok t b rh r : ras_ok r → (t < threads)%nat → ras_history_ok b (Some rh) →
  ∃ r', RAS.squash t (Some rh) r = Ok r' ∧ ras_ok r'.
Proof.
  intros Hr Ht Hh. destruct (ras_lookup r t Hr Ht) as (s & Hs & Hwf & Hn). unfold RAS.squash. rewrite Hs. simpl.
  set (s1 := if pushed rh then AddrStack_pop s else s).
  assert (wf s1 ∧ numEntries s1 = entries) as [Hwf1 Hn1].
  { subst s1. destruct (pushed rh); [|done]. destruct (pop_spec s Hwf) as (? & _ & ? & _). split; [done|congruence]. }
  destruct (poped rh) eqn:Hp; simpl.
  - destruct (set_entry_spec s1 (saved_tos rh) (ras_entry rh)) as (s2 & -> & ? & _ & ? & _); [done| |].
    { rewrite Hn1. by apply (Hh rh). }
    simpl. eexists. split; [done|]. apply ras_insert; [done|done|congruence].
  - eexists. split; [done|]. by apply ras_insert.
Qed.

(** ** The functions of the unit on one history *)

(** A call or a return. *)
Lemma call_type (i : StaticInst PC) : isCall i = true ∨ isReturn i = true →
  getBranchType i = Return ∨ getBranchType i = CallDirect ∨ getBranchType i = CallIndirect.
Proof. unfold getBranchType. destruct (isReturn i), (isCall i), (isDirectCtrl i); naive_solver. Qed.

Lemma hist_ok_same u u' h : same_parts u u' → hist_ok u h → hist_ok u' h.
Proof. intros (Hr & Hi & _) (? & ? & ? & ? & ? & ?). do 4 (split; [done|]). split; [rewrite Hr|rewrite Hi]; done. Qed.

Ltac parts := split; [done|repeat split; simpl in *; congruence].
Ltac fields := do 4 (split; [done|]); split; done.

Lemma ras_push_spec t a h u : parts_ok u → (t < threads)%nat → hist_ok u h → call_ h = true →
  ∃ o u', ras_push t a h u = Ok (set_rasHistory o h, u') ∧ parts_ok u' ∧ others_only u u' ∧
    hist_ok u' (set_rasHistory o h).
Proof.
  intros [Hr Hi] Ht Hh Hc. pose proof Hh as (Hty & Hcall & Hun & Hro & Hrn & Hin). unfold ras_push.
  destruct (ras u) as [r|] eqn:Hru.
  - destruct (push_ok t a (type h) (rasHistory h) r) as (rh & r' & -> & Hr' & Hro'); [by apply Hr|done|done| |].
    { rewrite Hty. apply call_type. left. congruence. }
    simpl. eexists _, _. split; [done|]. split; [split; [by intros ? [= <-]|done]|]. split; [parts|].
    fields.
  - exists (rasHistory h), u. destruct h; simpl in *. split; [done|]. split; [split; [congruence|done]|].
    split; [done|]. done.
Qed.

Lemma ras_pop_spec t h u : parts_ok u → (t < threads)%nat → hist_ok u h → isReturn (inst h) = true →
  ∃ a o u', ras_pop t h u = Ok (a, set_rasHistory o h, u') ∧ parts_ok u' ∧ others_only u u' ∧
    hist_ok u' (set_rasHistory o h).
Proof.
  intros [Hr Hi] Ht Hh Hc. pose proof Hh as (Hty & Hcall & Hun & Hro & Hrn & Hin). unfold ras_pop.
  destruct (ras u) as [r|] eqn:Hru.
  - destruct (pop_ok t (type h) (rasHistory h) r) as (a & rh & r' & -> & Hr' & Hro'); [by apply Hr|done| |].
    { rewrite Hty. apply call_type. by right. }
    simpl. eexists _, _, _. split; [done|]. split; [split; [by intros ? [= <-]|done]|]. split; [parts|].
    fields.
  - exists None, (rasHistory h), u. destruct h; simpl in *. split; [done|]. split; [split; [congruence|done]|].
    split; [done|]. done.
Qed.

Lemma ras_squash_spec t h u : parts_ok u → (t < threads)%nat → hist_ok u h →
  ∃ u', ras_squash t h u = Ok (set_rasHistory None h, u') ∧ parts_ok u' ∧ others_only u u' ∧
    hist_ok u' (set_rasHistory None h).
Proof.
  intros [Hr Hi] Ht Hh. pose proof Hh as (Hty & Hcall & Hun & Hro & Hrn & Hin). unfold ras_squash.
  destruct (rasHistory h) as [rh|] eqn:Hrh.
  - destruct (ras u) as [r|] eqn:Hru; [|by specialize (Hrn eq_refl)].
    destruct (rasquash_ok t (type h) rh r) as (r' & -> & Hr'); [by apply Hr|done|done|].
    simpl. eexists. split; [done|]. split; [split; [by intros ? [= <-]|done]|]. split; [parts|].
    fields.
  - exists u. split; [|done]. destruct h; simpl in *. by subst.
Qed.

Lemma ipred_updated_spec t sn sq b p h u : parts_ok u → (t < threads)%nat → hist_ok u h →
  ∃ o u', ipred_updated t sn sq b p h u = Ok (set_indirectHistory o h, u') ∧ parts_ok u' ∧
    others_only u u' ∧ hist_ok u' (set_indirectHistory o h).
Proof.
  intros [Hr Hi] Ht Hh. pose proof Hh as (Hty & Hcall & Hun & Hro & Hrn & Hin). unfold ipred_updated.
  destruct (iPred u) as [i|] eqn:Hiu.
  - destruct (ipred_update_law threads i t sn (pc h) sq b p (type h) (indirectHistory h))
      as (o & i' & -> & Hi'); [by apply Hi|done|]. simpl. eexists _, _. split; [done|].
    split; [split; [done|by intros ? [= <-]]|]. split; [parts|]. fields.
  - exists (indirectHistory h), u. destruct h; simpl in *. split; [done|]. split; [split; [done|congruence]|].
    split; [done|]. done.
Qed.

(** What the prediction of the target leaves alone. *)
Definition same_branch h h' : Prop :=
  seqNum h' = seqNum h ∧ pc h' = pc h ∧ inst h' = inst h ∧ uncond h' = uncond h ∧ bpHistory h' = bpHistory h.

(** A provider comes with a target. *)
Definition aimed h : Prop := targetProvider h = NoTarget ∨ is_Some (target h).

Lemma predict_btb_spec t h u h' u' : predict_btb t h u = (h', u') → parts_ok u → hist_ok u h →
  parts_ok u' ∧ others_only u u' ∧ hist_ok u' h' ∧ same_branch h h' ∧
  indirectHistory h' = indirectHistory h ∧ (aimed h → aimed h').
Proof.
  unfold predict_btb. destruct (btb_lookup _ _ _ _) as [[a|] b]; [destruct (predTaken _)|];
    intros [= <- <-] Hp Hh; do 4 (split; [done || parts|]); (split; [done|]); try done.
  intros _. right. by eexists.
Qed.

Lemma predict_ras_spec t p h u : parts_ok u → (t < threads)%nat → hist_ok u h →
  ∃ h' u', predict_ras requiresBTBHit t p h u = Ok (h', u') ∧ parts_ok u' ∧ others_only u u' ∧
    hist_ok u' h' ∧ same_branch h h' ∧ indirectHistory h' = indirectHistory h ∧
    (aimed h → aimed h').
Proof.
  intros Hp Ht Hh. unfold predict_ras.
  destruct (branch_detected requiresBTBHit h); [|by eexists _, _].
  destruct (isCall (inst h)) eqn:Hc; [|destruct (isReturn (inst h)) eqn:Hret].
  - destruct (ras_push_spec t (buildRetPC (inst h) p p) h u) as (o & u' & -> & ? & ? & ?); [done|done|done| |].
    { destruct Hh as (_ & -> & _). done. }
    by eexists _, _.
  - destruct (ras_pop_spec t h u) as (a & o & u' & -> & ? & ? & ?); [done..|].
    simpl. eexists _, _. split; [done|]. destruct a; do 5 (split; [done|]); [|done].
    intros _. right. by eexists.
  - by eexists _, _.
Qed.

Lemma predict_indirect_spec t h u : parts_ok u → (t < threads)%nat → hist_ok u h →
  indirectHistory h = None →
  ∃ h' u', predict_indirect requiresBTBHit t h u = Ok (h', u') ∧ parts_ok u' ∧ others_only u u' ∧
    hist_ok u' h' ∧ same_branch h h' ∧
    (aimed h → aimed h').
Proof.
  intros [Hr Hi] Ht Hh Hn. pose proof Hh as (Hty & Hcall & Hun & Hro & Hrn & Hin). unfold predict_indirect.
  destruct (iPred u) as [i|] eqn:Hiu; [|exists h, u; split; [done|split; [split; [done|by rewrite Hiu]|done]]].
  destruct (_ && _); [|exists h, u; split; [done|split; [split; [done|by rewrite Hiu]|done]]]. rewrite Hn.
  destruct (ipred_lookup_law threads i t (seqNum h) (pc h)) as (a & o & i' & -> & Hi'); [by apply Hi|done|].
  simpl. eexists _, _. split; [done|]. split; [split; [done|by intros ? [= <-]]|]. split; [parts|].
  destruct a; (split; [fields|split; [done|]]); [|done]. intros _. right. by eexists.
Qed.

(** ** Predicting *)

Definition outcome h : Outcome := mkOutcome (pc h) (uncond h) (actuallyTaken h).

(** The branch recorded, at the front of its thread's history. *)
Lemma predict_history_spec t (i : StaticInst PC) sn p u l : parts_ok u → (t < threads)%nat →
  shows (cond u) t l →
  ∃ b a h u', predict_history requiresBTBHit t i sn p u = Ok (b, a, h, u') ∧ parts_ok u' ∧ same_parts u u' ∧
    shows (cond u') t (outcome h :: l) ∧ keeps t (cond u) (cond u') ∧
    in_flight (bpHistory h) l (pc h) (uncond h) ∧ hist_ok u' h ∧ is_Some (target h).
Proof.
  intros Hp Ht Hs. unfold predict_history. set (h0 := PredictorHistory_new sn (instAddr p) i).
  assert (hist_ok u h0) as Hh0 by (split; [done|]; split; [done|]; split; [done|]; by split).
  assert (∃ h u1, predict_direction t h0 u = Ok (h, u1) ∧ parts_ok u1 ∧ same_parts u u1 ∧
    shows (cond u1) t l ∧ keeps t (cond u) (cond u1) ∧ hist_ok u1 h ∧ aimed h ∧ indirectHistory h = None ∧
    (if uncond h then bpHistory h = None else looked_up (bpHistory h) l (pc h)))
    as (h1 & u1 & -> & Hp1 & Hsp1 & Hs1 & Hk1 & Hh1 & Ha1 & Hi1 & Hl1).
  { unfold predict_direction. destruct (isUncondCtrl (inst h0)) eqn:Hu; simpl in Hu.
    - eexists _, _. split; [done|]. do 3 (split; [done|]). split; [reflexivity|]. split; [exact Hh0|].
      split; [by left|]. split; [done|]. simpl. by rewrite Hu.
    - destruct (lookup_law (cond u) t l (pc h0) Hs) as (b & h & s' & -> & Hs' & Hk & Hlk). simpl.
      eexists _, _. split; [done|]. do 4 (split; [done|]). split; [exact Hh0|]. split; [by left|].
      split; [done|]. simpl. by rewrite Hu. }
  simpl. destruct (predict_btb t h1 u1) as [h2 u2] eqn:Hbtb.
  destruct (predict_btb_spec _ _ _ _ _ Hbtb Hp1 Hh1) as (Hp2 & [Hc2 Hsp2] & Hh2 & Hb2 & Hi2 & Ha2).
  destruct (predict_ras_spec t p h2 u2 Hp2 Ht Hh2) as (h3 & u3 & -> & Hp3 & [Hc3 Hsp3] & Hh3 & Hb3 & Hi3 & Ha3).
  simpl. destruct (predict_indirect_spec t h3 u3 Hp3 Ht Hh3) as (h4 & u4 & -> & Hp4 & [Hc4 Hsp4] & Hh4 & Hb4 & Ha4);
    [congruence|]. simpl.
  assert (is_Some (target (predict_fallthrough p h4)) ∧ same_branch h4 (predict_fallthrough p h4) ∧
    hist_ok u4 (predict_fallthrough p h4)) as ([a Ha] & Hb5 & Hh5).
  { unfold predict_fallthrough. case_bool_decide as Hnt; [by split; [eexists|]|].
    split; [|done]. destruct (Ha4 (Ha3 (Ha2 Ha1))); [done|done]. }
  set (h5 := predict_fallthrough p h4) in *.
  change (target (set_actuallyTaken _ h5)) with (target h5). rewrite Ha. simpl.
  assert (same_branch h1 h5) as (_ & Hpc & _ & Hun & Hbp).
  { unfold same_branch in *. repeat split; intuition congruence. }
  rewrite Hbp, Hpc, Hun.
  destruct (updateHistories_law (cond u4) t l (pc h1) (uncond h1) (predTaken h5) (instAddr a) (bpHistory h1))
    as (bh & s' & -> & Hs' & Hk & Hfl); [by rewrite Hc4, Hc3, Hc2|done|]. simpl.
  match goal with |- context [ipred_updated ?t ?sn ?sq ?b ?x ?h ?v] =>
    destruct (ipred_updated_spec t sn sq b x h v) as (o & u6 & -> & Hp6 & [Hc6 Hsp6] & Hh6) end; [done|done|done|].
  simpl. eexists _, _, _, _. split; [done|]. split; [done|]. split.
  { do 3 (etrans; [eassumption|]). etrans; [|exact Hsp6]. done. }
  rewrite Hc6. unfold outcome. simpl. rewrite Hpc, Hun. split; [done|]. split.
  { intros t' l' Hne Hl'. apply Hk; [done|]. rewrite Hc4, Hc3, Hc2. by apply Hk1. }
  split; [done|]. split; [done|]. by exists a.
Qed.

(** ** Committing and squashing one branch *)

Lemma commitBranch_spec t h u l l' : parts_ok u → (t < threads)%nat → hist_ok u h → is_Some (target h) →
  shows (cond u) t l → in_flight (bpHistory h) l' (pc h) (uncond h) →
  ∃ h' u', commitBranch t h u = Ok (h', u') ∧ delete_history h' = Ok tt ∧ parts_ok u' ∧ same_parts u u' ∧
    shows (cond u') t l ∧ keeps t (cond u) (cond u').
Proof.
  intros [Hr Hi] Ht (Hty & Hcall & Hun & Hro & Hrn & Hin) [a Ha] Hs Hfl. unfold commitBranch. rewrite Ha. simpl.
  destruct (commit_law (cond u) t l l' (bpHistory h) (pc h) (uncond h) (actuallyTaken h) (instAddr a) Hs Hfl)
    as (s' & -> & Hs' & Hk). simpl.
  assert (∃ h1 u1, match iPred u with
     | None => Ok (set_bpHistory None h, set_cond s' u)
     | Some i => '(ih, i) ← ipred_commit t (seqNum h) (indirectHistory h) i;
                 Ok (set_indirectHistory ih (set_bpHistory None h), set_iPred (Some i) (set_cond s' u))
     end = Ok (h1, u1) ∧ parts_ok u1 ∧ same_parts u u1 ∧ cond u1 = s' ∧ ras u1 = ras u ∧
     h1 = set_indirectHistory None (set_bpHistory None h)) as (h1 & u1 & -> & Hp1 & Hsp1 & Hc1 & Hr1 & ->).
  { destruct (iPred u) as [i|] eqn:Hiu.
    - destruct (ipred_commit_law threads i t (seqNum h) (indirectHistory h)) as (i' & -> & Hi'); [by apply Hi|done|].
      simpl. eexists _, _. split; [done|]. split; [split; [done|by intros ? [= <-]]|].
      split; [repeat split; simpl in *; congruence|done].
    - eexists _, _. split; [done|]. split; [split; [done|simpl; by rewrite Hiu]|].
      split; [done|]. do 2 (split; [done|]). specialize (Hin eq_refl). destruct h. simpl in *. by subst. }
  simpl. rewrite Hr1. destruct (ras u) as [r|] eqn:Hru.
  - assert (commit (type h) (rasHistory h) = Ok tt) as ->.
    { unfold commit. destruct (rasHistory h) as [rh|]; [|by destruct (negb _)].
      destruct (Hro rh eq_refl) as [Hb _].
      destruct Hb as [->|[->| ->]]; done. }
    simpl. eexists _, _. split; [done|]. split; [done|]. split; [done|]. split; [done|]. by rewrite Hc1.
  - eexists _, _. split; [done|]. split; [|split; [done|split; [done|by rewrite Hc1]]].
    unfold delete_history. simpl. by rewrite (Hrn eq_refl).
Qed.

Lemma squashHistory_spec t h u l : parts_ok u → (t < threads)%nat → hist_ok u h →
  shows (cond u) t (outcome h :: l) → in_flight (bpHistory h) l (pc h) (uncond h) →
  ∃ h' u', squashHistory t h u = Ok (h', u') ∧ delete_history h' = Ok tt ∧ parts_ok u' ∧ same_parts u u' ∧
    shows (cond u') t l ∧ keeps t (cond u) (cond u').
Proof.
  intros Hp Ht Hh Hs Hfl. unfold squashHistory.
  destruct (ras_squash_spec t h u Hp Ht Hh) as (u1 & -> & [Hr1 Hi1] & [Hc1 Hsp1] & Hh1). simpl.
  pose proof Hh1 as (_ & _ & _ & _ & _ & Hin). simpl in Hin.
  assert (∃ u2, match iPred u1 with
     | None => Ok (set_rasHistory None h, u1)
     | Some i => '(ih, i) ← ipred_squash t (seqNum h) (indirectHistory h) i;
                 Ok (set_indirectHistory ih (set_rasHistory None h), set_iPred (Some i) u1)
     end = Ok (set_indirectHistory None (set_rasHistory None h), u2) ∧ parts_ok u2 ∧ same_parts u1 u2 ∧
     cond u2 = cond u1) as (u2 & -> & Hp2 & Hsp2 & Hc2).
  { destruct (iPred u1) as [i|] eqn:Hiu.
    - destruct (ipred_squash_law threads i t (seqNum h) (indirectHistory h)) as (i' & -> & Hi'); [by apply Hi1|done|].
      simpl. eexists _. split; [done|]. split; [split; [done|by intros ? [= <-]]|].
      split; [repeat split; simpl in *; congruence|done].
    - exists u1. split; [|split; [split; [done|by rewrite Hiu]|done]].
      specialize (Hin eq_refl). destruct h. simpl in *. by subst. }
  simpl. destruct (squash_law (cond u2) t (outcome h) l (bpHistory h)) as (s' & -> & Hs' & Hk);
    [by rewrite Hc2, Hc1|done|]. simpl.
  eexists _, _. split; [done|]. split; [done|]. split; [done|]. split; [by etrans|]. split; [done|].
  simpl. by rewrite Hc2, Hc1 in Hk.
Qed.

(** ** Threads *)

(** The histories in flight, each taken after the outcomes that are older. *)
Fixpoint flights (l : list Hist) (c : list Outcome) : Prop :=
  match l with
  | [] => True
  | h :: l => in_flight (bpHistory h) (map outcome l ++ c) (pc h) (uncond h) ∧ flights l c
  end.

Lemma flights_app l1 l2 c : flights (l1 ++ l2) c ↔ flights l1 (map outcome l2 ++ c) ∧ flights l2 c.
Proof.
  induction l1 as [|h l1 IHl]; simpl; [tauto|]. rewrite IHl, map_app, <-app_assoc. tauto.
Qed.

Definition hist_good u h : Prop := hist_ok u h ∧ is_Some (target h).

Lemma hist_good_same u u' l : same_parts u u' → Forall (hist_good u) l → Forall (hist_good u') l.
Proof.
  intros Hsp Hl. eapply Forall_impl; [exact Hl|]. intros h [Hh Ht]. split; [|done]. by eapply hist_ok_same.
Qed.

Definition thread_ok u t (l : list Hist) (c : list Outcome) : Prop :=
  shows (cond u) t (map outcome l ++ c) ∧ flights l c ∧ Forall (hist_good u) l.

(** What an operation on thread [t] may do. *)
Definition advances t u u' : Prop := parts_ok u' ∧ same_parts u u' ∧ keeps t (cond u) (cond u').

Lemma advances_trans t u1 u2 u3 : advances t u1 u2 → advances t u2 u3 → advances t u1 u3.
Proof. intros (? & ? & ?) (? & ? & ?). split; [done|]. split; by etrans. Qed.

Lemma squash_loop_spec t sn c l : ∀ u, parts_ok u → (t < threads)%nat → thread_ok u t l c →
  ∃ k l' u', squash_loop t sn l u = Ok (l', u') ∧ l = k ++ l' ∧ advances t u u' ∧ thread_ok u' t l' c.
Proof.
  induction l as [|h l IHl]; intros u Hp Ht (Hs & Hf & Hl); simpl.
  { exists [], [], u. split; [done|]. split; [done|]. by split; [split; [|split; [|reflexivity]]|]. }
  destruct (sn <? seqNum h).
  - destruct Hf as [Hf Hfl]. apply Forall_cons in Hl as [[Hh Htgt] Hl].
    destruct (squashHistory_spec t h u _ Hp Ht Hh Hs Hf) as (h' & u1 & -> & Hdel & Hp1 & Hsp1 & Hs1 & Hk1). simpl.
    rewrite Hdel. simpl. destruct (IHl u1) as (k & l' & u' & -> & -> & Ha & Hok); [done|done| |].
    { split; [done|]. split; [done|]. by eapply hist_good_same. }
    exists (h :: k), l', u'. split; [done|]. split; [done|]. split; [|done]. by eapply advances_trans.
  - exists [], (h :: l), u. split; [done|]. split; [done|]. by split; [split; [|split; [|reflexivity]]|].
Qed.

Lemma update_loop_spec t sn lr : ∀ u c, parts_ok u → (t < threads)%nat → thread_ok u t (reverse lr) c →
  ∃ k lr' u', update_loop t sn lr u = Ok (lr', u') ∧ reverse lr = reverse lr' ++ k ∧ advances t u u' ∧
    thread_ok u' t (reverse lr') (map outcome k ++ c).
Proof.
  induction lr as [|h lr IHl]; intros u c Hp Ht Hth; simpl.
  { exists [], [], u. split; [done|]. split; [done|]. by split; [split; [|split; [|reflexivity]]|]. }
  destruct (seqNum h <=? sn).
  - rewrite reverse_cons in Hth. destruct Hth as (Hs & Hf & Hl). rewrite map_app, <-app_assoc in Hs. simpl in Hs.
    apply flights_app in Hf as [Hf [Hh' _]]. rewrite Forall_app, Forall_singleton in Hl. destruct Hl as [Hl [Hh Htgt]].
    destruct (commitBranch_spec t h u _ _ Hp Ht Hh Htgt Hs Hh') as (h' & u1 & -> & Hdel & Hp1 & Hsp1 & Hs1 & Hk1).
    simpl. rewrite Hdel. simpl. destruct (IHl u1 (outcome h :: c)) as (k & lr' & u' & -> & Hrev & Ha & Hok);
      [done|done| |].
    { split; [done|]. split; [done|]. by eapply hist_good_same. }
    exists (k ++ [h]), lr', u'. split; [done|]. rewrite reverse_cons, Hrev, app_assoc. split; [done|].
    split; [by eapply advances_trans|]. by rewrite map_app, <-app_assoc.
  - exists [], (h :: lr), u. rewrite app_nil_r. split; [done|]. split; [done|].
    by split; [split; [|split; [|reflexivity]]|].
Qed.

(** ** Correcting a branch *)

Lemma return_type (i : StaticInst PC) : getBranchType i = Return → isReturn i = true.
Proof. unfold getBranchType. by destruct (isReturn i), (isCall i), (isDirectCtrl i), (isCondCtrl i), (isIndirectCtrl i). Qed.

Lemma correct_ras_spec t a b h u : parts_ok u → (t < threads)%nat → hist_ok u h →
  ∃ o u', correct_ras t a b h u = Ok (set_rasHistory o h, u') ∧ parts_ok u' ∧ others_only u u' ∧
    hist_ok u' (set_rasHistory o h).
Proof.
  intros Hp Ht Hh. unfold correct_ras.
  assert (set_rasHistory (rasHistory h) h = h) as Hid by by destruct h.
  destruct (ras u) as [r|]; [|exists (rasHistory h), u; by rewrite Hid].
  destruct (b && _).
  - assert (∃ o u1, (if bool_decide (type h = Return) then '(_, h, u) ← ras_pop t h u; Ok (h, u) else Ok (h, u))
      = Ok (set_rasHistory o h, u1) ∧ parts_ok u1 ∧ others_only u u1 ∧ hist_ok u1 (set_rasHistory o h))
      as (o & u1 & -> & Hp1 & [Hc1 Hsp1] & Hh1).
    { case_bool_decide as Hret; [|exists (rasHistory h), u; by rewrite Hid].
      destruct (ras_pop_spec t h u Hp Ht Hh) as (x & o & u1 & -> & ?); [|by exists o, u1].
      apply return_type. destruct Hh as (<- & _). done. }
    simpl. destruct (call_ h) eqn:Hcall; [|by exists o, u1].
    destruct (ras_push_spec t (buildRetPC (inst h) a a) (set_rasHistory o h) u1 Hp1 Ht Hh1 Hcall)
      as (o' & u2 & Hpush & Hp2 & [Hc2 Hsp2] & Hh2).
    exists o', u2. split; [exact Hpush|]. split; [done|]. split; [split; [congruence|by etrans]|done].
  - destruct (negb b && _); [|exists (rasHistory h), u; by rewrite Hid].
    destruct (ras_squash_spec t h u Hp Ht Hh) as (u1 & ? & ?). by exists None, u1.
Qed.

(** ** Runs *)

(** The unit and, for each thread, the outcomes of its committed branches. *)
Record State := mkState { unit_ : Unit; committed : list (list Outcome) }.

Definition state_ok (s : State) : Prop :=
  parts_ok (unit_ s) ∧ length (predHist (unit_ s)) = threads ∧ length (committed s) = threads ∧
  ∀ t l c, predHist (unit_ s) !! t = Some l → committed s !! t = Some c → thread_ok (unit_ s) t l c.

Lemma state_lookup s t : state_ok s → (t < threads)%nat →
  ∃ l c, predHist (unit_ s) !! t = Some l ∧ committed s !! t = Some c ∧ thread_ok (unit_ s) t l c.
Proof.
  intros (_ & Hl & Hc & Hth) Ht. destruct (lookup_lt_is_Some_2 (predHist (unit_ s)) t) as [l Hls]; [lia|].
  destruct (lookup_lt_is_Some_2 (committed s) t) as [c Hcs]; [lia|]. exists l, c. by split; [|split; [|apply Hth]].
Qed.

Lemma state_advance s t u l c : state_ok s → advances t (unit_ s) u → thread_ok u t l c →
  state_ok (mkState (set_predHist t l u) (<[t := c]> (committed s))).
Proof.
  intros (Hp & Hl & Hc & Hth) (Hp' & Hsp & Hk) Hok. pose proof Hsp as (_ & _ & Hph).
  split; [done|]. simpl. rewrite !length_insert, Hph. split; [done|]. split; [done|].
  intros t' l' c' Hl' Hc'. destruct (decide (t' = t)) as [->|Hne].
  - apply list_lookup_insert_Some in Hl' as [(_ & <- & _)|[? _]]; [|done].
    apply list_lookup_insert_Some in Hc' as [(_ & <- & _)|[? _]]; [|done]. done.
  - rewrite list_lookup_insert_ne in Hl' by done. rewrite list_lookup_insert_ne in Hc' by done. destruct (Hth t' l' c') as (Hs & Hf & Hg); [done|done|].
    split; [by apply Hk|]. split; [done|]. exact (hist_good_same (unit_ s) u l' Hsp Hg).
Qed.

(** The calls of the front end.  The outcomes of the branches that [update] takes off the
    history are committed. *)
Inductive step : State → State → Prop :=
  | step_predict t i sn p u c b a u' : (t < threads)%nat →
      predict requiresBTBHit t i sn p u = Ok (b, a, u') → step (mkState u c) (mkState u' c)
  | step_update t sn u c u' l l' k ct : (t < threads)%nat → update_upto sn t u = Ok u' →
      predHist u !! t = Some l → predHist u' !! t = Some l' → l = l' ++ k → c !! t = Some ct →
      step (mkState u c) (mkState u' (<[t := map outcome k ++ ct]> c))
  | step_squash t sn u c u' : (t < threads)%nat → squash_younger sn t u = Ok u' →
      step (mkState u c) (mkState u' c)
  | step_correct t sn a b u c u' : (t < threads)%nat → squash_corrected requiresBTBHit sn a b t u = Ok u' →
      step (mkState u c) (mkState u' c).

Lemma predict_ok s t i sn p : state_ok s → (t < threads)%nat →
  ∃ b a u', predict requiresBTBHit t i sn p (unit_ s) = Ok (b, a, u') ∧ state_ok (mkState u' (committed s)).
Proof.
  intros Hs Ht. destruct (state_lookup s t Hs Ht) as (l & c & Hl & Hc & Hsh & Hf & Hg). pose proof Hs as (Hp & _).
  destruct (predict_history_spec t i sn p (unit_ s) _ Hp Ht Hsh) as (b & a & h & u' & Hpr & Hp' & Hsp & Hsh' & Hk & Hfl & Hh & Htg).
  unfold predict. rewrite Hpr. simpl. destruct Hsp as (Hsp1 & Hsp2 & Hph). rewrite Hph, Hl. simpl.
  eexists _, _, _. split; [done|]. rewrite <-(list_insert_id _ _ _ Hc). apply state_advance; [done|done|].
  split; [done|]. split; [done|]. constructor; [done|]. by eapply (hist_good_same (unit_ s)).
Qed.

Lemma squash_ok s t sn : state_ok s → (t < threads)%nat →
  ∃ u', squash_younger sn t (unit_ s) = Ok u' ∧ state_ok (mkState u' (committed s)).
Proof.
  intros Hs Ht. destruct (state_lookup s t Hs Ht) as (l & c & Hl & Hc & Hth). pose proof Hs as (Hp & _).
  destruct (squash_loop_spec t sn c l (unit_ s) Hp Ht Hth) as (k & l' & u' & Hsq & -> & Ha & Hth').
  unfold squash_younger. rewrite Hl. simpl. rewrite Hsq. simpl. eexists. split; [done|].
  rewrite <-(list_insert_id _ _ _ Hc). by apply state_advance.
Qed.

Lemma update_ok s t sn : state_ok s → (t < threads)%nat →
  ∃ u' l' k ct, update_upto sn t (unit_ s) = Ok u' ∧ predHist (unit_ s) !! t = Some (l' ++ k) ∧
    predHist u' !! t = Some l' ∧ committed s !! t = Some ct ∧
    state_ok (mkState u' (<[t := map outcome k ++ ct]> (committed s))).
Proof.
  intros Hs Ht. destruct (state_lookup s t Hs Ht) as (l & c & Hl & Hc & Hth). pose proof Hs as (Hp & _).
  rewrite <-(reverse_involutive l) in Hth.
  destruct (update_loop_spec t sn (reverse l) (unit_ s) c Hp Ht Hth) as (k & lr' & u' & Hup & Hrev & Ha & Hth').
  rewrite reverse_involutive in Hrev. unfold update_upto. rewrite Hl. simpl. rewrite Hup. simpl.
  exists (set_predHist t (reverse lr') u'), (reverse lr'), k, c. split; [done|]. split; [congruence|].
  split; [|split; [done|by apply state_advance]].
  simpl. apply list_lookup_insert_eq. destruct Ha as (_ & (_ & _ & ->) & _). by eapply lookup_lt_Some.
Qed.

Lemma correct_ok s t sn a b : state_ok s → (t < threads)%nat →
  ∃ u', squash_corrected requiresBTBHit sn a b t (unit_ s) = Ok u' ∧ state_ok (mkState u' (committed s)).
Proof.
  intros Hs Ht. destruct (squash_ok s t sn Hs Ht) as (u1 & Hsq & Hs1). unfold squash_corrected. rewrite Hsq. simpl.
  destruct (state_lookup _ t Hs1 Ht) as (l & c & Hl & Hc & Hsh & Hf & Hg). simpl in Hl, Hc, Hsh. rewrite Hl. simpl.
  destruct l as [|h l]; [by eexists|]. pose proof Hs1 as (Hp & _). simpl in Hp.
  apply Forall_cons in Hg as [[Hh Htg] Hg]. destruct Hf as [Hf Hfl].
  destruct (resolve_law (cond u1) t (outcome h) _ (bpHistory h) b (instAddr a) Hsh Hf) as (bh & s' & Hup & Hsh' & Hk & Hfl').
  simpl in Hup. rewrite Hup. simpl.
  set (h1 := set_bpHistory bh _). assert (hist_ok (set_cond s' u1) h1) as Hh1 by exact Hh.
  destruct (ipred_updated_spec t sn true b a h1 (set_cond s' u1)) as (o & u2 & -> & Hp2 & [Hc2 Hsp2] & Hh2); [done..|].
  simpl. destruct (correct_ras_spec t a b _ u2 Hp2 Ht Hh2) as (o' & u3 & -> & Hp3 & [Hc3 Hsp3] & Hh3). simpl.
  eexists. split; [done|]. rewrite <-(list_insert_id _ _ _ Hc).
  set (h3 := set_rasHistory _ _) in *. set (u4 := correct_btb _ _ _ _ _ _).
  assert (parts_ok u4 ∧ cond u4 = cond u3 ∧ same_parts u3 u4 ∧ hist_ok u4 h3) as (Hp4 & Hc4 & Hsp4 & Hh4).
  { subst u4. unfold correct_btb. by destruct (b && _). }
  apply (state_advance (mkState u1 (committed s)) t u4).
  - done.
  - split; [done|]. split; [do 2 (etrans; [|eassumption]); by etrans; [|exact Hsp2]|].
    simpl. rewrite Hc4, Hc3, Hc2. exact Hk.
  - split; [simpl; rewrite Hc4, Hc3, Hc2; exact Hsh'|]. split; [split; [exact Hfl'|done]|].
    constructor; [split; [done|by eexists]|]. eapply (hist_good_same u1); [|done].
    do 2 (etrans; [|eassumption]). by etrans; [|exact Hsp2].
Qed.

Lemma step_ok s s' : state_ok s → step s s' → state_ok s'.
Proof.
  intros Hs Hst. destruct Hst as [t i sn p u c b a u' Ht Hop|t sn u c u' l l' k ct Ht Hop Hl Hl' Hk Hc|t sn u c u' Ht Hop
    |t sn a b u c u' Ht Hop].
  - destruct (predict_ok _ t i sn p Hs Ht) as (? & ? & ? & H' & ?). simpl in *.
    rewrite H' in Hop. by injection Hop as -> -> ->.
  - destruct (update_ok _ t sn Hs Ht) as (? & l2 & k2 & ? & H' & Hl2 & Hl2' & Hc2 & ?). simpl in *.
    rewrite H' in Hop. injection Hop as ->. assert (l2 = l') as -> by congruence.
    assert (k2 = k) as -> by (apply (app_inv_head l'); congruence). congruence.
  - destruct (squash_ok _ t sn Hs Ht) as (? & H' & ?). simpl in *. rewrite H' in Hop. by injection Hop as ->.
  - destruct (correct_ok _ t sn a b Hs Ht) as (? & H' & ?). simpl in *. rewrite H' in Hop. by injection Hop as ->.
Qed.

(** A unit before its first branch. *)
Definition fresh u : Prop :=
  predHist u = replicate threads [] ∧ parts_ok u ∧ ∀ t, (t < threads)%nat → shows (cond u) t [].

Definition reachable u (s : State) : Prop := rtc step (mkState u (replicate threads [])) s.

Lemma reachable_ok u s : fresh u → reachable u s → state_ok s.
Proof.
  intros (Hph & Hp & Hs) Hr. unfold reachable in Hr.
  assert (state_ok (mkState u (replicate threads []))) as Hok.
  { split; [done|]. simpl. rewrite Hph, !length_replicate. split; [done|]. split; [done|].
    intros t l c Hl Hc. apply lookup_replicate in Hl as [-> Ht]. apply lookup_replicate in Hc as [-> _].
    split; [by apply Hs|]. by split. }
  induction Hr as [|s0 s1 s2 Hst _ IHr]; [done|]. apply IHr. by eapply step_ok.
Qed.

(** C26: whatever the unit has predicted, committed, squashed and corrected, the speculative
    history of each thread in the conditional predictor is that of the outcomes of the
    branches on the current path: of its committed branches and of those in flight, each as
    predicted or as it was corrected; no squashed branch leaves a trace, and threads do not
    disturb each other.  No operation fails, so no assertion of the unit, of the destructor
    of a history, or of the return address stack is violated.  This holds for every
    predictor that keeps the laws, with any target buffer and indirect predictor. *)
Theorem bpu_follows_path u0 u c t : fresh u0 → reachable u0 (mkState u c) → (t < threads)%nat →
  ∃ l ct, predHist u !! t = Some l ∧ c !! t = Some ct ∧ shows (cond u) t (map outcome l ++ ct) ∧
    (∀ i sn p, ∃ b a u', predict requiresBTBHit t i sn p u = Ok (b, a, u')) ∧
    (∀ sn, ∃ u', update_upto sn t u = Ok u') ∧
    (∀ sn, ∃ u', squash_younger sn t u = Ok u') ∧
    (∀ sn a b, ∃ u', squash_corrected requiresBTBHit sn a b t u = Ok u').
Proof.
  intros Hf Hr Ht. apply (reachable_ok _ _ Hf) in Hr.
  destruct (state_lookup _ t Hr Ht) as (l & ct & Hl & Hc & Hsh & _). exists l, ct.
  do 3 (split; [done|]). split; [|split; [|split]].
  - intros i sn p. destruct (predict_ok _ t i sn p Hr Ht) as (b & a & u' & ? & _). by exists b, a, u'.
  - intros sn. destruct (update_ok _ t sn Hr Ht) as (u' & _ & _ & _ & ? & _). by exists u'.
  - intros sn. destruct (squash_ok _ t sn Hr Ht) as (u' & ? & _). by exists u'.
  - intros sn a b. destruct (correct_ok _ t sn a b Hr Ht) as (u' & ? & _). by exists u'.
Qed.

End Unit_.

End BPredProps.
