(* ===== verification/CondPred.v ===== *)
(** * cpu/pred: what the conditional predictors share

    Tables of saturating counters: their construction, training and threshold.  The
    predictors are [LocalBP], [BiModeBP] and [TournamentBP], each in the file of its name. *)

From Stdlib Require Import ZArith Lia.
From stdpp Require Import base numbers option list.
From S2P Require Import Prelude Bitfield IntMath SatCounter.

Module CondPred.
Import Bitfield IntMath SatCounter.

(** *** Tables of counters *)

(** [table[i]++] and [table[i]--] *)
Definition train (up : bool) (i : Z) (table : list SatCounter) : result (list SatCounter) :=
  c ← load_at table i; store_at table i (if up then inc c else dec c).

(** [size] counters of [bits] bits, and the value above which one predicts taken. *)
Definition counters (size bits : Z) : result (list SatCounter) :=
  c ← SatCounter_new 8 bits 0; Ok (replicate (Z.to_nat size) c).
Definition threshold (bits : Z) : result Z :=
  if bits =? 0 then Err Undefined else Ok (u32 (u64 (1 .<< (bits - 1)) - 1)).

End CondPred.
