(* ===== verification/LocalBP.v ===== *)
(** * cpu/pred/2bit_local: a table of counters indexed by the branch's address

    The constants that the constructor computes are a record; the state is the table.  An
    instance of the interface [BPred.CondPredictor]. *)

From Stdlib Require Import ZArith Lia.
From stdpp Require Import base numbers option list.
From S2P Require Import Prelude Bitfield IntMath SatCounter BPred CondPred.

Module LocalBP.
Import Bitfield IntMath SatCounter CondPred.

Record LocalParams := mkParams { instShiftAmt : Z; localCtrBits : Z; indexMask : Z }.

Definition LocalBP_new (shift size bits : Z) : result (LocalParams * list SatCounter) :=
  if bits =? 0 then Err Undefined
  else
    let sets := size / bits in
    ctrs ← counters sets bits;
    _ ← fatal_if (negb (isPowerOf2 size));
    _ ← fatal_if (negb (isPowerOf2 sets));
    Ok (mkParams shift bits (u32 (sets - 1)), ctrs).

Section Predictor.
Context (pr : LocalParams).

Definition getPrediction (count : Z) : bool := negb (count .>> (localCtrBits pr - 1) =? 0).
Definition getLocalIndex (branch_addr : Z) : Z := (branch_addr .>> instShiftAmt pr) .& indexMask pr.

Definition lookup (branch_addr : Z) (s : list SatCounter) : result (bool * option unit * list SatCounter) :=
  c ← load_at s (getLocalIndex branch_addr);
  Ok (getPrediction (counter c), None, s).

Definition update (branch_addr : Z) (taken : bool) (h : option unit) (squashed : bool)
    (s : list SatCounter) : result (option unit * list SatCounter) :=
  _ ← assert_ok (match h with None => true | Some _ => false end);
  if squashed then Ok (h, s)
  else s ← train taken (getLocalIndex branch_addr) s; Ok (h, s).

Definition updateHistories (h : option unit) (s : list SatCounter) : result (option unit * list SatCounter) :=
  Ok (h, s).

Definition squash (h : option unit) (s : list SatCounter) : result (list SatCounter) :=
  _ ← assert_ok (match h with None => true | Some _ => false end); Ok s.

Definition predictor : BPred.CondPredictor (list SatCounter) unit := {|
  BPred.lookup tid pc s := lookup pc s;
  BPred.updateHistories tid pc uncond taken target h s := updateHistories h s;
  BPred.squash tid h s := squash h s;
  BPred.update tid pc taken h squashed target s := update pc taken h squashed s
|}.

End Predictor.
End LocalBP.
