(* ===== verification/BiModeBP.v ===== *)
(** * cpu/pred/bi_mode: two global predictors and a choice between them

    The constants that the constructor computes are a record; the counters' tables and the
    history registers are the state.  An instance of the interface [BPred.CondPredictor]. *)

From Stdlib Require Import ZArith Lia.
From stdpp Require Import base numbers option list.
From S2P Require Import Prelude Bitfield IntMath SatCounter BPred CondPred.

Module BiModeBP.
Import Bitfield IntMath SatCounter CondPred.

Record BiModeParams := mkParams {
  instShiftAmt : Z;
  choicePredictorSize : Z;
  globalPredictorSize : Z;
  globalHistoryBits : Z;
  historyRegisterMask : Z;
  choiceHistoryMask : Z;
  globalHistoryMask : Z;
  choiceThreshold : Z;
  takenThreshold : Z;
  notTakenThreshold : Z
}.

Record BPHistory := mkBPHistory {
  h_globalHistoryReg : Z;
  takenUsed : bool;
  takenPred : bool;
  notTakenPred : bool;
  finalPred : bool
}.

Record BiModeBP := mkBiMode {
  globalHistoryReg : list Z;
  choiceCounters : list SatCounter;
  takenCounters : list SatCounter;
  notTakenCounters : list SatCounter
}.

Definition BiModeBP_new (numThreads : nat) (shift choice_size choice_bits global_size global_bits : Z)
    : result (BiModeParams * BiModeBP) :=
  bits ← ceilLog2 4 global_size;
  choice ← counters choice_size choice_bits;
  taken ← counters global_size global_bits;
  not_taken ← counters global_size global_bits;
  _ ← fatal_if (negb (isPowerOf2 choice_size));
  _ ← fatal_if (negb (isPowerOf2 global_size));
  ct ← threshold choice_bits;
  gt ← threshold global_bits;
  Ok (mkParams shift choice_size global_size bits (u32 (mask bits)) (u32 (choice_size - 1))
        (u32 (global_size - 1)) ct gt gt,
      mkBiMode (replicate numThreads 0) choice taken not_taken).

Definition set_globalHistoryReg (l : list Z) (s : BiModeBP) : BiModeBP :=
  mkBiMode l (choiceCounters s) (takenCounters s) (notTakenCounters s).
Definition set_choiceCounters (l : list SatCounter) (s : BiModeBP) : BiModeBP :=
  mkBiMode (globalHistoryReg s) l (takenCounters s) (notTakenCounters s).
Definition set_takenCounters (l : list SatCounter) (s : BiModeBP) : BiModeBP :=
  mkBiMode (globalHistoryReg s) (choiceCounters s) l (notTakenCounters s).
Definition set_notTakenCounters (l : list SatCounter) (s : BiModeBP) : BiModeBP :=
  mkBiMode (globalHistoryReg s) (choiceCounters s) (takenCounters s) l.

Section Predictor.
Context (pr : BiModeParams).

Definition uncondBranch (tid : nat) (s : BiModeBP) : result BPHistory :=
  g ← deref (globalHistoryReg s !! tid); Ok (mkBPHistory g true true true true).

Definition updateGlobalHistReg (tid : nat) (taken : bool) (s : BiModeBP) : result BiModeBP :=
  g ← deref (globalHistoryReg s !! tid);
  let g := if taken then u32 (g .<< 1) .| 1 else u32 (g .<< 1) in
  Ok (set_globalHistoryReg (<[tid := g .& historyRegisterMask pr]> (globalHistoryReg s)) s).

Definition updateHistories (tid : nat) (uncond taken : bool) (h : option BPHistory) (s : BiModeBP)
    : result (option BPHistory * BiModeBP) :=
  _ ← assert_ok (uncond || match h with Some _ => true | None => false end);
  h ← (if uncond then h ← uncondBranch tid s; Ok (Some h) else Ok h);
  s ← updateGlobalHistReg tid taken s;
  Ok (h, s).

Definition squash (tid : nat) (h : option BPHistory) (s : BiModeBP) : result BiModeBP :=
  h ← deref h;
  _ ← deref (globalHistoryReg s !! tid);
  Ok (set_globalHistoryReg (<[tid := h_globalHistoryReg h]> (globalHistoryReg s)) s).

Definition choiceHistoryIdx (branchAddr : Z) : Z := (branchAddr .>> instShiftAmt pr) .& choiceHistoryMask pr.
Definition globalHistoryIdx (branchAddr g : Z) : Z :=
  ((branchAddr .>> instShiftAmt pr) .^ g) .& globalHistoryMask pr.

Definition lookup (tid : nat) (branchAddr : Z) (s : BiModeBP) : result (bool * option BPHistory * BiModeBP) :=
  g ← deref (globalHistoryReg s !! tid);
  let ci := choiceHistoryIdx branchAddr in
  let gi := globalHistoryIdx branchAddr g in
  _ ← assert_ok (ci <? choicePredictorSize pr);
  _ ← assert_ok (gi <? globalPredictorSize pr);
  c ← load_at (choiceCounters s) ci;
  t ← load_at (takenCounters s) gi;
  n ← load_at (notTakenCounters s) gi;
  let choicePrediction := choiceThreshold pr <? counter c in
  let takenGHBPrediction := takenThreshold pr <? counter t in
  let notTakenGHBPrediction := notTakenThreshold pr <? counter n in
  let finalPrediction := if choicePrediction then takenGHBPrediction else notTakenGHBPrediction in
  Ok (finalPrediction,
      Some (mkBPHistory g choicePrediction takenGHBPrediction notTakenGHBPrediction finalPrediction), s).

Definition update (tid : nat) (branchAddr : Z) (taken : bool) (h : option BPHistory) (squashed : bool)
    (s : BiModeBP) : result (option BPHistory * BiModeBP) :=
  _ ← assert_ok (match h with Some _ => true | None => false end);
  history ← deref h;
  if squashed then
    _ ← deref (globalHistoryReg s !! tid);
    Ok (h, set_globalHistoryReg
             (<[tid := u32 (h_globalHistoryReg history .<< 1) .| Z.b2z taken]> (globalHistoryReg s)) s)
  else
    let ci := choiceHistoryIdx branchAddr in
    let gi := globalHistoryIdx branchAddr (h_globalHistoryReg history) in
    _ ← assert_ok (ci <? choicePredictorSize pr);
    _ ← assert_ok (gi <? globalPredictorSize pr);
    s ← (if takenUsed history then l ← train taken gi (takenCounters s); Ok (set_takenCounters l s)
         else l ← train taken gi (notTakenCounters s); Ok (set_notTakenCounters l s));
    s ← (if eqb (finalPred history) taken then
           if eqb (finalPred history) (takenUsed history) then
             l ← train taken ci (choiceCounters s); Ok (set_choiceCounters l s)
           else Ok s
         else l ← train taken ci (choiceCounters s); Ok (set_choiceCounters l s));
    Ok (None, s).

Definition predictor : BPred.CondPredictor BiModeBP BPHistory := {|
  BPred.lookup tid pc s := lookup tid pc s;
  BPred.updateHistories tid pc uncond taken target h s := updateHistories tid uncond taken h s;
  BPred.squash tid h s := squash tid h s;
  BPred.update tid pc taken h squashed target s := update tid pc taken h squashed s
|}.

End Predictor.
End BiModeBP.
