(* ===== verification/TournamentBP.v ===== *)
(** * cpu/pred/tournament: a local and a global predictor and a choice between them

    The constants that the constructor computes are a record; the counters' tables, the
    local histories and the global registers are the state.  An instance of the interface
    [BPred.CondPredictor]. *)

From Stdlib Require Import ZArith Lia.
From stdpp Require Import base numbers option list.
From S2P Require Import Prelude Bitfield IntMath SatCounter BPred CondPred.

Module TournamentBP.
Import Bitfield IntMath SatCounter CondPred.

Record TournamentParams := mkParams {
  instShiftAmt : Z;
  localPredictorSize : Z;
  localPredictorMask : Z;
  localHistoryTableSize : Z;
  globalHistoryBits : Z;
  globalHistoryMask : Z;
  choiceHistoryMask : Z;
  historyRegisterMask : Z;
  localThreshold : Z;
  globalThreshold : Z;
  choiceThreshold : Z
}.

Record BPHistory := mkBPHistory {
  h_globalHistory : Z;
  localHistoryIdx : Z;
  localHistory : Z;
  localPredTaken : bool;
  globalPredTaken : bool;
  globalUsed : bool
}.

Record TournamentBP := mkTournament {
  localCtrs : list SatCounter;
  localHistoryTable : list Z;
  globalCtrs : list SatCounter;
  globalHistory : list Z;
  choiceCtrs : list SatCounter
}.

(** [invalidPredictorIndex], an [int], as the unsigned variables hold it. *)
Definition invalidPredictorIndex : Z := u32 (-1).

Definition TournamentBP_new (numThreads : nat)
    (shift local_size local_bits history_size global_size global_bits choice_size choice_bits : Z)
    : result (TournamentParams * TournamentBP) :=
  local ← counters local_size local_bits;
  l ← ceilLog2 4 local_size;
  global ← counters global_size global_bits;
  g ← ceilLog2 4 global_size;
  c ← ceilLog2 4 choice_size;
  let bits := if c <? g then g else c in
  choice ← counters choice_size choice_bits;
  _ ← fatal_if (negb (isPowerOf2 local_size));
  _ ← fatal_if (negb (isPowerOf2 global_size));
  let local_mask := u32 (mask l) in
  _ ← fatal_if (negb (isPowerOf2 history_size));
  let global_mask := u32 (global_size - 1) in
  _ ← fatal_if (negb (isPowerOf2 choice_size));
  let choice_mask := u32 (choice_size - 1) in
  let register_mask := u32 (mask bits) in
  _ ← fatal_if (register_mask <? global_mask);
  _ ← fatal_if (register_mask <? choice_mask);
  lt ← threshold local_bits;
  gt ← threshold global_bits;
  ct ← threshold choice_bits;
  Ok (mkParams shift local_size local_mask history_size bits global_mask choice_mask register_mask lt gt ct,
      mkTournament local (replicate (Z.to_nat history_size) 0) global (replicate numThreads 0) choice).

Definition set_localCtrs (l : list SatCounter) (s : TournamentBP) : TournamentBP :=
  mkTournament l (localHistoryTable s) (globalCtrs s) (globalHistory s) (choiceCtrs s).
Definition set_localHistoryTable (l : list Z) (s : TournamentBP) : TournamentBP :=
  mkTournament (localCtrs s) l (globalCtrs s) (globalHistory s) (choiceCtrs s).
Definition set_globalCtrs (l : list SatCounter) (s : TournamentBP) : TournamentBP :=
  mkTournament (localCtrs s) (localHistoryTable s) l (globalHistory s) (choiceCtrs s).
Definition set_globalHistory (l : list Z) (s : TournamentBP) : TournamentBP :=
  mkTournament (localCtrs s) (localHistoryTable s) (globalCtrs s) l (choiceCtrs s).
Definition set_choiceCtrs (l : list SatCounter) (s : TournamentBP) : TournamentBP :=
  mkTournament (localCtrs s) (localHistoryTable s) (globalCtrs s) (globalHistory s) l.

Section Predictor.
Context (pr : TournamentParams).

Definition calcLocHistIdx (branch_addr : Z) : Z :=
  (branch_addr .>> instShiftAmt pr) .& u32 (localHistoryTableSize pr - 1).

(** A register with one more outcome. *)
Definition shifted (g : Z) (taken : bool) : Z := u32 (g .<< 1) .| Z.b2z taken.

Definition updateGlobalHist (tid : nat) (taken : bool) (s : TournamentBP) : result TournamentBP :=
  g ← deref (globalHistory s !! tid);
  Ok (set_globalHistory (<[tid := shifted g taken .& historyRegisterMask pr]> (globalHistory s)) s).

Definition updateLocalHist (local_history_idx : Z) (taken : bool) (s : TournamentBP) : result TournamentBP :=
  v ← load_at (localHistoryTable s) local_history_idx;
  l ← store_at (localHistoryTable s) local_history_idx (shifted v taken);
  Ok (set_localHistoryTable l s).

Definition lookup (tid : nat) (pc : Z) (s : TournamentBP) : result (bool * option BPHistory * TournamentBP) :=
  let local_history_idx := calcLocHistIdx pc in
  v ← load_at (localHistoryTable s) local_history_idx;
  let local_predictor_idx := v .& localPredictorMask pr in
  lc ← load_at (localCtrs s) local_predictor_idx;
  let local_prediction := localThreshold pr <? counter lc in
  g ← deref (globalHistory s !! tid);
  gc ← load_at (globalCtrs s) (g .& globalHistoryMask pr);
  let global_prediction := globalThreshold pr <? counter gc in
  cc ← load_at (choiceCtrs s) (g .& choiceHistoryMask pr);
  let choice_prediction := choiceThreshold pr <? counter cc in
  _ ← assert_ok (local_history_idx <? localHistoryTableSize pr);
  Ok (if choice_prediction then global_prediction else local_prediction,
      Some (mkBPHistory g local_history_idx local_predictor_idx local_prediction global_prediction
              choice_prediction), s).

Definition updateHistories (tid : nat) (uncond taken : bool) (h : option BPHistory) (s : TournamentBP)
    : result (option BPHistory * TournamentBP) :=
  _ ← assert_ok (uncond || match h with Some _ => true | None => false end);
  h ← (if uncond then
         g ← deref (globalHistory s !! tid);
         Ok (Some (mkBPHistory g invalidPredictorIndex invalidPredictorIndex true true true))
       else Ok h);
  s ← updateGlobalHist tid taken s;
  s ← (if negb uncond then history ← deref h; updateLocalHist (localHistoryIdx history) taken s else Ok s);
  Ok (h, s).

Definition update (tid : nat) (pc : Z) (taken : bool) (h : option BPHistory) (squashed : bool)
    (s : TournamentBP) : result (option BPHistory * TournamentBP) :=
  _ ← assert_ok (match h with Some _ => true | None => false end);
  history ← deref h;
  let local_history_idx := calcLocHistIdx pc in
  _ ← assert_ok (local_history_idx <? localHistoryTableSize pr);
  let old_local_pred_valid := negb (localHistory history =? invalidPredictorIndex) in
  if squashed then
    _ ← deref (globalHistory s !! tid);
    let s := set_globalHistory
               (<[tid := shifted (h_globalHistory history) taken .& historyRegisterMask pr]> (globalHistory s)) s in
    if old_local_pred_valid then
      l ← store_at (localHistoryTable s) local_history_idx (shifted (localHistory history) taken);
      Ok (h, set_localHistoryTable l s)
    else Ok (h, s)
  else
    let old_local_pred_index := localHistory history .& localPredictorMask pr in
    _ ← assert_ok (old_local_pred_index <? localPredictorSize pr);
    s ← (if negb (eqb (localPredTaken history) (globalPredTaken history)) && old_local_pred_valid then
           let choice_predictor_idx := h_globalHistory history .& choiceHistoryMask pr in
           if eqb (localPredTaken history) taken then
             l ← train false choice_predictor_idx (choiceCtrs s); Ok (set_choiceCtrs l s)
           else if eqb (globalPredTaken history) taken then
             l ← train true choice_predictor_idx (choiceCtrs s); Ok (set_choiceCtrs l s)
           else Ok s
         else Ok s);
    l ← train taken (h_globalHistory history .& globalHistoryMask pr) (globalCtrs s);
    let s := set_globalCtrs l s in
    s ← (if old_local_pred_valid then
           l ← train taken old_local_pred_index (localCtrs s); Ok (set_localCtrs l s)
         else Ok s);
    Ok (None, s).

Definition squash (tid : nat) (h : option BPHistory) (s : TournamentBP) : result TournamentBP :=
  history ← deref h;
  _ ← deref (globalHistory s !! tid);
  let s := set_globalHistory (<[tid := h_globalHistory history]> (globalHistory s)) s in
  if negb (localHistoryIdx history =? invalidPredictorIndex) then
    l ← store_at (localHistoryTable s) (localHistoryIdx history) (localHistory history);
    Ok (set_localHistoryTable l s)
  else Ok s.

Definition predictor : BPred.CondPredictor TournamentBP BPHistory := {|
  BPred.lookup tid pc s := lookup tid pc s;
  BPred.updateHistories tid pc uncond taken target h s := updateHistories tid uncond taken h s;
  BPred.squash tid h s := squash tid h s;
  BPred.update tid pc taken h squashed target s := update tid pc taken h squashed s
|}.

End Predictor.
End TournamentBP.
