(* ===== verification/CondPredProps.v ===== *)
(** * cpu/pred: the conditional predictors keep the laws of the unit

    Each predictor is an instance of [BPredProps.PredictorLaws]: its history registers hold
    the last outcomes of the current path, and its histories, tables and indices stay in
    bounds, so that no access is undefined and no assertion fails. *)

From Stdlib Require Import ZArith Lia.
From stdpp Require Import base numbers option list sets.
From S2P Require Import Prelude Bitfield IntMath SatCounter RAS BPred BPredProps CondPred LocalBP BiModeBP TournamentBP.

Module CondPredProps.
Import Bitfield IntMath SatCounter BPredProps CondPred.

(** ** History registers *)

(** The number whose bits are the outcomes, the youngest lowest. *)
Fixpoint history_value (l : list Outcome) : Z :=
  match l with [] => 0 | o :: l => 2 * history_value l + Z.b2z (o_taken o) end.

(** A register of [n] bits that shows the outcomes. *)
Definition register (n g : Z) (l : list Outcome) : Prop := wrap n g = wrap n (history_value l).

Lemma wrap_wrap n w z : 0 <= n <= w → wrap n (wrap w z) = wrap n z.
Proof. intros Hn. bitwise. Qed.

Lemma low_bit a b : a mod 2 = 0 → a .| Z.b2z b = a + Z.b2z b.
Proof.
  intros Ha. destruct b; simpl; [|by rewrite Z.lor_0_r, Z.add_0_r].
  rewrite <-(Z.add_lor_land a 1). change 1 with (Z.ones 1) at 3. rewrite Z.land_ones by done.
  change (2 ^ 1) with 2. lia.
Qed.

Lemma wrap_add_l n a b : 0 <= n → wrap n (wrap n a + b) = wrap n (a + b).
Proof. intros Hn. unfold wrap. by rewrite Zplus_mod_idemp_l. Qed.

Lemma shifted_value n g b : 0 <= n <= 32 → wrap n (u32 (g .<< 1) .| Z.b2z b) = wrap n (2 * g + Z.b2z b).
Proof.
  intros Hn. rewrite Z.shiftl_mul_pow2 by done. change (2 ^ 1) with 2. rewrite (Z.mul_comm g 2).
  rewrite low_bit.
  - rewrite <-(wrap_add_l n (u32 _)), wrap_wrap, wrap_add_l by lia. done.
  - unfold wrap. change (2 ^ 32) with (2 * 2147483648). rewrite Z.mul_mod_distr_l by lia.
    rewrite Z.mul_comm, Z.mod_mul by done. done.
Qed.

(** One more outcome. *)
Lemma register_push n g l o : 0 <= n <= 32 → register n g l →
  register n (u32 (g .<< 1) .| Z.b2z (o_taken o)) (o :: l).
Proof.
  unfold register. intros Hn Hg. rewrite shifted_value by done. simpl.
  rewrite <-(wrap_add_l n (2 * g)), <-(wrap_add_l n (2 * history_value l)) by lia. do 2 f_equal.
  unfold wrap in *. rewrite <-(Zmult_mod_idemp_r g), Hg, Zmult_mod_idemp_r. done.
Qed.

(** Keeping only the bits of the register. *)
Lemma register_mask n g l m : 0 <= n → m = Z.ones n → register n g l → register n (g .& m) l.
Proof. unfold register. intros Hn -> <-. bitwise. Qed.

Lemma mask_of_ones n : 0 <= n < 32 → u32 (mask n) = Z.ones n.
Proof.
  intros Hn. unfold mask. replace (64 <=? n) with false by lia. rewrite Z.ones_equiv, Z.shiftl_1_l.
  pose proof (pow2_pos n ltac:(lia)).
  assert (2 ^ n < 2 ^ 32) by (apply Z.pow_lt_mono_r; lia).
  rewrite (wrap_small 64 (2 ^ n)) by (unfold fits; lia). rewrite (wrap_small 64) by (unfold fits; lia).
  rewrite wrap_small by (unfold fits; lia). lia.
Qed.

(** Training a counter that exists. *)
Lemma train_ok up i tbl : 0 <= i < Z.of_nat (length tbl) →
  ∃ tbl', train up i tbl = Ok tbl' ∧ length tbl' = length tbl.
Proof.
  intros Hi. destruct (load_at_spec tbl i Hi) as (c & Hc & _). unfold train. rewrite Hc. simpl.
  rewrite store_at_spec by done. eexists. split; [done|]. by rewrite length_insert.
Qed.

(** Tables whose entries all have a property. *)
Lemma store_Forall {A} (P : A → Prop) l i a l' : store_at l i a = Ok l' → P a → Forall P l → Forall P l'.
Proof. unfold store_at. intros H Ha Hl. destruct (_ && _); [|done]. injection H as <-. by apply Forall_insert. Qed.
Lemma load_Forall {A} (P : A → Prop) l i a : load_at l i = Ok a → Forall P l → P a.
Proof.
  unfold load_at. intros H Hl. destruct (i <? 0); [done|]. apply deref_Ok in H. by eapply Forall_lookup_1.
Qed.
Lemma lookup_Forall {A} (P : A → Prop) (l : list A) i a : l !! i = Some a → Forall P l → P a.
Proof. intros H Hl. by eapply Forall_lookup_1. Qed.

(** The counters of a table keep their width. *)
Definition counters_typed (bits : Z) (l : list SatCounter) : Prop :=
  Forall (λ c, sat_ok 8 c ∧ maxVal c = 2 ^ bits - 1) l.

Lemma counters_typed_new size bits l : counters size bits = Ok l → 0 <= bits → counters_typed bits l.
Proof.
  unfold counters. intros H Hb. res_inv. apply SatCounter_new_ok in E as (? & ? & _); [|lia..].
  by apply Forall_replicate.
Qed.

Lemma train_typed bits up i l l' : train up i l = Ok l' → counters_typed bits l → counters_typed bits l'.
Proof.
  unfold train. intros H Hl. res_inv. pose proof (load_Forall _ _ _ _ E Hl) as [Hc Hm].
  eapply store_Forall; [done| |done].
  destruct up; (split; [eauto with gem5|]); by rewrite ?inc_maxVal, ?dec_maxVal.
Qed.

(** A table that a mask indexes. *)
Definition indexed_by (m : Z) (n : nat) : Prop := 0 <= m < Z.of_nat n.

Lemma masked x m n : indexed_by m n → 0 <= x .& m < Z.of_nat n.
Proof. intros Hm. unfold indexed_by in Hm. pose proof (index_range x m). lia. Qed.

(** What the constructors check and build. *)
Lemma fatal_if_Ok c u : fatal_if c = Ok u → c = false.
Proof. by destruct c. Qed.

Lemma counters_length size bits l : counters size bits = Ok l → length l = Z.to_nat size.
Proof. unfold counters. intros H. res_inv. apply length_replicate. Qed.

Lemma size_log2 n : 0 <= n < 2 ^ 32 → isPowerOf2 n = true →
  ∃ k, 0 <= k < 32 ∧ n = 2 ^ k ∧ ceilLog2 4 n = Ok k.
Proof.
  intros Hn Hp. apply isPowerOf2_pow2 in Hp as (k & Hk & ->); [|lia]. exists k.
  assert (k < 32) by (apply (Z.pow_lt_mono_r_iff 2); lia). split; [lia|]. split; [done|].
  rewrite ceilLog2_log2_up; [by rewrite Z.log2_up_pow2| |]; [set_solver|]. pose proof (pow2_pos k Hk). simpl. lia.
Qed.

(** Two logarithms of one number are equal. *)
Ltac same_log2 := repeat match goal with
  | H1 : ceilLog2 4 ?n = Ok ?k, H2 : ceilLog2 4 ?n = Ok ?l |- _ =>
      rewrite H1 in H2; injection H2 as H2; subst
  end.

(** ** LocalBP: no history at all *)

Module Local.
Import LocalBP.

Definition local_ok (pr : LocalParams) (s : list SatCounter) : Prop := indexed_by (indexMask pr) (length s).

#[export, program] Instance local_laws (pr : LocalParams) :
    @PredictorLaws (list SatCounter) unit (predictor pr) := {|
  shows s t l := local_ok pr s;
  looked_up h l pc := h = None;
  in_flight h l pc u := h = None
|}.
Next Obligation.
  simpl. unfold LocalBP.lookup. intros pr s t l pc Hs.
  destruct (load_at_spec s (getLocalIndex pr pc)) as (c & -> & _); [by apply masked|].
  simpl. by eexists _, _, _.
Qed.
Next Obligation. simpl. intros pr s t l pc u b tgt h Hs Hh. eexists _, _. split; [done|]. by destruct u. Qed.
Next Obligation. simpl. intros pr s t o l h Hs ->. by eexists. Qed.
Next Obligation. simpl. intros pr s t o l h b tgt Hs ->. by eexists _, _. Qed.
Next Obligation.
  simpl. unfold update. intros pr s t l l' h pc u b tgt Hs ->. simpl.
  destruct (train_ok b (getLocalIndex pr pc) s) as (s' & -> & Hl); [by apply masked|].
  simpl. eexists. split; [done|]. unfold local_ok. rewrite Hl. split; [done|]. intros t' l'' _ H. done.
Qed.

End Local.

(** ** BiModeBP *)

Module BiMode.
Import BiModeBP.

(** What the constructor establishes of the constants. *)
Definition params_ok (pr : BiModeParams) : Prop :=
  0 <= globalHistoryBits pr < 32 ∧ historyRegisterMask pr = Z.ones (globalHistoryBits pr) ∧
  0 <= choiceHistoryMask pr < choicePredictorSize pr ∧ 0 <= globalHistoryMask pr < globalPredictorSize pr.

Definition tables_ok (pr : BiModeParams) (s : BiModeBP) : Prop :=
  Z.of_nat (length (choiceCounters s)) = choicePredictorSize pr ∧
  Z.of_nat (length (takenCounters s)) = globalPredictorSize pr ∧
  Z.of_nat (length (notTakenCounters s)) = globalPredictorSize pr.

Definition bimode_shows (pr : BiModeParams) (s : BiModeBP) (t : nat) (l : list Outcome) : Prop :=
  tables_ok pr s ∧ ∃ g, globalHistoryReg s !! t = Some g ∧ register (globalHistoryBits pr) g l.

Definition bimode_flight (pr : BiModeParams) (h : option BPHistory) (l : list Outcome) : Prop :=
  ∃ b, h = Some b ∧ register (globalHistoryBits pr) (h_globalHistoryReg b) l.

(** Writing a register of one thread. *)
Lemma bimode_write pr s t g l : bimode_shows pr s t l →
  ∀ l', register (globalHistoryBits pr) g l' →
  let s' := set_globalHistoryReg (<[t := g]> (globalHistoryReg s)) s in
  bimode_shows pr s' t l' ∧ ∀ t' l'', t' ≠ t → bimode_shows pr s t' l'' → bimode_shows pr s' t' l''.
Proof.
  intros (Htab & g0 & Hg0 & _) l' Hr s'. split.
  - split; [done|]. exists g. split; [|done]. simpl. apply list_lookup_insert_eq. by eapply lookup_lt_Some.
  - intros t' l'' Hne (_ & g' & Hg' & Hr'). split; [done|]. exists g'. split; [|done].
    simpl. by rewrite list_lookup_insert_ne.
Qed.

Lemma bimode_update_history pr s t l o : params_ok pr → bimode_shows pr s t l →
  ∃ s', updateGlobalHistReg pr t (o_taken o) s = Ok s' ∧ bimode_shows pr s' t (o :: l) ∧
    ∀ t' l', t' ≠ t → bimode_shows pr s t' l' → bimode_shows pr s' t' l'.
Proof.
  intros (Hb & Hm & _) Hs. pose proof Hs as (Htab & g & Hg & Hr). unfold updateGlobalHistReg. rewrite Hg. simpl.
  eexists. split; [done|]. eapply bimode_write; [done|].
  apply register_mask; [lia|done|]. pose proof (register_push (globalHistoryBits pr) g l o ltac:(lia) Hr) as Hp.
  destruct (o_taken o); [done|]. by rewrite Z.lor_0_r in Hp.
Qed.

Section Laws.
Context (pr : BiModeParams) (Hpr : params_ok pr).

#[export, program] Instance bimode_laws : @PredictorLaws BiModeBP BPHistory (predictor pr) := {|
  shows s t l := bimode_shows pr s t l;
  looked_up h l pc := bimode_flight pr h l;
  in_flight h l pc u := bimode_flight pr h l
|}.
Next Obligation.
  simpl. unfold BiModeBP.lookup. intros s t l pc Hs. pose proof Hs as ((Hc & Ht & Hn) & g & -> & Hr).
  pose proof Hpr as (Hb & Hm & Hci & Hgi). simpl.
  pose proof (index_range (pc .>> instShiftAmt pr) (choiceHistoryMask pr)) as Hi1.
  pose proof (index_range ((pc .>> instShiftAmt pr) .^ g) (globalHistoryMask pr)) as Hi2.
  unfold choiceHistoryIdx, globalHistoryIdx.
  replace (_ <? choicePredictorSize pr) with true by lia. replace (_ <? globalPredictorSize pr) with true by lia.
  simpl.
  destruct (load_at_spec (choiceCounters s) ((pc .>> instShiftAmt pr) .& choiceHistoryMask pr)) as (c & -> & _); [lia|].
  destruct (load_at_spec (takenCounters s) (((pc .>> instShiftAmt pr) .^ g) .& globalHistoryMask pr)) as (c1 & -> & _); [lia|].
  destruct (load_at_spec (notTakenCounters s) (((pc .>> instShiftAmt pr) .^ g) .& globalHistoryMask pr)) as (c2 & -> & _); [lia|].
  simpl. eexists _, _, _. split; [done|]. split; [done|]. split; [done|]. by eexists.
Qed.
Next Obligation.
  simpl. unfold BiModeBP.updateHistories, uncondBranch. intros s t l pc u b tgt h Hs Hh.
  destruct (bimode_update_history pr s t l (mkOutcome pc u b) Hpr Hs) as (s' & Hu & Hs' & Hk). simpl in Hu.
  pose proof Hs as (Htab & g & Hg & Hr).
  destruct u; simpl.
  - rewrite Hg. simpl. rewrite Hu. simpl. eexists _, _. split; [done|]. split; [done|]. split; [done|]. by eexists.
  - destruct Hh as (bh & -> & Hr'). simpl. rewrite Hu. simpl. eexists _, _. split; [done|]. split; [done|].
    split; [done|]. by eexists.
Qed.
Next Obligation.
  simpl. unfold BiModeBP.squash. intros s t o l h Hs (b & -> & Hr). simpl.
  pose proof Hs as (_ & g & Hg & _). rewrite Hg. simpl. eexists. split; [done|]. by eapply bimode_write.
Qed.
Next Obligation.
  simpl. unfold BiModeBP.update. intros s t o l h b tgt Hs (bh & -> & Hr). simpl.
  pose proof Hs as (_ & g & Hg & _). rewrite Hg. simpl. eexists _, _. split; [done|].
  pose proof Hpr as (Hb & _).
  destruct (bimode_write pr s t (u32 (h_globalHistoryReg bh .<< 1) .| Z.b2z b) _ Hs
    (mkOutcome (o_pc o) (o_uncond o) b :: l)) as [H1 H2].
  { apply (register_push _ _ _ (mkOutcome (o_pc o) (o_uncond o) b)); [lia|done]. }
  split; [done|]. split; [done|]. by eexists.
Qed.
Next Obligation.
  simpl. unfold BiModeBP.update. intros s t l l' h pc u b tgt Hs (bh & -> & Hr). simpl.
  pose proof Hs as ((Hc & Ht & Hn) & g & Hg & Hrg). pose proof Hpr as (Hb & Hm & Hci & Hgi).
  set (ci := choiceHistoryIdx pr pc). set (gi := globalHistoryIdx pr pc (h_globalHistoryReg bh)).
  assert (0 <= ci < choicePredictorSize pr) as Hi1.
  { pose proof (index_range (pc .>> instShiftAmt pr) (choiceHistoryMask pr)). subst ci. unfold choiceHistoryIdx. lia. }
  assert (0 <= gi < globalPredictorSize pr) as Hi2.
  { pose proof (index_range ((pc .>> instShiftAmt pr) .^ h_globalHistoryReg bh) (globalHistoryMask pr)).
    subst gi. unfold globalHistoryIdx. lia. }
  replace (ci <? choicePredictorSize pr) with true by lia. replace (gi <? globalPredictorSize pr) with true by lia.
  simpl.
  assert (∃ s1, (if takenUsed bh then l ← train b gi (takenCounters s); Ok (set_takenCounters l s)
    else l ← train b gi (notTakenCounters s); Ok (set_notTakenCounters l s)) = Ok s1 ∧
    tables_ok pr s1 ∧ globalHistoryReg s1 = globalHistoryReg s) as (s1 & -> & Ht1 & Hg1).
  { destruct (takenUsed bh).
    - destruct (train_ok b gi (takenCounters s)) as (tb & -> & Hl); [lia|]. simpl. eexists. split; [done|].
      split; [|done]. unfold tables_ok. simpl. by rewrite Hl.
    - destruct (train_ok b gi (notTakenCounters s)) as (tb & -> & Hl); [lia|]. simpl. eexists. split; [done|].
      split; [|done]. unfold tables_ok. simpl. by rewrite Hl. }
  simpl. destruct Ht1 as (Hc1 & Hrest).
  destruct (train_ok b ci (choiceCounters s1)) as (tb & -> & Hl); [lia|]. simpl.
  assert (∀ s2, globalHistoryReg s2 = globalHistoryReg s → tables_ok pr s2 →
    bimode_shows pr s2 t l ∧ ∀ t' l'', t' ≠ t → bimode_shows pr s t' l'' → bimode_shows pr s2 t' l'') as Hfin.
  { intros s2 Hg2 Ht2. split; [split; [done|]; exists g; by rewrite Hg2|].
    intros t' l'' _ (_ & g' & Hg' & Hr'). split; [done|]. exists g'. by rewrite Hg2. }
  destruct (eqb (finalPred bh) b); [destruct (eqb (finalPred bh) (takenUsed bh))|]; simpl;
    (eexists; split; [done|]; apply Hfin; [done|]); unfold tables_ok; simpl; rewrite ?Hl; done.
Qed.

End Laws.

(** The constructor establishes them for every legal size. *)
Lemma bimode_new_ok threads shift cs cb gs gb pr s :
  BiModeBP_new threads shift cs cb gs gb = Ok (pr, s) → 0 <= cs < 2 ^ 32 → 0 <= gs < 2 ^ 32 →
  params_ok pr ∧ ∀ t, (t < threads)%nat → bimode_shows pr s t [].
Proof.
  unfold BiModeBP_new. intros H Hcs Hgs. res_inv. simpl in *.
  repeat match goal with
  | H : counters _ _ = Ok _ |- _ => apply counters_length in H
  | H : fatal_if _ = Ok _ |- _ => apply fatal_if_Ok in H
  | H : negb _ = false |- _ => apply negb_false_iff in H
  end.
  destruct (size_log2 cs Hcs) as (k1 & Hk1 & -> & Hc1); [done|].
  destruct (size_log2 gs Hgs) as (k2 & Hk2 & -> & Hc2); [done|]. same_log2.
  pose proof (pow2_pos k1 ltac:(lia)). pose proof (pow2_pos k2 ltac:(lia)).
  split.
  - unfold params_ok. simpl. rewrite mask_of_ones by lia. rewrite !wrap_small by (unfold fits; lia).
    split; [lia|]. split; [done|]. lia.
  - intros t Ht. split; [unfold tables_ok; simpl; lia|]. exists 0. simpl. split; [by apply lookup_replicate|]. done.
Qed.

End BiMode.

(** ** TournamentBP *)

Module Tournament.
Import TournamentBP.

Definition params_ok (pr : TournamentParams) : Prop :=
  0 <= globalHistoryBits pr < 32 ∧ historyRegisterMask pr = Z.ones (globalHistoryBits pr) ∧
  0 <= localPredictorMask pr < localPredictorSize pr ∧ 0 < localHistoryTableSize pr < 2 ^ 32.

Definition tables_ok (pr : TournamentParams) (s : TournamentBP) : Prop :=
  Z.of_nat (length (localCtrs s)) = localPredictorSize pr ∧
  Z.of_nat (length (localHistoryTable s)) = localHistoryTableSize pr ∧
  indexed_by (globalHistoryMask pr) (length (globalCtrs s)) ∧
  indexed_by (choiceHistoryMask pr) (length (choiceCtrs s)).

Definition tournament_shows (pr : TournamentParams) (s : TournamentBP) (t : nat) (l : list Outcome) : Prop :=
  tables_ok pr s ∧ ∃ g, globalHistory s !! t = Some g ∧ register (globalHistoryBits pr) g l.

(** The local history of a branch is in the table, unless the branch has none. *)
Definition tournament_flight (pr : TournamentParams) (h : option BPHistory) (l : list Outcome) : Prop :=
  ∃ b, h = Some b ∧ register (globalHistoryBits pr) (h_globalHistory b) l ∧
    (localHistoryIdx b = invalidPredictorIndex ∨ 0 <= localHistoryIdx b < localHistoryTableSize pr).
Definition tournament_looked_up (pr : TournamentParams) (h : option BPHistory) (l : list Outcome) : Prop :=
  ∃ b, h = Some b ∧ register (globalHistoryBits pr) (h_globalHistory b) l ∧
    0 <= localHistoryIdx b < localHistoryTableSize pr.

Definition tournament_keeps (pr : TournamentParams) (t : nat) (s s' : TournamentBP) : Prop :=
  ∀ t' l, t' ≠ t → tournament_shows pr s t' l → tournament_shows pr s' t' l.

(** Tables may be trained and written in bounds. *)
Lemma tournament_tables pr s s' t l : tournament_shows pr s t l → tables_ok pr s' →
  globalHistory s' = globalHistory s → tournament_shows pr s' t l ∧ tournament_keeps pr t s s'.
Proof.
  intros (_ & g & Hg & Hr) Ht Hgh. split.
  - split; [done|]. exists g. by rewrite Hgh.
  - intros t' l' _ (_ & g' & Hg' & Hr'). split; [done|]. exists g'. by rewrite Hgh.
Qed.

Lemma tournament_write pr s t g l l' : tournament_shows pr s t l → register (globalHistoryBits pr) g l' →
  let s' := set_globalHistory (<[t := g]> (globalHistory s)) s in
  tournament_shows pr s' t l' ∧ tournament_keeps pr t s s'.
Proof.
  intros (Htab & g0 & Hg0 & _) Hr s'. split.
  - split; [done|]. exists g. split; [|done]. simpl. apply list_lookup_insert_eq. by eapply lookup_lt_Some.
  - intros t' l'' Hne (_ & g' & Hg' & Hr'). split; [done|]. exists g'. split; [|done].
    simpl. by rewrite list_lookup_insert_ne.
Qed.

Lemma tournament_store pr s t l i v : tournament_shows pr s t l → 0 <= i < localHistoryTableSize pr →
  ∃ tbl, store_at (localHistoryTable s) i v = Ok tbl ∧
    tournament_shows pr (set_localHistoryTable tbl s) t l ∧
    tournament_keeps pr t s (set_localHistoryTable tbl s).
Proof.
  intros Hs Hi. pose proof Hs as ((Hc & Hh & Hg & Hch) & _). rewrite store_at_spec by lia.
  eexists. split; [done|]. eapply tournament_tables; [done| |done].
  unfold tables_ok. simpl. by rewrite length_insert.
Qed.

Lemma keeps_trans pr t s1 s2 s3 : tournament_keeps pr t s1 s2 → tournament_keeps pr t s2 s3 →
  tournament_keeps pr t s1 s3.
Proof. intros H1 H2 t' l Hne Hl. apply H2, H1; done. Qed.

Lemma tournament_push pr s t g l l' b o : params_ok pr → tournament_shows pr s t l → o_taken o = b →
  register (globalHistoryBits pr) g l' →
  let s' := set_globalHistory (<[t := shifted g b .& historyRegisterMask pr]> (globalHistory s)) s in
  tournament_shows pr s' t (o :: l') ∧ tournament_keeps pr t s s'.
Proof.
  intros (Hb & Hm & _) Hs <- Hr. eapply tournament_write; [done|].
  apply register_mask; [lia|done|]. by apply register_push; [lia|].
Qed.

Lemma local_index pr pc : params_ok pr →
  0 <= calcLocHistIdx pr pc < localHistoryTableSize pr.
Proof.
  intros (_ & _ & _ & Hl). unfold calcLocHistIdx. rewrite wrap_small by (unfold fits; lia).
  pose proof (index_range (pc .>> instShiftAmt pr) (localHistoryTableSize pr - 1)). lia.
Qed.

Section Laws.
Context (pr : TournamentParams) (Hpr : params_ok pr).

#[export, program] Instance tournament_laws : @PredictorLaws TournamentBP BPHistory (predictor pr) := {|
  shows s t l := tournament_shows pr s t l;
  looked_up h l pc := tournament_looked_up pr h l;
  in_flight h l pc u := tournament_flight pr h l
|}.
Next Obligation.
  simpl. unfold TournamentBP.lookup. intros s t l pc Hs. pose proof Hs as ((Hc & Hh & Hg & Hch) & g & Hgl & Hr).
  pose proof (local_index pr pc Hpr) as Hi. pose proof Hpr as (Hb & Hm & Hlm & Hls).
  destruct (load_at_spec (localHistoryTable s) (calcLocHistIdx pr pc)) as (v & -> & _); [lia|]. simpl.
  pose proof (index_range v (localPredictorMask pr)).
  destruct (load_at_spec (localCtrs s) (v .& localPredictorMask pr)) as (c & -> & _); [lia|]. simpl.
  rewrite Hgl. simpl.
  destruct (load_at_spec (globalCtrs s) (g .& globalHistoryMask pr)) as (c1 & -> & _); [by apply masked|]. simpl.
  destruct (load_at_spec (choiceCtrs s) (g .& choiceHistoryMask pr)) as (c2 & -> & _); [by apply masked|]. simpl.
  replace (_ <? localHistoryTableSize pr) with true by lia. simpl.
  eexists _, _, _. split; [done|]. split; [done|]. split; [done|]. by eexists.
Qed.
Next Obligation.
  simpl. unfold TournamentBP.updateHistories, updateGlobalHist, updateLocalHist.
  intros s t l pc u b tgt h Hs Hh. pose proof Hs as (_ & g & Hgl & Hr).
  destruct (tournament_push pr s t g l l b (mkOutcome pc u b) Hpr Hs eq_refl Hr) as [Hs1 Hk1].
  destruct u; simpl.
  - rewrite Hgl. simpl. eexists _, _. split; [done|]. split; [done|]. split; [done|].
    eexists. split; [done|]. split; [done|]. by left.
  - destruct Hh as (bh & -> & Hr' & Hi). simpl. rewrite Hgl. simpl.
    pose proof Hs as ((_ & Hlen & _) & _).
    destruct (load_at_spec (localHistoryTable s) (localHistoryIdx bh)) as (v & -> & _); [lia|]. simpl.
    destruct (tournament_store pr _ t _ (localHistoryIdx bh) (shifted v b) Hs1 Hi) as (tbl & Htbl & Hs2 & Hk2).
    simpl in Htbl. rewrite Htbl. simpl. eexists _, _. split; [done|]. split; [done|].
    split; [by eapply keeps_trans|]. eexists. split; [done|]. split; [done|]. by right.
Qed.
Next Obligation.
  simpl. unfold TournamentBP.squash. intros s t o l h Hs (b & -> & Hr & Hi). simpl.
  pose proof Hs as (_ & g & Hg & _). rewrite Hg. simpl.
  destruct (tournament_write pr s t (h_globalHistory b) _ l Hs Hr) as [Hs1 Hk1].
  destruct (Z.eqb_spec (localHistoryIdx b) invalidPredictorIndex); simpl; [by eexists|].
  destruct Hi as [|Hi]; [done|].
  destruct (tournament_store pr _ t _ (localHistoryIdx b) (localHistory b) Hs1 Hi) as (tbl & Htbl & Hs2 & Hk2).
  simpl in Htbl. rewrite Htbl. simpl. eexists. split; [done|]. split; [done|]. by eapply keeps_trans.
Qed.
Next Obligation.
  simpl. unfold TournamentBP.update. intros s t o l h b tgt Hs (bh & -> & Hr & Hi). simpl.
  pose proof (local_index pr (o_pc o) Hpr) as Hli. replace (_ <? localHistoryTableSize pr) with true by lia. simpl.
  pose proof Hs as (_ & g & Hg & _). rewrite Hg. simpl.
  destruct (tournament_push pr s t (h_globalHistory bh) _ l b (mkOutcome (o_pc o) (o_uncond o) b) Hpr Hs eq_refl Hr)
    as [Hs1 Hk1].
  destruct (negb _).
  - destruct (tournament_store pr _ t _ (calcLocHistIdx pr (o_pc o)) (shifted (localHistory bh) b) Hs1 Hli)
      as (tbl & Htbl & Hs2 & Hk2). simpl in Htbl. rewrite Htbl. simpl.
    eexists _, _. split; [done|]. split; [done|]. split; [by eapply keeps_trans|]. by exists bh.
  - eexists _, _. split; [done|]. split; [done|]. split; [done|]. by exists bh.
Qed.
Next Obligation.
  simpl. unfold TournamentBP.update. intros s t l l' h pc u b tgt Hs (bh & -> & Hr & Hi). simpl.
  pose proof (local_index pr pc Hpr) as Hli. replace (_ <? localHistoryTableSize pr) with true by lia. simpl.
  pose proof Hpr as (Hb & Hm & Hlm & Hls). pose proof (index_range (localHistory bh) (localPredictorMask pr)) as Hoi.
  replace (_ <? localPredictorSize pr) with true by lia. simpl.
  pose proof Hs as ((Hc & Hh & Hg & Hch) & _).
  set (valid := negb (localHistory bh =? invalidPredictorIndex)).
  assert (∃ s1, (if negb (eqb (localPredTaken bh) (globalPredTaken bh)) && valid then
      if eqb (localPredTaken bh) b then
        l ← train false (h_globalHistory bh .& choiceHistoryMask pr) (choiceCtrs s); Ok (set_choiceCtrs l s)
      else if eqb (globalPredTaken bh) b then
        l ← train true (h_globalHistory bh .& choiceHistoryMask pr) (choiceCtrs s); Ok (set_choiceCtrs l s)
      else Ok s else Ok s) = Ok s1 ∧ tables_ok pr s1 ∧ globalHistory s1 = globalHistory s)
    as (s1 & -> & (Hc1 & Hh1 & Hg1 & Hch1) & Hgh1).
  { assert (∀ up, ∃ s1, (l ← train up (h_globalHistory bh .& choiceHistoryMask pr) (choiceCtrs s);
        Ok (set_choiceCtrs l s)) = Ok s1 ∧ tables_ok pr s1 ∧ globalHistory s1 = globalHistory s) as Htr.
    { intros up. destruct (train_ok up (h_globalHistory bh .& choiceHistoryMask pr) (choiceCtrs s))
        as (tb & -> & Hl); [by apply masked|]. simpl. eexists. split; [done|]. split; [|done].
      unfold tables_ok. simpl. by rewrite Hl. }
    destruct (_ && valid); [|by eexists]. destruct (eqb (localPredTaken bh) b); [apply Htr|].
    destruct (eqb (globalPredTaken bh) b); [apply Htr|by eexists]. }
  simpl. destruct (train_ok b (h_globalHistory bh .& globalHistoryMask pr) (globalCtrs s1)) as (tg & -> & Hlg);
    [by apply masked|]. simpl.
  destruct valid.
  - destruct (train_ok b (localHistory bh .& localPredictorMask pr) (localCtrs s1)) as (tl & -> & Hll); [lia|].
    simpl. eexists. split; [done|]. eapply tournament_tables; [done| |done]. unfold tables_ok. simpl.
    by rewrite Hlg, Hll.
  - simpl. eexists. split; [done|]. eapply tournament_tables; [done| |done]. unfold tables_ok. simpl. by rewrite Hlg.
Qed.

End Laws.

(** The constructor establishes them for every legal size. *)
Lemma tournament_new_ok threads shift ls lb hs gs gb cs cb pr s :
  TournamentBP_new threads shift ls lb hs gs gb cs cb = Ok (pr, s) →
  0 <= ls < 2 ^ 32 → 0 <= hs < 2 ^ 32 → 0 <= gs < 2 ^ 32 → 0 <= cs < 2 ^ 32 →
  params_ok pr ∧ ∀ t, (t < threads)%nat → tournament_shows pr s t [].
Proof.
  unfold TournamentBP_new. intros H Hls Hhs Hgs Hcs. res_inv. simpl in *.
  repeat match goal with
  | H : counters _ _ = Ok _ |- _ => apply counters_length in H
  | H : fatal_if _ = Ok _ |- _ => apply fatal_if_Ok in H
  | H : negb _ = false |- _ => apply negb_false_iff in H
  end.
  destruct (size_log2 ls Hls) as (k1 & Hk1 & -> & Hc1); [done|].
  destruct (size_log2 hs Hhs) as (k2 & Hk2 & -> & _); [done|].
  destruct (size_log2 gs Hgs) as (k3 & Hk3 & -> & Hc3); [done|].
  destruct (size_log2 cs Hcs) as (k4 & Hk4 & -> & Hc4); [done|]. same_log2.
  pose proof (pow2_pos k1 ltac:(lia)). pose proof (pow2_pos k2 ltac:(lia)).
  pose proof (pow2_pos k3 ltac:(lia)). pose proof (pow2_pos k4 ltac:(lia)).
  split.
  - unfold params_ok. simpl.
    assert (0 <= (if k4 <? k3 then k3 else k4) < 32) by (destruct (k4 <? k3); lia).
    rewrite !mask_of_ones by lia. rewrite (Z.ones_equiv k1). split; [done|]. split; [done|]. lia.
  - intros t Ht. split; [|exists 0; simpl; split; [by apply lookup_replicate|done]].
    unfold tables_ok, indexed_by. simpl. rewrite length_replicate, !wrap_small by (unfold fits; lia). lia.
Qed.

(** *** Types

    What every table and register holds: counters of the width they were made with, local
    histories of 32 bits, global registers under their mask. *)

Definition under (m z : Z) : Prop := 0 <= z <= m.
Definition tournament_typed (pr : TournamentParams) (lb gb cb : Z) (s : TournamentBP) : Prop :=
  counters_typed lb (localCtrs s) ∧ counters_typed gb (globalCtrs s) ∧ counters_typed cb (choiceCtrs s) ∧
  Forall (fits 32) (localHistoryTable s) ∧ Forall (under (historyRegisterMask pr)) (globalHistory s).
Definition history_typed (pr : TournamentParams) (h : option BPHistory) : Prop :=
  from_option (λ b, under (historyRegisterMask pr) (h_globalHistory b) ∧ fits 32 (localHistory b)) True h.

(** The states that any calls lead to, in any order, with any of the histories made so far. *)
Inductive calls_lead (pr : TournamentParams) (s0 : TournamentBP) : TournamentBP → list (option BPHistory) → Prop :=
| calls_none : calls_lead pr s0 s0 [None]
| calls_lookup s hs t pc b h s' : calls_lead pr s0 s hs → lookup pr t pc s = Ok (b, h, s') →
    calls_lead pr s0 s' (h :: hs)
| calls_updateHistories s hs t u b h h' s' : calls_lead pr s0 s hs → h ∈ hs →
    updateHistories pr t u b h s = Ok (h', s') → calls_lead pr s0 s' (h' :: hs)
| calls_update s hs t pc b h q h' s' : calls_lead pr s0 s hs → h ∈ hs →
    update pr t pc b h q s = Ok (h', s') → calls_lead pr s0 s' (h' :: hs)
| calls_squash s hs t h s' : calls_lead pr s0 s hs → h ∈ hs → squash t h s = Ok s' → calls_lead pr s0 s' hs.

Lemma under_land m g : 0 <= m → under m (g .& m).
Proof. intros Hm. unfold under. pose proof (index_range g m). lia. Qed.

Lemma fits_shifted g b : fits 32 (shifted g b).
Proof. apply fits_lor; [lia|by apply wrap_fits|]. unfold fits. destruct b; simpl; lia. Qed.

Ltac typed_inv := repeat (progress (res_inv; simpl in * )).
Ltac typed_cases :=
  repeat match goal with H : (if ?b then _ else _) = Ok _ |- _ => destruct b; typed_inv end.
Ltac typed_tac :=
  repeat match goal with
  | H : store_at _ _ _ = Ok ?l |- Forall (fits 32) ?l => eapply store_Forall; [exact H| |]
  | H : train _ _ _ = Ok ?l |- counters_typed _ ?l => eapply train_typed; [exact H|]
  | |- Forall _ (<[_ := _]> _) => apply Forall_insert
  | |- fits 32 (shifted _ _) => apply fits_shifted
  | |- under _ (_ .& _) => by apply under_land
  | |- _ => done
  end.

Section Typed.
Context (pr : TournamentParams) (lb gb cb : Z).
Context (Hm : 0 <= historyRegisterMask pr) (Hlm : 0 <= localPredictorMask pr).
#[local] Abbreviation typed := (tournament_typed pr lb gb cb).
#[local] Abbreviation htyped := (history_typed pr).

Lemma lookup_typed t pc s b h s' : lookup pr t pc s = Ok (b, h, s') → typed s → htyped h ∧ typed s'.
Proof.
  unfold lookup. intros H Hs. res_inv. split; [|done]. simpl. destruct Hs as (_ & _ & _ & Hl & Hg).
  split; [by eapply lookup_Forall|]. apply fits_land; [lia|by eapply load_Forall|done].
Qed.

Lemma updateHistories_typed t u b h s h' s' : updateHistories pr t u b h s = Ok (h', s') →
  htyped h → typed s → htyped h' ∧ typed s'.
Proof.
  unfold updateHistories, updateGlobalHist, updateLocalHist. intros H Hh Hs.
  destruct Hs as (H1 & H2 & H3 & Hl & Hg). destruct u; typed_inv.
  - split; [split; [by eapply lookup_Forall|by apply wrap_fits]|].
    unfold tournament_typed. simpl. split_and!; typed_tac.
  - split; [done|]. unfold tournament_typed. simpl in *. split_and!; typed_tac.
Qed.

Lemma update_typed t pc b h q s h' s' : update pr t pc b h q s = Ok (h', s') →
  htyped h → typed s → htyped h' ∧ typed s'.
Proof.
  unfold update. intros H Hh (H1 & H2 & H3 & Hl & Hg). res_inv. subst h.
  destruct q; typed_inv; typed_cases; (split; [done|]); unfold tournament_typed; simpl; split_and!; typed_tac.
Qed.

Lemma squash_typed t h s s' : squash t h s = Ok s' → htyped h → typed s → typed s'.
Proof.
  unfold squash. intros H Hh (H1 & H2 & H3 & Hl & Hg). res_inv. subst h. destruct Hh as [Hh1 Hh2].
  destruct (negb _); typed_inv; unfold tournament_typed; simpl; split_and!; typed_tac.
Qed.

Lemma calls_typed s0 s hs : calls_lead pr s0 s hs → typed s0 → typed s ∧ Forall htyped hs.
Proof.
  intros H H0. induction H as [| s hs t pc b h s' _ [IH IHh] E | s hs t u b h h' s' _ [IH IHh] Hin E
    | s hs t pc b h q h' s' _ [IH IHh] Hin E | s hs t h s' _ [IH IHh] Hin E].
  - split; [done|]. by repeat constructor.
  - apply lookup_typed in E as [??]; [|done]. split; [done|]. by constructor.
  - apply updateHistories_typed in E as [??]; [|by eapply Forall_forall|done]. split; [done|]. by constructor.
  - apply update_typed in E as [??]; [|by eapply Forall_forall|done]. split; [done|]. by constructor.
  - apply squash_typed in E; [|by eapply Forall_forall|done]. done.
Qed.

End Typed.

(** C38: the types of the tournament predictor are preserved: whatever calls are made in
    whatever order, with any histories that earlier calls made, every counter stays between
    0 and the maximum of the width its table was made with, every local history is a 32-bit
    number, and every global register, also one restored from a history, fits its mask. *)
Theorem tournament_well_typed threads shift ls lb hs gs gb cs cb pr s0 s histories :
  TournamentBP_new threads shift ls lb hs gs gb cs cb = Ok (pr, s0) →
  0 <= lb → 0 <= gb → 0 <= cb → calls_lead pr s0 s histories →
  tournament_typed pr lb gb cb s ∧ Forall (history_typed pr) histories.
Proof.
  intros Hnew Hlb Hgb Hcb Hs. unfold TournamentBP_new in Hnew. res_inv.
  assert (∀ z, 0 <= u32 z) as Hu by (intros z; apply wrap_fits; lia).
  eapply calls_typed; [apply Hu|apply Hu|exact Hs|]. unfold tournament_typed. simpl.
  split_and!; try (eapply counters_typed_new; done); apply Forall_replicate; [done|].
  split; [lia|apply Hu].
Qed.

Lemma tournament_well_typed_witness :
  ∃ pr s0 b h s1 h2 s2, TournamentBP_new 1 2 8 2 4 8 2 8 2 = Ok (pr, s0) ∧
    lookup pr 0 20 s0 = Ok (b, h, s1) ∧ updateHistories pr 0 false true h s1 = Ok (h2, s2) ∧
    tournament_typed pr 2 2 2 s2 ∧ Forall (history_typed pr) [h2; h; None].
Proof.
  eexists _, _, _, _, _, _, _. split; [vm_compute; reflexivity|]. split; [vm_compute; reflexivity|].
  split; [vm_compute; reflexivity|]. eapply (tournament_well_typed 1 2 8 2 4 8 2 8 2); [reflexivity|lia..|].
  eapply (calls_updateHistories _ _ _ _ 0 false true).
  - eapply (calls_lookup _ _ _ _ 0 20); [apply calls_none|vm_compute; reflexivity].
  - by left.
  - vm_compute. reflexivity.
Defined.

End Tournament.

End CondPredProps.
