(* ===== verification/Indirect.v ===== *)
(** * cpu/pred/simple_indirect.hh, simple_indirect.cc: the indirect branch predictor

    A cache of targets, indexed by a hash of the branch, of the direction history and of the
    last targets, all kept speculatively for each thread.  It is an instance of
    [BPred.IndirectPredictor].  The draws of [rand] are a sequence in the state. *)

From Stdlib Require Import ZArith Lia.
From stdpp Require Import base numbers option list.
From S2P Require Import Prelude IntMath RAS BPred.

Module Indirect.
Import IntMath RAS BPred.

Definition MaxAddr : Z := 2 ^ 64 - 1.

Record IndirectParams := mkParams {
  hashGHR : bool;
  hashTargets : bool;
  numSets : Z;
  numWays : Z;
  tagBits : Z;
  pathLength : Z;
  speculativePathLength : Z;
  instShift : Z;
  ghrMask : Z
}.

Section Predictor.
Context {PC : Type} `{!PCState PC}.

Record IPredEntry := mkEntry { e_tag : Z; e_target : option PC }.

Record HistoryEntry := mkHistoryEntry { he_pcAddr : Z; he_targetAddr : Z; he_seqNum : Z }.

(** The constructor leaves the index and the tag indeterminate; [targetAddr], [seqNum],
    [hit] and [pathHist] of the code are never read. *)
Record IndirectHistory := mkIHist {
  pcAddr : Z;
  set_index : option Z;
  tag : option Z;
  ih_ghr : Z;
  was_indirect : bool
}.

(** The path history, the oldest entry first. *)
Record ThreadInfo := mkThreadInfo { pathHist : list HistoryEntry; ghr : Z }.

Record SimpleIndirectPredictor := mkIndirect {
  targetCache : list (list IPredEntry);
  threadInfo : list ThreadInfo;
  rand : nat → Z;
  drawn : nat
}.

Definition set_targetCache (c : list (list IPredEntry)) (s : SimpleIndirectPredictor) : SimpleIndirectPredictor :=
  mkIndirect c (threadInfo s) (rand s) (drawn s).
Definition set_threadInfo (tid : nat) (i : ThreadInfo) (s : SimpleIndirectPredictor) : SimpleIndirectPredictor :=
  mkIndirect (targetCache s) (<[tid := i]> (threadInfo s)) (rand s) (drawn s).

Definition SimpleIndirectPredictor_new (numThreads : nat) (hash_ghr hash_targets : bool)
    (sets ways tag_size path_length spec_length ghr_bits shift : Z) (draws : nat → Z)
    : result (IndirectParams * SimpleIndirectPredictor) :=
  if 31 <=? ghr_bits then Err Undefined
  else
    _ ← panic_if (negb (isPowerOf2 sets));
    Ok (mkParams hash_ghr hash_targets sets ways tag_size path_length spec_length shift (2 ^ ghr_bits - 1),
        mkIndirect (replicate (Z.to_nat sets) (replicate (Z.to_nat ways) (mkEntry 0 None)))
          (replicate numThreads (mkThreadInfo [] 0)) draws 0).

(** Only the tags of the cache are reset. *)
Definition reset (s : SimpleIndirectPredictor) : SimpleIndirectPredictor :=
  mkIndirect (map (map (λ e, mkEntry 0 (e_target e))) (targetCache s))
    ((λ _, mkThreadInfo [] 0) <$> threadInfo s) (rand s) (drawn s).

Context (pr : IndirectParams).

Definition genIndirectInfo (tid : nat) (s : SimpleIndirectPredictor) : result IndirectHistory :=
  ti ← deref (threadInfo s !! tid);
  Ok (mkIHist MaxAddr None None (ghr ti) false).

(** An address shifted right; by 64 bits or more the shift is undefined. *)
Definition shift_addr (a k : Z) : result Z := if k <? 64 then Ok (a .>> k) else Err Undefined.

(** The loop over the path history, from its youngest entry; the position is computed as
    an unsigned int. *)
Fixpoint hash_path (l : list HistoryEntry) (p hash_shift hash : Z) : result Z :=
  match l with
  | [] => Ok hash
  | e :: l =>
      if p <? pathLength pr then
        x ← shift_addr (he_targetAddr e) (u32 (instShift pr + u32 (p * hash_shift)));
        hash_path l (p + 1) hash_shift (hash .^ x)
      else Ok hash
  end.

Definition getSetIndex (br_addr : Z) (ti : ThreadInfo) : result Z :=
  hash ← shift_addr br_addr (instShift pr);
  let hash := if hashGHR pr then hash .^ ghr ti else hash in
  hash ← (if hashTargets pr then
            if pathLength pr =? 0 then Err Undefined
            else l ← floorLog2 4 (numSets pr);
                 hash_path (reverse (pathHist ti)) 0 (l / pathLength pr) hash
          else Ok hash);
  Ok (hash .& (numSets pr - 1)).

(** The mask is an int, which holds it for less than 31 bits. *)
Definition getTag (br_addr : Z) : result Z :=
  x ← shift_addr br_addr (instShift pr);
  if 31 <=? tagBits pr then Err Undefined else Ok (x .& (2 ^ tagBits pr - 1)).

Definition has_tag (t : Z) (e : IPredEntry) : bool := e_tag e =? t.

Definition lookup (tid : nat) (sn pc : Z) (h : option IndirectHistory) (s : SimpleIndirectPredictor)
    : result (option PC * option IndirectHistory * SimpleIndirectPredictor) :=
  _ ← assert_ok (match h with None => true | Some _ => false end);
  h ← genIndirectInfo tid s;
  ti ← deref (threadInfo s !! tid);
  idx ← getSetIndex pc ti;
  t ← getTag pc;
  _ ← assert_ok (idx <? numSets pr);
  iset ← load_at (targetCache s) idx;
  let way := list_find (λ e, has_tag t e && match e_target e with Some _ => true | None => false end) iset in
  Ok (match way with Some (_, e) => e_target e | None => None end,
      Some (mkIHist pc (Some idx) (Some t) (ih_ghr h) true), s).

Definition isIndirectNoReturn (t : BranchType) : bool :=
  bool_decide (t = CallIndirect) || bool_decide (t = IndirectUncond) || bool_decide (t = IndirectCond).

Definition updateDirectionInfo (taken : bool) (ti : ThreadInfo) : ThreadInfo :=
  mkThreadInfo (pathHist ti) ((u32 (ghr ti .<< 1) .| Z.b2z taken) .& ghrMask pr).

(** pop_back of a path history that is not empty. *)
Definition pop_back (l : list HistoryEntry) : list HistoryEntry := reverse (tail (reverse l)).

Definition recordTarget (tid : nat) (target : PC) (h : IndirectHistory) (s : SimpleIndirectPredictor)
    : result SimpleIndirectPredictor :=
  ti ← deref (threadInfo s !! tid);
  _ ← assert_ok (negb (bool_decide (pathHist ti = [])));
  _ ← assert_ok (was_indirect h);
  idx ← deref (set_index h);
  t ← deref (tag h);
  _ ← assert_ok (idx <? numSets pr);
  iset ← load_at (targetCache s) idx;
  match list_find (has_tag t) iset with
  | Some (i, _) =>
      c ← store_at (targetCache s) idx (<[i := mkEntry t (Some target)]> iset);
      Ok (set_targetCache c s)
  | None =>
      if numWays pr =? 0 then Err Undefined
      else
        iset ← store_at iset (rand s (drawn s) mod numWays pr) (mkEntry t (Some target));
        c ← store_at (targetCache s) idx iset;
        Ok (mkIndirect c (threadInfo s) (rand s) (S (drawn s)))
  end.

(** [pc] is an argument of the code too, which does not use it. *)
Definition update (tid : nat) (sn pc : Z) (squash taken : bool) (target : PC) (br_type : BranchType)
    (h : option IndirectHistory) (s : SimpleIndirectPredictor)
    : result (option IndirectHistory * SimpleIndirectPredictor) :=
  h ← match h with None => genIndirectInfo tid s | Some h => Ok h end;
  let h := mkIHist (pcAddr h) (set_index h) (tag h) (ih_ghr h) (isIndirectNoReturn br_type) in
  ti ← deref (threadInfo s !! tid);
  '(h, ti) ← (if squash then
                let ti := mkThreadInfo (pathHist ti) (ih_ghr h) in
                if was_indirect h then
                  let ti := mkThreadInfo (pop_back (pathHist ti)) (ghr ti) in
                  idx ← getSetIndex (pcAddr h) ti;
                  t ← getTag (pcAddr h);
                  Ok (mkIHist (pcAddr h) (Some idx) (Some t) (ih_ghr h) (was_indirect h), ti)
                else Ok (h, ti)
              else Ok (h, ti));
  let ti := if was_indirect h
            then mkThreadInfo (pathHist ti ++ [mkHistoryEntry (pcAddr h) (instAddr target) sn]) (ghr ti)
            else ti in
  let s := set_threadInfo tid (updateDirectionInfo taken ti) s in
  s ← (if squash && was_indirect h && taken then recordTarget tid target h s else Ok s);
  Ok (Some h, s).

Definition squash (tid : nat) (sn : Z) (h : option IndirectHistory) (s : SimpleIndirectPredictor)
    : result (option IndirectHistory * SimpleIndirectPredictor) :=
  match h with
  | None => Ok (None, s)
  | Some h =>
      ti ← deref (threadInfo s !! tid);
      let l := if was_indirect h then pop_back (pathHist ti) else pathHist ti in
      Ok (None, set_threadInfo tid (mkThreadInfo l (ih_ghr h)) s)
  end.

(** The oldest entries are dropped until the path history is short enough. *)
Fixpoint trim (limit : Z) (l : list HistoryEntry) : result (list HistoryEntry) :=
  if limit <=? Z.of_nat (length l)
  then match l with [] => Err Undefined | _ :: l => trim limit l end
  else Ok l.

Definition commit (tid : nat) (sn : Z) (h : option IndirectHistory) (s : SimpleIndirectPredictor)
    : result (option IndirectHistory * SimpleIndirectPredictor) :=
  match h with
  | None => Ok (None, s)
  | Some _ =>
      ti ← deref (threadInfo s !! tid);
      l ← trim (u32 (pathLength pr + speculativePathLength pr)) (pathHist ti);
      Ok (None, set_threadInfo tid (mkThreadInfo l (ghr ti)) s)
  end.

Definition predictor : IndirectPredictor SimpleIndirectPredictor IndirectHistory PC := {|
  ipred_lookup tid sn pc h s := lookup tid sn pc h s;
  ipred_update tid sn pc sq taken target ty h s := update tid sn pc sq taken target ty h s;
  ipred_squash tid sn h s := squash tid sn h s;
  ipred_commit tid sn h s := commit tid sn h s
|}.

End Predictor.
Arguments SimpleIndirectPredictor : clear implicits.
Arguments IPredEntry : clear implicits.

End Indirect.
