(* ===== verification/IndirectProps.v ===== *)
(** * cpu/pred/simple_indirect: the indirect predictor undoes and corrects its speculation

    The instance of [BPredProps.IndirectLaws], the round trip of a wrong path, and a whole
    branch prediction unit made of the parts that are modelled. *)

From Stdlib Require Import ZArith Lia.
From stdpp Require Import base numbers option list relations.
From S2P Require Import Prelude IntMath SatCounter RAS BPred BPredProps CondPred BiModeBP CondPredProps Indirect.

Module IndirectProps.
Import RAS BPred BPredProps CondPred Indirect.

Section Predictor.
Context {PC : Type} `{!PCState PC} (pr : IndirectParams).
Implicit Types (s : SimpleIndirectPredictor PC) (t : nat) (h : option IndirectHistory).

(** A set and a way at least, a path, and shifts of an address by less than its width. *)
Definition params_ok : Prop :=
  0 < numSets pr < 2 ^ 32 ∧ 0 < numWays pr ∧ 0 < pathLength pr ∧
  0 < u32 (pathLength pr + speculativePathLength pr) ∧
  0 <= instShift pr ∧ instShift pr + Z.log2 (numSets pr) < 64 ∧ 0 <= tagBits pr < 31.

Definition indirect_ok (n : nat) s : Prop :=
  length (threadInfo s) = n ∧ Z.of_nat (length (targetCache s)) = numSets pr ∧
  Forall (λ iset, Z.of_nat (length iset) = numWays pr) (targetCache s).

Lemma thread_lookup n s t : indirect_ok n s → (t < n)%nat → ∃ ti, threadInfo s !! t = Some ti.
Proof. intros (Hl & _) Ht. apply lookup_lt_is_Some_2. lia. Qed.

Lemma shift_addr_ok a k : k < 64 → shift_addr a k = Ok (a .>> k).
Proof. intros Hk. unfold shift_addr. by rewrite (proj2 (Z.ltb_lt _ _)). Qed.

Lemma getTag_ok a : params_ok → ∃ g, getTag pr a = Ok g.
Proof.
  intros (_ & _ & _ & _ & _ & Hi & Ht). unfold getTag. pose proof (Z.log2_nonneg (numSets pr)).
  rewrite shift_addr_ok by lia. cbn [mbind result_bind].
  rewrite (proj2 (Z.leb_gt _ _)) by lia. by eexists.
Qed.

(** The shifts of the path grow from instShift by no more than the bits of the set index. *)
Lemma hash_path_ok l p hash : params_ok → 0 <= p →
  ∃ x, hash_path pr l p (Z.log2 (numSets pr) / pathLength pr) hash = Ok x.
Proof.
  intros (Hs & _ & Hp & _ & Hi0 & Hi & _). revert p hash. induction l as [|e l IH]; intros p hash Hp0; simpl; [by eexists|].
  destruct (Z.ltb_spec p (pathLength pr)); [|by eexists].
  set (sh := Z.log2 (numSets pr) / pathLength pr). pose proof (Z.log2_nonneg (numSets pr)).
  assert (0 <= sh) by (apply Z.div_pos; lia).
  assert (pathLength pr * sh <= Z.log2 (numSets pr)) by (apply Z.mul_div_le; lia).
  assert (0 <= p * sh <= Z.log2 (numSets pr)) by nia.
  rewrite (wrap_small 32 (p * sh)), wrap_small, shift_addr_ok by (unfold fits; lia).
  apply IH. lia.
Qed.

Lemma getSetIndex_ok a ti : params_ok → ∃ i, getSetIndex pr a ti = Ok i ∧ 0 <= i < numSets pr.
Proof.
  intros Hpr. pose proof Hpr as (Hs & _ & Hp & _ & _ & Hi & _). unfold getSetIndex.
  pose proof (Z.log2_nonneg (numSets pr)). rewrite shift_addr_ok by lia. cbn [mbind result_bind].
  destruct (hashTargets pr); cbn [mbind result_bind].
  - replace (pathLength pr =? 0) with false by lia. rewrite IntMath.IntMath.floorLog2_log2 by (set_solver || simpl; lia).
    cbn [mbind result_bind]. edestruct hash_path_ok as [x ->]; [done|reflexivity|]. simpl. eexists. split; [done|].
    pose proof (index_range x (numSets pr - 1)). lia.
  - eexists. split; [done|]. match goal with |- context [?x .& _] => pose proof (index_range x (numSets pr - 1)) end. lia.
Qed.

Lemma set_ok n s i : indirect_ok n s → 0 <= i < numSets pr →
  ∃ iset, load_at (targetCache s) i = Ok iset ∧ Z.of_nat (length iset) = numWays pr.
Proof.
  intros (_ & Hc & Hw) Hi. destruct (load_at_spec (targetCache s) i) as (iset & Hl & Hlk); [lia|].
  exists iset. split; [done|]. by eapply Forall_lookup_1 in Hw.
Qed.

Lemma set_threadInfo_ok n s t ti : indirect_ok n s → indirect_ok n (set_threadInfo t ti s).
Proof. intros (Hl & ?). split; [|done]. simpl. by rewrite length_insert. Qed.

Lemma store_set_ok n s i iset : indirect_ok n s → 0 <= i < numSets pr → Z.of_nat (length iset) = numWays pr →
  ∃ c, store_at (targetCache s) i iset = Ok c ∧ ∀ d, indirect_ok n (mkIndirect c (threadInfo s) (rand s) d).
Proof.
  intros (Hl & Hc & Hw) Hi Hlen. rewrite store_at_spec by lia. eexists. split; [done|]. intros d.
  split; [done|]. simpl. rewrite length_insert. split; [done|]. by apply Forall_insert.
Qed.

Lemma recordTarget_ok n s t a (h : IndirectHistory) i g ti : params_ok → indirect_ok n s → threadInfo s !! t = Some ti →
  pathHist ti ≠ [] → was_indirect h = true → set_index h = Some i → tag h = Some g → 0 <= i < numSets pr →
  ∃ s', recordTarget pr t a h s = Ok s' ∧ indirect_ok n s' ∧ threadInfo s' = threadInfo s.
Proof.
  intros (Hs & Hw & Hp & _) Hok Hti Hne Hwi Hi Hg Hr. unfold recordTarget. rewrite Hti. simpl.
  rewrite bool_decide_eq_false_2 by done. rewrite Hwi, Hi, Hg. simpl. replace (i <? numSets pr) with true by lia. simpl.
  destruct (set_ok n s i Hok Hr) as (iset & -> & Hlen). simpl.
  destruct (list_find (has_tag g) iset) as [[k e]|].
  - destruct (store_set_ok n s i (<[k := mkEntry g (Some a)]> iset) Hok Hr) as (c & -> & Hc);
      [by rewrite length_insert|]. simpl. eexists. split; [done|]. split; [apply Hc|done].
  - replace (numWays pr =? 0) with false by lia.
    pose proof (Z.mod_pos_bound (rand s (drawn s)) (numWays pr) Hw).
    rewrite (store_at_spec iset) by lia. simpl.
    edestruct (store_set_ok n s i) as (c & -> & Hc); [done|done|by rewrite length_insert|].
    simpl. eexists. split; [done|]. split; [apply Hc|done].
Qed.

(** What [update] records of a branch in the thread it belongs to. *)
Definition recorded (taken : bool) (a : PC) (ty : BranchType) (sn pcaddr : Z) (ti : ThreadInfo) : ThreadInfo :=
  updateDirectionInfo pr taken
    (if isIndirectNoReturn ty then mkThreadInfo (pathHist ti ++ [mkHistoryEntry pcaddr (instAddr a) sn]) (ghr ti) else ti).

(** The history that [update] starts from. *)
Definition history_of h (ti : ThreadInfo) : IndirectHistory := default (mkIHist MaxAddr None None (ghr ti) false) h.

Lemma update_spec n s t sn pc (sq : bool) taken a ty h ti : params_ok → indirect_ok n s → threadInfo s !! t = Some ti →
  let h0 := history_of h ti in
  let ti0 := if sq then mkThreadInfo (if isIndirectNoReturn ty then pop_back (pathHist ti) else pathHist ti) (ih_ghr h0)
             else ti in
  ∃ (h' : IndirectHistory) s', update pr t sn pc sq taken a ty h s = Ok (Some h', s') ∧ indirect_ok n s' ∧
    threadInfo s' = <[t := recorded taken a ty sn (pcAddr h0) ti0]> (threadInfo s) ∧
    ih_ghr h' = ih_ghr h0 ∧ pcAddr h' = pcAddr h0 ∧ was_indirect h' = isIndirectNoReturn ty.
Proof.
  intros Hpr Hok Hti h0 ti0. unfold update.
  assert (match h with None => genIndirectInfo t s | Some h => Ok h end = Ok h0) as ->.
  { subst h0. unfold genIndirectInfo, history_of. destruct h; simpl; [done|]. by rewrite Hti. }
  simpl. rewrite Hti. simpl. subst ti0.
  destruct sq; simpl.
  - destruct (isIndirectNoReturn ty) eqn:Hty; simpl.
    + destruct (getSetIndex_ok (pcAddr h0) (mkThreadInfo (pop_back (pathHist ti)) (ih_ghr h0)) Hpr) as (i & -> & Hi). simpl.
      destruct (getTag_ok (pcAddr h0) Hpr) as (g & ->). simpl.
      set (s1 := set_threadInfo t _ s). assert (indirect_ok n s1) as Hok1 by by apply set_threadInfo_ok.
      assert (threadInfo s1 = <[t := recorded taken a ty sn (pcAddr h0) (mkThreadInfo (pop_back (pathHist ti)) (ih_ghr h0))]>
        (threadInfo s)) as Hth1.
      { unfold recorded. by rewrite Hty. }
      destruct taken; [|eexists _, _; split; [done|]; split; [exact Hok1|]; split; [exact Hth1|done]].
      edestruct (recordTarget_ok n s1 t a) as (s2 & -> & Hok2 & Hth2);
        [done|done| | |done|done|done|done|simpl; eexists _, _; split; [done|]; split; [done|]; by rewrite Hth2].
      * rewrite Hth1. apply list_lookup_insert_eq. by eapply lookup_lt_Some.
      * unfold recorded. rewrite Hty. simpl. by destruct (pop_back (pathHist ti)).
    + eexists _, _. split; [done|]. split; [by apply set_threadInfo_ok|]. unfold recorded. by rewrite Hty.
  - eexists _, _. split; [done|]. split; [by apply set_threadInfo_ok|]. unfold recorded. simpl.
    by destruct (isIndirectNoReturn ty).
Qed.

Lemma trim_ok limit l : 0 < limit → ∃ l', trim limit l = Ok l'.
Proof.
  intros Hl. induction l as [|e l IH]; cbn [trim].
  - exists []. change (Z.of_nat (length [])) with 0. by replace (limit <=? 0) with false by lia.
  - destruct (limit <=? _); [done|by eexists].
Qed.

(** ** The laws *)

Context (Hpr : params_ok).

#[export, program] Instance indirect_laws : @IndirectLaws (SimpleIndirectPredictor PC) IndirectHistory PC (predictor pr) := {|
  ipred_ok n s := indirect_ok n s
|}.
Next Obligation.
  simpl. unfold Indirect.lookup, genIndirectInfo. intros n s t sn pc Hok Ht. simpl.
  destruct (thread_lookup n s t Hok Ht) as (ti & ->). simpl.
  destruct (getSetIndex_ok pc ti Hpr) as (i & -> & Hi). simpl.
  destruct (getTag_ok pc Hpr) as (g & ->). simpl. replace (i <? numSets pr) with true by lia. simpl.
  destruct (set_ok n s i Hok Hi) as (iset & -> & _). simpl. by eexists _, _, _.
Qed.
Next Obligation.
  simpl. intros n s t sn pc sq b a ty h Hok Ht. destruct (thread_lookup n s t Hok Ht) as (ti & Hti).
  destruct (update_spec n s t sn pc sq b a ty h ti Hpr Hok Hti) as (h' & s' & -> & ? & _). by eexists _, _.
Qed.
Next Obligation.
  simpl. unfold Indirect.squash. intros n s t sn h Hok Ht. destruct h as [h|]; [|by eexists].
  destruct (thread_lookup n s t Hok Ht) as (ti & ->). simpl. eexists. split; [done|]. by apply set_threadInfo_ok.
Qed.
Next Obligation.
  simpl. unfold Indirect.commit. intros n s t sn h Hok Ht. destruct h as [h|]; [|by eexists].
  destruct (thread_lookup n s t Hok Ht) as (ti & ->). simpl.
  destruct (trim_ok (u32 (pathLength pr + speculativePathLength pr)) (pathHist ti)) as (l & ->); [apply Hpr|].
  simpl. eexists. split; [done|]. by apply set_threadInfo_ok.
Qed.

(** ** Wrong paths *)

(** A branch as the unit predicts it: looked up or not, and recorded as predicted. *)
Record Branch := mkBranch {
  b_sn : Z; b_pc : Z; b_looked_up : bool; b_type : BranchType; b_taken : bool; b_target : PC
}.

Definition predict_branch t (b : Branch) s : result (option IndirectHistory * SimpleIndirectPredictor PC) :=
  '(h, s) ← (if b_looked_up b then '(_, h, s) ← Indirect.lookup pr t (b_sn b) (b_pc b) None s; Ok (h, s)
             else Ok (None, s));
  update pr t (b_sn b) (b_pc b) false (b_taken b) (b_target b) (b_type b) h s.

(** The branches of a path and their histories, the last first. *)
Fixpoint speculate t (bs : list Branch) s : result (list (Z * option IndirectHistory) * SimpleIndirectPredictor PC) :=
  match bs with
  | [] => Ok ([], s)
  | b :: bs => '(h, s) ← predict_branch t b s; '(hs, s) ← speculate t bs s; Ok (hs ++ [(b_sn b, h)], s)
  end.

Fixpoint squash_all t (hs : list (Z * option IndirectHistory)) s : result (SimpleIndirectPredictor PC) :=
  match hs with
  | [] => Ok s
  | (sn, h) :: hs => '(_, s) ← squash t sn h s; squash_all t hs s
  end.

Lemma hist_squash_all_app t hs1 hs2 s :
  squash_all t (hs1 ++ hs2) s = s ← squash_all t hs1 s; squash_all t hs2 s.
Proof.
  revert s. induction hs1 as [|[sn h] hs1 IH]; intros s; [done|]. cbn [squash_all app].
  destruct (squash t sn h s) as [[o s']|]; simpl; [apply IH|done].
Qed.

Lemma predict_branch_spec n s t b ti : indirect_ok n s → threadInfo s !! t = Some ti →
  ∃ (h : IndirectHistory) s', predict_branch t b s = Ok (Some h, s') ∧ indirect_ok n s' ∧
    threadInfo s' = <[t := recorded (b_taken b) (b_target b) (b_type b) (b_sn b) (pcAddr h) ti]> (threadInfo s) ∧
    ih_ghr h = ghr ti ∧ was_indirect h = isIndirectNoReturn (b_type b) ∧
    pcAddr h = (if b_looked_up b then b_pc b else MaxAddr).
Proof.
  intros Hok Hti. unfold predict_branch.
  assert (∃ h, (if b_looked_up b then '(_, h, s) ← Indirect.lookup pr t (b_sn b) (b_pc b) None s; Ok (h, s)
      else Ok (None, s)) = Ok (h, s) ∧ ih_ghr (history_of h ti) = ghr ti ∧
      pcAddr (history_of h ti) = (if b_looked_up b then b_pc b else MaxAddr)) as (h & -> & Hg & Hp).
  { destruct (b_looked_up b); [|by exists None]. unfold Indirect.lookup, genIndirectInfo. simpl. rewrite Hti. simpl.
    destruct (getSetIndex_ok (b_pc b) ti Hpr) as (i & -> & Hi). simpl.
    destruct (getTag_ok (b_pc b) Hpr) as (g & ->). simpl. replace (i <? numSets pr) with true by lia. simpl.
    destruct (set_ok n s i Hok Hi) as (iset & -> & _). simpl. by eexists. }
  simpl. destruct (update_spec n s t (b_sn b) (b_pc b) false (b_taken b) (b_target b) (b_type b) h ti Hpr Hok Hti)
    as (h' & s' & -> & Hok' & Hth & Hg' & Hp' & Hw).
  exists h', s'. split; [done|]. split; [done|]. rewrite Hp'. split; [done|]. split; [congruence|]. by split.
Qed.

(** Undoing one branch. *)
Lemma squash_recorded n s s0 t sn (h : IndirectHistory) taken a ty sn' pcaddr ti :
  indirect_ok n s → threadInfo s0 !! t = Some ti → ih_ghr h = ghr ti → was_indirect h = isIndirectNoReturn ty →
  threadInfo s = <[t := recorded taken a ty sn' pcaddr ti]> (threadInfo s0) →
  ∃ s', squash t sn (Some h) s = Ok (None, s') ∧ indirect_ok n s' ∧ threadInfo s' = threadInfo s0.
Proof.
  intros Hok Hti Hg Hw Hth. unfold squash. rewrite Hth.
  rewrite list_lookup_insert_eq by (by eapply lookup_lt_Some). simpl.
  eexists. split; [done|]. split; [by apply set_threadInfo_ok|]. simpl. rewrite Hth, list_insert_insert_eq.
  rewrite <-(list_insert_id _ _ _ Hti) at 2. f_equal. rewrite Hw, Hg. unfold recorded, pop_back.
  destruct (isIndirectNoReturn ty); simpl; [rewrite reverse_app; simpl; rewrite reverse_involutive|]; by destruct ti.
Qed.

Lemma speculate_undone n t bs : ∀ s, indirect_ok n s → (t < n)%nat →
  ∃ hs s1 s2, speculate t bs s = Ok (hs, s1) ∧ squash_all t hs s1 = Ok s2 ∧ indirect_ok n s2 ∧
    threadInfo s2 = threadInfo s.
Proof.
  induction bs as [|b bs IH]; intros s Hok Ht; [by exists [], s, s|].
  destruct (thread_lookup n s t Hok Ht) as (ti & Hti).
  destruct (predict_branch_spec n s t b ti Hok Hti) as (h & s1 & Hp & Hok1 & Hth1 & Hg & Hw & _).
  destruct (IH s1 Hok1 Ht) as (hs & s2 & s3 & Hsp & Hsq & Hok3 & Hth3).
  destruct (squash_recorded n s3 s t (b_sn b) h (b_taken b) (b_target b) (b_type b) (b_sn b) (pcAddr h) ti)
    as (s4 & Hs4 & Hok4 & Hth4); [done|done|done|done|congruence|].
  cbn [speculate]. rewrite Hp. simpl. rewrite Hsp. simpl. eexists _, _, s4. split; [done|].
  rewrite hist_squash_all_app, Hsq. cbn [squash_all]. simpl. unfold squash in Hs4. by rewrite Hs4.
Qed.

(** C37: the indirect predictor undoes a wrong path and repairs a mispredicted branch: when
    a branch has been predicted, any number of younger branches predicted after it and
    squashed, and the branch then corrected, the path and direction histories of all threads
    are what they would be had it been predicted right at once, and nothing fails.  (The
    parameters are in order: no shift of an address or a tag by its width or more.) *)
Theorem indirect_speculation n s t b bs taken a : indirect_ok n s → (t < n)%nat →
  ∃ h s1 hs s2 s3 h4 s4 h4' s4',
    predict_branch t b s = Ok (h, s1) ∧ speculate t bs s1 = Ok (hs, s2) ∧ squash_all t hs s2 = Ok s3 ∧
    threadInfo s3 = threadInfo s1 ∧
    update pr t (b_sn b) (b_pc b) true taken a (b_type b) h s3 = Ok (h4, s4) ∧
    predict_branch t (mkBranch (b_sn b) (b_pc b) (b_looked_up b) (b_type b) taken a) s = Ok (h4', s4') ∧
    threadInfo s4 = threadInfo s4'.
Proof.
  intros Hok Ht. destruct (thread_lookup n s t Hok Ht) as (ti & Hti).
  destruct (predict_branch_spec n s t b ti Hok Hti) as (h & s1 & Hp & Hok1 & Hth1 & Hg & Hw & Hpc).
  destruct (speculate_undone n t bs s1 Hok1 Ht) as (hs & s2 & s3 & Hsp & Hsq & Hok3 & Hth3).
  assert (threadInfo s3 !! t = Some (recorded (b_taken b) (b_target b) (b_type b) (b_sn b) (pcAddr h) ti)) as Hti3.
  { rewrite Hth3, Hth1. apply list_lookup_insert_eq. by eapply lookup_lt_Some. }
  destruct (update_spec n s3 t (b_sn b) (b_pc b) true taken a (b_type b) (Some h) _ Hpr Hok3 Hti3)
    as (h4 & s4 & Hu & _ & Hth4 & _).
  destruct (predict_branch_spec n s t (mkBranch (b_sn b) (b_pc b) (b_looked_up b) (b_type b) taken a) ti Hok Hti)
    as (h4' & s4' & Hp' & _ & Hth4' & _ & _ & Hpc').
  exists (Some h), s1, hs, s2, s3, (Some h4), s4, (Some h4'), s4'. do 6 (split; [done|]).
  simpl in *. rewrite Hth4, Hth4', Hth3, Hth1, list_insert_insert_eq, Hpc', <-Hpc. f_equal.
  unfold history_of. simpl. unfold recorded, pop_back. rewrite Hg.
  destruct (isIndirectNoReturn (b_type b)); simpl; [rewrite reverse_app; simpl; rewrite reverse_involutive|];
    by destruct ti.
Qed.

(** The interface documents [pc] as the address of the branch, and the code never reads it:
    an indirect branch that was not looked up is recorded at the address [MaxAddr]. *)
Lemma update_forgets_pc n s t sn pc sq taken a ty ti : indirect_ok n s → threadInfo s !! t = Some ti →
  isIndirectNoReturn ty = true →
  ∃ h s' ti', update pr t sn pc sq taken a ty None s = Ok (h, s') ∧ threadInfo s' !! t = Some ti' ∧
    he_pcAddr <$> last (pathHist ti') = Some MaxAddr.
Proof.
  intros Hok Hti Hty. destruct (update_spec n s t sn pc sq taken a ty None ti Hpr Hok Hti) as (h & s' & Hu & _ & Hth & _).
  exists (Some h), s', (recorded taken a ty sn MaxAddr (if sq then mkThreadInfo (pop_back (pathHist ti)) (ghr ti) else ti)).
  rewrite Hty in Hth. split; [exact Hu|]. split.
  - rewrite Hth. apply list_lookup_insert_eq. by eapply lookup_lt_Some.
  - unfold recorded. rewrite Hty. simpl. by rewrite last_snoc.
Qed.

End Predictor.

(** ** A unit made of the modelled parts

    One thread, a bi-mode predictor of 4 and 8 counters, a return address stack of 4
    entries, an indirect predictor of 4 sets of 2 ways, and a target buffer that keeps the
    last target; a program counter is its address. *)

#[local] Instance ex_pcstate : PCState Z := λ pc, pc.

#[local] Instance ex_btb : BranchTargetBuffer (list (Z * Z)) Z := {|
  btb_lookup tid pc ty l := (snd <$> list_find (λ e, e.1 = pc) l ≫= λ ie, Some ie.2, l);
  btb_update tid pc a ty l := (pc, a) :: l
|}.

Definition ex_inst (call : bool) : StaticInst Z :=
  mkInst Z call (negb call) true false call false (λ pc, pc + 4) (λ pc _, pc + 4).

Definition ex_params : IndirectParams := mkParams true true 4 2 16 3 8 2 255.

Definition ex_indirect : SimpleIndirectPredictor Z :=
  mkIndirect (replicate 4 (replicate 2 (mkEntry 0 None))) [mkThreadInfo [] 0] (λ n, Z.of_nat n) 0.

Lemma ex_indirect_params_ok : params_ok ex_params ∧ indirect_ok ex_params 1 ex_indirect.
Proof. split; [by vm_compute|]. split; [done|]. split; [done|]. repeat constructor. Qed.

Lemma indirect_speculation_witness :
  ∃ s3 s4 s4' : SimpleIndirectPredictor Z, threadInfo s4 = threadInfo s4' ∧ threadInfo s3 = [mkThreadInfo [mkHistoryEntry 100 500 1] 1].
Proof.
  destruct (indirect_speculation ex_params (proj1 ex_indirect_params_ok) 1 ex_indirect 0
    (mkBranch 1 100 true IndirectUncond true 500)
    [mkBranch 2 500 false DirectCond false 504; mkBranch 3 504 true CallIndirect true 900] true 700
    (proj2 ex_indirect_params_ok) ltac:(lia)) as (h & s1 & hs & s2 & s3 & h4 & s4 & h4' & s4' & H1 & _ & _ & H3 & _ & _ & H4).
  exists s3, s4, s4'. split; [exact H4|]. rewrite H3. vm_compute in H1. injection H1 as _ <-. reflexivity.
Defined.

Definition ex_bimode : BiModeBP.BiModeParams :=
  BiModeBP.mkParams 2 4 8 3 7 3 7 1 1 1.
Definition ex_counters (n : nat) : list SatCounter.SatCounter.SatCounter := replicate n (SatCounter.SatCounter.mkSat 0 3 0).
Definition ex_cond : BiModeBP.BiModeBP := BiModeBP.mkBiMode [0] (ex_counters 4) (ex_counters 8) (ex_counters 8).

Lemma ex_bimode_new : BiModeBP.BiModeBP_new 1 2 4 2 8 2 = Ok (ex_bimode, ex_cond).
Proof. reflexivity. Qed.

Lemma ex_bimode_ok : CondPredProps.BiMode.params_ok ex_bimode ∧
  ∀ t, (t < 1)%nat → CondPredProps.BiMode.bimode_shows ex_bimode ex_cond t [].
Proof. by apply (CondPredProps.BiMode.bimode_new_ok _ _ _ _ _ _ _ _ ex_bimode_new). Qed.

#[local] Instance ex_predictor : CondPredictor BiModeBP.BiModeBP BiModeBP.BPHistory := BiModeBP.predictor ex_bimode.
#[local] Instance ex_cond_laws : PredictorLaws BiModeBP.BiModeBP BiModeBP.BPHistory :=
  CondPredProps.BiMode.bimode_laws ex_bimode (proj1 ex_bimode_ok).
#[local] Instance ex_ipredictor : IndirectPredictor (SimpleIndirectPredictor Z) IndirectHistory Z :=
  Indirect.predictor ex_params.
#[local] Instance ex_ipred_laws : IndirectLaws (SimpleIndirectPredictor Z) IndirectHistory Z :=
  indirect_laws ex_params (proj1 ex_indirect_params_ok).

Definition ex_unit : BPredUnit Z BiModeBP.BiModeBP BiModeBP.BPHistory (list (Z * Z)) (SimpleIndirectPredictor Z) IndirectHistory :=
  BPredUnit_new 1 ex_cond [] (Some (ReturnAddrStack_new 1 4)) (Some ex_indirect).

Lemma ex_fresh : fresh 1 4 ex_unit.
Proof.
  split; [done|]. split; [split|].
  - intros r [= <-]. split; [done|]. repeat constructor; simpl; lia.
  - intros i [= <-]. apply ex_indirect_params_ok.
  - intros t Ht. by apply ex_bimode_ok.
Qed.

Ltac ex_side :=
  lazymatch goal with
  | |- (_ < _)%nat => lia
  | |- _ = Ok _ => vm_compute; reflexivity
  | |- _ => reflexivity
  end.
Tactic Notation "ex_step" uconstr(c) := eapply rtc_l; [eapply c; ex_side|].

(** A branch, a call and a branch are predicted; the first was mispredicted, is corrected,
    and commits; the next branch is in flight. *)
Lemma bpu_follows_path_witness :
  ∃ u c l ct, reachable false 1 ex_unit (mkState u c) ∧ predHist u !! 0%nat = Some l ∧ c !! 0%nat = Some ct ∧
    map outcome l ++ ct = [mkOutcome 204 false false; mkOutcome 100 false true] ∧
    shows (cond u) 0 (map outcome l ++ ct).
Proof.
  assert (∃ u c l ct, reachable false 1 ex_unit (mkState u c) ∧ predHist u !! 0%nat = Some l ∧
    c !! 0%nat = Some ct ∧ map outcome l ++ ct = [mkOutcome 204 false false; mkOutcome 100 false true]) as Hex.
  { eexists _, _, _, _. split.
    - unfold reachable.
      ex_step (step_predict false 1 0 (ex_inst false) 1 100).
      ex_step (step_predict false 1 0 (ex_inst true) 2 104).
      ex_step (step_predict false 1 0 (ex_inst false) 3 108).
      ex_step (step_correct false 1 0 1 204 true).
      ex_step (step_predict false 1 0 (ex_inst false) 4 204).
      ex_step (step_update false 1 0 1).
      apply rtc_refl.
    - split; [reflexivity|]. split; reflexivity. }
  destruct Hex as (u & c & l & ct & Hr & Hl & Hc & He).
  exists u, c, l, ct. do 4 (split; [assumption|]).
  destruct (bpu_follows_path false 1 4 ex_unit u c 0 ex_fresh Hr ltac:(lia)) as (l' & ct' & Hl' & Hc' & Hs & _).
  rewrite Hl in Hl'. injection Hl' as <-. rewrite Hc in Hc'. injection Hc' as <-. exact Hs.
Defined.

End IndirectProps.
