(* ===== verification/TageBase.v ===== *)
(** * cpu/pred/tage_base: tagged tables indexed by folded histories

    Each thread's outcomes are in a circular buffer; for each table two hashes of its last
    outcomes are kept folded, one bit at a time.  [TAGEParams] are the parameters of the
    object, [TAGEBase] its state, [BranchInfo] what a branch in flight remembers.  A pointer
    into a buffer is its offset; memory that [new] leaves unset is [None].  The members that
    only the tables share ([Tables]) and the result of a prediction ([Prediction]) are records
    of their own. *)

From Stdlib Require Import ZArith Lia.
From stdpp Require Import base numbers option list.
From S2P Require Import Prelude.

Module TageBase.

(** [for] over the values that the loop variable takes. *)
Fixpoint for_each {A S : Type} (l : list A) (f : A → S → result S) (s : S) : result S :=
  match l with [] => Ok s | a :: l => s ← f a s; for_each l f s end.

(** A shift by a negative amount or by the width is undefined. *)
Definition shift_ok (w n : Z) : result unit := if (0 <=? n) && (n <? w) then Ok tt else Err Undefined.
(** An array that [new int[n]] made. *)
Definition new_array (n : Z) : list (option Z) := replicate (Z.to_nat n) None.
Definition arr_get (l : list (option Z)) (i : Z) : result Z := o ← load_at l i; deref o.
Definition arr_set (l : list (option Z)) (i x : Z) : result (list (option Z)) := store_at l i (Some x).
(** [(1ULL << n) - 1] *)
Definition low_mask (n : Z) : Z := u64 ((1 .<< n) - 1).

(** ** Data *)

Record TAGEParams := mkParams {
  numThreads : nat;
  instShiftAmt : Z;
  nHistoryTables : Z;
  minHist : Z;
  maxHist : Z;
  tagTableTagWidths : list Z;
  logTagTableSizes : list Z;
  logRatioBiModalHystEntries : Z;
  tagTableCounterBits : Z;
  tagTableUBits : Z;
  histBufferSize : Z;
  pathHistBits : Z;
  logUResetPeriod : Z;
  numUseAltOnNa : Z;
  initialTCounterValue : Z;
  useAltOnNaBits : Z;
  maxNumAlloc : Z;
  noSkip_param : list bool;
  speculativeHistUpdate : bool
}.

Record TageEntry := mkEntry { ctr : Z; tag : Z; u : Z }.
Definition TageEntry_new : TageEntry := mkEntry 0 0 0.
Definition set_ctr (c : Z) (e : TageEntry) : TageEntry := mkEntry c (tag e) (u e).
Definition set_u (x : Z) (e : TageEntry) : TageEntry := mkEntry (ctr e) (tag e) x.

Record FoldedHistory := mkFolded { comp : Z; compLength : Z; origLength : Z; outpoint : Z }.

Record ThreadHistory := mkThread {
  pathHist : Z;
  globalHistory : list Z;
  gHist : Z;
  ptGhist : Z;
  computeIndices : list FoldedHistory;
  computeTags0 : list FoldedHistory;
  computeTags1 : list FoldedHistory
}.

Record Tables := mkTables {
  btablePrediction : list bool;
  btableHysteresis : list bool;
  gtable : list (list TageEntry);
  useAltPredForNewlyAllocated : list Z;
  tCounter : Z
}.

Record TAGEBase := mkTAGE {
  tables : Tables;
  threadHistory : list ThreadHistory;
  tableIndices : list (option Z);
  tableTags : list (option Z)
}.

Definition BIMODAL_ONLY : Z := 0.
Definition TAGE_LONGEST_MATCH : Z := 1.
Definition BIMODAL_ALT_MATCH : Z := 2.
Definition TAGE_ALT_MATCH : Z := 3.

Record Prediction := mkPrediction {
  hitBank : Z;
  hitBankIndex : Z;
  altBank : Z;
  altBankIndex : Z;
  bimodalIndex : Z;
  tagePred : bool;
  altTaken : bool;
  longestMatchPred : bool;
  pseudoNewAlloc : bool;
  provider : Z
}.

Record BranchInfo := mkBranchInfo {
  bi_pathHist : Z;
  bi_ptGhist : Z;
  prediction : Prediction;
  condBranch : bool;
  branchPC : Z;
  bi_tableIndices : list (option Z);
  bi_tableTags : list (option Z);
  ci : list (option Z);
  ct0 : list (option Z);
  ct1 : list (option Z)
}.

Definition Prediction_new : Prediction := mkPrediction 0 0 0 0 0 false false false false (u32 (-1)).

(** *** Assignments to members *)

Definition set_gtable (g : list (list TageEntry)) (t : Tables) : Tables :=
  mkTables (btablePrediction t) (btableHysteresis t) g (useAltPredForNewlyAllocated t) (tCounter t).
Definition set_bimodal (p h : list bool) (t : Tables) : Tables :=
  mkTables p h (gtable t) (useAltPredForNewlyAllocated t) (tCounter t).
Definition set_useAlt (l : list Z) (t : Tables) : Tables :=
  mkTables (btablePrediction t) (btableHysteresis t) (gtable t) l (tCounter t).
Definition set_tCounter (c : Z) (t : Tables) : Tables :=
  mkTables (btablePrediction t) (btableHysteresis t) (gtable t) (useAltPredForNewlyAllocated t) c.

Definition set_tables (t : Tables) (s : TAGEBase) : TAGEBase :=
  mkTAGE t (threadHistory s) (tableIndices s) (tableTags s).
Definition set_thread (tid : nat) (th : ThreadHistory) (s : TAGEBase) : TAGEBase :=
  mkTAGE (tables s) (<[tid := th]> (threadHistory s)) (tableIndices s) (tableTags s).
Definition set_scratch (ti tt : list (option Z)) (s : TAGEBase) : TAGEBase :=
  mkTAGE (tables s) (threadHistory s) ti tt.

Definition set_comp (c : Z) (f : FoldedHistory) : FoldedHistory :=
  mkFolded c (compLength f) (origLength f) (outpoint f).
Definition set_folded (a b c : list FoldedHistory) (th : ThreadHistory) : ThreadHistory :=
  mkThread (pathHist th) (globalHistory th) (gHist th) (ptGhist th) a b c.
Definition set_outcomes (h : Z) (tab : list Z) (pt : Z) (th : ThreadHistory) : ThreadHistory :=
  mkThread (pathHist th) tab h pt (computeIndices th) (computeTags0 th) (computeTags1 th).
Definition set_pathHist (p : Z) (th : ThreadHistory) : ThreadHistory :=
  mkThread p (globalHistory th) (gHist th) (ptGhist th) (computeIndices th) (computeTags0 th)
    (computeTags1 th).

Definition set_bi_position (p pt : Z) (bi : BranchInfo) : BranchInfo :=
  mkBranchInfo p pt (prediction bi) (condBranch bi) (branchPC bi) (bi_tableIndices bi)
    (bi_tableTags bi) (ci bi) (ct0 bi) (ct1 bi).
Definition set_bi_folded (a b c : list (option Z)) (bi : BranchInfo) : BranchInfo :=
  mkBranchInfo (bi_pathHist bi) (bi_ptGhist bi) (prediction bi) (condBranch bi) (branchPC bi)
    (bi_tableIndices bi) (bi_tableTags bi) a b c.
Definition set_bi_tables (ti tt : list (option Z)) (bi : BranchInfo) : BranchInfo :=
  mkBranchInfo (bi_pathHist bi) (bi_ptGhist bi) (prediction bi) (condBranch bi) (branchPC bi)
    ti tt (ci bi) (ct0 bi) (ct1 bi).
Definition set_prediction (p : Prediction) (bi : BranchInfo) : BranchInfo :=
  mkBranchInfo (bi_pathHist bi) (bi_ptGhist bi) p (condBranch bi) (branchPC bi)
    (bi_tableIndices bi) (bi_tableTags bi) (ci bi) (ct0 bi) (ct1 bi).
Definition set_branch (pc : Z) (cond : bool) (bi : BranchInfo) : BranchInfo :=
  mkBranchInfo (bi_pathHist bi) (bi_ptGhist bi) (prediction bi) cond pc
    (bi_tableIndices bi) (bi_tableTags bi) (ci bi) (ct0 bi) (ct1 bi).

(** ** Folded histories *)

Definition FoldedHistory_init (original_length compressed_length : Z) : result FoldedHistory :=
  if compressed_length =? 0 then Err Undefined
  else Ok (mkFolded 0 compressed_length original_length (Z.rem original_length compressed_length)).

(** [h] is the offset of the last outcome in the buffer [buf]. *)
Definition FoldedHistory_update (buf : list Z) (h : Z) (f : FoldedHistory) : result FoldedHistory :=
  h0 ← load_at buf h;
  let c := u32 (comp f .<< 1) .| h0 in
  ho ← load_at buf (h + origLength f);
  _ ← shift_ok 32 (outpoint f);
  let c := c .^ u32 (ho .<< outpoint f) in
  _ ← shift_ok 32 (compLength f);
  let c := c .^ (c .>> compLength f) in
  Ok (set_comp (c .& low_mask (compLength f)) f).

(** An element of an array of folded histories. *)
Definition on_folded (g : FoldedHistory → result FoldedHistory) (l : list FoldedHistory) (i : Z)
    : result (list FoldedHistory) :=
  f ← load_at l i; f ← g f; store_at l i f.

(** ** Counters *)

(** The template is used at [int8_t]. *)
Definition ctrUpdate (c : Z) (taken : bool) (nbits : Z) : result Z :=
  _ ← assert_ok (nbits <=? 8);
  _ ← shift_ok 32 (nbits - 1);
  Ok (if taken then if c <? (1 .<< (nbits - 1)) - 1 then c + 1 else c
      else if - (1 .<< (nbits - 1)) <? c then c - 1 else c).

Definition unsignedCtrUpdate (c : Z) (up : bool) (nbits : Z) : result Z :=
  _ ← assert_ok (nbits <=? 8);
  Ok (if up then if c <? (1 .<< nbits) - 1 then c + 1 else c
      else if negb (c =? 0) then c - 1 else c).

Definition resetUctr (x : Z) : Z := x .>> 1.

Section Object.
(** [histLengths] is the array that [calculateParameters] fills. *)
Context (pr : TAGEParams) (histLengths : list Z).

(** [for (int i = 1; i <= nHistoryTables; i++)] *)
Definition banks : list Z := seqZ 1 (nHistoryTables pr).

Definition makeBranchInfo : BranchInfo :=
  let a := new_array (nHistoryTables pr + 1) in
  mkBranchInfo 0 0 Prediction_new false 0 a a a a a.

Definition noSkip : list bool :=
  match noSkip_param pr with
  | [] => replicate (Z.to_nat (nHistoryTables pr + 1)) true
  | l => l
  end.

(** ** Indices and tags *)

Definition bindex (pc : Z) : result Z :=
  l ← load_at (logTagTableSizes pr) 0;
  _ ← shift_ok 64 l;
  Ok (s32 ((pc .>> instShiftAmt pr) .& low_mask l)).

Definition F (A size bank : Z) : result Z :=
  log ← load_at (logTagTableSizes pr) bank;
  _ ← shift_ok 64 size;
  _ ← shift_ok 32 log;
  let A := s32 (A .& low_mask size) in
  let A1 := s32 (A .& low_mask log) in
  let A2 := A .>> log in
  _ ← shift_ok 32 bank;
  _ ← shift_ok 32 (log - bank);
  let A2 := s32 ((s32 (A2 .<< bank) .& low_mask log) + (A2 .>> (log - bank))) in
  let A := A1 .^ A2 in
  Ok (s32 ((s32 (A .<< bank) .& low_mask log) + (A .>> (log - bank)))).

Definition gindex (tid : nat) (pc bank : Z) (s : TAGEBase) : result Z :=
  th ← deref (threadHistory s !! tid);
  len ← load_at histLengths bank;
  let hlen := if pathHistBits pr <? len then pathHistBits pr else len in
  let shiftedPc := u32 (pc .>> instShiftAmt pr) in
  log ← load_at (logTagTableSizes pr) bank;
  _ ← shift_ok 32 (Z.abs (log - bank) + 1);
  c ← load_at (computeIndices th) bank;
  f ← F (pathHist th) hlen bank;
  let index := s32 (shiftedPc .^ (shiftedPc .>> (Z.abs (log - bank) + 1)) .^ comp c .^ u32 f) in
  _ ← shift_ok 64 log;
  Ok (s32 (index .& low_mask log)).

Definition gtag (tid : nat) (pc bank : Z) (s : TAGEBase) : result Z :=
  th ← deref (threadHistory s !! tid);
  c0 ← load_at (computeTags0 th) bank;
  c1 ← load_at (computeTags1 th) bank;
  let t := s32 ((pc .>> instShiftAmt pr) .^ comp c0 .^ u32 (comp c1 .<< 1)) in
  w ← load_at (tagTableTagWidths pr) bank;
  _ ← shift_ok 64 w;
  Ok (u16 (t .& low_mask w)).

Definition calculateIndicesAndTags (tid : nat) (branch_pc : Z) (bi : BranchInfo) (s : TAGEBase)
    : result (BranchInfo * TAGEBase) :=
  for_each banks (λ i '(bi, s),
    x ← gindex tid branch_pc i s;
    ti ← arr_set (tableIndices s) i x;
    bti ← arr_set (bi_tableIndices bi) i x;
    y ← gtag tid branch_pc i s;
    tt ← arr_set (tableTags s) i y;
    btt ← arr_set (bi_tableTags bi) i y;
    Ok (set_bi_tables bti btt bi, set_scratch ti tt s)) (bi, s).

(** ** Entries *)

(** [gtable[i][j]] *)
Definition entry (t : Tables) (i j : Z) : result TageEntry := l ← load_at (gtable t) i; load_at l j.
Definition write_entry (t : Tables) (i j : Z) (e : TageEntry) : result Tables :=
  l ← load_at (gtable t) i;
  l ← store_at l j e;
  g ← store_at (gtable t) i l;
  Ok (set_gtable g t).

Definition getBimodePred (p : Prediction) (t : Tables) : result bool :=
  load_at (btablePrediction t) (bimodalIndex p).

Definition baseUpdate (taken : bool) (p : Prediction) (t : Tables) : result Tables :=
  b ← load_at (btablePrediction t) (bimodalIndex p);
  h ← load_at (btableHysteresis t) (bimodalIndex p .>> logRatioBiModalHystEntries pr);
  let inter := (Z.b2z b .<< 1) + Z.b2z h in
  let inter := if taken then if inter <? 3 then inter + 1 else inter
               else if 0 <? inter then inter - 1 else inter in
  bs ← store_at (btablePrediction t) (bimodalIndex p) (negb (inter .>> 1 =? 0));
  hs ← store_at (btableHysteresis t) (bimodalIndex p .>> logRatioBiModalHystEntries pr)
         (negb (inter .& 1 =? 0));
  Ok (set_bimodal bs hs t).

(** ** Prediction *)

(** The loops that look for the longest matching history among the banks 1 to [i]: the
    bank, or 0. *)
Fixpoint longest_match (ti tt : list (option Z)) (t : Tables) (i : nat) : result Z :=
  match i with
  | O => Ok 0
  | S j =>
      let bank := Z.of_nat i in
      enabled ← load_at noSkip bank;
      hit ← (if (enabled : bool) then
               x ← arr_get ti bank;
               e ← entry t bank x;
               y ← arr_get tt bank;
               Ok (tag e =? y)
             else Ok false);
      if (hit : bool) then Ok bank else longest_match ti tt t j
  end.

(** [bi->hitBankIndex = tableIndices[bi->hitBank]] where a bank was found. *)
Definition bank_index (ti : list (option Z)) (bank : Z) : result Z :=
  if 0 <? bank then arr_get ti bank else Ok 0.

Definition getUseAltIdx : Z := 0.

(** What [tagePredict] does for a conditional branch once the indices are calculated. *)
Definition predict_banks (ti tt : list (option Z)) (pc : Z) (t : Tables) : result Prediction :=
  bimodal ← bindex pc;
  hit ← longest_match ti tt t (Z.to_nat (nHistoryTables pr));
  hit_index ← bank_index ti hit;
  alt ← longest_match ti tt t (Z.to_nat (hit - 1));
  alt_index ← bank_index ti alt;
  base ← load_at (btablePrediction t) bimodal;
  if 0 <? hit then
    alt_taken ← (if 0 <? alt then e ← entry t alt alt_index; Ok (0 <=? ctr e) else Ok base);
    e ← entry t hit hit_index;
    let longest := 0 <=? ctr e in
    let pseudo := Z.abs (2 * ctr e + 1) <=? 1 in
    use_alt ← load_at (useAltPredForNewlyAllocated t) getUseAltIdx;
    if (use_alt <? 0) || negb pseudo
    then Ok (mkPrediction hit hit_index alt alt_index bimodal longest alt_taken longest pseudo
               TAGE_LONGEST_MATCH)
    else Ok (mkPrediction hit hit_index alt alt_index bimodal alt_taken alt_taken longest pseudo
               (if alt =? 0 then BIMODAL_ALT_MATCH else TAGE_ALT_MATCH))
  else
    Ok (mkPrediction 0 hit_index alt alt_index bimodal base base base false BIMODAL_ONLY).

Definition tagePredict (tid : nat) (branch_pc : Z) (cond_branch : bool) (bi : BranchInfo)
    (s : TAGEBase) : result (bool * BranchInfo * TAGEBase) :=
  if cond_branch then
    '(bi, s) ← calculateIndicesAndTags tid branch_pc bi s;
    p ← predict_banks (tableIndices s) (tableTags s) branch_pc (tables s);
    Ok (tagePred p, set_branch branch_pc true (set_prediction p bi), s)
  else Ok (true, set_branch branch_pc false bi, s).

(** ** Training *)

(** [adjustAlloc] does nothing here. *)
Definition adjustAlloc (alloc taken pred_taken : bool) : bool := alloc.

(** [min] over the banks from [nHistoryTables] down to [hitBank + 1] *)
Definition min_useful (p : Prediction) (ti : list (option Z)) (t : Tables) : result Z :=
  for_each (rev (seqZ (hitBank p + 1) (nHistoryTables pr - hitBank p))) (λ i m,
    x ← arr_get ti i; e ← entry t i x; Ok (if u e <? m then u e else m)) 1.

(** The loop that allocates in the banks [l], until [maxNumAlloc] entries are. *)
Fixpoint allocate (l : list Z) (ti tt : list (option Z)) (taken : bool) (numAllocated : Z)
    (t : Tables) : result Tables :=
  match l with
  | [] => Ok t
  | i :: l =>
      x ← arr_get ti i;
      e ← entry t i x;
      if u e =? 0 then
        y ← arr_get tt i;
        t ← write_entry t i x (mkEntry (if taken then 0 else -1) (u16 y) (u e));
        let numAllocated := u32 (numAllocated + 1) in
        if numAllocated =? maxNumAlloc pr then Ok t else allocate l ti tt taken numAllocated t
      else allocate l ti tt taken numAllocated t
  end.

(** The first bank of an allocation: the next one or one of the two after it. *)
Definition first_bank (p : Prediction) (nrand : Z) : Z :=
  let Y := nrand .& low_mask (nHistoryTables pr - hitBank p - 1) in
  hitBank p + 1 + (if Y .& 1 =? 0 then 0 else if Y .& 2 =? 0 then 1 else 2).

Definition handleUReset (t : Tables) : result Tables :=
  _ ← shift_ok 64 (logUResetPeriod pr);
  if tCounter t .& low_mask (logUResetPeriod pr) =? 0 then
    for_each banks (λ i t,
      l ← load_at (gtable t) i;
      g ← store_at (gtable t) i (map (λ e, set_u (resetUctr (u e)) e) l);
      Ok (set_gtable g t)) t
  else Ok t.

(** What [handleAllocAndUReset] does when an entry is to be allocated. *)
Definition allocate_entries (taken : bool) (bi : BranchInfo) (nrand : Z) (t : Tables) : result Tables :=
  let p := prediction bi in
  min ← min_useful p (bi_tableIndices bi) t;
  _ ← shift_ok 64 (nHistoryTables pr - hitBank p - 1);
  let X := first_bank p nrand in
  t ← (if 0 <? min then
         x ← arr_get (bi_tableIndices bi) X;
         e ← entry t X x;
         write_entry t X x (set_u 0 e)
       else Ok t);
  allocate (seqZ X (nHistoryTables pr - X + 1)) (bi_tableIndices bi) (bi_tableTags bi) taken 0 t.

Definition handleAllocAndUReset (alloc taken : bool) (bi : BranchInfo) (nrand : Z) (t : Tables)
    : result Tables :=
  t ← (if alloc then allocate_entries taken bi nrand t else Ok t);
  handleUReset (set_tCounter (s64 (tCounter t + 1)) t).

(** [ctrUpdate(gtable[i][j].ctr, taken, tagTableCounterBits)] *)
Definition train_entry (i j : Z) (taken : bool) (t : Tables) : result Tables :=
  e ← entry t i j;
  c ← ctrUpdate (ctr e) taken (tagTableCounterBits pr);
  write_entry t i j (set_ctr c e).

Definition handleTAGEUpdate (taken : bool) (p : Prediction) (t : Tables) : result Tables :=
  if 0 <? hitBank p then
    t ← train_entry (hitBank p) (hitBankIndex p) taken t;
    e ← entry t (hitBank p) (hitBankIndex p);
    t ← (if u e =? 0 then
           t ← (if 0 <? altBank p then train_entry (altBank p) (altBankIndex p) taken t else Ok t);
           if altBank p =? 0 then baseUpdate taken p t else Ok t
         else Ok t);
    if negb (eqb (tagePred p) (altTaken p)) then
      e ← entry t (hitBank p) (hitBankIndex p);
      x ← unsignedCtrUpdate (u e) (eqb (tagePred p) taken) (tagTableUBits pr);
      write_entry t (hitBank p) (hitBankIndex p) (set_u x e)
    else Ok t
  else baseUpdate taken p t.

(** The choice between the longest and the alternate match for entries that are pseudo-newly
    allocated; the first component is [alloc]. *)
Definition train_useAlt (alloc taken : bool) (p : Prediction) (t : Tables) : result (bool * Tables) :=
  if (0 <? hitBank p) && pseudoNewAlloc p then
    let alloc := if eqb (longestMatchPred p) taken then false else alloc in
    if negb (eqb (longestMatchPred p) (altTaken p)) then
      c ← load_at (useAltPredForNewlyAllocated t) getUseAltIdx;
      c ← ctrUpdate c (eqb (altTaken p) taken) (useAltOnNaBits pr);
      l ← store_at (useAltPredForNewlyAllocated t) getUseAltIdx c;
      Ok (alloc, set_useAlt l t)
    else Ok (alloc, t)
  else Ok (alloc, t).

Definition condBranchUpdate (taken : bool) (bi : BranchInfo) (nrand : Z) (pred preAdjustAlloc : bool)
    (t : Tables) : result Tables :=
  let p := prediction bi in
  let alloc := negb (eqb (tagePred p) taken) && (hitBank p <? nHistoryTables pr) in
  let alloc := if preAdjustAlloc then adjustAlloc alloc taken pred else alloc in
  '(alloc, t) ← train_useAlt alloc taken p t;
  let alloc := if preAdjustAlloc then alloc else adjustAlloc alloc taken pred in
  t ← handleAllocAndUReset alloc taken bi nrand t;
  handleTAGEUpdate taken p t.

(** ** Histories *)

(** The arguments are the members [gHist], [globalHistory] and [ptGhist] of a thread. *)
Definition updateGHist (h : Z) (dir : bool) (tab : list Z) (pt : Z) : result (Z * list Z * Z) :=
  '(h, tab, pt) ← (if pt =? 0 then
      tab ← for_each (seqZ 0 (maxHist pr)) (λ i tab,
        x ← load_at tab i; store_at tab (u32 (histBufferSize pr - maxHist pr + i)) x) tab;
      let pt := s32 (u32 (histBufferSize pr - maxHist pr)) in
      Ok (pt, tab, pt)
    else Ok (h, tab, pt));
  tab ← store_at tab (h - 1) (Z.b2z dir);
  Ok (h - 1, tab, pt - 1).

(** The three histories of bank [i]: one more outcome. *)
Definition update_folded (i : Z) (th : ThreadHistory) : result ThreadHistory :=
  let up := FoldedHistory_update (globalHistory th) (gHist th) in
  a ← on_folded up (computeIndices th) i;
  b ← on_folded up (computeTags0 th) i;
  c ← on_folded up (computeTags1 th) i;
  Ok (set_folded a b c th).

(** The same after [comp] is what a branch saved. *)
Definition restore_folded (bi : BranchInfo) (i : Z) (th : ThreadHistory) : result ThreadHistory :=
  let up (saved : list (option Z)) (f : FoldedHistory) :=
    c ← arr_get saved i; FoldedHistory_update (globalHistory th) (gHist th) (set_comp (u32 c) f) in
  a ← on_folded (up (ci bi)) (computeIndices th) i;
  b ← on_folded (up (ct0 bi)) (computeTags0 th) i;
  c ← on_folded (up (ct1 bi)) (computeTags1 th) i;
  Ok (set_folded a b c th).

(** [bi->ci[i] = tHist.computeIndices[i].comp] and the two tags *)
Definition save_folded (i : Z) (th : ThreadHistory) (bi : BranchInfo) : result BranchInfo :=
  let save (l : list FoldedHistory) (saved : list (option Z)) :=
    f ← load_at l i; arr_set saved i (s32 (comp f)) in
  a ← save (computeIndices th) (ci bi);
  b ← save (computeTags0 th) (ct0 bi);
  c ← save (computeTags1 th) (ct1 bi);
  Ok (set_bi_folded a b c bi).

Definition updateHistories (tid : nat) (branch_pc : Z) (taken : bool) (bi : BranchInfo)
    (speculative : bool) (s : TAGEBase) : result (BranchInfo * TAGEBase) :=
  if negb (eqb speculative (speculativeHistUpdate pr)) then Ok (bi, s) else
  th ← deref (threadHistory s !! tid);
  let pathbit := (branch_pc .>> instShiftAmt pr) .& 1 in
  '(h, tab, pt) ← updateGHist (gHist th) taken (globalHistory th) (ptGhist th);
  let th := set_outcomes h tab pt th in
  let p := s32 (s32 (pathHist th .<< 1) + pathbit) in
  _ ← shift_ok 64 (pathHistBits pr);
  let th := set_pathHist (s32 (p .& low_mask (pathHistBits pr))) th in
  let bi := if speculative then set_bi_position (pathHist th) (ptGhist th) bi else bi in
  '(bi, th) ← for_each banks (λ i '(bi, th),
    bi ← (if speculative then save_folded i th bi else Ok bi);
    th ← update_folded i th;
    Ok (bi, th)) (bi, th);
  _ ← assert_ok (gHist th =? ptGhist th);
  Ok (bi, set_thread tid th s).

Definition squash (tid : nat) (taken : bool) (bi : BranchInfo) (s : TAGEBase) : result TAGEBase :=
  if negb (speculativeHistUpdate pr) then Ok s else
  th ← deref (threadHistory s !! tid);
  tab ← store_at (globalHistory th) (bi_ptGhist bi) (Z.b2z taken);
  let th := set_pathHist (bi_pathHist bi) (set_outcomes (bi_ptGhist bi) tab (bi_ptGhist bi) th) in
  th ← for_each banks (restore_folded bi) th;
  Ok (set_thread tid th s).

Definition btbUpdate (tid : nat) (bi : BranchInfo) (s : TAGEBase) : result TAGEBase :=
  if speculativeHistUpdate pr then
    th ← deref (threadHistory s !! tid);
    _ ← assert_ok (gHist th =? ptGhist th);
    tab ← store_at (globalHistory th) (gHist th) 0;
    th ← for_each banks (restore_folded bi) (set_outcomes (gHist th) tab (ptGhist th) th);
    Ok (set_thread tid th s)
  else Ok s.

Definition getGHR (tid : nat) (bi : BranchInfo) (s : TAGEBase) : result Z :=
  th ← deref (threadHistory s !! tid);
  for_each (seqZ 0 32) (λ i val,
    let gh_offset := bi_ptGhist bi + i in
    _ ← assert_ok (gh_offset <? histBufferSize pr);
    x ← load_at (globalHistory th) gh_offset;
    Ok (val .| u32 ((x .& 1) .<< i))) 0.

End Object.

(** ** Construction *)

(** [geometric i] is the value of the floating-point expression for [histLengths[i]],
    rounded as the code does. *)
Definition calculateParameters (geometric : Z → Z) (pr : TAGEParams) : result (list Z) :=
  l ← store_at (replicate (Z.to_nat (nHistoryTables pr + 1)) 0) 1 (minHist pr);
  l ← store_at l (nHistoryTables pr) (maxHist pr);
  for_each (seqZ 2 (nHistoryTables pr - 1)) (λ i l, store_at l i (geometric i)) l.

Definition initFoldedHistories (pr : TAGEParams) (histLengths : list Z) (th : ThreadHistory)
    : result ThreadHistory :=
  for_each (banks pr) (λ i th,
    len ← load_at histLengths i;
    log ← load_at (logTagTableSizes pr) i;
    w ← load_at (tagTableTagWidths pr) i;
    f ← FoldedHistory_init len log;
    g ← FoldedHistory_init len (s32 w);
    h ← FoldedHistory_init len (s32 (u32 (w - 1)));
    a ← store_at (computeIndices th) i f;
    b ← store_at (computeTags0 th) i g;
    c ← store_at (computeTags1 th) i h;
    Ok (set_folded a b c th)) th.

Definition buildTageTables (pr : TAGEParams) : result (list (list TageEntry)) :=
  for_each (banks pr) (λ i g,
    log ← load_at (logTagTableSizes pr) i;
    _ ← shift_ok 31 log;
    store_at g i (replicate (Z.to_nat (1 .<< log)) TageEntry_new))
  (replicate (Z.to_nat (nHistoryTables pr + 1)) []).

(** The constructor and init(); the lengths are constant afterwards. *)
Definition TAGEBase_new (geometric : Z → Z) (pr : TAGEParams) : result (list Z * TAGEBase) :=
  let n := Z.to_nat (nHistoryTables pr + 1) in
  _ ← assert_ok ((tagTableUBits pr <=? 2) && (0 <? tagTableUBits pr));
  _ ← assert_ok (pathHistBits pr <=? 32);
  _ ← assert_ok (negb (logUResetPeriod pr =? 0));
  _ ← assert_ok (u32 (maxHist pr * 2) <? histBufferSize pr);
  histLengths ← calculateParameters geometric pr;
  _ ← assert_ok (Z.of_nat (length (tagTableTagWidths pr)) =? nHistoryTables pr + 1);
  _ ← assert_ok (Z.of_nat (length (logTagTableSizes pr)) =? nHistoryTables pr + 1);
  w0 ← load_at (tagTableTagWidths pr) 0;
  _ ← assert_ok (w0 =? 0);
  let none := replicate n (mkFolded 0 0 0 0) in
  th ← initFoldedHistories pr histLengths
         (mkThread 0 (replicate (Z.to_nat (histBufferSize pr)) 0) 0 0 none none none);
  log0 ← load_at (logTagTableSizes pr) 0;
  _ ← shift_ok 64 log0;
  let bimodalTableSize := u64 (1 .<< log0) in
  g ← buildTageTables pr;
  Ok (histLengths,
      mkTAGE
        (mkTables (replicate (Z.to_nat bimodalTableSize) false)
           (replicate (Z.to_nat (bimodalTableSize .>> logRatioBiModalHystEntries pr)) true) g
           (replicate (Z.to_nat (numUseAltOnNa pr)) 0) (initialTCounterValue pr))
        (replicate (numThreads pr) th)
        (new_array (nHistoryTables pr + 1)) (new_array (nHistoryTables pr + 1))).

End TageBase.
