(* ===== verification/Tage.v ===== *)
(** * cpu/pred/tage: the TAGE predictor, and what it is meant to predict

    [Tage] is the predictor that the branch prediction unit calls, and the calls that the unit
    makes of it, as events.  [TageSpec] is the same predictor with nothing but the list of the
    outcomes so far: no buffer, no pointers, no folded state, nothing to restore. *)

From Stdlib Require Import ZArith Lia.
From stdpp Require Import base numbers option list.
From S2P Require Import Prelude TageBase.

Module Tage.
Import TageBase.

Section Predictor.
Context (pr : TAGEParams) (histLengths : list Z).

Definition predict (tid : nat) (pc : Z) (cond_branch : bool) (s : TAGEBase)
    : result (bool * option BranchInfo * TAGEBase) :=
  '(b, bi, s) ← tagePredict pr histLengths tid pc cond_branch (makeBranchInfo pr) s;
  Ok (b, Some bi, s).

Definition lookup (tid : nat) (pc : Z) (s : TAGEBase) : result (bool * option BranchInfo * TAGEBase) :=
  predict tid pc true s.

Definition updateHistories (tid : nat) (pc : Z) (uncond taken : bool) (h : option BranchInfo)
    (s : TAGEBase) : result (option BranchInfo * TAGEBase) :=
  _ ← assert_ok (uncond || match h with Some _ => true | None => false end);
  '(h, s) ← (if uncond then '(_, h, s) ← predict tid pc false s; Ok (h, s) else Ok (h, s));
  bi ← deref h;
  '(bi, s) ← TageBase.updateHistories pr tid pc taken bi true s;
  Ok (Some bi, s).

(** [random] is the number that [rng->random<int>()] draws. *)
Definition update (tid : nat) (pc : Z) (taken : bool) (h : option BranchInfo) (squashed : bool)
    (random : Z) (s : TAGEBase) : result (option BranchInfo * TAGEBase) :=
  _ ← assert_ok (match h with Some _ => true | None => false end);
  bi ← deref h;
  if squashed then
    s ← TageBase.squash pr tid taken bi s; Ok (h, s)
  else
    let nrand := random .& 3 in
    s ← (if condBranch bi then
           t ← condBranchUpdate pr taken bi nrand (tagePred (prediction bi)) false (tables s);
           Ok (set_tables t s)
         else Ok s);
    '(_, s) ← TageBase.updateHistories pr tid pc taken bi false s;
    Ok (None, s).

(** Only the record is deleted. *)
Definition squash (h : option BranchInfo) : result (option BranchInfo) := _ ← deref h; Ok None.

(** ** The unit's calls

    [flights] are the branches of each thread that are in flight, the youngest first. *)

Record System := mkSystem { base : TAGEBase; flights : list (list (Z * option BranchInfo)) }.

Inductive Event :=
  (** BPredUnit::predict: [taken] is what the unit predicts in the end *)
  | Predict (tid : nat) (pc : Z) (uncond taken : bool)
  (** BPredUnit::squash(sn, corr_target, actually_taken, tid): [k] branches are younger than
      the one that went wrong *)
  | Correct (tid : nat) (k : nat) (taken : bool)
  (** BPredUnit::squash(sn, tid): the youngest [k] branches *)
  | Squash (tid : nat) (k : nat)
  (** BPredUnit::commitBranch *)
  | Commit (tid : nat) (taken : bool) (random : Z).

Definition squash_all (l : list (Z * option BranchInfo)) : result unit :=
  for_each l (λ b _, _ ← squash b.2; Ok tt) tt.

(** The oldest branch, and the younger ones. *)
Definition oldest {A} (l : list A) : result (A * list A) :=
  a ← deref (last l); Ok (a, take (length l - 1) l).

Definition step (e : Event) (st : System) : result (list Prediction * System) :=
  let s := base st in
  let put tid s fl := mkSystem s (<[tid := fl]> (flights st)) in
  match e with
  | Predict tid pc uncond taken =>
      fl ← deref (flights st !! tid);
      '(h, s) ← (if uncond then Ok (None, s) else '(_, h, s) ← lookup tid pc s; Ok (h, s));
      '(h, s) ← updateHistories tid pc uncond taken h s;
      bi ← deref h;
      Ok (if uncond then [] else [prediction bi], put tid s ((pc, h) :: fl))
  | Correct tid k taken =>
      fl ← deref (flights st !! tid);
      _ ← squash_all (take k fl);
      b ← deref (fl !! k);
      '(h, s) ← update tid b.1 taken b.2 true 0 s;
      Ok ([], put tid s ((b.1, h) :: drop (S k) fl))
  | Squash tid k =>
      fl ← deref (flights st !! tid);
      _ ← squash_all (take k fl);
      Ok ([], put tid s (drop k fl))
  | Commit tid taken random =>
      fl ← deref (flights st !! tid);
      '(b, fl) ← oldest fl;
      '(_, s) ← update tid b.1 taken b.2 false random s;
      Ok ([], put tid s fl)
  end.

Definition System_new (s : TAGEBase) : System := mkSystem s (replicate (numThreads pr) []).

(** The predictions of a sequence of events, and the last state. *)
Fixpoint run (es : list Event) (st : System) : result (list Prediction * System) :=
  match es with
  | [] => Ok ([], st)
  | e :: es => '(o, st) ← step e st; '(os, st) ← run es st; Ok (o ++ os, st)
  end.

End Predictor.
End Tage.

Module TageSpec.
Import TageBase Tage.

(** A branch of the path that the histories are of, the youngest first. *)
Record Branch := mkBranch { b_pc : Z; b_taken : bool }.
Implicit Types (l : list Branch).

(** The [i]th outcome, as a bit; there were none before the first. *)
Definition outcome_at l (i : nat) : Z := from_option (λ b, Z.b2z (b_taken b)) 0 (l !! i).

(** The last [len] outcomes, xored together in pieces of [width] bits. *)
Fixpoint folded (width : Z) l (len : nat) : Z :=
  match len with
  | O => 0
  | S n => folded width l n .^ (outcome_at l n .<< (Z.of_nat n mod width))
  end.

Section Spec.
Context (pr : TAGEParams) (histLengths : list Z).

(** One bit of the address of each branch. *)
Fixpoint path_value l : Z :=
  match l with
  | [] => 0
  | b :: l => 2 * path_value l + ((b_pc b .>> instShiftAmt pr) .& 1)
  end.

(** The index and the tag of a branch after the path [l] in the table [bank]. *)
Definition index_of (pc : Z) l (bank : Z) : result Z :=
  len ← load_at histLengths bank;
  log ← load_at (logTagTableSizes pr) bank;
  f ← F pr (wrap (pathHistBits pr) (path_value l)) (Z.min (pathHistBits pr) len) bank;
  let shiftedPc := u32 (pc .>> instShiftAmt pr) in
  Ok (wrap log (shiftedPc .^ (shiftedPc .>> (Z.abs (log - bank) + 1)) .^
                folded log l (Z.to_nat len) .^ f)).

Definition tag_of (pc : Z) l (bank : Z) : result Z :=
  len ← load_at histLengths bank;
  w ← load_at (tagTableTagWidths pr) bank;
  Ok (wrap w ((pc .>> instShiftAmt pr) .^ folded w l (Z.to_nat len) .^
              (2 * folded (w - 1) l (Z.to_nat len)))).

(** An array over the banks, the first of which has no entry. *)
Definition per_bank (f : Z → result Z) : result (list (option Z)) :=
  a ← for_each (banks pr) (λ i a, x ← f i; Ok (a ++ [Some x])) [];
  Ok (None :: a).

(** The record of a branch without its place in the histories. *)
Definition spec_predict (pc : Z) l (t : Tables) : result BranchInfo :=
  ti ← per_bank (index_of pc l);
  tt ← per_bank (tag_of pc l);
  p ← predict_banks pr ti tt pc t;
  Ok (mkBranchInfo 0 0 p true pc ti tt [] [] []).

(** A branch in flight: its address, the path before it, and, if it is conditional, what was
    predicted. *)
Record Flight := mkFlight { f_pc : Z; f_before : list Branch; f_info : option BranchInfo }.
Record Thread := mkPath { path : list Branch; flight : list Flight }.
Record Spec := mkSpec { spec_tables : Tables; threads : list Thread }.

Definition spec_train (o : option BranchInfo) (taken : bool) (random : Z) (t : Tables) : result Tables :=
  match o with
  | Some bi => condBranchUpdate pr taken bi (random .& 3) (tagePred (prediction bi)) false t
  | None => Ok t
  end.

Definition spec_step (e : Event) (sp : Spec) : result (list Prediction * Spec) :=
  let t := spec_tables sp in
  let put tid t th := mkSpec t (<[tid := th]> (threads sp)) in
  let speculative := speculativeHistUpdate pr in
  match e with
  | Predict tid pc uncond taken =>
      th ← deref (threads sp !! tid);
      o ← (if uncond then Ok None else bi ← spec_predict pc (path th) t; Ok (Some bi));
      let path' := if speculative then mkBranch pc taken :: path th else path th in
      Ok (from_option (λ bi, [prediction bi]) [] o,
          put tid t (mkPath path' (mkFlight pc (path th) o :: flight th)))
  | Correct tid k taken =>
      th ← deref (threads sp !! tid);
      f ← deref (flight th !! k);
      let path' := if speculative then mkBranch (f_pc f) taken :: f_before f else path th in
      Ok ([], put tid t (mkPath path' (drop k (flight th))))
  | Squash tid k =>
      th ← deref (threads sp !! tid);
      Ok ([], put tid t (mkPath (path th) (drop k (flight th))))
  | Commit tid taken random =>
      th ← deref (threads sp !! tid);
      '(f, fl) ← oldest (flight th);
      t ← spec_train (f_info f) taken random t;
      let path' := if speculative then path th else mkBranch (f_pc f) taken :: path th in
      Ok ([], put tid t (mkPath path' fl))
  end.

Fixpoint spec_run (es : list Event) (sp : Spec) : result (list Prediction * Spec) :=
  match es with
  | [] => Ok ([], sp)
  | e :: es => '(o, sp) ← spec_step e sp; '(os, sp) ← spec_run es sp; Ok (o ++ os, sp)
  end.

Definition Spec_new (t : Tables) : Spec := mkSpec t (replicate (numThreads pr) (mkPath [] [])).

(** ** The events that the unit makes

    The branches that are named are in flight, and no more than [window] outcomes are recorded
    after those of a branch in flight. *)
Definition enabled (window : Z) (sp : Spec) (e : Event) : bool :=
  let of_thread tid (ok : Thread → bool) := from_option ok false (threads sp !! tid) in
  match e with
  | Predict tid _ _ _ => of_thread tid (λ th,
      negb (speculativeHistUpdate pr) ||
      forallb (λ f, Z.of_nat (length (path th)) - Z.of_nat (length (f_before f)) <=? window) (flight th))
  | Correct tid k _ => of_thread tid (λ th, bool_decide (k < length (flight th))%nat)
  | Squash tid k => of_thread tid (λ th, bool_decide (k <= length (flight th))%nat)
  | Commit tid _ _ => of_thread tid (λ th, bool_decide (0 < length (flight th))%nat)
  end.

Fixpoint legal (window : Z) (es : list Event) (sp : Spec) : bool :=
  match es with
  | [] => true
  | e :: es => enabled window sp e &&
      match spec_step e sp with Ok (_, sp) => legal window es sp | Err _ => true end
  end.

End Spec.
End TageSpec.
