(* ===== verification/TageHistory.v ===== *)
(** * cpu/pred/tage_base: folding a history one outcome at a time

    One step of [FoldedHistory::update] takes the folded history of a path to that of the
    path with one more outcome, and the circular buffer shows the last outcomes through its
    pointer, also when it rolls over. *)

From Stdlib Require Import ZArith Lia Btauto.
From stdpp Require Import base numbers option list.
From S2P Require Import Prelude TageBase Tage.

Module TageHistory.
Import TageBase Tage TageSpec.
Implicit Types (l : list Branch).

(** ** Loops *)

Lemma for_seqZ {A} (P : Z → A → Prop) (f : Z → A → result A) n : ∀ m s, P m s → 0 <= n →
  (∀ i s, m <= i < m + n → P i s → ∃ s', f i s = Ok s' ∧ P (i + 1) s') →
  ∃ s', for_each (seqZ m n) f s = Ok s' ∧ P (m + n) s'.
Proof.
  intros m s Hs Hn Hf. revert m s Hs Hf. revert n Hn. apply (natlike_ind (λ n, ∀ m s, P m s →
    (∀ i s, m <= i < m + n → P i s → ∃ s', f i s = Ok s' ∧ P (i + 1) s') →
    ∃ s', for_each (seqZ m n) f s = Ok s' ∧ P (m + n) s')).
  - intros m s Hs _. exists s. split; [done|]. by rewrite Z.add_0_r.
  - intros n Hn IH m s Hs Hf. rewrite seqZ_cons, Z.pred_succ by lia. simpl.
    destruct (Hf m s) as (s1 & -> & Hs1); [lia|done|]. simpl.
    destruct (IH (Z.succ m) s1) as (s2 & -> & Hs2); [done|intros; apply Hf; [lia|done]|].
    exists s2. split; [done|]. by replace (m + Z.succ n) with (Z.succ m + n) by lia.
Qed.

Lemma for_banks {A} pr (P : Z → A → Prop) (f : Z → A → result A) s : 0 <= nHistoryTables pr → P 1 s →
  (∀ i s, 1 <= i <= nHistoryTables pr → P i s → ∃ s', f i s = Ok s' ∧ P (i + 1) s') →
  ∃ s', for_each (banks pr) f s = Ok s' ∧ P (nHistoryTables pr + 1) s'.
Proof.
  intros Hn Hs Hf. destruct (for_seqZ P f (nHistoryTables pr) 1 s) as (s' & H & Hs'); [done|done| |].
  - intros i s1 Hi. apply Hf. lia.
  - exists s'. split; [done|]. by rewrite Z.add_comm.
Qed.

(** ** Folding *)

Lemma outcome_bit l i : fits 1 (outcome_at l i).
Proof. unfold outcome_at, fits. destruct (l !! i) as [[pc []]|]; simpl; lia. Qed.

Lemma fits_le w w' z : w <= w' → fits w z → fits w' z.
Proof. intros Hw [H1 H2]. split; [done|]. eapply Z.lt_le_trans; [done|]. by apply Z.pow_le_mono_r. Qed.

Lemma fits_shiftl b n w : fits 1 b → 0 <= n < w → fits w (b .<< n).
Proof.
  intros [H1 H2] Hn. rewrite Z.shiftl_mul_pow2 by lia. pose proof (pow2_pos n ltac:(lia)).
  split; [nia|]. assert (2 ^ n < 2 ^ w) by (apply Z.pow_lt_mono_r; lia). simpl in H2. nia.
Qed.

Section Fold.
Context (C : Z) (HC : 1 <= C).

Lemma folded_fits l n : fits C (folded C l n).
Proof.
  induction n as [|n IH]; simpl; [split; [done|by apply pow2_pos; lia]|].
  apply fits_lxor; [lia|done|]. apply fits_shiftl; [apply outcome_bit|]. apply Z.mod_pos_bound. lia.
Qed.

(** One place to the left in a word of [C] bits, the last bit to the front. *)
Definition rotate (x : Z) : Z := wrap C (x .<< 1) .^ (x .>> (C - 1)).

Lemma rotate_xor x y : rotate (x .^ y) = rotate x .^ rotate y.
Proof. unfold rotate. bitwise. Qed.

Lemma testbit_bit b i : fits 1 b → 1 <= i → Z.testbit b i = false.
Proof. intros. by eapply testbit_fits. Qed.

Lemma testbit_shl b n i : 0 <= n → Z.testbit (b .<< n) i = Z.testbit b (i - n).
Proof.
  intros Hn. destruct (Z.lt_ge_cases i 0); [by rewrite !Z.testbit_neg_r by lia|by rewrite Z.shiftl_spec].
Qed.

Lemma rotate_bit b n : fits 1 b → 0 <= n → rotate (b .<< (n mod C)) = b .<< ((n + 1) mod C).
Proof.
  intros Hb Hn. pose proof (Z.mod_pos_bound n C ltac:(lia)) as Hm. unfold rotate.
  destruct (Z.eq_dec (n mod C) (C - 1)) as [He|He].
  - replace ((n + 1) mod C) with 0; [rewrite He|].
    2: { symmetry. rewrite <-Zplus_mod_idemp_l, He. replace (C - 1 + 1) with (1 * C) by lia. apply Z.mod_mul. lia. }
    apply Z.bits_inj'. intros i Hi. autorewrite with testbit. rewrite !testbit_shl by lia.
    replace (i + (C - 1) - (C - 1)) with i by lia. rewrite Z.sub_0_r.
    destruct (Z.ltb_spec i C); simpl; [by rewrite (Z.testbit_neg_r b (i - 1 - (C - 1))) by lia|done].
  - replace ((n + 1) mod C) with (n mod C + 1).
    2: { rewrite <-Zplus_mod_idemp_l. by rewrite (Z.mod_small (n mod C + 1)) by lia. }
    apply Z.bits_inj'. intros i Hi. autorewrite with testbit. rewrite !testbit_shl by lia.
    replace (i - 1 - n mod C) with (i - (n mod C + 1)) by lia.
    rewrite (testbit_bit b (i + (C - 1) - n mod C)), xorb_false_r by (done || lia).
    destruct (Z.ltb_spec i C); simpl; [done|]. rewrite (testbit_bit b) by (done || lia). done.
Qed.

Lemma outcome_cons b l n : outcome_at (b :: l) (S n) = outcome_at l n.
Proof. done. Qed.

Lemma folded_cons b l n : folded C (b :: l) (S n) = Z.b2z (b_taken b) .^ rotate (folded C l n).
Proof.
  induction n as [|n IH].
  - simpl. rewrite Z.mod_0_l by lia. rewrite Z.shiftl_0_r. unfold rotate. rewrite Z.shiftl_0_l, Z.shiftr_0_l.
    unfold wrap. rewrite Z.mod_0_l by (pose proof (pow2_pos C); lia). by rewrite Z.lxor_0_r.
  - change (folded C (b :: l) (S (S n))) with (folded C (b :: l) (S n) .^ (outcome_at l n .<< (Z.of_nat (S n) mod C))).
    rewrite IH. change (folded C l (S n)) with (folded C l n .^ (outcome_at l n .<< (Z.of_nat n mod C))).
    rewrite rotate_xor, rotate_bit by (apply outcome_bit || lia).
    replace (Z.of_nat n + 1) with (Z.of_nat (S n)) by lia. by rewrite Z.lxor_assoc.
Qed.

(** The step of the code on a word of [C] bits. *)
Lemma fold_step x b o out : fits C x → fits 1 b → fits 1 o → 0 <= out < C →
  (((x .<< 1) .^ b) .^ (o .<< out) .^ ((((x .<< 1) .^ b) .^ (o .<< out)) .>> C)) .& Z.ones C =
  b .^ rotate x .^ (o .<< out).
Proof.
  intros Hx Hb Ho Hout. unfold rotate. apply Z.bits_inj'. intros i Hi. autorewrite with testbit. rewrite ?testbit_shl by lia.
  destruct (Z.ltb_spec i C); simpl.
  - replace (i + C - 1) with (i + (C - 1)) by lia.
    rewrite (testbit_bit b (i + C)), (testbit_bit o (i + C - out)) by (done || lia). btauto.
  - rewrite (testbit_fits C x (i + (C - 1))), (testbit_bit b), (testbit_bit o) by (done || lia). btauto.
Qed.

Lemma folded_step b l n :
  let x := ((folded C l (S n) .<< 1) .^ Z.b2z (b_taken b)) .^
           (outcome_at (b :: l) (S n) .<< (Z.of_nat (S n) mod C)) in
  (x .^ (x .>> C)) .& Z.ones C = folded C (b :: l) (S n).
Proof.
  intros x. subst x. rewrite fold_step, folded_cons; [|apply folded_fits|apply (outcome_bit (b :: l) 0)|apply outcome_bit|apply Z.mod_pos_bound; lia].
  rewrite outcome_cons. change (folded C l (S n)) with (folded C l n .^ (outcome_at l n .<< (Z.of_nat n mod C))).
  rewrite rotate_xor, rotate_bit by (apply outcome_bit || lia). replace (Z.of_nat n + 1) with (Z.of_nat (S n)) by lia.
  bitwise.
Qed.

End Fold.

Lemma low_mask_ones n : 0 <= n < 64 → low_mask n = Z.ones n.
Proof.
  intros Hn. unfold low_mask. rewrite Z.ones_equiv, Z.shiftl_1_l. apply wrap_small.
  pose proof (pow2_pos n ltac:(lia)). assert (2 ^ n < 2 ^ 64) by (apply Z.pow_lt_mono_r; lia).
  unfold fits. lia.
Qed.

Lemma shift_ok_true w n : 0 <= n < w → shift_ok w n = Ok tt.
Proof. intros Hn. unfold shift_ok. replace (0 <=? n) with true by lia. by replace (n <? w) with true by lia. Qed.

(** A folded history is that of the path. *)
Definition shows (C L : Z) l (f : FoldedHistory) : Prop :=
  f = mkFolded (folded C l (Z.to_nat L)) C L (L mod C).

Lemma update_shows buf h C L b l f : 1 <= C <= 31 → 1 <= L → shows C L l f →
  load_at buf h = Ok (outcome_at (b :: l) 0) → load_at buf (h + L) = Ok (outcome_at (b :: l) (Z.to_nat L)) →
  ∃ f', FoldedHistory_update buf h f = Ok f' ∧ shows C L (b :: l) f'.
Proof.
  intros HC HL -> H0 H1. unfold FoldedHistory_update. simpl. rewrite H0, H1. simpl.
  pose proof (Z.mod_pos_bound L C ltac:(lia)). rewrite !shift_ok_true by lia. simpl.
  eexists. split; [done|]. unfold shows, set_comp. simpl. f_equal.
  rewrite low_mask_ones by lia.
  pose proof (folded_fits C ltac:(lia) l (Z.to_nat L)) as Hf. pose proof (outcome_bit (b :: l) (Z.to_nat L)) as Ho.
  assert (fits 32 (folded C l (Z.to_nat L) .<< 1)) as Hs.
  { rewrite Z.shiftl_mul_pow2 by lia. destruct Hf as [Hf1 Hf2]. assert (2 ^ C <= 2 ^ 31) by (apply Z.pow_le_mono_r; lia).
    unfold fits. change (2 ^ 32) with (2 ^ 31 * 2). change (2 ^ 1) with 2. lia. }
  rewrite (wrap_small 32 _ Hs), (wrap_small 32 (outcome_at _ _ .<< _)) by (apply fits_shiftl; [done|lia]).
  replace ((folded C l (Z.to_nat L) .<< 1) .| outcome_at (b :: l) 0)
    with ((folded C l (Z.to_nat L) .<< 1) .^ Z.b2z (b_taken b)).
  2: { change (outcome_at (b :: l) 0) with (Z.b2z (b_taken b)). apply Z.lxor_lor.
       apply Z.bits_inj'. intros i Hi. autorewrite with testbit. destruct (Z.eq_dec i 0) as [->|].
       - by rewrite Z.testbit_neg_r.
       - rewrite (testbit_bit (Z.b2z (b_taken b))); [by rewrite andb_false_r| |lia]. apply (outcome_bit (b :: l) 0). }
  replace (Z.to_nat L) with (S (Z.to_nat (L - 1))) by lia.
  replace (L mod C) with (Z.of_nat (S (Z.to_nat (L - 1))) mod C) by (f_equal; lia).
  apply (folded_step C ltac:(lia) b l (Z.to_nat (L - 1))).
Qed.

(** ** The circular buffer *)

Section Ring.
Context (pr : TAGEParams).
#[local] Abbreviation B := (histBufferSize pr).
#[local] Abbreviation M := (maxHist pr).
Context (HM : 0 <= M) (HB : 2 * M < B) (HB31 : B < 2 ^ 31).

(** The outcomes of [l] from the position [p] on, [n] of them. *)
Definition holds (tab : list Z) (p n : Z) l : Prop :=
  ∀ i : nat, Z.of_nat i < n → tab !! (Z.to_nat p + i)%nat = Some (outcome_at l i).

Definition ring_ok (tab : list Z) (pt : Z) l : Prop :=
  Z.of_nat (length tab) = B ∧ 0 <= pt < B - M ∧ holds tab pt (M + 1) l.

Lemma holds_load tab p n l i : holds tab p n l → 0 <= p → 0 <= i < n →
  load_at tab (p + i) = Ok (outcome_at l (Z.to_nat i)).
Proof.
  intros H Hp Hi. unfold load_at. replace (p + i <? 0) with false by lia.
  replace (Z.to_nat (p + i)) with (Z.to_nat p + Z.to_nat i)%nat by lia. rewrite H by lia. done.
Qed.

Lemma holds_le tab p n n' l : n' <= n → holds tab p n l → holds tab p n' l.
Proof. intros Hn H i Hi. apply H. lia. Qed.

Lemma holds_agree tab tab' p n l : holds tab p n l → 0 <= p →
  (∀ j : nat, p <= Z.of_nat j < p + n → tab' !! j = tab !! j) → holds tab' p n l.
Proof. intros H Hp Hj i Hi. rewrite Hj by lia. by apply H. Qed.

(** One more outcome below what is there. *)
Lemma holds_cons tab p n l b : holds tab (p + 1) n l → 0 <= p →
  tab !! Z.to_nat p = Some (Z.b2z (b_taken b)) → holds tab p (n + 1) (b :: l).
Proof.
  intros H Hp H0 [|i] Hi; [by rewrite Nat.add_0_r|].
  replace (Z.to_nat p + S i)%nat with (Z.to_nat (p + 1) + i)%nat by lia. rewrite H by lia. done.
Qed.

Lemma insert_get (tab : list Z) p x : 0 <= p < Z.of_nat (length tab) → <[Z.to_nat p := x]> tab !! Z.to_nat p = Some x.
Proof. intros Hp. apply list_lookup_insert_eq. lia. Qed.

(** The copy of the beginning of the buffer to its end. *)
Lemma roll_over tab l : Z.of_nat (length tab) = B → holds tab 0 (M + 1) l →
  ∃ tab', for_each (seqZ 0 M) (λ i tab, x ← load_at tab i; store_at tab (u32 (B - M + i)) x) tab = Ok tab' ∧
    Z.of_nat (length tab') = B ∧ holds tab' (B - M) M l ∧ ∀ j : nat, Z.of_nat j < B - M → tab' !! j = tab !! j.
Proof.
  intros Hlen Hl.
  destruct (for_seqZ (λ k tab', Z.of_nat (length tab') = B ∧ holds tab' (B - M) k l ∧
    ∀ j : nat, Z.of_nat j < B - M → tab' !! j = tab !! j)
    (λ i tab, x ← load_at tab i; store_at tab (u32 (B - M + i)) x) M 0 tab) as (tab' & He & Hr); [|done| |by exists tab'].
  - split; [done|]. split; [|done]. intros i Hi. lia.
  - intros i t Hi (Ht & Hh & Hlow).
    rewrite wrap_small by (unfold fits; lia).
    assert (load_at t i = Ok (outcome_at l (Z.to_nat i))) as ->.
    { unfold load_at. replace (i <? 0) with false by lia. rewrite Hlow by lia.
      pose proof (Hl (Z.to_nat i) ltac:(lia)) as Hx. simpl in Hx. by rewrite Hx. }
    simpl. rewrite store_at_spec by lia. eexists. split; [done|]. rewrite length_insert. split; [done|].
    split; intros j Hj.
    + destruct (Z.eq_dec (Z.of_nat j) i) as [He|].
      * replace (Z.to_nat (B - M) + j)%nat with (Z.to_nat (B - M + i)) by lia.
        rewrite insert_get by lia. f_equal. f_equal. lia.
      * rewrite list_lookup_insert_ne by lia. apply Hh. lia.
    + rewrite list_lookup_insert_ne by lia. by apply Hlow.
Qed.

(** Where the pointer goes next. *)
Definition next_pt (pt : Z) : Z := if pt =? 0 then B - M - 1 else pt - 1.

Lemma updateGHist_ring tab pt l b : ring_ok tab pt l →
  ∃ tab', updateGHist pr pt (b_taken b) tab pt = Ok (next_pt pt, tab', next_pt pt) ∧
    ring_ok tab' (next_pt pt) (b :: l) ∧
    ∀ j : nat, pt ≠ 0 ∧ Z.of_nat j ≠ next_pt pt ∨ Z.of_nat j < next_pt pt → tab' !! j = tab !! j.
Proof.
  intros (Hlen & Hpt & Hh). unfold updateGHist, next_pt. destruct (Z.eqb_spec pt 0) as [->|Hne].
  - destruct (roll_over tab l Hlen Hh) as (t & -> & Ht & Hth & Hlow). simpl.
    replace (s32 (u32 (B - M))) with (B - M).
    2: { rewrite wrap_small by (unfold fits; lia). unfold swrap. rewrite Z.mod_small; simpl; lia. }
    rewrite store_at_spec by lia. simpl. eexists. split; [done|].
    assert (∀ j, j ≠ Z.to_nat (B - M - 1) → <[Z.to_nat (B - M - 1):=Z.b2z (b_taken b)]> t !! j = t !! j) as Hother.
    { intros j Hj. by rewrite list_lookup_insert_ne. }
    split.
    + split; [by rewrite length_insert|]. split; [lia|]. apply holds_cons; [|lia|apply insert_get; lia].
      replace (B - M - 1 + 1) with (B - M) by lia. eapply holds_agree; [done|lia|].
      intros j Hj. apply Hother. lia.
    + intros j Hj. rewrite Hother by lia. apply Hlow. lia.
  - simpl. rewrite store_at_spec by lia. simpl. eexists. split; [done|]. split.
    + split; [by rewrite length_insert|]. split; [lia|]. apply holds_cons; [|lia|apply insert_get; lia].
      replace (pt - 1 + 1) with pt by lia. eapply holds_agree; [eapply holds_le; [|done]; lia|lia|].
      intros j Hj. rewrite list_lookup_insert_ne by lia. done.
    + intros j Hj. rewrite list_lookup_insert_ne by lia. done.
Qed.

(** The place of a branch with [d] outcomes after its own: the outcomes before it are still
    there. *)
Definition placed (tab : list Z) (pt p d : Z) (before : list Branch) : Prop :=
  0 <= p < B - M ∧ 0 <= d ∧ d + 2 * M < B ∧ (p = pt + d ∨ p + (B - M) = pt + d) ∧ holds tab (p + 1) M before.

Lemma placed_new tab pt l b : ring_ok tab pt (b :: l) → placed tab pt pt 0 l.
Proof.
  intros (Hlen & Hpt & Hh). split; [done|]. split; [done|]. split; [lia|]. split; [lia|].
  intros i Hi. replace (Z.to_nat (pt + 1) + i)%nat with (Z.to_nat pt + S i)%nat by lia. by rewrite Hh by lia.
Qed.

Lemma placed_push tab tab' pt p d l : placed tab pt p d l → 0 <= pt < B - M → d + 1 + 2 * M < B →
  (∀ j : nat, pt ≠ 0 ∧ Z.of_nat j ≠ next_pt pt ∨ Z.of_nat j < next_pt pt → tab' !! j = tab !! j) →
  placed tab' (next_pt pt) p (d + 1) l.
Proof.
  intros (Hp & Hd & Hw & Hera & Hh) Hpt Hd' Hj'. unfold next_pt in *.
  destruct (Z.eqb_spec pt 0) as [->|Hne].
  - split; [done|]. split; [lia|]. split; [lia|]. split; [lia|].
    eapply holds_agree; [done|lia|]. intros j Hj. apply Hj'; lia.
  - split; [done|]. split; [lia|]. split; [lia|]. split; [lia|].
    eapply holds_agree; [done|lia|]. intros j Hj. apply Hj'; lia.
Qed.

(** Going back to the place of a branch, with another outcome there. *)
Lemma ring_back tab pt p d l b : Z.of_nat (length tab) = B → placed tab pt p d l →
  ring_ok (<[Z.to_nat p := Z.b2z (b_taken b)]> tab) p (b :: l).
Proof.
  intros Hlen (Hp & Hd & Hw & Hera & Hh). split; [by rewrite length_insert|]. split; [done|].
  apply holds_cons; [|lia|apply insert_get; lia]. eapply holds_agree; [done|lia|].
  intros j Hj. rewrite list_lookup_insert_ne by lia. done.
Qed.

Lemma placed_back tab pt p d l p' d' l' x : 0 <= pt < B - M → placed tab pt p d l → placed tab pt p' d' l' → d < d' →
  placed (<[Z.to_nat p := x]> tab) p p' (d' - d) l'.
Proof.
  intros Hpt (Hp & Hd & Hw & Hera & Hh) (Hp' & Hd' & Hw' & Hera' & Hh') Hlt.
  split; [done|]. split; [lia|]. split; [lia|]. split; [lia|].
  eapply holds_agree; [done|lia|]. intros j Hj. rewrite list_lookup_insert_ne by lia. done.
Qed.

End Ring.

End TageHistory.

(** * cpu/pred/tage_base: the histories of a thread are those of its path

    What a configuration has to satisfy, what the histories of a thread show and what a
    branch saved of them, and that recording an outcome and going back to a branch keep
    it.  The indices and tags that the code calculates are the hashes of the path. *)

Module TageThread.
Import TageBase Tage TageSpec TageHistory.
Implicit Types (l : list Branch) (th : ThreadHistory) (bi : BranchInfo).

(** The parameter of a bank. *)
Definition at_bank (a : list Z) (i : Z) : Z := default 0 (a !! Z.to_nat i).

Record config_ok (pr : TAGEParams) (histLengths : list Z) : Prop := {
  c_banks : 1 <= nHistoryTables pr;
  c_lengths : Z.of_nat (length histLengths) = nHistoryTables pr + 1;
  c_logs : Z.of_nat (length (logTagTableSizes pr)) = nHistoryTables pr + 1;
  c_widths : Z.of_nat (length (tagTableTagWidths pr)) = nHistoryTables pr + 1;
  c_length i : 1 <= i <= nHistoryTables pr → 1 <= at_bank histLengths i <= maxHist pr;
  c_log i : 1 <= i <= nHistoryTables pr → i <= at_bank (logTagTableSizes pr) i <= 30;
  c_width i : 1 <= i <= nHistoryTables pr → 2 <= at_bank (tagTableTagWidths pr) i <= 16;
  c_log0 : 0 <= at_bank (logTagTableSizes pr) 0 <= 30;
  c_ratio : 0 <= logRatioBiModalHystEntries pr <= at_bank (logTagTableSizes pr) 0;
  c_ctr : 1 <= tagTableCounterBits pr <= 8;
  c_u : 1 <= tagTableUBits pr <= 2;
  c_useAlt : 1 <= numUseAltOnNa pr ∧ 1 <= useAltOnNaBits pr <= 8;
  c_period : 1 <= logUResetPeriod pr < 64;
  c_path : 0 <= pathHistBits pr <= 31;
  c_noSkip : noSkip_param pr = [] ∨ Z.of_nat (length (noSkip_param pr)) = nHistoryTables pr + 1;
  c_buffer : 2 * maxHist pr < histBufferSize pr < 2 ^ 31
}.

Lemma load_bank (a : list Z) i n : Z.of_nat (length a) = n + 1 → 0 <= i <= n → load_at a i = Ok (at_bank a i).
Proof.
  intros Hl Hi. destruct (load_at_spec a i) as (x & -> & Hx); [lia|]. unfold at_bank. by rewrite Hx.
Qed.

Lemma wrap_swrap k w z : 0 <= k <= w → 1 <= w → wrap k (swrap w z) = wrap k z.
Proof.
  intros Hk Hw. unfold swrap. rewrite Z.mod_eq by (pose proof (pow2_pos w); lia).
  set (q := (z + 2 ^ (w - 1)) / 2 ^ w). unfold wrap.
  replace (z + 2 ^ (w - 1) - 2 ^ w * q - 2 ^ (w - 1)) with (z + (- q * 2 ^ (w - k)) * 2 ^ k).
  - apply Z.mod_add. pose proof (pow2_pos k). lia.
  - replace (2 ^ w) with (2 ^ (w - k) * 2 ^ k); [ring|]. rewrite <-Z.pow_add_r by lia. f_equal. lia.
Qed.

Lemma swrap_small z : 0 <= z < 2 ^ 31 → s32 z = z.
Proof. intros Hz. unfold swrap. rewrite Z.mod_small; simpl in *; lia. Qed.

(** [x & ((1ULL << k) - 1)] of an [int], stored in an [int]. *)
Lemma masked_int k z : 0 <= k <= 31 → s32 (s32 z .& low_mask k) = wrap k z.
Proof.
  intros Hk. rewrite low_mask_ones, <-wrap_land_ones, wrap_swrap by lia. apply swrap_small.
  pose proof (wrap_fits k z ltac:(lia)) as [H1 H2]. split; [done|].
  assert (2 ^ k <= 2 ^ 31) by (apply Z.pow_le_mono_r; lia). lia.
Qed.

Section Thread.
Context (pr : TAGEParams) (histLengths : list Z) (Hc : config_ok pr histLengths).
#[local] Abbreviation n := (nHistoryTables pr).
#[local] Abbreviation len := (at_bank histLengths).
#[local] Abbreviation log := (at_bank (logTagTableSizes pr)).
#[local] Abbreviation width := (at_bank (tagTableTagWidths pr)).

(** ** What the histories show *)

(** The folded histories [fs], of [C i] bits for the bank [i], show the path [p i]. *)
Definition histories (C : Z → Z) (p : Z → list Branch) (fs : list FoldedHistory) : Prop :=
  Z.of_nat (length fs) = n + 1 ∧
  ∀ i, 1 <= i <= n → ∃ f, fs !! Z.to_nat i = Some f ∧ shows (C i) (len i) (p i) f.

Definition folded_ok (p : Z → list Branch) th : Prop :=
  histories log p (computeIndices th) ∧ histories width p (computeTags0 th) ∧
  histories (λ i, width i - 1) p (computeTags1 th).

Definition thread_ok th l : Prop :=
  gHist th = ptGhist th ∧ ring_ok pr (globalHistory th) (ptGhist th) l ∧
  pathHist th = wrap (pathHistBits pr) (path_value pr l) ∧ folded_ok (λ _, l) th.

(** In the banks below [i] the loop has been. *)
Definition upto (i : Z) l l' : Z → list Branch := λ j, if j <? i then l else l'.

Lemma histories_ext C p q fs : (∀ i, 1 <= i <= n → p i = q i) → histories C p fs → histories C q fs.
Proof. intros He (Hl & Hf). split; [done|]. intros i Hi. rewrite <-He by done. by apply Hf. Qed.

Lemma folded_ext p q th : (∀ i, 1 <= i <= n → p i = q i) → folded_ok p th → folded_ok q th.
Proof. intros He (H1 & H2 & H3). split_and!; by eapply histories_ext. Qed.

Lemma on_folded_ok C i l l' g fs : 1 <= i <= n → histories C (upto i l l') fs →
  (∀ f, shows (C i) (len i) l' f → ∃ f', g f = Ok f' ∧ shows (C i) (len i) l f') →
  ∃ fs', on_folded g fs i = Ok fs' ∧ histories C (upto (i + 1) l l') fs'.
Proof.
  intros Hi (Hl & Hf) Hg. destruct (Hf i Hi) as (f & Hfi & Hs). unfold upto in Hs.
  replace (i <? i) with false in Hs by lia. destruct (Hg f Hs) as (f' & Hf' & Hs').
  unfold on_folded, load_at. replace (i <? 0) with false by lia. rewrite Hfi. simpl. rewrite Hf'. simpl.
  rewrite store_at_spec by lia. eexists. split; [done|]. split; [by rewrite length_insert|].
  intros j Hj. destruct (Z.eq_dec j i) as [->|Hne].
  - exists f'. rewrite list_lookup_insert_eq by lia. split; [done|]. unfold upto.
    by replace (i <? i + 1) with true by lia.
  - rewrite list_lookup_insert_ne by lia. destruct (Hf j Hj) as (x & Hx & Hsx). exists x. split; [done|].
    unfold upto in *. replace (j <? i + 1) with (j <? i) by lia. done.
Qed.

(** ** Recording an outcome *)

(** Everything but the folded histories. *)
Definition same_ring th th' : Prop :=
  globalHistory th' = globalHistory th ∧ gHist th' = gHist th ∧ ptGhist th' = ptGhist th ∧
  pathHist th' = pathHist th.

Lemma ring_load tab pt l i : ring_ok pr tab pt l → 0 <= i <= maxHist pr →
  load_at tab (pt + i) = Ok (outcome_at l (Z.to_nat i)).
Proof. intros (Hl & Hpt & Hh) Hi. eapply holds_load; [done|lia|lia]. Qed.

Lemma fold_update_ok C i b l tab pt f : 1 <= i <= n → 1 <= C i <= 31 → ring_ok pr tab pt (b :: l) →
  shows (C i) (len i) l f → ∃ f', FoldedHistory_update tab pt f = Ok f' ∧ shows (C i) (len i) (b :: l) f'.
Proof.
  intros Hi HC Hr Hs. pose proof (c_length _ _ Hc i Hi). eapply update_shows; [done|lia|done| |].
  - rewrite <-(Z.add_0_r pt). by rewrite (ring_load _ _ _ 0 Hr) by lia.
  - by rewrite (ring_load _ _ _ (len i) Hr) by lia.
Qed.

Lemma widths i : 1 <= i <= n → 1 <= log i <= 31 ∧ 1 <= width i <= 31 ∧ 1 <= width i - 1 <= 31.
Proof. intros Hi. pose proof (c_log _ _ Hc i Hi). pose proof (c_width _ _ Hc i Hi). lia. Qed.

Lemma update_folded_ok i b l th : 1 <= i <= n → ring_ok pr (globalHistory th) (gHist th) (b :: l) →
  folded_ok (upto i (b :: l) l) th →
  ∃ th', update_folded i th = Ok th' ∧ folded_ok (upto (i + 1) (b :: l) l) th' ∧ same_ring th th'.
Proof.
  intros Hi Hr (H1 & H2 & H3). pose proof (widths i Hi) as (W1 & W2 & W3). unfold update_folded.
  destruct (on_folded_ok log i (b :: l) l (FoldedHistory_update (globalHistory th) (gHist th)) _ Hi H1) as (a & -> & Ha).
  { intros f. by eapply fold_update_ok. }
  simpl. destruct (on_folded_ok width i (b :: l) l (FoldedHistory_update (globalHistory th) (gHist th)) _ Hi H2) as (c & -> & Hcc).
  { intros f. by eapply fold_update_ok. }
  simpl. destruct (on_folded_ok _ i (b :: l) l (FoldedHistory_update (globalHistory th) (gHist th)) _ Hi H3) as (d & -> & Hd).
  { intros f. by eapply (fold_update_ok (λ i, width i - 1)). }
  simpl. eexists. split; [done|]. split; [by split_and!|]. by split_and!.
Qed.

(** What a branch saved: the folded histories of the path before it, in the banks below [k]. *)
Definition saved_in (C : Z → Z) (k : Z) l (saved : list (option Z)) : Prop :=
  Z.of_nat (length saved) = n + 1 ∧
  ∀ i, 1 <= i < k → arr_get saved i = Ok (folded (C i) l (Z.to_nat (len i))).
Definition saved_ok (k : Z) bi l : Prop :=
  saved_in log k l (ci bi) ∧ saved_in width k l (ct0 bi) ∧ saved_in (λ i, width i - 1) k l (ct1 bi).

Lemma arr_get_set a i x a' : arr_set a i x = Ok a' → ∀ j, 0 <= j →
  arr_get a' j = if j =? i then Ok x else arr_get a j.
Proof.
  unfold arr_set, store_at. intros H j Hj. destruct ((0 <=? i) && (i <? _)) eqn:He; [|done]. injection H as <-.
  apply andb_true_iff in He as [H1 H2]. unfold arr_get, load_at. replace (j <? 0) with false by lia.
  destruct (Z.eqb_spec j i) as [->|].
  - by rewrite list_lookup_insert_eq by lia.
  - by rewrite list_lookup_insert_ne by lia.
Qed.

Lemma save_one C i l fs saved p : 1 <= i <= n → 1 <= C i <= 31 → histories C p fs → p i = l → saved_in C i l saved →
  ∃ saved', (f ← load_at fs i; arr_set saved i (s32 (comp f))) = Ok saved' ∧ saved_in C (i + 1) l saved'.
Proof.
  intros Hi HC (Hl & Hf) Hp (Hls & Hs). destruct (Hf i Hi) as (f & Hfi & ->). rewrite Hp in *.
  unfold load_at. replace (i <? 0) with false by lia. rewrite Hfi. simpl.
  rewrite swrap_small.
  2: { pose proof (folded_fits (C i) ltac:(lia) l (Z.to_nat (len i))) as [H1 H2]. split; [done|].
       assert (2 ^ C i <= 2 ^ 31) by (apply Z.pow_le_mono_r; lia). lia. }
  destruct (arr_set saved i (folded (C i) l (Z.to_nat (len i)))) as [saved'|] eqn:E.
  2: { unfold arr_set in E. rewrite store_at_spec in E by lia. done. }
  exists saved'. split; [done|]. split.
  - unfold arr_set in E. rewrite store_at_spec in E by lia. injection E as <-. by rewrite length_insert.
  - intros j Hj. rewrite (arr_get_set _ _ _ _ E) by lia. destruct (Z.eqb_spec j i) as [->|]; [done|]. apply Hs. lia.
Qed.

Lemma save_folded_ok i th bi p l : 1 <= i <= n → folded_ok p th → p i = l → saved_ok i bi l →
  ∃ a b c, save_folded i th bi = Ok (set_bi_folded a b c bi) ∧ saved_ok (i + 1) (set_bi_folded a b c bi) l.
Proof.
  intros Hi (H1 & H2 & H3) Hp (S1 & S2 & S3). pose proof (widths i Hi) as (W1 & W2 & W3). unfold save_folded.
  destruct (save_one log i l _ _ p Hi W1 H1 Hp S1) as (a & -> & Ha). simpl.
  destruct (save_one width i l _ _ p Hi W2 H2 Hp S2) as (b & -> & Hb). simpl.
  destruct (save_one (λ i, width i - 1) i l _ _ p Hi W3 H3 Hp S3) as (c & -> & Hd). simpl.
  by exists a, b, c.
Qed.

(** ** Going back to a branch *)

Lemma restore_one C i b l l' tab pt f saved : 1 <= i <= n → 1 <= C i <= 31 → ring_ok pr tab pt (b :: l) →
  saved_in C (n + 1) l saved → shows (C i) (len i) l' f →
  ∃ f', (c ← arr_get saved i; FoldedHistory_update tab pt (set_comp (u32 c) f)) = Ok f' ∧
    shows (C i) (len i) (b :: l) f'.
Proof.
  intros Hi HC Hr (_ & Hs) ->. rewrite Hs by lia. simpl. eapply fold_update_ok; [done|done|done|].
  unfold shows, set_comp. simpl. f_equal. apply wrap_small. eapply fits_le; [|by apply folded_fits; lia]. lia.
Qed.

Lemma restore_folded_ok bi i b l l' th : 1 <= i <= n → ring_ok pr (globalHistory th) (gHist th) (b :: l) →
  saved_ok (n + 1) bi l → folded_ok (upto i (b :: l) l') th →
  ∃ th', restore_folded bi i th = Ok th' ∧ folded_ok (upto (i + 1) (b :: l) l') th' ∧ same_ring th th'.
Proof.
  intros Hi Hr (S1 & S2 & S3) (H1 & H2 & H3). pose proof (widths i Hi) as (W1 & W2 & W3). unfold restore_folded.
  destruct (on_folded_ok log i (b :: l) l' (λ f, c ← arr_get (ci bi) i;
    FoldedHistory_update (globalHistory th) (gHist th) (set_comp (u32 c) f)) _ Hi H1) as (a & -> & Ha).
  { intros f. by eapply restore_one. }
  simpl. destruct (on_folded_ok width i (b :: l) l' (λ f, c ← arr_get (ct0 bi) i;
    FoldedHistory_update (globalHistory th) (gHist th) (set_comp (u32 c) f)) _ Hi H2) as (c & -> & Hcc).
  { intros f. by eapply restore_one. }
  simpl. destruct (on_folded_ok _ i (b :: l) l' (λ f, c ← arr_get (ct1 bi) i;
    FoldedHistory_update (globalHistory th) (gHist th) (set_comp (u32 c) f)) _ Hi H3) as (d & -> & Hd).
  { intros f. by eapply (restore_one (λ i, width i - 1)). }
  simpl. eexists. split; [done|]. split; [by split_and!|]. by split_and!.
Qed.

Lemma restore_all bi b l l' th : ring_ok pr (globalHistory th) (gHist th) (b :: l) →
  saved_ok (n + 1) bi l → folded_ok (λ _, l') th →
  ∃ th', for_each (banks pr) (restore_folded bi) th = Ok th' ∧ folded_ok (λ _, b :: l) th' ∧ same_ring th th'.
Proof.
  intros Hr Hs Hf. pose proof (c_banks _ _ Hc).
  destruct (for_banks pr (λ i th', folded_ok (upto i (b :: l) l') th' ∧ same_ring th th') (restore_folded bi) th)
    as (th' & -> & Hf' & Hsr); [lia| | |].
  - split; [|done]. eapply folded_ext; [|done]. intros i Hi. unfold upto. by replace (i <? 1) with false by lia.
  - intros i t Hi (Ht & Hg & Hh & Hp & Hq). destruct (restore_folded_ok bi i b l l' t) as (t' & Ht' & Hf' & Hr'); try done.
    { by rewrite Hg, Hh. }
    exists t'. split; [done|]. split; [done|]. destruct Hr' as (? & ? & ? & ?). split_and!; congruence.
  - exists th'. split; [done|]. split; [|done]. eapply folded_ext; [|done]. intros i Hi. unfold upto.
    by replace (i <? n + 1) with true by lia.
Qed.

End Thread.

End TageThread.

(** * cpu/pred/tage_base: the operations on a thread's histories

    [updateHistories] records an outcome and, with it, how to undo it; [squash] and
    [btbUpdate] go back to a branch; the indices, the tags and the 32 last outcomes that are
    read are those of the path. *)

Module TagePath.
Import TageBase Tage TageSpec TageHistory TageThread.
Implicit Types (l : list Branch) (th : ThreadHistory) (bi : BranchInfo).

Section Path.
Context (pr : TAGEParams) (histLengths : list Z) (Hc : config_ok pr histLengths).
#[local] Abbreviation n := (nHistoryTables pr).
#[local] Abbreviation len := (at_bank histLengths).
#[local] Abbreviation log := (at_bank (logTagTableSizes pr)).
#[local] Abbreviation width := (at_bank (tagTableTagWidths pr)).
#[local] Abbreviation thread_ok := (thread_ok pr histLengths).
#[local] Abbreviation folded_ok := (folded_ok pr histLengths).
#[local] Abbreviation saved_ok := (saved_ok pr histLengths).
#[local] Abbreviation next_pt := (next_pt pr).

(** ** What a branch in flight has of the histories *)

(** [d] outcomes came after that of the branch [b], which came after [l]. *)
Definition recorded th bi (b : Branch) l (d : Z) : Prop :=
  bi_pathHist bi = wrap (pathHistBits pr) (path_value pr (b :: l)) ∧
  placed pr (globalHistory th) (ptGhist th) (bi_ptGhist bi) d l ∧ saved_ok (n + 1) bi l.

(** What a branch has besides. *)
Definition same_branch bi bi' : Prop :=
  prediction bi' = prediction bi ∧ condBranch bi' = condBranch bi ∧
  bi_tableIndices bi' = bi_tableIndices bi ∧ bi_tableTags bi' = bi_tableTags bi.

(** The buffer of [th'] is that of [th] with one more outcome. *)
Definition pushed th th' : Prop :=
  0 <= ptGhist th < histBufferSize pr - maxHist pr ∧ ptGhist th' = next_pt (ptGhist th) ∧
  ∀ j : nat, ptGhist th ≠ 0 ∧ Z.of_nat j ≠ next_pt (ptGhist th) ∨ Z.of_nat j < next_pt (ptGhist th) →
    globalHistory th' !! j = globalHistory th !! j.

Lemma buffer_bounds : 0 <= maxHist pr ∧ 2 * maxHist pr < histBufferSize pr ∧ histBufferSize pr < 2 ^ 31.
Proof.
  pose proof (c_buffer _ _ Hc). pose proof (c_length _ _ Hc 1). pose proof (c_banks _ _ Hc). lia.
Qed.

Lemma recorded_push th th' bi b l d : recorded th bi b l d → pushed th th' →
  d + 1 + 2 * maxHist pr < histBufferSize pr → recorded th' bi b l (d + 1).
Proof.
  intros (Hp & Hpl & Hs) (Hpt & He & Hj) Hd. split; [done|]. split; [|done]. rewrite He.
  pose proof buffer_bounds. eapply placed_push; try done; lia.
Qed.

Lemma path_step l p b : p = wrap (pathHistBits pr) (path_value pr l) →
  s32 (s32 (s32 (p .<< 1) + ((b_pc b .>> instShiftAmt pr) .& 1)) .& low_mask (pathHistBits pr)) =
  wrap (pathHistBits pr) (path_value pr (b :: l)).
Proof.
  intros ->. pose proof (c_path _ _ Hc) as Hp. rewrite masked_int by lia. simpl.
  set (x := (b_pc b .>> instShiftAmt pr) .& 1). unfold wrap at 1 3. rewrite <-Zplus_mod_idemp_l.
  rewrite <-(Zplus_mod_idemp_l (2 * path_value pr l)). do 2 f_equal.
  change (?a mod 2 ^ pathHistBits pr) with (wrap (pathHistBits pr) a).
  rewrite wrap_swrap, Z.shiftl_mul_pow2 by lia. change (2 ^ 1) with 2. rewrite Z.mul_comm.
  unfold wrap. by rewrite Zmult_mod_idemp_r.
Qed.

(** ** updateHistories *)

Lemma updateHistories_other tid pc taken bi s :
  TageBase.updateHistories pr tid pc taken bi (negb (speculativeHistUpdate pr)) s = Ok (bi, s).
Proof. unfold TageBase.updateHistories. by destruct (speculativeHistUpdate pr). Qed.

(** The arrays of a new record. *)
Definition arrays_ok bi : Prop :=
  Z.of_nat (length (ci bi)) = n + 1 ∧ Z.of_nat (length (ct0 bi)) = n + 1 ∧ Z.of_nat (length (ct1 bi)) = n + 1.

Lemma saved_none bi l : arrays_ok bi → saved_ok 1 bi l.
Proof. intros (H1 & H2 & H3). split_and!; (split; [done|]); intros i Hi; lia. Qed.

(** The loop over the banks. *)
Lemma record_banks b l bi th : folded_ok (λ _, l) th → ring_ok pr (globalHistory th) (gHist th) (b :: l) →
  (speculativeHistUpdate pr = true → arrays_ok bi) →
  ∃ bi' th', for_each (banks pr) (λ i '(bi, th),
      bi ← (if speculativeHistUpdate pr then save_folded i th bi else Ok bi);
      th ← update_folded i th;
      Ok (bi, th)) (bi, th) = Ok (bi', th') ∧
    folded_ok (λ _, b :: l) th' ∧ same_ring th th' ∧ same_branch bi bi' ∧
    bi_pathHist bi' = bi_pathHist bi ∧ bi_ptGhist bi' = bi_ptGhist bi ∧
    (speculativeHistUpdate pr = true → saved_ok (n + 1) bi' l).
Proof.
  intros Hf Hr Ha. pose proof (c_banks _ _ Hc).
  set (P := λ (i : Z) (x : BranchInfo * ThreadHistory), let '(bi', th') := x in
    folded_ok (upto i (b :: l) l) th' ∧ same_ring th th' ∧ same_branch bi bi' ∧
    bi_pathHist bi' = bi_pathHist bi ∧ bi_ptGhist bi' = bi_ptGhist bi ∧
    (speculativeHistUpdate pr = true → saved_ok i bi' l)).
  destruct (for_banks pr P (λ i '(bi, th),
      bi ← (if speculativeHistUpdate pr then save_folded i th bi else Ok bi);
      th ← update_folded i th; Ok (bi, th)) (bi, th)) as ([bi' th'] & He & H1 & Hrest); [lia| | |].
  - unfold P. split; [|split; [done|]; split; [done|]; split; [done|]; split; [done|]; intros Hs; by apply saved_none, Ha].
    eapply folded_ext; [|done]. intros i Hi. unfold upto. by replace (i <? 1) with false by lia.
  - intros i [bi1 th1] Hi (Hf1 & Hs1 & Hb1 & Hp1 & Hq1 & Hsv).
    destruct Hs1 as (E1 & E2 & E3 & E4).
    destruct (update_folded_ok pr histLengths Hc i b l th1) as (th2 & Hth2 & Hf2 & (F1 & F2 & F3 & F4)); [done|by rewrite E1, E2|done|].
    assert (upto i (b :: l) l i = l) as Hui by (unfold upto; by replace (i <? i) with false by lia).
    destruct (speculativeHistUpdate pr).
    + destruct (save_folded_ok pr histLengths Hc i th1 bi1 _ l Hi Hf1 Hui (Hsv eq_refl)) as (a & c & d & -> & Hsv2).
      simpl. rewrite Hth2. simpl. eexists. split; [done|]. unfold P.
      split; [done|]. split; [unfold same_ring; by rewrite F1, F2, F3, F4|]. by split_and!.
    + simpl. rewrite Hth2. simpl. eexists. split; [done|]. unfold P.
      split; [done|]. split; [unfold same_ring; by rewrite F1, F2, F3, F4|]. by split_and!.
  - exists bi', th'. split; [exact He|]. split; [|done]. eapply folded_ext; [|done]. intros i Hi. unfold upto.
    by replace (i <? n + 1) with true by lia.
Qed.

Lemma updateHistories_ok tid pc taken bi s th l : threadHistory s !! tid = Some th → thread_ok th l →
  (speculativeHistUpdate pr = true → arrays_ok bi) → let b := mkBranch pc taken in
  ∃ bi' th', TageBase.updateHistories pr tid pc taken bi (speculativeHistUpdate pr) s = Ok (bi', set_thread tid th' s) ∧
    thread_ok th' (b :: l) ∧ pushed th th' ∧ same_branch bi bi' ∧
    (speculativeHistUpdate pr = true → recorded th' bi' b l 0).
Proof.
  intros Hth (Hg & Hr & Hp & Hf) Ha b. unfold TageBase.updateHistories. rewrite eqb_reflx. simpl. rewrite Hth. simpl.
  pose proof buffer_bounds as (B1 & B2 & B3). pose proof (c_path _ _ Hc).
  destruct (updateGHist_ring pr B1 B2 B3 _ _ _ b Hr) as (tab & Hu & Hr' & Hj). rewrite Hg. simpl in Hu. rewrite Hu. simpl.
  rewrite shift_ok_true by lia. simpl.
  pose proof (path_step l _ b Hp) as Hp'. simpl in Hp'.
  set (th1 := set_pathHist _ _). set (bi1 := if speculativeHistUpdate pr then _ else bi).
  destruct (record_banks b l bi1 th1) as (bi' & th' & -> & Hf' & (E1 & E2 & E3 & E4) & (S1 & S2 & S3 & S4) & Hbp & Hbg & Hsv).
  - done.
  - done.
  - intros Hs. subst bi1. rewrite Hs. by apply Ha.
  - simpl. rewrite E2, E3. simpl. rewrite Z.eqb_refl. simpl. exists bi', th'. split; [done|].
    split; [|split; [|split]].
    + split; [by rewrite E2, E3|]. split; [by rewrite E1, E3|]. split; [by rewrite E4|done].
    + split; [apply Hr|]. split; [by rewrite E3|]. intros j Hj'. rewrite E1. by apply Hj.
    + unfold same_branch. rewrite S1, S2, S3, S4. subst bi1. by destruct (speculativeHistUpdate pr).
    + intros Hs. subst bi1. rewrite Hs in *. simpl in Hbp, Hbg. split; [by rewrite Hbp|]. split; [|by apply Hsv].
      rewrite E1, E3, Hbg. simpl. by eapply placed_new.
Qed.

(** ** squash and btbUpdate *)

Lemma goes_back tid taken bi s th l' b l d : speculativeHistUpdate pr = true →
  threadHistory s !! tid = Some th → thread_ok th l' → recorded th bi b l d →
  ∃ th', TageBase.squash pr tid taken bi s = Ok (set_thread tid th' s) ∧ thread_ok th' (mkBranch (b_pc b) taken :: l) ∧
    recorded th' bi b l 0 ∧
    ∀ bi2 b2 l2 d2, recorded th bi2 b2 l2 d2 → d < d2 → recorded th' bi2 b2 l2 (d2 - d).
Proof.
  intros Hs Hth (Hg & Hr & Hp & Hf) (Hbp & Hpl & Hsv). unfold TageBase.squash. rewrite Hs. simpl. rewrite Hth. simpl.
  pose proof buffer_bounds as (B1 & B2 & B3). pose proof Hr as (Hlen & Hpt & _).
  pose proof Hpl as (Hpos & _). rewrite store_at_spec by lia. simpl.
  pose proof (ring_back pr B1 _ _ _ _ _ (mkBranch (b_pc b) taken) Hlen Hpl) as Hr'. simpl in Hr'.
  set (th1 := set_pathHist _ _).
  destruct (restore_all pr histLengths Hc bi (mkBranch (b_pc b) taken) l l' th1) as (th' & -> & Hf' & (E1 & E2 & E3 & E4)); [done|done|done|].
  simpl. exists th'. split; [done|]. simpl in E1, E2, E3, E4. split; [|split].
  - split; [by rewrite E2, E3|]. split; [by rewrite E1, E3|]. split; [by rewrite E4|done].
  - split; [done|]. split; [|done]. rewrite E1, E3. by eapply placed_new.
  - intros bi2 b2 l2 d2 (Hbp2 & Hpl2 & Hsv2) Hd. split; [done|]. split; [|done]. rewrite E1, E3.
    by apply (placed_back pr (globalHistory th) (ptGhist th) (bi_ptGhist bi) d l).
Qed.

(** [btbUpdate] makes the youngest branch not taken. *)
Lemma btbUpdate_ok tid bi s th b l : speculativeHistUpdate pr = true →
  threadHistory s !! tid = Some th → thread_ok th (b :: l) → recorded th bi b l 0 →
  ∃ th', btbUpdate pr tid bi s = Ok (set_thread tid th' s) ∧ thread_ok th' (mkBranch (b_pc b) false :: l).
Proof.
  intros Hs Hth (Hg & Hr & Hp & Hf) (Hbp & Hpl & Hsv). unfold btbUpdate. rewrite Hs, Hth. simpl.
  pose proof buffer_bounds as (B1 & B2 & B3). pose proof Hr as (Hlen & Hpt & _).
  assert (bi_ptGhist bi = ptGhist th) as He by (destruct Hpl as (? & _ & _ & ? & _); lia).
  rewrite Hg, Z.eqb_refl. simpl. rewrite store_at_spec by lia. simpl.
  pose proof (ring_back pr B1 _ _ _ _ _ (mkBranch (b_pc b) false) Hlen Hpl) as Hr'. simpl in Hr'. rewrite He in Hr'.
  set (th1 := set_outcomes _ _ _ _).
  destruct (restore_all pr histLengths Hc bi (mkBranch (b_pc b) false) l (b :: l) th1) as (th' & -> & Hf' & (E1 & E2 & E3 & E4)); [done|done|done|].
  simpl. exists th'. split; [done|]. simpl in E1, E2, E3, E4.
  split; [by rewrite E2, E3|]. split; [by rewrite E1, E3|]. split; [by rewrite E4, Hp|done].
Qed.

End Path.

End TagePath.
