(* ===== verification/TageTables.v ===== *)
(** * cpu/pred/tage_base: indices and tags are hashes of the path

    [gindex] and [gtag] read the folded histories of a thread, [index_of] and [tag_of] the
    path itself; a prediction is the same with either. *)

From Stdlib Require Import ZArith Lia.
From stdpp Require Import base numbers option list sets.
From S2P Require Import Prelude TageBase Tage TageHistory.

Module TageIndex.
Import TageBase Tage TageSpec TageHistory TageThread TagePath.
Implicit Types (l : list Branch) (th : ThreadHistory) (bi : BranchInfo).

Section Index.
Context (pr : TAGEParams) (histLengths : list Z) (Hc : config_ok pr histLengths).
#[local] Abbreviation n := (nHistoryTables pr).
#[local] Abbreviation len := (at_bank histLengths).
#[local] Abbreviation log := (at_bank (logTagTableSizes pr)).
#[local] Abbreviation width := (at_bank (tagTableTagWidths pr)).
#[local] Abbreviation thread_ok := (thread_ok pr histLengths).

Lemma load_len i : 1 <= i <= n → load_at histLengths i = Ok (len i).
Proof. intros Hi. apply (load_bank _ _ n); [apply Hc|lia]. Qed.
Lemma load_log i : 0 <= i <= n → load_at (logTagTableSizes pr) i = Ok (log i).
Proof. intros Hi. apply (load_bank _ _ n); [apply Hc|lia]. Qed.
Lemma load_width i : 0 <= i <= n → load_at (tagTableTagWidths pr) i = Ok (width i).
Proof. intros Hi. apply (load_bank _ _ n); [apply Hc|lia]. Qed.

(** ** The values *)

Lemma F_ok A size i : 0 <= size < 64 → 1 <= i <= n → ∃ f, F pr A size i = Ok f.
Proof.
  intros Hs Hi. pose proof (c_log _ _ Hc i Hi). unfold F. rewrite load_log by lia. simpl.
  rewrite !shift_ok_true by lia. simpl. by eexists.
Qed.

Lemma hash_length i : 1 <= i <= n → 0 <= Z.min (pathHistBits pr) (len i) < 64.
Proof. intros Hi. pose proof (c_path _ _ Hc). pose proof (c_length _ _ Hc i Hi). lia. Qed.

Lemma index_of_ok pc l i : 1 <= i <= n → ∃ x, index_of pr histLengths pc l i = Ok x ∧ 0 <= x < 2 ^ log i.
Proof.
  intros Hi. pose proof (c_log _ _ Hc i Hi). unfold index_of. rewrite load_len, load_log by lia. simpl.
  destruct (F_ok (wrap (pathHistBits pr) (path_value pr l)) _ i (hash_length i Hi) Hi) as (f & ->).
  simpl. eexists. split; [done|]. apply wrap_fits. lia.
Qed.

Lemma tag_of_ok pc l i : 1 <= i <= n → ∃ x, tag_of pr histLengths pc l i = Ok x ∧ 0 <= x < 2 ^ width i.
Proof.
  intros Hi. pose proof (c_width _ _ Hc i Hi). unfold tag_of. rewrite load_len, load_width by lia. simpl.
  eexists. split; [done|]. apply wrap_fits. lia.
Qed.

Lemma load_folded C p fs i : 1 <= i <= n → histories pr histLengths C p fs →
  load_at fs i = Ok (mkFolded (folded (C i) (p i) (Z.to_nat (len i))) (C i) (len i) (len i mod C i)).
Proof.
  intros Hi (_ & Hf). destruct (Hf i Hi) as (f & Hfi & ->). unfold load_at.
  replace (i <? 0) with false by lia. by rewrite Hfi.
Qed.

Lemma gindex_path tid pc i s th l : threadHistory s !! tid = Some th → thread_ok th l → 1 <= i <= n →
  gindex pr histLengths tid pc i s = index_of pr histLengths pc l i.
Proof.
  intros Hth (Hg & Hr & Hp & Hf & _) Hi. pose proof (c_log _ _ Hc i Hi) as Hl.
  unfold gindex, index_of. rewrite Hth. simpl. rewrite load_len, load_log by lia. simpl.
  rewrite !shift_ok_true by lia. simpl. rewrite (load_folded _ _ _ i Hi Hf). simpl. rewrite Hp.
  replace (if pathHistBits pr <? len i then _ else _) with (Z.min (pathHistBits pr) (len i)).
  2: { destruct (Z.ltb_spec (pathHistBits pr) (len i)); lia. }
  destruct (F pr _ _ i) as [f|e]; simpl; [|done]. f_equal. rewrite masked_int by lia. bitwise.
Qed.

Lemma gtag_path tid pc i s th l : threadHistory s !! tid = Some th → thread_ok th l → 1 <= i <= n →
  gtag pr tid pc i s = tag_of pr histLengths pc l i.
Proof.
  intros Hth (Hg & Hr & Hp & _ & Hf0 & Hf1) Hi. pose proof (c_width _ _ Hc i Hi) as Hw.
  unfold gtag, tag_of. rewrite Hth. simpl. rewrite (load_folded _ _ _ i Hi Hf0), (load_folded _ _ _ i Hi Hf1). simpl.
  rewrite load_len, load_width by lia. simpl. rewrite shift_ok_true by lia. simpl. f_equal.
  rewrite low_mask_ones by lia. rewrite (Z.mul_comm 2). change 2 with (2 ^ 1). rewrite <-Z.shiftl_mul_pow2 by lia.
  rewrite <-wrap_land_ones, wrap_swrap by lia.
  rewrite (wrap_small 16) by (eapply (fits_le (width i)); [lia|apply wrap_fits; lia]). bitwise.
Qed.

(** ** The arrays *)

(** What [per_bank] fills. *)
Definition value (r : result Z) : Z := match r with Ok x => x | Err _ => 0 end.
Definition filled (f : Z → result Z) : list (option Z) := None :: map (λ i, Some (value (f i))) (banks pr).

(** An array over the banks whose first element is not set. *)
Definition scratch (a : list (option Z)) : Prop := Z.of_nat (length a) = n + 1 ∧ a !! 0%nat = Some None.

(** It agrees with [filled] below the bank [k]. *)
Definition filled_upto (f : Z → result Z) (k : Z) (a : list (option Z)) : Prop :=
  scratch a ∧ ∀ i, 1 <= i < k → a !! Z.to_nat i = Some (Some (value (f i))).

Lemma banks_lookup i : 1 <= i <= n → banks pr !! Z.to_nat (i - 1) = Some i.
Proof. intros Hi. unfold banks. rewrite lookup_seqZ. lia. Qed.

Lemma filled_lookup f i : 1 <= i <= n → filled f !! Z.to_nat i = Some (Some (value (f i))).
Proof.
  intros Hi. unfold filled. replace (Z.to_nat i) with (S (Z.to_nat (i - 1))) by lia. simpl.
  rewrite list_lookup_fmap. by rewrite banks_lookup.
Qed.

Lemma filled_length f : 1 <= n → Z.of_nat (length (filled f)) = n + 1.
Proof. intros Hn. unfold filled. simpl. rewrite length_map. unfold banks. rewrite length_seqZ. lia. Qed.

Lemma filled_all f a : 1 <= n → filled_upto f (n + 1) a → a = filled f.
Proof.
  intros Hn ((Hl & H0) & Ha). pose proof (filled_length f Hn). apply list_eq. intros [|i]; [by rewrite H0|].
  destruct (decide (Z.of_nat (S i) <= n)).
  - specialize (Ha (Z.of_nat (S i)) ltac:(lia)). rewrite Nat2Z.id in Ha. rewrite Ha.
    symmetry. rewrite <-(Nat2Z.id (S i)) at 1. apply filled_lookup. lia.
  - rewrite !lookup_ge_None_2 by lia. done.
Qed.

Lemma filled_set f k a : 1 <= k <= n → filled_upto f k a →
  ∃ a', arr_set a k (value (f k)) = Ok a' ∧ filled_upto f (k + 1) a'.
Proof.
  intros Hk ((Hl & H0) & Ha). unfold arr_set. rewrite store_at_spec by lia. eexists. split; [done|]. split.
  - split; [by rewrite length_insert|]. rewrite list_lookup_insert_ne by lia. done.
  - intros i Hi. destruct (Z.eq_dec i k) as [->|].
    + by rewrite list_lookup_insert_eq by lia.
    + rewrite list_lookup_insert_ne by lia. apply Ha. lia.
Qed.

Lemma per_bank_filled f : (∀ i, 1 <= i <= n → f i = Ok (value (f i))) → per_bank pr f = Ok (filled f).
Proof.
  intros Hf. unfold per_bank, filled. assert (∀ (k : list Z) a, (∀ i, i ∈ k → f i = Ok (value (f i))) →
    for_each k (λ i a, x ← f i; Ok (a ++ [Some x])) a = Ok (a ++ map (λ i, Some (value (f i))) k)) as Hgen.
  { induction k as [|i k IH]; intros a Hk; simpl; [by rewrite app_nil_r|]. rewrite Hk by set_solver. simpl.
    rewrite IH by set_solver. by rewrite <-app_assoc. }
  rewrite Hgen; [done|]. intros i Hi. apply Hf. unfold banks in Hi. apply elem_of_seqZ in Hi. lia.
Qed.

Lemma index_value pc l i : 1 <= i <= n → index_of pr histLengths pc l i = Ok (value (index_of pr histLengths pc l i)).
Proof. intros Hi. by destruct (index_of_ok pc l i Hi) as (x & -> & _). Qed.
Lemma tag_value pc l i : 1 <= i <= n → tag_of pr histLengths pc l i = Ok (value (tag_of pr histLengths pc l i)).
Proof. intros Hi. by destruct (tag_of_ok pc l i Hi) as (x & -> & _). Qed.

(** ** Predictions *)

Lemma calculate_path tid pc bi s th l : threadHistory s !! tid = Some th → thread_ok th l →
  scratch (tableIndices s) → scratch (tableTags s) → scratch (bi_tableIndices bi) → scratch (bi_tableTags bi) →
  let ti := filled (index_of pr histLengths pc l) in let tt := filled (tag_of pr histLengths pc l) in
  calculateIndicesAndTags pr histLengths tid pc bi s = Ok (set_bi_tables ti tt bi, set_scratch ti tt s).
Proof.
  intros Hth Ht H1 H2 H3 H4 ti tt. pose proof (c_banks _ _ Hc).
  set (fi := index_of pr histLengths pc l) in *. set (ft := tag_of pr histLengths pc l) in *.
  set (P := λ (i : Z) (x : BranchInfo * TAGEBase), ∃ a b c d, x = (set_bi_tables a b bi, set_scratch c d s) ∧
    filled_upto fi i a ∧ filled_upto ft i b ∧ filled_upto fi i c ∧ filled_upto ft i d).
  unfold calculateIndicesAndTags. edestruct (for_banks pr P) as (x & He & a & b & c & d & -> & Ha & Hb & Hcc & Hd);
    [lia| | |rewrite He].
  - exists (bi_tableIndices bi), (bi_tableTags bi), (tableIndices s), (tableTags s). split; [by destruct bi, s|].
    split_and!; (split; [done|]); intros i Hi; lia.
  - intros i x Hi (a & b & c & d & -> & Ha & Hb & Hcc & Hd). simpl.
    rewrite (gindex_path tid pc i _ th l) by done. fold fi. rewrite (index_value pc l i Hi : fi i = Ok (value (fi i))). simpl.
    destruct (filled_set fi i c Hi Hcc) as (c' & -> & Hc'). simpl.
    destruct (filled_set fi i a Hi Ha) as (a' & -> & Ha'). simpl.
    rewrite (gtag_path tid pc i _ th l) by done. fold ft. rewrite (tag_value pc l i Hi : ft i = Ok (value (ft i))). simpl.
    destruct (filled_set ft i d Hi Hd) as (d' & -> & Hd'). simpl.
    destruct (filled_set ft i b Hi Hb) as (b' & -> & Hb'). simpl.
    eexists. split; [done|]. exists a', b', c', d'. by split_and!.
  - subst ti tt. rewrite (filled_all fi a), (filled_all ft b), (filled_all fi c), (filled_all ft d) by (done || lia). done.
Qed.

Lemma spec_predict_eq pc l t :
  let ti := filled (index_of pr histLengths pc l) in let tt := filled (tag_of pr histLengths pc l) in
  spec_predict pr histLengths pc l t =
  p ← predict_banks pr ti tt pc t; Ok (mkBranchInfo 0 0 p true pc ti tt [] [] []).
Proof.
  intros ti tt. unfold spec_predict. rewrite !per_bank_filled by (intros; apply index_value || apply tag_value; done). done.
Qed.

(** The last 32 outcomes, the youngest in the lowest bit. *)
Lemma getGHR_path tid bi s th l : threadHistory s !! tid = Some th → thread_ok th l →
  bi_ptGhist bi = ptGhist th → 31 <= maxHist pr →
  ∃ v, getGHR pr tid bi s = Ok v ∧ fits 32 v ∧
    ∀ i : nat, (i < 32)%nat → Z.testbit v (Z.of_nat i) = from_option b_taken false (l !! i).
Proof.
  intros Hth (Hg & Hr & _) Hp HM. unfold getGHR. rewrite Hth, Hp. cbn [deref mbind result_bind].
  edestruct (for_seqZ (λ k v, fits 32 v ∧ (∀ i, k <= i → Z.testbit v i = false) ∧
    ∀ i : nat, Z.of_nat i < k → Z.testbit v (Z.of_nat i) = from_option b_taken false (l !! i)))
    as (v & He & Hf & _ & Hv); [| | |rewrite He; exists v; split; [done|]; split; [done|]; intros i Hi; apply Hv; lia].
  - split; [done|]. split; [intros i _; apply Z.testbit_0_l|]. intros i Hi. lia.
  - done.
  - intros k v Hk (Hf & Hz & Hv). pose proof Hr as (Hlen & Hpt & _).
    replace (ptGhist th + k <? histBufferSize pr) with true by lia. simpl.
    rewrite (ring_load pr _ _ _ k Hr) by lia. simpl. eexists. split; [done|].
    assert (outcome_at l (Z.to_nat k) .& 1 = outcome_at l (Z.to_nat k)) as ->.
    { unfold outcome_at. by destruct (l !! Z.to_nat k) as [[pc []]|]. }
    pose proof (fits_shiftl _ k 32 (outcome_bit l (Z.to_nat k)) ltac:(lia)) as Hs. rewrite (wrap_small 32) by done.
    split; [by apply fits_lor|]. split.
    + intros i Hi. rewrite Z.lor_spec, Hz, testbit_shl by lia. apply (testbit_bit (outcome_at l (Z.to_nat k))); [apply outcome_bit|lia].
    + intros i Hi. rewrite Z.lor_spec, testbit_shl by lia. destruct (Z.eq_dec (Z.of_nat i) k) as [<-|].
      * rewrite Hz, Z.sub_diag, Nat2Z.id by lia. unfold outcome_at. by destruct (l !! i) as [[pc []]|].
      * rewrite Hv, (Z.testbit_neg_r (outcome_at l (Z.to_nat k))), orb_false_r by lia. done.
Qed.

End Index.

End TageIndex.

(** * cpu/pred/tage_base: the tables keep their shapes and widths

    Predicting and training never fail in a configuration that is legal: every index is
    inside its table, every counter keeps to its width, and what a branch remembers of its
    prediction points at entries that exist. *)

Module TageTables.
Import TageBase Tage TageSpec TageHistory TageThread TagePath TageIndex.
Implicit Types (t : Tables) (bi : BranchInfo) (p : Prediction) (e : TageEntry).

Lemma for_each_ok {A B} (P : B → Prop) (f : A → B → result B) l : ∀ s, P s →
  (∀ a s, a ∈ l → P s → ∃ s', f a s = Ok s' ∧ P s') → ∃ s', for_each l f s = Ok s' ∧ P s'.
Proof.
  induction l as [|a l IH]; intros s Hs Hf; simpl; [by exists s|].
  destruct (Hf a s) as (s1 & -> & Hs1); [set_solver|done|]. simpl. apply IH; [done|]. intros. apply Hf; set_solver.
Qed.

Section Tables_.
Context (pr : TAGEParams) (histLengths : list Z) (Hc : config_ok pr histLengths).
#[local] Abbreviation n := (nHistoryTables pr).
#[local] Abbreviation log := (at_bank (logTagTableSizes pr)).
#[local] Abbreviation width := (at_bank (tagTableTagWidths pr)).

(** A signed counter of [bits] bits. *)
Definition signed (bits c : Z) : Prop := - 2 ^ (bits - 1) <= c < 2 ^ (bits - 1).

Definition entry_ok (i : Z) e : Prop :=
  signed (tagTableCounterBits pr) (ctr e) ∧ fits (tagTableUBits pr) (u e) ∧ fits (width i) (tag e).

Definition table_ok (i : Z) (l : list TageEntry) : Prop :=
  Z.of_nat (length l) = 2 ^ log i ∧ Forall (entry_ok i) l.

Definition tables_ok t : Prop :=
  Z.of_nat (length (btablePrediction t)) = 2 ^ log 0 ∧
  Z.of_nat (length (btableHysteresis t)) = 2 ^ (log 0 - logRatioBiModalHystEntries pr) ∧
  Z.of_nat (length (gtable t)) = n + 1 ∧
  (∀ i, 1 <= i <= n → ∃ l, gtable t !! Z.to_nat i = Some l ∧ table_ok i l) ∧
  (1 <= length (useAltPredForNewlyAllocated t))%nat ∧
  Forall (signed (useAltOnNaBits pr)) (useAltPredForNewlyAllocated t).

(** The arrays of a branch that was looked up. *)
Definition arrays (ti tt : list (option Z)) : Prop :=
  ∀ i, 1 <= i <= n → (∃ x, arr_get ti i = Ok x ∧ 0 <= x < 2 ^ log i) ∧ (∃ y, arr_get tt i = Ok y ∧ fits (width i) y).

Definition bank_ok (bank index : Z) : Prop := 0 <= bank <= n ∧ (0 < bank → 0 <= index < 2 ^ log bank).
Definition prediction_ok p : Prop :=
  bank_ok (hitBank p) (hitBankIndex p) ∧ bank_ok (altBank p) (altBankIndex p) ∧ 0 <= bimodalIndex p < 2 ^ log 0.
Definition info_ok bi : Prop := arrays (bi_tableIndices bi) (bi_tableTags bi) ∧ prediction_ok (prediction bi).

Lemma width_fits i : 1 <= i <= n → 2 <= width i <= 16.
Proof. apply Hc. Qed.

(** ** Entries *)

Lemma table_load t i : tables_ok t → 1 <= i <= n → ∃ l, load_at (gtable t) i = Ok l ∧ table_ok i l.
Proof.
  intros (_ & _ & _ & Hg & _) Hi. destruct (Hg i Hi) as (l & Hl & Hok). exists l. unfold load_at.
  replace (i <? 0) with false by lia. by rewrite Hl.
Qed.

Lemma entry_load t i j : tables_ok t → 1 <= i <= n → 0 <= j < 2 ^ log i →
  ∃ e, entry t i j = Ok e ∧ entry_ok i e.
Proof.
  intros Ht Hi Hj. destruct (table_load t i Ht Hi) as (l & Hl & Hlen & Hf). unfold entry. rewrite Hl. simpl.
  destruct (load_at_spec l j) as (e & He & Hlk); [lia|]. exists e. split; [done|]. by eapply Forall_lookup_1.
Qed.

Lemma set_table_ok t i l : tables_ok t → 1 <= i <= n → table_ok i l →
  ∃ g, store_at (gtable t) i l = Ok g ∧ tables_ok (set_gtable g t).
Proof.
  intros (H1 & H2 & Hlen & Hg & Hrest) Hi Hl. rewrite store_at_spec by lia. eexists. split; [done|].
  split; [done|]. split; [done|]. simpl. split; [by rewrite length_insert|]. split; [|done].
  intros j Hj. destruct (Z.eq_dec i j) as [<-|].
  - exists l. split; [|done]. apply list_lookup_insert_eq. lia.
  - rewrite list_lookup_insert_ne by lia. by apply Hg.
Qed.

Lemma write_entry_ok t i j e : tables_ok t → 1 <= i <= n → 0 <= j < 2 ^ log i → entry_ok i e →
  ∃ t', write_entry t i j e = Ok t' ∧ tables_ok t'.
Proof.
  intros Ht Hi Hj He. destruct (table_load t i Ht Hi) as (l & Hl & Hlen & Hf). unfold write_entry. rewrite Hl. simpl.
  rewrite store_at_spec by lia. simpl. destruct (set_table_ok t i (<[Z.to_nat j:=e]> l) Ht Hi) as (g & -> & Hg).
  - split; [by rewrite length_insert|by apply Forall_insert].
  - simpl. by eexists.
Qed.

(** ** Counters *)

Lemma pow_half b : 1 <= b → 1 .<< (b - 1) = 2 ^ (b - 1).
Proof. intros. by rewrite Z.shiftl_1_l. Qed.

Lemma ctrUpdate_ok c b bits : 1 <= bits <= 8 → signed bits c → ∃ c', ctrUpdate c b bits = Ok c' ∧ signed bits c'.
Proof.
  intros Hb [H1 H2]. unfold ctrUpdate. replace (bits <=? 8) with true by lia. simpl.
  rewrite shift_ok_true by lia. simpl. eexists. split; [done|]. rewrite pow_half by lia. unfold signed.
  destruct b.
  - destruct (Z.ltb_spec c (2 ^ (bits - 1) - 1)); lia.
  - destruct (Z.ltb_spec (- 2 ^ (bits - 1)) c); lia.
Qed.

Lemma unsigned_ok c b bits : 1 <= bits <= 8 → fits bits c → ∃ c', unsignedCtrUpdate c b bits = Ok c' ∧ fits bits c'.
Proof.
  intros Hb [H1 H2]. unfold unsignedCtrUpdate. replace (bits <=? 8) with true by lia. simpl. eexists. split; [done|].
  rewrite Z.shiftl_1_l. unfold fits. destruct b.
  - destruct (Z.ltb_spec c (2 ^ bits - 1)); lia.
  - destruct (Z.eqb_spec c 0); simpl; lia.
Qed.

Lemma train_entry_ok i j b t : tables_ok t → 1 <= i <= n → 0 <= j < 2 ^ log i →
  ∃ t', train_entry pr i j b t = Ok t' ∧ tables_ok t'.
Proof.
  intros Ht Hi Hj. unfold train_entry. destruct (entry_load t i j Ht Hi Hj) as (e & -> & He1 & He2). simpl.
  destruct (ctrUpdate_ok (ctr e) b (tagTableCounterBits pr)) as (c & -> & Hcc); [apply Hc|done|]. simpl.
  by apply write_entry_ok.
Qed.

Lemma base_index p : 0 <= bimodalIndex p < 2 ^ log 0 →
  0 <= bimodalIndex p .>> logRatioBiModalHystEntries pr < 2 ^ (log 0 - logRatioBiModalHystEntries pr).
Proof.
  intros Hp. pose proof (c_ratio _ _ Hc). split; [apply Z.shiftr_nonneg; lia|]. rewrite Z.shiftr_div_pow2 by lia.
  apply Z.div_lt_upper_bound; [apply pow2_pos; lia|]. rewrite <-Z.pow_add_r by lia.
  replace (logRatioBiModalHystEntries pr + (log 0 - logRatioBiModalHystEntries pr)) with (log 0) by lia. lia.
Qed.

Lemma baseUpdate_ok b p t : tables_ok t → 0 <= bimodalIndex p < 2 ^ log 0 →
  ∃ t', baseUpdate pr b p t = Ok t' ∧ tables_ok t'.
Proof.
  intros (H1 & H2 & Hrest) Hp. pose proof (base_index p Hp). unfold baseUpdate.
  destruct (load_at_spec (btablePrediction t) (bimodalIndex p)) as (x & -> & _); [lia|]. simpl.
  destruct (load_at_spec (btableHysteresis t) (bimodalIndex p .>> logRatioBiModalHystEntries pr)) as (y & -> & _); [lia|].
  cbn [mbind result_bind]. rewrite !store_at_spec by lia. cbn [mbind result_bind]. eexists. split; [done|].
  split; [cbn [btablePrediction btableHysteresis set_bimodal]; by rewrite length_insert|]. split; [cbn [btablePrediction btableHysteresis set_bimodal]; by rewrite length_insert|]. done.
Qed.

(** ** Prediction *)

Lemma arrays_filled pc l : arrays (filled pr (index_of pr histLengths pc l)) (filled pr (tag_of pr histLengths pc l)).
Proof.
  intros i Hi. unfold arr_get, load_at. replace (i <? 0) with false by lia. rewrite !filled_lookup by done. simpl.
  destruct (index_of_ok pr histLengths Hc pc l i Hi) as (x & -> & Hx).
  destruct (tag_of_ok pr histLengths Hc pc l i Hi) as (y & -> & Hy). simpl. split; by eexists.
Qed.

Lemma noSkip_load i : 1 <= i <= n → ∃ b, load_at (noSkip pr) i = Ok b.
Proof.
  intros Hi. assert (Z.of_nat (length (noSkip pr)) = n + 1) as Hl.
  { unfold noSkip. destruct (noSkip_param pr) eqn:E; [rewrite length_replicate; lia|].
    destruct (c_noSkip _ _ Hc) as [H|H]; [congruence|]. by rewrite E in H. }
  destruct (load_at_spec (noSkip pr) i) as (b & -> & _); [lia|]. by eexists.
Qed.

Lemma longest_match_ok ti tt t : tables_ok t → arrays ti tt → ∀ k : nat, Z.of_nat k <= n →
  ∃ b, longest_match pr ti tt t k = Ok b ∧ 0 <= b <= Z.of_nat k.
Proof.
  intros Ht Ha. induction k as [|k IH]; intros Hk; [by exists 0|]. cbn [longest_match].
  destruct (noSkip_load (Z.of_nat (S k))) as (en & ->); [lia|]. cbn [mbind result_bind].
  assert (∃ h, (if en then x ← arr_get ti (Z.of_nat (S k)); e ← entry t (Z.of_nat (S k)) x;
    y ← arr_get tt (Z.of_nat (S k)); Ok (tag e =? y) else Ok false) = Ok h) as (h & ->).
  { destruct en; [|by eexists]. destruct (Ha (Z.of_nat (S k))) as ((x & -> & Hx) & (y & -> & Hy)); [lia|]. simpl.
    destruct (entry_load t (Z.of_nat (S k)) x Ht ltac:(lia) Hx) as (e & -> & _). simpl. by eexists. }
  cbn [mbind result_bind]. destruct h; [exists (Z.of_nat (S k)); split; [done|lia]|].
  destruct IH as (b & -> & Hb); [lia|]. exists b. split; [done|lia].
Qed.

Lemma bank_index_ok ti tt b : arrays ti tt → 0 <= b <= n → ∃ x, bank_index ti b = Ok x ∧ bank_ok b x.
Proof.
  intros Ha Hb. unfold bank_index. destruct (Z.ltb_spec 0 b).
  - destruct (Ha b) as ((x & -> & Hx) & _); [lia|]. exists x. split; [done|]. split; [done|]. lia.
  - exists 0. split; [done|]. split; [done|]. lia.
Qed.

Lemma bindex_ok pc : ∃ x, bindex pr pc = Ok x ∧ 0 <= x < 2 ^ log 0.
Proof.
  pose proof (c_log0 _ _ Hc). pose proof (c_banks _ _ Hc). unfold bindex.
  rewrite (load_bank _ 0 n) by (apply Hc || lia). simpl. rewrite shift_ok_true by lia. simpl. eexists. split; [done|].
  rewrite low_mask_ones, <-wrap_land_ones by lia. pose proof (wrap_fits (log 0) (pc .>> instShiftAmt pr) ltac:(lia)) as [H1 H2].
  rewrite swrap_small; [done|]. assert (2 ^ log 0 < 2 ^ 31) by (apply Z.pow_lt_mono_r; lia). lia.
Qed.

Lemma predict_banks_ok ti tt pc t : tables_ok t → arrays ti tt →
  ∃ p, predict_banks pr ti tt pc t = Ok p ∧ prediction_ok p.
Proof.
  intros Ht Ha. pose proof (c_banks _ _ Hc). unfold predict_banks.
  destruct (bindex_ok pc) as (bm & -> & Hbm). simpl.
  destruct (longest_match_ok ti tt t Ht Ha (Z.to_nat n)) as (hit & -> & Hh); [lia|]. simpl.
  destruct (bank_index_ok ti tt hit Ha) as (hi & -> & Hhi); [lia|]. simpl.
  destruct (longest_match_ok ti tt t Ht Ha (Z.to_nat (hit - 1))) as (alt & -> & Hal); [lia|]. simpl.
  destruct (bank_index_ok ti tt alt Ha) as (ai & -> & Hai); [lia|]. simpl.
  pose proof Ht as (Hb & _ & _ & _ & Hu & _).
  destruct (load_at_spec (btablePrediction t) bm) as (base & -> & _); [lia|]. simpl.
  destruct (Z.ltb_spec 0 hit).
  - assert (∃ x, (if 0 <? alt then e ← entry t alt ai; Ok (0 <=? ctr e) else Ok base) = Ok x) as (x & ->).
    { destruct (Z.ltb_spec 0 alt); [|by eexists]. destruct (entry_load t alt ai Ht) as (e & -> & _); [lia|by apply Hai|]. by eexists. }
    simpl. destruct (entry_load t hit hi Ht) as (e & -> & _); [lia|by apply Hhi|]. cbn [mbind result_bind].
    destruct (load_at_spec (useAltPredForNewlyAllocated t) getUseAltIdx) as (ua & -> & _); [unfold getUseAltIdx; lia|].
    cbn [mbind result_bind]. destruct (_ || _); (eexists; split; [done|]; split; [exact Hhi|]; split; [exact Hai|exact Hbm]).
  - eexists. split; [done|]. split; [split; simpl; lia|]. split; [exact Hai|exact Hbm].
Qed.

Lemma spec_predict_ok pc l t : tables_ok t → ∃ bi, spec_predict pr histLengths pc l t = Ok bi ∧ info_ok bi.
Proof.
  intros Ht. rewrite spec_predict_eq by done. cbn zeta. pose proof (arrays_filled pc l) as Ha.
  destruct (predict_banks_ok _ _ pc t Ht Ha) as (p & -> & Hp). simpl. eexists. split; [done|]. by split.
Qed.

(** ** Training *)

Lemma min_useful_ok p ti tt t : tables_ok t → arrays ti tt → 0 <= hitBank p <= n →
  ∃ m, min_useful pr p ti t = Ok m.
Proof.
  intros Ht Ha Hp. unfold min_useful. destruct (for_each_ok (λ _, True) (λ (i m : Z),
    x ← arr_get ti i; e ← entry t i x; Ok (if u e <? m then u e else m))
    (rev (seqZ (hitBank p + 1) (n - hitBank p))) 1) as (m & H & _); [done| |by exists m].
  intros i m Hi _. apply list_elem_of_In, in_rev, list_elem_of_In, elem_of_seqZ in Hi.
  destruct (Ha i) as ((x & -> & Hx) & _); [lia|]. simpl. destruct (entry_load t i x Ht) as (e & -> & _); [lia|done|].
  by eexists.
Qed.

Lemma first_bank_range p nrand : hitBank p < n → hitBank p < first_bank pr p nrand <= n.
Proof.
  intros Hp. unfold first_bank. set (m := n - hitBank p - 1).
  assert (0 < m ∨ nrand .& low_mask m .& 1 = 0) as H1.
  { destruct (Z.eq_dec m 0) as [->|]; [right|left; lia]. change (low_mask 0) with 0. by rewrite Z.land_0_r. }
  assert (1 < m ∨ nrand .& low_mask m .& 2 = 0) as H2.
  { destruct (Z.eq_dec m 0) as [->|]; [right|]. { change (low_mask 0) with 0. by rewrite Z.land_0_r. }
    destruct (Z.eq_dec m 1) as [->|]; [right|left; lia]. change (low_mask 1) with 1.
    rewrite <-Z.land_assoc. apply Z.land_0_r. }
  destruct (Z.eqb_spec (nrand .& low_mask m .& 1) 0); [lia|]. destruct (Z.eqb_spec (nrand .& low_mask m .& 2) 0); lia.
Qed.

Lemma new_entry_ok i (b : bool) y : 1 <= i <= n → fits (width i) y → entry_ok i (mkEntry (if b then 0 else -1) (u16 y) 0).
Proof.
  intros Hi Hy. pose proof (c_ctr _ _ Hc). pose proof (c_u _ _ Hc). pose proof (width_fits i Hi).
  pose proof (pow2_pos (tagTableCounterBits pr - 1) ltac:(lia)). pose proof (pow2_pos (tagTableUBits pr) ltac:(lia)).
  split; [unfold signed; simpl; destruct b; lia|]. split; [unfold fits; simpl; lia|]. simpl.
  rewrite wrap_small; [done|]. eapply fits_le; [|done]. lia.
Qed.

Lemma allocate_ok ti tt (b : bool) : arrays ti tt → ∀ (l : list Z) k t, (∀ i, i ∈ l → 1 <= i <= n) → tables_ok t →
  ∃ t', allocate pr l ti tt b k t = Ok t' ∧ tables_ok t'.
Proof.
  intros Ha. induction l as [|i l IH]; intros k t Hl Ht; cbn [allocate]; [by exists t|].
  destruct (Ha i) as ((x & -> & Hx) & (y & -> & Hy)); [apply Hl; set_solver|]. simpl.
  destruct (entry_load t i x Ht) as (e & -> & He); [apply Hl; set_solver|done|]. simpl.
  destruct (Z.eqb_spec (u e) 0) as [->|]; [|apply IH; [set_solver|done]].
  destruct (write_entry_ok t i x (mkEntry (if b then 0 else -1) (u16 y) 0) Ht) as (t' & -> & Ht');
    [apply Hl; set_solver|done|apply new_entry_ok; [apply Hl; set_solver|done]|]. simpl.
  destruct (_ =? _); [by exists t'|]. apply IH; [set_solver|done].
Qed.

Lemma handleUReset_ok t : tables_ok t → ∃ t', handleUReset pr t = Ok t' ∧ tables_ok t'.
Proof.
  intros Ht. pose proof (c_period _ _ Hc). pose proof (c_u _ _ Hc). unfold handleUReset. rewrite shift_ok_true by lia. simpl.
  destruct (_ =? _); [|by exists t]. apply for_each_ok; [done|]. intros i t1 Hi Ht1. unfold banks in Hi.
  apply elem_of_seqZ in Hi. destruct (table_load t1 i Ht1) as (l & -> & Hl & Hf); [lia|]. simpl.
  destruct (set_table_ok t1 i (map (λ e, set_u (resetUctr (u e)) e) l) Ht1) as (g & -> & Hg); [lia| |simpl; by eexists].
  split; [by rewrite length_map|]. apply Forall_map. eapply Forall_impl; [done|]. intros e (H1 & H2 & H3).
  split; [done|]. split; [|done]. apply fits_shiftr; [lia|done|done].
Qed.

Lemma tables_ok_tCounter t c : tables_ok t → tables_ok (set_tCounter c t).
Proof. done. Qed.

Lemma allocate_entries_ok b bi nrand t : tables_ok t → info_ok bi → hitBank (prediction bi) < n → n < 64 →
  ∃ t', allocate_entries pr b bi nrand t = Ok t' ∧ tables_ok t'.
Proof.
  intros Ht (Ha & (Hh & _) & _) Hal H64. pose proof (first_bank_range _ nrand Hal) as HX. unfold allocate_entries.
  destruct (min_useful_ok (prediction bi) _ _ t Ht Ha) as (m & ->); [done|]. simpl.
  rewrite shift_ok_true by lia. simpl. set (X := first_bank _ _ _) in *.
  assert (∃ t1, (if 0 <? m then x ← arr_get (bi_tableIndices bi) X; e ← entry t X x; write_entry t X x (set_u 0 e)
    else Ok t) = Ok t1 ∧ tables_ok t1) as (t1 & -> & Ht1).
  { destruct (0 <? m); [|by exists t]. destruct (Ha X) as ((x & -> & Hx) & _); [lia|]. simpl.
    destruct (entry_load t X x Ht) as (e & -> & He1 & He2 & He3); [lia|done|]. simpl. apply write_entry_ok; [done|lia|done|].
    split; [done|]. split; [|done]. pose proof (c_u _ _ Hc). pose proof (pow2_pos (tagTableUBits pr)). unfold fits. simpl. lia. }
  simpl. eapply allocate_ok; [done| |done]. intros i Hi. apply elem_of_seqZ in Hi. lia.
Qed.

Lemma handleAlloc_ok (alloc b : bool) bi nrand t : tables_ok t → info_ok bi →
  (alloc = true → hitBank (prediction bi) < n) → n < 64 →
  ∃ t', handleAllocAndUReset pr alloc b bi nrand t = Ok t' ∧ tables_ok t'.
Proof.
  intros Ht Hi Hal H64. unfold handleAllocAndUReset.
  assert (∃ t', (if alloc then allocate_entries pr b bi nrand t else Ok t) = Ok t' ∧ tables_ok t') as (t' & -> & Ht').
  { destruct alloc; [|by exists t]. apply allocate_entries_ok; auto. }
  cbn [mbind result_bind]. by apply handleUReset_ok, tables_ok_tCounter.
Qed.

Lemma handleTAGEUpdate_ok b p t : tables_ok t → prediction_ok p → ∃ t', handleTAGEUpdate pr b p t = Ok t' ∧ tables_ok t'.
Proof.
  intros Ht ((Hh1 & Hh2) & (Ha1 & Ha2) & Hb). unfold handleTAGEUpdate.
  destruct (Z.ltb_spec 0 (hitBank p)); [|by apply baseUpdate_ok].
  destruct (train_entry_ok (hitBank p) (hitBankIndex p) b t Ht) as (t1 & -> & Ht1); [lia|auto|]. simpl.
  destruct (entry_load t1 (hitBank p) (hitBankIndex p) Ht1) as (e & -> & _); [lia|auto|]. simpl.
  assert (∃ t2, (if u e =? 0 then
      t ← (if 0 <? altBank p then train_entry pr (altBank p) (altBankIndex p) b t1 else Ok t1);
      if altBank p =? 0 then baseUpdate pr b p t else Ok t else Ok t1) = Ok t2 ∧ tables_ok t2) as (t2 & -> & Ht2).
  { destruct (u e =? 0); [|by exists t1].
    assert (∃ t2, (if 0 <? altBank p then train_entry pr (altBank p) (altBankIndex p) b t1 else Ok t1) = Ok t2 ∧ tables_ok t2)
      as (t2 & -> & Ht2).
    { destruct (Z.ltb_spec 0 (altBank p)); [|by exists t1]. apply train_entry_ok; [done|lia|auto]. }
    simpl. destruct (_ =? 0); [by apply baseUpdate_ok|by exists t2]. }
  simpl. destruct (negb _); [|by exists t2].
  destruct (entry_load t2 (hitBank p) (hitBankIndex p) Ht2) as (e2 & -> & He1 & He2 & He3); [lia|auto|]. simpl.
  destruct (unsigned_ok (u e2) (eqb (tagePred p) b) (tagTableUBits pr)) as (x & -> & Hx); [pose proof (c_u _ _ Hc); lia|done|].
  simpl. apply write_entry_ok; [done|lia|auto|]. by split.
Qed.

Lemma train_useAlt_ok alloc b p t : tables_ok t →
  ∃ alloc' t', train_useAlt pr alloc b p t = Ok (alloc', t') ∧ tables_ok t' ∧ (alloc' = true → alloc = true).
Proof.
  intros Ht. unfold train_useAlt. destruct (_ && pseudoNewAlloc p); [|by exists alloc, t]. cbn zeta.
  assert ((if eqb (longestMatchPred p) b then false else alloc) = true → alloc = true) as Hal by (by destruct (eqb _ b)).
  destruct (negb _); [|by eexists _, t]. pose proof Ht as (H1 & H2 & H3 & H4 & H5 & H6).
  destruct (load_at_spec (useAltPredForNewlyAllocated t) getUseAltIdx) as (c & -> & Hcl); [unfold getUseAltIdx; lia|].
  cbn [mbind result_bind].
  destruct (ctrUpdate_ok c (eqb (altTaken p) b) (useAltOnNaBits pr)) as (c' & -> & Hc'); [apply Hc|by eapply Forall_lookup_1 in H6|].
  cbn [mbind result_bind]. rewrite store_at_spec by (unfold getUseAltIdx; lia). cbn [mbind result_bind].
  eexists _, _. split; [done|]. split; [|done]. split; [done|]. split; [done|]. split; [done|]. split; [done|].
  simpl. split; [by rewrite length_insert|by apply Forall_insert].
Qed.

Lemma condBranchUpdate_ok b bi nrand pred pre t : tables_ok t → info_ok bi →
  ∃ t', condBranchUpdate pr b bi nrand pred pre t = Ok t' ∧ tables_ok t'.
Proof.
  intros Ht Hi. pose proof (c_log _ _ Hc n ltac:(pose proof (c_banks _ _ Hc); lia)) as Hn.
  unfold condBranchUpdate, adjustAlloc. cbn zeta.
  set (al := negb (eqb (tagePred (prediction bi)) b) && (hitBank (prediction bi) <? n)).
  replace (if pre then al else al) with al by (by destruct pre).
  destruct (train_useAlt_ok al b (prediction bi) t Ht) as (al2 & t2 & -> & Ht2 & Hal2).
  cbn [mbind result_bind]. replace (if pre then al2 else al2) with al2 by (by destruct pre).
  destruct (handleAlloc_ok al2 b bi nrand t2 Ht2 Hi) as (t3 & -> & Ht3).
  - intros ->. specialize (Hal2 eq_refl). subst al. apply andb_true_iff in Hal2 as [_ H]. lia.
  - lia.
  - simpl. apply handleTAGEUpdate_ok; [done|apply Hi].
Qed.

End Tables_.

End TageTables.
