(* ===== verification/TageProps.v ===== *)
(** * cpu/pred/tage: the predictor sees exactly the outcomes of its path

    [related] connects a state of the predictor, with its buffer, pointers, folded histories
    and the records of the branches in flight, to a state of [TageSpec], which has lists of
    outcomes only.  Each event that the branch prediction unit makes keeps it, and no
    operation fails. *)

From Stdlib Require Import ZArith Lia.
From stdpp Require Import base numbers option list sets.
From S2P Require Import Prelude TageBase Tage TageHistory TageTables.

Module TageProps.
Import TageBase Tage TageSpec TageHistory TageThread TagePath TageIndex TageTables.
Implicit Types (l : list Branch) (th : ThreadHistory) (bi : BranchInfo) (f : Flight).

Section Refinement.
Context (pr : TAGEParams) (histLengths : list Z) (Hc : config_ok pr histLengths) (window : Z).
Context (Hw : 2 * maxHist pr + window < histBufferSize pr).
#[local] Abbreviation n := (nHistoryTables pr).
#[local] Abbreviation speculative := (speculativeHistUpdate pr).
#[local] Abbreviation recorded := (recorded pr histLengths).
#[local] Abbreviation thread_ok := (thread_ok pr histLengths).
#[local] Abbreviation info_ok := (info_ok pr).
#[local] Abbreviation tables_ok := (tables_ok pr).

(** ** The specification never fails *)

Definition flight_ok f : Prop := ∀ bi, f_info f = Some bi → info_ok bi.
Definition spec_ok (sp : Spec) : Prop :=
  tables_ok (spec_tables sp) ∧ ∀ tid sth, threads sp !! tid = Some sth → Forall flight_ok (flight sth).

Lemma spec_put sp tid t sth : spec_ok sp → tables_ok t → Forall flight_ok (flight sth) →
  spec_ok (mkSpec t (<[tid := sth]> (threads sp))).
Proof.
  intros (_ & Hf) Ht Hs. split; [done|]. intros tid' sth' H. simpl in H.
  apply list_lookup_insert_Some in H as [(_ & <- & _)|[_ H]]; [done|by eapply Hf].
Qed.

Lemma oldest_ok {A} (x : list A) : (0 < length x)%nat → ∃ a, last x = Some a ∧ oldest x = Ok (a, take (length x - 1) x).
Proof.
  intros Hx. unfold oldest. destruct (last x) as [a|] eqn:E; [by exists a|]. apply last_None in E. subst. simpl in Hx. lia.
Qed.

Lemma enabled_thread sp tid (ok : Thread → bool) :
  from_option ok false (threads sp !! tid) = true → ∃ sth, threads sp !! tid = Some sth ∧ ok sth = true.
Proof. destruct (threads sp !! tid) as [sth|]; [by exists sth|done]. Qed.

Lemma spec_step_ok e sp : spec_ok sp → enabled pr window sp e = true →
  ∃ o sp', spec_step pr histLengths e sp = Ok (o, sp') ∧ spec_ok sp'.
Proof.
  intros Hs He. pose proof Hs as (Ht & Hf).
  destruct e as [tid pc uncond taken|tid k taken|tid k|tid taken random]; apply enabled_thread in He as (sth & Hth & He);
    simpl; rewrite Hth; cbn [deref mbind result_bind]; pose proof (Hf _ _ Hth) as Hfl.
  - assert (∃ o, (if uncond then Ok None else bi ← spec_predict pr histLengths pc (path sth) (spec_tables sp); Ok (Some bi)) = Ok o
      ∧ ∀ bi, o = Some bi → info_ok bi) as (o & -> & Ho).
    { destruct uncond; [by exists None|]. destruct (spec_predict_ok pr histLengths Hc pc (path sth) _ Ht) as (bi & -> & Hb).
      exists (Some bi). split; [done|]. by intros ? [= <-]. }
    cbn [mbind result_bind]. eexists _, _. split; [done|]. apply spec_put; [done|done|]. by constructor.
  - apply bool_decide_eq_true in He. destruct (lookup_lt_is_Some_2 _ _ He) as (f & ->). cbn [deref mbind result_bind].
    eexists _, _. split; [done|]. apply spec_put; [done|done|]. by apply Forall_drop.
  - eexists _, _. split; [done|]. apply spec_put; [done|done|]. by apply Forall_drop.
  - apply bool_decide_eq_true in He. destruct (oldest_ok _ He) as (f & Hl & ->). cbn [mbind result_bind].
    assert (∃ t, spec_train pr (f_info f) taken random (spec_tables sp) = Ok t ∧ tables_ok t) as (t & -> & Ht').
    { unfold spec_train. destruct (f_info f) as [bi|] eqn:E; [|by eexists].
      eapply condBranchUpdate_ok; [done|done|]. apply last_Some_elem_of in Hl.
      rewrite Forall_forall in Hfl. by apply (Hfl f). }
    cbn [mbind result_bind]. eexists _, _. split; [done|]. apply spec_put; [done|done|]. by apply Forall_take.
Qed.

(** ** The states of the two *)

Definition info_rel bi (o : option BranchInfo) : Prop :=
  match o with
  | None => condBranch bi = false
  | Some si => condBranch bi = true ∧ prediction bi = prediction si ∧
      bi_tableIndices bi = bi_tableIndices si ∧ bi_tableTags bi = bi_tableTags si
  end.

(** A branch in flight in a history of [k] outcomes. *)
Definition flight_rel th (k : nat) (x : Z * option BranchInfo) f : Prop :=
  ∃ bi, x = (f_pc f, Some bi) ∧ info_rel bi (f_info f) ∧
    (speculative = true →
      recorded th bi (mkBranch (f_pc f) false) (f_before f) (Z.of_nat k - Z.of_nat (length (f_before f)) - 1)).

(** Each branch came after the ones before it. *)
Fixpoint nested (k : nat) (fl : list Flight) : Prop :=
  match fl with [] => True | f :: fl => (length (f_before f) < k)%nat ∧ nested (length (f_before f)) fl end.

Definition thread_rel th (fl : list (Z * option BranchInfo)) (sth : Thread) : Prop :=
  thread_ok th (path sth) ∧ Forall2 (flight_rel th (length (path sth))) fl (flight sth) ∧
  (speculative = true → nested (length (path sth)) (flight sth)).

Definition related (st : System) (sp : Spec) : Prop :=
  tables (base st) = spec_tables sp ∧ scratch pr (tableIndices (base st)) ∧ scratch pr (tableTags (base st)) ∧
  ∀ tid sth, threads sp !! tid = Some sth →
    ∃ th fl, threadHistory (base st) !! tid = Some th ∧ flights st !! tid = Some fl ∧ thread_rel th fl sth.

Lemma nested_le k k' fl : nested k fl → (k <= k')%nat → nested k' fl.
Proof. destruct fl as [|f fl]; [done|]. intros [H1 H2] Hk. split; [lia|done]. Qed.

Lemma nested_drop i : ∀ k fl, nested k fl → nested k (drop i fl).
Proof.
  induction i as [|i IH]; intros k [|f fl]; simpl; try done. intros [H1 H2]. eapply nested_le; [by apply IH|lia].
Qed.

Lemma nested_take i : ∀ k fl, nested k fl → nested k (take i fl).
Proof. induction i as [|i IH]; intros k [|f fl]; simpl; try done. intros [H1 H2]. split; [done|by apply IH]. Qed.

Lemma nested_below fl : ∀ k, nested k fl → Forall (λ f, (length (f_before f) < k)%nat) fl.
Proof.
  induction fl as [|f fl IH]; intros k; [constructor|]. intros [H1 H2]. constructor; [done|].
  eapply Forall_impl; [by apply IH|]. simpl. lia.
Qed.

(** A thread is put back. *)
Lemma related_put st sp tid s t sth0 sth th fl : related st sp → threads sp !! tid = Some sth0 →
  tables s = t → scratch pr (tableIndices s) → scratch pr (tableTags s) →
  threadHistory s = <[tid := th]> (threadHistory (base st)) → thread_rel th fl sth →
  related (mkSystem s (<[tid := fl]> (flights st))) (mkSpec t (<[tid := sth]> (threads sp))).
Proof.
  intros (_ & _ & _ & Hr) Hsp Ht H1 H2 Hth Hrel. split; [done|]. split; [done|]. split; [done|].
  intros tid' sth' H. simpl in *. destruct (Hr _ _ Hsp) as (th0 & fl0 & Hth0 & Hfl0 & _).
  apply lookup_lt_Some in Hth0, Hfl0.
  apply list_lookup_insert_Some in H as [(<- & <- & _)|[Hne H]].
  - exists th, fl. rewrite Hth, !list_lookup_insert_eq by done. done.
  - rewrite Hth. setoid_rewrite list_lookup_insert_ne; [|done..]. by apply Hr.
Qed.

Lemma set_thread_same tid th s : threadHistory s !! tid = Some th → set_thread tid th s = s.
Proof. intros H. unfold set_thread. rewrite list_insert_id by done. by destruct s. Qed.

(** ** A prediction *)

Lemma push_rel th fl sth th' bi pc taken o : speculative = true → thread_rel th fl sth →
  forallb (λ f, Z.of_nat (length (path sth)) - Z.of_nat (length (f_before f)) <=? window) (flight sth) = true →
  pushed pr th th' → thread_ok th' (mkBranch pc taken :: path sth) → info_rel bi o →
  recorded th' bi (mkBranch pc taken) (path sth) 0 →
  thread_rel th' ((pc, Some bi) :: fl) (mkPath (mkBranch pc taken :: path sth) (mkFlight pc (path sth) o :: flight sth)).
Proof.
  intros Hs (Ht & Hfl & Hn) Hwin Hp Ht' Hi Hrec. split; [done|]. split.
  - constructor; simpl.
    + exists bi. split; [done|]. split; [done|]. intros _. simpl.
      replace (Z.of_nat (S (length (path sth))) - Z.of_nat (length (path sth)) - 1) with 0 by lia. exact Hrec.
    + specialize (Hn Hs). apply nested_below in Hn. apply Forall2_same_length_lookup.
      split; [by eapply Forall2_length|]. intros i x f Hx Hf.
      rewrite forallb_forall in Hwin. specialize (Hwin f). rewrite Forall_lookup in Hn. specialize (Hn _ _ Hf).
      assert (f ∈ flight sth) as Hin by (by eapply list_elem_of_lookup_2). apply list_elem_of_In in Hin. specialize (Hwin Hin).
      pose proof (Forall2_lookup_lr _ _ _ _ _ _ Hfl Hx Hf) as (bi0 & -> & Hi0 & Hr0). exists bi0. split; [done|]. split; [done|].
      intros _. specialize (Hr0 Hs). eapply recorded_push in Hr0; [|done|done|lia].
      by replace (Z.of_nat (S (length (path sth))) - Z.of_nat (length (f_before f)) - 1)
        with (Z.of_nat (length (path sth)) - Z.of_nat (length (f_before f)) - 1 + 1) by lia.
  - intros _. simpl. split; [lia|by apply Hn].
Qed.

Lemma pass_rel th fl sth bi pc o : speculative = false → thread_rel th fl sth → info_rel bi o →
  thread_rel th ((pc, Some bi) :: fl) (mkPath (path sth) (mkFlight pc (path sth) o :: flight sth)).
Proof.
  intros Hs (Ht & Hfl & Hn) Hi. split; [done|]. split; [|by rewrite Hs]. constructor; [|done].
  exists bi. split; [done|]. split; [done|]. by rewrite Hs.
Qed.

Lemma same_info bi bi' o : same_branch bi bi' → info_rel bi o → info_rel bi' o.
Proof. intros (H1 & H2 & H3 & H4). unfold info_rel. by rewrite H1, H2, H3, H4. Qed.

Lemma new_arrays p ti tt pc c : arrays_ok pr (set_branch pc c (set_prediction p (set_bi_tables ti tt (makeBranchInfo pr)))).
Proof.
  pose proof (c_banks _ _ Hc). unfold arrays_ok. simpl. unfold new_array. rewrite length_replicate. lia.
Qed.

Lemma scratch_new : scratch pr (new_array (n + 1)).
Proof.
  pose proof (c_banks _ _ Hc). split; [unfold new_array; rewrite length_replicate; lia|].
  unfold new_array. apply lookup_replicate. split; [done|lia].
Qed.

(** The record of the branch and its lookup. *)
Lemma record_ok st sp tid sth th fl bi pc taken o s : related st sp → threads sp !! tid = Some sth →
  enabled pr window sp (Predict tid pc (match o with None => true | Some _ => false end) taken) = true →
  threadHistory (base st) !! tid = Some th → flights st !! tid = Some fl → thread_rel th fl sth →
  threadHistory s = threadHistory (base st) → tables s = spec_tables sp →
  scratch pr (tableIndices s) → scratch pr (tableTags s) → arrays_ok pr bi → info_rel bi o →
  ∃ bi' s', TageBase.updateHistories pr tid pc taken bi true s = Ok (bi', s') ∧ same_branch bi bi' ∧
    related (mkSystem s' (<[tid := (pc, Some bi') :: fl]> (flights st)))
      (mkSpec (spec_tables sp) (<[tid := mkPath (if speculative then mkBranch pc taken :: path sth else path sth)
        (mkFlight pc (path sth) o :: flight sth)]> (threads sp))).
Proof.
  intros Hr Hsp He Hth Hfl Hrel Hs Ht H1 H2 Ha Hi. simpl in He. rewrite Hsp in He. simpl in He.
  destruct speculative eqn:Hspec; simpl in He.
  - destruct (updateHistories_ok pr histLengths Hc tid pc taken bi s th (path sth)) as (bi' & th' & Hu & Ht' & Hp & Hsb & Hrec);
      [by rewrite Hs|apply Hrel|done|]. rewrite Hspec in Hu. rewrite Hu. exists bi', (set_thread tid th' s).
    split; [done|]. split; [done|]. eapply related_put; try done; [simpl; by rewrite Hs|].
    eapply push_rel; try done; [by eapply same_info|by apply Hrec].
  - pose proof (updateHistories_other pr tid pc taken bi s) as Hu. rewrite Hspec in Hu. simpl in Hu. rewrite Hu.
    exists bi, s. split; [done|]. split; [done|]. eapply related_put; try done; [rewrite Hs; by rewrite list_insert_id|].
    by apply pass_rel.
Qed.

Lemma predict_refines st sp tid pc uncond taken o sp' : related st sp →
  enabled pr window sp (Predict tid pc uncond taken) = true →
  spec_step pr histLengths (Predict tid pc uncond taken) sp = Ok (o, sp') →
  ∃ st', step pr histLengths (Predict tid pc uncond taken) st = Ok (o, st') ∧ related st' sp'.
Proof.
  intros Hr He Hsp. pose proof He as He'. apply enabled_thread in He' as (sth & Hth & _).
  pose proof Hr as (Htab & Hs1 & Hs2 & Hall). destruct (Hall _ _ Hth) as (th & fl & Hlk & Hfl & Hrel).
  simpl in Hsp |- *. rewrite Hth in Hsp. rewrite Hfl. cbn [deref mbind result_bind] in *. pose proof scratch_new as Hsc.
  destruct uncond.
  - injection Hsp as <- <-. unfold updateHistories, predict, tagePredict. simpl.
    destruct (record_ok st sp tid sth th fl (set_branch pc false (makeBranchInfo pr)) pc taken None (base st)) as (bi' & s' & -> & _ & Hrel');
      try done; [apply (new_arrays Prediction_new (new_array (n + 1)) (new_array (n + 1)) pc false)|].
    simpl. by eexists.
  - rewrite spec_predict_eq in Hsp by done. unfold lookup, predict, tagePredict.
    rewrite (calculate_path pr histLengths Hc tid pc _ _ th (path sth)); [|done|apply Hrel|done|done|done|done].
    cbn [mbind result_bind tableIndices tableTags set_scratch tables]. rewrite Htab.
    set (ti := filled pr (index_of pr histLengths pc (path sth))) in *. set (tt := filled pr (tag_of pr histLengths pc (path sth))) in *.
    cbn zeta in Hsp. destruct (predict_banks pr ti tt pc (spec_tables sp)) as [p|]; [|done].
    cbn [mbind result_bind] in *. injection Hsp as <- <-. unfold updateHistories. simpl.
    assert (scratch pr ti ∧ scratch pr tt) as [Hti Htt].
    { pose proof (c_banks _ _ Hc). split; (split; [by apply filled_length|done]). }
    destruct (record_ok st sp tid sth th fl (set_branch pc true (set_prediction p (set_bi_tables ti tt (makeBranchInfo pr)))) pc taken
      (Some (mkBranchInfo 0 0 p true pc ti tt [] [] [])) (set_scratch ti tt (base st))) as (bi' & s' & -> & (Hb & _) & Hrel');
      try done; [apply new_arrays|]. simpl. rewrite Hb. by eexists.
Qed.

(** ** A correction *)

Lemma squash_all_ok th k (fl : list (Z * option BranchInfo)) sfl : Forall2 (flight_rel th k) fl sfl → squash_all fl = Ok tt.
Proof.
  unfold squash_all. induction 1 as [|x f fl sfl (bi & -> & _) _ IH]; [done|]. simpl. exact IH.
Qed.

Lemma correct_rel tid taken st th fl sth k f : thread_rel th fl sth → flight sth !! k = Some f →
  threadHistory (base st) !! tid = Some th →
  ∃ bi th', fl !! k = Some (f_pc f, Some bi) ∧
    TageBase.squash pr tid taken bi (base st) = Ok (set_thread tid th' (base st)) ∧
    thread_rel th' ((f_pc f, Some bi) :: drop (S k) fl)
      (mkPath (if speculative then mkBranch (f_pc f) taken :: f_before f else path sth) (drop k (flight sth))).
Proof.
  intros (Ht & Hfl & Hn) Hf Hlk. destruct (Forall2_lookup_r _ _ _ _ _ Hfl Hf) as (x & Hx & bi & -> & Hi & Hrec).
  exists bi. rewrite (drop_S _ _ _ Hf). pose proof (Forall2_drop _ _ _ (S k) Hfl) as Hdrop.
  destruct speculative eqn:Hs.
  - specialize (Hrec eq_refl). specialize (Hn eq_refl).
    destruct (goes_back pr histLengths Hc tid taken bi (base st) th _ _ _ _ Hs Hlk Ht Hrec) as (th' & Hsq & Ht' & Hr0 & Hr).
    exists th'. split; [done|]. split; [done|]. split; [done|]. simpl.
    pose proof (nested_drop k _ _ Hn) as Hnk. rewrite (drop_S _ _ _ Hf) in Hnk. destruct Hnk as [Hk1 Hk2].
    split; [constructor|].
    + exists bi. split; [done|]. split; [done|]. intros _.
      by replace (Z.of_nat (S (length (f_before f))) - Z.of_nat (length (f_before f)) - 1) with 0 by lia.
    + apply nested_below in Hk2. apply Forall2_same_length_lookup. split; [by eapply Forall2_length|].
      intros i x g Hx' Hg. rewrite Forall_lookup in Hk2. specialize (Hk2 _ _ Hg).
      pose proof (Forall2_lookup_lr _ _ _ _ _ _ Hdrop Hx' Hg) as (bi2 & -> & Hi2 & Hr2). exists bi2. split; [done|]. split; [done|].
      intros _. specialize (Hr2 Hs). eapply Hr in Hr2; [|lia].
      replace (Z.of_nat (S (length (f_before f))) - Z.of_nat (length (f_before g)) - 1) with
        (Z.of_nat (length (path sth)) - Z.of_nat (length (f_before g)) - 1 -
         (Z.of_nat (length (path sth)) - Z.of_nat (length (f_before f)) - 1)) by lia. exact Hr2.
    + intros _. split; [lia|done].
  - exists th. split; [done|]. unfold TageBase.squash. rewrite Hs. simpl. rewrite set_thread_same by done.
    split; [done|]. split; [done|]. split; [|by rewrite Hs]. constructor; [|done]. exists bi. split; [done|]. split; [done|]. by rewrite Hs.
Qed.

Lemma correct_refines st sp tid k taken o sp' : related st sp →
  enabled pr window sp (Correct tid k taken) = true →
  spec_step pr histLengths (Correct tid k taken) sp = Ok (o, sp') →
  ∃ st', step pr histLengths (Correct tid k taken) st = Ok (o, st') ∧ related st' sp'.
Proof.
  intros Hr He Hsp. apply enabled_thread in He as (sth & Hth & He). apply bool_decide_eq_true in He.
  pose proof Hr as (Htab & Hs1 & Hs2 & Hall). destruct (Hall _ _ Hth) as (th & fl & Hlk & Hfl & Hrel).
  destruct (lookup_lt_is_Some_2 _ _ He) as (f & Hf). simpl in Hsp |- *. rewrite Hth in Hsp. rewrite Hfl.
  cbn [deref mbind result_bind] in *. rewrite Hf in Hsp. cbn [deref mbind result_bind] in Hsp. injection Hsp as <- <-.
  pose proof Hrel as (_ & Hf2 & _). rewrite (squash_all_ok th (length (path sth)) (take k fl) (take k (flight sth))) by (by apply Forall2_take).
  destruct (correct_rel tid taken st th fl sth k f Hrel Hf Hlk) as (bi & th' & -> & Hsq & Hrel').
  cbn [deref mbind result_bind]. unfold update. simpl. rewrite Hsq. simpl. eexists. split; [done|].
  by eapply related_put.
Qed.

(** ** Squashing and committing *)

Lemma squash_refines st sp tid k o sp' : related st sp → enabled pr window sp (Squash tid k) = true →
  spec_step pr histLengths (Squash tid k) sp = Ok (o, sp') →
  ∃ st', step pr histLengths (Squash tid k) st = Ok (o, st') ∧ related st' sp'.
Proof.
  intros Hr He Hsp. apply enabled_thread in He as (sth & Hth & _).
  pose proof Hr as (Htab & Hs1 & Hs2 & Hall). destruct (Hall _ _ Hth) as (th & fl & Hlk & Hfl & Hrel).
  simpl in Hsp |- *. rewrite Hth in Hsp. rewrite Hfl. cbn [deref mbind result_bind] in *. injection Hsp as <- <-.
  pose proof Hrel as (Ht & Hf2 & Hn). rewrite (squash_all_ok th (length (path sth)) (take k fl) (take k (flight sth))) by (by apply Forall2_take).
  simpl. eexists. split; [done|]. eapply related_put; try done; [by rewrite list_insert_id|].
  split; [done|]. split; [by apply Forall2_drop|]. intros Hs. by apply nested_drop, Hn.
Qed.

Lemma condBranchUpdate_same b bi bi' nrand pre t : prediction bi = prediction bi' →
  bi_tableIndices bi = bi_tableIndices bi' → bi_tableTags bi = bi_tableTags bi' →
  condBranchUpdate pr b bi nrand (tagePred (prediction bi)) pre t = condBranchUpdate pr b bi' nrand (tagePred (prediction bi')) pre t.
Proof.
  intros H1 H2 H3. unfold condBranchUpdate, handleAllocAndUReset, allocate_entries. by rewrite H1, H2, H3.
Qed.

Lemma commit_refines st sp tid taken random o sp' : related st sp →
  enabled pr window sp (Commit tid taken random) = true →
  spec_step pr histLengths (Commit tid taken random) sp = Ok (o, sp') →
  ∃ st', step pr histLengths (Commit tid taken random) st = Ok (o, st') ∧ related st' sp'.
Proof.
  intros Hr He Hsp. apply enabled_thread in He as (sth & Hth & He). apply bool_decide_eq_true in He.
  pose proof Hr as (Htab & Hs1 & Hs2 & Hall). destruct (Hall _ _ Hth) as (th & fl & Hlk & Hfl & Hrel).
  pose proof Hrel as (Ht & Hf2 & Hn). pose proof (Forall2_length _ _ _ Hf2) as Hlen.
  simpl in Hsp |- *. rewrite Hth in Hsp. rewrite Hfl. cbn [deref mbind result_bind] in *.
  destruct (oldest_ok _ He) as (f & Hf & Hof). rewrite Hof in Hsp. cbn [mbind result_bind] in Hsp.
  destruct (oldest_ok fl) as (x & Hx & ->); [lia|]. cbn [mbind result_bind].
  rewrite last_lookup in Hf. rewrite last_lookup in Hx. rewrite Hlen in Hx.
  destruct (Forall2_lookup_lr _ _ _ _ _ _ Hf2 Hx Hf) as (bi & -> & Hi & _).
  destruct (spec_train pr (f_info f) taken random (spec_tables sp)) as [t|] eqn:Htr; [|done]. cbn [mbind result_bind] in Hsp.
  injection Hsp as <- <-. unfold update. simpl.
  assert ((if condBranch bi then
      t ← condBranchUpdate pr taken bi (random .& 3) (tagePred (prediction bi)) false (tables (base st));
      Ok (set_tables t (base st)) else Ok (base st)) = Ok (set_tables t (base st))) as ->.
  { unfold spec_train, info_rel in *. destruct (f_info f) as [si|].
    - destruct Hi as (-> & H1 & H2 & H3). rewrite (condBranchUpdate_same _ bi si) by done. rewrite Htab, Htr. done.
    - rewrite Hi. injection Htr as <-. rewrite <-Htab. by destruct st as [[]]. }
  simpl. rewrite Hlen.
  assert (Forall2 (flight_rel th (length (path sth))) (take (length (flight sth) - 1) fl) (take (length (flight sth) - 1) (flight sth))) as Hf2'
    by (by apply Forall2_take).
  destruct speculative eqn:Hs.
  - pose proof (updateHistories_other pr tid (f_pc f) taken bi (set_tables t (base st))) as Hu. rewrite Hs in Hu. simpl in Hu. rewrite Hu.
    simpl. eexists. split; [done|]. eapply related_put; try done; [simpl; by rewrite list_insert_id|].
    split; [done|]. split; [done|]. intros _. by apply nested_take, Hn.
  - destruct (updateHistories_ok pr histLengths Hc tid (f_pc f) taken bi (set_tables t (base st)) th (path sth)) as (bi' & th' & Hu & Ht' & _ & _ & _);
      [done|done|by rewrite Hs|]. rewrite Hs in Hu. rewrite Hu. simpl. eexists. split; [done|]. eapply related_put; try done.
    split; [done|]. split; [|by rewrite Hs]. eapply Forall2_impl; [done|]. intros x g (bi2 & -> & Hi2 & _).
    exists bi2. split; [done|]. split; [done|]. by rewrite Hs.
Qed.

(** ** Runs *)

Lemma step_refines e st sp o sp' : related st sp → enabled pr window sp e = true →
  spec_step pr histLengths e sp = Ok (o, sp') → ∃ st', step pr histLengths e st = Ok (o, st') ∧ related st' sp'.
Proof.
  destruct e; [apply predict_refines|apply correct_refines|apply squash_refines|apply commit_refines].
Qed.

Lemma tage_run_refines es : ∀ st sp, related st sp → spec_ok sp → legal pr histLengths window es sp = true →
  ∃ o st' sp', run pr histLengths es st = Ok (o, st') ∧ spec_run pr histLengths es sp = Ok (o, sp') ∧
    related st' sp' ∧ spec_ok sp'.
Proof.
  induction es as [|e es IH]; intros st sp Hr Hs Hl; cbn [run spec_run legal] in *; [by exists [], st, sp|].
  apply andb_true_iff in Hl as [He Hl]. destruct (spec_step_ok e sp Hs He) as (o & sp1 & Hsp & Hs1). rewrite Hsp in Hl |- *.
  destruct (step_refines e st sp o sp1 Hr He Hsp) as (st1 & -> & Hr1). cbn [mbind result_bind].
  destruct (IH st1 sp1 Hr1 Hs1 Hl) as (o2 & st2 & sp2 & -> & -> & Hr2 & Hs2). cbn [mbind result_bind].
  by exists (o ++ o2), st2, sp2.
Qed.

End Refinement.

(** ** The first state *)

Section Start.
Context (pr : TAGEParams) (histLengths : list Z) (Hc : config_ok pr histLengths).
#[local] Abbreviation n := (nHistoryTables pr).
#[local] Abbreviation len := (at_bank histLengths).
#[local] Abbreviation log := (at_bank (logTagTableSizes pr)).
#[local] Abbreviation width := (at_bank (tagTableTagWidths pr)).

Lemma outcome_nil i : outcome_at [] i = 0.
Proof. done. Qed.

Lemma folded_nil C k : folded C [] k = 0.
Proof. induction k as [|k IH]; [done|]. cbn [folded]. by rewrite IH, outcome_nil, Z.shiftl_0_l. Qed.

(** The banks below [k] are initialised. *)
Definition started (C : Z → Z) (k : Z) (fs : list FoldedHistory) : Prop :=
  Z.of_nat (length fs) = n + 1 ∧
  ∀ i, 1 <= i < k → ∃ x, fs !! Z.to_nat i = Some x ∧ shows (C i) (len i) [] x.

Lemma start_one (C : Z → Z) i fs : 1 <= i <= n → 1 <= C i → started C i fs →
  ∃ x fs', FoldedHistory_init (len i) (C i) = Ok x ∧ store_at fs i x = Ok fs' ∧ started C (i + 1) fs'.
Proof.
  intros Hi HC (Hl & Hs). pose proof (c_length _ _ Hc i Hi). unfold FoldedHistory_init.
  replace (C i =? 0) with false by lia. eexists _, _. split; [done|]. rewrite store_at_spec by lia. split; [done|].
  split; [by rewrite length_insert|]. intros j Hj. destruct (Z.eq_dec j i) as [->|].
  - rewrite list_lookup_insert_eq by lia. eexists. split; [done|]. unfold shows. rewrite folded_nil. f_equal.
    apply Z.rem_mod_nonneg; lia.
  - rewrite list_lookup_insert_ne by lia. apply Hs. lia.
Qed.

Lemma init_ok th : started log 1 (computeIndices th) → started width 1 (computeTags0 th) →
  started (λ i, width i - 1) 1 (computeTags1 th) →
  ∃ th', initFoldedHistories pr histLengths th = Ok th' ∧ same_ring th th' ∧ folded_ok pr histLengths (λ _, []) th'.
Proof.
  intros H1 H2 H3. pose proof (c_banks _ _ Hc). unfold initFoldedHistories.
  edestruct (for_banks pr (λ i th', same_ring th th' ∧ started log i (computeIndices th') ∧
    started width i (computeTags0 th') ∧ started (λ i, width i - 1) i (computeTags1 th')))
    as (th' & He & Hr & S1 & S2 & S3); [| | |rewrite He; exists th'; split; [done|]; split; [done|]; split_and!].
  - lia.
  - done.
  - intros i t Hi (Hr & S1 & S2 & S3). pose proof (widths pr histLengths Hc i Hi) as (W1 & W2 & W3).
    rewrite (load_len pr histLengths Hc), (load_log pr histLengths Hc), (load_width pr histLengths Hc) by lia.
    cbn [mbind result_bind]. pose proof (c_width _ _ Hc i Hi).
    rewrite (swrap_small (width i)), (wrap_small 32 (width i - 1)), (swrap_small (width i - 1)) by (unfold fits; lia).
    destruct (start_one log i _ Hi (proj1 W1) S1) as (f & a & -> & Ha & Sa).
    destruct (start_one width i _ Hi (proj1 W2) S2) as (g & b & -> & Hb & Sb).
    destruct (start_one (λ i, width i - 1) i _ Hi (proj1 W3) S3) as (h & c & -> & Hcc & Sc).
    cbn [mbind result_bind]. rewrite Ha, Hb, Hcc. cbn [mbind result_bind]. eexists. split; [done|]. by split_and!.
  - destruct S1 as [Hl Hs]. split; [done|]. intros i Hi. apply Hs. lia.
  - destruct S2 as [Hl Hs]. split; [done|]. intros i Hi. apply Hs. lia.
  - destruct S3 as [Hl Hs]. split; [done|]. intros i Hi. apply Hs. lia.
Qed.

Lemma started_new C : started C 1 (replicate (Z.to_nat (n + 1)) (mkFolded 0 0 0 0)).
Proof. pose proof (c_banks _ _ Hc). split; [rewrite length_replicate; lia|]. intros i Hi. lia. Qed.

Lemma new_entry_typed i : 1 <= i <= n → entry_ok pr i TageEntry_new.
Proof.
  intros Hi. pose proof (c_ctr _ _ Hc). pose proof (c_u _ _ Hc). pose proof (c_width _ _ Hc i Hi).
  pose proof (pow2_pos (tagTableCounterBits pr - 1) ltac:(lia)). pose proof (pow2_pos (tagTableUBits pr) ltac:(lia)).
  pose proof (pow2_pos (width i) ltac:(lia)). split; [unfold signed; simpl; lia|]. split; unfold fits; simpl; lia.
Qed.

Lemma build_ok : ∃ g, buildTageTables pr = Ok g ∧ Z.of_nat (length g) = n + 1 ∧
  ∀ i, 1 <= i <= n → ∃ x, g !! Z.to_nat i = Some x ∧ table_ok pr i x.
Proof.
  pose proof (c_banks _ _ Hc). unfold buildTageTables.
  edestruct (for_banks pr (λ k g, Z.of_nat (length g) = n + 1 ∧
    ∀ i, 1 <= i < k → ∃ x, g !! Z.to_nat i = Some x ∧ table_ok pr i x))
    as (g & He & Hl & Hg); [| | |rewrite He; exists g; split; [done|]; split; [done|]; intros i Hi; apply Hg; lia].
  - lia.
  - split; [rewrite length_replicate; lia|]. intros i Hi. lia.
  - intros i g Hi (Hl & Hg). pose proof (c_log _ _ Hc i Hi). rewrite (load_log pr histLengths Hc) by lia. cbn [mbind result_bind].
    rewrite shift_ok_true by lia. cbn [mbind result_bind]. rewrite store_at_spec by lia. eexists. split; [done|].
    split; [by rewrite length_insert|]. intros j Hj. destruct (Z.eq_dec j i) as [->|].
    + rewrite list_lookup_insert_eq by lia. eexists. split; [done|]. split.
      * rewrite length_replicate, Z.shiftl_1_l. pose proof (pow2_pos (log i) ltac:(lia)). lia.
      * apply Forall_replicate. by apply new_entry_typed.
    + rewrite list_lookup_insert_ne by lia. apply Hg. lia.
Qed.

Lemma new_tables_ok g u' c : 0 <= u' → Z.of_nat (length g) = n + 1 → 1 <= u' →
  (∀ i, 1 <= i <= n → ∃ x, g !! Z.to_nat i = Some x ∧ table_ok pr i x) →
  tables_ok pr (mkTables (replicate (Z.to_nat (u64 (1 .<< log 0))) false)
    (replicate (Z.to_nat (u64 (1 .<< log 0) .>> logRatioBiModalHystEntries pr)) true) g (replicate (Z.to_nat u') 0) c).
Proof.
  intros Hu0 Hl Hu Hg. pose proof (c_log0 _ _ Hc). pose proof (c_ratio _ _ Hc). pose proof (c_useAlt _ _ Hc) as [_ Hub].
  pose proof (pow2_pos (log 0) ltac:(lia)). pose proof (pow2_pos (log 0 - logRatioBiModalHystEntries pr) ltac:(lia)).
  pose proof (pow2_pos (useAltOnNaBits pr - 1) ltac:(lia)).
  assert (2 ^ log 0 < 2 ^ 64) by (apply Z.pow_lt_mono_r; lia).
  rewrite Z.shiftl_1_l, (wrap_small 64) by (unfold fits; lia).
  rewrite Z.shiftr_div_pow2, <-Z.pow_sub_r by lia.
  unfold tables_ok. cbn [btablePrediction btableHysteresis gtable useAltPredForNewlyAllocated].
  rewrite !length_replicate. split; [lia|]. split; [lia|]. split; [done|]. split; [done|]. split; [lia|].
  apply Forall_replicate. unfold signed. lia.
Qed.

Lemma new_related geometric s : TAGEBase_new geometric pr = Ok (histLengths, s) →
  related pr histLengths (System_new pr s) (Spec_new pr (tables s)) ∧ spec_ok pr (Spec_new pr (tables s)).
Proof.
  intros H. unfold TAGEBase_new in H. pose proof (c_banks _ _ Hc). pose proof (c_path _ _ Hc).
  apply bind_Ok in H as (? & _ & H). apply bind_Ok in H as (? & _ & H). apply bind_Ok in H as (? & _ & H).
  apply bind_Ok in H as (? & _ & H). apply bind_Ok in H as (hl & _ & H). apply bind_Ok in H as (? & _ & H).
  apply bind_Ok in H as (? & _ & H). apply bind_Ok in H as (? & _ & H). apply bind_Ok in H as (? & _ & H).
  cbv zeta in H. apply bind_Ok in H as (th & Hth & H). apply bind_Ok in H as (l0 & Hl0 & H).
  apply bind_Ok in H as (? & _ & H). apply bind_Ok in H as (g & Hg & H). injection H as -> <-.
  rewrite (load_log pr histLengths Hc) in Hl0 by lia. injection Hl0 as <-.
  edestruct init_ok as (th' & He & (R1 & R2 & R3 & R4) & Hf); [| | |rewrite He in Hth; injection Hth as <-];
    try apply started_new.
  destruct build_ok as (g' & Hg' & Hlg & Hgs). rewrite Hg in Hg'. injection Hg' as <-.
  assert (thread_ok pr histLengths th' []) as Ht.
  { pose proof (buffer_bounds pr histLengths Hc). simpl in R1, R2, R3, R4. split; [by rewrite R2, R3|]. split; [|split; [|done]].
    - rewrite R1, R3. split; [rewrite length_replicate; lia|]. split; [lia|]. intros i Hi. simpl.
      rewrite outcome_nil. apply lookup_replicate. split; [done|lia].
    - rewrite R4. simpl. unfold wrap. by rewrite Z.mod_0_l by (pose proof (pow2_pos (pathHistBits pr)); lia). }
  split.
  - split; [done|]. split; [by eapply scratch_new|]. split; [by eapply scratch_new|]. intros tid sth Hsth. simpl in *.
    apply lookup_replicate in Hsth as [-> Hlt]. exists th', []. rewrite !lookup_replicate_2 by done.
    split; [done|]. split; [done|]. split; [done|]. split; [constructor|done].
  - split; [|intros tid sth Hsth; simpl in Hsth; apply lookup_replicate in Hsth as [-> _]; constructor].
    simpl. pose proof (c_useAlt _ _ Hc) as [Hu _]. apply new_tables_ok; [lia|done|done|done].
Qed.

End Start.

(** C6: TAGE predicts as it would with the list of all outcomes: for every sequence of
    predictions, corrections, squashes and commits that the branch prediction unit makes of
    several threads, in a legal configuration whose buffer is longer than twice the longest
    history and the outcomes recorded after a branch in flight, no operation fails, and the
    predictions (banks, indices, providers and directions) and the tables are those of a
    predictor that hashes the path itself: the circular buffer, the folded histories and what
    a branch restores of them make no difference, nor do roll-overs. *)
Theorem tage_sees_path geometric pr histLengths s window es :
  TAGEBase_new geometric pr = Ok (histLengths, s) → config_ok pr histLengths →
  2 * maxHist pr + window < histBufferSize pr →
  legal pr histLengths window es (Spec_new pr (tables s)) = true →
  ∃ predictions st sp,
    run pr histLengths es (System_new pr s) = Ok (predictions, st) ∧
    spec_run pr histLengths es (Spec_new pr (tables s)) = Ok (predictions, sp) ∧
    tables (base st) = spec_tables sp.
Proof.
  intros Hnew Hc Hw Hl. destruct (new_related pr histLengths Hc geometric s Hnew) as [Hr Hs].
  destruct (tage_run_refines pr histLengths Hc window Hw es _ _ Hr Hs Hl) as (o & st & sp & H1 & H2 & (Ht & _) & _).
  by exists o, st, sp.
Qed.

(** Every state of a run has tables whose counters and tags keep their widths. *)
Lemma tage_tables_typed geometric pr histLengths s window es o st :
  TAGEBase_new geometric pr = Ok (histLengths, s) → config_ok pr histLengths →
  2 * maxHist pr + window < histBufferSize pr →
  legal pr histLengths window es (Spec_new pr (tables s)) = true →
  run pr histLengths es (System_new pr s) = Ok (o, st) → tables_ok pr (tables (base st)).
Proof.
  intros Hnew Hc Hw Hl Hrun. destruct (new_related pr histLengths Hc geometric s Hnew) as [Hr Hs].
  destruct (tage_run_refines pr histLengths Hc window Hw es _ _ Hr Hs Hl) as (o' & st' & sp & H1 & _ & (Ht & _) & (Hok & _)).
  rewrite Hrun in H1. injection H1 as <- <-. by rewrite Ht.
Qed.

(** LTAGE gives its bank 11 a table of 512 entries; the hash of the path then shifts by a
    negative amount. *)
Definition ltage_params : TAGEParams :=
  mkParams 1 2 12 4 640 [0; 7; 7; 8; 8; 9; 10; 11; 12; 12; 13; 14; 15]
    [14; 10; 10; 11; 11; 11; 11; 10; 10; 10; 10; 9; 9] 2 3 2 2097152 16 19 1 (2 ^ 17) 4 1 [] true.

Lemma ltage_hash_undefined path size : 0 <= size < 64 → F ltage_params path size 11 = Err Undefined.
Proof. intros Hs. unfold F. simpl. rewrite shift_ok_true by done. done. Qed.

(** The constructor only asks for a buffer of more than twice the longest history.  With one
    element more than that, four branches in flight over a roll-over are enough: after the
    oldest is corrected, its history is overwritten and the next branch gets other tags than
    those of its path. *)
Definition short_params : TAGEParams :=
  mkParams 1 2 3 2 4 [0; 3; 4; 5] [4; 3; 4; 4] 1 3 2 9 5 3 1 0 4 1 [] true.
Definition short_events : list Event :=
  replicate 5 (Predict 0 20 false true) ++ replicate 4 (Commit 0 true 0) ++ replicate 4 (Predict 0 20 false false) ++
  [Correct 0 4 true; Predict 0 20 false true].
Definition last_tags (st : System) : list (option Z) :=
  match flights st with ((_, Some bi) :: _) :: _ => bi_tableTags bi | _ => [] end.
Definition spec_last_tags (sp : Spec) : list (option Z) :=
  match threads sp with mkPath _ (mkFlight _ _ (Some bi) :: _) :: _ => bi_tableTags bi | _ => [] end.

Lemma short_buffer_forgets : ∃ histLengths s o o' st sp,
  TAGEBase_new (λ i, if i =? 2 then 3 else 4) short_params = Ok (histLengths, s) ∧
  legal short_params histLengths 4 short_events (Spec_new short_params (tables s)) = true ∧
  run short_params histLengths short_events (System_new short_params s) = Ok (o, st) ∧
  spec_run short_params histLengths short_events (Spec_new short_params (tables s)) = Ok (o', sp) ∧
  last_tags st ≠ spec_last_tags sp.
Proof.
  eexists _, _, _, _, _, _. split; [vm_compute; reflexivity|]. split; [vm_compute; reflexivity|].
  split; [vm_compute; reflexivity|]. split; [vm_compute; reflexivity|]. vm_compute. discriminate.
Qed.

(** ** A run *)

Definition ex_params : TAGEParams :=
  mkParams 2 2 3 2 4 [0; 3; 4; 5] [4; 3; 4; 4] 1 3 2 14 5 3 1 0 4 1 [] true.
Definition ex_geometric (i : Z) : Z := if i =? 2 then 3 else 4.
Definition ex_events : list Event :=
  [Predict 0 20 false true; Predict 0 40 false false; Predict 1 24 false true; Predict 0 64 true true;
   Correct 0 1 true; Predict 0 8 false false; Commit 0 false 2; Commit 0 true 3; Squash 0 1;
   Predict 0 20 false true; Predict 0 20 false true; Predict 0 20 false true; Commit 0 false 1;
   Predict 0 20 false true; Predict 0 20 false true; Commit 0 true 1; Commit 0 true 1; Commit 0 true 1;
   Predict 0 20 false true; Predict 0 20 false true; Predict 0 20 false true; Predict 0 20 false true;
   Correct 0 3 false; Predict 0 28 false true; Correct 1 0 false; Commit 1 false 0].

Lemma ex_config : config_ok ex_params [0; 2; 3; 4].
Proof.
  assert (∀ i, 1 <= i <= 3 → i = 1 ∨ i = 2 ∨ i = 3) as H3 by lia.
  split; simpl; try (intros i Hi; destruct (H3 i Hi) as [-> | [-> | ->] ]); vm_compute; try (split; congruence); try congruence.
  - split; [congruence|split; congruence].
  - by left.
Qed.

Lemma tage_sees_path_witness : ∃ s predictions st sp,
  TAGEBase_new ex_geometric ex_params = Ok ([0; 2; 3; 4], s) ∧
  run ex_params [0; 2; 3; 4] ex_events (System_new ex_params s) = Ok (predictions, st) ∧
  spec_run ex_params [0; 2; 3; 4] ex_events (Spec_new ex_params (tables s)) = Ok (predictions, sp) ∧
  tables (base st) = spec_tables sp.
Proof.
  eexists. edestruct (tage_sees_path ex_geometric ex_params [0; 2; 3; 4]) as (o & st & sp & H).
  - vm_compute. reflexivity.
  - exact ex_config.
  - assert (2 * maxHist ex_params + 5 < histBufferSize ex_params) as Hw by (vm_compute; reflexivity). exact Hw.
  - assert (legal ex_params [0; 2; 3; 4] 5 ex_events (Spec_new ex_params (tables (default (mkTAGE (mkTables [] [] [] [] 0) [] [] [])
      (match TAGEBase_new ex_geometric ex_params with Ok (_, s) => Some s | Err _ => None end)))) = true) as Hl
      by (vm_compute; reflexivity). exact Hl.
  - exists o, st, sp. split; [vm_compute; reflexivity|exact H].
Defined.

End TageProps.
