(* ===== verification/RenameMap.v ===== *)
(** * cpu/reg_class, cpu/o3: registers, free lists, rename maps and the scoreboard

    A register of the architecture ([RegId]) has a class and an index.  A physical register
    is an object of the register file that the code passes around as a pointer; its class,
    index and flat index never change and are the pointer here ([PhysRegIdPtr]), its other
    fields are in a table that the flat index finds ([PhysRegId]).  The arrays over the
    renameable classes are lists in the order of the enumeration. *)

From Stdlib Require Import ZArith Lia.
From stdpp Require Import base numbers option list.
From S2P Require Import Prelude.

Module RenameMap.

(** ** Registers *)

Inductive RegClassType :=
  | IntRegClass | FloatRegClass | VecRegClass | VecElemClass | VecPredRegClass | MatRegClass
  | CCRegClass | MiscRegClass | InvalidRegClass.

#[global] Instance RegClassType_eq_dec : EqDecision RegClassType.
Proof. solve_decision. Defined.

(** The value of the enumerator. *)
Definition class_num (c : RegClassType) : Z :=
  match c with
  | IntRegClass => 0 | FloatRegClass => 1 | VecRegClass => 2 | VecElemClass => 3
  | VecPredRegClass => 4 | MatRegClass => 5 | CCRegClass => 6 | MiscRegClass => 7
  | InvalidRegClass => -1
  end.

(** The classes up to [CCRegClass], over which the arrays and the loops run. *)
Definition renamed_classes : list RegClassType :=
  [IntRegClass; FloatRegClass; VecRegClass; VecElemClass; VecPredRegClass; MatRegClass; CCRegClass].

Record RegId := mkRegId { classValue : RegClassType; index : Z; numPinnedWrites : Z }.

Definition setNumPinnedWrites (n : Z) (r : RegId) : RegId := mkRegId (classValue r) (index r) n.
Definition is_class (c : RegClassType) (r : RegId) : bool := bool_decide (classValue r = c).

Definition class_renameable (c : RegClassType) : bool :=
  negb (bool_decide (c = MiscRegClass)) && negb (bool_decide (c = InvalidRegClass)).
Definition isRenameable (r : RegId) : bool := class_renameable (classValue r).

Record PhysRegIdPtr := mkPtr { p_class : RegClassType; p_index : Z; flatIndex : Z }.

#[global] Instance PhysRegIdPtr_eq_dec : EqDecision PhysRegIdPtr.
Proof. solve_decision. Defined.

Definition isFixedMapping (p : PhysRegIdPtr) : bool := negb (class_renameable (p_class p)).

(** The fields of a physical register that change. *)
Record PhysRegId := mkPhys { p_numPinnedWrites : Z; numPinnedWritesToComplete : Z; pinned : bool }.

Definition PhysRegId_new : PhysRegId := mkPhys 0 0 false.

(** *** Its methods, on the table *)

Definition getNumPinnedWrites (p : PhysRegIdPtr) (ids : list PhysRegId) : result Z :=
  r ← load_at ids (flatIndex p); Ok (p_numPinnedWrites r).
Definition p_setNumPinnedWrites (p : PhysRegIdPtr) (n : Z) (ids : list PhysRegId) : result (list PhysRegId) :=
  r ← load_at ids (flatIndex p);
  store_at ids (flatIndex p) (mkPhys n (numPinnedWritesToComplete r) (negb (n =? 0))).
Definition decrNumPinnedWrites (p : PhysRegIdPtr) (ids : list PhysRegId) : result (list PhysRegId) :=
  r ← load_at ids (flatIndex p);
  store_at ids (flatIndex p) (mkPhys (p_numPinnedWrites r - 1) (numPinnedWritesToComplete r) (pinned r)).
Definition setNumPinnedWritesToComplete (p : PhysRegIdPtr) (n : Z) (ids : list PhysRegId)
    : result (list PhysRegId) :=
  r ← load_at ids (flatIndex p);
  store_at ids (flatIndex p) (mkPhys (p_numPinnedWrites r) n (pinned r)).

(** ** Free lists *)

Abbreviation SimpleFreeList := (list PhysRegIdPtr).
Abbreviation UnifiedFreeList := (list SimpleFreeList).

Definition simple_addReg (reg : PhysRegIdPtr) (l : SimpleFreeList) : SimpleFreeList := l ++ [reg].
Definition simple_getReg (l : SimpleFreeList) : result (PhysRegIdPtr * SimpleFreeList) :=
  match l with
  | [] => Err AssertFailed
  | r :: l => Ok (r, l)
  end.
Definition numFreeRegs (l : SimpleFreeList) : Z := Z.of_nat (length l).
Definition hasFreeRegs (l : SimpleFreeList) : bool := match l with [] => false | _ => true end.

Definition getReg (c : RegClassType) (f : UnifiedFreeList) : result (PhysRegIdPtr * UnifiedFreeList) :=
  l ← load_at f (class_num c);
  '(r, l) ← simple_getReg l;
  f ← store_at f (class_num c) l;
  Ok (r, f).
Definition addReg (freed_reg : PhysRegIdPtr) (f : UnifiedFreeList) : result UnifiedFreeList :=
  l ← load_at f (class_num (p_class freed_reg));
  store_at f (class_num (p_class freed_reg)) (simple_addReg freed_reg l).
Fixpoint addRegs (l : list PhysRegIdPtr) (f : UnifiedFreeList) : result UnifiedFreeList :=
  match l with
  | [] => Ok f
  | r :: l => f ← addReg r f; addRegs l f
  end.

(** ** The register file

    The identifiers that the constructor makes: [counts] physical registers of each class,
    flat indices in that order; miscellaneous registers have flat index 0. *)

Fixpoint make_ids (cs : list RegClassType) (counts : list nat) (flat : Z) : list (list PhysRegIdPtr) :=
  match cs, counts with
  | c :: cs, n :: counts =>
      map (λ i, mkPtr c (Z.of_nat i) (flat + Z.of_nat i)) (seq 0 n) :: make_ids cs counts (flat + Z.of_nat n)
  | _, _ => []
  end.

Definition PhysRegFile_ids (counts : list nat) : list (list PhysRegIdPtr) := make_ids renamed_classes counts 0.

Definition totalNumPhysRegs (counts : list nat) : nat := sum_list counts.

(** initFreeList, for every class in turn. *)
Definition initFreeList (counts : list nat) (f : UnifiedFreeList) : result UnifiedFreeList :=
  addRegs (concat (PhysRegFile_ids counts)) f.

Definition getMiscRegId (reg_idx : Z) : PhysRegIdPtr := mkPtr MiscRegClass reg_idx 0.

(** *** Values

    The arrays of the classes one after the other: the flat index finds the entry. *)

Section Values.
Context {V : Type}.

Definition file_getReg (p : PhysRegIdPtr) (f : list V) : result V :=
  if class_renameable (p_class p) then load_at f (flatIndex p) else Err Panic.
Definition file_setReg (p : PhysRegIdPtr) (v : V) (f : list V) : result (list V) :=
  if bool_decide (p_class p = InvalidRegClass) then Ok f
  else if class_renameable (p_class p) then store_at f (flatIndex p) v else Err Panic.

End Values.

(** ** The scoreboard *)

Definition Scoreboard_new (n : nat) : list bool := replicate n true.

Definition sb_getReg (p : PhysRegIdPtr) (sb : list bool) : result bool :=
  if isFixedMapping p then Ok true
  else _ ← assert_ok (flatIndex p <? Z.of_nat (length sb)); load_at sb (flatIndex p).
Definition sb_setReg (p : PhysRegIdPtr) (sb : list bool) : result (list bool) :=
  if isFixedMapping p then Ok sb
  else _ ← assert_ok (flatIndex p <? Z.of_nat (length sb)); store_at sb (flatIndex p) true.
Definition sb_unsetReg (p : PhysRegIdPtr) (sb : list bool) : result (list bool) :=
  if isFixedMapping p then Ok sb
  else _ ← assert_ok (flatIndex p <? Z.of_nat (length sb)); store_at sb (flatIndex p) false.

(** ** The map of one class

    [init] leaves null pointers.  The assertions let the index be the size, and the access
    that follows is then out of bounds. *)

Abbreviation SimpleRenameMap := (list (option PhysRegIdPtr)).

Definition simple_init (num_regs : nat) : SimpleRenameMap := replicate num_regs None.

Definition simple_lookup (a : RegId) (m : SimpleRenameMap) : result (option PhysRegIdPtr) :=
  _ ← assert_ok (index a <=? Z.of_nat (length m)); load_at m (index a).
Definition simple_setEntry (a : RegId) (p : option PhysRegIdPtr) (m : SimpleRenameMap) : result SimpleRenameMap :=
  _ ← assert_ok (index a <=? Z.of_nat (length m)); store_at m (index a) p.

(** The new and the previous register, the map, the free list and the register file. *)
Definition simple_rename (a : RegId) (m : SimpleRenameMap) (l : SimpleFreeList) (ids : list PhysRegId)
    : result (PhysRegIdPtr * PhysRegIdPtr * SimpleRenameMap * SimpleFreeList * list PhysRegId) :=
  o ← load_at m (index a);
  if is_class InvalidRegClass a then
    prev_reg ← deref o;
    _ ← assert_ok (bool_decide (p_class prev_reg = InvalidRegClass));
    Ok (prev_reg, prev_reg, m, l, ids)
  else
    prev_reg ← deref o;
    n ← getNumPinnedWrites prev_reg ids;
    if 0 <? n then
      _ ← assert_ok (numPinnedWrites a =? 0);
      ids ← decrNumPinnedWrites prev_reg ids;
      Ok (prev_reg, prev_reg, m, l, ids)
    else
      '(renamed_reg, l) ← simple_getReg l;
      m ← store_at m (index a) (Some renamed_reg);
      ids ← p_setNumPinnedWrites renamed_reg (numPinnedWrites a) ids;
      ids ← setNumPinnedWritesToComplete renamed_reg (numPinnedWrites a + 1) ids;
      Ok (renamed_reg, prev_reg, m, l, ids).

(** ** The maps of a thread *)

Abbreviation UnifiedRenameMap := (list SimpleRenameMap).

Definition invalidPhysRegId : PhysRegIdPtr := mkPtr InvalidRegClass (-1) (-1).

Definition UnifiedRenameMap_init (reg_classes : list nat) : UnifiedRenameMap := simple_init <$> reg_classes.

Definition lookup (a : RegId) (m : UnifiedRenameMap) : result (option PhysRegIdPtr) :=
  match classValue a with
  | InvalidRegClass => Ok (Some invalidPhysRegId)
  | MiscRegClass => Ok (Some (getMiscRegId (index a)))
  | c => s ← load_at m (class_num c); simple_lookup a s
  end.

Definition setEntry (a : RegId) (p : PhysRegIdPtr) (m : UnifiedRenameMap) : result UnifiedRenameMap :=
  _ ← assert_ok (bool_decide (p_class p = classValue a));
  if negb (isRenameable a) then
    q ← lookup a m; _ ← assert_ok (bool_decide (q = Some p)); Ok m
  else
    s ← load_at m (class_num (classValue a));
    s ← simple_setEntry a (Some p) s;
    store_at m (class_num (classValue a)) s.

Definition rename (a : RegId) (m : UnifiedRenameMap) (f : UnifiedFreeList) (ids : list PhysRegId)
    : result (PhysRegIdPtr * PhysRegIdPtr * UnifiedRenameMap * UnifiedFreeList * list PhysRegId) :=
  if negb (isRenameable a) then
    o ← lookup a m;
    phys_reg ← deref o;
    Ok (phys_reg, phys_reg, m, f, ids)
  else
    let c := class_num (classValue a) in
    s ← load_at m c;
    l ← load_at f c;
    '(n, p, s, l, ids) ← simple_rename a s l ids;
    m ← store_at m c s;
    f ← store_at f c l;
    Ok (n, p, m, f, ids).

(** [minFreeEntries] and [numFreeEntries]: each map shares the free list of its class. *)
Definition minFreeEntries (m : UnifiedRenameMap) (f : UnifiedFreeList) : Z :=
  foldl (λ acc ml, if negb (Z.of_nat (length ml.1) =? 0) then Z.min acc (numFreeRegs ml.2) else acc)
    (2 ^ 32 - 1) (zip m f).
Definition numFreeEntries (c : RegClassType) (f : UnifiedFreeList) : result Z :=
  l ← load_at f (class_num c); Ok (numFreeRegs l).

(** [num_dests]: the destination registers of the instruction in each class. *)
Definition canRename (num_dests : RegClassType → Z) (f : UnifiedFreeList) : bool :=
  forallb (λ cl, num_dests cl.1 <=? numFreeRegs cl.2) (zip renamed_classes f).

End RenameMap.
