(* ===== verification/Rename.v ===== *)
(** * cpu/o3/rename: the register side of the rename stage

    Renaming of an instruction's operands, the history buffer, the undoing of squashed
    instructions, the release of registers, and what the constructor of the CPU, the
    write-back, commit and a squashed instruction do with the same maps, tables and lists.
    The stage's own flow control (its status, skid buffers and stall signals) is not here.

    Instructions are generated by the build: their operands, and the numbers of destinations
    of each class that [canRename] reads, are fields.  [flatten] is the function of the
    instruction set of that name. *)

From Stdlib Require Import ZArith Lia.
From stdpp Require Import base numbers option list.
From S2P Require Import Prelude RenameMap.

Module Rename.
Import RenameMap.

Record DynInst := mkInst {
  seqNum : Z;
  srcRegs : list RegId;
  destRegs : list RegId;
  numTypedDestRegs : RegClassType → Z
}.

(** [flattenedDestIdx], [renamedDestIdx] and [prevDestIdx] of one destination. *)
Record Dest := mkDest { flattenedDest : RegId; renamedDest : PhysRegIdPtr; prevDest : PhysRegIdPtr }.

(** An instruction after renaming, with its status bits for pinned registers; renaming
    sets the first one, of an instruction that has none of them yet. *)
Record Renamed := mkRenamed {
  r_inst : DynInst;
  r_srcs : list (PhysRegIdPtr * bool);
  r_dests : list Dest;
  pinnedRegsRenamed : bool;
  pinnedRegsWritten : bool;
  pinnedRegsSquashDone : bool
}.

Record RenameHistory := mkHistory {
  instSeqNum : Z;
  archReg : RegId;
  newPhysReg : PhysRegIdPtr;
  prevPhysReg : PhysRegIdPtr
}.

(** [renameMap], [historyBuffer] and [freeingInProgress] of the stage, and the structures
    of the CPU it shares with the other stages. *)
Record State := mkState {
  renameMap : list UnifiedRenameMap;
  commitRenameMap : list UnifiedRenameMap;
  freeList : UnifiedFreeList;
  physRegs : list PhysRegId;
  scoreboard : list bool;
  historyBuffer : list (list RenameHistory);
  freeingInProgress : list (list PhysRegIdPtr)
}.

Definition set_renameMap (tid : nat) (m : UnifiedRenameMap) (s : State) : State :=
  mkState (<[tid := m]> (renameMap s)) (commitRenameMap s) (freeList s) (physRegs s) (scoreboard s)
    (historyBuffer s) (freeingInProgress s).
Definition set_commitRenameMap (tid : nat) (m : UnifiedRenameMap) (s : State) : State :=
  mkState (renameMap s) (<[tid := m]> (commitRenameMap s)) (freeList s) (physRegs s) (scoreboard s)
    (historyBuffer s) (freeingInProgress s).
Definition set_freeList (f : UnifiedFreeList) (s : State) : State :=
  mkState (renameMap s) (commitRenameMap s) f (physRegs s) (scoreboard s) (historyBuffer s) (freeingInProgress s).
Definition set_physRegs (l : list PhysRegId) (s : State) : State :=
  mkState (renameMap s) (commitRenameMap s) (freeList s) l (scoreboard s) (historyBuffer s) (freeingInProgress s).
Definition set_scoreboard (sb : list bool) (s : State) : State :=
  mkState (renameMap s) (commitRenameMap s) (freeList s) (physRegs s) sb (historyBuffer s) (freeingInProgress s).
Definition set_historyBuffer (tid : nat) (h : list RenameHistory) (s : State) : State :=
  mkState (renameMap s) (commitRenameMap s) (freeList s) (physRegs s) (scoreboard s)
    (<[tid := h]> (historyBuffer s)) (freeingInProgress s).
Definition set_freeingInProgress (tid : nat) (l : list PhysRegIdPtr) (s : State) : State :=
  mkState (renameMap s) (commitRenameMap s) (freeList s) (physRegs s) (scoreboard s)
    (historyBuffer s) (<[tid := l]> (freeingInProgress s)).

(** ** The constructor of the CPU *)

(** One register of the architecture of one thread. *)
Definition init_reg (tid : nat) (a : RegId) (s : State) : result State :=
  '(phys_reg, f) ← getReg (classValue a) (freeList s);
  rm ← deref (renameMap s !! tid);
  rm ← setEntry a phys_reg rm;
  cm ← deref (commitRenameMap s !! tid);
  cm ← setEntry a phys_reg cm;
  Ok (set_commitRenameMap tid cm (set_renameMap tid rm (set_freeList f s))).

Fixpoint init_regs (tid : nat) (l : list RegId) (s : State) : result State :=
  match l with
  | [] => Ok s
  | a :: l => s ← init_reg tid a s; init_regs tid l s
  end.

(** The registers of the architecture, class by class. *)
Definition arch_regs (reg_classes : list nat) : list RegId :=
  concat (zip_with (λ c n, map (λ i, mkRegId c (Z.of_nat i) 0) (seq 0 n)) renamed_classes reg_classes).

Fixpoint init_threads (tids : list nat) (reg_classes : list nat) (s : State) : result State :=
  match tids with
  | [] => Ok s
  | tid :: tids => s ← init_regs tid (arch_regs reg_classes) s; init_threads tids reg_classes s
  end.

(** [reg_classes]: the registers of each class; [counts]: the physical ones. *)
Definition CPU_new (numThreads active_threads : nat) (reg_classes counts : list nat) : result State :=
  f ← initFreeList counts (replicate 7 []);
  init_threads (seq 0 active_threads) reg_classes
    (mkState (replicate numThreads (UnifiedRenameMap_init reg_classes))
       (replicate numThreads (UnifiedRenameMap_init reg_classes)) f
       (replicate (totalNumPhysRegs counts) PhysRegId_new) (Scoreboard_new (totalNumPhysRegs counts))
       (replicate numThreads []) (replicate numThreads [])).

(** ** Renaming *)

Section Rename_.
Context (flatten : RegId → RegId).

Definition renameSrcReg (tid : nat) (src_reg : RegId) (s : State) : result (PhysRegIdPtr * bool) :=
  m ← deref (renameMap s !! tid);
  o ← lookup (flatten src_reg) m;
  renamed_reg ← deref o;
  ready ← sb_getReg renamed_reg (scoreboard s);
  Ok (renamed_reg, ready).

Fixpoint renameSrcRegs (tid : nat) (srcs : list RegId) (s : State) : result (list (PhysRegIdPtr * bool)) :=
  match srcs with
  | [] => Ok []
  | src :: srcs => r ← renameSrcReg tid src s; l ← renameSrcRegs tid srcs s; Ok (r :: l)
  end.

(** isPinned() of a physical register; those without an entry in the table never are. *)
Definition isPinned (p : PhysRegIdPtr) (ids : list PhysRegId) : result bool :=
  if isFixedMapping p then Ok false else r ← load_at ids (flatIndex p); Ok (pinned r).

Definition renameDestReg (tid : nat) (sn : Z) (dest_reg : RegId) (s : State) : result (Dest * bool * State) :=
  let flat := RenameMap.setNumPinnedWrites (numPinnedWrites dest_reg) (flatten dest_reg) in
  m ← deref (renameMap s !! tid);
  '(n, p, m, f, ids) ← rename flat m (freeList s) (physRegs s);
  let s := set_physRegs ids (set_freeList f (set_renameMap tid m s)) in
  sb ← sb_unsetReg n (scoreboard s);
  let s := set_scoreboard sb s in
  h ← deref (historyBuffer s !! tid);
  let s := set_historyBuffer tid (mkHistory sn flat n p :: h) s in
  pin ← isPinned n (physRegs s);
  Ok (mkDest flat n p, pin, s).

Fixpoint renameDestRegs (tid : nat) (sn : Z) (dests : list RegId) (s : State)
    : result (list Dest * bool * State) :=
  match dests with
  | [] => Ok ([], false, s)
  | d :: dests =>
      '(r, pin, s) ← renameDestReg tid sn d s;
      '(l, pins, s) ← renameDestRegs tid sn dests s;
      Ok (r :: l, pin || pins, s)
  end.

(** An instruction that reaches renaming: [None] when it has to wait for free registers. *)
Definition renameInst (tid : nat) (i : DynInst) (s : State) : result (option Renamed * State) :=
  if negb (canRename (numTypedDestRegs i) (freeList s)) then Ok (None, s)
  else
    srcs ← renameSrcRegs tid (srcRegs i) s;
    '(dests, pin, s) ← renameDestRegs tid (seqNum i) (destRegs i) s;
    Ok (Some (mkRenamed i srcs dests pin false false), s).

(** ** Squashing *)

Fixpoint doSquash_loop (squashed_seq_num : Z) (h : list RenameHistory) (m : UnifiedRenameMap)
    (freeing : list PhysRegIdPtr) : result (list RenameHistory * UnifiedRenameMap * list PhysRegIdPtr) :=
  match h with
  | e :: h' =>
      if squashed_seq_num <? instSeqNum e then
        if negb (bool_decide (newPhysReg e = prevPhysReg e)) then
          m ← setEntry (archReg e) (prevPhysReg e) m;
          doSquash_loop squashed_seq_num h' m (freeing ++ [newPhysReg e])
        else doSquash_loop squashed_seq_num h' m freeing
      else Ok (h, m, freeing)
  | [] => Ok ([], m, freeing)
  end.

Definition doSquash (squashed_seq_num : Z) (tid : nat) (s : State) : result State :=
  h ← deref (historyBuffer s !! tid);
  m ← deref (renameMap s !! tid);
  freeing ← deref (freeingInProgress s !! tid);
  '(h, m, freeing) ← doSquash_loop squashed_seq_num h m freeing;
  Ok (set_freeingInProgress tid freeing (set_renameMap tid m (set_historyBuffer tid h s))).

(** The registers of squashed instructions become free once the reorder buffer has done
    squashing. *)
Definition release_squashed (robSquashing : bool) (tid : nat) (s : State) : result State :=
  l ← deref (freeingInProgress s !! tid);
  if negb robSquashing && negb (bool_decide (l = [])) then
    f ← addRegs l (freeList s);
    Ok (set_freeingInProgress tid [] (set_freeList f s))
  else Ok s.

(** DynInst::setSquashed: the pins its destinations had taken are given back. *)
Fixpoint unpin (written : bool) (dests : list Dest) (ids : list PhysRegId) : result (list PhysRegId) :=
  match dests with
  | [] => Ok ids
  | d :: dests =>
      pin ← isPinned (renamedDest d) ids;
      ids ← (if pin : bool then
               r ← load_at ids (flatIndex (renamedDest d));
               store_at ids (flatIndex (renamedDest d))
                 (mkPhys (p_numPinnedWrites r + 1)
                    (numPinnedWritesToComplete r + Z.b2z written) (pinned r))
             else Ok ids);
      unpin written dests ids
  end.

Definition setSquashed (i : Renamed) (s : State) : result (Renamed * State) :=
  if negb (pinnedRegsRenamed i) || pinnedRegsSquashDone i then Ok (i, s)
  else
    ids ← unpin (pinnedRegsWritten i) (r_dests i) (physRegs s);
    Ok (mkRenamed (r_inst i) (r_srcs i) (r_dests i) (pinnedRegsRenamed i) (pinnedRegsWritten i) true,
        set_physRegs ids s).

(** ** Write-back

    InstructionQueue::wakeDependents counts the writes that pinned registers still expect,
    and IEW::writebackInsts marks the complete ones as ready. *)

Definition setPinnedRegsWritten (i : Renamed) : result Renamed :=
  _ ← assert_ok (negb (pinnedRegsSquashDone i));
  _ ← assert_ok (pinnedRegsRenamed i);
  Ok (mkRenamed (r_inst i) (r_srcs i) (r_dests i) (pinnedRegsRenamed i) true (pinnedRegsSquashDone i)).

Fixpoint wakeDependents (dests : list Dest) (i : Renamed) (ids : list PhysRegId)
    : result (Renamed * list PhysRegId) :=
  match dests with
  | [] => Ok (i, ids)
  | d :: dests =>
      if isFixedMapping (renamedDest d) then wakeDependents dests i ids
      else
        r ← load_at ids (flatIndex (renamedDest d));
        ids ← store_at ids (flatIndex (renamedDest d))
                (mkPhys (p_numPinnedWrites r) (numPinnedWritesToComplete r - 1) (pinned r));
        i ← (if pinned r then setPinnedRegsWritten i else Ok i);
        wakeDependents dests i ids
  end.

Fixpoint mark_ready (dests : list Dest) (ids : list PhysRegId) (sb : list bool) : result (list bool) :=
  match dests with
  | [] => Ok sb
  | d :: dests =>
      n ← (if isFixedMapping (renamedDest d) then Ok 0
           else r ← load_at ids (flatIndex (renamedDest d)); Ok (numPinnedWritesToComplete r));
      sb ← (if n =? 0 then sb_setReg (renamedDest d) sb else Ok sb);
      mark_ready dests ids sb
  end.

Definition writebackInst (i : Renamed) (s : State) : result (Renamed * State) :=
  '(i, ids) ← wakeDependents (r_dests i) i (physRegs s);
  sb ← mark_ready (r_dests i) ids (scoreboard s);
  Ok (i, set_scoreboard sb (set_physRegs ids s)).

(** ** Commit *)

Fixpoint commit_dests (dests : list Dest) (m : UnifiedRenameMap) : result UnifiedRenameMap :=
  match dests with
  | [] => Ok m
  | d :: dests => m ← setEntry (flattenedDest d) (renamedDest d) m; commit_dests dests m
  end.

Definition commitHead (tid : nat) (i : Renamed) (s : State) : result State :=
  m ← deref (commitRenameMap s !! tid);
  m ← commit_dests (r_dests i) m;
  Ok (set_commitRenameMap tid m s).

(** The history of committed instructions, from the oldest entry, the last of the list.
    The loop's [erase(hb_it--)] of the first entry, and [--hb_it] on an empty list, step
    before the beginning, where the list of libstdc++ has its end. *)
Fixpoint remove_loop (inst_seq_num : Z) (h : list RenameHistory) (f : UnifiedFreeList)
    : result (list RenameHistory * UnifiedFreeList) :=
  match h with
  | [] => Ok ([], f)
  | e :: h' =>
      if instSeqNum e <=? inst_seq_num then
        f ← (if negb (bool_decide (newPhysReg e = prevPhysReg e)) then addReg (prevPhysReg e) f else Ok f);
        remove_loop inst_seq_num h' f
      else Ok (h, f)
  end.

Definition removeFromHistory (inst_seq_num : Z) (tid : nat) (s : State) : result State :=
  h ← deref (historyBuffer s !! tid);
  '(h, f) ← remove_loop inst_seq_num (reverse h) (freeList s);
  Ok (set_freeList f (set_historyBuffer tid (reverse h) s)).

(** CPU::getArchReg *)
Definition getArchReg {V : Type} (a : RegId) (tid : nat) (values : list V) (s : State) : result V :=
  m ← deref (commitRenameMap s !! tid);
  o ← lookup (flatten a) m;
  p ← deref o;
  file_getReg p values.

End Rename_.

End Rename.
