(* ===== verification/RenameLemmas.v ===== *)
(** * cpu/o3/rename: maps, lists and register files as the proofs see them

    [get] and [put] are what [lookup] and [setEntry] do on a valid register; [occ] counts
    the places that hold a physical register; the identifiers of the register file are all
    different. *)

From Stdlib Require Import ZArith Lia.
From stdpp Require Import base numbers option list.
From S2P Require Import Prelude RenameMap.

Module RenameLemmas.
Import RenameMap.

(** ** Counting *)

Fixpoint occ (p : PhysRegIdPtr) (l : list PhysRegIdPtr) : nat :=
  match l with
  | [] => 0
  | q :: l => (if decide (p = q) then 1 else 0) + occ p l
  end.

Lemma occ_app p l1 l2 : occ p (l1 ++ l2) = (occ p l1 + occ p l2)%nat.
Proof. induction l1 as [|q l1 IH]; simpl; [done|]. rewrite IH. lia. Qed.

Lemma occ_cons p q l : occ p (q :: l) = (occ p [q] + occ p l)%nat.
Proof. simpl. lia. Qed.

Lemma occ_reverse p l : occ p (reverse l) = occ p l.
Proof.
  induction l as [|q l IH]; [done|]. rewrite reverse_cons, occ_app, IH. simpl. lia.
Qed.

Lemma occ_elem p l : p ∈ l ↔ (0 < occ p l)%nat.
Proof.
  induction l as [|q l IH]; simpl; [split; [intros H; by inversion H|lia]|].
  rewrite elem_of_cons. destruct (decide (p = q)); [split; [lia|by left]|]. rewrite IH.
  split; [intros [?|?]; [done|lia]|]. intros. right. lia.
Qed.

Lemma occ_NoDup l : NoDup l ↔ ∀ p, (occ p l <= 1)%nat.
Proof.
  induction l as [|q l IH]; [split; [simpl; lia|intros _; constructor]|].
  rewrite NoDup_cons, IH. split.
  - intros [Hq Hl] p. simpl. destruct (decide (p = q)) as [->|]; [|specialize (Hl p); lia].
    rewrite occ_elem in Hq. lia.
  - intros Hp. split.
    + rewrite occ_elem. specialize (Hp q). simpl in Hp. rewrite decide_True in Hp by done. lia.
    + intros p. specialize (Hp p). simpl in Hp. destruct (decide (p = q)); lia.
Qed.

Lemma occ_Permutation l1 l2 : (∀ p, occ p l1 = occ p l2) → l1 ≡ₚ l2.
Proof.
  revert l2. induction l1 as [|q l1 IH]; intros l2 H.
  - destruct l2 as [|q l2]; [done|]. specialize (H q). simpl in H. rewrite decide_True in H by done. lia.
  - assert (q ∈ l2) as Hq.
    { rewrite occ_elem, <-H. simpl. rewrite decide_True by done. lia. }
    apply list_elem_of_split in Hq as (la & lb & ->). rewrite <-Permutation_middle. constructor.
    apply IH. intros p. specialize (H p). rewrite occ_app in *. simpl in *. lia.
Qed.

Lemma elem_of_concat {A} (x : A) L : x ∈ concat L ↔ ∃ l, x ∈ l ∧ l ∈ L.
Proof.
  rewrite list_elem_of_In, in_concat. setoid_rewrite list_elem_of_In. split; intros (l & ? & ?); by exists l.
Qed.

(** Replacing one of several lists. *)
Lemma occ_concat_insert p (L : list (list PhysRegIdPtr)) i l0 l : L !! i = Some l0 →
  (occ p (concat (<[i := l]> L)) + occ p l0 = occ p (concat L) + occ p l)%nat.
Proof.
  revert i. induction L as [|x L IH]; intros [|i] H; try done; simpl in *.
  - injection H as ->. rewrite !occ_app. lia.
  - rewrite !occ_app. specialize (IH _ H). lia.
Qed.

(** What one thread holds, out of what all hold. *)
Lemma occ_fmap_insert {A} (g : A → list PhysRegIdPtr) x (L : list A) i a0 a : L !! i = Some a0 →
  (occ x (concat (g <$> <[i := a]> L)) + occ x (g a0) = occ x (concat (g <$> L)) + occ x (g a))%nat.
Proof.
  intros H. rewrite list_fmap_insert. apply occ_concat_insert. by rewrite list_lookup_fmap, H.
Qed.

Lemma occ_fmap_le {A} (g : A → list PhysRegIdPtr) x (L : list A) i a : L !! i = Some a →
  (occ x (g a) <= occ x (concat (g <$> L)))%nat.
Proof.
  revert i. induction L as [|b L IH]; intros [|i] H; try done; rewrite fmap_cons; cbn [concat]; rewrite occ_app.
  - injection H as ->. lia.
  - specialize (IH _ H). lia.
Qed.

(** ** Splitting a list where a property ends *)

Lemma split_past {A} (P : A → Prop) (a b h1 h2 : list A) : a ++ b = h1 ++ h2 →
  Forall (λ x, ¬ P x) b → Forall P h1 → ∃ a2, a = h1 ++ a2 ∧ h2 = a2 ++ b.
Proof.
  intros H Hb H1. revert a H. induction h1 as [|x h1 IH]; intros a H; [by exists a|].
  apply Forall_cons in H1 as [Hx H1]. destruct a as [|y a]; simpl in H.
  - subst b. by apply Forall_cons in Hb as [? _].
  - injection H as -> H. destruct (IH H1 _ H) as (a2 & -> & ->). by exists a2.
Qed.

Lemma split_exact {A} (P : A → Prop) (a b h1 h2 : list A) : a ++ b = h1 ++ h2 →
  Forall P a → Forall (λ x, ¬ P x) b → Forall P h1 → (∀ x, head h2 = Some x → ¬ P x) → h1 = a ∧ h2 = b.
Proof.
  intros H Ha Hb H1 H2. destruct (split_past P a b h1 h2 H Hb H1) as ([|x a2] & -> & ->).
  - by rewrite app_nil_r.
  - apply Forall_app in Ha as [_ Ha]. apply Forall_cons in Ha as [Hx _]. by destruct (H2 x).
Qed.

(** ** Registers of the architecture and their entries *)

Definition class_nat (c : RegClassType) : nat := Z.to_nat (class_num c).

(** The registers that a map holds. *)
Definition mapped (m : UnifiedRenameMap) : list PhysRegIdPtr := omap id (concat m).

Definition valid (reg_classes : list nat) (a : RegId) : Prop :=
  isRenameable a = true ∧ ∃ n, reg_classes !! class_nat (classValue a) = Some n ∧ 0 <= index a < Z.of_nat n.

(** The registers an instruction may name: those of the maps, and the fixed ones. *)
Definition nameable (reg_classes : list nat) (a : RegId) : Prop :=
  isRenameable a = false ∨ valid reg_classes a.

Definition get (a : RegId) (m : UnifiedRenameMap) : option PhysRegIdPtr :=
  s ← m !! class_nat (classValue a); o ← s !! Z.to_nat (index a); o.
Definition put (a : RegId) (p : PhysRegIdPtr) (m : UnifiedRenameMap) : UnifiedRenameMap :=
  alter (λ s, <[Z.to_nat (index a) := Some p]> s) (class_nat (classValue a)) m.

(** A map has the sizes of the classes, and the entries the class of their map. *)
Definition shaped (reg_classes : list nat) (m : UnifiedRenameMap) : Prop :=
  length <$> m = reg_classes ∧
  ∀ c s i p, m !! c = Some s → s !! i = Some (Some p) → class_num (p_class p) = Z.of_nat c.
Definition full (m : UnifiedRenameMap) : Prop := ∀ s, s ∈ m → None ∉ s.

Lemma class_nat_num c : class_renameable c = true → class_num c = Z.of_nat (class_nat c) ∧ (class_nat c < 7)%nat.
Proof. unfold class_nat. destruct c; simpl; try done; lia. Qed.

Lemma class_num_inj c d : class_num c = class_num d → c = d.
Proof. destruct c, d; simpl; done. Qed.

Section Maps.
Context (rc : list nat).

Lemma valid_entry a m : valid rc a → shaped rc m →
  ∃ s, m !! class_nat (classValue a) = Some s ∧ 0 <= index a < Z.of_nat (length s).
Proof.
  intros (_ & n & Hn & Hi) (Hl & _). rewrite <-Hl, list_lookup_fmap in Hn.
  destruct (m !! _) as [s|]; [|done]. injection Hn as <-. by exists s.
Qed.

Lemma lookup_get a m : valid rc a → shaped rc m → lookup a m = Ok (get a m).
Proof.
  intros Ha Hm. destruct (valid_entry a m Ha Hm) as (s & Hs & Hi). destruct Ha as (Hr & _).
  unfold lookup, get. rewrite Hs. destruct (class_nat_num (classValue a)) as [Hc _]; [done|].
  assert (load_at m (class_num (classValue a)) = Ok s) as Hload.
  { unfold load_at. rewrite Hc, Nat2Z.id. replace (_ <? 0) with false by lia. by rewrite Hs. }
  assert (simple_lookup a s = Ok (s !! Z.to_nat (index a) ≫= id)) as Hsl.
  { unfold simple_lookup. replace (index a <=? Z.of_nat (length s)) with true by lia. simpl.
    destruct (load_at_spec s (index a) Hi) as (o & -> & ->). done. }
  unfold isRenameable, class_renameable in Hr. destruct (classValue a); try discriminate Hr; rewrite Hload; done.
Qed.

Lemma setEntry_put a p m : valid rc a → shaped rc m → p_class p = classValue a →
  setEntry a p m = Ok (put a p m).
Proof.
  intros Ha Hm Hp. destruct (valid_entry a m Ha Hm) as (s & Hs & Hi). destruct Ha as (Hr & _).
  unfold setEntry. rewrite bool_decide_true, Hr by done. simpl.
  destruct (class_nat_num (classValue a)) as [Hc _]; [done|].
  unfold load_at. rewrite Hc, Nat2Z.id. replace (_ <? 0) with false by lia. rewrite Hs. simpl.
  unfold simple_setEntry. replace (index a <=? Z.of_nat (length s)) with true by lia. simpl.
  rewrite store_at_spec by done. simpl. rewrite store_at_spec by (apply lookup_lt_Some in Hs; lia).
  unfold put. rewrite Nat2Z.id. f_equal. apply list_eq. intros i. rewrite list_lookup_alter.
  destruct (decide (i = class_nat (classValue a))) as [->|Hne].
  - rewrite decide_True by done. rewrite list_lookup_insert_eq by (by eapply lookup_lt_Some). by rewrite Hs.
  - rewrite decide_False by done. by rewrite list_lookup_insert_ne.
Qed.

(** *** [put] against [get] *)

Definition same_reg (a b : RegId) : bool :=
  bool_decide (classValue a = classValue b) && (index a =? index b).

Lemma get_put a p m : valid rc a → shaped rc m → get a (put a p m) = Some p.
Proof.
  intros Ha Hm. destruct (valid_entry a m Ha Hm) as (s & Hs & Hi). unfold get, put.
  rewrite list_lookup_alter, decide_True, Hs by done. simpl. rewrite list_lookup_insert_eq by lia. done.
Qed.

Lemma get_put_ne a b p m : valid rc a → valid rc b → same_reg a b = false → get b (put a p m) = get b m.
Proof.
  intros Ha Hb Hne. unfold get, put. rewrite list_lookup_alter.
  case_decide as Hc; [|done]. rewrite <-Hc. destruct (m !! _) as [s|] eqn:Hs; [|done]. simpl.
  destruct Ha as (Ha & na & _ & Hia). destruct Hb as (Hb & nb & _ & Hib).
  assert (index a ≠ index b) as Hi.
  { intros Hi. unfold same_reg in Hne. rewrite Hi, Z.eqb_refl, andb_true_r in Hne.
    apply bool_decide_eq_false in Hne. apply Hne. apply class_num_inj.
    destruct (class_nat_num _ Ha) as [-> _]. destruct (class_nat_num _ Hb) as [-> _]. lia. }
  rewrite list_lookup_insert_ne by lia. done.
Qed.

Lemma put_same a p m : get a m = Some p → put a p m = m.
Proof.
  unfold get, put. intros H. destruct (m !! class_nat (classValue a)) as [s|] eqn:Hs; [|done]. simpl in H.
  destruct (s !! Z.to_nat (index a)) as [o|] eqn:Ho; [|done]. simpl in H. subst o.
  apply list_eq. intros i. rewrite list_lookup_alter. case_decide; [subst i|done].
  rewrite Hs. simpl. by rewrite list_insert_id.
Qed.

Lemma put_put a p q m : put a p (put a q m) = put a p m.
Proof.
  unfold put. apply list_eq. intros i. rewrite !list_lookup_alter. case_decide; [|done].
  rewrite decide_True by done. destruct (m !! _); simpl; [|done]. by rewrite list_insert_insert_eq.
Qed.

Lemma shaped_put a p m : valid rc a → shaped rc m → p_class p = classValue a → shaped rc (put a p m).
Proof.
  intros Ha (Hl & Hc) Hp. split.
  - rewrite <-Hl. apply list_eq. intros i. unfold put. rewrite !list_lookup_fmap, list_lookup_alter.
    case_decide; [subst i|done]. destruct (m !! _); simpl; [|done]. by rewrite length_insert.
  - intros c s i q. unfold put. rewrite list_lookup_alter. case_decide; [subst c|by apply Hc].
    destruct (m !! class_nat (classValue a)) as [s0|] eqn:Hs; simpl; [|done]. intros [= <-] Hq.
    apply list_lookup_insert_Some in Hq as [(_ & [= <-] & _)|[_ Hq]]; [|by eapply Hc].
    rewrite Hp. by apply class_nat_num, Ha.
Qed.

Lemma full_put a p m : full m → full (put a p m).
Proof.
  intros Hf s Hs. apply list_elem_of_lookup in Hs as (i & Hs). unfold put in Hs. rewrite list_lookup_alter in Hs.
  case_decide; [subst i|by apply Hf, (list_elem_of_lookup_2 _ i)].
  destruct (m !! class_nat (classValue a)) as [s0|] eqn:Hs0; [|done]. injection Hs as <-.
  intros (j & Hj)%list_elem_of_lookup. apply list_lookup_insert_Some in Hj as [(_ & ? & _)|[_ Hj]]; [done|].
  by apply (Hf s0), (list_elem_of_lookup_2 _ j); [apply (list_elem_of_lookup_2 _ (class_nat (classValue a)))|].
Qed.

Lemma get_full a m : valid rc a → shaped rc m → full m → ∃ p, get a m = Some p ∧ p_class p = classValue a.
Proof.
  intros Ha Hm Hf. destruct (valid_entry a m Ha Hm) as (s & Hs & Hi).
  destruct (lookup_lt_is_Some_2 s (Z.to_nat (index a))) as [o Ho]; [lia|].
  destruct o as [p|]; [|destruct (Hf s); by eapply list_elem_of_lookup_2]. exists p.
  unfold get. rewrite Hs. simpl. rewrite Ho. split; [done|]. apply class_num_inj.
  destruct Hm as [_ Hc]. rewrite (Hc _ _ _ _ Hs Ho). symmetry. by apply class_nat_num, Ha.
Qed.

Lemma mapped_occ_insert x s i o o' : s !! i = Some o →
  (occ x (omap id (<[i := o']> s)) + occ x (option_list o) = occ x (omap id s) + occ x (option_list o'))%nat.
Proof.
  revert i. induction s as [|q s IH]; intros [|i] H; try done; simpl in *.
  - injection H as ->. destruct o, o'; simpl; lia.
  - specialize (IH _ H). unfold omap in *. destruct q; simpl; lia.
Qed.

Lemma occ_put_entry x a p m s o : m !! class_nat (classValue a) = Some s → s !! Z.to_nat (index a) = Some o →
  (occ x (mapped (put a p m)) + occ x (option_list o) = occ x (mapped m) + occ x [p])%nat.
Proof.
  unfold put, mapped. intros Hs Ho. generalize dependent (class_nat (classValue a)). intros c Hs.
  revert c Hs. induction m as [|s' m IH]; intros [|c] Hs; try done; simpl in *.
  - injection Hs as ->. rewrite !omap_app, !occ_app.
    pose proof (mapped_occ_insert x s _ _ (Some p) Ho). simpl in *. lia.
  - rewrite !omap_app, !occ_app. specialize (IH _ Hs). unfold alter in IH. simpl in IH. lia.
Qed.

Lemma occ_put x a p q m : get a m = Some q →
  (occ x (mapped (put a p m)) + occ x [q] = occ x (mapped m) + occ x [p])%nat.
Proof.
  unfold get. intros H. destruct (m !! class_nat (classValue a)) as [s|] eqn:Hs; [|done]. simpl in H.
  destruct (s !! Z.to_nat (index a)) as [o|] eqn:Ho; [|done]. simpl in H. subst o.
  exact (occ_put_entry x a p m s _ Hs Ho).
Qed.

Lemma occ_put_none x a p m : valid rc a → shaped rc m → get a m = None →
  (occ x (mapped (put a p m)) = occ x (mapped m) + occ x [p])%nat.
Proof.
  intros Ha Hm H. destruct (valid_entry a m Ha Hm) as (s & Hs & Hi).
  destruct (lookup_lt_is_Some_2 s (Z.to_nat (index a))) as [o Ho]; [lia|].
  unfold get in H. rewrite Hs in H. simpl in H. rewrite Ho in H. simpl in H. subst o.
  pose proof (occ_put_entry x a p m s _ Hs Ho). simpl in *. lia.
Qed.

(** Registers whose entries are all there make a full map. *)
Lemma full_get m : length rc = 7%nat → shaped rc m → (∀ a, valid rc a → get a m ≠ None) → full m.
Proof.
  intros Hrc Hm Hg s Hs Hn. apply list_elem_of_lookup in Hs as (c & Hs).
  apply list_elem_of_lookup in Hn as (i & Hi). destruct Hm as [Hl Hc].
  pose proof (lookup_lt_Some _ _ _ Hs) as Hlt. rewrite <-(length_fmap length m), Hl, Hrc in Hlt.
  destruct (lookup_lt_is_Some_2 renamed_classes c) as [cl Hcl]; [done|].
  assert (class_nat cl = c ∧ class_renameable cl = true) as [Hcn Hr].
  { do 7 (destruct c as [|c]; [injection Hcl as <-; done|]). done. }
  apply (Hg (mkRegId cl (Z.of_nat i) 0)).
  - split; [done|]. exists (length s). simpl. rewrite Hcn, <-Hl, list_lookup_fmap, Hs.
    apply lookup_lt_Some in Hi. split; [done|lia].
  - unfold get. simpl. by rewrite Hcn, Hs, Nat2Z.id; simpl; rewrite Hi.
Qed.

Lemma get_mapped a p m : get a m = Some p → p ∈ mapped m.
Proof.
  unfold get, mapped. intros H. destruct (m !! class_nat (classValue a)) as [s|] eqn:Hs; [|done]. simpl in H.
  destruct (s !! Z.to_nat (index a)) as [o|] eqn:Ho; [|done]. simpl in H. subst o.
  apply list_elem_of_omap. exists (Some p). split; [|done]. apply elem_of_concat. exists s.
  split; by eapply list_elem_of_lookup_2.
Qed.

End Maps.

(** ** The identifiers of a register file *)

Definition all_ids (counts : list nat) : list PhysRegIdPtr := concat (PhysRegFile_ids counts).

Lemma make_ids_flat cs counts flat : length cs = length counts →
  flatIndex <$> concat (make_ids cs counts flat) = (λ i, flat + Z.of_nat i) <$> seq 0 (sum_list counts).
Proof.
  revert counts flat. induction cs as [|c cs IH]; intros [|n counts] flat Hl; try done. injection Hl as Hl. simpl.
  rewrite fmap_app, IH by done. rewrite seq_app, fmap_app. f_equal.
  - rewrite <-list_fmap_compose. done.
  - replace (0 + n)%nat with (n + 0)%nat by lia. rewrite <-fmap_add_seq, <-list_fmap_compose.
    apply list_fmap_ext. intros i x _. simpl. lia.
Qed.

Lemma make_ids_class cs counts flat c l : make_ids cs counts flat !! c = Some l →
  ∃ cl, cs !! c = Some cl ∧ Forall (λ p, p_class p = cl) l.
Proof.
  revert counts flat c. induction cs as [|cl cs IH]; intros [|n counts] flat [|c] H; try done; simpl in *.
  - injection H as <-. exists cl. split; [done|]. apply Forall_forall. intros p (i & -> & _)%list_elem_of_fmap. done.
  - by eapply IH.
Qed.

Lemma renamed_classes_num c cl : renamed_classes !! c = Some cl →
  class_num cl = Z.of_nat c ∧ class_nat cl = c ∧ class_renameable cl = true.
Proof. do 7 (destruct c as [|c]; [by intros [= <-]|]). done. Qed.

Section Ids.
Context (counts : list nat) (Hcounts : length counts = 7%nat).

Lemma all_ids_flat : flatIndex <$> all_ids counts = Z.of_nat <$> seq 0 (totalNumPhysRegs counts).
Proof.
  unfold all_ids, PhysRegFile_ids, totalNumPhysRegs. rewrite make_ids_flat by (by rewrite Hcounts).
  apply list_fmap_ext. intros i x _. lia.
Qed.

Lemma all_ids_NoDup : NoDup (all_ids counts).
Proof.
  apply (NoDup_fmap_1 flatIndex). rewrite all_ids_flat. apply NoDup_fmap_2; [intros ???; lia|apply NoDup_seq].
Qed.

Lemma all_ids_range p : p ∈ all_ids counts →
  0 <= flatIndex p < Z.of_nat (totalNumPhysRegs counts) ∧ class_renameable (p_class p) = true.
Proof.
  intros Hp. split.
  - assert (flatIndex p ∈ flatIndex <$> all_ids counts) as Hf by (apply list_elem_of_fmap; by exists p).
    rewrite all_ids_flat in Hf. apply list_elem_of_fmap in Hf as (i & -> & Hi%elem_of_seq). lia.
  - apply elem_of_concat in Hp as (l & Hp & Hl). apply list_elem_of_lookup in Hl as (c & Hl).
    destruct (make_ids_class _ _ _ _ _ Hl) as (cl & Hcl & Hall). rewrite Forall_forall in Hall.
    rewrite (Hall _ Hp). by apply renamed_classes_num in Hcl as (_ & _ & ?).
Qed.

Lemma all_ids_inj p q : p ∈ all_ids counts → q ∈ all_ids counts → flatIndex p = flatIndex q → p = q.
Proof.
  intros (i & Hi)%list_elem_of_lookup (j & Hj)%list_elem_of_lookup Hf.
  assert (NoDup (flatIndex <$> all_ids counts)) as Hnd.
  { rewrite all_ids_flat. apply NoDup_fmap_2; [intros ???; lia|apply NoDup_seq]. }
  assert (i = j) as ->; [|congruence].
  eapply (NoDup_lookup _ i j (flatIndex p) Hnd); rewrite list_lookup_fmap; [by rewrite Hi|by rewrite Hj, Hf].
Qed.

End Ids.

(** ** Free lists *)

(** Each list has the registers of its class. *)
Definition typed (f : UnifiedFreeList) : Prop :=
  length f = 7%nat ∧ ∀ c l p, f !! c = Some l → p ∈ l → class_num (p_class p) = Z.of_nat c.

Lemma load_class {A} (f : list A) c : load_at f (Z.of_nat c) = deref (f !! c).
Proof. unfold load_at. rewrite Nat2Z.id. destruct (Z.ltb_spec (Z.of_nat c) 0); [lia|done]. Qed.

Lemma store_class {A} (f : list A) c x : (c < length f)%nat → store_at f (Z.of_nat c) x = Ok (<[c := x]> f).
Proof. intros Hc. rewrite store_at_spec by lia. by rewrite Nat2Z.id. Qed.

Lemma store_at_length {A} (l : list A) i x l' : store_at l i x = Ok l' → length l' = length l.
Proof. unfold store_at. destruct (_ && _); [|done]. intros [= <-]. apply length_insert. Qed.

Lemma typed_lookup f c : typed f → class_renameable c = true → ∃ l, f !! class_nat c = Some l.
Proof. intros (Hl & _) Hc. apply lookup_lt_is_Some_2. rewrite Hl. by apply class_nat_num. Qed.

Lemma typed_insert f c l : typed f →
  (∀ p, p ∈ l → class_num (p_class p) = Z.of_nat c) → typed (<[c := l]> f).
Proof.
  intros (Hl & Ht) Hp. split; [by rewrite length_insert|]. intros d l' p Hd Hin.
  apply list_lookup_insert_Some in Hd as [(-> & -> & _)|[_ Hd]]; [by apply Hp|by eapply Ht].
Qed.

Lemma addReg_spec p f : typed f → class_renameable (p_class p) = true →
  ∃ f', addReg p f = Ok f' ∧ typed f' ∧ ∀ x, occ x (concat f') = (occ x (concat f) + occ x [p])%nat.
Proof.
  intros Hf Hp. destruct (typed_lookup f _ Hf Hp) as (l & Hl). destruct (class_nat_num _ Hp) as [Hn _].
  pose proof (lookup_lt_Some _ _ _ Hl). unfold addReg. rewrite Hn, load_class, Hl. simpl.
  rewrite store_class by done. eexists. split; [done|]. split.
  - apply typed_insert; [done|]. intros q. unfold simple_addReg. rewrite elem_of_app, list_elem_of_singleton.
    intros [Hq| ->]; [by eapply Hf|done].
  - intros x. pose proof (occ_concat_insert x f _ l (l ++ [p]) Hl) as Hx. rewrite occ_app in Hx.
    unfold simple_addReg. simpl in *. lia.
Qed.

Lemma addRegs_spec l : ∀ f, typed f → (∀ p, p ∈ l → class_renameable (p_class p) = true) →
  ∃ f', addRegs l f = Ok f' ∧ typed f' ∧ ∀ x, occ x (concat f') = (occ x (concat f) + occ x l)%nat.
Proof.
  induction l as [|p l IH]; intros f Hf Hl; simpl.
  - exists f. split; [done|]. split; [done|]. intros; lia.
  - destruct (addReg_spec p f Hf) as (f1 & -> & Hf1 & Ho1); [apply Hl; by left|]. simpl.
    destruct (IH f1 Hf1) as (f2 & -> & Hf2 & Ho2); [intros q Hq; apply Hl; by right|].
    exists f2. split; [done|]. split; [done|]. intros x. rewrite Ho2, Ho1. simpl. lia.
Qed.

Lemma getReg_spec c f p l : typed f → class_renameable c = true → f !! class_nat c = Some (p :: l) →
  getReg c f = Ok (p, <[class_nat c := l]> f) ∧ typed (<[class_nat c := l]> f) ∧ p_class p = c ∧
  ∀ x, (occ x (concat (<[class_nat c := l]> f)) + occ x [p] = occ x (concat f))%nat.
Proof.
  intros Hf Hc Hl. destruct (class_nat_num _ Hc) as [Hn _]. pose proof (lookup_lt_Some _ _ _ Hl).
  split; [|split; [|split]].
  - unfold getReg. rewrite Hn, load_class, Hl. simpl. by rewrite store_class.
  - apply typed_insert; [done|]. intros q Hq. eapply Hf; [done|]. by right.
  - apply class_num_inj. rewrite Hn. destruct Hf as [_ Hf]. apply (Hf _ _ _ Hl). by left.
  - intros x. pose proof (occ_concat_insert x f _ _ l Hl) as Hx. simpl in *. lia.
Qed.

End RenameLemmas.
