(* ===== verification/RenameProps.v ===== *)
(** * cpu/o3/rename: no register is lost, and the maps agree

    Every physical register is at all times in exactly one place: free, about to be free,
    in a rename map, or as the previous register of an entry of a history; and the rename
    map of a thread is its committed map with the instructions in flight applied. *)

From Stdlib Require Import ZArith Lia Sorted.
From stdpp Require Import base numbers option list sorting relations.
From S2P Require Import Prelude RenameMap Rename RenameLemmas.

Module RenameProps.
Import RenameMap Rename RenameLemmas.

(** ** Histories *)

Definition entries (r : Renamed) : list RenameHistory :=
  (λ d, mkHistory (seqNum (r_inst r)) (flattenedDest d) (renamedDest d) (prevDest d)) <$> r_dests r.

(** The registers that an entry took from the free list and that it replaced. *)
Definition taken (e : RenameHistory) : list PhysRegIdPtr :=
  if decide (newPhysReg e = prevPhysReg e) then [] else [newPhysReg e].
Definition replaced (e : RenameHistory) : list PhysRegIdPtr :=
  if decide (newPhysReg e = prevPhysReg e) then [] else [prevPhysReg e].
Definition takens (h : list RenameHistory) : list PhysRegIdPtr := h ≫= taken.
Definition replaceds (h : list RenameHistory) : list PhysRegIdPtr := h ≫= replaced.

Definition fixed_ptr (a : RegId) : PhysRegIdPtr :=
  match classValue a with MiscRegClass => getMiscRegId (index a) | _ => invalidPhysRegId end.

(** [m] is the map after the entry; [undo] is the map before it. *)
Definition undo (e : RenameHistory) (m : UnifiedRenameMap) : UnifiedRenameMap :=
  if decide (newPhysReg e = prevPhysReg e) then m else put (archReg e) (prevPhysReg e) m.
Fixpoint undo_all (h : list RenameHistory) (m : UnifiedRenameMap) : UnifiedRenameMap :=
  match h with
  | [] => m
  | e :: h => undo_all h (undo e m)
  end.

(** The registers of the architecture, as the constructor of the CPU goes through them. *)
Lemma elem_of_arch_regs a cs l : a ∈ concat (zip_with (λ c n, map (λ i, mkRegId c (Z.of_nat i) 0) (seq 0 n)) cs l) ↔
  ∃ k c n, cs !! k = Some c ∧ l !! k = Some n ∧ classValue a = c ∧ 0 <= index a < Z.of_nat n ∧ numPinnedWrites a = 0.
Proof.
  rewrite elem_of_concat. split.
  - intros (x & Ha & (k & Hk)%list_elem_of_lookup). apply lookup_zip_with_Some in Hk as (c & n & -> & Hc & Hn).
    apply list_elem_of_fmap in Ha as (i & -> & Hi%elem_of_seq). exists k, c, n. simpl. split_and!; try done; lia.
  - intros (k & c & n & Hc & Hn & Ha & Hi & Hp). exists (map (λ i, mkRegId c (Z.of_nat i) 0) (seq 0 n)). split.
    + apply list_elem_of_fmap. exists (Z.to_nat (index a)). split; [|apply elem_of_seq; lia].
      destruct a; simpl in *; subst. f_equal. lia.
    + apply list_elem_of_lookup. exists k. apply lookup_zip_with_Some. by exists c, n.
Qed.

(** A machine: the function of the instruction set, the registers and the physical registers
    of each class, the threads, and how many of them run. *)
Class Config := {
  flatten : RegId → RegId;
  rc : list nat;
  counts : list nat;
  threads : nat;
  active : nat;
  cfg_rc : length rc = 7%nat;
  cfg_counts : length counts = 7%nat;
  cfg_active : (active <= threads)%nat
}.

(** Two results of the same call. *)
Ltac same_ok :=
  match goal with
  | H1 : ?x = Ok _, H2 : ?x = Ok _ |- _ => rewrite H1 in H2; injection H2 as H2; subst
  end.

Section Props.
Context {cfg : Config}.

Lemma active_thread t : (t < active)%nat → (t < threads)%nat.
Proof. pose proof cfg_active. lia. Qed.

Definition entry_ok (e : RenameHistory) (m : UnifiedRenameMap) : Prop :=
  (isRenameable (archReg e) = false ∧ newPhysReg e = fixed_ptr (archReg e) ∧
     prevPhysReg e = fixed_ptr (archReg e)) ∨
  (valid rc (archReg e) ∧ get (archReg e) m = Some (newPhysReg e) ∧
     p_class (newPhysReg e) = classValue (archReg e) ∧ p_class (prevPhysReg e) = classValue (archReg e)).

Fixpoint undoable (h : list RenameHistory) (m : UnifiedRenameMap) : Prop :=
  match h with
  | [] => True
  | e :: h => entry_ok e m ∧ undoable h (undo e m)
  end.

Lemma undo_all_app h1 h2 m : undo_all (h1 ++ h2) m = undo_all h2 (undo_all h1 m).
Proof. revert m. induction h1 as [|e h1 IH]; intros m; simpl; [done|]. apply IH. Qed.

Lemma undoable_app h1 h2 m : undoable (h1 ++ h2) m ↔ undoable h1 m ∧ undoable h2 (undo_all h1 m).
Proof. revert m. induction h1 as [|e h1 IH]; intros m; simpl; [naive_solver|]. rewrite IH. naive_solver. Qed.

Lemma takens_app h1 h2 : takens (h1 ++ h2) = takens h1 ++ takens h2.
Proof. apply bind_app. Qed.
Lemma replaceds_app h1 h2 : replaceds (h1 ++ h2) = replaceds h1 ++ replaceds h2.
Proof. apply bind_app. Qed.

Lemma takens_cons e h : takens (e :: h) = taken e ++ takens h.
Proof. done. Qed.
Lemma replaceds_cons e h : replaceds (e :: h) = replaced e ++ replaceds h.
Proof. done. Qed.

Lemma fixed_class a : isRenameable a = false → p_class (fixed_ptr a) = classValue a.
Proof. unfold isRenameable, class_renameable, fixed_ptr. destruct (classValue a); done. Qed.

Lemma lookup_fixed a m : isRenameable a = false → lookup a m = Ok (Some (fixed_ptr a)).
Proof. unfold isRenameable, class_renameable, fixed_ptr, lookup. destruct (classValue a); done. Qed.

Lemma entry_undo e m : entry_ok e m → shaped rc m →
  shaped rc (undo e m) ∧ (full m → full (undo e m)) ∧
  (∀ x, occ x (mapped (undo e m)) + occ x (taken e) = occ x (mapped m) + occ x (replaced e))%nat.
Proof.
  unfold undo, taken, replaced. intros He Hm. destruct (decide _) as [|Hne]; [done|].
  destruct He as [(_ & H1 & H2)|(Ha & Hg & Hn & Hp)]; [congruence|].
  split; [by apply shaped_put|]. split; [by apply full_put|]. intros x. by apply occ_put.
Qed.

Lemma undo_all_ok h m : undoable h m → shaped rc m →
  shaped rc (undo_all h m) ∧ (full m → full (undo_all h m)) ∧
  (∀ x, occ x (mapped (undo_all h m)) + occ x (takens h) = occ x (mapped m) + occ x (replaceds h))%nat.
Proof.
  revert m. induction h as [|e h IH]; intros m Hu Hm; simpl; [done|]. destruct Hu as [He Hu].
  destruct (entry_undo e m He Hm) as (Hm' & Hf & Ho). destruct (IH _ Hu Hm') as (H1 & H2 & H3).
  split; [done|]. split; [tauto|]. intros x. specialize (Ho x). specialize (H3 x).
  unfold takens, replaceds in *. simpl. rewrite !occ_app. lia.
Qed.

(** Setting the new register again takes an entry back in. *)
Lemma redo e m : entry_ok e m → shaped rc m → setEntry (archReg e) (newPhysReg e) (undo e m) = Ok m.
Proof.
  intros He Hm. pose proof (entry_undo e m He Hm) as (Hs & _). destruct He as [(Hr & Hn & Hp)|(Ha & Hg & Hn & Hp)].
  - unfold undo. rewrite decide_True by congruence. unfold setEntry.
    rewrite bool_decide_true by (rewrite Hn; by apply fixed_class). rewrite Hr. simpl.
    rewrite lookup_fixed, Hn by done. simpl. by rewrite bool_decide_true.
  - rewrite (setEntry_put rc) by done. f_equal. unfold undo.
    destruct (decide _); [|rewrite put_put]; by apply put_same.
Qed.

(** ** The loops over a history *)

Lemma doSquash_loop_spec sn h : ∀ m freeing, undoable h m → shaped rc m →
  ∃ h1 h2, h = h1 ++ h2 ∧ Forall (λ e, sn < instSeqNum e) h1 ∧
    (∀ e, head h2 = Some e → instSeqNum e <= sn) ∧
    doSquash_loop sn h m freeing = Ok (h2, undo_all h1 m, freeing ++ takens h1).
Proof.
  induction h as [|e h IH]; intros m freeing Hu Hm; simpl.
  - exists [], []. split; [done|]. split; [constructor|]. split; [done|]. unfold takens. simpl. by rewrite app_nil_r.
  - destruct Hu as [He Hu]. destruct (entry_undo e m He Hm) as (Hm' & _).
    destruct (Z.ltb_spec sn (instSeqNum e)).
    + unfold undo in Hu, Hm'. case_bool_decide as Hnp; simpl.
      * rewrite decide_True in Hu by done. destruct (IH m freeing Hu Hm) as (h1 & h2 & -> & H1 & H2 & ->).
        exists (e :: h1), h2. split; [done|]. split; [by constructor|]. split; [done|].
        unfold takens. simpl. unfold undo, taken. by rewrite !decide_True.
      * rewrite decide_False in Hu, Hm' by done.
        destruct He as [(_ & ? & ?)|(Ha & Hg & Hn & Hp)]; [congruence|].
        rewrite (setEntry_put rc) by done. simpl.
        destruct (IH _ (freeing ++ [newPhysReg e]) Hu Hm') as (h1 & h2 & -> & H1 & H2 & ->).
        exists (e :: h1), h2. split; [done|]. split; [by constructor|]. split; [done|].
        unfold takens. simpl. unfold undo, taken. rewrite !decide_False by done. by rewrite <-app_assoc.
    + exists [], (e :: h). split; [done|]. split; [constructor|]. split; [by intros ? [= <-]|].
      unfold takens. simpl. by rewrite app_nil_r.
Qed.

Lemma remove_loop_spec sn h : ∀ f, typed f → (∀ p, p ∈ replaceds h → class_renameable (p_class p) = true) →
  ∃ h1 h2 f', h = h1 ++ h2 ∧ Forall (λ e, instSeqNum e <= sn) h1 ∧
    (∀ e, head h2 = Some e → sn < instSeqNum e) ∧
    remove_loop sn h f = Ok (h2, f') ∧ typed f' ∧
    ∀ x, occ x (concat f') = (occ x (concat f) + occ x (replaceds h1))%nat.
Proof.
  induction h as [|e h IH]; intros f Hf Hp; simpl.
  - exists [], [], f. split; [done|]. split; [constructor|]. split; [done|]. split; [done|]. split; [done|].
    intros x. simpl. lia.
  - rewrite replaceds_cons in Hp. setoid_rewrite elem_of_app in Hp.
    destruct (Z.leb_spec (instSeqNum e) sn).
    + assert (∃ f1, (if negb (bool_decide (newPhysReg e = prevPhysReg e)) then addReg (prevPhysReg e) f else Ok f)
          = Ok f1 ∧ typed f1 ∧ ∀ x, occ x (concat f1) = (occ x (concat f) + occ x (replaced e))%nat)
        as (f1 & -> & Hf1 & Ho1).
      { unfold replaced in *. case_bool_decide; simpl.
        - rewrite decide_True by done. exists f. split; [done|]. split; [done|]. simpl. lia.
        - rewrite decide_False in * by done. apply addReg_spec; [done|]. apply Hp. left. by left. }
      simpl. destruct (IH f1 Hf1) as (h1 & h2 & f2 & -> & H1 & H2 & -> & Hf2 & Ho2); [intros p Hq; apply Hp; by right|].
      exists (e :: h1), h2, f2. split; [done|]. split; [by constructor|]. split; [done|]. split; [done|].
      split; [done|]. intros x. rewrite Ho2, Ho1, replaceds_cons, occ_app. lia.
    + exists [], (e :: h), f. split; [done|]. split; [constructor|]. split; [by intros ? [= <-]|]. split; [done|].
      split; [done|]. intros x. simpl. lia.
Qed.

(** ** Renaming one destination *)

Lemma rename_eq a m f ids p l : valid rc a → shaped rc m → get a m = Some p →
  f !! class_nat (classValue a) = Some l →
  rename a m f ids =
    (n ← getNumPinnedWrites p ids;
     if 0 <? n then
       _ ← assert_ok (numPinnedWrites a =? 0); ids ← decrNumPinnedWrites p ids; Ok (p, p, m, f, ids)
     else
       '(r, l) ← simple_getReg l;
       ids ← p_setNumPinnedWrites r (numPinnedWrites a) ids;
       ids ← setNumPinnedWritesToComplete r (numPinnedWrites a + 1) ids;
       Ok (r, p, put a r m, <[class_nat (classValue a) := l]> f, ids)).
Proof.
  intros Ha Hm Hg Hl. destruct (valid_entry rc a m Ha Hm) as (s & Hs & Hi). destruct Ha as (Hr & _).
  unfold rename. rewrite Hr. simpl. destruct (class_nat_num (classValue a)) as [Hc _]; [done|].
  rewrite Hc, !load_class, Hs, Hl. simpl. unfold simple_rename.
  assert (load_at s (index a) = Ok (Some p)) as ->.
  { destruct (load_at_spec s (index a) Hi) as (o & -> & Ho). unfold get in Hg. rewrite Hs in Hg. simpl in Hg.
    rewrite Ho in Hg. simpl in Hg. by subst o. }
  simpl. unfold is_class. rewrite bool_decide_false by (intros Hx; unfold isRenameable in Hr; by rewrite Hx in Hr).
  pose proof (lookup_lt_Some _ _ _ Hs). pose proof (lookup_lt_Some _ _ _ Hl).
  destruct (getNumPinnedWrites p ids) as [n|]; [|done]. simpl. destruct (0 <? n).
  - destruct (assert_ok _); [|done]. simpl. destruct (decrNumPinnedWrites p ids); [|done]. simpl.
    by rewrite !store_class, !list_insert_id.
  - destruct (simple_getReg l) as [[r l']|]; [|done]. simpl. rewrite store_at_spec by done. simpl.
    destruct (p_setNumPinnedWrites _ _ ids) as [ids1|]; [|done]. simpl.
    destruct (setNumPinnedWritesToComplete _ _ ids1) as [ids2|]; [|done]. simpl.
    rewrite !store_class by done. simpl. repeat f_equal. unfold put. apply list_eq. intros i.
    rewrite list_lookup_alter. case_decide as Hd.
    + subst i. by rewrite Hs, list_lookup_insert_eq.
    + by rewrite list_lookup_insert_ne.
Qed.

(** What holds of a thread's map next to the free list. *)
Record alloc_ok (m : UnifiedRenameMap) (f : UnifiedFreeList) (n_ids : nat) : Prop := {
  a_shaped : shaped rc m;
  a_full : full m;
  a_typed : typed f;
  a_ids : n_ids = totalNumPhysRegs counts;
  a_occ : ∀ x, (occ x (concat f) + occ x (mapped m) <= occ x (all_ids counts))%nat
}.

Lemma alloc_known m f n p : alloc_ok m f n → p ∈ concat f ∨ p ∈ mapped m → p ∈ all_ids counts.
Proof. intros [_ _ _ _ Ho] Hp. specialize (Ho p). rewrite !occ_elem in *. lia. Qed.

Lemma all_ids_occ x : (occ x (all_ids counts) <= 1)%nat.
Proof. apply occ_NoDup, all_ids_NoDup, cfg_counts. Qed.

(** The entry that renaming makes, and what it takes. *)
Lemma rename_entry sn a m f ids n p m' f' ids' : alloc_ok m f (length ids) → nameable rc a →
  rename a m f ids = Ok (n, p, m', f', ids') →
  let e := mkHistory sn a n p in
  entry_ok e m' ∧ undo e m' = m ∧ shaped rc m' ∧ full m' ∧ typed f' ∧ length ids' = length ids ∧
  (isFixedMapping n = true ∨ n ∈ all_ids counts) ∧
  (∀ x, occ x (concat f') + occ x (taken e) = occ x (concat f))%nat.
Proof.
  intros Hok Ha H e. pose proof Hok as [Hm Hf Ht Hlen Ho]. destruct Ha as [Ha|Ha].
  - unfold rename in H. rewrite Ha in H. simpl in H. rewrite lookup_fixed in H by done. simpl in H.
    injection H as <- <- <- <- <-. unfold undo, taken, e. simpl. rewrite !decide_True by done.
    split; [by left|]. do 5 (split; [done|]). split; [|intros; simpl; lia].
    left. unfold isFixedMapping. rewrite fixed_class by done. unfold isRenameable in Ha. by rewrite Ha.
  - pose proof Ha as (Hr & _). destruct (get_full rc a m Ha Hm Hf) as (q & Hg & Hq).
    destruct (typed_lookup f (classValue a) Ht Hr) as (l & Hl).
    rewrite (rename_eq a m f ids q l) in H by done. res_inv. destruct (0 <? a0).
    + res_inv. unfold decrNumPinnedWrites in E1. res_inv. unfold undo, taken, e. simpl. rewrite !decide_True by done.
      split; [by right|]. do 4 (split; [done|]). split; [by eapply store_at_length|]. split; [|intros; simpl; lia].
      right. eapply alloc_known; [done|]. right. by eapply get_mapped.
    + destruct l as [|r l]; [done|]. simpl in H. res_inv. unfold p_setNumPinnedWrites in E0.
      unfold setNumPinnedWritesToComplete in E1. res_inv.
      destruct (getReg_spec (classValue a) f n l Ht Hr Hl) as (_ & Ht' & cfg_rc' & Hox).
      assert (n ≠ p) as Hne.
      { intros ->. specialize (Ho p). specialize (Hox p). pose proof (all_ids_occ p). simpl in Hox.
        rewrite decide_True in Hox by done. apply get_mapped in Hg. rewrite occ_elem in Hg. lia. }
      unfold undo, taken, e. simpl. rewrite !decide_False by done.
      split. { right. simpl. rewrite (get_put rc) by done. done. }
      split. { rewrite put_put. by apply put_same. }
      split; [by apply shaped_put|]. split; [by apply full_put|]. split; [done|].
      split; [by erewrite store_at_length, store_at_length|]. split; [|done].
      right. eapply alloc_known; [done|]. left. apply elem_of_concat. exists (n :: l).
      split; [by left|by eapply list_elem_of_lookup_2].
Qed.

(** ** The state of the stage *)

Record core (s : State) : Prop := {
  c_maps : length (renameMap s) = threads;
  c_commit : length (commitRenameMap s) = threads;
  c_history : length (historyBuffer s) = threads;
  c_freeing : length (freeingInProgress s) = threads;
  c_typed : typed (freeList s);
  c_ids : length (physRegs s) = totalNumPhysRegs counts;
  c_scoreboard : length (scoreboard s) = totalNumPhysRegs counts;
  c_occ : ∀ x, (occ x (concat (freeList s)) + occ x (concat (freeingInProgress s)) +
    occ x (concat (mapped <$> renameMap s)) + occ x (concat (replaceds <$> historyBuffer s)) =
    occ x (all_ids counts))%nat;
  c_thread : ∀ t m h, renameMap s !! t = Some m → historyBuffer s !! t = Some h →
    shaped rc m ∧ undoable h m ∧ ((t < active)%nat → full m)
}.

Lemma thread_some {A} (L : list A) t : length L = threads → (t < threads)%nat → ∃ x, L !! t = Some x.
Proof. intros Hl Ht. apply lookup_lt_is_Some_2. by rewrite Hl. Qed.

Lemma core_alloc s t m : core s → (t < active)%nat → renameMap s !! t = Some m →
  alloc_ok m (freeList s) (length (physRegs s)).
Proof.
  intros Hs Ht Hm. destruct (thread_some (historyBuffer s) t (c_history s Hs)) as [h Hh]; [by apply active_thread|].
  destruct (c_thread s Hs t m h Hm Hh) as (H1 & H2 & H3). split; [done|by apply H3|apply Hs|apply Hs|].
  intros x. pose proof (c_occ s Hs x). pose proof (occ_fmap_le mapped x _ t m Hm). lia.
Qed.

(** Entries were added to the history of one thread. *)
Definition extends (t : nat) (es : list RenameHistory) (s s' : State) : Prop :=
  ∃ h m m', historyBuffer s !! t = Some h ∧ historyBuffer s' = <[t := es ++ h]> (historyBuffer s) ∧
    renameMap s !! t = Some m ∧ renameMap s' = <[t := m']> (renameMap s) ∧ undo_all es m' = m ∧
    commitRenameMap s' = commitRenameMap s ∧ freeingInProgress s' = freeingInProgress s.

Lemma extends_nil t s : core s → (t < threads)%nat → extends t [] s s.
Proof.
  intros Hs Ht. destruct (thread_some _ t (c_history s Hs) Ht) as [h Hh].
  destruct (thread_some _ t (c_maps s Hs) Ht) as [m Hm]. exists h, m, m. simpl. by rewrite !list_insert_id.
Qed.

Lemma extends_trans t es es' s1 s2 s3 : extends t es s1 s2 → extends t es' s2 s3 → extends t (es' ++ es) s1 s3.
Proof.
  intros (h & m & m' & Hh & Hh' & Hm & Hm' & Hu & Hc & Hf) (h2 & m2 & m2' & Hh2 & Hh2' & Hm2 & Hm2' & Hu2 & Hc2 & Hf2).
  rewrite Hh', list_lookup_insert_eq in Hh2 by (by eapply lookup_lt_Some). injection Hh2 as <-.
  rewrite Hm', list_lookup_insert_eq in Hm2 by (by eapply lookup_lt_Some). injection Hm2 as <-.
  exists h, m, m2'. rewrite Hh2', Hh', Hm2', Hm', !list_insert_insert_eq, app_assoc, undo_all_app, Hu2, Hu, Hc2, Hf2.
  done.
Qed.

Lemma sb_ok (v : list bool) p : length v = totalNumPhysRegs counts →
  isFixedMapping p = true ∨ p ∈ all_ids counts →
  (∃ b, sb_getReg p v = Ok b) ∧ sb_unsetReg p v = Ok (if isFixedMapping p then v else <[Z.to_nat (flatIndex p) := false]> v) ∧
  sb_setReg p v = Ok (if isFixedMapping p then v else <[Z.to_nat (flatIndex p) := true]> v).
Proof.
  unfold sb_getReg, sb_unsetReg, sb_setReg. intros Hv [->|Hp]; [by split; [exists true|]|].
  destruct (all_ids_range counts cfg_counts p Hp) as [Hr Hc]. unfold isFixedMapping. rewrite Hc. simpl.
  replace (_ <? _) with true by lia. simpl. rewrite !store_at_spec by lia.
  destruct (load_at_spec v (flatIndex p)) as (b & -> & _); [lia|]. split; [by exists b|done].
Qed.

Definition hist_of (sn : Z) (d : Dest) : RenameHistory :=
  mkHistory sn (flattenedDest d) (renamedDest d) (prevDest d).

Lemma renameDestReg_core t sn d s r pin s' : core s → (t < active)%nat → nameable rc (flatten d) →
  renameDestReg flatten t sn d s = Ok (r, pin, s') → core s' ∧ extends t [hist_of sn r] s s'.
Proof.
  intros Hs Ht Hd H. unfold renameDestReg in H. res_inv. rename a into m. destruct a0 as [[[[n p] m'] f'] ids'].
  res_inv. simpl in *. rename a into sb', a0 into h.
  pose proof (core_alloc s t m Hs Ht E) as Hok.
  set (a := setNumPinnedWrites (numPinnedWrites d) (flatten d)) in *.
  assert (nameable rc a) as Ha by exact Hd.
  destruct (rename_entry sn a m _ _ n p m' f' ids' Hok Ha E0) as (He & Hu & Hm' & Hf' & Ht' & Hl' & Hn & Ho).
  set (e := mkHistory sn a n p) in *.
  split; [|exists h, m, m'; unfold hist_of; simpl; done].
  destruct (sb_ok (scoreboard s) n (c_scoreboard s Hs) Hn) as (_ & Hsb & _). rewrite Hsb in E1. injection E1 as <-.
  pose proof (lookup_lt_Some _ _ _ E). pose proof (lookup_lt_Some _ _ _ E2).
  split; simpl; rewrite ?length_insert; try apply Hs; [done|by rewrite Hl'; apply Hs| | |].
  - destruct (isFixedMapping n); rewrite ?length_insert; apply Hs.
  - intros x. pose proof (c_occ s Hs x) as Hx. pose proof (occ_fmap_insert mapped x _ t m m' E) as H1.
    pose proof (occ_fmap_insert replaceds x _ t h (e :: h) E2) as H2. specialize (Ho x).
    destruct (entry_undo e m' He Hm') as (_ & _ & H3). specialize (H3 x). rewrite Hu in H3.
    rewrite replaceds_cons, occ_app in H2. lia.
  - intros t' m1 h1 Hm1 Hh1. destruct (decide (t' = t)) as [->|Hne].
    + rewrite list_lookup_insert_eq in Hm1 by done. rewrite list_lookup_insert_eq in Hh1 by done. injection Hm1 as <-. injection Hh1 as <-.
      destruct (c_thread s Hs t m h E E2) as (_ & Hund & _). split; [done|]. split; [|done].
      simpl. by rewrite Hu.
    + rewrite list_lookup_insert_ne in Hm1 by done. rewrite list_lookup_insert_ne in Hh1 by done. by apply Hs.
Qed.

Lemma renameDestRegs_core t sn ds : ∀ s rs pin s', core s → (t < active)%nat →
  Forall (λ d, nameable rc (flatten d)) ds → renameDestRegs flatten t sn ds s = Ok (rs, pin, s') →
  core s' ∧ extends t (reverse (hist_of sn <$> rs)) s s'.
Proof.
  induction ds as [|d ds IH]; intros s rs pin s' Hs Ht Hd H; simpl in H.
  - injection H as <- _ <-. split; [done|]. apply extends_nil; [done|by apply active_thread].
  - apply Forall_cons in Hd as [Hd Hds]. res_inv. destruct a as [[r pin1] s1]. res_inv.
    destruct a as [[l pin2] s2]. res_inv.
    destruct (renameDestReg_core t sn d s r pin1 s1 Hs Ht Hd E) as [Hs1 He1].
    destruct (IH _ _ _ _ Hs1 Ht Hds E0) as [Hs2 He2]. split; [done|].
    rewrite fmap_cons, reverse_cons. by eapply extends_trans.
Qed.

(** What the operands of an instruction must be: registers of the architecture, counted
    as the instruction says. *)
Record wf_inst (i : DynInst) : Prop := {
  wf_srcs : Forall (λ a, nameable rc (flatten a)) (srcRegs i);
  wf_dests : Forall (λ a, nameable rc (flatten a)) (destRegs i);
  wf_counts : ∀ c, class_renameable c = true →
    Z.of_nat (length (filter (λ a, classValue (flatten a) = c) (destRegs i))) <= numTypedDestRegs i c
}.

Lemma renameInst_core t i s r s' : core s → (t < active)%nat → wf_inst i →
  renameInst flatten t i s = Ok (Some r, s') →
  core s' ∧ extends t (reverse (entries r)) s s' ∧ r_inst r = i.
Proof.
  intros Hs Ht Hi H. unfold renameInst in H. destruct (canRename _ _); [|done]. simpl in H. res_inv.
  destruct a0 as [[ds pin] s1]. res_inv. split; [|split; [|done]];
    eapply (renameDestRegs_core t (seqNum i) (destRegs i)); eauto using wf_dests.
Qed.

(** Replacing the map and the history of one thread. *)
Lemma core_thread s s' t m h m' h' : core s → renameMap s !! t = Some m → historyBuffer s !! t = Some h →
  renameMap s' = <[t := m']> (renameMap s) → historyBuffer s' = <[t := h']> (historyBuffer s) →
  length (commitRenameMap s') = threads → length (freeingInProgress s') = threads →
  typed (freeList s') → physRegs s' = physRegs s → scoreboard s' = scoreboard s →
  shaped rc m' → undoable h' m' → (full m → full m') →
  (∀ x, occ x (concat (freeList s')) + occ x (concat (freeingInProgress s')) + occ x (mapped m') + occ x (replaceds h') =
     occ x (concat (freeList s)) + occ x (concat (freeingInProgress s)) + occ x (mapped m) + occ x (replaceds h))%nat →
  core s'.
Proof.
  intros Hs Hm Hh Hm' Hh' Hc Hf Ht Hi Hsb Hsh Hu Hfull Ho.
  pose proof (lookup_lt_Some _ _ _ Hm). pose proof (lookup_lt_Some _ _ _ Hh).
  split; rewrite ?Hm', ?Hh', ?Hi, ?Hsb, ?length_insert; try done; try apply Hs.
  - intros x. pose proof (c_occ s Hs x) as Hx. specialize (Ho x).
    pose proof (occ_fmap_insert mapped x _ t m m' Hm). pose proof (occ_fmap_insert replaceds x _ t h h' Hh). lia.
  - intros t' m1 h1 Hm1 Hh1. destruct (decide (t' = t)) as [->|Hne].
    + rewrite list_lookup_insert_eq in Hm1 by done. rewrite list_lookup_insert_eq in Hh1 by done.
      injection Hm1 as <-. injection Hh1 as <-. destruct (c_thread s Hs t m h Hm Hh) as (_ & _ & Hfm).
      split; [done|]. split; [done|]. auto.
    + rewrite list_lookup_insert_ne in Hm1 by done. rewrite list_lookup_insert_ne in Hh1 by done. by apply Hs.
Qed.

Lemma thread_parts s t : core s → (t < threads)%nat → ∃ m h fr cm, renameMap s !! t = Some m ∧
  historyBuffer s !! t = Some h ∧ freeingInProgress s !! t = Some fr ∧ commitRenameMap s !! t = Some cm.
Proof.
  intros Hs Ht. destruct (thread_some _ t (c_maps s Hs) Ht) as [m Hm].
  destruct (thread_some _ t (c_history s Hs) Ht) as [h Hh].
  destruct (thread_some _ t (c_freeing s Hs) Ht) as [fr Hf].
  destruct (thread_some _ t (c_commit s Hs) Ht) as [cm Hc]. by exists m, h, fr, cm.
Qed.

Lemma doSquash_core sn t s : core s → (t < threads)%nat →
  ∃ m h1 h2 s', renameMap s !! t = Some m ∧ historyBuffer s !! t = Some (h1 ++ h2) ∧
    Forall (λ e, sn < instSeqNum e) h1 ∧ (∀ e, head h2 = Some e → instSeqNum e <= sn) ∧
    doSquash sn t s = Ok s' ∧ core s' ∧ historyBuffer s' = <[t := h2]> (historyBuffer s) ∧
    renameMap s' = <[t := undo_all h1 m]> (renameMap s) ∧ commitRenameMap s' = commitRenameMap s ∧
    physRegs s' = physRegs s ∧ scoreboard s' = scoreboard s.
Proof.
  intros Hs Ht. destruct (thread_parts s t Hs Ht) as (m & h & fr & cm & Hm & Hh & Hf & _).
  destruct (c_thread s Hs t m h Hm Hh) as (Hsh & Hu & _).
  destruct (doSquash_loop_spec sn h m fr Hu Hsh) as (h1 & h2 & -> & H1 & H2 & Hl).
  apply undoable_app in Hu as [Hu1 Hu2]. destruct (undo_all_ok h1 m Hu1 Hsh) as (Hsh' & Hfull & Ho).
  eexists m, h1, h2, _. unfold doSquash. rewrite Hm, Hh, Hf. simpl. rewrite Hl. simpl.
  do 5 (split; [done|]). split; [|done].
  eapply (core_thread s _ t m (h1 ++ h2)); simpl; rewrite ?length_insert; try done; try apply Hs.
  intros x. pose proof (occ_concat_insert x (freeingInProgress s) t fr (fr ++ takens h1) Hf) as Hx.
  specialize (Ho x). rewrite occ_app in Hx. rewrite replaceds_app, occ_app. lia.
Qed.

Lemma occ_replaceds_reverse x h : occ x (replaceds (reverse h)) = occ x (replaceds h).
Proof.
  induction h as [|e h IH]; [done|]. rewrite reverse_cons, replaceds_app, !replaceds_cons, !occ_app, IH.
  change (replaceds []) with (@nil PhysRegIdPtr). simpl. lia.
Qed.

Lemma removeFromHistory_core sn t s : core s → (t < threads)%nat →
  ∃ h h1 h2 s', historyBuffer s !! t = Some h ∧ reverse h = h1 ++ h2 ∧
    Forall (λ e, instSeqNum e <= sn) h1 ∧ (∀ e, head h2 = Some e → sn < instSeqNum e) ∧
    removeFromHistory sn t s = Ok s' ∧ core s' ∧ historyBuffer s' = <[t := reverse h2]> (historyBuffer s) ∧
    renameMap s' = renameMap s ∧ commitRenameMap s' = commitRenameMap s ∧
    physRegs s' = physRegs s ∧ scoreboard s' = scoreboard s.
Proof.
  intros Hs Ht. destruct (thread_parts s t Hs Ht) as (m & h & fr & cm & Hm & Hh & Hf & _).
  destruct (c_thread s Hs t m h Hm Hh) as (Hsh & Hu & _).
  destruct (remove_loop_spec sn (reverse h) (freeList s)) as (h1 & h2 & f' & Hr & H1 & H2 & Hl & Ht' & Ho).
  { apply Hs. }
  { intros p Hp. apply (all_ids_range counts cfg_counts p). rewrite occ_elem in *. rewrite occ_replaceds_reverse in Hp.
    pose proof (c_occ s Hs p). pose proof (occ_fmap_le replaceds p _ t h Hh). lia. }
  eexists h, h1, h2, _. unfold removeFromHistory. rewrite Hh. simpl. rewrite Hl. simpl.
  do 5 (split; [done|]). split; [|done].
  assert (h = reverse h2 ++ reverse h1) as Hh'. { by rewrite <-reverse_app, <-Hr, reverse_involutive. }
  eapply (core_thread s _ t m h m); simpl; try done; try apply Hs; [by rewrite list_insert_id| |].
  - rewrite Hh' in Hu. by apply undoable_app in Hu as [? _].
  - intros x. specialize (Ho x). rewrite Hh', replaceds_app, occ_app, !occ_replaceds_reverse. lia.
Qed.

Lemma release_core b t s : core s → (t < threads)%nat →
  ∃ s', release_squashed b t s = Ok s' ∧ core s' ∧ historyBuffer s' = historyBuffer s ∧
    renameMap s' = renameMap s ∧ commitRenameMap s' = commitRenameMap s ∧ physRegs s' = physRegs s ∧
    scoreboard s' = scoreboard s.
Proof.
  intros Hs Ht. destruct (thread_parts s t Hs Ht) as (m & h & fr & cm & Hm & Hh & Hf & _).
  unfold release_squashed. rewrite Hf. simpl. destruct (negb b && _); [|by eexists].
  destruct (addRegs_spec fr (freeList s)) as (f' & -> & Ht' & Ho).
  { apply Hs. }
  { intros p Hp. apply (all_ids_range counts cfg_counts p). rewrite occ_elem in *. pose proof (c_occ s Hs p).
    pose proof (occ_concat_insert p _ t fr [] Hf). simpl in *. lia. }
  simpl. eexists. split; [done|]. split; [|done]. destruct (c_thread s Hs t m h Hm Hh) as (Hsh & Hu & _).
  eapply (core_thread s _ t m h m h); simpl; rewrite ?list_insert_id by done; try done; try apply Hs.
  - rewrite length_insert. apply Hs.
  - intros x. specialize (Ho x). pose proof (occ_concat_insert x _ t fr [] Hf). simpl in *. lia.
Qed.

(** ** Commit and the tables *)

Lemma commit_dests_spec sn ds : ∀ m, undoable (reverse (hist_of sn <$> ds)) m → shaped rc m →
  commit_dests ds (undo_all (reverse (hist_of sn <$> ds)) m) = Ok m.
Proof.
  induction ds as [|d ds IH]; intros m Hu Hm; [done|]. rewrite fmap_cons, reverse_cons in *.
  apply undoable_app in Hu as [Hu [He _]]. rewrite undo_all_app. simpl.
  destruct (undo_all_ok _ m Hu Hm) as (Hm' & _). pose proof (redo _ _ He Hm') as Hr. simpl in Hr.
  rewrite Hr. simpl. by apply IH.
Qed.

Lemma core_tables s ids sb : core s → length ids = length (physRegs s) → length sb = length (scoreboard s) →
  core (set_scoreboard sb (set_physRegs ids s)).
Proof. intros [] Hi Hsb. by split; simpl; rewrite ?Hi, ?Hsb. Qed.

Definition known (d : Dest) : Prop := isFixedMapping (renamedDest d) = true ∨ renamedDest d ∈ all_ids counts.

Lemma known_load {A} (l : list A) p : length l = totalNumPhysRegs counts → p ∈ all_ids counts →
  ∃ x, load_at l (flatIndex p) = Ok x ∧ l !! Z.to_nat (flatIndex p) = Some x ∧
    ∀ y, store_at l (flatIndex p) y = Ok (<[Z.to_nat (flatIndex p) := y]> l).
Proof.
  intros Hl Hp. destruct (all_ids_range counts cfg_counts p Hp) as [Hr _].
  destruct (load_at_spec l (flatIndex p)) as (x & H1 & H2); [lia|]. exists x. split; [done|]. split; [done|].
  intros y. apply store_at_spec. lia.
Qed.

Lemma known_renameable p : p ∈ all_ids counts → isFixedMapping p = false.
Proof. intros Hp. unfold isFixedMapping. by destruct (all_ids_range counts cfg_counts p Hp) as [_ ->]. Qed.

(** Changing the counts of a register leaves the table's pins. *)
Lemma store_pinned ids i x n k ids' : load_at ids i = Ok x → store_at ids i (mkPhys n k (pinned x)) = Ok ids' →
  pinned <$> ids' = pinned <$> ids.
Proof.
  unfold load_at, store_at. destruct (_ && _); [|done]. destruct (i <? 0); [done|]. intros Hx [= <-].
  destruct (ids !! Z.to_nat i) eqn:E; [|done]. injection Hx as <-.
  rewrite list_fmap_insert. apply list_insert_id. by rewrite list_lookup_fmap, E.
Qed.

(** The register of a destination is not pinned, if it is one of the table. *)
Definition unpinned (ids : list PhysRegId) (d : Dest) : Prop :=
  isFixedMapping (renamedDest d) = false →
  (pinned <$> ids) !! Z.to_nat (flatIndex (renamedDest d)) ≠ Some true.

(** The status bits say of an instruction in flight whether it has pinned registers. *)
Definition pins_ok (ids : list PhysRegId) (r : Renamed) : Prop :=
  pinnedRegsSquashDone r = false ∧ (pinnedRegsRenamed r = false → Forall (unpinned ids) (r_dests r)).

(** The same instruction, but for its bit of written pinned registers. *)
Definition same_inst (r r' : Renamed) : Prop :=
  r_inst r' = r_inst r ∧ r_srcs r' = r_srcs r ∧ r_dests r' = r_dests r ∧
  pinnedRegsRenamed r' = pinnedRegsRenamed r ∧ pinnedRegsSquashDone r' = pinnedRegsSquashDone r.

Lemma wakeDependents_spec ds : ∀ r ids, Forall known ds → length ids = totalNumPhysRegs counts →
  pinnedRegsSquashDone r = false → (pinnedRegsRenamed r = false → Forall (unpinned ids) ds) →
  ∃ r' ids', wakeDependents ds r ids = Ok (r', ids') ∧ same_inst r r' ∧ length ids' = length ids ∧
    p_numPinnedWrites <$> ids' = p_numPinnedWrites <$> ids ∧ pinned <$> ids' = pinned <$> ids.
Proof.
  induction ds as [|d ds IH]; intros r ids Hk Hl Hsq Hun; simpl; [by eexists _, _|]. apply Forall_cons in Hk as [Hd Hk].
  assert (pinnedRegsRenamed r = false → Forall (unpinned ids) ds) as Hun'.
  { intros Hr. by apply Hun, Forall_cons in Hr as [_ ?]. }
  destruct (isFixedMapping (renamedDest d)) eqn:Hfix; [by apply IH|]. destruct Hd as [Hd|Hd]; [by rewrite Hd in Hfix|].
  destruct (known_load ids _ Hl Hd) as (x & -> & Hx & Hst). simpl. rewrite Hst. simpl.
  set (ids1 := <[_ := _]> ids). assert (pinned <$> ids1 = pinned <$> ids) as Hp1.
  { unfold ids1. rewrite list_fmap_insert. apply list_insert_id. by rewrite list_lookup_fmap, Hx. }
  assert (p_numPinnedWrites <$> ids1 = p_numPinnedWrites <$> ids) as Hn1.
  { unfold ids1. rewrite list_fmap_insert. apply list_insert_id. by rewrite list_lookup_fmap, Hx. }
  assert (length ids1 = length ids) as Hl1 by apply length_insert.
  assert (∃ r1, (if pinned x then setPinnedRegsWritten r else Ok r) = Ok r1 ∧ same_inst r r1) as (r1 & -> & Hr1).
  { destruct (pinned x) eqn:Hpx; [|by exists r]. unfold setPinnedRegsWritten. rewrite Hsq.
    destruct (pinnedRegsRenamed r) eqn:Hr; [simpl; by eexists|]. exfalso.
    specialize (Hun eq_refl). apply Forall_cons in Hun as [Hun _]. apply (Hun Hfix).
    by rewrite list_lookup_fmap, Hx; simpl; rewrite Hpx. }
  simpl. destruct Hr1 as (Q1 & Q2 & Q3 & Q4 & Q5). destruct (IH r1 ids1) as (r' & ids' & -> & Hs' & Hl' & Hp' & Hq').
  - done.
  - by rewrite Hl1.
  - by rewrite Q5.
  - rewrite Q4. unfold unpinned. by rewrite Hp1.
  - eexists _, _. split; [done|]. unfold same_inst in *. rewrite Hp', Hq', Hl', Hn1, Hp1, Hl1. naive_solver congruence.
Qed.

(** Write-back marks destinations as ready and nothing else. *)
Lemma mark_ready_spec ds : ∀ ids sb, Forall known ds → length ids = totalNumPhysRegs counts →
  length sb = totalNumPhysRegs counts →
  ∃ sb', mark_ready ds ids sb = Ok sb' ∧ length sb' = length sb ∧
    (∀ k, sb !! k = Some true → sb' !! k = Some true) ∧
    ∀ p, p ∈ all_ids counts → sb' !! Z.to_nat (flatIndex p) = Some true →
      sb !! Z.to_nat (flatIndex p) = Some true ∨ p ∈ renamedDest <$> ds.
Proof.
  induction ds as [|d ds IH]; intros ids sb Hk Hl Hsb; simpl; [exists sb; auto|].
  apply Forall_cons in Hk as [Hd Hk]. destruct (sb_ok sb _ Hsb Hd) as (_ & _ & Hset). rewrite Hset.
  destruct (IH ids sb Hk Hl Hsb) as (sb0 & E0 & Hl0 & Hu0 & Ho0).
  assert (∀ p, p ∈ all_ids counts → sb0 !! Z.to_nat (flatIndex p) = Some true →
    sb !! Z.to_nat (flatIndex p) = Some true ∨ p ∈ renamedDest d :: (renamedDest <$> ds)) as Ho0'.
  { intros p Hp Hb. destruct (Ho0 p Hp Hb); [by left|]. right. by right. }
  destruct (isFixedMapping (renamedDest d)) eqn:Hfix; simpl; [by exists sb0|].
  destruct Hd as [Hd|Hd]; [by rewrite Hd in Hfix|]. destruct (known_load ids _ Hl Hd) as (r & -> & _). simpl.
  destruct (numPinnedWritesToComplete r =? 0); simpl; [|by exists sb0].
  destruct (IH ids (<[Z.to_nat (flatIndex (renamedDest d)) := true]> sb)) as (sb' & -> & Hl' & Hu & Ho);
    [done|done|by rewrite length_insert|]. rewrite length_insert in Hl'.
  exists sb'. split; [done|]. split; [done|]. split.
  - intros k Hb. apply Hu. destruct (decide (k = Z.to_nat (flatIndex (renamedDest d)))) as [->|];
      [rewrite list_lookup_insert_eq; [done|by eapply lookup_lt_Some]|by rewrite list_lookup_insert_ne].
  - intros p Hp Hb. destruct (Ho p Hp Hb) as [Hx|]; [|by right; right].
    apply list_lookup_insert_Some in Hx as [(Hi & _ & _)|[_ Hx]]; [|by left]. right. apply elem_of_cons. left.
    destruct (all_ids_range counts cfg_counts p Hp). destruct (all_ids_range counts cfg_counts _ Hd).
    apply (all_ids_inj counts cfg_counts); [done|done|lia].
Qed.

Lemma writebackInst_core r s : core s → Forall known (r_dests r) → pins_ok (physRegs s) r →
  ∃ r' s', writebackInst r s = Ok (r', s') ∧ core s' ∧ same_inst r r' ∧
    renameMap s' = renameMap s ∧ commitRenameMap s' = commitRenameMap s ∧
    historyBuffer s' = historyBuffer s ∧
    p_numPinnedWrites <$> physRegs s' = p_numPinnedWrites <$> physRegs s ∧
    pinned <$> physRegs s' = pinned <$> physRegs s ∧
    (∀ k, scoreboard s !! k = Some true → scoreboard s' !! k = Some true) ∧
    ∀ p, p ∈ all_ids counts → scoreboard s' !! Z.to_nat (flatIndex p) = Some true →
      scoreboard s !! Z.to_nat (flatIndex p) = Some true ∨ p ∈ renamedDest <$> r_dests r.
Proof.
  intros Hs Hk [Hsq Hun]. unfold writebackInst.
  destruct (wakeDependents_spec (r_dests r) r (physRegs s) Hk) as (r' & ids & -> & Hsame & Hl & Hp & Hq); [by apply Hs|done..|]. simpl.
  destruct (mark_ready_spec (r_dests r) ids (scoreboard s) Hk) as (sb & Hmr & Hsb & Hu & Ho); [by rewrite Hl; apply Hs|apply Hs|].
  pose proof Hsame as (_ & _ & -> & _). rewrite Hmr. simpl. eexists _, _. split; [done|]. split; [by apply core_tables|]. done.
Qed.

Lemma unpin_pinned w ds : ∀ ids ids', unpin w ds ids = Ok ids' →
  length ids' = length ids ∧ pinned <$> ids' = pinned <$> ids.
Proof.
  induction ds as [|d ds IH]; intros ids ids' H; simpl in H; [by injection H as <-|]. res_inv.
  destruct (IH _ _ H) as [-> ->]. destruct a; res_inv; [|done]. split; [by eapply store_at_length|].
  by eapply store_pinned.
Qed.

Lemma setSquashed_core r s r' s' : core s → setSquashed r s = Ok (r', s') →
  core s' ∧ renameMap s' = renameMap s ∧ commitRenameMap s' = commitRenameMap s ∧
  historyBuffer s' = historyBuffer s ∧ scoreboard s' = scoreboard s ∧
  pinned <$> physRegs s' = pinned <$> physRegs s.
Proof.
  unfold setSquashed. intros Hs H. destruct (_ || _); res_inv; [done|].
  apply unpin_pinned in E as [El Ep]. split; [|done].
  replace (set_physRegs a s) with (set_scoreboard (scoreboard s) (set_physRegs a s)) by done.
  by apply core_tables.
Qed.

(** ** The stage in the pipeline

    The instructions of each thread between renaming and commit, the oldest first, and the
    number of the last committed one.  The other stages call the operations in any order
    that respects this: instructions are renamed, and commit, in the order of their numbers,
    committed ones leave the history and are not squashed. *)

Record Sys := mkSys { st : State; rob : list (list Renamed); done_sn : list Z }.

Definition inum (r : Renamed) : Z := seqNum (r_inst r).

Inductive label :=
  | l_rename (t : nat) (i : DynInst)
  | l_writeback (t k : nat)
  | l_commit (t : nat)
  | l_remove (t : nat) (sn : Z)
  | l_squash (t : nat) (sn : Z)
  | l_release (t : nat) (robSquashing : bool)
  | l_setSquashed (r : Renamed).

Inductive step : Sys → label → Sys → Prop :=
| step_rename s t i l d r s' : (t < active)%nat → rob s !! t = Some l → done_sn s !! t = Some d →
    d < seqNum i → Forall (λ q, inum q < seqNum i) l → wf_inst i →
    renameInst flatten t i (st s) = Ok (Some r, s') →
    step s (l_rename t i) (mkSys s' (<[t := l ++ [r]]> (rob s)) (done_sn s))
| step_writeback s t k l r r' s' : rob s !! t = Some l → l !! k = Some r →
    writebackInst r (st s) = Ok (r', s') →
    step s (l_writeback t k) (mkSys s' (<[t := <[k := r']> l]> (rob s)) (done_sn s))
| step_commit s t r l s' : rob s !! t = Some (r :: l) → commitHead t r (st s) = Ok s' →
    step s (l_commit t) (mkSys s' (<[t := l]> (rob s)) (<[t := inum r]> (done_sn s)))
| step_remove s t sn d s' : done_sn s !! t = Some d → sn <= d → removeFromHistory sn t (st s) = Ok s' →
    step s (l_remove t sn) (mkSys s' (rob s) (done_sn s))
| step_squash s t sn l d s' : rob s !! t = Some l → done_sn s !! t = Some d → d <= sn →
    doSquash sn t (st s) = Ok s' →
    step s (l_squash t sn) (mkSys s' (<[t := filter (λ r, inum r <= sn) l]> (rob s)) (done_sn s))
| step_release s t b s' : (t < threads)%nat → release_squashed b t (st s) = Ok s' →
    step s (l_release t b) (mkSys s' (rob s) (done_sn s))
| step_setSquashed s r r' s' : setSquashed r (st s) = Ok (r', s') →
    step s (l_setSquashed r) (mkSys s' (rob s) (done_sn s)).

(** The entries of the instructions in flight, the oldest first. *)
Definition flight (l : list Renamed) : list RenameHistory := concat (entries <$> l).

Record thread_ok (l : list Renamed) (d : Z) (m cm : UnifiedRenameMap) (h : list RenameHistory) : Prop := {
  t_sorted : StronglySorted Z.lt (inum <$> l);
  t_young : Forall (λ r, d < inum r) l;
  t_history : ∃ old, h = reverse (flight l) ++ old ∧ Forall (λ e, instSeqNum e <= d) old;
  t_commit : cm = undo_all (reverse (flight l)) m
}.

Record inv (s : Sys) : Prop := {
  i_core : core (st s);
  i_rob : length (rob s) = threads;
  i_done : length (done_sn s) = threads;
  i_thread : ∀ t l d m cm h, rob s !! t = Some l → done_sn s !! t = Some d → renameMap (st s) !! t = Some m →
    commitRenameMap (st s) !! t = Some cm → historyBuffer (st s) !! t = Some h → thread_ok l d m cm h;
  i_pins : ∀ t l r, rob s !! t = Some l → r ∈ l → pins_ok (physRegs (st s)) r
}.

Lemma inv_parts s t : inv s → (t < threads)%nat → ∃ l d m cm h, rob s !! t = Some l ∧ done_sn s !! t = Some d ∧
  renameMap (st s) !! t = Some m ∧ commitRenameMap (st s) !! t = Some cm ∧
  historyBuffer (st s) !! t = Some h ∧ thread_ok l d m cm h ∧ shaped rc m ∧ undoable h m ∧
  ((t < active)%nat → full m).
Proof.
  intros Hs Ht. destruct (thread_parts (st s) t (i_core s Hs) Ht) as (m & h & fr & cm & Hm & Hh & _ & Hc).
  destruct (thread_some _ t (i_rob s Hs) Ht) as [l Hl]. destruct (thread_some _ t (i_done s Hs) Ht) as [d Hd].
  exists l, d, m, cm, h. do 5 (split; [done|]). split; [by eapply Hs|]. by apply (i_core s Hs).
Qed.

(** One thread changed. *)
Lemma inv_update s s' t l d m cm h : inv s → (t < threads)%nat → core (st s') →
  rob s' = <[t := l]> (rob s) → done_sn s' = <[t := d]> (done_sn s) →
  renameMap (st s') = <[t := m]> (renameMap (st s)) →
  commitRenameMap (st s') = <[t := cm]> (commitRenameMap (st s)) →
  historyBuffer (st s') = <[t := h]> (historyBuffer (st s)) → thread_ok l d m cm h →
  (∀ u k r, rob s' !! u = Some k → r ∈ k → pins_ok (physRegs (st s')) r) → inv s'.
Proof.
  intros Hs Ht Hc Hrob Hdone Hmap Hcm Hh Hok Hpins.
  destruct (inv_parts s t Hs Ht) as (l0 & d0 & m0 & cm0 & h0 & H1 & H2 & H3 & H4 & H5 & _).
  split; [done|by rewrite Hrob, length_insert; apply Hs|by rewrite Hdone, length_insert; apply Hs| |done].
  intros t' l' d' m' cm' h'. rewrite Hrob, Hdone, Hmap, Hcm, Hh. destruct (decide (t' = t)) as [->|Hne].
  - rewrite !list_lookup_insert_eq by (by eapply lookup_lt_Some). by intros [= <-] [= <-] [= <-] [= <-] [= <-].
  - rewrite !list_lookup_insert_ne by done. apply Hs.
Qed.

(** Instructions stay or leave, and the pins of the table do not change. *)
Lemma pins_kept s ids (rob' : list (list Renamed)) : inv s → pinned <$> ids = pinned <$> physRegs (st s) →
  (∀ t (l : list Renamed) r, rob' !! t = Some l → r ∈ l →
     ∃ l0 r0, rob s !! t = Some l0 ∧ r0 ∈ l0 ∧ same_inst r0 r) →
  ∀ t (l : list Renamed) r, rob' !! t = Some l → r ∈ l → pins_ok ids r.
Proof.
  intros Hs Hp Hsub t l r Hl Hr. destruct (Hsub t l r Hl Hr) as (l0 & r0 & Hl0 & Hr0 & _ & _ & Hd & H1 & H2).
  destruct (i_pins s Hs t l0 r0 Hl0 Hr0) as [Hsq Hun]. split; [by rewrite H2|]. rewrite H1, Hd.
  unfold unpinned. by rewrite Hp.
Qed.

Lemma same_inst_refl r : same_inst r r.
Proof. done. Qed.
#[local] Hint Resolve same_inst_refl : core.

Lemma pins_subset s ids t (l l' : list Renamed) : inv s → pinned <$> ids = pinned <$> physRegs (st s) →
  rob s !! t = Some l → l' ⊆ l →
  ∀ u (k : list Renamed) r, <[t := l']> (rob s) !! u = Some k → r ∈ k → pins_ok ids r.
Proof.
  intros Hs Hp Hl Hsub. apply (pins_kept s); [done..|]. intros u k r Hk Hr.
  apply list_lookup_insert_Some in Hk as [(-> & <- & _)|[_ Hk]]; eexists _, r; (split; [done|]); split; auto.
Qed.

(** *** Splitting a history by number *)

Lemma sorted_filter sn (l : list Renamed) : StronglySorted Z.lt (inum <$> l) →
  ∃ l2, l = filter (λ r, inum r <= sn) l ++ l2 ∧ Forall (λ r, sn < inum r) l2.
Proof.
  induction l as [|r l IH]; intros Hs; [by exists []|]. rewrite fmap_cons in Hs.
  apply StronglySorted_inv in Hs as [Hs Hall]. rewrite filter_cons. destruct (decide _).
  - destruct (IH Hs) as (l2 & Hl & H2). exists l2. simpl. by rewrite <-Hl.
  - assert (Forall (λ q, sn < inum q) l) as Hl.
    { apply Forall_forall. intros q Hq. rewrite Forall_fmap, Forall_forall in Hall. specialize (Hall q Hq). simpl in Hall. lia. }
    exists (r :: l). split; [|constructor; [lia|done]]. assert (filter (λ r, inum r <= sn) l = []) as ->; [|done].
    clear - Hl. induction l as [|q l IH]; [done|]. apply Forall_cons in Hl as [Hq Hl].
    rewrite filter_cons_False by lia. by apply IH.
Qed.

Lemma flight_num P (l : list Renamed) : Forall (λ r, P (inum r)) l → Forall (λ e, P (instSeqNum e)) (flight l).
Proof.
  intros H. apply Forall_concat, Forall_fmap. eapply Forall_impl; [exact H|]. intros r Hr. simpl.
  by apply Forall_fmap, Forall_true.
Qed.

Lemma flight_app l1 l2 : flight (l1 ++ l2) = flight l1 ++ flight l2.
Proof. unfold flight. by rewrite fmap_app, concat_app. Qed.

(** *** Each step *)

Lemma entries_known sn ds h2 m : undoable (reverse (hist_of sn <$> ds) ++ h2) m → shaped rc m →
  (∀ p, p ∈ mapped m ∨ p ∈ replaceds (reverse (hist_of sn <$> ds) ++ h2) → p ∈ all_ids counts) →
  Forall known ds.
Proof.
  revert h2 m. induction ds as [|d ds IH] using rev_ind; intros h2 m Hu Hm Hp; [constructor|].
  assert (reverse (hist_of sn <$> ds ++ [d]) = hist_of sn d :: reverse (hist_of sn <$> ds)) as Hrev.
  { rewrite fmap_app. apply reverse_snoc. }
  rewrite Hrev in Hu, Hp. cbn [app] in Hu, Hp. destruct Hu as [He Hu].
  destruct (entry_undo _ m He Hm) as (Hm' & _ & Ho). apply Forall_app. split.
  - apply (IH h2 _ Hu Hm'). intros p [Hq|Hq].
    + specialize (Ho p). rewrite occ_elem in Hq. apply Hp. rewrite !occ_elem, replaceds_cons, occ_app. lia.
    + apply Hp. right. rewrite replaceds_cons, elem_of_app. by right.
  - apply Forall_singleton. unfold known. destruct He as [(Hr & Hn & _)|(Ha & Hg & _)].
    + left. simpl in Hn, Hr. unfold isFixedMapping. rewrite Hn, fixed_class by done.
      unfold isRenameable in Hr. by rewrite Hr.
    + right. apply Hp. left. by eapply get_mapped.
Qed.

Lemma thread_known s t l d m cm h r : inv s → rob s !! t = Some l → r ∈ l →
  renameMap (st s) !! t = Some m → historyBuffer (st s) !! t = Some h →
  thread_ok l d m cm h → Forall known (r_dests r).
Proof.
  intros Hs Hl Hr Hm Hh [_ _ (old & Ho & _) _].
  destruct (c_thread _ (i_core s Hs) t m h Hm Hh) as (Hsh & Hu & _).
  apply list_elem_of_split in Hr as (l1 & l2 & ->).
  change (r :: l2) with ([r] ++ l2) in Ho. rewrite !flight_app in Ho. unfold flight at 2 in Ho. simpl in Ho.
  rewrite app_nil_r, !reverse_app, <-!app_assoc in Ho.
  assert (∀ p, p ∈ mapped m ∨ p ∈ replaceds h → p ∈ all_ids counts) as Hk.
  { intros p Hp. rewrite !occ_elem in *. pose proof (c_occ _ (i_core s Hs) p).
    pose proof (occ_fmap_le mapped p _ t m Hm). pose proof (occ_fmap_le replaceds p _ t h Hh). lia. }
  rewrite Ho in Hu, Hk. apply undoable_app in Hu as [Hu1 Hu2]. destruct (undo_all_ok _ m Hu1 Hsh) as (Hsh' & _ & Hocc).
  eapply (entries_known (inum r)); [exact Hu2|done|]. intros p Hp. apply Hk. destruct Hp as [Hp|Hp].
  - specialize (Hocc p). rewrite replaceds_app, occ_elem, !occ_elem, occ_app in *. lia.
  - right. rewrite replaceds_app, elem_of_app. by right.
Qed.

(** Renaming pins, or unpins, only a register it takes from a free list. *)
Lemma rename_pinned a m f ids n p m' f' ids' : alloc_ok m f (length ids) → nameable rc a →
  rename a m f ids = Ok (n, p, m', f', ids') → ∀ q, q ∈ all_ids counts → q ∉ concat f →
  (pinned <$> ids') !! Z.to_nat (flatIndex q) = (pinned <$> ids) !! Z.to_nat (flatIndex q).
Proof.
  intros Hok Ha H q Hq Hqf. pose proof Hok as [Hm Hf Ht Hlen Ho]. destruct Ha as [Ha|Ha].
  { unfold rename in H. rewrite Ha in H. simpl in H. rewrite lookup_fixed in H by done. simpl in H.
    by injection H as _ _ _ _ <-. }
  pose proof Ha as (Hr & _). destruct (get_full rc a m Ha Hm Hf) as (q0 & Hg & Hq0).
  destruct (typed_lookup f (classValue a) Ht Hr) as (l & Hl).
  rewrite (rename_eq a m f ids q0 l) in H by done. res_inv. destruct (0 <? a0).
  - res_inv. unfold decrNumPinnedWrites in E1. res_inv. by erewrite store_pinned.
  - destruct l as [|r l]; [done|]. simpl in H. res_inv. unfold p_setNumPinnedWrites in E0.
    unfold setNumPinnedWritesToComplete in E1. res_inv. rewrite (store_pinned _ _ _ _ _ _ E2 E1).
    assert (n ∈ concat f) as Hn.
    { apply elem_of_concat. exists (n :: l). split; [by left|by eapply list_elem_of_lookup_2]. }
    assert (n ∈ all_ids counts) as Hna by (eapply alloc_known; [done|by left]).
    destruct (all_ids_range counts cfg_counts n Hna) as [Hrn _]. destruct (all_ids_range counts cfg_counts q Hq) as [Hrq _].
    rewrite store_at_spec in E0 by lia. injection E0 as <-. rewrite list_fmap_insert.
    apply list_lookup_insert_ne. intros Heq. apply Hqf. replace q with n; [done|].
    apply (all_ids_inj counts cfg_counts); [done..|lia].
Qed.

(** A register that an entry of a history took is in the map or replaced since. *)
Lemma entries_held h : ∀ m, undoable h m → shaped rc m → ∀ e, e ∈ h → isFixedMapping (newPhysReg e) = false →
  newPhysReg e ∈ mapped m ∨ newPhysReg e ∈ replaceds h.
Proof.
  induction h as [|e0 h IH]; intros m Hu Hm e He Hfix; [by apply elem_of_nil in He|]. destruct Hu as [He0 Hu].
  apply elem_of_cons in He as [->|He].
  - left. destruct He0 as [(Hr & Hn & _)|(_ & Hg & _)]; [|by eapply get_mapped].
    unfold isFixedMapping in Hfix. rewrite Hn, fixed_class in Hfix by done. unfold isRenameable in Hr.
    by rewrite Hr in Hfix.
  - destruct (entry_undo e0 m He0 Hm) as (Hm' & _ & Ho). specialize (Ho (newPhysReg e)).
    rewrite replaceds_cons, elem_of_app, !occ_elem.
    destruct (IH _ Hu Hm' e He Hfix) as [Hx|Hx]; rewrite occ_elem in Hx; lia.
Qed.

Lemma held_not_free s t m h p : core s → renameMap s !! t = Some m → historyBuffer s !! t = Some h →
  p ∈ mapped m ∨ p ∈ replaceds h → p ∈ all_ids counts ∧ p ∉ concat (freeList s).
Proof.
  intros Hs Hm Hh Hp. pose proof (c_occ s Hs p). pose proof (all_ids_occ p).
  pose proof (occ_fmap_le mapped p _ t m Hm). pose proof (occ_fmap_le replaceds p _ t h Hh).
  rewrite !occ_elem in *. lia.
Qed.

Definition pins_below (s s' : State) : Prop :=
  (∀ q, q ∈ concat (freeList s') → q ∈ concat (freeList s)) ∧
  ∀ q, q ∈ all_ids counts → q ∉ concat (freeList s) →
    (pinned <$> physRegs s') !! Z.to_nat (flatIndex q) = (pinned <$> physRegs s) !! Z.to_nat (flatIndex q).

Definition placed (s : State) (d : Dest) : Prop := isFixedMapping (renamedDest d) = false →
  renamedDest d ∈ all_ids counts ∧ renamedDest d ∉ concat (freeList s).

Lemma placed_unpinned s s' d : pins_below s s' → placed s d → unpinned (physRegs s) d → unpinned (physRegs s') d.
Proof. intros [_ Hb] Hd Hu Hfix. destruct (Hd Hfix). rewrite Hb by done. by apply Hu. Qed.

Lemma renameDestReg_pins t sn d s r pin s' : core s → (t < active)%nat → nameable rc (flatten d) →
  renameDestReg flatten t sn d s = Ok (r, pin, s') →
  pins_below s s' ∧ placed s' r ∧ (pin = false → unpinned (physRegs s') r).
Proof.
  intros Hs Ht Hd H. destruct (renameDestReg_core t sn d s r pin s' Hs Ht Hd H) as [Hs' (h & m & m' & _ & Hh & _ & Hm & _)].
  unfold renameDestReg in H. res_inv. rename a into m0. destruct a0 as [[[[n p] m1] f'] ids']. res_inv.
  rename a into sb', a0 into h0.
  pose proof (core_alloc s t m0 Hs Ht E) as Hok. set (a := setNumPinnedWrites _ _) in *.
  assert (nameable rc a) as Ha by exact Hd.
  destruct (rename_entry sn a m0 _ _ n p m1 f' ids' Hok Ha E0) as (_ & _ & _ & _ & _ & _ & _ & Ho).
  pose proof (rename_pinned _ _ _ _ _ _ _ _ _ Hok Ha E0) as Hp. split; [|split].
  - split; [|exact Hp]. simpl. intros q. specialize (Ho q). rewrite !occ_elem. lia.
  - intros Hfix. simpl in Hm, Hh. pose proof (lookup_lt_Some _ _ _ E). pose proof (lookup_lt_Some _ _ _ E2).
    eapply (held_not_free _ t m1 (mkHistory sn a n p :: h0) n Hs'); simpl; [by apply list_lookup_insert_eq..|].
    destruct (c_thread _ Hs' t m1 (mkHistory sn a n p :: h0)) as (Hsh & Hu & _);
      simpl; [by apply list_lookup_insert_eq..|].
    eapply (entries_held _ _ Hu Hsh (mkHistory sn a n p)); [by left|done].
  - intros -> Hfix. simpl in *. unfold isPinned in E3. rewrite Hfix in E3. res_inv.
    unfold load_at in E4. destruct (_ <? 0); [done|]. rewrite list_lookup_fmap.
    destruct (ids' !! _); [|done]. injection E4 as ->. simpl. congruence.
Qed.

Lemma renameDestRegs_pins t sn ds : ∀ s rs pin s', core s → (t < active)%nat →
  Forall (λ d, nameable rc (flatten d)) ds → renameDestRegs flatten t sn ds s = Ok (rs, pin, s') →
  pins_below s s' ∧ (pin = false → Forall (unpinned (physRegs s')) rs).
Proof.
  induction ds as [|d ds IH]; intros s rs pin s' Hs Ht Hd H; simpl in H; [by injection H as <- <- <-|].
  apply Forall_cons in Hd as [Hd Hds]. res_inv. destruct a as [[r pin1] s1]. res_inv. destruct a as [[l pin2] s2]. res_inv.
  destruct (renameDestReg_core t sn d s r pin1 s1 Hs Ht Hd E) as [Hs1 _].
  destruct (renameDestReg_pins t sn d s r pin1 s1 Hs Ht Hd E) as ((Hf1 & Hb1) & Hpl & Hu1).
  destruct (IH _ _ _ _ Hs1 Ht Hds E0) as (Hb & Hu). pose proof Hb as (Hf2 & Hb2). split.
  - split; [by auto|]. intros q Hq Hqf. rewrite Hb2 by auto. by apply Hb1.
  - intros [-> ->]%orb_false_iff. constructor; [|by apply Hu]. eapply placed_unpinned; [done..|]. by apply Hu1.
Qed.

Lemma flight_placed s t l r : inv s → (t < threads)%nat → rob s !! t = Some l → r ∈ l →
  Forall (placed (st s)) (r_dests r).
Proof.
  intros Hs Ht Hl Hr. destruct (inv_parts s t Hs Ht) as (l0 & d & m & cm & h & Hl0 & _ & Hm & _ & Hh & [_ _ (old & Ho & _) _] & Hsh & Hu & _).
  simplify_eq. apply Forall_forall. intros d' Hd' Hfix. eapply held_not_free; [apply Hs|done..|].
  eapply (entries_held _ _ Hu Hsh (hist_of (inum r) d')); [|done].
  apply elem_of_app. left. apply elem_of_reverse. unfold flight.
  apply elem_of_concat. exists (entries r). split; [|by apply list_elem_of_fmap_2].
  unfold entries. apply (list_elem_of_fmap_2 (hist_of (inum r))). done.
Qed.

Lemma rename_pins s t i l r s' : inv s → (t < active)%nat → rob s !! t = Some l → wf_inst i →
  renameInst flatten t i (st s) = Ok (Some r, s') →
  ∀ u k q, <[t := l ++ [r]]> (rob s) !! u = Some k → q ∈ k → pins_ok (physRegs s') q.
Proof.
  intros Hs Ht Hl Hi H. unfold renameInst in H. destruct (canRename _ _); [|done]. simpl in H. res_inv.
  destruct a0 as [[ds pin] s1]. res_inv.
  destruct (renameDestRegs_pins t (seqNum i) (destRegs i) (st s) ds pin s' (i_core s Hs) Ht (wf_dests i Hi) E0) as [Hb Hun].
  assert (∀ u k q, rob s !! u = Some k → q ∈ k → pins_ok (physRegs s') q) as Hold.
  { intros u k q Hk Hq. destruct (i_pins s Hs u k q Hk Hq) as [H1 H2]. split; [done|]. intros Hp.
    specialize (H2 Hp). assert (u < threads)%nat as Hu.
    { pose proof (lookup_lt_Some _ _ _ Hk) as Hlt. by rewrite (i_rob s Hs) in Hlt. }
    pose proof (flight_placed s u k q Hs Hu Hk Hq) as Hpl. rewrite Forall_forall in *.
    intros d Hd. eapply placed_unpinned; [done|by apply Hpl|by apply H2]. }
  intros u k q Hk Hq. apply list_lookup_insert_Some in Hk as [(-> & <- & _)|[_ Hk]]; [|by eapply Hold].
  apply elem_of_app in Hq as [Hq|Hq%list_elem_of_singleton]; [by eapply Hold|]. subst q. by split.
Qed.

Lemma rename_inv s t i l d r s' : inv s → (t < active)%nat → rob s !! t = Some l → done_sn s !! t = Some d →
  d < seqNum i → Forall (λ q, inum q < seqNum i) l → wf_inst i → renameInst flatten t i (st s) = Ok (Some r, s') →
  inv (mkSys s' (<[t := l ++ [r]]> (rob s)) (done_sn s)).
Proof.
  intros Hs Ht Hl Hd Hdi Hli Hi H.
  destruct (renameInst_core t i (st s) r s' (i_core s Hs) Ht Hi H) as (Hc & (h & m & m' & Hh & Hh' & Hm & Hm' & Hu & Hcm & _) & Hri).
  destruct (inv_parts s t Hs) as (l0 & d0 & m0 & cm & h0 & Hl0 & Hd0 & Hm0 & Hcm0 & Hh0 & Hok & _); [by apply active_thread|].
  simplify_eq.
  eapply (inv_update s _ t _ d m' cm (reverse (entries r) ++ h)); simpl;
    rewrite ?(list_insert_id (done_sn s)), ?(list_insert_id (commitRenameMap (st s))) by done; try done;
    [by apply active_thread| |by eapply rename_pins].
  destruct Hok as [H1 H2 (old & H3 & H3') H4].
  assert (reverse (flight (l ++ [r])) = reverse (entries r) ++ reverse (flight l)) as Hfl.
  { rewrite flight_app, reverse_app. unfold flight at 1. simpl. by rewrite app_nil_r. }
  split.
  - rewrite fmap_app. apply StronglySorted_app_2; [|done|by repeat constructor].
    intros a b (q & -> & Hq)%list_elem_of_fmap Hb. apply list_elem_of_singleton in Hb as ->.
    rewrite Forall_forall in Hli. unfold inum at 2. apply (Hli q Hq).
  - apply Forall_app. split; [done|]. by apply Forall_singleton.
  - exists old. by rewrite Hfl, H3, app_assoc.
  - by rewrite Hfl, undo_all_app.
Qed.

Lemma entries_insert l k r r' : l !! k = Some r → entries r' = entries r → inum r' = inum r →
  flight (<[k := r']> l) = flight l ∧ inum <$> <[k := r']> l = inum <$> l.
Proof.
  intros Hk He Hi. unfold flight. rewrite !list_fmap_insert, He, Hi.
  by rewrite !list_insert_id by (by rewrite list_lookup_fmap, Hk).
Qed.

Lemma writeback_inv s t k l r : inv s → (t < threads)%nat → rob s !! t = Some l → l !! k = Some r →
  ∃ r' s', writebackInst r (st s) = Ok (r', s') ∧ inv (mkSys s' (<[t := <[k := r']> l]> (rob s)) (done_sn s)) ∧
    entries r' = entries r ∧ inum r' = inum r ∧ r_dests r' = r_dests r ∧ r_srcs r' = r_srcs r ∧ r_inst r' = r_inst r.
Proof.
  intros Hs Ht Hl Hk. destruct (inv_parts s t Hs Ht) as (l0 & d & m & cm & h & Hl0 & Hd & Hm & Hcm & Hh & Hok & _).
  simplify_eq. assert (Forall known (r_dests r)) as Hkn.
  { eapply thread_known; eauto. by eapply list_elem_of_lookup_2. }
  assert (r ∈ l) as Hrl by (by eapply list_elem_of_lookup_2).
  destruct (writebackInst_core r (st s) (i_core s Hs) Hkn (i_pins s Hs t l r Hl Hrl))
    as (r' & s' & Hw & Hc & Hsame & H4 & H5 & H6 & _ & Hpin & _). pose proof Hsame as (H1 & H2 & H3 & _).
  assert (entries r' = entries r ∧ inum r' = inum r) as [He Hi] by (unfold entries, inum; by rewrite H1, H3).
  exists r', s'. split; [done|]. split; [|done]. destruct (entries_insert l k r r' Hk He Hi) as [Hf Hn].
  eapply (inv_update s _ t _ d m cm h); simpl; rewrite ?H4, ?H5, ?H6, ?list_insert_id by done; try done.
  - destruct Hok as [K1 K2 K3 K4]. split; rewrite ?Hf, ?Hn; try done.
    apply Forall_insert; [done|]. rewrite Hi. rewrite Forall_lookup in K2. by eapply K2.
  - apply (pins_kept s); [done..|]. intros u k' q Hk' Hq.
    apply list_lookup_insert_Some in Hk' as [(-> & <- & _)|[_ Hk']]; [|by eexists _, q].
    apply list_elem_of_lookup in Hq as [j Hj].
    apply list_lookup_insert_Some in Hj as [(_ & <- & _)|[_ Hj]]; [by eexists _, r|].
    eexists _, q. split; [done|]. split; [by eapply list_elem_of_lookup_2|done].
Qed.

Lemma commit_inv s t r l : inv s → (t < threads)%nat → rob s !! t = Some (r :: l) →
  ∃ s', commitHead t r (st s) = Ok s' ∧ inv (mkSys s' (<[t := l]> (rob s)) (<[t := inum r]> (done_sn s))).
Proof.
  intros Hs Ht Hl. destruct (inv_parts s t Hs Ht) as (l0 & d & m & cm & h & Hl0 & Hd & Hm & Hcm & Hh & Hok & Hsh & Hu & _).
  simplify_eq. destruct Hok as [K1 K2 (old & -> & K3) ->].
  change (flight (r :: l)) with (entries r ++ flight l) in *.
  rewrite reverse_app in Hu. rewrite <-app_assoc in Hu. apply undoable_app in Hu as [Hu1 Hu2].
  apply undoable_app in Hu2 as [Hu2 _]. destruct (undo_all_ok _ m Hu1 Hsh) as (Hsh1 & _).
  rewrite reverse_app, undo_all_app in Hcm. unfold commitHead. rewrite Hcm. simpl.
  change (entries r) with (hist_of (inum r) <$> r_dests r) in *. rewrite commit_dests_spec by done. simpl.
  eexists. split; [done|]. rewrite reverse_app, <-app_assoc in Hh.
  eapply (inv_update s _ t _ _ m _ (reverse (flight l) ++ reverse (hist_of (inum r) <$> r_dests r) ++ old)); simpl;
    try done.
  - destruct (i_core s Hs). by split; simpl; rewrite ?length_insert.
  - by rewrite list_insert_id.
  - by rewrite list_insert_id.
  - rewrite fmap_cons in K1. apply StronglySorted_inv in K1 as [K1 K1']. rewrite Forall_fmap in K1'.
    apply Forall_cons in K2 as [K2 K2']. split; [done|done| |done].
    eexists. split; [done|]. apply Forall_app. split.
    + apply Forall_reverse, Forall_fmap, Forall_true. intros x. simpl. lia.
    + eapply Forall_impl; [exact K3|]. simpl. lia.
  - apply (pins_subset s _ _ (r :: l)); try done. intros q Hq. by right.
Qed.

Lemma removeFromHistory_ids sn t s s' : removeFromHistory sn t s = Ok s' → physRegs s' = physRegs s.
Proof. unfold removeFromHistory. intros H. res_inv. by destruct a0; res_inv. Qed.

Lemma rename_remove_inv s t sn d : inv s → (t < threads)%nat → done_sn s !! t = Some d → sn <= d →
  ∃ s', removeFromHistory sn t (st s) = Ok s' ∧ inv (mkSys s' (rob s) (done_sn s)).
Proof.
  intros Hs Ht Hd0 Hsn. destruct (inv_parts s t Hs Ht) as (l & d' & m & cm & h & Hl & Hd & Hm & Hcm & Hh & Hok & _).
  simplify_eq. destruct (removeFromHistory_core sn t (st s) (i_core s Hs) Ht)
    as (h' & h1 & h2 & s' & Hh' & Hr & H1 & H2 & Hrem & Hc & Hhist & Hmap & Hcom & _). simplify_eq.
  exists s'. split; [done|]. destruct Hok as [K1 K2 (old & -> & K3) K4].
  rewrite reverse_app, reverse_involutive in Hr.
  destruct (split_past (λ e, instSeqNum e <= sn) _ _ _ _ Hr) as (o2 & Ho & ->); [|done|].
  { apply (flight_num (λ n, ¬ n <= sn)). eapply Forall_impl; [exact K2|]. simpl. lia. }
  eapply (inv_update s _ t l d m cm (reverse (o2 ++ flight l))); simpl; rewrite ?Hmap, ?Hcom; try done;
    [by rewrite list_insert_id..| |].
  { split; [done|done| |done]. exists (reverse o2). split; [apply reverse_app|].
    assert (old = reverse o2 ++ reverse h1) as Hold. { by rewrite <-reverse_app, <-Ho, reverse_involutive. }
    rewrite Hold, Forall_app in K3. apply K3. }
  rewrite (removeFromHistory_ids _ _ _ _ Hrem). apply Hs.
Qed.

Lemma doSquash_ids sn t s s' : doSquash sn t s = Ok s' → physRegs s' = physRegs s.
Proof. unfold doSquash. intros H. res_inv. destruct a2 as [[??]?]. by res_inv. Qed.

Lemma squash_inv s t sn l d : inv s → (t < threads)%nat → rob s !! t = Some l → done_sn s !! t = Some d → d <= sn →
  ∃ s', doSquash sn t (st s) = Ok s' ∧
    inv (mkSys s' (<[t := filter (λ r, inum r <= sn) l]> (rob s)) (done_sn s)).
Proof.
  intros Hs Ht Hl0 Hd0 Hsn. destruct (inv_parts s t Hs Ht) as (l' & d' & m & cm & h & Hl & Hd & Hm & Hcm & Hh & Hok & _).
  simplify_eq. destruct (doSquash_core sn t (st s) (i_core s Hs) Ht)
    as (m' & h1 & h2 & s' & Hm' & Hh' & H1 & H2 & Hsq & Hc & Hhist & Hmap & Hcom & _). simplify_eq.
  exists s'. split; [done|]. destruct Hok as [K1 K2 (old & K & K3) ->].
  destruct (sorted_filter sn l K1) as (l2 & Hl2 & Hy). set (l1 := filter _ l) in *.
  assert (Forall (λ r, inum r <= sn) l1) as Hl1. { apply Forall_forall. intros q Hq. by apply list_elem_of_filter in Hq as [? _]. }
  assert (flight l = flight l1 ++ flight l2) as Hfl by (by rewrite Hl2 at 1; apply flight_app).
  rewrite Hfl, reverse_app in K. rewrite <-app_assoc in K. symmetry in K.
  destruct (split_exact (λ e, sn < instSeqNum e) _ _ _ _ K) as [-> ->].
  { apply Forall_reverse. by apply (flight_num (λ n, sn < n)). }
  { apply Forall_app. split.
    - apply Forall_reverse. apply (flight_num (λ n, ¬ sn < n)). eapply Forall_impl; [exact Hl1|]. simpl. lia.
    - eapply Forall_impl; [exact K3|]. simpl. lia. }
  { done. }
  { intros e He. specialize (H2 e He). lia. }
  eapply (inv_update s _ t l1 d _ (undo_all (reverse (flight l)) m)); simpl; rewrite ?Hmap, ?Hcom; try done;
    [by rewrite list_insert_id..| |].
  { rewrite Hl2, fmap_app in K1. apply StronglySorted_app in K1 as (_ & K1 & _).
    rewrite Hl2, Forall_app in K2. destruct K2 as [K2 _]. split; [done|done|by eexists|].
    by rewrite Hfl, reverse_app, undo_all_app. }
  apply (pins_subset s _ _ l); [done|by rewrite (doSquash_ids _ _ _ _ Hsq)|done|].
  intros q Hq. rewrite Hl2. apply elem_of_app. by left.
Qed.

Lemma release_squashed_ids b t s s' : release_squashed b t s = Ok s' → physRegs s' = physRegs s.
Proof. unfold release_squashed. intros H. res_inv. destruct (_ && _); by res_inv. Qed.

Lemma rename_release_inv s t b : inv s → (t < threads)%nat →
  ∃ s', release_squashed b t (st s) = Ok s' ∧ inv (mkSys s' (rob s) (done_sn s)).
Proof.
  intros Hs Ht. destruct (release_core b t (st s) (i_core s Hs) Ht) as (s' & Hr & Hc & Hh & Hm & Hcm & _).
  exists s'. split; [done|]. pose proof (release_squashed_ids _ _ _ _ Hr) as Hi.
  split; simpl; rewrite ?Hh, ?Hm, ?Hcm, ?Hi; try done; apply Hs.
Qed.

Lemma setSquashed_inv s r r' s' : inv s → setSquashed r (st s) = Ok (r', s') → inv (mkSys s' (rob s) (done_sn s)).
Proof.
  intros Hs H. destruct (setSquashed_core r (st s) r' s' (i_core s Hs) H) as (Hc & Hm & Hcm & Hh & _ & Hp).
  split; simpl; rewrite ?Hh, ?Hm, ?Hcm; try done; try apply Hs.
  apply (pins_kept s); [done..|]. intros t l q Hl Hq. by eexists _, q.
Qed.

Lemma lookup_thread {A} (L : list A) t x : length L = threads → L !! t = Some x → (t < threads)%nat.
Proof. intros <-. apply lookup_lt_Some. Qed.

Lemma rename_step_inv s a s' : inv s → step s a s' → inv s'.
Proof.
  intros Hs H. destruct H as [s t i l d r s' Ht Hl Hd Hdi Hli Hi Hr | s t k l r r' s' Hl Hk Hw | s t r l s' Hl Hc
    | s t sn d s' Hd Hsn Hr | s t sn l d s' Hl Hd Hsn Hr | s t b s' Ht Hr | s r r' s' Hr].
  - by eapply rename_inv.
  - destruct (writeback_inv s t k l r Hs (lookup_thread _ _ _ (i_rob s Hs) Hl) Hl Hk) as (? & ? & ? & ? & _). by same_ok.
  - destruct (commit_inv s t r l Hs (lookup_thread _ _ _ (i_rob s Hs) Hl) Hl) as (? & ? & ?). by same_ok.
  - destruct (rename_remove_inv s t sn d Hs (lookup_thread _ _ _ (i_done s Hs) Hd) Hd Hsn) as (? & ? & ?). by same_ok.
  - destruct (squash_inv s t sn l d Hs (lookup_thread _ _ _ (i_done s Hs) Hd) Hl Hd Hsn) as (? & ? & ?). by same_ok.
  - destruct (rename_release_inv s t b Hs Ht) as (? & ? & ?). by same_ok.
  - by eapply setSquashed_inv.
Qed.

(** ** The state that the constructor of the CPU makes *)

Lemma init_map a : get a (UnifiedRenameMap_init rc) = None ∧ mapped (UnifiedRenameMap_init rc) = [] ∧
  shaped rc (UnifiedRenameMap_init rc).
Proof.
  unfold UnifiedRenameMap_init, simple_init. split; [|split].
  - unfold get. rewrite list_lookup_fmap. destruct (rc !! _) as [n|]; [|done]. simpl.
    destruct (replicate n None !! _) as [o|] eqn:Ho; [|done]. by apply lookup_replicate in Ho as [-> _].
  - apply elem_of_nil_inv. intros p (o & (s & Ho & Hs)%elem_of_concat & Hp)%list_elem_of_omap.
    apply list_elem_of_fmap in Hs as (n & -> & _). by apply elem_of_replicate in Ho as [-> _].
  - split.
    + rewrite <-list_fmap_compose. clear. induction rc as [|n l IH]; [done|].
      rewrite fmap_cons, IH. simpl. by rewrite length_replicate.
    + intros c s i p. rewrite list_lookup_fmap. destruct (rc !! c); [|done]. intros [= <-].
      by intros [? _]%lookup_replicate.
Qed.

Lemma arch_regs_NoDup : NoDup (arch_regs rc).
Proof.
  unfold arch_regs. assert (NoDup renamed_classes) as Hnd by (apply (bool_decide_unpack _); vm_compute; done).
  revert Hnd. generalize renamed_classes. clear. induction rc as [|n l IH]; intros [|c cs] Hnd; simpl; try constructor.
  apply NoDup_cons in Hnd as [Hc Hnd]. apply NoDup_app. split; [|split; [|by apply IH]].
  - apply NoDup_fmap_2; [|apply NoDup_seq]. intros i j [=]. lia.
  - intros a (i & -> & _)%list_elem_of_fmap (k & c' & m & Hk & _ & Hcl & _)%elem_of_arch_regs. simpl in Hcl.
    subst c'. apply Hc. by eapply list_elem_of_lookup_2.
Qed.

Lemma arch_regs_valid a : a ∈ arch_regs rc → valid rc a.
Proof.
  intros (k & c & n & Hc & Hn & Ha & Hi & _)%elem_of_arch_regs.
  destruct (renamed_classes_num k c Hc) as (_ & Hk & Hr). split; [unfold isRenameable; by rewrite Ha|].
  exists n. by rewrite Ha, Hk.
Qed.

Lemma valid_arch_regs a : valid rc a → mkRegId (classValue a) (index a) 0 ∈ arch_regs rc.
Proof.
  intros (Hr & n & Hn & Hi). apply elem_of_arch_regs. exists (class_nat (classValue a)), (classValue a), n.
  simpl. split; [|done]. unfold isRenameable in Hr. destruct (classValue a); done.
Qed.

(** Thread [k] still lacks the registers [pend]; those after it lack all. *)
Record initial (k : nat) (pend : list RegId) (s : State) : Prop := {
  n_maps : length (renameMap s) = threads;
  n_commit : commitRenameMap s = renameMap s;
  n_typed : typed (freeList s);
  n_rest : physRegs s = replicate (totalNumPhysRegs counts) PhysRegId_new ∧
    scoreboard s = Scoreboard_new (totalNumPhysRegs counts) ∧
    historyBuffer s = replicate threads [] ∧ freeingInProgress s = replicate threads [];
  n_occ : ∀ x, (occ x (concat (freeList s)) + occ x (concat (mapped <$> renameMap s)) = occ x (all_ids counts))%nat;
  n_shaped : ∀ t m, renameMap s !! t = Some m → shaped rc m;
  n_full : ∀ t m, renameMap s !! t = Some m → (t < k)%nat → full m;
  n_pend : ∀ t m a, renameMap s !! t = Some m → t = k → valid rc a → get a m = None ↔
    mkRegId (classValue a) (index a) 0 ∈ pend;
  n_later : ∀ t m, renameMap s !! t = Some m → (k < t)%nat → m = UnifiedRenameMap_init rc
}.

Lemma init_reg_initial k a pend s s' : initial k (a :: pend) s → a ∈ arch_regs rc → a ∉ pend →
  init_reg k a s = Ok s' → initial k pend s'.
Proof.
  intros [I1 I2 I3 I4 I5 I6 I7 I8 I9] Ha Hnp H. pose proof (arch_regs_valid a Ha) as Hv.
  assert (numPinnedWrites a = 0) as Hpin by (by apply elem_of_arch_regs in Ha as (? & ? & ? & _ & _ & _ & _ & ?)).
  assert (mkRegId (classValue a) (index a) 0 = a) as Heta by (destruct a; simpl in *; congruence).
  pose proof Hv as (Hr & _). unfold init_reg in H. destruct (typed_lookup _ _ I3 Hr) as ([|p l] & Hl).
  { unfold getReg in H. destruct (class_nat_num _ Hr) as [Hn _]. rewrite Hn, load_class, Hl in H. done. }
  destruct (getReg_spec _ _ _ _ I3 Hr Hl) as (Hg & Ht & Hp & Ho). rewrite Hg in H. simpl in H.
  rewrite I2 in H. destruct (renameMap s !! k) as [m|] eqn:Hm; [|done]. simpl in H.
  rewrite (setEntry_put rc a p m Hv (I6 k m Hm) Hp) in H. simpl in H. injection H as <-.
  assert (get a m = None) as Hnone by (apply (I8 k m a Hm eq_refl Hv); rewrite Heta; by left).
  pose proof (lookup_lt_Some _ _ _ Hm). split; simpl; rewrite ?length_insert, ?I2; try done.
  - intros x. specialize (I5 x). specialize (Ho x). pose proof (occ_fmap_insert mapped x _ k m (put a p m) Hm).
    pose proof (occ_put_none rc x a p m Hv (I6 k m Hm) Hnone). lia.
  - intros t m1 Hm1. apply list_lookup_insert_Some in Hm1 as [(-> & <- & _)|[_ Hm1]]; [|by eapply I6].
    apply shaped_put; [done|by eapply I6|done].
  - intros t m1 Hm1 Hlt. apply list_lookup_insert_Some in Hm1 as [(-> & _)|[_ Hm1]]; [lia|by eapply I7].
  - intros t m1 b Hm1 -> Hb. rewrite list_lookup_insert_eq in Hm1 by done. injection Hm1 as <-.
    destruct (same_reg a b) eqn:Hs.
    + unfold same_reg in Hs. apply andb_true_iff in Hs as [Hc Hi]. apply bool_decide_eq_true in Hc.
      apply Z.eqb_eq in Hi. rewrite <-Hc, <-Hi, Heta. split; [|done].
      assert (get b (put a p m) = get a (put a p m)) as -> by (unfold get; by rewrite Hc, Hi).
      by rewrite (get_put rc) by (try done; by eapply I6).
    + rewrite (get_put_ne rc) by (try done; by eapply I6). rewrite (I8 k m b Hm eq_refl Hb), elem_of_cons.
      split; [|by right]. intros [Hx|]; [|done]. rewrite <-Hx in Hs. unfold same_reg in Hs. simpl in Hs.
      rewrite bool_decide_true, Z.eqb_refl in Hs by done. done.
  - intros t m1 Hm1 Hlt. apply list_lookup_insert_Some in Hm1 as [(-> & _)|[_ Hm1]]; [lia|by eapply I9].
Qed.

Lemma init_regs_initial k l : ∀ s s', initial k l s → NoDup l → (∀ a, a ∈ l → a ∈ arch_regs rc) →
  init_regs k l s = Ok s' → initial k [] s'.
Proof.
  induction l as [|a l IH]; intros s s' Hi Hnd Hl H; simpl in H; [by injection H as <-|].
  apply NoDup_cons in Hnd as [Ha Hnd]. res_inv. eapply IH; [|done|intros b Hb; apply Hl; by right|exact H].
  eapply init_reg_initial; [exact Hi| |done|done]. apply Hl. by left.
Qed.

Lemma initial_next k s : initial k [] s → initial (S k) (arch_regs rc) s.
Proof.
  intros [I1 I2 I3 I4 I5 I6 I7 I8 I9]. split; try done.
  - intros t m Hm Ht. destruct (decide (t = k)) as [->|]; [|eapply I7; [done|lia]].
    apply (full_get rc m cfg_rc (I6 k m Hm)). intros a Ha Hn. apply (I8 k m a Hm eq_refl Ha) in Hn. by inversion Hn.
  - intros t m a Hm -> Ha. rewrite (I9 _ m Hm) by lia. split; [intros _; by apply valid_arch_regs|]. intros _. apply init_map.
  - intros t m Hm Ht. eapply I9; [done|lia].
Qed.

Lemma init_threads_initial n : ∀ k s s', initial k (arch_regs rc) s →
  init_threads (seq k n) rc s = Ok s' → initial (k + n) (arch_regs rc) s'.
Proof.
  induction n as [|n IH]; intros k s s' Hi H; simpl in H.
  - injection H as <-. by rewrite Nat.add_0_r.
  - res_inv. replace (k + S n)%nat with (S k + n)%nat by lia. eapply IH; [|exact H]. apply initial_next.
    eapply init_regs_initial; [exact Hi|apply arch_regs_NoDup|done|done].
Qed.

Lemma CPU_new_initial s : CPU_new threads active rc counts = Ok s → initial active (arch_regs rc) s.
Proof.
  unfold CPU_new. intros H. res_inv.
  destruct (addRegs_spec (all_ids counts) (replicate 7 [])) as (f & Hf & Ht & Ho).
  { split; [done|]. intros c l p Hl Hp. apply lookup_replicate in Hl as [-> _]. by inversion Hp. }
  { intros p Hp. by apply (all_ids_range counts cfg_counts). }
  unfold initFreeList in E. fold (all_ids counts) in E. rewrite Hf in E. injection E as <-.
  destruct (init_map (mkRegId IntRegClass 0 0)) as (_ & Hmap & Hsh).
  apply (init_threads_initial active 0 _ _) in H; [done|].
  split; simpl; rewrite ?length_replicate; try done.
  - intros x. rewrite Ho. simpl. assert (concat (mapped <$> replicate threads (UnifiedRenameMap_init rc)) = []) as ->; [|simpl; lia].
    rewrite fmap_replicate, Hmap. clear. induction threads; [done|]. done.
  - intros t m Hm. by apply lookup_replicate in Hm as [-> _].
  - intros; lia.
  - intros t m a Hm _ Ha. apply lookup_replicate in Hm as [-> _]. split; [intros _; by apply valid_arch_regs|].
    intros _. apply init_map.
  - intros t m Hm _. by apply lookup_replicate in Hm as [-> _].
Qed.

Definition start (s : State) (d : Z) : Sys := mkSys s (replicate threads []) (replicate threads d).

Lemma start_inv s d : CPU_new threads active rc counts = Ok s → inv (start s d).
Proof.
  intros H. apply CPU_new_initial in H as [I1 I2 I3 (J1 & J2 & J3 & J4) I5 I6 I7 I8 I9].
  split; simpl; rewrite ?length_replicate; try done.
  - split; rewrite ?I2, ?J1, ?J2, ?J3, ?J4, ?length_replicate; try done.
    + unfold Scoreboard_new. by rewrite length_replicate.
    + intros x. rewrite <-I5. rewrite fmap_replicate. assert (∀ n, concat (replicate n []) = @nil PhysRegIdPtr) as Hn.
      { induction n; done. }
      rewrite !Hn. simpl. lia.
    + intros t m h Hm Hh. apply lookup_replicate in Hh as [-> _]. split; [by eapply I6|]. split; [done|]. by eapply I7.
  - intros t l d' m cm h Hl Hd Hm Hcm Hh. rewrite I2, Hm in Hcm. injection Hcm as <-. rewrite J3 in Hh.
    apply lookup_replicate in Hl as [-> _]. apply lookup_replicate in Hd as [-> _]. apply lookup_replicate in Hh as [-> _].
    split; try done; [constructor|]. by exists [].
  - intros t l r Hl Hr. apply lookup_replicate in Hl as [-> _]. by apply elem_of_nil in Hr.
Qed.

Definition reachable (s0 s : Sys) : Prop := rtc (λ a b, ∃ l, step a l b) s0 s.

Lemma rename_reachable_inv s0 s : inv s0 → reachable s0 s → inv s.
Proof. intros H0 H. induction H as [|a b c [l Hl] _ IH]; [done|]. apply IH. by eapply rename_step_inv. Qed.

(** *** Renaming succeeds when the registers suffice *)

Definition free_of (c : RegClassType) (s : State) : nat := length (default [] (freeList s !! class_nat c)).

Lemma rename_total a m f ids : alloc_ok m f (length ids) → nameable rc a → numPinnedWrites a = 0 →
  (isRenameable a = true → f !! class_nat (classValue a) ≠ Some []) →
  ∃ n p m' f' ids', rename a m f ids = Ok (n, p, m', f', ids') ∧
    ∀ c l, f !! c = Some l → ∃ l', f' !! c = Some l' ∧
      (length l <= length l' + (if decide (isRenameable a = true ∧ c = class_nat (classValue a)) then 1 else 0))%nat.
Proof.
  intros Hok Ha Hpin Hne. pose proof Hok as [Hm Hf Ht Hlen Ho]. destruct Ha as [Ha|Ha].
  - unfold rename. rewrite Ha. simpl. rewrite lookup_fixed by done. simpl. eexists _, _, _, _, _. split; [done|].
    intros c l Hl. exists l. split; [done|]. lia.
  - pose proof Ha as (Hr & _). destruct (get_full rc a m Ha Hm Hf) as (q & Hg & Hq).
    destruct (typed_lookup f (classValue a) Ht Hr) as (l & Hl).
    rewrite (rename_eq a m f ids q l) by done.
    assert (q ∈ all_ids counts) as Hqk by (eapply alloc_known; [done|right; by eapply get_mapped]).
    unfold getNumPinnedWrites. destruct (known_load ids q Hlen Hqk) as (x & Hx & _ & Hst). rewrite Hx. simpl.
    destruct (0 <? p_numPinnedWrites x).
    + rewrite Hpin. simpl. unfold decrNumPinnedWrites. rewrite Hx. simpl. rewrite Hst. simpl.
      eexists _, _, _, _, _. split; [done|]. intros c l0 Hl0. exists l0. split; [done|]. lia.
    + destruct l as [|r l]; [by destruct (Hne Hr)|]. simpl.
      assert (r ∈ all_ids counts) as Hrk.
      { eapply alloc_known; [done|]. left. apply elem_of_concat. exists (r :: l). split; [by left|by eapply list_elem_of_lookup_2]. }
      unfold p_setNumPinnedWrites, setNumPinnedWritesToComplete.
      destruct (known_load ids r Hlen Hrk) as (y & Hy & _ & Hsty). rewrite Hy. simpl. rewrite Hsty. simpl.
      destruct (known_load (<[Z.to_nat (flatIndex r) := mkPhys (numPinnedWrites a) (numPinnedWritesToComplete y)
        (negb (numPinnedWrites a =? 0))]> ids) r) as (z & Hz & _ & Hstz); [by rewrite length_insert|done|].
      rewrite Hz. simpl. rewrite Hstz. simpl.
      eexists _, _, _, _, _. split; [done|]. intros c l0 Hl0. destruct (decide (c = class_nat (classValue a))) as [->|Hc].
      * rewrite Hl in Hl0. injection Hl0 as <-. exists l. rewrite list_lookup_insert_eq by (by eapply lookup_lt_Some).
        split; [done|]. rewrite decide_True by done. simpl. lia.
      * exists l0. rewrite list_lookup_insert_ne by done. split; [done|]. lia.
Qed.

Lemma renameDestReg_total t sn d s : core s → (t < active)%nat → nameable rc (flatten d) → numPinnedWrites d = 0 →
  (isRenameable (flatten d) = true → (0 < free_of (classValue (flatten d)) s)%nat) →
  ∃ r pin s', renameDestReg flatten t sn d s = Ok (r, pin, s') ∧
    ∀ c, class_renameable c = true →
      (free_of c s <= free_of c s' + (if decide (classValue (flatten d) = c) then 1 else 0))%nat.
Proof.
  intros Hs Ht Hd Hpin Hfree. unfold renameDestReg.
  destruct (thread_parts s t Hs) as (m & h & _ & _ & Hm & Hh & _); [by apply active_thread|]. rewrite Hm. simpl.
  set (a := setNumPinnedWrites (numPinnedWrites d) (flatten d)). pose proof (core_alloc s t m Hs Ht Hm) as Hok.
  destruct (rename_total a m _ _ Hok Hd Hpin) as (n & p & m' & f' & ids' & Hr & Hl).
  { intros Hra. change (isRenameable a) with (isRenameable (flatten d)) in Hra. specialize (Hfree Hra).
    unfold free_of in Hfree. intros He. change (classValue a) with (classValue (flatten d)) in He.
    rewrite He in Hfree. simpl in Hfree. lia. }
  assert (nameable rc a) as Ha by exact Hd.
  destruct (rename_entry sn a m _ _ n p m' f' ids' Hok Ha Hr) as (_ & _ & _ & _ & _ & Hl' & Hn & _).
  rewrite Hr. simpl. destruct (sb_ok (scoreboard s) n (c_scoreboard s Hs) Hn) as (_ & -> & _). simpl.
  rewrite Hh. simpl. assert (∃ pin, isPinned n ids' = Ok pin) as (pin & ->).
  { unfold isPinned. destruct Hn as [->|Hn]; [by exists false|]. rewrite known_renameable by done.
    destruct (known_load ids' n) as (x & -> & _); [rewrite Hl'; apply Hs|done|]. by eexists. }
  simpl. eexists _, _, _. split; [done|]. intros c Hc. unfold free_of. simpl.
  destruct (typed_lookup _ c (c_typed s Hs) Hc) as (l & Hlc). rewrite Hlc. destruct (Hl _ _ Hlc) as (l' & -> & Hle).
  simpl. change (classValue a) with (classValue (flatten d)) in Hle.
  destruct (decide (classValue (flatten d) = c)) as [|Hne]; destruct (decide _) as [[Hra He]|]; try lia.
  destruct Hne. apply class_num_inj. unfold isRenameable, a in Hra. simpl in Hra.
  destruct (class_nat_num _ Hra) as [-> _]. destruct (class_nat_num _ Hc) as [-> _].
  unfold a in He. simpl in He. by rewrite He.
Qed.

Lemma renameDestRegs_total t sn ds : ∀ s, core s → (t < active)%nat → Forall (λ d, nameable rc (flatten d)) ds →
  Forall (λ d, numPinnedWrites d = 0) ds →
  (∀ c, class_renameable c = true → (length (filter (λ d, classValue (flatten d) = c) ds) <= free_of c s)%nat) →
  ∃ rs pin s', renameDestRegs flatten t sn ds s = Ok (rs, pin, s').
Proof.
  induction ds as [|d ds IH]; intros s Hs Ht Hd Hp Hf; simpl; [by eexists _, _, _|].
  apply Forall_cons in Hd as [Hd Hds]. apply Forall_cons in Hp as [Hp Hps].
  destruct (renameDestReg_total t sn d s Hs Ht Hd Hp) as (r & pin & s1 & Hr & Hfree).
  { intros Hra. specialize (Hf _ Hra). rewrite filter_cons_True in Hf by done. simpl in Hf. lia. }
  rewrite Hr. simpl. destruct (renameDestReg_core t sn d s r pin s1 Hs Ht Hd Hr) as [Hs1 _].
  destruct (IH s1 Hs1 Ht Hds Hps) as (rs & pin' & s' & ->); [|by eexists _, _, _].
  intros c Hc. specialize (Hf c Hc). specialize (Hfree c Hc). rewrite filter_cons in Hf.
  destruct (decide (classValue (flatten d) = c)); simpl in Hf; lia.
Qed.

Lemma canRename_free num s c : core s → canRename num (freeList s) = true → class_renameable c = true →
  num c <= Z.of_nat (free_of c s).
Proof.
  intros Hs H Hc. unfold canRename in H. rewrite forallb_forall in H.
  destruct (typed_lookup _ c (c_typed s Hs) Hc) as (l & Hl). unfold free_of. rewrite Hl. simpl.
  specialize (H (c, l)). cbn [fst snd] in H. rewrite Z.leb_le in H. unfold numFreeRegs in H. apply H. apply list_elem_of_In, list_elem_of_lookup.
  exists (class_nat c). apply lookup_zip_Some. split; [|done]. unfold class_renameable in Hc. destruct c; done.
Qed.

Lemma renameSrcRegs_total t srcs s : core s → (t < active)%nat → Forall (λ a, nameable rc (flatten a)) srcs →
  ∃ l, renameSrcRegs flatten t srcs s = Ok l.
Proof.
  intros Hs Ht Hsrc. induction srcs as [|a srcs IH]; simpl; [by eexists|]. apply Forall_cons in Hsrc as [Ha Hsrc].
  destruct (IH Hsrc) as (l & ->). unfold renameSrcReg.
  destruct (thread_parts s t Hs) as (m & h & _ & _ & Hm & Hh & _); [by apply active_thread|]. rewrite Hm. simpl.
  pose proof (core_alloc s t m Hs Ht Hm) as Hok. assert (∃ p, lookup (flatten a) m = Ok (Some p) ∧
    (isFixedMapping p = true ∨ p ∈ all_ids counts)) as (p & -> & Hp).
  { destruct Ha as [Ha|Ha].
    - exists (fixed_ptr (flatten a)). split; [by apply lookup_fixed|]. left. unfold isFixedMapping.
      rewrite fixed_class by done. unfold isRenameable in Ha. by rewrite Ha.
    - destruct (get_full rc _ m Ha (a_shaped _ _ _ Hok) (a_full _ _ _ Hok)) as (p & Hg & _). exists p.
      rewrite (lookup_get rc) by (try done; apply Hok). split; [by rewrite Hg|]. right.
      eapply alloc_known; [done|]. right. by eapply get_mapped. }
  simpl. destruct (sb_ok (scoreboard s) p (c_scoreboard s Hs) Hp) as ((b & ->) & _). simpl. by eexists.
Qed.

Lemma renameInst_total t i s : core s → (t < active)%nat → wf_inst i →
  Forall (λ d, numPinnedWrites d = 0) (destRegs i) →
  ∃ o s', renameInst flatten t i s = Ok (o, s') ∧ (o = None ↔ canRename (numTypedDestRegs i) (freeList s) = false).
Proof.
  intros Hs Ht [H1 H2 H3] Hp. unfold renameInst. destruct (canRename _ _) eqn:Hc; simpl; [|by eexists _, _].
  destruct (renameSrcRegs_total t _ s Hs Ht H1) as (l & ->). simpl.
  destruct (renameDestRegs_total t (seqNum i) (destRegs i) s Hs Ht H2 Hp) as (rs & pin & s' & ->).
  { intros c Hcr. specialize (H3 c Hcr). pose proof (canRename_free _ s c Hs Hc Hcr). lia. }
  simpl. by eexists _, _.
Qed.

(** The instructions in flight turn the committed map into the rename map. *)
Lemma commit_flight l : ∀ m, undoable (reverse (flight l)) m → shaped rc m →
  commit_dests (concat (r_dests <$> l)) (undo_all (reverse (flight l)) m) = Ok m.
Proof.
  assert (∀ ds1 ds2 m, commit_dests (ds1 ++ ds2) m = (m ← commit_dests ds1 m; commit_dests ds2 m)) as Happ.
  { intros ds1 ds2. induction ds1 as [|d ds1 IH]; intros m; [done|]. simpl. destruct (setEntry _ _ m); [|done]. apply IH. }
  induction l as [|r l IH]; intros m Hu Hm; [done|]. change (flight (r :: l)) with (entries r ++ flight l) in *.
  rewrite reverse_app in *. apply undoable_app in Hu as [Hu Hu1]. rewrite undo_all_app.
  destruct (undo_all_ok _ m Hu Hm) as (Hm' & _). rewrite fmap_cons. cbn [concat]. rewrite Happ.
  change (entries r) with (hist_of (inum r) <$> r_dests r) in *. rewrite commit_dests_spec by done. by apply IH.
Qed.

Lemma flight_commit s t l m cm : inv s → rob s !! t = Some l → renameMap (st s) !! t = Some m →
  commitRenameMap (st s) !! t = Some cm → commit_dests (concat (r_dests <$> l)) cm = Ok m.
Proof.
  intros Hs Hl Hm Hcm. destruct (inv_parts s t Hs) as (l' & d & m' & cm' & h & Hl' & Hd & Hm' & Hcm' & Hh & Hok & Hsh & Hu & _).
  { eapply lookup_thread; [apply (i_rob s Hs)|done]. }
  simplify_eq. destruct Hok as [_ _ (old & -> & _) ->]. apply undoable_app in Hu as [Hu _]. by apply commit_flight.
Qed.

(** C9: no physical register is lost or used twice: whatever is renamed, written back,
    committed, squashed and released, in any order the pipeline allows and by all threads,
    each register of the file is in exactly one place: in a free list, waiting to be freed,
    in a rename map, or kept as the previous register of an entry of a history.  The rename
    map of a thread is its committed map with the instructions in flight applied to it, so
    a squash restores the map.  And no expected operation fails: an instruction whose
    registers suffice is renamed, and commit, squash and release always return. *)
Theorem registers_conserved s0 d0 s : CPU_new threads active rc counts = Ok s0 → reachable (start s0 d0) s →
  concat (freeList (st s)) ++ concat (freeingInProgress (st s)) ++ concat (mapped <$> renameMap (st s)) ++
    concat (replaceds <$> historyBuffer (st s)) ≡ₚ all_ids counts ∧ NoDup (all_ids counts) ∧
  ∀ t l d m cm, rob s !! t = Some l → done_sn s !! t = Some d → renameMap (st s) !! t = Some m →
    commitRenameMap (st s) !! t = Some cm →
    commit_dests (concat (r_dests <$> l)) cm = Ok m ∧
    (∀ i, (t < active)%nat → wf_inst i → Forall (λ a, numPinnedWrites a = 0) (destRegs i) →
       ∃ o s', renameInst flatten t i (st s) = Ok (o, s') ∧
         (o = None ↔ canRename (numTypedDestRegs i) (freeList (st s)) = false)) ∧
    (∀ k r, l !! k = Some r → ∃ r' s', writebackInst r (st s) = Ok (r', s')) ∧
    (∀ r l', l = r :: l' → ∃ s', commitHead t r (st s) = Ok s') ∧
    (∀ sn, sn <= d → ∃ s', removeFromHistory sn t (st s) = Ok s') ∧
    (∀ sn, d <= sn → ∃ s' m', doSquash sn t (st s) = Ok s' ∧ renameMap s' !! t = Some m' ∧
       commit_dests (concat (r_dests <$> filter (λ r, inum r <= sn) l)) cm = Ok m') ∧
    (∀ b, ∃ s', release_squashed b t (st s) = Ok s').
Proof.
  intros H0 Hr. apply rename_reachable_inv in Hr; [|by apply start_inv].
  split; [|split; [exact (all_ids_NoDup counts cfg_counts)|]].
  { apply occ_Permutation. intros p. rewrite !occ_app, <-(c_occ _ (i_core s Hr) p). lia. }
  intros t l d m cm Hl Hd Hm Hcm. assert (t < threads)%nat as Ht by (eapply lookup_thread; [apply (i_rob s Hr)|done]).
  split; [by eapply flight_commit|]. split; [|split; [|split; [|split; [|split]]]].
  - intros i Hta Hi Hp. by apply renameInst_total; [apply Hr|..].
  - intros k r Hk. destruct (writeback_inv s t k l r Hr Ht Hl Hk) as (r' & s' & Hw & _). by exists r', s'.
  - intros r l' ->. destruct (commit_inv s t r l' Hr Ht Hl) as (s' & Hc & _). by exists s'.
  - intros sn Hsn. destruct (rename_remove_inv s t sn d Hr Ht Hd Hsn) as (s' & Hc & _). by exists s'.
  - intros sn Hsn. destruct (squash_inv s t sn l d Hr Ht Hl Hd Hsn) as (s' & Hc & Hinv).
    destruct (thread_parts s' t (i_core _ Hinv) Ht) as (m' & _ & _ & _ & Hm' & _). exists s', m'.
    split; [done|]. split; [done|]. eapply (flight_commit _ t _ m' cm Hinv); simpl; [|done|].
    + apply list_lookup_insert_eq. by eapply lookup_lt_Some.
    + unfold doSquash in Hc. res_inv. destruct a2 as [[??]?]. by res_inv.
  - intros b. destruct (rename_release_inv s t b Hr Ht) as (s' & Hc & _). by exists s'.
Qed.

End Props.
End RenameProps.
