(* ===== verification/RenameFlow.v ===== *)
(** * cpu/o3/rename: renaming does not change what programs compute

    Instructions execute out of order, when the scoreboard says that their sources are
    ready, on the values of the physical registers; threads compute at the same time and
    wrong paths are squashed.  The registers of the architecture, which are read through
    the committed map, are those of a machine that executes the committed instructions of
    each thread one after the other. *)

From Stdlib Require Import ZArith Lia Sorted.
From stdpp Require Import base numbers option list sorting relations.
From S2P Require Import Prelude RenameMap Rename RenameLemmas RenameProps.

Module RenameFlow.
Import RenameMap Rename RenameLemmas RenameProps.

Section Flow.
Context {V : Type} (exec : DynInst → list V → list V).
Context {cfg : Config}.

(** ** The sequential machine *)

Definition write_reg (σ : RegId → V) (av : RegId * V) : RegId → V :=
  λ b, if same_reg av.1 b then av.2 else σ b.
Definition results (i : DynInst) (σ : RegId → V) : list V := exec i ((λ a, σ (flatten a)) <$> srcRegs i).
Definition seq_step (σ : RegId → V) (i : DynInst) : RegId → V :=
  foldl write_reg σ (zip (flatten <$> destRegs i) (results i σ)).

(** ** The pipeline with values *)

(** Instructions on renameable registers that pin none. *)
Record plain (i : DynInst) : Prop := {
  pl_wf : wf_inst i;
  pl_srcs : Forall (λ a, valid rc (flatten a)) (srcRegs i);
  pl_dests : Forall (λ a, valid rc (flatten a)) (destRegs i);
  pl_pins : Forall (λ a, numPinnedWrites a = 0) (destRegs i);
  pl_results : ∀ xs, length (exec i xs) = length (destRegs i)
}.

Fixpoint read_all (ps : list PhysRegIdPtr) (vals : list V) : result (list V) :=
  match ps with
  | [] => Ok []
  | p :: ps => x ← file_getReg p vals; l ← read_all ps vals; Ok (x :: l)
  end.
Fixpoint write_all (ps : list PhysRegIdPtr) (xs : list V) (vals : list V) : result (list V) :=
  match ps, xs with
  | p :: ps, x :: xs => vals ← file_setReg p x vals; write_all ps xs vals
  | _, _ => Ok vals
  end.

Record VSys := mkVSys { v_sys : Sys; v_vals : list V; v_committed : list (list DynInst) }.

Definition quiet (l : label) : Prop :=
  match l with
  | l_rename _ i => plain i
  | l_setSquashed r => pinnedRegsRenamed r = false
  | l_writeback _ _ | l_commit _ => False
  | _ => True
  end.

Definition all_ready (s : Sys) (ps : list PhysRegIdPtr) : Prop :=
  Forall (λ p, sb_getReg p (scoreboard (st s)) = Ok true) ps.

Inductive vstep : VSys → VSys → Prop :=
| v_quiet v l s' : step (v_sys v) l s' → quiet l →
    vstep v (mkVSys s' (v_vals v) (v_committed v))
| v_writeback v t k l r s' xs vals' : step (v_sys v) (l_writeback t k) s' →
    rob (v_sys v) !! t = Some l → l !! k = Some r → all_ready (v_sys v) (fst <$> r_srcs r) →
    read_all (fst <$> r_srcs r) (v_vals v) = Ok xs →
    write_all (renamedDest <$> r_dests r) (exec (r_inst r) xs) (v_vals v) = Ok vals' →
    vstep v (mkVSys s' vals' (v_committed v))
| v_commit v t r l c s' : step (v_sys v) (l_commit t) s' →
    rob (v_sys v) !! t = Some (r :: l) → all_ready (v_sys v) (renamedDest <$> r_dests r) →
    v_committed v !! t = Some c →
    vstep v (mkVSys s' (v_vals v) (<[t := c ++ [r_inst r]]> (v_committed v))).

(** ** What holds of the values *)

Section State_.
Context (sb : list bool) (vals : list V).

Definition ready (p : PhysRegIdPtr) : Prop := sb !! Z.to_nat (flatIndex p) = Some true.
Definition holds (p : PhysRegIdPtr) (x : V) : Prop := vals !! Z.to_nat (flatIndex p) = Some x.

(** The entries of a map that are ready have the values of the machine. *)
Definition good (m : UnifiedRenameMap) (σ : RegId → V) : Prop :=
  ∀ a p, valid rc a → get a m = Some p → ready p → holds p (σ a).

Definition apply_dest (m : UnifiedRenameMap) (d : Dest) : UnifiedRenameMap := put (flattenedDest d) (renamedDest d) m.
Definition apply_inst (m : UnifiedRenameMap) (r : Renamed) : UnifiedRenameMap := foldl apply_dest m (r_dests r).

(** What renaming made of a plain instruction. *)
Record renamed_ok (r : Renamed) : Prop := {
  ro_plain : plain (r_inst r);
  ro_dests : Forall2 (λ a d, classValue (flattenedDest d) = classValue (flatten a) ∧
    index (flattenedDest d) = index (flatten a)) (destRegs (r_inst r)) (r_dests r);
  ro_taken : Forall (λ d, renamedDest d ≠ prevDest d) (r_dests r)
}.

Definition srcs_ok (r : Renamed) (m : UnifiedRenameMap) : Prop :=
  Forall2 (λ a p, get (flatten a) m = Some p) (srcRegs (r_inst r)) (fst <$> r_srcs r).
Definition dests_ok (r : Renamed) (xs : list V) : Prop :=
  Forall2 (λ d x, ready (renamedDest d) → holds (renamedDest d) x) (r_dests r) xs.

Fixpoint flow (l : list Renamed) (m : UnifiedRenameMap) (σ : RegId → V) : Prop :=
  match l with
  | [] => True
  | r :: l =>
      renamed_ok r ∧ srcs_ok r m ∧ dests_ok r (results (r_inst r) σ) ∧
      flow l (apply_inst m r) (seq_step σ (r_inst r))
  end.

Lemma flow_app l1 l2 m σ : flow (l1 ++ l2) m σ ↔
  flow l1 m σ ∧ flow l2 (foldl apply_inst m l1) (foldl seq_step σ (r_inst <$> l1)).
Proof. revert m σ. induction l1 as [|r l1 IH]; intros m σ; simpl; [naive_solver|]. rewrite IH. naive_solver. Qed.

Lemma same_reg_eq a b c : classValue a = classValue b → index a = index b → same_reg a c = same_reg b c.
Proof. unfold same_reg. by intros -> ->. Qed.

Lemma valid_eq a b : classValue a = classValue b → index a = index b → valid rc a → valid rc b.
Proof. unfold valid, isRenameable. by intros -> ->. Qed.

Lemma length_put a p (m : UnifiedRenameMap) : length <$> put a p m = length <$> m.
Proof.
  apply list_eq. intros i. unfold put. rewrite !list_lookup_fmap, list_lookup_alter. case_decide; [subst|done].
  destruct (m !! _); simpl; [|done]. by rewrite length_insert.
Qed.

Lemma good_dests as_ ds xs : ∀ m σ, Forall2 (λ a d, classValue (flattenedDest d) = classValue a ∧
    index (flattenedDest d) = index a) as_ ds → Forall (valid rc) as_ →
  Forall2 (λ d x, ready (renamedDest d) → holds (renamedDest d) x) ds xs →
  length <$> m = rc → good m σ →
  good (foldl apply_dest m ds) (foldl write_reg σ (zip as_ xs)).
Proof.
  revert ds xs. induction as_ as [|a as_ IH]; intros ds xs m σ Had Hv Hdx Hlen Hg;
    inversion Had as [|? d ? ds' [Hc Hi] Had']; subst; inversion Hdx as [|? x ? xs' Hx Hdx']; subst; simpl; [done|].
  apply Forall_cons in Hv as [Ha Hv]. apply IH; try done.
  - unfold apply_dest. by rewrite length_put.
  - intros b p Hb Hget Hr. unfold write_reg. simpl. unfold apply_dest in Hget.
    assert (valid rc (flattenedDest d)) as Hd by (by apply (valid_eq a)).
    destruct (same_reg a b) eqn:Hs.
    + assert (get b (put (flattenedDest d) (renamedDest d) m) = Some (renamedDest d)) as Hp.
      { unfold same_reg in Hs. apply andb_true_iff in Hs as [Hs1 Hs2]. apply bool_decide_eq_true in Hs1.
        apply Z.eqb_eq in Hs2. unfold get. rewrite <-Hs1, <-Hs2, <-Hc, <-Hi. destruct Hd as (Hdr & n & Hn & Hni).
        rewrite <-Hlen, list_lookup_fmap in Hn. unfold put. rewrite list_lookup_alter, decide_True by done.
        destruct (m !! _) as [s|]; [|done]. simpl in *. injection Hn as <-.
        rewrite list_lookup_insert_eq by lia. done. }
      rewrite Hp in Hget. injection Hget as <-. by apply Hx.
    + rewrite (get_put_ne rc) in Hget; [|done|done|by rewrite (same_reg_eq _ a) by done]. by apply Hg.
Qed.

(** *** Along the instructions in flight *)

Lemma length_apply ds : ∀ m, length <$> foldl apply_dest m ds = length <$> m.
Proof. induction ds as [|d ds IH]; intros m; [done|]. simpl. rewrite IH. apply length_put. Qed.

Lemma good_inst r m σ : renamed_ok r → dests_ok r (results (r_inst r) σ) → length <$> m = rc → good m σ →
  good (apply_inst m r) (seq_step σ (r_inst r)) ∧ length <$> apply_inst m r = rc.
Proof.
  intros [Hp Hd _] Hx Hl Hg. split; [|unfold apply_inst; by rewrite length_apply].
  apply good_dests; try done.
  - apply Forall2_fmap_l. done.
  - apply Forall_fmap. apply Hp.
Qed.

Lemma good_flow l : ∀ m σ, flow l m σ → length <$> m = rc → good m σ →
  good (foldl apply_inst m l) (foldl seq_step σ (r_inst <$> l)).
Proof.
  induction l as [|r l IH]; intros m σ Hf Hl Hg; [done|]. destruct Hf as (Hr & _ & Hd & Hf).
  destruct (good_inst r m σ Hr Hd Hl Hg) as [Hg' Hl']. simpl. by apply IH.
Qed.

End State_.

Definition dests_of (l : list Renamed) : list PhysRegIdPtr := renamedDest <$> concat (r_dests <$> l).

Lemma flow_frame sb vals sb' vals' l : ∀ m σ, flow sb vals l m σ →
  (∀ p, p ∈ dests_of l → ready sb' p → ready sb p) →
  (∀ p x, p ∈ dests_of l → holds vals p x → holds vals' p x) → flow sb' vals' l m σ.
Proof.
  induction l as [|r l IH]; intros m σ Hf Hsb Hv; [done|]. destruct Hf as (Hr & Hs & Hd & Hf).
  unfold dests_of in Hsb, Hv. rewrite fmap_cons in Hsb, Hv. cbn [concat] in Hsb, Hv. rewrite fmap_app in Hsb, Hv.
  split; [done|]. split; [done|]. split.
  - unfold dests_ok in *. eapply Forall2_impl; [|intros d x Hx; exact Hx].
    apply Forall2_same_length_lookup. split; [by eapply Forall2_length|].
    intros i d x Hi Hx Hrd. assert (renamedDest d ∈ renamedDest <$> r_dests r) as Hin.
    { apply list_elem_of_fmap. exists d. split; [done|]. by eapply list_elem_of_lookup_2. }
    apply Hv; [apply elem_of_app; by left|]. eapply (Forall2_lookup_lr _ _ _ _ _ _ Hd Hi Hx).
    apply Hsb; [|done]. apply elem_of_app. by left.
  - apply IH; [done| |]; intros p; [intros Hp|intros x Hp]; [apply Hsb|apply Hv]; apply elem_of_app; by right.
Qed.

Lemma good_frame sb vals sb' vals' m σ : good sb vals m σ →
  (∀ p, p ∈ mapped m → ready sb' p → ready sb p) →
  (∀ p x, p ∈ mapped m → holds vals p x → holds vals' p x) → good sb' vals' m σ.
Proof.
  intros Hg Hsb Hv a p Ha Hget Hr. pose proof (get_mapped a p m Hget). apply Hv; [done|]. by apply Hg, Hsb.
Qed.

(** ** Registers in use are apart *)

Definition live (cm : UnifiedRenameMap) (l : list Renamed) : list PhysRegIdPtr := mapped cm ++ takens (flight l).

Lemma occ_fmap_le2 {A} (g : A → list PhysRegIdPtr) x (L : list A) i j a b : L !! i = Some a → L !! j = Some b → i ≠ j →
  (occ x (g a) + occ x (g b) <= occ x (concat (g <$> L)))%nat.
Proof.
  revert i j. induction L as [|c L IH]; intros [|i] [|j] Hi Hj Hne; try done; rewrite fmap_cons; cbn [concat]; rewrite occ_app.
  - injection Hi as ->. pose proof (occ_fmap_le g x L j b Hj). lia.
  - injection Hj as ->. pose proof (occ_fmap_le g x L i a Hi). lia.
  - assert (i ≠ j) as Hij by congruence. pose proof (IH i j Hi Hj Hij). lia.
Qed.

Lemma occ_takens_reverse x h : occ x (takens (reverse h)) = occ x (takens h).
Proof.
  induction h as [|e h IH]; [done|]. rewrite reverse_cons, takens_app, !takens_cons, !occ_app, IH.
  change (takens []) with (@nil PhysRegIdPtr). simpl. lia.
Qed.

Lemma live_occ s t l cm m h x : inv s → rob s !! t = Some l → commitRenameMap (st s) !! t = Some cm →
  renameMap (st s) !! t = Some m → historyBuffer (st s) !! t = Some h →
  (occ x (live cm l) <= occ x (mapped m) + occ x (replaceds h))%nat.
Proof.
  intros Hs Hl Hcm Hm Hh. destruct (inv_parts s t Hs) as (l' & d & m' & cm' & h' & Hl' & Hd & Hm' & Hcm' & Hh' & Hok & Hsh & Hu & _).
  { eapply lookup_thread; [apply (i_rob s Hs)|done]. }
  simplify_eq. destruct Hok as [_ _ (old & -> & _) ->]. apply undoable_app in Hu as [Hu _].
  destruct (undo_all_ok _ m Hu Hsh) as (_ & _ & Ho). specialize (Ho x). unfold live.
  rewrite occ_app, replaceds_app, occ_app. rewrite occ_takens_reverse in Ho. lia.
Qed.

Lemma live_apart s t t' l l' cm cm' x : inv s → rob s !! t = Some l → commitRenameMap (st s) !! t = Some cm →
  rob s !! t' = Some l' → commitRenameMap (st s) !! t' = Some cm' → t ≠ t' →
  (occ x (concat (freeList (st s))) + occ x (live cm l) <= 1)%nat ∧ (occ x (live cm l) + occ x (live cm' l') <= 1)%nat ∧
  (0 < occ x (live cm l) → 0 < occ x (all_ids counts))%nat.
Proof.
  intros Hs Hl Hcm Hl' Hcm' Hne.
  assert (t < threads)%nat as Ht by (eapply lookup_thread; [apply (i_rob s Hs)|done]).
  assert (t' < threads)%nat as Ht' by (eapply lookup_thread; [apply (i_rob s Hs)|done]).
  destruct (thread_parts (st s) t (i_core s Hs) Ht) as (m & h & _ & _ & Hm & Hh & _).
  destruct (thread_parts (st s) t' (i_core s Hs) Ht') as (m' & h' & _ & _ & Hm' & Hh' & _).
  pose proof (live_occ s t l cm m h x Hs Hl Hcm Hm Hh). pose proof (live_occ s t' l' cm' m' h' x Hs Hl' Hcm' Hm' Hh').
  pose proof (occ_fmap_le2 mapped x _ t t' m m' Hm Hm' Hne). pose proof (occ_fmap_le2 replaceds x _ t t' h h' Hh Hh' Hne).
  pose proof (c_occ _ (i_core s Hs) x). pose proof (all_ids_occ x). lia.
Qed.

Lemma live_once s t l cm x : inv s → rob s !! t = Some l → commitRenameMap (st s) !! t = Some cm →
  (occ x (concat (freeList (st s))) + occ x (live cm l) <= 1)%nat ∧ (0 < occ x (live cm l) → 0 < occ x (all_ids counts))%nat.
Proof.
  intros Hs Hl Hcm.
  assert (t < threads)%nat as Ht by (eapply lookup_thread; [apply (i_rob s Hs)|done]).
  destruct (thread_parts (st s) t (i_core s Hs) Ht) as (m & h & _ & _ & Hm & Hh & _).
  pose proof (live_occ s t l cm m h x Hs Hl Hcm Hm Hh).
  pose proof (occ_fmap_le mapped x _ t m Hm). pose proof (occ_fmap_le replaceds x _ t h Hh).
  pose proof (c_occ _ (i_core s Hs) x). pose proof (all_ids_occ x). lia.
Qed.

(** ** Renaming a plain instruction *)

Definition no_pins (ids : list PhysRegId) : Prop := Forall (λ x, p_numPinnedWrites x <= 0) ids.

Lemma load_at_inv {A} (l : list A) i x : load_at l i = Ok x → l !! Z.to_nat i = Some x.
Proof. unfold load_at. destruct (i <? 0); [done|]. apply deref_Ok. Qed.

Lemma store_no_pins ids i x ids' : store_at ids i x = Ok ids' → p_numPinnedWrites x <= 0 → no_pins ids → no_pins ids'.
Proof. unfold store_at. destruct (_ && _); [|done]. intros [= <-] Hx H. by apply Forall_insert. Qed.

Lemma rename_plain a m f ids n p m' f' ids' : alloc_ok m f (length ids) → valid rc a → numPinnedWrites a = 0 →
  no_pins ids → rename a m f ids = Ok (n, p, m', f', ids') →
  n ≠ p ∧ m' = put a n m ∧ no_pins ids' ∧ n ∈ concat f ∧ get a m = Some p.
Proof.
  intros Hok Ha Hpin Hids H. pose proof Hok as [Hm Hf Ht Hlen Ho]. pose proof Ha as (Hr & _).
  destruct (get_full rc a m Ha Hm Hf) as (q & Hg & Hq). destruct (typed_lookup f (classValue a) Ht Hr) as (l & Hl).
  rewrite (rename_eq a m f ids q l) in H by done. res_inv.
  assert (a0 <= 0).
  { unfold getNumPinnedWrites in E. apply bind_Ok in E as (x & Hx & [= <-]). apply load_at_inv in Hx.
    unfold no_pins in Hids. rewrite Forall_lookup in Hids. by eapply Hids. }
  replace (0 <? a0) with false in H by lia. destruct l as [|r l]; [done|]. simpl in H. res_inv.
  unfold p_setNumPinnedWrites in E0. unfold setNumPinnedWritesToComplete in E1. res_inv.
  assert (n ∈ concat f) as Hn.
  { apply elem_of_concat. exists (n :: l). split; [by left|by eapply list_elem_of_lookup_2]. }
  split; [|split; [done|split; [|done]]].
  - intros ->. pose proof (get_mapped a p m Hg) as Hp. rewrite occ_elem in *. specialize (Ho p).
    pose proof (all_ids_occ p). lia.
  - assert (no_pins a1) as Ha1 by (eapply store_no_pins; [exact E0|simpl; lia|done]).
    eapply store_no_pins; [exact E1| |done]. simpl. apply load_at_inv in E2. unfold no_pins in Ha1.
    rewrite Forall_lookup in Ha1. by eapply Ha1.
Qed.

(** The ready bits after registers were taken. *)
Definition taken_from (sb sb' : list bool) (ps : list PhysRegIdPtr) : Prop :=
  ∀ p, p ∈ all_ids counts → ready sb' p ↔ ready sb p ∧ p ∉ ps.

Lemma taken_trans sb1 sb2 sb3 ps qs : taken_from sb1 sb2 ps → taken_from sb2 sb3 qs → taken_from sb1 sb3 (ps ++ qs).
Proof. intros H1 H2 p Hp. rewrite (H2 p Hp), (H1 p Hp), elem_of_app. tauto. Qed.

Record taking (t : nat) (as_ : list RegId) (rs : list Dest) (m m' : UnifiedRenameMap) (s s' : State) : Prop := {
  tk_dests : Forall2 (λ a d, classValue (flattenedDest d) = classValue (flatten a) ∧
    index (flattenedDest d) = index (flatten a)) as_ rs;
  tk_new : Forall (λ d, renamedDest d ≠ prevDest d) rs;
  tk_pins : no_pins (physRegs s');
  tk_ready : taken_from (scoreboard s) (scoreboard s') (renamedDest <$> rs);
  tk_map : m' = foldl apply_dest m rs
}.

Lemma renameDestReg_plain t sn a s m r pin s' : core s → (t < active)%nat → renameMap s !! t = Some m →
  valid rc (flatten a) → numPinnedWrites a = 0 → no_pins (physRegs s) →
  renameDestReg flatten t sn a s = Ok (r, pin, s') →
  ∃ m', renameMap s' !! t = Some m' ∧ taking t [a] [r] m m' s s'.
Proof.
  intros Hs Ht Hm Ha Hpin Hids H. pose proof (core_alloc s t m Hs Ht Hm) as Hok.
  unfold renameDestReg in H. rewrite Hm in H. simpl in H. res_inv. destruct a0 as [[[[n p] m'] f'] ids']. res_inv.
  set (b := setNumPinnedWrites (numPinnedWrites a) (flatten a)) in *.
  destruct (rename_plain b m _ _ n p m' f' ids' Hok Ha Hpin Hids E) as (Hne & -> & Hids' & Hn & Hget).
  assert (n ∈ all_ids counts) as Hnk by (eapply alloc_known; [exact Hok|by left]).
  destruct (sb_ok (scoreboard s) n (c_scoreboard s Hs) (or_intror Hnk)) as (_ & Hsb & _).
  rewrite known_renameable in Hsb by done. simpl in *. rewrite Hsb in E0. injection E0 as <-.
  eexists. split; [apply list_lookup_insert_eq; by eapply lookup_lt_Some|]. split; simpl.
  - by repeat constructor.
  - by repeat constructor.
  - done.
  - intros q Hq. unfold ready. simpl. rewrite list_elem_of_singleton.
    destruct (all_ids_range counts cfg_counts q Hq) as [Hqr _]. destruct (all_ids_range counts cfg_counts n Hnk) as [Hnr _].
    destruct (decide (q = n)) as [->|Hqn].
    + rewrite list_lookup_insert_eq by (rewrite (c_scoreboard s Hs); lia). naive_solver.
    + rewrite list_lookup_insert_ne; [naive_solver|]. intros Hf. apply Hqn. apply (all_ids_inj counts cfg_counts); [done|done|lia].
  - done.
Qed.

Lemma renameDestRegs_plain t sn ds : ∀ s m rs pin s', core s → (t < active)%nat → renameMap s !! t = Some m →
  Forall (λ a, valid rc (flatten a)) ds → Forall (λ a, numPinnedWrites a = 0) ds → no_pins (physRegs s) →
  renameDestRegs flatten t sn ds s = Ok (rs, pin, s') →
  ∃ m', renameMap s' !! t = Some m' ∧ taking t ds rs m m' s s'.
Proof.
  induction ds as [|d ds IH]; intros s m rs pin s' Hs Ht Hm Hv Hp Hids H; simpl in H.
  - injection H as <- _ <-. exists m. split; [done|].
    split; [constructor|constructor|done| |done]. intros p Hk. split; [|by intros [? _]].
    intros Hr. split; [done|]. intros Hx. by inversion Hx.
  - apply Forall_cons in Hv as [Hv Hvs]. apply Forall_cons in Hp as [Hp Hps]. res_inv.
    destruct a as [[r pin1] s1]. res_inv. destruct a as [[l pin2] s2]. res_inv.
    destruct (renameDestReg_plain t sn d s m r pin1 s1 Hs Ht Hm Hv Hp Hids E) as (m1 & Hm1 & T1).
    destruct (renameDestReg_core t sn d s r pin1 s1 Hs Ht (or_intror Hv) E) as [Hs1 _].
    destruct (IH _ _ _ _ _ Hs1 Ht Hm1 Hvs Hps (tk_pins _ _ _ _ _ _ _ T1) E0) as (m2 & Hm2 & T2).
    exists m2. split; [done|]. destruct T1 as [D1 N1 P1 R1 ->], T2 as [D2 N2 P2 R2 ->].
    split; [|by apply (Forall_app_2 _ [r] l)|done|exact (taken_trans _ _ _ _ _ R1 R2)|done].
    apply Forall2_cons_1 in D1 as [D1 _]. by constructor.
Qed.

Lemma renameSrcRegs_get t srcs s m l : core s → renameMap s !! t = Some m → shaped rc m →
  Forall (λ a, valid rc (flatten a)) srcs → renameSrcRegs flatten t srcs s = Ok l →
  Forall2 (λ a p, get (flatten a) m = Some p) srcs (fst <$> l).
Proof.
  intros Hs Hm Hsh. revert l. induction srcs as [|a srcs IH]; intros l Hv H; simpl in H.
  - injection H as <-. constructor.
  - apply Forall_cons in Hv as [Ha Hv]. res_inv. constructor; [|by apply IH]. unfold renameSrcReg in E.
    rewrite Hm in E. simpl in E. rewrite (lookup_get rc) in E by done. simpl in E. res_inv. done.
Qed.

Lemma renameInst_plain t i s m r s' : core s → (t < active)%nat → renameMap s !! t = Some m → plain i →
  no_pins (physRegs s) → renameInst flatten t i s = Ok (Some r, s') →
  renamed_ok r ∧ srcs_ok r m ∧ no_pins (physRegs s') ∧
  taken_from (scoreboard s) (scoreboard s') (renamedDest <$> r_dests r).
Proof.
  intros Hs Ht Hm Hi Hids H. unfold renameInst in H. destruct (canRename _ _); [|done]. simpl in H. res_inv.
  destruct a0 as [[ds pin] s1]. res_inv. pose proof Hi as [Hwf Hsrc Hdst Hpins Hres].
  destruct (core_alloc s t m Hs Ht Hm) as [Hsh _ _ _ _].
  destruct (renameDestRegs_plain t _ _ _ _ _ _ _ Hs Ht Hm Hdst Hpins Hids E0) as (m' & _ & [D N P R _]).
  split; [by split|]. split; [|done]. by eapply renameSrcRegs_get.
Qed.

(** ** The invariant *)

Lemma flow_renamed sb vals l : ∀ m σ, flow sb vals l m σ → Forall renamed_ok l.
Proof. induction l as [|r l IH]; intros m σ H; constructor; [apply H|]. destruct H as (_ & _ & _ & H). by eapply IH. Qed.

Lemma takens_dests l : Forall renamed_ok l → takens (flight l) = dests_of l.
Proof.
  intros H. induction H as [|r l Hr _ IH]; [done|]. change (flight (r :: l)) with (entries r ++ flight l).
  unfold dests_of. rewrite takens_app, IH, fmap_cons. cbn [concat]. rewrite fmap_app. f_equal.
  destruct Hr as [_ _ Hn]. unfold entries. induction Hn as [|d ds Hd _ IHd]; [done|].
  rewrite !fmap_cons, takens_cons, IHd. unfold taken. simpl. by rewrite decide_False.
Qed.

Lemma apply_concat l : ∀ m, foldl apply_inst m l = foldl apply_dest m (concat (r_dests <$> l)).
Proof. induction l as [|r l IH]; intros m; [done|]. rewrite fmap_cons. cbn [concat]. rewrite foldl_app. apply IH. Qed.

Lemma dest_valid r d : renamed_ok r → d ∈ r_dests r → valid rc (flattenedDest d).
Proof.
  intros [Hp Hd _] (i & Hi)%list_elem_of_lookup. destruct (Forall2_lookup_r _ _ _ _ _ Hd Hi) as (a & Ha & Hc & Hx).
  apply (valid_eq (flatten a)); [done|done|]. pose proof (pl_dests _ Hp) as Hv. rewrite Forall_lookup in Hv. by eapply Hv.
Qed.

Lemma commit_dests_apply ds : ∀ m m', Forall (λ d, valid rc (flattenedDest d)) ds → shaped rc m →
  commit_dests ds m = Ok m' → m' = foldl apply_dest m ds.
Proof.
  induction ds as [|d ds IH]; intros m m' Hv Hm H; simpl in H; [by injection H as <-|].
  apply Forall_cons in Hv as [Hd Hv]. res_inv.
  assert (p_class (renamedDest d) = classValue (flattenedDest d)) as Hc.
  { unfold setEntry in E. case_bool_decide; [done|]. by simpl in E. }
  rewrite (setEntry_put rc) in E by done. injection E as <-. simpl. apply IH; [done| |done]. by apply shaped_put.
Qed.

(** The committed map of a thread and the map that its instructions in flight make of it. *)
Lemma commit_map s t l cm m : inv s → rob s !! t = Some l → commitRenameMap (st s) !! t = Some cm →
  renameMap (st s) !! t = Some m → Forall renamed_ok l → shaped rc cm ∧ m = foldl apply_inst cm l.
Proof.
  intros Hs Hl Hcm Hm Hr.
  destruct (inv_parts s t Hs) as (l' & d & m' & cm' & h & Hl' & Hd & Hm' & Hcm' & Hh & Hok & Hsh & Hu & _).
  { eapply lookup_thread; [apply (i_rob s Hs)|done]. }
  simplify_eq. assert (shaped rc cm) as Hshc.
  { destruct Hok as [_ _ (old & -> & _) ->]. apply undoable_app in Hu as [Hu _].
    by destruct (undo_all_ok _ m Hu Hsh) as (? & _). }
  split; [done|]. rewrite apply_concat. apply commit_dests_apply; [|done|by eapply flight_commit].
  apply Forall_concat, Forall_fmap. eapply Forall_impl; [exact Hr|]. intros r Hro. apply Forall_forall.
  intros d0 Hd0. by eapply dest_valid.
Qed.

Lemma mapped_elem p m : p ∈ mapped m ↔ ∃ c s i, m !! c = Some s ∧ s !! i = Some (Some p).
Proof.
  unfold mapped. rewrite list_elem_of_omap. split.
  - intros (o & (s & (i & Hi)%list_elem_of_lookup & (c & Hc)%list_elem_of_lookup)%elem_of_concat & Ho).
    simpl in Ho. subst o. by exists c, s, i.
  - intros (c & s & i & Hc & Hi). exists (Some p). split; [|done]. apply elem_of_concat. exists s.
    split; by eapply list_elem_of_lookup_2.
Qed.

Lemma mapped_apply p ds : ∀ m, p ∈ mapped (foldl apply_dest m ds) → p ∈ mapped m ∨ p ∈ renamedDest <$> ds.
Proof.
  induction ds as [|d ds IH]; intros m H; [by left|]. simpl in H. destruct (IH _ H) as [Hp|Hp]; [|by right; right].
  apply mapped_elem in Hp as (c & s & i & Hc & Hi). unfold apply_dest, put in Hc. rewrite list_lookup_alter in Hc.
  case_decide; [|left; apply mapped_elem; by exists c, s, i]. destruct (m !! class_nat _) as [s0|] eqn:Hs0; [|done].
  injection Hc as <-. apply list_lookup_insert_Some in Hi as [(_ & [= <-] & _)|[_ Hi]]; [by right; left|].
  left. apply mapped_elem. by exists (class_nat (classValue (flattenedDest d))), s0, i.
Qed.

Lemma live_dests cm l p : Forall renamed_ok l → occ p (live cm l) = (occ p (mapped cm) + occ p (dests_of l))%nat.
Proof. intros H. unfold live. by rewrite occ_app, takens_dests. Qed.

Lemma live_dests_once s t l cm p : inv s → rob s !! t = Some l → commitRenameMap (st s) !! t = Some cm →
  Forall renamed_ok l → (occ p (mapped cm) + occ p (dests_of l) <= 1)%nat ∧
  (p ∈ mapped cm ∨ p ∈ dests_of l → p ∈ all_ids counts).
Proof.
  intros Hs Hl Hcm Hr. destruct (live_once s t l cm p Hs Hl Hcm) as [H1 H2]. rewrite live_dests in * by done.
  rewrite !occ_elem. split; [lia|]. intros. apply H2. lia.
Qed.

Lemma live_dests_apart s t t' l l' cm p : inv s → rob s !! t = Some l → commitRenameMap (st s) !! t = Some cm →
  rob s !! t' = Some l' → t ≠ t' → Forall renamed_ok l → Forall renamed_ok l' →
  p ∈ mapped cm ∨ p ∈ dests_of l → p ∉ dests_of l'.
Proof.
  intros Hs Hl Hcm Hl' Hne Hr Hr' Hp.
  destruct (thread_parts (st s) t' (i_core s Hs)) as (_ & _ & _ & cm' & _ & _ & _ & Hcm').
  { eapply lookup_thread; [apply (i_rob s Hs)|done]. }
  destruct (live_apart s t t' l l' cm cm' p Hs Hl Hcm Hl' Hcm' Hne) as (_ & H & _).
  rewrite !live_dests in H by done. rewrite !occ_elem in *. lia.
Qed.

Lemma dests_of_app l1 l2 : dests_of (l1 ++ l2) = dests_of l1 ++ dests_of l2.
Proof. unfold dests_of. by rewrite fmap_app, concat_app, fmap_app. Qed.
Lemma dests_of_cons r l : dests_of (r :: l) = (renamedDest <$> r_dests r) ++ dests_of l.
Proof. unfold dests_of. rewrite fmap_cons. cbn [concat]. by rewrite fmap_app. Qed.

(** One thread: the committed registers are ready and hold the machine's values, and so do
    the results in flight. *)
Definition vthread (sb : list bool) (vals : list V) (l : list Renamed) (cm : UnifiedRenameMap) (σ : RegId → V) : Prop :=
  (∀ p, p ∈ mapped cm → ready sb p) ∧ good sb vals cm σ ∧ flow sb vals l cm σ.

Lemma vthread_frame sb vals sb' vals' l cm σ : vthread sb vals l cm σ →
  (∀ p, p ∈ mapped cm → ready sb p → ready sb' p) →
  (∀ p, p ∈ dests_of l → ready sb' p → ready sb p) →
  (∀ p x, p ∈ mapped cm ∨ p ∈ dests_of l → holds vals p x → holds vals' p x) → vthread sb' vals' l cm σ.
Proof.
  intros (H1 & H2 & H3) Ha Hb Hc. split; [auto|]. split; [eapply good_frame|eapply flow_frame]; eauto.
Qed.

Record vinv (σ0 : nat → RegId → V) (v : VSys) : Prop := {
  w_inv : inv (v_sys v);
  w_vals : length (v_vals v) = totalNumPhysRegs counts;
  w_committed : length (v_committed v) = threads;
  w_pins : no_pins (physRegs (st (v_sys v)));
  w_thread : ∀ t l cm c, rob (v_sys v) !! t = Some l → commitRenameMap (st (v_sys v)) !! t = Some cm →
    v_committed v !! t = Some c →
    vthread (scoreboard (st (v_sys v))) (v_vals v) l cm (foldl seq_step (σ0 t) c)
}.

(** Steps that touch neither values, nor ready bits, nor committed maps. *)
Lemma vinv_same σ0 v s' : vinv σ0 v → inv s' → no_pins (physRegs (st s')) →
  scoreboard (st s') = scoreboard (st (v_sys v)) → commitRenameMap (st s') = commitRenameMap (st (v_sys v)) →
  (∀ t l', rob s' !! t = Some l' → ∃ l2, rob (v_sys v) !! t = Some (l' ++ l2)) →
  vinv σ0 (mkVSys s' (v_vals v) (v_committed v)).
Proof.
  intros [W1 W2 W3 W4 W5] Hi Hp Hsb Hcm Hrob. split; try done. simpl. intros t l cm c Hl Hcm' Hc.
  destruct (Hrob t l Hl) as (l2 & Hl2). rewrite Hcm in Hcm'. rewrite Hsb.
  destruct (W5 t _ cm c Hl2 Hcm' Hc) as (H1 & H2 & H3). split; [done|]. split; [done|].
  by apply flow_app in H3 as [H3 _].
Qed.

Lemma v_rename σ0 v t i l d r s' : vinv σ0 v → (t < active)%nat → rob (v_sys v) !! t = Some l →
  done_sn (v_sys v) !! t = Some d → d < seqNum i → Forall (λ q, inum q < seqNum i) l → plain i →
  renameInst flatten t i (st (v_sys v)) = Ok (Some r, s') →
  vinv σ0 (mkVSys (mkSys s' (<[t := l ++ [r]]> (rob (v_sys v))) (done_sn (v_sys v))) (v_vals v) (v_committed v)).
Proof.
  intros [W1 W2 W3 W4 W5] Ht Hl Hd Hdi Hli Hi H. pose proof (i_core _ W1) as Hc.
  pose proof (rename_inv _ t i l d r s' W1 Ht Hl Hd Hdi Hli (pl_wf _ Hi) H) as Hinv.
  destruct (renameInst_core t i _ r s' Hc Ht (pl_wf _ Hi) H) as (_ & (h & m & m' & _ & _ & Hm & _ & _ & Hcm & _) & Hri).
  destruct (renameInst_plain t i _ m r s' Hc Ht Hm Hi W4 H) as (Hro & Hsrc & Hpins & Htk).
  split; try done. simpl. rewrite Hcm. intros t' l' cm c Hl' Hcm' Hcc.
  destruct (thread_parts _ t Hc (active_thread t Ht)) as (_ & _ & _ & cmt & _ & _ & _ & Hcmt).
  destruct (thread_some _ t W3 (active_thread t Ht)) as [ct Hct].
  pose proof (W5 t l cmt ct Hl Hcmt Hct) as (_ & _ & Hft). pose proof (flow_renamed _ _ _ _ _ Hft) as Hrl.
  assert (Forall renamed_ok (l ++ [r])) as Hrl' by (apply Forall_app; split; [done|by apply Forall_singleton]).
  assert ((<[t := l ++ [r]]> (rob (v_sys v))) !! t = Some (l ++ [r])) as Hlt.
  { apply list_lookup_insert_eq. by eapply lookup_lt_Some. }
  assert (commitRenameMap s' !! t' = Some cm) as Hcm2 by (by rewrite Hcm).
  destruct (decide (t' = t)) as [->|Hne].
  - rewrite Hlt in Hl'. injection Hl' as <-. simplify_eq. destruct (W5 t l cm c Hl Hcm' Hcc) as (F1 & F2 & F3).
    assert (∀ p, (occ p (mapped cm) + occ p (dests_of l) + occ p (renamedDest <$> r_dests r) <= 1)%nat) as Hone.
    { intros p. destruct (live_dests_once _ t _ cm p Hinv Hlt Hcm2 Hrl') as [Ho _].
      rewrite dests_of_app, dests_of_cons, !occ_app in Ho. simpl in Ho. lia. }
    assert (∀ p, p ∈ mapped cm ∨ p ∈ dests_of (l ++ [r]) → p ∈ all_ids counts) as Hkn.
    { intros p. by apply (live_dests_once _ t _ cm p Hinv Hlt Hcm2 Hrl'). }
    rewrite dests_of_app, dests_of_cons in Hkn. setoid_rewrite elem_of_app in Hkn. setoid_rewrite elem_of_app in Hkn.
    assert (vthread (scoreboard s') (v_vals v) l cm (foldl seq_step (σ0 t) c)) as (G1 & G2 & G3).
    { eapply vthread_frame; [done| | |done].
      - intros p Hp Hr. apply (Htk p); [auto|]. split; [done|]. rewrite !occ_elem in *. specialize (Hone p). lia.
      - intros p Hp Hr. apply (Htk p) in Hr as [? _]; auto. }
    split; [done|]. split; [done|]. apply flow_app. split; [done|].
    destruct (commit_map _ t l cm m W1 Hl Hcm' Hm Hrl) as (_ & <-). split; [done|]. split; [done|]. split; [|done].
    destruct Hro as [Hpl Hd2 _]. apply Forall2_same_length_lookup. split.
    { unfold results. rewrite (pl_results _ Hpl). symmetry. by eapply Forall2_length. }
    intros k d0 x Hk _ Hr. assert (renamedDest d0 ∈ renamedDest <$> r_dests r) as Hin.
    { apply list_elem_of_fmap. exists d0. split; [done|]. by eapply list_elem_of_lookup_2. }
    apply Htk in Hr as [_ Hr]; auto. done.
  - rewrite list_lookup_insert_ne in Hl' by done. pose proof (W5 t' l' cm c Hl' Hcm' Hcc) as Hv.
    pose proof (flow_renamed _ _ _ _ _ (proj2 (proj2 Hv))) as Hr'.
    assert ((<[t := l ++ [r]]> (rob (v_sys v))) !! t' = Some l') as Hlt' by (by rewrite list_lookup_insert_ne).
    assert (∀ p, p ∈ mapped cm ∨ p ∈ dests_of l' → p ∈ all_ids counts ∧ p ∉ renamedDest <$> r_dests r) as Hap.
    { intros p Hp. split; [by apply (live_dests_once _ t' l' cm p Hinv Hlt' Hcm2 Hr')|].
      pose proof (live_dests_apart _ t' t l' _ cm p Hinv Hlt' Hcm2 Hlt Hne Hr' Hrl' Hp) as Hn.
      rewrite dests_of_app, dests_of_cons, !elem_of_app in Hn. tauto. }
    eapply vthread_frame; [done| | |done]; intros p Hp Hr.
    + destruct (Hap p) as [Hk Hn]; [by left|]. by apply Htk.
    + destruct (Hap p) as [Hk Hn]; [by right|]. by apply Htk in Hr as [? _].
Qed.

Lemma v_quiet_inv σ0 v l s' : vinv σ0 v → step (v_sys v) l s' → quiet l →
  vinv σ0 (mkVSys s' (v_vals v) (v_committed v)).
Proof.
  intros W Hst Hq. pose proof (w_inv _ _ W) as Hi. pose proof (i_core _ Hi) as Hc. pose proof (w_pins _ _ W) as Hp.
  pose proof (rename_step_inv _ _ _ Hi Hst) as Hi'. inversion Hst; subst; simpl in Hq; try done.
  - by eapply v_rename.
  - destruct (removeFromHistory_core sn t (st (v_sys v)) Hc) as (?&?&?&?&?&?&?&?&?&_&_&_&Hcm&Hph&Hsb).
    { eapply lookup_thread; [apply (i_done _ Hi)|done]. }
    same_ok. apply vinv_same; simpl; rewrite ?Hph; try done. intros t' l' Hl'. exists []. by rewrite app_nil_r.
  - destruct (doSquash_core sn t (st (v_sys v)) Hc) as (?&?&?&?&_&_&_&_&?&_&_&_&Hcm&Hph&Hsb).
    { eapply lookup_thread; [apply (i_rob _ Hi)|done]. }
    same_ok. apply vinv_same; simpl; rewrite ?Hph; try done. intros t' l' Hl'.
    apply list_lookup_insert_Some in Hl' as [(<- & <- & _)|[_ Hl']]; [|exists []; by rewrite app_nil_r].
    destruct (inv_parts _ t Hi) as (l2 & d2 & m & cm & h & Hl2 & Hd2 & Hm & Hcm2 & Hh & [Hsort _ _ _] & _).
    { eapply lookup_thread; [apply (i_rob _ Hi)|done]. }
    simplify_eq. destruct (sorted_filter sn _ Hsort) as (l3 & Hl3 & _). exists l3. by rewrite <-Hl3.
  - destruct (release_core b t (st (v_sys v)) Hc) as (?&?&_&_&_&Hcm&Hph&Hsb); [done|].
    same_ok. apply vinv_same; simpl; rewrite ?Hph; try done. intros t' l' Hl'. exists []. by rewrite app_nil_r.
  - match goal with H : setSquashed _ _ = Ok _ |- _ => unfold setSquashed in H; rewrite Hq in H; simpl in H; injection H as <- <- end.
    apply vinv_same; try done. intros t' l' Hl'. exists []. by rewrite app_nil_r.
Qed.

(** ** Write-back *)

Lemma write_all_spec ps : ∀ xs vals vals', (∀ p, p ∈ ps → p ∈ all_ids counts) → NoDup ps → length xs = length ps →
  length vals = totalNumPhysRegs counts → write_all ps xs vals = Ok vals' →
  length vals' = length vals ∧ Forall2 (holds vals') ps xs ∧
  (∀ p x, p ∈ all_ids counts → p ∉ ps → holds vals p x → holds vals' p x).
Proof.
  induction ps as [|p ps IH]; intros [|x xs] vals vals' Hk Hnd Hl Hv H; try done; simpl in H.
  - injection H as <-. split; [done|]. split; [constructor|done].
  - injection Hl as Hl. apply NoDup_cons in Hnd as [Hp Hnd]. res_inv.
    assert (p ∈ all_ids counts) as Hpk by (apply Hk; by left).
    destruct (known_load vals p Hv Hpk) as (y & _ & Hy & Hst).
    destruct (all_ids_range counts cfg_counts p Hpk) as [Hr Hcl]. unfold file_setReg in E.
    rewrite bool_decide_false in E by (intros Hx; by rewrite Hx in Hcl). rewrite Hcl, Hst in E. injection E as <-.
    destruct (IH xs (<[Z.to_nat (flatIndex p) := x]> vals) vals') as (H1 & H2 & H3);
      [intros q Hq; apply Hk; by right|done|done|by rewrite length_insert|done|].
    rewrite length_insert in H1. split; [done|]. split.
    + constructor; [|done]. apply H3; [done|done|]. apply list_lookup_insert_eq. by eapply lookup_lt_Some.
    + intros q z Hq Hn Hh. apply not_elem_of_cons in Hn as [Hne Hn]. apply H3; [done|done|]. unfold holds.
      rewrite list_lookup_insert_ne; [done|]. intros Hf. apply Hne. destruct (all_ids_range counts cfg_counts q Hq).
      apply (all_ids_inj counts cfg_counts); [done|done|lia].
Qed.

Lemma read_all_spec ps : ∀ xs vals, (∀ p, p ∈ ps → p ∈ all_ids counts) → read_all ps vals = Ok xs →
  Forall2 (holds vals) ps xs.
Proof.
  induction ps as [|p ps IH]; intros xs vals Hk H; simpl in H; res_inv; constructor.
  - unfold file_getReg in E. destruct (all_ids_range counts cfg_counts p) as [_ Hcl]; [apply Hk; by left|].
    rewrite Hcl in E. by apply load_at_inv.
  - apply IH; [|done]. intros q Hq. apply Hk. by right.
Qed.

Lemma flow_insert sb vals r r' : r_inst r' = r_inst r → r_srcs r' = r_srcs r → r_dests r' = r_dests r →
  ∀ l k m σ, l !! k = Some r → flow sb vals l m σ → flow sb vals (<[k := r']> l) m σ.
Proof.
  intros Hi Hs Hd. induction l as [|q l IH]; intros [|k] m σ Hk Hf; try done.
  - injection Hk as ->. destruct Hf as ([H1 H2 H3] & H4 & H5 & H6). simpl.
    unfold srcs_ok, dests_ok, apply_inst in *. rewrite Hi, Hs, Hd. split; [|done]. by split; rewrite ?Hi, ?Hd.
  - destruct Hf as (H1 & H2 & H3 & H4). split; [done|]. split; [done|]. split; [done|]. by apply IH.
Qed.

(** The values of ready sources are those of the machine. *)
Lemma read_sources sb vals r m σ xs : good sb vals m σ → srcs_ok r m → renamed_ok r →
  (∀ p, p ∈ fst <$> r_srcs r → p ∈ all_ids counts ∧ ready sb p) → read_all (fst <$> r_srcs r) vals = Ok xs →
  xs = (λ a, σ (flatten a)) <$> srcRegs (r_inst r).
Proof.
  intros Hg Hs [Hp _ _] Hr H. apply read_all_spec in H; [|apply Hr]. unfold srcs_ok in Hs.
  pose proof (pl_srcs _ Hp) as Hv. revert xs H Hr. generalize (fst <$> r_srcs r) as ps, Hs as Hs'. clear Hs.
  intros ps Hs. induction Hs as [|a p as_ ps Ha Hs IH]; intros xs H Hr; inversion H as [|? x ? xs' Hx H']; subst; [done|].
  apply Forall_cons in Hv as [Hva Hv]. rewrite fmap_cons. f_equal.
  - assert (holds vals p (σ (flatten a))) as Hh by (apply Hg; [done|done|apply Hr; by left]).
    unfold holds in *. congruence.
  - apply IH; [done|done|]. intros q Hq. apply Hr. by right.
Qed.

Lemma all_ready_ready s p : p ∈ all_ids counts → sb_getReg p (scoreboard (st s)) = Ok true →
  ready (scoreboard (st s)) p.
Proof.
  intros Hp H. unfold sb_getReg in H. rewrite known_renameable in H by done. res_inv. by apply load_at_inv.
Qed.

(** The thread whose instruction writes its results. *)
Lemma vthread_write sb vals sb' vals' l k r cm σ xs : vthread sb vals l cm σ → shaped rc cm → l !! k = Some r →
  length vals = totalNumPhysRegs counts →
  (∀ p, occ p (mapped cm) + occ p (dests_of l) <= 1)%nat →
  (∀ p, p ∈ mapped cm ∨ p ∈ dests_of l → p ∈ all_ids counts) →
  (∀ p, p ∈ all_ids counts → ready sb p → ready sb' p) →
  (∀ p, p ∈ all_ids counts → ready sb' p → ready sb p ∨ p ∈ renamedDest <$> r_dests r) →
  (∀ p, p ∈ fst <$> r_srcs r → p ∈ all_ids counts → ready sb p) →
  read_all (fst <$> r_srcs r) vals = Ok xs → write_all (renamedDest <$> r_dests r) (exec (r_inst r) xs) vals = Ok vals' →
  vthread sb' vals' l cm σ.
Proof.
  intros (H1 & H2 & H3) Hsh Hk Hlen Hone Hkn Hup Hdown Hrdy Hread Hwrite.
  destruct (list_elem_of_split_length l k r Hk) as (l1 & l2 & -> & _).
  rewrite dests_of_app, dests_of_cons in Hone, Hkn. setoid_rewrite elem_of_app in Hkn. setoid_rewrite elem_of_app in Hkn.
  assert (∀ p, occ p (mapped cm) + occ p (dests_of l1) + occ p (renamedDest <$> r_dests r) + occ p (dests_of l2) <= 1)%nat as Hone'.
  { intros p. specialize (Hone p). rewrite !occ_app in Hone. lia. }
  apply flow_app in H3 as [F1 (Hro & Hsrc & Hd & F2)]. pose proof (good_flow _ _ l1 _ _ F1 (proj1 Hsh) H2) as Hg1.
  assert (xs = (λ a, foldl seq_step σ (r_inst <$> l1) (flatten a)) <$> srcRegs (r_inst r)) as Hxs.
  { eapply read_sources; [exact Hg1|done|done| |done]. intros p Hp. assert (p ∈ all_ids counts) as Hpk; [|auto].
    unfold srcs_ok in Hsrc. apply list_elem_of_lookup in Hp as (i & Hi).
    destruct (Forall2_lookup_r _ _ _ _ _ Hsrc Hi) as (a & _ & Ha). apply get_mapped in Ha.
    rewrite apply_concat in Ha. apply mapped_apply in Ha as [Ha|Ha]; auto. }
  destruct (write_all_spec (renamedDest <$> r_dests r) (exec (r_inst r) xs) vals vals') as (_ & W2 & W3); try done.
  { intros p Hp. auto. }
  { apply occ_NoDup. intros p. specialize (Hone' p). lia. }
  { rewrite length_fmap, (pl_results _ (ro_plain _ Hro)). eapply Forall2_length, (ro_dests _ Hro). }
  assert (∀ p, p ∈ mapped cm ∨ p ∈ dests_of l1 ∨ p ∈ dests_of l2 → p ∈ all_ids counts ∧ p ∉ renamedDest <$> r_dests r) as Hout.
  { intros p Hp. split; [naive_solver|]. rewrite !occ_elem in *. specialize (Hone' p). lia. }
  assert (∀ p, p ∈ mapped cm ∨ p ∈ dests_of l1 ∨ p ∈ dests_of l2 → ready sb' p → ready sb p) as Hsb.
  { intros p Hp Hr. destruct (Hout p Hp) as [? ?]. by destruct (Hdown p). }
  assert (∀ p x, p ∈ mapped cm ∨ p ∈ dests_of l1 ∨ p ∈ dests_of l2 → holds vals p x → holds vals' p x) as Hv.
  { intros p x Hp Hx. destruct (Hout p Hp) as [? ?]. auto. }
  split; [auto|]. split; [eapply good_frame; eauto|]. apply flow_app. split; [eapply flow_frame; eauto|].
  split; [done|]. split; [done|]. split; [|eapply flow_frame; eauto].
  unfold dests_ok, results. rewrite <-Hxs. apply (Forall2_fmap_l renamedDest (holds vals')) in W2.
  eapply Forall2_impl; [exact W2|]. simpl. done.
Qed.

Lemma v_writeback_inv σ0 v t k l r s' xs vals' : vinv σ0 v → step (v_sys v) (l_writeback t k) s' →
  rob (v_sys v) !! t = Some l → l !! k = Some r → all_ready (v_sys v) (fst <$> r_srcs r) →
  read_all (fst <$> r_srcs r) (v_vals v) = Ok xs →
  write_all (renamedDest <$> r_dests r) (exec (r_inst r) xs) (v_vals v) = Ok vals' →
  vinv σ0 (mkVSys s' vals' (v_committed v)).
Proof.
  intros [W1 W2 W3 W4 W5] Hst Hl Hk Hrdy Hread Hwrite. pose proof (rename_step_inv _ _ _ W1 Hst) as Hi'.
  pose proof (i_core _ W1) as Hc. inversion Hst as [|? ? ? l0 r0 r' s1 Hl0 Hk0 Hw| | | | |]; subst. simplify_eq.
  destruct (inv_parts _ t W1) as (l0 & d & m & cm & h & Hl0 & Hd & Hm & Hcm & Hh & Hok & _).
  { eapply lookup_thread; [apply (i_rob _ W1)|done]. }
  simplify_eq. assert (Forall known (r_dests r)) as Hkn by (eapply (thread_known (v_sys v) t l); eauto; by eapply list_elem_of_lookup_2).
  assert (r ∈ l) as Hrl by (by eapply list_elem_of_lookup_2).
  destruct (writebackInst_core r _ Hc Hkn (i_pins _ W1 t l r Hl Hrl))
    as (r1 & s2 & Hw' & Hc' & (E1 & E2 & E3 & _) & _ & Ecm & _ & Epin & _ & Hup & Hdown).
  same_ok. destruct (thread_some _ t W3) as [c Hcc]. { eapply lookup_thread; [apply (i_rob _ W1)|done]. }
  pose proof (W5 t l cm c Hl Hcm Hcc) as Hv. pose proof (flow_renamed _ _ _ _ _ (proj2 (proj2 Hv))) as Hro.
  destruct (commit_map _ t l cm m W1 Hl Hcm Hm Hro) as [Hsh _].
  pose proof (λ p, live_dests_once _ t l cm p W1 Hl Hcm Hro) as Hone.
  assert (∀ p, p ∈ renamedDest <$> r_dests r → p ∈ dests_of l) as Hsub.
  { intros p Hp. apply list_elem_of_split_length in Hk as (l1 & l2 & -> & _).
    rewrite dests_of_app, dests_of_cons, !elem_of_app. auto. }
  destruct (write_all_spec (renamedDest <$> r_dests r) (exec (r_inst r) xs) (v_vals v) vals') as (V1 & _ & V3); try done.
  { intros p Hp. apply Hone. auto. }
  { apply occ_NoDup. intros p. destruct (Hone p) as [Ho _]. apply list_elem_of_split_length in Hk as (l1 & l2 & -> & _).
    rewrite dests_of_app, dests_of_cons, !occ_app in Ho. lia. }
  { rewrite Forall_forall in Hro. assert (renamed_ok r) as [Hp Hd2 _] by (apply Hro; by eapply list_elem_of_lookup_2).
    rewrite length_fmap, (pl_results _ Hp). by eapply Forall2_length. }
  split; [done|simpl; by rewrite V1|done| |].
  { simpl. unfold no_pins in *. apply (Forall_fmap p_numPinnedWrites (λ n, n <= 0)). rewrite Epin. by apply Forall_fmap. }
  simpl. rewrite Ecm. intros t' l' cm' c' Hl' Hcm' Hc2. destruct (decide (t' = t)) as [->|Hne].
  - rewrite list_lookup_insert_eq in Hl' by (by eapply lookup_lt_Some). injection Hl' as <-. simplify_eq.
    assert (vthread (scoreboard s2) vals' l cm (foldl seq_step (σ0 t) c)) as (F1 & F2 & F3).
    { eapply vthread_write; try done.
      - intros p. apply Hone.
      - intros p. apply Hone.
      - intros p _. apply Hup.
      - intros p Hp Hpk. unfold all_ready in Hrdy. rewrite Forall_forall in Hrdy. apply all_ready_ready; auto. }
    split; [done|]. split; [done|]. by eapply flow_insert.
  - rewrite list_lookup_insert_ne in Hl' by done. pose proof (W5 t' l' cm' c' Hl' Hcm' Hc2) as Hv'.
    pose proof (flow_renamed _ _ _ _ _ (proj2 (proj2 Hv'))) as Hro'.
    assert (∀ p, p ∈ mapped cm' ∨ p ∈ dests_of l' → p ∈ all_ids counts ∧ p ∉ renamedDest <$> r_dests r) as Hap.
    { intros p Hp. split; [by apply (live_dests_once _ t' l' cm' p W1 Hl' Hcm' Hro')|]. intros Hin%Hsub.
      by apply (live_dests_apart _ t' t l' l cm' p W1 Hl' Hcm' Hl Hne Hro' Hro Hp). }
    eapply vthread_frame; [done| | |].
    + intros p Hp. apply Hup.
    + intros p Hp Hr. destruct (Hap p) as [Hpk Hn]; [auto|]. by destruct (Hdown p Hpk Hr).
    + intros p x Hp Hx. destruct (Hap p Hp) as [Hpk Hn]. auto.
Qed.

(** ** Commit *)

Lemma vthread_commit sb vals r l cm σ : vthread sb vals (r :: l) cm σ → length <$> cm = rc →
  (∀ p, p ∈ renamedDest <$> r_dests r → ready sb p) →
  vthread sb vals l (apply_inst cm r) (seq_step σ (r_inst r)).
Proof.
  intros (H1 & H2 & Hro & Hs & Hd & Hf) Hl Hr. split; [|split; [by apply good_inst|done]].
  intros p [Hp|Hp]%mapped_apply; auto.
Qed.

Lemma v_commit_inv σ0 v t r l c s' : vinv σ0 v → step (v_sys v) (l_commit t) s' →
  rob (v_sys v) !! t = Some (r :: l) → all_ready (v_sys v) (renamedDest <$> r_dests r) →
  v_committed v !! t = Some c →
  vinv σ0 (mkVSys s' (v_vals v) (<[t := c ++ [r_inst r]]> (v_committed v))).
Proof.
  intros [W1 W2 W3 W4 W5] Hst Hl Hrdy Hcc. pose proof (rename_step_inv _ _ _ W1 Hst) as Hi'.
  pose proof (i_core _ W1) as Hc. inversion Hst as [| |? ? r0 l0 s1 Hl0 Hcm| | | |]; subst. simplify_eq.
  unfold commitHead in Hcm. res_inv. rename a into cm, a0 into cm'.
  pose proof (W5 t _ cm c Hl E Hcc) as Hv. pose proof (flow_renamed _ _ _ _ _ (proj2 (proj2 Hv))) as Hro.
  destruct (thread_parts _ t Hc) as (m & _ & _ & _ & Hm & _). { eapply lookup_thread; [apply (i_rob _ W1)|done]. }
  destruct (commit_map _ t _ cm m W1 Hl E Hm Hro) as [Hsh _].
  pose proof (λ p, live_dests_once _ t _ cm p W1 Hl E Hro) as Hone.
  apply commit_dests_apply in E0 as ->; [|apply Forall_cons in Hro as [Hro _]|done].
  2: { apply Forall_forall. intros d Hd. by eapply dest_valid. }
  split; simpl; rewrite ?length_insert; try done. intros t' l' cm' c' Hl' Hcm' Hc2. destruct (decide (t' = t)) as [->|Hne].
  - rewrite list_lookup_insert_eq in Hl' by (by eapply lookup_lt_Some).
    rewrite list_lookup_insert_eq in Hcm' by (by eapply lookup_lt_Some).
    rewrite list_lookup_insert_eq in Hc2 by (by eapply lookup_lt_Some). injection Hl' as <-. injection Hcm' as <-.
    injection Hc2 as <-. rewrite foldl_app. simpl. apply vthread_commit; [done|apply Hsh|].
    intros p Hp. unfold all_ready in Hrdy. rewrite Forall_forall in Hrdy. apply all_ready_ready; [|auto].
    apply Hone. rewrite dests_of_cons, elem_of_app. auto.
  - rewrite list_lookup_insert_ne in Hl' by done. rewrite list_lookup_insert_ne in Hcm' by done.
    rewrite list_lookup_insert_ne in Hc2 by done. by eapply W5.
Qed.

Lemma vstep_inv σ0 v v' : vinv σ0 v → vstep v v' → vinv σ0 v'.
Proof.
  intros W H. destruct H; [by eapply v_quiet_inv|by eapply v_writeback_inv|by eapply v_commit_inv].
Qed.

(** ** The start *)

(** The register [a] of the architecture, of thread [t], in the registers [vals]. *)
Definition arch (t : nat) (a : RegId) (v : VSys) : result V := getArchReg (λ a, a) a t (v_vals v) (st (v_sys v)).

Definition vstart (s : State) (d : Z) (vals : list V) : VSys :=
  mkVSys (start s d) vals (replicate threads []).

(** [σ0] is what the registers hold at the start. *)
Definition initial_values (σ0 : nat → RegId → V) (v : VSys) : Prop :=
  length (v_vals v) = totalNumPhysRegs counts ∧
  ∀ t a, (t < active)%nat → valid rc a → arch t a v = Ok (σ0 t a).

Lemma arch_get t a v : inv (v_sys v) → (t < active)%nat → valid rc a → ∀ cm l,
  commitRenameMap (st (v_sys v)) !! t = Some cm → rob (v_sys v) !! t = Some l → shaped rc cm →
  ∃ p, get a cm = Some p ∧ p ∈ all_ids counts ∧ arch t a v = deref (v_vals v !! Z.to_nat (flatIndex p)).
Proof.
  intros Hi Ht Ha cm l Hcm Hl Hsh.
  destruct (inv_parts _ t Hi (active_thread t Ht)) as (l' & d & m & cm' & h & Hl' & Hd & Hm & Hcm' & Hh & [_ _ (old & -> & _) Hu] & Hshm & Hund & Hfull).
  simplify_eq. apply undoable_app in Hund as [Hund _]. destruct (undo_all_ok _ m Hund Hshm) as (_ & Hf & _).
  destruct (get_full rc a _ Ha Hsh (Hf (Hfull Ht))) as (p & Hp & Hpc). exists p. split; [done|].
  assert (p ∈ all_ids counts) as Hk.
  { destruct (live_once _ t l _ p Hi Hl Hcm) as [_ Hk]. rewrite occ_elem. apply Hk. unfold live. rewrite occ_app.
    apply get_mapped in Hp. rewrite occ_elem in Hp. lia. }
  split; [done|]. unfold arch, getArchReg. rewrite Hcm. simpl. rewrite (lookup_get rc) by done. simpl. rewrite Hp. simpl.
  destruct (all_ids_range counts cfg_counts p Hk) as [Hr Hcl]. unfold file_getReg, load_at. rewrite Hcl.
  replace (_ <? 0) with false by lia. done.
Qed.

Lemma vstart_inv σ0 s d vals : CPU_new threads active rc counts = Ok s → initial_values σ0 (vstart s d vals) →
  vinv σ0 (vstart s d vals).
Proof.
  intros H [Hlen Hv]. pose proof (start_inv s d H) as Hi. pose proof H as H'.
  apply CPU_new_initial in H as [I1 I2 I3 (J1 & J2 & J3 & J4) I5 I6 I7 I8 I9].
  split; [done|done|by simpl; rewrite length_replicate| |]; simpl.
  - rewrite J1. apply Forall_forall. intros x Hx. apply elem_of_replicate in Hx as [-> _]. done.
  - intros t l cm c Hl Hcm Hc. apply lookup_replicate in Hl as [-> Ht]. apply lookup_replicate in Hc as [-> _]. simpl.
    assert (shaped rc cm) as Hsh by (eapply I6; by rewrite <-I2).
    assert (rob (start s d) !! t = Some []) as Hl by (by apply lookup_replicate).
    assert (∀ p, p ∈ mapped cm → p ∈ all_ids counts) as Hk.
    { intros p Hp. destruct (live_once _ t [] cm p Hi Hl Hcm) as [_ Hk]. rewrite occ_elem. apply Hk. unfold live.
      rewrite occ_app. rewrite occ_elem in Hp. lia. }
    split; [|split; [|done]].
    + intros p Hp%Hk. unfold ready. rewrite J2. apply lookup_replicate. split; [done|].
      destruct (all_ids_range counts cfg_counts p Hp). lia.
    + intros a p Ha Hg _. destruct (decide (t < active)%nat) as [Hta|Hta].
      * destruct (arch_get t a (vstart s d vals) Hi Hta Ha cm [] Hcm Hl Hsh) as (q & Hq & _ & He).
        rewrite Hg in Hq. injection Hq as <-. rewrite (Hv t a Hta Ha) in He. symmetry in He. by apply deref_Ok.
      * exfalso. rewrite I2 in Hcm. destruct (decide (t = active)) as [->|].
        -- destruct (I8 active cm a Hcm eq_refl Ha) as [_ Hn]. rewrite Hn in Hg; [done|by apply valid_arch_regs].
        -- rewrite (I9 t cm Hcm) in Hg by lia. by destruct (init_map a) as [Hn _]; rewrite Hn in Hg.
Qed.

(** C5: renaming does not change what programs compute.  Threads rename, execute, commit and
    squash at the same time; an instruction executes as soon as the scoreboard says that its
    sources are ready, whatever else is in flight, and commits in the order of its thread
    when its destinations are ready; wrong paths are renamed, executed and squashed at any
    time, and registers are freed and reused.  Then the registers of the architecture,
    read through the committed map, are always those of a machine without renaming that
    executes the committed instructions of the thread in order, one after the other. *)
Theorem renaming_transparent σ0 s0 d0 vals v t c a : CPU_new threads active rc counts = Ok s0 →
  initial_values σ0 (vstart s0 d0 vals) → rtc vstep (vstart s0 d0 vals) v →
  (t < active)%nat → v_committed v !! t = Some c → valid rc (flatten a) →
  getArchReg flatten a t (v_vals v) (st (v_sys v)) = Ok (foldl seq_step (σ0 t) c (flatten a)).
Proof.
  intros H0 Hi Hr Ht Hc Ha. assert (vinv σ0 v) as W.
  { pose proof (vstart_inv σ0 s0 d0 vals H0 Hi) as W. clear - W Hr. induction Hr as [|x y z Hxy _ IH]; [done|].
    apply IH. by eapply vstep_inv. }
  pose proof (w_inv _ _ W) as Hv.
  destruct (inv_parts _ t Hv (active_thread t Ht)) as (l & d & m & cm & h & Hl & _ & Hm & Hcm & _).
  pose proof (w_thread _ _ W t l cm c Hl Hcm Hc) as (H1 & H2 & H3).
  destruct (commit_map _ t l cm m Hv Hl Hcm Hm (flow_renamed _ _ _ _ _ H3)) as [Hsh _].
  destruct (arch_get t _ v Hv Ht Ha cm l Hcm Hl Hsh) as (p & Hp & _ & He).
  change (getArchReg flatten a t (v_vals v) (st (v_sys v))) with (arch t (flatten a) v). rewrite He.
  rewrite (H2 _ p Ha Hp) by (apply H1; by eapply get_mapped). done.
Qed.

End Flow.
End RenameFlow.
