(* ===== verification/RenameExample.v ===== *)
(** * cpu/o3/rename: a run of a small machine

    One thread, two integer registers and five physical ones.  A wrong path is renamed and
    executed, squashed and its register reused; instructions execute out of order. *)

From Stdlib Require Import ZArith Lia.
From stdpp Require Import base numbers option list relations.
From S2P Require Import Prelude RenameMap Rename RenameLemmas RenameProps RenameFlow.

Module RenameExample.
Import RenameMap Rename RenameLemmas RenameProps RenameFlow.

#[local] Instance ex_cfg : Config.
Proof.
  refine {| flatten := λ a, a; rc := [2; 0; 0; 0; 0; 0; 0]%nat; counts := [5; 0; 0; 0; 0; 0; 0]%nat;
    threads := 1; active := 1 |}; [done|done|lia].
Defined.

Definition ex_reg (i : Z) : RegId := mkRegId IntRegClass i 0.

(** [r_d := sum of the sources + number of the instruction] *)
Definition ex_inst (sn d : Z) (srcs : list Z) : DynInst :=
  mkInst sn (ex_reg <$> srcs) [ex_reg d] (λ c, if decide (c = IntRegClass) then 1 else 0).
Definition ex_exec (i : DynInst) (xs : list Z) : list Z := (λ _, foldr Z.add (seqNum i) xs) <$> destRegs i.

Definition ex_s0 : State :=
  match CPU_new 1 1 rc counts with Ok s => s | _ => mkState [] [] [] [] [] [] [] end.
Definition ex_vals : list Z := [10; 20; 0; 0; 0].
Definition ex_σ0 (t : nat) (a : RegId) : Z := if index a =? 0 then 10 else 20.

Lemma ex_valid i : 0 <= i < 2 → valid rc (ex_reg i).
Proof. split; [done|]. by exists 2%nat. Qed.

Lemma ex_plain sn d srcs : 0 <= d < 2 → Forall (λ i, 0 <= i < 2) srcs → plain ex_exec (ex_inst sn d srcs).
Proof.
  intros Hd Hs. assert (Forall (λ a, valid rc (flatten a)) (ex_reg <$> srcs)) as Hv.
  { apply Forall_fmap. eapply Forall_impl; [exact Hs|]. apply ex_valid. }
  split; [split|done| | |]; simpl.
  - eapply Forall_impl; [exact Hv|]. intros a Ha. by right.
  - apply Forall_singleton. right. by apply ex_valid.
  - intros c Hc. rewrite filter_cons. simpl. destruct c; simpl; lia.
  - apply Forall_singleton. by apply ex_valid.
  - by apply Forall_singleton.
  - done.
Qed.

Definition ex_program : list DynInst := [ex_inst 1 0 [0; 1]; ex_inst 2 1 [0; 0]; ex_inst 5 0 [1; 0]].

(** ** Running the machine *)

#[local] Instance result_bool_eq_dec : EqDecision (result bool).
Proof. solve_decision. Defined.
#[local] Instance all_ready_dec s ps : Decision (all_ready s ps).
Proof. unfold all_ready. apply _. Defined.

Inductive action := a_rename (i : DynInst) | a_write (k : nat) | a_commit | a_remove (sn : Z) | a_squash (sn : Z) | a_release.

Definition to_option {A} (r : result A) : option A := match r with Ok a => Some a | _ => None end.

(** What the only thread does. *)
Definition act (a : action) (v : VSys) : option (VSys (V := Z)) :=
  let s := v_sys v in
  l ← rob s !! 0%nat; d ← done_sn s !! 0%nat; c ← v_committed v !! 0%nat;
  match a with
  | a_rename i =>
      o ← to_option (renameInst flatten 0 i (st s));
      r ← o.1;
      if decide (d < seqNum i ∧ Forall (λ q, inum q < seqNum i) l)
      then Some (mkVSys (mkSys o.2 (<[0%nat := l ++ [r]]> (rob s)) (done_sn s)) (v_vals v) (v_committed v)) else None
  | a_write k =>
      r ← l !! k;
      w ← to_option (writebackInst r (st s));
      xs ← to_option (read_all (fst <$> r_srcs r) (v_vals v));
      vals' ← to_option (write_all (renamedDest <$> r_dests r) (ex_exec (r_inst r) xs) (v_vals v));
      if decide (all_ready s (fst <$> r_srcs r))
      then Some (mkVSys (mkSys w.2 (<[0%nat := <[k := w.1]> l]> (rob s)) (done_sn s)) vals' (v_committed v)) else None
  | a_commit =>
      match l with
      | r :: l =>
          s' ← to_option (commitHead 0 r (st s));
          if decide (all_ready s (renamedDest <$> r_dests r))
          then Some (mkVSys (mkSys s' (<[0%nat := l]> (rob s)) (<[0%nat := inum r]> (done_sn s))) (v_vals v)
                      (<[0%nat := c ++ [r_inst r]]> (v_committed v))) else None
      | [] => None
      end
  | a_remove sn =>
      s' ← to_option (removeFromHistory sn 0 (st s));
      if decide (sn <= d) then Some (mkVSys (mkSys s' (rob s) (done_sn s)) (v_vals v) (v_committed v)) else None
  | a_squash sn =>
      s' ← to_option (doSquash sn 0 (st s));
      if decide (d <= sn)
      then Some (mkVSys (mkSys s' (<[0%nat := filter (λ r, inum r <= sn) l]> (rob s)) (done_sn s)) (v_vals v) (v_committed v))
      else None
  | a_release =>
      s' ← to_option (release_squashed false 0 (st s));
      Some (mkVSys (mkSys s' (rob s) (done_sn s)) (v_vals v) (v_committed v))
  end.

Fixpoint acts (l : list action) (v : VSys) : option VSys :=
  match l with
  | [] => Some v
  | a :: l => v ← act a v; acts l v
  end.

Lemma to_option_Some {A} (r : result A) a : to_option r = Some a → r = Ok a.
Proof. destruct r; simpl; congruence. Qed.

Definition plain_action (a : action) : Prop := match a with a_rename i => plain ex_exec i | _ => True end.

Lemma act_sound a v v' : plain_action a → act a v = Some v' → vstep ex_exec v v'.
Proof.
  intros Hp H. unfold act in H. destruct a; simplify_option_eq;
    try match goal with H : match ?l with _ => _ end = Some _ |- _ => destruct l; [done|]; simplify_option_eq end;
    repeat match goal with H : to_option _ = Some _ |- _ => apply to_option_Some in H end.
  - destruct H3 as [o s1]. simpl in *. subst o. match goal with H : _ < _ ∧ _ |- _ => destruct H as [? ?] end.
    apply (v_quiet _ v (l_rename 0 i)); [|exact Hp]. eapply step_rename; try done; [vm_compute; lia|apply Hp].
  - eapply v_writeback; [|done..]. match goal with H : Renamed * State |- _ => destruct H end. by eapply step_writeback.
  - eapply v_commit; [|done..]. by apply step_commit.
  - apply (v_quiet _ v (l_remove 0 sn)); [by eapply step_remove|done].
  - apply (v_quiet _ v (l_squash 0 sn)); [by eapply step_squash|done].
  - apply (v_quiet _ v (l_release 0 false)); [apply step_release; [vm_compute; lia|done]|done].
Qed.

Lemma acts_sound l v v' : Forall plain_action l → acts l v = Some v' → rtc (vstep ex_exec) v v'.
Proof.
  revert v. induction l as [|a l IH]; intros v Hp H; simpl in H; [by injection H as <-|].
  apply Forall_cons in Hp as [Ha Hp]. simplify_option_eq. eapply rtc_l; [by eapply act_sound|by apply IH].
Qed.

Lemma vsteps_reachable v v' : rtc (vstep ex_exec) v v' → reachable (v_sys v) (v_sys v').
Proof.
  intros H. induction H as [|a b c Hab _ IH]; [constructor|]. eapply rtc_l; [|exact IH].
  destruct Hab; by eexists.
Qed.

(** ** A run

    Instructions 1 and 2 and a wrong path, 3, are renamed.  The wrong path executes before
    instruction 2; the squash of 3 and the commit of 1 free registers, which 5 and 6 take. *)
Definition ex_actions : list action :=
  [a_rename (ex_inst 1 0 [0; 1]); a_rename (ex_inst 2 1 [0; 0]); a_write 0; a_rename (ex_inst 3 0 [0]); a_write 2;
   a_squash 2; a_release; a_commit; a_remove 1; a_rename (ex_inst 5 0 [1; 0]); a_rename (ex_inst 6 0 [0]); a_write 0;
   a_write 1; a_commit; a_commit; a_write 0; a_remove 5].
Definition ex_final : VSys := default (vstart ex_s0 0 ex_vals) (acts ex_actions (vstart ex_s0 0 ex_vals)).

Lemma ex_actions_plain : Forall plain_action ex_actions.
Proof.
  repeat (apply Forall_cons; split; [first [exact I|apply ex_plain; [lia|apply (bool_decide_unpack _); reflexivity]]|]).
  constructor.
Qed.

Lemma ex_run : rtc (vstep ex_exec) (vstart ex_s0 0 ex_vals) ex_final.
Proof. apply (acts_sound ex_actions); [apply ex_actions_plain|]. vm_compute. reflexivity. Qed.

Lemma registers_conserved_witness : CPU_new threads active rc counts = Ok ex_s0 ∧
  reachable (start ex_s0 0) (v_sys ex_final) ∧
  concat (freeList (st (v_sys ex_final))) ++ concat (freeingInProgress (st (v_sys ex_final))) ++
    concat (mapped <$> renameMap (st (v_sys ex_final))) ++ concat (replaceds <$> historyBuffer (st (v_sys ex_final)))
    ≡ₚ all_ids counts ∧
  length (concat (freeList (st (v_sys ex_final)))) = 2%nat.
Proof.
  assert (CPU_new threads active rc counts = Ok ex_s0) as H0 by (vm_compute; reflexivity).
  assert (reachable (start ex_s0 0) (v_sys ex_final)) as Hr by exact (vsteps_reachable _ _ ex_run).
  split; [exact H0|]. split; [exact Hr|]. split; [apply (registers_conserved ex_s0 0 _ H0 Hr)|].
  vm_compute. reflexivity.
Defined.

Lemma ex_initial_values : initial_values ex_σ0 (vstart ex_s0 0 ex_vals).
Proof.
  split; [done|]. intros t a Ht (Hr & n & Hn & Hi). assert (t = 0%nat) as -> by (change active with 1%nat in Ht; lia).
  destruct a as [c i pin]. unfold isRenameable in Hr. simpl in *. destruct c; try done; simpl in Hn;
    injection Hn as <-; try lia. assert (i = 0 ∨ i = 1) as [-> | ->] by lia; vm_compute; reflexivity.
Qed.

Lemma renaming_transparent_witness : initial_values ex_σ0 (vstart ex_s0 0 ex_vals) ∧
  rtc (vstep ex_exec) (vstart ex_s0 0 ex_vals) ex_final ∧
  getArchReg flatten (ex_reg 1) 0 (v_vals ex_final) (st (v_sys ex_final)) =
    Ok (foldl (seq_step ex_exec) (ex_σ0 0%nat) ex_program (flatten (ex_reg 1))) ∧
  getArchReg flatten (ex_reg 1) 0 (v_vals ex_final) (st (v_sys ex_final)) = Ok 64.
Proof.
  split; [exact ex_initial_values|]. split; [exact ex_run|]. split; [|vm_compute; reflexivity].
  apply (renaming_transparent ex_exec ex_σ0 ex_s0 0 ex_vals ex_final 0 ex_program (ex_reg 1)).
  - vm_compute. reflexivity.
  - exact ex_initial_values.
  - exact ex_run.
  - vm_compute. lia.
  - vm_compute. reflexivity.
  - by apply ex_valid.
Defined.

End RenameExample.
