(* ===== verification/MSHR.v ===== *)
(** * mem/cache/mshr: miss status holding registers

    An MSHR tracks one block that a cache waits for: the requests that the response will
    serve ([targets]), those that need another one ([deferredTargets]), and the snoops that
    arrived in between.

    Packets and MSHRs are shared through pointers: the heap has both, a pointer is an index.
    A sender state of a packet is an MSHR when its number is the index of one, so the MSHRs
    of the caches above are found as the code finds them. *)

From Stdlib Require Import ZArith Lia.
From stdpp Require Import base numbers option list.
From S2P Require Import Prelude Flags Packet PacketQueue.

Module MSHR.
Import Packet.

Inductive Source := FromCPU | FromSnoop | FromPrefetcher.

#[global] Instance Source_eq_dec : EqDecision Source.
Proof. solve_decision. Defined.

Record Target := mkTarget {
  recvTime : Z;
  t_readyTime : Z;
  t_order : Z;
  pkt : nat;
  source : Source;
  markedPending : bool;
  t_allocOnFill : bool
}.

Definition set_markedPending (b : bool) (t : Target) : Target :=
  mkTarget (recvTime t) (t_readyTime t) (t_order t) (pkt t) (source t) b (t_allocOnFill t).
Definition set_pkt (p : nat) (t : Target) : Target :=
  mkTarget (recvTime t) (t_readyTime t) (t_order t) p (source t) (markedPending t) (t_allocOnFill t).

Record TargetList := mkTargetList {
  list_of : list Target;
  tl_needsWritable : bool;
  hasUpgrade : bool;
  tl_allocOnFill : bool;
  tl_hasFromCache : bool;
  tl_blkSize : Z;
  canMergeWrites : bool;
  writesBitmap : list bool
}.

Definition TargetList_new : TargetList := mkTargetList [] false false false false 0 false [].

Definition set_list (l : list Target) (tl : TargetList) : TargetList :=
  mkTargetList l (tl_needsWritable tl) (hasUpgrade tl) (tl_allocOnFill tl) (tl_hasFromCache tl) (tl_blkSize tl)
    (canMergeWrites tl) (writesBitmap tl).
Definition set_needsWritable (b : bool) (tl : TargetList) : TargetList :=
  mkTargetList (list_of tl) b (hasUpgrade tl) (tl_allocOnFill tl) (tl_hasFromCache tl) (tl_blkSize tl)
    (canMergeWrites tl) (writesBitmap tl).
Definition set_hasUpgrade (b : bool) (tl : TargetList) : TargetList :=
  mkTargetList (list_of tl) (tl_needsWritable tl) b (tl_allocOnFill tl) (tl_hasFromCache tl) (tl_blkSize tl)
    (canMergeWrites tl) (writesBitmap tl).
Definition set_writes (c : bool) (w : list bool) (tl : TargetList) : TargetList :=
  mkTargetList (list_of tl) (tl_needsWritable tl) (hasUpgrade tl) (tl_allocOnFill tl) (tl_hasFromCache tl)
    (tl_blkSize tl) c w.

Record MSHR := mkMSHR {
  readyTime : Z;
  _isUncacheable : bool;
  inService : bool;
  order : Z;
  blkAddr : Z;
  blkSize : Z;
  isSecure : bool;
  downstreamPending : bool;
  pendingModified : bool;
  postInvalidate : bool;
  postDowngrade : bool;
  wasWholeLineWrite : bool;
  isForward : bool;
  targets : TargetList;
  deferredTargets : TargetList
}.

Definition MSHR_new : MSHR :=
  mkMSHR 0 false false 0 0 0 false false false false false false false TargetList_new TargetList_new.

Definition set_inService (b : bool) (m : MSHR) : MSHR :=
  mkMSHR (readyTime m) (_isUncacheable m) b (order m) (blkAddr m) (blkSize m) (isSecure m) (downstreamPending m)
    (pendingModified m) (postInvalidate m) (postDowngrade m) (wasWholeLineWrite m) (isForward m) (targets m) (deferredTargets m).
Definition set_downstreamPending (b : bool) (m : MSHR) : MSHR :=
  mkMSHR (readyTime m) (_isUncacheable m) (inService m) (order m) (blkAddr m) (blkSize m) (isSecure m) b
    (pendingModified m) (postInvalidate m) (postDowngrade m) (wasWholeLineWrite m) (isForward m) (targets m) (deferredTargets m).
Definition set_modes (pm pi pd w : bool) (m : MSHR) : MSHR :=
  mkMSHR (readyTime m) (_isUncacheable m) (inService m) (order m) (blkAddr m) (blkSize m) (isSecure m)
    (downstreamPending m) pm pi pd w (isForward m) (targets m) (deferredTargets m).
Definition set_isForward (b : bool) (m : MSHR) : MSHR :=
  mkMSHR (readyTime m) (_isUncacheable m) (inService m) (order m) (blkAddr m) (blkSize m) (isSecure m)
    (downstreamPending m) (pendingModified m) (postInvalidate m) (postDowngrade m) (wasWholeLineWrite m) b (targets m) (deferredTargets m).
Definition set_targets (tl : TargetList) (m : MSHR) : MSHR :=
  mkMSHR (readyTime m) (_isUncacheable m) (inService m) (order m) (blkAddr m) (blkSize m) (isSecure m)
    (downstreamPending m) (pendingModified m) (postInvalidate m) (postDowngrade m) (wasWholeLineWrite m) (isForward m) tl (deferredTargets m).
Definition set_deferred (tl : TargetList) (m : MSHR) : MSHR :=
  mkMSHR (readyTime m) (_isUncacheable m) (inService m) (order m) (blkAddr m) (blkSize m) (isSecure m)
    (downstreamPending m) (pendingModified m) (postInvalidate m) (postDowngrade m) (wasWholeLineWrite m) (isForward m) (targets m) tl.
Definition set_times (ready ord : Z) (m : MSHR) : MSHR :=
  mkMSHR ready (_isUncacheable m) (inService m) ord (blkAddr m) (blkSize m) (isSecure m)
    (downstreamPending m) (pendingModified m) (postInvalidate m) (postDowngrade m) (wasWholeLineWrite m) (isForward m) (targets m) (deferredTargets m).

Record Heap := mkHeap { packets : list Packet; mshrs : list MSHR }.

Definition get_pkt (h : Heap) (p : nat) : result Packet := deref (packets h !! p).
Definition set_packet (p : nat) (k : Packet) (h : Heap) : Heap := mkHeap (<[p := k]> (packets h)) (mshrs h).
Definition get_mshr (h : Heap) (m : nat) : result MSHR := deref (mshrs h !! m).
Definition set_mshr (m : nat) (x : MSHR) (h : Heap) : Heap := mkHeap (packets h) (<[m := x]> (mshrs h)).
Definition alloc_pkt (k : Packet) (h : Heap) : nat * Heap := (length (packets h), mkHeap (packets h ++ [k]) (mshrs h)).

(** pkt->findNextSenderState<MSHR>() *)
Definition findNextSenderState (h : Heap) (k : Packet) : option nat :=
  snd <$> list_find (λ s, (s < length (mshrs h))%nat) (senderState k).

(** ** Lists of targets *)

Definition isWholeLineWrite (tl : TargetList) : bool := forallb id (writesBitmap tl).

Definition resetFlags (tl : TargetList) : TargetList :=
  mkTargetList (list_of tl) false false false false (tl_blkSize tl) true (replicate (length (writesBitmap tl)) false).

(** vector::resize(n) *)
Definition resize (n : nat) (v : list bool) : list bool := take n v ++ replicate (n - length v) false.

Definition init (blk_size : Z) (tl : TargetList) : TargetList :=
  resetFlags (mkTargetList (list_of tl) (tl_needsWritable tl) (hasUpgrade tl) (tl_allocOnFill tl) (tl_hasFromCache tl)
    blk_size (canMergeWrites tl) (resize (Z.to_nat blk_size) (writesBitmap tl))).

Definition isReset (tl : TargetList) : bool :=
  negb (tl_needsWritable tl) && negb (hasUpgrade tl) && negb (tl_allocOnFill tl) && negb (tl_hasFromCache tl) &&
  canMergeWrites tl.

(** std::fill over [n] elements from [off]; past the end it is undefined. *)
Definition fill_true (off n : Z) (v : list bool) : result (list bool) :=
  if Z.of_nat (length v) <? off + n then Err Undefined
  else Ok (take (Z.to_nat off) v ++ replicate (Z.to_nat n) true ++ drop (Z.to_nat (off + n)) v).

Definition updateWriteFlags (k : Packet) (tl : TargetList) : result TargetList :=
  if isWholeLineWrite tl then Ok tl
  else if canMergeWrites tl then
    if negb (isWrite (cmd k)) then Ok (set_writes false (writesBitmap tl) tl)
    else
      let compat_write := negb (no_merge (req k)) in
      let first_write := bool_decide (list_of tl = []) in
      w ← (if negb (isMaskedWrite k) && (first_write || compat_write) then
             offset ← getOffset k (tl_blkSize tl);
             n ← getSize k;
             fill_true offset n (writesBitmap tl)
           else Ok (writesBitmap tl));
      Ok (set_writes compat_write w tl)
  else Ok tl.

Definition updateFlags (k : Packet) (src : Source) (alloc_on_fill : bool) (tl : TargetList) : result TargetList :=
  if bool_decide (src = FromSnoop) then Ok tl
  else
    nw ← needsWritable k;
    let tl := mkTargetList (list_of tl) (nw || tl_needsWritable tl)
                (isUpgrade (cmd k) || bool_decide (cmd k = StoreCondReq) || hasUpgrade tl)
                (tl_allocOnFill tl || alloc_on_fill) (tl_hasFromCache tl) (tl_blkSize tl) (canMergeWrites tl)
                (writesBitmap tl) in
    if bool_decide (src = FromPrefetcher) then Ok tl
    else
      updateWriteFlags k
        (mkTargetList (list_of tl) (tl_needsWritable tl) (hasUpgrade tl) (tl_allocOnFill tl)
           (tl_hasFromCache tl || fromCache (cmd k)) (tl_blkSize tl) (canMergeWrites tl) (writesBitmap tl)).

Fixpoint updateFlags_all (h : Heap) (l : list Target) (tl : TargetList) : result TargetList :=
  match l with
  | [] => Ok tl
  | t :: l => k ← get_pkt h (pkt t); tl ← updateFlags k (source t) (t_allocOnFill t) tl; updateFlags_all h l tl
  end.

Definition populateFlags (h : Heap) (tl : TargetList) : result TargetList :=
  updateFlags_all h (list_of tl) (resetFlags tl).

(** [curTick] is the time of the call; the MSHR that the packet came through, if any, is
    marked as waiting for this one. *)
Definition add (curTick : Z) (p : nat) (ready ord : Z) (src : Source) (markPending alloc_on_fill : bool)
    (tl : TargetList) (h : Heap) : result (TargetList * Heap) :=
  k ← get_pkt h p;
  tl ← updateFlags k src alloc_on_fill tl;
  '(markPending, h) ←
    (if markPending : bool then
       match findNextSenderState h k with
       | Some m =>
           x ← get_mshr h m;
           _ ← assert_ok (negb (downstreamPending x));
           Ok (true, set_mshr m (set_downstreamPending true x) h)
       | None => Ok (false, h)
       end
     else Ok (false, h));
  Ok (set_list (list_of tl ++ [mkTarget curTick ready ord p src markPending alloc_on_fill]) tl, h).

Definition replaceUpgrade (p : nat) (h : Heap) : result Heap :=
  k ← get_pkt h p;
  let has_data := hasData (cmd k) || hasRespData k in
  let k := match cmd k with
           | UpgradeReq => with_cmd k ReadExReq
           | SCUpgradeReq => with_cmd k SCUpgradeFailReq
           | StoreCondReq => with_cmd k StoreCondFailReq
           | _ => k
           end in
  if has_data then Ok (set_packet p k h)
  else
    _ ← assert_ok (negb (hasData (cmd k)));
    if hasRespData k then k ← allocate k; Ok (set_packet p k h) else Ok (set_packet p k h).

Fixpoint replaceUpgrade_all (l : list Target) (h : Heap) : result Heap :=
  match l with
  | [] => Ok h
  | t :: l => h ← replaceUpgrade (pkt t) h; replaceUpgrade_all l h
  end.

Definition replaceUpgrades (tl : TargetList) (h : Heap) : result (TargetList * Heap) :=
  if negb (hasUpgrade tl) then Ok (tl, h)
  else h ← replaceUpgrade_all (list_of tl) h; Ok (set_hasUpgrade false tl, h).

(** [clear m] is the method of the MSHR [m]. *)
Fixpoint clear_list (clear : nat → Heap → result Heap) (l : list Target) (h : Heap) : result Heap :=
  match l with
  | [] => Ok h
  | t :: l =>
      h ← (if markedPending t then
             k ← get_pkt h (pkt t);
             match findNextSenderState h k with Some m => clear m h | None => Ok h end
           else Ok h);
      clear_list clear l h
  end.

(** The loop clears [markedPending] of each target.  A call that came back to an MSHR whose
    list is being cleared would fail the assertion of [clearDownstreamPending], so clearing
    them when the loop ends is the same. *)
Fixpoint clearDownstreamPending (fuel : nat) (m : nat) (h : Heap) : result Heap :=
  match fuel with
  | O => Err OutOfFuel
  | S fuel =>
      x ← get_mshr h m;
      _ ← assert_ok (downstreamPending x);
      let h := set_mshr m (set_downstreamPending false x) h in
      h ← clear_list (clearDownstreamPending fuel) (list_of (targets x)) h;
      x ← get_mshr h m;
      Ok (set_mshr m (set_targets (set_list (set_markedPending false <$> list_of (targets x)) (targets x)) x) h)
  end.

(** Each call clears the flag of one MSHR. *)
Definition clear_fuel (h : Heap) : nat := S (length (mshrs h)).

Definition tl_clearDownstreamPending (l : list Target) (h : Heap) : result (list Target * Heap) :=
  h ← clear_list (clearDownstreamPending (clear_fuel h)) l h; Ok (set_markedPending false <$> l, h).

(** ** The MSHR *)

Definition needsWritable (m : MSHR) : bool := tl_needsWritable (targets m).
Definition allocOnFill (m : MSHR) : bool := tl_allocOnFill (targets m).
Definition hasFromCache (m : MSHR) : bool := tl_hasFromCache (targets m).
Definition m_isWholeLineWrite (m : MSHR) : bool := isWholeLineWrite (targets m).
Definition hasTargets (m : MSHR) : bool := negb (bool_decide (list_of (targets m) = [])).
Definition getNumTargets (m : MSHR) : Z :=
  Z.of_nat (length (list_of (targets m)) + length (list_of (deferredTargets m))).
Definition front (tl : TargetList) : result Target := deref (head (list_of tl)).
Definition getTarget (m : MSHR) : result Target := _ ← assert_ok (hasTargets m); front (targets m).
Definition isPendingModified (m : MSHR) : result bool := _ ← assert_ok (inService m); Ok (pendingModified m).
Definition hasPostInvalidate (m : MSHR) : result bool := _ ← assert_ok (inService m); Ok (postInvalidate m).
Definition hasPostDowngrade (m : MSHR) : result bool := _ ← assert_ok (inService m); Ok (postDowngrade m).
Definition isCleaning (m : MSHR) (h : Heap) : result bool :=
  t ← front (targets m); k ← get_pkt h (pkt t); Ok (isClean (cmd k)).

(** [this] is the pointer to the MSHR; between the fields of the object and the heap only
    [downstreamPending] of another MSHR changes. *)
Definition upd (this : nat) (f : MSHR → MSHR) (h : Heap) : result Heap :=
  x ← get_mshr h this; Ok (set_mshr this (f x) h).

Definition allocate (curTick : Z) (this : nat) (blk_addr blk_size : Z) (target : nat) (when_ready _order : Z)
    (alloc_on_fill : bool) (h : Heap) : result Heap :=
  x ← get_mshr h this;
  k ← get_pkt h target;
  sec ← Packet.isSecure k;
  let h := set_mshr this
    (mkMSHR when_ready (isUncacheable (req k)) false _order blk_addr blk_size sec false (pendingModified x)
       (postInvalidate x) (postDowngrade x) false false (init blk_size (targets x)) (init blk_size (deferredTargets x))) h in
  let src := if bool_decide (cmd k = HardPFReq) then FromPrefetcher else FromCPU in
  '(tl, h) ← add curTick target when_ready _order src true alloc_on_fill (init blk_size (targets x)) h;
  h ← upd this (set_targets tl) h;
  t ← front tl;
  k0 ← get_pkt h (pkt t);
  b ← PacketQueue.matchBlockAddr_pkt k k0 blk_size;
  _ ← assert_ok b;
  Ok h.

Definition markInService (this : nat) (pending_modified_resp : bool) (h : Heap) : result Heap :=
  x ← get_mshr h this;
  _ ← assert_ok (negb (inService x));
  let x := set_modes (needsWritable x || pending_modified_resp) false false (wasWholeLineWrite x) (set_inService true x) in
  let h := set_mshr this x h in
  h ← (if negb (downstreamPending x) then
         '(l, h) ← tl_clearDownstreamPending (list_of (targets x)) h;
         upd this (λ x, set_targets (set_list l (targets x)) x) h
       else Ok h);
  upd this (λ x, set_modes (pendingModified x) (postInvalidate x) (postDowngrade x) (m_isWholeLineWrite x) x) h.

Definition deallocate (this : nat) (h : Heap) : result Heap :=
  x ← get_mshr h this;
  _ ← assert_ok (bool_decide (list_of (targets x) = []));
  _ ← assert_ok (isReset (deferredTargets x));
  Ok (set_mshr this (set_inService false (set_targets (resetFlags (targets x)) x)) h).

(** The condition under which a request has to wait for another response. *)
Definition mustDefer (m : MSHR) (k tgt_pkt : Packet) : result bool :=
  if isCacheMaintenance (req k) || isCacheMaintenance (req tgt_pkt) ||
     negb (bool_decide (list_of (deferredTargets m) = []))
  then Ok true
  else if inService m then
    if postInvalidate m then Ok true
    else nw ← Packet.needsWritable k; Ok (nw && (negb (pendingModified m) || postDowngrade m || isForward m))
  else Ok false.

Definition allocateTarget (curTick : Z) (this : nat) (p : nat) (whenReady _order : Z) (alloc_on_fill : bool)
    (h : Heap) : result Heap :=
  x ← get_mshr h this;
  k ← get_pkt h p;
  _ ← assert_ok (negb (bool_decide (cmd k = HardPFReq)));
  t ← front (targets x);
  tgt_pkt ← get_pkt h (pkt t);
  defer ← mustDefer x k tgt_pkt;
  if defer : bool then
    h ← (if inService x && postInvalidate x then replaceUpgrade p h else Ok h);
    '(tl, h) ← add curTick p whenReady _order FromCPU true alloc_on_fill (deferredTargets x) h;
    upd this (set_deferred tl) h
  else
    '(tl, h) ← add curTick p whenReady _order FromCPU (negb (inService x)) alloc_on_fill (targets x) h;
    upd this (set_targets tl) h.

(** Packet(req, cmd, blkSize, id) *)
Definition Packet_blk (r : Request) (c : Command) (blk_size : Z) : Packet :=
  let '(a, sec, f) := match paddr r with
    | Some a => (a .& unot 64 (u32 (blk_size - 1)), req_isSecure r, Flags.set 0 VALID_ADDR) | None => (0, false, 0) end in
  mkPacket c (Flags.set f VALID_SIZE) r [] a sec blk_size [] NO_FAIL 0 [].

(** The answer, and the heap, in which flags of the snoop packet may be set. *)
Definition handleSnoop (curTick : Z) (this : nat) (p : nat) (_order : Z) (h : Heap) : result (bool * Heap) :=
  x ← get_mshr h this;
  k ← get_pkt h p;
  nw ← Packet.needsWritable k;
  let inval := isInvalidate (cmd k) in
  _ ← panic_if (negb (eqb nw inval) && negb (isCacheMaintenance (req k)));
  let dirty := nw || isCacheInvalidate (req k) in
  if negb (inService x) || (isExpressSnoop k && downstreamPending x) then
    h ← (if dirty : bool then
           '(tl, h) ← replaceUpgrades (targets x) h;
           '(dl, h) ← replaceUpgrades (deferredTargets x) h;
           upd this (λ x, set_deferred dl (set_targets tl x)) h
         else Ok h);
    Ok (false, h)
  else
    h ← (if dirty : bool then
           '(dl, h) ← replaceUpgrades (deferredTargets x) h; upd this (set_deferred dl) h
         else Ok h);
    t ← front (targets x);
    tgt_pkt ← get_pkt h (pkt t);
    if postInvalidate x || isCacheInvalidate (req tgt_pkt) then Ok (true, h)
    else
      let will_respond := pendingModified x && needsResponse (cmd k) && negb (isClean (cmd k)) in
      h ← (if pendingModified x || inval then
             k ← get_pkt h p;
             cp ← (if will_respond then Packet_copy k true true else Ok (Packet_blk (req k) (cmd k) (blkSize x)));
             let '(cp_pkt, h) := alloc_pkt cp h in
             k ← (if will_respond then k ← setCacheResponding k; setResponderHadWritable k
                  else if pendingModified x && isClean (cmd k) then setSatisfied k else Ok k);
             let h := set_packet p k h in
             '(tl, h) ← add curTick cp_pkt curTick _order FromSnoop (downstreamPending x && needsWritable x) false (targets x) h;
             upd this (λ x, set_modes (pendingModified x) (if nw || inval then true else postInvalidate x)
                              (postDowngrade x) (wasWholeLineWrite x) (set_targets tl x)) h
           else Ok h);
      if negb nw && negb (isUncacheable (req k)) then
        h ← upd this (λ x, set_modes (pendingModified x) (postInvalidate x) true (wasWholeLineWrite x) x) h;
        k ← get_pkt h p;
        Ok (will_respond, set_packet p (setHasSharers k) h)
      else Ok (will_respond, h).

(** The loops of extractServiceableTargets: what is taken and what stays. *)
Fixpoint take_snoops (l : list Target) : result (list Target * list Target) :=
  match l with
  | [] => Ok ([], [])
  | t :: l =>
      if bool_decide (source t = FromCPU) then '(a, b) ← take_snoops l; Ok (a, t :: b)
      else _ ← assert_ok (bool_decide (source t = FromSnoop)); '(a, b) ← take_snoops l; Ok (t :: a, b)
  end.

Fixpoint take_to_locked (h : Heap) (l : list Target) : result (list Target * list Target) :=
  match l with
  | [] => Ok ([], [])
  | t :: l' =>
      k ← get_pkt h (pkt t);
      if bool_decide (cmd k = LockedRMWReadReq) then Ok ([t], l)
      else '(a, b) ← take_to_locked h l'; Ok (t :: a, b)
  end.

Definition extractServiceableTargets (this : nat) (k : Packet) (h : Heap) : result (TargetList * Heap) :=
  x ← get_mshr h this;
  let ready_targets := init (blkSize x) TargetList_new in
  '(a, b) ←
    (if bool_decide (cmd k = ReadRespWithInvalidate) then
       match list_of (targets x) with
       | [] => Err Undefined
       | t :: l =>
           _ ← assert_ok (bool_decide (source t = FromCPU) || bool_decide (source t = FromPrefetcher));
           k0 ← get_pkt h (pkt t);
           if bool_decide (cmd k0 = LockedRMWReadReq) then Ok ([t], t :: l)
           else '(a, b) ← take_snoops l; Ok (t :: a, b)
       end
     else take_to_locked h (list_of (targets x)));
  ready_targets ← populateFlags h (set_list a ready_targets);
  tl ← populateFlags h (set_list b (targets x));
  Ok (ready_targets, set_mshr this (set_targets tl x) h).

(** The position where [p] first holds, and the list before and from there. *)
Fixpoint find_split (p : Target → result bool) (l : list Target) : result (list Target * list Target) :=
  match l with
  | [] => Ok ([], [])
  | t :: l' => b ← p t; if b : bool then Ok ([], l) else '(a, c) ← find_split p l'; Ok (t :: a, c)
  end.

Definition isMaintenance (h : Heap) (t : Target) : result bool := k ← get_pkt h (pkt t); Ok (isCacheMaintenance (req k)).

Definition promoteDeferredTargets (curTick : Z) (this : nat) (h : Heap) : result (bool * Heap) :=
  x ← get_mshr h this;
  let tl := list_of (targets x) in
  let dl := list_of (deferredTargets x) in
  if bool_decide (tl = []) && bool_decide (dl = []) then Ok (false, h)
  else
    '(before, from_it) ← find_split (isMaintenance h) dl;
    let '(tl, dl) :=
      match before with
      | [] => match tl, from_it with
              | [], t :: rest => ([t], rest)
              | _, _ => (tl, dl)
              end
      | _ => (tl ++ before, from_it)
      end in
    dt ← populateFlags h (set_list dl (deferredTargets x));
    tt ← populateFlags h (set_list tl (targets x));
    t ← front tt;
    Ok (true, set_mshr this (set_times (Z.max curTick (t_readyTime t)) (t_order t)
                               (set_deferred dt (set_targets tt x))) h).

(** Promotes up to the first deferred target on which [pred] does not hold. *)
Definition promoteIf (this : nat) (pred : Target → result bool) (h : Heap) : result Heap :=
  x ← get_mshr h this;
  _ ← assert_ok (negb (downstreamPending x));
  '(before, rest) ← find_split (λ t, b ← pred t; Ok (negb b)) (list_of (deferredTargets x));
  '(before, h) ← tl_clearDownstreamPending before h;
  dt ← populateFlags h (set_list rest (deferredTargets x));
  upd this (λ x, set_deferred dt (set_targets (set_list (list_of (targets x) ++ before) (targets x)) x)) h.

Definition pred_readable (h : Heap) (t : Target) : result bool :=
  _ ← assert_ok (bool_decide (source t = FromCPU));
  k ← get_pkt h (pkt t);
  if isCacheInvalidate (req k) then Ok false else nw ← Packet.needsWritable k; Ok (negb nw).

Definition promoteReadable (this : nat) (h : Heap) : result Heap :=
  x ← get_mshr h this;
  if bool_decide (list_of (deferredTargets x) = []) then Ok h
  else pi ← hasPostInvalidate x; if pi : bool then Ok h else promoteIf this (pred_readable h) h.

Definition pred_writable (h : Heap) (t : Target) : result bool :=
  _ ← assert_ok (bool_decide (source t = FromCPU));
  k ← get_pkt h (pkt t);
  Ok (negb (isCacheInvalidate (req k))).

Definition promoteWritable (this : nat) (h : Heap) : result Heap :=
  x ← get_mshr h this;
  match list_of (deferredTargets x) with
  | [] => Ok h
  | t :: _ =>
      def_tgt_pkt ← get_pkt h (pkt t);
      if tl_needsWritable (deferredTargets x) then
        pi ← hasPostInvalidate x;
        pd ← hasPostDowngrade x;
        if negb (pi || pd) && negb (isCacheInvalidate (req def_tgt_pkt)) then
          _ ← assert_ok (negb (needsWritable x));
          h ← upd this (λ x, set_targets (set_needsWritable true (targets x)) x) h;
          promoteIf this (pred_writable h) h
        else Ok h
      else Ok h
  end.

Definition popTarget (this : nat) (h : Heap) : result Heap :=
  x ← get_mshr h this;
  match list_of (targets x) with
  | [] => Err Undefined
  | _ :: l => Ok (set_mshr this (set_targets (set_list l (targets x)) x) h)
  end.

(** The dummy packet is a copy of the request that a response was made of. *)
Definition updateLockedRMWReadTarget (this : nat) (p : nat) (h : Heap) : result Heap :=
  x ← get_mshr h this;
  match list_of (targets x) with
  | [] => Err AssertFailed
  | t :: l =>
      _ ← assert_ok (bool_decide (pkt t = p));
      k ← get_pkt h p;
      d ← Packet_new (req k) LockedRMWReadReq;
      let '(q, h) := alloc_pkt d h in
      upd this (set_targets (set_list (set_pkt q t :: l) (targets x))) h
  end.

Definition hasLockedRMWReadTarget (m : MSHR) (h : Heap) : result bool :=
  match list_of (targets m) with
  | [] => Ok false
  | t :: _ => k ← get_pkt h (pkt t); Ok (bool_decide (cmd k = LockedRMWReadReq))
  end.

Definition m_matchBlockAddr (m : MSHR) (addr : Z) (is_secure : bool) : result bool :=
  _ ← assert_ok (hasTargets m); Ok ((blkAddr m =? addr) && eqb (isSecure m) is_secure).
Definition m_matchBlockAddr_pkt (m : MSHR) (k : Packet) : result bool :=
  _ ← assert_ok (hasTargets m); matchBlockAddr k (blkAddr m) (isSecure m) (blkSize m).

(** A functional access is tried on each target, and changes the packets. *)
Fixpoint tl_trySatisfyFunctional (p : Packet) (l : list Target) (h : Heap) : result (bool * Packet * Heap) :=
  match l with
  | [] => Ok (false, p, h)
  | t :: l =>
      k ← get_pkt h (pkt t);
      '(found, p, k) ← PacketQueue.trySatisfyFunctional_pkt p k;
      let h := set_packet (pkt t) k h in
      if found : bool then Ok (true, p, h) else tl_trySatisfyFunctional p l h
  end.

Definition trySatisfyFunctional (this : nat) (p : Packet) (h : Heap) : result (bool * Packet * Heap) :=
  x ← get_mshr h this;
  if isPrint (cmd p) then
    '(_, p, _) ← Packet.trySatisfyFunctional p (blkAddr x) (isSecure x) (blkSize x) None; Ok (false, p, h)
  else
    '(found, p, h) ← tl_trySatisfyFunctional p (list_of (targets x)) h;
    if found : bool then Ok (true, p, h) else tl_trySatisfyFunctional p (list_of (deferredTargets x)) h.

(** The MSHR is not sent before the delay has passed. *)
Definition delay (curTick delay_ticks : Z) (m : MSHR) : result MSHR :=
  _ ← assert_ok (readyTime m <=? curTick); Ok (set_times (curTick + delay_ticks) (order m) m).

End MSHR.
