(* ===== verification/MSHRQueue.v ===== *)
(** * mem/cache/queue.hh, mshr_queue, write_queue: the queues of a cache

    [Queue] is the template over the entries: what it asks of an entry is the class
    [QueueEntry].  The entries of a queue are some of a list of entries; its own lists have
    indices into that list, and the iterator that an entry keeps is its index.  [MSHRQueue]
    and [WriteQueue] are the instances of the template. *)

From Stdlib Require Import ZArith Lia.
From stdpp Require Import base numbers option list.
From S2P Require Import Prelude Packet PacketQueue MSHR.

Module MSHRQueue.
Import Packet MSHR.

(** ** The interface of an entry *)

Class QueueEntry (E : Type) := {
  q_readyTime : E → Z;
  q_isUncacheable : E → bool;
  q_inService : E → bool;
  q_order : E → Z;
  q_blkAddr : E → Z;
  q_isSecure : E → bool;
  q_hasTargets : E → bool
}.

Section Entry.
Context {E : Type} `{QueueEntry E}.

Definition q_matchBlockAddr (e : E) (addr : Z) (is_secure : bool) : result bool :=
  _ ← assert_ok (q_hasTargets e); Ok ((q_blkAddr e =? addr) && eqb (q_isSecure e) is_secure).

End Entry.

(** [e->conflictAddr(f)] *)
Definition conflictAddr {E F} `{QueueEntry E, QueueEntry F} (e : E) (f : F) : result bool :=
  _ ← assert_ok (q_hasTargets e); q_matchBlockAddr f (q_blkAddr e) (q_isSecure e).

(** ** The template *)

Record Queue := mkQueue {
  numEntries : Z;
  numReserve : Z;
  allocatedList : list nat;
  readyList : list nat;
  freeList : list nat;
  numInService : Z;
  allocated : Z
}.

Definition Queue_new (base num_entries reserve : nat) : Queue :=
  mkQueue (Z.of_nat (num_entries + reserve)) (Z.of_nat reserve) [] [] (seq base (num_entries + reserve)) 0 0.

Definition set_readyList (l : list nat) (q : Queue) : Queue :=
  mkQueue (numEntries q) (numReserve q) (allocatedList q) l (freeList q) (numInService q) (allocated q).
Definition set_numInService (n : Z) (q : Queue) : Queue :=
  mkQueue (numEntries q) (numReserve q) (allocatedList q) (readyList q) (freeList q) n (allocated q).

(** list::erase of the node that an iterator points to; the iterator of an index that is not
    on the list points nowhere. *)
Fixpoint erase (i : nat) (l : list nat) : result (list nat) :=
  match l with
  | [] => Err Undefined
  | j :: l => if decide (i = j) then Ok l else l ← erase i l; Ok (j :: l)
  end.

Definition isEmpty (q : Queue) : bool := allocated q =? 0.
Definition isFull (q : Queue) : bool := numEntries q - numReserve q <=? allocated q.

Definition MaxTick : Z := 2 ^ 64 - 1.

Section Template.
Context {E : Type} `{QueueEntry E} (es : list E).

Fixpoint insert_ready (t : Z) (i : nat) (l : list nat) : result (list nat) :=
  match l with
  | [] => Err Panic
  | j :: l' => e ← deref (es !! j); if t <? q_readyTime e then Ok (i :: l) else l' ← insert_ready t i l'; Ok (j :: l')
  end.

Definition addToReadyList (i : nat) (q : Queue) : result Queue :=
  e ← deref (es !! i);
  match last (readyList q) with
  | None => Ok (set_readyList [i] q)
  | Some b =>
      eb ← deref (es !! b);
      if q_readyTime eb <=? q_readyTime e then Ok (set_readyList (readyList q ++ [i]) q)
      else l ← insert_ready (q_readyTime e) i (readyList q); Ok (set_readyList l q)
  end.

Fixpoint find_entry (p : E → result bool) (l : list nat) : result (option nat) :=
  match l with
  | [] => Ok None
  | i :: l => e ← deref (es !! i); b ← p e; if b : bool then Ok (Some i) else find_entry p l
  end.

Definition findMatch (blk_addr : Z) (is_secure ignore_uncacheable : bool) (q : Queue) : result (option nat) :=
  find_entry (λ e, if ignore_uncacheable && q_isUncacheable e then Ok false else q_matchBlockAddr e blk_addr is_secure)
    (allocatedList q).

(** The pending entry for the block of an entry, of this queue or the other. *)
Definition findPending {F} `{QueueEntry F} (f : F) (q : Queue) : result (option nat) :=
  find_entry (λ e, conflictAddr e f) (readyList q).

Definition getNext (curTick : Z) (q : Queue) : result (option nat) :=
  match readyList q with
  | [] => Ok None
  | i :: _ => e ← deref (es !! i); Ok (if curTick <? q_readyTime e then None else Some i)
  end.

Definition nextReadyTime (q : Queue) : result Z :=
  match readyList q with [] => Ok MaxTick | i :: _ => e ← deref (es !! i); Ok (q_readyTime e) end.

(** [allocate] and [deallocate] of a queue, around those of the entry. *)
Definition take_free (q : Queue) : result nat := match freeList q with [] => Err AssertFailed | i :: _ => Ok i end.
Definition pop_free (i : nat) (q : Queue) : Queue :=
  mkQueue (numEntries q) (numReserve q) (allocatedList q ++ [i]) (readyList q) (tail (freeList q)) (numInService q)
    (allocated q).
Definition count_allocated (q : Queue) : Queue :=
  mkQueue (numEntries q) (numReserve q) (allocatedList q) (readyList q) (freeList q) (numInService q) (allocated q + 1).

Definition release (i : nat) (q : Queue) : result Queue :=
  e ← deref (es !! i);
  al ← erase i (allocatedList q);
  let q := mkQueue (numEntries q) (numReserve q) al (readyList q) (i :: freeList q) (numInService q) (allocated q - 1) in
  if q_inService e then Ok (set_numInService (numInService q - 1) q)
  else l ← erase i (readyList q); Ok (set_readyList l q).

End Template.

(** Whether a queue that drains tells so when it deallocates an entry. *)
Definition drain_done (draining : bool) (q : Queue) : bool := draining && (allocated q =? 0).
Definition drain (q : Queue) : bool := allocated q =? 0.

(** trySatisfyFunctional: [m] is the entry's matchBlockAddr, [f] its trySatisfyFunctional. *)
Fixpoint try_entries {S} (m : nat → Packet → S → result bool) (f : nat → Packet → S → result (bool * Packet * S))
    (l : list nat) (p : Packet) (s : S) : result (bool * Packet * S) :=
  match l with
  | [] => Ok (false, p, s)
  | i :: l =>
      b ← m i p s;
      if b : bool then
        '(found, p, s) ← f i p s; if found : bool then Ok (true, p, s) else try_entries m f l p s
      else try_entries m f l p s
  end.

(** ** The queue of MSHRs *)

#[global] Instance MSHR_entry : QueueEntry MSHR := {
  q_readyTime := MSHR.readyTime;
  q_isUncacheable := MSHR._isUncacheable;
  q_inService := MSHR.inService;
  q_order := MSHR.order;
  q_blkAddr := MSHR.blkAddr;
  q_isSecure := MSHR.isSecure;
  q_hasTargets := MSHR.hasTargets
}.

Definition mq_allocate (curTick blk_addr blk_size : Z) (p : nat) (when_ready ord : Z) (alloc_on_fill : bool)
    (h : Heap) (q : Queue) : result (nat * Heap * Queue) :=
  i ← take_free q;
  x ← get_mshr h i;
  _ ← assert_ok (getNumTargets x =? 0);
  let q := pop_free i q in
  h ← MSHR.allocate curTick i blk_addr blk_size p when_ready ord alloc_on_fill h;
  q ← addToReadyList (mshrs h) i q;
  Ok (i, h, count_allocated q).

Definition mq_deallocate (i : nat) (h : Heap) (q : Queue) : result (Heap * Queue) :=
  q ← release (mshrs h) i q;
  h ← MSHR.deallocate i h;
  Ok (h, q).

Definition moveToFront (i : nat) (h : Heap) (q : Queue) : result Queue :=
  x ← get_mshr h i;
  if negb (inService x) then l ← erase i (readyList q); Ok (set_readyList (i :: l) q) else Ok q.

(** [from i l]: the nodes from the iterator of [i] on. *)
Fixpoint from (i : nat) (l : list nat) : result (list nat) :=
  match l with
  | [] => Err Undefined
  | j :: l' => if decide (i = j) then Ok l else from i l'
  end.

(** list::splice of one node before another, or to the end. *)
Fixpoint insert_before (i : nat) (it : option nat) (l : list nat) : list nat :=
  match l with
  | [] => [i]
  | j :: l' => if decide (it = Some j) then i :: l else j :: insert_before i it l'
  end.
Definition splice (it : option nat) (i : nat) (l : list nat) : result (list nat) :=
  if decide (it = Some i) then Ok l else l ← erase i l; Ok (insert_before i it l).

Definition mq_delay (curTick : Z) (i : nat) (delay_ticks : Z) (h : Heap) (q : Queue) : result (Heap * Queue) :=
  x ← get_mshr h i;
  x ← MSHR.delay curTick delay_ticks x;
  let h := set_mshr i x h in
  s ← from i (readyList q);
  it ← find_entry (mshrs h) (λ y, Ok (readyTime y <=? readyTime x)) s;
  l ← splice it i (readyList q);
  Ok (h, set_readyList l q).

Definition mq_markInService (i : nat) (pending_modified_resp : bool) (h : Heap) (q : Queue) : result (Heap * Queue) :=
  h ← MSHR.markInService i pending_modified_resp h;
  l ← erase i (readyList q);
  Ok (h, set_numInService (numInService q + 1) (set_readyList l q)).

Definition markPending (i : nat) (h : Heap) (q : Queue) : result (Heap * Queue) :=
  x ← get_mshr h i;
  _ ← assert_ok (inService x);
  let h := set_mshr i (set_inService false x) h in
  q ← addToReadyList (mshrs h) i (set_numInService (numInService q - 1) q);
  Ok (h, q).

(** Whether the queue was full and is not any more. *)
Definition forceDeallocateTarget (curTick : Z) (i : nat) (h : Heap) (q : Queue) : result (bool * Heap * Queue) :=
  let was_full := isFull q in
  x ← get_mshr h i;
  _ ← assert_ok (hasTargets x);
  h ← popTarget i h;
  x ← get_mshr h i;
  '(h, q) ←
    (if hasTargets x then Ok (h, q)
     else '(b, h) ← promoteDeferredTargets curTick i h; if b : bool then Ok (h, q) else mq_deallocate i h q);
  Ok (was_full && negb (isFull q), h, q).

Definition havePending (q : Queue) : bool := negb (bool_decide (readyList q = [])).
Definition canPrefetch (demandReserve : Z) (q : Queue) : bool :=
  allocated q <? numEntries q - (numReserve q + 1 + demandReserve).

Definition mq_trySatisfyFunctional (p : Packet) (h : Heap) (q : Queue) : result (bool * Packet * Heap) :=
  try_entries (λ i p h, x ← get_mshr h i; m_matchBlockAddr_pkt x p) MSHR.trySatisfyFunctional (allocatedList q) p h.

(** ** The write queue *)

Record WTarget := mkWTarget { w_recvTime : Z; w_readyTime : Z; w_order : Z; w_pkt : nat }.

Record WriteQueueEntry := mkWQE {
  we_readyTime : Z;
  we_isUncacheable : bool;
  we_inService : bool;
  we_order : Z;
  we_blkAddr : Z;
  we_blkSize : Z;
  we_isSecure : bool;
  we_targets : list WTarget
}.

Definition WriteQueueEntry_new : WriteQueueEntry := mkWQE 0 false false 0 0 0 false [].

Definition we_hasTargets (e : WriteQueueEntry) : bool := negb (bool_decide (we_targets e = [])).
Definition set_we_targets (l : list WTarget) (e : WriteQueueEntry) : WriteQueueEntry :=
  mkWQE (we_readyTime e) (we_isUncacheable e) (we_inService e) (we_order e) (we_blkAddr e) (we_blkSize e) (we_isSecure e) l.

#[global] Instance WriteQueueEntry_entry : QueueEntry WriteQueueEntry := {
  q_readyTime := we_readyTime;
  q_isUncacheable := we_isUncacheable;
  q_inService := we_inService;
  q_order := we_order;
  q_blkAddr := we_blkAddr;
  q_isSecure := we_isSecure;
  q_hasTargets := we_hasTargets
}.

Definition we_allocate (curTick blk_addr blk_size : Z) (target : nat) (when_ready _order : Z) (h : Heap)
    (e : WriteQueueEntry) : result WriteQueueEntry :=
  k ← get_pkt h target;
  sec ← Packet.isSecure k;
  let unc := isUncacheable (req k) in
  _ ← panic_if (negb unc && negb (bool_decide (we_targets e = [])));
  _ ← panic_if (negb ((isWrite (cmd k) && unc) || (isEviction (cmd k) && negb unc) || bool_decide (cmd k = WriteClean)));
  let l := we_targets e ++ [mkWTarget curTick when_ready _order target] in
  t ← deref (head l);
  k0 ← get_pkt h (w_pkt t);
  b ← PacketQueue.matchBlockAddr_pkt k k0 blk_size;
  _ ← assert_ok b;
  Ok (mkWQE when_ready unc false _order blk_addr blk_size sec l).

Definition we_deallocate (e : WriteQueueEntry) : result WriteQueueEntry :=
  _ ← assert_ok (bool_decide (we_targets e = []));
  Ok (mkWQE (we_readyTime e) (we_isUncacheable e) false (we_order e) (we_blkAddr e) (we_blkSize e) (we_isSecure e)
        (we_targets e)).

Definition we_popTarget (e : WriteQueueEntry) : result WriteQueueEntry :=
  match we_targets e with [] => Err Undefined | _ :: l => Ok (set_we_targets l e) end.

Fixpoint we_try (p : Packet) (l : list WTarget) (h : Heap) : result (bool * Packet * Heap) :=
  match l with
  | [] => Ok (false, p, h)
  | t :: l =>
      k ← get_pkt h (w_pkt t);
      '(found, p, k) ← PacketQueue.trySatisfyFunctional_pkt p k;
      let h := set_packet (w_pkt t) k h in
      if found : bool then Ok (true, p, h) else we_try p l h
  end.

Definition we_trySatisfyFunctional (e : WriteQueueEntry) (p : Packet) (h : Heap) : result (bool * Packet * Heap) :=
  if isPrint (cmd p) then
    '(_, p, _) ← Packet.trySatisfyFunctional p (we_blkAddr e) (we_isSecure e) (we_blkSize e) None; Ok (false, p, h)
  else we_try p (we_targets e) h.

Definition wq_allocate (curTick blk_addr blk_size : Z) (p : nat) (when_ready ord : Z) (h : Heap)
    (es : list WriteQueueEntry) (q : Queue) : result (nat * list WriteQueueEntry * Queue) :=
  i ← take_free q;
  e ← deref (es !! i);
  _ ← assert_ok (bool_decide (we_targets e = []));
  let q := pop_free i q in
  e ← we_allocate curTick blk_addr blk_size p when_ready ord h e;
  let es := <[i := e]> es in
  q ← addToReadyList es i q;
  Ok (i, es, count_allocated q).

Definition wq_deallocate (i : nat) (es : list WriteQueueEntry) (q : Queue) : result (list WriteQueueEntry * Queue) :=
  q ← release es i q;
  e ← deref (es !! i);
  e ← we_deallocate e;
  Ok (<[i := e]> es, q).

(** A write that was sent leaves the queue at once. *)
Definition wq_markInService (i : nat) (es : list WriteQueueEntry) (q : Queue) : result (list WriteQueueEntry * Queue) :=
  e ← deref (es !! i);
  e ← we_popTarget e;
  wq_deallocate i (<[i := e]> es) q.

Definition wq_trySatisfyFunctional (p : Packet) (h : Heap) (es : list WriteQueueEntry) (q : Queue)
    : result (bool * Packet * Heap) :=
  try_entries
    (λ i p _, e ← deref (es !! i); _ ← assert_ok (we_hasTargets e); matchBlockAddr p (we_blkAddr e) (we_isSecure e) (we_blkSize e))
    (λ i p h, e ← deref (es !! i); we_trySatisfyFunctional e p h) (allocatedList q) p h.

End MSHRQueue.
