(* ===== verification/CacheQueues.v ===== *)
(** * mem/cache/base, mem/cache/cache: what a cache does with its queues

    The misses and writes that wait, the choice of the next one to send, responses, snoops
    that meet them, and the two flow controls: the CPU side is blocked while a queue or an
    MSHR is full, and the send event of the memory side is scheduled while something waits.

    Tags and blocks are not in the model: what an operation learns from them is an argument,
    and so is how a packet fares that is sent to memory.  The queue of the memory side is a
    [PacketQueue] that holds no packets of its own. *)

From Stdlib Require Import ZArith Lia.
From stdpp Require Import base numbers option list.
From S2P Require Import Prelude Packet PacketQueue MSHR MSHRQueue.

Module CacheQueues.
Import Packet MSHR MSHRQueue.

Record Params := mkParams {
  numTarget : Z;
  p_blkSize : Z;
  mostly_incl : bool;
  demandReserve : Z;
  forwardSnoops : bool
}.

Record Cache := mkCache {
  heap : Heap;
  mshrQueue : Queue;
  wentries : list WriteQueueEntry;
  writeBuffer : Queue;
  c_order : Z;
  blocked : Z;
  noTargetMSHR : option nat;
  port_blocked : bool;
  mustSendRetry : bool;
  sendRetryEvent : option Z;
  reqQueue : PacketQueue.PacketQueue
}.

Definition set_misses (h : Heap) (q : Queue) (c : Cache) : Cache :=
  mkCache h q (wentries c) (writeBuffer c) (c_order c) (blocked c) (noTargetMSHR c) (port_blocked c) (mustSendRetry c)
    (sendRetryEvent c) (reqQueue c).
Definition set_writes (es : list WriteQueueEntry) (q : Queue) (c : Cache) : Cache :=
  mkCache (heap c) (mshrQueue c) es q (c_order c) (blocked c) (noTargetMSHR c) (port_blocked c) (mustSendRetry c)
    (sendRetryEvent c) (reqQueue c).
Definition set_heap (h : Heap) (c : Cache) : Cache := set_misses h (mshrQueue c) c.
Definition incr_order (c : Cache) : Cache :=
  mkCache (heap c) (mshrQueue c) (wentries c) (writeBuffer c) (c_order c + 1) (blocked c) (noTargetMSHR c)
    (port_blocked c) (mustSendRetry c) (sendRetryEvent c) (reqQueue c).
Definition set_blocked (b : Z) (c : Cache) : Cache :=
  mkCache (heap c) (mshrQueue c) (wentries c) (writeBuffer c) (c_order c) b (noTargetMSHR c)
    (port_blocked c) (mustSendRetry c) (sendRetryEvent c) (reqQueue c).
Definition set_noTarget (m : option nat) (c : Cache) : Cache :=
  mkCache (heap c) (mshrQueue c) (wentries c) (writeBuffer c) (c_order c) (blocked c) m
    (port_blocked c) (mustSendRetry c) (sendRetryEvent c) (reqQueue c).
Definition set_port (b r : bool) (e : option Z) (c : Cache) : Cache :=
  mkCache (heap c) (mshrQueue c) (wentries c) (writeBuffer c) (c_order c) (blocked c) (noTargetMSHR c) b r e (reqQueue c).
Definition set_reqQueue (q : PacketQueue.PacketQueue) (c : Cache) : Cache :=
  mkCache (heap c) (mshrQueue c) (wentries c) (writeBuffer c) (c_order c) (blocked c) (noTargetMSHR c)
    (port_blocked c) (mustSendRetry c) (sendRetryEvent c) q.

(** [mshrs] and [write_buffers] are the sizes, [base] the index of the first of its MSHRs. *)
Definition Cache_new (base n_mshrs write_buffers : nat) (h : Heap) : Cache :=
  mkCache h (Queue_new base n_mshrs 0) (replicate (write_buffers + n_mshrs) WriteQueueEntry_new)
    (Queue_new 0 write_buffers n_mshrs) 0 0 None false false None (PacketQueue.PacketQueue_new false false).

(** ** The CPU side port *)

Definition port_setBlocked (c : Cache) : result Cache :=
  _ ← assert_ok (negb (port_blocked c));
  match sendRetryEvent c with
  | Some _ => Ok (set_port true true None c)
  | None => Ok (set_port true (mustSendRetry c) None c)
  end.

Definition port_clearBlocked (curTick : Z) (c : Cache) : result Cache :=
  _ ← assert_ok (port_blocked c);
  if mustSendRetry c then
    _ ← assert_ok (bool_decide (sendRetryEvent c = None));
    Ok (set_port false true (Some (curTick + 1)) c)
  else Ok (set_port false false (sendRetryEvent c) c).

(** The event is serviced; sendRetryReq tells the peer to try again. *)
Definition processSendRetry (c : Cache) : Cache := set_port (port_blocked c) false None c.

Definition tryTiming (p : Packet) (c : Cache) : bool * Cache :=
  if isExpressSnoop p then (true, c)
  else if port_blocked c || mustSendRetry c then (false, set_port (port_blocked c) true (sendRetryEvent c) c)
  else (true, set_port (port_blocked c) false (sendRetryEvent c) c).

(** ** Blocking *)

Definition Blocked_NoMSHRs : Z := 0.
Definition Blocked_NoWBBuffers : Z := 1.
Definition Blocked_NoTargets : Z := 2.

Definition isBlocked (c : Cache) : bool := negb (blocked c =? 0).
Definition setBlocked (cause : Z) (c : Cache) : result Cache :=
  c ← (if blocked c =? 0 then port_setBlocked c else Ok c);
  Ok (set_blocked (blocked c .| (1 .<< cause)) c).
Definition clearBlocked (curTick cause : Z) (c : Cache) : result Cache :=
  let c := set_blocked (blocked c .& unot 8 (1 .<< cause)) c in
  if blocked c =? 0 then port_clearBlocked curTick c else Ok c.

Definition schedMemSideSendEvent (curTick time : Z) (c : Cache) : result Cache :=
  q ← PacketQueue.schedSendEvent curTick time (reqQueue c); Ok (set_reqQueue q c).

Section Cache_.
Context (pr : Params).

Definition allocOnFill (c : Command) : bool :=
  mostly_incl pr || bool_decide (c = WriteLineReq) || bool_decide (c = ReadReq) || bool_decide (c = WriteReq) ||
  isPrefetch c || isLLSC c.

(** ** Misses and writes *)

Definition allocateMissBuffer (curTick : Z) (p : nat) (time : Z) (sched_send : bool) (c : Cache) : result (nat * Cache) :=
  k ← get_pkt (heap c) p;
  blk_addr ← getBlockAddr k (p_blkSize pr);
  '(i, h, q) ← mq_allocate curTick blk_addr (p_blkSize pr) p time (c_order c) (allocOnFill (cmd k)) (heap c) (mshrQueue c);
  let c := incr_order (set_misses h q c) in
  c ← (if isFull (mshrQueue c) then setBlocked Blocked_NoMSHRs c else Ok c);
  c ← (if sched_send : bool then schedMemSideSendEvent curTick time c else Ok c);
  Ok (i, c).

Definition allocateWriteBuffer (curTick : Z) (p : nat) (time : Z) (c : Cache) : result Cache :=
  k ← get_pkt (heap c) p;
  _ ← assert_ok (isWrite (cmd k) || bool_decide (cmd k = CleanEvict));
  blk_addr ← getBlockAddr k (p_blkSize pr);
  '(_, es, q) ← wq_allocate curTick blk_addr (p_blkSize pr) p time (c_order c) (heap c) (wentries c) (writeBuffer c);
  let c := incr_order (set_writes es q c) in
  c ← (if isFull (writeBuffer c) then setBlocked Blocked_NoWBBuffers c else Ok c);
  schedMemSideSendEvent curTick time c.

Definition markInService_mshr (curTick : Z) (i : nat) (pending_modified_resp : bool) (c : Cache) : result Cache :=
  let wasFull := isFull (mshrQueue c) in
  '(h, q) ← mq_markInService i pending_modified_resp (heap c) (mshrQueue c);
  let c := set_misses h q c in
  if wasFull && negb (isFull (mshrQueue c)) then clearBlocked curTick Blocked_NoMSHRs c else Ok c.

Definition markInService_write (curTick : Z) (i : nat) (c : Cache) : result Cache :=
  let wasFull := isFull (writeBuffer c) in
  '(es, q) ← wq_markInService i (wentries c) (writeBuffer c);
  let c := set_writes es q c in
  if wasFull && negb (isFull (writeBuffer c)) then clearBlocked curTick Blocked_NoWBBuffers c else Ok c.

(** A miss, in the MSHR that was found for its block or in a new one. *)
Definition handleTimingReqMiss (curTick : Z) (p : nat) (mshr : option nat) (forward_time : Z) (c : Cache) : result Cache :=
  k ← get_pkt (heap c) p;
  match mshr with
  | Some m =>
      _ ← assert_ok (negb (isWriteback (cmd k)));
      if bool_decide (cmd k = CleanEvict) then Ok c
      else if bool_decide (cmd k = WriteClean) then allocateWriteBuffer curTick p forward_time c
      else
        h ← allocateTarget curTick m p forward_time (c_order c) (allocOnFill (cmd k)) (heap c);
        let c := incr_order (set_heap h c) in
        x ← get_mshr (heap c) m;
        if numTarget pr <=? getNumTargets x then setBlocked Blocked_NoTargets (set_noTarget (Some m) c) else Ok c
  | None =>
      if isEviction (cmd k) || bool_decide (cmd k = WriteClean) then allocateWriteBuffer curTick p forward_time c
      else '(_, c) ← allocateMissBuffer curTick p forward_time true c; Ok c
  end.

(** Cache::handleTimingReqMiss, for a packet that is not a software prefetch. *)
Definition cache_handleTimingReqMiss (curTick : Z) (p : nat) (forward_time : Z) (c : Cache) : result Cache :=
  k ← get_pkt (heap c) p;
  _ ← assert_ok (negb (bool_decide (cmd k = LockedRMWWriteReq)));
  if isUncacheable (req k) then
    if isWrite (cmd k) then allocateWriteBuffer curTick p forward_time c
    else
      _ ← assert_ok (isRead (cmd k) || isCleanInvalidateRequest k);
      '(_, c) ← allocateMissBuffer curTick p forward_time true c; Ok c
  else
    blk_addr ← getBlockAddr k (p_blkSize pr);
    sec ← Packet.isSecure k;
    mshr ← findMatch (mshrs (heap c)) blk_addr sec true (mshrQueue c);
    handleTimingReqMiss curTick p mshr forward_time c.

(** A locked read that hits gets an MSHR in service, of a copy of its packet. *)
Definition lockedReadHit (curTick : Z) (p : nat) (c : Cache) : result Cache :=
  k ← get_pkt (heap c) p;
  blk_addr ← getBlockAddr k (p_blkSize pr);
  sec ← Packet.isSecure k;
  m ← findMatch (mshrs (heap c)) blk_addr sec true (mshrQueue c);
  _ ← assert_ok (bool_decide (m = None));
  pkt2 ← Packet_new (req k) (cmd k);
  let '(p2, h) := alloc_pkt pkt2 (heap c) in
  '(i, c) ← allocateMissBuffer curTick p2 curTick true (set_heap h c);
  '(h, q) ← mq_markInService i false (heap c) (mshrQueue c);
  Ok (set_misses h q c).

(** ** What to send next *)

Inductive Entry := e_mshr (i : nat) | e_write (i : nat).

(** [prefetch]: the packet of the prefetcher, when it has one; [inTags]: whether the tags
    have its block. *)
Definition getNextQueueEntry (curTick : Z) (prefetch : option nat) (inTags : Z → bool → bool) (c : Cache)
    : result (option Entry * Cache) :=
  miss_mshr ← getNext (mshrs (heap c)) curTick (mshrQueue c);
  wq_entry ← getNext (wentries c) curTick (writeBuffer c);
  match wq_entry, miss_mshr with
  | Some w, m =>
      if isFull (writeBuffer c) || bool_decide (m = None) then
        e ← deref (wentries c !! w);
        conflict_mshr ← findPending (mshrs (heap c)) e (mshrQueue c);
        match conflict_mshr with
        | Some i => x ← get_mshr (heap c) i; Ok (Some (if order x <? we_order e then e_mshr i else e_write w), c)
        | None => Ok (Some (e_write w), c)
        end
      else
        i ← deref m;
        x ← get_mshr (heap c) i;
        conflict ← findPending (wentries c) x (writeBuffer c);
        Ok (Some (match conflict with Some j => e_write j | None => e_mshr i end), c)
  | None, Some i =>
      x ← get_mshr (heap c) i;
      conflict ← findPending (wentries c) x (writeBuffer c);
      Ok (Some (match conflict with Some j => e_write j | None => e_mshr i end), c)
  | None, None =>
      if canPrefetch (demandReserve pr) (mshrQueue c) && negb (isBlocked c) then
        match prefetch with
        | None => Ok (None, c)
        | Some p =>
            k ← get_pkt (heap c) p;
            pf_addr ← getBlockAddr k (p_blkSize pr);
            sec ← Packet.isSecure k;
            if inTags pf_addr sec then Ok (None, c)
            else
              m ← findMatch (mshrs (heap c)) pf_addr sec true (mshrQueue c);
              w ← (match m with
                   | Some _ => Ok None
                   | None => findMatch (wentries c) pf_addr sec true (writeBuffer c)
                   end);
              match m, w with
              | None, None => '(i, c) ← allocateMissBuffer curTick p curTick false c; Ok (Some (e_mshr i), c)
              | _, _ => Ok (None, c)
              end
        end
      else Ok (None, c)
  end.

Definition nextQueueReadyTime (nextPrefetch : option Z) (c : Cache) : result Z :=
  a ← MSHRQueue.nextReadyTime (mshrs (heap c)) (mshrQueue c);
  b ← MSHRQueue.nextReadyTime (wentries c) (writeBuffer c);
  let nextReady := Z.min a b in
  Ok (match nextPrefetch with
      | Some t => if canPrefetch (demandReserve pr) (mshrQueue c) && negb (isBlocked c) then Z.min nextReady t else nextReady
      | None => nextReady
      end).

(** ** Sending

    How the packet of an MSHR fares: the write allocator delays it; memory refuses it; it
    is accepted ([wb]: the cleaned block that is written with it); the caches above answer
    a prefetch, or squash it. *)
Inductive Outcome :=
  | o_delayed (delay_ticks : Z)
  | o_refused (is_forward : bool)
  | o_accepted (is_forward pending_modified_resp : bool) (wb : option nat)
  | o_answered (pending_modified_resp : bool)
  | o_squashed.

(** The result is whether to wait for a retry. *)
Definition sendMSHRQueuePacket (curTick : Z) (i : nat) (o : Outcome) (c : Cache) : result (bool * Cache) :=
  x ← get_mshr (heap c) i;
  t ← getTarget x;
  tgt_pkt ← get_pkt (heap c) (pkt t);
  let snooped := bool_decide (cmd tgt_pkt = HardPFReq) && forwardSnoops pr in
  match o with
  | o_delayed d => '(h, q) ← mq_delay curTick i d (heap c) (mshrQueue c); Ok (false, set_misses h q c)
  | o_refused f => h ← upd i (set_isForward f) (heap c); Ok (true, set_heap h c)
  | o_accepted f pm wb =>
      h ← upd i (set_isForward f) (heap c);
      c ← markInService_mshr curTick i pm (set_heap h c);
      c ← (match wb with Some p => allocateWriteBuffer curTick p 0 c | None => Ok c end);
      Ok (false, c)
  | o_answered pm =>
      _ ← assert_ok snooped; c ← markInService_mshr curTick i pm c; Ok (false, c)
  | o_squashed =>
      _ ← assert_ok snooped;
      '(unblock, h, q) ← forceDeallocateTarget curTick i (heap c) (mshrQueue c);
      let c := set_misses h q c in
      c ← (if unblock : bool then clearBlocked curTick Blocked_NoMSHRs c else Ok c);
      Ok (false, c)
  end.

Definition sendWriteQueuePacket (curTick : Z) (i : nat) (accepted : bool) (c : Cache) : result (bool * Cache) :=
  if accepted then c ← markInService_write curTick i c; Ok (false, c) else Ok (true, c).

(** [snoop_conflict]: the time of the snoop response that has to leave first. *)
Record Environment := mkEnv {
  env_prefetch : option nat;
  env_inTags : Z → bool → bool;
  env_snoop_conflict : option Z;
  env_outcome : Outcome;
  env_accepted : bool;
  env_nextPrefetch : option Z
}.

Definition sendDeferredPacket (curTick : Z) (env : Environment) (c : Cache) : result Cache :=
  _ ← assert_ok (negb (PacketQueue.waitingOnRetry (reqQueue c)));
  _ ← assert_ok (PacketQueue.deferredPacketReadyTime (reqQueue c) =? PacketQueue.MaxTick);
  '(entry, c) ← getNextQueueEntry curTick (env_prefetch env) (env_inTags env) c;
  match entry, env_snoop_conflict env with
  | Some _, Some when => schedMemSideSendEvent curTick when c
  | _, _ =>
      '(wait, c) ←
        (match entry with
         | None => Ok (false, c)
         | Some (e_mshr i) => sendMSHRQueuePacket curTick i (env_outcome env) c
         | Some (e_write i) => sendWriteQueuePacket curTick i (env_accepted env) c
         end);
      let c := set_reqQueue (PacketQueue.set_waiting wait (reqQueue c)) c in
      if wait : bool then Ok c
      else when ← nextQueueReadyTime (env_nextPrefetch env) c; schedMemSideSendEvent curTick when c
  end.

Definition processSendEvent (curTick : Z) (env : Environment) (c : Cache) : result Cache :=
  sendDeferredPacket curTick env (set_reqQueue (PacketQueue.set_event None (reqQueue c)) c).

Definition recvReqRetry (curTick : Z) (env : Environment) (c : Cache) : result Cache :=
  _ ← assert_ok (PacketQueue.waitingOnRetry (reqQueue c));
  sendDeferredPacket curTick env (set_reqQueue (PacketQueue.set_waiting false (reqQueue c)) c).

(** ** Responses

    The response [k] of the MSHR [m]; [readable], [writable]: what the block is after the
    fill; [from_block]: a locked read is satisfied from the block, so that a dummy packet
    stays in the MSHR; [next_pf]: when the prefetcher is ready. *)
Fixpoint service_targets (m : nat) (from_block : bool) (l : list Target) (h : Heap) : result Heap :=
  match l with
  | [] => Ok h
  | t :: l =>
      k ← get_pkt h (pkt t);
      h ← (if bool_decide (source t = FromCPU) && bool_decide (cmd k = LockedRMWReadReq) then
             if from_block then updateLockedRMWReadTarget m (pkt t) h
             else k ← makeTimingResponse k; Ok (set_packet (pkt t) k h)
           else Ok h);
      service_targets m from_block l h
  end.

Definition serviceMSHRTargets (m : nat) (k : Packet) (from_block : bool) (h : Heap) : result (TargetList * Heap) :=
  x ← get_mshr h m;
  t ← getTarget x;
  initial ← get_pkt h (pkt t);
  h ← (if bool_decide (cmd k = LockedRMWWriteResp) then
         _ ← assert_ok (bool_decide (cmd initial = LockedRMWReadReq)); popTarget m h
       else Ok h);
  '(l, h) ← extractServiceableTargets m k h;
  h ← service_targets m from_block (list_of l) h;
  Ok (l, h).

Definition recvTimingResp (curTick : Z) (m : nat) (k : Packet) (readable writable from_block : bool)
    (send_time : Z) (next_pf : option Z) (c : Cache) : result (TargetList * Cache) :=
  _ ← assert_ok (isResponse (cmd k));
  c ← (if decide (noTargetMSHR c = Some m) then
         c ← clearBlocked curTick Blocked_NoTargets c; Ok (set_noTarget None c)
       else Ok c);
  x ← get_mshr (heap c) m;
  locked ← hasLockedRMWReadTarget x (heap c);
  h ← (if locked : bool then Ok (heap c)
       else
         h ← (if readable then promoteReadable m (heap c) else Ok (heap c));
         if writable && negb (isCacheInvalidate (req k)) then promoteWritable m h else Ok h);
  '(l, h) ← serviceMSHRTargets m k from_block h;
  let c := set_heap h c in
  x ← get_mshr (heap c) m;
  locked ← hasLockedRMWReadTarget x (heap c);
  if locked : bool then Ok (l, c)
  else
    '(more, h) ← promoteDeferredTargets curTick m (heap c);
    let c := set_heap h c in
    if more : bool then
      '(h, q) ← markPending m (heap c) (mshrQueue c);
      c ← schedMemSideSendEvent curTick send_time (set_misses h q c);
      Ok (l, c)
    else
      let was_full := isFull (mshrQueue c) in
      '(h, q) ← mq_deallocate m (heap c) (mshrQueue c);
      let c := set_misses h q c in
      c ← (if was_full && negb (isFull (mshrQueue c)) then clearBlocked curTick Blocked_NoMSHRs c else Ok c);
      c ← (match next_pf with
           | Some t => if canPrefetch (demandReserve pr) (mshrQueue c) && negb (isBlocked c)
                       then schedMemSideSendEvent curTick t c else Ok c
           | None => Ok c
           end);
      Ok (l, c).

(** The write that ends a locked sequence hits, and is the response that its MSHR waits for. *)
Definition lockedWriteHit (curTick : Z) (p : nat) (from_block : bool) (send_time : Z) (next_pf : option Z) (c : Cache)
    : result (TargetList * Cache) :=
  k ← get_pkt (heap c) p;
  blk_addr ← getBlockAddr k (p_blkSize pr);
  sec ← Packet.isSecure k;
  mshr ← findMatch (mshrs (heap c)) blk_addr sec true (mshrQueue c);
  match mshr with
  | None => Err AssertFailed
  | Some m =>
      resp_pkt ← Packet_new (req k) LockedRMWWriteResp;
      recvTimingResp curTick m resp_pkt true true from_block send_time next_pf c
  end.

(** ** Snoops

    Whether the snoop ends here: an MSHR defers it or says that the block is cached, or a
    write that waits does. *)
Definition recvTimingSnoopReq (curTick : Z) (p : nat) (c : Cache) : result (bool * Cache) :=
  k ← get_pkt (heap c) p;
  blk_addr ← getBlockAddr k (p_blkSize pr);
  sec ← Packet.isSecure k;
  mshr ← findMatch (mshrs (heap c)) blk_addr sec true (mshrQueue c);
  let cached c := (true, set_heap (set_packet p (setBlockCached k) (heap c)) c) in
  if bool_decide (mshr ≠ None) && mustCheckAbove k then Ok (cached c)
  else
    '(deferred, c) ←
      (match mshr with
       | Some m => '(b, h) ← handleSnoop curTick m p (c_order c) (heap c); Ok (b, incr_order (set_heap h c))
       | None => Ok (false, c)
       end);
    if deferred : bool then Ok (true, c)
    else
      wb_entry ← findMatch (wentries c) blk_addr sec true (writeBuffer c);
      match wb_entry with
      | None => Ok (false, c)
      | Some w =>
          e ← deref (wentries c !! w);
          _ ← assert_ok (negb (we_isUncacheable e));
          _ ← assert_ok (bool_decide (length (we_targets e) = 1%nat));
          t ← deref (head (we_targets e));
          wb_pkt ← get_pkt (heap c) (w_pkt t);
          _ ← assert_ok (isEviction (cmd wb_pkt) || bool_decide (cmd wb_pkt = WriteClean));
          k ← get_pkt (heap c) p;
          if isEviction (cmd k) then Ok (true, set_heap (set_packet p (setBlockCached k) (heap c)) c)
          else
            let respond := bool_decide (cmd wb_pkt = WritebackDirty) && needsResponse (cmd k) in
            let have_writable := negb (hasSharers wb_pkt) in
            let invalidate := isInvalidate (cmd k) in
            '(k, wb_pkt) ←
              (if negb (isUncacheable (req k)) && isRead (cmd k) && negb invalidate then
                 nw ← Packet.needsWritable k;
                 _ ← assert_ok (negb nw);
                 Ok (setHasSharers k, setHasSharers wb_pkt)
               else Ok (k, wb_pkt));
            k ← (if respond then
                   k ← setCacheResponding k;
                   if have_writable then setResponderHadWritable k else Ok k
                 else Ok k);
            let c := set_heap (set_packet (w_pkt t) wb_pkt (set_packet p k (heap c))) c in
            c ← (if invalidate && negb (bool_decide (cmd wb_pkt = WriteClean)) then markInService_write curTick w c
                 else Ok c);
            Ok (false, c)
      end.

End Cache_.
End CacheQueues.
