(* ===== verification/MSHRCore.v ===== *)
(** * mem/cache/mshr: what the operations of an MSHR do, seen from the cache

    [core] is an MSHR without the marks that let MSHRs of different caches wait for each
    other.  Every operation changes the core of its own MSHR only; the marks of others,
    which [clearDownstreamPending] follows through the caches above, change no core, and
    following them always ends. *)

From Stdlib Require Import ZArith Lia Sorted.
From stdpp Require Import base numbers option list sorting.
From S2P Require Import Prelude Packet PacketQueue MSHR.

Module MSHRLemmas.
Import Packet MSHR.

(** ** Views *)

Record View := mkView { v_order : Z; v_source : Source; v_pkt : nat; v_ready : Z }.
Record TL := mkTL { l_views : list View; l_writable : bool; l_upgrade : bool }.

Definition view (t : Target) : View := mkView (t_order t) (source t) (pkt t) (t_readyTime t).
Definition views (l : list Target) : list View := view <$> l.
Definition tview (tl : TargetList) : TL := mkTL (views (list_of tl)) (tl_needsWritable tl) (hasUpgrade tl).

Record Core := mkCore {
  k_ready : Z;
  k_uncacheable : bool;
  k_inService : bool;
  k_order : Z;
  k_blkAddr : Z;
  k_blkSize : Z;
  k_secure : bool;
  k_modified : bool;
  k_postInvalidate : bool;
  k_postDowngrade : bool;
  k_forward : bool;
  k_targets : TL;
  k_deferred : TL
}.

Definition core (x : MSHR) : Core :=
  mkCore (readyTime x) (_isUncacheable x) (inService x) (order x) (blkAddr x) (blkSize x) (isSecure x)
    (pendingModified x) (postInvalidate x) (postDowngrade x) (isForward x)
    (tview (targets x)) (tview (deferredTargets x)).
Definition cores (h : Heap) : list Core := core <$> mshrs h.

Definition kset_targets (l : TL) (k : Core) : Core :=
  mkCore (k_ready k) (k_uncacheable k) (k_inService k) (k_order k) (k_blkAddr k) (k_blkSize k) (k_secure k)
    (k_modified k) (k_postInvalidate k) (k_postDowngrade k) (k_forward k) l (k_deferred k).
Definition kset_deferred (l : TL) (k : Core) : Core :=
  mkCore (k_ready k) (k_uncacheable k) (k_inService k) (k_order k) (k_blkAddr k) (k_blkSize k) (k_secure k)
    (k_modified k) (k_postInvalidate k) (k_postDowngrade k) (k_forward k) (k_targets k) l.
Definition kset_service (s pm pi pd : bool) (k : Core) : Core :=
  mkCore (k_ready k) (k_uncacheable k) s (k_order k) (k_blkAddr k) (k_blkSize k) (k_secure k)
    pm pi pd (k_forward k) (k_targets k) (k_deferred k).

(** Only marks changed. *)
Definition sim (h h' : Heap) : Prop := packets h' = packets h ∧ cores h' = cores h.

#[global] Instance sim_refl : Reflexive sim.
Proof. by split. Qed.
#[global] Instance sim_trans : Transitive sim.
Proof. intros a b c [H1 H2] [H3 H4]. split; congruence. Qed.

Lemma sim_length h h' : sim h h' → length (mshrs h') = length (mshrs h).
Proof. intros [_ H]. unfold cores in H. by rewrite <-(length_fmap core), H, length_fmap. Qed.

Lemma sim_lookup h h' m x : sim h h' → mshrs h !! m = Some x → ∃ x', mshrs h' !! m = Some x' ∧ core x' = core x.
Proof.
  intros [_ H] Hm. assert (cores h' !! m = Some (core x)) as Hc.
  { rewrite H. unfold cores. by rewrite list_lookup_fmap, Hm. }
  unfold cores in Hc. rewrite list_lookup_fmap in Hc. destruct (mshrs h' !! m) as [x'|]; [|done]. apply (inj Some) in Hc. by exists x'.
Qed.

Lemma set_mshr_sim h m x y : mshrs h !! m = Some x → core y = core x → sim h (set_mshr m y h).
Proof.
  intros Hm Hc. split; [done|]. unfold cores. simpl. rewrite list_fmap_insert. apply list_insert_id.
  by rewrite list_lookup_fmap, Hm, Hc.
Qed.

Lemma get_pkt_Ok h p k : get_pkt h p = Ok k ↔ packets h !! p = Some k.
Proof. apply deref_Ok. Qed.
Lemma get_mshr_Ok h m x : get_mshr h m = Ok x ↔ mshrs h !! m = Some x.
Proof. apply deref_Ok. Qed.

(** [heap_inv] turns reads of the heap and assertions in the hypotheses into what they tell. *)
Ltac heap_inv :=
  repeat match goal with
  | H : get_pkt _ _ = Ok _ |- _ => apply get_pkt_Ok in H
  | H : get_mshr _ _ = Ok _ |- _ => apply get_mshr_Ok in H
  | H : assert_ok _ = Ok ?u |- _ => destruct u; apply assert_ok_true in H
  end.

Lemma views_unmark (l : list Target) : view <$> (set_markedPending false <$> l) = view <$> l.
Proof. rewrite <-list_fmap_compose. by apply list_fmap_ext. Qed.

Lemma tview_unmark l tl : tview (set_list (set_markedPending false <$> l) tl) = tview (set_list l tl).
Proof. unfold tview, views. simpl. by rewrite views_unmark. Qed.

Lemma core_unmark x : core (set_targets (set_list (set_markedPending false <$> list_of (targets x)) (targets x)) x) = core x.
Proof. unfold core. simpl. rewrite tview_unmark. by destruct x as [????????????? [] ?]. Qed.

(** ** Clearing the marks *)

Lemma clear_list_sim clear l : (∀ m h h', clear m h = Ok h' → sim h h') →
  ∀ h h', clear_list clear l h = Ok h' → sim h h'.
Proof.
  intros Hc. induction l as [|t l IH]; intros h h' H; simpl in H; [by injection H as <-|]. res_inv.
  transitivity a; [|by eapply IH]. destruct (markedPending t); res_inv; [|done].
  destruct (findNextSenderState h a0); [by eapply Hc|by res_inv].
Qed.

Lemma clearDownstreamPending_sim n : ∀ m h h', clearDownstreamPending n m h = Ok h' → sim h h'.
Proof.
  induction n as [|n IH]; intros m h h' H; simpl in H; [done|]. res_inv. heap_inv. subst.
  assert (sim h (set_mshr m (set_downstreamPending false a) h)) as H1 by (by eapply set_mshr_sim).
  apply (clear_list_sim _ _ IH) in E1. rewrite H1, E1. eapply set_mshr_sim; [done|]. apply core_unmark.
Qed.

Lemma tl_clear_sim l h l' h' : tl_clearDownstreamPending l h = Ok (l', h') →
  sim h h' ∧ l' = set_markedPending false <$> l.
Proof.
  unfold tl_clearDownstreamPending. intros H. res_inv. split; [|done].
  eapply clear_list_sim; [|done]. intros m. apply clearDownstreamPending_sim.
Qed.

(** The MSHRs that wait for another one below them. *)
Definition waiting (h : Heap) : nat := length (filter (λ x, downstreamPending x = true) (mshrs h)).

Lemma waiting_set h m x y : mshrs h !! m = Some x →
  (waiting (set_mshr m y h) + (if decide (downstreamPending x = true) then 1 else 0) =
   waiting h + (if decide (downstreamPending y = true) then 1 else 0))%nat.
Proof.
  unfold waiting. simpl. generalize (mshrs h). intros l. revert m. induction l as [|z l IH]; intros [|m] Hm; try done; simpl.
  - injection Hm as ->. rewrite !filter_cons. destruct (decide (downstreamPending x = true)), (decide (downstreamPending y = true)); simpl; lia.
  - rewrite !filter_cons. specialize (IH m Hm). destruct (decide (downstreamPending z = true)); simpl; lia.
Qed.

Lemma waiting_length h : (waiting h <= length (mshrs h))%nat.
Proof. unfold waiting. apply length_filter. Qed.

Definition no_fuel_error {A} (r : result A) : Prop := r ≠ Err OutOfFuel.

Lemma clear_list_waiting clear l n : (∀ m h, (waiting h <= n)%nat → no_fuel_error (clear m h)) →
  (∀ m h h', clear m h = Ok h' → (waiting h' <= waiting h)%nat) →
  ∀ h, (waiting h <= n)%nat → no_fuel_error (clear_list clear l h) ∧
    ∀ h', clear_list clear l h = Ok h' → (waiting h' <= waiting h)%nat.
Proof.
  intros Hf Hw. induction l as [|t l IH]; intros h Hn; simpl; [split; [done|by intros ? [= <-]]|].
  set (r := if markedPending t then _ else Ok h).
  assert (no_fuel_error r ∧ ∀ h1, r = Ok h1 → (waiting h1 <= waiting h)%nat) as [Hr1 Hr2].
  { unfold r. destruct (markedPending t); [|split; [done|by intros ? [= <-]]].
    unfold get_pkt. destruct (packets h !! pkt t); simpl; [|split; [done|done]].
    destruct (findNextSenderState h p); [|split; [done|by intros ? [= <-]]]. split; [by apply Hf|apply Hw]. }
  destruct r as [h1|e]; simpl; [|split; [intros [= ->]; done|done]]. specialize (Hr2 h1 eq_refl).
  destruct (IH h1) as [IH1 IH2]; [lia|]. split; [done|]. intros h' H'. specialize (IH2 h' H'). lia.
Qed.

Lemma clear_waiting n : ∀ m h h', clearDownstreamPending n m h = Ok h' → (waiting h' < waiting h)%nat.
Proof.
  induction n as [|n IH]; intros m h h' H; simpl in H; [done|]. res_inv. heap_inv. subst.
  pose proof (waiting_set h m a (set_downstreamPending false a) E) as Hw. rewrite E0 in Hw. simpl in Hw.
  assert (waiting a1 <= waiting (set_mshr m (set_downstreamPending false a) h))%nat as Hle.
  { clear - E1 IH. revert E1. generalize (set_mshr m (set_downstreamPending false a) h) as h0. generalize (list_of (targets a)) as l.
    induction l as [|t l IHl]; intros h0 H; simpl in H; [by injection H as <-|]. res_inv. specialize (IHl _ H).
    destruct (markedPending t); res_inv; [|done]. destruct (findNextSenderState h0 a2); res_inv; [|done].
    apply IH in E. lia. }
  pose proof (waiting_set a1 m a2 (set_targets (set_list (set_markedPending false <$> list_of (targets a2)) (targets a2)) a2) E2) as Hw2.
  simpl in Hw2. destruct (decide (downstreamPending a2 = true)); lia.
Qed.

Lemma clear_terminates n : ∀ m h, (waiting h < n)%nat → no_fuel_error (clearDownstreamPending n m h).
Proof.
  induction n as [|n IH]; intros m h Hn; [lia|]. simpl. unfold get_mshr. destruct (mshrs h !! m) as [x|] eqn:Hx; simpl; [|done].
  destruct (downstreamPending x) eqn:Hd; simpl; [|done].
  pose proof (waiting_set h m x (set_downstreamPending false x) Hx) as Hw. rewrite Hd in Hw. simpl in Hw.
  destruct (clear_list_waiting (clearDownstreamPending n) (list_of (targets x)) (n - 1)) with
    (h := set_mshr m (set_downstreamPending false x) h) as [H1 _].
  - intros m' h' H'. apply IH. lia.
  - intros m' h' h2 H'. apply clear_waiting in H'. lia.
  - lia.
  - destruct (clear_list _ _ _) as [h1|e]; simpl; [|intros [= ->]; done].
    destruct (mshrs h1 !! m); simpl; done.
Qed.

End MSHRLemmas.

(** * mem/cache/mshr: what each operation does to the core of its MSHR

    [evolve m h h' K]: an operation on the MSHR [m] took the heap [h] to [h'] and left [m]
    with the core [K]; the cores of the other MSHRs are as they were, and the only change to
    the command of a packet is the replacement of an upgrade.  [covers] says that the flags
    of a list ask for all that its requests need. *)

Module MSHRCore.
Import Packet MSHR MSHRLemmas.

(** ** Commands *)

Definition replaced (c : Command) : Command :=
  match c with
  | UpgradeReq => ReadExReq
  | SCUpgradeReq => SCUpgradeFailReq
  | StoreCondReq => StoreCondFailReq
  | _ => c
  end.

(** The commands that need the block to stay valid until they are served. *)
Definition upgradeLike (c : Command) : bool := isUpgrade c || bool_decide (c = StoreCondReq).

Lemma replaced_idemp c : replaced (replaced c) = replaced c.
Proof. by destruct c. Qed.
Lemma replaced_request c : isRequest (replaced c) = isRequest c.
Proof. by destruct c. Qed.
Lemma replaced_needsWritable c : cmd_needsWritable (replaced c) = cmd_needsWritable c.
Proof. by destruct c. Qed.
Lemma replaced_upgradeLike c : isRequest c = true → upgradeLike (replaced c) = false.
Proof. by destruct c. Qed.
Lemma replaced_upgradeLike_mono c : upgradeLike (replaced c) = true → upgradeLike c = true.
Proof. by destruct c. Qed.
Lemma replaced_HardPFReq c : replaced c = HardPFReq ↔ c = HardPFReq.
Proof. by destruct c. Qed.
Lemma upgradeLike_needsWritable c : isRequest c = true → upgradeLike c = true → cmd_needsWritable c = true.
Proof. by destruct c. Qed.

(** ** Packets *)

Definition pk_step (k k' : Packet) : Prop := cmd k' = cmd k ∨ cmd k' = replaced (cmd k).

Definition pk_at (h h' : Heap) (p : nat) : Prop :=
  ∀ k, packets h !! p = Some k → ∃ k', packets h' !! p = Some k' ∧ pk_step k k'.
Definition pk_le (h h' : Heap) : Prop := ∀ p, pk_at h h' p.

#[global] Instance pk_step_refl : Reflexive pk_step.
Proof. intros k. by left. Qed.
#[global] Instance pk_step_trans : Transitive pk_step.
Proof.
  intros a b c [H1|H1] [H2|H2]; unfold pk_step; rewrite H2, H1; [by left|by right|by right|right; apply replaced_idemp].
Qed.
#[global] Instance pk_le_refl : Reflexive pk_le.
Proof. intros h p k H. by exists k. Qed.
#[global] Instance pk_le_trans : Transitive pk_le.
Proof.
  intros a b c H1 H2 p k H. destruct (H1 p k H) as (k1 & Hk1 & Hs1). destruct (H2 p k1 Hk1) as (k2 & Hk2 & Hs2).
  exists k2. split; [done|by transitivity k1].
Qed.

Lemma pk_le_eq h h' : packets h' = packets h → pk_le h h'.
Proof. intros H p k Hp. exists k. by rewrite H. Qed.

Lemma pk_le_set h p k k' : packets h !! p = Some k → pk_step k k' → pk_le h (set_packet p k' h).
Proof.
  intros Hp Hs q k0 Hq. simpl. destruct (decide (q = p)) as [->|Hn].
  - exists k'. rewrite list_lookup_insert_eq; [|by eapply lookup_lt_Some]. split; [done|]. congruence.
  - exists k0. rewrite list_lookup_insert_ne by done. by split.
Qed.

Lemma pk_le_alloc h k : pk_le h (snd (alloc_pkt k h)).
Proof. intros p k0 Hp. exists k0. simpl. split; [by apply lookup_app_l_Some|done]. Qed.

(** ** Coverage *)

(** The request of the view is one whose needs the flags [w] and [u] state. *)
Definition asks (h : Heap) (w u : bool) (v : View) : Prop :=
  v_source v ≠ FromSnoop → ∃ k, packets h !! v_pkt v = Some k ∧ isRequest (cmd k) = true ∧
    (cmd_needsWritable (cmd k) = true → w = true) ∧ (upgradeLike (cmd k) = true → u = true).

Definition covers (h : Heap) (l : TL) : Prop := Forall (asks h (l_writable l) (l_upgrade l)) (l_views l).

Lemma asks_mono h h' w u w' u' v : pk_at h h' (v_pkt v) → (w = true → w' = true) → (u = true → u' = true) →
  asks h w u v → asks h' w' u' v.
Proof.
  intros Hle Hw Hu H Hs. destruct (H Hs) as (k & Hk & Hr & Hkw & Hku). destruct (Hle _ Hk) as (k' & Hk' & Hst).
  exists k'. split; [done|]. destruct Hst as [-> | ->].
  - split; [done|]. split; auto.
  - rewrite replaced_request, replaced_needsWritable. split; [done|]. split; [auto|].
    intros Hu'. apply Hu, Hku. by apply replaced_upgradeLike_mono.
Qed.

Lemma covers_mono h h' l : pk_le h h' → covers h l → covers h' l.
Proof. intros Hle H. eapply Forall_impl; [exact H|]. intros v. apply asks_mono; auto. Qed.

(** ** Lists of targets *)

Lemma updateWriteFlags_tview k tl tl' : updateWriteFlags k tl = Ok tl' → tview tl' = tview tl ∧ list_of tl' = list_of tl.
Proof.
  unfold updateWriteFlags. intros H. destruct (isWholeLineWrite tl); [by res_inv|].
  destruct (canMergeWrites tl); [|by res_inv]. destruct (negb (isWrite (cmd k))); res_inv; done.
Qed.

Lemma needsWritable_Ok k b : Packet.needsWritable k = Ok b → isRequest (cmd k) = true ∧ b = cmd_needsWritable (cmd k).
Proof. unfold Packet.needsWritable. intros H. res_inv. by heap_inv. Qed.

Lemma updateFlags_tview k src a tl tl' : updateFlags k src a tl = Ok tl' →
  list_of tl' = list_of tl ∧
  ((src = FromSnoop ∧ tl' = tl) ∨
   (src ≠ FromSnoop ∧ isRequest (cmd k) = true ∧
    tview tl' = mkTL (views (list_of tl)) (cmd_needsWritable (cmd k) || tl_needsWritable tl) (upgradeLike (cmd k) || hasUpgrade tl))).
Proof.
  unfold updateFlags. case_bool_decide as Hs; [intros H; res_inv; auto|]. intros H. res_inv.
  apply needsWritable_Ok in E as [Hr ->]. case_bool_decide as Hp.
  - res_inv. split; [done|]. right. done.
  - apply updateWriteFlags_tview in H as [H Hl]. split; [done|]. right. split; [done|]. split; [done|]. by rewrite H.
Qed.

Lemma updateFlags_all_covers h l : ∀ tl tl', updateFlags_all h l tl = Ok tl' →
  list_of tl' = list_of tl ∧ (tl_needsWritable tl = true → tl_needsWritable tl' = true) ∧
  (hasUpgrade tl = true → hasUpgrade tl' = true) ∧
  Forall (asks h (tl_needsWritable tl') (hasUpgrade tl')) (views l).
Proof.
  induction l as [|t l IH]; intros tl tl' H; simpl in H.
  { res_inv. done. }
  res_inv. heap_inv. apply updateFlags_tview in E0 as [Hl Hc]. apply IH in H as (Hl' & Hw & Hu & Hf).
  assert ((tl_needsWritable tl = true → tl_needsWritable a0 = true) ∧ (hasUpgrade tl = true → hasUpgrade a0 = true) ∧
    asks h (tl_needsWritable tl') (hasUpgrade tl') (view t)) as (H1 & H2 & H3).
  { destruct Hc as [[Hs ->]|(Hs & Hr & Hv)].
    - split; [done|]. split; [done|]. intros ?. done.
    - injection Hv as _ Hv1 Hv2. rewrite Hv1, Hv2 in *. split; [intros ->; apply orb_true_r|].
      split; [intros ->; apply orb_true_r|]. intros _. exists a. split; [done|]. split; [done|].
      split; intros Hx; [apply Hw|apply Hu]; rewrite Hx; done. }
  split; [congruence|]. split; [auto|]. split; [auto|]. by constructor.
Qed.

Lemma populateFlags_covers h tl tl' : populateFlags h tl = Ok tl' →
  list_of tl' = list_of tl ∧ covers h (tview tl').
Proof.
  unfold populateFlags. intros H. apply updateFlags_all_covers in H as (Hl & _ & _ & Hf).
  simpl in Hl. split; [done|]. unfold covers. simpl. by rewrite Hl.
Qed.

(** What [add] does to the view of its list. *)
Definition tl_added (h : Heap) (v : View) (l l' : TL) : Prop :=
  l_views l' = l_views l ++ [v] ∧
  ((v_source v = FromSnoop ∧ l_writable l' = l_writable l ∧ l_upgrade l' = l_upgrade l) ∨
   (v_source v ≠ FromSnoop ∧ ∃ k, packets h !! v_pkt v = Some k ∧ isRequest (cmd k) = true ∧
      l_writable l' = cmd_needsWritable (cmd k) || l_writable l ∧ l_upgrade l' = upgradeLike (cmd k) || l_upgrade l)).

Lemma add_spec t p ready ord src mp a tl h tl' h' : add t p ready ord src mp a tl h = Ok (tl', h') →
  sim h h' ∧ tl_added h (mkView ord src p ready) (tview tl) (tview tl').
Proof.
  unfold add. intros H. res_inv. destruct a2 as [b h1]. res_inv. heap_inv.
  assert (sim h h') as Hsim.
  { destruct mp; [|by res_inv]. destruct (findNextSenderState h a0); [|by res_inv]. res_inv. heap_inv. by eapply set_mshr_sim. }
  split; [done|]. apply updateFlags_tview in E0 as [Hl Hc].
  assert (views (list_of tl ++ [mkTarget t ready ord p src b a]) = views (list_of tl) ++ [mkView ord src p ready]) as Hv.
  { unfold views. by rewrite fmap_app. }
  split; [simpl; congruence|]. destruct Hc as [[Hs ->]|(Hs & Hr & Ht)]; [by left|]. right.
  injection Ht as _ H1 H2. split; [done|]. exists a0. done.
Qed.

Lemma tl_added_covers h h' v l l' : pk_le h h' → tl_added h v l l' → covers h l → covers h' l'.
Proof.
  intros Hle [Hv Hc] H. apply (covers_mono h); [done|]. unfold covers in *. rewrite Hv. apply Forall_app. split.
  - eapply Forall_impl; [done|]. intros x. apply asks_mono; [apply (pk_le_refl h)| |]; destruct Hc as [(_ & Hw & Hu)|(_ & k & _ & _ & Hw & Hu)];
      rewrite ?Hw, ?Hu; intros ->; try done; apply orb_true_r.
  - constructor; [|done]. intros Hs. destruct Hc as [(Hs' & _)|(_ & k & Hk & Hr & Hw & Hu)]; [done|].
    exists k. split; [done|]. split; [done|]. rewrite Hw, Hu. split; intros ->; done.
Qed.

(** ** Replacing upgrades *)

Lemma allocate_cmd k k' : Packet.allocate k = Ok k' → cmd k' = cmd k.
Proof. unfold Packet.allocate. intros H. destruct (_ || _); res_inv; done. Qed.

Lemma replaceUpgrade_spec p h h' : replaceUpgrade p h = Ok h' → mshrs h' = mshrs h ∧ pk_le h h' ∧
  ∃ k k', packets h !! p = Some k ∧ packets h' !! p = Some k' ∧ cmd k' = replaced (cmd k).
Proof.
  unfold replaceUpgrade. intros H. res_inv. heap_inv.
  set (k1 := match cmd a with UpgradeReq => _ | _ => _ end) in H.
  assert (cmd k1 = replaced (cmd a)) as Hk1 by (unfold k1; destruct (cmd a) eqn:?; simpl; congruence).
  assert (∃ k', h' = set_packet p k' h ∧ cmd k' = replaced (cmd a)) as (k' & -> & Hk').
  { destruct (_ || _); [res_inv; by exists k1|]. res_inv. destruct (hasRespData k1); res_inv; [|by exists k1].
    eexists. split; [done|]. by erewrite allocate_cmd. }
  split; [done|]. split; [eapply pk_le_set; [done|]; by right|]. exists a, k'. split; [done|]. split; [|done].
  simpl. apply list_lookup_insert_eq. by eapply lookup_lt_Some.
Qed.

(** No upgrade is left among the requests of a list. *)
Definition no_upgrade (h : Heap) (vs : list View) : Prop :=
  Forall (λ v, v_source v ≠ FromSnoop → ∃ k, packets h !! v_pkt v = Some k ∧ upgradeLike (cmd k) = false) vs.

Lemma no_upgrade_mono h h' vs : pk_le h h' → no_upgrade h vs → no_upgrade h' vs.
Proof.
  intros Hle H. eapply Forall_impl; [exact H|]. intros v Hv Hs. destruct (Hv Hs) as (k & Hk & Hu).
  destruct (Hle _ _ Hk) as (k' & Hk' & Hst). exists k'. split; [done|]. destruct Hst as [-> | ->]; [done|].
  apply not_true_is_false. intros Hx. apply replaced_upgradeLike_mono in Hx. congruence.
Qed.

Lemma replaced_fixed c : isRequest c = true → replaced c = c → upgradeLike c = false.
Proof. by destruct c. Qed.

Lemma replaceUpgrade_all_spec l : ∀ h h', replaceUpgrade_all l h = Ok h' → mshrs h' = mshrs h ∧ pk_le h h' ∧
  Forall (λ t, ∃ k, packets h' !! pkt t = Some k ∧ replaced (cmd k) = cmd k) l.
Proof.
  induction l as [|t l IH]; intros h h' H; simpl in H; [by res_inv|].
  res_inv. apply replaceUpgrade_spec in E as (Hm & Hle & k & k' & Hk & Hk' & Hc).
  apply IH in H as (Hm' & Hle' & Hall). split; [congruence|]. split; [by transitivity a|]. constructor; [|done].
  destruct (Hle' _ _ Hk') as (k2 & Hk2 & Hst). exists k2. split; [done|].
  destruct Hst as [-> | ->]; rewrite ?replaced_idemp; [|done]. by rewrite Hc, replaced_idemp.
Qed.

Lemma replaceUpgrades_spec tl h tl' h' : replaceUpgrades tl h = Ok (tl', h') → mshrs h' = mshrs h ∧ pk_le h h' ∧
  l_views (tview tl') = l_views (tview tl) ∧ tl_needsWritable tl' = tl_needsWritable tl ∧ hasUpgrade tl' = false ∧
  (covers h (tview tl) → covers h' (tview tl') ∧ no_upgrade h' (l_views (tview tl'))).
Proof.
  unfold replaceUpgrades. destruct (hasUpgrade tl) eqn:Hu; simpl; intros H; res_inv.
  - apply replaceUpgrade_all_spec in E as (Hm & Hle & Hall). split; [done|]. split; [done|].
    split; [done|]. split; [done|]. split; [done|]. intros Hc. apply (covers_mono _ _ _ Hle) in Hc.
    assert (∀ v, v ∈ views (list_of tl) → v_source v ≠ FromSnoop → ∃ k, packets h' !! v_pkt v = Some k ∧
      isRequest (cmd k) = true ∧ (cmd_needsWritable (cmd k) = true → tl_needsWritable tl = true) ∧ upgradeLike (cmd k) = false) as Hv.
    { intros v Hin Hs. unfold covers in Hc. rewrite Forall_forall in Hc. rewrite Forall_forall in Hall.
      destruct (Hc v Hin Hs) as (k & Hk & Hr & Hw & _). apply list_elem_of_fmap in Hin as (t & -> & Ht).
      destruct (Hall t Ht) as (k0 & Hk0 & Hfix). simpl in Hk. assert (k0 = k) as -> by congruence.
      exists k. split; [done|]. split; [done|]. split; [done|]. by apply replaced_fixed. }
    split; apply Forall_forall; intros v Hin Hs; destruct (Hv v Hin Hs) as (k & Hk & Hr & Hw & Hn); exists k; [|done].
    rewrite Hn. done.
  - split; [done|]. split; [done|]. split; [done|]. split; [done|]. split; [done|]. intros Hc. split; [done|].
    eapply Forall_impl; [exact Hc|]. intros v Hv Hs. destruct (Hv Hs) as (k & Hk & _ & _ & Hn). exists k. split; [done|].
    destruct (upgradeLike (cmd k)); [|done]. simpl in Hn. rewrite Hu in Hn. by specialize (Hn eq_refl).
Qed.

End MSHRCore.
