(* ===== verification/MSHROps.v ===== *)
(** * mem/cache/mshr: the operations of an MSHR as changes of its core

    One lemma per operation: which core it leaves, given the one it found.  The MSHRs of the
    other caches, whose marks it may clear, keep theirs ([frame]). *)

From Stdlib Require Import ZArith Lia.
From stdpp Require Import base numbers option list.
From S2P Require Import Prelude Flags Packet PacketQueue MSHR MSHRCore MSHRQueue CacheQueues.

Module MSHROps.
Import Packet MSHR MSHRLemmas MSHRCore.
Import CacheQueues(service_targets).

Definition frame (m : nat) (h h' : Heap) : Prop :=
  length (mshrs h') = length (mshrs h) ∧ pk_le h h' ∧ ∀ j, j ≠ m → cores h' !! j = cores h !! j.

#[global] Instance frame_refl m : Reflexive (frame m).
Proof. by intros h. Qed.
#[global] Instance frame_trans m : Transitive (frame m).
Proof.
  intros a b c (H1 & H2 & H3) (H4 & H5 & H6). split; [congruence|]. split; [by transitivity b|].
  intros j Hj. by rewrite H6, H3.
Qed.

Lemma sim_frame m h h' : sim h h' → frame m h h' ∧ cores h' = cores h.
Proof.
  intros Hs. split; [|apply Hs]. split; [by apply sim_length|]. destruct Hs as [Hp Hc].
  split; [by apply pk_le_eq|]. intros j _. by rewrite Hc.
Qed.

Lemma cores_set m x h : cores (set_mshr m x h) = <[m := core x]> (cores h).
Proof. unfold cores. simpl. by rewrite list_fmap_insert. Qed.

Lemma cores_lookup h m x : mshrs h !! m = Some x → cores h !! m = Some (core x).
Proof. intros H. unfold cores. by rewrite list_lookup_fmap, H. Qed.
Lemma cores_lookup_inv h m K : cores h !! m = Some K → ∃ x, mshrs h !! m = Some x ∧ core x = K.
Proof. unfold cores. rewrite list_lookup_fmap. destruct (mshrs h !! m) as [x|]; [|done]. intros [= <-]. by exists x. Qed.

Lemma set_frame m x h : frame m h (set_mshr m x h).
Proof.
  split; [simpl; by rewrite length_insert|]. split; [by apply pk_le_eq|].
  intros j Hj. rewrite cores_set. by apply list_lookup_insert_ne.
Qed.
Lemma set_core m x y h : mshrs h !! m = Some y → cores (set_mshr m x h) !! m = Some (core x).
Proof. intros H. rewrite cores_set. apply list_lookup_insert_eq. apply cores_lookup in H. by eapply lookup_lt_Some. Qed.

Lemma pk_frame m h h' : mshrs h' = mshrs h → pk_le h h' → frame m h h' ∧ cores h' = cores h.
Proof. intros H1 H2. unfold frame, cores. by rewrite H1. Qed.

Lemma upd_Ok m f h h' : upd m f h = Ok h' ↔ ∃ x, mshrs h !! m = Some x ∧ h' = set_mshr m (f x) h.
Proof.
  unfold upd. rewrite bind_Ok. split; [|intros (x & Hx & ->); exists x; split; [by apply get_mshr_Ok|done]].
  intros (x & Hx & H). res_inv. heap_inv. by exists x.
Qed.

Lemma upd_spec m f h h' : upd m f h = Ok h' → frame m h h' ∧
  ∃ x, mshrs h !! m = Some x ∧ cores h' !! m = Some (core (f x)).
Proof.
  rewrite upd_Ok. intros (x & Hx & ->). split; [apply set_frame|]. exists x. split; [done|]. by eapply set_core.
Qed.

Lemma core_set_targets tl x : core (set_targets tl x) = kset_targets (tview tl) (core x).
Proof. done. Qed.
Lemma core_set_deferred tl x : core (set_deferred tl x) = kset_deferred (tview tl) (core x).
Proof. done. Qed.
Lemma tview_set_list l tl : tview (set_list l tl) = mkTL (views l) (l_writable (tview tl)) (l_upgrade (tview tl)).
Proof. done. Qed.

(** ** Allocation and service *)

Definition no_snoop (vs : list View) : Prop := Forall (λ v, v_source v ≠ FromSnoop) vs.

Lemma allocate_spec t m ba bs p ready ord a h h' : MSHR.allocate t m ba bs p ready ord a h = Ok h' →
  frame m h h' ∧ ∃ K K' k src, cores h !! m = Some K ∧ cores h' !! m = Some K' ∧ packets h !! p = Some k ∧
    (src = FromPrefetcher ∧ cmd k = HardPFReq ∨ src = FromCPU ∧ cmd k ≠ HardPFReq) ∧
    k_inService K' = false ∧ k_ready K' = ready ∧ k_order K' = ord ∧ k_blkAddr K' = ba ∧
    tl_added h (mkView ord src p ready) (mkTL (l_views (k_targets K)) false false) (k_targets K') ∧
    k_deferred K' = mkTL (l_views (k_deferred K)) false false.
Proof.
  unfold MSHR.allocate. intros H. res_inv. heap_inv. destruct a3 as [tl h1]. res_inv. heap_inv.
  set (y := mkMSHR ready _ _ _ _ _ _ _ _ _ _ _ _ _ _) in E2.
  apply add_spec in E2 as [Hs Ha]. apply (sim_frame m) in Hs as [Hf Hc]. apply upd_spec in E3 as (Hf' & x & Hx & Hk).
  split; [transitivity (set_mshr m y h); [apply set_frame|by transitivity h1]|].
  assert (core x = core y) as Hxy.
  { apply cores_lookup in Hx. rewrite Hc in Hx. erewrite set_core in Hx by done. by apply (inj Some) in Hx. }
  exists (core a0), (core (set_targets tl x)), a1, (if bool_decide (cmd a1 = HardPFReq) then FromPrefetcher else FromCPU).
  split; [by apply cores_lookup|]. split; [exact Hk|]. split; [done|].
  split; [case_bool_decide; auto|].
  assert (core (set_targets tl x) = kset_targets (tview tl) (core y)) as ->. { by rewrite <-Hxy. }
  simpl. split_and!; try done.
Qed.

(** Clearing the marks of its targets leaves an MSHR with the core it had. *)
Lemma clear_upd_spec m x y h h1 h2 l' : mshrs h !! m = Some x →
  tl_clearDownstreamPending (list_of (targets y)) (set_mshr m y h) = Ok (l', h1) →
  upd m (λ x, set_targets (set_list l' (targets x)) x) h1 = Ok h2 →
  frame m h h2 ∧ cores h2 !! m = Some (core y).
Proof.
  intros Hx H1 H2. apply tl_clear_sim in H1 as [Hs ->]. apply (sim_frame m) in Hs as [Hf Hc].
  apply upd_spec in H2 as (Hf' & z & Hz & Hk).
  split; [transitivity (set_mshr m y h); [apply set_frame|by transitivity h1]|].
  rewrite Hk. apply cores_lookup in Hz. rewrite Hc in Hz. erewrite set_core in Hz by done. apply (inj Some) in Hz.
  rewrite core_set_targets, tview_unmark, tview_set_list. change (tview (targets z)) with (k_targets (core z)).
  rewrite <-Hz. by destruct y as [????????????? [] ?].
Qed.

Lemma markInService_spec m pm h h' : MSHR.markInService m pm h = Ok h' →
  frame m h h' ∧ ∃ K, cores h !! m = Some K ∧ k_inService K = false ∧
    cores h' !! m = Some (kset_service true (l_writable (k_targets K) || pm) false false K).
Proof.
  unfold MSHR.markInService. intros H. res_inv. heap_inv. 
  set (y := set_modes _ _ _ _ _) in E1.
  assert (frame m h a1 ∧ cores a1 !! m = Some (core y)) as [Hf Hc].
  { destruct (downstreamPending y); simpl in E1; res_inv; [split; [apply set_frame|by eapply set_core]|].
    destruct a0 as [l h1]. by eapply clear_upd_spec. }
  apply upd_spec in H as (Hf' & x & Hx & Hk).
  split; [by transitivity a1|].
  exists (core a). split; [by apply cores_lookup|]. bool_prop. split; [done|]. rewrite Hk.
  apply cores_lookup in Hx. rewrite Hc in Hx. apply (inj Some) in Hx.
  transitivity (Some (core x)); [by destruct x|]. by rewrite <-Hx.
Qed.

Lemma deallocate_spec m h h' : MSHR.deallocate m h = Ok h' →
  frame m h h' ∧ ∃ K K', cores h !! m = Some K ∧ l_views (k_targets K) = [] ∧ cores h' !! m = Some K' ∧
    l_views (k_targets K') = [] ∧ k_deferred K' = k_deferred K ∧ k_inService K' = false.
Proof.
  unfold MSHR.deallocate. intros H. res_inv. heap_inv. split; [apply set_frame|].
  apply bool_decide_eq_true in E0. exists (core a), (core (set_inService false (set_targets (resetFlags (targets a)) a))).
  split; [by apply cores_lookup|]. simpl. rewrite E0. split; [done|]. split; [by eapply set_core|]. done.
Qed.

(** ** New targets *)

Lemma add_upd_spec m x f t p ready ord src mp a tl0 tl h h1 h2 : mshrs h !! m = Some x →
  add t p ready ord src mp a tl0 h = Ok (tl, h1) → upd m f h1 = Ok h2 →
  frame m h h2 ∧ tl_added h (mkView ord src p ready) (tview tl0) (tview tl) ∧
  ∃ z, core z = core x ∧ cores h2 !! m = Some (core (f z)).
Proof.
  intros Hx Ha Hu. apply add_spec in Ha as [Hs Ht]. apply (sim_frame m) in Hs as [Hf Hc].
  apply upd_spec in Hu as (Hf' & z & Hz & Hk). split; [by transitivity h1|]. split; [done|]. exists z. split; [|done].
  apply cores_lookup in Hx, Hz. congruence.
Qed.

Lemma mustDefer_false x k k0 : mustDefer x k k0 = Ok false →
  l_views (k_deferred (core x)) = [] ∧ (inService x = true → postInvalidate x = false).
Proof.
  unfold mustDefer. destruct (_ || _) eqn:Hc; [done|]. intros H. bool_prop. apply bool_decide_eq_true in H1.
  simpl. rewrite H1. split; [done|]. intros Hi. rewrite Hi in H. by destruct (postInvalidate x).
Qed.

Lemma allocateTarget_spec t m p ready ord a h h' : allocateTarget t m p ready ord a h = Ok h' →
  frame m h h' ∧ ∃ K k h1 l, cores h !! m = Some K ∧ packets h !! p = Some k ∧ cmd k ≠ HardPFReq ∧
    pk_le h h1 ∧ pk_le h1 h' ∧
    ((cores h' !! m = Some (kset_targets l K) ∧ tl_added h1 (mkView ord FromCPU p ready) (k_targets K) l ∧
      l_views (k_deferred K) = [] ∧ (k_inService K = true → k_postInvalidate K = false)) ∨
     (cores h' !! m = Some (kset_deferred l K) ∧ tl_added h1 (mkView ord FromCPU p ready) (k_deferred K) l ∧
      (k_inService K = true → k_postInvalidate K = true →
       ∃ k1, packets h1 !! p = Some k1 ∧ cmd k1 = replaced (cmd k)))).
Proof.
  unfold allocateTarget. intros H. res_inv. heap_inv. bool_prop. apply bool_decide_eq_false in E1.
  destruct a5; res_inv.
  - assert (mshrs a2 = mshrs h ∧ pk_le h a2 ∧ (inService a0 = true → postInvalidate a0 = true →
      ∃ k1, packets a2 !! p = Some k1 ∧ cmd k1 = replaced (cmd a1))) as (Hm & Hle & Hr).
    { destruct (inService a0 && postInvalidate a0) eqn:Hb.
      - apply replaceUpgrade_spec in E5 as (Hm & Hle & k & k1 & Hk & Hk1 & Hc). split; [done|]. split; [done|].
        intros _ _. exists k1. split; [done|]. congruence.
      - res_inv. split; [done|]. split; [done|]. intros Hi Hp. by rewrite Hi, Hp in Hb. }
    destruct a5 as [tl h1]. eapply add_upd_spec in E6 as (Hf & Ht & z & Hz & Hk); [|by rewrite Hm|exact H].
    destruct (pk_frame m h a2 Hm Hle) as [Hf0 _]. split; [by transitivity a2|].
    exists (core a0), a1, a2, (tview tl). split; [by apply cores_lookup|]. split; [done|]. split; [done|]. split; [done|].
    split; [apply Hf|]. right. by rewrite Hk, core_set_deferred, Hz.
  - destruct a2 as [tl h1]. eapply add_upd_spec in E5 as (Hf & Ht & z & Hz & Hk); [|done|exact H].
    split; [done|]. exists (core a0), a1, h, (tview tl). split; [by apply cores_lookup|]. split; [done|]. split; [done|].
    split; [done|]. split; [apply Hf|]. left. rewrite Hk, core_set_targets, Hz. apply mustDefer_false in E4. naive_solver.
Qed.

(** ** Snoops *)

(** The snoop joins the targets, or leaves them. *)
Definition pk_is (h : Heap) (c : Command) (p : nat) : Prop :=
  ∃ k, packets h !! p = Some k ∧ (cmd k = c ∨ cmd k = replaced c).

Lemma pk_is_mono h h' c p : pk_le h h' → pk_is h c p → pk_is h' c p.
Proof.
  intros Hle (k & Hk & Hc). destruct (Hle _ _ Hk) as (k' & Hk' & Hst). exists k'. split; [done|].
  destruct Hst as [-> | ->], Hc as [-> | ->]; auto. right. apply replaced_idemp.
Qed.
Lemma pk_is_replaced h c k p : pk_step c k → pk_is h (cmd k) p → pk_is h (cmd c) p.
Proof.
  intros [Hs|Hs] (k' & Hk' & Hc); exists k'; (split; [done|]); rewrite Hs in Hc; [done|]. right.
  destruct Hc as [-> | ->]; [done|apply replaced_idemp].
Qed.

Definition snoop_core (h' : Heap) (c : Command) (t ord : Z) (K K' : Core) : Prop :=
  (k_targets K' = k_targets K ∧ k_postInvalidate K' = k_postInvalidate K) ∨
  (k_inService K = true ∧ k_postInvalidate K = false ∧
   k_postInvalidate K' = cmd_needsWritable c || isInvalidate c ∧
   ∃ p, pk_is h' c p ∧
     k_targets K' = mkTL (l_views (k_targets K) ++ [mkView ord FromSnoop p t]) (l_writable (k_targets K)) (l_upgrade (k_targets K))).

(** The part of a core that a snoop never changes. *)
Definition snoop_frame (K K' : Core) : Prop :=
  k_ready K' = k_ready K ∧ k_order K' = k_order K ∧ k_inService K' = k_inService K ∧
  l_views (k_deferred K') = l_views (k_deferred K).

(** A list whose flags are right stays so, and has no upgrade left when the snoop is one
    that [dirty]s the block. *)
Definition replaces (dirty : bool) (h h' : Heap) (l l' : TL) : Prop :=
  l_views l' = l_views l ∧ (covers h l → covers h' l' ∧ (dirty = true → no_upgrade h' (l_views l'))).

Lemma set_flag_step k f : pk_step k (set_flag k f).
Proof. by left. Qed.

Lemma setCacheResponding_step k k' : setCacheResponding k = Ok k' → pk_step k k'.
Proof. unfold setCacheResponding. intros H. res_inv. by left. Qed.
Lemma setResponderHadWritable_step k k' : setResponderHadWritable k = Ok k' → pk_step k k'.
Proof. unfold setResponderHadWritable. intros H. res_inv. by left. Qed.
Lemma setSatisfied_step k k' : setSatisfied k = Ok k' → pk_step k k'.
Proof. unfold setSatisfied. intros H. res_inv. by left. Qed.

Lemma frame_cores m h h1 h2 : mshrs h1 = mshrs h → pk_le h h1 → frame m h1 h2 → frame m h h2.
Proof. intros Hm Hle. transitivity h1; [|done]. by apply pk_frame. Qed.

(** The snoop that is remembered, until its flags are set. *)
Lemma snoop_add_spec t m p x k k1 cp ord mp tl0 tl (nw inval : bool) h h1 h2 : mshrs h !! m = Some x → packets h !! p = Some k →
  pk_step k k1 → tview tl0 = k_targets (core x) →
  add t (length (packets h)) t ord FromSnoop mp false tl0 (set_packet p k1 (snd (alloc_pkt cp h))) = Ok (tl, h1) →
  upd m (λ x, set_modes (pendingModified x) (if nw || inval then true else postInvalidate x) (postDowngrade x)
                (wasWholeLineWrite x) (set_targets tl x)) h1 = Ok h2 →
  frame m h h2 ∧ cores h2 !! m = Some
    (kset_service (k_inService (core x)) (k_modified (core x)) (nw || inval || k_postInvalidate (core x)) (k_postDowngrade (core x))
       (kset_targets (mkTL (l_views (k_targets (core x)) ++ [mkView ord FromSnoop (length (packets h)) t])
                        (l_writable (k_targets (core x))) (l_upgrade (k_targets (core x)))) (core x))) ∧
  pk_is h2 (cmd cp) (length (packets h)).
Proof.
  intros Hx Hp Hk1 Htl Ha Hu. eapply add_upd_spec in Ha as (Hf & [Hv Ht] & z & Hz & Hk); [|done|exact Hu].
  rewrite Htl in *. split.
  { eapply frame_cores; [| |exact Hf]; [done|]. transitivity (snd (alloc_pkt cp h)); [apply pk_le_alloc|].
    eapply pk_le_set; [|done]. simpl. by apply lookup_app_l_Some. }
  split; [|eapply pk_is_mono; [apply Hf|]; exists cp; split; [|by left]; simpl; rewrite list_lookup_insert_ne;
    [by rewrite lookup_app_r, Nat.sub_diag|]; apply lookup_lt_Some in Hp; lia].
  rewrite Hk. destruct Ht as [(_ & Hw & Hup)|[Hn _]]; [|done].
  change (Some (kset_service (k_inService (core z)) (k_modified (core z)) (if nw || inval then true else k_postInvalidate (core z))
    (k_postDowngrade (core z)) (kset_targets (tview tl) (core z))) = Some (kset_service (k_inService (core x)) (k_modified (core x))
      (nw || inval || k_postInvalidate (core x)) (k_postDowngrade (core x))
      (kset_targets (mkTL (l_views (k_targets (core x)) ++ [mkView ord FromSnoop (length (packets h)) t])
        (l_writable (k_targets (core x))) (l_upgrade (k_targets (core x)))) (core x)))).
  rewrite Hz. assert (tview tl = mkTL (l_views (k_targets (core x)) ++ [mkView ord FromSnoop (length (packets h)) t])
    (l_writable (k_targets (core x))) (l_upgrade (k_targets (core x)))) as ->.
  { destruct (tview tl) as [vs w u]. simpl in *. congruence. }
  by destruct (nw || inval).
Qed.

Lemma replaces_mono dirty h h1 h2 l l' : pk_le h1 h2 → replaces dirty h h1 l l' → replaces dirty h h2 l l'.
Proof.
  intros Hle [Hv Hc]. split; [done|]. intros H. apply Hc in H as [H1 H2]. split; [by eapply covers_mono|].
  intros Hd. eapply no_upgrade_mono; eauto.
Qed.

Lemma replaces_refl h h' l : pk_le h h' → replaces false h h' l l.
Proof. intros Hle. split; [done|]. intros H. split; [by eapply covers_mono|done]. Qed.

Lemma replaceUpgrades_replaces dirty tl h tl' h' : replaceUpgrades tl h = Ok (tl', h') →
  mshrs h' = mshrs h ∧ pk_le h h' ∧ replaces dirty h h' (tview tl) (tview tl').
Proof.
  intros H. apply replaceUpgrades_spec in H as (Hm & Hle & Hv & _ & _ & Hc). split; [done|]. split; [done|].
  split; [done|]. intros H. apply Hc in H as [H1 H2]. done.
Qed.

(** The upgrades of both lists are replaced. *)
Lemma replace_both_spec m x (dirty : bool) h h' : mshrs h !! m = Some x →
  (if dirty : bool then
     '(tl, h) ← replaceUpgrades (targets x) h; '(dl, h) ← replaceUpgrades (deferredTargets x) h;
     upd m (λ x, set_deferred dl (set_targets tl x)) h
   else Ok h) = Ok h' →
  frame m h h' ∧ ∃ l l', cores h' !! m = Some (kset_deferred l' (kset_targets l (core x))) ∧
    replaces dirty h h' (k_targets (core x)) l ∧ replaces dirty h h' (k_deferred (core x)) l'.
Proof.
  intros Hx H. destruct dirty; res_inv.
  - destruct a as [tl h1]. res_inv. destruct a as [dl h2].
    apply (replaceUpgrades_replaces true) in E as (Hm1 & Hle1 & H1). apply (replaceUpgrades_replaces true) in E0 as (Hm2 & Hle2 & H2).
    apply upd_spec in H as (Hf & z & Hz & Hk). rewrite Hm2, Hm1, Hx in Hz. injection Hz as <-.
    split; [eapply frame_cores; [| |exact Hf]; [congruence|by transitivity h1]|].
    destruct Hf as (_ & Hle3 & _). exists (tview tl), (tview dl). split; [done|]. split.
    + eapply replaces_mono; [|exact H1]. by transitivity h2.
    + eapply replaces_mono; [exact Hle3|]. destruct H2 as [Hv Hc]. split; [done|]. intros H. apply Hc. by eapply covers_mono.
  - split; [done|]. exists (k_targets (core x)), (k_deferred (core x)). split; [by apply cores_lookup|].
    by split; apply replaces_refl.
Qed.

Lemma replace_deferred_spec m x (dirty : bool) h h' : mshrs h !! m = Some x →
  (if dirty : bool then '(dl, h) ← replaceUpgrades (deferredTargets x) h; upd m (set_deferred dl) h else Ok h) = Ok h' →
  frame m h h' ∧ ∃ l', cores h' !! m = Some (kset_deferred l' (core x)) ∧ replaces dirty h h' (k_deferred (core x)) l'.
Proof.
  intros Hx H. destruct dirty; res_inv.
  - destruct a as [dl h2]. apply (replaceUpgrades_replaces true) in E as (Hm2 & Hle2 & H2).
    apply upd_spec in H as (Hf & z & Hz & Hk). rewrite Hm2, Hx in Hz. injection Hz as <-.
    split; [by eapply frame_cores|]. destruct Hf as (_ & Hle3 & _). exists (tview dl). split; [done|].
    by eapply replaces_mono.
  - split; [done|]. exists (k_deferred (core x)). split; [by apply cores_lookup|]. by apply replaces_refl.
Qed.

Lemma Packet_copy_cmd k a b c : Packet_copy k a b = Ok c → cmd c = cmd k.
Proof.
  unfold Packet_copy. intros H.
  set (k0 := if Flags.isSet (Packet.flags k) FAILS_TRANSACTION then _ else _) in H.
  assert (cmd k0 = cmd k) as Hk0 by (unfold k0; by repeat case_match).
  destruct b; [|by injection H as <-]. destruct (Flags.isSet _ STATIC_DATA); [by injection H as <-|].
  apply allocate_cmd in H. congruence.
Qed.

Lemma Packet_blk_cmd r c b : cmd (Packet_blk r c b) = c.
Proof. unfold Packet_blk. by destruct (paddr r). Qed.

#[local] Instance Ok_inj {A} : Inj (=) (=) (@Ok A).
Proof. by intros x y [= ->]. Qed.

Lemma snoop_middle_spec t m p x ord (pending inval nw will mp : bool) tl0 h h' (cl : Packet → bool) (cp : Packet → result Packet) :
  mshrs h !! m = Some x → tview tl0 = k_targets (core x) → (∀ k c, cp k = Ok c → cmd c = cmd k) →
  (if pending || inval then
     k ← get_pkt h p;
     cp ← cp k;
     let '(cp_pkt, h) := alloc_pkt cp h in
     k ← (if will : bool then k ← setCacheResponding k; setResponderHadWritable k
          else if cl k then setSatisfied k else Ok k);
     let h := set_packet p k h in
     '(tl, h) ← add t cp_pkt t ord FromSnoop mp false tl0 h;
     upd m (λ x, set_modes (pendingModified x) (if nw || inval then true else postInvalidate x)
                   (postDowngrade x) (wasWholeLineWrite x) (set_targets tl x)) h
   else Ok h) = Ok h' →
  frame m h h' ∧ ∃ l pi, cores h' !! m = Some (kset_service (k_inService (core x)) (k_modified (core x)) pi (k_postDowngrade (core x))
                                                 (kset_targets l (core x))) ∧
    (l = k_targets (core x) ∧ pi = k_postInvalidate (core x) ∧ inval = false ∨
     pi = nw || inval || k_postInvalidate (core x) ∧
     ∃ q, l = mkTL (l_views (k_targets (core x)) ++ [mkView ord FromSnoop q t]) (l_writable (k_targets (core x))) (l_upgrade (k_targets (core x))) ∧
       ∀ k, packets h !! p = Some k → pk_is h' (cmd k) q).
Proof.
  intros Hx Htl Hcp H. destruct (pending || inval) eqn:Hb.
  - apply bind_Ok in H as (k & Hk & H). apply bind_Ok in H as (c & Hc0 & H). simpl in H.
    apply bind_Ok in H as (k1 & Hk1 & H). apply bind_Ok in H as ([tl h1] & Ha & H). heap_inv.
    assert (pk_step k k1) as Hst.
    { destruct will; [|destruct (cl k); [by apply setSatisfied_step|by injection Hk1 as <-]].
      apply bind_Ok in Hk1 as (k2 & H1 & H2). transitivity k2; [by apply setCacheResponding_step|by apply setResponderHadWritable_step]. }
    destruct (snoop_add_spec _ _ _ _ _ _ _ _ _ _ _ _ _ _ _ _ Hx Hk Hst Htl Ha H) as (Hf & Hc & Hi).
    split; [done|]. eexists _, _. split; [exact Hc|]. right. split; [done|]. eexists. split; [done|].
    intros k0 Hk0. assert (k0 = k) as -> by congruence. by rewrite <-(Hcp _ _ Hc0).
  - injection H as <-. split; [done|]. exists (k_targets (core x)), (k_postInvalidate (core x)).
    apply orb_false_iff in Hb as [_ ->]. split; [|by left]. by apply cores_lookup.
Qed.

Lemma downgrade_spec m p x (c w b : bool) h h' : mshrs h !! m = Some x →
  (if c then
     h ← upd m (λ x, set_modes (pendingModified x) (postInvalidate x) true (wasWholeLineWrite x) x) h;
     k ← get_pkt h p; Ok (w, set_packet p (setHasSharers k) h)
   else Ok (w, h)) = Ok (b, h') →
  frame m h h' ∧ ∃ pd, cores h' !! m = Some (kset_service (k_inService (core x)) (k_modified (core x)) (k_postInvalidate (core x)) pd (core x)).
Proof.
  intros Hx H. destruct c.
  - apply bind_Ok in H as (h1 & H1 & H). res_inv. heap_inv. apply upd_spec in H1 as (Hf & z & Hz & Hk).
    assert (z = x) as -> by congruence. split; [|exists true; exact Hk].
    transitivity h1; [done|]. apply pk_frame; [done|].
    eapply pk_le_set; [done|]. apply set_flag_step.
  - injection H as <- <-. split; [done|]. exists (postDowngrade x). by apply cores_lookup.
Qed.

Lemma handleSnoop_spec t m p ord h b h' k : handleSnoop t m p ord h = Ok (b, h') → packets h !! p = Some k →
  let dirty := cmd_needsWritable (cmd k) || isCacheInvalidate (req k) in
  frame m h h' ∧ ∃ K K', cores h !! m = Some K ∧ cores h' !! m = Some K' ∧ snoop_frame K K' ∧
    replaces dirty h h' (k_deferred K) (k_deferred K') ∧
    ((b = false ∧ k_postInvalidate K' = k_postInvalidate K ∧ replaces dirty h h' (k_targets K) (k_targets K')) ∨
     (k_inService K = true ∧ snoop_core h' (cmd k) t ord K K')).
Proof.
  intros H Hp dirty. unfold handleSnoop in H. res_inv. heap_inv. assert (a0 = k) as -> by congruence.
  apply needsWritable_Ok in E1 as [Hr ->]. fold dirty in H. destruct (negb (inService a) || _) eqn:Hs.
  - apply bind_Ok in H as (h1 & H1 & H). res_inv.
    apply (replace_both_spec _ _ _ _ _ E) in H1 as (Hf & l & l' & Hk & H1 & H2). split; [done|].
    exists (core a), (kset_deferred l' (kset_targets l (core a))). split; [by apply cores_lookup|]. split; [done|].
    split; [split_and!; try done; apply H2|]. split; [done|]. by left.
  - apply bind_Ok in H as (h1 & H1 & H). apply (replace_deferred_spec _ _ _ _ _ E) in H1 as (Hf & l' & Hk & Hl).
    apply bind_Ok in H as (t0 & _ & H). apply bind_Ok in H as (tk & _ & H).
    apply orb_false_iff in Hs as [Hs _]. apply negb_false_iff in Hs.
    pose proof (cores_lookup _ _ _ E) as Hc0. destruct (cores_lookup_inv _ _ _ Hk) as (x1 & Hx1 & Hcx1).
    destruct (postInvalidate a || _) eqn:Hpi.
    { injection H as <- <-. split; [done|]. exists (core a), (kset_deferred l' (core a)). split; [done|]. split; [done|].
      split; [split_and!; try done; apply Hl|]. split; [done|]. right. split; [done|]. by left. }
    apply orb_false_iff in Hpi as [Hpi _]. apply bind_Ok in H as (h2 & H2 & H).
    set (will := pendingModified a && needsResponse (cmd k) && negb (isClean (cmd k))) in *.
    apply (snoop_middle_spec t m p x1 ord (pendingModified a) (isInvalidate (cmd k)) (cmd_needsWritable (cmd k)) will _ _ h1 h2
      (λ k0, pendingModified a && isClean (cmd k0))
      (λ k0, if will then Packet_copy k0 true true else Ok (Packet_blk (req k0) (cmd k0) (blkSize a))) Hx1) in H2
      as (Hf2 & l & pi & Hk2 & Hcase); [|by rewrite Hcx1|].
    2: { intros k0 c. destruct will; [apply Packet_copy_cmd|]. intros Hb. apply (inj Ok) in Hb as <-. apply Packet_blk_cmd. }
    destruct (cores_lookup_inv _ _ _ Hk2) as (x2 & Hx2 & Hcx2).
    eapply downgrade_spec in H as (Hf3 & pd & Hk3); [|done]. rewrite Hcx2, Hcx1 in Hk3.
    split; [transitivity h1; [done|by transitivity h2]|].
    eexists (core a), _. split; [done|]. split; [exact Hk3|]. split; [split_and!; try done; apply Hl|].
    split; [eapply replaces_mono; [|exact Hl]; transitivity h2; [apply Hf2|apply Hf3]|].
    right. split; [done|]. unfold snoop_core. rewrite Hcx1 in Hcase. simpl in *.
    destruct Hcase as [(-> & -> & _)|(-> & q & -> & Hq)]; [by left|]. right.
    split; [done|]. split; [done|]. rewrite Hpi, orb_false_r. split; [done|]. exists q. split; [|done].
    destruct (proj1 (proj2 Hf) _ _ Hp) as (k1 & Hk1 & Hst). eapply pk_is_mono; [apply Hf3|].
    eapply pk_is_replaced; [exact Hst|by apply Hq].
Qed.

(** ** Responses *)

Definition is_req (v : View) : Prop := v_source v ≠ FromSnoop.
#[global] Instance is_req_dec v : Decision (is_req v) := decide (v_source v ≠ FromSnoop).
Definition reqs (vs : list View) : list View := filter is_req vs.

Lemma reqs_app a b : reqs (a ++ b) = reqs a ++ reqs b.
Proof. apply filter_app. Qed.
Lemma reqs_no_snoop vs : no_snoop vs → reqs vs = vs.
Proof. induction 1; [done|]. unfold reqs. rewrite filter_cons_True by done. by f_equal. Qed.

(** The targets [vs] are split in those that a response serves and those that stay: all that
    stays is without snoops, or starts with the locked read that the others wait for. *)
Definition split_targets (h : Heap) (vs va vb : list View) : Prop :=
  (reqs vs = reqs va ++ vb ∧ no_snoop vb) ∨
  (∃ pre v post k, vs = pre ++ v :: post ∧ va = pre ++ [v] ∧ vb = v :: post ∧
     packets h !! v_pkt v = Some k ∧ cmd k = LockedRMWReadReq).

Lemma reqs_cons v vs : reqs (v :: vs) = (if decide (is_req v) then v :: reqs vs else reqs vs).
Proof. unfold reqs. by rewrite filter_cons. Qed.

Lemma take_snoops_spec l : ∀ a b, take_snoops l = Ok (a, b) → reqs (views a) = [] ∧ views b = reqs (views l) ∧ no_snoop (views b).
Proof.
  induction l as [|t l IH]; intros a b H; simpl in H; [injection H as <- <-; repeat constructor|].
  change (views (t :: l)) with (view t :: views l). rewrite reqs_cons. case_bool_decide as Hs.
  - apply bind_Ok in H as ([a0 b0] & H0 & H). injection H as <- <-. apply IH in H0 as (H1 & H2 & H3).
    rewrite decide_True by (unfold is_req; simpl; by rewrite Hs). split; [done|].
    change (views (t :: b0)) with (view t :: views b0). split; [by f_equal|]. constructor; [|done]. simpl. by rewrite Hs.
  - apply bind_Ok in H as (u & Hu & H). apply bind_Ok in H as ([a0 b0] & H0 & H). injection H as <- <-. heap_inv.
    apply bool_decide_eq_true in Hu. apply IH in H0 as (H1 & H2 & H3).
    rewrite decide_False by (unfold is_req; simpl; rewrite Hu; by intros []).
    change (views (t :: a0)) with (view t :: views a0). rewrite reqs_cons.
    rewrite decide_False by (unfold is_req; simpl; rewrite Hu; by intros []). done.
Qed.

Lemma take_to_locked_spec h l : ∀ a b, take_to_locked h l = Ok (a, b) → split_targets h (views l) (views a) (views b).
Proof.
  induction l as [|t l IH]; intros a b H; simpl in H; [injection H as <- <-; left; repeat constructor|].
  apply bind_Ok in H as (k & Hk & H). heap_inv. case_bool_decide as Hc.
  - injection H as <- <-. right. by exists [], (view t), (views l), k.
  - apply bind_Ok in H as ([a0 b0] & H0 & H). injection H as <- <-.
    change (views (t :: l)) with (view t :: views l). change (views (t :: a0)) with (view t :: views a0).
    destruct (IH _ _ H0) as [[H1 H2]|(pre & v & post & k0 & Hl & Ha & Hb & Hk0 & Hc0)].
    + left. split; [|done]. rewrite !reqs_cons, H1. by destruct (decide (is_req (view t))).
    + right. exists (view t :: pre), v, post, k0. rewrite Hl, Ha. done.
Qed.

Lemma extract_spec m k h l h' : extractServiceableTargets m k h = Ok (l, h') →
  packets h' = packets h ∧ frame m h h' ∧ ∃ K l', cores h !! m = Some K ∧ cores h' !! m = Some (kset_targets l' K) ∧
    covers h' l' ∧ split_targets h (l_views (k_targets K)) (views (list_of l)) (l_views l').
Proof.
  unfold extractServiceableTargets. intros H. apply bind_Ok in H as (x & Hx & H). heap_inv.
  apply bind_Ok in H as ([a b] & Hab & H). apply bind_Ok in H as (r & Hr & H). apply bind_Ok in H as (tl & Htl & H).
  injection H as <- <-. apply populateFlags_covers in Hr as [Hr _], Htl as [Htl Hc]. simpl in Hr, Htl.
  split; [done|]. split; [apply set_frame|]. exists (core x), (tview tl). split; [by apply cores_lookup|].
  split; [by eapply set_core|]. split; [eapply covers_mono; [by apply pk_le_eq|done]|]. simpl. rewrite Hr, Htl.
  case_bool_decide; [|by apply take_to_locked_spec].
  destruct (list_of (targets x)) as [|t l]; [done|].
  apply bind_Ok in Hab as (u & Hu & Hab). apply bind_Ok in Hab as (k0 & Hk0 & Hab). heap_inv. case_bool_decide as Hc0.
  - injection Hab as <- <-. right. by exists [], (view t), (views l), k0.
  - apply bind_Ok in Hab as ([a0 b0] & H0 & Hab). injection Hab as <- <-. apply take_snoops_spec in H0 as (H1 & H2 & H3).
    left. split; [|done]. change (views (t :: l)) with (view t :: views l). change (views (t :: a0)) with (view t :: views a0).
    rewrite !reqs_cons, H1, H2.
    assert (is_req (view t)) as Hrq.
    { unfold is_req. simpl. intros Hs. rewrite Hs in Hu. done. }
    by rewrite !decide_True.
Qed.

(** A locked read leaves a dummy for its packet: what else a list says stays. *)
Definition stamp (v : View) : Z * Source * Z := (v_order v, v_source v, v_ready v).

Definition kind_ok (h : Heap) (v : View) : Prop :=
  ∃ k, packets h !! v_pkt v = Some k ∧ (v_source v = FromCPU → cmd k ≠ HardPFReq) ∧ (v_source v ≠ FromCPU → cmd k ≠ LockedRMWReadReq).

Lemma kind_ok_mono h h' v : pk_at h h' (v_pkt v) → kind_ok h v → kind_ok h' v.
Proof.
  intros Hle (k & Hk & H1 & H2). destruct (Hle _ Hk) as (k' & Hk' & Hst). exists k'. split; [done|].
  destruct Hst as [-> | ->]; [done|]. split; [by rewrite replaced_HardPFReq|].
  intros Hs Hc. apply (H2 Hs). destruct (cmd k); done.
Qed.

Definition redirected (h h' : Heap) (l l' : TL) : Prop :=
  stamp <$> l_views l' = stamp <$> l_views l ∧ (covers h l → covers h' l') ∧
  (Forall (kind_ok h) (l_views l) → Forall (kind_ok h') (l_views l')).

Lemma redirected_refl h l : redirected h h l l.
Proof. done. Qed.
Lemma redirected_trans h h1 h2 l l1 l2 : redirected h h1 l l1 → redirected h1 h2 l1 l2 → redirected h h2 l l2.
Proof. intros (H1 & H2 & H3) (H4 & H5 & H6). split; [congruence|]. split; auto. Qed.

Lemma Packet_new_cmd r c k : Packet_new r c = Ok k → cmd k = c.
Proof.
  unfold Packet_new. destruct (match paddr r with Some _ => _ | None => _ end) as [[a s] f]. intros H.
  apply bind_Ok in H as (u & _ & H). destruct (match req_size r with Some _ => _ | None => _ end). by injection H as <-.
Qed.

Lemma updateLocked_spec m p k h h' : updateLockedRMWReadTarget m p h = Ok h' → packets h !! p = Some k → cmd k = LockedRMWReadReq →
  frame m h h' ∧ ∃ K l' v vs k', cores h !! m = Some K ∧ cores h' !! m = Some (kset_targets l' K) ∧
    redirected h h' (k_targets K) l' ∧ l_views l' = v :: vs ∧ packets h' !! v_pkt v = Some k' ∧ cmd k' = LockedRMWReadReq.
Proof.
  unfold updateLockedRMWReadTarget. intros H Hp Hc. apply bind_Ok in H as (x & Hx & H). heap_inv.
  destruct (list_of (targets x)) as [|t l] eqn:Hl; [done|].
  apply bind_Ok in H as (u & Hu & H). apply bind_Ok in H as (k0 & Hk0 & H). apply bind_Ok in H as (d & Hd & H). heap_inv.
  apply bool_decide_eq_true in Hu. subst p. apply Packet_new_cmd in Hd. simpl in H. apply upd_spec in H as (Hf & z & Hz & Hk).
  simpl in Hz. assert (z = x) as -> by congruence.
  set (h1 := mkHeap (packets h ++ [d]) (mshrs h)) in *.
  assert (pk_le h h1) as Hle by apply pk_le_alloc.
  assert (packets h1 !! length (packets h) = Some d) as Hd1 by (simpl; by rewrite lookup_app_r, Nat.sub_diag).
  destruct (proj1 (proj2 Hf) _ _ Hd1) as (d2 & Hd2 & Hs2).
  assert (cmd d2 = LockedRMWReadReq) as Hcd by (destruct Hs2 as [-> | ->]; by rewrite Hd).
  split; [eapply frame_cores; [| |exact Hf]; done|].
  exists (core x), (tview (set_list (set_pkt (length (packets h)) t :: l) (targets x))), (view (set_pkt (length (packets h)) t)), (views l), d2.
  split; [by apply cores_lookup|]. split; [exact Hk|]. split; [|done].
  assert (pk_le h h') as Hle' by (transitivity h1; [done|apply Hf]).
  assert (l_views (k_targets (core x)) = view t :: views l) as Hv by (simpl; by rewrite Hl).
  unfold redirected, covers. rewrite Hv. split; [done|]. simpl. split; intros HF; apply Forall_cons in HF as [HF1 HF2]; constructor.
  - intros Hs. destruct (HF1 Hs) as (k1 & Hk1 & Hr & Hw & Hup). simpl in Hk1. exists d2. split; [done|].
    assert (k1 = k) as -> by congruence. rewrite Hcd. rewrite Hc in Hw, Hup. done.
  - eapply Forall_impl; [exact HF2|]. intros v. apply asks_mono; auto.
  - destruct HF1 as (k1 & Hk1 & H1 & H2). simpl in Hk1. assert (k1 = k) as -> by congruence. exists d2. split; [done|].
    rewrite Hcd. simpl. split; [done|]. intros Hs. by specialize (H2 Hs).
  - eapply Forall_impl; [exact HF2|]. intros v. by apply kind_ok_mono.
Qed.

Definition locked_front (h : Heap) (l : TL) : Prop :=
  ∃ v vs k, l_views l = v :: vs ∧ packets h !! v_pkt v = Some k ∧ cmd k = LockedRMWReadReq.

Lemma locked_cmd_mono h h' p k : pk_le h h' → packets h !! p = Some k → cmd k = LockedRMWReadReq →
  ∃ k', packets h' !! p = Some k' ∧ cmd k' = LockedRMWReadReq.
Proof. intros Hle Hk Hc. destruct (Hle _ _ Hk) as (k' & Hk' & [Hs|Hs]); exists k'; by rewrite Hs, Hc. Qed.

Lemma locked_front_mono h h' l : pk_le h h' → locked_front h l → locked_front h' l.
Proof.
  intros Hle (v & vs & k & Hl & Hk & Hc). destruct (locked_cmd_mono _ _ _ _ Hle Hk Hc) as (k' & Hk' & Hc').
  by exists v, vs, k'.
Qed.

Lemma hasLocked_spec x h b : hasLockedRMWReadTarget x h = Ok b → b = true ↔ locked_front h (k_targets (core x)).
Proof.
  unfold hasLockedRMWReadTarget, locked_front. simpl. destruct (list_of (targets x)) as [|t l].
  - intros [= <-]. split; [done|]. by intros (v & vs & k & Hl & _).
  - intros H. apply bind_Ok in H as (k & Hk & H). injection H as <-. heap_inv. rewrite bool_decide_eq_true. split.
    + intros Hc. by exists (view t), (views l), k.
    + intros (v & vs & k' & Hl & Hk' & Hc). injection Hl as <- <-. simpl in Hk'. congruence.
Qed.

Definition locked_read (h : Heap) (v : View) : Prop :=
  v_source v = FromCPU ∧ ∃ k, packets h !! v_pkt v = Some k ∧ cmd k = LockedRMWReadReq.

Lemma service_targets_spec m l : ∀ h h' K, service_targets m true l h = Ok h' → cores h !! m = Some K →
  frame m h h' ∧ ∃ l', cores h' !! m = Some (kset_targets l' K) ∧ redirected h h' (k_targets K) l' ∧
    (locked_front h (k_targets K) → locked_front h' l') ∧ (Exists (locked_read h) (views l) → locked_front h' l').
Proof.
  induction l as [|t l IH]; intros h h' K H HK; simpl in H.
  { injection H as <-. split; [done|]. exists (k_targets K). split; [by destruct K|]. split; [done|]. split; [done|].
    intros HE. by apply Exists_nil in HE. }
  apply bind_Ok in H as (k & Hk & H). heap_inv. case_bool_decide as Hs; simpl in H; [case_bool_decide as Hc; simpl in H|].
  - apply bind_Ok in H as (h1 & H1 & H).
    apply (updateLocked_spec m (pkt t) k) in H1 as (Hf & K0 & l1 & v & vs & k1 & HK0 & HK1 & Hr & Hl1 & Hk1 & Hc1); [|done|done].
    assert (K0 = K) as -> by congruence. destruct (IH _ _ _ H HK1) as (Hf' & l' & HK' & Hr' & Hlf & _).
    assert (locked_front h' l') as Hl' by (apply Hlf; by exists v, vs, k1).
    split; [by transitivity h1|]. exists l'. split; [done|]. split; [by eapply redirected_trans|]. done.
  - destruct (IH _ _ _ H HK) as (Hf' & l' & HK' & Hr' & Hlf & HE). split; [done|]. exists l'. split; [done|]. split; [done|].
    split; [done|]. intros HX. apply Exists_cons in HX as [(_ & k' & Hk' & Hc')|HX]; [simpl in Hk'; congruence|by apply HE].
  - destruct (IH _ _ _ H HK) as (Hf' & l' & HK' & Hr' & Hlf & HE). split; [done|]. exists l'. split; [done|]. split; [done|].
    split; [done|]. intros HX. apply Exists_cons in HX as [(Hs' & _)|HX]; [done|by apply HE].
Qed.

(** ** Promotion *)

(** The first of the deferred targets move to the end of the targets. *)
Definition promoted (K K' : Core) : Prop := ∃ pre,
  l_views (k_targets K') = l_views (k_targets K) ++ pre ∧ l_views (k_deferred K) = pre ++ l_views (k_deferred K').

Lemma promoted_same K K' : l_views (k_targets K') = l_views (k_targets K) → l_views (k_deferred K') = l_views (k_deferred K) →
  promoted K K'.
Proof. intros H1 H2. exists []. by rewrite app_nil_r, H1, H2. Qed.

Lemma find_split_app p l : ∀ a b, find_split p l = Ok (a, b) → l = a ++ b.
Proof.
  induction l as [|t l IH]; intros a b H; simpl in H; [by injection H as <- <-|].
  apply bind_Ok in H as (c & _ & H). destruct c; [by injection H as <- <-|].
  apply bind_Ok in H as ([a0 b0] & H0 & H). injection H as <- <-. simpl. f_equal. by apply IH.
Qed.

Lemma promoteDeferred_spec t m h b h' : promoteDeferredTargets t m h = Ok (b, h') →
  packets h' = packets h ∧ frame m h h' ∧ ∃ K K', cores h !! m = Some K ∧ cores h' !! m = Some K' ∧
    (if b then promoted K K' ∧ k_inService K' = k_inService K ∧ covers h' (k_targets K') ∧ covers h' (k_deferred K') ∧
               k_postInvalidate K' = k_postInvalidate K ∧
               ∃ v vs, l_views (k_targets K') = v :: vs ∧ k_order K' = v_order v ∧ k_ready K' = Z.max t (v_ready v)
     else h' = h ∧ l_views (k_targets K) = [] ∧ l_views (k_deferred K) = []).
Proof.
  unfold promoteDeferredTargets. intros H. apply bind_Ok in H as (x & Hx & H). heap_inv.
  pose proof (cores_lookup _ _ _ Hx) as HK. destruct (_ && _) eqn:He.
  { injection H as <- <-. bool_prop. apply bool_decide_eq_true in H, H0. split; [done|]. split; [done|].
    exists (core x), (core x). simpl. by rewrite H, H0. }
  apply bind_Ok in H as ([before from_it] & Hsp & H). apply find_split_app in Hsp.
  destruct (match before with [] => _ | _ => _ end) as [tl dl] eqn:Hm.
  apply bind_Ok in H as (dt & Hdt & H). apply bind_Ok in H as (tt & Htt & H). apply bind_Ok in H as (t0 & Ht0 & H).
  injection H as <- <-. apply populateFlags_covers in Hdt as [Hdl Hdc], Htt as [Htl Htc]. simpl in Hdl, Htl.
  split; [done|]. split; [apply set_frame|].
  eexists _, _. split; [exact HK|]. split; [by eapply set_core|]. simpl.
  split; [|split; [done|split; [eapply covers_mono; [by apply pk_le_eq|done]|split; [eapply covers_mono; [by apply pk_le_eq|done]|split; [done|]]]]].
  - unfold promoted. simpl. rewrite Hdl, Htl.
    assert (∃ pre, tl = list_of (targets x) ++ pre ∧ list_of (deferredTargets x) = pre ++ dl) as (pre & -> & Hd).
    { destruct before as [|t1 before]; [|injection Hm as <- <-; by exists (t1 :: before)].
      destruct (list_of (targets x)) as [|t1 l1] eqn:E1; [destruct from_it as [|t2 rest]|]; injection Hm as <- <-.
      - by exists [].
      - by exists [t2].
      - exists []. by rewrite app_nil_r. }
    exists (views pre). rewrite Hd. unfold views. by rewrite !fmap_app.
  - unfold front in Ht0. destruct (list_of tt) as [|t1 l1] eqn:E1; [done|]. injection Ht0 as <-.
    by exists (view t1), (views l1).
Qed.

Lemma promoteIf_spec m p h h' : promoteIf m p h = Ok h' →
  frame m h h' ∧ ∃ K K', cores h !! m = Some K ∧ cores h' !! m = Some K' ∧ promoted K K' ∧ covers h' (k_deferred K') ∧
    k_inService K' = k_inService K ∧ k_postInvalidate K' = k_postInvalidate K ∧ k_ready K' = k_ready K.
Proof.
  unfold promoteIf. intros H. apply bind_Ok in H as (x & Hx & H). apply bind_Ok in H as (u & _ & H). heap_inv.
  apply bind_Ok in H as ([before rest] & Hsp & H). apply bind_Ok in H as ([before' h1] & Hcl & H).
  apply bind_Ok in H as (dt & Hdt & H). apply find_split_app in Hsp. apply tl_clear_sim in Hcl as [Hs ->].
  apply (sim_frame m) in Hs as [Hf Hc]. apply populateFlags_covers in Hdt as [Hdl Hdc]. simpl in Hdl.
  apply upd_spec in H as (Hf' & z & Hz & Hk). pose proof (cores_lookup _ _ _ Hx) as HK. pose proof (cores_lookup _ _ _ Hz) as HK1.
  rewrite Hc, HK in HK1. apply (inj Some) in HK1.
  split; [by transitivity h1|]. eexists (core x), _. split; [done|]. split; [exact Hk|].
  split; [|split; [by eapply covers_mono; [apply Hf'|]|by rewrite HK1]].
  exists (views before). simpl. rewrite Hdl. unfold views at 1. rewrite fmap_app, views_unmark. split.
  - change (view <$> list_of (targets z)) with (l_views (k_targets (core z))). by rewrite <-HK1.
  - rewrite Hsp. unfold views. by rewrite fmap_app.
Qed.

(** What the two promotions of a response do. *)
Definition may_promote (h h' : Heap) (K K' : Core) : Prop :=
  promoted K K' ∧ (covers h (k_deferred K) → covers h' (k_deferred K')) ∧
  k_inService K' = k_inService K ∧ k_postInvalidate K' = k_postInvalidate K ∧ k_ready K' = k_ready K ∧
  (K' = K ∨ k_inService K = true ∧ k_postInvalidate K = false).

Lemma may_promote_refl h K : may_promote h h K K.
Proof. split; [by apply promoted_same|]. repeat split; auto. Qed.

Lemma promoted_trans K K1 K2 : promoted K K1 → promoted K1 K2 → promoted K K2.
Proof.
  intros (a & H1 & H2) (b & H3 & H4). exists (a ++ b). rewrite H3, H1, H2, H4. by rewrite !app_assoc.
Qed.

Lemma may_promote_trans h h1 h2 K K1 K2 : may_promote h h1 K K1 → may_promote h1 h2 K1 K2 → may_promote h h2 K K2.
Proof.
  intros (H1 & H2 & H3 & H4 & H4' & H5) (H6 & H7 & H8 & H9 & H9' & H10).
  split; [by eapply promoted_trans|]. split; [auto|]. split; [congruence|]. split; [congruence|]. split; [congruence|].
  destruct H5 as [-> |H5]; [|by right]. destruct H10 as [-> |H10]; [by left|right; done].
Qed.

Lemma hasPostInvalidate_Ok x b : hasPostInvalidate x = Ok b → inService x = true ∧ b = postInvalidate x.
Proof. unfold hasPostInvalidate. intros H. apply bind_Ok in H as (u & Hu & H). heap_inv. by injection H as <-. Qed.

Lemma promoteReadable_spec m h h' : promoteReadable m h = Ok h' →
  frame m h h' ∧ ∃ K K', cores h !! m = Some K ∧ cores h' !! m = Some K' ∧ may_promote h h' K K'.
Proof.
  unfold promoteReadable. intros H. apply bind_Ok in H as (x & Hx & H). heap_inv.
  pose proof (cores_lookup _ _ _ Hx) as HK. case_bool_decide.
  { injection H as <-. split; [done|]. exists (core x), (core x). split; [done|]. split; [done|]. apply may_promote_refl. }
  apply bind_Ok in H as (pi & Hpi & H). apply hasPostInvalidate_Ok in Hpi as [Hi ->].
  destruct (postInvalidate x) eqn:Hp.
  { injection H as <-. split; [done|]. exists (core x), (core x). split; [done|]. split; [done|]. apply may_promote_refl. }
  apply promoteIf_spec in H as (Hf & K & K' & HK1 & HK' & Hpr & Hc & His & Hpi & Hrd). split; [done|]. exists K, K'.
  split; [done|]. split; [done|]. assert (K = core x) as -> by congruence. split_and!; try done. by right.
Qed.

Lemma promoteWritable_spec m h h' : promoteWritable m h = Ok h' →
  frame m h h' ∧ ∃ K K', cores h !! m = Some K ∧ cores h' !! m = Some K' ∧ may_promote h h' K K'.
Proof.
  unfold promoteWritable. intros H. apply bind_Ok in H as (x & Hx & H). heap_inv.
  pose proof (cores_lookup _ _ _ Hx) as HK.
  assert (h' = h → frame m h h' ∧ ∃ K K', cores h !! m = Some K ∧ cores h' !! m = Some K' ∧ may_promote h h' K K') as Hsame.
  { intros ->. split; [done|]. exists (core x), (core x). split; [done|]. split; [done|]. apply may_promote_refl. }
  destruct (list_of (deferredTargets x)) as [|t l]; [injection H as <-; by apply Hsame|].
  apply bind_Ok in H as (k & Hk & H). destruct (tl_needsWritable _); [|injection H as <-; by apply Hsame].
  apply bind_Ok in H as (pi & Hpi & H). apply hasPostInvalidate_Ok in Hpi as [Hi ->].
  apply bind_Ok in H as (pd & Hpd & H). destruct (_ && _) eqn:Hb; [|injection H as <-; by apply Hsame].
  apply andb_true_iff in Hb as [Hb _]. apply negb_true_iff, orb_false_iff in Hb as [Hb _].
  apply bind_Ok in H as (u & Hu & H). apply bind_Ok in H as (h1 & H1 & H). apply upd_spec in H1 as (Hf1 & z & Hz & Hk1). assert (z = x) as -> by congruence.
  apply promoteIf_spec in H as (Hf & K & K' & HK1 & HK' & (pre & Hp1 & Hp2) & Hc & His & Hpi & Hrd).
  rewrite Hk1 in HK1. apply (inj Some) in HK1. subst K. split; [by transitivity h1|]. exists (core x), K'.
  split; [done|]. split; [done|]. split; [by exists pre|]. split_and!; try done. by right.
Qed.

(** ** Other operations *)

Lemma popTarget_spec m h h' : popTarget m h = Ok h' →
  packets h' = packets h ∧ frame m h h' ∧ ∃ K v vs, cores h !! m = Some K ∧ l_views (k_targets K) = v :: vs ∧
    cores h' !! m = Some (kset_targets (mkTL vs (l_writable (k_targets K)) (l_upgrade (k_targets K))) K).
Proof.
  unfold popTarget. intros H. apply bind_Ok in H as (x & Hx & H). heap_inv.
  destruct (list_of (targets x)) as [|t l] eqn:Hl; [done|]. injection H as <-. split; [done|]. split; [apply set_frame|].
  exists (core x), (view t), (views l). split; [by apply cores_lookup|]. split; [simpl; by rewrite Hl|]. by eapply set_core.
Qed.

(** Only what the order and the flags of the requests do not depend on. *)
Definition same_lists (K K' : Core) : Prop :=
  k_targets K' = k_targets K ∧ k_deferred K' = k_deferred K ∧ k_inService K' = k_inService K ∧
  k_postInvalidate K' = k_postInvalidate K.

Lemma set_isForward_same f x : same_lists (core x) (core (set_isForward f x)).
Proof. done. Qed.

Lemma delay_Ok t d x x' : delay t d x = Ok x' → x' = set_times (t + d) (order x) x.
Proof. unfold delay. intros H. apply bind_Ok in H as (u & _ & H). by injection H as <-. Qed.

Lemma markPending_core x : core (set_inService false x) =
  kset_service false (k_modified (core x)) (k_postInvalidate (core x)) (k_postDowngrade (core x)) (core x).
Proof. done. Qed.

(** ** Serving a response *)

Definition orders (vs : list View) : list Z := v_order <$> reqs vs.

Lemma orders_app a b : orders (a ++ b) = orders a ++ orders b.
Proof. unfold orders. by rewrite reqs_app, fmap_app. Qed.
Lemma orders_cons v vs : is_req v → orders (v :: vs) = v_order v :: orders vs.
Proof. intros Hv. unfold orders. rewrite reqs_cons. by rewrite decide_True. Qed.

Lemma stamp_orders l l' : stamp <$> l' = stamp <$> l → orders l' = orders l.
Proof.
  revert l. induction l' as [|v' l' IH]; intros [|v l] H; try done. simpl in H. injection H as Ho Hs Hr Hl.
  specialize (IH _ Hl). unfold orders in *. rewrite !reqs_cons.
  assert (is_req v' ↔ is_req v) as Hiff by (unfold is_req; by rewrite Hs).
  destruct (decide (is_req v')) as [Hv'|Hv'], (decide (is_req v)) as [Hv|Hv]; rewrite Hiff in Hv'; try done.
  rewrite !fmap_cons. by rewrite Ho, IH.
Qed.
Lemma stamp_no_snoop l l' : stamp <$> l' = stamp <$> l → no_snoop l → no_snoop l'.
Proof.
  revert l. induction l' as [|v' l' IH]; intros [|v l] H; try done. simpl in H. injection H as Ho Hs Hr Hl.
  intros Hn. apply Forall_cons in Hn as [Hv Hn]. constructor; [by rewrite Hs|by eapply IH].
Qed.

(** The targets [vs] of an MSHR, those that a response serves, and the list after it. *)
Inductive service (h' : Heap) (vs va : list View) (l' : TL) : Prop :=
  | service_all : orders vs = orders va ++ orders (l_views l') → no_snoop (l_views l') → service h' vs va l'
  | service_locked pre v post : vs = pre ++ v :: post → va = pre ++ [v] → v_source v = FromCPU →
      stamp <$> l_views l' = stamp <$> (v :: post) → locked_front h' l' → service h' vs va l'.

Lemma kind_ok_locked h v k : kind_ok h v → packets h !! v_pkt v = Some k → cmd k = LockedRMWReadReq → v_source v = FromCPU.
Proof.
  intros (k0 & Hk0 & _ & H) Hk Hc. assert (k0 = k) as -> by congruence. destruct (v_source v) eqn:Hs; [done| |]; exfalso; by apply H.
Qed.

Lemma split_targets_incl h vs va vb v : split_targets h vs va vb → v ∈ vb → v ∈ vs.
Proof.
  intros [[H _]|(pre & v0 & post & k & -> & _ & -> & _)] Hv; [|apply elem_of_app; by right].
  assert (v ∈ reqs vs) as Hr by (rewrite H; apply elem_of_app; by right). by apply list_elem_of_filter in Hr as [_ Hr].
Qed.

Lemma serve_spec m k l h h1 h2 K : extractServiceableTargets m k h = Ok (l, h1) →
  service_targets m true (list_of l) h1 = Ok h2 → cores h !! m = Some K →
  Forall (kind_ok h) (l_views (k_targets K)) →
  frame m h h2 ∧ ∃ l', cores h2 !! m = Some (kset_targets l' K) ∧ covers h2 l' ∧ Forall (kind_ok h2) (l_views l') ∧
    service h2 (l_views (k_targets K)) (views (list_of l)) l' ∧
    (∀ v', v' ∈ l_views l' → ∃ v, v ∈ l_views (k_targets K) ∧ stamp v' = stamp v).
Proof.
  intros He Hs HK Hkind. apply extract_spec in He as (Hp & Hf & K0 & l1 & HK0 & HK1 & Hc & Hsp).
  assert (K0 = K) as -> by congruence. destruct (service_targets_spec _ _ _ _ _ Hs HK1) as (Hf' & l' & HK' & Hr & _ & HE).
  simpl in Hr. destruct Hr as (Hst & Hcov & Hk').
  assert (Forall (kind_ok h1) (l_views l1)) as Hk1.
  { apply Forall_forall. intros v Hv. eapply kind_ok_mono; [by apply pk_le_eq|]. rewrite Forall_forall in Hkind.
    apply Hkind. by eapply split_targets_incl. }
  split; [by transitivity h1|]. exists l'. split; [done|]. split; [by apply Hcov|]. split; [by apply Hk'|]. split.
  - destruct Hsp as [[Hq Hn]|(pre & v & post & k0 & Hvs & Hva & Hvb & Hk0 & Hc0)].
    + apply service_all; [|by eapply stamp_no_snoop]. rewrite (stamp_orders _ _ Hst). unfold orders.
      by rewrite Hq, fmap_app, (reqs_no_snoop _ Hn).
    + assert (v_source v = FromCPU) as Hsrc.
      { eapply kind_ok_locked; [|done|done]. rewrite Forall_forall in Hkind. apply Hkind. rewrite Hvs.
        apply elem_of_app. right. by left. }
      eapply service_locked; [done|done|done|by rewrite Hst, Hvb|]. apply HE. rewrite Hva. apply Exists_app. right.
      constructor. split; [done|]. exists k0. by rewrite Hp.
  - intros v' Hv'. assert (stamp v' ∈ stamp <$> l_views l') as Hin by (apply list_elem_of_fmap; by exists v').
    rewrite Hst in Hin. apply list_elem_of_fmap in Hin as (v & Hv & Hin). exists v. split; [by eapply split_targets_incl|done].
Qed.

End MSHROps.
