(* ===== verification/MSHRMachine.v ===== *)
(** * mem/cache/mshr: an MSHR as a state machine

    [move] is what can happen to an MSHR that waits for its block: the abstract form of the
    operations of mshr.cc and of a response that it receives.  [Waits] is the invariant of
    such an MSHR, which every move keeps.  A move tells which requests it accepts and which
    it answers; [held] says that the processor has locked the block, so that the first
    target was answered and only waits for the write that ends the locked sequence. *)

From Stdlib Require Import ZArith Lia Sorted.
From stdpp Require Import base numbers option list sorting.
From S2P Require Import Prelude Packet PacketQueue MSHR MSHRCore MSHROps MSHRQueue.

Module MSHRMachine.
Import Packet MSHR MSHRLemmas MSHRCore MSHROps.

Definition MaxTick : Z := MSHRQueue.MaxTick.

Definition all_views (k : Core) : list View := l_views (k_targets k) ++ l_views (k_deferred k).

(** ** The invariant *)

Record Waits (n : Z) (h : Heap) (k : Core) (held : bool) : Prop := {
  w_targets : l_views (k_targets k) ≠ [];
  w_sorted : StronglySorted Z.lt (orders (all_views k));
  w_below : Forall (λ o, o < n) (orders (all_views k));
  w_snoops : k_inService k = false → no_snoop (l_views (k_targets k));
  w_deferred : Forall (λ v, v_source v = FromCPU) (l_views (k_deferred k));
  w_covers : covers h (k_targets k);
  w_dcovers : covers h (k_deferred k);
  w_upgrades : k_inService k = true → k_postInvalidate k = true → no_upgrade h (l_views (k_deferred k));
  w_kinds : Forall (kind_ok h) (all_views k);
  w_ready : k_ready k < MaxTick ∧ Forall (λ v, v_ready v < MaxTick) (all_views k);
  w_held : held = true → k_inService k = true ∧ ∃ v vs, l_views (k_targets k) = v :: vs ∧ is_req v
}.

Record Free (k : Core) (held : bool) : Prop := {
  f_views : all_views k = [];
  f_service : k_inService k = false;
  f_held : held = false
}.

(** ** Moves *)

Inductive event := Accepted (o : Z) | Answered (os : list Z).

(** The packets of the targets are still there. *)
Definition pk_on (h h' : Heap) (vs : list View) : Prop := ∀ v, v ∈ vs → pk_at h h' (v_pkt v).

(** A response answers [va]; [k'] is what the targets that stay make of the core. *)
Inductive answers (h h' : Heap) (k : Core) (held : bool) (va : list View) (k' : Core) (held' : bool) : Prop :=
  | answers_intro h1 k1 vs l' :
      may_promote h h1 k k1 → pk_le h h1 → pk_le h1 h' → k_inService k = true →
      (if held then ∃ v, l_views (k_targets k1) = v :: vs else l_views (k_targets k1) = vs) →
      service h' vs va l' → covers h' l' → Forall (kind_ok h') (l_views l') →
      (∀ v', v' ∈ l_views l' → ∃ v, v ∈ vs ∧ stamp v' = stamp v) →
      k' = kset_targets l' k1 →
      (held' = true ↔ locked_front h' l' ∧ last (orders va) = head (orders (l_views l')) ∧ orders va ≠ []) →
      answers h h' k held va k' held'.

Inductive move (n : Z) (h : Heap) (k : Core) (held : bool) : list event → Z → Heap → Core → bool → Prop :=
  | m_same n' h' k' : n <= n' → pk_on h h' (all_views k) → same_lists k k' → (k_ready k < MaxTick → k_ready k' < MaxTick) →
      move n h k held [] n' h' k' held
  | m_target h1 h' v l : pk_le h h1 → pk_le h1 h' → v_order v = n → v_source v = FromCPU → v_ready v < MaxTick → kind_ok h1 v →
      tl_added h1 v (k_targets k) l → l_views (k_deferred k) = [] → (k_inService k = true → k_postInvalidate k = false) →
      move n h k held [Accepted n] (n + 1) h' (kset_targets l k) held
  | m_defer h1 h' v l : pk_le h h1 → pk_le h1 h' → v_order v = n → v_source v = FromCPU → v_ready v < MaxTick → kind_ok h1 v →
      tl_added h1 v (k_deferred k) l →
      (k_inService k = true → k_postInvalidate k = true → no_upgrade h1 [v]) →
      move n h k held [Accepted n] (n + 1) h' (kset_deferred l k) held
  | m_service h' pm : pk_le h h' → k_inService k = false →
      move n h k held [] n h' (kset_service true pm false false k) held
  | m_hold h' v : pk_le h h' → k_inService k = true → l_views (k_targets k) = [v] → is_req v → held = false →
      move n h k held [Answered [v_order v]] n h' k true
  | m_snoop n' h' k' c d t ord : n <= n' → pk_le h h' → snoop_frame k k' → (c ≠ LockedRMWReadReq) →
      (cmd_needsWritable c || isInvalidate c = true → d = true) → t < MaxTick →
      replaces d h h' (k_deferred k) (k_deferred k') →
      (k_postInvalidate k' = k_postInvalidate k ∧ replaces d h h' (k_targets k) (k_targets k')) ∨
        (k_inService k = true ∧ snoop_core h' c t ord k k') →
      move n h k held [] n' h' k' held
  | m_answer h' va k' held' : answers h h' k held va k' held' → locked_front h' (k_targets k') →
      move n h k held [Answered (orders va)] n h' k' held'
  | m_again h1 h' va k1 k' t : answers h h1 k held va k1 false → ¬ locked_front h1 (k_targets k1) → pk_le h1 h' →
      promoted k1 k' → covers h' (k_targets k') → covers h' (k_deferred k') → l_views (k_targets k') ≠ [] →
      k_inService k' = false → t < MaxTick → (∃ v, v ∈ l_views (k_targets k') ∧ k_ready k' = Z.max t (v_ready v)) →
      move n h k held [Answered (orders va)] n h' k' false
  | m_squash h' k' v vs : pk_le h h' → k_inService k = false → l_views (k_targets k) = v :: vs → v_source v ≠ FromCPU →
      (k' = kset_targets (mkTL vs (l_writable (k_targets k)) (l_upgrade (k_targets k))) k ∧ vs ≠ [] ∨
       vs = [] ∧ promoted (kset_targets (mkTL vs (l_writable (k_targets k)) (l_upgrade (k_targets k))) k) k' ∧
       covers h' (k_targets k') ∧ covers h' (k_deferred k') ∧ l_views (k_targets k') ≠ [] ∧ k_inService k' = false ∧
       ∃ t v, t < MaxTick ∧ v ∈ l_views (k_targets k') ∧ k_ready k' = Z.max t (v_ready v)) →
      move n h k held [Answered [v_order v]] n h' k' held.

(** An MSHR is taken for a request, and given back when it has no more. *)
Inductive birth (n : Z) (h : Heap) (k : Core) : Z → Heap → Core → Prop :=
  | birth_intro h' k' v : pk_le h h' → all_views k = [] → v_order v = n → is_req v → v_ready v < MaxTick → kind_ok h v →
      k_inService k' = false → k_ready k' < MaxTick →
      tl_added h v (mkTL [] false false) (k_targets k') → k_deferred k' = mkTL [] false false →
      birth n h k (n + 1) h' k'.

Inductive death (h : Heap) (k : Core) (held : bool) : list event → Heap → Core → Prop :=
  | d_answer h1 h' va k1 k' : answers h h1 k held va k1 false → ¬ locked_front h1 (k_targets k1) → all_views k1 = [] →
      all_views k' = [] → k_inService k' = false → death h k held [Answered (orders va)] h' k'
  | d_squash h' k' v : l_views (k_targets k) = [v] → l_views (k_deferred k) = [] → v_source v ≠ FromCPU →
      k_inService k = false → all_views k' = [] → k_inService k' = false → death h k held [Answered [v_order v]] h' k'.

(** ** What waits *)

Definition waiting (k : Core) (held : bool) : list Z := (if held : bool then tail else id) (orders (all_views k)).

Fixpoint accepted (es : list event) : list Z :=
  match es with [] => [] | Accepted o :: es => o :: accepted es | Answered _ :: es => accepted es end.
Fixpoint answered (es : list event) : list Z :=
  match es with [] => [] | Accepted _ :: es => answered es | Answered os :: es => os ++ answered es end.

Lemma accepted_app a b : accepted (a ++ b) = accepted a ++ accepted b.
Proof. induction a as [|[]]; simpl; [done|by f_equal|done]. Qed.
Lemma answered_app a b : answered (a ++ b) = answered a ++ answered b.
Proof. induction a as [|[]]; simpl; [done|done|]. by rewrite <-app_assoc, IHa. Qed.

Lemma promoted_all k k' : promoted k k' → all_views k' = all_views k.
Proof. intros (pre & H1 & H2). unfold all_views. by rewrite H1, H2, <-app_assoc. Qed.

Lemma sorted_disjoint (a b : list Z) x : StronglySorted Z.lt (a ++ b) → x ∈ a → x ∈ b → False.
Proof. intros Hs Ha Hb. pose proof (StronglySorted_app_1_elem_of _ _ _ _ _ Hs Ha Hb). lia. Qed.

Lemma last_elem {A} (l : list A) x : last l = Some x → x ∈ l.
Proof. intros H. apply last_Some in H as [l' ->]. apply elem_of_app. right. by left. Qed.
Lemma head_elem {A} (l : list A) x : head l = Some x → x ∈ l.
Proof. destruct l; [done|]. intros [= ->]. by left. Qed.

(** The targets that a response finds, after its promotions and after the held one left. *)
Lemma answers_open n h h1 k k1 held vs : Waits n h k held → may_promote h h1 k k1 →
  (if held then ∃ v, l_views (k_targets k1) = v :: vs else l_views (k_targets k1) = vs) →
  waiting k held = orders (vs ++ l_views (k_deferred k1)) ∧ (∃ pre, orders (all_views k) = pre ++ waiting k held) ∧
  ∀ v, v ∈ vs → v ∈ all_views k.
Proof.
  intros HW (Hp & _) Hvs. pose proof (promoted_all _ _ Hp) as Hall. destruct held.
  - destruct (w_held _ _ _ _ HW eq_refl) as (_ & v0 & vs0 & Hv0 & Hq). destruct Hvs as (v & Hv). destruct Hp as (pre & Hp & _).
    assert (v = v0) as -> by (rewrite Hv0, Hv in Hp; by injection Hp).
    unfold waiting. rewrite <-Hall. unfold all_views. rewrite Hv. simpl. rewrite orders_cons by done. simpl.
    split; [done|]. split; [by exists [v_order v0]|]. intros v Hin. right. apply elem_of_app. by left.
  - subst vs. unfold waiting. simpl. rewrite <-Hall. split; [done|]. split; [by exists []|].
    intros v Hin. apply elem_of_app. by left.
Qed.

Lemma service_held h vs va l' d (b : bool) : service h vs va l' → StronglySorted Z.lt (orders (vs ++ d)) →
  (b = true ↔ locked_front h l' ∧ last (orders va) = head (orders (l_views l')) ∧ orders va ≠ []) →
  orders (vs ++ d) = orders va ++ (if b then tail else id) (orders (l_views l' ++ d)) ∧
  (b = true → ∃ v' vs', l_views l' = v' :: vs' ∧ is_req v') ∧ (¬ locked_front h l' → no_snoop (l_views l')) ∧
  ∃ p, orders (vs ++ d) = p ++ orders (l_views l' ++ d).
Proof.
  intros Hs Hsort Hb. destruct Hs as [Ho Hn|pre v post Hvs Hva Hsrc Hst Hlf].
  - rewrite orders_app, Ho in Hsort. assert (b = false) as ->.
    { apply not_true_is_false. intros Ht. apply Hb in Ht as (_ & Hl & Hne).
      destruct (last (orders va)) as [x|] eqn:Hlast; [|by apply last_None in Hlast].
      apply StronglySorted_app_1_l in Hsort. eapply (sorted_disjoint _ _ x Hsort); [by apply last_elem|by apply head_elem]. }
    split; [rewrite !orders_app, Ho; simpl; by rewrite <-app_assoc|]. split; [done|]. split; [done|].
    exists (orders va). by rewrite !orders_app, Ho, <-app_assoc.
  - assert (is_req v) as Hv by (unfold is_req; by rewrite Hsrc). destruct (l_views l') as [|v' vs'] eqn:Hl'; [done|].
    simpl in Hst. injection Hst as Hvo Hvs0 Hvr Hst. assert (is_req v') as Hv' by (unfold is_req; by rewrite Hvs0).
    assert (b = true) as ->.
    { apply Hb. split; [done|]. rewrite Hva, orders_app, (orders_cons v []) by done. rewrite orders_cons by done.
      change (orders []) with (@nil Z). rewrite last_snoc. simpl. split; [congruence|]. by destruct (orders pre). }
    split; [|split; [by exists v', vs'|split; [done|]]].
    2: { exists (orders pre). rewrite Hvs, <-app_assoc. simpl. rewrite orders_app, !orders_cons by done. rewrite !orders_app.
      by rewrite (stamp_orders _ _ Hst), Hvo. }
    simpl. rewrite Hvs, Hva, <-app_assoc. simpl.
    rewrite !orders_app, !orders_cons by done. simpl. rewrite <-app_assoc. simpl. rewrite !orders_app.
    by rewrite (stamp_orders _ _ Hst).
Qed.

(** What an answer leaves: all of the invariant that does not need the MSHR to stay. *)
Record Answered_to (n : Z) (h' : Heap) (k : Core) (va : list View) (k' : Core) (held' : bool) : Prop := {
  a_sorted : StronglySorted Z.lt (orders (all_views k'));
  a_below : Forall (λ o, o < n) (orders (all_views k'));
  a_deferred : Forall (λ v, v_source v = FromCPU) (l_views (k_deferred k'));
  a_covers : covers h' (k_targets k');
  a_dcovers : covers h' (k_deferred k');
  a_upgrades : k_postInvalidate k' = true → no_upgrade h' (l_views (k_deferred k'));
  a_kinds : Forall (kind_ok h') (all_views k');
  a_ready : k_ready k' < MaxTick ∧ Forall (λ v, v_ready v < MaxTick) (all_views k');
  a_service : k_inService k' = true;
  a_post : k_postInvalidate k' = k_postInvalidate k;
  a_held : held' = true → ∃ v vs, l_views (k_targets k') = v :: vs ∧ is_req v;
  a_snoops : ¬ locked_front h' (k_targets k') → no_snoop (l_views (k_targets k'));
  a_from : ∀ v', v' ∈ all_views k' → ∃ v, v ∈ all_views k ∧ stamp v' = stamp v;
  a_from_t : k_postInvalidate k = true → ∀ v', v' ∈ l_views (k_targets k') → ∃ v, v ∈ l_views (k_targets k) ∧ stamp v' = stamp v
}.

Lemma answers_spec n h h' k held va k' held' : Waits n h k held → answers h h' k held va k' held' →
  waiting k held = orders va ++ waiting k' held' ∧ Answered_to n h' k va k' held'.
Proof.
  intros HW [h1 k1 vs l' Hpr Hle0 Hle Hsvc Hvs Hserve Hcov Hkind Hfrom -> Hheld].
  destruct (answers_open _ _ _ _ _ _ _ HW Hpr Hvs) as (Hwait & [pre Hpre] & Hin).
  assert (StronglySorted Z.lt (waiting k held)) as Hsort.
  { pose proof (w_sorted _ _ _ _ HW) as H. rewrite Hpre in H. by apply StronglySorted_app_1_r in H. }
  assert (Forall (λ o, o < n) (waiting k held)) as Hbelow.
  { pose proof (w_below _ _ _ _ HW) as H. rewrite Hpre in H. by apply Forall_app in H as [_ H]. }
  rewrite Hwait in Hsort. destruct (service_held _ _ _ _ _ held' Hserve Hsort Hheld) as (Heq & Hreq & Hns & p & Hp).
  assert (pk_le h h') as Hle' by (by transitivity h1).
  destruct Hpr as ((q & Hq1 & Hq2) & Hdc & His & Hpi & Hrd & Hcase).
  assert (∀ v, v ∈ l_views (k_deferred k1) → v ∈ l_views (k_deferred k)) as Hd by (intros v Hv; rewrite Hq2; apply elem_of_app; by right).
  assert (∀ v', v' ∈ all_views (kset_targets l' k1) → ∃ v, v ∈ all_views k ∧ stamp v' = stamp v) as Hall.
  { intros v' Hv'. apply elem_of_app in Hv' as [Hv'|Hv'].
    - destruct (Hfrom v' Hv') as (v & Hv & Hst). exists v. split; [by apply Hin|done].
    - exists v'. split; [|done]. apply elem_of_app. right. by apply Hd. }
  split; [by rewrite Hwait, Heq|]. rewrite Hp in Hsort. rewrite Hwait, Hp in Hbelow. constructor; simpl.
  - by apply StronglySorted_app_1_r in Hsort.
  - by apply Forall_app in Hbelow as [_ H].
  - apply Forall_forall. intros v Hv. pose proof (w_deferred _ _ _ _ HW) as H. rewrite Forall_forall in H. by apply H, Hd.
  - done.
  - eapply covers_mono; [exact Hle|]. apply Hdc, HW.
  - rewrite Hpi. intros Hpost. destruct Hcase as [-> |[_ Hf]]; [|congruence].
    eapply no_upgrade_mono; [exact Hle'|]. by apply (w_upgrades _ _ _ _ HW).
  - apply Forall_app. split; [done|]. apply Forall_forall. intros v Hv. eapply kind_ok_mono; [apply Hle'|].
    pose proof (w_kinds _ _ _ _ HW) as H. rewrite Forall_forall in H. apply H. apply elem_of_app. right. by apply Hd.
  - rewrite Hrd. destruct (w_ready _ _ _ _ HW) as [H1 H2]. split; [done|]. apply Forall_forall. intros v' Hv'.
    destruct (Hall v' Hv') as (v & Hv & Hst). injection Hst as _ _ ->. rewrite Forall_forall in H2. by apply H2.
  - by rewrite His.
  - done.
  - done.
  - done.
  - done.
  - intros Hpost v' Hv'. destruct Hcase as [-> |[_ Hf]]; [|congruence]. destruct (Hfrom v' Hv') as (v & Hv & Hst).
    exists v. split; [|done]. destruct held; [destruct Hvs as (v0 & ->); by right|by subst vs].
Qed.

(** ** Moves keep the invariant *)

Lemma sorted_snoc (l : list Z) n : StronglySorted Z.lt l → Forall (λ o, o < n) l → StronglySorted Z.lt (l ++ [n]).
Proof.
  intros Hs Hf. apply StronglySorted_app_2; [|done|repeat constructor]. intros x y Hx Hy.
  apply list_elem_of_singleton in Hy as ->. rewrite Forall_forall in Hf. by apply Hf.
Qed.

Lemma orders_snoc vs v : is_req v → orders (vs ++ [v]) = orders vs ++ [v_order v].
Proof. intros Hv. by rewrite orders_app, orders_cons. Qed.
Lemma orders_snoop vs v : v_source v = FromSnoop → orders (vs ++ [v]) = orders vs.
Proof.
  intros Hv. rewrite orders_app. unfold orders at 2. rewrite reqs_cons, decide_False; [apply app_nil_r|].
  unfold is_req. by rewrite Hv; intros [].
Qed.

Lemma pk_le_on h h' vs : pk_le h h' → pk_on h h' vs.
Proof. intros H v _. apply H. Qed.

Lemma covers_on h h' l : pk_on h h' (l_views l) → covers h l → covers h' l.
Proof.
  intros Hle. unfold covers. rewrite !Forall_forall. intros H v Hv. specialize (H v Hv). revert H. apply asks_mono; auto.
Qed.
Lemma kinds_on h h' vs : pk_on h h' vs → Forall (kind_ok h) vs → Forall (kind_ok h') vs.
Proof. intros Hle. rewrite !Forall_forall. intros H v Hv. eapply kind_ok_mono; [by apply Hle|]. by apply H. Qed.
Lemma no_upgrade_on h h' vs : pk_on h h' vs → no_upgrade h vs → no_upgrade h' vs.
Proof.
  intros Hle. unfold no_upgrade. rewrite !Forall_forall. intros H v Hv Hs. destruct (H v Hv Hs) as (k & Hk & Hu).
  destruct (Hle v Hv _ Hk) as (k' & Hk' & Hst). exists k'. split; [done|]. destruct Hst as [-> | ->]; [done|].
  apply not_true_is_false. intros Hx. apply replaced_upgradeLike_mono in Hx. congruence.
Qed.
Lemma pk_on_incl h h' vs vs' : pk_on h h' vs → (∀ v, v ∈ vs' → v ∈ vs) → pk_on h h' vs'.
Proof. intros H Hin v Hv. by apply H, Hin. Qed.

Lemma Waits_same n n' h h' k k' held : n <= n' → pk_on h h' (all_views k) → same_lists k k' →
  (k_ready k < MaxTick → k_ready k' < MaxTick) → Waits n h k held → Waits n' h' k' held.
Proof.
  intros Hn Hon (Ht & Hd & Hs & Hp) Hr [].
  assert (pk_on h h' (l_views (k_targets k))) as Hon1 by (eapply pk_on_incl; [exact Hon|]; intros v Hv; apply elem_of_app; by left).
  assert (pk_on h h' (l_views (k_deferred k))) as Hon2 by (eapply pk_on_incl; [exact Hon|]; intros v Hv; apply elem_of_app; by right).
  assert (all_views k' = all_views k) as Ha by (unfold all_views; by rewrite Ht, Hd).
  constructor; rewrite ?Ha, ?Ht, ?Hd, ?Hs, ?Hp; try done.
  - eapply Forall_impl; [done|]. simpl. lia.
  - by eapply covers_on.
  - by eapply covers_on.
  - intros H1 H2. eapply no_upgrade_on; [done|]. auto.
  - by eapply kinds_on.
  - destruct w_ready0. auto.
Qed.

Lemma all_targets_snoc k l v : l_views l = l_views (k_targets k) ++ [v] → l_views (k_deferred k) = [] →
  all_views (kset_targets l k) = all_views k ++ [v].
Proof. intros Hl Hd. unfold all_views. simpl. by rewrite Hl, Hd, !app_nil_r. Qed.
Lemma all_deferred_snoc k l v : l_views l = l_views (k_deferred k) ++ [v] → all_views (kset_deferred l k) = all_views k ++ [v].
Proof. intros Hl. unfold all_views. simpl. by rewrite Hl, app_assoc. Qed.

(** A new request, in either list. *)
Lemma Waits_new n h h1 h' k k' v held : Waits n h k held → pk_le h h1 → pk_le h1 h' →
  v_order v = n → v_source v = FromCPU → v_ready v < MaxTick → kind_ok h1 v → all_views k' = all_views k ++ [v] →
  StronglySorted Z.lt (orders (all_views k')) ∧ Forall (λ o, o < n + 1) (orders (all_views k')) ∧
  Forall (kind_ok h') (all_views k') ∧ Forall (λ v, v_ready v < MaxTick) (all_views k').
Proof.
  intros [] H1 H2 Hn Hs Hr Hk ->. assert (is_req v) as Hq by (unfold is_req; by rewrite Hs). rewrite orders_snoc, Hn by done.
  assert (pk_le h h') by (by transitivity h1).
  split_and!.
  - by apply sorted_snoc.
  - apply Forall_app. split; [|repeat constructor; lia]. eapply Forall_impl; [done|]. simpl. lia.
  - apply Forall_app. split; [by eapply kinds_on; [apply pk_le_on|]|]. repeat constructor. by eapply kind_ok_mono.
  - apply Forall_app. split; [by apply w_ready0|]. by repeat constructor.
Qed.

Lemma move_target_waits n h h1 h' k v l held : Waits n h k held → pk_le h h1 → pk_le h1 h' → v_order v = n →
  v_source v = FromCPU → v_ready v < MaxTick → kind_ok h1 v → tl_added h1 v (k_targets k) l → l_views (k_deferred k) = [] →
  (k_inService k = true → k_postInvalidate k = false) → Waits (n + 1) h' (kset_targets l k) held.
Proof.
  intros HW H1 H2 Hn Hs Hr Hk Ha Hd Hp. pose proof Ha as [Hl _].
  destruct (Waits_new n h h1 h' k (kset_targets l k) v held HW H1 H2 Hn Hs Hr Hk) as (S1 & S2 & S3 & S4).
  { by apply all_targets_snoc. }
  destruct HW. assert (pk_le h h') by (by transitivity h1). constructor; simpl; try done.
  - rewrite Hl. by destruct (l_views (k_targets k)).
  - intros Hi. rewrite Hl. apply Forall_app. split; [by apply w_snoops0|]. constructor; [by rewrite Hs|constructor].
  - eapply tl_added_covers; [exact H2|exact Ha|]. by eapply covers_mono.
  - by eapply covers_mono.
  - intros Hi Hpi. rewrite Hp in Hpi; done.
  - split; [apply w_ready0|done].
  - intros Hh. destruct (w_held0 Hh) as (Hi & v0 & vs & Hv & Hq). split; [done|]. rewrite Hl, Hv. by exists v0, (vs ++ [v]).
Qed.

Lemma move_defer_waits n h h1 h' k v l held : Waits n h k held → pk_le h h1 → pk_le h1 h' → v_order v = n →
  v_source v = FromCPU → v_ready v < MaxTick → kind_ok h1 v → tl_added h1 v (k_deferred k) l →
  (k_inService k = true → k_postInvalidate k = true → no_upgrade h1 [v]) → Waits (n + 1) h' (kset_deferred l k) held.
Proof.
  intros HW H1 H2 Hn Hs Hr Hk Ha Hp. pose proof Ha as [Hl _].
  destruct (Waits_new n h h1 h' k (kset_deferred l k) v held HW H1 H2 Hn Hs Hr Hk) as (S1 & S2 & S3 & S4).
  { by apply all_deferred_snoc. }
  destruct HW. assert (pk_le h h') by (by transitivity h1). constructor; simpl; try done.
  - rewrite Hl. apply Forall_app. split; [done|]. by repeat constructor.
  - by eapply covers_mono.
  - eapply tl_added_covers; [exact H2|exact Ha|]. by eapply covers_mono.
  - intros Hi Hpi. rewrite Hl. apply Forall_app. split; [by eapply no_upgrade_mono; eauto|].
    eapply no_upgrade_mono; [exact H2|]. by apply Hp.
  - split; [apply w_ready0|done].
Qed.

Lemma replaces_covers d h h' l l' : replaces d h h' l l' → covers h l → covers h' l'.
Proof. intros [_ H] Hc. by apply H. Qed.

Lemma move_snoop_waits n n' h h' k k' c d t ord held : Waits n h k held → n <= n' → pk_le h h' → snoop_frame k k' →
  c ≠ LockedRMWReadReq → (cmd_needsWritable c || isInvalidate c = true → d = true) → t < MaxTick →
  replaces d h h' (k_deferred k) (k_deferred k') →
  (k_postInvalidate k' = k_postInvalidate k ∧ replaces d h h' (k_targets k) (k_targets k')) ∨
    (k_inService k = true ∧ snoop_core h' c t ord k k') →
  Waits n' h' k' held.
Proof.
  intros HW Hn Hle (Hr & Ho & Hi & Hd) Hc Hdirty Ht Hrd Hcase. destruct HW.
  assert (pk_on h h' (all_views k)) as Hon by (by apply pk_le_on).
  assert (covers h' (k_deferred k')) as Hdc by (by eapply replaces_covers).
  assert (Forall (λ v, v_source v = FromCPU) (l_views (k_deferred k'))) as Hdf by (by rewrite Hd).
  destruct Hcase as [[Hpi Hrt]|[Hs [[Htg Hpi]|(_ & Hpi0 & Hpi & p & Hpk & Htg)]]].
  - assert (l_views (k_targets k') = l_views (k_targets k)) as Htv by apply Hrt.
    assert (all_views k' = all_views k) as Ha by (unfold all_views; by rewrite Htv, Hd).
    constructor; rewrite ?Ha, ?Hi, ?Hr, ?Hpi, ?Htv; try done.
    + eapply Forall_impl; [done|]. simpl. lia.
    + by eapply replaces_covers.
    + rewrite Hd. intros H1 H2. eapply no_upgrade_mono; eauto.
    + by eapply kinds_on.
  - assert (all_views k' = all_views k) as Ha by (unfold all_views; by rewrite Htg, Hd).
    constructor; rewrite ?Ha, ?Hi, ?Hr, ?Hpi, ?Htg; try done.
    + eapply Forall_impl; [done|]. simpl. lia.
    + by eapply covers_mono.
    + rewrite Hd. intros H1 H2. eapply no_upgrade_mono; eauto.
    + by eapply kinds_on.
  - set (v := mkView ord FromSnoop p t) in *.
    assert (orders (all_views k') = orders (all_views k)) as Ha.
    { unfold all_views. rewrite Htg, Hd. simpl. by rewrite !orders_app, <-(orders_app _ [v]), orders_snoop. }
    assert (∀ P : View → Prop, Forall P (all_views k) → P v → Forall P (all_views k')) as Hall.
    { intros P HP Hv. unfold all_views in *. rewrite Htg, Hd. simpl. apply Forall_app in HP as [HP1 HP2].
      rewrite !Forall_app. split; [split; [done|by repeat constructor]|done]. }
    constructor; rewrite ?Ha, ?Hi, ?Hr; try done.
    + rewrite Htg. simpl. by destruct (l_views (k_targets k)).
    + eapply Forall_impl; [done|]. simpl. lia.
    + rewrite Hs. done.
    + rewrite Htg. unfold covers. simpl. apply Forall_app. split; [by eapply covers_mono|]. repeat constructor. by intros [].
    + intros _ H2. apply Hrd; [done|]. apply Hdirty. by rewrite <-Hpi.
    + apply Hall; [by eapply kinds_on|]. destruct Hpk as (pk & Hp & Hcm). exists pk. split; [done|]. simpl. split; [done|].
      intros _ Hx. apply Hc. destruct Hcm as [Hcm|Hcm]; [congruence|]. rewrite Hx in Hcm. by destruct c.
    + split; [apply w_ready0|]. apply Hall; [apply w_ready0|done].
    + intros Hh. destruct (w_held0 Hh) as (_ & v0 & vs & Hv & Hq). split; [done|]. rewrite Htg. simpl. rewrite Hv. by exists v0, (vs ++ [v]).
Qed.

Lemma move_answer_waits n h h' k held va k' held' : Waits n h k held → answers h h' k held va k' held' →
  locked_front h' (k_targets k') → Waits n h' k' held'.
Proof.
  intros HW Ha (v & vs & pk & Hl & _). destruct (answers_spec _ _ _ _ _ _ _ _ HW Ha) as [_ []].
  constructor; try done; [by rewrite Hl|by rewrite a_service0|auto].
Qed.

(** The deferred targets that move up make the MSHR ask again. *)
Lemma requeued_waits n h h' k k' (t : Z) : pk_le h h' → promoted k k' →
  no_snoop (l_views (k_targets k)) → Forall (λ v, v_source v = FromCPU) (l_views (k_deferred k)) →
  StronglySorted Z.lt (orders (all_views k)) → Forall (λ o, o < n) (orders (all_views k)) →
  Forall (kind_ok h) (all_views k) → Forall (λ v, v_ready v < MaxTick) (all_views k) →
  covers h' (k_targets k') → covers h' (k_deferred k') → l_views (k_targets k') ≠ [] → k_inService k' = false → t < MaxTick →
  (∃ v, v ∈ l_views (k_targets k') ∧ k_ready k' = Z.max t (v_ready v)) → Waits n h' k' false.
Proof.
  intros Hle Hpr Hns Hdf Hso Hbe Hk Hr Hc1 Hc2 Hne Hi Ht (v & Hv & Hrd). pose proof (promoted_all _ _ Hpr) as Ha.
  destruct Hpr as (pre & H1 & H2). rewrite H2 in Hdf. apply Forall_app in Hdf as [Hdf1 Hdf2].
  constructor; rewrite ?Ha; try done.
  - intros _. rewrite H1. apply Forall_app. split; [done|]. eapply Forall_impl; [done|]. simpl. by intros x ->.
  - rewrite Hi. done.
  - by eapply kinds_on; [apply pk_le_on|].
  - split; [|done]. rewrite Hrd. rewrite <-Ha in Hr. rewrite Forall_forall in Hr.
    assert (v_ready v < MaxTick); [|lia]. apply Hr, elem_of_app. by left.
Qed.

Lemma move_waits n h k held es n' h' k' held' : Waits n h k held → move n h k held es n' h' k' held' → Waits n' h' k' held'.
Proof.
  intros HW Hm. destruct Hm.
  - by eapply Waits_same.
  - by eapply move_target_waits.
  - by eapply move_defer_waits.
  - assert (held = false) as ->.
    { apply not_true_is_false. intros Hh. destruct (w_held _ _ _ _ HW Hh). congruence. }
    destruct HW. constructor; try done; [by eapply covers_mono|by eapply covers_mono|by eapply kinds_on; [apply pk_le_on|]].
  - destruct HW. constructor; try done; [by eapply covers_mono|by eapply covers_mono| |by eapply kinds_on; [apply pk_le_on|]|].
    + intros. eapply no_upgrade_mono; eauto.
    + intros _. split; [done|]. by exists v, [].
  - by eapply move_snoop_waits.
  - by eapply move_answer_waits.
  - destruct (answers_spec _ _ _ _ _ _ _ _ HW H) as [_ []]. eapply (requeued_waits n h1 h' k1 k' t); eauto. apply a_ready0.
  - destruct HW. assert (orders (v :: vs ++ l_views (k_deferred k)) = orders (all_views k)) as Ho.
    { unfold all_views. by rewrite H1. }
    assert (is_req v) as Hv. { specialize (w_snoops0 H0). rewrite H1 in w_snoops0. by apply Forall_cons in w_snoops0 as [? _]. }
    assert (no_snoop vs) as Hns. { specialize (w_snoops0 H0). rewrite H1 in w_snoops0. by apply Forall_cons in w_snoops0 as [_ ?]. }
    rewrite orders_cons in Ho by done. rewrite <-Ho in w_sorted0, w_below0.
    apply StronglySorted_inv in w_sorted0 as [Hso _]. apply Forall_cons in w_below0 as [_ Hbe].
    set (k0 := kset_targets _ k) in *.
    assert (∀ P : View → Prop, Forall P (all_views k) → Forall P (all_views k0)) as Hall.
    { intros P. unfold all_views. rewrite H1. simpl. intros HP. by apply Forall_cons in HP as [_ ?]. }
    assert (held = false) as ->. { apply not_true_is_false. intros Hh. destruct (w_held0 Hh). congruence. }
    destruct H3 as [[-> Hne]|(-> & Hpr & Hc1 & Hc2 & Hne & Hi & t & v' & Ht & Hv' & Hrd)].
    + constructor; simpl; try done.
      * eapply covers_mono; [done|]. unfold covers in *. rewrite H1 in w_covers0. by apply Forall_cons in w_covers0 as [_ ?].
      * by eapply covers_mono.
      * intros. eapply no_upgrade_mono; eauto.
      * eapply kinds_on; [by apply pk_le_on|]. by apply Hall.
      * split; [apply w_ready0|]. by apply Hall, w_ready0.
    + eapply (requeued_waits n h h' k0 k' t); try done; [by apply Hall|by apply Hall, w_ready0|by exists v'].
Qed.

(** What is accepted waits until it is answered, in order. *)
Lemma waiting_snoc k k' v held n : all_views k' = all_views k ++ [v] → is_req v → v_order v = n →
  (held = true → orders (all_views k) ≠ []) → waiting k' held = waiting k held ++ [n].
Proof.
  intros Ha Hv Hn Hne. unfold waiting. rewrite Ha, orders_snoc, Hn by done. destruct held; [|done].
  destruct (orders (all_views k)); [by destruct (Hne eq_refl)|done].
Qed.

Lemma held_orders n h k held : Waits n h k held → held = true → orders (all_views k) ≠ [].
Proof.
  intros HW Hh. destruct (w_held _ _ _ _ HW Hh) as (_ & v & vs & Hv & Hq). unfold all_views. rewrite Hv. simpl.
  by rewrite orders_cons.
Qed.

Lemma cpu_req v : v_source v = FromCPU → is_req v.
Proof. unfold is_req. by intros ->. Qed.

Lemma squash_waiting n h k v vs : Waits n h k false → l_views (k_targets k) = v :: vs → k_inService k = false →
  waiting k false = v_order v :: orders (vs ++ l_views (k_deferred k)).
Proof.
  intros HW Hv Hi. unfold waiting, all_views. rewrite Hv. simpl. rewrite orders_cons; [done|].
  pose proof (w_snoops _ _ _ _ HW Hi) as H. rewrite Hv in H. by apply Forall_cons in H as [? _].
Qed.

Lemma not_in_service_held n h k held : Waits n h k held → k_inService k = false → held = false.
Proof. intros HW Hi. apply not_true_is_false. intros Hh. destruct (w_held _ _ _ _ HW Hh). congruence. Qed.

Lemma snoop_orders n h h' k k' c t ord d : Waits n h k false → snoop_frame k k' →
  (k_postInvalidate k' = k_postInvalidate k ∧ replaces d h h' (k_targets k) (k_targets k')) ∨
    (k_inService k = true ∧ snoop_core h' c t ord k k') → orders (all_views k') = orders (all_views k).
Proof.
  intros HW (_ & _ & _ & Hd) [[_ [Ht _]]|[_ [[Ht _]|(_ & _ & _ & p & _ & Ht)]]]; unfold all_views; rewrite Ht, Hd; try done.
  simpl. by rewrite !orders_app, <-(orders_app _ [_]), orders_snoop.
Qed.

Lemma move_log n h k held es n' h' k' held' : Waits n h k held → move n h k held es n' h' k' held' →
  waiting k held ++ accepted es = answered es ++ waiting k' held'.
Proof.
  intros HW Hm. destruct Hm; simpl; rewrite ?app_nil_r.
  - destruct H1 as (H1 & H3 & _). unfold waiting, all_views. by rewrite H1, H3.
  - symmetry. eapply waiting_snoc; [eapply all_targets_snoc; [apply H5|done]|by apply cpu_req|done|]. by eapply held_orders.
  - symmetry. eapply waiting_snoc; [eapply all_deferred_snoc; apply H5|by apply cpu_req|done|]. by eapply held_orders.
  - done.
  - subst held. unfold waiting, all_views. rewrite H1. simpl. rewrite orders_cons by done. done.
  - unfold waiting. f_equal. symmetry. eapply snoop_orders; [|done|done].
    destruct HW. by constructor.
  - apply (answers_spec _ _ _ _ _ _ _ _ HW H).
  - destruct (answers_spec _ _ _ _ _ _ _ _ HW H) as [-> _]. f_equal. unfold waiting. simpl. by rewrite (promoted_all _ _ H2).
  - assert (held = false) as -> by (by eapply not_in_service_held). erewrite squash_waiting by done. simpl. f_equal.
    unfold waiting. simpl. destruct H3 as [[-> _]|(-> & Hpr & _)]; [done|]. by rewrite (promoted_all _ _ Hpr).
Qed.

Lemma birth_waits n h k n' h' k' held : Free k held → birth n h k n' h' k' → Waits n' h' k' held ∧ waiting k' held = [n] ∧ waiting k held = [].
Proof.
  intros [_ _ ->] Hb. destruct Hb as [h' k' v Hle Hv Hn Hq Hr Hk Hi Hrd Ha Hd]. pose proof Ha as [Hl _]. simpl in Hl.
  assert (all_views k' = [v]) as Hall by (unfold all_views; by rewrite Hl, Hd).
  assert (orders [v] = [n]) as Ho by (by rewrite orders_cons, Hn).
  split; [|unfold waiting; by rewrite Hall, Hv, Ho]. constructor; rewrite ?Hall, ?Ho; try done.
  - by rewrite Hl.
  - repeat constructor.
  - repeat constructor. lia.
  - intros _. rewrite Hl. by repeat constructor.
  - by rewrite Hd.
  - eapply tl_added_covers; [exact Hle|exact Ha|]. by constructor.
  - rewrite Hd. by constructor.
  - by rewrite Hi.
  - repeat constructor. by eapply kind_ok_mono.
  - split; [done|]. by repeat constructor.
Qed.

Lemma death_free n h k held es h' k' : Waits n h k held → death h k held es h' k' →
  Free k' false ∧ waiting k held = answered es ∧ accepted es = [].
Proof.
  intros HW Hd. destruct Hd as [h1 h' va k1 k' Ha Hl Hall Hall' Hi|h' k' v Hv Hdf Hs Hi Hall' Hi']; (split; [by constructor|]); simpl.
  - destruct (answers_spec _ _ _ _ _ _ _ _ HW Ha) as [-> _]. unfold waiting. rewrite Hall. done.
  - assert (held = false) as -> by (by eapply not_in_service_held). erewrite squash_waiting by done. by rewrite Hdf.
Qed.

(** ** Snoops and later requests

    Once a snoop that invalidates was deferred, the response serves no request that came
    after it. *)
Definition Frozen (o : Z) (k : Core) : Prop :=
  k_postInvalidate k = true ∧ ∀ v, v ∈ l_views (k_targets k) → is_req v → v_order v < o.

Lemma move_frozen o n h k held es n' h' k' held' : Waits n h k held → move n h k held es n' h' k' held' →
  k_inService k = true → k_inService k' = true → Frozen o k → Frozen o k'.
Proof.
  intros HW Hm Hi Hi' [Hp Hf]. destruct Hm; try congruence.
  - destruct H1 as (H1 & _ & _ & H3). split; [by rewrite H3|by rewrite H1].
  - rewrite (H7 Hi) in Hp. done.
  - by split.
  - by split.
  - destruct H6 as [[H6 [H7 _]]|[_ [[H6 H7]|(_ & H6 & _)]]]; [split; [congruence|by rewrite H7]|split; [congruence|by rewrite H6]|congruence].
  - destruct (answers_spec _ _ _ _ _ _ _ _ HW H) as [_ Ha]. split; [by rewrite (a_post _ _ _ _ _ _ Ha)|].
    intros v' Hv' Hq. destruct (a_from_t _ _ _ _ _ _ Ha Hp v' Hv') as (v & Hv & Hst). injection Hst as Ho Hs _.
    rewrite Ho. apply Hf; [done|]. unfold is_req. by rewrite <-Hs.
Qed.

(** The processor's requests stay until a response. *)
Definition has_cpu (k : Core) : Prop := ∃ v, v ∈ all_views k ∧ v_source v = FromCPU.

Definition is_answer (es : list event) : bool := match es with [Answered _] => true | _ => false end.

End MSHRMachine.
