(* ===== verification/MSHRMoves.v ===== *)
(** * mem/cache/queue.hh: the lists of a queue

    [Lists svc q univ]: the entries [univ] are split in allocated and free ones, and the
    ready list has the allocated entries that are not in service, which [svc] tells.  The
    operations of the template keep it, whatever the entries are. *)

From Stdlib Require Import ZArith Lia.
From stdpp Require Import base numbers option list.
From S2P Require Import Prelude Packet PacketQueue MSHR MSHRQueue CacheQueues MSHRCore MSHROps MSHRMachine.

Module MSHRQueueLemmas.
Import MSHRQueue.

Record Lists (svc : nat → option bool) (q : Queue) (univ : list nat) : Prop := {
  l_split : allocatedList q ++ freeList q ≡ₚ univ;
  l_nodup : NoDup univ;
  l_count : allocated q = Z.of_nat (length (allocatedList q));
  l_rnodup : NoDup (readyList q);
  l_ready : ∀ i, i ∈ readyList q ↔ i ∈ allocatedList q ∧ svc i = Some false;
  l_svc : ∀ i, i ∈ allocatedList q → is_Some (svc i);
  l_service : numInService q = allocated q - Z.of_nat (length (readyList q))
}.

Lemma erase_Ok i l l' : erase i l = Ok l' → l ≡ₚ i :: l' ∧ ∀ x, x ∈ l' → x ∈ l.
Proof.
  revert l'. induction l as [|j l IH]; intros l' H; simpl in H; [done|]. destruct (decide (i = j)) as [->|Hn].
  - injection H as <-. split; [done|]. intros x Hx. by right.
  - apply bind_Ok in H as (l0 & H0 & H). injection H as <-. destruct (IH _ H0) as [Hp _].
    assert (j :: l ≡ₚ i :: j :: l0) as Hp' by (rewrite Hp; apply Permutation_swap). split; [done|].
    intros x Hx. rewrite Hp'. by right.
Qed.

Lemma erase_nodup i l l' : erase i l = Ok l' → NoDup l → NoDup l' ∧ i ∉ l' ∧ i ∈ l ∧ ∀ j, j ∈ l' ↔ j ∈ l ∧ j ≠ i.
Proof.
  intros H Hn. apply erase_Ok in H as [Hp _]. rewrite Hp in Hn. apply NoDup_cons in Hn as [Hi Hn].
  split; [done|]. split; [done|]. split; [rewrite Hp; by left|]. intros j. rewrite Hp, elem_of_cons. split.
  - intros Hj. split; [by right|]. intros ->. done.
  - intros [[->|Hj] Hne]; [done|done].
Qed.

Section Queue_.
Context {E : Type} `{QueueEntry E} (es : list E).

Lemma insert_ready_perm t i l l' : insert_ready es t i l = Ok l' → l' ≡ₚ i :: l.
Proof.
  revert l'. induction l as [|j l IH]; intros l' H'; simpl in H'; [done|]. apply bind_Ok in H' as (e & _ & H').
  destruct (_ <? _); [by injection H' as <-|]. apply bind_Ok in H' as (l0 & H0 & H'). injection H' as <-.
  rewrite (IH _ H0). apply Permutation_swap.
Qed.

Lemma addToReadyList_Ok i q q' : addToReadyList es i q = Ok q' → ∃ l, q' = set_readyList l q ∧ l ≡ₚ i :: readyList q.
Proof.
  unfold addToReadyList. intros H'. apply bind_Ok in H' as (e & _ & H'). destruct (last (readyList q)) eqn:Hl.
  - apply bind_Ok in H' as (eb & _ & H'). destruct (_ <=? _).
    + injection H' as <-. eexists. split; [done|]. by rewrite Permutation_app_comm.
    + apply bind_Ok in H' as (l & Hi & H'). injection H' as <-. exists l. split; [done|]. by eapply insert_ready_perm.
  - injection H' as <-. exists [i]. split; [done|]. apply last_None in Hl. by rewrite Hl.
Qed.

(** A new entry, which waits to be sent. *)
Lemma lists_allocate svc svc' q q' i univ : Lists svc q univ → take_free q = Ok i →
  addToReadyList es i (pop_free i q) = Ok q' → svc' i = Some false → (∀ j, j ≠ i → svc' j = svc j) →
  Lists svc' (count_allocated q') univ ∧ i ∈ freeList q ∧ i ∉ allocatedList q ∧ allocatedList q' = allocatedList q ++ [i] ∧
  freeList q' = tail (freeList q) ∧ readyList q' ≠ [] ∧ numEntries q' = numEntries q ∧ numReserve q' = numReserve q ∧ allocated q' = allocated q.
Proof.
  intros [] Hf Ha Hi Hj. unfold take_free in Hf. destruct (freeList q) as [|i0 fl] eqn:Hfl; [done|]. injection Hf as ->.
  apply addToReadyList_Ok in Ha as (l & -> & Hl). simpl in Hl.
  pose proof l_nodup0 as Hnd. rewrite <-l_split0 in Hnd. apply NoDup_app in Hnd as (Hnd1 & Hnd2 & Hnd3).
  assert (i ∉ allocatedList q) as Hni. { intros Hin. apply (Hnd2 i Hin). by left. }
  assert (i ∉ readyList q) as Hnr. { intros Hin. apply l_ready0 in Hin as [Hin _]. done. }
  split.
  - constructor; simpl; rewrite ?Hfl; try done.
    + rewrite <-l_split0, <-app_assoc. simpl. done.
    + rewrite l_count0, length_app. simpl. lia.
    + rewrite Hl. by apply NoDup_cons.
    + intros j. rewrite Hl, elem_of_cons, elem_of_app, list_elem_of_singleton, l_ready0.
      destruct (decide (j = i)) as [->|Hn]; [naive_solver|]. rewrite Hj by done. naive_solver.
    + intros j. rewrite elem_of_app, list_elem_of_singleton. destruct (decide (j = i)) as [->|Hn]; [by rewrite Hi|].
      rewrite Hj by done. intros [Hin| ->]; [by apply l_svc0|done].
    + rewrite Hl. simpl. lia.
  - simpl. rewrite Hfl. split; [by left|]. split; [done|]. split; [done|]. split; [done|]. split; [|done].
    intros ->. by apply Permutation_nil_cons in Hl.
Qed.

(** An entry that is given back. *)
Lemma lists_release svc svc' q q' i univ : Lists svc q univ → release es i q = Ok q' →
  (∀ e, es !! i = Some e → svc i = Some (q_inService e)) → (∀ j, j ≠ i → svc' j = svc j) →
  Lists svc' q' univ ∧ i ∈ allocatedList q ∧ (∀ j, j ∈ allocatedList q' ↔ j ∈ allocatedList q ∧ j ≠ i) ∧
  (∀ j, j ∈ freeList q' ↔ j ∈ freeList q ∨ j = i) ∧
  numEntries q' = numEntries q ∧ numReserve q' = numReserve q ∧ allocated q' = allocated q - 1.
Proof.
  intros [] Hr Hsi Hj. unfold release in Hr. apply bind_Ok in Hr as (e & He & Hr). apply deref_Ok in He.
  apply bind_Ok in Hr as (al & Hal & Hr). specialize (Hsi e He).
  pose proof l_nodup0 as Hnd. rewrite <-l_split0 in Hnd. apply NoDup_app in Hnd as (Hnd1 & Hnd2 & Hnd3).
  pose proof (proj1 (erase_Ok _ _ _ Hal)) as Hp. destruct (erase_nodup _ _ _ Hal Hnd1) as (Hn1 & Hn2 & Hn3 & Hn4).
  assert (∃ rl ns, q' = mkQueue (numEntries q) (numReserve q) al rl (i :: freeList q) ns (allocated q - 1) ∧
    NoDup rl ∧ (∀ j, j ∈ rl ↔ j ∈ readyList q ∧ j ≠ i) ∧ ns = allocated q - 1 - Z.of_nat (length rl)) as (rl & ns & -> & Hrl1 & Hrl2 & Hns).
  { destruct (q_inService e) eqn:Hs.
    - injection Hr as <-. exists (readyList q), (numInService q - 1). split; [done|]. split; [done|]. split; [|lia].
      intros j. split; [|naive_solver]. intros Hin. split; [done|]. intros ->. apply l_ready0 in Hin as [_ Hin]. congruence.
    - apply bind_Ok in Hr as (rl & Hrl & Hr). injection Hr as <-. exists rl, (numInService q). split; [done|].
      destruct (erase_nodup _ _ _ Hrl l_rnodup0) as (R1 & R2 & R3 & R4). split; [done|]. split; [done|].
      pose proof (Permutation_length (proj1 (erase_Ok _ _ _ Hrl))) as Hlen. simpl in Hlen. lia. }
  split.
  - constructor; simpl; try done.
    + rewrite <-l_split0, Hp. simpl. by rewrite <-Permutation_middle.
    + rewrite l_count0. pose proof (Permutation_length Hp) as Hlen. simpl in Hlen. lia.
    + intros j. rewrite Hrl2, l_ready0, Hn4. split; [intros [[H1 H2] H3]|intros [[H1 H2] H3]]; rewrite Hj in * by done; done.
    + intros j Hin. apply Hn4 in Hin as [Hin Hne]. rewrite Hj by done. by apply l_svc0.
  - split; [done|]. split; [done|]. split; [|done]. intros j. simpl. rewrite elem_of_cons. naive_solver.
Qed.

End Queue_.

(** An entry that is sent, and one that has to be sent again. *)
Lemma lists_send svc svc' q i l univ : Lists svc q univ → erase i (readyList q) = Ok l → svc' i = Some true →
  (∀ j, j ≠ i → svc' j = svc j) → Lists svc' (set_numInService (numInService q + 1) (set_readyList l q)) univ ∧ i ∈ readyList q.
Proof.
  intros [] He Hi Hj. destruct (erase_nodup _ _ _ He l_rnodup0) as (R1 & R2 & R3 & R4). split; [|done].
  pose proof (Permutation_length (proj1 (erase_Ok _ _ _ He))) as Hlen. simpl in Hlen.
  constructor; simpl; try done.
  - intros j. rewrite R4, l_ready0. destruct (decide (j = i)) as [->|Hn]; [rewrite Hi; naive_solver|]. rewrite Hj by done. naive_solver.
  - intros j Hin. destruct (decide (j = i)) as [->|Hn]; [by rewrite Hi|]. rewrite Hj by done. by apply l_svc0.
  - lia.
Qed.

Lemma lists_pending svc svc' q i l univ : Lists svc q univ → l ≡ₚ i :: readyList q → i ∈ allocatedList q → svc i = Some true →
  svc' i = Some false → (∀ j, j ≠ i → svc' j = svc j) → Lists svc' (set_readyList l (set_numInService (numInService q - 1) q)) univ.
Proof.
  intros [] Hl Ha Hs Hi Hj. assert (i ∉ readyList q) as Hni. { intros Hin. apply l_ready0 in Hin as [_ Hin]. congruence. }
  constructor; simpl; try done.
  - rewrite Hl. by apply NoDup_cons.
  - intros j. rewrite Hl, elem_of_cons, l_ready0. destruct (decide (j = i)) as [->|Hn]; [naive_solver|]. rewrite Hj by done. naive_solver.
  - intros j Hin. destruct (decide (j = i)) as [->|Hn]; [by rewrite Hi|]. rewrite Hj by done. by apply l_svc0.
  - rewrite Hl. simpl. lia.
Qed.

(** Nothing that the lists depend on changed. *)
Lemma lists_ext svc svc' q univ : Lists svc q univ → (∀ j, svc' j = svc j) → Lists svc' q univ.
Proof. intros [] Hj. constructor; try done; intros j; rewrite Hj; auto. Qed.

Lemma lists_ext_on svc svc' q univ : Lists svc q univ → (∀ j, j ∈ allocatedList q → svc' j = svc j) → Lists svc' q univ.
Proof.
  intros [] Hj. constructor; try done.
  - intros i. rewrite l_ready0. split; intros [H1 H2]; rewrite Hj in * by done; done.
  - intros i Hi. rewrite Hj by done. auto.
Qed.

Lemma lists_reorder svc q l univ : Lists svc q univ → l ≡ₚ readyList q → Lists svc (set_readyList l q) univ.
Proof.
  intros [] Hl. constructor; simpl; try done.
  - by rewrite Hl.
  - intros i. by rewrite Hl.
  - by rewrite Hl.
Qed.

Lemma insert_before_perm i it l : insert_before i it l ≡ₚ i :: l.
Proof.
  induction l as [|j l IH]; simpl; [done|]. destruct (decide (it = Some j)); [done|]. rewrite IH. apply Permutation_swap.
Qed.

Lemma splice_perm it i l l' : splice it i l = Ok l' → l' ≡ₚ l.
Proof.
  unfold splice. destruct (decide (it = Some i)); [by intros [= <-]|]. intros H. apply bind_Ok in H as (l0 & H0 & H).
  injection H as <-. rewrite insert_before_perm. symmetry. by apply erase_Ok.
Qed.

End MSHRQueueLemmas.

(** * mem/cache/mshr: the operations are moves of the state machine

    Each operation of an MSHR that waits is a [move], its allocation a [birth], and the
    pieces of a response are an [answers] followed by what the cache does with the MSHR. *)

Module MSHRMoves.
Import Packet MSHR MSHRLemmas MSHRCore MSHROps MSHRMachine.
Import CacheQueues(service_targets, serviceMSHRTargets).

Lemma allocate_birth t m ba bs p ready ord a h h' K : MSHR.allocate t m ba bs p ready ord a h = Ok h' →
  cores h !! m = Some K → all_views K = [] → ready < MaxTick →
  frame m h h' ∧ ∃ K', cores h' !! m = Some K' ∧ birth ord h K (ord + 1) h' K' ∧ k_inService K' = false.
Proof.
  intros H HK Hv Hr. apply allocate_spec in H as (Hf & K0 & K' & k & src & HK0 & HK' & Hp & Hsrc & Hi & Hrd & _ & _ & Ha & Hd).
  assert (K0 = K) as -> by congruence. apply app_eq_nil in Hv as [Hv1 Hv2]. rewrite Hv1 in Ha. rewrite Hv2 in Hd.
  split; [done|]. exists K'. split; [done|]. split; [|done].
  eapply (birth_intro _ _ _ _ _ (mkView ord src p ready)); try done.
  - apply Hf.
  - unfold all_views. by rewrite Hv1, Hv2.
  - unfold is_req. simpl. by destruct Hsrc as [[-> _]|[-> _]].
  - exists k. split; [done|]. simpl. destruct Hsrc as [[-> Hc]|[-> Hc]]; split; try done. by rewrite Hc.
  - by rewrite Hrd.
Qed.

Lemma markInService_move n m pm h h' K b : MSHR.markInService m pm h = Ok h' → cores h !! m = Some K →
  frame m h h' ∧ ∃ K', cores h' !! m = Some K' ∧ move n h K b [] n h' K' b ∧ k_inService K = false ∧ k_inService K' = true ∧
    k_targets K' = k_targets K ∧ all_views K' = all_views K.
Proof.
  intros H HK. apply markInService_spec in H as (Hf & K0 & HK0 & Hi & HK'). assert (K0 = K) as -> by congruence.
  split; [done|]. eexists. split; [done|]. split; [apply m_service; [apply Hf|done]|]. done.
Qed.

Lemma allocateTarget_move t m p ready ord a h h' K b : allocateTarget t m p ready ord a h = Ok h' →
  cores h !! m = Some K → ready < MaxTick →
  frame m h h' ∧ ∃ K', cores h' !! m = Some K' ∧ move ord h K b [Accepted ord] (ord + 1) h' K' b ∧
    k_inService K' = k_inService K ∧ has_cpu K'.
Proof.
  intros H HK Hr. apply allocateTarget_spec in H as (Hf & K0 & k & h1 & l & HK0 & Hp & Hc & Hle1 & Hle2 & Hcase).
  assert (K0 = K) as -> by congruence. split; [done|].
  destruct (Hle1 _ _ Hp) as (k1 & Hk1 & Hst).
  assert (kind_ok h1 (mkView ord FromCPU p ready)) as Hkind.
  { exists k1. split; [done|]. split; [|done]. intros _. destruct Hst as [-> | ->]; [done|]. by rewrite replaced_HardPFReq. }
  destruct Hcase as [(HK' & Ha & Hd & Hpi)|(HK' & Ha & Hu)]; eexists; (split; [exact HK'|]).
  - split; [by eapply (m_target _ _ _ _ h1 _ (mkView ord FromCPU p ready))|]. split; [done|].
    exists (mkView ord FromCPU p ready). split; [|done]. unfold all_views. simpl.
    destruct Ha as [-> _]. rewrite !elem_of_app. left. right. by left.
  - split; [|split; [done|]].
    + eapply (m_defer _ _ _ _ h1 _ (mkView ord FromCPU p ready)); try done. intros Hi Hpi. constructor; [|done]. intros _.
      destruct (Hu Hi Hpi) as (k2 & Hk2 & Hc2). simpl. exists k2. split; [done|].
      destruct Ha as [_ [[Hs _]|(_ & k3 & Hk3 & Hrq & _)]]; [done|]. simpl in Hk3. assert (k3 = k2) as -> by congruence.
      apply replaced_fixed; [done|]. by rewrite Hc2, replaced_idemp.
    + exists (mkView ord FromCPU p ready). split; [|done]. unfold all_views. simpl. destruct Ha as [-> _]. rewrite !elem_of_app. right. right. by left.
Qed.

Lemma allocateTarget_frame t m p ready ord a h h' : allocateTarget t m p ready ord a h = Ok h' → frame m h h'.
Proof. intros H. by apply allocateTarget_spec in H as [Hf _]. Qed.

Definition snoop_packet (k : Packet) : Prop :=
  cmd k ≠ LockedRMWReadReq ∧ (isInvalidate (cmd k) = true → cmd_needsWritable (cmd k) = false → isCacheInvalidate (req k) = true).

Lemma handleSnoop_move n n' t m p ord h b0 h' k K b : handleSnoop t m p ord h = Ok (b0, h') → packets h !! p = Some k →
  cores h !! m = Some K → snoop_packet k → t < MaxTick → n <= n' →
  frame m h h' ∧ ∃ K', cores h' !! m = Some K' ∧ move n h K b [] n' h' K' b ∧ k_inService K' = k_inService K.
Proof.
  intros H Hp HK [Hc Hinv] Ht Hn. destruct (handleSnoop_spec _ _ _ _ _ _ _ _ H Hp) as (Hf & K0 & K' & HK0 & HK' & Hfr & Hd & Hcase).
  assert (K0 = K) as -> by congruence. split; [done|]. exists K'. split; [done|]. split; [|apply Hfr].
  eapply (m_snoop _ _ _ _ _ _ _ (cmd k) _ t ord); [done|apply Hf|done|done| |done|done|].
  - destruct (cmd_needsWritable (cmd k)) eqn:Hw; [done|]. simpl. intros Hi. by apply Hinv.
  - destruct Hcase as [(_ & H1 & H2)|H1]; [by left|by right].
Qed.

(** ** A response *)

Lemma serviceMSHRTargets_answers n m k h h1 h2 l K b K1 : Waits n h K b → cores h !! m = Some K → k_inService K = true →
  frame m h h1 → may_promote h h1 K K1 → cores h1 !! m = Some K1 →
  serviceMSHRTargets m k true h1 = Ok (l, h2) → (b = true ↔ cmd k = LockedRMWWriteResp) →
  frame m h h2 ∧ ∃ K2, cores h2 !! m = Some K2 ∧ ∀ b2,
    (b2 = true ↔ locked_front h2 (k_targets K2) ∧ last (orders (views (list_of l))) = head (orders (l_views (k_targets K2))) ∧
       orders (views (list_of l)) ≠ []) →
    answers h h2 K b (views (list_of l)) K2 b2.
Proof.
  intros HW HK Hi Hf1 Hpr HK1 H Hb. unfold serviceMSHRTargets in H.
  apply bind_Ok in H as (x & _ & H). apply bind_Ok in H as (t & _ & H). apply bind_Ok in H as (k0 & _ & H).
  apply bind_Ok in H as (h1' & Hpop & H). apply bind_Ok in H as ([l0 h1''] & He & H). apply bind_Ok in H as (h2' & Hs & H).
  injection H as <- <-.
  assert (Forall (kind_ok h1) (all_views K1)) as Hk1.
  { destruct Hpr as (Hp & _). rewrite (promoted_all _ _ Hp). eapply kinds_on; [apply pk_le_on, Hf1|apply HW]. }
  assert (frame m h1 h1' ∧ pk_le h1 h1' ∧ ∃ vs w u, cores h1' !! m = Some (kset_targets (mkTL vs w u) K1) ∧
    (if b then ∃ v, l_views (k_targets K1) = v :: vs else l_views (k_targets K1) = vs)) as (Hf2 & Hle2 & vs & w & u & HK1' & Hvs).
  { case_bool_decide as Hc.
    - apply bind_Ok in Hpop as (u & _ & Hpop). apply popTarget_spec in Hpop as (Hpk & Hf & K0 & v & vs & HK0 & Hv & HK').
      assert (K0 = K1) as -> by congruence. split; [done|]. split; [apply Hf|]. eexists vs, _, _. split; [exact HK'|].
      rewrite (proj2 Hb Hc). by exists v.
    - injection Hpop as <-. split; [done|]. split; [done|]. exists (l_views (k_targets K1)), (l_writable (k_targets K1)), (l_upgrade (k_targets K1)).
      split; [by destruct K1 as [???????????[] ?]|]. destruct b; [by destruct Hc; apply Hb|done]. }
  assert (∀ v, v ∈ vs → v ∈ all_views K1) as Hin.
  { intros v Hv. apply elem_of_app. left. destruct b; [destruct Hvs as (v0 & ->); by right|by rewrite Hvs]. }
  destruct (serve_spec _ _ _ _ _ _ _ He Hs HK1') as (Hf3 & l' & HK2 & Hcov & Hkind & Hserve & Hfrom).
  { simpl. apply Forall_forall. intros v Hv. eapply kind_ok_mono; [apply Hle2|]. rewrite Forall_forall in Hk1. by apply Hk1, Hin. }
  simpl in Hserve, Hfrom. split; [transitivity h1; [done|]; by transitivity h1'|].
  exists (kset_targets l' K1). split; [exact HK2|]. intros b2 Hb2.
  eapply (answers_intro _ _ _ _ _ _ _ h1 K1 vs l'); try done; [apply Hf1|transitivity h1'; [done|apply Hf3]].
Qed.

Lemma promote_for_response m h h1 K (locked readable writable inval : bool) : cores h !! m = Some K →
  (if locked : bool then Ok h
   else
     h ← (if readable : bool then promoteReadable m h else Ok h);
     if writable && negb inval then promoteWritable m h else Ok h) = Ok h1 →
  frame m h h1 ∧ ∃ K1, cores h1 !! m = Some K1 ∧ may_promote h h1 K K1.
Proof.
  intros HK H. destruct locked.
  { injection H as <-. split; [done|]. exists K. split; [done|]. apply may_promote_refl. }
  apply bind_Ok in H as (h0 & H0 & H).
  assert (frame m h h0 ∧ ∃ K0, cores h0 !! m = Some K0 ∧ may_promote h h0 K K0) as (Hf & K0 & HK0 & Hp).
  { destruct readable.
    - apply promoteReadable_spec in H0 as (Hf & K' & K0 & HK' & HK0 & Hp). assert (K' = K) as -> by congruence. eauto.
    - injection H0 as <-. split; [done|]. exists K. split; [done|]. apply may_promote_refl. }
  destruct (_ && _).
  - apply promoteWritable_spec in H as (Hf' & K' & K1 & HK' & HK1 & Hp'). assert (K' = K0) as -> by congruence.
    split; [by transitivity h0|]. exists K1. split; [done|]. by eapply may_promote_trans.
  - injection H as <-. eauto.
Qed.

(** The MSHR that has more to ask goes back to the ready list. *)
Lemma again_move n t m h h2 h3 K K2 b va : answers h h2 K b va K2 false → cores h2 !! m = Some K2 →
  ¬ locked_front h2 (k_targets K2) → frame m h h2 → t < MaxTick → promoteDeferredTargets t m h2 = Ok (true, h3) →
  ∃ x3, mshrs h3 !! m = Some x3 ∧ k_inService (core x3) = true ∧
    let h' := set_mshr m (set_inService false x3) h3 in
    frame m h h' ∧ ∃ K', cores h' !! m = Some K' ∧ move n h K b [Answered (orders va)] n h' K' false ∧ k_inService K' = false.
Proof.
  intros Ha HK2 Hl Hf Ht Hp. apply promoteDeferred_spec in Hp as (Hpk & Hf3 & K2' & K3 & HK2' & HK3 & Hpr & Hi & Hc1 & Hc2 & _ & v & vs & Hv & _ & Hrd).
  assert (K2' = K2) as -> by congruence. apply cores_lookup_inv in HK3 as (x3 & Hx3 & <-). exists x3. split; [done|].
  assert (k_inService (core x3) = true) as Hi3.
  { rewrite Hi. destruct Ha as [h1 k1 vs0 l' (_ & _ & His & _) _ _ Hsv _ _ _ _ _ -> _]. simpl. by rewrite His. }
  split; [done|]. intros h'. assert (pk_le h3 h') as Hle by (by apply pk_le_eq).
  split; [transitivity h2; [done|]; transitivity h3; [done|apply set_frame]|].
  exists (core (set_inService false x3)). split; [by eapply set_core|]. split; [|done].
  eapply (m_again _ _ _ _ h2 h' va K2 _ t); try done.
  - transitivity h3; [apply Hf3|done].
  - simpl. change (views (list_of (targets x3))) with (l_views (k_targets (core x3))). by rewrite Hv.
  - exists v. split; [|done]. change (l_views (k_targets (core (set_inService false x3)))) with (l_views (k_targets (core x3))).
    rewrite Hv. by left.
Qed.

(** The MSHR that has no more is given back. *)
Lemma done_death t m h h2 h3 h' K K2 b va : answers h h2 K b va K2 false → cores h2 !! m = Some K2 →
  ¬ locked_front h2 (k_targets K2) → frame m h h2 → promoteDeferredTargets t m h2 = Ok (false, h3) → MSHR.deallocate m h3 = Ok h' →
  frame m h h' ∧ h3 = h2 ∧ ∃ K', cores h' !! m = Some K' ∧ death h K b [Answered (orders va)] h' K'.
Proof.
  intros Ha HK2 Hl Hf Hp Hd. apply promoteDeferred_spec in Hp as (_ & _ & K2' & K3 & HK2' & _ & -> & Hv1 & Hv2).
  assert (K2' = K2) as -> by congruence. apply deallocate_spec in Hd as (Hf' & K4 & K' & HK4 & _ & HK' & Hv3 & Hv4 & Hi).
  assert (K4 = K2) as -> by congruence. split; [by transitivity h2|]. split; [done|]. exists K'. split; [done|].
  eapply (d_answer _ _ _ h2); try done; unfold all_views; [by rewrite Hv1, Hv2|by rewrite Hv3, Hv4, Hv2].
Qed.

(** A prefetch that the caches above squash. *)
Lemma squash_pop n m h h1 K b t0 x k : Waits n h K b → cores h !! m = Some K → k_inService K = false →
  mshrs h !! m = Some x → front (targets x) = Ok t0 → packets h !! pkt t0 = Some k → cmd k = HardPFReq →
  popTarget m h = Ok h1 →
  frame m h h1 ∧ pk_le h h1 ∧ ∃ v vs, l_views (k_targets K) = v :: vs ∧ v_source v ≠ FromCPU ∧
    cores h1 !! m = Some (kset_targets (mkTL vs (l_writable (k_targets K)) (l_upgrade (k_targets K))) K).
Proof.
  intros HW HK Hi Hx Ht Hk Hc Hp. apply popTarget_spec in Hp as (Hpk & Hf & K0 & v & vs & HK0 & Hv & HK1).
  assert (K0 = K) as -> by congruence. split; [done|]. split; [apply Hf|]. exists v, vs. split; [done|]. split; [|done].
  intros Hs. pose proof (w_kinds _ _ _ _ HW) as Hkd. unfold all_views in Hkd. rewrite Hv in Hkd. apply Forall_cons in Hkd as [(k' & Hk' & H1 & _) _].
  apply cores_lookup in Hx. assert (core x = K) as HxK by congruence. rewrite <-HxK in Hv. simpl in Hv.
  unfold front in Ht. destruct (list_of (targets x)) as [|t1 l1]; [done|]. injection Ht as ->. injection Hv as <- _.
  simpl in Hk'. assert (k' = k) as -> by congruence. by apply H1.
Qed.

Lemma same_move n n' m h h' K K' b : frame m h h' → n <= n' → same_lists K K' → (k_ready K < MaxTick → k_ready K' < MaxTick) →
  move n h K b [] n' h' K' b.
Proof. intros Hf Hn Hs Hr. apply m_same; [done|apply pk_le_on, Hf|done|done]. Qed.

Lemma same_lists_refl K : same_lists K K.
Proof. done. Qed.

(** The MSHRs that an operation does not touch. *)
Lemma frame_move n n' m j h h' K b : frame m h h' → j ≠ m → n <= n' → cores h !! j = Some K →
  cores h' !! j = Some K ∧ move n h K b [] n' h' K b.
Proof.
  intros (Hl & Hle & Hj) Hne Hn HK. split; [by rewrite Hj|]. apply m_same; [done|by apply pk_le_on|done|done].
Qed.

End MSHRMoves.
