(* ===== verification/MSHRFile.v ===== *)
(** * mem/cache/mshr_queue: the MSHRs of a cache as state machines

    [MInv] is the invariant of the MSHRs of one cache: the lists of the queue fit, the
    allocated ones are as [Waits] says and the others are free.  [evolve] says what became of
    each of them: a chain of moves, births and deaths, with the requests that it accepts and
    answers.  Each operation of the queue keeps the one and is the other. *)

From Stdlib Require Import ZArith Lia Sorted.
From stdpp Require Import base numbers option list gmap sorting.
From S2P Require Import Prelude Packet PacketQueue MSHR MSHRCore MSHROps MSHRQueue CacheQueues.
From S2P Require Import MSHRMoves MSHRMachine.

Module MSHRFile.
Import Packet MSHR MSHRLemmas MSHRCore MSHROps MSHRQueue MSHRQueueLemmas MSHRMachine MSHRMoves.
Import CacheQueues(serviceMSHRTargets).

(** ** Chains *)

Definition Entry_ok (n : Z) (h : Heap) (k : Core) (held : bool) : Prop := Waits n h k held ∨ Free k held.

Inductive entry_step (n : Z) (h : Heap) (k : Core) (held : bool) : list event → Z → Heap → Core → bool → Prop :=
  | e_move es n' h' k' held' : move n h k held es n' h' k' held' → Waits n h k held → entry_step n h k held es n' h' k' held'
  | e_free n' h' k' : Free k held → Free k' held → entry_step n h k held [] n' h' k' held
  | e_birth n' h' k' : birth n h k n' h' k' → Free k held → entry_step n h k held [Accepted n] n' h' k' held
  | e_death es n' h' k' : death h k held es h' k' → Waits n h k held → entry_step n h k held es n' h' k' false.

(** In a chain that starts [in_service] the MSHR stays so until its last step. *)
Inductive chain (in_service : bool) : Z → Heap → Core → bool → list event → Z → Heap → Core → bool → Prop :=
  | chain_one n h k held es n' h' k' held' : entry_step n h k held es n' h' k' held' →
      chain in_service n h k held es n' h' k' held'
  | chain_cons n h k held es1 es2 n1 h1 k1 held1 n' h' k' held' : entry_step n h k held es1 n1 h1 k1 held1 →
      (in_service = true → k_inService k1 = true) → chain in_service n1 h1 k1 held1 es2 n' h' k' held' →
      chain in_service n h k held (es1 ++ es2) n' h' k' held'.

Lemma entry_step_ok n h k held es n' h' k' held' : entry_step n h k held es n' h' k' held' → Entry_ok n' h' k' held'.
Proof.
  intros [es0 n0 h0 k0 held0 Hm HW|n0 h0 k0 Hf Hf'|n0 h0 k0 Hb Hf|es0 n0 h0 k0 Hd HW].
  - left. by eapply move_waits.
  - by right.
  - left. by eapply birth_waits.
  - right. by eapply death_free.
Qed.

Lemma Free_waiting k held : Free k held → waiting k held = [].
Proof. intros [Hv _ ->]. unfold waiting. by rewrite Hv. Qed.

Lemma entry_step_log n h k held es n' h' k' held' : entry_step n h k held es n' h' k' held' →
  waiting k held ++ accepted es = answered es ++ waiting k' held'.
Proof.
  intros [es0 n0 h0 k0 held0 Hm HW|n0 h0 k0 Hf Hf'|n0 h0 k0 Hb Hf|es0 n0 h0 k0 Hd HW].
  - by eapply move_log.
  - by rewrite !Free_waiting.
  - destruct (birth_waits _ _ _ _ _ _ _ Hf Hb) as (_ & -> & ->). done.
  - destruct (death_free _ _ _ _ _ _ _ HW Hd) as (Hf & -> & ->). by rewrite (Free_waiting _ _ Hf).
Qed.

Lemma entry_step_frozen o n h k held es n' h' k' held' : entry_step n h k held es n' h' k' held' →
  k_inService k = true → k_inService k' = true → Frozen o k → Frozen o k'.
Proof.
  intros [es0 n0 h0 k0 held0 Hm HW|n0 h0 k0 Hf Hf'|n0 h0 k0 Hb Hf|es0 n0 h0 k0 Hd HW] Hi Hi'.
  - by eapply move_frozen.
  - destruct Hf. congruence.
  - destruct Hf. congruence.
  - destruct (death_free _ _ _ _ _ _ _ HW Hd) as ([] & _). congruence.
Qed.

Lemma chain_ok s n h k held es n' h' k' held' : chain s n h k held es n' h' k' held' → Entry_ok n' h' k' held'.
Proof. induction 1; [by eapply entry_step_ok|done]. Qed.

Lemma chain_log s n h k held es n' h' k' held' : chain s n h k held es n' h' k' held' →
  waiting k held ++ accepted es = answered es ++ waiting k' held'.
Proof.
  intros H. induction H as [n h k held es n' h' k' held' H|n h k held es1 es2 n1 h1 k1 held1 n' h' k' held' H1 Hs H2 IH];
    [by eapply entry_step_log|]. apply entry_step_log in H1.
  rewrite accepted_app, answered_app, app_assoc, H1, <-!app_assoc. by f_equal.
Qed.

Lemma chain_frozen o n h k held es n' h' k' held' : chain true n h k held es n' h' k' held' →
  k_inService k = true → k_inService k' = true → Frozen o k → Frozen o k'.
Proof.
  intros H. induction H as [n h k held es n' h' k' held' H|n h k held es1 es2 n1 h1 k1 held1 n' h' k' held' H1 Hs H2 IH];
    intros Hi Hi' Hf; [by eapply entry_step_frozen|].
  apply IH; [auto|done|]. eapply entry_step_frozen; eauto.
Qed.

Lemma chain_trans s n h k held es1 n1 h1 k1 held1 es2 n' h' k' held' : chain s n h k held es1 n1 h1 k1 held1 →
  (s = true → k_inService k1 = true) → chain s n1 h1 k1 held1 es2 n' h' k' held' →
  chain s n h k held (es1 ++ es2) n' h' k' held'.
Proof.
  intros H. induction H as [n h k held es n1 h1 k1 held1 H|n h k held esa esb na ha ka helda n1 h1 k1 held1 H1 Hs H2 IH];
    intros Hi Hc; [by eapply chain_cons|]. rewrite <-app_assoc. eapply chain_cons; [done|done|]. by apply IH.
Qed.

Lemma chain_unmarked s n h k held es n' h' k' held' : chain s n h k held es n' h' k' held' → chain false n h k held es n' h' k' held'.
Proof. induction 1; [by apply chain_one|]. by eapply chain_cons. Qed.

(** ** The MSHRs *)

Section File.
Context (own : list nat).

Definition svc (h : Heap) (i : nat) : option bool := k_inService <$> cores h !! i.

Definition is_held (H : gset nat) (j : nat) : bool := bool_decide (j ∈ H).

Record MInv (n : Z) (h : Heap) (q : Queue) (H : gset nat) : Prop := {
  i_lists : Lists (svc h) q own;
  i_numEntries : numEntries q = Z.of_nat (length own);
  i_numReserve : numReserve q = 0;
  i_waits : ∀ j, j ∈ allocatedList q → ∃ K, cores h !! j = Some K ∧ Waits n h K (is_held H j);
  i_free : ∀ j, j ∈ freeList q → ∃ K, cores h !! j = Some K ∧ Free K (is_held H j)
}.

Definition events_of (j : nat) (es : list (nat * event)) : list event := snd <$> filter (λ e, fst e = j) es.

Definition evolve (n : Z) (h : Heap) (H : gset nat) (es : list (nat * event)) (n' : Z) (h' : Heap) (H' : gset nat) : Prop :=
  ∀ j K, j ∈ own → cores h !! j = Some K → ∃ K', cores h' !! j = Some K' ∧
    chain (k_inService K) n h K (is_held H j) (events_of j es) n' h' K' (is_held H' j).

(** Nothing left service. *)
Definition keeps_service (h h' : Heap) : Prop :=
  ∀ j K K', j ∈ own → cores h !! j = Some K → cores h' !! j = Some K' → k_inService K = true → k_inService K' = true.

Lemma events_of_app j a b : events_of j (a ++ b) = events_of j a ++ events_of j b.
Proof. unfold events_of. by rewrite filter_app, fmap_app. Qed.

Lemma evolve_trans n h H es1 n1 h1 H1 es2 n' h' H' : evolve n h H es1 n1 h1 H1 → keeps_service h h1 →
  evolve n1 h1 H1 es2 n' h' H' → evolve n h H (es1 ++ es2) n' h' H'.
Proof.
  intros He1 Hk He2 j K Hj HK. destruct (He1 j K Hj HK) as (K1 & HK1 & Hc1). destruct (He2 j K1 Hj HK1) as (K' & HK' & Hc2).
  exists K'. split; [done|]. rewrite events_of_app. eapply chain_trans; [done|by eapply Hk|].
  destruct (k_inService K) eqn:Hs; [|by eapply chain_unmarked]. by rewrite (Hk j K K1 Hj HK HK1 Hs) in Hc2.
Qed.

Lemma MInv_entry n h q H j : MInv n h q H → j ∈ own → j ∈ allocatedList q ∨ j ∈ freeList q.
Proof. intros [Hl _ _ _ _] Hj. rewrite <-(l_split _ _ _ Hl) in Hj. by apply elem_of_app in Hj. Qed.

Lemma MInv_own n h q H j : MInv n h q H → j ∈ allocatedList q → j ∈ own.
Proof. intros [Hl _ _ _ _] Hj. rewrite <-(l_split _ _ _ Hl). apply elem_of_app. by left. Qed.

Lemma MInv_disjoint n h q H j : MInv n h q H → j ∈ allocatedList q → j ∈ freeList q → False.
Proof.
  intros [Hl _ _ _ _]. pose proof (l_nodup _ _ _ Hl) as Hn. rewrite <-(l_split _ _ _ Hl) in Hn.
  apply NoDup_app in Hn as (_ & Hd & _). apply Hd.
Qed.

(** An MSHR that an operation on another one left alone. *)
Lemma other_entry n n' h h' q H i j K : MInv n h q H → frame i h h' → j ∈ own → j ≠ i → n <= n' → cores h !! j = Some K →
  cores h' !! j = Some K ∧ entry_step n h K (is_held H j) [] n' h' K (is_held H j).
Proof.
  intros HM Hf Hj Hne Hn HK. destruct (frame_move n n' i j h h' K (is_held H j) Hf Hne Hn HK) as [HK' Hm]. split; [done|].
  destruct (MInv_entry _ _ _ _ _ HM Hj) as [Ha|Hfr].
  - destruct (i_waits _ _ _ _ HM j Ha) as (K0 & HK0 & HW). assert (K0 = K) as -> by congruence. by apply e_move.
  - destruct (i_free _ _ _ _ HM j Hfr) as (K0 & HK0 & HF). assert (K0 = K) as -> by congruence. by apply e_free.
Qed.

Lemma events_of_one j e : events_of j [(j, e)] = [e].
Proof. unfold events_of. rewrite filter_cons, decide_True by done. done. Qed.
Lemma events_of_other i j es : j ≠ i → events_of j (pair i <$> es) = [].
Proof.
  intros Hne. unfold events_of. induction es as [|e es IH]; [done|]. simpl. rewrite filter_cons, decide_False by (simpl; congruence). done.
Qed.
Lemma events_of_same i es : events_of i (pair i <$> es) = es.
Proof. unfold events_of. induction es as [|e es IH]; [done|]. simpl. rewrite filter_cons, decide_True by done. simpl. by f_equal. Qed.

(** One operation on the MSHR [i]. *)
Lemma one_entry n n' h h' q q' H H' i K K' es : MInv n h q H → frame i h h' → i ∈ own → n <= n' →
  cores h !! i = Some K → cores h' !! i = Some K' →
  chain (k_inService K) n h K (is_held H i) es n' h' K' (is_held H' i) → (∀ j, j ≠ i → is_held H' j = is_held H j) →
  Lists (svc h') q' own → numEntries q' = numEntries q → numReserve q' = numReserve q →
  (∀ j, j ≠ i → j ∈ allocatedList q' → j ∈ allocatedList q) → (∀ j, j ≠ i → j ∈ freeList q' → j ∈ freeList q) →
  (i ∈ allocatedList q' → Waits n' h' K' (is_held H' i)) → (i ∈ freeList q' → Free K' (is_held H' i)) →
  MInv n' h' q' H' ∧ evolve n h H (pair i <$> es) n' h' H'.
Proof.
  intros HM Hf Hi Hn HK HK' Hc HH Hl Hne Hnr Ha Hfr Hw Hfree. split.
  - constructor; try done; [by rewrite Hne, (i_numEntries _ _ _ _ HM)|by rewrite Hnr, (i_numReserve _ _ _ _ HM)| |].
    + intros j Hj. destruct (decide (j = i)) as [->|Hd]; [eauto|].
      specialize (Ha j Hd Hj). destruct (i_waits _ _ _ _ HM j Ha) as (Kj & HKj & HWj).
      destruct (other_entry n n' h h' q H i j Kj HM Hf) as [HKj' He]; [by eapply MInv_own|done|done|done|].
      exists Kj. split; [done|]. rewrite HH by done. apply entry_step_ok in He as [?|[Hv _ _]]; [done|].
      destruct HWj. unfold all_views in Hv. by apply app_eq_nil in Hv as [? _].
    + intros j Hj. destruct (decide (j = i)) as [->|Hd]; [eauto|].
      specialize (Hfr j Hd Hj). destruct (i_free _ _ _ _ HM j Hfr) as (Kj & HKj & HFj).
      exists Kj. rewrite HH by done. split; [|done]. destruct Hf as (_ & _ & Hf). by rewrite Hf.
  - intros j Kj Hj HKj. destruct (decide (j = i)) as [->|Hd].
    + exists K'. split; [done|]. rewrite events_of_same. congruence.
    + destruct (other_entry n n' h h' q H i j Kj HM Hf Hj Hd Hn HKj) as [HKj' He]. exists Kj. split; [done|].
      rewrite events_of_other, HH by done. by apply chain_one.
Qed.

Lemma frame_keeps_service i h h' : frame i h h' → i ∈ own →
  (∀ K K', cores h !! i = Some K → cores h' !! i = Some K' → k_inService K = true → k_inService K' = true) → keeps_service h h'.
Proof.
  intros (_ & _ & Hf) Hi Hk j K K' Hj HK HK'. destruct (decide (j = i)) as [->|Hd]; [by apply Hk|]. rewrite Hf in HK' by done. congruence.
Qed.

Lemma svc_other i h h' : frame i h h' → ∀ j, j ≠ i → svc h' j = svc h j.
Proof. intros (_ & _ & Hf) j Hj. unfold svc. by rewrite Hf. Qed.

(** ** Operations *)

(** The packets of the MSHRs change only as upgrades are replaced, and the MSHRs not at all. *)
Definition outside (h h' : Heap) (q : Queue) : Prop :=
  (∀ j, j ∈ own → cores h' !! j = cores h !! j) ∧
  ∀ j K, j ∈ allocatedList q → cores h !! j = Some K → pk_on h h' (all_views K).

Lemma outside_inv n n' h h' q H : MInv n h q H → outside h h' q → n <= n' →
  MInv n' h' q H ∧ evolve n h H [] n' h' H ∧ keeps_service h h'.
Proof.
  intros HM [Hc Hp] Hn.
  assert (∀ j K, j ∈ own → cores h !! j = Some K → entry_step n h K (is_held H j) [] n' h' K (is_held H j)) as Hstep.
  { intros j K Hj HK. destruct (MInv_entry _ _ _ _ _ HM Hj) as [Ha|Hfr].
    - destruct (i_waits _ _ _ _ HM j Ha) as (K0 & HK0 & HW). assert (K0 = K) as -> by congruence.
      apply e_move; [|done]. apply m_same; [done|by eapply Hp|done|done].
    - destruct (i_free _ _ _ _ HM j Hfr) as (K0 & HK0 & HF). assert (K0 = K) as -> by congruence. by apply e_free. }
  split; [|split].
  - constructor; try apply HM.
    + eapply lists_ext_on; [apply HM|]. intros j Hj. unfold svc. rewrite Hc; [done|]. by eapply MInv_own.
    + intros j Hj. destruct (i_waits _ _ _ _ HM j Hj) as (K & HK & HW). exists K.
      pose proof (MInv_own _ _ _ _ _ HM Hj) as Ho. rewrite Hc by done. split; [done|].
      destruct HW as [].  eapply Waits_same; [exact Hn|by eapply Hp|done|done|]. by constructor.
    + intros j Hj. destruct (i_free _ _ _ _ HM j Hj) as (K & HK & HF). exists K. rewrite Hc; [done|].
      rewrite <-(l_split _ _ _ (i_lists _ _ _ _ HM)). apply elem_of_app. by right.
  - intros j K Hj HK. exists K. rewrite Hc by done. split; [done|]. apply chain_one. by apply Hstep.
  - intros j K K' Hj HK HK'. rewrite Hc in HK' by done. congruence.
Qed.

Lemma same_cores_outside h h' q : mshrs h' = mshrs h → pk_le h h' → outside h h' q.
Proof. intros Hm Hle. split; [intros j _; unfold cores; by rewrite Hm|]. intros j K _ _. by apply pk_le_on. Qed.

Lemma svc_lookup h i x : mshrs h !! i = Some x → svc h i = Some (inService x).
Proof. intros Hx. unfold svc. by rewrite (cores_lookup _ _ _ Hx). Qed.

Lemma mq_allocate_inv t ba bs p ready a n h q H i h' q' : MInv n h q H →
  mq_allocate t ba bs p ready n a h q = Ok (i, h', q') → ready < MaxTick →
  MInv (n + 1) h' q' H ∧ evolve n h H [(i, Accepted n)] (n + 1) h' H ∧ keeps_service h h' ∧ pk_le h h' ∧
  take_free q = Ok i ∧ i ∈ allocatedList q' ∧ readyList q' ≠ [] ∧ allocated q' = allocated q + 1 ∧
  (∀ j, j ∈ allocatedList q → j ∈ allocatedList q' ∧ j ≠ i ∧ cores h' !! j = cores h !! j) ∧
  ∃ K v, cores h' !! i = Some K ∧ k_inService K = false ∧ l_views (k_targets K) = [v] ∧ is_req v ∧ v_order v = n.
Proof.
  intros HM Ha Hr. unfold mq_allocate in Ha. apply bind_Ok in Ha as (i0 & Hi0 & Ha). apply bind_Ok in Ha as (x & Hx & Ha).
  apply bind_Ok in Ha as (u & Hu & Ha). apply bind_Ok in Ha as (h1 & Hal & Ha). apply bind_Ok in Ha as (q1 & Hq1 & Ha).
  injection Ha as <- <- <-. heap_inv. pose proof Hi0 as Htf. unfold take_free in Hi0. destruct (freeList q) as [|i1 fl] eqn:Hfl; [done|].
  injection Hi0 as ->. destruct (i_free _ _ _ _ HM i0) as (K & HK & HF); [rewrite Hfl; by left|].
  destruct (allocate_birth _ _ _ _ _ _ _ _ _ _ _ Hal HK (f_views _ _ HF) Hr) as (Hf & K' & HK' & Hb & Hi').
  assert (svc h1 i0 = Some false) as Hsv by (unfold svc; rewrite HK'; simpl; by rewrite Hi').
  destruct (lists_allocate (mshrs h1) (svc h) (svc h1) q q1 i0 own (i_lists _ _ _ _ HM) Htf Hq1 Hsv (svc_other _ _ _ Hf))
    as (Hl & Hin & Hnin & Hal' & Hfl' & Hrl & Hne & Hnr & Hcnt).
  assert (i0 ∈ own) as Ho by (rewrite <-(l_split _ _ _ (i_lists _ _ _ _ HM)); apply elem_of_app; by right).
  destruct (birth_waits _ _ _ _ _ _ _ HF Hb) as (HW & _ & _).
  destruct (one_entry n (n + 1) h h1 q (count_allocated q1) H H i0 K K' [Accepted n] HM Hf Ho) as [HM' He]; try done.
  - lia.
  - apply chain_one. by eapply e_birth.
  - intros j Hj. simpl. rewrite Hal'. intros Hx'. apply elem_of_app in Hx' as [?|?]; [done|]. by apply list_elem_of_singleton in H0.
  - intros j Hj. simpl. rewrite Hfl', Hfl. simpl. intros ?. by right.
  - simpl. rewrite Hfl', Hfl. simpl. intros Hbad. exfalso. pose proof (l_nodup _ _ _ (i_lists _ _ _ _ HM)) as Hnd.
    rewrite <-(l_split _ _ _ (i_lists _ _ _ _ HM)), Hfl in Hnd. apply NoDup_app in Hnd as (_ & _ & Hnd). by apply NoDup_cons in Hnd as [? _].
  - split; [done|]. split; [done|]. split.
    { eapply frame_keeps_service; [done|done|]. intros K0 K0' HK0 _ Hs. destruct HF. congruence. }
    split; [apply Hf|]. split; [done|]. simpl. rewrite Hal'. split; [apply elem_of_app; right; by left|]. split; [done|].
    split; [by rewrite Hcnt|]. split.
    + intros j Hj. split; [apply elem_of_app; by left|]. assert (j ≠ i0) by (intros ->; done). split; [done|]. by apply Hf.
    + destruct Hb as [h2 k2 v _ _ Hv Hq _ _ _ _ [Hlv _] _]. exists k2, v. done.
Qed.

Lemma MInv_waits n h q H m : MInv n h q H → m ∈ allocatedList q →
  m ∈ own ∧ ∃ K, cores h !! m = Some K ∧ Waits n h K (is_held H m).
Proof. intros HM Hm. split; [by eapply MInv_own|]. by apply (i_waits _ _ _ _ HM). Qed.

(** An operation that leaves the lists of the queue, or only reorders its ready list. *)
Lemma in_place n n' h h' q q' H i K K' es : MInv n h q H → frame i h h' → i ∈ allocatedList q → n <= n' →
  cores h !! i = Some K → cores h' !! i = Some K' →
  move n h K (is_held H i) es n' h' K' (is_held H i) → k_inService K' = k_inService K →
  (∃ l, q' = set_readyList l q ∧ l ≡ₚ readyList q) →
  MInv n' h' q' H ∧ evolve n h H (pair i <$> es) n' h' H ∧ keeps_service h h'.
Proof.
  intros HM Hf Ha Hn HK HK' Hm Hs (l & -> & Hl). destruct (MInv_waits _ _ _ _ _ HM Ha) as [Ho (K0 & HK0 & HW)].
  assert (K0 = K) as -> by congruence.
  assert (Lists (svc h') (set_readyList l q) own) as HL.
  { apply lists_reorder; [|done]. eapply lists_ext; [apply HM|]. intros j. destruct (decide (j = i)) as [->|Hd]; [|by eapply svc_other].
    unfold svc. rewrite HK, HK'. simpl. by rewrite Hs. }
  destruct (one_entry n n' h h' q (set_readyList l q) H H i K K' es HM Hf Ho) as [HM' He]; try done.
  - apply chain_one. by apply e_move.
  - intros _. by eapply move_waits.
  - intros Hfr. exfalso. by eapply MInv_disjoint.
  - split; [done|]. split; [done|]. eapply frame_keeps_service; [done|done|]. intros K1 K2 HK1 HK2 H1. congruence.
Qed.

Lemma in_place_same n n' h h' q H i K K' es : MInv n h q H → frame i h h' → i ∈ allocatedList q → n <= n' →
  cores h !! i = Some K → cores h' !! i = Some K' →
  move n h K (is_held H i) es n' h' K' (is_held H i) → k_inService K' = k_inService K →
  MInv n' h' q H ∧ evolve n h H (pair i <$> es) n' h' H ∧ keeps_service h h'.
Proof. intros. eapply in_place; try done. exists (readyList q). split; [by destruct q|done]. Qed.

Lemma mq_markInService_inv n i pm h q H h' q' : MInv n h q H → i ∈ allocatedList q → mq_markInService i pm h q = Ok (h', q') →
  MInv n h' q' H ∧ evolve n h H [] n h' H ∧ keeps_service h h' ∧ pk_le h h' ∧
  allocatedList q' = allocatedList q ∧ allocated q' = allocated q ∧
  (∀ j, j ∈ allocatedList q → j ≠ i → cores h' !! j = cores h !! j) ∧
  ∃ K K', cores h !! i = Some K ∧ cores h' !! i = Some K' ∧ k_inService K' = true ∧ k_targets K' = k_targets K ∧ all_views K' = all_views K.
Proof.
  intros HM Ha H0. unfold mq_markInService in H0. apply bind_Ok in H0 as (h1 & Hm & H0). apply bind_Ok in H0 as (l & Hl & H0).
  injection H0 as <- <-. destruct (MInv_waits _ _ _ _ _ HM Ha) as [Ho (K & HK & HW)].
  destruct (markInService_move n _ _ _ _ _ (is_held H i) Hm HK) as (Hf & K' & HK' & Hmv & Hi & Hi' & Ht & Hall).
  assert (svc h1 i = Some true) as Hsv by (unfold svc; rewrite HK'; simpl; by rewrite Hi').
  destruct (lists_send _ (svc h1) q i l own (i_lists _ _ _ _ HM) Hl Hsv (svc_other _ _ _ Hf)) as [HL Hr].
  destruct (one_entry n n h h1 q (set_numInService (numInService q + 1) (set_readyList l q)) H H i K K' [] HM Hf Ho) as [HM' He]; try done.
  - apply chain_one. by apply e_move.
  - intros _. by eapply move_waits.
  - intros Hfr. exfalso. by eapply MInv_disjoint.
  - split; [done|]. split; [done|]. split.
    { eapply frame_keeps_service; [done|done|]. intros K1 K2 HK1 HK2 H1. congruence. }
    split; [apply Hf|]. split; [done|]. split; [done|]. split; [intros j _ Hj; by apply Hf|]. by exists K, K'.
Qed.

Lemma allocateTarget_inv n t m p ready a h q H h' : MInv n h q H → m ∈ allocatedList q →
  allocateTarget t m p ready n a h = Ok h' → ready < MaxTick →
  MInv (n + 1) h' q H ∧ evolve n h H [(m, Accepted n)] (n + 1) h' H ∧ keeps_service h h' ∧ pk_le h h' ∧
  ∃ K, cores h' !! m = Some K ∧ has_cpu K.
Proof.
  intros HM Hm Ha Hr. destruct (MInv_waits _ _ _ _ _ HM Hm) as [Ho (K & HK & HW)].
  destruct (allocateTarget_move _ _ _ _ _ _ _ _ _ (is_held H m) Ha HK Hr) as (Hf & K' & HK' & Hmv & Hi & Hc).
  destruct (in_place_same n (n + 1) h h' q H m K K' [Accepted n] HM Hf Hm) as (H1 & H2 & H3); try done; [lia|].
  split; [done|]. split; [done|]. split; [done|]. split; [apply Hf|]. by exists K'.
Qed.

Lemma move_no_event_cpu n h k held n' h' k' held' : move n h k held [] n' h' k' held' → has_cpu k → has_cpu k'.
Proof.
  intros Hm (v & Hv & Hs). inversion Hm as [? ? ? H1 H2 (H3 & H4 & _) H5| | |? ? H1 H2| |? ? ? c d t ord H1 H2 (_ & _ & _ & Hd) H4 H5 H6 H7 Hcase| | |];
    subst; exists v; (split; [|done]).
  - unfold all_views. by rewrite H3, H4.
  - done.
  - unfold all_views in *. rewrite Hd. apply elem_of_app in Hv as [Hv|Hv]; apply elem_of_app; [left|by right].
    destruct Hcase as [[_ [-> _]]|[_ [[-> _]|(_ & _ & _ & p & _ & ->)]]]; [done|done|]. simpl. apply elem_of_app. by left.
Qed.

(** [cpu_stays]: the MSHRs that have a request of the processor keep one. *)
Definition cpu_stays (h h' : Heap) (q : Queue) : Prop :=
  ∀ j K, j ∈ allocatedList q → cores h !! j = Some K → has_cpu K → ∃ K', cores h' !! j = Some K' ∧ has_cpu K'.

Lemma frame_cpu_stays m h h' q K' : frame m h h' → cores h' !! m = Some K' →
  (∀ K, cores h !! m = Some K → has_cpu K → has_cpu K') → cpu_stays h h' q.
Proof.
  intros (_ & _ & Hf) HK' Hc j K Hj HK Hcpu. destruct (decide (j = m)) as [->|Hd]; [eauto|].
  exists K. rewrite Hf by done. done.
Qed.

Lemma handleSnoop_inv n t m p ord h q H b h' k : MInv n h q H → m ∈ allocatedList q → packets h !! p = Some k →
  handleSnoop t m p ord h = Ok (b, h') → snoop_packet k → t < MaxTick →
  MInv (n + 1) h' q H ∧ evolve n h H [] (n + 1) h' H ∧ keeps_service h h' ∧ pk_le h h' ∧ cpu_stays h h' q.
Proof.
  intros HM Hm Hp Hs Hk Ht. destruct (MInv_waits _ _ _ _ _ HM Hm) as [Ho (K & HK & HW)].
  destruct (handleSnoop_move n (n + 1) _ _ _ _ _ _ _ _ _ (is_held H m) Hs Hp HK Hk Ht) as (Hf & K' & HK' & Hmv & Hi); [lia|].
  destruct (in_place_same n (n + 1) h h' q H m K K' [] HM Hf Hm) as (H1 & H2 & H3); try done; [lia|].
  split; [done|]. split; [done|]. split; [done|]. split; [apply Hf|].
  eapply frame_cpu_stays; [done|done|]. intros K0 HK0 Hc. assert (K0 = K) as -> by congruence. by eapply move_no_event_cpu.
Qed.

(** A change of the MSHR that no invariant is about. *)
Lemma same_in_place n h q q' H i x x' : MInv n h q H → i ∈ allocatedList q → mshrs h !! i = Some x →
  same_lists (core x) (core x') → (k_ready (core x) < MaxTick → k_ready (core x') < MaxTick) →
  (∃ l, q' = set_readyList l q ∧ l ≡ₚ readyList q) →
  let h' := set_mshr i x' h in
  MInv n h' q' H ∧ evolve n h H [] n h' H ∧ keeps_service h h' ∧ pk_le h h' ∧ cpu_stays h h' q.
Proof.
  intros HM Hi Hx Hs Hr Hq h'. assert (frame i h h') as Hf by apply set_frame.
  pose proof (set_core i x' x h Hx) as HK'. pose proof (cores_lookup _ _ _ Hx) as HK.
  destruct (in_place n n h h' q q' H i (core x) (core x') [] HM Hf Hi) as (H1 & H2 & H3); try done.
  - by eapply same_move.
  - apply Hs.
  - split; [done|]. split; [done|]. split; [done|]. split; [apply Hf|]. eapply frame_cpu_stays; [done|done|].
    intros K0 HK0 (v & Hv & Hc). assert (K0 = core x) as -> by congruence. exists v. split; [|done].
    destruct Hs as (H4 & H5 & _). unfold all_views in *. by rewrite H4, H5.
Qed.

Lemma set_isForward_inv n h q H i f h' : MInv n h q H → i ∈ allocatedList q → upd i (set_isForward f) h = Ok h' →
  MInv n h' q H ∧ evolve n h H [] n h' H ∧ keeps_service h h' ∧ pk_le h h' ∧ cpu_stays h h' q.
Proof.
  intros HM Hi Hu. apply upd_Ok in Hu as (x & Hx & ->). eapply same_in_place; try done. exists (readyList q). by destruct q.
Qed.

Lemma mq_delay_inv n t i d h q H h' q' : MInv n h q H → i ∈ allocatedList q → mq_delay t i d h q = Ok (h', q') → t + d < MaxTick →
  MInv n h' q' H ∧ evolve n h H [] n h' H ∧ keeps_service h h' ∧ pk_le h h' ∧ cpu_stays h h' q ∧
  allocatedList q' = allocatedList q ∧ allocated q' = allocated q.
Proof.
  intros HM Hi Hd Ht. unfold mq_delay in Hd. apply bind_Ok in Hd as (x & Hx & Hd). apply bind_Ok in Hd as (x' & Hx' & Hd). heap_inv.
  apply bind_Ok in Hd as (s & _ & Hd). apply bind_Ok in Hd as (it & _ & Hd). apply bind_Ok in Hd as (l & Hl & Hd). injection Hd as <- <-.
  apply delay_Ok in Hx' as ->. apply splice_perm in Hl.
  destruct (same_in_place n h q (set_readyList l q) H i x (set_times (t + d) (order x) x) HM Hi Hx) as (H1 & H2 & H3 & H4 & H5); try done.
  by exists l.
Qed.

(** ** Responses *)

(** The block stays locked when the last request that was answered is still there. *)
Definition held_after (H : gset nat) (m : nat) (os fr : list Z) : gset nat :=
  if decide (os ≠ [] ∧ last os = head fr) then {[m]} ∪ H else H ∖ {[m]}.

Lemma held_after_self H m os fr : is_held (held_after H m os fr) m = bool_decide (os ≠ [] ∧ last os = head fr).
Proof.
  unfold is_held, held_after. destruct (decide _) as [Hd|Hd]; [rewrite (bool_decide_true (_ ∧ _)) by done|rewrite (bool_decide_false (_ ∧ _)) by done];
    [apply bool_decide_true|apply bool_decide_false]; set_solver.
Qed.
Lemma held_after_other H m os fr j : j ≠ m → is_held (held_after H m os fr) j = is_held H j.
Proof.
  intros Hj. unfold is_held, held_after. apply bool_decide_ext. destruct (decide _); set_solver.
Qed.

(** The part of a response up to the service of the targets. *)
Definition respond (m : nat) (k : Packet) (readable writable : bool) (h : Heap) : result (TargetList * Heap) :=
  x ← get_mshr h m;
  locked ← hasLockedRMWReadTarget x h;
  h ← (if locked : bool then Ok h
       else
         h ← (if readable then promoteReadable m h else Ok h);
         if writable && negb (isCacheInvalidate (req k)) then promoteWritable m h else Ok h);
  serviceMSHRTargets m k true h.

#[local] Instance locked_front_dec h l : Decision (locked_front h l).
Proof.
  destruct (l_views l) as [|v vs] eqn:Hl.
  { right. intros (v & vs & k & Hl' & _). congruence. }
  destruct (packets h !! v_pkt v) as [k|] eqn:Hk.
  - destruct (decide (cmd k = LockedRMWReadReq)) as [Hc|Hc]; [left; by exists v, vs, k|right].
    intros (v' & vs' & k' & Hl' & Hk' & Hc'). rewrite Hl in Hl'. injection Hl' as <- _. congruence.
  - right. intros (v' & vs' & k' & Hl' & Hk' & Hc'). rewrite Hl in Hl'. injection Hl' as <- _. congruence.
Defined.

(** What was answered does not wait any more. *)
Lemma no_repeat n h K b os K' : Waits n h K b → waiting K b = os ++ orders (all_views K') →
  os ≠ [] → last os = head (orders (l_views (k_targets K'))) → False.
Proof.
  intros HW Hw Hne Hl. assert (StronglySorted Z.lt (waiting K b)) as Hs.
  { unfold waiting. pose proof (w_sorted _ _ _ _ HW) as Hs. destruct b; [|done]. simpl. destruct (orders (all_views K)); [done|].
    by apply StronglySorted_inv in Hs as [Hs _]. }
  rewrite Hw in Hs. destruct (last os) as [o|] eqn:Ho; [|by apply last_None in Ho].
  eapply (sorted_disjoint _ _ o Hs); [by apply last_elem|]. unfold all_views. rewrite orders_app. apply elem_of_app. left.
  by apply head_elem.
Qed.

Section Response.
Context (n : Z) (h : Heap) (q : Queue) (H : gset nat) (m : nat) (k : Packet).
Context (HM : MInv n h q H) (Hm : m ∈ allocatedList q).
Context (Hserv : svc h m = Some true) (Hlock : m ∈ H ↔ cmd k = LockedRMWWriteResp).

Lemma respond_answers readable writable l h2 : respond m k readable writable h = Ok (l, h2) →
  frame m h h2 ∧ ∃ K K2, cores h !! m = Some K ∧ cores h2 !! m = Some K2 ∧ Waits n h K (is_held H m) ∧
    let os := orders (views (list_of l)) in
    (∀ b2, (b2 = true ↔ locked_front h2 (k_targets K2) ∧ last os = head (orders (l_views (k_targets K2))) ∧ os ≠ []) →
       answers h h2 K (is_held H m) (views (list_of l)) K2 b2) ∧
    (last os = head (orders (l_views (k_targets K2))) → os ≠ [] → locked_front h2 (k_targets K2)).
Proof.
  destruct (MInv_waits _ _ _ _ _ HM Hm) as [Ho (K & HK & HW)]. unfold respond. intros Hr.
  apply bind_Ok in Hr as (x & Hx & Hr). apply bind_Ok in Hr as (lk & _ & Hr). apply bind_Ok in Hr as (h1 & Hp & Hr).
  eapply promote_for_response in Hp as (Hf1 & K1 & HK1 & Hpr); [|done].
  assert (k_inService K = true) as Hi by (unfold svc in Hserv; rewrite HK in Hserv; by injection Hserv).
  assert (is_held H m = true ↔ cmd k = LockedRMWWriteResp) as Hb by (unfold is_held; by rewrite bool_decide_eq_true).
  destruct (serviceMSHRTargets_answers n _ _ _ _ _ _ _ _ _ HW HK Hi Hf1 Hpr HK1 Hr Hb) as (Hf2 & K2 & HK2 & Ha).
  split; [done|]. exists K, K2. split; [done|]. split; [done|]. split; [done|]. simpl. split; [done|].
  intros Hl Hne. destruct (decide (locked_front h2 (k_targets K2))) as [Hlf|Hlf]; [done|]. exfalso.
  destruct (answers_spec _ _ _ _ _ _ _ _ HW (Ha false ltac:(naive_solver))) as [Hw _]. by eapply no_repeat.
Qed.

(** The MSHR that goes on waiting, for the write that ends a locked sequence. *)
Lemma respond_stays readable writable l h2 x2 : respond m k readable writable h = Ok (l, h2) →
  mshrs h2 !! m = Some x2 → hasLockedRMWReadTarget x2 h2 = Ok true →
  let os := orders (views (list_of l)) in let H' := held_after H m os (orders (views (list_of (targets x2)))) in
  MInv n h2 q H' ∧ evolve n h H [(m, Answered os)] n h2 H' ∧ frame m h h2.
Proof.
  intros Hr Hx Hlk os H'. destruct (respond_answers _ _ _ _ Hr) as (Hf & K & K2 & HK & HK2 & HW & Ha & Himp).
  destruct (MInv_waits _ _ _ _ _ HM Hm) as [Ho _].
  pose proof (cores_lookup _ _ _ Hx) as HKx. assert (core x2 = K2) as HxK by congruence.
  apply hasLocked_spec in Hlk. rewrite HxK in Hlk. assert (locked_front h2 (k_targets K2)) as Hlf by (by apply Hlk).
  assert (orders (views (list_of (targets x2))) = orders (l_views (k_targets K2))) as Hfr by (by rewrite <-HxK).
  unfold H'. rewrite Hfr. set (b2 := bool_decide (os ≠ [] ∧ last os = head (orders (l_views (k_targets K2))))).
  assert (answers h h2 K (is_held H m) (views (list_of l)) K2 b2) as Hans.
  { apply Ha. unfold b2. rewrite bool_decide_eq_true. naive_solver. }
  assert (move n h K (is_held H m) [Answered os] n h2 K2 b2) as Hmv by (by eapply m_answer).
  destruct (answers_spec _ _ _ _ _ _ _ _ HW Hans) as [_ Hat].
  assert (k_inService K = true) as Hi by (unfold svc in Hserv; rewrite HK in Hserv; by injection Hserv).
  destruct (one_entry n n h h2 q q H (held_after H m os (orders (l_views (k_targets K2)))) m K K2 [Answered os] HM Hf Ho) as [HM' He]; try done.
  - rewrite held_after_self. fold b2. apply chain_one. by apply e_move.
  - intros j Hj. by apply held_after_other.
  - eapply lists_ext; [apply HM|]. intros j. destruct (decide (j = m)) as [->|Hd]; [|by eapply svc_other].
    rewrite Hserv. unfold svc. rewrite HK2. simpl. by rewrite (a_service _ _ _ _ _ _ Hat).
  - intros _. rewrite held_after_self. fold b2. by eapply move_waits.
  - intros Hfree. exfalso. by eapply MInv_disjoint.
Qed.

(** The MSHR that has more to ask. *)
Lemma respond_again readable writable l h2 x2 t h3 h' q' : respond m k readable writable h = Ok (l, h2) →
  mshrs h2 !! m = Some x2 → hasLockedRMWReadTarget x2 h2 = Ok false → promoteDeferredTargets t m h2 = Ok (true, h3) →
  markPending m h3 q = Ok (h', q') → t < MaxTick →
  let os := orders (views (list_of l)) in
  ∃ fr, (∃ x', mshrs h' !! m = Some x' ∧ fr = orders (views (list_of (targets x')))) ∧ let H' := held_after H m os fr in
  MInv n h' q' H' ∧ evolve n h H [(m, Answered os)] n h' H' ∧ frame m h h' ∧
  allocatedList q' = allocatedList q ∧ allocated q' = allocated q ∧ readyList q' ≠ [].
Proof.
  intros Hr Hx Hlk Hp Hmp Ht os. destruct (respond_answers _ _ _ _ Hr) as (Hf & K & K2 & HK & HK2 & HW & Ha & Himp).
  destruct (MInv_waits _ _ _ _ _ HM Hm) as [Ho _].
  pose proof (cores_lookup _ _ _ Hx) as HKx. assert (core x2 = K2) as HxK by congruence.
  apply hasLocked_spec in Hlk. rewrite HxK in Hlk. assert (¬ locked_front h2 (k_targets K2)) as Hlf by (intros Hb; by apply Hlk in Hb).
  destruct (again_move n t m h h2 h3 K K2 (is_held H m) (views (list_of l))) as (x3 & Hx3 & Hi3 & Hf' & K' & HK' & Hmv & Hi'); try done.
  { apply Ha. naive_solver. }
  unfold markPending in Hmp. apply bind_Ok in Hmp as (y & Hy & Hmp). apply bind_Ok in Hmp as (u & _ & Hmp).
  apply bind_Ok in Hmp as (q1 & Hq1 & Hmp). injection Hmp as <- <-. heap_inv. assert (y = x3) as -> by congruence.
  set (h' := set_mshr m (set_inService false x3) h3) in *. apply addToReadyList_Ok in Hq1 as (rl & -> & Hrl). simpl in Hrl.
  apply cores_lookup_inv in HK' as (x' & Hx' & HxK'). exists (orders (views (list_of (targets x')))). split; [by exists x'|].
  pose proof (cores_lookup _ _ _ Hx') as HK'. rewrite HxK' in HK'.
  assert (orders (views (list_of (targets x'))) = orders (l_views (k_targets K'))) as -> by (by rewrite <-HxK').
  set (fr := orders (l_views (k_targets K'))).
  pose proof (move_log _ _ _ _ _ _ _ _ _ HW Hmv) as Hlog. simpl in Hlog. rewrite !app_nil_r in Hlog.
  assert (is_held (held_after H m os fr) m = false) as Hh.
  { rewrite held_after_self. apply bool_decide_false. intros [Hne Hl]. by eapply (no_repeat _ _ _ _ os K'). }
  destruct (one_entry n n h h' q (set_readyList rl (set_numInService (numInService q - 1) q)) H (held_after H m os fr) m K K' [Answered os] HM Hf' Ho)
    as [HM' He]; try done.
  - rewrite Hh. apply chain_one. by apply e_move.
  - intros j Hj. by apply held_after_other.
  - eapply lists_pending; [apply HM|done|done|done| |by apply svc_other]. unfold svc. rewrite HK'. simpl. by rewrite Hi'.
  - intros _. rewrite Hh. by eapply move_waits.
  - intros Hfree. exfalso. by eapply MInv_disjoint.
  - split; [done|]. split; [done|]. split; [done|]. split; [done|]. split; [done|]. simpl. intros ->. by apply Permutation_nil_cons in Hrl.
Qed.

(** The MSHR that has no more. *)
Lemma respond_done readable writable l h2 x2 t h3 h' q' : respond m k readable writable h = Ok (l, h2) →
  mshrs h2 !! m = Some x2 → hasLockedRMWReadTarget x2 h2 = Ok false → promoteDeferredTargets t m h2 = Ok (false, h3) →
  mq_deallocate m h3 q = Ok (h', q') →
  let os := orders (views (list_of l)) in
  ∃ fr, (∃ x', mshrs h' !! m = Some x' ∧ fr = orders (views (list_of (targets x')))) ∧ let H' := held_after H m os fr in
  MInv n h' q' H' ∧ evolve n h H [(m, Answered os)] n h' H' ∧ frame m h h' ∧
  (∀ j, j ∈ allocatedList q' ↔ j ∈ allocatedList q ∧ j ≠ m) ∧ allocated q' = allocated q - 1.
Proof.
  intros Hr Hx Hlk Hp Hmp os. destruct (respond_answers _ _ _ _ Hr) as (Hf & K & K2 & HK & HK2 & HW & Ha & Himp).
  destruct (MInv_waits _ _ _ _ _ HM Hm) as [Ho _].
  pose proof (cores_lookup _ _ _ Hx) as HKx. assert (core x2 = K2) as HxK by congruence.
  apply hasLocked_spec in Hlk. rewrite HxK in Hlk. assert (¬ locked_front h2 (k_targets K2)) as Hlf by (intros Hb; by apply Hlk in Hb).
  unfold mq_deallocate in Hmp. apply bind_Ok in Hmp as (q1 & Hq1 & Hmp). apply bind_Ok in Hmp as (h4 & Hd & Hmp). injection Hmp as <- <-.
  destruct (done_death t m h h2 h3 h4 K K2 (is_held H m) (views (list_of l))) as (Hf' & -> & K' & HK' & Hdth); try done.
  { apply Ha. naive_solver. }
  destruct (death_free _ _ _ _ _ _ _ HW Hdth) as (HF & Hw & _).
  apply cores_lookup_inv in HK' as (x' & Hx' & HxK'). exists (orders (views (list_of (targets x')))). split; [by exists x'|].
  pose proof (cores_lookup _ _ _ Hx') as HK'. rewrite HxK' in HK'.
  assert (orders (views (list_of (targets x'))) = []) as ->.
  { change (views (list_of (targets x'))) with (l_views (k_targets (core x'))). rewrite HxK'. destruct HF as [Hv _ _].
    by apply app_eq_nil in Hv as [-> _]. }
  assert (is_held (held_after H m os []) m = false) as Hh.
  { rewrite held_after_self. apply bool_decide_false. intros [Hne Hl]. simpl in Hl. by apply last_None in Hl. }
  assert (Lists (svc h2) q own) as HL2.
  { eapply lists_ext; [apply HM|]. intros j. destruct (decide (j = m)) as [->|Hdj]; [|by eapply svc_other].
    rewrite Hserv. unfold svc. rewrite HK2. simpl. destruct (Ha false ltac:(naive_solver)) as [h5 k1 vs l' (_ & _ & His & _) _ _ Hsv _ _ _ _ _ -> _].
    simpl. by rewrite His, Hsv. }
  assert (∀ j, j ≠ m → svc h4 j = svc h2 j) as Hsv.
  { intros j Hj. rewrite (svc_other _ _ _ Hf' j Hj). symmetry. by eapply svc_other. }
  destruct (lists_release (mshrs h2) (svc h2) (svc h4) q q1 m own HL2 Hq1) as (HL & _ & Hal & Hfl & Hne & Hnr & Hc); [|done|].
  { intros e He. by eapply svc_lookup. }
  destruct (one_entry n n h h4 q q1 H (held_after H m os []) m K K' [Answered os] HM Hf' Ho) as [HM' He]; try done.
  - rewrite Hh. apply chain_one. by apply e_death.
  - intros j Hj. by apply held_after_other.
  - intros j Hj Hin. by apply Hal in Hin as [? _].
  - intros j Hj Hin. by apply Hfl in Hin as [?|?].
  - intros Hin. by apply Hal in Hin as [_ ?].
  - intros _. by rewrite Hh.
Qed.

End Response.
(** ** Squashed prefetches *)

(** The processor's requests stay with their MSHRs. *)
Definition cpu_kept (h h' : Heap) (q q' : Queue) : Prop :=
  ∀ j K, j ∈ allocatedList q → cores h !! j = Some K → has_cpu K →
    j ∈ allocatedList q' ∧ ∃ K', cores h' !! j = Some K' ∧ has_cpu K'.

Lemma cpu_stays_kept h h' q q' : cpu_stays h h' q → (∀ j, j ∈ allocatedList q → j ∈ allocatedList q') → cpu_kept h h' q q'.
Proof. intros Hs Hq j K Hj HK Hc. split; [by apply Hq|]. by eapply Hs. Qed.

Lemma has_cpu_pop k v vs : l_views (k_targets k) = v :: vs → v_source v ≠ FromCPU → has_cpu k →
  ∃ u, u ∈ vs ++ l_views (k_deferred k) ∧ v_source u = FromCPU.
Proof.
  intros Hv Hs (u & Hu & Hc). exists u. split; [|done]. unfold all_views in Hu. rewrite Hv in Hu.
  apply elem_of_cons in Hu as [->|Hu]; [done|done].
Qed.

Lemma squashed_inv n t i h q H ub h' q' x t0 k : MInv n h q H → i ∈ allocatedList q → svc h i = Some false →
  mshrs h !! i = Some x → front (targets x) = Ok t0 → packets h !! pkt t0 = Some k → cmd k = HardPFReq →
  forceDeallocateTarget t i h q = Ok (ub, h', q') → t < MaxTick →
  MInv n h' q' H ∧ (∃ os, evolve n h H [(i, Answered os)] n h' H ∧ os = [t_order t0]) ∧ pk_le h h' ∧ cpu_kept h h' q q' ∧
  ub = isFull q && negb (isFull q') ∧ (∀ j, j ∈ allocatedList q' → j ∈ allocatedList q).
Proof.
  intros HM Hi Hs Hx Ht0 Hk Hc Hfd Ht. destruct (MInv_waits _ _ _ _ _ HM Hi) as [Ho (K & HK & HW)].
  assert (k_inService K = false) as HiK by (unfold svc in Hs; rewrite HK in Hs; by injection Hs).
  unfold forceDeallocateTarget in Hfd. apply bind_Ok in Hfd as (y & _ & Hfd). apply bind_Ok in Hfd as (u & _ & Hfd).
  apply bind_Ok in Hfd as (h1 & Hpop & Hfd). apply bind_Ok in Hfd as (x1 & Hx1 & Hfd). apply bind_Ok in Hfd as ([h2 q2] & Hcase & Hfd).
  injection Hfd as <- <- <-. heap_inv.
  destruct (squash_pop n i h h1 K (is_held H i) t0 x k HW HK HiK Hx Ht0 Hk Hc Hpop) as (Hf1 & Hle1 & v & vs & Hv & Hvs & HK1).
  assert (v_order v = t_order t0) as Hvo.
  { pose proof (cores_lookup _ _ _ Hx) as HKx. assert (core x = K) as HxK by congruence. rewrite <-HxK in Hv. simpl in Hv.
    unfold front in Ht0. destruct (list_of (targets x)) as [|t1 l1]; [done|]. injection Ht0 as ->. by injection Hv as <- _. }
  set (K1 := kset_targets _ K) in *.
  assert (core x1 = K1) as HxK1. { pose proof (cores_lookup _ _ _ Hx1). congruence. }
  assert (is_held H i = false) as Hh by (by eapply not_in_service_held).
  assert (has_cpu K → has_cpu K1) as Hcpu1. { intros Hcpu. by eapply (has_cpu_pop K v vs). }
  destruct (hasTargets x1) eqn:Hht.
  - injection Hcase as <- <-. unfold hasTargets in Hht. apply negb_true_iff, bool_decide_eq_false in Hht.
    assert (move n h K false [Answered [v_order v]] n h1 K1 false) as Hmv.
    { eapply m_squash; try done. left. split; [done|]. intros ->. apply Hht.
      assert (views (list_of (targets x1)) = []) as Hnil by (change (l_views (k_targets (core x1)) = []); by rewrite HxK1).
      by destruct (list_of (targets x1)). }
    destruct (in_place_same n n h h1 q H i K K1 [Answered [v_order v]] HM Hf1 Hi) as (HM1 & He1 & _); try done.
    { by rewrite Hh. }
    split; [done|]. split; [exists [v_order v]; split; [done|by rewrite Hvo]|]. split; [done|]. split.
    + apply cpu_stays_kept; [|done]. eapply frame_cpu_stays; [done|done|]. intros K0 HK0 Hcp. apply Hcpu1. congruence.
    + done.
  - unfold hasTargets in Hht. apply negb_false_iff, bool_decide_eq_true in Hht.
    assert (vs = []) as ->.
    { assert (l_views (k_targets K1) = []) as Hnil; [|done]. rewrite <-HxK1. simpl. by rewrite Hht. }
    apply bind_Ok in Hcase as ([more h3] & Hp & Hcase). apply promoteDeferred_spec in Hp as (Hpk3 & Hf3 & Ka & K3 & HKa & HK3 & Hp).
    assert (Ka = K1) as -> by congruence. destruct more.
    + injection Hcase as <- <-. destruct Hp as (Hpr & Hi3 & Hc1 & Hc2 & _ & v3 & vs3 & Hv3 & _ & Hrd).
      assert (frame i h h3) as Hf by (by transitivity h1).
      assert (move n h K false [Answered [v_order v]] n h3 K3 false) as Hmv.
      { eapply m_squash; try done; [apply Hf|]. right. split; [done|]. split; [done|]. split; [done|]. split; [done|].
        split; [by rewrite Hv3|]. split; [by rewrite Hi3|]. exists t, v3. split; [done|]. split; [rewrite Hv3; by left|done]. }
      destruct (in_place_same n n h h3 q H i K K3 [Answered [v_order v]] HM Hf Hi) as (HM1 & He1 & _); try done.
      { by rewrite Hh. }
      split; [done|]. split; [exists [v_order v]; split; [done|by rewrite Hvo]|]. split; [apply Hf|]. split; [|done].
      apply cpu_stays_kept; [|done]. eapply frame_cpu_stays; [done|done|]. intros K0 HK0 Hcp. assert (K0 = K) as -> by congruence.
      destruct (Hcpu1 Hcp) as (w & Hw & Hws). exists w. split; [|done]. by rewrite (promoted_all _ _ Hpr).
    + destruct Hp as (-> & _ & Hnd). unfold mq_deallocate in Hcase. apply bind_Ok in Hcase as (q1 & Hq1 & Hcase).
      apply bind_Ok in Hcase as (h4 & Hd & Hcase). injection Hcase as <- <-.
      apply deallocate_spec in Hd as (Hf4 & K4 & K' & HK4 & _ & HK' & Hv3 & Hv4 & Hi').
      assert (K4 = K1) as -> by congruence. assert (frame i h h4) as Hf by (by transitivity h1).
      assert (death h K false [Answered [v_order v]] h4 K') as Hdth.
      { eapply d_squash; try done. unfold all_views. by rewrite Hv3, Hv4, Hnd. }
      rewrite Hh in HW. destruct (death_free _ _ _ _ _ _ _ HW Hdth) as (HF & _ & _).
      assert (Lists (svc h1) q own) as HL1.
      { eapply lists_ext; [apply HM|]. intros j. destruct (decide (j = i)) as [->|Hdj]; [|by eapply svc_other].
        unfold svc. by rewrite HK, HK1. }
      assert (∀ j, j ≠ i → svc h4 j = svc h1 j) as Hsv.
      { intros j Hj. rewrite (svc_other _ _ _ Hf j Hj). symmetry. by eapply svc_other. }
      destruct (lists_release (mshrs h1) (svc h1) (svc h4) q q1 i own HL1 Hq1) as (HL & _ & Hal & Hfl & Hne & Hnr & Hcnt); [|done|].
      { intros e He. by eapply svc_lookup. }
      destruct (one_entry n n h h4 q q1 H H i K K' [Answered [v_order v]] HM Hf Ho) as [HM' He]; try done.
      * rewrite Hh. apply chain_one. by apply e_death.
      * intros j Hj Hin. by apply Hal in Hin as [? _].
      * intros j Hj Hin. by apply Hfl in Hin as [?|?].
      * intros Hin. by apply Hal in Hin as [_ ?].
      * intros _. by rewrite Hh.
      * split; [done|]. split; [exists [v_order v]; split; [done|by rewrite Hvo]|]. split; [apply Hf|]. split; [|split; [done|]].
        -- intros j Kj Hj HKj Hcp. destruct (decide (j = i)) as [->|Hd].
           { assert (Kj = K) as -> by congruence. destruct (Hcpu1 Hcp) as (w & Hw & _). unfold all_views, K1 in Hw. simpl in Hw, Hnd.
             rewrite Hnd in Hw. by apply not_elem_of_nil in Hw. }
           split; [by apply Hal|]. exists Kj. destruct Hf as (_ & _ & Hf). by rewrite Hf.
        -- intros j Hj. by apply Hal in Hj as [? _].
Qed.

(** A locked read that hits is answered at once, and holds its MSHR. *)
Lemma hold_inv n h q H i K v : MInv n h q H → i ∈ allocatedList q → cores h !! i = Some K → k_inService K = true →
  l_views (k_targets K) = [v] → is_req v → i ∉ H →
  MInv n h q ({[i]} ∪ H) ∧ evolve n h H [(i, Answered [v_order v])] n h ({[i]} ∪ H).
Proof.
  intros HM Hi HK Hs Hv Hq Hn. destruct (MInv_waits _ _ _ _ _ HM Hi) as [Ho (K0 & HK0 & HW)]. assert (K0 = K) as -> by congruence.
  assert (is_held H i = false) as Hh by (by apply bool_decide_false).
  assert (is_held ({[i]} ∪ H) i = true) as Hh' by (apply bool_decide_true; set_solver).
  assert (move n h K false [Answered [v_order v]] n h K true) as Hmv by (by eapply m_hold).
  rewrite Hh in HW. apply (one_entry n n h h q q H ({[i]} ∪ H) i K K [Answered [v_order v]] HM); try done.
  - rewrite Hh, Hh'. apply chain_one. by apply e_move.
  - intros j Hj. unfold is_held. apply bool_decide_ext. set_solver.
  - apply HM.
  - intros _. rewrite Hh'. by eapply move_waits.
  - intros Hf. exfalso. by eapply MInv_disjoint.
Qed.

Lemma held_allocated n h q H m : MInv n h q H → (∀ m, m ∈ H → m ∈ own) → m ∈ H → m ∈ allocatedList q.
Proof.
  intros HM Ho Hm. destruct (MInv_entry _ _ _ _ m HM (Ho m Hm)) as [Ha|Hf]; [done|].
  destruct (i_free _ _ _ _ HM m Hf) as (K & _ & [_ _ Hh]). by apply bool_decide_eq_false in Hh.
Qed.

Lemma held_after_own H m os fr : (∀ m, m ∈ H → m ∈ own) → m ∈ own → ∀ j, j ∈ held_after H m os fr → j ∈ own.
Proof. intros Ho Hm j. unfold held_after. destruct (decide _); set_solver. Qed.

End File.

End MSHRFile.
