(* ===== verification/CacheSystem.v ===== *)
(** * mem/cache: a cache between its processor, the memory and the other caches

    [step] is what can happen to the queues of a cache: a request that misses, a locked
    sequence, a write back, the send event, a retry, a response, a snoop, and changes that
    come from outside.  The environment is as gem5's: the processor ends only the locked
    sequences that it began, a response answers an MSHR that is in service, and what others
    do to the packets of the targets is at most to replace upgrades.  A step tells which
    requests its MSHRs accept and which they answer. *)

From Stdlib Require Import ZArith Lia.
From stdpp Require Import base numbers option list gmap relations.
From S2P Require Import Prelude Packet PacketQueue MSHR MSHRQueue CacheQueues MSHRCore MSHROps MSHRMachine.
From S2P Require Import MSHRMoves MSHRFile.

Module CacheSystem.
Import Packet MSHR MSHRQueue CacheQueues MSHRLemmas MSHRCore MSHROps MSHRMachine MSHRMoves MSHRFile.

(** The MSHRs that the processor has locked through are [held]. *)
Record System := mkSystem { cache : Cache; held : gset nat }.

Section System_.
Context (pr : Params) (own : list nat).

(** The MSHR that takes a request, if one does: the one that its block waits in, or the first
    free one. *)
Definition destination (p : nat) (c : Cache) : option nat :=
  match packets (heap c) !! p with
  | None => None
  | Some k =>
      let new := head (freeList (mshrQueue c)) in
      if isUncacheable (req k) then (if isWrite (cmd k) then None else new)
      else
        match getBlockAddr k (p_blkSize pr), Packet.isSecure k with
        | Ok a, Ok sec =>
            match findMatch (mshrs (heap c)) a sec true (mshrQueue c) with
            | Ok (Some m) => if bool_decide (cmd k = CleanEvict) || bool_decide (cmd k = WriteClean) then None else Some m
            | Ok None => if isEviction (cmd k) || bool_decide (cmd k = WriteClean) then None else new
            | Err _ => None
            end
        | _, _ => None
        end
  end.

Definition accepts (p : nat) (c : Cache) : list (nat * event) :=
  match destination p c with Some m => [(m, Accepted (c_order c))] | None => [] end.

(** A prefetch enters when there is nothing else to send; it leaves when it is squashed. *)
Definition sends (t : Z) (env : Environment) (c : Cache) : list (nat * event) :=
  match getNextQueueEntry pr t (env_prefetch env) (env_inTags env) c with
  | Ok (Some (e_mshr i), c1) =>
      (if c_order c1 =? c_order c then [] else [(i, Accepted (c_order c))]) ++
      match env_snoop_conflict env, env_outcome env, mshrs (heap c1) !! i with
      | None, o_squashed, Some x => match list_of (targets x) with t :: _ => [(i, Answered [t_order t])] | [] => [] end
      | _, _, _ => []
      end
  | _ => []
  end.

(** The orders of the requests among a list of targets. *)
Definition served (l : list Target) : list Z := orders (views l).

(** Those in the targets of an MSHR. *)
Definition in_targets (m : nat) (c : Cache) : list Z :=
  match mshrs (heap c) !! m with Some x => served (list_of (targets x)) | None => [] end.

(** [t] is a time at which an event can still be scheduled. *)
Definition good_time (t : Z) : Prop := t < MaxTick.

Definition good_environment (t : Z) (env : Environment) : Prop :=
  match env_snoop_conflict env with Some w => good_time w | None => True end ∧
  match env_outcome env with o_delayed d => good_time (t + d) | _ => True end.

Inductive step : System → list (nat * event) → System → Prop :=
  | s_miss t p k ft c c1 c' H : packets (heap c) !! p = Some k → tryTiming k c = (true, c1) → isExpressSnoop k = false →
      good_time ft → cache_handleTimingReqMiss pr t p ft c1 = Ok c' →
      step (mkSystem c H) (accepts p c) (mkSystem c' H)
  | s_lockedRead t p k c c1 c' H i : packets (heap c) !! p = Some k → tryTiming k c = (true, c1) → isExpressSnoop k = false →
      cmd k = LockedRMWReadReq → good_time t → lockedReadHit pr t p c1 = Ok c' → head (freeList (mshrQueue c)) = Some i →
      step (mkSystem c H) [(i, Accepted (c_order c)); (i, Answered [c_order c])] (mkSystem c' ({[i]} ∪ H))
  | s_lockedWrite t p k ts next_pf c c1 c' H m a sec l : packets (heap c) !! p = Some k → tryTiming k c = (true, c1) →
      isExpressSnoop k = false → cmd k = LockedRMWWriteReq → good_time t → good_time ts →
      getBlockAddr k (p_blkSize pr) = Ok a → Packet.isSecure k = Ok sec →
      findMatch (mshrs (heap c)) a sec true (mshrQueue c) = Ok (Some m) → m ∈ H →
      lockedWriteHit pr t p true ts next_pf c1 = Ok (l, c') →
      step (mkSystem c H) [(m, Answered (served (list_of l)))]
        (mkSystem c' (held_after H m (served (list_of l)) (in_targets m c')))
  | s_writeback t p time c c' H : good_time time → allocateWriteBuffer pr t p time c = Ok c' →
      step (mkSystem c H) [] (mkSystem c' H)
  | s_send t env c c' H : good_time t → good_environment t env → PacketQueue.sendEvent (reqQueue c) = Some t →
      processSendEvent pr t env c = Ok c' →
      step (mkSystem c H) (sends t env (set_reqQueue (PacketQueue.set_event None (reqQueue c)) c)) (mkSystem c' H)
  | s_sendRetry t env c c' H : good_time t → good_environment t env → recvReqRetry pr t env c = Ok c' →
      step (mkSystem c H) (sends t env (set_reqQueue (PacketQueue.set_waiting false (reqQueue c)) c)) (mkSystem c' H)
  | s_response t m k readable writable ts next_pf c c' H l : good_time t → good_time ts →
      m ∈ allocatedList (mshrQueue c) → svc (heap c) m = Some true → m ∉ H → cmd k ≠ LockedRMWWriteResp →
      recvTimingResp pr t m k readable writable true ts next_pf c = Ok (l, c') →
      step (mkSystem c H) [(m, Answered (served (list_of l)))]
        (mkSystem c' (held_after H m (served (list_of l)) (in_targets m c')))
  | s_snoop t p k b c c' H : good_time t → packets (heap c) !! p = Some k → snoop_packet k →
      recvTimingSnoopReq pr t p c = Ok (b, c') → step (mkSystem c H) [] (mkSystem c' H)
  | s_outside h' c H : outside own (heap c) h' (mshrQueue c) → step (mkSystem c H) [] (mkSystem (set_heap h' c) H)
  | s_refuse k c c' H : tryTiming k c = (false, c') → step (mkSystem c H) [] (mkSystem c' H)
  | s_retry t c H : sendRetryEvent c = Some t → step (mkSystem c H) [] (mkSystem (processSendRetry c) H)
  | s_prefetch t when c c' H : schedMemSideSendEvent t when c = Ok c' → step (mkSystem c H) [] (mkSystem c' H).

(** Runs, with what happened. *)
Inductive run : System → list (nat * event) → System → Prop :=
  | run_nil s : run s [] s
  | run_step s es s1 es1 s' : run s es s1 → step s1 es1 s' → run s (es ++ es1) s'.

End System_.

End CacheSystem.
