(* ===== verification/CacheInv.v ===== *)
(** * mem/cache/base: the invariant of a cache's queues

    [Good] is what holds of a cache between two events: its MSHRs and its write buffer are
    consistent, the blocked bits say which of the queues is full, the processor's port is
    blocked when a bit is set, and a port that refused a request has a retry to send.
    [awake]: something will make the memory side send. *)

From Stdlib Require Import ZArith Lia.
From stdpp Require Import base numbers option list gmap.
From S2P Require Import Prelude Packet PacketQueue MSHR MSHRQueue CacheQueues MSHRCore MSHROps.
From S2P Require Import MSHRMoves MSHRMachine MSHRFile CacheSystem.

Module CacheInv.
Import Packet MSHR MSHRQueue CacheQueues MSHRLemmas MSHRCore MSHROps MSHRQueueLemmas MSHRMachine MSHRMoves MSHRFile CacheSystem.

(** ** The processor's port *)

Definition code (b1 b2 b3 : bool) : Z := (if b1 then 1 else 0) + (if b2 then 2 else 0) + (if b3 then 4 else 0).

Record Bits (b1 b2 b3 : bool) (c : Cache) : Prop := {
  b_blocked : blocked c = code b1 b2 b3;
  b_port : port_blocked c = b1 || b2 || b3;
  b_event : sendRetryEvent c ≠ None → mustSendRetry c = true ∧ port_blocked c = false;
  b_retry : mustSendRetry c = true → port_blocked c = true ∨ sendRetryEvent c ≠ None
}.

(** What an operation on the port leaves alone. *)
Definition same_body (c c' : Cache) : Prop :=
  heap c' = heap c ∧ mshrQueue c' = mshrQueue c ∧ wentries c' = wentries c ∧ writeBuffer c' = writeBuffer c ∧
  c_order c' = c_order c ∧ noTargetMSHR c' = noTargetMSHR c.

#[global] Instance same_body_refl : Reflexive same_body.
Proof. by intros c. Qed.
#[global] Instance same_body_trans : Transitive same_body.
Proof. intros a b c (?&?&?&?&?&?) (?&?&?&?&?&?). unfold same_body. split_and!; congruence. Qed.

Lemma port_setBlocked_spec c c' : port_setBlocked c = Ok c' → port_blocked c = false →
  same_body c c' ∧ reqQueue c' = reqQueue c ∧ blocked c' = blocked c ∧ port_blocked c' = true ∧ sendRetryEvent c' = None.
Proof.
  unfold port_setBlocked. intros H Hp. apply bind_Ok in H as (u & _ & H). destruct (sendRetryEvent c); injection H as <-; done.
Qed.

Lemma setBlocked_bits cause b1 b2 b3 b1' b2' b3' c c' : Bits b1 b2 b3 c → setBlocked cause c = Ok c' →
  code b1 b2 b3 .| (1 .<< cause) = code b1' b2' b3' → b1' || b2' || b3' = true →
  same_body c c' ∧ reqQueue c' = reqQueue c ∧ Bits b1' b2' b3' c'.
Proof.
  intros [Hb Hp He Hr] H Hc Ht. unfold setBlocked in H. apply bind_Ok in H as (c1 & H1 & H). injection H as <-.
  assert (same_body c c1 ∧ reqQueue c1 = reqQueue c ∧ blocked c1 = blocked c ∧ port_blocked c1 = true ∧
    (sendRetryEvent c1 ≠ None → False)) as (S1 & S2 & S3 & S4 & S5).
  { destruct (blocked c =? 0) eqn:Hz.
    - apply Z.eqb_eq in Hz. apply port_setBlocked_spec in H1 as (S1 & S2 & S3 & S4 & S5).
      + split; [done|]. split; [done|]. split; [done|]. split; [done|]. by rewrite S5.
      + rewrite Hp. rewrite Hb in Hz. by destruct b1, b2, b3.
    - injection H1 as <-. split; [done|]. split; [done|]. split; [done|]. assert (port_blocked c = true) as Hpt.
      { rewrite Hp. rewrite Hb in Hz. by destruct b1, b2, b3. }
      split; [done|]. intros Hev. apply He in Hev as [_ Hev]. congruence. }
  split; [done|]. split; [done|]. constructor; simpl.
  - by rewrite S3, Hb.
  - by rewrite S4.
  - intros Hev. by destruct S5.
  - intros _. by left.
Qed.

Lemma clearBlocked_bits t cause b1 b2 b3 b1' b2' b3' c c' : Bits b1 b2 b3 c → clearBlocked t cause c = Ok c' →
  code b1 b2 b3 .& unot 8 (1 .<< cause) = code b1' b2' b3' → b1 || b2 || b3 = true →
  same_body c c' ∧ reqQueue c' = reqQueue c ∧ Bits b1' b2' b3' c'.
Proof.
  intros [Hb Hp He Hr] H Hc Htrue. unfold clearBlocked in H. simpl in H. rewrite Hb, Hc in H. destruct (_ =? 0) eqn:Hz.
  - unfold port_clearBlocked in H. simpl in H. apply bind_Ok in H as (u & _ & H). apply Z.eqb_eq in Hz.
    assert (b1' || b2' || b3' = false) as Hf by (by destruct b1', b2', b3').
    destruct (mustSendRetry c) eqn:Hm.
    + apply bind_Ok in H as (u' & _ & H). injection H as <-. split; [done|]. split; [done|]. constructor; simpl; try done; by right.
    + injection H as <-. split; [done|]. split; [done|]. constructor; simpl; try done.
      intros Hev. apply He in Hev as [Hev _]. congruence.
  - injection H as <-. split; [done|]. split; [done|]. apply Z.eqb_neq in Hz.
    assert (b1' || b2' || b3' = true) as Hf by (by destruct b1', b2', b3').
    constructor; simpl; try done. by rewrite Hp, Htrue, Hf.
Qed.

Lemma Bits_ext b1 b2 b3 c c' : Bits b1 b2 b3 c → blocked c' = blocked c → port_blocked c' = port_blocked c →
  sendRetryEvent c' = sendRetryEvent c → mustSendRetry c' = mustSendRetry c → Bits b1 b2 b3 c'.
Proof. intros [] H1 H2 H3 H4. constructor; rewrite ?H1, ?H2, ?H3, ?H4; done. Qed.

(** ** The memory side *)

Definition awake (c : Cache) : Prop := PacketQueue.scheduled (reqQueue c) = true ∨ PacketQueue.waitingOnRetry (reqQueue c) = true.
Definition pending (c : Cache) : Prop := readyList (mshrQueue c) ≠ [] ∨ readyList (writeBuffer c) ≠ [].

Lemma schedSendEvent_spec t w q q' : PacketQueue.schedSendEvent t w q = Ok q' →
  PacketQueue.transmitList q' = PacketQueue.transmitList q ∧ PacketQueue.waitingOnRetry q' = PacketQueue.waitingOnRetry q ∧
  (PacketQueue.scheduled q = true → PacketQueue.scheduled q' = true) ∧
  (good_time w → PacketQueue.waitingOnRetry q = false → PacketQueue.scheduled q' = true).
Proof.
  unfold PacketQueue.schedSendEvent. intros H. destruct (PacketQueue.waitingOnRetry q) eqn:Hw.
  - apply bind_Ok in H as (u & _ & H). injection H as <-. by rewrite Hw.
  - destruct (negb (w =? PacketQueue.MaxTick)) eqn:Hm.
    + destruct (PacketQueue.sendEvent q) as [e|] eqn:He.
      * destruct (_ <? e).
        -- unfold PacketQueue.reschedule_send in H. apply bind_Ok in H as (u & _ & H). by injection H as <-.
        -- injection H as <-. unfold PacketQueue.scheduled. by rewrite He, Hw.
      * unfold PacketQueue.schedule_send in H. apply bind_Ok in H as (u & _ & H). apply bind_Ok in H as (u' & _ & H). by injection H as <-.
    + apply negb_false_iff, Z.eqb_eq in Hm. assert (good_time w → False) as Hng.
      { unfold good_time. change MaxTick with PacketQueue.MaxTick. lia. }
      destruct (_ && _); injection H as <-; split_and!; try done; intros Hg; by destruct Hng.
Qed.

Lemma sched_spec t w c c' : schedMemSideSendEvent t w c = Ok c' →
  same_body c c' ∧ blocked c' = blocked c ∧ port_blocked c' = port_blocked c ∧ sendRetryEvent c' = sendRetryEvent c ∧
  mustSendRetry c' = mustSendRetry c ∧ (awake c → awake c') ∧ (good_time w → awake c') ∧
  PacketQueue.transmitList (reqQueue c') = PacketQueue.transmitList (reqQueue c).
Proof.
  intros H. unfold schedMemSideSendEvent in H. apply bind_Ok in H as (q & Hq & H). injection H as <-.
  apply schedSendEvent_spec in Hq as (H1 & H2 & H3 & H4). split_and!; try done; unfold awake; simpl; rewrite H2.
  - intros [Ha|Ha]; [left; auto|by right].
  - intros Hg. destruct (PacketQueue.waitingOnRetry (reqQueue c)); [by right|left; auto].
Qed.

Lemma sched_bits b1 b2 b3 t w c c' : schedMemSideSendEvent t w c = Ok c' → Bits b1 b2 b3 c → Bits b1 b2 b3 c'.
Proof. intros H Hb. apply sched_spec in H as (_ & H1 & H2 & H3 & H4 & _). by eapply Bits_ext. Qed.

(** ** The write buffer *)

Definition wsvc (es : list WriteQueueEntry) (i : nat) : option bool := we_inService <$> es !! i.

Record WInv (es : list WriteQueueEntry) (q : Queue) (univ : list nat) (reserve : Z) : Prop := {
  wi_lists : Lists (wsvc es) q univ;
  wi_numEntries : numEntries q = Z.of_nat (length univ);
  wi_numReserve : numReserve q = reserve;
  wi_ready : ∀ i e, es !! i = Some e → i ∈ readyList q → we_readyTime e < MaxTick
}.

Lemma wq_allocate_inv univ reserve t ba bs p ready ord h es q i es' q' : WInv es q univ reserve →
  wq_allocate t ba bs p ready ord h es q = Ok (i, es', q') → ready < MaxTick →
  WInv es' q' univ reserve ∧ allocated q' = allocated q + 1 ∧ readyList q' ≠ [].
Proof.
  intros [Hl Hn Hr Hrd] H Ht. unfold wq_allocate in H. apply bind_Ok in H as (i0 & Hi & H). apply bind_Ok in H as (e & He & H).
  apply bind_Ok in H as (u & _ & H). apply bind_Ok in H as (e' & He' & H). apply bind_Ok in H as (q1 & Hq & H). injection H as <- <- <-.
  apply deref_Ok in He. unfold we_allocate in He'. apply bind_Ok in He' as (k & _ & He'). apply bind_Ok in He' as (sec & _ & He').
  apply bind_Ok in He' as (u1 & _ & He'). apply bind_Ok in He' as (u2 & _ & He'). apply bind_Ok in He' as (t0 & _ & He').
  apply bind_Ok in He' as (k0 & _ & He'). apply bind_Ok in He' as (b & _ & He'). apply bind_Ok in He' as (u3 & _ & He').
  injection He' as <-. set (e' := mkWQE _ _ _ _ _ _ _ _) in *. pose proof (lookup_lt_Some _ _ _ He) as Hlt.
  assert (<[i0 := e']> es !! i0 = Some e') as Hi0 by (by apply list_lookup_insert_eq).
  destruct (lists_allocate (<[i0 := e']> es) (wsvc es) (wsvc (<[i0 := e']> es)) q q1 i0 univ Hl Hi Hq)
    as (HL & Hin & Hnin & Hal & Hfl & Hrl & Hne & Hnr & Hc).
  - unfold wsvc. by rewrite Hi0.
  - intros j Hj. unfold wsvc. by rewrite list_lookup_insert_ne.
  - apply addToReadyList_Ok in Hq as (l & -> & Hlp). simpl in *. split; [|split; [done|done]].
    constructor; simpl; try done. intros j ej Hej. rewrite Hlp. destruct (decide (j = i0)) as [->|Hd].
    + intros _. rewrite Hi0 in Hej. by injection Hej as <-.
    + rewrite list_lookup_insert_ne in Hej by done. intros Hj. apply elem_of_cons in Hj as [->|Hj]; [done|]. by eapply Hrd.
Qed.

Lemma wq_markInService_inv univ reserve i es q es' q' : WInv es q univ reserve → wq_markInService i es q = Ok (es', q') →
  WInv es' q' univ reserve ∧ allocated q' = allocated q - 1 ∧ ∀ j, j ∈ readyList q' → j ∈ readyList q.
Proof.
  intros [Hl Hn Hr Hrd] H. unfold wq_markInService in H. apply bind_Ok in H as (e & He & H). apply bind_Ok in H as (e1 & He1 & H).
  apply deref_Ok in He. unfold wq_deallocate in H. apply bind_Ok in H as (q1 & Hq & H). apply bind_Ok in H as (e2 & He2 & H).
  apply bind_Ok in H as (e3 & He3 & H). injection H as <- <-. apply deref_Ok in He2.
  pose proof (lookup_lt_Some _ _ _ He) as Hlt. rewrite list_lookup_insert_eq in He2 by done. injection He2 as <-.
  assert (we_inService e1 = we_inService e) as Hs.
  { unfold we_popTarget in He1. destruct (we_targets e); [done|]. by injection He1 as <-. }
  assert (∀ j, wsvc (<[i := e1]> es) j = wsvc es j) as Hsv.
  { intros j. unfold wsvc. destruct (decide (j = i)) as [->|Hd]; [rewrite list_lookup_insert_eq, He by done; simpl; by rewrite Hs|].
    by rewrite list_lookup_insert_ne. }
  destruct (lists_release (<[i := e1]> es) (wsvc (<[i := e1]> es)) (wsvc (<[i:=e3]> (<[i:=e1]> es))) q q1 i univ) as (HL & Hin & Hal & Hfl & Hne & Hnr & Hc); try done.
  - by eapply lists_ext.
  - intros e0 He0. unfold wsvc. by rewrite He0.
  - intros j Hj. unfold wsvc. by rewrite list_lookup_insert_ne.
  - assert (∀ j, j ∈ readyList q1 → j ≠ i ∧ j ∈ readyList q) as Hsub.
    { intros j Hj. pose proof (proj1 (l_ready _ _ _ HL j) Hj) as [Hja Hjs]. apply Hal in Hja as [Hja Hji]. split; [done|].
      apply (l_ready _ _ _ Hl). split; [done|]. unfold wsvc in *. by rewrite !list_lookup_insert_ne in Hjs by done. }
    split; [|split; [done|intros j Hj; by apply Hsub]]. constructor; simpl; try done; [by rewrite Hne|by rewrite Hnr|].
    intros j ej Hej Hj. destruct (Hsub j Hj) as [Hji Hj']. rewrite !list_lookup_insert_ne in Hej by done. by eapply Hrd.
Qed.

(** ** The invariant *)

Section Cache_.
Context (pr : Params) (own univ : list nat) (reserve : Z).

(** The MSHR without room for a target is allocated and has a request of the processor. *)
Definition no_target (c : Cache) : Prop := ∀ m, noTargetMSHR c = Some m →
  m ∈ allocatedList (mshrQueue c) ∧ ∃ K, cores (heap c) !! m = Some K ∧ has_cpu K.

Definition bits_of (c : Cache) : Prop :=
  Bits (isFull (mshrQueue c)) (isFull (writeBuffer c)) (bool_decide (noTargetMSHR c ≠ None)) c.

Record Entries (c : Cache) (H : gset nat) : Prop := {
  g_mshrs : MInv own (c_order c) (heap c) (mshrQueue c) H;
  g_held : ∀ m, m ∈ H → m ∈ allocatedList (mshrQueue c);
  g_writes : WInv (wentries c) (writeBuffer c) univ reserve;
  g_noTarget : no_target c
}.

Record Good (c : Cache) (H : gset nat) : Prop := {
  g_entries :> Entries c H;
  g_bits : bits_of c;
  g_list : PacketQueue.transmitList (reqQueue c) = []
}.

(** What a step makes of the MSHRs. *)
Definition became (c : Cache) (H : gset nat) (es : list (nat * event)) (c' : Cache) (H' : gset nat) : Prop :=
  evolve own (c_order c) (heap c) H es (c_order c') (heap c') H'.

(** A part of a step, after which the MSHRs in service are still so. *)
Record part (c : Cache) (H : gset nat) (es : list (nat * event)) (c' : Cache) : Prop := {
  p_good : Good c' H;
  p_became : became c H es c' H;
  p_keeps : keeps_service own (heap c) (heap c')
}.

Lemma kept_trans h h1 h2 : (∀ j K, j ∈ own → cores h !! j = Some K → is_Some (cores h1 !! j)) →
  keeps_service own h h1 → keeps_service own h1 h2 → keeps_service own h h2.
Proof.
  intros Hs H1 H2 j K K' Hj HK HK' Hi. destruct (Hs j K Hj HK) as [K1 HK1]. eapply H2; [done|exact HK1|done|]. by eapply H1.
Qed.

Lemma part_trans c H es1 c1 es2 c2 : part c H es1 c1 → part c1 H es2 c2 → part c H (es1 ++ es2) c2.
Proof.
  intros [G1 B1 K1] [G2 B2 K2]. constructor; [done|by eapply evolve_trans|]. eapply kept_trans; [|done|done].
  intros j K Hj HK. destruct (B1 j K Hj HK) as (K' & HK' & _). by exists K'.
Qed.

Lemma part_became c H es1 c1 es2 c2 H' : part c H es1 c1 → became c1 H es2 c2 H' → became c H (es1 ++ es2) c2 H'.
Proof. intros [G1 B1 K1] B2. by eapply evolve_trans. Qed.

Lemma outside_refl h q : outside own h h q.
Proof. apply same_cores_outside; [done|reflexivity]. Qed.

(** Parts that the MSHRs do not see. *)
Lemma part_same c H c' : Good c' H → Good c H → heap c' = heap c → c_order c <= c_order c' → part c H [] c'.
Proof.
  intros G' G Hh Ho. constructor; [done| |].
  - unfold became. rewrite Hh. by eapply outside_inv; [apply (g_mshrs _ _ G)|apply outside_refl|].
  - rewrite Hh. intros j K K' _ HK HK' Hi. congruence.
Qed.

Lemma part_refl c H : Good c H → part c H [] c.
Proof. intros HG. apply part_same; [done|done|done|lia]. Qed.

Lemma same_body_entries c H c' : Entries c H → same_body c c' → Entries c' H.
Proof.
  intros [] (H1 & H2 & H3 & H4 & H5 & H6). constructor; unfold no_target; rewrite ?H1, ?H2, ?H3, ?H4, ?H5, ?H6; done.
Qed.

(** The bits of a cache whose entries are as in [c1]. *)
Lemma good_intro c c1 c2 H : Entries c1 H → same_body c1 c2 → reqQueue c2 = reqQueue c →
  Bits (isFull (mshrQueue c1)) (isFull (writeBuffer c1)) (bool_decide (noTargetMSHR c1 ≠ None)) c2 →
  PacketQueue.transmitList (reqQueue c) = [] → Good c2 H.
Proof.
  intros He Hb Hr Hbits Ht. constructor; [by eapply same_body_entries| |by rewrite Hr].
  unfold bits_of. destruct Hb as (_ & -> & _ & -> & _ & ->). done.
Qed.

Lemma sched_part t w c c' H : Good c H → schedMemSideSendEvent t w c = Ok c' →
  part c H [] c' ∧ (awake c → awake c') ∧ (good_time w → awake c') ∧ same_body c c'.
Proof.
  intros HG Hs. pose proof (sched_spec _ _ _ _ Hs) as (Hb & _ & _ & _ & _ & Ha & Hg & Ht).
  assert (Good c' H) as HG'.
  { constructor; [eapply same_body_entries; [apply HG|done]| |by rewrite Ht, (g_list _ _ HG)]. unfold bits_of. destruct Hb as (_ & -> & _ & -> & _ & ->).
    eapply sched_bits; [done|]. apply HG. }
  split; [|done]. apply part_same; [done|done|apply Hb|]. destruct Hb as (_ & _ & _ & _ & -> & _). lia.
Qed.

Lemma isFull_grows q q' : allocated q' = allocated q + 1 → numEntries q' = numEntries q → numReserve q' = numReserve q →
  isFull q = true → isFull q' = true.
Proof. unfold isFull. intros -> -> ->. rewrite !Z.leb_le. lia. Qed.
Lemma isFull_shrinks q q' : allocated q' = allocated q - 1 → numEntries q' = numEntries q → numReserve q' = numReserve q →
  isFull q = false → isFull q' = false.
Proof. unfold isFull. intros -> -> ->. rewrite !Z.leb_gt. lia. Qed.
Lemma isFull_eq q q' : allocated q' = allocated q → numEntries q' = numEntries q → numReserve q' = numReserve q →
  isFull q' = isFull q.
Proof. unfold isFull. by intros -> -> ->. Qed.

(** The bit of a queue that just took an entry. *)
Lemma block_mshrs b b2 b3 (full : bool) c c' : Bits b b2 b3 c → (b = true → full = true) →
  (if full then setBlocked Blocked_NoMSHRs c else Ok c) = Ok c' → same_body c c' ∧ reqQueue c' = reqQueue c ∧ Bits full b2 b3 c'.
Proof.
  intros Hb Hf H. destruct full.
  - eapply setBlocked_bits in H; [exact H|done| |done]. by destruct b, b2, b3.
  - injection H as <-. destruct b; [by specialize (Hf eq_refl)|done].
Qed.
Lemma block_writes b b1 b3 (full : bool) c c' : Bits b1 b b3 c → (b = true → full = true) →
  (if full then setBlocked Blocked_NoWBBuffers c else Ok c) = Ok c' → same_body c c' ∧ reqQueue c' = reqQueue c ∧ Bits b1 full b3 c'.
Proof.
  intros Hb Hf H. destruct full.
  - eapply setBlocked_bits in H; [exact H|done| |by destruct b1]. by destruct b, b1, b3.
  - injection H as <-. destruct b; [by specialize (Hf eq_refl)|done].
Qed.

(** The bit of a queue that just gave an entry back. *)
Lemma unblock_mshrs t b b2 b3 (full : bool) c c' : Bits b b2 b3 c → (b = false → full = false) →
  (if b && negb full then clearBlocked t Blocked_NoMSHRs c else Ok c) = Ok c' → same_body c c' ∧ reqQueue c' = reqQueue c ∧ Bits full b2 b3 c'.
Proof.
  intros Hb Hf H. destruct b, full; simpl in H; try (injection H as <-; done); [|by specialize (Hf eq_refl)].
  eapply clearBlocked_bits in H; [exact H|done| |done]. by destruct b2, b3.
Qed.
Lemma unblock_writes t b b1 b3 (full : bool) c c' : Bits b1 b b3 c → (b = false → full = false) →
  (if b && negb full then clearBlocked t Blocked_NoWBBuffers c else Ok c) = Ok c' → same_body c c' ∧ reqQueue c' = reqQueue c ∧ Bits b1 full b3 c'.
Proof.
  intros Hb Hf H. destruct b, full; simpl in H; try (injection H as <-; done); [|by specialize (Hf eq_refl)].
  eapply clearBlocked_bits in H; [exact H|done| |by rewrite orb_true_r]. by destruct b1, b3.
Qed.

(** ** New entries *)

Lemma MInv_sizes n n' h h' q q' H H' : MInv own n h q H → MInv own n' h' q' H' → numEntries q' = numEntries q ∧ numReserve q' = numReserve q.
Proof. intros [] []. split; congruence. Qed.
Lemma WInv_sizes es es' q q' : WInv es q univ reserve → WInv es' q' univ reserve → numEntries q' = numEntries q ∧ numReserve q' = numReserve q.
Proof. intros [] []. split; congruence. Qed.

Lemma kept_no_target c c' : no_target c → noTargetMSHR c' = noTargetMSHR c →
  cpu_kept (heap c) (heap c') (mshrQueue c) (mshrQueue c') → no_target c'.
Proof. intros Hn He Hk m Hm. rewrite He in Hm. destruct (Hn m Hm) as (Ha & K & HK & Hc). by eapply Hk. Qed.

Lemma allocateMissBuffer_part t p time sched c H i c' : Good c H → allocateMissBuffer pr t p time sched c = Ok (i, c') →
  time < MaxTick →
  part c H [(i, Accepted (c_order c))] c' ∧ head (freeList (mshrQueue c)) = Some i ∧ c_order c' = c_order c + 1 ∧
  i ∈ allocatedList (mshrQueue c') ∧ (awake c → awake c') ∧ (sched = true → awake c') ∧
  PacketQueue.transmitList (reqQueue c') = [] ∧
  ∃ K v, cores (heap c') !! i = Some K ∧ k_inService K = false ∧ l_views (k_targets K) = [v] ∧ is_req v ∧ v_order v = c_order c.
Proof.
  intros HG Ha Ht. unfold allocateMissBuffer in Ha. apply bind_Ok in Ha as (k & Hk & Ha). apply bind_Ok in Ha as (blk & _ & Ha).
  apply bind_Ok in Ha as ([[i0 h1] q1] & Hq & Ha). apply bind_Ok in Ha as (c2 & Hb & Ha). apply bind_Ok in Ha as (c3 & Hs & Ha).
  injection Ha as <- <-.
  destruct (mq_allocate_inv _ _ _ _ _ _ _ _ _ _ _ _ _ _ (g_mshrs _ _ HG) Hq Ht) as
    (HM & He & Hks & Hle & Htf & Hin & Hrl & Hcnt & Hoth & HK).
  destruct (MInv_sizes _ _ _ _ _ _ _ _ (g_mshrs _ _ HG) HM) as [Hs1 Hs2].
  set (c1 := incr_order (set_misses h1 q1 c)) in *.
  apply (block_mshrs (isFull (mshrQueue c)) (isFull (writeBuffer c)) (bool_decide (noTargetMSHR c ≠ None))) in Hb as (Hsb & Hrq & Hbits).
  2: { eapply Bits_ext; [apply (g_bits _ _ HG)|done|done|done|done]. }
  2: { by apply isFull_grows. }
  assert (Entries c1 H) as HE1.
  { constructor; simpl; [done| |apply (g_writes _ _ HG)|].
    - intros m Hm. by apply Hoth, (g_held _ _ HG).
    - intros m Hm. destruct (g_noTarget _ _ HG m Hm) as (Hma & K0 & HK0 & Hc0). destruct (Hoth m Hma) as (Hma' & Hne & Hsame).
      split; [done|]. exists K0. simpl. by rewrite Hsame. }
  assert (Good c2 H) as HG2 by (eapply (good_intro c); [done|done|by rewrite Hrq|done|apply HG]).
  assert (part c H [(i0, Accepted (c_order c))] c2) as Hpart.
  { destruct Hsb as (Hsb & _ & _ & _ & Hso & _). constructor; [done| |by rewrite Hsb]. unfold became. by rewrite Hsb, Hso. }
  assert (part c2 H [] c3 ∧ (awake c2 → awake c3) ∧ (sched = true → awake c3) ∧ same_body c2 c3) as (Hpart3 & Haw & Hsc & Hsb3).
  { destruct sched.
    - destruct (sched_part _ _ _ _ _ HG2 Hs) as (H1 & H2 & H3 & H4). split; [done|]. split; [done|]. split; [auto|done].
    - injection Hs as <-. split; [|done]. by apply part_same. }
  pose proof (part_trans _ _ _ _ _ _ Hpart Hpart3) as Hp. rewrite app_nil_r in Hp. split; [done|].
  unfold take_free in Htf. split; [by destruct (freeList (mshrQueue c)); [|injection Htf as ->]|].
  assert (same_body c1 c3) as (B1 & B2 & B3 & B4 & B5 & B6) by (by transitivity c2). split; [by rewrite B5|]. split; [by rewrite B2|].
  split; [intros Hw; apply Haw; unfold awake in *; by rewrite Hrq|]. split; [done|].
  split; [apply (p_good _ _ _ _ Hp)|]. by rewrite B1.
Qed.

Lemma allocateWriteBuffer_part t p time c H c' : Good c H → allocateWriteBuffer pr t p time c = Ok c' → time < MaxTick →
  part c H [] c' ∧ awake c' ∧ heap c' = heap c ∧ mshrQueue c' = mshrQueue c ∧ noTargetMSHR c' = noTargetMSHR c.
Proof.
  intros HG Ha Ht. unfold allocateWriteBuffer in Ha. apply bind_Ok in Ha as (k & Hk & Ha). apply bind_Ok in Ha as (u & _ & Ha).
  apply bind_Ok in Ha as (blk & _ & Ha). apply bind_Ok in Ha as ([[i0 es] q1] & Hq & Ha). apply bind_Ok in Ha as (c2 & Hb & Hs).
  destruct (wq_allocate_inv _ _ _ _ _ _ _ _ _ _ _ _ _ _ (g_writes _ _ HG) Hq Ht) as (HW & Hcnt & Hrl).
  destruct (WInv_sizes _ _ _ _ (g_writes _ _ HG) HW) as [Hs1 Hs2].
  set (c1 := incr_order (set_writes es q1 c)) in *.
  apply (block_writes (isFull (writeBuffer c)) (isFull (mshrQueue c)) (bool_decide (noTargetMSHR c ≠ None))) in Hb as (Hsb & Hrq & Hbits).
  2: { eapply Bits_ext; [apply (g_bits _ _ HG)|done|done|done|done]. }
  2: { by apply isFull_grows. }
  destruct (outside_inv own (c_order c) (c_order c + 1) (heap c) (heap c) (mshrQueue c) H) as (HM & _ & _);
    [apply (g_mshrs _ _ HG)|apply outside_refl|lia|].
  assert (Entries c1 H) as HE1 by (constructor; simpl; [done|apply (g_held _ _ HG)|done|apply (g_noTarget _ _ HG)]).
  assert (Good c2 H) as HG2 by (eapply (good_intro c); [done|done|by rewrite Hrq|done|apply HG]).
  assert (part c H [] c2) as Hpart.
  { apply part_same; [done|done|apply Hsb|]. destruct Hsb as (_ & _ & _ & _ & -> & _). simpl. lia. }
  destruct (sched_part _ _ _ _ _ HG2 Hs) as (H1 & _ & H3 & H4).
  pose proof (part_trans _ _ _ _ _ _ Hpart H1) as Hp. split; [done|]. split; [auto|].
  assert (same_body c1 c') as (B1 & B2 & B3 & B4 & B5 & B6) by (by transitivity c2). done.
Qed.

(** ** Sending *)

Lemma markInService_mshr_part t i pm c H c' : Good c H → i ∈ allocatedList (mshrQueue c) → markInService_mshr t i pm c = Ok c' →
  part c H [] c' ∧ (awake c → awake c') ∧ c_order c' = c_order c.
Proof.
  intros HG Hi Ha. unfold markInService_mshr in Ha. apply bind_Ok in Ha as ([h1 q1] & Hq & Ha).
  destruct (mq_markInService_inv _ _ _ _ _ _ _ _ _ (g_mshrs _ _ HG) Hi Hq) as (HM & He & Hk & Hle & Hal & Hcnt & Hoth & K & K' & HK & HK' & _ & _ & Hall).
  destruct (MInv_sizes _ _ _ _ _ _ _ _ (g_mshrs _ _ HG) HM) as [Hs1 Hs2].
  set (c1 := set_misses h1 q1 c) in *.
  assert (Entries c1 H) as HE1.
  { constructor; simpl; [done|rewrite Hal; apply (g_held _ _ HG)|apply (g_writes _ _ HG)|]. intros m Hm. destruct (g_noTarget _ _ HG m Hm) as (Hma & K0 & HK0 & v & Hv & Hc).
    simpl. rewrite Hal. split; [done|]. destruct (decide (m = i)) as [->|Hne].
    - exists K'. split; [done|]. exists v. rewrite Hall. assert (K0 = K) as -> by congruence. done.
    - exists K0. rewrite Hoth by done. split; [done|]. by exists v. }
  assert (isFull q1 = isFull (mshrQueue c)) as Hfull by (by apply isFull_eq).
  apply (unblock_mshrs t _ (isFull (writeBuffer c)) (bool_decide (noTargetMSHR c ≠ None))) in Ha as (Hsb & Hrq & Hbits).
  2: { eapply Bits_ext; [apply (g_bits _ _ HG)|done|done|done|done]. }
  2: { simpl. by rewrite Hfull. }
  assert (Good c' H) as HG2 by (eapply (good_intro c); [done|done|by rewrite Hrq|done|apply HG]).
  split; [|split; [unfold awake; by rewrite Hrq|by destruct Hsb as (_ & _ & _ & _ & -> & _)]].
  destruct Hsb as (Hsb & _ & _ & _ & Hso & _). constructor; [done| |by rewrite Hsb]. unfold became. by rewrite Hsb, Hso.
Qed.

Lemma markInService_write_part t i c H c' : Good c H → markInService_write t i c = Ok c' →
  part c H [] c' ∧ (awake c → awake c') ∧ heap c' = heap c ∧ mshrQueue c' = mshrQueue c ∧
  ∀ j, j ∈ readyList (writeBuffer c') → j ∈ readyList (writeBuffer c).
Proof.
  intros HG Ha. unfold markInService_write in Ha. apply bind_Ok in Ha as ([es q1] & Hq & Ha).
  destruct (wq_markInService_inv _ _ _ _ _ _ _ (g_writes _ _ HG) Hq) as (HW & Hcnt & Hsub).
  destruct (WInv_sizes _ _ _ _ (g_writes _ _ HG) HW) as [Hs1 Hs2].
  set (c1 := set_writes es q1 c) in *.
  apply (unblock_writes t _ (isFull (mshrQueue c)) (bool_decide (noTargetMSHR c ≠ None))) in Ha as (Hsb & Hrq & Hbits).
  2: { eapply Bits_ext; [apply (g_bits _ _ HG)|done|done|done|done]. }
  2: { by apply isFull_shrinks. }
  assert (Entries c1 H) as HE1 by (constructor; simpl; [apply (g_mshrs _ _ HG)|apply (g_held _ _ HG)|done|apply (g_noTarget _ _ HG)]).
  assert (Good c' H) as HG2 by (eapply (good_intro c); [done|done|by rewrite Hrq|done|apply HG]).
  split; [|split; [unfold awake; by rewrite Hrq|destruct Hsb as (-> & -> & _ & -> & _); done]].
  apply part_same; [done|done|apply Hsb|]. destruct Hsb as (_ & _ & _ & _ & -> & _). done.
Qed.

End Cache_.
End CacheInv.
