(* ===== verification/CacheSteps.v ===== *)
(** * mem/cache/base: every event keeps the invariant

    One lemma per event: it keeps [Good], wakes the memory side when something waits to be
    sent, and makes of the MSHRs what its label says. *)

From Stdlib Require Import ZArith Lia.
From stdpp Require Import base numbers option list gmap.
From S2P Require Import Prelude Packet PacketQueue MSHR MSHRQueue CacheQueues MSHRCore MSHROps.
From S2P Require Import MSHRMoves MSHRMachine MSHRFile CacheSystem CacheInv.

Module CacheSteps.
Import Packet MSHR MSHRQueue CacheQueues MSHRLemmas MSHRCore MSHROps MSHRQueueLemmas MSHRMachine MSHRMoves MSHRFile
  CacheSystem CacheInv.

(** ** What is sent next *)

Section Next.
Context {E : Type} `{QueueEntry E} (es : list E).

Lemma getNext_ready t q i : getNext es t q = Ok (Some i) → i ∈ readyList q.
Proof.
  unfold getNext. destruct (readyList q) as [|j l]; [done|]. intros H0. apply bind_Ok in H0 as (e & _ & H0).
  destruct (_ <? _); [done|]. injection H0 as <-. by left.
Qed.

Lemma find_entry_in p l i : find_entry es p l = Ok (Some i) → i ∈ l.
Proof.
  induction l as [|j l IH]; simpl; [done|]. intros H0. apply bind_Ok in H0 as (e & _ & H0). apply bind_Ok in H0 as (b & _ & H0).
  destruct b; [injection H0 as <-; by left|]. right. by apply IH.
Qed.

Lemma findMatch_in a s u q i : findMatch es a s u q = Ok (Some i) → i ∈ allocatedList q.
Proof. apply find_entry_in. Qed.

Lemma findPending_in {F} `{QueueEntry F} (f : F) q i : findPending es f q = Ok (Some i) → i ∈ readyList q.
Proof. apply find_entry_in. Qed.

End Next.

Section Cache_.
Context (pr : Params) (own univ : list nat) (reserve : Z).

#[local] Abbreviation Good := (Good own univ reserve).
#[local] Abbreviation part := (part own univ reserve).
#[local] Abbreviation became := (became own).

Definition Inv (s : System) : Prop := Good (cache s) (held s) ∧ (pending (cache s) → awake (cache s)).

Lemma Good_ready c H i : Good c H → i ∈ readyList (mshrQueue c) → i ∈ allocatedList (mshrQueue c) ∧ svc (heap c) i = Some false.
Proof. intros HG Hi. by apply (l_ready _ _ _ (i_lists _ _ _ _ _ (g_mshrs _ _ _ _ _ HG))). Qed.

Lemma getNextQueueEntry_part t env c H e c1 : Good c H → good_time t →
  getNextQueueEntry pr t (env_prefetch env) (env_inTags env) c = Ok (e, c1) →
  part c H (match e with Some (e_mshr i) => if c_order c1 =? c_order c then [] else [(i, Accepted (c_order c))] | _ => [] end) c1 ∧
  (∀ i, e = Some (e_mshr i) → i ∈ allocatedList (mshrQueue c1) ∧ svc (heap c1) i = Some false).
Proof.
  intros HG Ht Hn. unfold getNextQueueEntry in Hn. apply bind_Ok in Hn as (mm & Hmm & Hn). apply bind_Ok in Hn as (ww & Hww & Hn).
  assert (∀ x, (∀ i, x = Some (e_mshr i) → i ∈ readyList (mshrQueue c)) → Ok (x, c) = Ok (e, c1) →
    part c H (match e with Some (e_mshr i) => if c_order c1 =? c_order c then [] else [(i, Accepted (c_order c))] | _ => [] end) c1 ∧
    (∀ i, e = Some (e_mshr i) → i ∈ allocatedList (mshrQueue c1) ∧ svc (heap c1) i = Some false)) as Hpure.
  { intros x Hx Heq. injection Heq as <- <-. rewrite Z.eqb_refl. split.
    - destruct x as [[]|]; by apply part_refl.
    - intros i Hi. eapply Good_ready; [done|]. by apply Hx. }
  assert (∀ i, mm = Some i → i ∈ readyList (mshrQueue c)) as Hmr by (intros i ->; exact (getNext_ready _ _ _ _ Hmm)).
  destruct ww as [w|].
  - destruct (_ || _).
    + apply bind_Ok in Hn as (ew & _ & Hn). apply bind_Ok in Hn as (cm & Hcm & Hn). destruct cm as [i|].
      * apply bind_Ok in Hn as (x & _ & Hn). eapply Hpure; [|exact Hn]. intros j. destruct (_ <? _); intros [= <-].
        exact (findPending_in _ _ _ _ Hcm).
      * eapply Hpure; [|exact Hn]. done.
    + apply bind_Ok in Hn as (i & Hi & Hn). apply bind_Ok in Hn as (x & _ & Hn). apply bind_Ok in Hn as (cf & _ & Hn).
      apply deref_Ok in Hi. eapply Hpure; [|exact Hn]. intros j. destruct cf; intros [= <-]. by apply Hmr.
  - destruct mm as [i|].
    + apply bind_Ok in Hn as (x & _ & Hn). apply bind_Ok in Hn as (cf & _ & Hn).
      eapply Hpure; [|exact Hn]. intros j. destruct cf; intros [= <-]. by apply Hmr.
    + assert (Ok (None, c) = Ok (e, c1) → part c H (match e with Some (e_mshr i) => if c_order c1 =? c_order c then [] else [(i, Accepted (c_order c))] | _ => [] end) c1 ∧
        (∀ i, e = Some (e_mshr i) → i ∈ allocatedList (mshrQueue c1) ∧ svc (heap c1) i = Some false)) as Hnone by (intros Hx; by eapply Hpure; [|exact Hx]).
      destruct (_ && _); [|by apply Hnone]. destruct (env_prefetch env) as [p|]; [|by apply Hnone].
      apply bind_Ok in Hn as (k & _ & Hn). apply bind_Ok in Hn as (a & _ & Hn). apply bind_Ok in Hn as (sec & _ & Hn).
      destruct (env_inTags env a sec); [by apply Hnone|]. apply bind_Ok in Hn as (m & _ & Hn). apply bind_Ok in Hn as (w & _ & Hn).
      destruct m; [by apply Hnone|]. destruct w; [by apply Hnone|].
      apply bind_Ok in Hn as ([i c2] & Ha & Hn). injection Hn as <- <-.
      destruct (allocateMissBuffer_part pr own univ reserve _ _ _ _ _ _ _ _ HG Ha Ht) as (Hp & _ & Ho & Hin & _ & _ & _ & K & v & HK & Hs & _).
      rewrite Ho. replace (c_order c + 1 =? c_order c) with false by lia. split; [done|]. intros j [= <-]. split; [done|].
      unfold svc. rewrite HK. simpl. by rewrite Hs.
Qed.

(** ** Sending *)

Definition squashes (o : Outcome) : bool := match o with o_squashed => true | _ => false end.

Lemma misses_good c H h q : Good c H → MInv own (c_order c) h q H → (∀ m, m ∈ H → m ∈ allocatedList q) →
  cpu_kept (heap c) h (mshrQueue c) q → isFull q = isFull (mshrQueue c) → Good (set_misses h q c) H.
Proof.
  intros HG HM Hh Hk Hf. constructor; [constructor; simpl; [done|done|apply (g_writes _ _ _ _ _ HG)|]| |apply (g_list _ _ _ _ _ HG)].
  - by eapply kept_no_target; [apply (g_noTarget _ _ _ _ _ HG)|done|].
  - unfold bits_of. simpl. rewrite Hf. eapply Bits_ext; [apply (g_bits _ _ _ _ _ HG)|done|done|done|done].
Qed.

Lemma misses_part c H es h q : Good c H → MInv own (c_order c) h q H → (∀ m, m ∈ H → m ∈ allocatedList q) →
  cpu_kept (heap c) h (mshrQueue c) q → isFull q = isFull (mshrQueue c) → evolve own (c_order c) (heap c) H es (c_order c) h H →
  keeps_service own (heap c) h → part c H es (set_misses h q c).
Proof. intros HG HM Hh Hk Hf He Hs. constructor; [by apply misses_good|done|done]. Qed.

Lemma sendMSHRQueuePacket_part t i o c H wait c' : Good c H → good_time t → match o with o_delayed d => good_time (t + d) | _ => True end →
  i ∈ allocatedList (mshrQueue c) → svc (heap c) i = Some false → squashes o = false →
  sendMSHRQueuePacket pr t i o c = Ok (wait, c') → part c H [] c'.
Proof.
  intros HG Ht Hd Hi Hs Hsq Ha. unfold sendMSHRQueuePacket in Ha. apply bind_Ok in Ha as (x & Hx & Ha). apply bind_Ok in Ha as (t0 & Ht0 & Ha).
  apply bind_Ok in Ha as (k & Hk & Ha). heap_inv. destruct o as [d|f|f pm wb|pm|]; [| | | |done].
  - apply bind_Ok in Ha as ([h q] & Hq & Ha). injection Ha as <- <-.
    destruct (mq_delay_inv _ _ _ _ _ _ _ _ _ _ (g_mshrs _ _ _ _ _ HG) Hi Hq Hd) as (HM & He & Hks & Hle & Hcs & Hal & Hc).
    destruct (MInv_sizes _ _ _ _ _ _ _ _ _ (g_mshrs _ _ _ _ _ HG) HM) as [Hz1 Hz2].
    apply misses_part; try done; [rewrite Hal; apply (g_held _ _ _ _ _ HG)| |by apply isFull_eq]. apply cpu_stays_kept; [done|]. by rewrite Hal.
  - apply bind_Ok in Ha as (h & Hq & Ha). injection Ha as <- <-.
    destruct (set_isForward_inv _ _ _ _ _ _ _ _ (g_mshrs _ _ _ _ _ HG) Hi Hq) as (HM & He & Hks & Hle & Hcs).
    apply (misses_part c H [] h (mshrQueue c)); try done; [apply (g_held _ _ _ _ _ HG)|]. by apply cpu_stays_kept.
  - apply bind_Ok in Ha as (h & Hq & Ha). apply bind_Ok in Ha as (c1 & Hm & Ha). apply bind_Ok in Ha as (c2 & Hw & Ha). injection Ha as <- <-.
    destruct (set_isForward_inv _ _ _ _ _ _ _ _ (g_mshrs _ _ _ _ _ HG) Hi Hq) as (HM & He & Hks & Hle & Hcs).
    assert (part c H [] (set_heap h c)) as P1.
    { apply (misses_part c H [] h (mshrQueue c)); try done; [apply (g_held _ _ _ _ _ HG)|]. by apply cpu_stays_kept. }
    destruct (markInService_mshr_part own univ reserve _ _ _ _ _ _ (p_good _ _ _ _ _ _ _ P1) Hi Hm) as (P2 & _ & _).
    pose proof (part_trans _ _ _ _ _ _ _ _ _ P1 P2) as P12. destruct wb as [p|]; [|by injection Hw as <-].
    destruct (allocateWriteBuffer_part pr own univ reserve _ _ _ _ _ _ (p_good _ _ _ _ _ _ _ P2) Hw) as (P3 & _); [done|].
    exact (part_trans _ _ _ _ _ _ _ _ _ P12 P3).
  - apply bind_Ok in Ha as (u & _ & Ha). apply bind_Ok in Ha as (c1 & Hm & Ha). injection Ha as <- <-.
    by destruct (markInService_mshr_part own univ reserve _ _ _ _ _ _ HG Hi Hm) as (P2 & _ & _).
Qed.

Lemma allocated_le n n' h h' q q' H H' : MInv own n h q H → MInv own n' h' q' H' → (∀ j, j ∈ allocatedList q' → j ∈ allocatedList q) →
  allocated q' <= allocated q.
Proof.
  intros HM HM' Hsub. rewrite (l_count _ _ _ (i_lists _ _ _ _ _ HM)), (l_count _ _ _ (i_lists _ _ _ _ _ HM')).
  pose proof (l_nodup _ _ _ (i_lists _ _ _ _ _ HM')) as Hn. rewrite <-(l_split _ _ _ (i_lists _ _ _ _ _ HM')) in Hn.
  apply NoDup_app in Hn as (Hn & _). assert (allocatedList q' ⊆+ allocatedList q) as Hs by (by apply NoDup_submseteq).
  apply submseteq_length in Hs. lia.
Qed.

Lemma not_held_service n h q H m : MInv own n h q H → (∀ m, m ∈ H → m ∈ allocatedList q) → svc h m = Some false → m ∉ H.
Proof.
  intros HM Hh Hs Hm. destruct (i_waits _ _ _ _ _ HM m (Hh m Hm)) as (K & HK & HW).
  destruct (w_held _ _ _ _ HW) as [Hi _]; [by apply bool_decide_true|]. unfold svc in Hs. rewrite HK in Hs. simpl in Hs. congruence.
Qed.

Lemma squash_part t i c H wait c' : Good c H → good_time t → i ∈ allocatedList (mshrQueue c) → svc (heap c) i = Some false →
  sendMSHRQueuePacket pr t i o_squashed c = Ok (wait, c') →
  Good c' H ∧ ∃ x t0 l, mshrs (heap c) !! i = Some x ∧ list_of (targets x) = t0 :: l ∧ became c H [(i, Answered [t_order t0])] c' H.
Proof.
  intros HG Ht Hi Hs Ha. unfold sendMSHRQueuePacket in Ha. apply bind_Ok in Ha as (x & Hx & Ha). apply bind_Ok in Ha as (t0 & Ht0 & Ha).
  apply bind_Ok in Ha as (k & Hk & Ha). apply bind_Ok in Ha as (u & Hu & Ha). apply bind_Ok in Ha as ([[ub h] q] & Hq & Ha).
  apply bind_Ok in Ha as (c1 & Hb & Ha). injection Ha as <- <-. heap_inv. apply andb_true_iff in Hu as [Hu _]. apply bool_decide_eq_true in Hu.
  unfold getTarget in Ht0. apply bind_Ok in Ht0 as (u' & _ & Ht0).
  destruct (squashed_inv _ _ _ _ _ _ _ _ _ _ _ _ _ (g_mshrs _ _ _ _ _ HG) Hi Hs Hx Ht0 Hk Hu Hq Ht) as (HM & (os & He & ->) & Hle & Hck & Hub & Hsub).
  destruct (MInv_sizes _ _ _ _ _ _ _ _ _ (g_mshrs _ _ _ _ _ HG) HM) as [Hz1 Hz2].
  pose proof (allocated_le _ _ _ _ _ _ _ _ (g_mshrs _ _ _ _ _ HG) HM Hsub) as Hle'.
  assert (isFull (mshrQueue c) = false → isFull q = false) as Hfull.
  { unfold isFull. rewrite Hz1, Hz2, !Z.leb_gt. lia. }
  set (c0 := set_misses h q c) in *.
  assert (Entries own univ reserve c0 H) as HE.
  { constructor; simpl; [done| |apply (g_writes _ _ _ _ _ HG)|by eapply kept_no_target; [apply (g_noTarget _ _ _ _ _ HG)|done|]].
    intros m Hm. destruct (MInv_entry _ _ _ _ _ m HM) as [Hal|Hfr]; [|done|].
    - eapply MInv_own; [apply (g_mshrs _ _ _ _ _ HG)|]. by apply (g_held _ _ _ _ _ HG).
    - destruct (i_free _ _ _ _ _ HM m Hfr) as (K & _ & [_ _ Hf]). by apply bool_decide_eq_false in Hf. }
  rewrite Hub in Hb. apply (unblock_mshrs t _ (isFull (writeBuffer c)) (bool_decide (noTargetMSHR c ≠ None))) in Hb as (Hsb & Hrq & Hbits); [| |done].
  2: { eapply Bits_ext; [apply (g_bits _ _ _ _ _ HG)|done|done|done|done]. }
  split; [by eapply (good_intro own univ reserve c c0); [done|done|by rewrite Hrq|done|apply (g_list _ _ _ _ _ HG)]|].
  unfold front in Ht0. destruct (list_of (targets x)) as [|t1 l] eqn:Hl; [done|]. injection Ht0 as ->.
  exists x, t0, l. split; [done|]. split; [done|]. destruct Hsb as (Hsb & _ & _ & _ & Hso & _). unfold CacheInv.became. by rewrite Hsb, Hso.
Qed.

Lemma reqQueue_good c H q : Good c H → PacketQueue.transmitList q = [] → Good (set_reqQueue q c) H.
Proof.
  intros [He Hb Hl] Hq. constructor; [|eapply Bits_ext; [exact Hb|done|done|done|done]|done].
  eapply same_body_entries; [exact He|done].
Qed.

Lemma nextReadyTime_mshrs c H w : Good c H → MSHRQueue.nextReadyTime (mshrs (heap c)) (mshrQueue c) = Ok w →
  readyList (mshrQueue c) ≠ [] → good_time w.
Proof.
  intros HG Hw Hne. unfold MSHRQueue.nextReadyTime in Hw. destruct (readyList (mshrQueue c)) as [|i l] eqn:Hl; [done|].
  apply bind_Ok in Hw as (x & Hx & Hw). apply deref_Ok in Hx. injection Hw as <-.
  assert (i ∈ allocatedList (mshrQueue c)) as Hi by (apply (Good_ready _ _ _ HG); rewrite Hl; by left).
  destruct (i_waits _ _ _ _ _ (g_mshrs _ _ _ _ _ HG) i Hi) as (K & HK & HW). destruct (w_ready _ _ _ _ HW) as [Hr _].
  apply cores_lookup in Hx. assert (K = core x) as -> by congruence. done.
Qed.

Lemma nextReadyTime_writes c H w : Good c H → MSHRQueue.nextReadyTime (wentries c) (writeBuffer c) = Ok w →
  readyList (writeBuffer c) ≠ [] → good_time w.
Proof.
  intros HG Hw Hne. unfold MSHRQueue.nextReadyTime in Hw. destruct (readyList (writeBuffer c)) as [|i l] eqn:Hl; [done|].
  apply bind_Ok in Hw as (x & Hx & Hw). apply deref_Ok in Hx. injection Hw as <-.
  eapply (wi_ready _ _ _ _ (g_writes _ _ _ _ _ HG)); [exact Hx|]. rewrite Hl. by left.
Qed.

Lemma nextQueueReadyTime_good next c H w : Good c H → nextQueueReadyTime pr next c = Ok w → pending c → good_time w.
Proof.
  intros HG Hw Hp. unfold nextQueueReadyTime in Hw. apply bind_Ok in Hw as (a & Ha & Hw). apply bind_Ok in Hw as (b & Hb & Hw).
  injection Hw as <-. assert (good_time (Z.min a b)) as Hm.
  { unfold good_time. destruct Hp as [Hp|Hp]; [pose proof (nextReadyTime_mshrs _ _ _ HG Ha Hp)|pose proof (nextReadyTime_writes _ _ _ HG Hb Hp)];
      unfold good_time in *; lia. }
  destruct next as [p|]; [|done]. destruct (_ && _); [|done]. unfold good_time in *. lia.
Qed.

Lemma finish_send t wait next c H c' : Good c H →
  (let c := set_reqQueue (PacketQueue.set_waiting wait (reqQueue c)) c in
   if wait then Ok c else when ← nextQueueReadyTime pr next c; schedMemSideSendEvent t when c) = Ok c' →
  Good c' H ∧ heap c' = heap c ∧ c_order c' = c_order c ∧ (pending c' → awake c').
Proof.
  intros HG Ha. simpl in Ha. assert (Good (set_reqQueue (PacketQueue.set_waiting wait (reqQueue c)) c) H) as HG1.
  { apply reqQueue_good; [done|]. simpl. apply (g_list _ _ _ _ _ HG). }
  destruct wait.
  - injection Ha as <-. split; [done|]. split; [done|]. split; [done|]. intros _. by right.
  - apply bind_Ok in Ha as (w & Hw & Ha). destruct (sched_part own univ reserve _ _ _ _ _ HG1 Ha) as (P & _ & Hg & Hsb).
    split; [apply (p_good _ _ _ _ _ _ _ P)|]. destruct Hsb as (B1 & B2 & B3 & B4 & B5 & _). split; [done|]. split; [done|].
    intros Hp. apply Hg. eapply nextQueueReadyTime_good; [exact HG1|exact Hw|]. unfold pending in *. by rewrite B2, B4 in Hp.
Qed.

Lemma sendWriteQueuePacket_part t i accepted c H wait c' : Good c H → sendWriteQueuePacket t i accepted c = Ok (wait, c') → part c H [] c'.
Proof.
  intros HG Ha. unfold sendWriteQueuePacket in Ha. destruct accepted.
  - apply bind_Ok in Ha as (c1 & Hm & Ha). injection Ha as <- <-. by destruct (markInService_write_part own univ reserve _ _ _ _ _ HG Hm).
  - injection Ha as <- <-. by apply part_refl.
Qed.

(** The entry that was chosen is sent. *)
Lemma send_entry t env e c H wait c' : Good c H → good_time t → good_environment t env →
  (∀ i, e = Some (e_mshr i) → i ∈ allocatedList (mshrQueue c) ∧ svc (heap c) i = Some false) →
  match e with
  | None => Ok (false, c)
  | Some (e_mshr i) => sendMSHRQueuePacket pr t i (env_outcome env) c
  | Some (e_write i) => sendWriteQueuePacket t i (env_accepted env) c
  end = Ok (wait, c') →
  Good c' H ∧ became c H (match e with
    | Some (e_mshr i) =>
        match env_outcome env, mshrs (heap c) !! i with
        | o_squashed, Some x => match list_of (targets x) with t :: _ => [(i, Answered [t_order t])] | [] => [] end
        | _, _ => []
        end
    | _ => []
    end) c' H.
Proof.
  intros HG Ht [_ Hout] He Ha. destruct e as [[i|i]|].
  - destruct (He i eq_refl) as [Hi Hs]. destruct (squashes (env_outcome env)) eqn:Hsq.
    + destruct (env_outcome env); try done. destruct (squash_part _ _ _ _ _ _ HG Ht Hi Hs Ha) as (HG' & x & t0 & l & Hx & Hl & Hb).
      split; [done|]. by rewrite Hx, Hl.
    + pose proof (sendMSHRQueuePacket_part _ _ _ _ _ _ _ HG Ht Hout Hi Hs Hsq Ha) as P. split; [apply (p_good _ _ _ _ _ _ _ P)|].
      destruct (env_outcome env); try done; apply (p_became _ _ _ _ _ _ _ P).
  - pose proof (sendWriteQueuePacket_part _ _ _ _ _ _ _ HG Ha) as P. split; [apply (p_good _ _ _ _ _ _ _ P)|apply (p_became _ _ _ _ _ _ _ P)].
  - injection Ha as <- <-. split; [done|]. by apply (p_became own univ reserve), part_refl.
Qed.

Lemma became_end c H es c1 c' : became c H es c1 H → heap c' = heap c1 → c_order c' = c_order c1 → became c H es c' H.
Proof. unfold CacheInv.became. by intros ? -> ->. Qed.

Definition entry_events (o : Outcome) (c : Cache) (e : option Entry) : list (nat * event) :=
  match e with
  | Some (e_mshr i) =>
      match o, mshrs (heap c) !! i with
      | o_squashed, Some x => match list_of (targets x) with t :: _ => [(i, Answered [t_order t])] | [] => [] end
      | _, _ => []
      end
  | _ => []
  end.

Lemma act_step t env e c H c' : Good c H → good_time t → good_environment t env →
  (∀ i, e = Some (e_mshr i) → i ∈ allocatedList (mshrQueue c) ∧ svc (heap c) i = Some false) →
  ('(wait, c) ←
     (match e with
      | None => Ok (false, c)
      | Some (e_mshr i) => sendMSHRQueuePacket pr t i (env_outcome env) c
      | Some (e_write i) => sendWriteQueuePacket t i (env_accepted env) c
      end);
   let c := set_reqQueue (PacketQueue.set_waiting wait (reqQueue c)) c in
   if wait : bool then Ok c else when ← nextQueueReadyTime pr (env_nextPrefetch env) c; schedMemSideSendEvent t when c) = Ok c' →
  Good c' H ∧ became c H (entry_events (env_outcome env) c e) c' H ∧ (pending c' → awake c').
Proof.
  intros HG Ht Henv He Ha. apply bind_Ok in Ha as ([wait c2] & Hs & Hf).
  destruct (send_entry _ _ _ _ _ _ _ HG Ht Henv He Hs) as [HG2 Hb].
  destruct (finish_send _ _ _ _ _ _ HG2 Hf) as (HG' & Hh & Ho & Hp). split; [done|]. split; [|done]. by eapply became_end.
Qed.

Lemma sendDeferredPacket_step t env c H c' : Good c H → good_time t → good_environment t env →
  sendDeferredPacket pr t env c = Ok c' → Good c' H ∧ became c H (sends pr t env c) c' H ∧ (pending c' → awake c').
Proof.
  intros HG Ht Henv Ha. unfold sendDeferredPacket in Ha. apply bind_Ok in Ha as (u & Hu & Ha). apply bind_Ok in Ha as (u' & _ & Ha).
  apply bind_Ok in Ha as ([e c1] & Hn & Ha). destruct (getNextQueueEntry_part _ _ _ _ _ _ HG Ht Hn) as [P1 He].
  pose proof (p_good _ _ _ _ _ _ _ P1) as HG1.
  assert (sends pr t env c = (match e with Some (e_mshr i) => if c_order c1 =? c_order c then [] else [(i, Accepted (c_order c))] | _ => [] end) ++
    (match env_snoop_conflict env with Some _ => [] | None => entry_events (env_outcome env) c1 e end)) as Hsends.
  { unfold sends. rewrite Hn. destruct e as [[i|i]|], (env_snoop_conflict env), (env_outcome env); done. }
  rewrite Hsends. destruct (env_snoop_conflict env) as [w|] eqn:Hcf, e as [e|].
  - destruct Henv as [Hw _]. rewrite Hcf in Hw. destruct (sched_part own univ reserve _ _ _ _ _ HG1 Ha) as (P2 & _ & Hg & _).
    split; [apply (p_good _ _ _ _ _ _ _ P2)|]. split; [|auto]. apply (part_became own univ reserve _ _ _ _ _ _ _ P1).
    apply (p_became _ _ _ _ _ _ _ P2).
  - destruct (act_step t env None c1 H c' HG1 Ht Henv He Ha) as (HG' & Hb & Hp). split; [done|]. split; [|done].
    by eapply part_became.
  - destruct (act_step t env (Some e) c1 H c' HG1 Ht Henv He Ha) as (HG' & Hb & Hp). split; [done|]. split; [|done].
    by eapply part_became.
  - destruct (act_step t env None c1 H c' HG1 Ht Henv He Ha) as (HG' & Hb & Hp). split; [done|]. split; [|done].
    by eapply part_became.
Qed.

End Cache_.
End CacheSteps.
