(* ===== verification/CacheRuns.v ===== *)
(** * mem/cache/base, mem/cache/cache: requests, responses and snoops keep the invariant *)

From Stdlib Require Import ZArith Lia.
From stdpp Require Import base numbers option list gmap.
From S2P Require Import Prelude Packet PacketQueue MSHR MSHRQueue CacheQueues MSHRCore MSHROps MSHRMachine MSHRMoves MSHRFile CacheSystem CacheInv CacheSteps.

Module CacheEvents.
Import Packet MSHR MSHRQueue CacheQueues MSHRLemmas MSHRCore MSHROps MSHRQueueLemmas MSHRMachine MSHRMoves MSHRFile
  CacheSystem CacheInv CacheSteps.

Section Cache_.
Context (pr : Params) (own univ : list nat) (reserve : Z).

#[local] Abbreviation Good := (Good own univ reserve).
#[local] Abbreviation part := (part own univ reserve).
#[local] Abbreviation became := (became own).

(** A part of an event that leaves something to send only with something to send it. *)
Record live (c : Cache) (H : gset nat) (es : list (nat * event)) (c' : Cache) : Prop := {
  v_part : part c H es c';
  v_live : (pending c → awake c) → pending c' → awake c'
}.

Lemma live_trans c H es1 c1 es2 c2 : live c H es1 c1 → live c1 H es2 c2 → live c H (es1 ++ es2) c2.
Proof. intros [P1 L1] [P2 L2]. constructor; [by eapply part_trans|auto]. Qed.

Lemma live_nil c H c1 es c2 : live c H es c1 → live c1 H [] c2 → live c H es c2.
Proof. intros H1 H2. pose proof (live_trans _ _ _ _ _ _ H1 H2) as H3. by rewrite app_nil_r in H3. Qed.

Lemma live_refl c H : Good c H → live c H [] c.
Proof. intros HG. constructor; [by apply part_refl|done]. Qed.

Lemma writeBuffer_live t p time c H c' : Good c H → time < MaxTick → allocateWriteBuffer pr t p time c = Ok c' → live c H [] c'.
Proof.
  intros HG Ht Ha. destruct (allocateWriteBuffer_part pr own univ reserve _ _ _ _ _ _ HG Ha Ht) as (P & Haw & _). by constructor.
Qed.

Lemma missBuffer_live t p time c H i c' : Good c H → time < MaxTick → allocateMissBuffer pr t p time true c = Ok (i, c') →
  live c H [(i, Accepted (c_order c))] c' ∧ head (freeList (mshrQueue c)) = Some i.
Proof.
  intros HG Ht Ha. destruct (allocateMissBuffer_part pr own univ reserve _ _ _ _ _ _ _ _ HG Ha Ht) as (P & Hf & _ & _ & _ & Haw & _).
  split; [|done]. constructor; [done|auto].
Qed.

(** ** Requests *)

Lemma allocateTarget_live t m p ft a c H h (full : bool) c' : Good c H → ft < MaxTick → m ∈ allocatedList (mshrQueue c) →
  allocateTarget t m p ft (c_order c) a (heap c) = Ok h →
  (if full then setBlocked Blocked_NoTargets (set_noTarget (Some m) (incr_order (set_heap h c))) else Ok (incr_order (set_heap h c))) = Ok c' →
  live c H [(m, Accepted (c_order c))] c'.
Proof.
  intros HG Ht Hm Ha Hb.
  destruct (allocateTarget_inv _ _ _ _ _ _ _ _ _ _ _ (g_mshrs _ _ _ _ _ HG) Hm Ha Ht) as (HM & He & Hk & Hle & K & HK & Hcpu).
  set (c1 := incr_order (set_heap h c)) in *.
  assert (no_target c1) as Hnt.
  { eapply kept_no_target; [apply (g_noTarget _ _ _ _ _ HG)|done|]. simpl. eapply cpu_stays_kept; [|done].
    intros j Kj Hj HKj Hc. destruct (decide (j = m)) as [->|Hne]; [by exists K|].
    destruct (He j Kj) as (K' & HK' & _); [by eapply MInv_own; [apply (g_mshrs _ _ _ _ _ HG)|]|done|].
    exists Kj. split; [|done]. apply allocateTarget_frame in Ha as (_ & _ & Hf). by rewrite Hf. }
  assert (∀ n, no_target (set_noTarget n c1) → Entries own univ reserve (set_noTarget n c1) H) as HE.
  { intros n Hn. constructor; simpl; [done|apply (g_held _ _ _ _ _ HG)|apply (g_writes _ _ _ _ _ HG)|done]. }
  assert (Good c' H ∧ heap c' = h ∧ c_order c' = c_order c + 1 ∧ reqQueue c' = reqQueue c ∧ mshrQueue c' = mshrQueue c ∧ writeBuffer c' = writeBuffer c)
    as (HG' & Hh & Ho & Hr & Hq & Hw).
  { destruct full.
    - eapply (setBlocked_bits _ (isFull (mshrQueue c)) (isFull (writeBuffer c)) (bool_decide (noTargetMSHR c ≠ None)) (isFull (mshrQueue c)) (isFull (writeBuffer c)) true)
        in Hb as (Hsb & Hrq & Hbits); [| | |by rewrite orb_true_r].
      + split; [|destruct Hsb as (-> & -> & _ & -> & -> & _); done].
        eapply (good_intro _ _ _ c (set_noTarget (Some m) c1)); [|done|done| |apply (g_list _ _ _ _ _ HG)].
        * apply HE. intros m0 [= <-]. split; [done|]. by exists K.
        * exact Hbits.
      + eapply Bits_ext; [apply (g_bits _ _ _ _ _ HG)|done|done|done|done].
      + by destruct (isFull (mshrQueue c)), (isFull (writeBuffer c)), (bool_decide (noTargetMSHR c ≠ None)).
    - injection Hb as <-. split; [|done].
      eapply (good_intro _ _ _ c c1); [|done|done| |apply (g_list _ _ _ _ _ HG)].
      + by apply (HE (noTargetMSHR c1)).
      + eapply Bits_ext; [apply (g_bits _ _ _ _ _ HG)|done|done|done|done]. }
  constructor.
  - constructor; [done|unfold CacheInv.became; by rewrite Hh, Ho|by rewrite Hh].
  - intros HL. unfold pending, awake in *. by rewrite Hq, Hw, Hr.
Qed.

Lemma handleTimingReqMiss_live t p k m ft c H c' : Good c H → ft < MaxTick → packets (heap c) !! p = Some k →
  (∀ i, m = Some i → i ∈ allocatedList (mshrQueue c)) → handleTimingReqMiss pr t p m ft c = Ok c' →
  live c H (match m with
            | Some m => if bool_decide (cmd k = CleanEvict) || bool_decide (cmd k = WriteClean) then [] else [(m, Accepted (c_order c))]
            | None => if isEviction (cmd k) || bool_decide (cmd k = WriteClean) then []
                      else match head (freeList (mshrQueue c)) with Some i => [(i, Accepted (c_order c))] | None => [] end
            end) c'.
Proof.
  intros HG Ht Hk Hm Ha. unfold handleTimingReqMiss in Ha. apply bind_Ok in Ha as (k0 & Hk0 & Ha). heap_inv.
  assert (k0 = k) as -> by congruence. destruct m as [m|].
  - apply bind_Ok in Ha as (u & _ & Ha). case_bool_decide; [injection Ha as <-; by apply live_refl|].
    case_bool_decide; [by eapply writeBuffer_live|]. apply bind_Ok in Ha as (h & Hal & Ha). apply bind_Ok in Ha as (x & _ & Ha).
    by eapply allocateTarget_live; [done|done|by apply Hm|done|].
  - destruct (isEviction (cmd k) || _); [by eapply writeBuffer_live|]. apply bind_Ok in Ha as ([i c1] & Hal & Ha). injection Ha as <-.
    destruct (missBuffer_live _ _ _ _ _ _ _ HG Ht Hal) as [P Hf]. by rewrite Hf.
Qed.

Lemma miss_live t p k ft c H c' : Good c H → ft < MaxTick → packets (heap c) !! p = Some k →
  cache_handleTimingReqMiss pr t p ft c = Ok c' → live c H (accepts pr p c) c'.
Proof.
  intros HG Ht Hk Ha. unfold cache_handleTimingReqMiss in Ha. apply bind_Ok in Ha as (k0 & Hk0 & Ha). heap_inv.
  assert (k0 = k) as -> by congruence. apply bind_Ok in Ha as (u & _ & Ha). unfold accepts, destination. rewrite Hk.
  destruct (isUncacheable (req k)).
  - destruct (isWrite (cmd k)); [by eapply writeBuffer_live|]. apply bind_Ok in Ha as (u' & _ & Ha).
    apply bind_Ok in Ha as ([i c1] & Hal & Ha). injection Ha as <-. destruct (missBuffer_live _ _ _ _ _ _ _ HG Ht Hal) as [P Hf]. by rewrite Hf.
  - apply bind_Ok in Ha as (a & Hadr & Ha). apply bind_Ok in Ha as (sec & Hsec & Ha). apply bind_Ok in Ha as (m & Hm & Ha).
    rewrite Hadr, Hsec, Hm. eapply handleTimingReqMiss_live in Ha; [|done|done|done|].
    + destruct m as [m|]; [by destruct (_ || _)|]. by destruct (_ || _), (head (freeList (mshrQueue c))).
    + intros i ->. exact (findMatch_in _ _ _ _ _ _ Hm).
Qed.

(** ** Locked sequences *)

Lemma heap_part c H h : Good c H → outside own (heap c) h (mshrQueue c) → part c H [] (set_heap h c).
Proof.
  intros HG Ho. destruct (outside_inv own (c_order c) (c_order c) (heap c) h (mshrQueue c) H) as (HM & He & Hk);
    [apply (g_mshrs _ _ _ _ _ HG)|done|lia|].
  apply (misses_part _ _ _ c H [] h (mshrQueue c)); try done; [apply (g_held _ _ _ _ _ HG)|].
  intros j K Hj HK Hc. split; [done|]. exists K. destruct Ho as [Ho _]. rewrite Ho; [done|].
  by eapply MInv_own; [apply (g_mshrs _ _ _ _ _ HG)|].
Qed.

Lemma heap_live c H h : Good c H → outside own (heap c) h (mshrQueue c) → live c H [] (set_heap h c).
Proof. intros HG Ho. constructor; [by apply heap_part|done]. Qed.

Lemma H_own c H m : Good c H → m ∈ H → m ∈ own.
Proof. intros HG Hm. eapply MInv_own; [apply (g_mshrs _ _ _ _ _ HG)|]. by apply (g_held _ _ _ _ _ HG). Qed.

Lemma lockedReadHit_step t p c H c' i : Good c H → t < MaxTick → lockedReadHit pr t p c = Ok c' →
  head (freeList (mshrQueue c)) = Some i →
  Good c' ({[i]} ∪ H) ∧ became c H [(i, Accepted (c_order c)); (i, Answered [c_order c])] c' ({[i]} ∪ H) ∧
  ((pending c → awake c) → pending c' → awake c').
Proof.
  intros HG Ht Ha Hi. unfold lockedReadHit in Ha. apply bind_Ok in Ha as (k & Hk & Ha). apply bind_Ok in Ha as (a & _ & Ha).
  apply bind_Ok in Ha as (sec & _ & Ha). apply bind_Ok in Ha as (m & _ & Ha). apply bind_Ok in Ha as (u & _ & Ha).
  apply bind_Ok in Ha as (k2 & _ & Ha). simpl in Ha. apply bind_Ok in Ha as ([j c2] & Hal & Ha). apply bind_Ok in Ha as ([h q] & Hm & Ha).
  injection Ha as <-. set (c1 := set_heap _ c) in Hal.
  assert (part c H [] c1) as P1. { apply heap_part; [done|]. apply same_cores_outside; [done|]. apply pk_le_alloc. }
  pose proof (p_good _ _ _ _ _ _ _ P1) as HG1.
  destruct (allocateMissBuffer_part pr own univ reserve _ _ _ _ _ _ _ _ HG1 Hal Ht) as (P2 & Hf & Ho & Hin & _ & Haw & _ & K & v & HK & Hs & Hv & Hq & Hvo).
  simpl in Hf. rewrite Hi in Hf. injection Hf as ->. pose proof (p_good _ _ _ _ _ _ _ P2) as HG2.
  pose proof (part_trans _ _ _ _ _ _ _ _ _ P1 P2) as P12. simpl in P12.
  destruct (mq_markInService_inv _ _ _ _ _ _ _ _ _ (g_mshrs _ _ _ _ _ HG2) Hin Hm) as (HM & He & Hks & Hle & Hal' & Hcnt & Hoth & K1 & K2 & HK1 & HK2 & Hs2 & Htg & Hall).
  assert (K1 = K) as -> by congruence.
  destruct (MInv_sizes _ _ _ _ _ _ _ _ _ (g_mshrs _ _ _ _ _ HG2) HM) as [Hz1 Hz2].
  assert (part c2 H [] (set_misses h q c2)) as P3.
  { apply misses_part; try done; [rewrite Hal'; apply (g_held _ _ _ _ _ HG2)| |by apply isFull_eq].
    intros x Kx Hx HKx Hc. rewrite Hal'. split; [done|]. destruct (decide (x = j)) as [->|Hne]; [|exists Kx; by rewrite Hoth].
    exists K2. split; [done|]. destruct Hc as (w & Hw & Hc). exists w. rewrite Hall. assert (Kx = K) as -> by congruence. done. }
  pose proof (part_trans _ _ _ _ _ _ _ _ _ P12 P3) as P123. simpl in P123. pose proof (p_good _ _ _ _ _ _ _ P3) as HG3.
  assert (j ∉ H) as Hnj.
  { eapply (not_held_service own); [apply (g_mshrs _ _ _ _ _ HG2)|apply (g_held _ _ _ _ _ HG2)|]. unfold svc. rewrite HK. simpl. by rewrite Hs. }
  destruct (hold_inv _ _ _ _ _ j K2 v HM) as [HM' He']; try done; [by rewrite Hal'|by rewrite Htg|].
  split; [|split].
  - constructor; [|apply (g_bits _ _ _ _ _ HG3)|apply (g_list _ _ _ _ _ HG3)].
    constructor; [exact HM'| |apply (g_writes _ _ _ _ _ HG3)|apply (g_noTarget _ _ _ _ _ HG3)].
    intros x Hx. apply elem_of_union in Hx as [Hx|Hx]; [apply elem_of_singleton in Hx as ->; simpl; by rewrite Hal'|].
    by apply (g_held _ _ _ _ _ HG3).
  - apply (part_became own univ reserve c H [(j, Accepted (c_order c))] (set_misses h q c2) [(j, Answered [c_order c])]); [done|].
    simpl in Hvo. rewrite Hvo in He'. exact He'.
  - intros _ _. specialize (Haw eq_refl). exact Haw.
Qed.

(** ** Responses *)

Lemma clear_noTarget_good t m c H c1 : Good c H →
  (if decide (noTargetMSHR c = Some m) then c ← clearBlocked t Blocked_NoTargets c; Ok (set_noTarget None c) else Ok c) = Ok c1 →
  Good c1 H ∧ heap c1 = heap c ∧ mshrQueue c1 = mshrQueue c ∧ writeBuffer c1 = writeBuffer c ∧ c_order c1 = c_order c ∧
  reqQueue c1 = reqQueue c ∧ noTargetMSHR c1 ≠ Some m.
Proof.
  intros HG Ha. destruct (decide _) as [Hn|Hn]; [|by injection Ha as <-].
  apply bind_Ok in Ha as (c2 & Hc & Ha). injection Ha as <-.
  eapply (clearBlocked_bits t _ (isFull (mshrQueue c)) (isFull (writeBuffer c)) true (isFull (mshrQueue c)) (isFull (writeBuffer c)) false) in Hc
    as (Hsb & Hrq & Hbits).
  - pose proof Hsb as (B1 & B2 & B3 & B4 & B5 & B6). split; [|done].
    apply (good_intro _ _ _ c (set_noTarget None c2)); [|done|done| |apply (g_list _ _ _ _ _ HG)].
    + pose proof (same_body_entries _ _ _ _ _ _ (g_entries _ _ _ _ _ HG) Hsb) as HE. destruct HE as [E1 E2 E3 E4]. by constructor.
    + simpl. rewrite B2, B4. eapply Bits_ext; [exact Hbits|done|done|done|done].
  - pose proof (g_bits _ _ _ _ _ HG) as Hb. unfold bits_of in Hb. rewrite Hn in Hb. exact Hb.
  - by destruct (isFull (mshrQueue c)), (isFull (writeBuffer c)).
  - by rewrite orb_true_r.
Qed.

Lemma frame_no_target c m h q : no_target c → noTargetMSHR c ≠ Some m → frame m (heap c) h →
  (∀ j, j ∈ allocatedList (mshrQueue c) → j ≠ m → j ∈ allocatedList q) → no_target (set_misses h q c).
Proof.
  intros Hn Hm (_ & _ & Hf) Hq j Hj. simpl in Hj. assert (j ≠ m) by (intros ->; done).
  destruct (Hn j Hj) as (Ha & K & HK & Hc). split; [by apply Hq|]. exists K. simpl. by rewrite Hf.
Qed.

(** The MSHRs after a response, with the processor's lock as it then is. *)
Lemma response_good c H m os fr h q c' : Good c H → m ∈ own → noTargetMSHR c ≠ Some m → frame m (heap c) h →
  MInv own (c_order c) h q (held_after H m os fr) → (∀ j, j ∈ allocatedList (mshrQueue c) → j ≠ m → j ∈ allocatedList q) →
  same_body (set_misses h q c) c' → reqQueue c' = reqQueue c →
  Bits (isFull q) (isFull (writeBuffer c)) (bool_decide (noTargetMSHR c ≠ None)) c' → Good c' (held_after H m os fr).
Proof.
  intros HG Hm Hn Hf HM Hq Hsb Hr Hb.
  eapply (good_intro _ _ _ c (set_misses h q c)); [|done|done|exact Hb|apply (g_list _ _ _ _ _ HG)].
  constructor; simpl; [done| |apply (g_writes _ _ _ _ _ HG)|].
  - intros j Hj. eapply held_allocated; [exact HM| |done]. intros x. apply held_after_own; [|done]. intros y Hy. by eapply H_own.
  - eapply frame_no_target; [apply (g_noTarget _ _ _ _ _ HG)|done|done|done].
Qed.

Lemma recvTimingResp_step t m k readable writable ts next_pf c H l c' : Good c H → good_time t → good_time ts →
  m ∈ allocatedList (mshrQueue c) → svc (heap c) m = Some true → (m ∈ H ↔ cmd k = LockedRMWWriteResp) →
  recvTimingResp pr t m k readable writable true ts next_pf c = Ok (l, c') →
  let os := served (list_of l) in let H' := held_after H m os (in_targets m c') in
  Good c' H' ∧ became c H [(m, Answered os)] c' H' ∧ ((pending c → awake c) → pending c' → awake c').
Proof.
  intros HG Ht Hts Hm Hsv Hlk Ha os H'. unfold recvTimingResp in Ha. apply bind_Ok in Ha as (u & _ & Ha).
  apply bind_Ok in Ha as (c1 & Hc1 & Ha). destruct (clear_noTarget_good _ _ _ _ _ HG Hc1) as (HG1 & Hh1 & Hq1 & Hw1 & Ho1 & Hr1 & Hnt).
  apply bind_Ok in Ha as (x & Hx & Ha). apply bind_Ok in Ha as (lk & Hlx & Ha). apply bind_Ok in Ha as (h1 & Hp & Ha).
  apply bind_Ok in Ha as ([l0 h2] & Hs & Ha).
  assert (respond m k readable writable (heap c1) = Ok (l0, h2)) as Hresp.
  { unfold respond. rewrite Hx. simpl. rewrite Hlx. simpl. unfold mbind in Hp |- *. rewrite Hp. simpl. exact Hs. }
  apply bind_Ok in Ha as (x2 & Hx2 & Ha). apply bind_Ok in Ha as (lk2 & Hlk2 & Ha). heap_inv. simpl in Hx2.
  pose proof (g_mshrs _ _ _ _ _ HG1) as HM1. pose proof (MInv_own _ _ _ _ _ _ (g_mshrs _ _ _ _ _ HG) Hm) as Hmo.
  rewrite <-Hq1 in Hm. rewrite <-Hh1 in Hsv.
  destruct lk2.
  - injection Ha as -> <-. destruct (respond_stays own _ _ _ _ _ _ HM1 Hm Hsv Hlk _ _ _ _ _ Hresp Hx2 Hlk2) as (HM & He & Hf).
    assert (in_targets m (set_heap h2 c1) = orders (views (list_of (targets x2)))) as Hin by (unfold in_targets; simpl; by rewrite Hx2).
    unfold H'. rewrite Hin. split; [|split].
    + eapply (response_good c1 H m _ _ h2 (mshrQueue c1)); try done. eapply Bits_ext; [apply (g_bits _ _ _ _ _ HG1)|done|done|done|done].
    + unfold CacheInv.became. simpl. rewrite <-Hh1, <-Ho1. exact He.
    + unfold pending, awake. simpl. by rewrite Hq1, Hw1, Hr1.
  - apply bind_Ok in Ha as ([more h3] & Hpd & Ha). simpl in Hpd. destruct more.
    + apply bind_Ok in Ha as ([h' q'] & Hmp & Ha). simpl in Hmp. apply bind_Ok in Ha as (c3 & Hsc & Ha). injection Ha as -> <-.
      destruct (respond_again own _ _ _ _ _ _ HM1 Hm Hsv Hlk _ _ _ _ _ _ _ _ _ Hresp Hx2 Hlk2 Hpd Hmp Ht)
        as (fr & (x' & Hx' & Hfr) & HM & He & Hf & Hal & Hcnt & Hrl).
      destruct (MInv_sizes _ _ _ _ _ _ _ _ _ HM1 HM) as [Hz1 Hz2].
      set (c2 := set_misses h' q' c1) in *.
      assert (Good c2 (held_after H m os fr)) as HG2.
      { eapply (response_good c1 H m os fr h' q'); try done; [by rewrite Hal|].
        rewrite (isFull_eq (mshrQueue c1) q') by done. eapply Bits_ext; [apply (g_bits _ _ _ _ _ HG1)|done|done|done|done]. }
      destruct (sched_part own univ reserve _ _ _ _ _ HG2 Hsc) as (P & _ & Hg & Hsb). pose proof Hsb as (B1 & _ & _ & _ & B5 & _).
      assert (in_targets m c3 = fr) as Hin by (unfold in_targets; rewrite B1; simpl; by rewrite Hx').
      unfold H'. rewrite Hin. split; [apply (p_good _ _ _ _ _ _ _ P)|]. split; [|auto].
      unfold CacheInv.became. rewrite B1, B5, <-Hh1, <-Ho1. exact He.
    + apply bind_Ok in Ha as ([h' q'] & Hmp & Ha). simpl in Hmp. apply bind_Ok in Ha as (c3 & Hcl & Ha). apply bind_Ok in Ha as (c4 & Hsc & Ha).
      injection Ha as -> <-.
      destruct (respond_done own _ _ _ _ _ _ HM1 Hm Hsv Hlk _ _ _ _ _ _ _ _ _ Hresp Hx2 Hlk2 Hpd Hmp)
        as (fr & (x' & Hx' & Hfr) & HM & He & Hf & Hal & Hcnt).
      destruct (MInv_sizes _ _ _ _ _ _ _ _ _ HM1 HM) as [Hz1 Hz2].
      set (c2 := set_misses h' q' c1) in *.
      apply (unblock_mshrs t _ (isFull (writeBuffer c1)) (bool_decide (noTargetMSHR c1 ≠ None))) in Hcl as (Hsb & Hrq & Hbits).
      2: { eapply Bits_ext; [apply (g_bits _ _ _ _ _ HG1)|done|done|done|done]. }
      2: { by apply isFull_shrinks. }
      assert (Good c3 (held_after H m os fr)) as HG2.
      { eapply (response_good c1 H m os fr h' q'); try done. intros j Hj Hne. by apply Hal. }
      assert (same_body c3 c4 ∧ Good c4 (held_after H m os fr) ∧ (awake c3 → awake c4)) as (Hsb2 & HG4 & Haw).
      { destruct next_pf as [w|]; [|by injection Hsc as <-]. destruct (canPrefetch (demandReserve pr) (mshrQueue c3) && negb (isBlocked c3)); [|by injection Hsc as <-].
        destruct (sched_part own univ reserve _ _ _ _ _ HG2 Hsc) as (P & Haw & _ & Hsb2). split; [done|]. split; [apply (p_good _ _ _ _ _ _ _ P)|done]. }
      assert (same_body c2 c4) as (B1 & B2 & _ & B4 & B5 & _) by (by transitivity c3).
      assert (in_targets m c4 = fr) as Hin by (unfold in_targets; rewrite B1; simpl; by rewrite Hx').
      unfold H'. rewrite Hin. split; [done|]. split; [unfold CacheInv.became; rewrite B1, B5, <-Hh1, <-Ho1; exact He|].
      intros HL Hpe. apply Haw. unfold awake in *. rewrite Hrq. simpl. rewrite Hr1. apply HL.
      unfold pending in *. rewrite B2, B4 in Hpe. simpl in Hpe. rewrite Hw1 in Hpe. destruct Hpe as [Hpe|Hpe]; [left|by right].
      destruct (readyList q') as [|j rl] eqn:Hrl; [done|]. intros Hnil.
      assert (j ∈ readyList (mshrQueue c1)) as Hj.
      { assert (j ∈ readyList q') as Hj' by (rewrite Hrl; by left). apply (l_ready _ _ _ (i_lists _ _ _ _ _ HM)) in Hj' as [Hja Hjs].
        apply Hal in Hja as [Hja Hjm]. apply (l_ready _ _ _ (i_lists _ _ _ _ _ HM1)). split; [done|].
        rewrite <-Hjs. symmetry. by eapply svc_other. }
      rewrite Hq1, Hnil in Hj. by apply not_elem_of_nil in Hj.
Qed.

(** ** Snoops *)

Lemma set_flags_outside h q p k k' : packets h !! p = Some k → cmd k' = cmd k → outside own h (set_packet p k' h) q.
Proof. intros Hp Hc. apply same_cores_outside; [done|]. eapply pk_le_set; [done|]. by left. Qed.

Lemma setCacheResponding_cmd k k' : setCacheResponding k = Ok k' → cmd k' = cmd k.
Proof. unfold setCacheResponding. intros H. repeat (apply bind_Ok in H as (? & _ & H)). by injection H as <-. Qed.

Lemma setResponderHadWritable_cmd k k' : setResponderHadWritable k = Ok k' → cmd k' = cmd k.
Proof. unfold setResponderHadWritable. intros H. repeat (apply bind_Ok in H as (? & _ & H)). by injection H as <-. Qed.

Lemma handleSnoop_live t p k m b c H h : Good c H → good_time t → packets (heap c) !! p = Some k → snoop_packet k →
  m ∈ allocatedList (mshrQueue c) → handleSnoop t m p (c_order c) (heap c) = Ok (b, h) → live c H [] (incr_order (set_heap h c)).
Proof.
  intros HG Ht Hk Hs Hm Ha.
  destruct (handleSnoop_inv _ _ _ _ _ _ _ _ _ _ _ _ (g_mshrs _ _ _ _ _ HG) Hm Hk Ha Hs Ht) as (HM & He & Hks & Hle & Hcs).
  constructor; [|done]. constructor; [|exact He|exact Hks].
  constructor; [|eapply Bits_ext; [apply (g_bits _ _ _ _ _ HG)|done|done|done|done]|apply (g_list _ _ _ _ _ HG)].
  constructor; simpl; [done|apply (g_held _ _ _ _ _ HG)|apply (g_writes _ _ _ _ _ HG)|].
  eapply kept_no_target; [apply (g_noTarget _ _ _ _ _ HG)|done|]. by apply cpu_stays_kept.
Qed.

Lemma nonempty_sub (a b : list nat) : (∀ j, j ∈ a → j ∈ b) → a ≠ [] → b ≠ [].
Proof. intros H Ha ->. destruct a as [|j a]; [done|]. assert (j ∈ []) as Hj by (apply H; by left). by apply not_elem_of_nil in Hj. Qed.

Lemma write_live t i c H c' : Good c H → markInService_write t i c = Ok c' → live c H [] c'.
Proof.
  intros HG Ha. destruct (markInService_write_part own univ reserve _ _ _ _ _ HG Ha) as (P & Haw & Hh & Hq & Hsub). constructor; [done|].
  intros HL Hp. apply Haw, HL. unfold pending in *. rewrite Hq in Hp. destruct Hp as [Hp|Hp]; [by left|right]. by eapply nonempty_sub.
Qed.

Lemma recvTimingSnoopReq_live t p k b c H c' : Good c H → good_time t → packets (heap c) !! p = Some k → snoop_packet k →
  recvTimingSnoopReq pr t p c = Ok (b, c') → live c H [] c'.
Proof.
  intros HG Ht Hk Hs Ha. unfold recvTimingSnoopReq in Ha. apply bind_Ok in Ha as (k0 & Hk0 & Ha). heap_inv. assert (k0 = k) as -> by congruence.
  apply bind_Ok in Ha as (a & _ & Ha). apply bind_Ok in Ha as (sec & _ & Ha). apply bind_Ok in Ha as (m & Hm & Ha).
  destruct (bool_decide (m ≠ None) && mustCheckAbove k).
  { injection Ha as <- <-. apply heap_live; [done|]. by eapply set_flags_outside. }
  apply bind_Ok in Ha as ([d c1] & Hd & Ha).
  assert (live c H [] c1 ∧ (pk_le (heap c) (heap c1))) as [L1 Hle].
  { destruct m as [m|]; [|injection Hd as <- <-; split; [by apply live_refl|done]].
    apply bind_Ok in Hd as ([d0 h] & Hsn & Hd). injection Hd as <- <-.
    assert (m ∈ allocatedList (mshrQueue c)) as Hma by exact (findMatch_in _ _ _ _ _ _ Hm).
    split; [by eapply handleSnoop_live|]. simpl. by eapply handleSnoop_spec. }
  pose proof (p_good _ _ _ _ _ _ _ (v_part _ _ _ _ L1)) as HG1. destruct d; [by injection Ha as <- <-|].
  apply bind_Ok in Ha as (w & Hw & Ha). destruct w as [w|]; [|by injection Ha as <- <-].
  apply bind_Ok in Ha as (e & He & Ha). apply bind_Ok in Ha as (u1 & _ & Ha). apply bind_Ok in Ha as (u2 & _ & Ha).
  apply bind_Ok in Ha as (t0 & Ht0 & Ha). apply bind_Ok in Ha as (wb & Hwb & Ha). apply bind_Ok in Ha as (u3 & _ & Ha).
  apply bind_Ok in Ha as (k1 & Hk1 & Ha). heap_inv. destruct (isEviction (cmd k1)).
  { injection Ha as <- <-. eapply live_nil; [exact L1|]. apply heap_live; [done|]. by eapply set_flags_outside. }
  apply bind_Ok in Ha as ([k2 wb'] & Hs2 & Ha). apply bind_Ok in Ha as (k3 & Hs3 & Ha). apply bind_Ok in Ha as (c2 & Hc2 & Ha).
  injection Ha as <- <-. assert (cmd k2 = cmd k1 ∧ cmd wb' = cmd wb) as [Hc Hcw].
  { destruct (negb (isUncacheable (req k1)) && isRead (cmd k1) && negb (isInvalidate (cmd k1))); [|by injection Hs2 as <- <-].
    apply bind_Ok in Hs2 as (nw & _ & Hs2). apply bind_Ok in Hs2 as (u & _ & Hs2). by injection Hs2 as <- <-. }
  assert (cmd k3 = cmd k1) as Hc3.
  { rewrite <-Hc. destruct (bool_decide (cmd wb = WritebackDirty) && needsResponse (cmd k1)); [|by injection Hs3 as <-].
    apply bind_Ok in Hs3 as (k4 & Hk4 & Hs3). apply setCacheResponding_cmd in Hk4 as <-.
    destruct (negb (hasSharers wb)); [by apply setResponderHadWritable_cmd|by injection Hs3 as <-]. }
  eapply live_nil; [exact L1|].
  assert (live c1 H [] (set_heap (set_packet (w_pkt t0) wb' (set_packet p k3 (heap c1))) c1)) as L2.
  { apply heap_live; [done|]. apply same_cores_outside; [done|]. transitivity (set_packet p k3 (heap c1)).
    - eapply pk_le_set; [eassumption|]. by left.
    - destruct (decide (w_pkt t0 = p)) as [He0|Hn].
      + eapply (pk_le_set _ _ k3); [|left; congruence]. simpl. rewrite He0. apply list_lookup_insert_eq. by eapply lookup_lt_Some.
      + eapply pk_le_set; [simpl; rewrite list_lookup_insert_ne by done; eassumption|]. by left. }
  destruct (isInvalidate (cmd k1) && negb (bool_decide (cmd wb' = WriteClean))); [|by injection Hc2 as <-].
  eapply live_nil; [exact L2|]. eapply write_live; [apply (p_good _ _ _ _ _ _ _ (v_part _ _ _ _ L2))|exact Hc2].
Qed.


End Cache_.
End CacheEvents.

(** * mem/cache: what holds of every state that a cache reaches

    Each step keeps [Inv] and takes every MSHR along a chain; a run from a new cache is then
    a chain for every MSHR, and its states satisfy [Inv]. *)

Module CacheRuns.
Import Packet MSHR MSHRQueue CacheQueues MSHRLemmas MSHRCore MSHROps MSHRQueueLemmas MSHRMachine MSHRMoves MSHRFile
  CacheSystem CacheInv CacheSteps CacheEvents.

Section Cache_.
Context (pr : Params) (own univ : list nat) (reserve : Z).

#[local] Abbreviation Good := (Good own univ reserve).
#[local] Abbreviation part := (part own univ reserve).
#[local] Abbreviation became := (became own).
#[local] Abbreviation Inv := (Inv own univ reserve).
#[local] Abbreviation step := (step pr own).
#[local] Abbreviation run := (run pr own).

(** ** Steps *)

Definition keeps (s : System) (es : list (nat * event)) (s' : System) : Prop :=
  Inv s' ∧ became (cache s) (held s) es (cache s') (held s').

Lemma live_keeps c H es c' : (pending c → awake c) → live own univ reserve c H es c' → keeps (mkSystem c H) es (mkSystem c' H).
Proof. intros HL [P L]. split; [|apply (p_became _ _ _ _ _ _ _ P)]. split; [apply (p_good _ _ _ _ _ _ _ P)|auto]. Qed.

(** Steps that only change the port. *)
Lemma port_keeps c H c' : Inv (mkSystem c H) → same_body c c' → reqQueue c' = reqQueue c → blocked c' = blocked c →
  port_blocked c' = port_blocked c →
  (sendRetryEvent c' ≠ None → mustSendRetry c' = true ∧ port_blocked c' = false) →
  (mustSendRetry c' = true → port_blocked c' = true ∨ sendRetryEvent c' ≠ None) → live own univ reserve c H [] c'.
Proof.
  intros [HG HL] Hs Hq Hb Hp He Hr. simpl in *. destruct Hs as (Sh & Sm & Se & Sw & So & Sn).
  assert (Good c' H) as HG'.
  { eapply (good_intro _ _ _ c c); [apply HG|by unfold same_body|done| |apply (g_list _ _ _ _ _ HG)].
    destruct (g_bits _ _ _ _ _ HG) as [Bb Bp Be Br]. constructor; try done; congruence. }
  constructor.
  - apply part_same; [done|done|done|lia].
  - unfold pending, awake. by rewrite Sm, Sw, Hq.
Qed.

Lemma accepted_same k c c1 : tryTiming k c = (true, c1) → isExpressSnoop k = false → c1 = set_port false false (sendRetryEvent c) c ∧
  port_blocked c = false ∧ mustSendRetry c = false.
Proof.
  unfold tryTiming. intros H Hx. rewrite Hx in H. destruct (port_blocked c), (mustSendRetry c); simpl in H; try discriminate. by injection H as <-.
Qed.

Lemma accepted_live k c c1 H : Inv (mkSystem c H) → tryTiming k c = (true, c1) → isExpressSnoop k = false →
  live own univ reserve c H [] c1 ∧ heap c1 = heap c ∧ mshrQueue c1 = mshrQueue c ∧ c_order c1 = c_order c.
Proof.
  intros HI Ht Hx. destruct (accepted_same _ _ _ Ht Hx) as (-> & Hp & Hm). split; [|done].
  apply port_keeps; try done; simpl.
  destruct (g_bits _ _ _ _ _ (proj1 HI)) as [_ _ He _]. simpl in He. intros Hn. apply He in Hn as [Hn _]. congruence.
Qed.

Lemma refuse_live k c c' H : Inv (mkSystem c H) → tryTiming k c = (false, c') → live own univ reserve c H [] c'.
Proof.
  intros HI Ht. unfold tryTiming in Ht. destruct (isExpressSnoop k); [done|].
  destruct (g_bits _ _ _ _ _ (proj1 HI)) as [_ _ He Hr]. simpl in *.
  destruct (port_blocked c) eqn:Hp; [|destruct (mustSendRetry c) eqn:Hm; [|done]]; injection Ht as <-; apply port_keeps; try done; simpl.
  - intros Hn. apply He in Hn as [? Hn]. congruence.
  - by left.
Qed.

Lemma retry_live c H t : Inv (mkSystem c H) → sendRetryEvent c = Some t → live own univ reserve c H [] (processSendRetry c).
Proof. intros HI Ht. by apply port_keeps. Qed.

Lemma prefetch_live t w c H c' : Inv (mkSystem c H) → schedMemSideSendEvent t w c = Ok c' → live own univ reserve c H [] c'.
Proof.
  intros [HG HL] Ha. destruct (sched_part own univ reserve _ _ _ _ _ HG Ha) as (P & Haw & _ & Hx). simpl in *. constructor; [done|].
  intros HL1 Hp. apply Haw, HL. unfold pending in *. destruct Hx as (_ & Hm & _ & Hw & _). by rewrite <-Hm, <-Hw.
Qed.

Lemma request_keeps k c c1 c' H es H' : Inv (mkSystem c H) → tryTiming k c = (true, c1) → isExpressSnoop k = false →
  (Good c1 H → Good c' H' ∧ became c1 H es c' H' ∧ ((pending c1 → awake c1) → pending c' → awake c')) →
  keeps (mkSystem c H) es (mkSystem c' H').
Proof.
  intros HI Ht Hx Hs. destruct (accepted_live _ _ _ _ HI Ht Hx) as ([P L] & Hh & Hq & Ho).
  destruct (Hs (p_good _ _ _ _ _ _ _ P)) as (HG' & Hb & HL). split; [split; [done|]|].
  - apply HL, L, HI.
  - unfold CacheInv.became in *. simpl. by rewrite <-Hh, <-Ho.
Qed.

Lemma lockedWriteHit_step t p k fb ts next_pf c H l c' m a sec : Good c H → good_time t → good_time ts →
  packets (heap c) !! p = Some k → getBlockAddr k (p_blkSize pr) = Ok a → Packet.isSecure k = Ok sec →
  findMatch (mshrs (heap c)) a sec true (mshrQueue c) = Ok (Some m) → m ∈ H → fb = true →
  lockedWriteHit pr t p fb ts next_pf c = Ok (l, c') →
  let os := served (list_of l) in let H' := held_after H m os (in_targets m c') in
  Good c' H' ∧ became c H [(m, Answered os)] c' H' ∧ ((pending c → awake c) → pending c' → awake c').
Proof.
  intros HG Ht Hts Hk Hadr Hsec Hm HH -> Ha. unfold lockedWriteHit in Ha. apply bind_Ok in Ha as (k0 & Hk0 & Ha). heap_inv.
  assert (k0 = k) as -> by congruence. rewrite Hadr, Hsec in Ha. simpl in Ha. rewrite Hm in Ha. simpl in Ha.
  apply bind_Ok in Ha as (rk & Hrk & Ha). pose proof (g_held _ _ _ _ _ HG m HH) as Hma.
  destruct (i_waits _ _ _ _ _ (g_mshrs _ _ _ _ _ HG) m Hma) as (K & HK & HW).
  eapply recvTimingResp_step; [done|exact Ht|exact Hts|done| | |exact Ha].
  - unfold svc. rewrite HK. simpl. f_equal. eapply w_held; [exact HW|]. unfold is_held. by rewrite bool_decide_true.
  - split; [|done]. intros _. by apply Packet_new_cmd in Hrk.
Qed.

Lemma deferred_step t env q c H c' : Good c H → PacketQueue.transmitList q = [] → good_time t → good_environment t env →
  sendDeferredPacket pr t env (set_reqQueue q c) = Ok c' →
  Good c' H ∧ became c H (sends pr t env (set_reqQueue q c)) c' H ∧ (pending c' → awake c').
Proof.
  intros HG Hq Ht Henv Ha.
  exact (sendDeferredPacket_step pr own univ reserve t env _ H c' (reqQueue_good own univ reserve c H q HG Hq) Ht Henv Ha).
Qed.

(** ** Every step *)

Lemma step_keeps s es s' : step s es s' → Inv s → keeps s es s'.
Proof.
  intros Hs. destruct Hs as [t p k ft c c1 c' H Hk Ht Hx Hft Ha|t p k c c1 c' H i Hk Ht Hx Hc Htm Ha Hi
    |t p k ts next_pf c c1 c' H m a sec l Hk Ht Hx Hc Htm Hts Hadr Hsec Ha0 HmH Ha|t p time c c' H Ht Ha|t env c c' H Ht Henv Hev Ha
    |t env c c' H Ht Henv Ha|t m k readable writable ts next_pf c c' H l Ht Hts Hm Hsv HH Hlk Ha|t p k b c c' H Ht Hk Hsn Ha
    |h' c H Ho|k c c' H Ht|t c H Ht|t w c c' H Ha]; intros HI; pose proof HI as [HG HL]; cbn [cache held] in HG, HL.
  - destruct (accepted_live _ _ _ _ HI Ht Hx) as (_ & Hh & Hq & Ho). eapply request_keeps; [done|done|done|]. intros HG1.
    assert (accepts pr p c = accepts pr p c1) as -> by (unfold accepts, destination; by rewrite Hh, Hq, Ho).
    destruct (miss_live pr own univ reserve t p k ft c1 H c' HG1 Hft) as [P L]; [by rewrite Hh|done|].
    split; [apply (p_good _ _ _ _ _ _ _ P)|]. split; [apply (p_became _ _ _ _ _ _ _ P)|done].
  - destruct (accepted_live _ _ _ _ HI Ht Hx) as (_ & Hh & Hq & Ho). eapply request_keeps; [done|done|done|]. intros HG1.
    rewrite <-Ho. eapply lockedReadHit_step; [done|done|done|by rewrite Hq].
  - destruct (accepted_live _ _ _ _ HI Ht Hx) as (_ & Hh & Hq & Ho). eapply request_keeps; [done|done|done|]. intros HG1.
    rewrite <-Hh in Hk. rewrite <-Hh, <-Hq in Ha0.
    exact (lockedWriteHit_step t p k true ts next_pf c1 H l c' m a sec HG1 Htm Hts Hk Hadr Hsec Ha0 HmH eq_refl Ha).
  - apply live_keeps; [done|]. by eapply writeBuffer_live.
  - unfold processSendEvent in Ha.
    destruct (deferred_step t env (PacketQueue.set_event None (reqQueue c)) c H c' HG (g_list _ _ _ _ _ HG) Ht Henv Ha) as (HG' & Hb & Hp).
    split; [split; [done|by intros ?; apply Hp]|]. exact Hb.
  - unfold recvReqRetry in Ha. apply bind_Ok in Ha as (u & _ & Ha).
    destruct (deferred_step t env (PacketQueue.set_waiting false (reqQueue c)) c H c' HG (g_list _ _ _ _ _ HG) Ht Henv Ha) as (HG' & Hb & Hp).
    split; [split; [done|by intros ?; apply Hp]|]. exact Hb.
  - destruct (recvTimingResp_step pr own univ reserve t m k readable writable ts next_pf c H l c' HG Ht Hts Hm Hsv) as (HG' & Hb & Hp); [done|done|].
    split; [split; [done|cbn; auto]|]. exact Hb.
  - apply live_keeps; [done|]. by eapply recvTimingSnoopReq_live.
  - apply live_keeps; [done|]. by apply heap_live.
  - apply live_keeps; [done|]. by eapply refuse_live.
  - apply live_keeps; [done|]. by eapply retry_live.
  - apply live_keeps; [done|]. by eapply prefetch_live.
Qed.

(** ** Every run *)

Lemma run_keeps s es s' : run s es s' → Inv s → Inv s'.
Proof. induction 1 as [|s es s1 es1 s' Hr IH Hs]; [done|]. intros HI. by eapply step_keeps; [done|apply IH]. Qed.

(** A relation that every step has, and that composes, is what runs do. *)
Lemma run_log m s es s' : run s es s' → Inv s → m ∈ own → ∀ K, cores (heap (cache s)) !! m = Some K →
  ∃ K', cores (heap (cache s')) !! m = Some K' ∧
    waiting K (is_held (held s) m) ++ accepted (events_of m es) = answered (events_of m es) ++ waiting K' (is_held (held s') m).
Proof.
  intros Hr HI Hm K HK. induction Hr as [s|s es s1 es1 s' Hr IH Hs].
  - exists K. split; [done|]. by rewrite app_nil_r.
  - destruct (IH HI HK) as (K1 & HK1 & Hlog). assert (Inv s1) as HI1 by (by eapply run_keeps).
    destruct (step_keeps _ _ _ Hs HI1) as [_ Hb]. destruct (Hb m K1 Hm HK1) as (K' & HK' & Hc). exists K'. split; [done|].
    apply chain_log in Hc. by rewrite events_of_app, accepted_app, answered_app, app_assoc, Hlog, <-!app_assoc, Hc.
Qed.

End Cache_.

(** ** A new cache *)

Definition System_new (base n wb : nat) (h : Heap) : System := mkSystem (Cache_new base n wb h) ∅.

Definition fresh (base n : nat) (h : Heap) : Prop := ∀ j, j ∈ seq base n → mshrs h !! j = Some MSHR_new.

Lemma fresh_core base n h j : fresh base n h → j ∈ seq base n → cores h !! j = Some (core MSHR_new).
Proof. intros Hf Hj. by apply cores_lookup, Hf. Qed.

Lemma lists_new svc base n reserve : Lists svc (Queue_new base n reserve) (seq base (n + reserve)).
Proof.
  constructor; simpl; try done; [apply NoDup_seq|apply NoDup_nil_2| |].
  - intros i. split; [intros Hi|intros [Hi _]]; by apply elem_of_nil in Hi.
  - intros i Hi. by apply elem_of_nil in Hi.
Qed.

Lemma new_Inv base n wb h : (0 < n)%nat → (0 < wb)%nat → fresh base n h → Inv (seq base n) (seq 0 (wb + n)) (Z.of_nat n) (System_new base n wb h).
Proof.
  intros Hn Hwb Hf. split; [|by intros [Hp|Hp]]. constructor; [constructor| |done]; simpl.
  - constructor; simpl; [|by rewrite Nat.add_0_r, length_seq|done| |].
    + pose proof (lists_new (svc h) base n 0) as Hl. by rewrite Nat.add_0_r in Hl.
    + intros j Hj. by apply elem_of_nil in Hj.
    + intros j Hj. rewrite Nat.add_0_r in Hj. exists (core MSHR_new). by rewrite (fresh_core base n).
  - intros m Hm. set_solver.
  - constructor; simpl; [apply lists_new|by rewrite length_seq|done|]. intros i e _ Hi. by apply elem_of_nil in Hi.
  - by intros m Hm.
  - unfold bits_of, isFull. simpl. destruct (Z.leb_spec (Z.of_nat (n + 0) - Z.of_nat 0) 0); [lia|].
    destruct (Z.leb_spec (Z.of_nat (wb + n) - Z.of_nat n) 0); [lia|]. by constructor.
Qed.

Lemma fresh_waiting held : waiting (core MSHR_new) held = [].
Proof. by destruct held. Qed.

End CacheRuns.
