(* ===== verification/MSHRProps.v ===== *)
(** * mem/cache/mshr, mem/cache/mshr_queue: properties of one MSHR and of what is sent next

    Chains of MSHRs of several caches are cleared in as many steps as there are MSHRs; the
    bitmap of merged writes is sound, so that a block is not fetched only when all of it is
    written; what is sent next respects the order of accesses to a block; and a miss that is
    delayed keeps its place in the queue, so that it holds up the others. *)

From Stdlib Require Import ZArith Lia.
From stdpp Require Import base numbers option list.
From S2P Require Import Prelude Packet PacketQueue MSHR MSHRQueue CacheQueues MSHRCore.

Module MSHRProps.
Import Packet MSHR MSHRQueue CacheQueues MSHRLemmas.

(** ** Clearing *)

(** C33: When a request leaves a cache, the marks that made MSHRs above wait for it are
    cleared, from MSHR to MSHR through all the caches above.  This ends, with a call for each
    MSHR at most, and each call leaves fewer that wait. *)
Theorem clearDownstreamPending_ends m h :
  clearDownstreamPending (clear_fuel h) m h ≠ Err OutOfFuel ∧
  ∀ h', clearDownstreamPending (clear_fuel h) m h = Ok h' → (waiting h' < waiting h)%nat.
Proof.
  split; [apply clear_terminates; pose proof (waiting_length h); unfold clear_fuel; lia|].
  intros h'. apply clear_waiting.
Qed.

(** ** Whole line writes *)

(** [k] writes the byte [i] of its block of [blk] bytes. *)
Definition writes_byte (blk : Z) (k : Packet) (i : nat) : Prop :=
  isWrite (cmd k) = true ∧ isMaskedWrite k = false ∧
  ∃ o n, getOffset k blk = Ok o ∧ getSize k = Ok n ∧ o <= Z.of_nat i < o + n.

Definition written (blk : Z) (h : Heap) (l : list Target) (i : nat) : Prop :=
  ∃ t k, t ∈ l ∧ source t = FromCPU ∧ packets h !! pkt t = Some k ∧ writes_byte blk k i.

Definition bitmap_ok (h : Heap) (l : list Target) (tl : TargetList) : Prop :=
  ∀ i, writesBitmap tl !! i = Some true → written (tl_blkSize tl) h l i.

Lemma written_mono blk h l l' i : (∀ t, t ∈ l → t ∈ l') → written blk h l i → written blk h l' i.
Proof. intros Hl (t & k & Ht & H). exists t, k. split; [by apply Hl|done]. Qed.

Lemma fill_true_lookup o n v v' i : fill_true o n v = Ok v' → 0 <= o → 0 <= n → v' !! i = Some true →
  v !! i = Some true ∨ o <= Z.of_nat i < o + n.
Proof.
  unfold fill_true. intros H Ho Hn Hi. destruct (Z.ltb_spec (Z.of_nat (length v)) (o + n)); [done|]. injection H as <-.
  destruct (decide (Z.of_nat i < o)).
  - left. rewrite lookup_app_l in Hi; [|rewrite length_take; lia]. apply lookup_take_Some in Hi. tauto.
  - destruct (decide (Z.of_nat i < o + n)); [right; lia|left].
    rewrite lookup_app_r in Hi by (rewrite length_take; lia). rewrite lookup_app_r in Hi by (rewrite length_take, length_replicate; lia).
    rewrite length_take, length_replicate, lookup_drop in Hi. rewrite <-Hi. f_equal. lia.
Qed.

Lemma getOffset_nonneg k blk o : getOffset k blk = Ok o → 0 <= o.
Proof.
  unfold getOffset. intros H. apply bind_Ok in H as (a & _ & H). injection H as <-. apply Z.land_nonneg. right.
  unfold u32. by apply wrap_nonneg.
Qed.

(** The packets of [h] have sizes. *)
Definition sized (h : Heap) : Prop := Forall (λ k, 0 <= size k) (packets h).

Lemma updateWriteFlags_bitmap h l p k src ready ord rt mp a tl tl' : sized h → packets h !! p = Some k → src = FromCPU →
  updateWriteFlags k tl = Ok tl' → bitmap_ok h l tl →
  bitmap_ok h (l ++ [mkTarget rt ready ord p src mp a]) tl' ∧ tl_blkSize tl' = tl_blkSize tl ∧ list_of tl' = list_of tl.
Proof.
  intros Hs Hk -> H Hb. assert (∀ w c, (∀ i, w !! i = Some true → writesBitmap tl !! i = Some true ∨ writes_byte (tl_blkSize tl) k i) →
    bitmap_ok h (l ++ [mkTarget rt ready ord p FromCPU mp a]) (MSHR.set_writes c w tl)) as Hset.
  { intros w c Hw i Hi. destruct (Hw i Hi) as [Ho|Hn].
    - eapply written_mono; [|by apply Hb]. intros t Ht. apply elem_of_app. by left.
    - eexists _, k. split; [apply elem_of_app; right; by left|]. done. }
  unfold updateWriteFlags in H. destruct (isWholeLineWrite tl).
  { injection H as <-. split; [|done]. destruct tl. apply (Hset writesBitmap0 canMergeWrites0). auto. }
  destruct (canMergeWrites tl).
  2: { injection H as <-. split; [|done]. destruct tl. apply (Hset writesBitmap0 canMergeWrites0). auto. }
  destruct (isWrite (cmd k)) eqn:Hw; simpl in H; [|injection H as <-; split; [apply Hset; auto|done]].
  apply bind_Ok in H as (w & Hf & H). injection H as <-. split; [|done]. apply Hset. intros i Hi.
  destruct (isMaskedWrite k) eqn:Hm; simpl in Hf; [injection Hf as <-; by left|].
  destruct (_ || _); [|injection Hf as <-; by left].
  apply bind_Ok in Hf as (o & Ho & Hf). apply bind_Ok in Hf as (n & Hn & Hf).
  assert (0 <= n) as Hnn.
  { unfold getSize in Hn. apply bind_Ok in Hn as (u & _ & Hn). injection Hn as <-. unfold sized in Hs. rewrite Forall_forall in Hs.
    apply Hs. by eapply list_elem_of_lookup_2. }
  destruct (fill_true_lookup _ _ _ _ _ Hf (getOffset_nonneg _ _ _ Ho) Hnn Hi) as [?|?]; [by left|right].
  split; [done|]. split; [done|]. by exists o, n.
Qed.

Lemma updateFlags_bitmap h l p k src ready ord rt mp a tl tl' : sized h → packets h !! p = Some k →
  updateFlags k src a tl = Ok tl' → bitmap_ok h l tl →
  bitmap_ok h (l ++ [mkTarget rt ready ord p src mp a]) tl' ∧ tl_blkSize tl' = tl_blkSize tl ∧ list_of tl' = list_of tl.
Proof.
  intros Hs Hk H Hb. assert (∀ l', bitmap_ok h (l ++ l') tl) as Hmore.
  { intros l' i Hi. eapply written_mono; [|by apply Hb]. intros t Ht. apply elem_of_app. by left. }
  unfold updateFlags in H. case_bool_decide as Hsn; [injection H as <-; split; [apply Hmore|done]|].
  apply bind_Ok in H as (nw & _ & H). case_bool_decide as Hpf; [injection H as <-; split; [apply Hmore|done]|].
  assert (src = FromCPU) as -> by (by destruct src). apply (updateWriteFlags_bitmap h l p k FromCPU ready ord rt mp a) in H; [|done|done|done|done].
  exact H.
Qed.

Lemma updateFlags_all_bitmap h l : ∀ pre tl tl', sized h → updateFlags_all h l tl = Ok tl' → bitmap_ok h pre tl →
  bitmap_ok h (pre ++ l) tl' ∧ tl_blkSize tl' = tl_blkSize tl ∧ list_of tl' = list_of tl.
Proof.
  induction l as [|t l IH]; intros pre tl tl' Hs H Hb; simpl in H; [injection H as <-; by rewrite app_nil_r|].
  apply bind_Ok in H as (k & Hk & H). apply deref_Ok in Hk. apply bind_Ok in H as (tl1 & H1 & H).
  destruct t as [rt ready ord p src mp a]. simpl in *.
  destruct (updateFlags_bitmap h pre p k src ready ord rt mp a _ _ Hs Hk H1 Hb) as (Hb1 & Hz & Hl).
  destruct (IH _ _ _ Hs H Hb1) as (Hb' & Hz' & Hl'). rewrite <-app_assoc in Hb'. split; [exact Hb'|]. split; congruence.
Qed.

Lemma reset_bitmap h tl l : bitmap_ok h l (resetFlags tl).
Proof. intros i Hi. simpl in Hi. by apply lookup_replicate in Hi as [? _]. Qed.

(** How lists of targets are built: empty, with one more target, or with the flags found
    again for the targets that it has. *)
Inductive built (blk : Z) : Heap → TargetList → Prop :=
  | built_init h tl : list_of tl = [] → built blk h (init blk tl)
  | built_add t p ready ord src mp a tl h tl' h' : built blk h tl → sized h → add t p ready ord src mp a tl h = Ok (tl', h') →
      built blk h' tl'
  | built_populate h tl tl' : tl_blkSize tl = blk → sized h → populateFlags h tl = Ok tl' → built blk h tl'.

Lemma add_shape t p ready ord src mp a tl h tl' h' : add t p ready ord src mp a tl h = Ok (tl', h') →
  ∃ k tl1 mp', packets h !! p = Some k ∧ updateFlags k src a tl = Ok tl1 ∧ packets h' = packets h ∧
    tl' = set_list (list_of tl1 ++ [mkTarget t ready ord p src mp' a]) tl1.
Proof.
  unfold add. intros H. apply bind_Ok in H as (k & Hk & H). apply deref_Ok in Hk. apply bind_Ok in H as (tl1 & H1 & H).
  apply bind_Ok in H as ([mp' h1] & H2 & H). injection H as <- <-. exists k, tl1, mp'. split; [done|]. split; [done|]. split; [|done].
  destruct mp; [|by injection H2 as <- <-]. destruct (findNextSenderState h k); [|by injection H2 as <- <-].
  apply bind_Ok in H2 as (x & _ & H2). apply bind_Ok in H2 as (u & _ & H2). by injection H2 as <- <-.
Qed.

Lemma built_bitmap blk h tl : built blk h tl → bitmap_ok h (list_of tl) tl ∧ tl_blkSize tl = blk.
Proof.
  induction 1 as [h tl Hl|t p ready ord src mp a tl h tl' h' Hb [IH Hz] Hs Ha|h tl tl' Hz Hs Hp].
  - split; [|done]. apply reset_bitmap.
  - apply add_shape in Ha as (k & tl1 & mp' & Hk & Hu & Hpk & ->).
    destruct (updateFlags_bitmap h (list_of tl) p k src ready ord t mp' a _ _ Hs Hk Hu IH) as (Hb1 & Hz1 & Hl1).
    simpl. split; [|congruence]. intros i Hi. simpl in *. destruct (Hb1 i Hi) as (tt & kt & Htt & Hrest). exists tt, kt.
    rewrite Hl1, Hpk. done.
  - unfold populateFlags in Hp. destruct (updateFlags_all_bitmap h (list_of tl) [] _ _ Hs Hp (reset_bitmap _ _ _)) as (Hb & Hz' & Hl').
    simpl in *. rewrite Hl'. split; [done|congruence].
Qed.

(** C32: A list of targets counts as a write of the whole line only when the processor's
    targets in it really write every byte, with writes that are not masked, so that the
    block need not be fetched. *)
Theorem whole_line_is_written blk h tl i : built blk h tl → isWholeLineWrite tl = true → (i < length (writesBitmap tl))%nat →
  ∃ t k, t ∈ list_of tl ∧ source t = FromCPU ∧ packets h !! pkt t = Some k ∧ isWrite (cmd k) = true ∧ isMaskedWrite k = false ∧
    ∃ o n, getOffset k blk = Ok o ∧ getSize k = Ok n ∧ o <= Z.of_nat i < o + n.
Proof.
  intros Hb Hw Hi. destruct (built_bitmap _ _ _ Hb) as [Hok <-]. unfold isWholeLineWrite in Hw. rewrite forallb_forall in Hw.
  destruct (lookup_lt_is_Some_2 _ _ Hi) as [b Hbit]. assert (b = true) as ->.
  { apply Hw. apply list_elem_of_In. by eapply list_elem_of_lookup_2. }
  destruct (Hok i Hbit) as (t & k & Ht & Hs & Hk & Hwr). exists t, k. done.
Qed.

(** ** Example: two writes that cover a line of eight bytes *)

Definition line_write (c : Command) (a s : Z) (special : bool) : Packet :=
  let r := mkRequest (Some a) (Some s) false false false false false false false false false false false false false [] special in
  match Packet_new r c with Ok k => k | Err _ => mkPacket c 0 r [] 0 false 0 [] 0 0 [] end.

Definition merge_heap : Heap := mkHeap [line_write WriteReq 0 5 false; line_write WriteReq 4 4 false; line_write WriteReq 0 8 true] [].

Fixpoint add_all (ps : list nat) (tl : TargetList) (h : Heap) : result (TargetList * Heap) :=
  match ps with
  | [] => Ok (tl, h)
  | p :: ps => '(tl, h) ← add 0 p 0 0 FromCPU false false tl h; add_all ps tl h
  end.
Definition adding (ps : list nat) : result (TargetList * Heap) := add_all ps (init 8 TargetList_new) merge_heap.
Definition merged : TargetList := match adding [0; 1]%nat with Ok (tl, _) => tl | Err _ => TargetList_new end.
Definition alone : TargetList := match adding [2]%nat with Ok (tl, _) => tl | Err _ => TargetList_new end.

Lemma merge_sized : sized merge_heap.
Proof. repeat constructor; vm_compute; discriminate. Qed.

Lemma add_all_built ps : ∀ tl h tl' h', add_all ps tl h = Ok (tl', h') → built 8 h tl → sized h → built 8 h' tl' ∧ sized h'.
Proof.
  induction ps as [|p ps IH]; intros tl h tl' h' H Hb Hs; [by injection H as <- <-|].
  apply bind_Ok in H as ([tl1 h1] & Ha & H). apply (IH _ _ _ _ H); [by eapply built_add|].
  apply add_shape in Ha as (k & tl2 & mp & _ & _ & Hp & _). unfold sized. by rewrite Hp.
Qed.

Lemma adding_built ps tl h : adding ps = Ok (tl, h) → built 8 h tl ∧ sized h.
Proof. intros H. eapply add_all_built; [exact H|by apply built_init|apply merge_sized]. Qed.

Lemma whole_line_is_written_witness : isWholeLineWrite merged = true ∧
  ∃ t k, t ∈ list_of merged ∧ source t = FromCPU ∧ packets merge_heap !! pkt t = Some k ∧ isWrite (cmd k) = true ∧ isMaskedWrite k = false ∧
    ∃ o n, getOffset k 8 = Ok o ∧ getSize k = Ok n ∧ o <= Z.of_nat 6 < o + n.
Proof.
  split; [vm_compute; reflexivity|].
  exact (whole_line_is_written 8 merge_heap merged 6 (proj1 (adding_built [0; 1]%nat merged merge_heap ltac:(vm_compute; reflexivity)))
           ltac:(vm_compute; reflexivity) ltac:(vm_compute; lia)).
Defined.

(** A whole line that one special write covers is one only until the flags are found again:
    then the list is not empty any more, and the write is not taken for the first. *)
Lemma populate_forgets_whole_line : isWholeLineWrite alone = true ∧
  ∃ tl, populateFlags merge_heap alone = Ok tl ∧ list_of tl = list_of alone ∧ isWholeLineWrite tl = false.
Proof. split; [by vm_compute|]. eexists. split; [vm_compute; reflexivity|]. split; reflexivity. Qed.

(** ** The choice of what to send *)

(** No write to the block of the miss [i] is pending, or the one that is due came later. *)
Definition miss_goes (t : Z) (i : nat) (c : Cache) : Prop :=
  ∃ x, mshrs (heap c) !! i = Some x ∧
    (findPending (wentries c) x (writeBuffer c) = Ok None ∨
     ∃ w y, getNext (wentries c) t (writeBuffer c) = Ok (Some w) ∧ wentries c !! w = Some y ∧
       findPending (mshrs (heap c)) y (mshrQueue c) = Ok (Some i) ∧ order x < we_order y).

(** Nothing has the block of the prefetch. *)
Definition prefetch_goes (blk : Z) (prefetch : option nat) (c : Cache) : Prop :=
  ∃ p k a sec, prefetch = Some p ∧ packets (heap c) !! p = Some k ∧ getBlockAddr k blk = Ok a ∧ Packet.isSecure k = Ok sec ∧
    findMatch (wentries c) a sec true (writeBuffer c) = Ok None ∧ findMatch (mshrs (heap c)) a sec true (mshrQueue c) = Ok None.

(** A miss that is due waits for the write [w], or [w] is due and no miss to its block came
    before. *)
Definition write_goes (t : Z) (w : nat) (c : Cache) : Prop :=
  (∃ i x, getNext (mshrs (heap c)) t (mshrQueue c) = Ok (Some i) ∧ mshrs (heap c) !! i = Some x ∧
     findPending (wentries c) x (writeBuffer c) = Ok (Some w)) ∨
  (getNext (wentries c) t (writeBuffer c) = Ok (Some w) ∧ ∃ y, wentries c !! w = Some y ∧
     (findPending (mshrs (heap c)) y (mshrQueue c) = Ok None ∨
      ∃ i x, findPending (mshrs (heap c)) y (mshrQueue c) = Ok (Some i) ∧ mshrs (heap c) !! i = Some x ∧ we_order y <= order x)).

Lemma miss_choice t i c e c' : getNext (mshrs (heap c)) t (mshrQueue c) = Ok (Some i) →
  (x ← get_mshr (heap c) i; conflict ← findPending (wentries c) x (writeBuffer c);
   Ok (Some (match conflict with Some j => e_write j | None => e_mshr i end), c)) = Ok (Some e, c') →
  c' = c ∧ match e with e_mshr j => miss_goes t j c | e_write w => write_goes t w c end.
Proof.
  intros Hm H. apply bind_Ok in H as (x & Hx & H). apply deref_Ok in Hx. apply bind_Ok in H as (cf & Hcf & H).
  injection H as <- <-. split; [done|]. destruct cf as [w|]; [left; by exists i, x|]. exists x. split; [done|by left].
Qed.

(** What is sent next respects the order of accesses to one block: a miss does not pass a
    pending write that came before, nor a write a miss, and a prefetch is only taken when
    nothing is due and neither a miss nor a write has its block. *)
Theorem next_respects_order pr t prefetch inTags c e c' : getNextQueueEntry pr t prefetch inTags c = Ok (Some e, c') →
  c' = c ∧ match e with e_mshr i => miss_goes t i c | e_write w => write_goes t w c end ∨
  getNext (mshrs (heap c)) t (mshrQueue c) = Ok None ∧ getNext (wentries c) t (writeBuffer c) = Ok None ∧
    prefetch_goes (p_blkSize pr) prefetch c ∧ ∃ i, e = e_mshr i ∧ head (freeList (mshrQueue c)) = Some i.
Proof.
  unfold getNextQueueEntry. intros H. apply bind_Ok in H as (m & Hm & H). apply bind_Ok in H as (wq & Hwq & H).
  destruct wq as [w|].
  - left. destruct (isFull (writeBuffer c) || bool_decide (m = None)).
    + apply bind_Ok in H as (y & Hy & H). apply deref_Ok in Hy. apply bind_Ok in H as (cf & Hcf & H). destruct cf as [i|].
      * apply bind_Ok in H as (x & Hx & H). apply deref_Ok in Hx. injection H as <- <-. split; [done|].
        destruct (Z.ltb_spec (order x) (we_order y)).
        -- exists x. split; [done|]. right. by exists w, y.
        -- right. split; [done|]. exists y. split; [done|]. right. by exists i, x.
      * injection H as <- <-. split; [done|]. right. split; [done|]. exists y. split; [done|by left].
    + apply bind_Ok in H as (i & Hi & H). apply deref_Ok in Hi. subst m. exact (miss_choice _ _ _ _ _ Hm H).
  - destruct m as [i|]; [left; exact (miss_choice _ _ _ _ _ Hm H)|right].
    split; [done|]. split; [done|]. destruct (_ && _); [|done]. destruct prefetch as [p|]; [|done].
    apply bind_Ok in H as (k & Hk & H). apply deref_Ok in Hk. apply bind_Ok in H as (a & Ha & H). apply bind_Ok in H as (sec & Hsec & H).
    destruct (inTags a sec); [done|]. apply bind_Ok in H as (m & Hfm & H). apply bind_Ok in H as (w & Hfw & H).
    destruct m as [m|]; [done|]. destruct w as [w|]; [done|]. apply bind_Ok in H as ([i c1] & Hal & H). injection H as <- _.
    split; [by exists p, k, a, sec|]. exists i. split; [done|]. unfold allocateMissBuffer in Hal.
    apply bind_Ok in Hal as (k0 & _ & Hal). apply bind_Ok in Hal as (a0 & _ & Hal). apply bind_Ok in Hal as ([[i0 h] q] & Hq & Hal).
    apply bind_Ok in Hal as (c2 & _ & Hal). apply bind_Ok in Hal as (c3 & _ & Hal). injection Hal as <- _.
    unfold mq_allocate in Hq. apply bind_Ok in Hq as (i1 & Hi1 & Hq). unfold take_free in Hi1.
    destruct (freeList (mshrQueue c)) as [|j l]; [done|]. injection Hi1 as ->. apply bind_Ok in Hq as (x & _ & Hq).
    apply bind_Ok in Hq as (u & _ & Hq). apply bind_Ok in Hq as (h1 & _ & Hq). apply bind_Ok in Hq as (q1 & _ & Hq). by injection Hq as <- _ _.
Qed.

Definition order_cache : Cache :=
  let k := line_write WritebackDirty 64 8 false in
  let r := line_write ReadReq 64 8 false in
  mkCache (mkHeap [r; k] [mkMSHR 3 false false 7 64 8 false false false false false false false
                            (set_list [mkTarget 3 3 7 0 FromCPU false true] TargetList_new) TargetList_new])
    (mkQueue 1 0 [0%nat] [0%nat] [] 0 1) [mkWQE 9 false false 5 64 8 false [mkWTarget 4 9 5 1]] (mkQueue 1 0 [0%nat] [0%nat] [] 0 1)
    8 3 None true false None (PacketQueue.PacketQueue_new false false).

(** The read is due, but has to wait for the write to its block, which is not. *)
Lemma next_respects_order_witness :
  getNextQueueEntry (mkParams 4 8 false 0 true) 6 None (λ _ _, false) order_cache = Ok (Some (e_write 0), order_cache) ∧
  write_goes 6 0 order_cache.
Proof.
  split; [vm_compute; reflexivity|].
  destruct (next_respects_order (mkParams 4 8 false 0 true) 6 None (λ _ _, false) order_cache (e_write 0) order_cache)
    as [[_ H]|(_ & _ & _ & i & H & _)]; [vm_compute; reflexivity|exact H|discriminate].
Defined.

(** ** Delays *)

Lemma from_head i l l' : from i l = Ok l' → ∃ r, l' = i :: r.
Proof.
  induction l as [|j l IH]; simpl; [done|]. destruct (decide (i = j)) as [->|_]; [|done]. intros [= <-]. by exists l.
Qed.

(** The write allocator delays a miss so that writes can be merged.  The miss gets a later
    time, but keeps its place in the list of those that are ready: the search for its new
    place starts at the miss itself, which is not later than itself.  When it is the first
    it therefore holds up every other miss until its time. *)
Theorem delay_keeps_place t i d h q h' q' : mq_delay t i d h q = Ok (h', q') →
  readyList q' = readyList q ∧
  (head (readyList q) = Some i → ∀ t', t' < t + d → getNext (mshrs h') t' q' = Ok None).
Proof.
  unfold mq_delay. intros H. apply bind_Ok in H as (x & Hx & H). apply deref_Ok in Hx. apply bind_Ok in H as (x' & Hd & H).
  apply bind_Ok in H as (s & Hs & H). apply bind_Ok in H as (it & Hit & H). apply bind_Ok in H as (l & Hl & H). injection H as <- <-.
  apply from_head in Hs as (r & ->). pose proof (lookup_lt_Some _ _ _ Hx) as Hlt.
  assert (mshrs (set_mshr i x' h) !! i = Some x') as Hi by (by apply list_lookup_insert_eq).
  cbn [find_entry] in Hit. rewrite Hi in Hit. simpl in Hit. rewrite (proj2 (Z.leb_le _ _)) in Hit by lia. injection Hit as <-.
  unfold splice in Hl. rewrite decide_True in Hl by done. injection Hl as <-. split; [done|].
  intros Hh t' Ht'. unfold getNext. cbn [readyList set_readyList]. destruct (readyList q) as [|j l]; [done|]. injection Hh as ->.
  rewrite Hi. simpl. unfold MSHR.delay in Hd. apply bind_Ok in Hd as (u & _ & Hd). injection Hd as <-. simpl.
  by rewrite (proj2 (Z.ltb_lt _ _) Ht').
Qed.

Definition delay_heap : Heap := mkHeap [] [set_times 3 0 MSHR_new; set_times 4 1 MSHR_new].
Definition delay_queue : Queue := mkQueue 2 0 [0; 1]%nat [0; 1]%nat [] 0 2.

Lemma delay_keeps_place_witness : ∃ h' q', mq_delay 5 0 10 delay_heap delay_queue = Ok (h', q') ∧
  readyList q' = [0; 1]%nat ∧ getNext (mshrs h') 14 q' = Ok None.
Proof.
  eexists _, _. split; [vm_compute; reflexivity|]. split.
  - refine (proj1 (delay_keeps_place 5 0 10 delay_heap delay_queue _ _ _)). vm_compute. reflexivity.
  - refine (proj2 (delay_keeps_place 5 0 10 delay_heap delay_queue _ _ _) eq_refl 14 _); [vm_compute; reflexivity|lia].
Defined.

End MSHRProps.
