(* ===== verification/CacheExample.v ===== *)
(** * mem/cache: runs of a small cache

    [perform] is an executable form of [step], for the steps that the runs take.  The cache
    has two MSHRs and a write buffer.  A read misses and is sent; a snoop takes the block
    away, so that the next read has to wait for a new copy; a write to another block takes
    the last MSHR and blocks the processor. *)

From Stdlib Require Import ZArith Lia.
From stdpp Require Import base numbers option list gmap.
From S2P Require Import Prelude Packet PacketQueue MSHR MSHRQueue CacheQueues MSHRCore MSHROps MSHRMachine.
From S2P Require Import MSHRMoves MSHRFile CacheSystem CacheRuns.

Module CacheExample.
Import Packet MSHR MSHRQueue CacheQueues MSHRLemmas MSHRCore MSHROps MSHRMachine MSHRMoves MSHRFile CacheSystem CacheRuns.

(** ** Running a cache *)

Definition to_option {A} (r : result A) : option A := match r with Ok a => Some a | Err _ => None end.

Lemma to_option_Ok {A} (r : result A) a : to_option r = Some a → r = Ok a.
Proof. destruct r; simpl; congruence. Qed.

#[local] Instance snoop_packet_dec k : Decision (snoop_packet k).
Proof. unfold snoop_packet. apply _. Defined.
#[local] Instance good_time_dec t : Decision (good_time t).
Proof. unfold good_time. apply _. Defined.
#[local] Instance good_environment_dec t env : Decision (good_environment t env).
Proof. unfold good_environment. destruct (env_snoop_conflict env), (env_outcome env); apply _. Defined.

Inductive action :=
  | a_miss (t : Z) (p : nat) (ft : Z)
  | a_lockedRead (t : Z) (p : nat)
  | a_lockedWrite (t : Z) (p : nat) (ts : Z)
  | a_writeback (t : Z) (p : nat)
  | a_send (t : Z) (env : Environment)
  | a_response (t : Z) (m : nat) (k : Packet) (ts : Z)
  | a_snoop (t : Z) (p : nat)
  | a_refuse (p : nat)
  | a_retry (t : Z).

(** A request that the port accepts. *)
Definition admitted (p : nat) (c : Cache) : option (Packet * Cache) :=
  k ← packets (heap c) !! p;
  let r := tryTiming k c in
  if decide (r.1 = true ∧ isExpressSnoop k = false) then Some (k, r.2) else None.

Section Run_.
Context (pr : Params) (own : list nat).

Definition perform (a : action) (s : System) : option (list (nat * event) * System) :=
  let c := cache s in
  let H := held s in
  match a with
  | a_miss t p ft =>
      r ← admitted p c; c' ← to_option (cache_handleTimingReqMiss pr t p ft r.2);
      if decide (good_time ft) then Some (accepts pr p c, mkSystem c' H) else None
  | a_lockedRead t p =>
      r ← admitted p c; c' ← to_option (lockedReadHit pr t p r.2); i ← head (freeList (mshrQueue c));
      if decide (cmd (r.1) = LockedRMWReadReq ∧ good_time t)
      then Some ([(i, Accepted (c_order c)); (i, Answered [c_order c])], mkSystem c' ({[i]} ∪ H)) else None
  | a_lockedWrite t p ts =>
      r ← admitted p c; l ← to_option (lockedWriteHit pr t p true ts None r.2);
      a ← to_option (getBlockAddr r.1 (p_blkSize pr)); sec ← to_option (Packet.isSecure r.1);
      o ← to_option (findMatch (mshrs (heap c)) a sec true (mshrQueue c)); m ← o;
      if decide (cmd (r.1) = LockedRMWWriteReq ∧ good_time t ∧ good_time ts ∧ m ∈ H)
      then Some ([(m, Answered (served (list_of l.1)))],
                 mkSystem l.2 (held_after H m (served (list_of l.1)) (in_targets m l.2))) else None
  | a_writeback t p =>
      c' ← to_option (allocateWriteBuffer pr t p t c); if decide (good_time t) then Some ([], mkSystem c' H) else None
  | a_send t env =>
      c' ← to_option (processSendEvent pr t env c);
      if decide (good_time t ∧ good_environment t env ∧ PacketQueue.sendEvent (reqQueue c) = Some t)
      then Some (sends pr t env (set_reqQueue (PacketQueue.set_event None (reqQueue c)) c), mkSystem c' H) else None
  | a_response t m k ts =>
      l ← to_option (recvTimingResp pr t m k true false true ts None c);
      if decide (good_time t ∧ good_time ts ∧ m ∈ allocatedList (mshrQueue c) ∧ svc (heap c) m = Some true ∧
                 m ∉ H ∧ cmd k ≠ LockedRMWWriteResp)
      then Some ([(m, Answered (served (list_of l.1)))],
                 mkSystem l.2 (held_after H m (served (list_of l.1)) (in_targets m l.2))) else None
  | a_snoop t p =>
      k ← packets (heap c) !! p; r ← to_option (recvTimingSnoopReq pr t p c);
      if decide (good_time t ∧ snoop_packet k) then Some ([], mkSystem r.2 H) else None
  | a_refuse p =>
      k ← packets (heap c) !! p;
      let r := tryTiming k c in if decide (r.1 = false) then Some ([], mkSystem r.2 H) else None
  | a_retry t => if decide (sendRetryEvent c = Some t) then Some ([], mkSystem (processSendRetry c) H) else None
  end.

Fixpoint performs (l : list action) (s : System) : option (list (nat * event) * System) :=
  match l with
  | [] => Some ([], s)
  | a :: l => r ← perform a s; q ← performs l r.2; Some (r.1 ++ q.1, q.2)
  end.

Lemma admitted_Some p c r : admitted p c = Some r → packets (heap c) !! p = Some r.1 ∧ tryTiming r.1 c = (true, r.2) ∧
  isExpressSnoop r.1 = false.
Proof.
  unfold admitted. intros H. simplify_option_eq. destruct_and!. split; [done|]. split; [|done]. by destruct (tryTiming _ _); simpl in *; subst.
Qed.

Lemma perform_sound a s es s' : perform a s = Some (es, s') → step pr own s es s'.
Proof.
  intros H. destruct s as [c Hl]. unfold perform in H. destruct a; simplify_option_eq; destruct_and?;
    repeat match goal with H : to_option _ = Some _ |- _ => apply to_option_Ok in H end;
    repeat match goal with H : admitted _ _ = Some _ |- _ => apply admitted_Some in H as (? & ? & ?) end;
    repeat match goal with r : (_ * _)%type |- _ => destruct r; cbn [fst snd] in * end.
  - by eapply s_miss.
  - by eapply s_lockedRead.
  - refine (s_lockedWrite pr own t p _ ts None c _ _ Hl _ _ _ _ _ _ _ _ _ _ _ _ _ _ _); eassumption.
  - by eapply s_writeback.
  - by eapply s_send.
  - refine (s_response pr own t m k true false ts None c _ Hl _ _ _ _ _ _ _ _); eassumption.
  - by eapply s_snoop.
  - match goal with H : (tryTiming ?k c).1 = false |- _ => apply (s_refuse pr own k); by rewrite <-H, <-surjective_pairing end.
  - by eapply s_retry.
Qed.

Lemma run_cons s es s1 es1 s' : step pr own s es s1 → run pr own s1 es1 s' → run pr own s (es ++ es1) s'.
Proof.
  intros H1 H2. induction H2 as [s1|s1 es1 s2 es2 s' H2 IH H3].
  - rewrite app_nil_r. pose proof (run_step pr own s [] s es s1 (run_nil pr own s) H1) as Hr. exact Hr.
  - rewrite app_assoc. by eapply run_step; [apply IH|].
Qed.

Lemma performs_sound l s es s' : performs l s = Some (es, s') → run pr own s es s'.
Proof.
  revert s es. induction l as [|a l IH]; intros s es H; simpl in H; [injection H as <- <-; constructor|].
  simplify_option_eq. repeat match goal with r : (_ * _)%type |- _ => destruct r; simpl in * end.
  eapply run_cons; [by eapply perform_sound|by apply IH].
Qed.

End Run_.

(** ** The run *)

Definition ex_params : Params := mkParams 4 64 false 1 true.
Definition ex_own : list nat := seq 0 2.

Definition ex_packet (a : Z) (c : Command) : Packet :=
  let r := mkRequest (Some a) (Some 4) false false false false false false false false false false false false false [] false in
  match Packet_new r c with Ok k => k | Err _ => mkPacket c 0 r [] 0 false 0 [] 0 0 [] end.

Definition ex_heap : Heap :=
  mkHeap [ex_packet 0 ReadReq; ex_packet 8 ReadReq; ex_packet 64 WriteReq; ex_packet 0 ReadExReq; ex_packet 128 ReadReq;
          ex_packet 64 WritebackDirty]
    [MSHR_new; MSHR_new].
Definition ex_start : System := System_new 0 2 2 ex_heap.

Definition ex_env : Environment := mkEnv None (λ _ _, false) None (o_accepted false false None) true None.

Definition ex_first : list action := [a_miss 1 0 2; a_send 2 ex_env; a_snoop 3 3].
Definition ex_second : list action := [a_miss 4 1 5; a_miss 5 2 6; a_refuse 4].
Definition ex_third : list action := [a_response 7 0 (ex_packet 0 ReadResp) 8].

Definition state_after (l : list action) (s : System) : System := match performs ex_params l s with Some r => r.2 | None => s end.
Definition events_after (l : list action) (s : System) : list (nat * event) :=
  match performs ex_params l s with Some r => r.1 | None => [] end.

Definition ex_snooped : System := state_after ex_first ex_start.
Definition ex_blocked : System := state_after ex_second ex_snooped.
Definition ex_answered : System := state_after ex_third ex_blocked.

(** That they run is what gives these states. *)
Lemma after_run l s : is_Some (performs ex_params l s) → run ex_params ex_own s (events_after l s) (state_after l s).
Proof.
  intros [[es s'] H]. unfold events_after, state_after. rewrite H. by apply performs_sound with l.
Qed.

Ltac runs := apply after_run; vm_compute; eexists; reflexivity.

Lemma ex_first_runs : run ex_params ex_own ex_start (events_after ex_first ex_start) ex_snooped.
Proof. runs. Qed.
Lemma ex_second_runs : run ex_params ex_own ex_snooped (events_after ex_second ex_snooped) ex_blocked.
Proof. runs. Qed.
Lemma ex_third_runs : run ex_params ex_own ex_blocked (events_after ex_third ex_blocked) ex_answered.
Proof. runs. Qed.

Lemma run_app pr own s es1 s1 es2 s2 : run pr own s es1 s1 → run pr own s1 es2 s2 → run pr own s (es1 ++ es2) s2.
Proof.
  intros H1 H2. induction H2 as [s1|s1 es3 s3 es4 s2 H2 IH H3]; [by rewrite app_nil_r|]. rewrite app_assoc. eapply run_step; [by apply IH|done].
Qed.

Lemma new_heap_fresh : fresh 0 2 ex_heap.
Proof. intros j Hj. repeat (apply elem_of_cons in Hj as [->|Hj]; [reflexivity|]). by apply elem_of_nil in Hj. Qed.

Lemma ex_own_0 : 0%nat ∈ seq 0 2.
Proof. by left. Qed.

Lemma ex_two : (0 < 2)%nat.
Proof. lia. Qed.

Lemma ex_blocked_runs : run ex_params ex_own ex_start (events_after ex_first ex_start ++ events_after ex_second ex_snooped) ex_blocked.
Proof. exact (run_app _ _ _ _ _ _ _ ex_first_runs ex_second_runs). Qed.

(** An MSHR of a state. *)
Definition ex_mshr (m : nat) (s : System) : MSHR := default MSHR_new (mshrs (heap (cache s)) !! m).

End CacheExample.
