(* ===== verification/CacheProps.v ===== *)
(** * mem/cache: properties of the queues of a cache

    For a cache that starts with empty queues, in every state that it reaches: no request
    is lost or answered twice, the block that a request gets is not older than the request,
    each MSHR asks for what its targets need, the processor is blocked exactly while
    something is full, and what waits to be sent will be. *)

From Stdlib Require Import ZArith Lia.
From stdpp Require Import base numbers option list gmap.
From S2P Require Import Prelude Packet PacketQueue MSHR MSHRQueue CacheQueues MSHRCore MSHROps.
From S2P Require Import MSHRMoves MSHRMachine MSHRFile CacheSystem CacheInv CacheSteps CacheRuns.
From S2P Require Import CacheRuns CacheExample.

(** ** The MSHR without room for a target *)

Module CacheTargets.
Import Packet MSHR MSHRQueue CacheQueues MSHRLemmas MSHRCore MSHROps MSHRQueueLemmas MSHRMachine MSHRMoves MSHRFile
  CacheSystem CacheInv CacheSteps CacheEvents CacheRuns.

(** The operations that do not change it. *)
Definition same_target (c c' : Cache) : Prop := noTargetMSHR c' = noTargetMSHR c.

#[local] Instance same_target_refl : Reflexive same_target.
Proof. done. Qed.
#[local] Instance same_target_trans : Transitive same_target.
Proof. unfold same_target. congruence. Qed.

(** Take all computations that returned apart, along their binds, tests and matches. *)
Ltac take_apart := repeat first [ progress res_inv | progress subst | match goal with
  | H : match ?x with _ => _ end = Ok _ |- _ => destruct x eqn:?; try discriminate H
  end ].

Lemma setBlocked_target cause c c' : setBlocked cause c = Ok c' → same_target c c'.
Proof. unfold setBlocked, port_setBlocked. intros H. take_apart; done. Qed.

Lemma clearBlocked_target t cause c c' : clearBlocked t cause c = Ok c' → same_target c c'.
Proof. unfold clearBlocked, port_clearBlocked. intros H. simpl in H. take_apart; done. Qed.

Lemma sched_target t w c c' : schedMemSideSendEvent t w c = Ok c' → same_target c c'.
Proof. unfold schedMemSideSendEvent. intros H. by res_inv. Qed.

(** What is left is a chain of changes that keep it. *)
Ltac targets := repeat match goal with
  | H : setBlocked _ _ = Ok _ |- _ => apply setBlocked_target in H
  | H : clearBlocked _ _ _ = Ok _ |- _ => apply clearBlocked_target in H
  | H : schedMemSideSendEvent _ _ _ = Ok _ |- _ => apply sched_target in H
  end; unfold same_target in *; simpl in *; congruence.

Section Cache_.
Context (pr : Params) (own : list nat).

Lemma missBuffer_target t p time b c i c' : allocateMissBuffer pr t p time b c = Ok (i, c') → same_target c c'.
Proof. unfold allocateMissBuffer. intros H. take_apart; targets. Qed.

Lemma writeBuffer_target t p time c c' : allocateWriteBuffer pr t p time c = Ok c' → same_target c c'.
Proof. unfold allocateWriteBuffer. intros H. take_apart; targets. Qed.

Lemma mshr_target t i b c c' : markInService_mshr t i b c = Ok c' → same_target c c'.
Proof. unfold markInService_mshr. intros H. take_apart; targets. Qed.

Lemma write_target t i c c' : markInService_write t i c = Ok c' → same_target c c'.
Proof. unfold markInService_write. intros H. take_apart; targets. Qed.

Ltac parts := repeat match goal with
  | H : allocateMissBuffer _ _ _ _ _ _ = Ok _ |- _ => apply missBuffer_target in H
  | H : allocateWriteBuffer _ _ _ _ _ = Ok _ |- _ => apply writeBuffer_target in H
  | H : markInService_mshr _ _ _ _ = Ok _ |- _ => apply mshr_target in H
  | H : markInService_write _ _ _ = Ok _ |- _ => apply write_target in H
  end; targets.

Lemma lockedReadHit_target t p c c' : lockedReadHit pr t p c = Ok c' → same_target c c'.
Proof. unfold lockedReadHit. intros H. take_apart; parts. Qed.

Lemma nextEntry_target t pf tags c e c' : getNextQueueEntry pr t pf tags c = Ok (e, c') → same_target c c'.
Proof. unfold getNextQueueEntry. intros H. take_apart; parts. Qed.

Lemma sendMSHR_target t i o c w c' : sendMSHRQueuePacket pr t i o c = Ok (w, c') → same_target c c'.
Proof. unfold sendMSHRQueuePacket. intros H. take_apart; parts. Qed.

Lemma sendDeferred_target t env c c' : sendDeferredPacket pr t env c = Ok c' → same_target c c'.
Proof.
  unfold sendDeferredPacket, sendWriteQueuePacket. intros H. take_apart;
    repeat match goal with
    | H : getNextQueueEntry _ _ _ _ _ = Ok _ |- _ => apply nextEntry_target in H
    | H : sendMSHRQueuePacket _ _ _ _ _ = Ok _ |- _ => apply sendMSHR_target in H
    end; parts.
Qed.

Lemma snoop_target t p b c c' : recvTimingSnoopReq pr t p c = Ok (b, c') → same_target c c'.
Proof. unfold recvTimingSnoopReq. intros H. take_apart; parts. Qed.

Lemma response_target t m k readable writable fb ts next_pf c l c' :
  recvTimingResp pr t m k readable writable fb ts next_pf c = Ok (l, c') →
  noTargetMSHR c' = if decide (noTargetMSHR c = Some m) then None else noTargetMSHR c.
Proof.
  unfold recvTimingResp. intros H. apply bind_Ok in H as (u & _ & H). apply bind_Ok in H as (c1 & H1 & H).
  assert (same_target c1 c') as ->.
  { clear H1. take_apart; parts. }
  destruct (decide _); take_apart; parts.
Qed.

End Cache_.

(** ** The steps of a cache *)

Section Steps.
Context (pr : Params) (own univ : list nat) (reserve : Z).

#[local] Abbreviation Good := (Good own univ reserve).
#[local] Abbreviation Inv := (Inv own univ reserve).

(** A request joins an MSHR that is allocated already. *)
Definition joins (es : list (nat * event)) (c : Cache) (m : nat) : Prop :=
  (∃ o, (m, Accepted o) ∈ es) ∧ m ∈ allocatedList (mshrQueue c).

(** A response came for an MSHR in service. *)
Definition responds (es : list (nat * event)) (c : Cache) (m : nat) : Prop :=
  svc (heap c) m = Some true ∧ ∃ os, (m, Answered os) ∈ es.

(** What a step makes of the MSHR without room: a request that joins an MSHR makes it the
    one, or not, by the targets it then has; else it stays until a response. *)
Definition target_step (es : list (nat * event)) (c c' : Cache) : Prop :=
  (∀ m, joins es c m → ∃ x', mshrs (heap c') !! m = Some x' ∧
     noTargetMSHR c' = if numTarget pr <=? getNumTargets x' then Some m else None) ∧
  ((∀ m, ¬ joins es c m) → ∀ m, noTargetMSHR c' = Some m ↔ noTargetMSHR c = Some m ∧ ¬ responds es c m).

Lemma free_not_allocated c H i : Good c H → head (freeList (mshrQueue c)) = Some i → i ∉ allocatedList (mshrQueue c).
Proof.
  intros HG Hf Ha. destruct (i_lists _ _ _ _ _ (g_mshrs _ _ _ _ _ HG)) as [Hs Hn _ _ _ _ _].
  rewrite <-Hs in Hn. apply NoDup_app in Hn as (_ & Hn & _). apply (Hn i Ha).
  destruct (freeList (mshrQueue c)); [done|]. injection Hf as ->. by left.
Qed.

(** Nothing happened that a full MSHR waits for. *)
Lemma target_step_quiet es c c' : same_target c c' → (∀ m o, (m, Accepted o) ∈ es → m ∉ allocatedList (mshrQueue c)) →
  (∀ m os, (m, Answered os) ∈ es → noTargetMSHR c = Some m → svc (heap c) m ≠ Some true) → target_step es c c'.
Proof.
  intros Hs Ha Hr. split.
  - intros m [(o & Ho) Hm]. by destruct (Ha m o Ho).
  - intros _ m. rewrite Hs. split; [|by intros [? _]]. intros Hm. split; [done|]. intros [Hv (os & Ho)].
    by apply (Hr m os Ho Hm).
Qed.

Lemma target_step_nil c c' : same_target c c' → target_step [] c c'.
Proof. intros Hs. apply target_step_quiet; [done|..]; intros m x Hx; by apply not_elem_of_nil in Hx. Qed.

(** The port takes requests only when there is room in every MSHR. *)
Lemma accepted_target k c c1 H : Good c H → tryTiming k c = (true, c1) → isExpressSnoop k = false →
  noTargetMSHR c = None ∧ c1 = set_port false false (sendRetryEvent c) c.
Proof.
  intros HG Ht Hx. destruct (accepted_same _ _ _ Ht Hx) as (-> & Hp & _). split; [|done].
  pose proof (b_port _ _ _ _ (g_bits _ _ _ _ _ HG)) as Hb. rewrite Hp in Hb. symmetry in Hb.
  apply orb_false_iff in Hb as [_ Hb]. apply bool_decide_eq_false in Hb. by destruct (noTargetMSHR c); [destruct Hb|].
Qed.

Lemma miss_target t p k ft c H c1 c' : Good c H → packets (heap c) !! p = Some k → tryTiming k c = (true, c1) →
  isExpressSnoop k = false → cache_handleTimingReqMiss pr t p ft c1 = Ok c' → target_step (accepts pr p c) c c'.
Proof.
  intros HG Hp Ht Hx Ha. destruct (accepted_target _ _ _ _ HG Ht Hx) as [Hn ->].
  assert (∀ m, (∃ o, (m, Accepted o) ∈ accepts pr p c) → destination pr p c = Some m) as Hd.
  { intros m (o & Ho). unfold accepts in Ho. destruct (destination pr p c); [|by apply not_elem_of_nil in Ho].
    apply list_elem_of_singleton in Ho. by injection Ho as -> _. }
  assert (∀ m os, (m, Answered os) ∈ accepts pr p c → False) as Hno.
  { intros m os Ho. unfold accepts in Ho. destruct (destination pr p c); [|by apply not_elem_of_nil in Ho].
    apply list_elem_of_singleton in Ho. discriminate. }
  assert (same_target (set_port false false (sendRetryEvent c) c) c' →
    (∀ m, destination pr p c = Some m → m ∉ allocatedList (mshrQueue c)) → target_step (accepts pr p c) c c') as Hquiet.
  { intros Hs Hf. apply target_step_quiet; [exact Hs|intros m o Ho; apply Hf, Hd; by exists o|intros m os Ho; by destruct (Hno m os Ho)]. }
  unfold destination in Hd, Hquiet. rewrite Hp in Hd, Hquiet.
  unfold cache_handleTimingReqMiss in Ha. apply bind_Ok in Ha as (k0 & Hk & Ha). unfold get_pkt in Hk. simpl in Hk.
  rewrite Hp in Hk. injection Hk as <-. apply bind_Ok in Ha as (u & _ & Ha).
  assert (∀ m, head (freeList (mshrQueue c)) = Some m → m ∉ allocatedList (mshrQueue c)) as Hfree by (intros m; by apply (free_not_allocated c H)).
  destruct (isUncacheable (req k)) eqn:Hu.
  { apply Hquiet; [|by destruct (isWrite (cmd k))]. destruct (isWrite (cmd k)); take_apart; [by eapply writeBuffer_target|].
    by eapply missBuffer_target. }
  apply bind_Ok in Ha as (a & Hba & Ha). apply bind_Ok in Ha as (sec & Hsec & Ha). apply bind_Ok in Ha as (mshr & Hm & Ha).
  simpl in Hm. rewrite Hba, Hsec, Hm in Hd, Hquiet.
  unfold handleTimingReqMiss in Ha. apply bind_Ok in Ha as (k0 & Hk & Ha). unfold get_pkt in Hk. simpl in Hk.
  rewrite Hp in Hk. injection Hk as <-. destruct mshr as [m|].
  2: { apply Hquiet; [|by destruct (_ || _)]. destruct (_ || _); take_apart; [by eapply writeBuffer_target|by eapply missBuffer_target]. }
  apply bind_Ok in Ha as (u1 & _ & Ha). destruct (bool_decide (cmd k = CleanEvict)) eqn:Hce; [by injection Ha as <-; apply Hquiet|].
  destruct (bool_decide (cmd k = WriteClean)) eqn:Hwc; [apply Hquiet; [by eapply writeBuffer_target|done]|]. simpl in Hd.
  apply bind_Ok in Ha as (h & Hh & Ha). apply bind_Ok in Ha as (x & Hxm & Ha).
  assert (m ∈ allocatedList (mshrQueue c)) as Hma by exact (findMatch_in _ _ _ _ _ _ Hm).
  unfold get_mshr in Hxm. apply deref_Ok in Hxm. simpl in Hxm. split.
  - intros m' [Ho _]. apply Hd in Ho. injection Ho as <-. destruct (numTarget pr <=? getNumTargets x) eqn:Hf.
    + exists x. rewrite Hf. pose proof (setBlocked_target _ _ _ Ha) as Hs. split; [|exact Hs].
      unfold setBlocked, port_setBlocked in Ha. take_apart; done.
    + injection Ha as <-. exists x. rewrite Hf. done.
  - intros Hj. destruct (Hj m). split; [|done]. exists (c_order c). unfold accepts, destination.
    rewrite Hp, Hba, Hsec, Hm, Hu, Hce, Hwc. by left.
Qed.

(** An entry to send is ready, or it is a new one for a prefetch. *)
Lemma nextEntry_waits t env c H i c1 : Good c H → good_time t →
  getNextQueueEntry pr t (env_prefetch env) (env_inTags env) c = Ok (Some (e_mshr i), c1) →
  (c1 = c ∧ i ∈ readyList (mshrQueue c)) ∨ i ∉ allocatedList (mshrQueue c).
Proof.
  intros HG Ht Hn. unfold getNextQueueEntry in Hn. take_apart; simplify_eq;
    repeat match goal with H : match ?x with _ => _ end = e_mshr _ |- _ => destruct x eqn:?; try discriminate H end; simplify_eq;
    try (left; split; [done|]; match goal with
      | H : findPending (mshrs _) _ _ = Ok _ |- _ => exact (findPending_in _ _ _ _ H)
      | H : getNext (mshrs _) _ _ = Ok _ |- _ => exact (getNext_ready _ _ _ _ H)
      end).
  right. match goal with H : allocateMissBuffer _ _ _ _ _ _ = Ok _ |- _ =>
    destruct (allocateMissBuffer_part pr own univ reserve _ _ _ _ _ _ _ _ HG H Ht) as (_ & Hf & _) end.
  by eapply free_not_allocated.
Qed.

Lemma sends_target t env c q H c' : Good c H → good_time t → PacketQueue.transmitList q = [] →
  sendDeferredPacket pr t env (set_reqQueue q c) = Ok c' →
  target_step (sends pr t env (set_reqQueue q c)) c c'.
Proof.
  intros HG Ht Hq Ha. assert (Good (set_reqQueue q c) H) as HG' by by apply reqQueue_good.
  pose proof (sendDeferred_target _ _ _ _ _ Ha) as Hs.
  assert (∀ i c1, getNextQueueEntry pr t (env_prefetch env) (env_inTags env) (set_reqQueue q c) = Ok (Some (e_mshr i), c1) →
    (c1 = set_reqQueue q c ∧ i ∈ readyList (mshrQueue c)) ∨ i ∉ allocatedList (mshrQueue c)) as Hw.
  { intros i c1 Hn. by apply (nextEntry_waits t env _ H i c1 HG'). }
  unfold sends. destruct (getNextQueueEntry _ _ _ _ _) as [[[[i|i]|] c1]|] eqn:Hn; try by apply target_step_nil.
  specialize (Hw i c1 eq_refl). apply target_step_quiet; [exact Hs|..].
  - intros m o Ho. apply elem_of_app in Ho as [Ho|Ho].
    + destruct Hw as [[-> _]|Hw].
      * rewrite Z.eqb_refl in Ho. by apply not_elem_of_nil in Ho.
      * destruct (_ =? _); [by apply not_elem_of_nil in Ho|]. apply list_elem_of_singleton in Ho. by injection Ho as -> _.
    + repeat case_match; try (by apply not_elem_of_nil in Ho). apply list_elem_of_singleton in Ho. discriminate.
  - intros m os Ho Hm Hsv. apply elem_of_app in Ho as [Ho|Ho].
    { destruct (_ =? _); [by apply not_elem_of_nil in Ho|]. apply list_elem_of_singleton in Ho. discriminate. }
    assert (m = i) as ->.
    { repeat case_match; try (by apply not_elem_of_nil in Ho). apply list_elem_of_singleton in Ho. by injection Ho as -> _. }
    destruct Hw as [[_ Hr]|Hw].
    + destruct (Good_ready _ _ _ _ _ _ HG Hr) as [_ Hf]. congruence.
    + by destruct (g_noTarget _ _ _ _ _ HG i Hm).
Qed.

Lemma step_target s es s' : step pr own s es s' → Inv s → target_step es (cache s) (cache s').
Proof.
  intros Hs [HG _]. destruct Hs as [t p k ft c c1 c' H Hp Ht Hx Hft Ha | t p k c c1 c' H i Hp Ht Hx Hc Hgt Ha Hf
    | t p k ts npf c c1 c' H m a sec l Hp Ht Hx Hc Hgt Hts Hba Hsec Hm HH Ha | t p time c c' H Hgt Ha | t env c c' H Hgt He Hev Ha
    | t env c c' H Hgt He Ha | t m k rd wr ts npf c c' H l Hgt Hts Hm Hsv HH Hc Ha | t p k b c c' H Hgt Hp Hk Ha
    | h' c H Ho | k c c' H Ht | t c H Ht | t w c c' H Ha]; simpl in *.
  - by eapply miss_target.
  - destruct (accepted_target _ _ _ _ HG Ht Hx) as [Hn ->]. apply lockedReadHit_target in Ha.
    apply target_step_quiet; [exact Ha| |by rewrite Hn]. intros m o Ho.
    apply elem_of_cons in Ho as [Ho|Ho%list_elem_of_singleton]; [|discriminate]. injection Ho as -> _.
    by eapply free_not_allocated.
  - destruct (accepted_target _ _ _ _ HG Ht Hx) as [Hn ->]. unfold lockedWriteHit in Ha. take_apart; simplify_eq.
    apply response_target in Ha. simpl in Ha. rewrite Hn in Ha. apply target_step_quiet; [|by intros ? ? Ho%list_elem_of_singleton|by rewrite Hn].
    unfold same_target. by rewrite Ha, Hn.
  - apply target_step_nil. by eapply writeBuffer_target.
  - unfold processSendEvent in Ha. eapply (sends_target t env c _ H); [done|done| |done]. apply HG.
  - unfold recvReqRetry in Ha. res_inv. eapply (sends_target t env c _ H); [done|done| |done]. apply HG.
  - apply response_target in Ha. split.
    + intros m' [(o & Ho%list_elem_of_singleton) _]. discriminate.
    + intros _ m'. rewrite Ha. destruct (decide _) as [Hn|Hn].
      * rewrite Hn. split; [done|]. intros [[= <-] Hno]. destruct Hno. split; [done|]. eexists. by left.
      * split; [|by intros [? _]]. intros Hm'. split; [done|]. intros [_ (os & Ho%list_elem_of_singleton)].
        injection Ho as -> _. done.
  - apply target_step_nil. by eapply snoop_target.
  - by apply target_step_nil.
  - apply target_step_nil. unfold tryTiming in Ht. repeat case_match; by simplify_eq.
  - by apply target_step_nil.
  - apply target_step_nil. by eapply sched_target.
Qed.

End Steps.
End CacheTargets.

Module CacheProps.
Import Packet MSHR MSHRQueue CacheQueues MSHRLemmas MSHRCore MSHROps MSHRQueueLemmas MSHRMachine MSHRMoves MSHRFile
  CacheSystem CacheInv CacheSteps CacheEvents CacheRuns CacheTargets CacheExample.

(** The requests in an MSHR that have no answer yet, in the order of their arrival. *)
Definition outstanding (m : nat) (s : System) : list Z :=
  match mshrs (heap (cache s)) !! m with
  | Some x => (if bool_decide (m ∈ held s) then tail else id) (served (list_of (targets x) ++ list_of (deferredTargets x)))
  | None => []
  end.

Lemma served_app a b : served (a ++ b) = served a ++ served b.
Proof. unfold served, views. rewrite fmap_app. apply orders_app. Qed.

Lemma served_waiting x b : waiting (core x) b = (if b : bool then tail else id) (served (list_of (targets x) ++ list_of (deferredTargets x))).
Proof. unfold waiting. rewrite served_app. unfold served, all_views. by rewrite orders_app. Qed.

(** The needs of a target are those of its list: the MSHR will ask for a writable block when
    one of them writes, and only for an upgrade when none needs the data. *)
Definition satisfied_by (h : Heap) (tl : TargetList) (t : Target) : Prop :=
  source t ≠ FromSnoop → ∃ k, packets h !! pkt t = Some k ∧ isRequest (cmd k) = true ∧
    (cmd_needsWritable (cmd k) = true → tl_needsWritable tl = true) ∧ (upgradeLike (cmd k) = true → hasUpgrade tl = true).

Lemma covers_satisfied h tl : covers h (tview tl) → Forall (satisfied_by h tl) (list_of tl).
Proof.
  unfold covers. simpl. intros H. apply Forall_forall. intros t Ht. rewrite Forall_forall in H.
  apply (H (view t)). by apply list_elem_of_fmap_2.
Qed.

Lemma elem_served o l : o ∈ served l → ∃ t, t ∈ l ∧ is_req (view t) ∧ o = t_order t.
Proof.
  intros H. unfold served, orders, reqs, views in H. apply list_elem_of_fmap in H as (v & -> & H).
  apply list_elem_of_filter in H as [Hr H]. apply list_elem_of_fmap in H as (t & -> & H). by exists t.
Qed.

Section Cache_.
Context (pr : Params) (base n wb : nat) (h0 : Heap).

#[local] Abbreviation own := (seq base n).
#[local] Abbreviation start := (System_new base n wb h0).
#[local] Abbreviation Inv := (Inv own (seq 0 (wb + n)) (Z.of_nat n)).

Hypothesis some_mshrs : (0 < n)%nat.
Hypothesis some_writes : (0 < wb)%nat.
Hypothesis new_mshrs : fresh base n h0.

Lemma run_Inv es s : run pr own start es s → Inv s.
Proof. intros Hr. by eapply run_keeps; [|apply new_Inv]. Qed.

Lemma own_mshr s m : Inv s → m ∈ own → ∃ x, mshrs (heap (cache s)) !! m = Some x ∧
  Entry_ok (c_order (cache s)) (heap (cache s)) (core x) (is_held (held s) m).
Proof.
  intros [HG _] Hm. destruct (MInv_entry _ _ _ _ _ _ (g_mshrs _ _ _ _ _ HG) Hm) as [Ha|Hf].
  - destruct (i_waits _ _ _ _ _ (g_mshrs _ _ _ _ _ HG) m Ha) as (K & HK & HW). unfold cores in HK.
    rewrite list_lookup_fmap in HK. apply fmap_Some in HK as (x & Hx & ->). exists x. split; [done|by left].
  - destruct (i_free _ _ _ _ _ (g_mshrs _ _ _ _ _ HG) m Hf) as (K & HK & HF). unfold cores in HK.
    rewrite list_lookup_fmap in HK. apply fmap_Some in HK as (x & Hx & ->). exists x. split; [done|by right].
Qed.

(** C2: No request is lost, answered twice or out of order: in every run, what an MSHR has
    accepted is what it has answered, followed by the requests that wait in it. *)
Theorem requests_in_order es s m : run pr own start es s → m ∈ own →
  accepted (events_of m es) = answered (events_of m es) ++ outstanding m s.
Proof.
  intros Hr Hm. assert (Inv start) as HI0 by (by apply new_Inv).
  destruct (run_log pr own _ _ m _ _ _ Hr HI0 Hm (core MSHR_new) (fresh_core _ _ _ _ new_mshrs Hm)) as (K & HK & Hlog).
  rewrite fresh_waiting in Hlog. simpl in Hlog. rewrite Hlog. f_equal. destruct (own_mshr s m (run_Inv _ _ Hr) Hm) as (x & Hx & _).
  pose proof (cores_lookup _ _ _ Hx) as HK'. assert (K = core x) as -> by congruence. unfold outstanding. rewrite Hx. apply served_waiting.
Qed.

Lemma mshr_waits s m x : Inv s → mshrs (heap (cache s)) !! m = Some x → m ∈ allocatedList (mshrQueue (cache s)) →
  Waits (c_order (cache s)) (heap (cache s)) (core x) (is_held (held s) m).
Proof.
  intros [HG _] Hx Hm. destruct (i_waits _ _ _ _ _ (g_mshrs _ _ _ _ _ HG) m Hm) as (K & HK & HW).
  rewrite (cores_lookup _ _ _ Hx) in HK. by injection HK as <-.
Qed.

(** An MSHR in service is allocated: a free one is not in service. *)
Lemma service_allocated s m x : Inv s → m ∈ own → mshrs (heap (cache s)) !! m = Some x → inService x = true →
  m ∈ allocatedList (mshrQueue (cache s)).
Proof.
  intros [HG _] Hm Hx Hs. destruct (MInv_entry _ _ _ _ _ _ (g_mshrs _ _ _ _ _ HG) Hm) as [?|Hf]; [done|].
  destruct (i_free _ _ _ _ _ (g_mshrs _ _ _ _ _ HG) m Hf) as (K & HK & [_ Hks _]).
  rewrite (cores_lookup _ _ _ Hx) in HK. injection HK as <-. simpl in Hks. congruence.
Qed.

(** The steps from [s] during which [m] is in service. *)
Inductive stays (m : nat) (s : System) : System → Prop :=
  | stays_here : stays m s s
  | stays_step s1 es s2 : stays m s s1 → step pr own s1 es s2 → svc (heap (cache s2)) m = Some true → stays m s s2.

Lemma stays_frozen o m s s' : stays m s s' → Inv s → m ∈ own → svc (heap (cache s)) m = Some true →
  ∀ x, mshrs (heap (cache s)) !! m = Some x → Frozen o (core x) →
  Inv s' ∧ svc (heap (cache s')) m = Some true ∧ ∃ x', mshrs (heap (cache s')) !! m = Some x' ∧ Frozen o (core x').
Proof.
  intros Hst HI Hm Hs x Hx Hf. induction Hst as [|s1 es s2 Hst IH Hstep Hs2]; [split; [done|split; [done|by exists x]]|].
  destruct IH as (HI1 & Hs1 & x1 & Hx1 & Hf1). destruct (step_keeps _ _ _ _ _ _ _ Hstep HI1) as [HI2 Hb].
  split; [done|]. split; [done|]. pose proof (cores_lookup _ _ _ Hx1) as HK1. destruct (Hb m _ Hm HK1) as (K' & HK' & Hc).
  unfold cores in HK'. rewrite list_lookup_fmap in HK'. apply fmap_Some in HK' as (x2 & Hx2 & ->). exists x2. split; [done|].
  rewrite (svc_lookup _ _ _ Hx1) in Hs1. rewrite (svc_lookup _ _ _ Hx2) in Hs2. injection Hs1 as Hs1. injection Hs2 as Hs2.
  simpl in Hc. rewrite Hs1 in Hc. eapply chain_frozen; [exact Hc|done|done|done].
Qed.

(** C3: Once a snoop that invalidates has been remembered, the block that is on its way is
    the old one.  As long as it is on its way, a request that comes later does not become
    one of those that it will answer. *)
Theorem later_requests_wait es s m x s' x' : run pr own start es s → m ∈ own →
  mshrs (heap (cache s)) !! m = Some x → inService x = true → postInvalidate x = true →
  stays m s s' → mshrs (heap (cache s')) !! m = Some x' →
  postInvalidate x' = true ∧ Forall (λ o, o < c_order (cache s)) (served (list_of (targets x'))).
Proof.
  intros Hr Hm Hx Hs Hp Hst Hx'. assert (Inv s) as HI by (by eapply run_Inv).
  assert (Frozen (c_order (cache s)) (core x)) as Hf.
  { split; [done|]. intros v Hv Hq. destruct (mshr_waits s m x HI Hx (service_allocated s m x HI Hm Hx Hs)) as [_ _ Hb _ _ _ _ _ _ _ _].
    rewrite Forall_forall in Hb. apply Hb. unfold all_views. rewrite orders_app. apply elem_of_app. left.
    unfold orders. apply list_elem_of_fmap_2, list_elem_of_filter. done. }
  assert (svc (heap (cache s)) m = Some true) as Hsv by (by rewrite (svc_lookup _ _ _ Hx), Hs).
  destruct (stays_frozen _ m s s' Hst HI Hm Hsv x Hx Hf) as (_ & _ & x2 & Hx2 & [Hp2 Hf2]).
  assert (x2 = x') as -> by congruence. split; [done|]. apply Forall_forall. intros o Ho.
  apply elem_served in Ho as (t & Ht & Hq & ->). apply (Hf2 (view t)); [by apply list_elem_of_fmap_2|done].
Qed.

(** C11: Each MSHR that waits asks for enough: its list asks for a writable block when a
    target writes, and tells when one upgrades; targets that are deferred are ready for a
    full read, and none of them upgrades a block that was invalidated; before it is sent no
    snoop is among its targets. *)
Theorem asks_for_enough es s m x : run pr own start es s → m ∈ allocatedList (mshrQueue (cache s)) →
  mshrs (heap (cache s)) !! m = Some x →
  Forall (satisfied_by (heap (cache s)) (targets x)) (list_of (targets x)) ∧
  Forall (satisfied_by (heap (cache s)) (deferredTargets x)) (list_of (deferredTargets x)) ∧
  list_of (targets x) ≠ [] ∧ Forall (λ t, source t = FromCPU) (list_of (deferredTargets x)) ∧
  (inService x = false → Forall (λ t, source t ≠ FromSnoop) (list_of (targets x))) ∧
  (inService x = true → postInvalidate x = true → Forall (λ t, ∃ k, packets (heap (cache s)) !! pkt t = Some k ∧
     upgradeLike (cmd k) = false) (list_of (deferredTargets x))).
Proof.
  intros Hr Hm Hx. assert (Inv s) as HI by (by eapply run_Inv). destruct (mshr_waits s m x HI Hx Hm) as [Ht _ _ Hsn Hd Hc Hdc Hu _ _ _].
  simpl in *. unfold views in *. split; [by apply covers_satisfied|]. split; [by apply covers_satisfied|].
  split; [by destruct (list_of (targets x))|]. rewrite Forall_fmap in Hd. split; [exact Hd|].
  split; [intros Hs; apply Hsn in Hs; unfold no_snoop in Hs; rewrite Forall_fmap in Hs; exact Hs|].
  intros Hs Hp. specialize (Hu Hs Hp). unfold no_upgrade in Hu. rewrite Forall_fmap in Hu.
  apply Forall_forall. intros t Hin. rewrite Forall_forall in Hu, Hd. apply (Hu t Hin). simpl. by rewrite (Hd t Hin).
Qed.

(** The lists of the queue of MSHRs fit: each MSHR is allocated or free, the ready list
    has the allocated ones that are not in service, once each, and the counters count. *)
Theorem queue_lists_fit es s : run pr own start es s → let q := mshrQueue (cache s) in
  allocatedList q ++ freeList q ≡ₚ own ∧ NoDup (readyList q) ∧
  (∀ m, m ∈ readyList q ↔ m ∈ allocatedList q ∧ inService <$> mshrs (heap (cache s)) !! m = Some false) ∧
  allocated q = Z.of_nat (length (allocatedList q)) ∧
  numInService q = allocated q - Z.of_nat (length (readyList q)) ∧
  (isFull q = true ↔ freeList q = []).
Proof.
  intros Hr q. assert (Inv s) as [HG _] by (by eapply run_Inv). destruct (g_mshrs _ _ _ _ _ HG) as [[H1 H2 H3 H4 H5 H6 H7] Hn Hnr _ _].
  fold q in H1, H3, H4, H5, H7, Hn, Hnr. split; [done|]. split; [done|]. split; [|split; [done|split; [done|]]].
  - intros m. rewrite H5. unfold svc, cores. rewrite list_lookup_fmap. by destruct (mshrs _ !! m).
  - apply Permutation_length in H1. rewrite length_app in H1. unfold isFull. rewrite Z.leb_le, Hn, Hnr, H3.
    rewrite <-length_zero_iff_nil. lia.
Qed.

(** C14: The processor side is blocked exactly while the MSHRs are full, the write buffer is,
    or an MSHR was left without room for a target; one that was refused is owed a retry, which
    waits for the block to end or is scheduled.  An MSHR is left without room by a request
    that joins it, when it then has numTarget targets or more, and has room again with the
    next response that comes for it: each step that a request joins an MSHR by decides it by
    the targets of that MSHR, every other step leaves it but for a response.  (The code
    does not look at the targets after the first one of an MSHR, nor after a snoop's.) *)
Theorem blocked_while_full es s : run pr own start es s → let c := cache s in
  blocked c = (if isFull (mshrQueue c) then 1 else 0) + (if isFull (writeBuffer c) then 2 else 0) +
              (if bool_decide (noTargetMSHR c = None) then 0 else 4) ∧
  port_blocked c = isBlocked c ∧
  (mustSendRetry c = true → port_blocked c = true ∨ sendRetryEvent c ≠ None) ∧
  (sendRetryEvent c ≠ None → mustSendRetry c = true ∧ port_blocked c = false) ∧
  noTargetMSHR (cache start) = None ∧
  ∀ es1 s', step pr own s es1 s' →
    (∀ m, joins es1 c m → ∃ x', mshrs (heap (cache s')) !! m = Some x' ∧
       noTargetMSHR (cache s') = if numTarget pr <=? getNumTargets x' then Some m else None) ∧
    ((∀ m, ¬ joins es1 c m) → ∀ m, noTargetMSHR (cache s') = Some m ↔ noTargetMSHR c = Some m ∧ ¬ responds es1 c m).
Proof.
  intros Hr c. assert (Inv s) as HI by (by eapply run_Inv). pose proof HI as [HG _].
  destruct (g_bits _ _ _ _ _ HG) as [Hb Hp He Hm]. fold c in Hb, Hp, He, Hm.
  split; [|split; [|split; [done|split; [done|split; [done|]]]]].
  - rewrite Hb. unfold code. f_equal. by destruct (noTargetMSHR c).
  - rewrite Hp. unfold isBlocked. rewrite Hb. by destruct (isFull (mshrQueue c)), (isFull (writeBuffer c)), (bool_decide (noTargetMSHR c ≠ None)).
  - intros es1 s' Hs. by eapply step_target.
Qed.

(** C15: What waits to be sent is not forgotten: while a miss or a write is pending, the send
    event is scheduled or memory owes a retry. *)
Theorem pending_will_be_sent es s : run pr own start es s →
  readyList (mshrQueue (cache s)) ≠ [] ∨ readyList (writeBuffer (cache s)) ≠ [] →
  PacketQueue.sendEvent (reqQueue (cache s)) ≠ None ∨ PacketQueue.waitingOnRetry (reqQueue (cache s)) = true.
Proof.
  intros Hr Hp. assert (Inv s) as [_ HL] by (by eapply run_Inv). destruct (HL Hp) as [Ha|Ha]; [left|by right].
  unfold PacketQueue.scheduled in Ha. by destruct (PacketQueue.sendEvent (reqQueue (cache s))).
Qed.

(** C12: A cache refines the MSHRs that it has: each step of the cache takes each of its MSHRs
    along a chain of moves of the abstract machine, with the requests that the step says it
    accepts and answers. *)
Theorem cache_refines_machine es s es1 s' m x : run pr own start es s → step pr own s es1 s' → m ∈ own →
  mshrs (heap (cache s)) !! m = Some x →
  ∃ x', mshrs (heap (cache s')) !! m = Some x' ∧
    chain (inService x) (c_order (cache s)) (heap (cache s)) (core x) (bool_decide (m ∈ held s)) (events_of m es1)
      (c_order (cache s')) (heap (cache s')) (core x') (bool_decide (m ∈ held s')).
Proof.
  intros Hr Hs Hm Hx. destruct (step_keeps _ _ _ _ _ _ _ Hs (run_Inv _ _ Hr)) as [_ Hb].
  destruct (Hb m _ Hm (cores_lookup _ _ _ Hx)) as (K' & HK' & Hc). unfold cores in HK'. rewrite list_lookup_fmap in HK'.
  apply fmap_Some in HK' as (x' & Hx' & ->). by exists x'.
Qed.

End Cache_.

Lemma requests_in_order_witness :
  run ex_params ex_own ex_start (events_after ex_first ex_start ++ events_after ex_second ex_snooped ++ events_after ex_third ex_blocked) ex_answered ∧
  [0; 2] = [0] ++ outstanding 0 ex_answered.
Proof.
  assert (run ex_params ex_own ex_start (events_after ex_first ex_start ++ events_after ex_second ex_snooped ++ events_after ex_third ex_blocked) ex_answered) as Hr
    by exact (run_app _ _ _ _ _ _ _ ex_first_runs (run_app _ _ _ _ _ _ _ ex_second_runs ex_third_runs)).
  split; [exact Hr|].
  exact (requests_in_order ex_params 0 2 2 ex_heap ex_two ex_two new_heap_fresh _ _ 0%nat Hr ex_own_0).
Defined.

(** MSHR 0 stays in service while actions are performed. *)
Fixpoint in_service_during (m : nat) (l : list action) (s : System) : bool :=
  match l with
  | [] => true
  | a :: l =>
      match perform ex_params a s with
      | Some r => bool_decide (svc (heap (cache r.2)) m = Some true) && in_service_during m l r.2
      | None => false
      end
  end.

Lemma stays_trans pr base n m s s1 s2 : stays pr base n m s s1 → stays pr base n m s1 s2 → stays pr base n m s s2.
Proof. intros H1 H2. induction H2 as [|s3 es s4 H2 IH Hs Hv]; [done|]. by eapply stays_step. Qed.

Lemma performs_stays m l : ∀ s, in_service_during m l s = true → stays ex_params 0 2 m s (state_after l s).
Proof.
  induction l as [|a l IH]; intros s H; simpl in H; [unfold state_after; simpl; constructor|].
  destruct (perform ex_params a s) as [[es s1]|] eqn:Ha; [|done]. apply andb_true_iff in H as [Hv H].
  apply bool_decide_eq_true in Hv. cbn [snd] in *. apply stays_trans with s1.
  - eapply stays_step; [constructor|by eapply perform_sound|done].
  - specialize (IH _ H). unfold state_after in *. simpl. rewrite Ha. simpl. destruct (performs ex_params l s1) as [[? ?]|] eqn:Hl; [exact IH|].
    exfalso. clear -H Hl. revert s1 H Hl. induction l as [|b l IH]; intros s1 H Hl; [done|]. simpl in *.
    destruct (perform ex_params b s1) as [[es2 s2]|]; [|done]. simpl in *. apply andb_true_iff in H as [_ H].
    apply (IH _ H). by destruct (performs ex_params l s2).
Qed.

Lemma later_requests_wait_witness : stays ex_params 0 2 0 ex_snooped ex_blocked ∧
  postInvalidate (ex_mshr 0 ex_blocked) = true ∧
  Forall (λ o, o < c_order (cache ex_snooped)) (served (list_of (targets (ex_mshr 0 ex_blocked)))) ∧
  served (list_of (deferredTargets (ex_mshr 0 ex_blocked))) = [2].
Proof.
  assert (stays ex_params 0 2 0 ex_snooped ex_blocked) as Hst by (apply (performs_stays 0 ex_second); vm_compute; reflexivity).
  split; [exact Hst|].
  destruct (later_requests_wait ex_params 0 2 2 ex_heap ex_two ex_two new_heap_fresh _ ex_snooped 0 (ex_mshr 0 ex_snooped) ex_blocked
              (ex_mshr 0 ex_blocked) ex_first_runs ex_own_0) as [H1 H2]; try (vm_compute; reflexivity); [exact Hst|].
  split; [exact H1|]. split; [exact H2|]. vm_compute. reflexivity.
Defined.

Lemma asks_for_enough_witness :
  Forall (satisfied_by (heap (cache ex_blocked)) (targets (ex_mshr 1 ex_blocked))) (list_of (targets (ex_mshr 1 ex_blocked))) ∧
  tl_needsWritable (targets (ex_mshr 1 ex_blocked)) = true.
Proof.
  split; [|vm_compute; reflexivity].
  refine (proj1 (asks_for_enough ex_params 0 2 2 ex_heap ex_two ex_two new_heap_fresh _ ex_blocked 1 (ex_mshr 1 ex_blocked) ex_blocked_runs _ _)).
  - apply (bool_decide_unpack _). vm_compute. exact I.
  - vm_compute. reflexivity.
Defined.

Lemma queue_lists_fit_witness : allocatedList (mshrQueue (cache ex_blocked)) ++ freeList (mshrQueue (cache ex_blocked)) ≡ₚ seq 0 2 ∧
  readyList (mshrQueue (cache ex_blocked)) = [1%nat] ∧ isFull (mshrQueue (cache ex_blocked)) = true.
Proof.
  split; [|split; vm_compute; reflexivity].
  exact (proj1 (queue_lists_fit ex_params 0 2 2 ex_heap ex_two ex_two new_heap_fresh _ ex_blocked ex_blocked_runs)).
Defined.

(** Two targets are all an MSHR has room for: the second read of its block blocks the
    processor. *)
Definition ex_small : Params := mkParams 2 64 false 1 true.
Definition ex_one : System := match performs ex_small [a_miss 1 0 2; a_send 2 ex_env] ex_start with Some r => r.2 | None => ex_start end.
Definition ex_joined : list (nat * event) * System := default ([], ex_one) (perform ex_small (a_miss 4 1 5) ex_one).

Lemma blocked_while_full_witness : joins ex_joined.1 (cache ex_one) 0 ∧ noTargetMSHR (cache ex_joined.2) = Some 0%nat ∧
  blocked (cache ex_one) = 0 ∧ blocked (cache ex_joined.2) = 4 ∧
  port_blocked (cache ex_blocked) = isBlocked (cache ex_blocked) ∧
  blocked (cache ex_blocked) = 1 ∧ mustSendRetry (cache ex_blocked) = true.
Proof.
  assert (run ex_small (seq 0 2) (System_new 0 2 2 ex_heap) [(0%nat, Accepted 0)] ex_one) as Hr.
  { apply (performs_sound ex_small (seq 0 2) [a_miss 1 0 2; a_send 2 ex_env]). vm_compute. reflexivity. }
  assert (step ex_small (seq 0 2) ex_one ex_joined.1 ex_joined.2) as Hs.
  { apply (perform_sound ex_small _ (a_miss 4 1 5)). vm_compute. reflexivity. }
  assert (joins ex_joined.1 (cache ex_one) 0) as Hj.
  { split; [exists 1; vm_compute; by left|]. vm_compute. by left. }
  split; [exact Hj|]. split.
  { destruct (blocked_while_full ex_small 0 2 2 ex_heap ex_two ex_two new_heap_fresh _ _ Hr) as (_ & _ & _ & _ & _ & Hst).
    destruct (proj1 (Hst _ _ Hs) 0%nat Hj) as (x & Hx & Hn). vm_compute in Hx. injection Hx as <-. rewrite Hn. reflexivity. }
  split; [vm_compute; reflexivity|]. split; [vm_compute; reflexivity|]. split; [|split; vm_compute; reflexivity].
  exact (proj1 (proj2 (blocked_while_full ex_params 0 2 2 ex_heap ex_two ex_two new_heap_fresh _ ex_blocked ex_blocked_runs))).
Defined.

Lemma pending_will_be_sent_witness : readyList (mshrQueue (cache ex_blocked)) = [1%nat] ∧
  (PacketQueue.sendEvent (reqQueue (cache ex_blocked)) ≠ None ∨ PacketQueue.waitingOnRetry (reqQueue (cache ex_blocked)) = true).
Proof.
  assert (readyList (mshrQueue (cache ex_blocked)) = [1%nat]) as Hr by (vm_compute; reflexivity). split; [exact Hr|].
  refine (pending_will_be_sent ex_params 0 2 2 ex_heap ex_two ex_two new_heap_fresh _ ex_blocked ex_blocked_runs (or_introl _)).
  rewrite Hr. discriminate.
Defined.

Definition ex_response : action := a_response 7 0 (ex_packet 0 ReadResp) 8.
Definition ex_response_events : list (nat * event) := match perform ex_params ex_response ex_blocked with Some r => r.1 | None => [] end.
Definition ex_response_state : System := match perform ex_params ex_response ex_blocked with Some r => r.2 | None => ex_blocked end.

Lemma cache_refines_machine_witness : events_of 0 ex_response_events = [Answered [0]] ∧
  ∃ x', mshrs (heap (cache ex_response_state)) !! 0%nat = Some x' ∧
    chain true (c_order (cache ex_blocked)) (heap (cache ex_blocked)) (core (ex_mshr 0 ex_blocked)) false (events_of 0 ex_response_events)
      (c_order (cache ex_response_state)) (heap (cache ex_response_state)) (core x') false.
Proof.
  split; [vm_compute; reflexivity|].
  destruct (cache_refines_machine ex_params 0 2 2 ex_heap ex_two ex_two new_heap_fresh _ ex_blocked ex_response_events ex_response_state 0
              (ex_mshr 0 ex_blocked) ex_blocked_runs) as (x' & Hx' & Hc); [| |vm_compute; reflexivity|].
  - apply (perform_sound ex_params _ ex_response). vm_compute. reflexivity.
  - exact ex_own_0.
  - exists x'. split; [exact Hx'|]. assert (inService (ex_mshr 0 ex_blocked) = true) as Hi by (vm_compute; reflexivity).
    match type of Hc with chain _ _ _ _ ?b1 _ _ _ _ ?b2 =>
      assert (b1 = false) as H1 by (vm_compute; reflexivity); assert (b2 = false) as H2 by (vm_compute; reflexivity) end.
    rewrite Hi, H1, H2 in Hc. exact Hc.
Defined.

(** A locked read that hits takes an MSHR, for the write that ends the sequence to free.  When
    it was the last one the processor is blocked, and the write refused. *)
Definition ex_locked_heap : Heap := mkHeap [ex_packet 0 LockedRMWReadReq; ex_packet 0 LockedRMWWriteReq] [MSHR_new].
Definition ex_locked : System := state_after [a_lockedRead 1 0; a_refuse 1] (System_new 0 1 2 ex_locked_heap).

Lemma locked_write_refused : run ex_params (seq 0 1) (System_new 0 1 2 ex_locked_heap)
    [(0%nat, Accepted 0); (0%nat, Answered [0])] ex_locked ∧
  0%nat ∈ held ex_locked ∧ allocatedList (mshrQueue (cache ex_locked)) = [0%nat] ∧
  inService (ex_mshr 0 ex_locked) = true ∧ readyList (mshrQueue (cache ex_locked)) = [] ∧ blocked (cache ex_locked) = 1 ∧
  mustSendRetry (cache ex_locked) = true ∧ sendRetryEvent (cache ex_locked) = None.
Proof.
  split; [|split; [apply (bool_decide_unpack _); vm_compute; exact I|repeat split; vm_compute; reflexivity]].
  apply (performs_sound ex_params (seq 0 1) [a_lockedRead 1 0; a_refuse 1]). vm_compute. reflexivity.
Qed.

End CacheProps.
