(* ===== verification/AbstractMem.v ===== *)
(** * mem/abstract_mem: memory

    The bytes of a memory, the load-locked addresses it monitors, and the port of
    SimpleMemory: a busy time per request, a queue of responses and retries.

    The backing store is shared by interleaved memories; it is a list of bytes that starts
    at the first address of the range.  What Packet leaves out of a request (its context, the
    value that a store conditional returns or a conditional swap compares with) is in a
    [Requester]. *)

From Stdlib Require Import ZArith Lia.
From stdpp Require Import base numbers option list.
From S2P Require Import Prelude Flags AddrRange Packet PacketQueue AddrRangeMap XBarLayer XBar.

Module AbstractMem.
Import Packet.

Definition InvalidContextID : Z := -1.

(** [atomicOp]: the functor of an atomic operation, on the bytes from the address on. *)
Record Requester := mkRequester {
  contextId_ : option Z;
  isInstFetch : bool;
  isCondSwap : bool;
  extraData : option Z;
  atomicOp : option (list Z → list Z)
}.

Definition setExtraData (d : Z) (q : Requester) : Requester :=
  mkRequester (contextId_ q) (isInstFetch q) (isCondSwap q) (Some d) (atomicOp q).
Definition getExtraData (q : Requester) : result Z := match extraData q with Some d => Ok d | None => Err AssertFailed end.
Definition contextId (q : Requester) : result Z := match contextId_ q with Some c => Ok c | None => Err AssertFailed end.
Definition getPaddr (r : Request) : result Z := match paddr r with Some a => Ok a | None => Err AssertFailed end.
Definition getAtomicOpFunctor (q : Requester) : result (list Z → list Z) :=
  match atomicOp q with Some f => Ok f | None => Err AssertFailed end.

(** ** Load-locked addresses *)

Record LockedAddr := mkLocked { l_addr : Z; l_contextId : Z }.

Definition Addr_Mask : Z := 0xf.
Definition mask (paddr : Z) : Z := paddr .& unot 64 Addr_Mask.

Definition matchesContext (l : LockedAddr) (q : Requester) : result bool :=
  _ ← assert_ok (negb (l_contextId l =? InvalidContextID)); c ← contextId q; Ok (l_contextId l =? c).

(** [backdoor]: who holds a pointer to the memory and will be told when it is withdrawn. *)
Record Memory := mkMemory {
  range : AddrRange.AddrRange;
  pmem : option (list Z);
  writeable : bool;
  lockedAddrList : list LockedAddr;
  backdoor_ptr : bool;
  backdoor : list nat
}.

Definition set_pmem (b : list Z) (m : Memory) : Memory :=
  mkMemory (range m) (Some b) (writeable m) (lockedAddrList m) (backdoor_ptr m) (backdoor m).
Definition set_locked (l : list LockedAddr) (m : Memory) : Memory :=
  mkMemory (range m) (pmem m) (writeable m) l (backdoor_ptr m) (backdoor m).
Definition invalidate (m : Memory) : Memory :=
  mkMemory (range m) (pmem m) (writeable m) (lockedAddrList m) (backdoor_ptr m) [].

Definition AbstractMemory_new (r : AddrRange.AddrRange) (w : bool) : result Memory :=
  _ ← panic_if (negb (AddrRange.valid r) || (AddrRange.size r =? 0));
  Ok (mkMemory r None w [] false []).

Definition setBackingStore (b : list Z) (m : Memory) : Memory :=
  let m := if backdoor_ptr m then invalidate m else m in
  mkMemory (range m) (Some b) (writeable m) (lockedAddrList m) (negb (AddrRange.interleaved (range m))) (backdoor m).

(** The caller [id] gets the pointer or not. *)
Definition getBackdoor (id : nat) (m : Memory) : bool * Memory :=
  if bool_decide (lockedAddrList m = []) && backdoor_ptr m
  then (true, mkMemory (range m) (pmem m) (writeable m) (lockedAddrList m) (backdoor_ptr m) (id :: backdoor m))
  else (false, m).

Definition addLockedAddr (a : LockedAddr) (m : Memory) : Memory :=
  set_locked (lockedAddrList m ++ [a]) (invalidate m).

(** The list with the entry of the context moved to [paddr], when it has one. *)
Fixpoint track (paddr : Z) (q : Requester) (l : list LockedAddr) : result (option (list LockedAddr)) :=
  match l with
  | [] => Ok None
  | x :: l =>
      b ← matchesContext x q;
      if b : bool then Ok (Some (mkLocked paddr (l_contextId x) :: l))
      else r ← track paddr q l; Ok (option_map (cons x) r)
  end.

Definition trackLoadLocked (p : Packet) (q : Requester) (m : Memory) : result Memory :=
  a ← getPaddr (req p);
  r ← track (mask a) q (lockedAddrList m);
  match r with
  | Some l => Ok (set_locked l m)
  | None => c ← contextId q; Ok (invalidate (set_locked (mkLocked (mask a) c :: lockedAddrList m) m))
  end.

Fixpoint has_lock (paddr : Z) (q : Requester) (l : list LockedAddr) : result bool :=
  match l with
  | [] => Ok false
  | x :: l =>
      b ← (if l_addr x =? paddr then matchesContext x q else Ok false);
      if b : bool then Ok true else has_lock paddr q l
  end.

(** What stays, and the contexts whose exclusive monitor is cleared. *)
Fixpoint clear_locks (paddr : Z) (q : Requester) (l : list LockedAddr) : result (list LockedAddr * list Z) :=
  match l with
  | [] => Ok ([], [])
  | x :: l =>
      if l_addr x =? paddr then
        let owner_cid := l_contextId x in
        _ ← assert_ok (negb (owner_cid =? InvalidContextID));
        let requestor_cid := default InvalidContextID (contextId_ q) in
        '(l, cs) ← clear_locks paddr q l;
        Ok (l, if owner_cid =? requestor_cid then cs else owner_cid :: cs)
      else '(l, cs) ← clear_locks paddr q l; Ok (x :: l, cs)
  end.

Definition checkLockedAddrList (p : Packet) (q : Requester) (m : Memory) : result (bool * Requester * Memory * list Z) :=
  a ← getPaddr (req p);
  let paddr := mask a in
  let llsc := isLLSC (cmd p) in
  '(allowStore, q) ←
    (if llsc : bool then b ← has_lock paddr q (lockedAddrList m); Ok (b, setExtraData (if b : bool then 1 else 0) q)
     else Ok (true, q));
  if allowStore : bool then
    '(l, cs) ← clear_locks paddr q (lockedAddrList m);
    Ok (true, q, set_locked l m, cs)
  else Ok (false, q, m, []).

Definition writeOK (p : Packet) (q : Requester) (m : Memory) : result (bool * Requester * Memory * list Z) :=
  if negb (writeable m) then Ok (false, q, m, [])
  else if bool_decide (lockedAddrList m = []) then
    let llsc := isLLSC (cmd p) in
    Ok (negb llsc, if llsc then setExtraData 0 q else q, m, [])
  else checkLockedAddrList p q m.

(** ** Accesses *)

(** The bytes from the address on; before the backing store there is nothing. *)
Definition host_offset (a : Z) (m : Memory) : result nat :=
  let off := a - AddrRange.start (range m) in if off <? 0 then Err Undefined else Ok (Z.to_nat off).

Definition with_bytes (off : nat) (f : list Z → result (list Z)) (m : Memory) : result Memory :=
  match pmem m with
  | None => Ok m
  | Some b => s ← f (drop off b); Ok (set_pmem (take off b ++ s) m)
  end.

Definition read_bytes (off : nat) (p : Packet) (m : Memory) : result Packet :=
  match pmem m with None => Ok p | Some b => setData p (drop off b) end.

(** The [n] bytes of a number, least significant first. *)
Definition le_bytes (n : nat) (v : Z) : list Z := (λ i, (v .>> (8 * Z.of_nat i)) .& 255) <$> seq 0 n.

(** memcmp of the first [n] bytes. *)
Definition same_bytes (n : Z) (v : Z) (s : list Z) : result bool :=
  if Z.of_nat (length s) <? n then Err Undefined
  else Ok (bool_decide (take (Z.to_nat n) s = le_bytes (Z.to_nat n) v)).

Definition swap (off : nat) (p : Packet) (q : Requester) (m : Memory) : result (Packet * Memory) :=
  if isAtomic (req p) then
    match pmem m with
    | None => Ok (p, m)
    | Some b =>
        p' ← setData p (drop off b);
        f ← getAtomicOpFunctor q;
        Ok (p', set_pmem (take off b ++ f (drop off b)) m)
    end
  else
    match pmem m with
    | None => Err Panic
    | Some b =>
        s ← getSize p;
        overwrite_val ← writeData p (replicate (Z.to_nat s) 0);
        p' ← setData p (drop off b);
        overwrite_mem ←
          (if isCondSwap q then
             if s =? 8 then c ← getExtraData q; same_bytes 8 c (drop off b)
             else if s =? 4 then c ← getExtraData q; same_bytes 4 (u32 c) (drop off b)
             else Err Panic
           else Ok true);
        b' ← (if overwrite_mem : bool then x ← memcpy (drop off b) 0 overwrite_val 0 s; Ok (take off b ++ x) else Ok b);
        _ ← assert_ok (negb (isInstFetch q));
        Ok (p', set_pmem b' m)
    end.

(** The packet, its request and the memory afterwards, and the contexts whose monitors are
    cleared. *)
Definition access (p : Packet) (q : Requester) (m : Memory) : result (Packet * Requester * Memory * list Z) :=
  if cacheResponding p then Ok (p, q, m, [])
  else if bool_decide (cmd p = CleanEvict) || bool_decide (cmd p = WritebackClean) then Ok (p, q, m, [])
  else
    r ← XBar.getAddrRange p;
    sub ← AddrRange.isSubset r (range m);
    _ ← assert_ok sub;
    a ← getAddr p;
    off ← host_offset a m;
    '(p, q, m, cs) ←
      (if bool_decide (cmd p = SwapReq) then '(p, m) ← swap off p q m; Ok (p, q, m, [])
       else if isRead (cmd p) then
         _ ← assert_ok (negb (isWrite (cmd p)));
         m ← (if isLLSC (cmd p) then _ ← assert_ok (negb (fromCache (cmd p))); trackLoadLocked p q m else Ok m);
         p ← read_bytes off p m;
         Ok (p, q, m, [])
       else if isInvalidate (cmd p) || isClean (cmd p) then
         _ ← assert_ok (negb (isWrite (cmd p))); Ok (p, q, m, [])
       else if isWrite (cmd p) then
         '(ok, q, m, cs) ← writeOK p q m;
         if ok : bool then
           m ← with_bytes off (writeData p) m;
           _ ← assert_ok (negb (isInstFetch q));
           Ok (p, q, m, cs)
         else Ok (p, q, m, cs)
       else Err Panic);
    if needsResponse (cmd p) then p ← makeResponse p; Ok (p, q, m, cs) else Ok (p, q, m, cs).

Definition functionalAccess (p : Packet) (m : Memory) : result (Packet * Memory) :=
  r ← XBar.getAddrRange p;
  sub ← AddrRange.isSubset r (range m);
  _ ← assert_ok sub;
  a ← getAddr p;
  off ← host_offset a m;
  if isRead (cmd p) then p ← read_bytes off p m; p ← makeResponse p; Ok (p, m)
  else if isWrite (cmd p) then m ← with_bytes off (writeData p) m; p ← makeResponse p; Ok (p, m)
  else if isPrint (cmd p) then Ok (p, m)
  else Err Panic.

End AbstractMem.
