(* ===== verification/SimpleMem.v ===== *)
(** * mem/simple_mem: a memory with a fixed latency and a bandwidth

    A request is carried out when it is accepted.  The port is then busy for as long as the
    request takes at the bandwidth of the memory, and the response waits in a queue.

    [duration] is the time of a request by its size, which the code computes in floating
    point; the latency of a response, which may be drawn at random, is an argument. *)

From Stdlib Require Import ZArith Lia.
From stdpp Require Import base numbers option list.
From S2P Require Import Prelude Packet PacketQueue AbstractMem.

Module SimpleMem.
Import Packet PacketQueue AbstractMem.

(** The events are the times they are scheduled for. *)
Record SimpleMemory := mkSimple {
  mem : Memory;
  packetQueue : list DeferredPacket;
  isBusy : bool;
  s_retryReq : bool;
  s_retryResp : bool;
  releaseEvent : option Z;
  dequeueEvent : option Z;
  draining : bool
}.

Definition set_mem (m : Memory) (s : SimpleMemory) : SimpleMemory :=
  mkSimple m (packetQueue s) (isBusy s) (s_retryReq s) (s_retryResp s) (releaseEvent s) (dequeueEvent s) (draining s).
Definition set_queue (l : list DeferredPacket) (s : SimpleMemory) : SimpleMemory :=
  mkSimple (mem s) l (isBusy s) (s_retryReq s) (s_retryResp s) (releaseEvent s) (dequeueEvent s) (draining s).
Definition set_busy (b : bool) (e : option Z) (s : SimpleMemory) : SimpleMemory :=
  mkSimple (mem s) (packetQueue s) b (s_retryReq s) (s_retryResp s) e (dequeueEvent s) (draining s).
Definition set_s_retryReq (b : bool) (s : SimpleMemory) : SimpleMemory :=
  mkSimple (mem s) (packetQueue s) (isBusy s) b (s_retryResp s) (releaseEvent s) (dequeueEvent s) (draining s).
Definition set_dequeue (r : bool) (e : option Z) (s : SimpleMemory) : SimpleMemory :=
  mkSimple (mem s) (packetQueue s) (isBusy s) (s_retryReq s) r (releaseEvent s) e (draining s).
Definition set_draining (b : bool) (s : SimpleMemory) : SimpleMemory :=
  mkSimple (mem s) (packetQueue s) (isBusy s) (s_retryReq s) (s_retryResp s) (releaseEvent s) (dequeueEvent s) b.

Definition SimpleMemory_new (m : Memory) : SimpleMemory := mkSimple m [] false false false None None false.

(** EventManager::schedule *)
Definition schedule (curTick when : Z) (e : option Z) : result (option Z) :=
  _ ← assert_ok (bool_decide (e = None)); _ ← assert_ok (curTick <=? when); Ok (Some when).

Section Memory_.
Context (duration : Z → Z).

Definition recvAtomic (p : Packet) (q : Requester) (s : SimpleMemory) : result (Packet * Requester * SimpleMemory * list Z) :=
  _ ← panic_if (cacheResponding p);
  '(p, q, m, cs) ← access p q (mem s);
  Ok (p, q, set_mem m s, cs).

Fixpoint try_responses (p : Packet) (l : list DeferredPacket) : result (Packet * list DeferredPacket) :=
  match l with
  | [] => Ok (p, [])
  | d :: l =>
      '(done, p, k) ← trySatisfyFunctional_pkt p (dpkt d);
      let d := mkDeferred (tick d) k in
      if done : bool then Ok (p, d :: l) else '(p, l) ← try_responses p l; Ok (p, d :: l)
  end.

Definition recvFunctional (p : Packet) (s : SimpleMemory) : result (Packet * SimpleMemory) :=
  '(p, m) ← functionalAccess p (mem s);
  '(p, l) ← try_responses p (packetQueue s);
  Ok (p, set_queue l (set_mem m s)).

(** The queue with the response after the last that has to leave before it; [before] is the
    part that was not passed yet, last first. *)
Fixpoint place (when : Z) (p : Packet) (before after : list DeferredPacket) : result (list DeferredPacket) :=
  match before with
  | [] => Ok (mkDeferred when p :: after)
  | [it] => Ok (it :: mkDeferred when p :: after)
  | it :: before' =>
      if when <? tick it then
        m ← matchAddr_pkt (dpkt it) p;
        if m : bool then Ok (reverse before ++ mkDeferred when p :: after) else place when p before' (it :: after)
      else Ok (reverse before ++ mkDeferred when p :: after)
  end.

Definition recvTimingReq (curTick receive_delay latency : Z) (p : Packet) (q : Requester) (s : SimpleMemory)
    : result (bool * Requester * SimpleMemory * list Z) :=
  _ ← panic_if (cacheResponding p);
  _ ← panic_if (negb (isRead (cmd p) || isWrite (cmd p)));
  if s_retryReq s then Ok (false, q, s, [])
  else if isBusy s then Ok (false, q, set_s_retryReq true s, [])
  else
    sz ← getSize p;
    s ← (if duration sz =? 0 then Ok s
         else e ← schedule curTick (curTick + duration sz) (releaseEvent s); Ok (set_busy true e s));
    let needs := needsResponse (cmd p) in
    '(p, q, s, cs) ← recvAtomic p q s;
    if needs : bool then
      _ ← assert_ok (isResponse (cmd p));
      let when_to_send := curTick + receive_delay + latency in
      l ← place when_to_send p (reverse (packetQueue s)) [];
      let s := set_queue l s in
      s ← (if negb (s_retryResp s) && bool_decide (dequeueEvent s = None) then
             d ← deref (last l); e ← schedule curTick (tick d) (dequeueEvent s); Ok (set_dequeue (s_retryResp s) e s)
           else Ok s);
      Ok (true, q, s, cs)
    else Ok (true, q, s, cs).

(** The event has fired; the result is whether the peer is told to try again. *)
Definition release (s : SimpleMemory) : result (bool * SimpleMemory) :=
  _ ← assert_ok (isBusy s);
  let s := set_busy false None s in
  if s_retryReq s then Ok (true, set_s_retryReq false s) else Ok (false, s).

(** [accepted]: whether the peer takes the response.  The packet that is sent, when it is,
    and whether draining is done. *)
Definition dequeue (curTick : Z) (accepted : bool) (s : SimpleMemory) : result (option Packet * bool * SimpleMemory) :=
  match packetQueue s with
  | [] => Err AssertFailed
  | d :: l =>
      let s := set_dequeue (negb accepted) (dequeueEvent s) s in
      if accepted then
        let s := set_queue l s in
        match l with
        | d' :: _ => Ok (Some (dpkt d), false, set_dequeue (s_retryResp s) (Some (Z.max (tick d') curTick)) s)
        | [] => if draining s then Ok (Some (dpkt d), true, set_draining false s) else Ok (Some (dpkt d), false, s)
        end
      else Ok (None, false, s)
  end.

(** The event fires. *)
Definition processDequeue (curTick : Z) (accepted : bool) (s : SimpleMemory) : result (option Packet * bool * SimpleMemory) :=
  dequeue curTick accepted (set_dequeue (s_retryResp s) None s).

Definition recvRespRetry (curTick : Z) (accepted : bool) (s : SimpleMemory) : result (option Packet * bool * SimpleMemory) :=
  _ ← assert_ok (s_retryResp s); dequeue curTick accepted s.

Definition drain (s : SimpleMemory) : bool * SimpleMemory :=
  if bool_decide (packetQueue s = []) then (true, s) else (false, set_draining true s).

End Memory_.

End SimpleMem.
