(* ===== verification/AbstractMemProps.v ===== *)
(** * mem/abstract_mem: what loads, stores and store conditionals do

    The list of load-locked addresses is a map from contexts to blocks of sixteen bytes
    ([represents]): a load-locked reservation of each context.  A store conditional succeeds
    exactly when no store to its block has succeeded since the load. *)

From Stdlib Require Import ZArith Lia.
From stdpp Require Import base numbers option list gmap.
From S2P Require Import Prelude Flags AddrRange Packet PacketQueue AddrRangeMap XBarLayer XBar AbstractMem.

Module AbstractMemProps.
Import Packet AbstractMem.

(** ** Reservations *)

Definition represents (l : list LockedAddr) (R : gmap Z Z) : Prop :=
  NoDup (l_contextId <$> l) ∧ (∀ c a, R !! c = Some a ↔ mkLocked a c ∈ l) ∧ R !! InvalidContextID = None.

(** The packets that memory ignores: a cache answers, or there is nothing to write. *)
Definition ignored (p : Packet) : bool :=
  cacheResponding p || bool_decide (cmd p = CleanEvict) || bool_decide (cmd p = WritebackClean).

Definition load_locked (p : Packet) : bool :=
  negb (ignored p) && negb (bool_decide (cmd p = SwapReq)) && isRead (cmd p) && isLLSC (cmd p).

Definition is_store (p : Packet) : bool :=
  negb (ignored p) && negb (bool_decide (cmd p = SwapReq)) && negb (isRead (cmd p)) &&
  negb (isInvalidate (cmd p) || isClean (cmd p)) && isWrite (cmd p).

Definition reserved (c : option Z) (b : Z) (R : gmap Z Z) : bool :=
  match c with Some c => bool_decide (R !! c = Some b) | None => false end.

(** Whether a store to the block [b] is carried out. *)
Definition store_ok (w : bool) (p : Packet) (q : Requester) (b : Z) (R : gmap Z Z) : bool :=
  w && (negb (isLLSC (cmd p)) || reserved (contextId_ q) b R).

Definition drop_block (b : Z) (R : gmap Z Z) : gmap Z Z := filter (λ ca, ca.2 ≠ b) R.

Definition after (w : bool) (p : Packet) (q : Requester) (b : Z) (R : gmap Z Z) : gmap Z Z :=
  if load_locked p then match contextId_ q with Some c => <[c := b]> R | None => R end
  else if is_store p && store_ok w p q b R then drop_block b R else R.

Lemma represents_elem l R x : represents l R → x ∈ l → R !! l_contextId x = Some (l_addr x).
Proof. intros (_ & H & _) Hx. apply H. by destruct x. Qed.

Lemma track_spec a q l R r : represents l R → track a q l = Ok r →
  match r with
  | Some l' => ∃ c, contextId_ q = Some c ∧ represents l' (<[c := a]> R)
  | None => ∀ c, contextId_ q = Some c → R !! c = None
  end.
Proof.
  revert R r. induction l as [|x l IH]; intros R r HR H; simpl in H.
  - injection H as <-. intros c _. apply eq_None_not_Some. intros [a' Ha]. apply HR in Ha. by apply elem_of_nil in Ha.
  - apply bind_Ok in H as (b & Hb & H). unfold matchesContext in Hb. apply bind_Ok in Hb as ([] & Hu & Hb). apply assert_ok_true in Hu.
    apply bind_Ok in Hb as (c & Hc & Hb). injection Hb as <-. unfold contextId in Hc. destruct (contextId_ q) as [c0|] eqn:Hq; [|done].
    injection Hc as ->. destruct HR as (Hn & Hl & Hi). simpl in Hn. apply NoDup_cons in Hn as [Hx Hn].
    assert (represents l (delete (l_contextId x) R)) as HRl.
    { split; [done|]. split.
      - intros c' a'. rewrite lookup_delete_Some, Hl, elem_of_cons. split.
        + intros [Hne [Hx'|Hin]]; [|done]. by rewrite <-Hx' in Hne.
        + intros Hin. split; [|by right]. intros He. apply Hx. rewrite He. exact (list_elem_of_fmap_2 l_contextId l (mkLocked a' c') Hin).
      - rewrite lookup_delete_None. by right. }
    destruct (Z.eqb_spec (l_contextId x) c) as [Heq|Hne].
    + injection H as <-. exists c. split; [done|]. split; [simpl; apply NoDup_cons; by split|]. split.
      * intros c' a'. rewrite lookup_insert_Some, elem_of_cons. split.
        -- intros [[<- <-]|[Hne Ha]]; [left; by rewrite Heq|]. apply Hl, elem_of_cons in Ha as [Ha|Ha]; [|by right].
           destruct x. injection Ha as -> ->. done.
        -- intros [[= -> ->]|Hin]; [left; by rewrite Heq|]. right. split; [|apply Hl; by right]. intros ->.
           apply Hx. rewrite Heq. exact (list_elem_of_fmap_2 l_contextId l (mkLocked a' c') Hin).
      * rewrite lookup_insert_None. split; [done|]. rewrite <-Heq. intros He. rewrite He in Hu. done.
    + apply bind_Ok in H as (r0 & Hr0 & H). injection H as <-. specialize (IH _ _ HRl Hr0). destruct r0 as [l'|]; simpl.
      * destruct IH as (c1 & Hc1 & Hn' & Hl' & Hi'). injection Hc1 as <-. exists c. split; [done|].
        rewrite (insert_delete_ne R) in Hl', Hi' by done. split; [|split].
        -- simpl. apply NoDup_cons. split; [|done]. intros Hin. apply list_elem_of_fmap in Hin as (y & Hy & Hin).
           assert (delete (l_contextId x) (<[c:=a]> R) !! l_contextId y = Some (l_addr y)) as Hy' by (apply Hl'; by destruct y).
           rewrite Hy, lookup_delete_eq in Hy'. done.
        -- intros c' a'. rewrite elem_of_cons, <-Hl', lookup_delete_Some. destruct (decide (c' = l_contextId x)) as [->|Hd].
           ++ rewrite lookup_insert_ne by done. rewrite Hl, elem_of_cons. split.
              ** intros [He|Hin]; [by left|]. exfalso. apply Hx. exact (list_elem_of_fmap_2 l_contextId l (mkLocked a' (l_contextId x)) Hin).
              ** intros [He|[? _]]; [by left|done].
           ++ split; [intros ?; right; done|]. intros [He|[_ ?]]; [|done]. by rewrite <-He in Hd.
        -- rewrite lookup_delete_None in Hi'. destruct Hi' as [Hi'|Hi']; [|done]. rewrite Hi' in Hu. done.
      * intros c1 Hc1. specialize (IH c1 Hc1). injection Hc1 as <-. rewrite lookup_delete_ne in IH by done. done.
Qed.

Lemma has_lock_spec a q l b : has_lock a q l = Ok b → (b = true ↔ ∃ c, contextId_ q = Some c ∧ mkLocked a c ∈ l).
Proof.
  revert b. induction l as [|x l IH]; intros b H; simpl in H.
  - injection H as <-. split; [done|]. intros (c & _ & Hin). by apply elem_of_nil in Hin.
  - apply bind_Ok in H as (b0 & Hb & H). destruct (Z.eqb_spec (l_addr x) a) as [Ha|Ha].
    + unfold matchesContext in Hb. apply bind_Ok in Hb as (u & _ & Hb). apply bind_Ok in Hb as (c & Hc & Hb). injection Hb as <-.
      unfold contextId in Hc. destruct (contextId_ q) as [c0|] eqn:Hq; [|done]. injection Hc as ->.
      destruct (Z.eqb_spec (l_contextId x) c) as [He|He].
      * injection H as <-. split; [|done]. intros _. exists c. split; [done|]. destruct x; simpl in *; subst. by left.
      * specialize (IH _ H). rewrite IH. split; intros (c1 & [= <-] & Hin); exists c; (split; [done|]); [by right|].
        apply elem_of_cons in Hin as [Hin|Hin]; [|done]. destruct He. by rewrite <-Hin.
    + injection Hb as <-. specialize (IH _ H). rewrite IH. split; intros (c1 & Hc1 & Hin); exists c1; (split; [done|]); [by right|].
      apply elem_of_cons in Hin as [Hin|Hin]; [|done]. destruct Ha. by rewrite <-Hin.
Qed.

Lemma clear_locks_spec a q l l' cs : clear_locks a q l = Ok (l', cs) → l' = filter (λ x, l_addr x ≠ a) l ∧
  ∀ c, c ∈ cs → mkLocked a c ∈ l.
Proof.
  revert l' cs. induction l as [|x l IH]; intros l' cs H; simpl in H.
  { injection H as <- <-. split; [done|]. intros c Hc. by apply elem_of_nil in Hc. }
  rewrite filter_cons. destruct (Z.eqb_spec (l_addr x) a) as [Ha|Ha].
  - apply bind_Ok in H as (u & _ & H). apply bind_Ok in H as ([l1 cs1] & H1 & H). injection H as <- <-.
    destruct (IH _ _ H1) as [-> Hcs]. rewrite decide_False by (intros Hn; done). split; [done|]. intros c Hc.
    destruct (_ =? _); [right; auto|]. apply elem_of_cons in Hc as [->|Hc]; [destruct x; simpl in *; subst; by left|right; auto].
  - apply bind_Ok in H as ([l1 cs1] & H1 & H). injection H as <- <-. destruct (IH _ _ H1) as [-> Hcs].
    rewrite decide_True by done. split; [done|]. intros c Hc. right. auto.
Qed.

Lemma represents_drop l R b : represents l R → represents (filter (λ x, l_addr x ≠ b) l) (drop_block b R).
Proof.
  intros (Hn & Hl & Hi). split; [|split].
  - clear -Hn. induction l as [|x l IH]; [done|]. simpl in Hn. apply NoDup_cons in Hn as [Hx Hn]. rewrite filter_cons.
    destruct (decide _); [|by apply IH]. simpl. apply NoDup_cons. split; [|by apply IH]. intros Hin. apply Hx.
    apply list_elem_of_fmap in Hin as (y & -> & Hy). apply list_elem_of_filter in Hy as [_ Hy]. by apply list_elem_of_fmap_2.
  - intros c a. unfold drop_block. rewrite map_lookup_filter_Some, list_elem_of_filter, Hl. simpl. tauto.
  - unfold drop_block. apply map_lookup_filter_None. by left.
Qed.

(** The reservations after a store: [writeOK] is [store_ok]. *)
Lemma writeOK_spec p q m ok q' m' cs a R : writeOK p q m = Ok (ok, q', m', cs) → getPaddr (req p) = Ok a → represents (lockedAddrList m) R →
  ok = store_ok (writeable m) p q (mask a) R ∧ represents (lockedAddrList m') (if ok then drop_block (mask a) R else R) ∧
  (isLLSC (cmd p) = true → writeable m = true → extraData q' = Some (if ok then 1 else 0)) ∧
  contextId_ q' = contextId_ q ∧ pmem m' = pmem m ∧ range m' = range m ∧ writeable m' = writeable m ∧ backdoor m' = backdoor m ∧
  backdoor_ptr m' = backdoor_ptr m ∧ (∀ x, x ∈ lockedAddrList m' → x ∈ lockedAddrList m) ∧
  (∀ c, c ∈ cs → R !! c = Some (mask a) ∧ ok = true).
Proof.
  intros H Ha HR. unfold writeOK in H. unfold store_ok. destruct (writeable m) eqn:Hw; simpl in H.
  2: { injection H as <- <- <- <-. split_and!; try done. intros c Hc. by apply elem_of_nil in Hc. }
  case_bool_decide as Hl.
  - injection H as <- <- <- <-. assert (∀ c b, R !! c = Some b → False) as Hemp.
    { intros c b Hc. apply HR in Hc. rewrite Hl in Hc. by apply elem_of_nil in Hc. }
    assert (reserved (contextId_ q) (mask a) R = false) as ->.
    { unfold reserved. destruct (contextId_ q) as [c|]; [|done]. apply bool_decide_false. intros Hc. by apply Hemp in Hc. }
    rewrite orb_false_r. split; [done|]. split.
    + destruct (negb (isLLSC (cmd p))); [|done]. assert (drop_block (mask a) R = R) as ->; [|done].
      apply map_filter_id. intros c b Hc. by apply Hemp in Hc.
    + split; [by intros ->|]. split; [by destruct (isLLSC (cmd p))|]. split_and!; try done. intros c Hc. by apply elem_of_nil in Hc.
  - unfold checkLockedAddrList in H. rewrite Ha in H. simpl in H. apply bind_Ok in H as ([b q1] & Hb & H).
    assert (b = (negb (isLLSC (cmd p)) || reserved (contextId_ q) (mask a) R) ∧ contextId_ q1 = contextId_ q ∧
      (isLLSC (cmd p) = true → extraData q1 = Some (if b then 1 else 0))) as (Hbv & Hq1 & Hx).
    { destruct (isLLSC (cmd p)); simpl; [|by injection Hb as <- <-]. apply bind_Ok in Hb as (b0 & Hb0 & Hb). injection Hb as <- <-.
      split; [|done]. apply has_lock_spec in Hb0. destruct HR as (_ & Hl' & _). unfold reserved. apply eq_bool_prop_intro.
      rewrite Is_true_true, Hb0. destruct (contextId_ q) as [c|].
      - rewrite bool_decide_spec. rewrite Hl'. split; [intros (c1 & [= <-] & ?); done|]. intros ?. by exists c.
      - split; [by intros (c1 & ? & _)|done]. }
    rewrite <-Hbv. destruct b.
    + apply bind_Ok in H as ([l cs1] & Hc & H). injection H as <- <- <- <-. apply clear_locks_spec in Hc as [-> Hcs].
      split; [done|]. split; [by apply represents_drop|]. split_and!; try done.
      * intros Hll _. by apply Hx.
      * intros x Hin. simpl in Hin. by apply list_elem_of_filter in Hin as [_ ?].
      * intros c Hc. split; [|done]. by apply HR, Hcs.
    + injection H as <- <- <- <-. split_and!; try done; [intros Hll _; by apply Hx|]. intros c Hc. by apply elem_of_nil in Hc.
Qed.

(** ** One access *)

(** What the four branches of [access] are, with the offset of the first byte. *)
Inductive access_case (p : Packet) (q : Requester) (m : Memory) : Packet → Requester → Memory → list Z → Prop :=
  | ac_ignored : ignored p = true → access_case p q m p q m []
  | ac_swap off p1 p2 m1 : ignored p = false → cmd p = SwapReq → host_offset (addr p) m = Ok off → swap off p q m = Ok (p1, m1) →
      access_case p q m p2 q m1 []
  | ac_load off p1 p2 m1 : ignored p = false → cmd p ≠ SwapReq → isRead (cmd p) = true → host_offset (addr p) m = Ok off →
      (if isLLSC (cmd p) then trackLoadLocked p q m = Ok m1 else m1 = m) → read_bytes off p m1 = Ok p1 → data p2 = data p1 →
      access_case p q m p2 q m1 []
  | ac_none p2 : ignored p = false → cmd p ≠ SwapReq → isRead (cmd p) = false → isInvalidate (cmd p) || isClean (cmd p) = true →
      access_case p q m p2 q m []
  | ac_store off p2 ok q1 m1 m2 cs : is_store p = true → host_offset (addr p) m = Ok off → writeOK p q m = Ok (ok, q1, m1, cs) →
      (if ok : bool then with_bytes off (writeData p) m1 = Ok m2 else m2 = m1) → access_case p q m p2 q1 m2 cs.

Lemma getAddr_addr p a : getAddr p = Ok a → a = addr p.
Proof. unfold getAddr. intros H. apply bind_Ok in H as (u & _ & H). by injection H. Qed.

Lemma respond_data p p2 (x : Requester * Memory * list Z) q m cs :
  (if needsResponse (cmd p) then p ← makeResponse p; Ok (p, x.1.1, x.1.2, x.2) else Ok (p, x.1.1, x.1.2, x.2)) = Ok (p2, q, m, cs) →
  data p2 = data p ∧ q = x.1.1 ∧ m = x.1.2 ∧ cs = x.2.
Proof.
  destruct (needsResponse _); [|by intros [= <- <- <- <-]]. intros H. apply bind_Ok in H as (p1 & Hp & H). injection H as <- <- <- <-.
  unfold makeResponse in Hp. apply bind_Ok in Hp as (u & _ & Hp). apply bind_Ok in Hp as (u' & _ & Hp). by injection Hp as <-.
Qed.

Lemma access_cases p q m p' q' m' cs : access p q m = Ok (p', q', m', cs) → access_case p q m p' q' m' cs.
Proof.
  unfold access. intros H. destruct (cacheResponding p) eqn:Hcr.
  { injection H as <- <- <- <-. apply ac_ignored. unfold ignored. by rewrite Hcr. }
  destruct (bool_decide (cmd p = CleanEvict) || bool_decide (cmd p = WritebackClean)) eqn:Hce.
  { injection H as <- <- <- <-. apply ac_ignored. unfold ignored. by rewrite <-orb_assoc, Hce, orb_true_r. }
  assert (ignored p = false) as Hig by (unfold ignored; by rewrite <-orb_assoc, Hcr, Hce).
  apply bind_Ok in H as (r & _ & H). apply bind_Ok in H as (sub & _ & H). apply bind_Ok in H as (u & _ & H).
  apply bind_Ok in H as (a & Ha & H). apply getAddr_addr in Ha as ->. apply bind_Ok in H as (off & Hoff & H).
  apply bind_Ok in H as ([[[p1 q1] m1] cs1] & Hb & H). apply (respond_data p1 p' (q1, m1, cs1)) in H as (Hd & -> & -> & ->). simpl.
  case_bool_decide as Hsw.
  { apply bind_Ok in Hb as ([p2 m2] & Hs & Hb). injection Hb as <- <- <- <-. by eapply ac_swap. }
  destruct (isRead (cmd p)) eqn:Hrd.
  { apply bind_Ok in Hb as (u' & _ & Hb). apply bind_Ok in Hb as (m2 & Hm2 & Hb). apply bind_Ok in Hb as (p2 & Hp2 & Hb).
    injection Hb as <- <- <- <-. eapply ac_load; try done. destruct (isLLSC (cmd p)); [|by injection Hm2].
    by apply bind_Ok in Hm2 as (u2 & _ & Hm2). }
  destruct (isInvalidate (cmd p) || isClean (cmd p)) eqn:Hic.
  { apply bind_Ok in Hb as (u' & _ & Hb). injection Hb as <- <- <- <-. by apply ac_none. }
  destruct (isWrite (cmd p)) eqn:Hwr; [|done].
  assert (is_store p = true) as Hst.
  { unfold is_store. rewrite Hig, Hrd, Hic, Hwr. rewrite bool_decide_false by done. done. }
  apply bind_Ok in Hb as ([[[ok q2] m2] cs2] & Hok & Hb). destruct ok.
  - apply bind_Ok in Hb as (m3 & Hm3 & Hb). apply bind_Ok in Hb as (u' & _ & Hb). injection Hb as <- <- <- <-.
    by eapply (ac_store _ _ _ off p' true).
  - injection Hb as <- <- <- <-. by eapply (ac_store _ _ _ off p' false).
Qed.

(** Only the contents of the memory change. *)
Definition same_monitor (m m' : Memory) : Prop :=
  lockedAddrList m' = lockedAddrList m ∧ range m' = range m ∧ writeable m' = writeable m ∧ backdoor m' = backdoor m ∧
  backdoor_ptr m' = backdoor_ptr m.

Lemma swap_monitor off p q m p' m' : swap off p q m = Ok (p', m') → same_monitor m m'.
Proof.
  unfold swap. intros H. destruct (isAtomic (req p)).
  - destruct (pmem m) as [b|]; [|by injection H as <- <-]. apply bind_Ok in H as (p1 & _ & H). apply bind_Ok in H as (f & _ & H).
    by injection H as <- <-.
  - destruct (pmem m) as [b|]; [|done]. repeat (apply bind_Ok in H as (? & _ & H)). by injection H as <- <-.
Qed.

Lemma with_bytes_monitor off f m m' : with_bytes off f m = Ok m' → same_monitor m m'.
Proof.
  unfold with_bytes. intros H. destruct (pmem m); [|by injection H as <-]. apply bind_Ok in H as (s & _ & H). by injection H as <-.
Qed.

Lemma trackLoadLocked_spec p q m m' a R : trackLoadLocked p q m = Ok m' → getPaddr (req p) = Ok a → contextId_ q ≠ Some InvalidContextID →
  represents (lockedAddrList m) R →
  ∃ c, contextId_ q = Some c ∧ represents (lockedAddrList m') (<[c := mask a]> R) ∧ pmem m' = pmem m ∧ range m' = range m ∧
    writeable m' = writeable m ∧ (lockedAddrList m = [] → backdoor m' = []) ∧ (backdoor m = [] → backdoor m' = []).
Proof.
  intros H Ha Hc HR. unfold trackLoadLocked in H. rewrite Ha in H. simpl in H. apply bind_Ok in H as (r & Hr & H).
  pose proof (track_spec _ _ _ _ _ HR Hr) as Ht. destruct r as [l|].
  - injection H as <-. destruct Ht as (c & Hq & HR'). exists c. split_and!; try done. intros Hl. rewrite Hl in Hr. by simpl in Hr.
  - apply bind_Ok in H as (c & Hq & H). injection H as <-. unfold contextId in Hq. destruct (contextId_ q) as [c0|] eqn:Hcq; [|done].
    injection Hq as ->. exists c. specialize (Ht c eq_refl). destruct HR as (Hn & Hl & Hi). split; [done|]. split; [|done].
    simpl. split; [|split].
    + simpl. apply NoDup_cons. split; [|done]. intros Hin. apply list_elem_of_fmap in Hin as (y & Hy & Hin).
      assert (R !! l_contextId y = Some (l_addr y)) as HRy by (apply Hl; by destruct y). rewrite <-Hy in HRy. congruence.
    + intros c' a'. rewrite lookup_insert_Some, elem_of_cons, Hl. split.
      * intros [[-> ->]|[_ ?]]; [by left|by right].
      * intros [[= -> ->]|Hin]; [by left|]. right. split; [|done]. intros ->. apply Hl in Hin. congruence.
    + rewrite lookup_insert_None. split; [done|]. intros ->. done.
Qed.

(** The reservations after an access are those that [after] says, and a store conditional
    reports whether it was carried out. *)
Lemma access_reservations p q m p' q' m' cs a R : access p q m = Ok (p', q', m', cs) → getPaddr (req p) = Ok a →
  contextId_ q ≠ Some InvalidContextID → represents (lockedAddrList m) R →
  represents (lockedAddrList m') (after (writeable m) p q (mask a) R) ∧ writeable m' = writeable m ∧ range m' = range m ∧
  (is_store p = true → isLLSC (cmd p) = true → writeable m = true →
     extraData q' = Some (if store_ok (writeable m) p q (mask a) R then 1 else 0)).
Proof.
  intros H Ha Hc HR. assert (∀ b, is_store p = true → ignored p = b → b = false) as Hsi.
  { unfold is_store. intros b Hs <-. by destruct (ignored p). }
  destruct (access_cases _ _ _ _ _ _ _ H) as [Hi|off p1 p2 m1 Hi Hs Hoff Hsw|off p1 p2 m1 Hi Hs Hr Hoff Hm1 Hrb Hd|p2 Hi Hs Hr Hic|off p2 ok q1 m1 m2 cs1 Hst Hoff Hok Hm2].
  - unfold after, load_locked, is_store. by rewrite Hi.
  - unfold after, load_locked, is_store. rewrite Hi, (bool_decide_true _ Hs). simpl. apply swap_monitor in Hsw as (-> & -> & -> & _). done.
  - unfold after, load_locked, is_store. rewrite Hi, (bool_decide_false _ Hs), Hr. simpl. destruct (isLLSC (cmd p)); [|by subst].
    destruct (trackLoadLocked_spec _ _ _ _ _ _ Hm1 Ha Hc HR) as (c & -> & HR' & _ & -> & -> & _). done.
  - unfold after, load_locked, is_store. rewrite Hi, (bool_decide_false _ Hs), Hr, Hic. done.
  - destruct (writeOK_spec _ _ _ _ _ _ _ _ _ Hok Ha HR) as (-> & HR' & Hx & _ & _ & Hrg & Hw & _).
    assert (load_locked p = false) as Hll. { unfold load_locked. unfold is_store in Hst. destruct (isRead (cmd p)); [|by rewrite andb_false_r].
      rewrite andb_false_r in Hst. done. }
    unfold after. rewrite Hll, Hst. simpl. split; [|split; [|split]].
    + destruct (store_ok _ _ _ _ _); [|by subst]. apply with_bytes_monitor in Hm2 as (-> & _). done.
    + rewrite <-Hw. destruct (store_ok _ _ _ _ _); [|by subst]. apply with_bytes_monitor in Hm2 as (_ & _ & -> & _). done.
    + rewrite <-Hrg. destruct (store_ok _ _ _ _ _); [|by subst]. apply with_bytes_monitor in Hm2 as (_ & -> & _). done.
    + intros _ Hl Hwt. by apply Hx.
Qed.

(** ** Load locked and store conditional *)

Definition Access : Type := Packet * Requester.

(** The accesses, each with its request afterwards. *)
Fixpoint accesses (l : list Access) (m : Memory) : result (list (Access * Requester) * Memory) :=
  match l with
  | [] => Ok ([], m)
  | x :: l =>
      '(_, q, m, _) ← access x.1 x.2 m;
      '(r, m) ← accesses l m;
      Ok ((x, q) :: r, m)
  end.

Definition block_of (p : Packet) : Z := mask (default 0 (paddr (req p))).

(** Accesses have an address, and their context, if any, is one. *)
Definition proper (x : Access) : Prop := is_Some (paddr (req x.1)) ∧ contextId_ x.2 ≠ Some InvalidContextID.

(** The access locked the block [b] for the context [c]. *)
Definition locks (c : Z) (x : Access) : bool := load_locked x.1 && bool_decide (contextId_ x.2 = Some c).

(** The access stored to the block [b]: a store conditional tells that it did. *)
Definition stored (b : Z) (r : Access * Requester) : bool :=
  is_store r.1.1 && bool_decide (block_of r.1.1 = b) && (negb (isLLSC (cmd r.1.1)) || bool_decide (extraData r.2 = Some 1)).

Lemma proper_paddr x : proper x → getPaddr (req x.1) = Ok (default 0 (paddr (req x.1))).
Proof. intros [[a Ha] _]. unfold getPaddr. by rewrite Ha. Qed.

Lemma and_refl_r {A} (P : Prop) (x : A) : P ↔ P ∧ x = x.
Proof. split; [by intros|by intros [? _]]. Qed.

Lemma access_step x q' m p' m' cs R : access x.1 x.2 m = Ok (p', q', m', cs) → proper x → writeable m = true →
  represents (lockedAddrList m) R →
  ∃ R', represents (lockedAddrList m') R' ∧ writeable m' = true ∧
    (∀ c, locks c x = true → R' !! c = Some (block_of x.1)) ∧
    (∀ c b, locks c x = false → R' !! c = Some b ↔ R !! c = Some b ∧ stored b (x, q') = false) ∧
    (is_store x.1 = true → isLLSC (cmd x.1) = true →
       (extraData q' = Some 1 ↔ reserved (contextId_ x.2) (block_of x.1) R = true)).
Proof.
  intros H Hp Hw HR. destruct (access_reservations _ _ _ _ _ _ _ _ _ H (proper_paddr _ Hp) (proj2 Hp) HR) as (HR' & Hw' & _ & Hx).
  fold (block_of x.1) in HR', Hx. rewrite Hw in Hw', HR', Hx. eexists. split; [exact HR'|]. split; [done|].
  assert (is_store x.1 = true → isLLSC (cmd x.1) = true → (extraData q' = Some 1 ↔ reserved (contextId_ x.2) (block_of x.1) R = true)) as Hsc.
  { intros Hs Hl. rewrite (Hx Hs Hl eq_refl). unfold store_ok. rewrite Hl. simpl. by destruct (reserved _ _ _). }
  split; [|split; [|exact Hsc]].
  - intros c Hc. unfold locks in Hc. apply andb_true_iff in Hc as [Hll Hc]. apply bool_decide_eq_true in Hc. unfold after.
    rewrite Hll, Hc. by rewrite lookup_insert_eq.
  - intros c b Hc. unfold after. destruct (load_locked x.1) eqn:Hll.
    + assert (stored b (x, q') = false) as ->.
      { unfold stored, is_store, load_locked in *. simpl. destruct (isRead (cmd x.1)); [by rewrite andb_false_r|]. by rewrite andb_false_r in Hll. }
      unfold locks in Hc. rewrite Hll in Hc. simpl in Hc. apply bool_decide_eq_false in Hc. destruct (contextId_ x.2) as [c0|]; [|apply and_refl_r].
      rewrite lookup_insert_ne by congruence. apply and_refl_r.
    + destruct (is_store x.1) eqn:Hs; cbn [andb]; [|unfold stored; cbn [fst snd]; rewrite Hs; apply and_refl_r].
      assert (stored b (x, q') = bool_decide (block_of x.1 = b) && store_ok true x.1 x.2 (block_of x.1) R) as ->.
      { unfold stored, store_ok. simpl. rewrite Hs. simpl. destruct (isLLSC (cmd x.1)) eqn:Hl; [|done]. simpl. f_equal.
        specialize (Hsc eq_refl eq_refl). apply eq_bool_prop_intro. rewrite !Is_true_true, bool_decide_eq_true. exact Hsc. }
      destruct (store_ok _ _ _ _ _); [|rewrite andb_false_r; apply and_refl_r]. unfold drop_block. rewrite map_lookup_filter_Some, andb_true_r, bool_decide_eq_false. simpl.
      split; (intros [H1 H2]; split; [done|]); congruence.
Qed.

Lemma accesses_reservation c b l : ∀ m r m' R, accesses l m = Ok (r, m') → Forall proper l → writeable m = true → represents (lockedAddrList m) R →
  forallb (λ x, negb (locks c x)) l = true →
  ∃ R', represents (lockedAddrList m') R' ∧ writeable m' = true ∧
    (R' !! c = Some b ↔ R !! c = Some b ∧ forallb (λ x, negb (stored b x)) r = true).
Proof.
  induction l as [|x l IH]; intros m r m' R H Hp Hw HR Hl; cbn [accesses] in H; [injection H as <- <-; exists R; simpl; split; [done|]; split; [done|]; apply and_refl_r|].
  apply bind_Ok in H as ([[[p1 q1] m1] cs1] & Ha & H). apply bind_Ok in H as ([r1 m2] & Hr & H). injection H as <- <-.
  apply Forall_cons in Hp as [Hx Hp]. simpl in Hl. apply andb_true_iff in Hl as [Hlx Hl]. apply negb_true_iff in Hlx.
  destruct (access_step _ _ _ _ _ _ _ Ha Hx Hw HR) as (R1 & HR1 & Hw1 & _ & Hk & _).
  destruct (IH _ _ _ _ Hr Hp Hw1 HR1 Hl) as (R' & HR' & Hw' & Hiff). exists R'. split; [done|]. split; [done|].
  rewrite Hiff, (Hk c b Hlx). simpl. rewrite andb_true_iff, negb_true_iff. tauto.
Qed.

Lemma represents_nil l : l = [] → represents l ∅.
Proof. intros ->. split; [apply NoDup_nil_2|]. split; [|done]. intros c a. split; [done|]. intros H. by apply elem_of_nil in H. Qed.

Lemma accesses_app l1 l2 m : accesses (l1 ++ l2) m = '(r1, m) ← accesses l1 m; '(r2, m) ← accesses l2 m; Ok (r1 ++ r2, m).
Proof.
  revert m. induction l1 as [|x l1 IH]; intros m; cbn [accesses app]; [simpl; by destruct (accesses l2 m) as [[? ?]|]|].
  destruct (access x.1 x.2 m) as [[[[p q] m1] cs]|e]; [|done]. simpl. rewrite IH. destruct (accesses l1 m1) as [[r1 m2]|e]; [|done]. simpl.
  by destruct (accesses l2 m2) as [[r2 m3]|e].
Qed.

Lemma accesses_snoc l x m r m' : accesses (l ++ [x]) m = Ok (r, m') → ∃ r1 m1 p q cs, accesses l m = Ok (r1, m1) ∧
  access x.1 x.2 m1 = Ok (p, q, m', cs) ∧ r = r1 ++ [(x, q)].
Proof.
  rewrite accesses_app. intros H. apply bind_Ok in H as ([r1 m1] & H1 & H). apply bind_Ok in H as ([r2 m2] & H2 & H).
  injection H as <- <-. cbn [accesses] in H2. apply bind_Ok in H2 as ([[[p q] m3] cs] & Ha & H2). injection H2 as <- <-. by exists r1, m1, p, q, cs.
Qed.

Lemma accesses_proper_run l : ∀ m r m' R, accesses l m = Ok (r, m') → Forall proper l → writeable m = true → represents (lockedAddrList m) R →
  ∃ R', represents (lockedAddrList m') R' ∧ writeable m' = true.
Proof.
  induction l as [|x l IH]; intros m r m' R H Hp Hw HR; cbn [accesses] in H; [injection H as <- <-; by exists R|].
  apply bind_Ok in H as ([[[p1 q1] m1] cs1] & Ha & H). apply bind_Ok in H as ([r1 m2] & Hr & H). injection H as <- <-.
  apply Forall_cons in Hp as [Hx Hp]. destruct (access_step _ _ _ _ _ _ _ Ha Hx Hw HR) as (R1 & HR1 & Hw1 & _). by eapply IH.
Qed.

(** *** Bytes of a block

    The monitor compares the block of the first address of a store.  [writes_to] is what
    matters to the context: the access wrote a byte of the sixteen from [b] on. *)
Definition writes_to (b : Z) (r : Access * Requester) : bool :=
  let p := r.1.1 in
  (negb (ignored p) && bool_decide (cmd p = SwapReq) ||
   is_store p && (negb (isLLSC (cmd p)) || bool_decide (extraData r.2 = Some 1))) &&
  (addr p <? b + 16) && (b <? addr p + size p).

(** The access is not a swap, and a store of it does not cross the end of a block. *)
Definition contained (x : Access) : Prop :=
  cmd x.1 ≠ SwapReq ∧
  (is_store x.1 = true →
     paddr (req x.1) = Some (addr x.1) ∧ fits 64 (addr x.1) ∧ 1 <= size x.1 ∧ addr x.1 mod 16 + size x.1 <= 16).

Lemma mask_floor a : fits 64 a → mask a = a - a mod 16.
Proof.
  intros Ha. replace (a - a mod 16) with ((a .>> 4) .<< 4).
  2: { rewrite Z.shiftl_mul_pow2, Z.shiftr_div_pow2 by lia. change (2 ^ 4) with 16. pose proof (Z.div_mod a 16 ltac:(lia)). lia. }
  unfold mask, Addr_Mask. change 0xf with (Z.ones 4). apply Z.bits_inj'. intros i Hi.
  rewrite Z.land_spec, testbit_unot, testbit_ones, Z.shiftl_spec by lia.
  destruct (Z.ltb_spec i 4).
  - rewrite andb_false_r, andb_false_r. by rewrite Z.testbit_neg_r by lia.
  - rewrite Z.shiftr_spec by lia. replace (i - 4 + 4) with i by lia. destruct (Z.ltb_spec i 64); simpl; [apply andb_true_r|].
    rewrite (testbit_fits 64 a) by done. done.
Qed.

(** Bytes that do not cross the end of a block are in the block of the first. *)
Lemma overlap_block a s a' : fits 64 a → fits 64 a' → 1 <= s → a mod 16 + s <= 16 →
  bool_decide (mask a = mask a') = (a <? mask a' + 16) && (mask a' <? a + s).
Proof.
  intros Ha Ha' Hs Hc. rewrite !mask_floor by done.
  pose proof (Z.mod_pos_bound a 16 ltac:(lia)). pose proof (Z.mod_pos_bound a' 16 ltac:(lia)).
  pose proof (Z.div_mod a 16 ltac:(lia)). pose proof (Z.div_mod a' 16 ltac:(lia)).
  case_bool_decide; symmetry; [rewrite andb_true_iff, !Z.ltb_lt; lia|].
  rewrite andb_false_iff, !Z.ltb_ge. assert (a / 16 ≠ a' / 16) by lia. lia.
Qed.

Lemma writes_to_stored a' r : contained r.1 → fits 64 a' → writes_to (mask a') r = stored (mask a') r.
Proof.
  intros [Hsw Hst] Ha'. unfold writes_to, stored. rewrite (bool_decide_false _ Hsw), andb_false_r. simpl.
  destruct (is_store r.1.1) eqn:Hs; [|done]. destruct (Hst eq_refl) as (Hp & Hf & H1 & Hc). simpl.
  unfold block_of. rewrite Hp. simpl. rewrite (overlap_block _ _ _ Hf Ha' H1 Hc), <-andb_assoc. apply andb_comm.
Qed.

Lemma accesses_fst l : ∀ m r m', accesses l m = Ok (r, m') → fst <$> r = l.
Proof.
  induction l as [|x l IH]; intros m r m' H; cbn [accesses] in H; [by injection H as <- <-|].
  apply bind_Ok in H as ([[[p1 q1] m1] cs1] & Ha & H). apply bind_Ok in H as ([r1 m2] & Hr & H). injection H as <- <-.
  simpl. f_equal. by eapply IH.
Qed.

Lemma quiet_bytes a' rs : Forall contained (fst <$> rs) → fits 64 a' →
  forallb (λ x, negb (writes_to (mask a') x)) rs = forallb (λ x, negb (stored (mask a') x)) rs.
Proof.
  intros Hc Ha'. induction rs as [|r rs IH]; [done|]. apply Forall_cons in Hc as [Hr Hc]. simpl.
  by rewrite writes_to_stored, IH.
Qed.

(** C16: A store conditional succeeds exactly when no store that starts in its block of
    sixteen bytes has succeeded since the context locked the block with its last load
    locked, whatever happened before and whatever other accesses came between.  The monitor
    does not see a swap, nor the bytes that a store which starts in another block writes to
    this one (swap_leaves_lock, wide_store_leaves_lock); when there are no swaps between,
    and each store stays in the block that it starts in, it succeeds exactly when none of
    the accesses wrote a byte of the block. *)
Theorem store_conditional_succeeds c l1 ll l2 sc m r1 mm ql r2 q m' : lockedAddrList m = [] → writeable m = true →
  Forall proper (l1 ++ [ll] ++ l2 ++ [sc]) →
  locks c ll = true → forallb (λ x, negb (locks c x)) l2 = true →
  is_store sc.1 = true → isLLSC (cmd sc.1) = true → contextId_ sc.2 = Some c → block_of sc.1 = block_of ll.1 →
  accesses (l1 ++ [ll]) m = Ok (r1 ++ [(ll, ql)], mm) → accesses (l2 ++ [sc]) mm = Ok (r2 ++ [(sc, q)], m') →
  (extraData q = Some 1 ↔ forallb (λ x, negb (stored (block_of sc.1) x)) r2 = true) ∧
  (Forall contained l2 → fits 64 (default 0 (paddr (req sc.1))) →
   (extraData q = Some 1 ↔ forallb (λ x, negb (writes_to (block_of sc.1) x)) r2 = true)).
Proof.
  intros Hl Hw Hp Hll Hl2 Hs Hsc Hc Hb H1 H2. rewrite !Forall_app, !Forall_singleton in Hp. destruct Hp as (Hp1 & Hpl & Hp2 & Hps).
  apply accesses_snoc in H1 as (r1' & m1 & p1 & q1 & cs1 & Ha1 & Hall & _).
  destruct (accesses_proper_run _ _ _ _ _ Ha1 Hp1 Hw (represents_nil _ Hl)) as (R1 & HR1 & Hw1).
  destruct (access_step _ _ _ _ _ _ _ Hall Hpl Hw1 HR1) as (R2 & HR2 & Hw2 & Hk & _).
  apply accesses_snoc in H2 as (r2' & m2 & p2 & q2 & cs2 & Ha2 & Hasc & Heq). apply app_inj_tail in Heq as [<- Heq]. injection Heq as <-.
  destruct (accesses_reservation c (block_of sc.1) _ _ _ _ _ Ha2 Hp2 Hw2 HR2 Hl2) as (R3 & HR3 & Hw3 & Hiff).
  destruct (access_step _ _ _ _ _ _ _ Hasc Hps Hw3 HR3) as (_ & _ & _ & _ & _ & Hex).
  assert (extraData q = Some 1 ↔ forallb (λ x, negb (stored (block_of sc.1) x)) r2 = true) as Hmon.
  { rewrite (Hex Hs Hsc), Hc. unfold reserved.
    rewrite bool_decide_eq_true, Hiff, (Hk c Hll), Hb. split; [by intros [_ ?]|done]. }
  split; [exact Hmon|]. intros Hct Hf. rewrite Hmon. unfold block_of at 2.
  rewrite quiet_bytes; [done| |done]. by rewrite (accesses_fst _ _ _ _ Ha2).
Qed.

(** ** Contents *)

Definition offset (m : Memory) (p : Packet) : nat := Z.to_nat (addr p - AddrRange.start (range m)).

Definition enabled (p : Packet) (j : nat) : bool :=
  if isMaskedWrite p then default false (byteEnable (req p) !! j) else true.

(** What the access wrote to the byte [i], if anything; [w]: the memory can be written. *)
Definition writes_at (w : bool) (m : Memory) (i : nat) (r : Access * Requester) : option Z :=
  let p := r.1.1 in
  let off := offset m p in
  if is_store p && w && (negb (isLLSC (cmd p)) || bool_decide (extraData r.2 = Some 1)) &&
     bool_decide (off <= i < off + Z.to_nat (size p))%nat && enabled p (i - off)
  then data p !! (i - off)%nat else None.

(** The byte [i] after accesses: the last that was written, or what was there. *)
Definition last_written (m : Memory) (i : nat) (rs : list (Access * Requester)) (v : option Z) : option Z :=
  foldl (λ v r, match writes_at (writeable m) m i r with Some x => Some x | None => v end) v rs.

Lemma memcpy_front q d s q' i : memcpy q 0 d 0 s = Ok q' →
  q' !! i = (if bool_decide (i < Z.to_nat s)%nat then d !! i else q !! i) ∧ (Z.to_nat s <= length d)%nat ∧ (Z.to_nat s <= length q)%nat.
Proof.
  unfold memcpy. intros H. destruct (Z.ltb_spec (Z.of_nat (length q)) (0 + s)); [done|].
  destruct (Z.ltb_spec (Z.of_nat (length d)) (0 + s)); [done|]. injection H as <-. split; [|lia].
  rewrite Z.add_0_l in *. change (Z.to_nat 0) with 0%nat. cbn [take app]. rewrite drop_0. case_bool_decide as Hi.
  - rewrite lookup_app_l by (rewrite length_take; lia). by rewrite lookup_take_lt.
  - rewrite lookup_app_r by (rewrite length_take; lia). rewrite length_take, lookup_drop. f_equal. lia.
Qed.

Lemma masked_write_lookup e d q i : (length e <= length d)%nat → (length e <= length q)%nat →
  masked_write e d q !! i = if default false (e !! i) then d !! i else q !! i.
Proof.
  revert d q i. induction e as [|x e IH]; intros d q i Hd Hq; [done|]. destruct d as [|y d]; [simpl in Hd; lia|].
  destruct q as [|z q]; [simpl in Hq; lia|]. destruct i as [|i]; simpl; [by destruct x|]. apply IH; simpl in *; lia.
Qed.

Lemma writeData_lookup p q q' i : writeData p q = Ok q' →
  q' !! i = (if bool_decide (i < Z.to_nat (size p))%nat && enabled p i then data p !! i else q !! i) ∧
  (∀ j, (j < Z.to_nat (size p))%nat → is_Some (data p !! j)) ∧ (Z.to_nat (size p) <= length q)%nat.
Proof.
  unfold writeData. intros H. apply bind_Ok in H as (u & _ & H). apply bind_Ok in H as (s & Hs & H).
  unfold getSize in Hs. apply bind_Ok in Hs as (u' & _ & Hs). injection Hs as <-. unfold enabled.
  destruct (isMaskedWrite p); simpl in H.
  - apply bind_Ok in H as ([] & Hl & H). apply assert_ok_true, Z.eqb_eq in Hl.
    destruct (Z.ltb_spec (Z.of_nat (length q)) (size p)); [done|]. destruct (Z.ltb_spec (Z.of_nat (length (data p))) (size p)); [done|].
    injection H as <-. split.
    + rewrite masked_write_lookup by lia. case_bool_decide as Hi; [done|]. simpl.
      by rewrite (lookup_ge_None_2 (byteEnable (req p))) by lia.
    + split; [|lia]. intros j Hj. apply lookup_lt_is_Some. lia.
  - destruct (memcpy_front _ _ _ _ i H) as (Hi & Hd & Hq). rewrite Hi, andb_true_r. split; [done|]. split; [|done].
    intros j Hj. apply lookup_lt_is_Some. lia.
Qed.

Lemma writeOK_carried p q m ok q' m' cs : writeOK p q m = Ok (ok, q', m', cs) →
  ok = (writeable m && (negb (isLLSC (cmd p)) || bool_decide (extraData q' = Some 1))) ∧ pmem m' = pmem m ∧ range m' = range m ∧
  writeable m' = writeable m.
Proof.
  unfold writeOK. intros H. destruct (writeable m) eqn:Hw; simpl in H; [|by injection H as <- <- <- <-].
  case_bool_decide; [injection H as <- <- <- <-; by destruct (isLLSC (cmd p))|].
  unfold checkLockedAddrList in H. apply bind_Ok in H as (a & _ & H). apply bind_Ok in H as ([b q1] & Hb & H).
  assert (b = negb (isLLSC (cmd p)) || bool_decide (extraData q1 = Some 1)) as ->.
  { destruct (isLLSC (cmd p)); [|by injection Hb as <- <-]. apply bind_Ok in Hb as (b0 & _ & Hb). injection Hb as <- <-. by destruct b0. }
  destruct (negb _ || _) eqn:He.
  - apply bind_Ok in H as ([l cs1] & _ & H). injection H as <- <- <- <-. by rewrite He.
  - injection H as <- <- <- <-. by rewrite He.
Qed.

Lemma host_offset_eq m p off : host_offset (addr p) m = Ok off → off = offset m p.
Proof. unfold host_offset, offset. destruct (_ <? 0); [done|]. by intros [= <-]. Qed.

Lemma with_bytes_lookup off p m m' b i : with_bytes off (writeData p) m = Ok m' → pmem m = Some b →
  ∃ b', pmem m' = Some b' ∧
    b' !! i = (if bool_decide (off <= i < off + Z.to_nat (size p))%nat && enabled p (i - off) then data p !! (i - off)%nat else b !! i) ∧
    ∀ j, (j < Z.to_nat (size p))%nat → is_Some (data p !! j).
Proof.
  unfold with_bytes. intros H Hb. rewrite Hb in H. apply bind_Ok in H as (s & Hs & H). injection H as <-. eexists. split; [done|].
  destruct (writeData_lookup _ _ _ (i - off) Hs) as (Hl & Hd & Hq). split; [|done].
  assert (off <= length b ∨ length b < off)%nat as [Hlen|Hlen] by lia.
  - destruct (decide (i < off)%nat) as [Hi|Hi].
    + rewrite lookup_app_l by (rewrite length_take; lia). rewrite lookup_take_lt by done. rewrite bool_decide_false by lia. done.
    + rewrite lookup_app_r by (rewrite length_take; lia). rewrite length_take, Nat.min_l by done. rewrite Hl, lookup_drop.
      replace (off + (i - off))%nat with i by lia. rewrite (bool_decide_ext (off <= i < _)%nat (i - off < Z.to_nat (size p))%nat) by lia. done.
  - rewrite take_ge by lia. destruct (decide (i < length b)%nat) as [Hi|Hi].
    + rewrite lookup_app_l by done. rewrite bool_decide_false by lia. done.
    + destruct (writeData_lookup _ _ _ (i - length b) Hs) as (Hl' & _ & _). rewrite length_drop in Hq.
      rewrite lookup_app_r, Hl' by lia. rewrite !bool_decide_false by lia. simpl. rewrite lookup_drop, !lookup_ge_None_2 by lia. done.
Qed.

Lemma trackLoadLocked_contents p q m m' : trackLoadLocked p q m = Ok m' → pmem m' = pmem m ∧ range m' = range m ∧ writeable m' = writeable m.
Proof.
  unfold trackLoadLocked. intros H. apply bind_Ok in H as (a & _ & H). apply bind_Ok in H as (r & _ & H). destruct r; [by injection H as <-|].
  apply bind_Ok in H as (c & _ & H). by injection H as <-.
Qed.

Lemma access_bytes x m p' q' m' cs b : access x.1 x.2 m = Ok (p', q', m', cs) → cmd x.1 ≠ SwapReq → pmem m = Some b →
  range m' = range m ∧ writeable m' = writeable m ∧ ∃ b', pmem m' = Some b' ∧
    ∀ i, b' !! i = match writes_at (writeable m) m i (x, q') with Some v => Some v | None => b !! i end.
Proof.
  intros H Hs Hb. assert (∀ i, is_store x.1 = false → writes_at (writeable m) m i (x, q') = None) as Hno.
  { intros i Hst. unfold writes_at. simpl. by rewrite Hst. }
  destruct (access_cases _ _ _ _ _ _ _ H) as [Hi|off p1 p2 m1 Hi Hs' Hoff Hsw|off p1 p2 m1 Hi _ Hr Hoff Hm1 Hrb Hd|p2 Hi _ Hr Hic|off p2 ok q1 m1 m2 cs1 Hst Hoff Hok Hm2].
  - split; [done|]. split; [done|]. exists b. split; [done|]. intros i. rewrite Hno; [done|]. unfold is_store. by rewrite Hi.
  - done.
  - assert (pmem m1 = pmem m ∧ range m1 = range m ∧ writeable m1 = writeable m) as (Hp & -> & ->).
    { destruct (isLLSC (cmd x.1)); [by eapply trackLoadLocked_contents|by subst]. }
    split; [done|]. split; [done|]. exists b. split; [congruence|]. intros i. rewrite Hno; [done|]. unfold is_store. by rewrite Hr, !andb_false_r.
  - split; [done|]. split; [done|]. exists b. split; [done|]. intros i. rewrite Hno; [done|]. unfold is_store. by rewrite Hic, !andb_false_r.
  - apply writeOK_carried in Hok as (Hok & Hp & Hr & Hw). apply host_offset_eq in Hoff as ->. destruct ok.
    + pose proof (with_bytes_monitor _ _ _ _ Hm2) as (_ & Hr2 & Hw2 & _). split; [congruence|]. split; [congruence|].
      destruct (with_bytes_lookup _ _ _ _ b 0 Hm2) as (b' & Hb' & _); [congruence|]. exists b'. split; [done|]. intros i.
      destruct (with_bytes_lookup _ _ _ _ b i Hm2) as (b2 & Hb2 & Hl & Hd); [congruence|]. assert (b2 = b') as -> by congruence.
      rewrite Hl. unfold writes_at. cbn [fst snd]. rewrite Hst. symmetry in Hok. apply andb_true_iff in Hok as [-> ->]. simpl.
      case_bool_decide as Hin; simpl; [|done]. destruct (enabled x.1 (i - offset m x.1)); [|done].
      destruct (Hd (i - offset m x.1)%nat) as [v ->]; [lia|done].
    + subst m2. split; [done|]. split; [done|]. exists b. split; [congruence|]. intros i. unfold writes_at. cbn [fst snd].
      rewrite Hst. simpl. destruct (writeable m); [|done]. simpl in *. by rewrite <-Hok.
Qed.

Lemma writes_at_ext w m m' i r : range m' = range m → writes_at w m' i r = writes_at w m i r.
Proof. intros Hr. unfold writes_at, offset. by rewrite Hr. Qed.

Lemma last_written_ext m m' i r v : range m = range m' → writeable m = writeable m' → last_written m i r v = last_written m' i r v.
Proof.
  intros Hr Hw. unfold last_written. rewrite Hw. revert v. induction r as [|x r IH]; intros v; simpl; [done|].
  rewrite (writes_at_ext _ _ _ _ _ Hr). apply IH.
Qed.

Lemma accesses_bytes l : ∀ m rs m1 b, accesses l m = Ok (rs, m1) → pmem m = Some b → Forall (λ x, cmd x.1 ≠ SwapReq) l →
  range m1 = range m ∧ ∃ b', pmem m1 = Some b' ∧ ∀ i, b' !! i = last_written m i rs (b !! i).
Proof.
  induction l as [|x l IH]; intros m rs m1 b H Hb Hs; cbn [accesses] in H; [injection H as <- <-; split; [done|]; by exists b|].
  apply bind_Ok in H as ([[[p1 q1] m2] cs1] & Ha & H). apply bind_Ok in H as ([r1 m3] & Hr & H). injection H as <- <-.
  apply Forall_cons in Hs as [Hx Hs]. destruct (access_bytes _ _ _ _ _ _ _ Ha Hx Hb) as (Hrg & Hw & b2 & Hb2 & Hl2).
  destruct (IH _ _ _ _ Hr Hb2 Hs) as (Hrg' & b' & Hb' & Hl'). split; [congruence|]. exists b'. split; [done|]. intros i.
  by rewrite Hl', Hl2, (last_written_ext m2 m) by done.
Qed.

(** C17: Memory is memory: after any loads, stores and store conditionals, each byte is the
    one that the last store to it wrote, with the byte enables of masked writes, and a load
    returns these bytes. *)
Theorem load_sees_last_stores l m rs m1 b ld p' q' m' cs i : accesses l m = Ok (rs, m1) → pmem m = Some b →
  Forall (λ x, cmd x.1 ≠ SwapReq) (l ++ [ld]) → isRead (cmd ld.1) = true → ignored ld.1 = false →
  access ld.1 ld.2 m1 = Ok (p', q', m', cs) → (i < Z.to_nat (size ld.1))%nat →
  data p' !! i = last_written m (offset m ld.1 + i) rs (b !! (offset m ld.1 + i)%nat).
Proof.
  intros H Hb Hs Hr Hig Ha Hi. apply Forall_app in Hs as [Hs Hsl]. rewrite Forall_singleton in Hsl.
  destruct (accesses_bytes _ _ _ _ _ H Hb Hs) as (Hrg & b1 & Hb1 & Hl). rewrite <-Hl. clear H Hs Hl Hb.
  assert (offset m ld.1 = offset m1 ld.1) as -> by (unfold offset; by rewrite Hrg).
  destruct (access_cases _ _ _ _ _ _ _ Ha) as [Hi'|off p1 p2 m2 Hi' Hs' Hoff Hsw|off p1 p2 m2 Hi' _ Hr' Hoff Hm2 Hrb Hd|p2 Hi' _ Hr' Hic|off p2 ok q1 m2 m3 cs1 Hst Hoff Hok Hm2];
    [congruence|by destruct Hsl| |congruence|].
  - apply host_offset_eq in Hoff as ->. assert (pmem m2 = Some b1) as Hb2.
    { destruct (isLLSC (cmd ld.1)); [|by subst]. apply trackLoadLocked_contents in Hm2 as (-> & _). done. }
    unfold read_bytes in Hrb. rewrite Hb2 in Hrb. unfold setData in Hrb. apply bind_Ok in Hrb as (u1 & _ & Hrb).
    apply bind_Ok in Hrb as (u2 & _ & Hrb). apply bind_Ok in Hrb as (n & Hn & Hrb). apply bind_Ok in Hrb as (d & Hm & Hrb).
    injection Hrb as <-. unfold getSize in Hn. apply bind_Ok in Hn as (u3 & _ & Hn). injection Hn as <-.
    rewrite Hd. simpl. destruct (memcpy_front _ _ _ _ i Hm) as [-> _]. rewrite bool_decide_true by done. by rewrite lookup_drop.
  - unfold is_store in Hst. by rewrite Hr, andb_false_r in Hst.
Qed.

(** ** The pointer to the memory *)

(** What can happen to a memory. *)
Inductive mem_step : Memory → Memory → Prop :=
  | ms_access p q m p' q' m' cs : access p q m = Ok (p', q', m', cs) → mem_step m m'
  | ms_functional p m p' m' : functionalAccess p m = Ok (p', m') → mem_step m m'
  | ms_backdoor id m b m' : getBackdoor id m = (b, m') → mem_step m m'
  | ms_locked a m : mem_step m (addLockedAddr a m)
  | ms_store b m : mem_step m (setBackingStore b m).

Definition guarded (m : Memory) : Prop := lockedAddrList m ≠ [] → backdoor m = [].

Lemma trackLoadLocked_guarded p q m m' : trackLoadLocked p q m = Ok m' → guarded m → guarded m'.
Proof.
  unfold trackLoadLocked. intros H Hg. apply bind_Ok in H as (a & _ & H). apply bind_Ok in H as (r & Hr & H). destruct r.
  - injection H as <-. intros _. simpl. apply Hg. intros Hl. rewrite Hl in Hr. by simpl in Hr.
  - apply bind_Ok in H as (c & _ & H). by injection H as <-.
Qed.

Lemma same_monitor_guarded m m' : same_monitor m m' → guarded m → guarded m'.
Proof. intros (Hl & _ & _ & Hb & _) Hg. unfold guarded. by rewrite Hl, Hb. Qed.

Lemma writeOK_guarded p q m ok q' m' cs : writeOK p q m = Ok (ok, q', m', cs) → guarded m → guarded m'.
Proof.
  unfold writeOK. intros H Hg. destruct (negb (writeable m)); [by injection H as <- <- <- <-|].
  case_bool_decide; [by injection H as <- <- <- <-|]. unfold checkLockedAddrList in H. apply bind_Ok in H as (a & _ & H).
  apply bind_Ok in H as ([b q1] & _ & H). destruct b; [|by injection H as <- <- <- <-].
  apply bind_Ok in H as ([l cs1] & _ & H). injection H as <- <- <- <-. intros _. by apply Hg.
Qed.

Lemma mem_step_guarded m m' : mem_step m m' → guarded m → guarded m'.
Proof.
  intros [p q m0 p' q' m1 cs H|p m0 p' m1 H|id m0 b m1 H|a m0|b m0] Hg.
  - destruct (access_cases _ _ _ _ _ _ _ H) as [Hi|off p1 p2 m2 Hi Hs Hoff Hsw|off p1 p2 m2 Hi Hs Hr Hoff Hm2 Hrb Hd|p2 Hi Hs Hr Hic|off p2 ok q1 m2 m3 cs1 Hst Hoff Hok Hm3]; [done| | |done|].
    + by eapply same_monitor_guarded; [eapply swap_monitor|].
    + destruct (isLLSC (cmd p)); [by eapply trackLoadLocked_guarded|by subst].
    + apply writeOK_guarded in Hok; [|done]. destruct ok; [|by subst]. by eapply same_monitor_guarded; [eapply with_bytes_monitor|].
  - unfold functionalAccess in H. repeat (apply bind_Ok in H as (? & _ & H)). destruct (isRead (cmd p)).
    + repeat (apply bind_Ok in H as (? & _ & H)). by injection H as <- <-.
    + destruct (isWrite (cmd p)).
      * apply bind_Ok in H as (m2 & Hm & H). apply bind_Ok in H as (? & _ & H). injection H as <- <-.
        by eapply same_monitor_guarded; [eapply with_bytes_monitor|].
      * destruct (isPrint (cmd p)); [by injection H as <- <-|done].
  - unfold getBackdoor in H. case_bool_decide as Hl; simpl in H; [|by injection H as <- <-].
    destruct (backdoor_ptr m0); injection H as <- <-; [|done]. intros Hn. by destruct Hn.
  - by intros _.
  - unfold setBackingStore, guarded in *. simpl. by destruct (backdoor_ptr m0).
Qed.

(** C31: While an address is locked no one has a pointer to the memory: whoever had one was
    told to drop it, so that every access passes the monitor. *)
Theorem no_backdoor_while_locked r w m0 m : AbstractMemory_new r w = Ok m0 → rtc mem_step m0 m → lockedAddrList m ≠ [] → backdoor m = [].
Proof.
  intros H0 Hr. assert (guarded m0) as Hg.
  { unfold AbstractMemory_new in H0. apply bind_Ok in H0 as (u & _ & H0). by injection H0 as <-. }
  clear H0. induction Hr as [m|m m1 m2 Hs Hr IH]; [done|]. by apply IH, (mem_step_guarded m).
Qed.

(** ** Examples: a memory of 64 bytes *)

Definition ex_memory : Memory := mkMemory (AddrRange.range 0 64) (Some (replicate 64 0)) true [] false [].

Definition ex_mem_packet (c : Command) (a s : Z) (d : list Z) : Packet :=
  let r := mkRequest (Some a) (Some s) false false false false false false false false false false false false false [] false in
  match Packet_new r c with Ok k => with_data (set_flag k DYNAMIC_DATA) d [] | Err _ => mkPacket c 0 r [] 0 false 0 [] 0 0 [] end.

Definition ex_from (c : Z) : Requester := mkRequester (Some c) false false None None.

Definition ex_ll (c a : Z) : Access := (ex_mem_packet LoadLockedReq a 4 [0; 0; 0; 0], ex_from c).
Definition ex_sc (c a v : Z) : Access := (ex_mem_packet StoreCondReq a 4 [v; 0; 0; 0], ex_from c).
Definition ex_st (c a v : Z) : Access := (ex_mem_packet WriteReq a 4 [v; 0; 0; 0], ex_from c).
Definition ex_ld (a : Z) : Access := (ex_mem_packet ReadReq a 4 [9; 9; 9; 9], ex_from 0).

(** A run, or nothing. *)
Definition run_of (l : list Access) (m : Memory) : list (Access * Requester) * Memory :=
  match accesses l m with Ok r => r | Err _ => ([], m) end.

Definition ex_locked_memory : Memory := (run_of [ex_st 1 16 7; ex_ll 0 16] ex_memory).2.
Definition ex_quiet : list Access := [ex_st 1 32 5; ex_ll 1 16; ex_ld 16].
Definition ex_reply (l : list Access) (m : Memory) : Requester := match last (run_of l m).1 with Some r => r.2 | None => ex_from 0 end.

Lemma ex_proper l : Forall (λ x : Access, bool_decide (paddr (req x.1) ≠ None) && negb (bool_decide (contextId_ x.2 = Some InvalidContextID)) = true) l → Forall proper l.
Proof.
  intros H. eapply Forall_impl; [exact H|]. intros x Hx. apply andb_true_iff in Hx as [H1 H2]. split; [by destruct (paddr _)|].
  by apply negb_true_iff, bool_decide_eq_false in H2.
Qed.

Lemma ex_contained l : Forall (λ x : Access, bool_decide (cmd x.1 ≠ SwapReq) && (negb (is_store x.1) ||
    bool_decide (paddr (req x.1) = Some (addr x.1)) && (0 <=? addr x.1) && (addr x.1 <? 2 ^ 64) &&
    (1 <=? size x.1) && (addr x.1 mod 16 + size x.1 <=? 16)) = true) l → Forall contained l.
Proof.
  intros H. eapply Forall_impl; [exact H|]. intros x Hx. apply andb_true_iff in Hx as [H1 H2].
  apply bool_decide_eq_true in H1. split; [done|]. intros Hs. rewrite Hs in H2. simpl in H2.
  rewrite !andb_true_iff, !Z.leb_le, Z.ltb_lt, bool_decide_eq_true in H2. unfold fits. intuition.
Qed.

Ltac ex_accesses := lazymatch goal with
  | |- Forall proper _ => apply ex_proper; repeat constructor
  | |- Forall contained _ => apply ex_contained; repeat constructor
  | |- _ → False => vm_compute; discriminate
  | |- _ => vm_compute; reflexivity
  end.

(** The store conditional succeeds when other contexts store elsewhere, and not when one
    stores to the block. *)
Lemma store_conditional_succeeds_witness :
  extraData (ex_reply (ex_quiet ++ [ex_sc 0 16 9]) ex_locked_memory) = Some 1 ∧
  extraData (ex_reply ([ex_st 1 20 5] ++ [ex_sc 0 16 9]) ex_locked_memory) ≠ Some 1.
Proof.
  assert (fits 64 (default 0 (paddr (req (ex_sc 0 16 9).1)))) as Hf by (vm_compute; split; [discriminate|reflexivity]).
  split.
  - refine (proj2 (proj2 (store_conditional_succeeds 0 [ex_st 1 16 7] (ex_ll 0 16) ex_quiet (ex_sc 0 16 9) ex_memory (take 1 (run_of [ex_st 1 16 7; ex_ll 0 16] ex_memory).1)
              ex_locked_memory (ex_reply [ex_st 1 16 7; ex_ll 0 16] ex_memory) (run_of ex_quiet ex_locked_memory).1
              (ex_reply (ex_quiet ++ [ex_sc 0 16 9]) ex_locked_memory) (run_of (ex_quiet ++ [ex_sc 0 16 9]) ex_locked_memory).2
              _ _ _ _ _ _ _ _ _ _ _) _ Hf) _); ex_accesses.
  - intros Hx. refine (_ (proj1 (proj2 (store_conditional_succeeds 0 [ex_st 1 16 7] (ex_ll 0 16) [ex_st 1 20 5] (ex_sc 0 16 9) ex_memory (take 1 (run_of [ex_st 1 16 7; ex_ll 0 16] ex_memory).1)
              ex_locked_memory (ex_reply [ex_st 1 16 7; ex_ll 0 16] ex_memory) (run_of [ex_st 1 20 5] ex_locked_memory).1
              (ex_reply ([ex_st 1 20 5] ++ [ex_sc 0 16 9]) ex_locked_memory) (run_of ([ex_st 1 20 5] ++ [ex_sc 0 16 9]) ex_locked_memory).2
              _ _ _ _ _ _ _ _ _ _ _) _ Hf) Hx)); ex_accesses.
Defined.

Lemma load_sees_last_stores_witness :
  let l := [ex_st 1 16 7; ex_st 0 16 8; ex_ll 0 16; ex_sc 0 16 9; ex_sc 1 16 3] in
  ∃ p' q' m' cs, access (ex_ld 16).1 (ex_ld 16).2 (run_of l ex_memory).2 = Ok (p', q', m', cs) ∧ data p' !! 0%nat = Some 9.
Proof.
  intros l. destruct (access (ex_ld 16).1 (ex_ld 16).2 (run_of l ex_memory).2) as [[[[p' q'] m'] cs]|e] eqn:Ha; [|vm_compute in Ha; discriminate].
  exists p', q', m', cs. split; [reflexivity|].
  refine (eq_trans (load_sees_last_stores l ex_memory (run_of l ex_memory).1 (run_of l ex_memory).2 (replicate 64 0) (ex_ld 16) p' q' m' cs 0 _ _ _ _ _ Ha _) _);
    try (vm_compute; reflexivity); [|vm_compute; lia]. repeat constructor; discriminate.
Defined.

Definition ex_open : Memory := mkMemory (AddrRange.range 0 64) (Some (replicate 64 0)) true [] true [3%nat].

Lemma no_backdoor_while_locked_witness : ∃ m0 m, AbstractMemory_new (AddrRange.range 0 64) true = Ok m0 ∧ rtc mem_step m0 m ∧
  lockedAddrList m ≠ [] ∧ backdoor m = [].
Proof.
  destruct (AbstractMemory_new (AddrRange.range 0 64) true) as [m0|e] eqn:H0; [|vm_compute in H0; discriminate].
  set (m1 := setBackingStore (replicate 64 0) m0). set (m2 := (getBackdoor 3 m1).2).
  destruct (access (ex_ll 0 16).1 (ex_ll 0 16).2 m2) as [[[[p' q'] m3] cs]|e] eqn:Ha.
  2: { exfalso. revert Ha. unfold m2, m1. injection H0 as <-. vm_compute. discriminate. }
  assert (rtc mem_step m0 m3) as Hr.
  { apply rtc_l with m1; [constructor|]. apply rtc_l with m2; [apply (ms_backdoor 3 m1 (getBackdoor 3 m1).1); apply surjective_pairing|].
    apply rtc_once. by eapply ms_access. }
  assert (lockedAddrList m3 ≠ []) as Hl.
  { revert Ha. unfold m2, m1. injection H0 as <-. vm_compute. intros [= <- <- <- <-]. discriminate. }
  exists m0, m3. split; [reflexivity|]. split; [exact Hr|]. split; [exact Hl|].
  exact (no_backdoor_while_locked _ _ _ _ H0 Hr Hl).
Defined.

(** A swap by another context changes the locked bytes, and leaves the lock. *)
Lemma swap_leaves_lock :
  let l := [ex_ll 0 16; (ex_mem_packet SwapReq 16 4 [5; 0; 0; 0], ex_from 1); ex_sc 0 16 9] in
  extraData (ex_reply l ex_memory) = Some 1 ∧
  (∃ b, pmem (run_of (take 2 l) ex_memory).2 = Some b ∧ b !! 16%nat = Some 5).
Proof. split; [by vm_compute|]. eexists. split; [vm_compute; reflexivity|]. reflexivity. Qed.

(** So does a store that starts in another block of sixteen bytes. *)
Lemma wide_store_leaves_lock :
  let l := [ex_ll 0 16; (ex_mem_packet WriteReq 0 32 (replicate 32 5), ex_from 1); ex_sc 0 16 9] in
  extraData (ex_reply l ex_memory) = Some 1 ∧
  (∃ b, pmem (run_of (take 2 l) ex_memory).2 = Some b ∧ b !! 16%nat = Some 5).
Proof. split; [by vm_compute|]. eexists. split; [vm_compute; reflexivity|]. reflexivity. Qed.

End AbstractMemProps.
