(* ===== verification/SimpleMemProps.v ===== *)
(** * mem/simple_mem: responses and retries

    Every accepted request that needs a response gets one, those to one address in the order
    of the requests; none is sent before it is due; and while something waits, what
    will move it on is scheduled or owed by the peer. *)

From Stdlib Require Import ZArith Lia.
From stdpp Require Import base numbers option list relations.
From S2P Require Import Prelude AddrRange Packet PacketQueue AbstractMem SimpleMem AbstractMemProps.

Module SimpleMemProps.
Import Packet PacketQueue AbstractMem SimpleMem AbstractMemProps.

(** The memory, the responses to the requests that it accepted, and those that it sent. *)
Record Sys := mkSys { sm : SimpleMemory; accepted : list Packet; sent : list Packet }.

Definition start (m : Memory) : Sys := mkSys (SimpleMemory_new m) [] [].

Section Memory_.
Context (duration : Z → Z).

(** What can happen at a time that is not before the last.  The events fire at their times. *)
Inductive step : Sys → Sys → Prop :=
  | st_accept now delay lat p q p' q' m' cs s a o q2 s' cs' : access p q (mem s) = Ok (p', q', m', cs) →
      recvTimingReq duration now delay lat p q s = Ok (true, q2, s', cs') →
      step (mkSys s a o) (mkSys s' (if needsResponse (cmd p) then a ++ [p'] else a) o)
  | st_refuse now delay lat p q q' s a o s' cs : recvTimingReq duration now delay lat p q s = Ok (false, q', s', cs) →
      step (mkSys s a o) (mkSys s' a o)
  | st_release t b s a o s' : releaseEvent s = Some t → release s = Ok (b, s') → step (mkSys s a o) (mkSys s' a o)
  | st_dequeue t b k d s a o s' : dequeueEvent s = Some t → processDequeue t b s = Ok (k, d, s') →
      step (mkSys s a o) (mkSys s' a (o ++ option_list k))
  | st_retry now b k d s a o s' : recvRespRetry now b s = Ok (k, d, s') → step (mkSys s a o) (mkSys s' a (o ++ option_list k))
  | st_drain s a o b s' : drain s = (b, s') → step (mkSys s a o) (mkSys s' a o).

(** ** The place of a response *)

Lemma place_spec when p l : ∀ post r, place when p (reverse l) post = Ok r →
  ∃ l1 l2, l = l1 ++ l2 ∧ r = l1 ++ mkDeferred when p :: l2 ++ post ∧ (l ≠ [] → l1 ≠ []) ∧
    Forall (λ d, matchAddr_pkt (dpkt d) p = Ok false ∧ when < tick d) l2.
Proof.
  induction l as [|d l IH] using rev_ind; intros post r H.
  - simpl in H. injection H as <-. exists [], []. done.
  - rewrite reverse_snoc in H. destruct (reverse l) as [|e l'] eqn:Hl.
    + assert (l = []) as -> by (rewrite <-(reverse_involutive l), Hl; done). simpl in H. injection H as <-. exists [d], []. done.
    + assert (l ≠ []) as Hne by (intros ->; done).
      assert (∀ r0, r0 = reverse (d :: reverse l) ++ mkDeferred when p :: post → ∃ l1 l2, l ++ [d] = l1 ++ l2 ∧ r0 = l1 ++ mkDeferred when p :: l2 ++ post ∧
        (l ++ [d] ≠ [] → l1 ≠ []) ∧ Forall (λ d, matchAddr_pkt (dpkt d) p = Ok false ∧ when < tick d) l2) as Hstop.
      { intros r0 ->. exists (l ++ [d]), []. rewrite reverse_cons, reverse_involutive, app_nil_r. done. }
      rewrite <-Hl in *. assert (place when p (d :: reverse l) post = (if when <? tick d then
          m ← matchAddr_pkt (dpkt d) p;
          if m : bool then Ok (reverse (d :: reverse l) ++ mkDeferred when p :: post) else place when p (reverse l) (d :: post)
        else Ok (reverse (d :: reverse l) ++ mkDeferred when p :: post))) as Hp by (rewrite Hl; done).
      rewrite Hp in H. destruct (Z.ltb_spec when (tick d)); [|injection H as <-; by apply Hstop].
      apply bind_Ok in H as (b & Hb & H). destruct b; [injection H as <-; by apply Hstop|].
      destruct (IH _ _ H) as (l1 & l2 & -> & -> & Hn & Hf). exists l1, (l2 ++ [d]). split; [by rewrite app_assoc|].
      split; [by rewrite <-app_assoc|]. split; [intros _; by apply Hn|]. apply Forall_app. split; [done|]. by apply Forall_singleton.
Qed.

(** ** The invariant *)

Definition same (a : Z) (sec : bool) (k : Packet) : Prop := addr k = a ∧ _isSecure k = sec.
#[local] Instance same_dec a sec k : Decision (same a sec k).
Proof. unfold same. apply _. Defined.

Lemma matched_address d p a sec : matchAddr_pkt d p = Ok false → same a sec p → ¬ same a sec d.
Proof.
  unfold matchAddr_pkt, matchAddr. intros H [<- <-] [Ha Hs]. apply bind_Ok in H as (a1 & H1 & H). apply bind_Ok in H as (s1 & H2 & H).
  apply bind_Ok in H as (a2 & H3 & H). unfold getAddr in *. apply bind_Ok in H1 as (? & _ & H1). injection H1 as <-.
  apply bind_Ok in H3 as (? & _ & H3). injection H3 as <-. unfold isSecure in *. apply bind_Ok in H2 as (? & _ & H2). injection H2 as <-.
  rewrite Ha, Z.eqb_refl in H. apply bind_Ok in H as (s2 & H4 & H). apply bind_Ok in H4 as (? & _ & H4). injection H4 as <-.
  rewrite Hs in H. by destruct (_isSecure p).
Qed.

Record Inv (s : SimpleMemory) : Prop := {
  i_awake : packetQueue s ≠ [] → dequeueEvent s ≠ None ∨ s_retryResp s = true;
  i_retry : s_retryResp s = true → packetQueue s ≠ [] ∧ dequeueEvent s = None;
  i_time : ∀ t, dequeueEvent s = Some t → ∃ d l, packetQueue s = d :: l ∧ tick d <= t;
  i_busy : isBusy s = true ↔ releaseEvent s ≠ None;
  i_refused : s_retryReq s = true → isBusy s = true
}.

Definition waiting_responses (s : SimpleMemory) : list Packet := dpkt <$> packetQueue s.

Definition in_order (s : Sys) : Prop :=
  accepted s ≡ₚ sent s ++ waiting_responses (sm s) ∧
  ∀ a sec, filter (same a sec) (accepted s) = filter (same a sec) (sent s ++ waiting_responses (sm s)).

Lemma placed_in_order (acc snt : list Packet) when p l r : acc ≡ₚ snt ++ (dpkt <$> l) →
  (∀ a sec, filter (same a sec) acc = filter (same a sec) (snt ++ (dpkt <$> l))) → place when p (reverse l) [] = Ok r →
  (acc ++ [p] ≡ₚ snt ++ (dpkt <$> r)) ∧ (∀ a sec, filter (same a sec) (acc ++ [p]) = filter (same a sec) (snt ++ (dpkt <$> r))) ∧
  r ≠ [] ∧ (l ≠ [] → head r = head l) ∧ (l = [] → r = [mkDeferred when p]).
Proof.
  intros Hp Hf H. apply place_spec in H as (l1 & l2 & -> & -> & Hn & Hm). rewrite app_nil_r in *. split; [|split; [|split; [|split]]].
  - rewrite Hp, !fmap_app, fmap_cons. simpl. solve_Permutation.
  - intros a sec. rewrite filter_app, Hf, !fmap_app, !filter_app, fmap_cons. simpl. rewrite !filter_cons, filter_nil, <-!app_assoc.
    f_equal. f_equal. destruct (decide (same a sec p)) as [Hs|Hs]; [|by rewrite app_nil_r].
    assert (filter (same a sec) (dpkt <$> l2) = []) as ->; [|done]. clear -Hm Hs. induction Hm as [|d l2 [Hd _] _ IH]; [done|]. simpl.
    rewrite filter_cons, decide_False; [done|]. by eapply matched_address.
  - by destruct l1.
  - intros Hl. specialize (Hn Hl). by destruct l1.
  - intros Hl. by apply app_eq_nil in Hl as [-> ->].
Qed.

(** ** Steps *)

(** A part of a step that does not touch the responses. *)
Definition same_responses (s s' : SimpleMemory) : Prop :=
  packetQueue s' = packetQueue s ∧ dequeueEvent s' = dequeueEvent s ∧ s_retryResp s' = s_retryResp s.

Lemma same_responses_inv s s' : same_responses s s' → (isBusy s' = true ↔ releaseEvent s' ≠ None) →
  (s_retryReq s' = true → isBusy s' = true) → Inv s → Inv s'.
Proof. intros (Hq & He & Hr) Hb Hrf [H1 H2 H3 _ _]. constructor; [| | |done|done]; by rewrite ?Hq, ?He, ?Hr. Qed.

Lemma accept_spec now delay lat p q p' q' m' cs s s' q2 cs' : access p q (mem s) = Ok (p', q', m', cs) →
  recvTimingReq duration now delay lat p q s = Ok (true, q2, s', cs') →
  s_retryReq s = false ∧ isBusy s = false ∧ ∃ s1, mem s1 = m' ∧ same_responses s s1 ∧ s_retryReq s1 = false ∧
    (isBusy s = true ↔ releaseEvent s ≠ None → isBusy s1 = true ↔ releaseEvent s1 ≠ None) ∧
    (if needsResponse (cmd p) then ∃ l, place (now + delay + lat) p' (reverse (packetQueue s)) [] = Ok l ∧
       (if negb (s_retryResp s) && bool_decide (dequeueEvent s = None)
        then ∃ d, last l = Some d ∧ s' = set_dequeue (s_retryResp s) (Some (tick d)) (set_queue l s1)
        else s' = set_queue l s1)
     else s' = s1).
Proof.
  intros Ha H. unfold recvTimingReq in H. apply bind_Ok in H as (u1 & _ & H). apply bind_Ok in H as (u2 & _ & H).
  destruct (s_retryReq s) eqn:Hrr; [done|]. destruct (isBusy s) eqn:Hb; [done|]. split; [done|]. split; [done|].
  apply bind_Ok in H as (sz & _ & H). apply bind_Ok in H as (s0 & Hs0 & H).
  assert (same_responses s s0 ∧ s_retryReq s0 = false ∧ mem s0 = mem s ∧
    (false = true ↔ releaseEvent s ≠ None → isBusy s0 = true ↔ releaseEvent s0 ≠ None)) as (Hsr & Hr0 & Hm0 & Hb0).
  { destruct (duration sz =? 0); [injection Hs0 as <-; by rewrite Hb|]. apply bind_Ok in Hs0 as (e & He & Hs0). injection Hs0 as <-.
    unfold schedule in He. apply bind_Ok in He as (v & _ & He). apply bind_Ok in He as (v' & _ & He). injection He as <-.
    split_and!; try done. }
  apply bind_Ok in H as ([[[p1 q1] s1] cs1] & Hra & H). unfold recvAtomic in Hra. apply bind_Ok in Hra as (u3 & _ & Hra).
  rewrite Hm0, Ha in Hra. simpl in Hra. injection Hra as <- <- <- <-. exists (set_mem m' s0). split; [done|].
  split; [exact Hsr|]. split; [exact Hr0|]. split; [exact Hb0|]. destruct Hsr as (Hq & He & Hrt). destruct (needsResponse (cmd p)); [|by injection H].
  apply bind_Ok in H as (u4 & _ & H). apply bind_Ok in H as (l & Hl & H). exists l. simpl in Hl. rewrite Hq in Hl. split; [done|].
  apply bind_Ok in H as (s2 & Hs2 & H). injection H as <- <- <-. simpl in Hs2. rewrite He, Hrt in Hs2.
  destruct (negb (s_retryResp s) && bool_decide (dequeueEvent s = None)); [|by injection Hs2].
  apply bind_Ok in Hs2 as (d & Hd & Hs2). apply deref_Ok in Hd. apply bind_Ok in Hs2 as (e & Hsc & Hs2). injection Hs2 as <-.
  unfold schedule in Hsc. apply bind_Ok in Hsc as (v & _ & Hsc). apply bind_Ok in Hsc as (v' & _ & Hsc). injection Hsc as <-. by exists d.
Qed.

Lemma dequeue_spec now b s k d s' : dequeue now b s = Ok (k, d, s') →
  ∃ e l, packetQueue s = e :: l ∧ isBusy s' = isBusy s ∧ releaseEvent s' = releaseEvent s ∧ s_retryReq s' = s_retryReq s ∧
    if b then k = Some (dpkt e) ∧ packetQueue s' = l ∧ s_retryResp s' = false ∧
              dequeueEvent s' = match l with [] => dequeueEvent s | e' :: _ => Some (Z.max (tick e') now) end
    else k = None ∧ packetQueue s' = e :: l ∧ s_retryResp s' = true ∧ dequeueEvent s' = dequeueEvent s.
Proof.
  intros H. unfold dequeue in H. simpl in H. destruct (packetQueue s) as [|e l] eqn:Hq; [done|]. exists e, l. split; [done|]. destruct b.
  - destruct l as [|e' l]; [|injection H as <- <- <-; done]. destruct (draining s); injection H as <- <- <-; done.
  - by injection H as <- <- <-.
Qed.

Lemma dequeue_keeps now b s k d s' a o : dequeue now b s = Ok (k, d, s') → dequeueEvent s = None →
  (isBusy s = true ↔ releaseEvent s ≠ None) → (s_retryReq s = true → isBusy s = true) →
  in_order (mkSys s a o) → Inv s' ∧ in_order (mkSys s' a (o ++ option_list k)).
Proof.
  intros H He Hb Hrf [Hp Hf]. destruct (dequeue_spec _ _ _ _ _ _ H) as (e & l & Hq & Hb' & Hr' & Hrr & Hcase).
  unfold in_order, waiting_responses in *. cbn [accepted sent sm] in *. rewrite Hq in Hp, Hf. destruct b.
  - destruct Hcase as (-> & Hq' & Hrt & Hde). rewrite Hq'. split; [|split; [by rewrite <-app_assoc|intros a0 sec; by rewrite <-app_assoc]].
    constructor; rewrite ?Hq', ?Hrt, ?Hde, ?Hb', ?Hr', ?Hrr; try done; rewrite ?He.
    + destruct l; [done|]. by left.
    + intros t Ht. destruct l as [|e' l]; [done|]. injection Ht as <-. exists e', l. split; [done|]. lia.
  - destruct Hcase as (-> & Hq' & Hrt & Hde). rewrite Hq'. cbn [option_list]. rewrite app_nil_r. split; [|done].
    constructor; rewrite ?Hq', ?Hrt, ?Hde, ?Hb', ?Hr', ?Hrr; try done; rewrite ?He; try done. intros _. by right.
Qed.

Lemma memory_step_keeps s s' : step s s' → Inv (sm s) → in_order s → Inv (sm s') ∧ in_order s'.
Proof.
  intros [now delay lat p q p' q' m' cs s0 a o q2 s1 cs' Ha H|now delay lat p q q' s0 a o s1 cs H|t b s0 a o s1 Ht H|t b k d s0 a o s1 Ht H|now b k d s0 a o s1 H|s0 a o b s1 H] HI HO;
    cbn [sm] in *.
  - destruct (accept_spec _ _ _ _ _ _ _ _ _ _ _ _ _ Ha H) as (Hrr & Hb & s2 & _ & Hsr & Hrr2 & Hb2 & Hs1).
    specialize (Hb2 (i_busy _ HI)). assert (Inv s2) as HI2 by (apply (same_responses_inv s0); [done|done|by rewrite Hrr2|done]).
    destruct (needsResponse (cmd p)); [|subst s1; split; [done|]; destruct Hsr as (Hq & _); unfold in_order, waiting_responses in *; cbn [sm accepted sent] in *; by rewrite Hq].
    destruct Hs1 as (l & Hl & Hs1). destruct HO as [Hp Hf]. unfold waiting_responses in Hp, Hf. cbn [sm accepted sent] in Hp, Hf.
    destruct (placed_in_order _ _ _ _ _ _ Hp Hf Hl) as (Hp' & Hf' & Hne & Hhd & Hemp). destruct Hsr as (Hq & He & Hrt).
    assert (packetQueue s1 = l) as Hql by (destruct (negb _ && _); [destruct Hs1 as (d & _ & ->); done|by rewrite Hs1]).
    split; [|unfold in_order, waiting_responses; cbn [sm accepted sent]; by rewrite Hql].
    destruct (negb (s_retryResp s0) && bool_decide (dequeueEvent s0 = None)) eqn:Hc.
    + apply andb_true_iff in Hc as [Hc1 Hc2]. apply negb_true_iff in Hc1. apply bool_decide_eq_true in Hc2.
      assert (packetQueue s0 = []) as Hq0. { destruct (packetQueue s0) eqn:Hq0; [done|]. destruct (i_awake _ HI) as [?|?]; [by rewrite Hq0|done|congruence]. }
      rewrite (Hemp Hq0) in *. destruct Hs1 as (d & Hd & ->). simpl in Hd. injection Hd as <-. constructor; simpl; try done.
      * intros _. by left.
      * congruence.
      * intros t [= <-]. eexists _, _. split; [done|]. simpl. lia.
      * apply (i_refused _ HI2).
    + subst s1. destruct HI2 as [I1 I2 I3 I4 I5]. constructor; simpl; [| | |done|done].
      * intros _. rewrite He, Hrt. apply andb_false_iff in Hc as [Hc|Hc]; [right; by apply negb_false_iff in Hc|].
        left. by apply bool_decide_eq_false in Hc.
      * intros Hr. split; [done|]. by apply I2.
      * intros t Ht. destruct (I3 t Ht) as (d & l0 & Hd & Hle). rewrite Hq in Hd. assert (packetQueue s0 ≠ []) as Hn0 by (by rewrite Hd).
        specialize (Hhd Hn0). rewrite Hd in Hhd. destruct l as [|d' l']; [done|]. injection Hhd as ->. by exists d, l'.
  - unfold recvTimingReq in H. apply bind_Ok in H as (u1 & _ & H). apply bind_Ok in H as (u2 & _ & H).
    destruct (s_retryReq s0) eqn:Hrr; [by injection H as <- <- <-|]. destruct (isBusy s0) eqn:Hb; [injection H as <- <- <-|].
    + split; [|done]. apply (same_responses_inv s0); [done|apply HI|done|done].
    + exfalso. apply bind_Ok in H as (sz & _ & H). apply bind_Ok in H as (s2 & _ & H). apply bind_Ok in H as ([[[p1 q1] s3] cs1] & _ & H).
      destruct (needsResponse (cmd p)); [|done]. apply bind_Ok in H as (u4 & _ & H). apply bind_Ok in H as (l & _ & H).
      by apply bind_Ok in H as (s4 & _ & H).
  - unfold release in H. apply bind_Ok in H as (u & _ & H). simpl in H. destruct (s_retryReq s0) eqn:Hrr; injection H as <- <-; (split; [|done]);
      (apply (same_responses_inv s0); [done|done| |done]); simpl; [done|]. by rewrite Hrr.
  - unfold processDequeue in H. assert (s_retryResp s0 = false) as Hrt. { destruct (s_retryResp s0) eqn:Hrt; [|done]. apply (i_retry _ HI) in Hrt as [_ ?]. congruence. }
    eapply dequeue_keeps; [exact H|done|apply HI|apply HI|exact HO].
  - unfold recvRespRetry in H. apply bind_Ok in H as ([] & Hr & H). apply assert_ok_true in Hr.
    eapply dequeue_keeps; [exact H|by apply (i_retry _ HI)|apply HI|apply HI|exact HO].
  - unfold drain in H. case_bool_decide; injection H as <- <-; [done|]. split; [|done]. apply (same_responses_inv s0); [done|apply HI|apply HI|done].
Qed.

Lemma start_keeps m : Inv (sm (start m)) ∧ in_order (start m).
Proof. by split; [constructor|]. Qed.

Lemma reached_keeps m s : rtc step (start m) s → Inv (sm s) ∧ in_order s.
Proof.
  intros H. assert (∀ x y, rtc step x y → Inv (sm x) ∧ in_order x → Inv (sm y) ∧ in_order y) as Hgen.
  { induction 1 as [x|x y z Hs _ IH]; [done|]. intros [HI HO]. apply IH. by eapply memory_step_keeps. }
  eapply Hgen; [exact H|apply start_keeps].
Qed.

(** C21: A memory answers every accepted request that needs it exactly once: its responses are
    those that were sent and those that wait, and the responses to one address leave in the
    order of their requests, whatever their latencies. *)
Theorem memory_answers_in_order m s : rtc step (start m) s →
  accepted s ≡ₚ sent s ++ waiting_responses (sm s) ∧
  ∀ a sec, filter (same a sec) (accepted s) = filter (same a sec) (sent s ++ waiting_responses (sm s)).
Proof. intros H. by apply reached_keeps in H as [_ ?]. Qed.

(** C30: A memory never gets stuck: responses that wait have an event, which does not come
    before the first of them is due, or the peer owes a retry; and who was refused will be
    told to try again when the memory is not busy any more. *)
Theorem memory_never_stuck m s : rtc step (start m) s →
  (packetQueue (sm s) ≠ [] → (∃ t, dequeueEvent (sm s) = Some t) ∨ s_retryResp (sm s) = true) ∧
  (∀ t, dequeueEvent (sm s) = Some t → ∃ d l, packetQueue (sm s) = d :: l ∧ tick d <= t) ∧
  (s_retryReq (sm s) = true → ∃ t, releaseEvent (sm s) = Some t).
Proof.
  intros H. apply reached_keeps in H as [[H1 H2 H3 H4 H5] _]. split; [|split; [done|]].
  - intros Hq. destruct (H1 Hq) as [He|?]; [left|by right]. destruct (dequeueEvent (sm s)) as [t|]; [by exists t|done].
  - intros Hr. apply H5, H4 in Hr. destruct (releaseEvent (sm s)) as [t|]; [by exists t|done].
Qed.

End Memory_.

(** ** An example run: a tick for each byte *)

Definition ex_accept (now lat : Z) (x : Access) (s : Sys) : option Sys :=
  match access x.1 x.2 (mem (sm s)), recvTimingReq (λ z, z) now 0 lat x.1 x.2 (sm s) with
  | Ok (p', q', _, _), Ok (true, _, s', _) => Some (mkSys s' (if needsResponse (cmd x.1) then accepted s ++ [p'] else accepted s) (sent s))
  | _, _ => None
  end.
Definition ex_refuse (now lat : Z) (x : Access) (s : Sys) : option Sys :=
  match recvTimingReq (λ z, z) now 0 lat x.1 x.2 (sm s) with Ok (false, _, s', _) => Some (mkSys s' (accepted s) (sent s)) | _ => None end.
Definition ex_release (s : Sys) : option Sys :=
  match releaseEvent (sm s), release (sm s) with Some _, Ok (_, s') => Some (mkSys s' (accepted s) (sent s)) | _, _ => None end.
Definition ex_dequeue (b : bool) (s : Sys) : option Sys :=
  match dequeueEvent (sm s) with
  | Some t => match processDequeue t b (sm s) with Ok (k, _, s') => Some (mkSys s' (accepted s) (sent s ++ option_list k)) | _ => None end
  | None => None
  end.

(** Three loads; the third is the fastest, and the peer does not take the first response. *)
Definition ex_steps : list (Sys → option Sys) :=
  [ex_accept 0 10 (ex_ld 16); ex_release; ex_accept 5 30 (ex_ld 20); ex_refuse 6 0 (ex_ld 24); ex_release;
   ex_accept 10 5 (ex_ld 24); ex_refuse 12 1 (ex_ld 28); ex_dequeue true; ex_dequeue false].
Fixpoint run_steps (l : list (Sys → option Sys)) (s : Sys) : option Sys :=
  match l with [] => Some s | f :: l => match f s with Some s => run_steps l s | None => None end end.
Definition ex_run : option Sys := run_steps ex_steps (start ex_memory).

Lemma ex_accept_step now lat x s s' : ex_accept now lat x s = Some s' → step (λ z, z) s s'.
Proof.
  unfold ex_accept. destruct s as [s a o]. simpl. destruct (access _ _ _) as [[[[p' q'] m'] cs]|] eqn:Ha; [|done].
  destruct (recvTimingReq _ _ _ _ _ _ _) as [[[[[] q2] s2] cs2]|] eqn:Hr; [|done|done]. intros [= <-]. eapply st_accept; [exact Ha|exact Hr].
Qed.
Lemma ex_refuse_step now lat x s s' : ex_refuse now lat x s = Some s' → step (λ z, z) s s'.
Proof.
  unfold ex_refuse. destruct s as [s a o]. simpl. destruct (recvTimingReq _ _ _ _ _ _ _) as [[[[[] q2] s2] cs2]|] eqn:Hr; [done| |done].
  intros [= <-]. by eapply st_refuse.
Qed.
Lemma ex_release_step s s' : ex_release s = Some s' → step (λ z, z) s s'.
Proof.
  unfold ex_release. destruct s as [s a o]. simpl. destruct (releaseEvent s) eqn:He; [|done]. destruct (release s) as [[b s2]|] eqn:Hr; [|done].
  intros [= <-]. by eapply st_release.
Qed.
Lemma ex_dequeue_step b s s' : ex_dequeue b s = Some s' → step (λ z, z) s s'.
Proof.
  unfold ex_dequeue. destruct s as [s a o]. simpl. destruct (dequeueEvent s) eqn:He; [|done]. destruct (processDequeue _ _ _) as [[[k d] s2]|] eqn:Hr; [|done].
  intros [= <-]. by eapply st_dequeue.
Qed.

Lemma run_steps_reached l : ∀ s s', Forall (λ f : Sys → option Sys, ∀ x y, f x = Some y → step (λ z, z) x y) l →
  run_steps l s = Some s' → rtc (step (λ z, z)) s s'.
Proof.
  induction l as [|f l IH]; intros s s' Hf H; simpl in H; [injection H as <-; constructor|]. apply Forall_cons in Hf as [Hf Hl].
  destruct (f s) as [s1|] eqn:Hs; [|done]. eapply rtc_l; [by apply Hf|]. by apply IH.
Qed.

Lemma ex_run_reached s : ex_run = Some s → rtc (step (λ z, z)) (start ex_memory) s.
Proof.
  apply run_steps_reached. repeat apply Forall_cons_2; try apply Forall_nil_2; intros x y;
    first [apply ex_accept_step|apply ex_refuse_step|apply ex_release_step|apply ex_dequeue_step].
Qed.

(** The fast load overtook the second. *)
Lemma memory_answers_in_order_witness : ∃ s, ex_run = Some s ∧ addr <$> accepted s = [16; 20; 24] ∧ addr <$> sent s = [16] ∧
  addr <$> waiting_responses (sm s) = [24; 20] ∧ accepted s ≡ₚ sent s ++ waiting_responses (sm s).
Proof.
  destruct ex_run as [s|] eqn:Hs; [|vm_compute in Hs; discriminate]. exists s. split; [reflexivity|].
  refine ((λ P, conj (proj1 P) (conj (proj1 (proj2 P)) (conj (proj2 (proj2 P))
    (proj1 (memory_answers_in_order (λ z, z) ex_memory s (ex_run_reached s Hs)))))) _).
  vm_compute in Hs. injection Hs as <-. split; [|split]; vm_compute; reflexivity.
Defined.

Lemma memory_never_stuck_witness : ∃ s, ex_run = Some s ∧ packetQueue (sm s) ≠ [] ∧ s_retryReq (sm s) = true ∧
  ((∃ t, dequeueEvent (sm s) = Some t) ∨ s_retryResp (sm s) = true) ∧ ∃ t, releaseEvent (sm s) = Some t.
Proof.
  destruct ex_run as [s|] eqn:Hs; [|vm_compute in Hs; discriminate]. exists s. split; [reflexivity|].
  assert (packetQueue (sm s) ≠ [] ∧ s_retryReq (sm s) = true) as [Hq Hr].
  { vm_compute in Hs. injection Hs as <-. split; [discriminate|reflexivity]. }
  destruct (memory_never_stuck (λ z, z) ex_memory s (ex_run_reached s Hs)) as (H1 & _ & H3). auto.
Defined.

End SimpleMemProps.
