(* ===== verification/CoherentXBar.v ===== *)
(** * mem/coherent_xbar: the coherent crossbar

    Requests are snooped above before they are forwarded: to the ports that the snoop filter
    names, or to all snooping ports.  A response comes from memory, from a cache that was
    snooped, or from the crossbar itself, and a clean request may wait here for the write
    that belongs to it.

    The crossbar has the state of [XBar.BaseXBar] and its layers, a layer of snoop responses
    per memory-side port, and two tables.  What a neighbour does when it is called is an
    argument, as in [XBar]; a neighbour does not call back before it returns.  Ports are
    numbered; the port that a snoop response takes to the layer of a CPU-side port, the
    [SnoopRespPort] of port [i], has the number [-2 - i]. *)

From Stdlib Require Import ZArith Lia.
From stdpp Require Import base numbers option list gmap.
From S2P Require Import Prelude IntMath AddrRange AddrRangeMap Clocked Packet XBarLayer XBar SnoopFilter.

Module CoherentXBar.
Import Clocked Packet XBarLayer XBar.

Abbreviation Port := SnoopFilter.Port.
Abbreviation getId := SnoopFilter.getId.
Abbreviation isSnooping := SnoopFilter.isSnooping.
Abbreviation InvalidPortID := XBar.InvalidPortID.

(** A packet with what this crossbar reads of it besides the fields of [XBarPacket]; the two
    flags are those of its request. *)
Record CohPacket := mkCPkt {
  xp : XBarPacket;
  snoopDelay : Z;
  id : Z;
  isToPOC : bool;
  isToPOU : bool
}.

Definition qpkt (p : CohPacket) : Packet := pkt (xp p).
Definition qreq (p : CohPacket) : positive := reqPtr (xp p).

Definition set_xp (q : XBarPacket) (p : CohPacket) : CohPacket := mkCPkt q (snoopDelay p) (id p) (isToPOC p) (isToPOU p).
Definition set_qpkt (q : Packet) (p : CohPacket) : CohPacket := set_xp (set_pkt q (xp p)) p.
Definition set_header (d : Z) (p : CohPacket) : CohPacket := set_xp (set_headerDelay d (xp p)) p.
Definition set_snoopDelay (d : Z) (p : CohPacket) : CohPacket := mkCPkt (xp p) d (id p) (isToPOC p) (isToPOU p).

Record CohParams := mkCParams {
  xparams : XBarParams;
  headerLatency : Z;
  snoopResponseLatency : Z;
  maxOutstandingSnoopCheck : Z;
  maxRoutingTableSizeCheck : Z;
  pointOfCoherency : bool;
  pointOfUnification : bool;
  lookupLatency : Z;
  bypassCaches : bool;
  cpuSidePorts : list Port
}.

Record CoherentXBar := mkCoh {
  base : BaseXBar;
  snoopLayers : list (Layer Z);
  outstandingSnoop : gset positive;
  outstandingCMO : gmap Z (option CohPacket);
  snoopFilter : option SnoopFilter.SnoopFilter
}.

Definition set_base (b : BaseXBar) (x : CoherentXBar) : CoherentXBar :=
  mkCoh b (snoopLayers x) (outstandingSnoop x) (outstandingCMO x) (snoopFilter x).
Definition set_snoopLayer (i : Z) (l : Layer Z) (x : CoherentXBar) : CoherentXBar :=
  mkCoh (base x) (<[Z.to_nat i := l]> (snoopLayers x)) (outstandingSnoop x) (outstandingCMO x) (snoopFilter x).
Definition set_outstandingSnoop (s : gset positive) (x : CoherentXBar) : CoherentXBar :=
  mkCoh (base x) (snoopLayers x) s (outstandingCMO x) (snoopFilter x).
Definition set_outstandingCMO (c : gmap Z (option CohPacket)) (x : CoherentXBar) : CoherentXBar :=
  mkCoh (base x) (snoopLayers x) (outstandingSnoop x) c (snoopFilter x).
Definition set_filter (f : SnoopFilter.SnoopFilter) (x : CoherentXBar) : CoherentXBar :=
  mkCoh (base x) (snoopLayers x) (outstandingSnoop x) (outstandingCMO x) (Some f).
Definition routes (x : CoherentXBar) : gmap positive Z := routeTo (base x).
Definition set_routes (r : gmap positive Z) (x : CoherentXBar) : CoherentXBar := set_base (set_routeTo r (base x)) x.

(** The constructor and init: [n] memory-side ports, one more for the default if it is
    connected, and the CPU-side ports, whose numbering the filter is told. *)
Definition CoherentXBar_new (n : nat) (has_default : bool) (ports : list Port) (sf : option SnoopFilter.SnoopFilter)
    : result CoherentXBar :=
  let b := NoncoherentXBar_new n (length ports) has_default in
  let x := mkCoh b (replicate (length (reqLayers b)) Layer_new) ∅ ∅ None in
  match sf with
  | None => Ok x
  | Some sf => sf ← SnoopFilter.setCPUSidePorts sf ports; Ok (set_filter sf x)
  end.

Definition port_at (pr : CohParams) (i : Z) : result Port := at_port (cpuSidePorts pr) i.
Definition snoopPorts (pr : CohParams) : list Port := filter (λ p, isSnooping p = true) (cpuSidePorts pr).
Definition snoopRespPort (i : Z) : Z := -2 - i.

Definition isDestination (pr : CohParams) (p : CohPacket) : bool :=
  (isToPOC p && pointOfCoherency pr) || (isToPOU p && pointOfUnification pr).

Definition sinkPacket (pr : CohParams) (p : CohPacket) : result bool :=
  let k := qpkt p in
  if (pointOfCoherency pr && cacheResponding k)
     || (pointOfCoherency pr && negb (isRead (cmd k) || isWrite (cmd k)) && negb (needsResponse (cmd k)))
     || (isCleanEviction k && isBlockCached k) then Ok true
  else if cacheResponding k then w ← needsWritable k; Ok (negb w || responderHadWritable k)
  else Ok false.

Definition forwardPacket (pr : CohParams) (p : CohPacket) : bool :=
  let c := cmd (qpkt p) in
  if isClean c then negb (isDestination pr p) else isRead c || isWrite c || negb (pointOfCoherency pr).

(** ** Layers *)

Definition reqLayer (i : Z) (f : Layer Z → result (Layer Z)) (x : CoherentXBar) : result CoherentXBar :=
  l ← at_port (reqLayers (base x)) i; l ← f l; Ok (set_base (set_reqLayer i l (base x)) x).
Definition respLayer (i : Z) (f : Layer Z → result (Layer Z)) (x : CoherentXBar) : result CoherentXBar :=
  l ← at_port (respLayers (base x)) i; l ← f l; Ok (set_base (set_respLayer i l (base x)) x).
Definition snoopLayer (i : Z) (f : Layer Z → result (Layer Z)) (x : CoherentXBar) : result CoherentXBar :=
  l ← at_port (snoopLayers x) i; l ← f l; Ok (set_snoopLayer i l x).

Definition tryReqLayer (i src : Z) (x : CoherentXBar) : result (bool * CoherentXBar) :=
  l ← at_port (reqLayers (base x)) i; '(ok, l) ← tryTiming src l; Ok (ok, set_base (set_reqLayer i l (base x)) x).
Definition tryRespLayer (i src : Z) (x : CoherentXBar) : result (bool * CoherentXBar) :=
  l ← at_port (respLayers (base x)) i; '(ok, l) ← tryTiming src l; Ok (ok, set_base (set_respLayer i l (base x)) x).
Definition trySnoopLayer (i src : Z) (x : CoherentXBar) : result (bool * CoherentXBar) :=
  l ← at_port (snoopLayers x) i; '(ok, l) ← tryTiming src l; Ok (ok, set_snoopLayer i l x).

(** clockEdge(cycles), which updates the clock. *)
Definition edge_at (pr : CohParams) (now cycles : Z) (x : CoherentXBar) : Z * CoherentXBar :=
  let '(e, c) := clockEdge (clockPeriod (xparams pr)) now cycles (clk (base x)) in (e, set_base (set_clk c (base x)) x).

Definition packet_timing (pr : CohParams) (now delay : Z) (p : CohPacket) (x : CoherentXBar) : result (CohPacket * CoherentXBar) :=
  '(q, b) ← calcPacketTiming (xparams pr) now delay (xp p) (base x); Ok (set_xp q p, set_base b x).

(** An entry of the table of routes, which has a limit. *)
Definition add_route (pr : CohParams) (r : positive) (i : Z) (x : CoherentXBar) : result CoherentXBar :=
  _ ← assert_ok (bool_decide (routes x !! r = None));
  let t := <[r := i]> (routes x) in
  _ ← panic_if (maxRoutingTableSizeCheck pr <? Z.of_nat (map_size t));
  Ok (set_routes t x).

Section Neighbours.
Context {W : Type} (pr : CohParams).
Variable sendTimingReq : Z → CohPacket → W → bool * CohPacket * W.
Variable tryTimingReq : Z → CohPacket → W → bool * W.
Variable sendTimingSnoopReq : Z → CohPacket → W → CohPacket * W.
Variable sendTimingSnoopResp : Z → CohPacket → W → bool * CohPacket * W.
Variable schedTimingResp : Z → CohPacket → Z → W → W.

(** ** Snoops *)

Fixpoint snoop_ports (exclude_cpu_side_port_id : Z) (dests : list Port) (p : CohPacket) (w : W) : CohPacket * W :=
  match dests with
  | [] => (p, w)
  | d :: dests =>
      if (exclude_cpu_side_port_id =? InvalidPortID) || negb (getId d =? exclude_cpu_side_port_id) then
        let '(p, w) := sendTimingSnoopReq (getId d) p w in snoop_ports exclude_cpu_side_port_id dests p w
      else snoop_ports exclude_cpu_side_port_id dests p w
  end.

Definition forwardTiming (exclude_cpu_side_port_id : Z) (dests : list Port) (p : CohPacket) (w : W) : result (CohPacket * W) :=
  _ ← assert_ok (negb (bypassCaches pr)); Ok (snoop_ports exclude_cpu_side_port_id dests p w).

(** The part of recvTimingReq that snoops; false when the neighbour below has to be tried
    again first. *)
Definition snoop_request (p : CohPacket) (cpu_side_port_id mem_side_port_id : Z) (x : CoherentXBar) (w : W)
    : result (bool * CohPacket * CoherentXBar * W) :=
  _ ← assert_ok (snoopDelay p =? 0);
  let '(go, w) := if isClean (cmd (qpkt p)) && negb (isDestination pr p) then tryTimingReq mem_side_port_id p w else (true, w) in
  if negb go then Ok (false, p, x, w)
  else
    '(p, x, w) ←
      (match snoopFilter x with
       | Some sf =>
           src_port ← port_at pr cpu_side_port_id;
           '(dests, sf) ← SnoopFilter.lookupRequest sf (qpkt p) src_port;
           let x := set_filter sf x in
           let p := set_header (u32 (headerDelay (xp p) + u64 (lookupLatency pr * clockPeriod (xparams pr)))) p in
           if isEviction (cmd (qpkt p)) then
             Ok (if bool_decide (dests = []) then p else set_qpkt (setBlockCached (qpkt p)) p, x, w)
           else '(p, w) ← forwardTiming cpu_side_port_id dests p w; Ok (p, x, w)
       | None => '(p, w) ← forwardTiming cpu_side_port_id (snoopPorts pr) p w; Ok (p, x, w)
       end);
    Ok (true, set_snoopDelay 0 (set_header (u32 (headerDelay (xp p) + snoopDelay p)) p), x, w).

(** ** Requests *)

(** What is expected of the neighbours, and what was done already. *)
Definition with_filter (f : SnoopFilter.SnoopFilter → result SnoopFilter.SnoopFilter) (x : CoherentXBar) : result CoherentXBar :=
  match snoopFilter x with Some sf => sf ← f sf; Ok (set_filter sf x) | None => Ok x end.

(** The packet is sunk, sent on, or answered here: whether it got through, whether it is
    answered here, and the packet afterwards. *)
Definition pass_request (is_destination expect_snoop_resp : bool) (mem_side_port_id : Z) (p : CohPacket) (w : W)
    : result (bool * bool * CohPacket * W) :=
  sink_packet ← sinkPacket pr p;
  if sink_packet : bool then Ok (true, false, p, w)
  else if forwardPacket pr p then
    let p := if cacheResponding (qpkt p) then set_qpkt (setExpressSnoop (qpkt p)) p else p in
    let p := if isWrite (cmd (qpkt p)) && is_destination then set_qpkt (clearWriteThrough (qpkt p)) p else p in
    let '(success, p, w) := sendTimingReq mem_side_port_id p w in
    Ok (success, false, p, w)
  else
    _ ← assert_ok (needsResponse (cmd (qpkt p)));
    _ ← assert_ok (negb expect_snoop_resp);
    Ok (true, true, p, w).

(** The tables after a request that got through and is not an express snoop. *)
Definition record_request (expect_snoop_resp expect_response : bool) (p : CohPacket) (cpu_side_port_id : Z) (x : CoherentXBar)
    : result CoherentXBar :=
  x ← (if expect_snoop_resp then
         _ ← assert_ok (bool_decide (qreq p ∉ outstandingSnoop x));
         let s := {[qreq p]} ∪ outstandingSnoop x in
         _ ← panic_if (maxOutstandingSnoopCheck pr <? Z.of_nat (base.size s));
         Ok (set_outstandingSnoop s x)
       else Ok x);
  if expect_response || expect_snoop_resp then add_route pr (qreq p) cpu_side_port_id x else Ok x.

(** A clean request and the write that belongs to it, which have the same id, meet here:
    whether there is a response now, its packet when it is not this one, and its port. *)
Definition match_clean (is_destination respond_directly : bool) (p : CohPacket) (cpu_side_port_id : Z) (x : CoherentXBar)
    : result (bool * option CohPacket * Z * CoherentXBar) :=
  let c := cmd (qpkt p) in
  if ((isClean c && satisfied (qpkt p)) || bool_decide (c = WriteClean)) && is_destination then
    match outstandingCMO x !! id p with
    | Some deferred =>
        '(rsp_pkt, rsp_port_id, x) ←
          (if isWrite c then
             match deferred with
             | None => Err AssertFailed
             | Some rsp_pkt =>
                 match routes x !! qreq rsp_pkt with
                 | None => Err AssertFailed
                 | Some rsp_port_id =>
                     _ ← assert_ok (negb (rsp_port_id =? InvalidPortID));
                     _ ← assert_ok (rsp_port_id <? Z.of_nat (length (respLayers (base x))));
                     Ok (Some rsp_pkt, rsp_port_id, set_routes (base.delete (qreq rsp_pkt) (routes x)) x)
                 end
             end
           else Ok (None, cpu_side_port_id, x));
        Ok (true, rsp_pkt, rsp_port_id, set_outstandingCMO (base.delete (id p) (outstandingCMO x)) x)
    | None =>
        let x := set_outstandingCMO (<[id p := if isWrite c then None else Some p]> (outstandingCMO x)) x in
        x ← (if negb (isWrite c) then add_route pr (qreq p) cpu_side_port_id x else Ok x);
        Ok (false, None, cpu_side_port_id, x)
    end
  else Ok (respond_directly, None, cpu_side_port_id, x).

(** The response of the crossbar itself, [delay] after the next edge; the last part is the
    packet of the response. *)
Definition respond (now delay : Z) (rsp_pkt : CohPacket) (rsp_port_id : Z) (x : CoherentXBar) (w : W)
    : result (CohPacket * CoherentXBar * W) :=
  _ ← assert_ok (needsResponse (cmd (qpkt rsp_pkt)));
  k ← makeResponse (qpkt rsp_pkt);
  let rsp_pkt := set_qpkt k rsp_pkt in
  x ← (if negb (bypassCaches pr)
       then with_filter (λ sf, rsp_port ← port_at pr rsp_port_id; SnoopFilter.updateResponse sf (qpkt rsp_pkt) rsp_port) x
       else Ok x);
  let '(edge, x) := edge_at pr now 0 x in
  let rsp_pkt := set_header 0 rsp_pkt in
  Ok (rsp_pkt, x, schedTimingResp rsp_port_id rsp_pkt (u64 (edge + delay)) w).

(** From the snoops on. *)
Definition finish_timing (now old_header_delay packetFinishTime : Z) (is_express_snoop cache_responding is_destination snoop_caches : bool)
    (p : CohPacket) (cpu_side_port_id mem_side_port_id : Z) (x : CoherentXBar) (w : W)
    : result (bool * CohPacket * CoherentXBar * W) :=
  let expect_snoop_resp := negb cache_responding && cacheResponding (qpkt p) in
  let expect_response := needsResponse (cmd (qpkt p)) && negb (cacheResponding (qpkt p)) in
  addr ← getAddr (qpkt p);
  '(success, respond_directly, p, w) ← pass_request is_destination expect_snoop_resp mem_side_port_id p w;
  let expect_response := expect_response && negb respond_directly in
  x ← (if snoop_caches then
         with_filter (λ sf, s ← isSecure (qpkt p); SnoopFilter.finishRequest sf (negb success) addr s) x
       else Ok x);
  if negb success then
    _ ← assert_ok (negb is_express_snoop);
    let p := set_header old_header_delay p in
    let '(edge, x) := edge_at pr now 1 x in
    x ← reqLayer mem_side_port_id (failedTiming now cpu_side_port_id edge) x;
    Ok (false, p, x, w)
  else
    x ← (if negb is_express_snoop then
           x ← record_request expect_snoop_resp expect_response p cpu_side_port_id x;
           reqLayer mem_side_port_id (succeededTiming now packetFinishTime) x
         else Ok x);
    '(respond_directly, deferred, rsp_port_id, x) ← match_clean is_destination respond_directly p cpu_side_port_id x;
    if respond_directly : bool then
      '(rsp_pkt, x, w) ← respond now (headerDelay (xp p)) (default p deferred) rsp_port_id x w;
      Ok (true, if deferred is Some _ then p else rsp_pkt, x, w)
    else Ok (true, p, x, w).

Definition recvTimingReq (now : Z) (p : CohPacket) (cpu_side_port_id : Z) (x : CoherentXBar) (w : W)
    : result (bool * CohPacket * CoherentXBar * W) :=
  _ ← port_at pr cpu_side_port_id;
  let is_express_snoop := isExpressSnoop (qpkt p) in
  let cache_responding := cacheResponding (qpkt p) in
  _ ← assert_ok (eqb is_express_snoop cache_responding);
  '(mem_side_port_id, b) ← findPort_pkt (xparams pr) (xp p) (base x);
  let x := set_base b x in
  '(ok, x) ← (if is_express_snoop then Ok (true, x) else tryReqLayer mem_side_port_id cpu_side_port_id x);
  if negb ok then Ok (false, p, x, w)
  else
    let old_header_delay := headerDelay (xp p) in
    let xbar_delay := u64 (u64 (frontendLatency (xparams pr) + forwardLatency (xparams pr)) * clockPeriod (xparams pr)) in
    '(p, x) ← packet_timing pr now xbar_delay p x;
    let '(edge, x) := edge_at pr now (headerLatency pr) x in
    let packetFinishTime := u64 (edge + payloadDelay (xp p)) in
    let is_destination := isDestination pr p in
    let snoop_caches := negb (bypassCaches pr) && negb (bool_decide (cmd (qpkt p) = WriteClean)) in
    '(go, p, x, w) ← (if snoop_caches then snoop_request p cpu_side_port_id mem_side_port_id x w else Ok (true, p, x, w));
    if negb go then
      let '(edge, x) := edge_at pr now 1 x in
      x ← reqLayer mem_side_port_id (failedTiming now cpu_side_port_id edge) x;
      Ok (false, p, x, w)
    else finish_timing now old_header_delay packetFinishTime is_express_snoop cache_responding is_destination snoop_caches
           p cpu_side_port_id mem_side_port_id x w.

(** ** Responses *)

Definition recvTimingResp (now : Z) (p : CohPacket) (mem_side_port_id : Z) (x : CoherentXBar) (w : W)
    : result (bool * CohPacket * CoherentXBar * W) :=
  match routes x !! qreq p with
  | None => Err AssertFailed
  | Some cpu_side_port_id =>
      _ ← assert_ok (negb (cpu_side_port_id =? InvalidPortID));
      _ ← assert_ok (cpu_side_port_id <? Z.of_nat (length (respLayers (base x))));
      '(ok, x) ← tryRespLayer cpu_side_port_id mem_side_port_id x;
      if negb ok then Ok (false, p, x, w)
      else
        '(p, x) ← packet_timing pr now (u64 (responseLatency (xparams pr) * clockPeriod (xparams pr))) p x;
        let '(edge, x) := edge_at pr now (headerLatency pr) x in
        let packetFinishTime := u64 (edge + payloadDelay (xp p)) in
        x ← (if negb (bypassCaches pr)
             then with_filter (λ sf, rsp_port ← port_at pr cpu_side_port_id; SnoopFilter.updateResponse sf (qpkt p) rsp_port) x
             else Ok x);
        let latency := headerDelay (xp p) in
        let p := set_header 0 p in
        let w := schedTimingResp cpu_side_port_id p (u64 (now + latency)) w in
        let x := set_routes (base.delete (qreq p) (routes x)) x in
        x ← respLayer cpu_side_port_id (succeededTiming now packetFinishTime) x;
        Ok (true, p, x, w)
  end.

Definition recvTimingSnoopReq (now : Z) (p : CohPacket) (mem_side_port_id : Z) (x : CoherentXBar) (w : W)
    : result (CohPacket * CoherentXBar * W) :=
  _ ← assert_ok (isExpressSnoop (qpkt p));
  '(p, x) ← packet_timing pr now (u64 (forwardLatency (xparams pr) * clockPeriod (xparams pr))) p x;
  let cache_responding := cacheResponding (qpkt p) in
  _ ← assert_ok (snoopDelay p =? 0);
  '(p, x, w) ←
    (match snoopFilter x with
     | Some sf =>
         '(dests, sf) ← SnoopFilter.lookupSnoop sf (qpkt p);
         let p := set_header (u32 (headerDelay (xp p) + u64 (lookupLatency pr * clockPeriod (xparams pr)))) p in
         '(p, w) ← forwardTiming InvalidPortID dests p w; Ok (p, set_filter sf x, w)
     | None => '(p, w) ← forwardTiming InvalidPortID (snoopPorts pr) p w; Ok (p, x, w)
     end);
  let p := set_snoopDelay 0 (set_header (u32 (headerDelay (xp p) + snoopDelay p)) p) in
  x ← (if negb cache_responding && cacheResponding (qpkt p) then
         _ ← assert_ok (bool_decide (routes x !! qreq p = None));
         Ok (set_routes (<[qreq p := mem_side_port_id]> (routes x)) x)
       else Ok x);
  '(i, b) ← findPort_pkt (xparams pr) (xp p) (base x);
  _ ← assert_ok (i =? mem_side_port_id);
  Ok (p, set_base b x, w).

Definition recvTimingSnoopResp (now : Z) (p : CohPacket) (cpu_side_port_id : Z) (x : CoherentXBar) (w : W)
    : result (bool * CohPacket * CoherentXBar * W) :=
  src_port ← port_at pr cpu_side_port_id;
  match routes x !! qreq p with
  | None => Err AssertFailed
  | Some dest_port_id =>
      _ ← assert_ok (negb (dest_port_id =? InvalidPortID));
      let forwardAsSnoop := bool_decide (qreq p ∉ outstandingSnoop x) in
      '(ok, x) ←
        (if forwardAsSnoop then
           _ ← assert_ok (dest_port_id <? Z.of_nat (length (snoopLayers x)));
           trySnoopLayer dest_port_id cpu_side_port_id x
         else
           _ ← assert_ok (dest_port_id <? Z.of_nat (length (respLayers (base x))));
           tryRespLayer dest_port_id (snoopRespPort cpu_side_port_id) x);
      if negb ok then Ok (false, p, x, w)
      else
        _ ← assert_ok (negb (isExpressSnoop (qpkt p)));
        let latency := if forwardAsSnoop then snoopResponseLatency pr else responseLatency (xparams pr) in
        '(p, x) ← packet_timing pr now (u64 (latency * clockPeriod (xparams pr))) p x;
        let '(edge, x) := edge_at pr now (headerLatency pr) x in
        let packetFinishTime := u64 (edge + payloadDelay (xp p)) in
        if forwardAsSnoop then
          x ← with_filter (λ sf, SnoopFilter.updateSnoopForward sf (qpkt p) src_port (SnoopFilter.mkPort dest_port_id true)) x;
          let '(success, p', w) := sendTimingSnoopResp dest_port_id p w in
          _ ← assert_ok success;
          x ← snoopLayer dest_port_id (succeededTiming now packetFinishTime) x;
          Ok (true, p', set_routes (base.delete (qreq p) (routes x)) x, w)
        else
          let x := set_outstandingSnoop (outstandingSnoop x ∖ {[qreq p]}) x in
          _ ← assert_ok (negb (cpu_side_port_id =? dest_port_id));
          x ← with_filter (λ sf, dest_port ← port_at pr dest_port_id;
                                 SnoopFilter.updateSnoopResponse sf (qpkt p) src_port dest_port) x;
          let latency := headerDelay (xp p) in
          let p := set_header 0 p in
          let w := schedTimingResp dest_port_id p (u64 (now + latency)) w in
          x ← respLayer dest_port_id (succeededTiming now packetFinishTime) x;
          Ok (true, p, set_routes (base.delete (qreq p) (routes x)) x, w)
  end.

(** ** Retries and releases *)

(** [sendRetry] is what the retried port does with the layer. *)
Definition recvReqRetry (now : Z) (sendRetry : Z → Layer Z → result (Layer Z)) (mem_side_port_id : Z) (x : CoherentXBar)
    : result CoherentXBar :=
  let '(edge, x) := edge_at pr now 0 x in reqLayer mem_side_port_id (recvRetry now edge sendRetry) x.

Definition releaseReqLayer (now : Z) (sendRetry : Z → Layer Z → result (Layer Z)) (i : Z) (x : CoherentXBar) : result CoherentXBar :=
  let '(edge, x) := edge_at pr now 0 x in reqLayer i (service_release now edge sendRetry) x.
Definition releaseRespLayer (now : Z) (sendRetry : Z → Layer Z → result (Layer Z)) (i : Z) (x : CoherentXBar) : result CoherentXBar :=
  let '(edge, x) := edge_at pr now 0 x in respLayer i (service_release now edge sendRetry) x.
Definition releaseSnoopLayer (now : Z) (sendRetry : Z → Layer Z → result (Layer Z)) (i : Z) (x : CoherentXBar) : result CoherentXBar :=
  let '(edge, x) := edge_at pr now 0 x in snoopLayer i (service_release now edge sendRetry) x.

(** ** Atomic accesses *)

Variable sendAtomic : Z → CohPacket → W → Z * CohPacket * W.
Variable sendAtomicSnoop : Z → CohPacket → W → Z * CohPacket * W.

Definition set_cmd (c : Command) (p : CohPacket) : CohPacket := set_qpkt (with_cmd (qpkt p) c) p.

(** The command and latency of the response that was found, if any. *)
Fixpoint atomic_snoops (orig_cmd : Command) (exclude_cpu_side_port_id source_mem_side_port_id : Z) (dests : list Port)
    (snoop_response_cmd : Command) (snoop_response_latency : Z) (p : CohPacket) (x : CoherentXBar) (w : W)
    : result (Command * Z * CohPacket * CoherentXBar * W) :=
  match dests with
  | [] => Ok (snoop_response_cmd, snoop_response_latency, p, x, w)
  | d :: dests =>
      if negb (exclude_cpu_side_port_id =? InvalidPortID) && (getId d =? exclude_cpu_side_port_id) then
        atomic_snoops orig_cmd exclude_cpu_side_port_id source_mem_side_port_id dests
          snoop_response_cmd snoop_response_latency p x w
      else
        let '(latency, p, w) := sendAtomicSnoop (getId d) p w in
        if negb (isResponse (cmd (qpkt p))) then
          atomic_snoops orig_cmd exclude_cpu_side_port_id source_mem_side_port_id dests
            snoop_response_cmd snoop_response_latency p x w
        else
          _ ← assert_ok (negb (bool_decide (cmd (qpkt p) = orig_cmd)));
          _ ← assert_ok (cacheResponding (qpkt p));
          _ ← assert_ok (bool_decide (snoop_response_cmd = InvalidCmd));
          x ← with_filter (λ sf,
                if negb (source_mem_side_port_id =? InvalidPortID) then
                  _ ← assert_ok (exclude_cpu_side_port_id =? InvalidPortID);
                  SnoopFilter.updateSnoopForward sf (qpkt p) d (SnoopFilter.mkPort source_mem_side_port_id true)
                else
                  req_port ← port_at pr exclude_cpu_side_port_id;
                  SnoopFilter.updateSnoopResponse sf (qpkt p) d req_port) x;
          atomic_snoops orig_cmd exclude_cpu_side_port_id source_mem_side_port_id dests
            (cmd (qpkt p)) latency (set_cmd orig_cmd p) x w
  end.

Definition forwardAtomic (exclude_cpu_side_port_id source_mem_side_port_id : Z) (dests : list Port)
    (p : CohPacket) (x : CoherentXBar) (w : W) : result (Command * Z * CohPacket * CoherentXBar * W) :=
  _ ← assert_ok (negb (bypassCaches pr));
  atomic_snoops (cmd (qpkt p)) exclude_cpu_side_port_id source_mem_side_port_id dests InvalidCmd 0 p x w.

(** The snoops of an atomic request, with the latency of the filter. *)
Definition snoop_atomic (p : CohPacket) (cpu_side_port_id : Z) (x : CoherentXBar) (w : W)
    : result (Command * Z * CohPacket * CoherentXBar * W) :=
  match snoopFilter x with
  | Some sf =>
      src_port ← port_at pr cpu_side_port_id;
      '(dests, sf) ← SnoopFilter.lookupRequest sf (qpkt p) src_port;
      let lookup := u64 (lookupLatency pr * clockPeriod (xparams pr)) in
      a ← getAddr (qpkt p);
      s ← isSecure (qpkt p);
      sf ← SnoopFilter.finishRequest sf false a s;
      let x := set_filter sf x in
      if isEviction (cmd (qpkt p)) then
        Ok (InvalidCmd, lookup, if bool_decide (dests = []) then p else set_qpkt (setBlockCached (qpkt p)) p, x, w)
      else
        '(c, l, p, x, w) ← forwardAtomic cpu_side_port_id InvalidPortID dests p x w;
        Ok (c, u64 (lookup + l), p, x, w)
  | None => forwardAtomic cpu_side_port_id InvalidPortID (snoopPorts pr) p x w
  end.

(** What an atomic write clean leaves for the clean request that follows it. *)
Definition match_clean_atomic (p : CohPacket) (x : CoherentXBar) : result CoherentXBar :=
  let c := cmd (qpkt p) in
  if isClean c && isDestination pr p && satisfied (qpkt p) then
    _ ← assert_ok (negb (bool_decide (outstandingCMO x !! id p = None)));
    Ok (set_outstandingCMO (base.delete (id p) (outstandingCMO x)) x)
  else if bool_decide (c = WriteClean) && isDestination pr p then
    _ ← assert_ok (bool_decide (outstandingCMO x !! id p = None));
    Ok (set_outstandingCMO (<[id p := None]> (outstandingCMO x)) x)
  else Ok x.

Definition recvAtomicBackdoor (p : CohPacket) (cpu_side_port_id : Z) (x : CoherentXBar) (w : W)
    : result (Z * CohPacket * CoherentXBar * W) :=
  let is_destination := isDestination pr p in
  let snoop_caches := negb (bypassCaches pr) && negb (bool_decide (cmd (qpkt p) = WriteClean)) in
  '(snoop_response_cmd, snoop_response_latency, p, x, w) ←
    (if snoop_caches then snoop_atomic p cpu_side_port_id x w else Ok (InvalidCmd, 0, p, x, w));
  sink_packet ← sinkPacket pr p;
  '(mem_side_port_id, b) ← findPort_pkt (xparams pr) (xp p) (base x);
  let x := set_base b x in
  '(response_latency, p, w) ←
    (if sink_packet : bool then Ok (0, p, w)
     else if forwardPacket pr p then
       let p := if isWrite (cmd (qpkt p)) && is_destination then set_qpkt (clearWriteThrough (qpkt p)) p else p in
       _ ← at_port (reqLayers (base x)) mem_side_port_id;
       Ok (sendAtomic mem_side_port_id p w)
     else
       _ ← assert_ok (needsResponse (cmd (qpkt p)));
       k ← makeResponse (qpkt p);
       Ok (0, set_qpkt k p, w));
  x ← (if negb (bypassCaches pr) && isResponse (cmd (qpkt p))
       then with_filter (λ sf, port ← port_at pr cpu_side_port_id; SnoopFilter.updateResponse sf (qpkt p) port) x
       else Ok x);
  '(response_latency, p) ←
    (if negb (bool_decide (snoop_response_cmd = InvalidCmd)) then
       _ ← assert_ok (negb (isResponse (cmd (qpkt p))));
       Ok (snoop_response_latency, set_cmd snoop_response_cmd p)
     else Ok (response_latency, p));
  x ← match_clean_atomic p x;
  Ok (response_latency, set_xp (set_payloadDelay (u32 response_latency) (xp p)) p, x, w).

Definition recvAtomicSnoop (p : CohPacket) (mem_side_port_id : Z) (x : CoherentXBar) (w : W)
    : result (Z * CohPacket * CoherentXBar * W) :=
  '(snoop_response_cmd, snoop_response_latency, p, x, w) ←
    (match snoopFilter x with
     | Some sf =>
         '(dests, sf) ← SnoopFilter.lookupSnoop sf (qpkt p);
         '(c, l, p, x, w) ← forwardAtomic InvalidPortID mem_side_port_id dests p (set_filter sf x) w;
         Ok (c, u64 (u64 (lookupLatency pr * clockPeriod (xparams pr)) + l), p, x, w)
     | None => forwardAtomic InvalidPortID InvalidPortID (snoopPorts pr) p x w
     end);
  let p := if negb (bool_decide (snoop_response_cmd = InvalidCmd)) then set_cmd snoop_response_cmd p else p in
  Ok (snoop_response_latency, set_xp (set_payloadDelay (u32 snoop_response_latency) (xp p)) p, x, w).

(** ** Functional accesses *)

Variable sendMemBackdoorReq : Z → AddrRange.AddrRange → W → W.

Definition recvMemBackdoorReq (range : AddrRange.AddrRange) (x : CoherentXBar) (w : W) : result (CoherentXBar * W) :=
  '(dest_id, b) ← findPort (xparams pr) range (base x);
  _ ← at_port (reqLayers b) dest_id;
  Ok (set_base b x, sendMemBackdoorReq dest_id range w).

(** The packets queued at a CPU-side port may satisfy a functional request. *)
Variable trySatisfyQueued : Z → Packet → W → bool * Packet.
Variable sendFunctional : Z → Packet → W → Packet * W.
Variable sendFunctionalSnoop : Z → Packet → W → Packet * W.

Fixpoint functional_snoops (exclude_cpu_side_port_id : Z) (dests : list Port) (k : Packet) (w : W) : Packet * W :=
  match dests with
  | [] => (k, w)
  | d :: dests =>
      let '(k, w) := if (exclude_cpu_side_port_id =? InvalidPortID) || negb (getId d =? exclude_cpu_side_port_id)
                     then sendFunctionalSnoop (getId d) k w else (k, w) in
      if isResponse (cmd k) then (k, w) else functional_snoops exclude_cpu_side_port_id dests k w
  end.

Definition forwardFunctional (exclude_cpu_side_port_id : Z) (k : Packet) (w : W) : result (Packet * W) :=
  _ ← assert_ok (negb (bypassCaches pr)); Ok (functional_snoops exclude_cpu_side_port_id (snoopPorts pr) k w).

Definition recvFunctional (p : CohPacket) (cpu_side_port_id : Z) (x : CoherentXBar) (w : W)
    : result (CohPacket * CoherentXBar * W) :=
  '(k, w) ← (if negb (bypassCaches pr) then forwardFunctional cpu_side_port_id (qpkt p) w else Ok (qpkt p, w));
  if isResponse (cmd k) then Ok (set_qpkt k p, x, w)
  else
    let '(found, k) := satisfied_by trySatisfyQueued (getId <$> cpuSidePorts pr) k w in
    if found then
      k ← (if needsResponse (cmd k) then makeResponse k else Ok k);
      Ok (set_qpkt k p, x, w)
    else
      '(dest_id, b) ← findPort_pkt (xparams pr) (set_pkt k (xp p)) (base x);
      _ ← at_port (reqLayers b) dest_id;
      let '(k, w) := sendFunctional dest_id k w in
      Ok (set_qpkt k p, set_base b x, w).

Definition recvFunctionalSnoop (p : CohPacket) (x : CoherentXBar) (w : W) : result (CohPacket * W) :=
  let '(found, k) := satisfied_by trySatisfyQueued (getId <$> cpuSidePorts pr) (qpkt p) w in
  if found then
    k ← (if needsResponse (cmd k) then makeResponse k else Ok k);
    Ok (set_qpkt k p, w)
  else
    '(k, w) ← forwardFunctional InvalidPortID k w;
    Ok (set_qpkt k p, w).

End Neighbours.
End CoherentXBar.
