(* ===== verification/CoherentFilter.v ===== *)
(** * mem/coherent_xbar with mem/snoop_filter: what the filter has as requested

    What the operations of the snoop filter do to the bits of the requests: the filter
    [tracks] a set of pairs of a port and a line when these are the bits that are set. *)

From Stdlib Require Import ZArith Lia.
From stdpp Require Import base numbers option list gmap.
From S2P Require Import Prelude Bitfield Flags Packet SnoopFilter SnoopFilterProps.

Module CoherentFilter.
Import Packet SnoopFilter SnoopFilterProps.

(** The line of a packet. *)
Definition line_of (ls : Z) (k : Packet) : Z :=
  let a := addr k .& unot 64 (u64 (ls - 1)) in if _isSecure k then a .| LineSecure else a.

(** Whether the filter remembers that the port asked for the packet's line. *)
Definition remembered (port : Port) (k : Packet) : bool :=
  negb (isUncacheable (req k)) && isSnooping port && fromCache (cmd k) && needsResponse (cmd k) && negb (cacheResponding k).

Definition requested_bit (l : gmap Z SnoopItem) (line i : Z) : Prop :=
  ∃ item, l !! line = Some item ∧ Z.testbit (requested item) i = true.

Record tracks (sf : SnoopFilter) (K : list (Z * Z)) : Prop := {
  tr_config : config_ok sf;
  tr_ids : ∀ p q, p ∈ cpuSidePorts sf → q ∈ cpuSidePorts sf → getId p = getId q → p = q;
  tr_null : no_null sf;
  tr_once : NoDup K;
  tr_bits : ∀ p i line, p ∈ cpuSidePorts sf → has_id sf p i → requested_bit (cachedLocations sf) line i ↔ (getId p, line) ∈ K
}.

Lemma tracks_perm sf K K' : K ≡ₚ K' → tracks sf K → tracks sf K'.
Proof.
  intros HK [H1 H2 H3 H4 H5]. constructor; [done|done|done|by rewrite <-HK|]. intros p i line Hp Hi. rewrite <-HK. by apply H5.
Qed.

(** Lines whose bits of requests do not change. *)
Lemma tracks_keep sf sf' K : tracks sf K → same_config sf sf' → no_null sf' →
  (∀ line i, requested_bit (cachedLocations sf') line i ↔ requested_bit (cachedLocations sf) line i) → tracks sf' K.
Proof.
  intros [H1 H2 H3 H4 H5] Hc Hn Hb. pose proof Hc as (Hp & Hl & Hls). constructor; [by eapply same_config_ok|by rewrite Hp|done|done|].
  intros p i line Hpp Hi. rewrite Hb. rewrite Hp in Hpp. apply H5; [done|]. unfold has_id in *. by rewrite Hl in Hi.
Qed.

Lemma same_config_trans sf sf1 sf2 : same_config sf sf1 → same_config sf1 sf2 → same_config sf sf2.
Proof. unfold same_config. intros (-> & -> & ->) (-> & -> & ->). done. Qed.

Lemma line_addr_of sf k line : config_ok sf → line_addr sf k = Ok line → line = line_of (linesize sf) k.
Proof. intros Hc H. by rewrite (line_addr_finish sf k line Hc H). Qed.

Lemma bit_insert l line item line' i : requested_bit (<[line := item]> l) line' i ↔
  (line' = line ∧ Z.testbit (requested item) i = true) ∨ (line' ≠ line ∧ requested_bit l line' i).
Proof.
  unfold requested_bit. destruct (decide (line' = line)) as [->|Hne].
  - rewrite lookup_insert_eq. naive_solver.
  - rewrite lookup_insert_ne by done. naive_solver.
Qed.

Lemma bit_default l line i : Z.testbit (requested (default (mkItem 0 0) (l !! line))) i = true ↔ requested_bit l line i.
Proof.
  unfold requested_bit. destruct (l !! line) as [it|]; simpl; [naive_solver|]. rewrite Z.testbit_0_l. naive_solver.
Qed.

(** An entry that is erased has no bits. *)
Lemma erase_bits sf k sf' line i : eraseIfNullEntry sf k = Ok sf' →
  requested_bit (cachedLocations sf') line i ↔ requested_bit (cachedLocations sf) line i.
Proof.
  intros (item & Hk & _ & Hl)%erase_result. rewrite Hl. destruct (is_null item) eqn:Hn; [|done].
  unfold is_null in Hn. apply Z.eqb_eq, Z.lor_eq_0_iff in Hn as [Hr _]. unfold requested_bit.
  destruct (decide (line = k)) as [->|Hne].
  - rewrite lookup_delete_eq, Hk. split; [by intros (? & ? & _)|]. intros (it & [= <-] & Hb). by rewrite Hr, Z.testbit_0_l in Hb.
  - by rewrite lookup_delete_ne.
Qed.

(** ** Requests *)

(** What a lookup leaves for [finishRequest]. *)
Definition looked (sf : SnoopFilter) (port : Port) (k : Packet) (sf1 : SnoopFilter) : Prop :=
  same_config sf sf1 ∧ ∃ line, line_addr sf k = Ok line ∧
  ((it sf1 = None ∧ cachedLocations sf1 = cachedLocations sf ∧ remembered port k = false) ∨
   (∃ item, it sf1 = Some line ∧ retryItem sf1 = default (mkItem 0 0) (cachedLocations sf !! line) ∧
      cachedLocations sf1 = <[line := item]> (cachedLocations sf) ∧
      ∃ m, portToMask sf port = Ok m ∧
      if remembered port k then requested (default (mkItem 0 0) (cachedLocations sf !! line)) .& m = 0 ∧
        requested item = requested (default (mkItem 0 0) (cachedLocations sf !! line)) .| m
      else requested item = requested (default (mkItem 0 0) (cachedLocations sf !! line)))).

Lemma lookupRequest_looked sf k port l sf1 : lookupRequest sf k port = Ok (l, sf1) → looked sf port k sf1.
Proof.
  unfold lookupRequest. cbv zeta. intros H. apply bind_Ok in H as (line & Hline & H). apply bind_Ok in H as (m & Hm & H).
  set (old := default (mkItem 0 0) (cachedLocations sf !! line)) in *.
  destruct (negb (bool_decide (is_Some (cachedLocations sf !! line))) && _) eqn:Hmiss.
  { injection H as <- <-. split; [done|]. exists line. split; [done|]. left. split; [done|]. split; [done|].
    apply andb_true_iff in Hmiss as [_ Ha]. apply negb_true_iff in Ha. unfold remembered. by rewrite Ha. }
  destruct (negb (negb (isUncacheable (req k)) && isSnooping port && fromCache (cmd k))) eqn:Ha.
  { apply bind_Ok in H as (l0 & _ & H). injection H as <- <-. split; [done|]. exists line. split; [done|]. right. exists old.
    split; [done|]. split; [done|]. split; [done|]. exists m. split; [done|]. apply negb_true_iff in Ha. unfold remembered. by rewrite Ha. }
  apply bind_Ok in H as (item & Hit & H). apply bind_Ok in H as (l0 & _ & H). injection H as <- <-. split; [done|].
  exists line. split; [done|]. right. exists item. split; [done|]. split; [done|]. split; [simpl; by rewrite insert_insert_eq|].
  exists m. split; [done|]. apply negb_false_iff in Ha. unfold remembered. rewrite Ha. simpl. unfold request_item in Hit.
  destruct (needsResponse (cmd k)); simpl.
  - destruct (negb (cacheResponding k)) eqn:Hc; simpl.
    + apply bind_Ok in Hit as ([] & Hp & Hit). injection Hit as <-. split; [|done]. unfold panic_if in Hp.
      destruct (Z.eqb_spec (requested old .& m) 0); [done|discriminate Hp].
    + apply bind_Ok in Hit as ([] & _ & Hit). by injection Hit as <-.
  - apply bind_Ok in Hit as ([] & _ & Hit). apply bind_Ok in Hit as ([] & _ & Hit). injection Hit as <-. by destruct (negb (isBlockCached k)).
Qed.

(** Finishing a request that goes on keeps the bits of the lookup; a retry those before it. *)
Lemma finishRequest_looked sf port k sf1 retry a s sf2 : looked sf port k sf1 → no_null sf →
  finishRequest sf1 retry a s = Ok sf2 → same_config sf sf2 ∧ no_null sf2 ∧
  ∀ line i, requested_bit (cachedLocations sf2) line i ↔ requested_bit (cachedLocations (if retry then sf else sf1)) line i.
Proof.
  intros (Hc & line & Hline & Hit) Hnn H. unfold finishRequest in H. destruct Hit as [(Hi & Hl & _)|(item & Hi & Hr & Hl & _)]; rewrite Hi in H.
  { injection H as <-. split; [done|]. split; [by unfold no_null; rewrite Hl|]. by destruct retry; rewrite Hl. }
  apply bind_Ok in H as ([] & _ & H). apply bind_Ok in H as (it0 & _ & H).
  assert (∀ sf3, (sf3 = sf1 ∨ ∃ it', sf3 = with_locations sf1 (<[line := it']> (cachedLocations sf1))) → eraseIfNullEntry sf3 line = Ok sf2 →
    same_config sf sf2 ∧ no_null sf2) as Hgen.
  { intros sf3 Hsf3 He. pose proof (erase_result _ _ _ He) as (_ & _ & Hc2 & _). split.
    - eapply same_config_trans; [|exact Hc2]. by destruct Hsf3 as [->|[it' ->]].
    - eapply (erase_no_null sf3 line); [|exact He]. intros k' i' Hne Hk. apply (Hnn k').
      destruct Hsf3 as [->|[it' ->]]; simpl in Hk; rewrite ?lookup_insert_ne, Hl in Hk by done; by rewrite lookup_insert_ne in Hk. }
  destruct retry.
  - destruct (Hgen (with_locations sf1 (<[line := retryItem sf1]> (cachedLocations sf1)))) as [Hc2 Hn2]; [right; by eexists|exact H|].
    split; [done|]. split; [done|]. intros line' i. rewrite (erase_bits _ _ _ _ _ H). simpl. rewrite Hl, insert_insert_eq, bit_insert, Hr, bit_default.
    destruct (decide (line' = line)) as [->|]; naive_solver.
  - destruct (Hgen sf1) as [Hc2 Hn2]; [by left|exact H|]. split; [done|]. split; [done|]. intros line' i. by rewrite (erase_bits _ _ _ _ _ H).
Qed.

Lemma finish_retry_tracks sf K port k sf1 a s sf2 : looked sf port k sf1 → tracks sf K →
  finishRequest sf1 true a s = Ok sf2 → tracks sf2 K.
Proof.
  intros Hlk Ht H. destruct (finishRequest_looked _ _ _ _ _ _ _ _ Hlk (tr_null _ _ Ht) H) as (Hc & Hn & Hb). by eapply tracks_keep.
Qed.

Lemma finish_tracks sf K port k sf1 a s sf2 : looked sf port k sf1 → tracks sf K →
  (isSnooping port = true → port ∈ cpuSidePorts sf) → finishRequest sf1 false a s = Ok sf2 →
  tracks sf2 (if remembered port k then (getId port, line_of (linesize sf) k) :: K else K).
Proof.
  intros Hlk Ht Hport H. destruct (finishRequest_looked _ _ _ _ _ _ _ _ Hlk (tr_null _ _ Ht) H) as (Hc & Hn & Hb).
  destruct Hlk as (Hc1 & line & Hline & Hlk). pose proof Ht as [H1 H2 H3 H4 H5]. apply line_addr_of in Hline; [|done]. subst line.
  set (line := line_of (linesize sf) k) in *. destruct (remembered port k) eqn:Hrem.
  - destruct Hlk as [(_ & _ & ?)|(item & _ & _ & Hl & m & Hm & Hz & Hreq)]; [done|].
    assert (isSnooping port = true) as Hsn. { unfold remembered in Hrem. by destruct (isUncacheable _), (isSnooping port). }
    destruct (proj1 H1 port (Hport Hsn)) as [j Hj]. rewrite (portToMask_id sf port j Hj) in Hm. injection Hm as <-.
    assert (0 <= j) as Hj0 by apply Hj. assert (¬ requested_bit (cachedLocations sf) line j) as Hnb.
    { rewrite <-bit_default. apply Z.eqb_eq in Hz. rewrite land_pow2_zero in Hz by done. apply negb_true_iff in Hz. by rewrite Hz. }
    pose proof Hc as (Hp & Hlid & _). constructor; [by eapply same_config_ok|by rewrite Hp|done| |].
    + constructor; [|done]. intros Hin. apply Hnb. by apply (H5 port j line (Hport Hsn) Hj).
    + intros p i line' Hpp Hi. rewrite Hp in Hpp. assert (has_id sf p i) as Hi' by (unfold has_id in *; by rewrite Hlid in Hi).
      rewrite Hb, Hl, bit_insert, Hreq, Z.lor_spec, testbit_pow2, orb_true_iff, Z.eqb_eq, bit_default, elem_of_cons, <-(H5 p i line') by done.
      assert (i = j ↔ p = port) as Hij.
      { split; [intros ->; by apply (proj1 (proj2 H1) p port j); [|apply Hport| |]|intros ->]. destruct Hi' as (_ & _ & Hi' & _), Hj as (_ & _ & Hj' & _). congruence. }
      split.
      * intros [[-> [Hr|Hij']]|[Hne Hr]]; [by right|left|by right]. apply Hij in Hij' as ->. done.
      * intros [Heq|Hr]; [|destruct (decide (line' = line)) as [->|]; [left; split; [done|by left]|by right]].
        injection Heq as Hid ->. left. split; [done|]. right. apply Hij, H2; [done|by apply Hport|done].
  - assert (∀ line' i, requested_bit (cachedLocations sf2) line' i ↔ requested_bit (cachedLocations sf) line' i) as Hb'; [|by eapply tracks_keep].
    intros line' i. rewrite Hb. destruct Hlk as [(_ & -> & _)|(item & _ & _ & -> & m & Hm & Hreq)]; [done|].
    rewrite bit_insert, Hreq, bit_default. destruct (decide (line' = line)) as [->|]; naive_solver.
Qed.

(** ** Responses *)

(** Clearing the bit of a port. *)
Lemma clear_tracks sf sf' K port j line : tracks sf ((getId port, line) :: K) → port ∈ cpuSidePorts sf → has_id sf port j →
  same_config sf sf' → no_null sf' →
  (∀ line' i, 0 <= i < 256 → requested_bit (cachedLocations sf') line' i ↔ requested_bit (cachedLocations sf) line' i ∧ ¬ (line' = line ∧ i = j)) →
  tracks sf' K.
Proof.
  intros [H1 H2 H3 H4 H5] Hport Hj Hc Hn Hb. pose proof Hc as (Hp & Hl & _). apply NoDup_cons in H4 as [Hni Hnd].
  constructor; [by eapply same_config_ok|by rewrite Hp|done|done|]. intros p i line' Hpp Hi. rewrite Hp in Hpp.
  assert (has_id sf p i) as Hi' by (unfold has_id in *; by rewrite Hl in Hi). rewrite Hb by apply Hi'. rewrite (H5 p i line'), elem_of_cons by done. split.
  - intros [[Heq|?] Hne]; [|done]. exfalso. injection Heq as Hid ->. apply Hne. split; [done|]. assert (p = port) as -> by (by apply H2).
    destruct Hi' as (_ & _ & Hi' & _), Hj as (_ & _ & Hj' & _). congruence.
  - intros Hin. split; [by right|]. intros [-> ->]. assert (p = port) as -> by (by apply (proj1 (proj2 H1) p port j)). done.
Qed.

Lemma bit_clear r j i : 0 <= i < 256 → 0 <= j → Z.testbit (r .& mask_not (2 ^ j)) i = true ↔ Z.testbit r i = true ∧ i ≠ j.
Proof.
  intros Hi Hj. unfold mask_not. rewrite Z.land_spec, testbit_unot, testbit_pow2 by lia.
  replace (i <? 256) with true by lia. cbn. rewrite andb_true_iff, negb_true_iff, Z.eqb_neq. done.
Qed.

(** The item of a line with the bit of a port cleared, and any holders. *)
Lemma clear_item_bits l line it r j line' i : l !! line = Some it → 0 <= i < 256 → 0 <= j → requested r = requested it .& mask_not (2 ^ j) →
  requested_bit (<[line := r]> l) line' i ↔ requested_bit l line' i ∧ ¬ (line' = line ∧ i = j).
Proof.
  intros Hl Hi Hj Hr. rewrite bit_insert, Hr, bit_clear by done. unfold requested_bit. destruct (decide (line' = line)) as [->|]; [|naive_solver].
  rewrite Hl. naive_solver.
Qed.

Lemma updateResponse_tracks sf K k port sf' : updateResponse sf k port = Ok sf' →
  isUncacheable (req k) = false → isSnooping port = true → port ∈ cpuSidePorts sf →
  tracks sf ((getId port, line_of (linesize sf) k) :: K) → tracks sf' K.
Proof.
  intros H Hu Hs Hp Ht. destruct (updateResponse_inv sf k port sf' (tr_null _ _ Ht) H) as [Hn Hc].
  destruct (proj1 (tr_config _ _ Ht) port Hp) as [j Hj]. pose proof Hj as (_ & _ & _ & Hj0).
  unfold updateResponse in H. rewrite Hu, Hs in H. simpl in H. apply bind_Ok in H as ([] & _ & H). apply bind_Ok in H as (line & Hline & H).
  apply line_addr_of in Hline; [|by apply Ht]. subst line. set (line := line_of (linesize sf) k) in *.
  assert (requested_bit (cachedLocations sf) line j) as (it & Hit & _) by (apply (tr_bits _ _ Ht port j line Hp Hj); left).
  rewrite Hit, (portToMask_id sf port j Hj) in H. simpl in H. apply bind_Ok in H as ([] & _ & H).
  eapply (clear_tracks sf sf' K port j line); [done|done|done|done|done|]. intros line' i Hi.
  destruct (isCacheMaintenance (req k)).
  - rewrite (erase_bits _ _ _ _ _ H). eapply clear_item_bits; [done|done|lia|done].
  - apply bind_Ok in H as ([] & _ & H). injection H as <-. eapply clear_item_bits; [done|done|lia|done].
Qed.

Lemma updateResponse_untracked sf k port sf' : updateResponse sf k port = Ok sf' →
  isUncacheable (req k) || negb (isSnooping port) = true → sf' = sf.
Proof. unfold updateResponse. intros H Hu. rewrite Hu in H. apply bind_Ok in H as ([] & _ & H). by injection H. Qed.

Lemma updateSnoopResponse_tracks sf K k rsp port sf' : updateSnoopResponse sf k rsp port = Ok sf' →
  isUncacheable (req k) = false → isSnooping port = true → port ∈ cpuSidePorts sf →
  tracks sf ((getId port, line_of (linesize sf) k) :: K) → tracks sf' K.
Proof.
  intros H Hu Hs Hp Ht. destruct (updateSnoopResponse_inv sf k rsp port sf' (tr_null _ _ Ht) H) as [Hn Hc].
  destruct (proj1 (tr_config _ _ Ht) port Hp) as [j Hj]. pose proof Hj as (_ & _ & _ & Hj0).
  unfold updateSnoopResponse in H. rewrite Hu, Hs in H. simpl in H. apply bind_Ok in H as ([] & _ & H). apply bind_Ok in H as ([] & _ & H).
  apply bind_Ok in H as (line & Hline & H). apply line_addr_of in Hline; [|by apply Ht]. subst line. set (line := line_of (linesize sf) k) in *.
  assert (requested_bit (cachedLocations sf) line j) as (it & Hit & _) by (apply (tr_bits _ _ Ht port j line Hp Hj); left).
  apply bind_Ok in H as (m & _ & H). rewrite Hit, (portToMask_id sf port j Hj) in H. simpl in H. apply bind_Ok in H as ([] & _ & H).
  apply bind_Ok in H as ([] & _ & H). apply bind_Ok in H as ([] & _ & H). apply bind_Ok in H as ([] & _ & H). injection H as <-.
  eapply (clear_tracks sf _ K port j line); [done|done|done|done|done|]. intros line' i Hi. eapply clear_item_bits; [done|done|lia|done].
Qed.

Lemma updateSnoopResponse_untracked sf k rsp port sf' : updateSnoopResponse sf k rsp port = Ok sf' →
  isUncacheable (req k) || negb (isSnooping port) = true → sf' = sf.
Proof.
  unfold updateSnoopResponse. intros H Hu. rewrite Hu in H. apply bind_Ok in H as ([] & _ & H). apply bind_Ok in H as ([] & _ & H). by injection H.
Qed.

(** ** Snoops *)

Lemma updateSnoopForward_tracks sf K k rsp port sf' : updateSnoopForward sf k rsp port = Ok sf' → tracks sf K → tracks sf' K.
Proof.
  intros H Ht. destruct (updateSnoopForward_inv sf k rsp port sf' (tr_null _ _ Ht) H) as [Hn Hc]. apply (tracks_keep sf); [done|done|done|].
  unfold updateSnoopForward in H. apply bind_Ok in H as ([] & _ & H). apply bind_Ok in H as ([] & _ & H). apply bind_Ok in H as (line & _ & H).
  destruct (cachedLocations sf !! line) as [it|] eqn:Hit; [|by injection H as <-]. destruct (negb (hasSharers k)); [|by injection H as <-].
  intros line' i. rewrite (erase_bits _ _ _ _ _ H). simpl. rewrite bit_insert. simpl. unfold requested_bit.
  destruct (decide (line' = line)) as [->|]; [rewrite Hit|]; naive_solver.
Qed.

Lemma lookupSnoop_tracks sf K k l sf' : lookupSnoop sf k = Ok (l, sf') → tracks sf K → tracks sf' K.
Proof.
  intros H Ht. destruct (lookupSnoop_inv sf k l sf' (tr_null _ _ Ht) H) as [Hn Hc]. apply (tracks_keep sf); [done|done|done|].
  unfold lookupSnoop in H. apply bind_Ok in H as ([] & _ & H). apply bind_Ok in H as (line & _ & H).
  destruct (cachedLocations sf !! line) as [it|] eqn:Hit; [|apply bind_Ok in H as ([] & _ & H); by injection H as _ <-].
  cbv zeta in H. apply bind_Ok in H as (nw & _ & H). apply bind_Ok in H as ([] & _ & H). apply bind_Ok in H as (sf1 & He & H).
  apply bind_Ok in H as (l0 & _ & H). injection H as _ <-. destruct (isInvalidate (cmd k) && (requested it =? 0)); [|by injection He as <-].
  intros line' i. rewrite (erase_bits _ _ _ _ _ He). simpl. rewrite bit_insert. simpl. unfold requested_bit.
  destruct (decide (line' = line)) as [->|]; [rewrite Hit|]; naive_solver.
Qed.

End CoherentFilter.
