(* ===== verification/CoherentInv.v ===== *)
(** * mem/coherent_xbar: what the operations do to the tables

    The tables are the routes, the requests with a snoop response to come, the clean requests
    and writes that wait for each other, and the snoop filter; layers and clocks come and go. *)

From Stdlib Require Import ZArith Lia.
From stdpp Require Import base numbers option list gmap.
From S2P Require Import Prelude Flags AddrRange Clocked Packet PacketProps SnoopFilter SnoopFilterProps AddrRangeMap XBarLayer XBar XBarProps CoherentXBar CoherentFilter.

Module CoherentLemmas.
Import Packet PacketProps XBarLayer XBar XBarProps CoherentXBar CoherentFilter.

Definition same_tables (x x' : CoherentXBar) : Prop :=
  routes x' = routes x ∧ outstandingSnoop x' = outstandingSnoop x ∧ outstandingCMO x' = outstandingCMO x ∧
  snoopFilter x' = snoopFilter x.

#[export] Instance same_tables_preorder : PreOrder same_tables.
Proof. split; [done|]. unfold same_tables. intros x y z (? & ? & ? & ?) (? & ? & ? & ?). split_and!; congruence. Qed.

(** Packets that differ in their delays only. *)
Definition same_packet (p p' : CohPacket) : Prop :=
  qpkt p' = qpkt p ∧ qreq p' = qreq p ∧ id p' = id p ∧ isToPOC p' = isToPOC p ∧ isToPOU p' = isToPOU p.

#[export] Instance same_packet_preorder : PreOrder same_packet.
Proof. split; [done|]. unfold same_packet. intros x y z (? & ? & ? & ? & ?) (? & ? & ? & ? & ?). split_and!; congruence. Qed.

Lemma reqLayer_tables i f x x' : reqLayer i f x = Ok x' → same_tables x x'.
Proof. unfold reqLayer. intros H. by res_inv. Qed.
Lemma respLayer_tables i f x x' : respLayer i f x = Ok x' → same_tables x x'.
Proof. unfold respLayer. intros H. by res_inv. Qed.
Lemma snoopLayer_tables i f x x' : snoopLayer i f x = Ok x' → same_tables x x'.
Proof. unfold snoopLayer. intros H. by res_inv. Qed.
Lemma tryReqLayer_tables i s x b x' : tryReqLayer i s x = Ok (b, x') → same_tables x x'.
Proof. unfold tryReqLayer. intros H. apply bind_Ok in H as (l & _ & H). apply bind_Ok in H as ([ok l'] & _ & H). by injection H as <- <-. Qed.
Lemma tryRespLayer_tables i s x b x' : tryRespLayer i s x = Ok (b, x') → same_tables x x'.
Proof. unfold tryRespLayer. intros H. apply bind_Ok in H as (l & _ & H). apply bind_Ok in H as ([ok l'] & _ & H). by injection H as <- <-. Qed.
Lemma trySnoopLayer_tables i s x b x' : trySnoopLayer i s x = Ok (b, x') → same_tables x x'.
Proof. unfold trySnoopLayer. intros H. apply bind_Ok in H as (l & _ & H). apply bind_Ok in H as ([ok l'] & _ & H). by injection H as <- <-. Qed.
Lemma edge_at_tables pr now c x e x' : edge_at pr now c x = (e, x') → same_tables x x'.
Proof. unfold edge_at. destruct (Clocked.clockEdge _ _ _ _) as [e0 c0]. by intros [= <- <-]. Qed.
Lemma findPort_tables pr p x i b : findPort_pkt pr p (base x) = Ok (i, b) → same_tables x (set_base b x).
Proof. intros H. apply findPort_pkt_route in H. by split. Qed.
Lemma packet_timing_tables pr now d p x p' x' : packet_timing pr now d p x = Ok (p', x') → same_tables x x' ∧ same_packet p p'.
Proof.
  unfold packet_timing. intros H. apply bind_Ok in H as ([q b] & H1 & H). injection H as <- <-.
  apply calcPacketTiming_route in H1 as (Hr & Hk & Hq). by repeat split.
Qed.

Lemma with_filter_spec f x x' : with_filter f x = Ok x' →
  routes x' = routes x ∧ outstandingSnoop x' = outstandingSnoop x ∧ outstandingCMO x' = outstandingCMO x ∧ base x' = base x ∧
  match snoopFilter x with
  | Some sf => ∃ sf', f sf = Ok sf' ∧ snoopFilter x' = Some sf'
  | None => snoopFilter x' = None
  end.
Proof.
  unfold with_filter. destruct (snoopFilter x) as [sf|] eqn:Hsf; intros H.
  - apply bind_Ok in H as (sf' & Hf & H). injection H as <-. split_and!; try done. by exists sf'.
  - by injection H as <-.
Qed.

Lemma port_at_Ok pr i p : port_at pr i = Ok p → 0 <= i ∧ cpuSidePorts pr !! Z.to_nat i = Some p.
Proof. unfold port_at, at_port. destruct (Z.ltb_spec i 0) as [|Hi]; [done|]. intros H%deref_Ok. by split. Qed.

Lemma add_route_spec pr r i x x' : add_route pr r i x = Ok x' →
  routes x !! r = None ∧ routes x' = <[r := i]> (routes x) ∧ outstandingSnoop x' = outstandingSnoop x ∧
  outstandingCMO x' = outstandingCMO x ∧ snoopFilter x' = snoopFilter x.
Proof.
  unfold add_route. intros H. apply bind_Ok in H as ([] & Hn & H). apply assert_ok_true, bool_decide_eq_true in Hn.
  cbv zeta in H. apply bind_Ok in H as ([] & _ & H). injection H as <-. done.
Qed.

Lemma record_request_spec pr es er p i x x' : record_request pr es er p i x = Ok x' →
  outstandingCMO x' = outstandingCMO x ∧ snoopFilter x' = snoopFilter x ∧
  outstandingSnoop x' = (if es then {[qreq p]} ∪ outstandingSnoop x else outstandingSnoop x) ∧
  if er || es then routes x !! qreq p = None ∧ routes x' = <[qreq p := i]> (routes x) else routes x' = routes x.
Proof.
  unfold record_request. intros H. apply bind_Ok in H as (x1 & H1 & H).
  assert (routes x1 = routes x ∧ outstandingSnoop x1 = (if es then {[qreq p]} ∪ outstandingSnoop x else outstandingSnoop x) ∧
    outstandingCMO x1 = outstandingCMO x ∧ snoopFilter x1 = snoopFilter x) as (Hr & Hs & Hc & Hf).
  { destruct es; [|by injection H1 as <-]. apply bind_Ok in H1 as ([] & _ & H1). cbv zeta in H1. apply bind_Ok in H1 as ([] & _ & H1). by injection H1 as <-. }
  destruct (er || es).
  - apply add_route_spec in H as (Hn & H & Hs' & Hc' & Hf'). rewrite Hr in *. split_and!; congruence.
  - injection H as <-. split_and!; congruence.
Qed.

(** ** Packets *)

(** What stays of a packet while it is snooped and sent. *)
Record same_request (p p' : CohPacket) : Prop := {
  sr_req : qreq p' = qreq p;
  sr_id : id p' = id p;
  sr_poc : isToPOC p' = isToPOC p;
  sr_pou : isToPOU p' = isToPOU p;
  sr_request : req (qpkt p') = req (qpkt p);
  sr_addr : addr (qpkt p') = addr (qpkt p);
  sr_secure : _isSecure (qpkt p') = _isSecure (qpkt p)
}.

#[export] Instance same_request_preorder : PreOrder same_request.
Proof. split; [done|]. intros x y z [] []. constructor; congruence. Qed.

Lemma same_packet_request p p' : same_packet p p' → same_request p p'.
Proof. intros (Hk & H2 & H3 & H4 & H5). by constructor; rewrite ?Hk. Qed.

Lemma isDestination_same pr p p' : same_request p p' → isDestination pr p' = isDestination pr p.
Proof. intros []. unfold isDestination. by rewrite sr_poc0, sr_pou0. Qed.

(** The flags of a packet do not change its request. *)
Lemma set_qpkt_flags p f : same_request p (set_qpkt (with_flags (qpkt p) f) p).
Proof. done. Qed.

(** Responses to requests that are not clean are not clean, and no response is a write clean. *)
Definition kinds_ok (c : Command) : bool :=
  (isClean c || negb (isClean (responseCommand c))) &&
  (negb (needsResponse c) || negb (bool_decide (responseCommand c = WriteClean))) &&
  (negb (isClean c && isRequest c) ||
   (needsResponse c && negb (isWrite c) && negb (bool_decide (c = CleanEvict)) && negb (bool_decide (c = WritebackClean)))).

Lemma commands_kinds c : kinds_ok c = true.
Proof. apply forall_commands. vm_compute. reflexivity. Qed.

Lemma response_not_clean c : isClean c = false → isClean (responseCommand c) = false.
Proof.
  pose proof (commands_kinds c) as H. unfold kinds_ok in H. rewrite !andb_true_iff in H. destruct H as [[H _] _].
  intros Hc. rewrite Hc, orb_false_l in H. by apply negb_true_iff in H.
Qed.

Lemma response_not_write_clean c : needsResponse c = true → responseCommand c ≠ WriteClean.
Proof.
  pose proof (commands_kinds c) as H. unfold kinds_ok in H. rewrite !andb_true_iff in H. destruct H as [[_ H] _].
  intros Hn. rewrite Hn, orb_false_l in H. by apply negb_true_iff, bool_decide_eq_false in H.
Qed.

Lemma clean_kind c : isClean c = true → isRequest c = true → needsResponse c = true ∧ isWrite c = false ∧ c ≠ CleanEvict ∧ c ≠ WritebackClean.
Proof.
  pose proof (commands_kinds c) as H. unfold kinds_ok in H. apply andb_true_iff in H as [_ H].
  intros Hc Hr. rewrite Hc, Hr, orb_false_l, !andb_true_iff, !negb_true_iff, !bool_decide_eq_false in H. tauto.
Qed.

End CoherentLemmas.

(** * mem/coherent_xbar: what is owed, and that a request keeps it

    The abstract state of a coherent crossbar is a table of the responses that are owed: to
    whom, and who will send them.  The routes, the outstanding snoops, the waiting clean
    requests and the bits of the snoop filter all represent this one table ([Inv]). *)

Module CoherentInv.
Import Packet XBarLayer XBar CoherentXBar CoherentFilter CoherentLemmas.

Inductive Place := Cpu (i : Z) | Mem (k : Z).
Inductive Source := Memory | Snooper | Waiting.

#[export] Instance Place_eq_dec : EqDecision Place.
Proof. solve_decision. Defined.
#[export] Instance Source_eq_dec : EqDecision Source.
Proof. solve_decision. Defined.

(** A response that is owed, and the request it answers. *)
Record Entry := mkEntry { e_place : Place; e_source : Source; e_pkt : Packet }.

Abbreviation Table := (gmap positive Entry).

Definition port_of (p : Place) : Z := match p with Cpu i => i | Mem k => k end.
Definition to_cpu (e : Entry) : bool := match e_place e with Cpu _ => true | Mem _ => false end.

Definition owed_list (t : Table) : list (positive * Place) := (λ re, (re.1, e_place re.2)) <$> map_to_list t.

Lemma owed_list_insert t r e : t !! r = None → owed_list (<[r := e]> t) ≡ₚ (r, e_place e) :: owed_list t.
Proof. intros Hr. unfold owed_list. by rewrite map_to_list_insert. Qed.

Lemma owed_list_delete t r e : t !! r = Some e → owed_list t ≡ₚ (r, e_place e) :: owed_list (delete r t).
Proof.
  intros Hr. rewrite <-(insert_delete_id t r e Hr) at 1. apply owed_list_insert, lookup_delete_eq.
Qed.

(** The request asks for a response that nobody has promised yet. *)
Definition asks (k : Packet) : bool := needsResponse (cmd k) && negb (cacheResponding k).

(** Packets about the same bytes of the same request. *)
Definition about (k k' : Packet) : Prop := req k' = req k ∧ addr k' = addr k ∧ _isSecure k' = _isSecure k.

Lemma same_request_about p p' : same_request p p' → about (qpkt p) (qpkt p').
Proof. intros []. by split. Qed.

Lemma about_trans k k1 k2 : about k k1 → about k1 k2 → about k k2.
Proof. intros (? & ? & ?) (? & ? & ?). split; [congruence|]. split; congruence. Qed.

Lemma line_of_about ls k k' : about k k' → line_of ls k' = line_of ls k.
Proof. intros (_ & Ha & Hs). unfold line_of. by rewrite Ha, Hs. Qed.

Section Crossbar.
Context (pr : CohParams).
Hypothesis snooping : bypassCaches pr = false.
(** The ports know their numbers. *)
Hypothesis numbered : ∀ i p, port_at pr i = Ok p → getId p = i.

Lemma port_snoops i p : port_at pr i = Ok p → isSnooping p = true → p ∈ snoopPorts pr.
Proof.
  intros (_ & H)%port_at_Ok Hs. unfold snoopPorts. apply list_elem_of_filter. split; [done|]. by eapply list_elem_of_lookup_2.
Qed.

(** ** The bits of the filter *)

(** What the filter remembers of a request of port [i]. *)
Definition pkey (ls i : Z) (k : Packet) : list (Z * Z) :=
  match port_at pr i with Ok p => if remembered p k then [(i, line_of ls k)] else [] | Err _ => [] end.
Definition key (ls : Z) (e : Entry) : list (Z * Z) := match e_place e with Cpu i => pkey ls i (e_pkt e) | Mem _ => [] end.
Definition keys (ls : Z) (t : Table) : list (Z * Z) := map_to_list t ≫= λ re, key ls re.2.

Lemma keys_insert ls t r e : t !! r = None → keys ls (<[r := e]> t) ≡ₚ key ls e ++ keys ls t.
Proof. intros Hr. unfold keys. by rewrite map_to_list_insert. Qed.

Lemma keys_delete ls t r e : t !! r = Some e → keys ls t ≡ₚ key ls e ++ keys ls (delete r t).
Proof. intros Hr. rewrite <-(insert_delete_id t r e Hr) at 1. apply keys_insert, lookup_delete_eq. Qed.

(** The filter has the requests of the table and those of [extra]. *)
Definition filter_inv (f : option SnoopFilter.SnoopFilter) (extra : list (Z * Packet)) (t : Table) : Prop :=
  ∀ sf, f = Some sf → SnoopFilter.cpuSidePorts sf = snoopPorts pr ∧
    tracks sf ((extra ≫= λ ik, pkey (SnoopFilter.linesize sf) ik.1 ik.2) ++ keys (SnoopFilter.linesize sf) t).

(** Caches send cacheable requests with commands of caches. *)
Definition known (i : Z) (k : Packet) : Prop :=
  ∀ p, port_at pr i = Ok p → isSnooping p = true → isUncacheable (req k) = true ∨ fromCache (cmd k) = true.

Lemma remembered_known i k p : port_at pr i = Ok p → known i k → asks k = true →
  remembered p k = negb (isUncacheable (req k) || negb (isSnooping p)).
Proof.
  intros Hp Hk Ha. unfold remembered. unfold asks in Ha. apply andb_true_iff in Ha as [-> ->].
  destruct (isSnooping p) eqn:Hs; [|by destruct (isUncacheable _)]. destruct (Hk p Hp Hs) as [->|H]; [done|]. rewrite H. by destruct (isUncacheable _).
Qed.

Lemma same_config_sf sf sf' : SnoopFilterProps.same_config sf sf' → SnoopFilter.cpuSidePorts sf' = SnoopFilter.cpuSidePorts sf ∧
  SnoopFilter.linesize sf' = SnoopFilter.linesize sf.
Proof. by intros (? & _ & ?). Qed.

(** The response to a request takes it out of the filter. *)
Lemma response_filter i k k' port sf sf' t : filter_inv (Some sf) [(i, k)] t → port_at pr i = Ok port → known i k → asks k = true → about k k' →
  (SnoopFilter.updateResponse sf k' port = Ok sf' ∨ ∃ rsp, SnoopFilter.updateSnoopResponse sf k' rsp port = Ok sf') → filter_inv (Some sf') [] t.
Proof.
  intros Hf Hp Hk Ha Hab Hu sf2 [= <-]. destruct (Hf sf eq_refl) as [Hports Ht]. simpl in Ht. rewrite app_nil_r in Ht. unfold pkey in Ht. rewrite Hp in Ht.
  rewrite (remembered_known i k port Hp Hk Ha) in Ht. destruct Hab as (Hreq & Hab).
  destruct (isUncacheable (req k) || negb (isSnooping port)) eqn:Hun; simpl in Ht.
  - assert (sf' = sf) as ->; [|done]. rewrite <-Hreq in Hun.
    destruct Hu as [Hu|[rsp Hu]]; [by eapply updateResponse_untracked|by eapply updateSnoopResponse_untracked].
  - apply orb_false_iff in Hun as [Hun Hs]. apply negb_false_iff in Hs. pose proof (port_snoops _ _ Hp Hs) as Hin. rewrite <-Hports in Hin.
    rewrite <-(numbered _ _ Hp), <-(line_of_about _ k k') in Ht by done. rewrite <-Hreq in Hun. simpl.
    assert (tracks sf' (keys (SnoopFilter.linesize sf) t) ∧ SnoopFilterProps.same_config sf sf') as [Ht' Hc].
    { destruct Hu as [Hu|[rsp Hu]].
      - split; [by eapply updateResponse_tracks|]. by eapply (SnoopFilterProps.updateResponse_inv sf k' port sf' (tr_null _ _ Ht)).
      - split; [by eapply updateSnoopResponse_tracks|]. by eapply (SnoopFilterProps.updateSnoopResponse_inv sf k' rsp port sf' (tr_null _ _ Ht)). }
    apply same_config_sf in Hc as [-> ->]. by split.
Qed.

(** A request that was looked up and goes on, or has to be retried. *)
Lemma looked_filter i k port sf sf1 sf2 a s t retry : filter_inv (Some sf) [] t → port_at pr i = Ok port → looked sf port k sf1 →
  SnoopFilter.finishRequest sf1 retry a s = Ok sf2 → filter_inv (Some sf2) (if retry then [] else [(i, k)]) t.
Proof.
  intros Hf Hp Hl H sf3 [= <-]. destruct (Hf sf eq_refl) as [Hports Ht]. simpl in Ht.
  destruct (finishRequest_looked _ _ _ _ _ _ _ _ Hl (tr_null _ _ Ht) H) as ((Hc1 & _ & Hc3) & _). rewrite Hc1, Hc3. split; [done|]. destruct retry.
  - by eapply finish_retry_tracks.
  - simpl. rewrite app_nil_r. unfold pkey. rewrite Hp. assert (isSnooping port = true → port ∈ SnoopFilter.cpuSidePorts sf) as Hin.
    { intros Hs. rewrite Hports. by eapply port_snoops. }
    pose proof (finish_tracks _ _ _ _ _ _ _ _ Hl Ht Hin H) as Ht2. rewrite (numbered _ _ Hp) in Ht2. by destruct (remembered port k).
Qed.

Lemma filter_inv_insert f i k t r s : t !! r = None → filter_inv f [(i, k)] t → filter_inv f [] (<[r := mkEntry (Cpu i) s k]> t).
Proof.
  intros Hr Hf sf Hsf. destruct (Hf sf Hsf) as [Hp Ht]. split; [done|]. simpl in *. rewrite app_nil_r in Ht.
  eapply tracks_perm; [|exact Ht]. by rewrite keys_insert.
Qed.

Lemma filter_inv_delete f t r e i : t !! r = Some e → e_place e = Cpu i → filter_inv f [] t → filter_inv f [(i, e_pkt e)] (delete r t).
Proof.
  intros Hr He Hf sf Hsf. destruct (Hf sf Hsf) as [Hp Ht]. split; [done|]. simpl in *. rewrite app_nil_r.
  eapply tracks_perm; [|exact Ht]. rewrite (keys_delete _ _ _ _ Hr). unfold key. by rewrite He.
Qed.

(** A request that needs no response, or has one already, is not remembered. *)
Lemma filter_inv_quiet f i k t : asks k = false → filter_inv f [(i, k)] t ↔ filter_inv f [] t.
Proof.
  intros Ha. unfold filter_inv. assert (∀ ls, pkey ls i k = []) as Hk.
  { intros ls. unfold pkey. destruct (port_at pr i) as [p|]; [|done]. destruct (remembered p k) eqn:Hr; [|done]. exfalso.
    unfold remembered in Hr. unfold asks in Ha. rewrite !andb_true_iff in Hr. destruct Hr as [[_ Hn] Hc]. by rewrite Hn, Hc in Ha. }
  simpl. by setoid_rewrite Hk.
Qed.

(** ** The invariant *)

Record table_inv (x : CoherentXBar) (t : Table) : Prop := {
  ti_routes : routes x = (λ e, port_of (e_place e)) <$> t;
  ti_snoops : ∀ r, r ∈ outstandingSnoop x ↔ ∃ e, t !! r = Some e ∧ e_source e = Snooper ∧ to_cpu e = true;
  ti_clean : ∀ c q, outstandingCMO x !! c = Some (Some q) → ∃ e, t !! qreq q = Some e ∧ e_source e = Waiting ∧ about (e_pkt e) (qpkt q);
  ti_once : ∀ c c' q q', outstandingCMO x !! c = Some (Some q) → outstandingCMO x !! c' = Some (Some q') → qreq q = qreq q' → c = c';
  ti_waiting : ∀ r e, t !! r = Some e → e_source e = Waiting → ∃ c q, outstandingCMO x !! c = Some (Some q) ∧ qreq q = r;
  ti_entry : ∀ r e, t !! r = Some e →
    match e_place e with
    | Cpu i => asks (e_pkt e) = true ∧ known i (e_pkt e) ∧ ∃ p, port_at pr i = Ok p
    | Mem _ => e_source e = Snooper
    end
}.

Definition Inv (x : CoherentXBar) (t : Table) : Prop := table_inv x t ∧ filter_inv (snoopFilter x) [] t.

(** The tables of [x'] are those of [x], apart from the filter. *)
Definition same_but_filter (x x' : CoherentXBar) : Prop :=
  routes x' = routes x ∧ outstandingSnoop x' = outstandingSnoop x ∧ outstandingCMO x' = outstandingCMO x.

Lemma same_tables_but x x' : same_tables x x' → same_but_filter x x' ∧ snoopFilter x' = snoopFilter x.
Proof. by intros (? & ? & ? & ?). Qed.

#[export] Instance same_but_filter_preorder : PreOrder same_but_filter.
Proof. split; [done|]. unfold same_but_filter. intros x y z (? & ? & ?) (? & ? & ?). split_and!; congruence. Qed.

Lemma table_inv_same x x' t : same_but_filter x x' → table_inv x t → table_inv x' t.
Proof. intros (Hr & Hs & Hc) []. constructor; by rewrite ?Hr, ?Hs, ?Hc. Qed.

Lemma Inv_same x x' t : same_tables x x' → Inv x t → Inv x' t.
Proof. intros [Hs Hf]%same_tables_but [Ht Hfi]. split; [by eapply table_inv_same|by rewrite Hf]. Qed.

Lemma routes_None x t r : table_inv x t → routes x !! r = None ↔ t !! r = None.
Proof. intros Ht. rewrite (ti_routes _ _ Ht), lookup_fmap, fmap_None. done. Qed.

Lemma snoop_free x t r : table_inv x t → t !! r = None → r ∉ outstandingSnoop x.
Proof. intros Ht Hr (e & He & _)%(ti_snoops _ _ Ht). congruence. Qed.

(** A new entry that memory or a cache will answer. *)
Lemma table_inv_insert x x' t r i k (es : bool) : table_inv x t → t !! r = None → asks k = true → known i k → (∃ p, port_at pr i = Ok p) →
  routes x' = <[r := i]> (routes x) → outstandingSnoop x' = (if es then {[r]} ∪ outstandingSnoop x else outstandingSnoop x) →
  outstandingCMO x' = outstandingCMO x → table_inv x' (<[r := mkEntry (Cpu i) (if es then Snooper else Memory) k]> t).
Proof.
  clear snooping numbered.
  intros Ht Hr Ha Hk Hp Hro Hs Hc. pose proof Ht as [H1 H2 H3 H4 H5 H6]. constructor.
  - by rewrite Hro, H1, fmap_insert.
  - intros r'. rewrite Hs. destruct (decide (r' = r)) as [->|Hne].
    + rewrite lookup_insert_eq. destruct es.
      * split; [intros _; by eexists|intros _; set_solver].
      * split; [intros Hin; by destruct (snoop_free _ _ _ Ht Hr)|intros (e & [= <-] & ? & _); done].
    + rewrite lookup_insert_ne by done. rewrite <-H2. destruct es; set_solver.
  - intros c q Hq. rewrite Hc in Hq. destruct (H3 c q Hq) as (e & He & Hsrc). exists e. rewrite lookup_insert_ne; [done|congruence].
  - by rewrite Hc.
  - intros r' e He Hw. rewrite Hc. destruct (decide (r' = r)) as [->|Hne]; [|rewrite lookup_insert_ne in He by done; by eapply H5].
    rewrite lookup_insert_eq in He. injection He as <-. by destruct es.
  - intros r' e He. destruct (decide (r' = r)) as [->|Hne]; [|rewrite lookup_insert_ne in He by done; by eapply H6].
    rewrite lookup_insert_eq in He. injection He as <-. done.
Qed.

(** A clean request that waits for its write. *)
Lemma table_inv_wait x x' t i p k : table_inv x t → t !! qreq p = None → asks k = true → known i k → (∃ p, port_at pr i = Ok p) → about k (qpkt p) →
  outstandingCMO x !! id p = None →
  routes x' = <[qreq p := i]> (routes x) → outstandingSnoop x' = outstandingSnoop x →
  outstandingCMO x' = <[id p := Some p]> (outstandingCMO x) → table_inv x' (<[qreq p := mkEntry (Cpu i) Waiting k]> t).
Proof.
  intros Ht Hr Ha Hk Hp Hab Hid Hro Hs Hc. pose proof Ht as [H1 H2 H3 H4 H5 H6]. constructor.
  - by rewrite Hro, H1, fmap_insert.
  - intros r'. rewrite Hs, H2. destruct (decide (r' = qreq p)) as [->|Hne]; [|by rewrite lookup_insert_ne].
    rewrite Hr, lookup_insert_eq. split; [naive_solver|]. by intros (e & [= <-] & ? & _).
  - intros c q Hq. rewrite Hc in Hq. apply lookup_insert_Some in Hq as [[<- [= <-]]|[Hne Hq]].
    + rewrite lookup_insert_eq. by eexists.
    + destruct (H3 c q Hq) as (e & He & Hsrc). exists e. rewrite lookup_insert_ne; [done|congruence].
  - intros c c' q q' Hq Hq' Hrq. rewrite Hc in Hq, Hq'. assert (∀ c q, outstandingCMO x !! c = Some (Some q) → qreq q ≠ qreq p) as Hno.
    { intros c0 q0 H0 Heq. destruct (H3 c0 q0 H0) as (e & He & _). congruence. }
    apply lookup_insert_Some in Hq as [[<- [= <-]]|[Hne Hq]]; apply lookup_insert_Some in Hq' as [[<- [= <-]]|[Hne' Hq']].
    + done.
    + by destruct (Hno _ _ Hq').
    + by destruct (Hno _ _ Hq).
    + by apply (H4 c c' q q').
  - intros r' e He Hw. rewrite Hc. destruct (decide (r' = qreq p)) as [->|Hne].
    + exists (id p), p. by rewrite lookup_insert_eq.
    + rewrite lookup_insert_ne in He by done. destruct (H5 r' e He Hw) as (c & q & Hq & Hrq). exists c, q. split; [|done].
      rewrite lookup_insert_ne; [done|]. congruence.
  - intros r' e He. destruct (decide (r' = qreq p)) as [->|Hne]; [|rewrite lookup_insert_ne in He by done; by eapply H6].
    rewrite lookup_insert_eq in He. injection He as <-. done.
Qed.

(** A snoop from below that a cache here will answer. *)
Lemma table_inv_insert_mem x x' t r k q : table_inv x t → t !! r = None → routes x' = <[r := k]> (routes x) →
  outstandingSnoop x' = outstandingSnoop x → outstandingCMO x' = outstandingCMO x → table_inv x' (<[r := mkEntry (Mem k) Snooper q]> t).
Proof.
  clear snooping numbered. intros Ht Hr Hro Hs Hc. pose proof Ht as [H1 H2 H3 H4 H5 H6]. constructor.
  - by rewrite Hro, H1, fmap_insert.
  - intros r'. rewrite Hs. destruct (decide (r' = r)) as [->|Hne]; [|by rewrite H2, lookup_insert_ne].
    rewrite lookup_insert_eq. split; [intros Hin; by destruct (snoop_free _ _ _ Ht Hr)|by intros (e & [= <-] & _ & ?)].
  - intros c p Hq. rewrite Hc in Hq. destruct (H3 c p Hq) as (e & He & Hsrc). exists e. rewrite lookup_insert_ne; [done|congruence].
  - by rewrite Hc.
  - intros r' e He Hw. rewrite Hc. apply lookup_insert_Some in He as [[_ <-]|[_ He]]; [done|by eapply H5].
  - intros r' e He. apply lookup_insert_Some in He as [[_ <-]|[_ He]]; [done|by eapply H6].
Qed.

(** A response that leaves; [c] when it waited. *)
Lemma table_inv_delete x x' t r e : table_inv x t → t !! r = Some e →
  routes x' = delete r (routes x) → outstandingSnoop x' = outstandingSnoop x ∖ {[r]} →
  (if decide (e_source e = Waiting) then ∃ c q, outstandingCMO x !! c = Some (Some q) ∧ qreq q = r ∧ outstandingCMO x' = delete c (outstandingCMO x)
   else outstandingCMO x' = outstandingCMO x) → table_inv x' (delete r t).
Proof.
  intros Ht Hr Hro Hs Hc. pose proof Ht as [H1 H2 H3 H4 H5 H6].
  assert (∀ c q, outstandingCMO x' !! c = Some (Some q) → outstandingCMO x !! c = Some (Some q) ∧ qreq q ≠ r) as Hcmo.
  { intros c q Hq. destruct (decide _) as [Hw|Hw].
    - destruct Hc as (c0 & q0 & Hq0 & Hr0 & Hc). rewrite Hc in Hq. apply lookup_delete_Some in Hq as [Hne Hq]. split; [done|].
      intros Heq. apply Hne. apply (H4 c0 c q0 q); [done|done|congruence].
    - rewrite Hc in Hq. split; [done|]. intros Heq. destruct (H3 c q Hq) as (e' & He' & Hs' & _). congruence. }
  constructor.
  - by rewrite Hro, H1, fmap_delete.
  - intros r'. rewrite Hs, elem_of_difference, elem_of_singleton, H2. destruct (decide (r' = r)) as [->|Hne].
    + rewrite lookup_delete_eq. naive_solver.
    + rewrite lookup_delete_ne by done. naive_solver.
  - intros c q Hq. apply Hcmo in Hq as [Hq Hne]. destruct (H3 c q Hq) as (e' & He' & Hs'). exists e'. by rewrite lookup_delete_ne.
  - intros c c' q q' Hq Hq'. apply Hcmo in Hq as [Hq _]. apply Hcmo in Hq' as [Hq' _]. by apply H4.
  - intros r' e' He' Hw. apply lookup_delete_Some in He' as [Hne He']. destruct (H5 r' e' He' Hw) as (c & q & Hq & Hrq). exists c, q.
    split; [|done]. destruct (decide _) as [Hw'|Hw']; [|by rewrite Hc]. destruct Hc as (c0 & q0 & Hq0 & Hr0 & ->).
    rewrite lookup_delete_ne; [done|]. intros <-. congruence.
  - intros r' e' He'. apply lookup_delete_Some in He' as [_ He']. by eapply H6.
Qed.

(** Entries of the table of clean requests that have no packet. *)
Lemma table_inv_cmo x x' t c : table_inv x t → routes x' = routes x → outstandingSnoop x' = outstandingSnoop x →
  (∀ q, outstandingCMO x !! c ≠ Some (Some q)) →
  outstandingCMO x' = delete c (outstandingCMO x) ∨ outstandingCMO x' = <[c := None]> (outstandingCMO x) → table_inv x' t.
Proof.
  intros [H1 H2 H3 H4 H5 H6] Hro Hs Hno Hc.
  assert (∀ c' q, outstandingCMO x' !! c' = Some (Some q) ↔ outstandingCMO x !! c' = Some (Some q)) as Hcmo.
  { intros c' q. destruct (decide (c' = c)) as [->|Hne].
    - split; [|by intros ?%Hno]. destruct Hc as [-> | ->]; by rewrite ?lookup_delete_eq, ?lookup_insert_eq.
    - destruct Hc as [-> | ->]; by rewrite ?lookup_delete_ne, ?lookup_insert_ne. }
  constructor; [by rewrite Hro|by intros r; rewrite Hs, H2| | | |done].
  - intros c' q Hq. by apply (H3 c'), Hcmo.
  - intros c1 c2 q q' Hq Hq'. by apply H4; apply Hcmo.
  - intros r e He Hw. destruct (H5 r e He Hw) as (c' & q & Hq & Hrq). exists c', q. split; [by apply Hcmo|done].
Qed.

End Crossbar.
End CoherentInv.
