(* ===== verification/CoherentSteps.v ===== *)
(** * mem/coherent_xbar: every operation keeps what is owed *)

From Stdlib Require Import ZArith Lia.
From stdpp Require Import base numbers option list gmap.
From S2P Require Import Prelude Flags AddrRange AddrRangeMap Clocked Packet PacketProps XBarLayer XBar XBarProps.
From S2P Require Import SnoopFilter SnoopFilterProps CoherentXBar CoherentFilter CoherentInv.

Module CoherentSteps.
Import Packet XBarLayer XBar CoherentXBar CoherentFilter CoherentLemmas CoherentInv.

(** What the crossbar relies on of its neighbours.  [log] has the responses that left, in
    order: to whom, and to which request.  Snooping and sending a packet do not make another
    request of it; one that is taken may already be a response.  No cache promises to answer a
    clean request, or one that needs no response, and none takes such a promise back. *)
Class Neighbours {W : Type} (log : W → list (positive * Place))
    (sendTimingReq : Z → CohPacket → W → bool * CohPacket * W) (tryTimingReq : Z → CohPacket → W → bool * W)
    (sendTimingSnoopReq : Z → CohPacket → W → CohPacket * W) (sendTimingSnoopResp : Z → CohPacket → W → bool * CohPacket * W)
    (schedTimingResp : Z → CohPacket → Z → W → W) : Prop := {
  n_send k p w : let '(_, p', w') := sendTimingReq k p w in log w' = log w ∧ same_request p p' ∧
    (cmd (qpkt p') = cmd (qpkt p) ∨ needsResponse (cmd (qpkt p)) = true ∧ cmd (qpkt p') = responseCommand (cmd (qpkt p)));
  n_try k p w : log (tryTimingReq k p w).2 = log w;
  n_snoop i p w : let '(p', w') := sendTimingSnoopReq i p w in log w' = log w ∧ same_request p p' ∧ cmd (qpkt p') = cmd (qpkt p) ∧
    (cacheResponding (qpkt p) = true ∨ isClean (cmd (qpkt p)) = true ∨ needsResponse (cmd (qpkt p)) = false →
     cacheResponding (qpkt p') = cacheResponding (qpkt p));
  n_snoop_resp k p w : let '(b, _, w') := sendTimingSnoopResp k p w in log w' = log w ++ (if b : bool then [(qreq p, Mem k)] else []);
  n_sched i p t w : log (schedTimingResp i p t w) = log w ++ [(qreq p, Cpu i)]
}.

Section Crossbar.
Context {W : Type} (pr : CohParams) (log : W → list (positive * Place)).
Context {sendTimingReq : Z → CohPacket → W → bool * CohPacket * W} {tryTimingReq : Z → CohPacket → W → bool * W}.
Context {sendTimingSnoopReq : Z → CohPacket → W → CohPacket * W} {sendTimingSnoopResp : Z → CohPacket → W → bool * CohPacket * W}.
Context {schedTimingResp : Z → CohPacket → Z → W → W}.
Context `{!Neighbours log sendTimingReq tryTimingReq sendTimingSnoopReq sendTimingSnoopResp schedTimingResp}.
Hypothesis snooping : bypassCaches pr = false.
Hypothesis numbered : ∀ i p, port_at pr i = Ok p → getId p = i.

#[local] Notation Inv := (Inv pr).
#[local] Notation table_inv := (table_inv pr).
#[local] Notation filter_inv := (filter_inv pr).

(** ** Snoops *)

(** Packets before and after snoops. *)
Definition snooped (p p' : CohPacket) : Prop :=
  same_request p p' ∧ cmd (qpkt p') = cmd (qpkt p) ∧
  (cacheResponding (qpkt p) = true ∨ isClean (cmd (qpkt p)) = true ∨ needsResponse (cmd (qpkt p)) = false →
   cacheResponding (qpkt p') = cacheResponding (qpkt p)).

#[export] Instance snooped_preorder : PreOrder snooped.
Proof.
  split; [by intros p|]. intros p1 p2 p3 (H1 & H2 & H3) (H4 & H5 & H6). split; [by etrans|]. split; [congruence|].
  intros Hc. rewrite H6, H3; [done|done|]. by rewrite H3, H2.
Qed.

Lemma same_packet_snooped p p' : same_packet p p' → snooped p p'.
Proof. intros H. split; [by apply same_packet_request|]. destruct H as (-> & _). done. Qed.

Lemma block_cached_snooped p d : snooped p (set_qpkt (setBlockCached (qpkt (set_header d p))) (set_header d p)).
Proof.
  split; [done|]. split; [done|]. intros _. unfold cacheResponding, setBlockCached, set_flag, Flags.isSet, Flags.set. simpl.
  rewrite Z.land_lor_distr_l. change (BLOCK_CACHED .& CACHE_RESPONDING) with 0. by rewrite Z.lor_0_r.
Qed.

Lemma snoop_ports_spec ex dests : ∀ p w p' w', snoop_ports sendTimingSnoopReq ex dests p w = (p', w') → log w' = log w ∧ snooped p p'.
Proof.
  induction dests as [|d dests IH]; intros p w p' w' H; simpl in H; [by injection H as <- <-|].
  destruct (_ || _); [|by apply IH]. pose proof (n_snoop (getId d) p w) as Hn.
  destruct (sendTimingSnoopReq (getId d) p w) as [p1 w1]. destruct Hn as (Hl & Hs). destruct (IH _ _ _ _ H) as [-> Hs']. split; [done|]. by etrans.
Qed.

Lemma forwardTiming_spec ex dests p w p' w' : forwardTiming pr sendTimingSnoopReq ex dests p w = Ok (p', w') → log w' = log w ∧ snooped p p'.
Proof.
  unfold forwardTiming. intros H. apply bind_Ok in H as ([] & _ & H). injection H as H. by eapply snoop_ports_spec.
Qed.

Lemma snoop_request_spec p i k x w go p' x' w' :
  snoop_request pr tryTimingReq sendTimingSnoopReq p i k x w = Ok (go, p', x', w') →
  log w' = log w ∧ snooped p p' ∧ same_but_filter x x' ∧
  if go then match snoopFilter x with
             | Some sf => ∃ port sf1, port_at pr i = Ok port ∧ looked sf port (qpkt p) sf1 ∧ snoopFilter x' = Some sf1
             | None => snoopFilter x' = None
             end
  else x' = x.
Proof.
  unfold snoop_request. intros H. apply bind_Ok in H as ([] & _ & H).
  destruct (if isClean (cmd (qpkt p)) && negb (isDestination pr p) then tryTimingReq k p w else (true, w)) as [go0 w0] eqn:Hgo.
  assert (log w0 = log w) as Hl0. { destruct (_ && _); [|by injection Hgo as <- <-]. pose proof (n_try k p w) as Hn. by rewrite Hgo in Hn. }
  destruct go0; simpl in H; [|injection H as <- <- <- <-; split_and!; done].
  apply bind_Ok in H as ([[p1 x1] w1] & H1 & H). injection H as <- <- <- <-. rewrite <-Hl0.
  enough (log w1 = log w0 ∧ snooped p p1 ∧ same_but_filter x x1 ∧ match snoopFilter x with
             | Some sf => ∃ port sf1, port_at pr i = Ok port ∧ looked sf port (qpkt p) sf1 ∧ snoopFilter x1 = Some sf1
             | None => snoopFilter x1 = None end) as (? & ? & ? & ?).
  { split; [done|]. split; [transitivity p1; [done|by apply same_packet_snooped]|]. by split. }
  destruct (snoopFilter x) as [sf|] eqn:Hsf.
  - apply bind_Ok in H1 as (port & Hp & H1). apply bind_Ok in H1 as ([dests sf1] & Hlk & H1). apply lookupRequest_looked in Hlk.
    cbv zeta in H1. destruct (isEviction _).
    + injection H1 as <- <- <-. split; [done|]. split; [by destruct (bool_decide _); [apply same_packet_snooped|apply block_cached_snooped]|].
      split; [done|]. by exists port, sf1.
    + apply bind_Ok in H1 as ([p2 w2] & Hf & H1). injection H1 as <- <- <-. apply forwardTiming_spec in Hf as [Hl Hs].
      split; [done|]. split; [etrans; [|exact Hs]; by apply same_packet_snooped|]. split; [done|]. by exists port, sf1.
  - apply bind_Ok in H1 as ([p2 w2] & Hf & H1). injection H1 as <- <- <-. apply forwardTiming_spec in Hf as [Hl Hs]. by split_and!.
Qed.

(** ** Passing a request on *)

Lemma pass_request_spec d es k p w s rd p' w' :
  pass_request pr sendTimingReq d es k p w = Ok (s, rd, p', w') → isRequest (cmd (qpkt p)) = true → d = isDestination pr p →
  (isClean (cmd (qpkt p)) = true → cacheResponding (qpkt p) = false) →
  log w' = log w ∧ same_request p p' ∧
  (cmd (qpkt p') = cmd (qpkt p) ∨ needsResponse (cmd (qpkt p)) = true ∧ cmd (qpkt p') = responseCommand (cmd (qpkt p))) ∧
  if rd then s = true ∧ p' = p ∧ es = false ∧ asks (qpkt p) = true
  else d = true → isClean (cmd (qpkt p')) = false.
Proof.
  unfold pass_request. intros H Hreq Hd Hclean. apply bind_Ok in H as (sink & Hsink & H). destruct sink.
  - injection H as <- <- <- <-. split; [done|]. split; [done|]. split; [by left|]. intros _. destruct (isClean (cmd (qpkt p))) eqn:Hc; [|done].
    exfalso. specialize (Hclean eq_refl). destruct (clean_kind _ Hc Hreq) as (Hn & Hw & Hce & Hwc). unfold sinkPacket in Hsink.
    unfold isCleanEviction in Hsink. rewrite Hclean, Hn, (bool_decide_eq_false_2 _ Hce), (bool_decide_eq_false_2 _ Hwc) in Hsink.
    simpl in Hsink. rewrite !andb_false_r in Hsink. discriminate.
  - destruct (forwardPacket pr p) eqn:Hfw.
    + set (p1 := if cacheResponding (qpkt p) then _ else _) in H. set (p2 := if isWrite (cmd (qpkt p1)) && d then _ else _) in H.
      assert (same_request p p2 ∧ cmd (qpkt p2) = cmd (qpkt p)) as [Hs2 Hc2].
      { unfold p2, p1. destruct (cacheResponding _), (_ && d); done. }
      pose proof (n_send k p2 w) as Hn. destruct (sendTimingReq k p2 w) as [[s0 p3] w3]. injection H as <- <- <- <-.
      destruct Hn as (Hl & Hs & Hc). rewrite Hc2 in Hc. split; [done|]. split; [by etrans|]. split; [done|]. intros Hdt.
      assert (isClean (cmd (qpkt p)) = false) as Hnc.
      { unfold forwardPacket in Hfw. destruct (isClean _); [|done]. rewrite <-Hd, Hdt in Hfw. done. }
      destruct Hc as [->|[_ ->]]; [done|by apply response_not_clean].
    + apply bind_Ok in H as ([] & Hn & H). apply bind_Ok in H as ([] & He & H). injection H as <- <- <- <-.
      apply assert_ok_true in Hn, He. apply negb_true_iff in He. split; [done|]. split; [done|]. split; [by left|]. split_and!; try done.
      unfold asks. rewrite Hn. simpl. apply negb_true_iff. unfold forwardPacket in Hfw. destruct (isClean (cmd (qpkt p))) eqn:Hc; [by apply Hclean|].
      apply orb_false_iff in Hfw as [_ Hpoc]. apply negb_false_iff in Hpoc. unfold sinkPacket in Hsink. rewrite Hpoc in Hsink.
      destruct (cacheResponding (qpkt p)); [|done]. simpl in Hsink. discriminate.
Qed.

(** ** Clean requests and their writes *)

Inductive clean_case (d rd : bool) (p : CohPacket) (i : Z) (x : CoherentXBar) : bool → option CohPacket → Z → CoherentXBar → Prop :=
  | cc_none : d && isClean (cmd (qpkt p)) && satisfied (qpkt p) = false → clean_case d rd p i x rd None i x
  | cc_complete q j x' : d = true → isWrite (cmd (qpkt p)) = true → outstandingCMO x !! id p = Some (Some q) → routes x !! qreq q = Some j →
      isClean (cmd (qpkt p)) = true ∨ cmd (qpkt p) = WriteClean →
      routes x' = delete (qreq q) (routes x) → outstandingSnoop x' = outstandingSnoop x →
      outstandingCMO x' = delete (id p) (outstandingCMO x) → snoopFilter x' = snoopFilter x →
      clean_case d rd p i x true (Some q) j x'
  | cc_found o x' : d = true → isWrite (cmd (qpkt p)) = false → isClean (cmd (qpkt p)) = true ∨ cmd (qpkt p) = WriteClean →
      outstandingCMO x !! id p = Some o → same_tables (set_outstandingCMO (delete (id p) (outstandingCMO x)) x) x' →
      clean_case d rd p i x true None i x'
  | cc_write x' : d = true → isWrite (cmd (qpkt p)) = true → isClean (cmd (qpkt p)) = true ∨ cmd (qpkt p) = WriteClean →
      outstandingCMO x !! id p = None → same_tables (set_outstandingCMO (<[id p := None]> (outstandingCMO x)) x) x' →
      clean_case d rd p i x false None i x'
  | cc_wait x' : d = true → isWrite (cmd (qpkt p)) = false → isClean (cmd (qpkt p)) = true ∨ cmd (qpkt p) = WriteClean →
      outstandingCMO x !! id p = None → routes x !! qreq p = None →
      routes x' = <[qreq p := i]> (routes x) → outstandingSnoop x' = outstandingSnoop x →
      outstandingCMO x' = <[id p := Some p]> (outstandingCMO x) → snoopFilter x' = snoopFilter x →
      clean_case d rd p i x false None i x'.

Lemma match_clean_spec d rd p i x rd' q j x' : match_clean pr d rd p i x = Ok (rd', q, j, x') → clean_case d rd p i x rd' q j x'.
Proof.
  unfold match_clean. destruct (_ && d) eqn:Hc; intros H.
  2:{ injection H as <- <- <- <-. constructor. destruct d; [|done]. rewrite andb_true_r in Hc. apply orb_false_iff in Hc as [Hc _]. done. }
  apply andb_true_iff in Hc as [Hc ->].
  assert (isClean (cmd (qpkt p)) = true ∨ cmd (qpkt p) = WriteClean) as Hk.
  { apply orb_true_iff in Hc as [Hc|Hc]; [left; by apply andb_true_iff in Hc as [? _]|right; by apply bool_decide_eq_true in Hc]. }
  destruct (outstandingCMO x !! id p) as [o|] eqn:Ho.
  - apply bind_Ok in H as ([[q0 j0] x1] & H1 & H). injection H as <- <- <- <-. destruct (isWrite (cmd (qpkt p))) eqn:Hw.
    + destruct o as [q1|]; [|done]. destruct (routes x !! qreq q1) as [j1|] eqn:Hr; [|done]. apply bind_Ok in H1 as ([] & _ & H1).
      apply bind_Ok in H1 as ([] & _ & H1). injection H1 as <- <- <-. by apply cc_complete.
    + injection H1 as <- <- <-. by eapply cc_found.
  - apply bind_Ok in H as (x1 & H1 & H). injection H as <- <- <- <-. destruct (isWrite (cmd (qpkt p))) eqn:Hw; simpl in H1.
    + injection H1 as <-. by apply cc_write.
    + apply add_route_spec in H1 as (Hn & Hr & Hs & Hcm & Hf). by apply cc_wait.
Qed.

(** ** Responding here *)

Lemma makeResponse_about k k' : makeResponse k = Ok k' → about k k'.
Proof. unfold makeResponse. intros H. apply bind_Ok in H as ([] & _ & H). apply bind_Ok in H as ([] & _ & H). by injection H as <-. Qed.

(** The route of a response and what its filter makes of it. *)
Lemma update_response_filter j k k' t x x' : filter_inv (snoopFilter x) [(j, k)] t → known pr j k → asks k = true → about k k' →
  with_filter (λ sf, rsp_port ← port_at pr j; SnoopFilter.updateResponse sf k' rsp_port) x = Ok x' →
  same_but_filter x x' ∧ filter_inv (snoopFilter x') [] t.
Proof.
  intros Hf Hk Ha Hab H. apply with_filter_spec in H as (Hr & Hs & Hc & _ & H). split; [done|].
  destruct (snoopFilter x) as [sf|]; [|by rewrite H]. destruct H as (sf' & H & ->). apply bind_Ok in H as (port & Hp & H).
  eapply response_filter; try done. by left.
Qed.

Lemma respond_spec now d q j x w q' x' w' k t : respond pr schedTimingResp now d q j x w = Ok (q', x', w') →
  filter_inv (snoopFilter x) [(j, k)] t → known pr j k → asks k = true → about k (qpkt q) →
  log w' = log w ++ [(qreq q, Cpu j)] ∧ same_but_filter x x' ∧ filter_inv (snoopFilter x') [] t.
Proof.
  unfold respond. intros H Hf Hk Ha Hab. apply bind_Ok in H as ([] & _ & H). apply bind_Ok in H as (k1 & Hk1 & H). apply makeResponse_about in Hk1.
  apply bind_Ok in H as (x1 & H1 & H). rewrite snooping in H1. simpl in H1. destruct (edge_at pr now 0 x1) as [e x2] eqn:He.
  injection H as <- <- <-. apply edge_at_tables, same_tables_but in He as [He Hfe].
  apply (update_response_filter j k) with (t := t) in H1 as [Hs1 Hf1]; [|done|done|done|by eapply about_trans].
  split; [by rewrite n_sched|]. split; [by etrans|]. by rewrite Hfe.
Qed.

(** ** A request *)

(** What becomes of a request: refused, taken without a response to come, owed a response,
    answered at once, or the write that a clean request waited for. *)
Inductive turn (t : Table) (p : CohPacket) (i : Z) : bool → list (positive * Place) → Table → Prop :=
  | tn_refused : turn t p i false [] t
  | tn_quiet : asks (qpkt p) = false → turn t p i true [] t
  | tn_owed s : asks (qpkt p) = true → turn t p i true [] (<[qreq p := mkEntry (Cpu i) s (qpkt p)]> t)
  | tn_answered : asks (qpkt p) = true → turn t p i true [(qreq p, Cpu i)] t
  | tn_completed r e : asks (qpkt p) = false → t !! r = Some e → turn t p i true [(r, e_place e)] (delete r t).

(** The environment's part of a request: it is not outstanding, a clean request waits for
    one write and is not answered by a cache. *)
Record fair_request (x : CoherentXBar) (t : Table) (p : CohPacket) (i : Z) : Prop := {
  fr_request : isRequest (cmd (qpkt p)) = true;
  fr_new : t !! qreq p = None;
  fr_clean : isClean (cmd (qpkt p)) = true → cacheResponding (qpkt p) = false ∧ ∀ q, outstandingCMO x !! id p ≠ Some (Some q);
  fr_known : asks (qpkt p) = true → known pr i (qpkt p)
}.

Definition answer_tail (now : Z) (rd : bool) (q : option CohPacket) (j : Z) (p : CohPacket) (x : CoherentXBar) (w : W) : result (bool * CohPacket * CoherentXBar * W) :=
  if rd then
    '(rsp_pkt, x, w) ← respond pr schedTimingResp now (headerDelay (xp p)) (default p q) j x w;
    Ok (true, if q is Some _ then p else rsp_pkt, x, w)
  else Ok (true, p, x, w).

(** A request that needs no response here. *)
Lemma quiet_tail now d p0 p i x w rd q j x1 b p' x' w' t : asks (qpkt p0) = false → Inv x t →
  clean_case d false p i x rd q j x1 → (d = true → isClean (cmd (qpkt p)) = false) →
  answer_tail now rd q j p x1 w = Ok (b, p', x', w') → ∃ out t', turn t p0 i b out t' ∧ log w' = log w ++ out ∧ Inv x' t'.
Proof.
  intros Ha [Ht Hf] Hcc Hd H. destruct Hcc as [Hc|q j x1 -> Hw Hq Hr _ Hr1 Hs1 Hc1 Hf1|o x1 -> Hw Hk Ho Hs1|x1 -> Hw Hk Ho Hs1|x1 -> Hw Hk Ho Hr Hr1 Hs1 Hc1 Hf1].
  - injection H as <- <- <- <-. exists [], t. rewrite app_nil_r. split; [by apply tn_quiet|done].
  - destruct (ti_clean _ _ _ Ht _ _ Hq) as (e & He & Hsrc & Hab). pose proof (ti_entry _ _ _ Ht _ _ He) as Hen.
    rewrite (ti_routes _ _ _ Ht), lookup_fmap, He in Hr. injection Hr as Hj. destruct (e_place e) as [i'|] eqn:Hpl; [|congruence].
    simpl in Hj. subst i'. destruct Hen as (Hae & Hke & Hpe). unfold answer_tail in H. simpl in H.
    apply bind_Ok in H as ([[rp x2] w2] & H & H2). injection H2 as <- <- <- <-.
    assert (table_inv x1 (delete (qreq q) t)) as Ht1.
    { apply (table_inv_delete pr x x1 t (qreq q) e); [done|done|done| |].
      - rewrite Hs1. assert (qreq q ∉ outstandingSnoop x); [|set_solver]. intros (e' & He' & Hs' & _)%(ti_snoops _ _ _ Ht). congruence.
      - rewrite decide_True by done. by exists (id p), q. }
    rewrite <-Hf1 in Hf. apply (filter_inv_delete pr _ _ _ _ _ He Hpl) in Hf.
    destruct (respond_spec now (headerDelay (xp p)) q j x1 w rp x2 w2 (e_pkt e) (delete (qreq q) t)) as (Hl & Hs & Hf2); [done..|].
    exists [(qreq q, Cpu j)], (delete (qreq q) t). split; [rewrite <-Hpl; by apply tn_completed|]. split; [done|]. split; [by eapply table_inv_same|done].
  - exfalso. specialize (Hd eq_refl). destruct Hk as [Hk|Hk]; [congruence|]. by rewrite Hk in Hw.
  - injection H as <- <- <- <-. exists [], t. rewrite app_nil_r. split; [by apply tn_quiet|]. split; [done|]. eapply Inv_same; [done|]. split; [|done].
    eapply (table_inv_cmo pr x _ t (id p)); [done|done|done| |by right]. intros q'. by rewrite Ho.
  - exfalso. specialize (Hd eq_refl). destruct Hk as [Hk|Hk]; [congruence|]. by rewrite Hk in Hw.
Qed.

(** A request that the crossbar answers itself, or that waits for its write. *)
Lemma direct_tail now d p0 p i x w rd q j x1 b p' x' w' t : fair_request x t p0 i → (∃ port, port_at pr i = Ok port) →
  asks (qpkt p0) = true → same_request p0 p → cmd (qpkt p) = cmd (qpkt p0) → table_inv x t → filter_inv (snoopFilter x) [(i, qpkt p0)] t →
  clean_case d true p i x rd q j x1 →
  answer_tail now rd q j p x1 w = Ok (b, p', x', w') → ∃ out t', turn t p0 i b out t' ∧ log w' = log w ++ out ∧ Inv x' t'.
Proof.
  intros [Hreq Hnew Hcl Hkn] Hport Ha Hsr Hcmd Ht Hf Hcc H. specialize (Hkn Ha). pose proof (same_request_about _ _ Hsr) as Hab.
  pose proof Ha as Ha'. unfold asks in Ha'. apply andb_true_iff in Ha' as [Hn _].
  assert (isClean (cmd (qpkt p)) = true ∨ cmd (qpkt p) = WriteClean → isWrite (cmd (qpkt p)) = false ∧ isClean (cmd (qpkt p0)) = true) as Hcw.
  { rewrite Hcmd. intros [Hk|Hk]; [|by rewrite Hk in Hn]. split; [|done]. by apply clean_kind. }
  assert (∀ xa, same_but_filter x xa ∨ (∃ o, outstandingCMO x !! id p = Some o ∧ isClean (cmd (qpkt p0)) = true ∧
      same_but_filter (set_outstandingCMO (delete (id p) (outstandingCMO x)) x) xa) → snoopFilter xa = snoopFilter x →
    answer_tail now true None i p xa w = Ok (b, p', x', w') → ∃ out t', turn t p0 i b out t' ∧ log w' = log w ++ out ∧ Inv x' t') as Hans.
  { intros xa Hxa Hfa Hta. unfold answer_tail in Hta. simpl in Hta. apply bind_Ok in Hta as ([[rp x2] w2] & Hta & H2). injection H2 as <- <- <- <-.
    rewrite <-Hfa in Hf. destruct (respond_spec now (headerDelay (xp p)) p i xa w rp x2 w2 (qpkt p0) t) as (Hl & Hs & Hf2); [done..|].
    exists [(qreq p0, Cpu i)], t. split; [by apply tn_answered|]. split; [by rewrite Hl, (sr_req _ _ Hsr)|]. split; [|done].
    apply (table_inv_same pr _ _ _ Hs). destruct Hxa as [Hxa|(o & Ho & Hclean & Hxa)]; [by eapply table_inv_same|].
    apply (table_inv_same pr _ _ _ Hxa). eapply (table_inv_cmo pr x _ t (id p)); [done|done|done| |by left].
    rewrite (sr_id _ _ Hsr). by apply Hcl. }
  destruct Hcc as [Hc|q j x1 -> Hw Hq Hr Hk Hr1 Hs1 Hc1 Hf1|o x1 -> Hw Hk Ho Hs1|x1 -> Hw Hk Ho Hs1|x1 -> Hw Hk Ho Hr Hr1 Hs1 Hc1 Hf1].
  - apply (Hans x); [by left|done|done].
  - destruct (Hcw Hk) as [Hw' _]. congruence.
  - destruct (Hcw Hk) as [_ Hck]. apply same_tables_but in Hs1 as [Hs1 Hf1]. apply (Hans x1); [right; by exists o|done|done].
  - destruct (Hcw Hk) as [Hw' _]. congruence.
  - injection H as <- <- <- <-. exists [], (<[qreq p0 := mkEntry (Cpu i) Waiting (qpkt p0)]> t). rewrite app_nil_r. split; [by apply tn_owed|]. split; [done|].
    split; [|rewrite Hf1; by apply filter_inv_insert]. rewrite <-(sr_req _ _ Hsr). rewrite <-(sr_req _ _ Hsr) in Hnew.
    by apply (table_inv_wait pr x x1 t i p).
Qed.

(** A request that is owed an answer by memory or a cache. *)
Lemma owed_tail now d p0 p i x0 x w rd q j x1 b p' x' w' t es : fair_request x0 t p0 i → (∃ port, port_at pr i = Ok port) →
  asks (qpkt p0) = true → table_inv x0 t → filter_inv (snoopFilter x0) [(i, qpkt p0)] t →
  outstandingCMO x = outstandingCMO x0 → snoopFilter x = snoopFilter x0 → routes x = <[qreq p0 := i]> (routes x0) →
  outstandingSnoop x = (if es : bool then {[qreq p0]} ∪ outstandingSnoop x0 else outstandingSnoop x0) →
  clean_case d false p i x rd q j x1 → (d = true → isClean (cmd (qpkt p)) = false) → cmd (qpkt p) ≠ WriteClean →
  answer_tail now rd q j p x1 w = Ok (b, p', x', w') → ∃ out t', turn t p0 i b out t' ∧ log w' = log w ++ out ∧ Inv x' t'.
Proof.
  intros [Hreq Hnew Hcl Hkn] Hport Ha Ht Hf Hc Hfi Hr Hs Hcc Hd Hwc H. specialize (Hkn Ha).
  destruct Hcc as [_|q j x1 -> Hw Hq _ Hk Hr1 Hs1 Hc1 Hf1|o x1 -> Hw Hk Ho Hs1|x1 -> Hw Hk Ho Hs1|x1 -> Hw Hk Ho _ Hr1 Hs1 Hc1 Hf1].
  2-5: exfalso; specialize (Hd eq_refl); destruct Hk as [Hk|Hk]; congruence.
  injection H as <- <- <- <-. exists [], (<[qreq p0 := mkEntry (Cpu i) (if es then Snooper else Memory) (qpkt p0)]> t). rewrite app_nil_r.
  split; [by apply tn_owed|]. split; [done|]. split; [by apply (table_inv_insert pr x0)|]. rewrite Hfi. by apply filter_inv_insert.
Qed.

(** What the filter knows of the request when [finish_timing] starts. *)
Definition looked_up (sc : bool) (f : option SnoopFilter.SnoopFilter) (k : Packet) (i : Z) (t : Table) : Prop :=
  if sc then match f with
             | Some sf1 => ∃ sf port, filter_inv (Some sf) [] t ∧ port_at pr i = Ok port ∧ looked sf port k sf1
             | None => True
             end
  else asks k = false ∧ filter_inv f [] t.

Lemma finish_filter (sc s : bool) a k i t x p x1 : looked_up sc (snoopFilter x) k i t →
  (if sc then with_filter (λ sf, sec ← isSecure (qpkt p); SnoopFilter.finishRequest sf (negb s) a sec) x else Ok x) = Ok x1 →
  same_but_filter x x1 ∧ filter_inv (snoopFilter x1) (if s then [(i, k)] else []) t.
Proof.
  intros Hl H. destruct sc; simpl in Hl.
  - apply with_filter_spec in H as (Hr & Hs & Hc & _ & H). split; [done|]. destruct (snoopFilter x) as [sf1|].
    + destruct H as (sf2 & H & ->). apply bind_Ok in H as (sec & _ & H). destruct Hl as (sf & port & Hf & Hp & Hlk).
      pose proof (looked_filter pr numbered _ _ _ _ _ _ _ _ _ _ Hf Hp Hlk H) as Hf2. by destruct s.
    + rewrite H. by intros sf.
  - injection H as <-. split; [done|]. destruct Hl as [Ha Hf]. destruct s; [|done]. by apply filter_inv_quiet.
Qed.

Lemma finish_timing_spec now old pft p0 p i k x w b p' x' w' t sc :
  finish_timing pr sendTimingReq schedTimingResp now old pft (cacheResponding (qpkt p0)) (cacheResponding (qpkt p0)) (isDestination pr p) sc p i k x w
    = Ok (b, p', x', w') →
  snooped p0 p → fair_request x t p0 i → (∃ port, port_at pr i = Ok port) → table_inv x t → looked_up sc (snoopFilter x) (qpkt p0) i t →
  ∃ out t', turn t p0 i b out t' ∧ log w' = log w ++ out ∧ Inv x' t'.
Proof.
  unfold finish_timing. intros H (Hsr & Hcmd & Hcr) Hfair Hport Ht Hlk. pose proof Hfair as [Hreq Hnew Hcl Hkn].
  apply bind_Ok in H as (a & _ & H). apply bind_Ok in H as ([[[s rd] p2] w2] & Hp & H).
  apply pass_request_spec in Hp as (Hl & Hsr2 & Hcmd2 & Hrd); [|by rewrite Hcmd|done|rewrite Hcmd; intros Hc; rewrite Hcr; [by apply Hcl|by right; left]].
  rewrite <-Hl. apply bind_Ok in H as (x1 & H1 & H). apply (finish_filter sc s a (qpkt p0) i t) in H1 as [Hx1 Hf1]; [|done].
  assert (table_inv x1 t) as Ht1 by (by eapply table_inv_same). assert (same_request p0 p2) as Hsr02 by (by etrans).
  assert (fair_request x1 t p0 i) as Hfair1 by (destruct Hx1 as (_ & _ & Hc1); constructor; [done|done|by rewrite Hc1|done]).
  assert (isDestination pr p = isDestination pr p0) as Hdest by (by apply isDestination_same).
  destruct s; cbn [negb] in H.
  2:{ apply bind_Ok in H as ([] & _ & H). destruct (edge_at pr now 1 x1) as [e x2] eqn:He. apply edge_at_tables in He.
      apply bind_Ok in H as (x3 & H3 & H). apply reqLayer_tables in H3. injection H as <- <- <- <-. exists [], t. rewrite app_nil_r.
      split; [constructor|]. split; [done|]. apply (Inv_same pr x1); [by transitivity x2|by split]. }
  apply bind_Ok in H as (x2 & H2 & H). apply bind_Ok in H as ([[[rd' q] j] x3] & Hcc & H). apply match_clean_spec in Hcc. change (answer_tail now rd' q j p2 x3 w2 = Ok (b, p', x', w')) in H.
  set (es := negb (cacheResponding (qpkt p0)) && cacheResponding (qpkt p)) in *.
  set (er := needsResponse (cmd (qpkt p)) && negb (cacheResponding (qpkt p)) && negb rd) in *.
  destruct (asks (qpkt p0)) eqn:Ha.
  - pose proof Ha as Ha'. unfold asks in Ha'. apply andb_true_iff in Ha' as [Hn Hc0]. apply negb_true_iff in Hc0. rewrite Hc0 in H2. simpl in H2.
    apply bind_Ok in H2 as (x4 & H4 & H2). apply reqLayer_tables, same_tables_but in H2 as [Hx24 Hf24].
    apply record_request_spec in H4 as (Hc4 & Hf4 & Hs4 & Hr4). destruct Hx24 as (Hr24 & Hs24 & Hc24). rewrite (sr_req _ _ Hsr02) in *.
    assert (es = cacheResponding (qpkt p)) as Hes by (unfold es; by rewrite Hc0).
    assert (er = negb es && negb rd) as Her by (unfold er; by rewrite Hcmd, Hn, Hes).
    destruct rd.
    + destruct Hrd as (_ & -> & Hes0 & _). rewrite Her, Hes0 in Hr4. simpl in Hr4. rewrite Hes0 in Hs4.
      assert (same_but_filter x1 x2) as Hx12 by (split_and!; congruence).
      eapply (direct_tail now _ p0 p i x2); [| |done|done|done| | |exact Hcc|exact H]; [|done| |rewrite Hf24, Hf4; exact Hf1].
      * destruct Hx12 as (_ & _ & Hc12). constructor; [done|done|by rewrite Hc12; apply Hfair1|intros _; by apply Hkn].
      * by eapply table_inv_same.
    + rewrite Her in Hr4. replace (negb es && negb false || es) with true in Hr4 by (by destruct es). destruct Hr4 as [Hn4 Hr4].
      eapply (owed_tail now _ p0 p2 i x1 x2 w2 rd' q j x3 b p' x' w' t es); try done; [congruence|congruence|congruence|by rewrite Hs24|].
      destruct Hcmd2 as [->|[_ ->]]; rewrite Hcmd; [by intros Hw; rewrite Hw in Hn|by apply response_not_write_clean].
  - assert (rd = false) as ->.
    { destruct rd; [|done]. destruct Hrd as (_ & _ & _ & Hrd). unfold asks in Ha, Hrd. rewrite Hcmd in Hrd.
      destruct (needsResponse (cmd (qpkt p0))) eqn:Hn; [|done]. simpl in Ha. apply negb_false_iff in Ha. rewrite Hcr, Ha in Hrd; [done|by left]. }
    assert (es = false ∧ er = false ∨ cacheResponding (qpkt p0) = true) as Hee.
    { unfold asks in Ha. destruct (cacheResponding (qpkt p0)) eqn:Hc0; [by right|left]. rewrite andb_true_r in Ha. unfold es, er.
      rewrite Hcmd, Ha, Hcr; [done|by right; right]. }
    assert (Inv x2 t) as HI2.
    { assert (Inv x1 t) as HI1 by (split; [done|by eapply filter_inv_quiet]). destruct (cacheResponding (qpkt p0)) eqn:Hc0; simpl in H2.
      - by injection H2 as <-.
      - destruct Hee as [[He1 He2]|]; [|done]. rewrite He1, He2 in H2. apply bind_Ok in H2 as (x4 & H4 & H2). injection H4 as <-.
        apply reqLayer_tables in H2. by eapply Inv_same. }
    by eapply (quiet_tail now _ p0 p2 i x2).
Qed.

Lemma recvTimingReq_turn now p i x w b p' x' w' t :
  recvTimingReq pr sendTimingReq tryTimingReq sendTimingSnoopReq schedTimingResp now p i x w = Ok (b, p', x', w') →
  Inv x t → fair_request x t p i → ∃ out t', turn t p i b out t' ∧ log w' = log w ++ out ∧ Inv x' t'.
Proof.
  unfold recvTimingReq. intros H [Ht Hf] Hfair. apply bind_Ok in H as (port & Hport & H). apply bind_Ok in H as ([] & Heq & H).
  apply assert_ok_true, eqb_prop in Heq. rewrite Heq in H. apply bind_Ok in H as ([k b0] & Hfp & H). apply findPort_tables in Hfp.
  apply bind_Ok in H as ([ok x1] & H1 & H).
  assert (same_tables x x1) as Hx1. { destruct (cacheResponding _); [by injection H1 as <- <-|]. apply tryReqLayer_tables in H1. by etrans. }
  destruct ok; cbn [negb] in H.
  2:{ injection H as <- <- <- <-. exists [], t. rewrite app_nil_r. split; [constructor|]. split; [done|]. by eapply Inv_same. }
  apply bind_Ok in H as ([p1 x2] & H2 & H). apply packet_timing_tables in H2 as [Hx2 Hp1].
  destruct (edge_at pr now (headerLatency pr) x2) as [e x3] eqn:He. apply edge_at_tables in He.
  assert (same_tables x x3) as Hx3 by (do 2 (etrans; [done|]); done). clear Hx1 Hx2 He Hfp. cbv zeta in H.
  apply bind_Ok in H as ([[[go p2] x4] w4] & H4 & H). set (sc := negb (bypassCaches pr) && _) in *.
  pose proof Hp1 as (Hk1 & Hq1 & _).
  assert (log w4 = log w ∧ snooped p1 p2 ∧ same_but_filter x3 x4 ∧ if go then looked_up sc (snoopFilter x4) (qpkt p) i t else x4 = x3) as (Hl4 & Hp2 & Hx4 & Hgo).
  { destruct sc eqn:Hsc.
    - apply snoop_request_spec in H4 as (Hl & Hs & Hx & H4). split; [done|]. split; [done|]. split; [done|]. destruct go; [|done]. simpl.
      destruct Hx3 as (_ & _ & _ & Hf3). rewrite Hf3 in H4. destruct (snoopFilter x) as [sf|].
      + destruct H4 as (port' & sf1 & Hp' & Hlk & ->). rewrite Hk1 in Hlk. by exists sf, port'.
      + by rewrite H4.
    - injection H4 as <- <- <- <-. split; [done|]. split; [done|]. split; [done|]. split.
      + unfold sc in Hsc. rewrite snooping in Hsc. simpl in Hsc. apply negb_false_iff, bool_decide_eq_true in Hsc. rewrite Hk1 in Hsc.
        unfold asks. by rewrite Hsc.
      + destruct Hx3 as (_ & _ & _ & ->). done. }
  rewrite <-Hl4. destruct go; simpl in H.
  - eapply (finish_timing_spec now _ _ p p2 i k x4 w4 b p' x' w' t sc).
    + rewrite (isDestination_same pr p1 p2) by apply Hp2. exact H.
    + etrans; [by apply same_packet_snooped|done].
    + destruct Hfair as [Hr1 Hr2 Hr3 Hr4]. destruct Hx4 as (_ & _ & Hc4), Hx3 as (_ & _ & Hc3 & _). constructor; [done|done|by rewrite Hc4, Hc3|done].
    + by exists port.
    + eapply table_inv_same; [done|]. apply same_tables_but in Hx3 as [Hx3 _]. by eapply table_inv_same.
    + done.
  - subst x4. destruct (edge_at pr now 1 x3) as [e' x5] eqn:He. apply edge_at_tables in He. apply bind_Ok in H as (x6 & H6 & H).
    apply reqLayer_tables in H6. injection H as <- <- <- <-. exists [], t. rewrite app_nil_r. split; [constructor|]. split; [done|].
    apply (Inv_same pr x); [|by split]. transitivity x3; [done|]. etrans; [|exact H6]. done.
Qed.

End Crossbar.
End CoherentSteps.
