(* ===== verification/CoherentRuns.v ===== *)
(** * mem/coherent_xbar: runs of a crossbar and its neighbours *)

From Stdlib Require Import ZArith Lia.
From stdpp Require Import base numbers option list gmap relations.
From S2P Require Import Prelude Flags AddrRange AddrRangeMap Clocked Packet PacketProps XBarLayer XBar XBarProps.
From S2P Require Import SnoopFilter SnoopFilterProps CoherentXBar CoherentFilter CoherentInv CoherentSteps.

Module CoherentRuns.
Import Packet XBarLayer XBar CoherentXBar CoherentFilter CoherentLemmas CoherentInv CoherentSteps.

(** ** The table after an operation, as the tables of the crossbar show it *)

Definition source_of (x : CoherentXBar) (r : positive) : Source :=
  if bool_decide (r ∈ outstandingSnoop x) then Snooper
  else if existsb (λ cq, match cq.2 with Some q => (qreq q =? r)%positive | None => false end) (map_to_list (outstandingCMO x))
  then Waiting else Memory.

Definition after_request (b : bool) (p : CohPacket) (i : Z) (x' : CoherentXBar) (t : Table) : Table :=
  if negb b then t
  else
    let t := filter (λ re, is_Some (routes x' !! re.1)) t in
    if asks (qpkt p) && bool_decide (is_Some (routes x' !! qreq p))
    then <[qreq p := mkEntry (Cpu i) (source_of x' (qreq p)) (qpkt p)]> t else t.

Definition after_snoop (p : CohPacket) (x' : CoherentXBar) (t : Table) : Table :=
  match routes x' !! qreq p with Some k => <[qreq p := mkEntry (Mem k) Snooper (qpkt p)]> t | None => t end.

Definition after_response (b : bool) (p : CohPacket) (t : Table) : Table := if b then delete (qreq p) t else t.

Section Crossbar.
Context {W : Type} (pr : CohParams) (log : W → list (positive * Place)).
Context {sendTimingReq : Z → CohPacket → W → bool * CohPacket * W} {tryTimingReq : Z → CohPacket → W → bool * W}.
Context {sendTimingSnoopReq : Z → CohPacket → W → CohPacket * W} {sendTimingSnoopResp : Z → CohPacket → W → bool * CohPacket * W}.
Context {schedTimingResp : Z → CohPacket → Z → W → W}.
Context `{HN : !Neighbours log sendTimingReq tryTimingReq sendTimingSnoopReq sendTimingSnoopResp schedTimingResp}.
Hypothesis snooping : bypassCaches pr = false.
Hypothesis numbered : ∀ i p, port_at pr i = Ok p → getId p = i.

#[local] Notation Inv := (Inv pr).
#[local] Notation table_inv := (table_inv pr).
#[local] Notation filter_inv := (filter_inv pr).

Lemma source_of_entry x t r e : table_inv x t → t !! r = Some e → to_cpu e = true → source_of x r = e_source e.
Proof.
  clear. intros Ht Hr Hc. unfold source_of. case_bool_decide as Hs.
  { apply (ti_snoops _ _ _ Ht) in Hs as (e' & He' & Hs & _). congruence. }
  destruct (existsb _ _) eqn:Hx.
  - apply existsb_exists in Hx as ([c [q|]] & Hin & Hq); [|done]. apply list_elem_of_In, elem_of_map_to_list in Hin. apply Pos.eqb_eq in Hq.
    destruct (ti_clean _ _ _ Ht _ _ Hin) as (e' & He' & Hs' & _). simpl in Hq. congruence.
  - destruct (e_source e) eqn:Hsrc; [done| |].
    + destruct Hs. apply (ti_snoops _ _ _ Ht). by exists e.
    + destruct (ti_waiting _ _ _ Ht _ _ Hr Hsrc) as (c & q & Hq & Hqr). apply elem_of_map_to_list, list_elem_of_In in Hq.
      assert (existsb (λ cq, match cq.2 with Some q => (qreq q =? r)%positive | None => false end) (map_to_list (outstandingCMO x)) = true) as Hy; [|congruence].
      apply existsb_exists. exists (c, Some q). split; [done|]. by apply Pos.eqb_eq.
Qed.

Lemma routes_Some x t r : table_inv x t → is_Some (routes x !! r) ↔ is_Some (t !! r).
Proof. clear. intros Ht. by rewrite (ti_routes _ _ _ Ht), lookup_fmap, fmap_is_Some. Qed.

Lemma keep_routes x (t t' : Table) : table_inv x t' → (∀ r e, t !! r = Some e → is_Some (t' !! r)) →
  filter (λ re : positive * Entry, is_Some (routes x !! re.1)) t = t.
Proof.
  clear. intros Ht Hsub. apply map_filter_id. intros r e Hr. simpl. apply (routes_Some _ _ _ Ht). by eapply Hsub.
Qed.

Lemma turn_after t p i b out t' x' : turn t p i b out t' → t !! qreq p = None → table_inv x' t' → t' = after_request b p i x' t.
Proof.
  clear. intros H Hnew Ht. unfold after_request. destruct H as [|Ha|s Ha|Ha|r e Ha Hr]; [done| | | |]; cbn [negb].
  - rewrite (keep_routes x' t t Ht) by (by eauto). by rewrite Ha.
  - rewrite (keep_routes x' t _ Ht) by (intros r e Hr; rewrite lookup_insert_ne; [by eexists|congruence]).
    rewrite Ha. simpl. rewrite bool_decide_true by (apply (routes_Some _ _ _ Ht); rewrite lookup_insert_eq; by eexists).
    rewrite (source_of_entry x' _ (qreq p) (mkEntry (Cpu i) s (qpkt p)) Ht); [done|apply lookup_insert_eq|done].
  - rewrite (keep_routes x' t t Ht) by (by eauto). rewrite bool_decide_false; [by rewrite andb_false_r|].
    rewrite (routes_Some _ _ _ Ht), Hnew. by intros [].
  - rewrite Ha. simpl. symmetry. apply map_eq. intros r'. rewrite map_lookup_filter. simpl. destruct (decide (r' = r)) as [->|Hne].
    + rewrite Hr, lookup_delete_eq. simpl. rewrite option_guard_False; [done|]. rewrite (routes_Some _ _ _ Ht), lookup_delete_eq. by intros [].
    + rewrite lookup_delete_ne by done. destruct (t !! r') as [e'|] eqn:Hr'; [|done]. simpl. rewrite option_guard_True; [done|].
      apply (routes_Some _ _ _ Ht). rewrite lookup_delete_ne by done. by eexists.
Qed.

Lemma turn_conserves t p i b out t' : turn t p i b out t' → t !! qreq p = None →
  (if b && asks (qpkt p) then [(qreq p, Cpu i)] else []) ++ owed_list t ≡ₚ out ++ owed_list t'.
Proof.
  clear. intros H Hnew. destruct H as [|Ha|s Ha|Ha|r e Ha Hr]; rewrite ?Ha; simpl; try done.
  - by rewrite owed_list_insert.
  - by rewrite (owed_list_delete t r e Hr).
Qed.

(** ** Responses *)

(** A response leaves the table and the filter. *)
Lemma leave_inv x x' t r e : Inv x t → t !! r = Some e → e_source e ≠ Waiting →
  routes x' = delete r (routes x) → outstandingSnoop x' = outstandingSnoop x ∖ {[r]} → outstandingCMO x' = outstandingCMO x →
  (∀ i, e_place e = Cpu i → filter_inv (snoopFilter x) [(i, e_pkt e)] (delete r t) → filter_inv (snoopFilter x') [] (delete r t)) →
  (∀ k, e_place e = Mem k → filter_inv (snoopFilter x) [] (delete r t) → filter_inv (snoopFilter x') [] (delete r t)) → Inv x' (delete r t).
Proof.
  clear. intros [Ht Hf] Hr Hw Hro Hs Hc Hcpu Hmem. split.
  - apply (table_inv_delete pr x x' t r e); [done|done|done|done|]. by rewrite decide_False.
  - destruct (e_place e) as [i|k] eqn:Hp.
    + apply (Hcpu i); [done|]. by apply filter_inv_delete.
    + apply (Hmem k); [done|]. intros sf Hsf. destruct (Hf sf Hsf) as [Hports Htr]. split; [done|]. simpl in *.
      eapply tracks_perm; [|exact Htr]. rewrite (keys_delete pr _ _ _ _ Hr). unfold key. by rewrite Hp.
Qed.

Lemma recvTimingResp_keeps now p k x w b p' x' w' t e :
  recvTimingResp pr schedTimingResp now p k x w = Ok (b, p', x', w') → Inv x t →
  t !! qreq p = Some e → e_source e = Memory → about (e_pkt e) (qpkt p) →
  log w' = log w ++ (if b then [(qreq p, e_place e)] else []) ∧ Inv x' (after_response b p t).
Proof.
  unfold recvTimingResp. intros H HI Hr Hsrc Hab. pose proof HI as [Ht Hf]. pose proof (ti_entry _ _ _ Ht _ _ Hr) as Hen.
  destruct (e_place e) as [i|] eqn:Hp; [|congruence]. destruct Hen as (Ha & Hk & _).
  rewrite (ti_routes _ _ _ Ht), lookup_fmap, Hr in H. cbn [fmap option_fmap option_map] in H. rewrite Hp in H. cbn [port_of] in H.
  apply bind_Ok in H as ([] & _ & H). apply bind_Ok in H as ([] & _ & H). apply bind_Ok in H as ([ok x1] & H1 & H). apply tryRespLayer_tables in H1.
  destruct ok; cbn [negb] in H.
  2:{ injection H as <- <- <- <-. rewrite app_nil_r. split; [done|]. by eapply Inv_same. }
  apply bind_Ok in H as ([p1 x2] & H2 & H). apply packet_timing_tables in H2 as [Hx2 (Hk1 & Hq1 & _)].
  destruct (edge_at pr now (headerLatency pr) x2) as [ed x3] eqn:He. apply edge_at_tables in He.
  assert (same_tables x x3) as Hx3 by (transitivity x1; [done|]; by transitivity x2).
  apply bind_Ok in H as (x4 & H4 & H). rewrite snooping in H4. cbn [negb] in H4. cbv zeta in H. apply bind_Ok in H as (x5 & H5 & H).
  apply respLayer_tables in H5. injection H as <- <- <- <-. split; [rewrite n_sched; change (qreq (set_header 0 p1)) with (qreq p1); by rewrite Hq1, ?Hp|].
  destruct Hx3 as (Hr3 & Hs3 & Hc3 & Hf3). destruct H5 as (Hr5 & Hs5 & Hc5 & Hf5). change (routes x5 = base.delete (qreq p1) (routes x4)) in Hr5. simpl in Hs5, Hc5, Hf5.
  pose proof (with_filter_spec _ _ _ H4) as (Hr4 & Hs4 & Hc4 & _ & _). unfold after_response.
  apply (leave_inv x x5 t (qreq p) e); [done|done|congruence| | |congruence| |by intros k' Hk'; congruence].
  - by rewrite Hr5, Hr4, Hr3, Hq1.
  - assert (qreq p ∉ outstandingSnoop x); [|set_solver]. intros (e' & He' & Hs' & _)%(ti_snoops _ _ _ Ht). congruence.
  - intros i' Hi' Hfi. rewrite Hp in Hi'. injection Hi' as <-. rewrite <-Hf3 in Hfi.
    apply (update_response_filter pr numbered i (e_pkt e)) with (t := delete (qreq p) t) in H4 as [_ Hf4]; [|done|done|done|by rewrite Hk1].
    by rewrite Hf5.
Qed.

Lemma recvTimingSnoopResp_keeps now p i x w b p' x' w' t e :
  recvTimingSnoopResp pr sendTimingSnoopResp schedTimingResp now p i x w = Ok (b, p', x', w') → Inv x t →
  t !! qreq p = Some e → e_source e = Snooper → about (e_pkt e) (qpkt p) →
  log w' = log w ++ (if b then [(qreq p, e_place e)] else []) ∧ Inv x' (after_response b p t).
Proof.
  unfold recvTimingSnoopResp. intros H HI Hr Hsrc Hab. pose proof HI as [Ht Hf]. pose proof (ti_entry _ _ _ Ht _ _ Hr) as Hen.
  apply bind_Ok in H as (port & _ & H).
  rewrite (ti_routes _ _ _ Ht), lookup_fmap, Hr in H. cbn [fmap option_fmap option_map] in H.
  set (dest := port_of (e_place e)) in *. apply bind_Ok in H as ([] & _ & H). cbv zeta in H.
  assert (bool_decide (qreq p ∉ outstandingSnoop x) = negb (to_cpu e)) as Hfwd.
  { destruct (to_cpu e) eqn:Hc; [apply bool_decide_eq_false; intros Hn; apply Hn|apply bool_decide_eq_true; intros Hn].
    - apply (ti_snoops _ _ _ Ht). by exists e.
    - apply (ti_snoops _ _ _ Ht) in Hn as (e' & He' & _ & Hc'). congruence. }
  rewrite Hfwd in H. apply bind_Ok in H as ([ok x1] & H1 & H).
  assert (same_tables x x1) as Hx1.
  { destruct (negb (to_cpu e)); apply bind_Ok in H1 as ([] & _ & H1); [by eapply trySnoopLayer_tables|by eapply tryRespLayer_tables]. }
  destruct ok; cbn [negb] in H.
  2:{ injection H as <- <- <- <-. rewrite app_nil_r. split; [done|]. by eapply Inv_same. }
  apply bind_Ok in H as ([] & _ & H). apply bind_Ok in H as ([p1 x2] & H2 & H). apply packet_timing_tables in H2 as [Hx2 (Hk1 & Hq1 & _)].
  destruct (edge_at pr now (headerLatency pr) x2) as [ed x3] eqn:He. apply edge_at_tables in He.
  assert (same_tables x x3) as (Hr3 & Hs3 & Hc3 & Hf3) by (transitivity x1; [done|]; by transitivity x2). clear Hx1 Hx2 He H1.
  unfold to_cpu in H. unfold dest in H. destruct (e_place e) as [i'|k] eqn:Hp; cbn [negb port_of] in H.
  - destruct Hen as (Ha & Hk & Hport). apply bind_Ok in H as ([] & _ & H). apply bind_Ok in H as (x4 & H4 & H). cbv zeta in H.
    apply bind_Ok in H as (x5 & H5 & H). apply respLayer_tables in H5 as (Hr5 & Hs5 & Hc5 & Hf5). injection H as <- <- <- <-.
    split; [rewrite n_sched; change (qreq (set_header 0 p1)) with (qreq p1); by rewrite Hq1, ?Hp|]. apply with_filter_spec in H4 as (Hr4 & Hs4 & Hc4 & _ & H4). change (routes x4 = routes x3) in Hr4. change (outstandingSnoop x4 = outstandingSnoop x3 ∖ {[qreq p1]}) in Hs4. simpl in Hc4, H4.
    unfold after_response. apply (leave_inv x _ t (qreq p) e); [done|done|congruence| | | | |intros k' Hk'; congruence].
    + change (base.delete (qreq p1) (routes x5) = base.delete (qreq p) (routes x)). rewrite Hq1. f_equal. congruence.
    + change (outstandingSnoop x5 = outstandingSnoop x ∖ {[qreq p]}). rewrite <-Hq1. congruence.
    + simpl. congruence.
    + intros j Hj Hfi. rewrite Hp in Hj. injection Hj as <-. simpl. rewrite Hf5. rewrite Hf3 in H4. destruct (snoopFilter x) as [sf|]; [|by rewrite H4].
      destruct H4 as (sf' & H4 & ->). apply bind_Ok in H4 as (pt & Hpt & H4). rewrite Hk1 in H4.
      eapply (response_filter pr numbered i'); try done. right. by eexists.
  - apply bind_Ok in H as (x4 & H4 & H). apply with_filter_spec in H4 as (Hr4 & Hs4 & Hc4 & _ & H4).
    pose proof (n_snoop_resp k p1 w) as Hn. destruct (sendTimingSnoopResp k p1 w) as [[b2 p2] w2]. apply bind_Ok in H as ([] & Hb2 & H).
    apply assert_ok_true in Hb2. subst b2. apply bind_Ok in H as (x5 & H5 & H). apply snoopLayer_tables in H5 as (Hr5 & Hs5 & Hc5 & Hf5). injection H as <- <- <- <-.
    split; [by rewrite Hn, Hq1|].
    unfold after_response. apply (leave_inv x _ t (qreq p) e); [done|done|congruence| | | |intros k' Hk'; congruence|].
    + change (base.delete (qreq p1) (routes x5) = base.delete (qreq p) (routes x)). rewrite Hq1. f_equal. congruence.
    + change (outstandingSnoop x5 = outstandingSnoop x ∖ {[qreq p]}). unfold to_cpu in Hfwd. rewrite Hp in Hfwd. apply bool_decide_eq_true in Hfwd.
      assert (outstandingSnoop x5 = outstandingSnoop x) as -> by congruence. set_solver.
    + simpl. congruence.
    + intros k' Hk' Hfi. simpl. rewrite Hf5. rewrite Hf3 in H4. destruct (snoopFilter x) as [sf|]; [|by rewrite H4].
      destruct H4 as (sf' & H4 & ->). intros sf2 [= <-]. destruct (Hfi sf eq_refl) as [Hports Htr]. simpl in Htr |- *.
      pose proof (SnoopFilterProps.updateSnoopForward_inv _ _ _ _ _ (tr_null _ _ Htr) H4) as [_ Hcf]. apply same_config_sf in Hcf as [-> ->].
      split; [done|]. by eapply updateSnoopForward_tracks.
Qed.

Lemma recvTimingSnoopReq_keeps now p k x w p' x' w' t :
  recvTimingSnoopReq pr sendTimingSnoopReq now p k x w = Ok (p', x', w') → Inv x t → t !! qreq p = None →
  log w' = log w ∧ Inv x' (after_snoop p x' t) ∧ (routes x' !! qreq p = None ∨ routes x' !! qreq p = Some k).
Proof.
  unfold recvTimingSnoopReq. intros H [Ht Hf] Hr. apply bind_Ok in H as ([] & _ & H). apply bind_Ok in H as ([p1 x1] & H1 & H).
  apply packet_timing_tables in H1 as [Hx1 Hp1]. cbv zeta in H. apply bind_Ok in H as ([] & _ & H). apply bind_Ok in H as ([[p2 x2] w2] & H2 & H).
  assert (log w2 = log w ∧ snooped p1 p2 ∧ same_but_filter x1 x2 ∧ filter_inv (snoopFilter x2) [] t) as (Hl & Hp2 & Hx2 & Hf2).
  { destruct Hx1 as (_ & _ & _ & Hf1). rewrite Hf1 in H2. destruct (snoopFilter x) as [sf|].
    - apply bind_Ok in H2 as ([dests sf1] & Hlk & H2). apply bind_Ok in H2 as ([p3 w3] & H3 & H2). injection H2 as <- <- <-.
      pose proof (forwardTiming_spec pr log _ _ _ _ _ _ H3) as [Hl3 Hs3]. split; [done|].
      split; [etrans; [|exact Hs3]; by apply same_packet_snooped|]. split; [done|]. intros sf2 [= <-]. destruct (Hf sf eq_refl) as [Hports Htr].
      pose proof (SnoopFilterProps.lookupSnoop_inv _ _ _ _ (tr_null _ _ Htr) Hlk) as [_ Hcf]. apply same_config_sf in Hcf as [-> ->].
      split; [done|]. by eapply lookupSnoop_tracks.
    - apply bind_Ok in H2 as ([p3 w3] & H3 & H2). injection H2 as <- <- <-. pose proof (forwardTiming_spec pr log _ _ _ _ _ _ H3) as [Hl3 Hs3].
      split_and!; try done. by rewrite Hf1. }
  apply bind_Ok in H as (x3 & H3 & H). apply bind_Ok in H as ([j b] & Hfp & H). apply findPort_tables in Hfp. apply bind_Ok in H as ([] & _ & H).
  injection H as <- <- <-. split; [done|]. apply same_tables_but in Hx1 as [Hx1 _].
  assert (table_inv x2 t) as Ht2. { eapply table_inv_same; [done|]. by eapply table_inv_same. }
  assert (qreq p2 = qreq p) as Hq2. { destruct Hp2 as [Hp2 _]. rewrite (sr_req _ _ Hp2). by destruct Hp1 as (_ & -> & _). }
  change (qreq (set_snoopDelay 0 (set_header (u32 (headerDelay (xp p2) + snoopDelay p2)) p2))) with (qreq p2) in H3.
  destruct (negb (cacheResponding (qpkt p1)) && _).
  - apply bind_Ok in H3 as ([] & _ & H3). injection H3 as <-. destruct Hfp as (Hr3 & Hs3 & Hc3 & Hf3).
    assert (routes (set_base b (set_routes (<[qreq p2:=k]> (routes x2)) x2)) !! qreq p = Some k) as Hro.
    { rewrite Hr3. change (<[qreq p2:=k]> (routes x2) !! qreq p = Some k). by rewrite Hq2, lookup_insert_eq. }
    unfold after_snoop. rewrite Hro. split; [|by right]. split.
    + apply (table_inv_insert_mem pr x2); [done|done| |done|done]. rewrite Hr3, <-Hq2. done.
    + rewrite Hf3. intros sf Hsf. destruct (Hf2 sf Hsf) as [Hports Htr]. split; [done|]. eapply tracks_perm; [|exact Htr]. simpl.
      by rewrite keys_insert.
  - injection H3 as <-. assert (Inv (set_base b x2) t) as HI by (by eapply Inv_same).
    assert (routes (set_base b x2) !! qreq p = None) as Hro by (by apply (routes_None pr _ _ _ (proj1 HI))).
    unfold after_snoop. rewrite Hro. split; [done|by left].
Qed.

End Crossbar.
End CoherentRuns.
