(* ===== verification/CoherentProps.v ===== *)
(** * mem/coherent_xbar: responses are owed once, and the filter knows who waits

    The theorems are about every run of a coherent crossbar whose caches are not bypassed:
    requests, snoops and responses in any order, with retries, releases of layers and changes
    of ranges in between, and neighbours that do what they like apart from [Neighbours]. *)

From Stdlib Require Import ZArith Lia.
From stdpp Require Import base numbers option list gmap relations.
From S2P Require Import Prelude Flags AddrRange AddrRangeMap Clocked Packet PacketProps XBarLayer XBar XBarProps.
From S2P Require Import SnoopFilter SnoopFilterProps CoherentXBar CoherentFilter CoherentInv CoherentSteps CoherentRuns.

Module CoherentProps.
Import Packet XBarLayer XBar CoherentXBar CoherentFilter CoherentLemmas CoherentInv CoherentSteps CoherentRuns.

(** ** The start *)

Lemma number_ports_spec ports : ∀ local n local' n', SnoopFilter.number_ports ports local n = (local', n') →
  NoDup (getId <$> ports) → (∀ p, p ∈ ports → 0 <= getId p < Z.of_nat (length local)) →
  n <= n' ∧
  (∀ p, p ∈ ports → isSnooping p = true → ∃ j, local' !! Z.to_nat (getId p) = Some j ∧ n <= j < n') ∧
  (∀ p q j, p ∈ ports → q ∈ ports → isSnooping p = true → isSnooping q = true →
     local' !! Z.to_nat (getId p) = Some j → local' !! Z.to_nat (getId q) = Some j → p = q) ∧
  (∀ k, (∀ p, p ∈ ports → Z.to_nat (getId p) ≠ k) → local' !! k = local !! k).
Proof.
  induction ports as [|p ports IH]; intros local n local' n' H Hnd Hr; simpl in H.
  { injection H as <- <-. split; [lia|]. split; [set_solver|]. split; [set_solver|done]. }
  apply NoDup_cons in Hnd as [Hni Hnd].
  assert (∀ q, q ∈ ports → Z.to_nat (getId q) ≠ Z.to_nat (getId p)) as Hne.
  { intros q Hq Heq. apply Hni. assert (getId p = getId q) as ->.
    { pose proof (Hr p ltac:(left)). pose proof (Hr q ltac:(by right)). lia. }
    by apply list_elem_of_fmap_2. }
  destruct (isSnooping p) eqn:Hs.
  - destruct (IH _ _ _ _ H Hnd) as (H1 & H2 & H3 & H4).
    { intros q Hq. rewrite length_insert. apply Hr. by right. }
    assert (local' !! Z.to_nat (getId p) = Some n) as Hp.
    { rewrite H4 by done. apply list_lookup_insert_eq. pose proof (Hr p ltac:(left)). lia. }
    split; [lia|]. split; [|split].
    + intros q [->|Hq]%elem_of_cons Hsq; [exists n; split; [done|lia]|]. destruct (H2 q Hq Hsq) as (j & Hj & Hjr). exists j. split; [done|lia].
    + intros q1 q2 j Hq1 Hq2 Hs1 Hs2 Hj1 Hj2.
      assert (∀ q, q ∈ ports → isSnooping q = true → local' !! Z.to_nat (getId q) = Some n → False) as Hno.
      { intros q Hq Hsq Hj. destruct (H2 q Hq Hsq) as (j' & Hj' & Hjr). rewrite Hj in Hj'. injection Hj' as <-. lia. }
      apply elem_of_cons in Hq1 as [->|Hq1]; apply elem_of_cons in Hq2 as [->|Hq2]; [done| | |by apply (H3 q1 q2 j)].
      * exfalso. rewrite Hp in Hj1. injection Hj1 as <-. by apply (Hno q2).
      * exfalso. rewrite Hp in Hj2. injection Hj2 as <-. by apply (Hno q1).
    + intros k Hk. rewrite H4 by (intros q Hq; apply Hk; by right). apply list_lookup_insert_ne. apply Hk. left.
  - destruct (IH _ _ _ _ H Hnd) as (H1 & H2 & H3 & H4); [intros q Hq; apply Hr; by right|]. split; [done|]. split; [|split].
    + intros q [->|Hq]%elem_of_cons Hsq; [congruence|]. by apply H2.
    + intros q1 q2 j [->|Hq1]%elem_of_cons [->|Hq2]%elem_of_cons Hs1 Hs2; try congruence. by apply H3.
    + intros k Hk. apply H4. intros q Hq. apply Hk. by right.
Qed.

(** The CPU-side ports are numbered in order. *)
Definition in_order (ports : list Port) : Prop := ∀ i p, ports !! i = Some p → getId p = Z.of_nat i.

Lemma in_order_ids ports : in_order ports → NoDup (getId <$> ports) ∧ ∀ p, p ∈ ports → 0 <= getId p < Z.of_nat (length ports).
Proof.
  intros Ho. split.
  - apply NoDup_alt. intros i j x Hi Hj. rewrite list_lookup_fmap in Hi, Hj. apply fmap_Some in Hi as (p & Hp & ->). apply fmap_Some in Hj as (q & Hq & Heq).
    apply Ho in Hp, Hq. lia.
  - intros p (i & Hi)%list_elem_of_lookup. pose proof (lookup_lt_Some _ _ _ Hi). apply Ho in Hi. lia.
Qed.

Lemma setCPUSidePorts_tracks ls cap ports sf : in_order ports → 1 <= ls < 2 ^ 32 →
  SnoopFilter.setCPUSidePorts (SnoopFilter.SnoopFilter_new ls cap) ports = Ok sf →
  SnoopFilter.cpuSidePorts sf = filter (λ p, isSnooping p = true) ports ∧ tracks sf [].
Proof.
  intros Ho Hls H. apply in_order_ids in Ho as [Hnd Hr]. unfold SnoopFilter.setCPUSidePorts in H.
  destruct (SnoopFilter.number_ports ports _ 0) as [local n] eqn:Hn. apply bind_Ok in H as ([] & Hf & H). injection H as <-.
  destruct (number_ports_spec _ _ _ _ _ Hn Hnd) as (_ & H2 & H3 & _); [by rewrite length_replicate|].
  unfold fatal_if, SnoopFilter.SNOOP_MASK_SIZE in Hf. destruct (Z.ltb_spec 256 n); [done|]. split; [done|]. constructor; simpl.
  - split; [|split; [|done]].
    + intros p [Hs Hp]%list_elem_of_filter. destruct (H2 p Hp Hs) as (j & Hj & Hjr). exists j. split; [done|].
      pose proof (Hr p Hp). split; [unfold SnoopFilter.InvalidPortID; lia|]. split; [done|lia].
    + intros p q i [Hsp Hp]%list_elem_of_filter [Hsq Hq]%list_elem_of_filter (_ & _ & Hi & _) (_ & _ & Hj & _). by apply (H3 p q i).
  - intros p q [_ Hp]%list_elem_of_filter [_ Hq]%list_elem_of_filter Heq.
    apply list_elem_of_lookup in Hp as (i & Hp). apply list_elem_of_lookup in Hq as (j & Hq).
    assert (i = j) as ->; [|congruence]. eapply NoDup_lookup; [exact Hnd| |]; rewrite list_lookup_fmap; [by rewrite Hp|by rewrite Hq, Heq].
  - intros k item Hk. simpl in Hk. by rewrite lookup_empty in Hk.
  - constructor.
  - intros p i line _ _. split; [|by intros ?%elem_of_nil]. intros (item & Hi & _). by rewrite lookup_empty in Hi.
Qed.

Section Runs.
Context {W : Type} (pr : CohParams) (log : W → list (positive * Place)).
Context {sendTimingReq : Z → CohPacket → W → bool * CohPacket * W} {tryTimingReq : Z → CohPacket → W → bool * W}.
Context {sendTimingSnoopReq : Z → CohPacket → W → CohPacket * W} {sendTimingSnoopResp : Z → CohPacket → W → bool * CohPacket * W}.
Context {schedTimingResp : Z → CohPacket → Z → W → W}.
Context `{HN : !Neighbours log sendTimingReq tryTimingReq sendTimingSnoopReq sendTimingSnoopResp schedTimingResp}.

(** The crossbar, its surroundings, the responses that are owed, and to whom they were due. *)
Record Sys := mkSys { sx : CoherentXBar; sw : W; owed : Table; asked : list (positive * Place) }.

Definition started (s : Sys) : Prop :=
  ∃ n d ls cap f, in_order (cpuSidePorts pr) ∧ 1 <= ls < 2 ^ 32 ∧ (f = None ∨ f = Some (SnoopFilter.SnoopFilter_new ls cap)) ∧
  CoherentXBar_new n d (cpuSidePorts pr) f = Ok (sx s) ∧ log (sw s) = [] ∧ owed s = ∅ ∧ asked s = [].

(** What happens between packets. *)
Inductive other : CoherentXBar → CoherentXBar → Prop :=
  | ot_retry now f k x x' : recvReqRetry pr now f k x = Ok x' → other x x'
  | ot_release_req now f i x x' : releaseReqLayer pr now f i x = Ok x' → other x x'
  | ot_release_resp now f i x x' : releaseRespLayer pr now f i x = Ok x' → other x x'
  | ot_release_snoop now f i x x' : releaseSnoopLayer pr now f i x = Ok x' → other x x'
  | ot_ranges reported k x b : recvRangeChange (xparams pr) reported k (base x) = Ok b → other x (set_base b x).

(** A memory answers what it owes, and so does a cache that was snooped; responses are about
    the request they answer. *)
Definition answers (s : Source) (t : Table) (p : CohPacket) : Prop :=
  ∃ e, t !! qreq p = Some e ∧ e_source e = s ∧ about (e_pkt e) (qpkt p).

Inductive step : Sys → Sys → Prop :=
  | st_request now p i b p' x' w' x w t a :
      recvTimingReq pr sendTimingReq tryTimingReq sendTimingSnoopReq schedTimingResp now p i x w = Ok (b, p', x', w') →
      fair_request pr x t p i →
      step (mkSys x w t a) (mkSys x' w' (after_request b p i x' t) (a ++ if b && asks (qpkt p) then [(qreq p, Cpu i)] else []))
  | st_response now p k b p' x' w' x w t a :
      recvTimingResp pr schedTimingResp now p k x w = Ok (b, p', x', w') → answers Memory t p →
      step (mkSys x w t a) (mkSys x' w' (after_response b p t) a)
  | st_snoop now p k p' x' w' x w t a :
      recvTimingSnoopReq pr sendTimingSnoopReq now p k x w = Ok (p', x', w') → t !! qreq p = None →
      step (mkSys x w t a) (mkSys x' w' (after_snoop p x' t) (a ++ if routes x' !! qreq p is Some _ then [(qreq p, Mem k)] else []))
  | st_snoop_response now p i b p' x' w' x w t a :
      recvTimingSnoopResp pr sendTimingSnoopResp schedTimingResp now p i x w = Ok (b, p', x', w') → answers Snooper t p →
      step (mkSys x w t a) (mkSys x' w' (after_response b p t) a)
  | st_other x x' w t a : other x x' → step (mkSys x w t a) (mkSys x' w t a)
  | st_neighbours x w w' t a : log w' = log w → step (mkSys x w t a) (mkSys x w' t a).

Hypothesis snooping : bypassCaches pr = false.

Lemma edge_layer now c x e x1 x' : edge_at pr now c x = (e, x1) → same_tables x1 x' → same_tables x x'.
Proof. intros He%edge_at_tables H. by transitivity x1. Qed.

Lemma other_tables x x' : other x x' → same_tables x x'.
Proof.
  intros [now f k y y' H|now f i y y' H|now f i y y' H|now f i y y' H|reported k y b H].
  - unfold recvReqRetry in H. destruct (edge_at pr now 0 y) as [e x1] eqn:He. apply reqLayer_tables in H. by eapply edge_layer.
  - unfold releaseReqLayer in H. destruct (edge_at pr now 0 y) as [e x1] eqn:He. apply reqLayer_tables in H. by eapply edge_layer.
  - unfold releaseRespLayer in H. destruct (edge_at pr now 0 y) as [e x1] eqn:He. apply respLayer_tables in H. by eapply edge_layer.
  - unfold releaseSnoopLayer in H. destruct (edge_at pr now 0 y) as [e x1] eqn:He. apply snoopLayer_tables in H. by eapply edge_layer.
  - split; [|done]. unfold routes. simpl. unfold recvRangeChange in H.
    apply bind_Ok in H as (? & _ & H). apply bind_Ok in H as (x1 & Hx1 & H).
    assert (routeTo x1 = routeTo (base y)) as Hr1.
    { destruct (k =? defaultPortID (xparams pr)), (useDefaultRange (xparams pr)); res_inv; try done.
      by destruct (reported k) as [|? [|]]; res_inv. }
    rewrite <-Hr1. destruct (gotAllAddrRanges x1); by res_inv.
Qed.

Definition good (s : Sys) : Prop :=
  in_order (cpuSidePorts pr) ∧ Inv pr (sx s) (owed s) ∧ asked s ≡ₚ log (sw s) ++ owed_list (owed s).

Lemma started_good s : started s → good s.
Proof.
  intros (n & d & ls & cap & f & Ho & Hls & Hf & Hx & Hl & Ht & Ha). split; [done|]. rewrite Hl, Ht, Ha. split; [|done].
  assert (routes (sx s) = ∅ ∧ outstandingSnoop (sx s) = ∅ ∧ outstandingCMO (sx s) = ∅) as (H1 & H2 & H3).
  { unfold CoherentXBar_new in Hx. destruct f as [f|]; [apply bind_Ok in Hx as (sf & _ & Hx)|]; injection Hx as Hx; by rewrite <-Hx. }
  split.
  - constructor.
    + by rewrite H1, fmap_empty.
    + intros r. rewrite H2. setoid_rewrite lookup_empty. set_solver.
    + intros c q. by rewrite H3, lookup_empty.
    + intros c c' q q'. by rewrite H3, lookup_empty.
    + intros r e. by rewrite lookup_empty.
    + intros r e. by rewrite lookup_empty.
  - intros sf Hsf. simpl. unfold keys. rewrite map_to_list_empty. simpl. unfold CoherentXBar_new in Hx. destruct Hf as [->| ->].
    + injection Hx as Hx. by rewrite <-Hx in Hsf.
    + apply bind_Ok in Hx as (sf' & Hset & Hx). injection Hx as Hx. rewrite <-Hx in Hsf. injection Hsf as ->.
      by eapply setCPUSidePorts_tracks.
Qed.

Lemma step_good s s' : step s s' → good s → good s'.
Proof.
  intros Hstep (Ho & HI & Hc).
  assert (∀ i p, port_at pr i = Ok p → getId p = i) as Hnum.
  { intros i p [Hi Hp]%port_at_Ok. rewrite (Ho _ _ Hp). lia. }
  destruct Hstep as [now p i b p' x' w' x w t a H Hfair|now p k b p' x' w' x w t a H (e & He & Hs & Hab)|now p k p' x' w' x w t a H Hnew|
    now p i b p' x' w' x w t a H (e & He & Hs & Hab)|x x' w t a Hot|x w w' t a Hl]; unfold good in *; cbn [sx sw owed asked] in *.
  - destruct (recvTimingReq_turn pr log snooping Hnum _ _ _ _ _ _ _ _ _ _ H HI Hfair) as (out & t' & Hturn & Hl & HI').
    pose proof (turn_after pr _ _ _ _ _ _ x' Hturn (fr_new _ _ _ _ _ Hfair) (proj1 HI')) as <-. split; [done|]. split; [done|].
    rewrite Hl, Hc. pose proof (turn_conserves _ _ _ _ _ _ Hturn (fr_new _ _ _ _ _ Hfair)) as Hcons.
    rewrite <-!app_assoc, <-Hcons. by rewrite (Permutation_app_comm (owed_list t)).
  - destruct (recvTimingResp_keeps pr log snooping Hnum _ _ _ _ _ _ _ _ _ _ _ H HI He Hs Hab) as [Hl HI']. split; [done|]. split; [done|].
    rewrite Hl, Hc. destruct b; simpl; [|by rewrite app_nil_r]. by rewrite (owed_list_delete _ _ _ He), <-app_assoc.
  - destruct (recvTimingSnoopReq_keeps pr log _ _ _ _ _ _ _ _ _ H HI Hnew) as (Hl & HI' & Hr). split; [done|]. split; [done|]. rewrite Hl, Hc.
    unfold after_snoop. destruct Hr as [-> | ->]; [by rewrite app_nil_r|]. rewrite owed_list_insert by done. simpl.
    by rewrite <-app_assoc, (Permutation_app_comm (owed_list t)).
  - destruct (recvTimingSnoopResp_keeps pr log snooping Hnum _ _ _ _ _ _ _ _ _ _ _ H HI He Hs Hab) as [Hl HI']. split; [done|]. split; [done|].
    rewrite Hl, Hc. destruct b; simpl; [|by rewrite app_nil_r]. by rewrite (owed_list_delete _ _ _ He), <-app_assoc.
  - split; [done|]. split; [|done]. eapply Inv_same; [by apply other_tables|done].
  - by rewrite Hl.
Qed.

Lemma run_good s0 s : started s0 → rtc step s0 s → good s.
Proof. intros Hs%started_good Hr. revert Hs. induction Hr as [|x y z Hst _ IH]; [done|]. intros Hg. by eapply IH, step_good. Qed.

(** C4: A coherent crossbar answers every request once.  Whatever memory, the caches and the
    crossbar itself answer, and in whatever order, the responses that were due are those that
    left, each to the port it was due to, and those that are owed; the routes are the ports of
    what is owed, and the requests with a snoop response to come are those that a cache owes. *)
Theorem requests_answered_once s0 s : started s0 → rtc step s0 s →
  asked s ≡ₚ log (sw s) ++ owed_list (owed s) ∧
  routes (sx s) = (λ e, port_of (e_place e)) <$> owed s ∧
  ∀ r, r ∈ outstandingSnoop (sx s) ↔ ∃ e, owed s !! r = Some e ∧ e_source e = Snooper ∧ to_cpu e = true.
Proof. intros Hs Hr. destruct (run_good _ _ Hs Hr) as (_ & [Ht _] & Hc). split; [done|]. split; [apply Ht|apply (ti_snoops _ _ _ Ht)]. Qed.

(** C8: The snoop filter knows exactly who waits for a line: in every state of a run a port is
    marked as having requested a line if and only if a response about the line is owed to it
    for a request that the filter remembers; and no line is kept that nobody has an interest in. *)
Theorem filter_knows_who_waits s0 s sf p j line : started s0 → rtc step s0 s → snoopFilter (sx s) = Some sf →
  p ∈ snoopPorts pr → SnoopFilterProps.has_id sf p j →
  SnoopFilterProps.no_null sf ∧
  (requested_bit (SnoopFilter.cachedLocations sf) line j ↔
   ∃ r e, owed s !! r = Some e ∧ e_place e = Cpu (getId p) ∧ remembered p (e_pkt e) = true ∧ line = line_of (SnoopFilter.linesize sf) (e_pkt e)).
Proof.
  intros Hs Hr Hsf Hp Hj. destruct (run_good _ _ Hs Hr) as (Ho & [Ht Hf] & _). destruct (Hf sf Hsf) as [Hports Htr]. split; [apply (tr_null _ _ Htr)|].
  rewrite (tr_bits _ _ Htr p j line) by (by rewrite ?Hports). simpl. unfold keys. rewrite list_elem_of_bind.
  assert (port_at pr (getId p) = Ok p) as Hpa.
  { apply list_elem_of_filter in Hp as [_ Hp]. apply list_elem_of_lookup in Hp as (n & Hn). unfold port_at, at_port. rewrite (Ho _ _ Hn), Nat2Z.id, Hn.
    by destruct (Z.ltb_spec (Z.of_nat n) 0); [lia|]. }
  split.
  - intros ([r e] & Hk & He%elem_of_map_to_list). exists r, e. split; [done|]. unfold key in Hk. simpl in Hk.
    destruct (e_place e) as [i|]; [|by apply elem_of_nil in Hk]. unfold pkey in Hk. destruct (port_at pr i) as [q|] eqn:Hq; [|by apply elem_of_nil in Hk].
    destruct (remembered q (e_pkt e)) eqn:Hrem; [|by apply elem_of_nil in Hk]. apply list_elem_of_singleton in Hk. injection Hk as <- ->.
    rewrite Hpa in Hq. injection Hq as <-. done.
  - intros (r & e & He & Hpl & Hrem & ->). exists (r, e). split; [|by apply elem_of_map_to_list]. unfold key. simpl. rewrite Hpl. unfold pkey. rewrite Hpa, Hrem.
    by left.
Qed.

End Runs.
End CoherentProps.
