(* ===== verification/CoherentExample.v ===== *)
(** * mem/coherent_xbar: snoops, and a small system

    Which ports are snooped; two caches that read the same line, of which the second is
    answered by the first; and two ways in which a request that is refused is not as it was. *)

From Stdlib Require Import ZArith Lia.
From stdpp Require Import base numbers option list gmap relations.
From S2P Require Import Prelude Flags AddrRange AddrRangeMap Clocked Packet PacketProps XBarLayer XBar XBarProps.
From S2P Require Import SnoopFilter SnoopFilterProps CoherentXBar CoherentFilter CoherentInv CoherentSteps CoherentRuns CoherentProps.

Module CoherentExample.
Import Packet XBarLayer XBar CoherentXBar CoherentFilter CoherentLemmas CoherentInv CoherentSteps CoherentRuns CoherentProps.

(** ** Who is snooped *)

Section Snoops.
Context {W : Type} (pr : CohParams) (log : W → list (positive * Place)).
Context {sendTimingReq : Z → CohPacket → W → bool * CohPacket * W} {tryTimingReq : Z → CohPacket → W → bool * W}.
Context {sendTimingSnoopReq : Z → CohPacket → W → CohPacket * W} {sendTimingSnoopResp : Z → CohPacket → W → bool * CohPacket * W}.
Context {schedTimingResp : Z → CohPacket → Z → W → W}.
Context `{HN : !Neighbours log sendTimingReq tryTimingReq sendTimingSnoopReq sendTimingSnoopResp schedTimingResp}.

(** [snoops] has the ports that were snooped, in order. *)
Class SnoopLog (snoops : W → list Z) : Prop := {
  sl_send k p w : snoops (sendTimingReq k p w).2 = snoops w;
  sl_try k p w : snoops (tryTimingReq k p w).2 = snoops w;
  sl_snoop i p w : snoops (sendTimingSnoopReq i p w).2 = snoops w ++ [i];
  sl_sched i p t w : snoops (schedTimingResp i p t w) = snoops w
}.
Context (snoops : W → list Z) `{!SnoopLog snoops}.

Lemma snoop_ports_log ex dests : ∀ p w p' w', snoop_ports sendTimingSnoopReq ex dests p w = (p', w') → ex ≠ InvalidPortID →
  snoops w' = snoops w ++ (getId <$> filter (λ d, getId d ≠ ex) dests).
Proof.
  induction dests as [|d dests IH]; intros p w p' w' H Hex; simpl in H; [injection H as <- <-; by rewrite app_nil_r|].
  rewrite filter_cons. destruct (Z.eqb_spec ex InvalidPortID); [done|]. destruct (Z.eqb_spec (getId d) ex) as [Heq|Hne]; cbn [orb negb] in H.
  - rewrite decide_False by auto. by apply IH in H.
  - rewrite decide_True by done. pose proof (sl_snoop (getId d) p w) as Hl. destruct (sendTimingSnoopReq (getId d) p w) as [p1 w1]. simpl in Hl.
    rewrite (IH _ _ _ _ H Hex), Hl, <-app_assoc. done.
Qed.

Lemma pass_request_log d es k p w s rd p' w' : pass_request pr sendTimingReq d es k p w = Ok (s, rd, p', w') → snoops w' = snoops w.
Proof.
  unfold pass_request. intros H. apply bind_Ok in H as (sink & _ & H). destruct sink; [by injection H as <- <- <- <-|].
  destruct (forwardPacket pr p).
  - match type of H with context [sendTimingReq k ?q w] => pose proof (sl_send k q w) as Hl; destruct (sendTimingReq k q w) as [[s0 p3] w3] end.
    by injection H as <- <- <- <-.
  - apply bind_Ok in H as ([] & _ & H). apply bind_Ok in H as ([] & _ & H). by injection H as <- <- <- <-.
Qed.

Lemma finish_timing_log now old pft xs cr d sc p i k x w b p' x' w' :
  finish_timing pr sendTimingReq schedTimingResp now old pft xs cr d sc p i k x w = Ok (b, p', x', w') → snoops w' = snoops w.
Proof.
  unfold finish_timing. intros H. apply bind_Ok in H as (a & _ & H). apply bind_Ok in H as ([[[s rd] p2] w2] & Hp & H).
  apply pass_request_log in Hp. rewrite <-Hp. apply bind_Ok in H as (x1 & _ & H). destruct s; cbn [negb] in H.
  - apply bind_Ok in H as (x2 & _ & H). apply bind_Ok in H as ([[[rd' q] j] x3] & _ & H). destruct rd'; [|by injection H as <- <- <- <-].
    apply bind_Ok in H as ([[rp x4] w4] & Hr & H). injection H as <- <- <- <-. unfold respond in Hr.
    apply bind_Ok in Hr as ([] & _ & Hr). apply bind_Ok in Hr as (k1 & _ & Hr). apply bind_Ok in Hr as (x5 & _ & Hr).
    destruct (edge_at pr now 0 x5) as [e x6]. injection Hr as <- <- <-. apply sl_sched.
  - apply bind_Ok in H as ([] & _ & H). destruct (edge_at pr now 1 x1) as [e x2]. apply bind_Ok in H as (x3 & _ & H). by injection H as <- <- <- <-.
Qed.

Hypothesis snooping : bypassCaches pr = false.

(** The ports that hold the line of a request, or wait for it, as far as the filter knows;
    without a filter, all that snoop: the other ports that a request of [src] has to reach. *)
Definition asked_ports (f : option SnoopFilter.SnoopFilter) (k : Packet) (src : Port) (l : list Z) : Prop :=
  match f with
  | Some sf => ∃ line, SnoopFilter.line_addr sf k = Ok line ∧
      ∀ q, q ∈ snoopPorts pr → getId q ∈ l ↔ q ≠ src ∧ SnoopFilterProps.interested_in sf line q
  | None => ∀ q, q ∈ snoopPorts pr → getId q ∈ l ↔ q ≠ src
  end.

(** The ports that a request of [src] is sent to as a snoop: a WriteClean goes to none, and
    neither does an eviction when there is a filter, which knows the other holders. *)
Definition snooped_ports (f : option SnoopFilter.SnoopFilter) (k : Packet) (src : Port) (l : list Z) : Prop :=
  if bool_decide (cmd k = WriteClean) || (bool_decide (is_Some f) && isEviction (cmd k)) then l = [] else asked_ports f k src l.

Lemma in_order_unique : in_order (cpuSidePorts pr) → ∀ q q', q ∈ cpuSidePorts pr → q' ∈ cpuSidePorts pr → getId q = getId q' → q = q'.
Proof.
  intros Ho q q' Hq Hq' Heq. apply list_elem_of_lookup in Hq as (n & Hq).
  apply list_elem_of_lookup in Hq' as (n' & Hq'). pose proof (Ho _ _ Hq). pose proof (Ho _ _ Hq'). assert (n = n') as -> by lia. congruence.
Qed.

Lemma snoops_of_ports q : q ∈ snoopPorts pr → q ∈ cpuSidePorts pr.
Proof. by intros [_ ?]%list_elem_of_filter. Qed.

(** The destinations without the requester. *)
Lemma others_ids (dests : list Port) i src q : in_order (cpuSidePorts pr) → src ∈ cpuSidePorts pr → getId src = i →
  (∀ d, d ∈ dests → d ∈ snoopPorts pr) → q ∈ snoopPorts pr →
  getId q ∈ getId <$> filter (λ d, getId d ≠ i) dests ↔ q ∈ dests ∧ q ≠ src.
Proof.
  intros Ho Hsrc Hid Hsub Hq%snoops_of_ports. pose proof (in_order_unique Ho) as Hinj. rewrite list_elem_of_fmap. setoid_rewrite list_elem_of_filter. split.
  - intros (d & Heq & Hne & Hd). assert (q = d) as <- by (apply Hinj; [done|by apply snoops_of_ports, Hsub|done]). split; [done|]. intros ->. by apply Hne.
  - intros [Hqd Hne]. exists q. split; [done|]. split; [|done]. intros Heq. apply Hne, Hinj; [done|done|by rewrite Hid].
Qed.

(** A port that does not snoop is not in the filter; its requests reach all that are interested. *)
Lemma lookupRequest_outsider sf k port line l sf' : SnoopFilterProps.config_ok sf → isSnooping port = false →
  SnoopFilter.line_addr sf k = Ok line → SnoopFilter.lookupRequest sf k port = Ok (l, sf') →
  ∀ q, q ∈ l ↔ q ∈ SnoopFilter.cpuSidePorts sf ∧ SnoopFilterProps.interested_in sf line q.
Proof.
  intros (Hids & _) Hn Hline H q. unfold SnoopFilter.lookupRequest in H. cbv zeta in H. rewrite Hline, Hn in H. cbn [mbind result_bind] in H.
  unfold SnoopFilter.portToMask in H at 1. rewrite Hn in H. apply bind_Ok in H as (m & Hm & H). apply bind_Ok in Hm as ([] & _ & [= <-]).
  rewrite andb_false_r, andb_false_l in H. cbn [negb] in H. rewrite andb_true_r in H. unfold SnoopFilterProps.interested_in.
  destruct (SnoopFilter.cachedLocations sf !! line) as [item|] eqn:Hc; cbn in H; [|injection H as <- <-; set_solver].
  apply bind_Ok in H as (l0 & Hl & [= <- <-]). unfold SnoopFilter.maskToPortList in Hl.
  match type of Hl with SnoopFilter.ports_in ?s ?m0 ?ps = _ => destruct (SnoopFilterProps.ports_in_spec s m0 ps) as (l1 & Hl1 & Hin) end; [exact Hids|].
  rewrite Hl1 in Hl. injection Hl as ->. rewrite Hin. apply and_iff_compat_l.
  assert (∀ j, 0 <= j < 256 → ∀ z, Z.testbit (z .& SnoopFilter.mask_not 0) j = Z.testbit z j) as Hb.
  { intros j Hj z. unfold SnoopFilter.mask_not. rewrite Z.land_spec, testbit_unot, Z.testbit_0_l by lia. destruct (Z.ltb_spec j 256); [|lia]. by rewrite andb_true_r. }
  split.
  - intros (j & Hj & Ht). rewrite Hb in Ht by apply Hj. by exists item, j.
  - intros (it & j & [= <-] & Hj & Ht). exists j. split; [exact Hj|]. by rewrite Hb by apply Hj.
Qed.

Lemma lookupRequest_asked sf k src line l sf' : SnoopFilterProps.config_ok sf → SnoopFilter.cpuSidePorts sf = snoopPorts pr → src ∈ cpuSidePorts pr →
  SnoopFilter.line_addr sf k = Ok line → SnoopFilter.lookupRequest sf k src = Ok (l, sf') →
  (∀ d, d ∈ l → d ∈ snoopPorts pr) ∧ ∀ q, q ∈ snoopPorts pr → (q ∈ l ∧ q ≠ src ↔ q ≠ src ∧ SnoopFilterProps.interested_in sf line q).
Proof.
  intros Hc Hp Hsrc Hl H. destruct (isSnooping src) eqn:Hs.
  - pose proof (SnoopFilterProps.lookupRequest_exact sf k src line l sf' Hc ltac:(rewrite Hp; by apply list_elem_of_filter) Hl H) as Hex.
    rewrite Hp in Hex. split; [intros d Hd; by apply Hex|]. intros q Hq. rewrite Hex. tauto.
  - pose proof (lookupRequest_outsider sf k src line l sf' Hc Hs Hl H) as Hex. rewrite Hp in Hex. split; [intros d Hd; by apply Hex|].
    intros q Hq. rewrite Hex. tauto.
Qed.

Lemma others_not (dests : list Port) i : i ∉ getId <$> filter (λ d, getId d ≠ i) dests.
Proof. intros (d & Heq & [Hne _]%list_elem_of_filter)%list_elem_of_fmap. by apply Hne. Qed.

Lemma forwardTiming_log ex dests p w p' w' : forwardTiming pr sendTimingSnoopReq ex dests p w = Ok (p', w') → ex ≠ InvalidPortID →
  snoops w' = snoops w ++ (getId <$> filter (λ d, getId d ≠ ex) dests).
Proof. unfold forwardTiming. intros H. apply bind_Ok in H as ([] & _ & H). injection H as H. by eapply snoop_ports_log. Qed.

Lemma snoop_request_log p i k x w go p' x' w' t src : snoop_request pr tryTimingReq sendTimingSnoopReq p i k x w = Ok (go, p', x', w') →
  in_order (cpuSidePorts pr) → filter_inv pr (snoopFilter x) [] t → port_at pr i = Ok src → cmd (qpkt p) ≠ WriteClean →
  ∃ l, snoops w' = snoops w ++ l ∧ i ∉ l ∧ (go = true → snooped_ports (snoopFilter x) (qpkt p) src l).
Proof.
  intros H Ho Hf Hsrc Hwc.
  apply port_at_Ok in Hsrc as Hi. assert (getId src = i) as Hid by (destruct Hi as [Hi0 Hp]; rewrite (Ho _ _ Hp); lia). destruct Hi as [Hi Hin%list_elem_of_lookup_2].
  assert (i ≠ InvalidPortID) as Hni by (unfold InvalidPortID, XBar.InvalidPortID; lia).
  unfold snoop_request in H. apply bind_Ok in H as ([] & _ & H).
  destruct (if isClean (cmd (qpkt p)) && negb (isDestination pr p) then tryTimingReq k p w else (true, w)) as [go0 w0] eqn:Hgo.
  assert (snoops w0 = snoops w) as <-.
  { destruct (_ && _); [|by injection Hgo as <- <-]. pose proof (sl_try k p w) as Hn. by rewrite Hgo in Hn. }
  destruct go0; cbn [negb] in H; [|injection H as <- <- <- <-; exists []; split; [by rewrite app_nil_r|]; split; [set_solver|done]].
  apply bind_Ok in H as ([[p5 x5] w5] & H5 & H). injection H as <- <- <- <-.
  unfold snooped_ports, asked_ports. rewrite (bool_decide_eq_false_2 _ Hwc). cbn [orb]. destruct (snoopFilter x) as [sf|].
  - destruct (Hf sf eq_refl) as [Hports Htr]. apply bind_Ok in H5 as (src' & Hsrc' & H5). rewrite Hsrc in Hsrc'. injection Hsrc' as <-.
    apply bind_Ok in H5 as ([dests sf1] & Hlk & H5). pose proof (lookupRequest_looked _ _ _ _ _ Hlk) as (_ & line & Hline & _).
    destruct (lookupRequest_asked sf (qpkt p) src line dests sf1 (tr_config _ _ Htr) Hports Hin Hline Hlk) as [Hsub Hex].
    cbv zeta in H5. change (cmd (qpkt (set_header (u32 (headerDelay (xp p) + u64 (lookupLatency pr * clockPeriod (xparams pr)))) p))) with (cmd (qpkt p)) in H5.
    rewrite bool_decide_eq_true_2 by by eexists. cbn [andb]. destruct (isEviction (cmd (qpkt p))).
    { injection H5 as <- <- <-. exists []. split; [by rewrite app_nil_r|]. split; [set_solver|done]. }
    apply bind_Ok in H5 as ([p6 w6] & H6 & H5). injection H5 as <- <- <-. apply forwardTiming_log in H6; [|done].
    eexists. split; [exact H6|]. split; [apply others_not|]. intros _. exists line. split; [done|]. intros q Hq.
    by rewrite (others_ids dests i src q), Hex.
  - rewrite bool_decide_eq_false_2 by (by intros [? ?]). cbn [andb].
    apply bind_Ok in H5 as ([p6 w6] & H6 & H5). injection H5 as <- <- <-. apply forwardTiming_log in H6; [|done].
    eexists. split; [exact H6|]. split; [apply others_not|]. intros _ q Hq. rewrite (others_ids _ i src q) by done. tauto.
Qed.

(** C18: Every cache that may have a line is asked.  While the caches are not bypassed, when a
    request is taken, be it from a cache or from a port that does not snoop, the ports that are
    snooped are, with a snoop filter, exactly the other ports that hold the line or wait for it
    as far as the filter knows; and without one all other snooping ports.  Two kinds of request
    are not such a question: a WriteClean is snooped by nobody, and neither is an eviction
    when there is a filter.  The requester itself is never snooped, whatever it asks. *)
Theorem interested_ports_are_snooped s0 s now p i b p' x' w' src :
  started pr log s0 →
  rtc (step pr log (sendTimingReq := sendTimingReq) (tryTimingReq := tryTimingReq) (sendTimingSnoopReq := sendTimingSnoopReq)
    (sendTimingSnoopResp := sendTimingSnoopResp) (schedTimingResp := schedTimingResp)) s0 s →
  recvTimingReq pr sendTimingReq tryTimingReq sendTimingSnoopReq schedTimingResp now p i (sx s) (sw s) = Ok (b, p', x', w') →
  port_at pr i = Ok src →
  ∃ l, snoops w' = snoops (sw s) ++ l ∧ i ∉ l ∧ (b = true → snooped_ports (snoopFilter (sx s)) (qpkt p) src l).
Proof.
  intros Hst Hrun H Hsrc. destruct (run_good pr log snooping _ _ Hst Hrun) as (Ho & [_ Hf] & _).
  unfold recvTimingReq in H. apply bind_Ok in H as (port & _ & H). apply bind_Ok in H as ([] & _ & H).
  apply bind_Ok in H as ([k b0] & _ & H). apply bind_Ok in H as ([ok x1] & H1 & H).
  assert (same_tables (set_base b0 (sx s)) x1) as (_ & _ & _ & Hf1) by (destruct (isExpressSnoop _); [by injection H1 as <- <-|by apply tryReqLayer_tables in H1]).
  destruct ok; cbn [negb] in H.
  2:{ injection H as <- <- <- <-. exists []. split; [by rewrite app_nil_r|]. split; [set_solver|done]. }
  apply bind_Ok in H as ([p1 x2] & H2 & H). apply packet_timing_tables in H2 as [(_ & _ & _ & Hf2) (Hk1 & _)].
  destruct (edge_at pr now (headerLatency pr) x2) as [e x3] eqn:He. apply edge_at_tables in He as (_ & _ & _ & Hf3).
  cbv zeta in H. rewrite snooping, Hk1 in H. cbn [negb andb] in H. destruct (decide (cmd (qpkt p) = WriteClean)) as [Hwc|Hwc].
  { rewrite (bool_decide_eq_true_2 _ Hwc) in H. cbn [negb mbind result_bind] in H. apply finish_timing_log in H.
    exists []. split; [by rewrite app_nil_r|]. split; [set_solver|]. intros _. unfold snooped_ports. by rewrite (bool_decide_eq_true_2 _ Hwc). }
  rewrite (bool_decide_eq_false_2 _ Hwc) in H. cbn [negb] in H.
  apply bind_Ok in H as ([[[go p2] x4] w4] & H4 & H). rewrite <-Hk1 in Hwc |- *. simpl in Hf1. rewrite <-Hf1, <-Hf2, <-Hf3 in Hf |- *.
  destruct (snoop_request_log _ _ _ _ _ _ _ _ _ _ _ H4 Ho Hf Hsrc Hwc) as (l & Hl & Hni & Hsp).
  exists l. destruct go; cbn [negb] in H.
  - apply finish_timing_log in H. rewrite H. split; [done|]. split; [done|]. intros _. by apply Hsp.
  - destruct (edge_at pr now 1 x4) as [e' x5]. apply bind_Ok in H as (x6 & _ & H). injection H as <- <- <- <-. done.
Qed.

End Snoops.

(** ** Two caches, two memories: the cache at port 0 answers its neighbour *)

Definition World : Type := list (positive * Place) * list Z.

Definition ex_send (k : Z) (p : CohPacket) (w : World) : bool * CohPacket * World := (true, p, w).
Definition ex_try (k : Z) (p : CohPacket) (w : World) : bool * World := (true, w).
Definition ex_snoop (i : Z) (p : CohPacket) (w : World) : CohPacket * World :=
  let k := qpkt p in
  (if asks k && negb (isClean (cmd k)) && (i =? 0) then set_qpkt (set_flag k CACHE_RESPONDING) p else p, (w.1, w.2 ++ [i])).
Definition ex_snoop_resp (k : Z) (p : CohPacket) (w : World) : bool * CohPacket * World := (true, p, (w.1 ++ [(qreq p, Mem k)], w.2)).
Definition ex_sched (i : Z) (p : CohPacket) (t : Z) (w : World) : World := (w.1 ++ [(qreq p, Cpu i)], w.2).

#[local] Instance ex_neighbours : Neighbours fst ex_send ex_try ex_snoop ex_snoop_resp ex_sched.
Proof.
  constructor; try done.
  - intros k p w. simpl. split_and!; [done|done|by left].
  - intros i p w. unfold ex_snoop. destruct (asks (qpkt p) && negb (isClean (cmd (qpkt p))) && (i =? 0)) eqn:Hc; [|done].
    apply andb_true_iff in Hc as [Hc _]. apply andb_true_iff in Hc as [Ha Hcl]. unfold asks in Ha. apply andb_true_iff in Ha as [Hn Hcr].
    apply negb_true_iff in Hcr, Hcl. split; [done|]. split; [done|]. split; [done|]. intros [?|[?|?]]; congruence.
Qed.

#[local] Instance ex_snoop_log : SnoopLog snd (sendTimingReq := ex_send) (tryTimingReq := ex_try) (sendTimingSnoopReq := ex_snoop) (schedTimingResp := ex_sched).
Proof. by constructor. Qed.

Definition ex_ports : list Port := [SnoopFilter.mkPort 0 true; SnoopFilter.mkPort 1 true].
Definition ex_params : CohParams := mkCParams XBarProps.ex_params 1 4 16 16 true true 1 false ex_ports.

Definition ex_new : CoherentXBar :=
  match CoherentXBar_new 2 false ex_ports (Some (SnoopFilter.SnoopFilter_new 64 1024)) with
  | Ok x => x | Err _ => mkCoh XBarProps.ex_xbar [] ∅ ∅ None end.
Definition ex_start : Sys (W := World) := mkSys ex_new ([], []) ∅ [].

Lemma ex_started : started ex_params fst ex_start.
Proof.
  exists 2%nat, false, 64, 1024, (Some (SnoopFilter.SnoopFilter_new 64 1024)). split; [|split; [lia|split; [by right|split; [|done]]]].
  - intros i p Hi. destruct i as [|[|i]]; simpl in Hi; [injection Hi as <-; done|injection Hi as <-; done|done].
  - vm_compute. reflexivity.
Qed.

#[local] Notation ex_step := (step ex_params fst (sendTimingReq := ex_send) (tryTimingReq := ex_try) (sendTimingSnoopReq := ex_snoop)
  (sendTimingSnoopResp := ex_snoop_resp) (schedTimingResp := ex_sched)).

Definition ex_ranges (k : Z) (s : Sys (W := World)) : option Sys :=
  match recvRangeChange (xparams ex_params) XBarProps.ex_ranges k (base (sx s)) with
  | Ok b => Some (mkSys (set_base b (sx s)) (sw s) (owed s) (asked s)) | Err _ => None end.
Definition ex_release (now i : Z) (s : Sys (W := World)) : option Sys :=
  match releaseReqLayer ex_params now (λ _ l, Ok l) i (sx s) with
  | Ok x => Some (mkSys x (sw s) (owed s) (asked s)) | Err _ => None end.
Definition ex_recv (now : Z) (p : CohPacket) (i : Z) (s : Sys (W := World)) : result (bool * CohPacket * CoherentXBar * World) :=
  recvTimingReq ex_params ex_send ex_try ex_snoop ex_sched now p i (sx s) (sw s).
Definition ex_ask (now : Z) (p : CohPacket) (i : Z) (s : Sys (W := World)) : option Sys :=
  if isRequest (cmd (qpkt p)) && negb (isClean (cmd (qpkt p))) && bool_decide (owed s !! qreq p = None) && fromCache (cmd (qpkt p)) then
    match ex_recv now p i s with
    | Ok (b, _, x, w) => Some (mkSys x w (after_request b p i x (owed s)) (asked s ++ if b && asks (qpkt p) then [(qreq p, Cpu i)] else []))
    | Err _ => None
    end
  else None.
Definition ex_answer (now : Z) (r : positive) (k : Z) (s : Sys (W := World)) : option Sys :=
  match owed s !! r with
  | Some (mkEntry _ Memory q) =>
      match makeResponse q with
      | Ok q' =>
          let p := mkCPkt (mkXPkt q' r 0 0) 0 0 false false in
          match recvTimingResp ex_params ex_sched now p k (sx s) (sw s) with
          | Ok (b, _, x, w) => Some (mkSys x w (after_response b p (owed s)) (asked s)) | Err _ => None end
      | Err _ => None
      end
  | _ => None
  end.

Lemma ex_ranges_step k s s' : ex_ranges k s = Some s' → ex_step s s'.
Proof. unfold ex_ranges. destruct s as [x w t a]. simpl. destruct (recvRangeChange _ _ _ _) eqn:H; [|done]. intros [= <-]. apply st_other. by eapply ot_ranges. Qed.
Lemma ex_release_layer_step now i s s' : ex_release now i s = Some s' → ex_step s s'.
Proof. unfold ex_release. destruct s as [x w t a]. simpl. destruct (releaseReqLayer _ _ _ _ _) eqn:H; [|done]. intros [= <-]. apply st_other. by eapply ot_release_req. Qed.
Lemma ex_ask_step now p i s s' : ex_ask now p i s = Some s' → ex_step s s'.
Proof.
  unfold ex_ask. destruct s as [x w t a]. simpl. destruct (_ && _) eqn:Hg; [|done]. rewrite !andb_true_iff in Hg. destruct Hg as [[[H1 H2] H3] H4].
  destruct (ex_recv _ _ _ _) as [[[[b p'] x'] w']|] eqn:H; [|done]. intros [= <-]. eapply st_request; [exact H|].
  apply negb_true_iff in H2. apply bool_decide_eq_true in H3. constructor; [done|done|congruence|]. intros _ q _ _. by right.
Qed.
Lemma ex_answer_step now r k s s' : ex_answer now r k s = Some s' → ex_step s s'.
Proof.
  unfold ex_answer. destruct s as [x w t a]. simpl. destruct (t !! r) as [[pl [] q]|] eqn:Hr; [|done..]. destruct (makeResponse q) as [q'|] eqn:Hq; [|done].
  destruct (recvTimingResp _ _ _ _ _ _ _) as [[[[b p'] x'] w']|] eqn:H; [|done]. intros [= <-]. eapply st_response; [exact H|].
  exists (mkEntry pl Memory q). split; [done|]. split; [done|]. by eapply makeResponse_about.
Qed.

Fixpoint ex_run (l : list (Sys (W := World) → option Sys)) (s : Sys (W := World)) : option Sys :=
  match l with [] => Some s | f :: l => match f s with Some s => ex_run l s | None => None end end.

Lemma ex_run_steps l : ∀ s s', Forall (λ f : Sys → option Sys, ∀ x y, f x = Some y → ex_step x y) l → ex_run l s = Some s' → rtc ex_step s s'.
Proof.
  induction l as [|f l IH]; intros s s' Hf H; simpl in H; [injection H as <-; constructor|]. apply Forall_cons in Hf as [Hf Hl].
  destruct (f s) as [s1|] eqn:Hs; [|done]. eapply rtc_l; [by apply Hf|]. by apply IH.
Qed.

(** A read by a cache of the 64 bytes from the address on. *)
Definition ex_read (r : positive) (a : Z) : CohPacket :=
  let q := mkRequest (Some a) (Some 64) false false false false false false false false false false false false false [] false in
  mkCPkt (mkXPkt (match Packet_new q ReadSharedReq with Ok k => k | Err _ => mkPacket ReadSharedReq 0 q [] a false 64 [] 0 0 [] end) r 0 0) 0 (Z.pos r) false false.

(** Both caches read; the crossbar is busy for a while with each. *)
Definition ex_prefix : list (Sys (W := World) → option Sys) :=
  [ex_ranges 0; ex_ranges 1; ex_ask 500 (ex_read 7 0x10040) 0; ex_release 6000 1].
Definition ex_steps : list (Sys (W := World) → option Sys) :=
  ex_prefix ++ [ex_ask 7000 (ex_read 8 0x10040) 1; ex_answer 9000 7 1].

Lemma ex_steps_ok : Forall (λ f : Sys → option Sys, ∀ x y, f x = Some y → ex_step x y) ex_steps.
Proof.
  repeat apply Forall_cons_2; try apply Forall_nil_2; intros x y;
    first [apply ex_ranges_step|apply ex_release_layer_step|apply ex_ask_step|apply ex_answer_step].
Qed.

Lemma ex_prefix_ok : Forall (λ f : Sys → option Sys, ∀ x y, f x = Some y → ex_step x y) ex_prefix.
Proof. pose proof ex_steps_ok as H. by apply Forall_app in H as [H _]. Qed.

(** The first read was answered by memory, the second is answered by the first cache. *)
Lemma requests_answered_once_witness : ∃ s, ex_run ex_steps ex_start = Some s ∧
  asked s = [(7%positive, Cpu 0); (8%positive, Cpu 1)] ∧ (sw s).1 = [(7%positive, Cpu 0)] ∧ owed_list (owed s) = [(8%positive, Cpu 1)] ∧
  (8%positive ∈ outstandingSnoop (sx s)) ∧ asked s ≡ₚ (sw s).1 ++ owed_list (owed s) ∧
  (8%positive ∈ outstandingSnoop (sx s) ↔ ∃ e, owed s !! 8%positive = Some e ∧ e_source e = Snooper ∧ to_cpu e = true).
Proof.
  destruct (ex_run ex_steps ex_start) as [s|] eqn:Hs; [|vm_compute in Hs; discriminate]. exists s. split; [reflexivity|].
  assert (asked s = [(7%positive, Cpu 0); (8%positive, Cpu 1)] ∧ (sw s).1 = [(7%positive, Cpu 0)] ∧ owed_list (owed s) = [(8%positive, Cpu 1)] ∧
    bool_decide (8%positive ∈ outstandingSnoop (sx s)) = true) as (H1 & H2 & H3 & H4).
  { vm_compute in Hs. injection Hs as <-. split_and!; vm_compute; reflexivity. }
  destruct (requests_answered_once ex_params fst eq_refl ex_start s ex_started (ex_run_steps _ _ _ ex_steps_ok Hs)) as (H5 & _ & H6).
  split; [exact H1|]. split; [exact H2|]. split; [exact H3|]. split; [exact (bool_decide_eq_true_1 _ H4)|]. split; [exact H5|]. exact (H6 8%positive).
Defined.

Definition ex_port1 : Port := SnoopFilter.mkPort 1 true.

(** The filter knows that the second cache waits for the line. *)
Lemma filter_knows_who_waits_witness : ∃ s sf, ex_run ex_steps ex_start = Some s ∧ snoopFilter (sx s) = Some sf ∧
  requested_bit (SnoopFilter.cachedLocations sf) 0x10040 1 ∧
  (requested_bit (SnoopFilter.cachedLocations sf) 0x10040 1 ↔
   ∃ r e, owed s !! r = Some e ∧ e_place e = Cpu 1 ∧ remembered ex_port1 (e_pkt e) = true ∧ 0x10040 = line_of (SnoopFilter.linesize sf) (e_pkt e)).
Proof.
  destruct (ex_run ex_steps ex_start) as [s|] eqn:Hs; [|vm_compute in Hs; discriminate]. exists s.
  assert (∃ sf, snoopFilter (sx s) = Some sf ∧ requested_bit (SnoopFilter.cachedLocations sf) 0x10040 1 ∧
    SnoopFilter.localResponsePortIds sf = [0; 1]) as (sf & Hsf & Hb & Hids).
  { vm_compute in Hs. injection Hs as <-. eexists. split; [vm_compute; reflexivity|]. split; [eexists; split; vm_compute; reflexivity|]. vm_compute. reflexivity. }
  exists sf. split; [reflexivity|]. split; [exact Hsf|]. split; [exact Hb|].
  refine (proj2 (filter_knows_who_waits ex_params fst eq_refl ex_start s sf ex_port1 1 0x10040 ex_started (ex_run_steps _ _ _ ex_steps_ok Hs) Hsf _ _)).
  - vm_compute. right. left.
  - split; [reflexivity|]. split; [discriminate|]. rewrite Hids. split; [reflexivity|lia].
Defined.

(** The second read snoops the first cache, which waits for the line. *)
Lemma interested_ports_are_snooped_witness : ∃ s p' x' w', ex_run ex_prefix ex_start = Some s ∧
  ex_recv 7000 (ex_read 8 0x10040) 1 s = Ok (true, p', x', w') ∧ w'.2 = [0] ∧
  ∃ l, w'.2 = (sw s).2 ++ l ∧ 1 ∉ l.
Proof.
  destruct (ex_run ex_prefix ex_start) as [s|] eqn:Hs; [|vm_compute in Hs; discriminate].
  destruct (ex_recv 7000 (ex_read 8 0x10040) 1 s) as [[[[b p'] x'] w']|] eqn:Hr; [|vm_compute in Hs; injection Hs as <-; vm_compute in Hr; discriminate].
  assert (b = true ∧ w'.2 = [0]) as [-> Hw].
  { vm_compute in Hs. injection Hs as <-. vm_compute in Hr. injection Hr as <- <- <- <-. split; reflexivity. }
  exists s, p', x', w'. split; [reflexivity|]. split; [exact Hr|]. split; [exact Hw|].
  destruct (interested_ports_are_snooped ex_params fst snd eq_refl ex_start s 7000 (ex_read 8 0x10040) 1 true p' x' w' ex_port1 ex_started
    (ex_run_steps _ _ _ ex_prefix_ok Hs) Hr ltac:(reflexivity)) as (l & Hl & Hn & _). exists l. split; [exact Hl|exact Hn].
Defined.

(** ** Requests that are refused *)

(** A clean request on its way down, which the neighbour below cannot take now. *)
Definition ex_busy (k : Z) (p : CohPacket) (w : World) : bool * World := (false, w).
Definition ex_full (k : Z) (p : CohPacket) (w : World) : bool * CohPacket * World := (false, p, w).
Definition ex_command (c : Command) (r : positive) (a : Z) : CohPacket :=
  set_qpkt (with_cmd (qpkt (ex_read r a)) c) (ex_read r a).
Definition ex_ready : CoherentXBar :=
  match ex_run [ex_ranges 0; ex_ranges 1] ex_start with Some s => sx s | None => ex_new end.

(** A request that was refused by the neighbour has the delay it came with, but a clean request
    for which the neighbour was tried first keeps the delay of the crossbar, each time. *)
Lemma refused_clean_keeps_delay :
  (∃ p x w, recvTimingReq ex_params ex_full ex_try ex_snoop ex_sched 500 (ex_command ReadSharedReq 7 0x10040) 0 ex_ready ([], []) = Ok (false, p, x, w) ∧
     headerDelay (xp p) = 0) ∧
  (∃ p x w, recvTimingReq ex_params ex_send ex_busy ex_snoop ex_sched 500 (ex_command CleanSharedReq 7 0x10040) 0 ex_ready ([], []) = Ok (false, p, x, w) ∧
     headerDelay (xp p) = 7500).
Proof. split; eexists _, _, _; (split; [vm_compute; reflexivity|]); vm_compute; reflexivity. Qed.

(** Both caches hold the line of the write-back. *)
Definition ex_shared : CoherentXBar :=
  match snoopFilter ex_ready with
  | Some sf => set_filter (SnoopFilter.with_locations sf (<[0x10040 := SnoopFilter.mkItem 0 3]> ∅)) ex_ready
  | None => ex_ready
  end.
Definition ex_holders (x : CoherentXBar) : option Z :=
  match snoopFilter x with Some sf => SnoopFilter.holder <$> (SnoopFilter.cachedLocations sf !! 0x10040) | None => None end.

(** The write-back of port 0 takes it out of the holders; when it was refused before, it does
    not, since the mark that the crossbar itself set makes it look like one from a cache above
    which others still hold the block. *)
Lemma retried_writeback_stays_holder :
  (∃ p x w, recvTimingReq ex_params ex_send ex_try ex_snoop ex_sched 500 (ex_command WritebackDirty 7 0x10040) 0 ex_shared ([], []) = Ok (true, p, x, w) ∧
     ex_holders x = Some 2) ∧
  (∃ p x w p' x' w', recvTimingReq ex_params ex_full ex_try ex_snoop ex_sched 500 (ex_command WritebackDirty 7 0x10040) 0 ex_shared ([], []) = Ok (false, p, x, w) ∧
     ex_holders x = Some 3 ∧
     recvTimingReq ex_params ex_send ex_try ex_snoop ex_sched 500 p 0 ex_shared w = Ok (true, p', x', w') ∧ ex_holders x' = Some 3).
Proof.
  split; [eexists _, _, _; split; [vm_compute; reflexivity|]; vm_compute; reflexivity|].
  eexists _, _, _, _, _, _. split; [vm_compute; reflexivity|]. split; [vm_compute; reflexivity|]. split; [vm_compute; reflexivity|]. vm_compute. reflexivity.
Qed.

End CoherentExample.
